(* ===== verification/_CoqProject ===== *)
-Q . S2P
Prelude.v
State.v
Runtime.v
Logic.v
Lifecycle.v
Promise.v
Worlds.v
Address.v
Inet.v
Streams.v
StreamsProofs.v
Timers.v
TimersProofs.v
UvHeap.v
UvHeapProofs.v
UvHeapSpec.v
UvTimer.v
UvTimerProofs.v
UvTimerRun.v
Udp.v
UdpProofs.v
Signals.v
Dns.v
LoadFile.v
Fs.v
FsProofs.v
Process.v
ProcessProofs.v
Ikcp.v
IkcpWire.v
IkcpRecv.v
IkcpSend.v
IkcpLink.v
IkcpTime.v
IkcpSafe.v
Kcp.v
KcpProofs.v
Misc.v
Worker.v
Curl.v
CurlProofs.v
XhrHeaders.v
Xhr.v
XhrProofs.v
XhrEnd.v
Wasm.v
WasmProofs.v
WasmCall.v
Udivmod.v
Cli.v
Modules.v
Vm.v
Std.v
Life.v
Jsmin.v
JsminProofs.v
JsminTree.v
InitProject.v
JsPath.v
JsPathProofs.v
JsPathRel.v
JsPathParse.v
JsEncoding.v
JsEncodingProofs.v
JsEncodingObj.v
JsEvents.v
JsEventsProofs.v
JsEventsRun.v
JsUrl.v
JsUrlProofs.v
JsUrlTrip.v
JsUrlStable.v
