(* ===== verification/Prelude.v ===== *)
(** * Verification of ijjs

    ijjs runs JavaScript on quickjs with libuv underneath. Its own C code (src/code/src,
    src/code/main.c) binds libuv, curl and the like to JavaScript objects, loads modules and
    drives the event loop; a library in JavaScript (src/code/js) is compiled into it. This
    development models that code, with the parts of the vendored libraries its behaviour
    rests on most, and proves what makes it correct, or shows by a theorem where it is not.

    ** The parts and how they interact

    JavaScript calls a method of a module (a stream, a file, a process, ...). The method
    converts its arguments, allocates a request, hands it to libuv and returns a promise.
    Later the event loop calls back: the callback settles the promise and frees
    the request. Objects live as long as JavaScript and libuv both need them: the
    collector runs a finalizer, libuv a close callback, and the last of the two
    frees. So the questions are the same everywhere: is every reference taken
    released once, is every block freed once and not used after, is every promise
    settled with the value it should have.

    ** Files

    - Prelude: bytes, machine integers, tactics and hints shared by all files.
    - State, Runtime: the world of the C code. JavaScript values in counted cells, C blocks
      with the structure each holds, the pending exception and the log of external calls
      ([World]); the operations of quickjs and of the allocators the sources use, in
      a state monad with faults ([M]): [Ok], [Abort] for a failed CHECK, [Fault] for
      undefined behaviour (use after free, double free, NULL dereference, freeing an open
      handle, reading past an array, ...).
    - Logic: weakest preconditions for [M]; the ledger of ownership: [owned] counts the
      references structures own, [excess] what C code holds beyond that, [balanced]
      says a computation leaves exactly the references it returns.
    - Lifecycle: the abstract life of a structure shared by JavaScript and libuv, the class
      [Lifecycle] a module implements, and the refinement theorem proved once.
    - Promise: ijutils.c and ijerror.c: promise records, errors, array buffers.
    - Worlds: concrete worlds on which theorems are evaluated.
    - Address: ijObj2Addr and ijAddr2Obj of ijutils.c. Inet: libuv's inet.c, the texts of IPv4 and
      IPv6 addresses behind them.
    - UvHeap: libuv's heap-inl.h, a heap of linked nodes; UvHeapProofs: its nodes as a complete
      binary tree; UvHeapSpec: the set it implements. UvTimer: libuv's timer.c with the parts
      of core.c and uv-common.h timers use; UvTimerProofs: the invariant of a loop's timers;
      UvTimerRun: sequences of operations, and running the timers that are due.
    - Streams, Timers, Udp, Signals, Dns, Fs, Process, Kcp: ijstreams.c, ijtimers.c, ijudp.c,
      ijsignals.c, ijdns.c, ijfs.c, ijprocess.c, ijkcp.c, function by function under their
      names; the file of the same name with Proofs has the theorems.
    - LoadFile: ijLoadFile of ijvm.c.
    - Vm: ijvm.c: the allocator with its accounting, the job queue, ijEvalFile. Life: ijFreeRuntime
      with the handles of the loop, and the report of unhandled rejections.
    - Misc: ijmisc.c. Worker: ijworker.c, the thread seen from outside. Std: ijlog.c, ijstd.c,
      ijbootstrap.c.
    - Curl, CurlProofs: the part of ijutils.c that drives curl. XhrHeaders, Xhr: ijxhr.c, the header
      text and everything else; XhrProofs: a request from its construction to the getters;
      XhrEnd: finalization, and where the code fails.
    - Wasm: ijwasm.c with the part of wasm3 (externals/wasm/m3_env.c) it relies on; WasmProofs:
      lives of modules and instances; WasmCall: calls.
    - Jsmin, JsminProofs: externals/jsmin/jsmin.c, which main.c includes for --min: the
      minifier as a machine on bytes, that it ends, and a reference it agrees with. JsminTree:
      the walk over the directories under dist.
    - Modules: ijmodules.c: names, loaders, import.meta.
    - Udivmod: m.c, the 128-bit division.
    - JsPath: js/path.js for POSIX systems; JsPathProofs: normalize, join and resolve as
      operations on segments; JsPathRel: relative; JsPathParse: basename, dirname, extname,
      parse and format.
    - JsEncoding: js/encoding.js, TextEncoder and TextDecoder over handlers (classes [Decoder] and
      [Encoder]); JsEncodingProofs: UTF-8, UTF-16 and x-user-defined and the laws of handlers
      ([DecoderLaws], [Codec]); JsEncodingObj: the objects, proved from the laws.
    - JsEvents: js/event-target.js, listeners as linked nodes with identities; JsEventsProofs: the
      lists they implement; JsEventsRun: dispatch, with callbacks that change the lists.
    - JsUrl: the class URL of js/url.js, its parser as a machine with one function per state;
      JsUrlProofs: that it ends, and its exceptions; JsUrlTrip: reading the text of a URL again;
      JsUrlStable: what the parser gives, by an invariant with one rule per state (class
      [Lowering] for toLowerCase).
    - Cli, InitProject: main.c: options, the run of the program, project creation.
    - Ikcp: ikcp.c, the KCP protocol under the KCP sockets (src/code/externals/kcp, built into
      the program): a control block is a record of settings, sending side, receiving side
      and clock, each function a function on it; numbers wrap at 32 bits. IkcpWire: headers
      and datagrams. IkcpRecv: the receiving side. IkcpSend: the sending side and flush.
      IkcpLink: two endpoints over an unreliable network, as a step relation with an
      executable scheduler. IkcpTime: timeouts, ikcp_check, streaming mode. IkcpSafe: any peer.

    ** What the theorems show

    - Lives: every sequence of close, close callback and finalizer the owners can
      perform on a stream, a UDP socket, a signal handler or a process runs without a fault
      and frees the structure exactly when both have let go (stream_freed_once and its
      siblings). KCP sockets do not: lemma kcp_close_then_finalize.
    - Callbacks and methods: each settles its promise once with the value or error it
      should have, frees its request and balances the books of references
      (read_cb_spec, stream_write_spec, promise_settles; and lemmas of the same kind for every
      module: settle_req_spec, fs_cb_spec, udp_recv_cb_spec, dns_cb_spec, exit_cb_spec,
      timer_cb_spec, ...).
    - Timers: libuv's heap implements a set with a least element (heap_implements_set); whatever is
      done to timers, the heap holds exactly the active ones and no assertion fails
      (timer_ops_ok); running them ends and calls each that is due once, in order
      (timers_run); a zero timeout started by a callback keeps it from ending
      (zero_timeout_starves).
    - End to end: readFile delivers the whole contents (read_file_run_spec), evaluation and
      the module loader compile the whole file (eval_file_spec, loader_script).
      A request over HTTP delivers status, headers and body (xhr_request), a module over HTTP its
      text (load_http_ok), a call of a WebAssembly function its result (wasm_call).
    - Round trips and equivalences: addresses and their texts (inet_roundtrip), segments of KCP
      (seg_roundtrip), open flags (open_flags_of), division (udivmodti4_spec), the minifier
      (jsmin_minifies), which always ends (lemma compressjs_ends) and is applied to exactly the
      JavaScript files under dist (min_dist).
    - Paths: the character loops compute normal forms of segments (normalize_string_spec), relative
      paths lead where they should (relative_leads), the parts of a path are those of its
      segments (path_parts) and make it up again (path_format_parse).
    - Text: what is encoded decodes to itself (text_roundtrip), decoding in pieces is decoding at once
      (decode_in_pieces), UTF-8 in fatal mode accepts encodings of scalar values and
      nothing else (utf8_fatal_exact).
    - Events: linked nodes implement the lists of listeners (listeners_refine), dispatch calls them in
      order (dispatch_in_order) and survives callbacks that remove listeners
      (dispatch_safe), though it can revive one of them (dispatch_revives).
    - URLs: reading one ends (url_parse_ends), and the text of the result is read as the same URL
      (url_reparse); files are left out of the second, since the host of a file can be taken
      for a drive, and so are ports of 2^53 and more.
    - Invariants: the allocator's counters (alloc_run_accounted), the sockets watched for curl
      (sockets_run), references around unhandled rejections (rejection_balanced).
    - Two objects that share memory: WebAssembly modules and instances (instance_life), workers and
      their messages (worker_message, post_message_written).
    - Liveness: the job queue is drained (turns_drain), a runtime is freed exactly when its requests
      complete in time (free_runtime_iff).
    - Bounds: module names fit their blocks (normalizer_fits), fixed buffers do not hold
      long paths (init_project_complete, normalizer_tmp_overflow, module_type_overflow).
    - Command line: parsing terminates and keeps its options sound, a run has the right
      shape, and the program crashes exactly without a file (main_crash).
    - KCP: messages arrive whole, in order and once over a network that loses, duplicates and
      reorders (kcp_in_order), none is lost (kcp_complete), a flush in which everything is
      due gets everything across (kcp_round), datagrams fit the mtu (kcp_datagrams), and no
      peer can break the control block or make it keep more than its window (kcp_any_peer).

    ** Choices

    External calls (libuv, allocation, curl, ...) are answered by an environment from the
    history of calls, so every theorem holds for all answers unless it names the ones it
    needs. Addresses are fresh positives. The ledger counts references held by C code; those
    JavaScript holds are outside, so a value C code released may live on. Loops that depend
    on the outside run on fuel: ijLoadFile ends within one read more than the file has
    bytes, the option parser within one step per argument, the job loop within one step per
    job, the minifier within one turn per byte and three more, as the theorems say. The sifts of
    the heap end within one turn per node, running timers within one turn per timer that is due,
    the loops over paths within one turn per character, decoding within three turns per byte and
    five more (a byte can be put back once), the walk over directories within their depth, walks over listeners within one turn per node ever
    made, reading a URL within 24 turns per character and 72 more. JavaScript strings are lists of UTF-16 code units; numbers that the sources shift or mask
    are wrapped at 32 bits as the language does. Platform conditionals are those of Linux; m.c is
    compiled on Windows only.

    ** Not modelled

    The native modules (modules/), the creation of the engine in ijvm.c and what a worker's thread
    evaluates are not modelled. Of ikcp.c,
    logging and failing allocations are left out; ikcp_wndsize is left out of kcp_any_peer, since a
    window that shrinks does not bound what was accepted before.

    Apart from the files named above, vendored libraries (quickjs, libuv, curl, mbedtls, jemalloc,
    wasm3, miniz, ...) are the environment; only what their documentation promises is used. Of the
    JavaScript library, path.js is modelled without the functions for Windows, encoding.js without
    the names of encodings and without those that need tables (which are not in the repository),
    event-target.js whole, and url.js without URLSearchParams; the other files and the generated
    bytecode (ijjs.c) are not. The
    collector's mark functions are modelled as the values they show. *)

From Stdlib Require Export ZArith Lia Ascii String.
From stdpp Require Export base list strings option numbers gmap.

#[global] Set Default Proof Using "Type".
Global Open Scope Z_scope.

(** ** Bytes and C strings

    A C string is the list of its characters without the final NUL. *)

Abbreviation bytes := (list ascii).

(** The characters of a literal. *)
Definition lit (s : string) : bytes := list_ascii_of_string s.

Lemma length_lit s : length (lit s) = String.length s.
Proof. induction s as [|c s IH]; [done|]. simpl. by rewrite <- IH. Qed.

(** ** Machine integers *)

Definition unsigned32 (z : Z) : Z := z mod 2 ^ 32.
Definition unsigned64 (z : Z) : Z := z mod 2 ^ 64.
Definition unsigned16 (z : Z) : Z := z mod 2 ^ 16.
Definition signed32 (z : Z) : Z := (z + 2 ^ 31) mod 2 ^ 32 - 2 ^ 31.
Definition signed64 (z : Z) : Z := (z + 2 ^ 63) mod 2 ^ 64 - 2 ^ 63.

Create HintDb wrap.

Lemma unsigned16_small z : 0 ≤ z < 2 ^ 16 → unsigned16 z = z.
Proof. apply Z.mod_small. Qed.
Lemma unsigned32_small z : 0 ≤ z < 2 ^ 32 → unsigned32 z = z.
Proof. apply Z.mod_small. Qed.
Lemma unsigned64_small z : 0 ≤ z < 2 ^ 64 → unsigned64 z = z.
Proof. apply Z.mod_small. Qed.
Lemma unsigned32_range z : 0 ≤ unsigned32 z < 2 ^ 32.
Proof. by apply Z.mod_pos_bound. Qed.
Lemma unsigned64_range z : 0 ≤ unsigned64 z < 2 ^ 64.
Proof. by apply Z.mod_pos_bound. Qed.
Lemma signed32_range z : - 2 ^ 31 ≤ signed32 z < 2 ^ 31.
Proof. unfold signed32. pose proof (Z.mod_pos_bound (z + 2 ^ 31) (2 ^ 32)). lia. Qed.
Lemma signed64_range z : - 2 ^ 63 ≤ signed64 z < 2 ^ 63.
Proof. unfold signed64. pose proof (Z.mod_pos_bound (z + 2 ^ 63) (2 ^ 64) eq_refl). lia. Qed.
Lemma signed32_small z : - 2 ^ 31 ≤ z < 2 ^ 31 → signed32 z = z.
Proof. intros H. unfold signed32. rewrite Z.mod_small; lia. Qed.
#[export] Hint Resolve unsigned32_range unsigned64_range signed32_range signed64_range : wrap.

(** Equality of sums that were reduced modulo 2^32 or 2^64 on the way. *)
Ltac wrap_eq :=
  unfold unsigned32, unsigned64; rewrite ?Zplus_mod_idemp_l, ?Zminus_mod_idemp_l, ?Zplus_mod_idemp_r; f_equal; lia.
