(* ===== verification/State.v ===== *)
(** * State of the runtime

    The values the C code manipulates and the structures it allocates:
    JavaScript values as quickjs.h presents them, the promise record of
    ijjs.h, and one record per C structure of the modules under
    src/code/src. [World] puts them together. *)

From S2P Require Import Prelude.

(** ** JavaScript values *)

(** Addresses: of reference-counted JavaScript values, and of C blocks. *)
Abbreviation addr := positive.

(** A [JSValue]: immediate, or a reference to a counted cell. *)
Inductive JSValue :=
| JS_UNDEFINED
| JS_NULL
| JS_EXCEPTION
| JS_BOOL (b : bool)
| JS_INT (n : Z)
| JS_REF (a : addr).

#[export] Instance JSValue_eq_dec : EqDecision JSValue.
Proof. solve_decision. Defined.

(** State of a JavaScript promise. *)
Inductive pstate :=
| Pending
| Fulfilled (v : JSValue)
| Rejected (v : JSValue).

(** The classes the modules register with JS_NewClass. *)
Inductive class_id :=
| cls_tcp | cls_tty | cls_pipe | cls_udp | cls_kcp | cls_timer
| cls_signal_handler | cls_file | cls_dir | cls_process | cls_worker
| cls_xhr | cls_wasm_module | cls_wasm_instance.

#[export] Instance class_id_eq_dec : EqDecision class_id.
Proof. solve_decision. Defined.

(** What a reference-counted cell holds. An own property whose value is
    [JS_EXCEPTION] stands for a getter that throws. *)
Inductive jsbody :=
| BString (s : bytes)
| BError (props : list (string * JSValue))
| BBigUint64 (n : Z)
| BBigInt64 (n : Z)
| BDouble (bits : Z)
| BFloat64 (sec nsec : Z)
| BPromise (st : pstate)
| BResolver (promise : addr) (reject : bool)
| BArrayBuffer (data : bytes)
| BTypedArray (buf : addr) (off len : Z)
| BObject (props : list (string * JSValue))
| BArray (elts : list JSValue)
| BFunction (id : Z)
| BClass (c : class_id) (opaque : option addr).

(** The references in a list of values, in order. *)
Definition ref_of (v : JSValue) : list addr :=
  match v with JS_REF a => [a] | _ => [] end.

Definition refs_of (l : list JSValue) : list addr := l ≫= ref_of.

(** ** libuv handles

    The part of a [uv_handle_t] the modules rely on. [h_active] stands for
    reading, receiving, listening or started, whichever the type has;
    [h_closed] is set once the close callback has been delivered. *)

Inductive uv_type :=
| UV_TCP | UV_NAMED_PIPE | UV_TTY | UV_UDP | UV_TIMER | UV_SIGNAL | UV_PROCESS | UV_IDLE | UV_POLL.

#[export] Instance uv_type_eq_dec : EqDecision uv_type.
Proof. solve_decision. Defined.

Record uv_handle := mkHandle {
  h_type : uv_type;
  h_init : bool;
  h_active : bool;
  h_closing : bool;
  h_closed : bool;
  h_data : option addr
}.

(** A handle field of a block zeroed by [je_calloc]. *)
Definition handle0 (t : uv_type) : uv_handle := mkHandle t false false false false None.

(** libuv still knows the handle: initialised and its close callback not yet run. *)
Definition h_open (h : uv_handle) : bool := h_init h && negb (h_closed h).

(** ** IJJSPromise *)

Record IJJSPromise := mkPromise {
  p_p : JSValue;
  p_rfunc0 : JSValue;
  p_rfunc1 : JSValue;
  p_valid : bool
}.

(** [rfuncs[is_reject]] *)
Definition p_rfuncs (pr : IJJSPromise) (is_reject : bool) : JSValue :=
  if is_reject then p_rfunc1 pr else p_rfunc0 pr.

(** A promise field of a zeroed block: tag 0 is the integer 0. *)
Definition promise0 : IJJSPromise := mkPromise (JS_INT 0) (JS_INT 0) (JS_INT 0) false.

(** The references a promise record owns while it is valid: the promise once and
    each resolving function twice, as [ijInitPromise] takes them. *)
Definition own_promise (pr : IJJSPromise) : list addr :=
  if p_valid pr
  then refs_of [p_p pr; p_rfunc0 pr; p_rfunc0 pr; p_rfunc1 pr; p_rfunc1 pr]
  else [].

(** A promise field of a block from [js_malloc] is uninitialised until it is written. *)
Definition own_promise_opt (o : option IJJSPromise) : list addr :=
  match o with Some pr => own_promise pr | None => [] end.

(** ** Socket addresses *)

Inductive sockaddr :=
| SA_INET (a port : Z)
| SA_INET6 (a port flowinfo scope : Z)
| SA_OTHER (family : Z).

(** ** Structures of the modules *)

(** ijstreams.c *)
Record IJJSStream := mkStream {
  s_closed : Z;
  s_finalized : Z;
  s_h : uv_handle;
  s_read_size : Z;
  s_read_result : IJJSPromise;
  s_accept_result : IJJSPromise
}.

(** A request of ijstreams.c, ijudp.c or ijdns.c: the handle it was submitted on,
    its [data] field and its promise. *)
Record IJJSReq := mkReq {
  rq_handle : option addr;
  rq_data : option addr;
  rq_result : option IJJSPromise
}.

(** Where the bytes of a [uv_buf_t] live. *)
Inductive bufbase :=
| InBlock (p : addr)
| InArrayBuffer (v : JSValue).

(** ijstreams.c IJJSWriteReq: [data] is stored behind the request. *)
Record IJJSWriteReq := mkWriteReq {
  wr_req : IJJSReq;
  wr_data : bytes
}.

(** ijudp.c *)
Record IJJSUdp := mkUdp {
  u_closed : Z;
  u_finalized : Z;
  u_udp : uv_handle;
  u_read_size : Z;
  u_read_result : IJJSPromise
}.

Record IJJSSendReq := mkSendReq {
  sd_req : IJJSReq;
  sd_buf : option (bufbase * bytes)
}.

(** ijtimers.c *)
Record IJJSTimer := mkTimer {
  t_handle : uv_handle;
  t_interval : Z;
  t_obj : JSValue;
  t_func : JSValue;
  t_argc : Z;
  t_argv : list JSValue
}.

(** ijsignals.c *)
Record IJJSSignalHandler := mkSignal {
  sh_closed : Z;
  sh_finalized : Z;
  sh_handle : uv_handle;
  sh_sig_num : Z;
  sh_func : JSValue
}.

(** ijfs.c *)
Record IJJSFile := mkFile { f_fd : Z; f_path : JSValue }.

Record IJJSDir := mkDir {
  d_dir : option Z;
  d_dirent : bytes * Z;
  d_path : JSValue;
  d_done : bool
}.

Inductive uv_fs_type :=
| UV_FS_OPEN | UV_FS_CLOSE | UV_FS_READ | UV_FS_WRITE | UV_FS_STAT | UV_FS_LSTAT
| UV_FS_FSTAT | UV_FS_REALPATH | UV_FS_COPYFILE | UV_FS_RENAME | UV_FS_RMDIR
| UV_FS_UNLINK | UV_FS_MKDTEMP | UV_FS_MKSTEMP | UV_FS_OPENDIR | UV_FS_CLOSEDIR
| UV_FS_READDIR | UV_FS_SCANDIR.

#[export] Instance uv_fs_type_eq_dec : EqDecision uv_fs_type.
Proof. solve_decision. Defined.

(** [fr_buf] is the [buf] of an IJJSFsReadReq, [fr_wdata] the [data] of an
    IJJSFsWriteReq; both begin with an IJJSFsReq. *)
Record IJJSFsReq := mkFsReq {
  fr_type : uv_fs_type;
  fr_res : Z;
  fr_reqpath : bytes;
  fr_data : option addr;
  fr_obj : JSValue;
  fr_result : option IJJSPromise;
  fr_buf : option addr;
  fr_wdata : bytes
}.

Record IJJSReadFileReq := mkReadFileReq {
  rf_dbuf : bytes;
  rf_r : Z;
  rf_filename : option addr;
  rf_data : option addr;
  rf_result : option IJJSPromise
}.

(** ijprocess.c *)
Record IJJSProcess := mkProcess {
  pr_closed : bool;
  pr_finalized : bool;
  pr_process : uv_handle;
  pr_stdin : JSValue;
  pr_stdout : JSValue;
  pr_stderr : JSValue;
  pr_exited : bool;
  pr_exit_status : Z;
  pr_term_signal : Z;
  pr_result : IJJSPromise
}.

(** ijkcp.c; [k_kcp] is the address of the ikcpcb. *)
Record IJJSKcp := mkKcp {
  k_closed : Z;
  k_finalized : Z;
  k_udp : uv_handle;
  k_kcp : option addr;
  k_sa : sockaddr;
  k_conv : Z;
  k_read_size : Z;
  k_read_result : IJJSPromise;
  k_write : option addr;
  k_idle : uv_handle;
  k_nextupdate : Z
}.

(** ijworker.c; [wk_wrt] is the runtime that the worker's thread runs. *)
Record IJJSWorker := mkWorker {
  wk_h : uv_handle;
  wk_events : list JSValue;
  wk_wrt : option addr;
  wk_is_main : bool
}.

Record IJJSWorkerWriteReq := mkWorkerWrite { ww_handle : option addr; ww_data : option addr }.

(** The part of the runtime that ijutils.c keeps for curl: whether the multi handle exists, and
    the timer. *)
Record IJJSRuntime := mkRuntime { rt_curlm_h : bool; rt_timer : uv_handle }.

(** ijutils.c *)
Record IJJSCurlPollCtx := mkPollCtx { pc_poll : uv_handle; pc_sockfd : Z; pc_qrt : option addr }.

(** An easy handle of curl: whether it is in the multi handle, and CURLOPT_PRIVATE. *)
Record CURL := mkEasy { ez_added : bool; ez_private : option addr }.

(** ijxhr.c: the handles of curl, the list of request headers, the status, the values
    handed to JavaScript and the two buffers. *)
Record IJJSXhr := mkXhr {
  x_events : list JSValue;
  x_curl_h : option addr;
  x_curlm_h : bool;
  x_slist : option addr;
  x_sent : bool;
  x_async : bool;
  x_timeout : Z;
  x_response_type : Z;
  x_ready_state : Z;
  x_raw : option addr;
  x_status : JSValue;
  x_status_text : JSValue;
  x_url : JSValue;
  x_headers : JSValue;
  x_response : JSValue;
  x_response_text : JSValue;
  x_hbuf : option addr;
  x_bbuf : option addr
}.

(** wasm3: types, functions and modules. [m3_code] is the block of the binary the functions point into. *)
Inductive m3_type := c_m3Type_none | c_m3Type_i32 | c_m3Type_i64 | c_m3Type_f32 | c_m3Type_f64.

Record M3Function := mkM3Function {
  fn_name : option bytes;
  fn_args : list m3_type;
  fn_ret : m3_type;
  fn_compiled : bool
}.

Record M3Module := mkM3Module { m3_code : addr; m3_functions : list M3Function }.

(** ijwasm.c *)
Record IJJSWasmModule := mkWasmModule { wm_module : option addr; wm_bytes : option addr; wm_size : Z }.

Record IJJSWasmInstance := mkWasmInstance {
  wi_runtime : option addr;
  wi_module : option addr;
  wi_loaded : bool
}.

(** ** C memory *)

(** What a live C block holds. [CSlist] is a list of header lines, [CDyn] the bytes of a DynBuf;
    [CM3Module] and [CM3Runtime] (with the modules loaded into it) are objects of wasm3. *)
Inductive cstruct :=
| CBuf (size : Z)
| CStr (s : bytes)
| CStream (s : IJJSStream)
| CConnectReq (r : IJJSReq)
| CShutdownReq (r : IJJSReq)
| CWriteReq (r : IJJSWriteReq)
| CUdp (u : IJJSUdp)
| CSendReq (r : IJJSSendReq)
| CTimer (t : IJJSTimer)
| CSignal (s : IJJSSignalHandler)
| CFile (f : IJJSFile)
| CDir (d : IJJSDir)
| CFsReq (r : IJJSFsReq)
| CReadFileReq (r : IJJSReadFileReq)
| CGetAddrInfoReq (r : IJJSReq)
| CProcess (p : IJJSProcess)
| CKcp (k : IJJSKcp)
| CIkcp
| CWorker (w : IJJSWorker)
| CWorkerWriteReq (r : IJJSWorkerWriteReq)
| CRuntime (r : IJJSRuntime)
| CPollCtx (c : IJJSCurlPollCtx)
| CXhr (x : IJJSXhr)
| CEasy (h : CURL)
| CDyn (data : bytes)
| CSlist (l : list bytes)
| CWasmModule (m : IJJSWasmModule)
| CWasmInstance (i : IJJSWasmInstance)
| CM3Module (m : M3Module)
| CM3Runtime (loaded : list addr).

(** The allocator a block came from: jemalloc, quickjs', JS_ToCString or the C library; for the
    objects of curl and wasm3 the library that releases them. *)
Inductive allocator := ByJe | ByJs | ByCString | ByLibc | ByCurl | ByM3.

#[export] Instance allocator_eq_dec : EqDecision allocator.
Proof. solve_decision. Defined.

(** The references a structure owns, with multiplicity. The finalizers of signal
    handlers and processes release theirs and only set [finalized], that of a worker
    releases them and starts closing. *)
Definition own (c : cstruct) : list addr :=
  match c with
  | CStream s => own_promise (s_read_result s) ++ own_promise (s_accept_result s)
  | CConnectReq r | CShutdownReq r | CGetAddrInfoReq r => own_promise_opt (rq_result r)
  | CWriteReq r => own_promise_opt (rq_result (wr_req r))
  | CUdp u => own_promise (u_read_result u)
  | CSendReq r => own_promise_opt (rq_result (sd_req r))
  | CTimer t => refs_of (t_obj t :: t_func t :: t_argv t)
  | CSignal s => if sh_finalized s =? 0 then refs_of [sh_func s] else []
  | CFile f => refs_of [f_path f]
  | CDir d => refs_of [d_path d]
  | CFsReq r => own_promise_opt (fr_result r) ++
                match fr_data r with Some _ => refs_of [fr_obj r] | None => [] end
  | CReadFileReq r => own_promise_opt (rf_result r)
  | CProcess p => own_promise (pr_result p) ++
                  if pr_finalized p then [] else refs_of [pr_stdin p; pr_stdout p; pr_stderr p]
  | CKcp k => own_promise (k_read_result k)
  | CWorker w => if h_closing (wk_h w) then [] else refs_of (wk_events w)
  | CXhr x => refs_of (x_events x ++ [x_status x; x_status_text x; x_url x; x_headers x; x_response x; x_response_text x])
  | CBuf _ | CStr _ | CIkcp | CWorkerWriteReq _ | CRuntime _ | CPollCtx _ | CEasy _ | CDyn _ | CSlist _
  | CWasmModule _ | CWasmInstance _ | CM3Module _ | CM3Runtime _ => []
  end.

(** The libuv handles embedded in a structure. *)
Definition handles (c : cstruct) : list uv_handle :=
  match c with
  | CStream s => [s_h s]
  | CUdp u => [u_udp u]
  | CTimer t => [t_handle t]
  | CSignal s => [sh_handle s]
  | CProcess p => [pr_process p]
  | CKcp k => [k_udp k; k_idle k]
  | CWorker w => [wk_h w]
  | CRuntime r => [rt_timer r]
  | CPollCtx c => [pc_poll c]
  | _ => []
  end.

(** ** Calls out of the model *)

(** A call into libuv, quickjs, curl or the C library that the model leaves to the
    environment: its name and the arguments that matter. *)
Inductive arg :=
| AV (v : JSValue)
| AP (p : addr)
| AZ (z : Z)
| AB (b : bytes).

Inductive event := Ev (name : string) (args : list arg).

(** The environment answers each call from the history of calls: with an integer
    ([e_int]), with bytes or a failure ([e_str]), with a socket address
    ([e_sa]). The address conversions of libuv are functions. *)
Record env := mkEnv {
  e_int : list event → Z;
  e_str : list event → option bytes;
  e_sa : list event → sockaddr;
  e_pton4 : bytes → option Z;
  e_pton6 : bytes → option Z;
  e_ntop4 : Z → bytes;
  e_ntop6 : Z → bytes
}.

(** ** The world

    [w_rc] counts the references to a value that C code owns: the runtime model
    is a ledger of C ownership, and references held by JavaScript are outside it. *)
Record World := mkWorld {
  w_env : env;
  w_next : addr;
  w_cell : gmap addr jsbody;
  w_rc : gmap addr Z;
  w_mem : gmap addr (allocator * cstruct);
  w_exc : option JSValue;
  w_log : list event
}.
