(* ===== verification/Runtime.v ===== *)
(** * The runtime monad

    C functions of the modules are computations [M A] over [World]: they return
    a value and a new world ([Ok]), stop the process through [ijAssert] or
    [abort] ([Abort]), or do something the C standard or an allocator forbids
    ([Fault]); a loop that never ends counts as a fault. This file gives the part of
    the quickjs, libuv and allocator interfaces the modules use, in terms of the ledger
    of C ownership. *)

From S2P Require Import Prelude State.

(** ** Outcomes *)

Inductive fault :=
| UseAfterFree | DoubleFree | BadFree | NullDeref | OverFree | Uninit
| OutOfBounds | OpenHandleFreed | TypeConfusion | Overflow | Diverges.

#[export] Instance fault_eq_dec : EqDecision fault.
Proof. solve_decision. Defined.

Inductive outcome (A : Type) :=
| Ok (a : A) (w : World)
| Abort
| Fault (f : fault).
Arguments Ok {A} a w.
Arguments Abort {A}.
Arguments Fault {A} f.

Definition M (A : Type) : Type := World → outcome A.

#[export] Instance M_ret : MRet M := λ A a w, Ok a w.
#[export] Instance M_bind : MBind M := λ A B k m w,
  match m w with Ok a w' => k a w' | Abort => Abort | Fault f => Fault f end.

Definition fail {A} (f : fault) : M A := λ _, Fault f.
Definition abort {A} : M A := λ _, Abort.
Definition gets {A} (f : World → A) : M A := λ w, Ok (f w) w.
Definition modify (f : World → World) : M unit := λ w, Ok tt (f w).

(** ijpre.h CHECK: abort unless the condition holds. *)
Definition CHECK (b : bool) : M unit := if b then mret tt else abort.

(** A pointer that is dereferenced. *)
Definition deref (o : option addr) : M addr :=
  match o with Some p => mret p | None => fail NullDeref end.

(** ijpre.h CHECK_NOT_NULL, giving the pointer. *)
Definition CHECK_NOT_NULL (o : option addr) : M addr :=
  match o with Some p => mret p | None => abort end.

(** ** Updates of the world *)

Definition set_cell (c : gmap addr jsbody) (w : World) : World :=
  mkWorld (w_env w) (w_next w) c (w_rc w) (w_mem w) (w_exc w) (w_log w).
Definition set_rc (r : gmap addr Z) (w : World) : World :=
  mkWorld (w_env w) (w_next w) (w_cell w) r (w_mem w) (w_exc w) (w_log w).
Definition set_mem (m : gmap addr (allocator * cstruct)) (w : World) : World :=
  mkWorld (w_env w) (w_next w) (w_cell w) (w_rc w) m (w_exc w) (w_log w).
Definition set_exc (e : option JSValue) (w : World) : World :=
  mkWorld (w_env w) (w_next w) (w_cell w) (w_rc w) (w_mem w) e (w_log w).
Definition set_log (l : list event) (w : World) : World :=
  mkWorld (w_env w) (w_next w) (w_cell w) (w_rc w) (w_mem w) (w_exc w) l.
Definition set_next (n : addr) (w : World) : World :=
  mkWorld (w_env w) n (w_cell w) (w_rc w) (w_mem w) (w_exc w) (w_log w).

(** The references to [a] that C code owns. *)
Definition rc (w : World) (a : addr) : Z := default 0 (w_rc w !! a).
Definition add_rc (a : addr) (d : Z) (w : World) : World :=
  set_rc (<[a := rc w a + d]> (w_rc w)) w.

(** An address above the ones in use and, by [w_next], above every address handed
    out before: freed blocks are never reused, so a stale pointer is always caught. *)
Definition fresh_addr (w : World) : addr :=
  foldr Pos.max (w_next w)
    (Pos.succ <$> (map_to_list (w_cell w)).*1 ++ (map_to_list (w_rc w)).*1 ++ (map_to_list (w_mem w)).*1).

(** ** Questions to the environment *)

Definition log_ev (e : event) (w : World) : World := set_log (e :: w_log w) w.

Definition log (name : string) (args : list arg) : M unit := modify (log_ev (Ev name args)).

Definition ask (name : string) (args : list arg) : M Z := λ w,
  let w' := log_ev (Ev name args) w in Ok (e_int (w_env w) (w_log w')) w'.

Definition ask_str (name : string) (args : list arg) : M (option bytes) := λ w,
  let w' := log_ev (Ev name args) w in Ok (e_str (w_env w) (w_log w')) w'.

Definition ask_sa (name : string) (args : list arg) : M sockaddr := λ w,
  let w' := log_ev (Ev name args) w in Ok (e_sa (w_env w) (w_log w')) w'.

(** ** quickjs: reference counts and values *)

Definition JS_DupValue (v : JSValue) : M JSValue := λ w,
  match v with
  | JS_REF a => Ok v (add_rc a 1 w)
  | _ => Ok v w
  end.

(** Releasing a reference C code does not own is an over-free. *)
Definition JS_FreeValue (v : JSValue) : M unit := λ w,
  match v with
  | JS_REF a => if rc w a <=? 0 then Fault OverFree else Ok tt (add_rc a (-1) w)
  | _ => Ok tt w
  end.

(** JS_FreeValueRT, the variant finalizers use. *)
Definition JS_FreeValueRT : JSValue → M unit := JS_FreeValue.

(** [for (i = 0; i < argc; i++) JS_FreeValue(ctx, argv[i])] *)
Fixpoint free_values (l : list JSValue) : M unit :=
  match l with
  | [] => mret tt
  | v :: l' => JS_FreeValue v ;; free_values l'
  end.

(** A fresh cell, with one reference owned by the caller. *)
Definition js_new (b : jsbody) : M JSValue := λ w,
  let a := fresh_addr w in
  Ok (JS_REF a) (add_rc a 1 (set_cell (<[a := b]> (w_cell w)) (set_next (Pos.succ a) w))).

Definition body_of (v : JSValue) (w : World) : option jsbody :=
  match v with JS_REF a => w_cell w !! a | _ => None end.

Definition JS_IsUndefined (v : JSValue) : bool :=
  match v with JS_UNDEFINED => true | _ => false end.
Definition JS_IsNull (v : JSValue) : bool :=
  match v with JS_NULL => true | _ => false end.
Definition JS_IsException (v : JSValue) : bool :=
  match v with JS_EXCEPTION => true | _ => false end.
Definition JS_IsString (v : JSValue) : M bool :=
  gets (λ w, match body_of v w with Some (BString _) => true | _ => false end).
Definition JS_IsFunction (v : JSValue) : M bool :=
  gets (λ w, match body_of v w with Some (BFunction _) | Some (BResolver _ _) => true | _ => false end).
Definition JS_IsObject (v : JSValue) : M bool :=
  gets (λ w, match body_of v w with
             | Some (BString _) | Some (BBigUint64 _) | Some (BBigInt64 _) | Some (BDouble _) | Some (BFloat64 _ _) | None => false
             | Some _ => true end).
Definition JS_IsArray (v : JSValue) : M bool :=
  gets (λ w, match body_of v w with Some (BArray _) => true | _ => false end).

(** JS_Throw takes over the reference to the thrown value. *)
Definition JS_Throw (v : JSValue) : M JSValue :=
  JS_FreeValue v ;;
  modify (set_exc (Some v)) ;;
  mret JS_EXCEPTION.

(** An exception raised inside quickjs (a failed conversion, out of memory). *)
Definition js_raise : M unit := modify (set_exc (Some JS_NULL)).

Definition js_throw_msg (msg : string) : M JSValue :=
  s ← js_new (BString (lit msg)) ;
  JS_FreeValue s ;;
  e ← js_new (BError [("message"%string, s)]) ;
  JS_Throw e.

Definition JS_ThrowTypeError (msg : string) : M JSValue := js_throw_msg msg.
Definition JS_ThrowInternalError (msg : string) : M JSValue := js_throw_msg msg.
Definition JS_ThrowRangeError (msg : string) : M JSValue := js_throw_msg msg.

Definition JS_NewInt32 (z : Z) : JSValue := JS_INT (signed32 z).
Definition JS_NewBool (b : bool) : JSValue := JS_BOOL b.
Definition JS_NewString (s : bytes) : M JSValue := js_new (BString s).
Definition JS_NewObjectProto : M JSValue := js_new (BObject []).
Definition JS_NewArray : M JSValue := js_new (BArray []).
Definition JS_NewBigUint64 (z : Z) : M JSValue := js_new (BBigUint64 (unsigned64 z)).

(** Allocations whose failure the modules test: the environment answers 0 when they succeed. *)
Definition js_try_new (name : string) (b : jsbody) : M JSValue :=
  r ← ask name [] ;
  if r =? 0 then js_new b else (js_raise ;; mret JS_EXCEPTION).

Definition JS_NewObjectClass (c : class_id) : M JSValue :=
  js_try_new "JS_NewObjectClass" (BClass c None).

(** The cell after an own property has been added. *)
Definition add_prop (name : string) (v : JSValue) (b : jsbody) : jsbody :=
  match b with
  | BObject ps => BObject (ps ++ [(name, v)])
  | BError ps => BError (ps ++ [(name, v)])
  | b => b
  end.

Definition add_elt (v : JSValue) (b : jsbody) : jsbody :=
  match b with BArray es => BArray (es ++ [v]) | b => b end.

Definition update_cell (obj : JSValue) (f : jsbody → jsbody) (w : World) : World :=
  match obj with
  | JS_REF a => set_cell (alter f a (w_cell w)) w
  | _ => w
  end.

Definition JS_SetOpaque (obj : JSValue) (p : addr) : M unit :=
  modify (update_cell obj (λ b, match b with BClass c _ => BClass c (Some p) | b => b end)).

(** JS_GetOpaque: the opaque pointer of an object of the class. *)
Definition JS_GetOpaque (obj : JSValue) (c : class_id) : M (option addr) :=
  gets (λ w, match body_of obj w with
             | Some (BClass c' o) => if decide (c' = c) then o else None
             | _ => None end).

(** JS_GetOpaque2: the same, raising a TypeError for another class. *)
Definition JS_GetOpaque2 (obj : JSValue) (c : class_id) : M (option addr) :=
  o ← JS_GetOpaque obj c ;
  match o with
  | Some p => mret (Some p)
  | None => _ ← JS_ThrowTypeError "object expected" ; mret None
  end.

(** JS_DefinePropertyValueStr takes over the reference to the value. *)
Definition JS_DefinePropertyValueStr (obj : JSValue) (name : string) (v : JSValue) : M unit :=
  JS_FreeValue v ;;
  modify (update_cell obj (add_prop name v)).

(** The modules define the elements of an array in order. *)
Definition JS_DefinePropertyValueUint32 (obj : JSValue) (v : JSValue) : M unit :=
  JS_FreeValue v ;;
  modify (update_cell obj (add_elt v)).

Fixpoint assoc (name : string) (l : list (string * JSValue)) : option JSValue :=
  match l with
  | [] => None
  | (n, v) :: l' => if String.eqb n name then Some v else assoc name l'
  end.

(** JS_GetPropertyStr: a new reference to the property's value, or undefined; undefined and
    null have no properties. *)
Definition JS_GetPropertyStr (obj : JSValue) (name : string) : M JSValue :=
  match obj with
  | JS_UNDEFINED | JS_NULL | JS_EXCEPTION => js_raise ;; mret JS_EXCEPTION
  | _ =>
      b ← gets (body_of obj) ;
      match b with
      | Some (BObject ps) | Some (BError ps) => JS_DupValue (default JS_UNDEFINED (assoc name ps))
      | Some (BArray es) => if String.eqb name "length" then mret (JS_INT (Z.of_nat (length es)))
                            else mret JS_UNDEFINED
      | _ => mret JS_UNDEFINED
      end
  end.

Definition JS_GetPropertyUint32 (obj : JSValue) (i : nat) : M JSValue :=
  b ← gets (body_of obj) ;
  match b with
  | Some (BArray es) => JS_DupValue (default JS_UNDEFINED (es !! i))
  | _ => mret JS_UNDEFINED
  end.

(** ** quickjs: conversions

    Immediate values convert as in JS_ToInt32Free; for the others the environment
    gives the number, or raises when its answer is [None]. *)

Definition js_to_number (v : JSValue) : M (option Z) :=
  match v with
  | JS_INT n => mret (Some n)
  | JS_BOOL b => mret (Some (if b then 1 else 0))
  | JS_UNDEFINED | JS_NULL => mret (Some 0)
  | JS_EXCEPTION => mret None
  | JS_REF _ =>
      ok ← ask "ToNumber.ok" [AV v] ;
      if ok =? 0 then (z ← ask "ToNumber" [AV v] ; mret (Some z))
      else (js_raise ;; mret None)
  end.

Definition JS_ToInt32 (v : JSValue) : M (option Z) :=
  o ← js_to_number v ; mret (signed32 <$> o).
Definition JS_ToUint32 (v : JSValue) : M (option Z) :=
  o ← js_to_number v ; mret (unsigned32 <$> o).
Definition JS_ToInt64 (v : JSValue) : M (option Z) :=
  o ← js_to_number v ; mret (signed64 <$> o).

Definition MAX_SAFE_INTEGER : Z := 2 ^ 53 - 1.

Definition JS_ToIndex (v : JSValue) : M (option Z) :=
  o ← js_to_number v ;
  match o with
  | None => mret None
  | Some z => if (z <? 0) || (MAX_SAFE_INTEGER <? z)
              then (_ ← JS_ThrowRangeError "invalid array index" ; mret None)
              else mret (Some z)
  end.

(** Zeros and NaNs, by the bits of the double. *)
Definition double_false (bits : Z) : bool :=
  let m := bits mod 2 ^ 63 in (m =? 0) || (0x7ff * 2 ^ 52 <? m).

(** JS_ToBool: -1 for an exception. *)
Definition JS_ToBool (v : JSValue) : M Z :=
  match v with
  | JS_BOOL b => mret (if b then 1 else 0)
  | JS_INT n => mret (if n =? 0 then 0 else 1)
  | JS_UNDEFINED | JS_NULL => mret 0
  | JS_EXCEPTION => mret (-1)
  | JS_REF _ => gets (λ w, match body_of v w with Some (BString []) | Some (BBigUint64 0) | Some (BBigInt64 0) => 0
                                               | Some (BDouble b) => if double_false b then 0 else 1 | _ => 1 end)
  end.

(** ** C memory *)

Definition c_alloc (al : allocator) (c : cstruct) : M addr := λ w,
  let p := fresh_addr w in
  Ok p (set_mem (<[p := (al, c)]> (w_mem w)) (set_next (Pos.succ p) w)).

Definition js_malloc (c : cstruct) : M (option addr) :=
  r ← ask "js_malloc" [] ;
  if r =? 0 then (p ← c_alloc ByJs c ; mret (Some p)) else (js_raise ;; mret None).

Definition je_calloc (c : cstruct) : M (option addr) :=
  r ← ask "je_calloc" [] ;
  if r =? 0 then (p ← c_alloc ByJe c ; mret (Some p)) else mret None.

Definition load (p : addr) : M cstruct := λ w,
  match w_mem w !! p with
  | Some (_, c) => Ok c w
  | None => Fault UseAfterFree
  end.

Definition store (p : addr) (c : cstruct) : M unit := λ w,
  match w_mem w !! p with
  | Some (al, _) => Ok tt (set_mem (<[p := (al, c)]> (w_mem w)) w)
  | None => Fault UseAfterFree
  end.

(** Freeing needs the allocator the block came from, and a block in which no
    libuv handle is open. *)
Definition c_free (al : allocator) (p : addr) : M unit := λ w,
  match w_mem w !! p with
  | None => Fault DoubleFree
  | Some (al', c) =>
      if decide (al' = al) then
        if existsb h_open (handles c) then Fault OpenHandleFreed
        else Ok tt (set_mem (delete p (w_mem w)) w)
      else Fault BadFree
  end.

Definition je_free (p : addr) : M unit := c_free ByJe p.
Definition js_free (p : addr) : M unit := c_free ByJs p.
Definition JS_FreeCString (p : addr) : M unit := c_free ByCString p.

(** Freeing a pointer that may be NULL does nothing for NULL. *)
Definition js_free_opt (o : option addr) : M unit :=
  match o with Some p => js_free p | None => mret tt end.

(** JS_ToCString: the bytes of a string in a block of its own; other values are
    converted by the environment, which may raise. *)
Definition JS_ToCString (v : JSValue) : M (option (addr * bytes)) :=
  b ← gets (body_of v) ;
  match b with
  | Some (BString s) => p ← c_alloc ByCString (CStr s) ; mret (Some (p, s))
  | _ =>
      if JS_IsException v then mret None else
      o ← ask_str "JS_ToCString" [AV v] ;
      match o with
      | Some s => p ← c_alloc ByCString (CStr s) ; mret (Some (p, s))
      | None => js_raise ;; mret None
      end
  end.

(** ** Arguments of a C function

    quickjs pads [argv] with undefined up to the length the function was
    registered with (js_call_c_function); reading further is out of bounds. *)

Definition pad_args (len : nat) (argv : list JSValue) : list JSValue :=
  argv ++ replicate (len - length argv) JS_UNDEFINED.

Definition arg_at (argv : list JSValue) (i : nat) : M JSValue :=
  match argv !! i with Some v => mret v | None => fail OutOfBounds end.

(** ** Promises and calls *)

Record capability := mkCap { cap_promise : JSValue; cap_funcs : JSValue * JSValue }.

(** JS_NewPromiseCapability: a pending promise and its resolving functions, one
    reference each, or an exception. *)
Definition JS_NewPromiseCapability : M (option capability) :=
  r ← ask "JS_NewPromiseCapability" [] ;
  if r =? 0 then
    p ← js_new (BPromise Pending) ;
    r0 ← js_new (BResolver (match p with JS_REF a => a | _ => 1%positive end) false) ;
    r1 ← js_new (BResolver (match p with JS_REF a => a | _ => 1%positive end) true) ;
    mret (Some (mkCap p (r0, r1)))
  else (js_raise ;; mret None).

(** A resolving function settles its promise the first time it is called. *)
Definition settle_body (reject : bool) (v : JSValue) (b : jsbody) : jsbody :=
  match b with
  | BPromise Pending => BPromise (if reject then Rejected v else Fulfilled v)
  | b => b
  end.

(** JS_Call: resolving functions settle; other functions are user code, for which
    the environment says whether it returns undefined (0), an object (1) or throws. *)
Definition JS_Call (f : JSValue) (argv : list JSValue) : M JSValue :=
  log "JS_Call" (AV f :: (AV <$> argv)) ;;
  b ← gets (body_of f) ;
  match b with
  | Some (BResolver p reject) =>
      modify (update_cell (JS_REF p) (settle_body reject (default JS_UNDEFINED (argv !! 0%nat)))) ;;
      mret JS_UNDEFINED
  | Some (BFunction _) =>
      r ← ask "user code" [AV f] ;
      if r =? 0 then mret JS_UNDEFINED
      else if r =? 1 then JS_NewObjectProto
      else (js_raise ;; mret JS_EXCEPTION)
  | _ => js_raise ;; mret JS_EXCEPTION
  end.

(** ** Typed arrays *)

(** JS_GetTypedArrayBuffer: a reference to the underlying buffer, the offset and the length. *)
Definition JS_GetTypedArrayBuffer (v : JSValue) : M (option (JSValue * Z * Z)) :=
  b ← gets (body_of v) ;
  match b with
  | Some (BTypedArray buf off len) => abuf ← JS_DupValue (JS_REF buf) ; mret (Some (abuf, off, len))
  | _ => _ ← JS_ThrowTypeError "not a TypedArray" ; mret None
  end.

(** JS_GetArrayBuffer: the bytes, borrowed from the value. *)
Definition JS_GetArrayBuffer (v : JSValue) : M (option bytes) :=
  b ← gets (body_of v) ;
  match b with
  | Some (BArrayBuffer data) => mret (Some data)
  | _ => _ ← JS_ThrowTypeError "ArrayBuffer expected" ; mret None
  end.

(** ** libuv handles *)

Definition with_active (b : bool) (h : uv_handle) : uv_handle :=
  mkHandle (h_type h) (h_init h) b (h_closing h) (h_closed h) (h_data h).

Definition uv_is_closing (h : uv_handle) : bool := h_closing h.

(** uv_close on an initialised handle that is not closing yet; libuv asserts that. *)
Definition uv_close (h : uv_handle) : M uv_handle :=
  if negb (h_init h) then fail Uninit
  else if h_closing h then abort
  else mret (mkHandle (h_type h) (h_init h) false true (h_closed h) (h_data h)).

(** A successful init call. *)
Definition handle_init (h : uv_handle) : uv_handle :=
  mkHandle (h_type h) true false false false (h_data h).

(** libuv's endgame, right before it runs the close callback. *)
Definition handle_closed (h : uv_handle) : uv_handle :=
  mkHandle (h_type h) (h_init h) false true true (h_data h).

Definition with_data (p : option addr) (h : uv_handle) : uv_handle :=
  mkHandle (h_type h) (h_init h) (h_active h) (h_closing h) (h_closed h) p.

(** A libuv call that starts an activity of the handle when it answers 0. *)
Definition started (r : Z) (h : uv_handle) : uv_handle :=
  if r =? 0 then with_active true h else h.

(** ** libuv error codes (Linux) *)

Definition UV_EOF : Z := -4095.
Definition UV_EBUSY : Z := -16.
Definition UV_EAFNOSUPPORT : Z := -97.
Definition UV_EINVAL : Z := -22.
Definition UV_ECANCELED : Z := -125.

(** ** Registration tables

    JS_CFUNC_DEF entries: name, declared length and function. The function gets the
    number of arguments of the call, not of the padded array. *)
Record cfunction := mkCFunction {
  cf_name : string;
  cf_length : nat;
  cf_func : JSValue → nat → list JSValue → M JSValue
}.

(** For the functions that do not look at [argc]. *)
Definition CFUNC (name : string) (len : nat) (f : JSValue → list JSValue → M JSValue) : cfunction :=
  mkCFunction name len (λ this _ argv, f this argv).

Fixpoint find_cfunction (name : string) (l : list cfunction) : option cfunction :=
  match l with
  | [] => None
  | f :: l' => if String.eqb (cf_name f) name then Some f else find_cfunction name l'
  end.

(** A call from JavaScript: js_call_c_function pads the arguments. *)
Definition call_cfunction (f : cfunction) (this : JSValue) (argv : list JSValue) : M JSValue :=
  cf_func f this (length argv) (pad_args (cf_length f) argv).

(** [dst[i] = JS_DupValue(ctx, src[i])] for each element. *)
Fixpoint dup_values (l : list JSValue) : M (list JSValue) :=
  match l with
  | [] => mret []
  | v :: l' => v' ← JS_DupValue v ; vs ← dup_values l' ; mret (v' :: vs)
  end.

(** ** Errors of user code *)

Definition JS_GetException : M JSValue := λ w,
  let e := default JS_NULL (w_exc w) in
  match JS_DupValue e w with
  | Ok v w' => Ok v (set_exc None w')
  | Abort => Abort
  | Fault f => Fault f
  end.

Definition JS_IsError (v : JSValue) : M bool :=
  gets (λ w, match body_of v w with Some (BError _) => true | _ => false end).
