(* ===== verification/Logic.v ===== *)
(** * Program logic of the runtime

    Weakest preconditions for [M], the ledger of C ownership (how many references
    the live structures own, against how many C code has taken), and the rules
    of the runtime primitives. [balanced w w' out] is what a correct function
    promises: from [w] to [w'] the references taken but not owned by any
    structure grow by exactly [out], the references it returns. *)

From S2P Require Import Prelude State Runtime.

(** ** Weakest preconditions *)

Definition wp {A} (m : M A) (Q : A → World → Prop) (w : World) : Prop :=
  match m w with Ok a w' => Q a w' | _ => False end.

Lemma wp_ret {A} (a : A) Q w : Q a w → wp (mret a) Q w.
Proof. exact id. Qed.

Lemma wp_bind {A B} (m : M A) (k : A → M B) Q w :
  wp m (λ a, wp (k a) Q) w → wp (m ≫= k) Q w.
Proof. unfold wp, mbind, M_bind. destruct (m w); tauto. Qed.

Lemma wp_assoc {A B C} (m : M A) (k : A → M B) (h : B → M C) Q w :
  wp ((x ← m ; k x) ≫= h) Q w → wp (x ← m ; y ← k x ; h y) Q w.
Proof. unfold wp, mbind, M_bind. by destruct (m w). Qed.

Lemma wp_mono {A} (m : M A) (P Q : A → World → Prop) w :
  wp m P w → (∀ a w', P a w' → Q a w') → wp m Q w.
Proof. unfold wp. destruct (m w); naive_solver. Qed.

Lemma wp_gets {A} (f : World → A) Q w : Q (f w) w → wp (gets f) Q w.
Proof. exact id. Qed.

Lemma wp_modify (f : World → World) Q w : Q tt (f w) → wp (modify f) Q w.
Proof. exact id. Qed.

Lemma wp_CHECK b Q w : b = true → Q tt w → wp (CHECK b) Q w.
Proof. intros ->. exact id. Qed.

Lemma wp_deref p Q w : Q p w → wp (deref (Some p)) Q w.
Proof. exact id. Qed.

Lemma wp_ask name args Q w : (∀ r, Q r (log_ev (Ev name args) w)) → wp (ask name args) Q w.
Proof. intros H. apply H. Qed.

Lemma wp_ask_str name args Q w : (∀ r, Q r (log_ev (Ev name args) w)) → wp (ask_str name args) Q w.
Proof. intros H. apply H. Qed.

Lemma wp_ask_sa name args Q w : (∀ r, Q r (log_ev (Ev name args) w)) → wp (ask_sa name args) Q w.
Proof. intros H. apply H. Qed.

Lemma wp_log name args Q w : Q tt (log_ev (Ev name args) w) → wp (log name args) Q w.
Proof. exact id. Qed.

Lemma wp_load p al c Q w : w_mem w !! p = Some (al, c) → Q c w → wp (load p) Q w.
Proof. unfold wp, load. by intros ->. Qed.

Lemma wp_store p al c0 c Q w :
  w_mem w !! p = Some (al, c0) →
  Q tt (set_mem (<[p := (al, c)]> (w_mem w)) w) → wp (store p c) Q w.
Proof. unfold wp, store. by intros ->. Qed.

Lemma wp_c_free al p c Q w :
  w_mem w !! p = Some (al, c) → existsb h_open (handles c) = false →
  Q tt (set_mem (delete p (w_mem w)) w) → wp (c_free al p) Q w.
Proof. unfold wp, c_free. intros -> ->. by rewrite decide_True. Qed.

Lemma wp_arg_at argv i v Q w : argv !! i = Some v → Q v w → wp (arg_at argv i) Q w.
Proof. unfold wp, arg_at. by intros ->. Qed.

(** ** Fresh addresses *)

Lemma foldr_max_le (l : list positive) n x : x ∈ l → (x ≤ foldr Pos.max n l)%positive.
Proof. induction 1; simpl; lia. Qed.

Lemma fresh_key {V} (m : gmap addr V) (l1 l2 : list addr) n a :
  Pos.le (foldr Pos.max n (Pos.succ <$> l1 ++ (map_to_list m).*1 ++ l2)) a → m !! a = None.
Proof.
  intros H. destruct (m !! a) as [v|] eqn:E; [|done]. exfalso.
  assert (Hin : Pos.succ a ∈ Pos.succ <$> l1 ++ (map_to_list m).*1 ++ l2).
  { apply list_elem_of_fmap. exists a. split; [done|].
    rewrite !elem_of_app, list_elem_of_fmap. right; left.
    exists (a, v). by rewrite elem_of_map_to_list. }
  pose proof (foldr_max_le _ n _ Hin). lia.
Qed.

Lemma fresh_cell w : w_cell w !! fresh_addr w = None.
Proof. apply (fresh_key _ [] ((map_to_list (w_rc w)).*1 ++ (map_to_list (w_mem w)).*1) (w_next w)). reflexivity. Qed.

Lemma fresh_rc w : rc w (fresh_addr w) = 0.
Proof.
  unfold rc. rewrite (fresh_key (w_rc w) (map_to_list (w_cell w)).*1 (map_to_list (w_mem w)).*1 (w_next w)); done.
Qed.

Lemma fresh_mem w : w_mem w !! fresh_addr w = None.
Proof.
  apply (fresh_key _ ((map_to_list (w_cell w)).*1 ++ (map_to_list (w_rc w)).*1) [] (w_next w)).
  unfold fresh_addr. by rewrite app_nil_r, <- (assoc_L (++)).
Qed.

(** ** Counting references *)

Definition cnt (a : addr) (l : list addr) : Z := Z.of_nat (length (filter (eq a) l)).

Lemma cnt_nil a : cnt a [] = 0.
Proof. done. Qed.

Lemma cnt_cons a b l : cnt a (b :: l) = (if decide (a = b) then 1 else 0) + cnt a l.
Proof. unfold cnt. rewrite filter_cons. repeat case_decide; simpl; lia. Qed.

Lemma cnt_app a l1 l2 : cnt a (l1 ++ l2) = cnt a l1 + cnt a l2.
Proof. unfold cnt. rewrite filter_app, length_app. lia. Qed.

Lemma cnt_nonneg a l : 0 ≤ cnt a l.
Proof. unfold cnt. lia. Qed.

Lemma refs_of_cons v l : refs_of (v :: l) = ref_of v ++ refs_of l.
Proof. done. Qed.

Lemma refs_of_nil : refs_of [] = [].
Proof. done. Qed.

Lemma refs_of_app l1 l2 : refs_of (l1 ++ l2) = refs_of l1 ++ refs_of l2.
Proof. apply bind_app. Qed.

(** References owned by the live structures. *)
Definition owned (m : gmap addr (allocator * cstruct)) (a : addr) : Z :=
  map_fold (λ _ x z, cnt a (own x.2) + z) 0 m.

Lemma owned_insert m a p al c :
  m !! p = None → owned (<[p := (al, c)]> m) a = cnt a (own c) + owned m a.
Proof. intros H. unfold owned. rewrite map_fold_insert_L; [done| |done]. intros; lia. Qed.

Lemma owned_delete m a p al c :
  m !! p = Some (al, c) → owned (delete p m) a = owned m a - cnt a (own c).
Proof.
  intros H. assert (E : owned m a = cnt a (own c) + owned (delete p m) a).
  { rewrite <- (insert_delete_id m p (al, c)) at 1 by done.
    apply owned_insert, lookup_delete_eq. }
  lia.
Qed.

Lemma owned_update m a p al al' c c' :
  m !! p = Some (al, c) →
  owned (<[p := (al', c')]> m) a = owned m a - cnt a (own c) + cnt a (own c').
Proof.
  intros H. rewrite <- insert_delete_eq, owned_insert by apply lookup_delete_eq.
  rewrite (owned_delete _ _ _ al c) by done. lia.
Qed.

Lemma owned_empty a : owned ∅ a = 0.
Proof. apply map_fold_empty. Qed.

Lemma owned_nonneg m a : 0 ≤ owned m a.
Proof.
  induction m as [|p [al c] m Hp Hf IH] using map_first_key_ind; [done|].
  rewrite owned_insert by done. pose proof (cnt_nonneg a (own c)). lia.
Qed.

(** What a live structure owns is part of what is owned. *)
Lemma owned_lookup m a p al c : m !! p = Some (al, c) → cnt a (own c) ≤ owned m a.
Proof.
  intros H. pose proof (owned_delete m a p al c H). pose proof (owned_nonneg (delete p m) a). lia.
Qed.

(** ** The ledger *)

(** Every reference a live structure owns has been taken: no structure points to a
    value C code has released. *)
Definition safe (w : World) : Prop := ∀ a, owned (w_mem w) a ≤ rc w a.

(** References taken and owned by no structure. *)
Definition excess (w : World) (a : addr) : Z := rc w a - owned (w_mem w) a.

Definition balanced (w w' : World) (out : list addr) : Prop :=
  ∀ a, excess w' a = excess w a + cnt a out.

Lemma balanced_safe w w' out : safe w → balanced w w' out → safe w'.
Proof.
  intros H B a. specialize (H a); specialize (B a). unfold excess in B.
  pose proof (cnt_nonneg a out). lia.
Qed.

Lemma balanced_refl w : balanced w w [].
Proof. intros a. rewrite cnt_nil. lia. Qed.

Lemma balanced_trans w1 w2 w3 o1 o2 :
  balanced w1 w2 o1 → balanced w2 w3 o2 → balanced w1 w3 (o1 ++ o2).
Proof. intros H1 H2 a. rewrite cnt_app, H2, H1. lia. Qed.

(** ** Reference counts after each update *)

Lemma rc_add_rc w a b d : rc (add_rc b d w) a = rc w a + (if decide (a = b) then d else 0).
Proof.
  unfold rc, add_rc; simpl. case_decide as E; [subst; by rewrite lookup_insert_eq|].
  rewrite lookup_insert_ne by congruence. lia.
Qed.

Lemma rc_set_mem m w a : rc (set_mem m w) a = rc w a.
Proof. done. Qed.
Lemma rc_set_cell m w a : rc (set_cell m w) a = rc w a.
Proof. done. Qed.
Lemma rc_set_exc m w a : rc (set_exc m w) a = rc w a.
Proof. done. Qed.
Lemma rc_set_next m w a : rc (set_next m w) a = rc w a.
Proof. done. Qed.
Lemma rc_log_ev m w a : rc (log_ev m w) a = rc w a.
Proof. done. Qed.
Lemma rc_update_cell o f w a : rc (update_cell o f w) a = rc w a.
Proof. by destruct o. Qed.
Lemma mem_update_cell o f w : w_mem (update_cell o f w) = w_mem w.
Proof. by destruct o. Qed.
Lemma mem_add_rc a d w : w_mem (add_rc a d w) = w_mem w.
Proof. done. Qed.
Lemma mem_set_mem m w : w_mem (set_mem m w) = m.
Proof. done. Qed.
Lemma mem_set_cell m w : w_mem (set_cell m w) = w_mem w.
Proof. done. Qed.
Lemma mem_set_exc m w : w_mem (set_exc m w) = w_mem w.
Proof. done. Qed.
Lemma mem_set_next m w : w_mem (set_next m w) = w_mem w.
Proof. done. Qed.
Lemma mem_log_ev m w : w_mem (log_ev m w) = w_mem w.
Proof. done. Qed.

Create Rewrite HintDb world.
#[export] Hint Rewrite rc_add_rc rc_set_mem rc_set_cell rc_set_exc rc_set_next rc_log_ev
  rc_update_cell mem_update_cell mem_add_rc mem_set_mem mem_set_cell mem_set_exc mem_set_next
  mem_log_ev cnt_nil cnt_cons cnt_app refs_of_cons refs_of_nil : world.

(** ** Rules of the reference-counting primitives *)

Definition drop_ref (v : JSValue) (w : World) : World :=
  match v with JS_REF a => add_rc a (-1) w | _ => w end.
Definition take_ref (v : JSValue) (w : World) : World :=
  match v with JS_REF a => add_rc a 1 w | _ => w end.
Definition new_cell (a : addr) (b : jsbody) (w : World) : World :=
  add_rc a 1 (set_cell (<[a := b]> (w_cell w)) (set_next (Pos.succ a) w)).
Definition new_block (p : addr) (al : allocator) (c : cstruct) (w : World) : World :=
  set_mem (<[p := (al, c)]> (w_mem w)) (set_next (Pos.succ p) w).

Lemma rc_drop_ref v w a : rc (drop_ref v w) a = rc w a - cnt a (ref_of v).
Proof. destruct v; simpl; autorewrite with world; case_decide || idtac; lia. Qed.
Lemma rc_take_ref v w a : rc (take_ref v w) a = rc w a + cnt a (ref_of v).
Proof. destruct v; simpl; autorewrite with world; case_decide || idtac; lia. Qed.
Lemma rc_new_cell a b w a' : rc (new_cell a b w) a' = rc w a' + (if decide (a' = a) then 1 else 0).
Proof. unfold new_cell. by autorewrite with world. Qed.
Lemma rc_new_block p al c w a : rc (new_block p al c w) a = rc w a.
Proof. done. Qed.
Lemma mem_drop_ref v w : w_mem (drop_ref v w) = w_mem w.
Proof. by destruct v. Qed.
Lemma mem_take_ref v w : w_mem (take_ref v w) = w_mem w.
Proof. by destruct v. Qed.
Lemma mem_new_cell a b w : w_mem (new_cell a b w) = w_mem w.
Proof. done. Qed.
Lemma mem_new_block p al c w : w_mem (new_block p al c w) = <[p := (al, c)]> (w_mem w).
Proof. done. Qed.
Lemma cell_drop_ref v w : w_cell (drop_ref v w) = w_cell w.
Proof. by destruct v. Qed.
Lemma cell_take_ref v w : w_cell (take_ref v w) = w_cell w.
Proof. by destruct v. Qed.
Lemma cell_new_cell a b w : w_cell (new_cell a b w) = <[a := b]> (w_cell w).
Proof. done. Qed.
Lemma cell_new_block p al c w : w_cell (new_block p al c w) = w_cell w.
Proof. done. Qed.
Lemma cell_set_mem m w : w_cell (set_mem m w) = w_cell w.
Proof. done. Qed.
Lemma cell_set_exc m w : w_cell (set_exc m w) = w_cell w.
Proof. done. Qed.
Lemma cell_log_ev m w : w_cell (log_ev m w) = w_cell w.
Proof. done. Qed.
Lemma cell_update_cell a f w : w_cell (update_cell (JS_REF a) f w) = alter f a (w_cell w).
Proof. done. Qed.
#[export] Hint Rewrite rc_drop_ref rc_take_ref rc_new_cell rc_new_block mem_drop_ref mem_take_ref
  mem_new_cell mem_new_block cell_drop_ref cell_take_ref cell_new_cell cell_new_block
  cell_set_mem cell_set_exc cell_log_ev cell_update_cell : world.

Lemma wp_DupValue v Q w : Q v (take_ref v w) → wp (JS_DupValue v) Q w.
Proof. by destruct v. Qed.

(** C code holds the references of [l], with multiplicity. *)
Definition holds (w : World) (l : list addr) : Prop := ∀ a, cnt a l ≤ Z.max 0 (rc w a).

Lemma holds_nil w : holds w [].
Proof. intros a. rewrite cnt_nil. lia. Qed.

Lemma holds_one w a : 0 < rc w a → holds w [a].
Proof. intros H a'. autorewrite with world. case_decide; subst; lia. Qed.

Lemma holds_rc w w' l : (∀ a, rc w' a = rc w a) → holds w l → holds w' l.
Proof. intros Hr H a. rewrite Hr. apply H. Qed.

(** No count is negative; in a safe world none is. *)
Definition nonneg (w : World) : Prop := ∀ a, 0 ≤ rc w a.

Lemma safe_nonneg w : safe w → nonneg w.
Proof. intros H a. specialize (H a). pose proof (owned_nonneg (w_mem w) a). lia. Qed.

(** What a structure owns is held. *)
Lemma holds_owned w p al c : safe w → w_mem w !! p = Some (al, c) → holds w (own c).
Proof. intros Hs Hp a. specialize (Hs a). pose proof (owned_lookup _ a _ _ _ Hp). lia. Qed.

Lemma cnt_pos a l : a ∈ l → 0 < cnt a l.
Proof. induction 1; autorewrite with world; [|case_decide; lia]. rewrite decide_True by done. pose proof (cnt_nonneg x l). lia. Qed.

Lemma cnt_zero a l : a ∉ l → cnt a l = 0.
Proof. induction l; [done|]. rewrite not_elem_of_cons. intros []. autorewrite with world. case_decide; [done|]. rewrite IHl; done. Qed.

Lemma wp_FreeValue v Q w :
  holds w (ref_of v) → Q tt (drop_ref v w) → wp (JS_FreeValue v) Q w.
Proof.
  destruct v; try done. intros H ?. specialize (H a). simpl in H. autorewrite with world in H.
  rewrite decide_True in H by done. unfold wp, JS_FreeValue.
  rewrite (proj2 (Z.leb_gt _ _)); [done|lia].
Qed.

Lemma wp_js_new b Q w :
  (∀ a, w_cell w !! a = None → rc w a = 0 → Q (JS_REF a) (new_cell a b w)) → wp (js_new b) Q w.
Proof. intros H. apply H; [apply fresh_cell|apply fresh_rc]. Qed.

Lemma wp_c_alloc al c Q w :
  (∀ p, w_mem w !! p = None → Q p (new_block p al c w)) → wp (c_alloc al c) Q w.
Proof. intros H. apply H, fresh_mem. Qed.

(** [drop_ref] for each value of a list. *)
Definition drop_refs (l : list JSValue) (w : World) : World := foldl (flip drop_ref) w l.

Lemma drop_refs_cons v l w : drop_refs (v :: l) w = drop_refs l (drop_ref v w).
Proof. done. Qed.
Lemma rc_drop_refs l w a : rc (drop_refs l w) a = rc w a - cnt a (refs_of l).
Proof.
  revert w; induction l as [|v l IH]; intros w; [simpl; autorewrite with world; lia|].
  rewrite drop_refs_cons, IH. autorewrite with world. lia.
Qed.
Lemma mem_drop_refs l w : w_mem (drop_refs l w) = w_mem w.
Proof. revert w; induction l as [|v l IH]; intros w; [done|]. by rewrite drop_refs_cons, IH, mem_drop_ref. Qed.
Lemma cell_drop_refs l w : w_cell (drop_refs l w) = w_cell w.
Proof. revert w; induction l as [|v l IH]; intros w; [done|]. by rewrite drop_refs_cons, IH, cell_drop_ref. Qed.
#[export] Hint Rewrite rc_drop_refs mem_drop_refs cell_drop_refs : world.

Lemma env_add_rc a d w : w_env (add_rc a d w) = w_env w.
Proof. done. Qed.
Lemma env_set_mem m w : w_env (set_mem m w) = w_env w.
Proof. done. Qed.
Lemma env_set_cell m w : w_env (set_cell m w) = w_env w.
Proof. done. Qed.
Lemma env_set_exc e w : w_env (set_exc e w) = w_env w.
Proof. done. Qed.
Lemma env_log_ev e w : w_env (log_ev e w) = w_env w.
Proof. done. Qed.
Lemma env_new_cell a b w : w_env (new_cell a b w) = w_env w.
Proof. done. Qed.
Lemma env_new_block p al c w : w_env (new_block p al c w) = w_env w.
Proof. done. Qed.
Lemma env_update_cell v f w : w_env (update_cell v f w) = w_env w.
Proof. by destruct v. Qed.
Lemma env_take_ref v w : w_env (take_ref v w) = w_env w.
Proof. by destruct v. Qed.
Lemma env_drop_ref v w : w_env (drop_ref v w) = w_env w.
Proof. by destruct v. Qed.
Lemma env_drop_refs l w : w_env (drop_refs l w) = w_env w.
Proof. revert w; induction l as [|v l IH]; intros w; [done|]. by rewrite drop_refs_cons, IH, env_drop_ref. Qed.
#[export] Hint Rewrite env_add_rc env_set_mem env_set_cell env_set_exc env_log_ev env_new_cell env_new_block env_update_cell env_take_ref
  env_drop_ref env_drop_refs : world.

Lemma wp_free_values l Q w :
  holds w (refs_of l) → Q tt (drop_refs l w) → wp (free_values l) Q w.
Proof.
  revert w; induction l as [|v l IH]; intros w H HQ; [done|]. simpl.
  apply wp_bind, wp_FreeValue.
  { intros a. specialize (H a). rewrite refs_of_cons, cnt_app in H.
    pose proof (cnt_nonneg a (refs_of l)). lia. }
  apply IH; [|done]. intros a. specialize (H a). rewrite refs_of_cons, cnt_app in H.
  autorewrite with world. pose proof (cnt_nonneg a (ref_of v)). lia.
Qed.

(** ** Quiet steps

    A call that changes neither C memory nor the ledger and keeps every cell. *)
Record quiet (w w' : World) : Prop := {
  quiet_env : w_env w' = w_env w;
  quiet_mem : w_mem w' = w_mem w;
  quiet_rc : ∀ a, rc w' a = rc w a;
  quiet_cell : ∀ a b, w_cell w !! a = Some b → w_cell w' !! a = Some b
}.

#[export] Instance quiet_preorder : PreOrder quiet.
Proof.
  split; [by split|]. intros w1 w2 w3 [E1 M1 R1 C1] [E2 M2 R2 C2]. split.
  - congruence.
  - congruence.
  - intros a. by rewrite R2.
  - eauto.
Qed.

Lemma quiet_balanced w w' : quiet w w' → balanced w w' [].
Proof. intros [_ Hm Hr _] a. unfold excess. rewrite Hm, Hr, cnt_nil. lia. Qed.

Lemma quiet_log_ev e w : quiet w (log_ev e w).
Proof. by split. Qed.
Lemma quiet_set_exc e w : quiet w (set_exc e w).
Proof. by split. Qed.
Create HintDb quiet.
#[export] Hint Constants Opaque : quiet.
#[export] Hint Resolve quiet_log_ev quiet_set_exc : quiet.

(** A new value whose only reference is released at once. *)
Lemma quiet_drop_new a b w : w_cell w !! a = None → quiet w (drop_ref (JS_REF a) (new_cell a b w)).
Proof.
  intros Ha. split; [done|done| |].
  - intros a'. autorewrite with world. simpl. autorewrite with world. case_decide; lia.
  - intros a' b' H. autorewrite with world. rewrite lookup_insert_ne; [done|congruence].
Qed.

(** A computation that is quiet whatever the environment answers, when its result satisfies [P]. *)
Definition quietly {A} (m : M A) (P : A → Prop) : Prop :=
  ∀ w, wp m (λ a w', quiet w w' ∧ P a) w.

Lemma wp_quietly {A} (m : M A) P Q w :
  quietly m P → (∀ a w', P a → quiet w w' → Q a w') → wp m Q w.
Proof. intros H HQ. eapply wp_mono; [apply H|]. intros a w' []. auto. Qed.

Lemma quietly_js_raise : quietly js_raise (λ _, True).
Proof. intros w. split; [apply quiet_set_exc|done]. Qed.

Lemma quietly_bind {A B} (m : M A) (k : A → M B) P R :
  quietly m P → (∀ a, P a → quietly (k a) R) → quietly (m ≫= k) R.
Proof.
  intros Hm Hk w. apply wp_bind. eapply wp_quietly; [apply Hm|]. intros a w' Ha Hw.
  eapply wp_quietly; [by apply Hk|]. intros b w'' Hb Hw'. split; [|done]. by etrans.
Qed.

Lemma quietly_ret {A} (a : A) (P : A → Prop) : P a → quietly (mret a) P.
Proof. intros H w. by split. Qed.

(** A string created and handed over at once to a property or an exception. *)
Lemma quietly_throw_msg msg : quietly (js_throw_msg msg) (λ v, v = JS_EXCEPTION).
Proof.
  intros w. apply wp_bind, wp_js_new. intros a Ha Ra.
  apply wp_bind, wp_FreeValue.
  { apply holds_one. autorewrite with world. rewrite decide_True by done. lia. }
  set (w1 := drop_ref (JS_REF a) (new_cell a (BString (lit msg)) w)).
  apply wp_bind, wp_js_new. intros e He Re.
  apply wp_bind, wp_FreeValue.
  { apply holds_one. autorewrite with world. rewrite decide_True by done. lia. }
  apply wp_bind, wp_modify, wp_ret. split; [|done].
  transitivity w1; [by apply quiet_drop_new|]. etrans; [by apply quiet_drop_new|apply quiet_set_exc].
Qed.

Lemma quietly_ThrowTypeError msg : quietly (JS_ThrowTypeError msg) (λ v, v = JS_EXCEPTION).
Proof. apply quietly_throw_msg. Qed.
Lemma quietly_ThrowInternalError msg : quietly (JS_ThrowInternalError msg) (λ v, v = JS_EXCEPTION).
Proof. apply quietly_throw_msg. Qed.
Lemma quietly_ThrowRangeError msg : quietly (JS_ThrowRangeError msg) (λ v, v = JS_EXCEPTION).
Proof. apply quietly_throw_msg. Qed.
Lemma quietly_ask name args : quietly (ask name args) (λ _, True).
Proof. intros w. split; [apply quiet_log_ev|done]. Qed.
Lemma quietly_ask_str name args : quietly (ask_str name args) (λ _, True).
Proof. intros w. split; [apply quiet_log_ev|done]. Qed.
Lemma quietly_ask_sa name args : quietly (ask_sa name args) (λ _, True).
Proof. intros w. split; [apply quiet_log_ev|done]. Qed.
Lemma quietly_log name args : quietly (log name args) (λ _, True).
Proof. intros w. split; [apply quiet_log_ev|done]. Qed.
Lemma quietly_gets {A} (f : World → A) : quietly (gets f) (λ _, True).
Proof. intros w. by split. Qed.
Lemma quietly_weaken {A} (m : M A) (P R : A → Prop) : quietly m P → (∀ a, P a → R a) → quietly m R.
Proof. intros H HR w. eapply wp_quietly; [apply H|]. intros a w' Ha Hw. split; [done|by apply HR]. Qed.

Lemma quietly_js_to_number v : quietly (js_to_number v) (λ _, True).
Proof.
  destruct v; try (by apply quietly_ret). simpl.
  eapply quietly_bind; [apply quietly_ask|]. intros ok _. destruct (ok =? 0).
  - eapply quietly_bind; [apply quietly_ask|]. intros z _. by apply quietly_ret.
  - eapply quietly_bind; [apply quietly_js_raise|]. intros z _. by apply quietly_ret.
Qed.

(** Conversions give a number in the range of their type. *)

Definition in_range (lo hi : Z) (o : option Z) : Prop := ∀ z, o = Some z → lo ≤ z < hi.

Lemma quietly_ToInt32 v : quietly (JS_ToInt32 v) (in_range (- 2 ^ 31) (2 ^ 31)).
Proof.
  eapply quietly_bind; [apply quietly_js_to_number|]. intros [z|] _; apply quietly_ret; intros z' [= <-].
  apply signed32_range.
Qed.
Lemma quietly_ToUint32 v : quietly (JS_ToUint32 v) (in_range 0 (2 ^ 32)).
Proof.
  eapply quietly_bind; [apply quietly_js_to_number|]. intros [z|] _; apply quietly_ret; intros z' [= <-].
  apply unsigned32_range.
Qed.
Lemma quietly_ToInt64 v : quietly (JS_ToInt64 v) (in_range (- 2 ^ 63) (2 ^ 63)).
Proof.
  eapply quietly_bind; [apply quietly_js_to_number|]. intros [z|] _; apply quietly_ret; intros z' [= <-].
  apply signed64_range.
Qed.
Lemma quietly_ToIndex v : quietly (JS_ToIndex v) (in_range 0 (2 ^ 53)).
Proof.
  eapply quietly_bind; [apply quietly_js_to_number|]. intros [z|] _; [|by apply quietly_ret].
  destruct ((z <? 0) || (MAX_SAFE_INTEGER <? z)) eqn:E.
  - eapply quietly_bind; [apply quietly_throw_msg|]. intros; by apply quietly_ret.
  - apply quietly_ret. intros z' [= <-]. unfold MAX_SAFE_INTEGER in E.
    apply orb_false_iff in E as [?%Z.ltb_ge ?%Z.ltb_ge]. lia.
Qed.
#[export] Hint Resolve quietly_throw_msg quietly_ThrowTypeError quietly_ThrowInternalError
  quietly_ThrowRangeError quietly_js_raise quietly_ask quietly_ask_str quietly_ask_sa
  quietly_log quietly_gets quietly_js_to_number quietly_ToInt32 quietly_ToUint32 quietly_ToInt64
  quietly_ToIndex : quiet.

(** A block allocated and freed again. *)
Lemma quiet_temp_block w w1 w2 p al c w3 :
  quiet w w1 → w_mem w1 !! p = None → quiet (new_block p al c w1) w2 →
  w3 = set_mem (delete p (w_mem w2)) w2 → quiet w w3.
Proof.
  intros [E1 M1 R1 C1] Hp [E2 M2 R2 C2] ->. split; simpl.
  - by rewrite E2.
  - rewrite M2. simpl. by rewrite delete_insert_id, M1.
  - intros a. rewrite rc_set_mem, R2, rc_new_block. apply R1.
  - eauto.
Qed.

(** A reference taken and released. *)
Lemma quiet_temp_ref w w1 v : quiet (take_ref v w) w1 → quiet w (drop_ref v w1).
Proof.
  intros [E1 M1 R1 C1]. split; autorewrite with world in *; [done|done| |done].
  intros a. autorewrite with world. rewrite R1. autorewrite with world. lia.
Qed.

(** An optional argument: a default when it is undefined, else a conversion. *)
Lemma quietly_default {A} v (d : A) m (P : option A → Prop) :
  quietly m P → P (Some d) → quietly (if JS_IsUndefined v then mret (Some d) else m) P.
Proof. intros Hm Hd. destruct (JS_IsUndefined v); [by apply quietly_ret|done]. Qed.

(** ** Rules of the composite primitives *)

Lemma wp_GetOpaque2 obj c Q w :
  (∀ p, body_of obj w = Some (BClass c (Some p)) → Q (Some p) w) →
  (∀ w', quiet w w' → Q None w') →
  wp (JS_GetOpaque2 obj c) Q w.
Proof.
  intros H1 H2. apply wp_bind, wp_gets.
  assert (HN : wp (_ ← JS_ThrowTypeError "object expected" ; mret (@None addr)) Q w).
  { apply wp_bind. eapply wp_quietly; [apply quietly_throw_msg|]. intros v w' _ Hw. by apply H2. }
  destruct (body_of obj w) as [[]|] eqn:E; try done. case_decide; [subst|done].
  destruct opaque; [|done]. by apply wp_ret, H1.
Qed.

Lemma wp_js_malloc c Q w :
  (∀ p, w_mem w !! p = None → Q (Some p) (new_block p ByJs c (log_ev (Ev "js_malloc" []) w))) →
  (∀ w', quiet w w' → Q None w') → wp (js_malloc c) Q w.
Proof.
  intros H1 H2. apply wp_bind, wp_ask. intros r. destruct (r =? 0).
  - apply wp_bind, wp_c_alloc. intros p Hp. by apply wp_ret, H1.
  - apply wp_bind, wp_modify, wp_ret, H2. etrans; [apply quiet_log_ev|apply quiet_set_exc].
Qed.

Lemma wp_je_calloc c Q w :
  (∀ p, w_mem w !! p = None → Q (Some p) (new_block p ByJe c (log_ev (Ev "je_calloc" []) w))) →
  Q None (log_ev (Ev "je_calloc" []) w) → wp (je_calloc c) Q w.
Proof.
  intros H1 H2. apply wp_bind, wp_ask. intros r. destruct (r =? 0).
  - apply wp_bind, wp_c_alloc. intros p Hp. by apply wp_ret, H1.
  - by apply wp_ret.
Qed.

Lemma wp_ToCString v Q w :
  (∀ w' p s, quiet w w' → w_mem w' !! p = None →
     Q (Some (p, s)) (new_block p ByCString (CStr s) w')) →
  (∀ w', quiet w w' → Q None w') → wp (JS_ToCString v) Q w.
Proof.
  intros H1 H2. apply wp_bind, wp_gets.
  assert (HN : wp (o ← ask_str "JS_ToCString" [AV v] ;
      match o with
      | Some s => p ← c_alloc ByCString (CStr s) ; mret (Some (p, s))
      | None => js_raise ;; mret None
      end) Q w).
  { apply wp_bind, wp_ask_str. intros [s|].
    - apply wp_bind, wp_c_alloc. intros p Hp. apply wp_ret, H1; [apply quiet_log_ev|done].
    - apply wp_bind, wp_modify, wp_ret, H2. etrans; [apply quiet_log_ev|apply quiet_set_exc]. }
  assert (HN' : wp (if JS_IsException v then mret None else o ← ask_str "JS_ToCString" [AV v] ;
      match o with
      | Some s => p ← c_alloc ByCString (CStr s) ; mret (Some (p, s))
      | None => js_raise ;; mret None
      end) Q w).
  { destruct (JS_IsException v); [|done]. by apply wp_ret, H2. }
  destruct (body_of v w) as [[]|]; try done.
  apply wp_bind, wp_c_alloc. intros p Hp. by apply wp_ret, H1.
Qed.

Lemma wp_GetPropertyStr obj name Q w :
  (∀ v w', quiet w w' → Q v (take_ref v w')) → wp (JS_GetPropertyStr obj name) Q w.
Proof.
  intros H. pose proof (λ v, H v w (reflexivity w)) as Hv.
  assert (HE : wp (js_raise ;; mret JS_EXCEPTION) Q w).
  { apply wp_bind, wp_modify, wp_ret, (H JS_EXCEPTION), quiet_set_exc. }
  unfold JS_GetPropertyStr. destruct obj as [| | |b|z|a]; try done; apply wp_bind, wp_gets; try (by apply (Hv JS_UNDEFINED)).
  destruct (body_of _ w) as [[]|]; try (by apply wp_ret, (Hv JS_UNDEFINED)); try (by apply wp_DupValue).
  case_match; apply wp_ret; [apply (Hv (JS_INT _))|by apply (Hv JS_UNDEFINED)].
Qed.

Lemma wp_DefinePropertyValueStr obj name v Q w :
  holds w (ref_of v) → Q tt (update_cell obj (add_prop name v) (drop_ref v w)) →
  wp (JS_DefinePropertyValueStr obj name v) Q w.
Proof. intros. by apply wp_bind, wp_FreeValue, wp_modify. Qed.

Lemma wp_try_new name b Q w :
  (∀ a, w_cell w !! a = None → rc w a = 0 → Q (JS_REF a) (new_cell a b (log_ev (Ev name []) w))) →
  (∀ w', quiet w w' → Q JS_EXCEPTION w') → wp (js_try_new name b) Q w.
Proof.
  intros H1 H2. apply wp_bind, wp_ask. intros r. destruct (r =? 0).
  - apply wp_js_new. intros a Ha Ra. by apply H1.
  - apply wp_bind, wp_modify, wp_ret, H2. etrans; [apply quiet_log_ev|apply quiet_set_exc].
Qed.

Lemma wp_call_resolver f p reject argv Q w :
  body_of f w = Some (BResolver p reject) →
  Q JS_UNDEFINED (update_cell (JS_REF p) (settle_body reject (default JS_UNDEFINED (argv !! 0%nat)))
                    (log_ev (Ev "JS_Call" (AV f :: (AV <$> argv))) w)) →
  wp (JS_Call f argv) Q w.
Proof.
  intros Hf HQ. apply wp_bind, wp_log, wp_bind, wp_gets.
  replace (body_of f (log_ev _ w)) with (Some (BResolver p reject)) by by destruct f.
  by apply wp_bind, wp_modify, wp_ret.
Qed.

(** ** Automation *)

Lemma ref_of_REF a : ref_of (JS_REF a) = [a].
Proof. done. Qed.
Lemma ref_of_UNDEFINED : ref_of JS_UNDEFINED = [].
Proof. done. Qed.
Lemma ref_of_NULL : ref_of JS_NULL = [].
Proof. done. Qed.
Lemma ref_of_EXCEPTION : ref_of JS_EXCEPTION = [].
Proof. done. Qed.
Lemma ref_of_INT z : ref_of (JS_INT z) = [].
Proof. done. Qed.
Lemma ref_of_BOOL b : ref_of (JS_BOOL b) = [].
Proof. done. Qed.
#[export] Hint Rewrite ref_of_REF ref_of_UNDEFINED ref_of_NULL ref_of_EXCEPTION ref_of_INT
  ref_of_BOOL @app_nil_r @app_nil_l : world.

(** Push the projections of a world through its updates, also through worlds known
    by equations on their memory and counts. *)
Ltac world_simpl :=
  repeat first
    [ progress autorewrite with world
    | match goal with
      | H : w_mem ?w' = _ |- context [w_mem ?w'] => rewrite H
      | H : ∀ a, rc ?w' a = _ |- context [rc ?w' _] => rewrite H
      | H : w_cell ?w' = _ |- context [w_cell ?w'] => rewrite H
      | H : quiet ?w ?w' |- context [w_env ?w'] => rewrite (quiet_env _ _ H)
      | H : quiet ?w ?w' |- context [w_mem ?w'] => rewrite (quiet_mem _ _ H)
      | H : quiet ?w ?w' |- context [rc ?w' _] => rewrite (quiet_rc _ _ H)
      end ].

Ltac world_simpl_in X :=
  repeat first
    [ progress autorewrite with world in X
    | match type of X with
      | context [w_mem ?w'] => match goal with
          | H : w_mem w' = _ |- _ => rewrite H in X
          | H : quiet _ w' |- _ => rewrite (quiet_mem _ _ H) in X end
      | context [rc ?w' _] => match goal with
          | H : ∀ a, rc w' a = _ |- _ => rewrite H in X
          | H : quiet _ w' |- _ => rewrite (quiet_rc _ _ H) in X end
      | context [w_cell ?w'] => match goal with
          | H : w_cell w' = _ |- _ => rewrite H in X end
      end ].

(** Addresses that differ because one of them is free. *)
Ltac addr_ne :=
  let E := fresh in
  intros E; first [subst | idtac];
  repeat match goal with
  | H : <[_ := _]> _ !! _ = None |- _ => apply lookup_insert_None in H as [? ?]
  end; congruence.

(** Lookups in an updated memory. *)
Ltac lookup_tac :=
  world_simpl;
  repeat first
    [ eassumption
    | apply lookup_insert_eq
    | rewrite lookup_insert_ne by addr_ne
    | rewrite lookup_delete_ne by addr_ne
    | rewrite lookup_insert_eq
    | reflexivity ].

Ltac owned_simpl :=
  repeat match goal with
  | |- context [owned (delete ?p (<[?p := ?c]> ?m)) ?a] =>
      rewrite (delete_insert_eq m p c)
  | |- context [owned (delete ?p ?m) ?a] =>
      first [ erewrite (owned_delete m a p) by lookup_tac
            | rewrite (delete_id m p) by lookup_tac ]
  | |- context [owned (<[?p := (?al, ?c)]> ?m) ?a] =>
      first [ rewrite (owned_insert m a p al c) by lookup_tac
            | erewrite (owned_update m a p) by lookup_tac ]
  end.

Ltac decide_all := repeat (case_decide; subst; try done).

(** Facts about counts that [lia] needs. *)
Ltac count_fact a l :=
  lazymatch goal with
  | _ : 0 ≤ cnt a l |- _ => fail
  | _ => pose proof (cnt_nonneg a l)
  end.
Ltac count_facts a :=
  repeat match goal with
  | |- context [cnt a ?l] => count_fact a l
  | _ : context [cnt a ?l] |- _ => count_fact a l
  end.

(** [balanced] and [safe] goals: compute both sides of the ledger. *)
Ltac ledger :=
  let a := fresh "a" in
  intros a; unfold excess; world_simpl; owned_simpl; cbn [own]; world_simpl;
  count_facts a; decide_all; try lia.

(** One step of a symbolic execution. *)
Ltac wp_step :=
  lazymatch goal with
  | |- wp (mret _) _ _ => apply wp_ret
  | |- wp (mbind _ _) _ _ => apply wp_bind
  | |- wp (gets _) _ _ => apply wp_gets
  | |- wp (modify _) _ _ => apply wp_modify
  | |- wp (deref (Some _)) _ _ => apply wp_deref
  | |- wp (CHECK_NOT_NULL (Some _)) _ _ => apply wp_ret
  | |- wp (CHECK _) _ _ => apply wp_CHECK; [solve [done]|]
  | |- wp (load _) _ _ => eapply wp_load; [lookup_tac|]
  | |- wp (store _ _) _ _ => eapply wp_store; [lookup_tac|]
  | |- wp (JS_DupValue _) _ _ => apply wp_DupValue
  | |- wp (log _ _) _ _ => apply wp_log
  | |- wp (ask _ _) _ _ => apply wp_ask; intros ?
  | |- wp (ask_str _ _) _ _ => apply wp_ask_str; intros ?
  | |- wp (ask_sa _ _) _ _ => apply wp_ask_sa; intros ?
  | |- wp (if ?b then _ else _) _ _ => let E := fresh "E" in destruct b eqn:E; try discriminate E
  | |- wp ?m _ _ =>
      eapply (wp_quietly m); [solve [eauto with quiet]|];
      let a := fresh "r" in let w := fresh "w" in let H := fresh "Hr" in let Hq := fresh "Hq" in
      intros a w H Hq; cbv beta in H; first [subst a | idtac]
  | |- (λ _, _) _ _ => cbv beta
  end; cbv beta.
Ltac wp_steps := repeat wp_step.

(** [holds] goals from a [holds] hypothesis. *)
Ltac holds_by H :=
  let a := fresh "a" in
  intros a; pose proof (H a) as Ha; world_simpl_in Ha; world_simpl;
  revert Ha; count_facts a; lia.

(** [nonneg] and [holds] goals in a world derived from one with non-negative counts. *)
Ltac nonneg_by H :=
  let a := fresh "a" in
  intros a; pose proof (H a) as Ha; world_simpl;
  revert Ha; count_facts a; decide_all; lia.

(** ** Calls that give references to their caller

    Like [quiet], but the caller now holds the references of [l] besides. *)
Record gives (w w' : World) (l : list addr) : Prop := {
  gives_env : w_env w' = w_env w;
  gives_mem : w_mem w' = w_mem w;
  gives_rc : ∀ a, rc w' a = rc w a + cnt a l;
  gives_cell : ∀ a b, w_cell w !! a = Some b → w_cell w' !! a = Some b;
  gives_holds : holds w' l
}.

Lemma gives_quiet w w' : gives w w' [] ↔ quiet w w'.
Proof.
  split; [intros [? ? Hr ? ?]|intros [? ? Hr ?]]; split; try done;
    try (intros a; rewrite Hr, cnt_nil; lia).
Qed.

Lemma gives_trans w1 w2 w3 l1 l2 : gives w1 w2 l1 → gives w2 w3 l2 → gives w1 w3 (l1 ++ l2).
Proof.
  intros [E1 M1 R1 C1 H1] [E2 M2 R2 C2 H2]. split; [congruence|congruence| |eauto|].
  - intros a. rewrite R2, R1, cnt_app. lia.
  - intros a. specialize (H1 a). specialize (H2 a). rewrite R2 in H2 |- *. rewrite cnt_app.
    pose proof (cnt_nonneg a l1). pose proof (cnt_nonneg a l2). lia.
Qed.

Lemma quiet_gives w1 w2 w3 l : quiet w1 w2 → gives w2 w3 l → gives w1 w3 l.
Proof. intros H1%gives_quiet H2. exact (gives_trans _ _ _ _ _ H1 H2). Qed.

Lemma gives_then_quiet w1 w2 w3 l : gives w1 w2 l → quiet w2 w3 → gives w1 w3 l.
Proof. intros H1 H2%gives_quiet. rewrite <- (app_nil_r l). exact (gives_trans _ _ _ _ _ H1 H2). Qed.

Lemma gives_new_cell a b w : w_cell w !! a = None → rc w a = 0 → gives w (new_cell a b w) [a].
Proof.
  intros Ha Ra. split; [done|done| | |].
  - intros a'. world_simpl. decide_all; lia.
  - intros a' b' H. world_simpl. by rewrite lookup_insert_ne by congruence.
  - apply holds_one. world_simpl. rewrite decide_True by done. lia.
Qed.

Lemma gives_balanced w w' l : gives w w' l → balanced w w' l.
Proof. intros [_ Hm Hr _ _] a. unfold excess. rewrite Hm, Hr. lia. Qed.

(** A computation that gives its result and changes nothing else. *)
Definition giving (m : M JSValue) (P : JSValue → World → Prop) : Prop :=
  ∀ w, wp m (λ v w', gives w w' (ref_of v) ∧ P v w') w.

Lemma wp_giving m P Q w :
  giving m P → (∀ v w', gives w w' (ref_of v) → P v w' → Q v w') → wp m Q w.
Proof. intros H HQ. eapply wp_mono; [apply H|]. intros a w' []. auto. Qed.

Lemma giving_try_new name b :
  giving (js_try_new name b)
    (λ v w', v = JS_EXCEPTION ∨ ∃ a, v = JS_REF a ∧ w_cell w' !! a = Some b).
Proof.
  intros w. apply wp_try_new.
  - intros a Ha Ra. split.
    + eapply quiet_gives; [apply (quiet_log_ev (Ev name []))|]. by apply gives_new_cell.
    + right. exists a. split; [done|]. world_simpl. by rewrite lookup_insert_eq.
  - intros w' Hw. split; [by apply gives_quiet|by left].
Qed.

(** ** Exact rules for plain values *)

Lemma wp_GetPropertyStr_obj obj ps name v Q w :
  body_of obj w = Some (BObject ps) → default JS_UNDEFINED (assoc name ps) = v →
  Q v (take_ref v w) → wp (JS_GetPropertyStr obj name) Q w.
Proof.
  intros Hb <- HQ. destruct obj as [| | |b|z|a]; try done. apply wp_bind, wp_gets. rewrite Hb. by apply wp_DupValue.
Qed.

Lemma wp_ToCString_str v s Q w :
  body_of v w = Some (BString s) →
  (∀ p, w_mem w !! p = None → Q (Some (p, s)) (new_block p ByCString (CStr s) w)) →
  wp (JS_ToCString v) Q w.
Proof.
  intros Hv HQ. apply wp_bind, wp_gets. rewrite Hv. apply wp_bind, wp_c_alloc. intros p Hp.
  by apply wp_ret, HQ.
Qed.

Lemma h_open_closed h : h_closed h = true → h_open h = false.
Proof. unfold h_open. intros ->. apply andb_false_r. Qed.
Lemma h_open_handle_closed h : h_open (handle_closed h) = false.
Proof. by apply h_open_closed. Qed.
#[export] Hint Rewrite h_open_handle_closed : world.

(** The same rule, keeping where the answer came from. *)
Lemma wp_ask_eq name args Q w :
  (∀ r, r = e_int (w_env w) (Ev name args :: w_log w) → Q r (log_ev (Ev name args) w)) → wp (ask name args) Q w.
Proof. intros H. by apply H. Qed.

Lemma wp_js_malloc_ok c Q w :
  e_int (w_env w) (Ev "js_malloc" [] :: w_log w) = 0 →
  (∀ p, w_mem w !! p = None → Q (Some p) (new_block p ByJs c (log_ev (Ev "js_malloc" []) w))) → wp (js_malloc c) Q w.
Proof.
  intros He HQ. apply wp_bind, wp_ask_eq. intros r ->. rewrite He. simpl. apply wp_bind, wp_c_alloc. intros p Hp.
  by apply wp_ret, HQ.
Qed.

Lemma wp_GetTypedArrayBuffer v Q w :
  (∀ b off len, body_of v w = Some (BTypedArray b off len) →
     Q (Some (JS_REF b, off, len)) (take_ref (JS_REF b) w)) →
  (∀ w', quiet w w' → Q None w') → wp (JS_GetTypedArrayBuffer v) Q w.
Proof.
  intros H1 H2. unfold JS_GetTypedArrayBuffer. wp_steps.
  assert (HN : wp (_ ← JS_ThrowTypeError "not a TypedArray" ; mret None) Q w).
  { wp_step. wp_step. wp_step. by apply H2. }
  destruct (body_of v w) as [[]|] eqn:E; try done. wp_steps. by apply H1.
Qed.

Lemma wp_GetArrayBuffer v Q w :
  (∀ data, body_of v w = Some (BArrayBuffer data) → Q (Some data) w) →
  (∀ w', quiet w w' → Q None w') → wp (JS_GetArrayBuffer v) Q w.
Proof.
  intros H1 H2. unfold JS_GetArrayBuffer. wp_steps.
  assert (HN : wp (_ ← JS_ThrowTypeError "ArrayBuffer expected" ; mret None) Q w).
  { wp_step. wp_step. wp_step. by apply H2. }
  destruct (body_of v w) as [[]|] eqn:E; try done. wp_steps. by apply H1.
Qed.

(** ** Calls of JavaScript functions

    C memory is untouched, and the caller holds the result. Cells may change: the
    function can be the resolving function of a promise. *)
Record called (w w' : World) (v : JSValue) : Prop := {
  called_env : w_env w' = w_env w;
  called_mem : w_mem w' = w_mem w;
  called_rc : ∀ a, rc w' a = rc w a + cnt a (ref_of v);
  called_holds : holds w' (ref_of v)
}.

Lemma quiet_called w w' v : ref_of v = [] → quiet w w' → called w w' v.
Proof.
  intros Hv [E Mm R C]. split; rewrite ?Hv; try done; [|apply holds_nil].
  intros a. rewrite R, cnt_nil. lia.
Qed.

Lemma wp_JS_Call f argv Q w :
  (∀ v w', called w w' v → Q v w') → wp (JS_Call f argv) Q w.
Proof.
  intros HQ. unfold JS_Call. wp_step. wp_step. wp_step. wp_step.
  assert (HE : wp (js_raise ;; mret JS_EXCEPTION) Q (log_ev (Ev "JS_Call" (AV f :: (AV <$> argv))) w)).
  { wp_steps. apply HQ, quiet_called; [done|]. etrans; [apply quiet_log_ev|exact Hq]. }
  destruct (body_of f _) as [[]|]; try done.
  - wp_steps. apply HQ. split; world_simpl; try done; [|apply holds_nil]. intros a. world_simpl. lia.
  - wp_steps.
    + apply HQ, quiet_called; [done|]. etrans; [apply quiet_log_ev|apply quiet_log_ev].
    + unfold JS_NewObjectProto. apply wp_js_new. intros a Ha Ra. apply HQ. split; world_simpl; try done.
      * intros x. world_simpl. lia.
      * apply holds_one. world_simpl. world_simpl_in Ra. rewrite decide_True by done. lia.
    + apply HQ, quiet_called; [done|]. etrans; [apply quiet_log_ev|]. etrans; [apply quiet_log_ev|exact Hq].
Qed.

(** ** Computations that are quiet when no count is negative *)

Definition quietly_nn {A} (m : M A) (P : A → Prop) : Prop :=
  ∀ w, nonneg w → wp m (λ a w', quiet w w' ∧ P a) w.

Lemma wp_quietly_nn {A} (m : M A) P Q w :
  quietly_nn m P → nonneg w → (∀ a w', P a → quiet w w' → Q a w') → wp m Q w.
Proof. intros H Hn HQ. eapply wp_mono; [by apply H|]. intros a w' []. auto. Qed.

Lemma quiet_nonneg w w' : quiet w w' → nonneg w → nonneg w'.
Proof. intros Hq Hn a. rewrite (quiet_rc _ _ Hq). apply Hn. Qed.

Lemma quietly_nn_bind {A B} (m : M A) (k : A → M B) P R :
  quietly_nn m P → (∀ a, P a → quietly_nn (k a) R) → quietly_nn (m ≫= k) R.
Proof.
  intros Hm Hk w Hn. apply wp_bind. eapply wp_quietly_nn; [apply Hm|done|]. intros a w' Ha Hw.
  eapply wp_quietly_nn; [by apply Hk|by eapply quiet_nonneg|]. intros b w'' Hb Hw'. split; [|done]. by etrans.
Qed.

Lemma quietly_to_nn {A} (m : M A) P : quietly m P → quietly_nn m P.
Proof. intros H w _. apply H. Qed.

(** ** Deciding [safe] on a concrete world *)

Definition all_owned (m : gmap addr (allocator * cstruct)) : list addr :=
  map_to_list m ≫= (λ kx, own kx.2.2).

Lemma owned_all m a : owned m a = cnt a (all_owned m).
Proof.
  unfold owned, all_owned. rewrite map_fold_foldr.
  induction (map_to_list m) as [|[k x] l IH]; [done|]. simpl in *. by rewrite cnt_app, IH.
Qed.

Definition nonnegb (w : World) : bool := forallb (λ kz, 0 <=? kz.2) (map_to_list (w_rc w)).

Lemma nonnegb_sound w : nonnegb w = true → nonneg w.
Proof.
  unfold nonnegb. rewrite forallb_forall. intros H a. unfold rc.
  destruct (w_rc w !! a) as [z|] eqn:E; [|done]. simpl.
  apply Z.leb_le. apply (H (a, z)). apply list_elem_of_In. by apply elem_of_map_to_list.
Qed.

Definition safeb (w : World) : bool :=
  forallb (λ a, cnt a (all_owned (w_mem w)) <=? rc w a) (all_owned (w_mem w)) && nonnegb w.

Lemma safeb_sound w : safeb w = true → safe w.
Proof.
  unfold safeb. rewrite andb_true_iff, forallb_forall. intros [H1 H2] a. rewrite owned_all.
  destruct (decide (a ∈ all_owned (w_mem w))) as [Hin|Hin].
  - apply Z.leb_le, H1. by apply list_elem_of_In.
  - rewrite cnt_zero by done. by apply nonnegb_sound.
Qed.

(** Balanced calls from a safe world leave the caller with what it was given. *)
Lemma balanced_holds w w' out : safe w → balanced w w' out → holds w' out.
Proof.
  intros Hs Hb a. specialize (Hs a); specialize (Hb a). unfold excess in Hb.
  pose proof (owned_nonneg (w_mem w') a). lia.
Qed.

Lemma wp_GetOpaque2_class obj c p Q w :
  body_of obj w = Some (BClass c (Some p)) → Q (Some p) w → wp (JS_GetOpaque2 obj c) Q w.
Proof.
  intros Hb HQ. apply wp_bind, wp_gets. rewrite Hb, decide_True by done. by apply wp_ret.
Qed.

(** ** Reaching a fault *)

Lemma fault_bind {A B} (m : M A) (k : A → M B) f w :
  wp m (λ a w', k a w' = Fault f) w → (m ≫= k) w = Fault f.
Proof. unfold wp, mbind, M_bind. destruct (m w); tauto. Qed.

Lemma fault_first {A B} (m : M A) (k : A → M B) f w : m w = Fault f → (m ≫= k) w = Fault f.
Proof. unfold mbind, M_bind. by intros ->. Qed.

(** Freeing a block in which a handle is open. *)
Lemma free_open_handle al p c w :
  w_mem w !! p = Some (al, c) → existsb h_open (handles c) = true → c_free al p w = Fault OpenHandleFreed.
Proof. intros Hp Hh. unfold c_free. rewrite Hp, decide_True by done. by rewrite Hh. Qed.
