(* ===== verification/Lifecycle.v ===== *)
(** * The life of a structure with a libuv handle

    ijstreams.c, ijudp.c, ijsignals.c and ijprocess.c embed a libuv handle in a
    structure shared by two owners: the JavaScript object, which lets go in its
    finalizer, and libuv, which lets go when it runs the close callback. Each of the
    two sets a flag ([finalized], [closed]) and the last one frees. This file has the
    abstract life, the interface a module implements, and the refinement theorem
    proved once against the interface. *)

From S2P Require Import Prelude State Runtime Logic.

(** ** The abstract life *)

Record life := mkLife { lf_closing : bool; lf_closed : bool; lf_finalized : bool }.

Inductive lstate := Live (l : life) | Freed.

Inductive levent :=
| EClose      (* the close method, or any path to uvMaybeClose *)
| ECloseCb    (* libuv runs the close callback *)
| EFinalize.  (* the collector runs the finalizer *)

#[export] Instance levent_eq_dec : EqDecision levent.
Proof. solve_decision. Defined.

(** Methods run and the finalizer runs while the object exists; libuv runs the close
    callback once, after uv_close. *)
Definition enabled (l : life) (e : levent) : bool :=
  match e with
  | EClose | EFinalize => negb (lf_finalized l)
  | ECloseCb => lf_closing l && negb (lf_closed l)
  end.

Definition life_after (l : life) (e : levent) : lstate :=
  match e with
  | EClose => Live (mkLife true (lf_closed l) (lf_finalized l))
  | ECloseCb => if lf_finalized l then Freed else Live (mkLife (lf_closing l) true false)
  | EFinalize => if lf_closed l then Freed else Live (mkLife true false true)
  end.

Definition lstep (st : lstate) (e : levent) : option lstate :=
  match st with
  | Live l => if enabled l e then Some (life_after l e) else None
  | Freed => None
  end.

Fixpoint lrun (st : lstate) (es : list levent) : option lstate :=
  match es with
  | [] => Some st
  | e :: es' => match lstep st e with Some st' => lrun st' es' | None => None end
  end.

(** A new structure: the handle is open and the object alive. *)
Definition life0 : life := mkLife false false false.

Definition life_ok (l : life) : Prop :=
  (lf_closed l = true → lf_closing l = true) ∧ (lf_finalized l = true → lf_closing l = true) ∧
  (lf_closed l && lf_finalized l = false).

Definition lstate_ok (st : lstate) : Prop := match st with Live l => life_ok l | Freed => True end.

Lemma lstep_ok st e st' : lstate_ok st → lstep st e = Some st' → lstate_ok st'.
Proof.
  destruct st as [[c1 c2 c3]|], e; simpl; unfold life_ok; simpl; try done;
    destruct c1, c2, c3; simpl; intros; simplify_eq; simpl; unfold life_ok; simpl; intuition.
Qed.

Lemma lrun_ok es st st' : lstate_ok st → lrun st es = Some st' → lstate_ok st'.
Proof.
  revert st; induction es as [|e es IH]; simpl; intros st H; [congruence|].
  destruct (lstep st e) eqn:E; [|done]. intros ?. eapply IH; [|done]. by eapply lstep_ok.
Qed.

Lemma lrun_app es1 es2 st :
  lrun st (es1 ++ es2) = match lrun st es1 with Some st' => lrun st' es2 | None => None end.
Proof. revert st; induction es1 as [|e es IH]; intros st; [done|]. simpl. destruct (lstep st e); [apply IH|done]. Qed.

Definition flag (b : bool) : nat := if b then 1%nat else 0%nat.

(** The structure is freed exactly when both owners have let go. *)
Lemma freed_iff_both es l st :
  life_ok l → lrun (Live l) es = Some st →
  match st with
  | Freed => flag (lf_closed l) + length (filter (eq ECloseCb) es) = 1 ∧
             flag (lf_finalized l) + length (filter (eq EFinalize) es) = 1
  | Live l' => flag (lf_closed l) + length (filter (eq ECloseCb) es) = flag (lf_closed l') ∧
               flag (lf_finalized l) + length (filter (eq EFinalize) es) = flag (lf_finalized l')
  end%nat.
Proof.
  revert l; induction es as [|e es IH]; intros l Hok; simpl.
  { intros [= <-]. simpl. lia. }
  destruct (enabled l e) eqn:En; [|done].
  destruct (life_after l e) as [l'|] eqn:Ea; last first.
  { destruct es as [|e' es']; [|done]. intros [= <-]. destruct l as [c1 c2 c3], e; simpl in *;
      destruct c1, c2, c3; try done; destruct Hok as (?&?&?); simpl in *; done. }
  intros Hr. assert (Hok' : life_ok l').
  { eapply (lstep_ok (Live l) e (Live l')); [done|]. simpl. by rewrite En, Ea. }
  specialize (IH _ Hok' Hr). rewrite !filter_cons. destruct l as [c1 c2 c3], e; simpl in *;
    destruct c1, c2, c3; simpl in *; try done; simplify_eq; simpl in *;
    repeat case_decide; try done; destruct st; simpl in *; lia.
Qed.

(** Both owners have let go. *)
Definition both_gone (es : list levent) : bool :=
  bool_decide (ECloseCb ∈ es) && bool_decide (EFinalize ∈ es).

Lemma filter_eq_pos (e : levent) es : bool_decide (e ∈ es) = (0 <? length (filter (eq e) es))%nat.
Proof.
  destruct (filter (eq e) es) as [|e' l] eqn:E; simpl.
  - apply bool_decide_eq_false_2. intros He. assert (e ∈ filter (eq e) es) by by apply list_elem_of_filter.
    rewrite E in *. set_solver.
  - apply bool_decide_eq_true_2. assert (He : e' ∈ filter (eq e) es) by (rewrite E; set_solver).
    apply list_elem_of_filter in He as [-> ?]. done.
Qed.

Lemma both_gone_spec es st :
  lrun (Live life0) es = Some st → both_gone es = match st with Freed => true | Live _ => false end.
Proof.
  intros H. assert (Hok : lstate_ok st) by (by eapply (lrun_ok es (Live life0))).
  assert (Ho : life_ok life0) by done. pose proof (freed_iff_both es life0 st Ho H) as Hf. clear Ho H.
  unfold both_gone. rewrite !filter_eq_pos. destruct st as [[c1 c2 c3]|]; simpl in Hf.
  - destruct Hf as [-> ->]. destruct Hok as (_ & _ & Hb). simpl in Hb. by destruct c2, c3.
  - destruct Hf as [-> ->]. done.
Qed.

(** Once the object is gone, the close callback is due and frees. *)
Lemma finalized_will_free l : life_ok l → lf_finalized l = true → lstep (Live l) ECloseCb = Some Freed.
Proof.
  destruct l as [c1 c2 c3]. intros (_ & Hc & Hb) Hf. simpl in *. subst.
  rewrite (Hc eq_refl). rewrite andb_true_r in Hb. by subst.
Qed.

(** ** The interface *)

(** [lc_inv w p s]: the structure [s] at [p] is as the module keeps it. *)
Class Lifecycle (St : Type) := {
  lc_wrap : St → cstruct;
  lc_life : St → life;
  lc_inv : World → addr → St → Prop;
  lc_close : addr → M unit;
  lc_close_cb : addr → M unit;
  lc_finalize : addr → M unit;
  lc_close_spec w p s :
    w_mem w !! p = Some (ByJe, lc_wrap s) → lc_inv w p s → enabled (lc_life s) EClose = true →
    wp (lc_close p) (λ _ w', ∃ s', w_mem w' = <[p := (ByJe, lc_wrap s')]> (w_mem w) ∧
      lc_inv w' p s' ∧ Live (lc_life s') = life_after (lc_life s) EClose) w;
  lc_close_cb_spec w p s :
    w_mem w !! p = Some (ByJe, lc_wrap s) → lc_inv w p s → enabled (lc_life s) ECloseCb = true →
    wp (lc_close_cb p) (λ _ w',
      match life_after (lc_life s) ECloseCb with
      | Freed => w_mem w' = delete p (w_mem w)
      | Live l => ∃ s', w_mem w' = <[p := (ByJe, lc_wrap s')]> (w_mem w) ∧ lc_inv w' p s' ∧ lc_life s' = l
      end) w;
  lc_finalize_spec w p s :
    w_mem w !! p = Some (ByJe, lc_wrap s) → lc_inv w p s → enabled (lc_life s) EFinalize = true →
    wp (lc_finalize p) (λ _ w',
      match life_after (lc_life s) EFinalize with
      | Freed => w_mem w' = delete p (w_mem w)
      | Live l => ∃ s', w_mem w' = <[p := (ByJe, lc_wrap s')]> (w_mem w) ∧ lc_inv w' p s' ∧ lc_life s' = l
      end) w
}.

Section Refinement.
Context {St : Type} `{Lifecycle St}.


Definition lexec (p : addr) (e : levent) : M unit :=
  match e with EClose => lc_close p | ECloseCb => lc_close_cb p | EFinalize => lc_finalize p end.

Fixpoint lexecs (p : addr) (es : list levent) : M unit :=
  match es with [] => mret tt | e :: es' => lexec p e ;; lexecs p es' end.

(** The structure at [p] in [w] is in the abstract state [st]; memory elsewhere is [m]'s. *)
Definition in_state (m : gmap addr (allocator * cstruct)) (w : World) (p : addr) (st : lstate) : Prop :=
  delete p (w_mem w) = delete p m ∧
  match st with
  | Freed => w_mem w !! p = None
  | Live l => ∃ s, w_mem w !! p = Some (ByJe, lc_wrap s) ∧ lc_inv w p s ∧ lc_life s = l
  end.

Lemma in_state_insert m w w' p s :
  delete p (w_mem w) = delete p m → w_mem w' = <[p := (ByJe, lc_wrap s)]> (w_mem w) →
  lc_inv w' p s → in_state m w' p (Live (lc_life s)).
Proof.
  intros Hd Hm Hi. split; [by rewrite Hm, delete_insert_eq|].
  exists s. by rewrite Hm, lookup_insert_eq.
Qed.

Lemma in_state_delete m w w' p :
  delete p (w_mem w) = delete p m → w_mem w' = delete p (w_mem w) → in_state m w' p Freed.
Proof. intros Hd Hm. split; rewrite Hm; [by rewrite delete_delete_eq|apply lookup_delete_eq]. Qed.

Lemma lexec_refines m w p st e st' :
  in_state m w p st → lstep st e = Some st' → wp (lexec p e) (λ _ w', in_state m w' p st') w.
Proof.
  destruct st as [l|]; [|done]. intros (Hd & s & Hs & Hi & <-). unfold lstep.
  destruct (enabled (lc_life s) e) eqn:En; [|done]. intros [= <-]. destruct e; unfold lexec.
  - eapply wp_mono; [by apply lc_close_spec|]. intros _ w' (s' & Hm & Hi' & <-).
    by eapply in_state_insert.
  - eapply wp_mono; [by apply lc_close_cb_spec|]. intros ? w' Hw. cbv beta in Hw.
    destruct (life_after _ _); [|by eapply in_state_delete].
    destruct Hw as (s' & Hm & Hi' & Hl). rewrite <- Hl. by eapply in_state_insert.
  - eapply wp_mono; [by apply lc_finalize_spec|]. intros ? w' Hw. cbv beta in Hw.
    destruct (life_after _ _); [|by eapply in_state_delete].
    destruct Hw as (s' & Hm & Hi' & Hl). rewrite <- Hl. by eapply in_state_insert.
Qed.

(** Every sequence of events the abstract life allows runs without a fault, and
    keeps the structure in step with the abstract state. *)
Lemma lexecs_refines m es w p st st' :
  in_state m w p st → lrun st es = Some st' → wp (lexecs p es) (λ _ w', in_state m w' p st') w.
Proof.
  revert w st; induction es as [|e es IH]; simpl; intros w st Hw Hr.
  - simplify_eq. by apply wp_ret.
  - destruct (lstep st e) as [st1|] eqn:E; [|done]. apply wp_bind.
    eapply wp_mono; [by eapply lexec_refines|]. intros ? w1 Hw1. cbv beta in Hw1. eapply IH; [exact Hw1|exact Hr].
Qed.

(** The block is released when both owners have let go, and not before; nothing else in
    memory changes. *)
Definition freed_once (m : gmap addr (allocator * cstruct)) (p : addr) (es : list levent) (w' : World) : Prop :=
  delete p (w_mem w') = delete p m ∧
  if both_gone es then w_mem w' !! p = None
  else ∃ s, w_mem w' !! p = Some (ByJe, lc_wrap s) ∧ lc_inv w' p s.

Lemma lexecs_freed_once w p s es st :
  w_mem w !! p = Some (ByJe, lc_wrap s) → lc_inv w p s → lc_life s = life0 → lrun (Live life0) es = Some st →
  wp (lexecs p es) (λ _ w', freed_once (w_mem w) p es w') w.
Proof.
  intros Hp Hi Hl Hr. eapply wp_mono.
  - apply (lexecs_refines (w_mem w) es w p (Live life0) st); [|done]. split; [done|]. by exists s.
  - intros ? w' [Hd Hst]. cbv beta. split; [done|].
    rewrite (both_gone_spec es st) by done. destruct st as [l|]; [|done].
    destruct Hst as (s' & ? & ? & _). by exists s'.
Qed.
End Refinement.
