(* ===== verification/Promise.v ===== *)
(** * Promises and errors: ijutils.c, ijerror.c

    The C side of a JavaScript promise ([IJJSPromise] of ijjs.h) and the error
    objects the modules reject with. A promise record lives inside a structure,
    so the operations take a [place]: the block and the field. *)

From S2P Require Import Prelude State Runtime Logic.

(** ** Promise fields *)

Inductive field := FRead | FAccept | FResult.

Record place := Place { pl_block : addr; pl_field : field }.

Definition with_result (r : IJJSReq) (pr : option IJJSPromise) : IJJSReq :=
  mkReq (rq_handle r) (rq_data r) pr.

(** The promise in a field; [None] when the field has not been written. *)
Definition sel (f : field) (c : cstruct) : option IJJSPromise :=
  match f, c with
  | FRead, CStream s => Some (s_read_result s)
  | FAccept, CStream s => Some (s_accept_result s)
  | FRead, CUdp u => Some (u_read_result u)
  | FRead, CKcp k => Some (k_read_result k)
  | FResult, CConnectReq r | FResult, CShutdownReq r | FResult, CGetAddrInfoReq r => rq_result r
  | FResult, CWriteReq r => rq_result (wr_req r)
  | FResult, CSendReq r => rq_result (sd_req r)
  | FResult, CFsReq r => fr_result r
  | FResult, CReadFileReq r => rf_result r
  | FResult, CProcess p => Some (pr_result p)
  | _, _ => None
  end.

Definition upd (f : field) (pr : IJJSPromise) (c : cstruct) : cstruct :=
  match f, c with
  | FRead, CStream s =>
      CStream (mkStream (s_closed s) (s_finalized s) (s_h s) (s_read_size s) pr (s_accept_result s))
  | FAccept, CStream s =>
      CStream (mkStream (s_closed s) (s_finalized s) (s_h s) (s_read_size s) (s_read_result s) pr)
  | FRead, CUdp u => CUdp (mkUdp (u_closed u) (u_finalized u) (u_udp u) (u_read_size u) pr)
  | FRead, CKcp k =>
      CKcp (mkKcp (k_closed k) (k_finalized k) (k_udp k) (k_kcp k) (k_sa k) (k_conv k)
              (k_read_size k) pr (k_write k) (k_idle k) (k_nextupdate k))
  | FResult, CConnectReq r => CConnectReq (with_result r (Some pr))
  | FResult, CShutdownReq r => CShutdownReq (with_result r (Some pr))
  | FResult, CGetAddrInfoReq r => CGetAddrInfoReq (with_result r (Some pr))
  | FResult, CWriteReq r => CWriteReq (mkWriteReq (with_result (wr_req r) (Some pr)) (wr_data r))
  | FResult, CSendReq r => CSendReq (mkSendReq (with_result (sd_req r) (Some pr)) (sd_buf r))
  | FResult, CFsReq r =>
      CFsReq (mkFsReq (fr_type r) (fr_res r) (fr_reqpath r) (fr_data r) (fr_obj r) (Some pr)
                (fr_buf r) (fr_wdata r))
  | FResult, CReadFileReq r =>
      CReadFileReq (mkReadFileReq (rf_dbuf r) (rf_r r) (rf_filename r) (rf_data r) (Some pr))
  | FResult, CProcess p =>
      CProcess (mkProcess (pr_closed p) (pr_finalized p) (pr_process p) (pr_stdin p) (pr_stdout p)
                  (pr_stderr p) (pr_exited p) (pr_exit_status p) (pr_term_signal p) pr)
  | _, c => c
  end.

Definition get_promise (pl : place) : M IJJSPromise :=
  c ← load (pl_block pl) ;
  match sel (pl_field pl) c with Some pr => mret pr | None => fail Uninit end.

Definition put_promise (pl : place) (pr : IJJSPromise) : M unit :=
  c ← load (pl_block pl) ;
  store (pl_block pl) (upd (pl_field pl) pr c).

(** ** ijutils.c *)

(** The assignment [p->p = JS_EXCEPTION] of a failed [ijInitPromise]: the other
    members keep what they had, in a block that was not zeroed nothing. *)
Definition fail_promise (pl : place) : M unit :=
  c ← load (pl_block pl) ;
  match sel (pl_field pl) c with
  | Some pr => store (pl_block pl) (upd (pl_field pl)
      (mkPromise JS_EXCEPTION (p_rfunc0 pr) (p_rfunc1 pr) (p_valid pr)) c)
  | None => mret tt
  end.

Definition ijInitPromise (pl : place) : M JSValue :=
  o ← JS_NewPromiseCapability ;
  match o with
  | None => fail_promise pl ;; mret JS_EXCEPTION
  | Some cap =>
      r0 ← JS_DupValue (cap_funcs cap).1 ;
      r1 ← JS_DupValue (cap_funcs cap).2 ;
      put_promise pl (mkPromise (cap_promise cap) r0 r1 true) ;;
      JS_DupValue (cap_promise cap)
  end.

Definition ijIsPromisePending (pl : place) : M bool :=
  pr ← get_promise pl ;
  mret (negb (JS_IsUndefined (p_p pr))).

Definition set_valid (pr : IJJSPromise) (b : bool) : IJJSPromise :=
  mkPromise (p_p pr) (p_rfunc0 pr) (p_rfunc1 pr) b.

Definition ijFreePromise (pl : place) : M unit :=
  pr ← get_promise pl ;
  JS_FreeValue (p_rfunc0 pr) ;;
  JS_FreeValue (p_rfunc1 pr) ;;
  JS_FreeValue (p_p pr) ;;
  put_promise pl (set_valid pr false).

Definition ijFreePromiseRT (pl : place) : M unit :=
  pr ← get_promise pl ;
  JS_FreeValueRT (p_rfunc0 pr) ;;
  JS_FreeValueRT (p_rfunc1 pr) ;;
  JS_FreeValueRT (p_p pr) ;;
  put_promise pl (set_valid pr false).

Definition cleared : IJJSPromise := mkPromise JS_UNDEFINED JS_UNDEFINED JS_UNDEFINED false.

Definition ijClearPromise (pl : place) : M unit := put_promise pl cleared.

(** The values shown to the collector, in order. *)
Definition ijMarkPromise (pr : IJJSPromise) : list JSValue :=
  if p_valid pr then [p_p pr; p_rfunc0 pr; p_rfunc1 pr] else [].

Definition ijSettlePromise (pl : place) (is_reject : bool) (argv : list JSValue) : M unit :=
  pr ← get_promise pl ;
  if negb (p_valid pr) then mret tt
  else
    ret ← JS_Call (p_rfuncs pr is_reject) argv ;
    free_values argv ;;
    JS_FreeValue ret ;;
    JS_FreeValue (p_rfunc0 pr) ;;
    JS_FreeValue (p_rfunc1 pr) ;;
    ijFreePromise pl.

Definition ijResolvePromise (pl : place) (argv : list JSValue) : M unit := ijSettlePromise pl false argv.
Definition ijRejectPromise (pl : place) (argv : list JSValue) : M unit := ijSettlePromise pl true argv.

Definition ijSettledPromise (is_reject : bool) (argv : list JSValue) : M JSValue :=
  o ← JS_NewPromiseCapability ;
  match o with
  | None => mret JS_EXCEPTION
  | Some cap =>
      ret ← JS_Call (if is_reject then (cap_funcs cap).2 else (cap_funcs cap).1) argv ;
      free_values argv ;;
      JS_FreeValue ret ;;
      JS_FreeValue (cap_funcs cap).1 ;;
      JS_FreeValue (cap_funcs cap).2 ;;
      mret (cap_promise cap)
  end.

Definition ijNewResolvedPromise (argv : list JSValue) : M JSValue := ijSettledPromise false argv.
Definition ijNewRejectedPromise (argv : list JSValue) : M JSValue := ijSettledPromise true argv.

(** JS_NewArrayBuffer over a block from [js_malloc], to be freed by [ijBufFree]:
    the block belongs to the new value when the call succeeds. The bytes in the
    block are the ones the last read put there. *)
Definition JS_NewArrayBuffer (data : addr) (size : Z) : M JSValue :=
  r ← ask "JS_NewArrayBuffer" [] ;
  if r =? 0 then
    _ ← load data ;
    js_free data ;;
    o ← ask_str "contents" [AP data] ;
    js_new (BArrayBuffer (take (Z.to_nat size) (default [] o)))
  else (js_raise ;; mret JS_EXCEPTION).

Definition ijNewUint8Array (data : addr) (size : Z) : M JSValue :=
  abuf ← JS_NewArrayBuffer data size ;
  if JS_IsException abuf then mret abuf
  else
    buf ← js_try_new "Uint8Array" (BTypedArray (match abuf with JS_REF a => a | _ => 1%positive end) 0 size) ;
    JS_FreeValue abuf ;;
    mret buf.

(** ** ijerror.c *)

Definition JS_NewError : M JSValue := js_try_new "JS_NewError" (BError []).

Definition uv_strerror (err : Z) : M bytes :=
  o ← ask_str "uv_strerror" [AZ err] ; mret (default [] o).

Definition ijNewError (err : Z) : M JSValue :=
  obj ← JS_NewError ;
  text ← uv_strerror err ;
  msg ← JS_NewString text ;
  JS_DefinePropertyValueStr obj "message" msg ;;
  JS_DefinePropertyValueStr obj "errno" (JS_NewInt32 err) ;;
  mret obj.

Definition ijErrorConstructor (argv : list JSValue) : M JSValue :=
  a0 ← arg_at argv 0 ;
  o ← JS_ToInt32 a0 ;
  match o with
  | None => mret JS_EXCEPTION
  | Some err => ijNewError err
  end.

Definition ijErrorStrError (argv : list JSValue) : M JSValue :=
  a0 ← arg_at argv 0 ;
  o ← JS_ToInt32 a0 ;
  match o with
  | None => mret JS_EXCEPTION
  | Some err => text ← uv_strerror err ; JS_NewString text
  end.

Definition ijThrowErrno (err : Z) : M JSValue :=
  obj ← ijNewError err ;
  JS_Throw (if JS_IsException obj then JS_NULL else obj).

(** ** Reporting errors: ijDumpObj, ijDumpError and ijCallHandler of ijutils.c *)

Definition ijDumpObj (val : JSValue) : M unit :=
  str ← JS_ToCString val ;
  match str with
  | Some (p, s) => log "fprintf" [AB s] ;; JS_FreeCString p
  | None => log "fprintf" [AB (lit "[exception]")]
  end.

Definition ijDumpError1 (exception_val : JSValue) : M unit :=
  is_error ← JS_IsError exception_val ;
  ijDumpObj exception_val ;;
  if (is_error : bool) then
    val ← JS_GetPropertyStr exception_val "stack" ;
    (if JS_IsUndefined val then mret tt else ijDumpObj val) ;;
    JS_FreeValue val
  else mret tt.

Definition ijDumpError : M unit :=
  exception_val ← JS_GetException ;
  ijDumpError1 exception_val ;;
  JS_FreeValue exception_val.

Definition ijCallHandler (func : JSValue) : M unit :=
  func1 ← JS_DupValue func ;
  ret ← JS_Call func1 [] ;
  JS_FreeValue func1 ;;
  (if JS_IsException ret then ijDumpError else mret tt) ;;
  JS_FreeValue ret.

(** ** Errors *)

(** An error object for [err], or the exception left by a failed allocation. *)
Definition error_value (err : Z) (v : JSValue) (w : World) : Prop :=
  v = JS_EXCEPTION ∨
  ∃ a m, v = JS_REF a ∧
    w_cell w !! a = Some (BError [("message"%string, m); ("errno"%string, JS_INT (signed32 err))]).

Lemma quietly_uv_strerror err : quietly (uv_strerror err) (λ _, True).
Proof. eapply quietly_bind; [apply quietly_ask_str|]. intros. by apply quietly_ret. Qed.
#[export] Hint Resolve quietly_uv_strerror : quiet.

(** Updating a cell that [w] does not have keeps what [w] has. *)
Lemma gives_update_new w w' l a f :
  w_cell w !! a = None → gives w w' l → gives w (update_cell (JS_REF a) f w') l.
Proof.
  intros Ha [? ? ? Hc ?]. split; [done|done|done| |done].
  intros a' b H. world_simpl. rewrite lookup_alter_ne by congruence. by apply Hc.
Qed.

Lemma gives_update_imm w w' l f v : ref_of v = [] → gives w w' l → gives w (update_cell v f w') l.
Proof. by destruct v. Qed.

Lemma giving_ijNewError err : giving (ijNewError err) (error_value err).
Proof.
  intros w. unfold ijNewError. wp_step.
  assert (H : ∀ v w1, gives w w1 (ref_of v) →
     (v = JS_EXCEPTION ∨ ∃ a, v = JS_REF a ∧ w_cell w !! a = None ∧ w_cell w1 !! a = Some (BError [])) →
     wp (text ← uv_strerror err ; msg ← JS_NewString text ;
         JS_DefinePropertyValueStr v "message" msg ;;
         JS_DefinePropertyValueStr v "errno" (JS_NewInt32 err) ;; mret v)
        (λ v w', gives w w' (ref_of v) ∧ error_value err v w') w1).
  { intros v w1 Hw1 Hv. wp_step. wp_step. wp_step. apply wp_js_new. intros m Hm Rm.
    wp_step. apply wp_DefinePropertyValueStr.
    { apply holds_one. world_simpl. world_simpl_in Rm. rewrite decide_True by done. lia. }
    wp_step. apply wp_DefinePropertyValueStr; [apply holds_nil|]. wp_steps. simpl drop_ref.
    assert (Hw2 := gives_then_quiet _ _ _ _ Hw1 (transitivity Hq (quiet_drop_new m (BString r) w0 Hm))).
    destruct Hv as [->|(a & -> & Ha & Hb)].
    - split; [|by left]. by repeat apply gives_update_imm.
    - split; [by repeat apply gives_update_new|]. right. exists a, (JS_REF m). split; [done|].
      apply (quiet_cell _ _ Hq) in Hb. world_simpl.
      assert (m ≠ a) by congruence. by simplify_map_eq. }
  apply wp_try_new.
  - intros a Ha Ra. apply H.
    + eapply quiet_gives; [apply (quiet_log_ev (Ev "JS_NewError" []))|]. by apply gives_new_cell.
    + right. exists a. split_and!; [done|done|]. world_simpl. by rewrite lookup_insert_eq.
  - intros w' Hw. apply H; [by apply gives_quiet|by left].
Qed.

(** Throwing an errno leaves nothing behind but the pending exception. *)
Lemma quietly_ijThrowErrno err : quietly (ijThrowErrno err) (λ v, v = JS_EXCEPTION).
Proof.
  intros w. unfold ijThrowErrno. wp_step. eapply wp_giving; [apply giving_ijNewError|].
  intros v w1 Hw1 Hv.
  assert (Hd : ∀ e, quiet w (set_exc e (drop_ref v w1))).
  { intros e. destruct Hw1 as [E Mm R C Hh]. split; world_simpl; try done.
    intros a. world_simpl. lia. }
  apply gives_holds in Hw1.
  destruct Hv as [->|(a & m & -> & Hb)]; simpl; unfold JS_Throw; wp_step; (apply wp_FreeValue; [done|]); wp_steps;
    (split; [apply Hd|done]).
Qed.

#[export] Hint Resolve quietly_ijThrowErrno : quiet.

(** ** Promises *)

Definition has_field (f : field) (c : cstruct) : bool :=
  match f, c with
  | FRead, (CStream _ | CUdp _ | CKcp _) | FAccept, CStream _ => true
  | FResult, (CConnectReq _ | CShutdownReq _ | CGetAddrInfoReq _ | CWriteReq _ | CSendReq _
              | CFsReq _ | CReadFileReq _ | CProcess _) => true
  | _, _ => false
  end.

Lemma sel_upd f pr c : has_field f c = true → sel f (upd f pr c) = Some pr.
Proof. by destruct f, c. Qed.

Lemma upd_upd f pr pr' c : upd f pr (upd f pr' c) = upd f pr c.
Proof. by destruct f, c. Qed.

Lemma handles_upd f pr c : handles (upd f pr c) = handles c.
Proof. by destruct f, c. Qed.

Lemma sel_has_field f c pr : sel f c = Some pr → has_field f c = true.
Proof. by destruct f, c. Qed.

Lemma has_field_upd f pr c f' : has_field f' (upd f pr c) = has_field f' c.
Proof. by destruct f, c. Qed.

(** Writing a promise field changes what the structure owns by that promise. *)
Lemma cnt_own_upd a f pr c :
  has_field f c = true →
  cnt a (own (upd f pr c)) = cnt a (own c) - cnt a (own_promise_opt (sel f c)) + cnt a (own_promise pr).
Proof. destruct f, c; try done; intros _; simpl; rewrite ?cnt_app; lia. Qed.

Lemma own_sel_le a f c : cnt a (own_promise_opt (sel f c)) ≤ cnt a (own c).
Proof.
  destruct f, c; simpl; rewrite ?cnt_app, ?cnt_nil;
  repeat match goal with |- context [cnt a ?l] =>
    lazymatch goal with _ : 0 ≤ cnt a l |- _ => fail | _ => pose proof (cnt_nonneg a l) end end; lia.
Qed.

Lemma wp_get_promise pl al c pr (Q : IJJSPromise → World → Prop) w :
  w_mem w !! pl_block pl = Some (al, c) → sel (pl_field pl) c = Some pr → Q pr w →
  wp (get_promise pl) Q w.
Proof. intros Hc Hs HQ. unfold get_promise. wp_steps. rewrite Hs. by wp_steps. Qed.

Lemma wp_put_promise pl pr al c (Q : unit → World → Prop) w :
  w_mem w !! pl_block pl = Some (al, c) →
  Q tt (set_mem (<[pl_block pl := (al, upd (pl_field pl) pr c)]> (w_mem w)) w) →
  wp (put_promise pl pr) Q w.
Proof. intros Hc HQ. unfold put_promise. by wp_steps. Qed.

Lemma own_invalid pr : own_promise (set_valid pr false) = [].
Proof. done. Qed.
Lemma own_cleared : own_promise cleared = [].
Proof. done. Qed.
#[export] Hint Rewrite own_invalid own_cleared : world.

(** The record of a pending promise: the promise and its two resolving functions. *)
Definition pending_at (w : World) (pr : IJJSPromise) (pa : addr) : Prop :=
  p_valid pr = true ∧ p_p pr = JS_REF pa ∧ w_cell w !! pa = Some (BPromise Pending) ∧
  body_of (p_rfunc0 pr) w = Some (BResolver pa false) ∧
  body_of (p_rfunc1 pr) w = Some (BResolver pa true).

Lemma pending_rfuncs w pr pa b : pending_at w pr pa → body_of (p_rfuncs pr b) w = Some (BResolver pa b).
Proof. intros (?&?&?&?&?). by destruct b. Qed.

Lemma own_pending w pr pa :
  pending_at w pr pa →
  own_promise pr = pa :: refs_of [p_rfunc0 pr; p_rfunc0 pr; p_rfunc1 pr; p_rfunc1 pr].
Proof. intros (Hv & Hp & _). unfold own_promise. by rewrite Hv, Hp. Qed.

(** What settling does: the promise's references and those of the arguments are
    released, the record is invalid, the JavaScript promise is settled. *)
Record settled (w w' : World) (pl : place) (pr : IJJSPromise) (pa : addr)
    (is_reject : bool) (argv : list JSValue) : Prop := {
  settled_env : w_env w' = w_env w;
  settled_mem : ∀ al c, w_mem w !! pl_block pl = Some (al, c) →
    w_mem w' = <[pl_block pl := (al, upd (pl_field pl) (set_valid pr false) c)]> (w_mem w);
  settled_rc : ∀ a, rc w' a = rc w a - cnt a (refs_of argv) - cnt a (own_promise pr);
  settled_cell : w_cell w' =
    <[pa := BPromise ((if is_reject then Rejected else Fulfilled) (default JS_UNDEFINED (argv !! 0%nat)))]> (w_cell w)
}.

Lemma wp_ijSettlePromise pl is_reject argv al c pr pa (Q : unit → World → Prop) w :
  w_mem w !! pl_block pl = Some (al, c) → sel (pl_field pl) c = Some pr → pending_at w pr pa →
  holds w (refs_of argv ++ own_promise pr) →
  (∀ w', settled w w' pl pr pa is_reject argv → Q tt w') →
  wp (ijSettlePromise pl is_reject argv) Q w.
Proof.
  intros Hc Hs Hp Hh HQ. pose proof Hp as (Hv & Hpp & Hcell & _).
  unfold ijSettlePromise. wp_step. eapply wp_get_promise; [done|done|]. rewrite Hv. cbn [negb].
  unfold own_promise in Hh. rewrite Hv in Hh.
  wp_step. eapply wp_call_resolver; [by apply pending_rfuncs|].
  wp_step. apply wp_free_values; [holds_by Hh|].
  wp_step. apply wp_FreeValue; [apply holds_nil|].
  wp_step. apply wp_FreeValue; [holds_by Hh|].
  wp_step. apply wp_FreeValue; [holds_by Hh|].
  unfold ijFreePromise. wp_step. eapply wp_get_promise; [lookup_tac|done|].
  wp_step. apply wp_FreeValue; [holds_by Hh|].
  wp_step. apply wp_FreeValue; [holds_by Hh|].
  wp_step. apply wp_FreeValue; [holds_by Hh|].
  eapply wp_put_promise; [lookup_tac|]. apply HQ. split.
  - by world_simpl.
  - intros al' c'. rewrite Hc. intros [= <- <-]. by world_simpl.
  - intros a. world_simpl. unfold own_promise. rewrite Hv. world_simpl. lia.
  - world_simpl. apply map_eq. intros a. destruct (decide (a = pa)) as [->|].
    + rewrite lookup_alter_eq, lookup_insert_eq, Hcell. simpl. by destruct is_reject.
    + by rewrite lookup_alter_ne, lookup_insert_ne.
Qed.

(** Settling balances the books: the arguments are consumed, nothing is left over. *)
Lemma settled_excess w w' pl al c pr pa is_reject argv a :
  w_mem w !! pl_block pl = Some (al, c) → sel (pl_field pl) c = Some pr →
  settled w w' pl pr pa is_reject argv →
  excess w' a = excess w a - cnt a (refs_of argv).
Proof.
  intros Hc Hs [_ Hm Hr _]. unfold excess. rewrite (Hm al c), Hr by done.
  erewrite owned_update by done. rewrite cnt_own_upd, Hs by (by eapply sel_has_field). simpl.
  change (own_promise (set_valid pr false)) with (@nil addr). rewrite cnt_nil. lia.
Qed.

Lemma pending_kept w w' pr pa :
  (∀ a b, w_cell w !! a = Some b → w_cell w' !! a = Some b) → pending_at w pr pa → pending_at w' pr pa.
Proof.
  intros Hq (Hv & Hp & Hc & H0 & H1). split_and!; try done; [by apply Hq| |].
  - destruct (p_rfunc0 pr); try done. by apply Hq.
  - destruct (p_rfunc1 pr); try done. by apply Hq.
Qed.

(** [ijInitPromise] when quickjs makes the promise: the record owns it, the caller
    gets one more reference to return. *)
Record initialised (w w' : World) (pl : place) (pr : IJJSPromise) (pa : addr) : Prop := {
  init_env : w_env w' = w_env w;
  init_mem : ∀ al c, w_mem w !! pl_block pl = Some (al, c) →
    w_mem w' = <[pl_block pl := (al, upd (pl_field pl) pr c)]> (w_mem w);
  init_rc : ∀ a, rc w' a = rc w a + cnt a (own_promise pr) + cnt a [pa];
  init_cell : ∀ a b, w_cell w !! a = Some b → w_cell w' !! a = Some b;
  init_pending : pending_at w' pr pa;
  init_fresh : w_cell w !! pa = None ∧ rc w pa = 0
}.

(** and when it does not: the field keeps its members but for [p]. *)
Definition fail_upd (f : field) (c : cstruct) : cstruct :=
  match sel f c with
  | Some pr => upd f (mkPromise JS_EXCEPTION (p_rfunc0 pr) (p_rfunc1 pr) (p_valid pr)) c
  | None => c
  end.

Record init_failed (w w' : World) (pl : place) : Prop := {
  if_env : w_env w' = w_env w;
  if_mem : ∀ al c, w_mem w !! pl_block pl = Some (al, c) →
    w_mem w' = <[pl_block pl := (al, fail_upd (pl_field pl) c)]> (w_mem w);
  if_rc : ∀ a, rc w' a = rc w a;
  if_cell : ∀ a b, w_cell w !! a = Some b → w_cell w' !! a = Some b
}.

Lemma wp_NewPromiseCapability (Q : option capability → World → Prop) w :
  (∀ p r0 r1 w',
     w_env w' = w_env w → w_mem w' = w_mem w → w_cell w !! p = None → rc w p = 0 →
     (∀ a, rc w' a = rc w a + cnt a [p; r0; r1]) →
     w_cell w' = <[r1 := BResolver p true]> (<[r0 := BResolver p false]> (<[p := BPromise Pending]> (w_cell w))) →
     w_cell w !! r0 = None → w_cell w !! r1 = None → p ≠ r0 → p ≠ r1 → r0 ≠ r1 → holds w' [p; r0; r1] →
     Q (Some (mkCap (JS_REF p) (JS_REF r0, JS_REF r1))) w') →
  (∀ w', quiet w w' → Q None w') →
  wp JS_NewPromiseCapability Q w.
Proof.
  intros H1 H2. unfold JS_NewPromiseCapability. wp_steps.
  - apply wp_js_new. intros p Hp Rp. wp_step. apply wp_js_new. intros r0 Hr0 Rr0.
    wp_step. apply wp_js_new. intros r1 Hr1 Rr1. wp_step.
    world_simpl_in Hp. world_simpl_in Hr0. world_simpl_in Hr1.
    apply lookup_insert_None in Hr0 as [Hr0 ?].
    apply lookup_insert_None in Hr1 as [Hr1 ?]. apply lookup_insert_None in Hr1 as [Hr1 ?].
    world_simpl_in Rp. world_simpl_in Rr0. world_simpl_in Rr1.
    rewrite decide_False in Rr0 by congruence. rewrite !decide_False in Rr1 by congruence.
    eapply H1; try done.
    + intros a. world_simpl. lia.
    + intros a. world_simpl. decide_all; lia.
  - wp_steps. apply H2. etrans; [apply (quiet_log_ev (Ev "JS_NewPromiseCapability" []))|done].
Qed.

Lemma wp_ijInitPromise pl al c (Q : JSValue → World → Prop) w :
  w_mem w !! pl_block pl = Some (al, c) →
  (∀ w' pr pa, initialised w w' pl pr pa → Q (JS_REF pa) w') →
  (∀ w', init_failed w w' pl → Q JS_EXCEPTION w') →
  wp (ijInitPromise pl) Q w.
Proof.
  intros Hc H1 H2. unfold ijInitPromise. wp_step. apply wp_NewPromiseCapability.
  - intros p r0 r1 w' Henv Hm Hp Rp Hr Hcell Hr0 Hr1 N1 N2 N3 Hh.
    wp_steps. eapply wp_put_promise; [lookup_tac|]. wp_steps.
    apply (H1 _ (mkPromise (JS_REF p) (JS_REF r0) (JS_REF r1) true)). split.
    + world_simpl. by rewrite Henv.
    + intros al' c'. rewrite Hc. intros [= <- <-]. by world_simpl.
    + intros a. unfold own_promise. simpl. world_simpl. lia.
    + intros a b Ha. world_simpl. by rewrite !lookup_insert_ne by congruence.
    + split_and!; try done; simpl; rewrite Hcell.
      * rewrite lookup_insert_ne, lookup_insert_ne by congruence. apply lookup_insert_eq.
      * rewrite lookup_insert_ne by congruence. apply lookup_insert_eq.
      * by rewrite lookup_insert_eq.
    + done.
  - intros w' Hq. unfold fail_promise. wp_step. wp_step. eapply wp_load; [lookup_tac|].
    destruct (sel (pl_field pl) c) as [pr|] eqn:Hs.
    + wp_steps. apply H2. split.
      * by world_simpl.
      * intros al' c'. rewrite Hc. intros [= <- <-]. world_simpl. unfold fail_upd. by rewrite Hs.
      * intros a. by world_simpl.
      * apply Hq.
    + wp_steps. apply H2. split.
      * by world_simpl.
      * intros al' c'. rewrite Hc. intros [= <- <-]. world_simpl. unfold fail_upd. rewrite Hs.
        by rewrite insert_id.
      * intros a. by world_simpl.
      * apply Hq.
Qed.

(** Initialising an idle field makes one reference more than the structures own: the
    one that is returned. *)
Lemma initialised_excess w w' pl al c pr pa a :
  w_mem w !! pl_block pl = Some (al, c) → has_field (pl_field pl) c = true →
  initialised w w' pl pr pa →
  excess w' a = excess w a + cnt a [pa] + cnt a (own_promise_opt (sel (pl_field pl) c)).
Proof.
  intros Hc Hf [_ Hm Hr _ _ _]. unfold excess. rewrite (Hm al c), Hr by done.
  erewrite owned_update by done. rewrite cnt_own_upd by done. lia.
Qed.

Lemma init_failed_excess w w' pl al c a :
  w_mem w !! pl_block pl = Some (al, c) →
  own_promise_opt (sel (pl_field pl) c) = [] →
  init_failed w w' pl → excess w' a = excess w a.
Proof.
  intros Hc Ho [_ Hm Hr _]. unfold excess. rewrite (Hm al c), Hr by done.
  erewrite owned_update by done. unfold fail_upd.
  destruct (sel (pl_field pl) c) as [pr|] eqn:Hs; [|lia].
  rewrite cnt_own_upd, Hs by (by eapply sel_has_field). rewrite Ho, cnt_nil.
  replace (own_promise (mkPromise _ _ _ _)) with (@nil addr); [rewrite cnt_nil; lia|].
  unfold own_promise_opt, own_promise in *. cbn [p_valid p_p p_rfunc0 p_rfunc1].
  destruct (p_valid pr); [|done]. rewrite refs_of_cons in Ho. apply app_eq_nil in Ho as [_ Ho].
  by rewrite refs_of_cons, Ho.
Qed.

(** ** Dropping a promise record *)

Lemma wp_ijFreePromiseRT pl al c pr (Q : unit → World → Prop) w :
  w_mem w !! pl_block pl = Some (al, c) → sel (pl_field pl) c = Some pr →
  holds w (refs_of [p_rfunc0 pr; p_rfunc1 pr; p_p pr]) →
  (∀ w', w_env w' = w_env w →
     w_mem w' = <[pl_block pl := (al, upd (pl_field pl) (set_valid pr false) c)]> (w_mem w) →
     (∀ a, rc w' a = rc w a - cnt a (refs_of [p_rfunc0 pr; p_rfunc1 pr; p_p pr])) →
     w_cell w' = w_cell w → Q tt w') →
  wp (ijFreePromiseRT pl) Q w.
Proof.
  intros Hc Hs Hh HQ. unfold ijFreePromiseRT, JS_FreeValueRT.
  wp_step. eapply wp_get_promise; [done|done|].
  wp_step. apply wp_FreeValue; [holds_by Hh|].
  wp_step. apply wp_FreeValue; [holds_by Hh|].
  wp_step. apply wp_FreeValue; [holds_by Hh|].
  eapply wp_put_promise; [lookup_tac|]. apply HQ; world_simpl; try done.
  intros a. world_simpl. lia.
Qed.

(** Of a pending promise it releases three references and the record owned five: the
    second reference to each resolving function is never released. *)
Definition leaked_by_free (pr : IJJSPromise) : list addr :=
  if p_valid pr then refs_of [p_rfunc0 pr; p_rfunc1 pr] else [].

Lemma freed_excess pr a :
  cnt a (own_promise pr) - cnt a (refs_of [p_rfunc0 pr; p_rfunc1 pr; p_p pr]) =
  cnt a (leaked_by_free pr) - (if p_valid pr then 0 else cnt a (refs_of [p_rfunc0 pr; p_rfunc1 pr; p_p pr])).
Proof. unfold own_promise, leaked_by_free. destruct (p_valid pr); autorewrite with world; lia. Qed.

(** A record as [ijClearPromise] or a failed [ijInitPromise] leaves it. *)
Definition idle (pr : IJJSPromise) : Prop :=
  p_valid pr = false ∧ refs_of [p_rfunc0 pr; p_rfunc1 pr; p_p pr] = [].

Lemma idle_cleared : idle cleared.
Proof. by split. Qed.

Lemma idle_promise0 : idle promise0.
Proof. by split. Qed.

Lemma idle_own pr : idle pr → own_promise pr = [].
Proof. intros [H _]. unfold own_promise. by rewrite H. Qed.

(** ** Settling an invalid record does nothing, and keeps the arguments' references *)
Lemma wp_ijSettlePromise_invalid pl is_reject argv al c pr (Q : unit → World → Prop) w :
  w_mem w !! pl_block pl = Some (al, c) → sel (pl_field pl) c = Some pr → p_valid pr = false →
  Q tt w → wp (ijSettlePromise pl is_reject argv) Q w.
Proof.
  intros Hc Hs Hv HQ. unfold ijSettlePromise. wp_step. eapply wp_get_promise; [done|done|].
  rewrite Hv. by wp_steps.
Qed.

Lemma wp_ijClearPromise pl al c (Q : unit → World → Prop) w :
  w_mem w !! pl_block pl = Some (al, c) →
  Q tt (set_mem (<[pl_block pl := (al, upd (pl_field pl) cleared c)]> (w_mem w)) w) →
  wp (ijClearPromise pl) Q w.
Proof. apply wp_put_promise. Qed.

(** ** Promises born settled *)

Lemma wp_ijSettledPromise (is_reject : bool) argv (Q : JSValue → World → Prop) w :
  holds w (refs_of argv) →
  (∀ pa w', w_env w' = w_env w → w_mem w' = w_mem w → w_cell w !! pa = None →
     (∀ a, rc w' a = rc w a - cnt a (refs_of argv) + cnt a [pa]) →
     w_cell w' !! pa = Some (BPromise ((if is_reject then Rejected else Fulfilled)
                                         (default JS_UNDEFINED (argv !! 0%nat)))) →
     (∀ a b, w_cell w !! a = Some b → w_cell w' !! a = Some b) →
     Q (JS_REF pa) w') →
  (∀ w', quiet w w' → Q JS_EXCEPTION w') →
  wp (ijSettledPromise is_reject argv) Q w.
Proof.
  intros Hh H1 H2. unfold ijSettledPromise. wp_step.
  apply wp_NewPromiseCapability; [|intros w' Hq; wp_steps; by apply H2].
  intros p r0 r1 w' Henv Hm Hp Rp Hr Hcell Hr0 Hr1 N1 N2 N3 Hh'.
  assert (Hall : ∀ a, cnt a [p; r0; r1] + cnt a (refs_of argv) ≤ Z.max 0 (rc w' a)).
  { intros a. specialize (Hh a). specialize (Hr a). specialize (Hh' a).
    pose proof (cnt_nonneg a [p; r0; r1]). pose proof (cnt_nonneg a (refs_of argv)). lia. }
  wp_step. eapply (wp_call_resolver _ p is_reject).
  { destruct is_reject; simpl; rewrite Hcell; [by rewrite lookup_insert_eq|].
    rewrite lookup_insert_ne by congruence. apply lookup_insert_eq. }
  wp_step. apply wp_free_values.
  { intros a. specialize (Hall a). revert Hall. world_simpl. count_facts a. decide_all; lia. }
  wp_step. apply wp_FreeValue; [apply holds_nil|].
  wp_step. apply wp_FreeValue.
  { intros a. specialize (Hall a). revert Hall. cbn [fst cap_funcs]. world_simpl. count_facts a. decide_all; lia. }
  wp_step. apply wp_FreeValue.
  { intros a. specialize (Hall a). revert Hall. cbn [fst snd cap_funcs]. world_simpl. count_facts a. decide_all; lia. }
  wp_steps. cbn [fst snd cap_funcs cap_promise]. apply H1; world_simpl; try done.
  - intros a. world_simpl. lia.
  - rewrite lookup_alter_eq, lookup_insert_ne, lookup_insert_ne, lookup_insert_eq by congruence.
    simpl. by destruct is_reject.
  - intros a b Ha. by rewrite lookup_alter_ne, !lookup_insert_ne by congruence.
Qed.

(** ** Building a fresh object

    [built w w' a ps]: from [w] to [w'] the only news is the object [a], owned by
    the caller, with the own properties [ps]. *)
Definition built (w w' : World) (a : addr) (ps : list (string * JSValue)) : Prop :=
  w_cell w !! a = None ∧ gives w w' [a] ∧ w_cell w' !! a = Some (BObject ps).

Lemma wp_build_object (Q : JSValue → World → Prop) w :
  (∀ a w', built w w' a [] → Q (JS_REF a) w') → wp JS_NewObjectProto Q w.
Proof.
  intros H. apply wp_js_new. intros a Ha Ra. apply H. split_and!; [done|by apply gives_new_cell|].
  world_simpl. apply lookup_insert_eq.
Qed.

Lemma built_quiet w w' w'' a ps : built w w' a ps → quiet w' w'' → built w w'' a ps.
Proof.
  intros (Ha & Hg & Hc) Hq. split_and!; [done|by eapply gives_then_quiet|by apply (quiet_cell _ _ Hq)].
Qed.

(** Cells other than [a] stay as they are. *)
Definition keeps (a : addr) (w w' : World) : Prop :=
  ∀ x b, x ≠ a → w_cell w !! x = Some b → w_cell w' !! x = Some b.

Lemma wp_build_imm a name v ps (Q : unit → World → Prop) w w' :
  built w w' a ps → ref_of v = [] →
  (∀ w'', built w w'' a (ps ++ [(name, v)]) → keeps a w' w'' → Q tt w'') →
  wp (JS_DefinePropertyValueStr (JS_REF a) name v) Q w'.
Proof.
  intros (Ha & Hg & Hc) Hv H. apply wp_DefinePropertyValueStr; [rewrite Hv; apply holds_nil|].
  replace (drop_ref v w') with w' by by destruct v. apply H.
  - split_and!; [done|by apply gives_update_new|]. world_simpl. by rewrite lookup_alter_eq, Hc.
  - intros x b Hx Hb. world_simpl. by rewrite lookup_alter_ne by congruence.
Qed.

(** A property holding a value created for it. *)
Lemma wp_build_new {A} a name b ps (k : JSValue → M A) Q w w' :
  built w w' a ps →
  (∀ s w'', built w w'' a (ps ++ [(name, JS_REF s)]) → s ≠ a → keeps a w' w'' →
     w_cell w'' !! s = Some b → wp (k (JS_REF s)) Q w'') →
  wp (v ← js_new b ; JS_DefinePropertyValueStr (JS_REF a) name v ;; k v) Q w'.
Proof.
  intros (Ha & Hg & Hc) H. wp_step. apply wp_js_new. intros s Hs Rs. wp_step.
  apply wp_DefinePropertyValueStr. { apply holds_one. world_simpl. rewrite decide_True by done. lia. }
  assert (s ≠ a) by congruence. apply (H s).
  - pose proof (gives_then_quiet _ _ _ _ Hg (quiet_drop_new s b w' Hs)) as Hg'.
    split_and!; [done|by apply gives_update_new|]. world_simpl.
    rewrite lookup_alter_eq, lookup_insert_ne by congruence. by rewrite Hc.
  - done.
  - intros x b' Hx Hb. world_simpl. by rewrite lookup_alter_ne, lookup_insert_ne by congruence.
  - world_simpl. rewrite lookup_alter_ne by congruence. apply lookup_insert_eq.
Qed.

(** ** New Uint8Arrays *)

(** The block went to the new array: the caller holds [v] instead. *)
Record transferred (w w' : World) (b : addr) (v : JSValue) : Prop := {
  tr_env : w_env w' = w_env w;
  tr_mem : w_mem w' = delete b (w_mem w);
  tr_rc : ∀ a, rc w' a = rc w a + cnt a (ref_of v);
  tr_cell : ∀ a x, w_cell w !! a = Some x → w_cell w' !! a = Some x;
  tr_holds : holds w' (ref_of v)
}.

Definition uint8_value (size : Z) (v : JSValue) (w : World) : Prop :=
  v = JS_EXCEPTION ∨
  ∃ a buf data, v = JS_REF a ∧ w_cell w !! a = Some (BTypedArray buf 0 size) ∧
    w_cell w !! buf = Some (BArrayBuffer data) ∧ Z.of_nat (length data) ≤ Z.max 0 size.

(** When quickjs cannot make the ArrayBuffer the block stays allocated. *)
Lemma wp_ijNewUint8Array b n size (Q : JSValue → World → Prop) w :
  w_mem w !! b = Some (ByJs, CBuf n) →
  (∀ v w', transferred w w' b v → uint8_value size v w' → Q v w') →
  (∀ w', quiet w w' → Q JS_EXCEPTION w') →
  wp (ijNewUint8Array b size) Q w.
Proof.
  intros Hb H1 H2. unfold ijNewUint8Array, JS_NewArrayBuffer. wp_step. wp_step. wp_step. wp_step.
  - wp_steps. eapply wp_c_free; [lookup_tac|done|]. wp_steps. apply wp_js_new.
    intros a Ha Ra. world_simpl_in Ha. world_simpl_in Ra. simpl. wp_step. apply wp_try_new.
    + intros v Hv Rv. world_simpl_in Hv. world_simpl_in Rv. apply lookup_insert_None in Hv as [Hv Hne].
      wp_step. apply wp_FreeValue. { apply holds_one. world_simpl. decide_all; lia. }
      wp_steps. apply H1.
      * split; world_simpl; try done.
        -- intros x. world_simpl. decide_all; lia.
        -- intros x y Hx. rewrite !lookup_insert_ne by congruence. done.
        -- apply holds_one. world_simpl. rewrite decide_False in Rv by congruence. decide_all; lia.
      * right. eexists v, a, _. split; [done|]. world_simpl. rewrite lookup_insert_eq. split; [done|].
        rewrite lookup_insert_ne, lookup_insert_eq by congruence. split; [done|].
        rewrite length_take. lia.
    + intros w' Hq. wp_step. apply wp_FreeValue. { apply holds_one. world_simpl. decide_all; lia. }
      wp_steps. apply H1; [|by left]. destruct Hq as [Ee Mm R C]. split; world_simpl.
      * by rewrite Ee.
      * done.
      * intros x. world_simpl. decide_all; lia.
      * intros x y Hx. apply C. world_simpl. by rewrite lookup_insert_ne by congruence.
      * apply holds_nil.
  - wp_steps. apply H2. etrans; [apply (quiet_log_ev (Ev "JS_NewArrayBuffer" []))|done].
Qed.

(** ** Values stay what they are when a promise is settled *)

Lemma error_value_settled err v w w' pa st x :
  w_cell w !! pa = Some (BPromise st) → w_cell w' = <[pa := x]> (w_cell w) →
  error_value err v w → error_value err v w'.
Proof.
  intros Hpa Hc [->|(a & m & -> & Ha)]; [by left|]. right. exists a, m. split; [done|].
  by rewrite Hc, lookup_insert_ne by congruence.
Qed.

Lemma uint8_value_settled size v w w' pa st x :
  w_cell w !! pa = Some (BPromise st) → w_cell w' = <[pa := x]> (w_cell w) →
  uint8_value size v w → uint8_value size v w'.
Proof.
  intros Hpa Hc [->|(a & b & d & -> & Ha & Hb & Hd)]; [by left|]. right. exists a, b, d.
  by rewrite Hc, !lookup_insert_ne by congruence.
Qed.

(** ** The promise of a new request

    [w2] is [w] plus the request block [q], whose promise has not been written. *)
Lemma wp_init_new q al c (Q : JSValue → World → Prop) w w2 :
  w_mem w !! q = None → w_mem w2 = <[q := (al, c)]> (w_mem w) → (∀ a, rc w2 a = rc w a) →
  has_field FResult c = true → own c = [] → own_promise_opt (sel FResult c) = [] →
  (∀ w3 pr pa, balanced w w3 [pa] → w_mem w3 = <[q := (al, upd FResult pr c)]> (w_mem w) →
     pending_at w3 pr pa → initialised w2 w3 (Place q FResult) pr pa → Q (JS_REF pa) w3) →
  (∀ w3, balanced w w3 [] → w_mem w3 = <[q := (al, fail_upd FResult c)]> (w_mem w) →
     init_failed w2 w3 (Place q FResult) → Q JS_EXCEPTION w3) →
  wp (ijInitPromise (Place q FResult)) Q w2.
Proof.
  intros Hq Hm Hr Hf Ho Hsel H1 H2.
  assert (Hlk : w_mem w2 !! pl_block (Place q FResult) = Some (al, c)) by lookup_tac.
  assert (Hx : ∀ a, excess w2 a = excess w a).
  { intros a. unfold excess. rewrite Hm, Hr, owned_insert, Ho, cnt_nil by done. lia. }
  eapply wp_ijInitPromise; [done| |]; intros w3.
  - intros pr pa Hi. apply (H1 w3 pr pa); [| |apply Hi|done].
    + intros a. rewrite (initialised_excess _ _ _ _ _ _ _ a Hlk Hf Hi), Hx.
      cbn [pl_field]. rewrite Hsel, (cnt_nil a). lia.
    + rewrite (init_mem _ _ _ _ _ Hi _ _ Hlk), Hm. cbn [pl_block]. by rewrite insert_insert_eq.
  - intros Hi. apply (H2 w3); [| |done].
    + intros a. rewrite (init_failed_excess _ _ _ _ _ a Hlk Hsel Hi), Hx, cnt_nil. lia.
    + rewrite (if_mem _ _ _ Hi _ _ Hlk), Hm. cbn [pl_block]. by rewrite insert_insert_eq.
Qed.

(** ** Reporting errors keeps the books *)

Lemma quietly_ijDumpObj v : quietly (ijDumpObj v) (λ _, True).
Proof.
  intros w. unfold ijDumpObj. wp_step. apply wp_ToCString.
  - intros w1 p s Hq Hp. wp_steps. eapply wp_c_free; [lookup_tac|done|]. split; [|done].
    eapply quiet_temp_block; [done|done|apply quiet_log_ev|done].
  - intros w1 Hq. wp_steps. split; [|done]. etrans; [done|apply quiet_log_ev].
Qed.
#[export] Hint Resolve quietly_ijDumpObj : quiet.

Lemma quietly_ijDumpError1 v : quietly_nn (ijDumpError1 v) (λ _, True).
Proof.
  intros w Hn. unfold ijDumpError1, JS_IsError. do 4 wp_step.
  destruct (match body_of v w with Some (BError _) => true | _ => false end); [|wp_steps; by split].
  wp_step. apply wp_GetPropertyStr. intros x wx Hqx. wp_step.
  eapply (wp_quietly _ (λ _, True)).
  { destruct (JS_IsUndefined x); [by apply quietly_ret|apply quietly_ijDumpObj]. }
  intros _ w1 _ Hq1. apply wp_FreeValue; [nonneg_by Hn|]. split; [|done]. etrans; [done|]. etrans; [done|]. by apply quiet_temp_ref.
Qed.

Lemma quietly_ijDumpError : quietly_nn ijDumpError (λ _, True).
Proof.
  intros w Hn. unfold ijDumpError. wp_step.
  assert (Hg : JS_GetException w =
    Ok (default JS_NULL (w_exc w)) (set_exc None (take_ref (default JS_NULL (w_exc w)) w))).
  { unfold JS_GetException. by destruct (default JS_NULL (w_exc w)). }
  unfold wp at 1. rewrite Hg. set (e := default JS_NULL (w_exc w)). clearbody e.
  wp_step. eapply wp_quietly_nn; [apply quietly_ijDumpError1|nonneg_by Hn|]. intros _ w1 _ Hq.
  apply wp_FreeValue; [nonneg_by Hn|]. split; [|done]. apply quiet_temp_ref.
  etrans; [apply quiet_set_exc|exact Hq].
Qed.

(** A promise record the finalizer may drop. *)
Definition droppable (pr : IJJSPromise) : Prop := p_valid pr = true ∨ idle pr.

Lemma droppable_holds a pr : droppable pr →
  cnt a (refs_of [p_rfunc0 pr; p_rfunc1 pr; p_p pr]) ≤ cnt a (own_promise pr).
Proof.
  intros [Hv|[_ ->]]; [|rewrite cnt_nil; apply cnt_nonneg].
  unfold own_promise. rewrite Hv. world_simpl. count_facts a. lia.
Qed.

(** A property holding a value the caller was given. *)
Lemma wp_build_val a name v ps (Q : unit → World → Prop) w w' :
  w_cell w !! a = None → gives w w' ([a] ++ ref_of v) → w_cell w' !! a = Some (BObject ps) →
  (∀ w'', built w w'' a (ps ++ [(name, v)]) → keeps a w' w'' → Q tt w'') →
  wp (JS_DefinePropertyValueStr (JS_REF a) name v) Q w'.
Proof.
  intros Ha Hg Hc HQ. pose proof (gives_holds _ _ _ Hg) as Hh.
  apply wp_DefinePropertyValueStr.
  { intros x. specialize (Hh x). rewrite cnt_app in Hh. pose proof (cnt_nonneg x [a]). lia. }
  assert (Hg' : gives w (drop_ref v w') [a]).
  { destruct Hg as [E1 M1 R1 C1 H1]. split; rewrite ?env_drop_ref, ?mem_drop_ref, ?cell_drop_ref; try done.
    - intros x. rewrite rc_drop_ref, R1, cnt_app. lia.
    - intros x. specialize (Hh x). rewrite cnt_app in Hh. rewrite rc_drop_ref.
      pose proof (cnt_nonneg x (ref_of v)). pose proof (cnt_nonneg x [a]). lia. }
  apply HQ.
  - split_and!; [done|by apply gives_update_new|]. world_simpl. by rewrite lookup_alter_eq, Hc.
  - intros x b Hx Hb. world_simpl. by rewrite lookup_alter_ne by congruence.
Qed.

(** ** A promise from its making to its settlement *)

