(* ===== verification/Worlds.v ===== *)
(** * Concrete worlds

    Environments and worlds on which the theorems about the modules are evaluated: one
    pending promise at 1 with its resolving functions at 2 and 3, further
    cells and blocks as given. *)

From S2P Require Import Prelude State Runtime Logic Promise.

(** Every call is answered by [n], conversions of texts are those of a table with one entry. *)
Definition env_of (n : Z) : env :=
  mkEnv (λ _, n) (λ _, None) (λ _, SA_INET 0 0)
    (λ s, if bool_decide (s = lit "127.0.0.1") then Some 2130706433 else None) (λ _, None)
    (λ _, lit "127.0.0.1") (λ _, lit "::1").

(** The record of the promise at 1. *)
Definition promise1 : IJJSPromise := mkPromise (JS_REF 1) (JS_REF 2) (JS_REF 3) true.

Definition promise_cells : gmap addr jsbody :=
  {[ 1%positive := BPromise Pending; 2%positive := BResolver 1 false; 3%positive := BResolver 1 true ]}.

Definition promise_rc : gmap addr Z := {[ 1%positive := 1; 2%positive := 2; 3%positive := 2 ]}.

(** [cells] and [mem] beside the promise; [refs] are references C code owns. *)
Definition world_with (n : Z) (cells : gmap addr jsbody) (refs : gmap addr Z)
    (mem : gmap addr (allocator * cstruct)) : World :=
  mkWorld (env_of n) 100 (cells ∪ promise_cells) (refs ∪ promise_rc) mem None [].

(** A world without values and blocks. *)
Definition world0 : World := mkWorld (env_of 0) 100 ∅ ∅ ∅ None [].

(** An open handle whose [data] is [p]. *)
Definition handle_at (t : uv_type) (p : addr) : uv_handle := mkHandle t true true false false (Some p).

(** Discharges the hypotheses of a theorem on a concrete world. *)
Ltac concrete :=
  lazymatch goal with
  | |- safe _ => apply safeb_sound; vm_compute; reflexivity
  | |- nonneg _ => apply nonnegb_sound; vm_compute; reflexivity
  | |- droppable _ => first [left; reflexivity | right; split; reflexivity]
  | |- _ ∧ _ => split; concrete
  | |- ∃ _, _ => eexists; concrete
  | |- ∀ _, _ => intros; concrete
  | |- _ ≠ _ => vm_compute; discriminate
  | |- (_ < _)%nat => vm_compute; lia
  | |- (_ ≤ _)%nat => vm_compute; lia
  | |- _ < _ => vm_compute; reflexivity
  | |- _ ≤ _ => vm_compute; discriminate
  | |- pending_at _ _ _ => split_and!; vm_compute; reflexivity
  | |- _ = _ => first [reflexivity | vm_compute; reflexivity]
  | |- _ => first [done | econstructor; concrete]
  end.

(** The theorem about promises on a stream without one. *)
Definition promise_world : World :=
  world_with 0 ∅ ∅ {[ 10%positive := (ByJe, CStream (mkStream 0 0 (handle_at UV_TCP 10) 0 cleared cleared)) ]}.

