(* ===== verification/Address.v ===== *)
(** * Socket addresses: ijObj2Addr and ijAddr2Obj of ijutils.c

    The conversion between the [{ip, port}] objects of the JavaScript API and
    [struct sockaddr_storage], with ports kept in host order. *)

From S2P Require Import Prelude State Runtime Logic Promise Worlds.

(** Address families, as on Linux. *)
Definition AF_UNSPEC : Z := 0.
Definition AF_INET : Z := 2.
Definition AF_INET6 : Z := 10.

(** uv_inet_pton, for both families. *)
Definition uv_inet_pton4 (s : bytes) : M (option Z) := gets (λ w, e_pton4 (w_env w) s).
Definition uv_inet_pton6 (s : bytes) : M (option Z) := gets (λ w, e_pton6 (w_env w) s).

(** [ntohs(htons(port))] for the 32-bit [port]: htons takes 16 bits. *)
Definition htons (port : Z) : Z := unsigned16 port.

(** [None] is the return value -1, with an exception pending. *)
Definition ijObj2Addr (obj : JSValue) : M (option sockaddr) :=
  js_ip ← JS_GetPropertyStr obj "ip" ;
  ip ← JS_ToCString js_ip ;
  JS_FreeValue js_ip ;;
  match ip with
  | None => mret None
  | Some (p, s) =>
      js_port ← JS_GetPropertyStr obj "port" ;
      port ← JS_ToUint32 js_port ;
      JS_FreeValue js_port ;;
      match port with
      | None => mret None
      | Some port =>
          a4 ← uv_inet_pton4 s ;
          match a4 with
          | Some a => JS_FreeCString p ;; mret (Some (SA_INET a (htons port)))
          | None =>
              a6 ← uv_inet_pton6 s ;
              match a6 with
              | Some a => JS_FreeCString p ;; mret (Some (SA_INET6 a (htons port) 0 0))
              | None => _ ← ijThrowErrno UV_EAFNOSUPPORT ; JS_FreeCString p ;; mret None
              end
          end
      end
  end.

Definition ijAddr2Obj (sa : sockaddr) : M JSValue :=
  match sa with
  | SA_INET a port =>
      buf ← gets (λ w, e_ntop4 (w_env w) a) ;
      obj ← JS_NewObjectProto ;
      JS_DefinePropertyValueStr obj "family" (JS_NewInt32 AF_INET) ;;
      ip ← JS_NewString buf ;
      JS_DefinePropertyValueStr obj "ip" ip ;;
      JS_DefinePropertyValueStr obj "port" (JS_NewInt32 port) ;;
      mret obj
  | SA_INET6 a port flowinfo scope =>
      buf ← gets (λ w, e_ntop6 (w_env w) a) ;
      obj ← JS_NewObjectProto ;
      JS_DefinePropertyValueStr obj "family" (JS_NewInt32 AF_INET6) ;;
      ip ← JS_NewString buf ;
      JS_DefinePropertyValueStr obj "ip" ip ;;
      JS_DefinePropertyValueStr obj "port" (JS_NewInt32 port) ;;
      JS_DefinePropertyValueStr obj "flowinfo" (JS_NewInt32 flowinfo) ;;
      JS_DefinePropertyValueStr obj "scopeId" (JS_NewInt32 scope) ;;
      mret obj
  | SA_OTHER _ => mret JS_UNDEFINED
  end.

(** ** The object of an address *)

(** The properties [ijAddr2Obj] defines, [ip] being the address of the string. *)
Definition addr_props (sa : sockaddr) (ip : addr) : list (string * JSValue) :=
  match sa with
  | SA_INET a port =>
      [("family", JS_INT AF_INET); ("ip", JS_REF ip); ("port", JS_INT (signed32 port))]
  | SA_INET6 a port flowinfo scope =>
      [("family", JS_INT AF_INET6); ("ip", JS_REF ip); ("port", JS_INT (signed32 port));
       ("flowinfo", JS_INT (signed32 flowinfo)); ("scopeId", JS_INT (signed32 scope))]
  | SA_OTHER _ => []
  end%string.

Definition addr_text (e : env) (sa : sockaddr) : bytes :=
  match sa with
  | SA_INET a _ => e_ntop4 e a
  | SA_INET6 a _ _ _ => e_ntop6 e a
  | SA_OTHER _ => []
  end.

Lemma wp_ijAddr2Obj sa (Q : JSValue → World → Prop) w :
  (∀ a ip w', built w w' a (addr_props sa ip) → w_cell w' !! ip = Some (BString (addr_text (w_env w) sa)) →
     Q (JS_REF a) w') →
  (∀ f, sa = SA_OTHER f → Q JS_UNDEFINED w) →
  wp (ijAddr2Obj sa) Q w.
Proof.
  intros H1 H2. destruct sa as [a port|a port fl sc|f]; cbn [ijAddr2Obj].
  - wp_steps. apply wp_build_object. intros o w1 B1.
    wp_step. eapply wp_build_imm; [done|done|]. intros w2 B2 _.
    eapply wp_build_new; [done|]. intros ip w3 B3 Hip _ Hc3.
    wp_step. eapply wp_build_imm; [done|done|]. intros w4 B4 K4. wp_steps.
    apply (H1 o ip); [exact B4|]. by apply K4.
  - wp_steps. apply wp_build_object. intros o w1 B1.
    wp_step. eapply wp_build_imm; [done|done|]. intros w2 B2 _.
    eapply wp_build_new; [done|]. intros ip w3 B3 Hip _ Hc3.
    wp_step. eapply wp_build_imm; [done|done|]. intros w4 B4 K4.
    wp_step. eapply wp_build_imm; [done|done|]. intros w5 B5 K5.
    wp_step. eapply wp_build_imm; [done|done|]. intros w6 B6 K6. wp_steps.
    apply (H1 o ip); [exact B6|]. by apply K6, K5, K4.
  - wp_steps. by eapply H2.
Qed.

(** ** Reading an address object *)

(** What [ijObj2Addr] does with the number [port] and the text [s]. *)
Definition parse_addr (e : env) (s : bytes) (port : Z) : option sockaddr :=
  match e_pton4 e s with
  | Some a => Some (SA_INET a (port mod 65536))
  | None => match e_pton6 e s with
            | Some a => Some (SA_INET6 a (port mod 65536) 0 0)
            | None => None
            end
  end.

(** The text and the number come from the [ip] and [port] properties. When [port] does
    not convert, the copy of the text is not released. *)
Lemma wp_ijObj2Addr obj (Q : option sockaddr → World → Prop) w :
  nonneg w →
  (∀ s port w', quiet w w' → 0 ≤ port < 2 ^ 32 → Q (parse_addr (w_env w) s port) w') →
  (∀ w', quiet w w' → Q None w') →
  (∀ s p w1 w', quiet w w1 → w_mem w1 !! p = None →
     quiet (new_block p ByCString (CStr s) w1) w' → Q None w') →
  wp (ijObj2Addr obj) Q w.
Proof.
  intros Hn H1 H2 H3. unfold ijObj2Addr. wp_step. apply wp_GetPropertyStr. intros v wa Hqa. wp_step.
  apply wp_ToCString; intros w1.
  - intros p s Hq Hp. wp_step. apply wp_FreeValue; [nonneg_by Hn|].
    replace (drop_ref v (new_block p ByCString (CStr s) w1))
      with (new_block p ByCString (CStr s) (drop_ref v w1)) by by destruct v.
    apply quiet_temp_ref, (transitivity Hqa) in Hq. revert Hp. rewrite <- (mem_drop_ref v w1).
    generalize dependent (drop_ref v w1). clear w1. intros w1 Hq Hp.
    wp_step. apply wp_GetPropertyStr. intros v2 wb Hqb. wp_step. wp_step.
    wp_step. apply wp_FreeValue; [nonneg_by Hn|].
    apply quiet_temp_ref, (transitivity Hqb) in Hq0. generalize dependent (drop_ref v2 w0). clear w0. intros w2 Hq2.
    destruct r as [port|]; [|wp_steps; by eapply H3].
    assert (Hr' : 0 ≤ port < 2 ^ 32) by by apply Hr.
    assert (He : w_env w2 = w_env w) by by world_simpl.
    assert (Hm : w_mem w2 !! p = Some (ByCString, CStr s)) by lookup_tac.
    pose proof (H1 s port) as H1'. unfold parse_addr in H1'.
    unfold uv_inet_pton4, uv_inet_pton6. wp_steps. rewrite He.
    destruct (e_pton4 (w_env w) s) as [a|].
    { wp_step. eapply wp_c_free; [done|done|]. wp_steps. apply H1'; [|done]. by eapply quiet_temp_block. }
    wp_steps. rewrite He. destruct (e_pton6 (w_env w) s) as [a|].
    { wp_step. eapply wp_c_free; [done|done|]. wp_steps. apply H1'; [|done]. by eapply quiet_temp_block. }
    wp_steps. eapply wp_c_free; [by lookup_tac|done|]. wp_steps. apply H2.
    eapply quiet_temp_block; [done|done| |done]. by etrans.
  - intros Hq. wp_step. apply wp_FreeValue; [nonneg_by Hn|]. wp_steps. apply H2. etrans; [done|]. by apply quiet_temp_ref.
Qed.

(** On a plain object with a string [ip] and an integer [port] the result is [parse_addr]. *)
Lemma wp_ijObj2Addr_plain obj ps ip s port (Q : option sockaddr → World → Prop) w :
  nonneg w → body_of obj w = Some (BObject ps) →
  assoc "ip" ps = Some (JS_REF ip) → w_cell w !! ip = Some (BString s) →
  assoc "port" ps = Some (JS_INT port) →
  (∀ w', quiet w w' → Q (parse_addr (w_env w) s (unsigned32 port)) w') →
  wp (ijObj2Addr obj) Q w.
Proof.
  intros Hn Hb Hip Hs Hport HQ. unfold ijObj2Addr.
  wp_step. eapply (wp_GetPropertyStr_obj _ _ _ (JS_REF ip)); [done|by rewrite Hip|].
  wp_step. eapply wp_ToCString_str; [simpl; by world_simpl|]. intros p Hp.
  wp_step. apply wp_FreeValue; [nonneg_by Hn|].
  set (w1 := drop_ref (JS_REF ip) (take_ref (JS_REF ip) w)).
  change (drop_ref _ (new_block p _ _ _)) with (new_block p ByCString (CStr s) w1).
  assert (Hq : quiet w w1) by by apply quiet_temp_ref.
  world_simpl_in Hp.
  wp_step. eapply (wp_GetPropertyStr_obj _ _ _ (JS_INT port)); [by destruct obj|by rewrite Hport|].
  cbn [take_ref]. wp_step. unfold JS_ToUint32. cbn [js_to_number]. wp_steps.
  apply wp_FreeValue; [apply holds_nil|]. cbn [drop_ref fmap option_fmap option_map].
  unfold parse_addr in HQ. unfold uv_inet_pton4, uv_inet_pton6. wp_steps. cbn [w_env new_block set_mem set_next].
  change (w_env w1) with (w_env w).
  destruct (e_pton4 (w_env w) s) as [a|].
  { wp_step. eapply wp_c_free; [apply lookup_insert_eq|done|]. wp_steps. apply HQ.
    eapply (quiet_temp_block w w1 _ p); [done|done|reflexivity|reflexivity]. }
  wp_steps. change (w_env (new_block p ByCString (CStr s) w1)) with (w_env w).
  destruct (e_pton6 (w_env w) s) as [a|].
  { wp_step. eapply wp_c_free; [apply lookup_insert_eq|done|]. wp_steps. apply HQ.
    eapply (quiet_temp_block w w1 _ p); [done|done|reflexivity|reflexivity]. }
  wp_steps. eapply wp_c_free; [by lookup_tac|done|]. wp_steps. apply HQ. by eapply (quiet_temp_block w w1 _ p).
Qed.

(** ** Properties *)

(** An address that survives the trip: a 16-bit port, and a text libuv reads back. *)
Definition printable (e : env) (sa : sockaddr) : Prop :=
  match sa with
  | SA_INET a port => 0 ≤ port < 65536 ∧ e_pton4 e (e_ntop4 e a) = Some a
  | SA_INET6 a port _ _ =>
      0 ≤ port < 65536 ∧ e_pton4 e (e_ntop6 e a) = None ∧ e_pton6 e (e_ntop6 e a) = Some a
  | SA_OTHER _ => False
  end.

(** The part of an address [ijObj2Addr] sets. *)
Definition without_scope (sa : sockaddr) : sockaddr :=
  match sa with SA_INET6 a port _ _ => SA_INET6 a port 0 0 | sa => sa end.

Theorem addr_roundtrip sa w :
  nonneg w → printable (w_env w) sa →
  wp (obj ← ijAddr2Obj sa ; ijObj2Addr obj) (λ r _, r = Some (without_scope sa)) w.
Proof.
  intros Hn Hp. wp_step. apply wp_ijAddr2Obj; [|by intros f ->].
  intros a ip w' (Ha & Hg & Hc) Hip.
  assert (Hn' : nonneg w') by (intros x; rewrite (gives_rc _ _ _ Hg); specialize (Hn x); pose proof (cnt_nonneg x [a]); lia).
  assert (Hu : ∀ port, 0 ≤ port < 65536 → unsigned32 (signed32 port) mod 65536 = port).
  { intros port Hport. unfold unsigned32, signed32.
    rewrite (Z.mod_small (port + 2 ^ 31)) by lia. rewrite (Z.mod_small (_ - _)) by lia.
    rewrite Z.mod_small; lia. }
  destruct sa as [x port|x port fl sc|f]; [| |done].
  - destruct Hp as (Hport & H4). eapply wp_ijObj2Addr_plain; [done|done|done|done|done|]. intros w'' _.
    rewrite (gives_env _ _ _ Hg). unfold parse_addr. cbn [addr_text]. by rewrite H4, Hu.
  - destruct Hp as (Hport & H4 & H6). eapply wp_ijObj2Addr_plain; [done|done|done|done|done|]. intros w'' _.
    rewrite (gives_env _ _ _ Hg). unfold parse_addr. cbn [addr_text]. by rewrite H4, H6, Hu.
Qed.
