(* ===== verification/Inet.v ===== *)
(** * inet.c of libuv: the text of addresses

    externals/uv/src/inet.c, which ijObj2Addr and ijAddr2Obj of ijutils.c call. Addresses are lists of
    octets in network order, texts are C strings. Both directions, that what is written is read back,
    and the buffers it fits. *)

From S2P Require Import Prelude State Runtime Logic Worlds Address.

Definition UV_EINVAL : Z := -22.
Definition UV_ENOSPC : Z := -28.
Definition UV_E2BIG : Z := -7.
Definition UV__INET_ADDRSTRLEN : nat := 16.
Definition UV__INET6_ADDRSTRLEN : nat := 46.

Definition DOT : ascii := ".".
Definition COLON6 : ascii := ":".

(** ** Printing *)

Definition digits_l : bytes := lit "0123456789abcdef".
Definition digits_u : bytes := lit "0123456789ABCDEF".

(** The character of a digit. *)
Definition digit (n : Z) : ascii := nth (Z.to_nat n) digits_l "0"%char.

(** snprintf with %u, for numbers below 1000 *)
Definition print_u (n : Z) : bytes :=
  if n <? 10 then [digit n]
  else if n <? 100 then [digit (n / 10); digit (n mod 10)]
  else [digit (n / 100); digit (n / 10 mod 10); digit (n mod 10)].

(** sprintf with %x, for numbers below 2^16 *)
Definition print_x (n : Z) : bytes :=
  if n <? 16 then [digit n]
  else if n <? 256 then [digit (n / 16); digit (n mod 16)]
  else if n <? 4096 then [digit (n / 256); digit (n / 16 mod 16); digit (n mod 16)]
  else [digit (n / 4096); digit (n / 256 mod 16); digit (n / 16 mod 16); digit (n mod 16)].

(** The four numbers with dots. *)
Definition dotted (src : list Z) : bytes :=
  match src with
  | [a; b; c; d] => print_u a ++ DOT :: print_u b ++ DOT :: print_u c ++ DOT :: print_u d
  | _ => []
  end.

(** uv__strscpy: the result, and what [dst] holds afterwards, [None] when nothing was written. *)
Definition uv__strscpy (s : bytes) (n : nat) : Z * option bytes :=
  if (n =? 0)%nat then (0, None)
  else if (length s <? n)%nat then (Z.of_nat (length s), Some s)
  else (UV_E2BIG, Some (take (n - 1) s)).

(** The result, and what [dst] holds afterwards. *)
Definition inet_ntop4 (src : list Z) (size : nat) : Z * option bytes :=
  let tmp := dotted src in
  if (length tmp =? 0)%nat || (size <=? length tmp)%nat then (UV_ENOSPC, None) else (0, snd (uv__strscpy tmp size)).

(** The words of an address. *)
Fixpoint words_of (src : list Z) : list Z :=
  match src with
  | a :: b :: src => Z.lor (Z.shiftl a 8) b :: words_of src
  | _ => []
  end.

(** [base] and [len] of the longest run so far and of the current one; -1 is [None]. *)
Record runs := mkRuns { best : option (nat * nat); cur : option (nat * nat) }.

Definition keep_best (r : runs) : runs :=
  match cur r with
  | None => r
  | Some (b, n) =>
      match best r with
      | Some (b0, n0) => if (n0 <? n)%nat then mkRuns (Some (b, n)) None else mkRuns (best r) None
      | None => mkRuns (Some (b, n)) None
      end
  end.

Fixpoint find_runs (words : list Z) (i : nat) (r : runs) : runs :=
  match words with
  | [] => keep_best r
  | w :: words =>
      find_runs words (S i)
        (if w =? 0 then mkRuns (best r) (match cur r with None => Some (i, 1%nat) | Some (b, n) => Some (b, S n) end)
         else keep_best r)
  end.

Definition best_run (words : list Z) : option (nat * nat) :=
  match best (find_runs words 0 (mkRuns None None)) with
  | Some (b, n) => if (n <? 2)%nat then None else Some (b, n)
  | None => None
  end.

(** The tests of the loop that formats. *)
Definition in_run (run : option (nat * nat)) (i : nat) : bool :=
  match run with Some (b, n) => (b <=? i)%nat && (i <? b + n)%nat | None => false end.
Definition starts_run (run : option (nat * nat)) (i : nat) : bool :=
  match run with Some (b, _) => (i =? b)%nat | None => false end.
Definition encapsulated (run : option (nat * nat)) (words : list Z) (i : nat) : bool :=
  match run with
  | Some (0%nat, n) =>
      (i =? 6)%nat &&
      ((n =? 6)%nat || ((n =? 7)%nat && negb (nth 7 words 0 =? 1)) || ((n =? 5)%nat && (nth 5 words 0 =? 0xffff)))
  | _ => false
  end.

(** The loop from [i] on, [count] words to go; [all] are the words, [src] the octets. *)
Fixpoint format6 (run : option (nat * nat)) (all src : list Z) (count i : nat) : bytes :=
  match count with
  | O => []
  | S count =>
      if in_run run i then (if starts_run run i then [COLON6] else []) ++ format6 run all src count (S i)
      else
        (if (i =? 0)%nat then [] else [COLON6]) ++
        (if encapsulated run all i then dotted (drop 12 src)
         else print_x (nth i all 0) ++ format6 run all src count (S i))
  end.

Definition text6 (src : list Z) : bytes :=
  let words := words_of src in
  let run := best_run words in
  format6 run words src 8 0 ++
  match run with Some (b, n) => if (b + n =? 8)%nat then [COLON6] else [] | None => [] end.

Definition inet_ntop6 (src : list Z) (size : nat) : Z * option bytes :=
  let '(r, dst) := uv__strscpy (text6 src) size in
  (if r =? UV_E2BIG then UV_ENOSPC else 0, dst).

(** ** Reading *)

(** strchr in a table: the place of the character. *)
Fixpoint place (tab : bytes) (c : ascii) : option Z :=
  match tab with
  | [] => None
  | d :: tab => if (d =? c)%char then Some 0 else Z.succ <$> place tab c
  end.

Definition decimal (c : ascii) : option Z := place (take 10 digits_l) c.
Definition hexadecimal (c : ascii) : option Z :=
  match place digits_l c with Some d => Some d | None => place digits_u c end.

(** [acc] are the octets before the one [tp] points to, which is [tp]. [None] is UV_EINVAL. *)
Fixpoint pton4_loop (src : bytes) (acc : list Z) (tp : Z) (saw_digit : bool) (octets : nat) : option (list Z) :=
  match src with
  | [] => if (octets <? 4)%nat then None else Some (acc ++ [tp])
  | c :: src =>
      match decimal c with
      | Some d =>
          let nw := tp * 10 + d in
          if saw_digit && (tp =? 0) then None
          else if 255 <? nw then None
          else if saw_digit then pton4_loop src acc nw true octets
          else if (4 <? S octets)%nat then None
          else pton4_loop src acc nw true (S octets)
      | None =>
          if (c =? DOT)%char && saw_digit then
            if (octets =? 4)%nat then None else pton4_loop src (acc ++ [tp]) 0 false octets
          else None
      end
  end.

Definition inet_pton4 (src : bytes) : option (list Z) := pton4_loop src [] 0 false 0.

(** [out] are the octets up to [tp], [colonp] the place of the ::, [seen] the digits of [val]. *)
Record pton6_state := mkP6 { p_out : list Z; p_colonp : option nat; p_curtok : bytes; p_seen : nat; p_val : Z }.

Definition put_word (val : Z) (out : list Z) : option (list Z) :=
  if (16 <? length out + 2)%nat then None
  else Some (out ++ [Z.land (Z.shiftr val 8) 255; Z.land val 255]).

Fixpoint pton6_loop (src : bytes) (s : pton6_state) : option pton6_state :=
  match src with
  | [] => Some s
  | c :: src =>
      match hexadecimal c with
      | Some d =>
          if (4 <? S (p_seen s))%nat then None
          else pton6_loop src (mkP6 (p_out s) (p_colonp s) (p_curtok s) (S (p_seen s)) (Z.lor (Z.shiftl (p_val s) 4) d))
      | None =>
          if (c =? COLON6)%char then
            if (p_seen s =? 0)%nat then
              match p_colonp s with
              | Some _ => None
              | None => pton6_loop src (mkP6 (p_out s) (Some (length (p_out s))) src 0 (p_val s))
              end
            else
              match src with
              | [] => None
              | _ => out ← put_word (p_val s) (p_out s) ; pton6_loop src (mkP6 out (p_colonp s) src 0 0)
              end
          else if (c =? DOT)%char && (length (p_out s) + 4 <=? 16)%nat then
            v4 ← inet_pton4 (p_curtok s) ; Some (mkP6 (p_out s ++ v4) (p_colonp s) (p_curtok s) 0 (p_val s))
          else None
      end
  end.

(** The last word, and the shift of what is behind the :: to the end. *)
Definition pton6_end (s : pton6_state) : option (list Z) :=
  out ← (if (p_seen s =? 0)%nat then Some (p_out s) else put_word (p_val s) (p_out s)) ;
  match p_colonp s with
  | Some n =>
      if (length out =? 16)%nat then None
      else Some (take n out ++ replicate (16 - length out) 0 ++ drop n out)
  | None => if (length out =? 16)%nat then Some out else None
  end.

Definition inet_pton6 (src : bytes) : option (list Z) :=
  src ← match src with
        | c :: r => if (c =? COLON6)%char then match r with d :: _ => if (d =? COLON6)%char then Some r else None | [] => None end
                    else Some src
        | [] => Some src
        end ;
  s ← pton6_loop src (mkP6 [] None src 0 0) ;
  pton6_end s.

(** A text without its scope; [None] when it does not fit the buffer. *)
Fixpoint before_percent (s : bytes) : bytes * bool :=
  match s with
  | [] => ([], false)
  | c :: s => if (c =? "%")%char then ([], true) else let '(t, found) := before_percent s in (c :: t, found)
  end.

Definition uv_inet_pton (af : Z) (src : bytes) : option (list Z) :=
  if af =? AF_INET then inet_pton4 src
  else if af =? AF_INET6 then
    let '(t, found) := before_percent src in
    if found && (UV__INET6_ADDRSTRLEN - 1 <? length t)%nat then None else inet_pton6 t
  else None.

Definition uv_inet_ntop (af : Z) (src : list Z) (size : nat) : Z * option bytes :=
  if af =? AF_INET then inet_ntop4 src size
  else if af =? AF_INET6 then inet_ntop6 src size
  else (UV_EAFNOSUPPORT, None).

(** Examples of both directions. *)
Lemma pton6_examples :
  inet_pton6 (lit "::1") = Some (replicate 15 0 ++ [1]) ∧
  inet_pton6 (lit "::ffff:1.2.3.4") = Some (replicate 10 0 ++ [255; 255; 1; 2; 3; 4]) ∧
  inet_pton6 (lit "1:2:3") = None ∧ inet_pton6 (lit "1::2::3") = None ∧
  text6 (replicate 16 0) = lit "::" ∧ text6 (replicate 15 0 ++ [1]) = lit "::1" ∧
  text6 (replicate 10 0 ++ [255; 255; 1; 2; 3; 4]) = lit "::ffff:1.2.3.4".
Proof. vm_compute. done. Qed.

(** ** Numbers *)

Definition octet (x : Z) : Prop := 0 ≤ x < 256.

Ltac each_digit := repeat match goal with H : _ ∨ _ |- _ => destruct H as [->|H] end; subst; reflexivity.

Lemma decimal_digit d : 0 ≤ d < 10 → decimal (digit d) = Some d.
Proof. intros H. assert (d = 0 ∨ d = 1 ∨ d = 2 ∨ d = 3 ∨ d = 4 ∨ d = 5 ∨ d = 6 ∨ d = 7 ∨ d = 8 ∨ d = 9) by lia. each_digit. Qed.

Lemma hexadecimal_digit d : 0 ≤ d < 16 → hexadecimal (digit d) = Some d.
Proof.
  intros H. assert (d = 0 ∨ d = 1 ∨ d = 2 ∨ d = 3 ∨ d = 4 ∨ d = 5 ∨ d = 6 ∨ d = 7 ∨ d = 8 ∨ d = 9 ∨ d = 10 ∨ d = 11 ∨ d = 12 ∨
    d = 13 ∨ d = 14 ∨ d = 15) by lia. each_digit.
Qed.

Lemma div_range a b n : 0 < b → 0 ≤ a < b * n → 0 ≤ a / b < n.
Proof. intros Hb Ha. split; [apply Z.div_pos; lia|]. apply Z.div_lt_upper_bound; lia. Qed.

(** *** IPv4 *)

Lemma pton4_first d r acc k : 0 ≤ d < 10 → (k < 4)%nat →
  pton4_loop (digit d :: r) acc 0 false k = pton4_loop r acc d true (S k).
Proof.
  intros Hd Hk. cbn [pton4_loop]. rewrite decimal_digit by done. cbn [andb]. rewrite Z.mul_0_l, Z.add_0_l.
  rewrite (proj2 (Z.ltb_ge _ _)) by lia. by rewrite (proj2 (Nat.ltb_ge _ _)) by lia.
Qed.

Lemma pton4_next t d r acc k : 0 ≤ d < 10 → 0 < t → t * 10 + d < 256 →
  pton4_loop (digit d :: r) acc t true k = pton4_loop r acc (t * 10 + d) true k.
Proof.
  intros Hd Ht H. cbn [pton4_loop]. rewrite decimal_digit by done. rewrite (proj2 (Z.eqb_neq _ _)) by lia. cbn [andb].
  by rewrite (proj2 (Z.ltb_ge _ _)) by lia.
Qed.

Lemma pton4_octet a r acc k : octet a → (k < 4)%nat → pton4_loop (print_u a ++ r) acc 0 false k = pton4_loop r acc a true (S k).
Proof.
  intros Ha Hk. unfold octet in Ha. unfold print_u. pose proof (Z.mod_pos_bound a 10). pose proof (Z.div_mod a 10).
  destruct (Z.ltb_spec a 10); cbn [app]; [apply pton4_first; lia|]. destruct (Z.ltb_spec a 100); cbn [app].
  - pose proof (div_range a 10 10). rewrite pton4_first, pton4_next by lia. f_equal. lia.
  - pose proof (div_range a 100 3). pose proof (Z.mod_pos_bound (a / 10) 10). pose proof (Z.div_mod (a / 10) 10).
    assert (a / 10 / 10 = a / 100) by (rewrite Z.div_div; [done|lia|lia]).
    rewrite pton4_first, !pton4_next by lia. f_equal. lia.
Qed.

Lemma pton4_dot r acc t k : (k < 4)%nat → pton4_loop (DOT :: r) acc t true k = pton4_loop r (acc ++ [t]) 0 false k.
Proof. intros Hk. cbn [pton4_loop]. change (decimal DOT) with (@None Z). cbn. by rewrite (proj2 (Nat.eqb_neq _ _)) by lia. Qed.

Lemma pton4_dotted a b c d : octet a → octet b → octet c → octet d → inet_pton4 (dotted [a; b; c; d]) = Some [a; b; c; d].
Proof.
  intros Ha Hb Hc Hd. unfold inet_pton4, dotted.
  rewrite pton4_octet by (done || lia). rewrite pton4_dot by lia. rewrite pton4_octet by (done || lia). rewrite pton4_dot by lia.
  rewrite pton4_octet by (done || lia). rewrite pton4_dot by lia. rewrite <- (app_nil_r (print_u d)), pton4_octet by (done || lia). done.
Qed.

(** *** IPv6 *)

Definition word16 (w : Z) : Prop := 0 ≤ w < 65536.
Definition word_bytes (w : Z) : list Z := [Z.land (Z.shiftr w 8) 255; Z.land w 255].


Lemma lor_shift v d n : 0 ≤ n → 0 ≤ d < 2 ^ n → Z.lor (Z.shiftl v n) d = v * 2 ^ n + d.
Proof.
  intros Hn Hd. rewrite <- Z.shiftl_mul_pow2 by lia. destruct (decide (d = 0)) as [->|Hd0]; [by rewrite Z.lor_0_r, Z.add_0_r|].
  assert (E : Z.land (Z.shiftl v n) d = 0).
  { apply Z.bits_inj'. intros i Hi. rewrite Z.land_spec, Z.bits_0. destruct (Z.lt_ge_cases i n); [by rewrite Z.shiftl_spec_low|].
    rewrite (Z.bits_above_log2 d i); [by rewrite andb_false_r|lia|]. apply Z.log2_lt_pow2; [lia|].
    eapply Z.lt_le_trans; [apply Hd|]. by apply Z.pow_le_mono_r. }
  rewrite Z.add_nocarry_lxor by done. by rewrite Z.lxor_lor by done.
Qed.

Lemma lor_digit v d : 0 ≤ d < 16 → Z.lor (Z.shiftl v 4) d = v * 16 + d.
Proof. intros Hd. by rewrite lor_shift by lia. Qed.

Lemma pton6_digit d r out cp tok n v :
  0 ≤ d < 16 → (n < 4)%nat →
  pton6_loop (digit d :: r) (mkP6 out cp tok n v) = pton6_loop r (mkP6 out cp tok (S n) (v * 16 + d)).
Proof.
  intros Hd Hn. cbn [pton6_loop]. rewrite hexadecimal_digit by done. cbn [p_seen p_out p_colonp p_curtok p_val].
  rewrite (proj2 (Nat.ltb_ge _ _)) by lia. by rewrite lor_digit by done.
Qed.

Lemma print_x_length w : (1 ≤ length (print_x w) ≤ 4)%nat.
Proof. unfold print_x. repeat case_match; simpl; lia. Qed.

(** The digits of a word, from the left. *)
Lemma print_x_digits w : word16 w →
  ∃ ds, print_x w = digit <$> ds ∧ Forall (λ d, 0 ≤ d < 16) ds ∧ foldl (λ v d, v * 16 + d) 0 ds = w.
Proof.
  intros Hw. unfold word16 in Hw. unfold print_x.
  pose proof (Z.mod_pos_bound w 16). pose proof (Z.div_mod w 16). pose proof (Z.mod_pos_bound (w / 16) 16). pose proof (Z.div_mod (w / 16) 16).
  pose proof (Z.mod_pos_bound (w / 256) 16). pose proof (Z.div_mod (w / 256) 16).
  assert (w / 16 / 16 = w / 256) by (rewrite Z.div_div; [done|lia|lia]). assert (w / 256 / 16 = w / 4096) by (rewrite Z.div_div; [done|lia|lia]).
  destruct (Z.ltb_spec w 16); [|destruct (Z.ltb_spec w 256); [|destruct (Z.ltb_spec w 4096)]].
  - exists [w]. split_and!; [done|repeat constructor; lia|simpl; lia].
  - pose proof (div_range w 16 16). exists [w / 16; w mod 16]. split_and!; [done|repeat constructor; lia|simpl; lia].
  - pose proof (div_range w 256 16). exists [w / 256; w / 16 mod 16; w mod 16]. split_and!; [done|repeat constructor; lia|simpl; lia].
  - pose proof (div_range w 4096 16). exists [w / 4096; w / 256 mod 16; w / 16 mod 16; w mod 16].
    split_and!; [done|repeat constructor; lia|simpl; lia].
Qed.

Lemma pton6_digits ds r out cp tok n v :
  Forall (λ d, 0 ≤ d < 16) ds → (n + length ds ≤ 4)%nat →
  pton6_loop ((digit <$> ds) ++ r) (mkP6 out cp tok n v) =
  pton6_loop r (mkP6 out cp tok (n + length ds) (foldl (λ v d, v * 16 + d) v ds)).
Proof.
  revert n v; induction ds as [|d ds IH]; intros n v Hd Hn; cbn [fmap list_fmap app length foldl] in *; [by rewrite Nat.add_0_r|].
  apply Forall_cons in Hd as [Hd Hds]. rewrite pton6_digit by (done || lia). rewrite IH by (done || lia). do 2 f_equal. lia.
Qed.

Lemma pton6_word w r out cp tok :
  word16 w → pton6_loop (print_x w ++ r) (mkP6 out cp tok 0 0) = pton6_loop r (mkP6 out cp tok (length (print_x w)) w).
Proof.
  intros Hw. pose proof (print_x_length w) as Hl. destruct (print_x_digits w Hw) as (ds & E & Hd & Hv). rewrite E in *.
  rewrite length_fmap in *. rewrite pton6_digits by (done || lia). by rewrite Hv.
Qed.

(** A word and the colon behind it. *)
Lemma pton6_group w r out cp tok :
  word16 w → (length out ≤ 14)%nat → r ≠ [] →
  pton6_loop (print_x w ++ COLON6 :: r) (mkP6 out cp tok 0 0) = pton6_loop r (mkP6 (out ++ word_bytes w) cp r 0 0).
Proof.
  intros Hw Ho Hr. rewrite pton6_word by done. pose proof (print_x_length w). cbn [pton6_loop].
  change (hexadecimal COLON6) with (@None Z). cbn [p_seen p_out p_colonp p_curtok p_val]. rewrite (proj2 (Nat.eqb_neq _ _)) by lia.
  change ((COLON6 =? COLON6)%char) with true. cbv iota. destruct r as [|c r]; [done|].
  unfold put_word. rewrite (proj2 (Nat.ltb_ge _ _)) by lia. done.
Qed.

(** The last word. *)
Lemma pton6_last w out cp tok :
  word16 w → (length out ≤ 14)%nat →
  (s ← pton6_loop (print_x w) (mkP6 out cp tok 0 0) ; pton6_end s) =
  pton6_end (mkP6 (out ++ word_bytes w) cp tok 0 0).
Proof.
  intros Hw Ho. pose proof (print_x_length w). rewrite <- (app_nil_r (print_x w)) at 1. rewrite pton6_word by done. cbn [pton6_loop mbind option_bind].
  unfold pton6_end. cbn [p_seen p_out p_colonp p_val]. rewrite (proj2 (Nat.eqb_neq _ _)) by lia. unfold put_word.
  rewrite (proj2 (Nat.ltb_ge _ _)) by lia. done.
Qed.

(** The ::. *)
Lemma pton6_colon r out tok :
  pton6_loop (COLON6 :: r) (mkP6 out None tok 0 0) = pton6_loop r (mkP6 out (Some (length out)) r 0 0).
Proof. done. Qed.

(** An IPv4 address at the end. *)
Lemma pton6_v4 a b c d out cp :
  octet a → octet b → octet c → octet d → (length out ≤ 12)%nat →
  (s ← pton6_loop (dotted [a; b; c; d]) (mkP6 out cp (dotted [a; b; c; d]) 0 0) ; pton6_end s) =
  pton6_end (mkP6 (out ++ [a; b; c; d]) cp [] 0 0).
Proof.
  intros Ha Hb Hc Hd Ho.
  assert (K : ∀ r tok, ∃ n v, pton6_loop (print_u a ++ DOT :: r) (mkP6 out cp tok 0 0) = pton6_loop (DOT :: r) (mkP6 out cp tok n v)).
  { intros r tok. unfold octet in Ha. unfold print_u. pose proof (Z.mod_pos_bound a 10). pose proof (Z.mod_pos_bound (a / 10) 10).
    destruct (Z.ltb_spec a 10); [|destruct (Z.ltb_spec a 100)]; cbn [app].
    - eexists _, _. rewrite pton6_digit by lia. done.
    - pose proof (div_range a 10 10). eexists _, _. rewrite !pton6_digit by lia. done.
    - pose proof (div_range a 100 3). eexists _, _. rewrite !pton6_digit by lia. done. }
  unfold dotted at 1. destruct (K (print_u b ++ DOT :: print_u c ++ DOT :: print_u d) (dotted [a; b; c; d])) as (n & v & ->).
  cbn [pton6_loop]. change (hexadecimal DOT) with (@None Z). change ((DOT =? COLON6)%char) with false. change ((DOT =? DOT)%char) with true.
  cbn [p_seen p_out p_colonp p_curtok p_val]. rewrite (proj2 (Nat.leb_le _ _)) by lia. cbn [andb]. rewrite pton4_dotted by done. done.
Qed.

(** *** The longest run of zeros *)

(** [run] is a run of zeros before [i]. *)
Definition zeros (all : list Z) (i : nat) (run : option (nat * nat)) : Prop :=
  match run with
  | Some (b, n) => (b + n ≤ i)%nat ∧ ∀ j, (b ≤ j < b + n)%nat → all !! j = Some 0
  | None => True
  end.
Definition upto (i : nat) (run : option (nat * nat)) : Prop := match run with Some (b, n) => (b + n = i)%nat | None => True end.

Lemma keep_best_zeros all i r : zeros all i (best r) → zeros all i (cur r) → zeros all i (best (keep_best r)) ∧ cur (keep_best r) = None.
Proof.
  intros Hb Hc. unfold keep_best. destruct (cur r) as [[b n]|] eqn:E; [|done]. destruct (best r) as [[b0 n0]|]; [|done].
  by destruct (n0 <? n)%nat.
Qed.

Lemma zeros_mono all i run : zeros all i run → zeros all (S i) run.
Proof. destruct run as [[b n]|]; [|done]. intros [H1 H2]. split; [lia|done]. Qed.

Lemma find_runs_zeros all words : ∀ i r,
  drop i all = words → (i ≤ length all)%nat → zeros all i (best r) → zeros all i (cur r) → upto i (cur r) →
  zeros all (length all) (best (find_runs words i r)).
Proof.
  induction words as [|w words IH]; intros i r Hd Hi Hb Hc Hu; cbn [find_runs].
  - assert (i = length all) as -> by (apply (f_equal length) in Hd; rewrite length_drop in Hd; simpl in Hd; lia).
    by apply keep_best_zeros.
  - assert (Hw : all !! i = Some w) by (rewrite <- (Nat.add_0_r i), <- lookup_drop, Hd; done).
    assert (Hi' : (S i ≤ length all)%nat) by (apply lookup_lt_Some in Hw; lia).
    assert (Hd' : drop (S i) all = words) by (rewrite (drop_S _ _ _ Hw) in Hd; congruence).
    destruct (Z.eqb_spec w 0) as [->|Hw0].
    + apply IH; [done|done|by apply zeros_mono| |]; cbn [cur].
      * destruct (cur r) as [[b n]|]; cbn in *; (split; [lia|]).
        -- intros j Hj. destruct (decide (j = i)) as [->|]; [done|]. apply Hc. lia.
        -- intros j Hj. assert (j = i) as -> by lia. done.
      * destruct (cur r) as [[b n]|]; cbn in *; lia.
    + destruct (keep_best_zeros all i r Hb Hc) as [Hb' Hc']. apply IH; [done|done|by apply zeros_mono|by rewrite Hc'|by rewrite Hc'].
Qed.

Lemma best_run_zeros all b n :
  best_run all = Some (b, n) → (2 ≤ n)%nat ∧ (b + n ≤ length all)%nat ∧ ∀ j, (b ≤ j < b + n)%nat → all !! j = Some 0.
Proof.
  intros Hb. unfold best_run in Hb. pose proof (find_runs_zeros all all 0 (mkRuns None None)) as H.
  destruct (best (find_runs all 0 (mkRuns None None))) as [[b0 n0]|]; [|done]. destruct (Nat.ltb_spec n0 2); [done|]. simplify_eq.
  destruct (H eq_refl (Nat.le_0_l _) I I I) as [H1 H2]. split_and!; [lia|done|done].
Qed.

(** *** Round trip *)

Lemma word_bytes_octets a b : octet a → octet b → word16 (Z.lor (Z.shiftl a 8) b) ∧ word_bytes (Z.lor (Z.shiftl a 8) b) = [a; b].
Proof.
  intros Ha Hb. unfold octet in *. rewrite lor_shift by lia. unfold word16, word_bytes. split; [lia|].
  rewrite Z.shiftr_div_pow2 by lia. change (2 ^ 8) with 256. rewrite Z.div_add_l, (Z.div_small b) by lia.
  change 255 with (Z.ones 8). rewrite !Z.land_ones by lia. change (2 ^ 8) with 256. rewrite Z.add_0_r, (Z.mod_small a) by lia.
  rewrite Z.add_comm, Z.mod_add, Z.mod_small by lia. done.
Qed.

(** Eight words that are read back, four octets that are read as IPv4. *)
Record words8 (ws src : list Z) : Prop := {
  w8_words : length ws = 8%nat ∧ Forall word16 ws;
  w8_src : ws ≫= word_bytes = src;
  w8_v4 : ∃ a b c d, drop 12 src = [a; b; c; d] ∧ octet a ∧ octet b ∧ octet c ∧ octet d
}.

Lemma words_of_8 src : length src = 16%nat → Forall octet src → words8 (words_of src) src.
Proof.
  intros Hl Ho. do 16 (destruct src as [|? src]; [done|]). destruct src; [|done].
  repeat match goal with H : Forall octet (_ :: _) |- _ => apply Forall_cons in H as [? H] end.
  cbn [words_of]. split.
  - split; [done|]. repeat (apply Forall_cons; split; [by apply word_bytes_octets|]). apply Forall_nil_2.
  - cbn [mbind list_bind]. rewrite !(λ a b H1 H2, proj2 (word_bytes_octets a b H1 H2)) by done. done.
  - by eexists _, _, _, _.
Qed.

Lemma print_x_nonempty w r : print_x w ++ r ≠ [].
Proof. pose proof (print_x_length w). destruct (print_x w); simpl in *; [lia|done]. Qed.

Lemma print_x_nonempty' w : print_x w ≠ [].
Proof. rewrite <- (app_nil_r (print_x w)). apply print_x_nonempty. Qed.

Lemma dotted_nonempty a b c d : dotted [a; b; c; d] ≠ [].
Proof. unfold dotted. destruct (print_u a); discriminate. Qed.

(** Without the test for a leading colon. *)
Definition read_text (src : bytes) : option (list Z) :=
  s ← pton6_loop src (mkP6 [] None src 0 0) ; pton6_end s.

Lemma pton6_digit_first w r : word16 w → inet_pton6 (print_x w ++ r) = read_text (print_x w ++ r).
Proof.
  intros Hw. destruct (print_x_digits w Hw) as (ds & E & Hd & _). pose proof (print_x_length w) as Hl. rewrite E in *.
  destruct ds as [|d ds]; [simpl in Hl; lia|]. apply Forall_cons in Hd as [Hd _]. cbn [fmap list_fmap app]. unfold inet_pton6.
  assert ((digit d =? COLON6)%char = false) as ->; [|done].
  destruct (Ascii.eqb_spec (digit d) COLON6) as [Ed|]; [|done]. pose proof (hexadecimal_digit d Hd) as K. by rewrite Ed in K.
Qed.

Lemma pton6_colon_first r : inet_pton6 (COLON6 :: COLON6 :: r) = read_text (COLON6 :: r).
Proof. done. Qed.

(** Reads a text from the left; what is left is the last word or nothing. *)
Ltac read6 :=
  unfold read_text;
  repeat first
    [ rewrite pton6_colon
    | rewrite pton6_group; [|assumption|cbn [length app word_bytes]; lia|first [discriminate|apply print_x_nonempty|apply print_x_nonempty'|apply dotted_nonempty]] ];
  first
    [ rewrite pton6_last; [|assumption|cbn [length app word_bytes]; lia]
    | rewrite pton6_v4; [|assumption..|cbn [length app word_bytes]; lia]
    | cbn [pton6_loop mbind option_bind] ];
  unfold pton6_end; cbn [p_seen p_out p_colonp p_val Nat.eqb mbind option_bind app length word_bytes Nat.sub replicate take drop].

Lemma text6_plain ws src : words8 ws src → inet_pton6 (format6 None ws src 8 0) = Some src.
Proof.
  intros [[Hl Hw] <- _]. do 8 (destruct ws as [|? ws]; [done|]). destruct ws; [|done].
  repeat match goal with H : Forall word16 (_ :: _) |- _ => apply Forall_cons in H as [? H] end.
  cbn [format6 in_run encapsulated Nat.eqb app nth]. rewrite app_nil_r, pton6_digit_first by done. read6. done.
Qed.

(** Zero words inside the run. *)
Ltac zero_words Hz :=
  let go j := (let H := fresh in pose proof (Hz j) as H; cbn [lookup list_lookup] in H;
               first [specialize (H ltac:(lia)); injection H as ->|clear H]) in
  go 0%nat; go 1%nat; go 2%nat; go 3%nat; go 4%nat; go 5%nat; go 6%nat; go 7%nat.

Lemma text6_run ws src b n :
  words8 ws src → (2 ≤ n)%nat → (b + n ≤ 8)%nat → (∀ j, (b ≤ j < b + n)%nat → ws !! j = Some 0) →
  inet_pton6 (format6 (Some (b, n)) ws src 8 0 ++ if (b + n =? 8)%nat then [COLON6] else []) = Some src.
Proof.
  intros [[Hl Hw] <- (o1 & o2 & o3 & o4 & Hd & H1 & H2 & H3 & H4)] Hn Hb Hz. do 8 (destruct ws as [|? ws]; [done|]). destruct ws; [|done].
  repeat match goal with H : Forall word16 (_ :: _) |- _ => apply Forall_cons in H as [? H] end.
  destruct b as [|[|[|[|[|[|[|b]]]]]]]; [..|lia];
    (destruct n as [|[|[|[|[|[|[|[|[|n]]]]]]]]]; try (exfalso; lia));
    zero_words Hz; cbn [Nat.add Nat.eqb];
    cbn [format6 in_run starts_run encapsulated Nat.eqb Nat.leb Nat.ltb Nat.add andb orb negb app nth].
  all: cbn [mbind list_bind app drop word_bytes] in Hd; injection Hd as <- <- <- <-; rewrite ?app_nil_r; repeat (rewrite <- app_assoc; cbn [app]).
  all: cbn [mbind list_bind drop word_bytes app].
  all: try match goal with |- context [if ?z =? 65535 then _ else _] => destruct (z =? 65535) end.
  all: first [rewrite pton6_colon_first|rewrite pton6_digit_first by done]; read6; done.
Qed.

(** What inet_ntop6 writes, inet_pton6 reads: every address survives. *)
Lemma pton6_text6 src : length src = 16%nat → Forall octet src → inet_pton6 (text6 src) = Some src.
Proof.
  intros Hl Ho. pose proof (words_of_8 src Hl Ho) as Hw. unfold text6. destruct (best_run (words_of src)) as [[b n]|] eqn:E.
  - destruct (best_run_zeros _ _ _ E) as (Hn & Hb & Hz). rewrite (proj1 (w8_words _ _ Hw)) in Hb. by apply text6_run.
  - rewrite app_nil_r. by apply text6_plain.
Qed.

(** ** The characters and the length of a text *)

Definition address_char (c : ascii) : Prop := c ∈ COLON6 :: DOT :: digits_l.

Lemma digit_char n : address_char (digit n).
Proof.
  right. right. unfold digit. destruct (nth_in_or_default (Z.to_nat n) digits_l "0"%char) as [H| ->]; [by apply list_elem_of_In|]. by left.
Qed.

Lemma print_u_chars n : Forall address_char (print_u n).
Proof. unfold print_u. repeat case_match; repeat (apply Forall_cons; split; [apply digit_char|]); apply Forall_nil_2. Qed.

Lemma print_x_chars n : Forall address_char (print_x n).
Proof. unfold print_x. repeat case_match; repeat (apply Forall_cons; split; [apply digit_char|]); apply Forall_nil_2. Qed.

Lemma dot_char : address_char DOT.
Proof. right. by left. Qed.
Lemma colon_char : address_char COLON6.
Proof. by left. Qed.

Lemma dotted_chars src : Forall address_char (dotted src).
Proof.
  unfold dotted. repeat case_match; try apply Forall_nil_2.
  repeat first [apply Forall_app; split; [apply print_u_chars|]|apply Forall_cons; split; [apply dot_char|]|apply print_u_chars].
Qed.

Lemma format6_chars run all src count i : Forall address_char (format6 run all src count i).
Proof.
  revert i; induction count as [|count IH]; intros i; cbn [format6]; [apply Forall_nil_2|]. destruct (in_run run i).
  - apply Forall_app. split; [|apply IH]. destruct (starts_run run i); [|apply Forall_nil_2]. by apply Forall_singleton, colon_char.
  - apply Forall_app. split; [destruct (i =? 0)%nat; [apply Forall_nil_2|]; by apply Forall_singleton, colon_char|].
    destruct (encapsulated run all i); [apply dotted_chars|]. apply Forall_app. split; [apply print_x_chars|apply IH].
Qed.

Lemma text6_chars src : Forall address_char (text6 src).
Proof.
  unfold text6. apply Forall_app. split; [apply format6_chars|]. repeat case_match; try apply Forall_nil_2. apply Forall_singleton, colon_char.
Qed.

(** No scope to cut off. *)
Lemma before_percent_address s : Forall address_char s → before_percent s = (s, false).
Proof.
  induction 1 as [|c s Hc _ IH]; [done|]. cbn [before_percent]. rewrite IH. destruct (Ascii.eqb_spec c "%") as [->|]; [|done].
  exfalso. revert Hc. apply (bool_decide_unpack _). by vm_compute.
Qed.

Lemma print_u_length n : (1 ≤ length (print_u n) ≤ 3)%nat.
Proof. unfold print_u. repeat case_match; simpl; lia. Qed.

Lemma dotted_length src : (length (dotted src) ≤ 15)%nat.
Proof.
  unfold dotted. repeat case_match; simpl; try lia. pose proof print_u_length as K. rewrite !length_app. cbn [length]. rewrite !length_app. cbn [length].
  rewrite !length_app. cbn [length]. repeat match goal with |- context [length (print_u ?n)] => pose proof (K n); generalize dependent (length (print_u n)); intros end.
  lia.
Qed.

(** Every word takes five characters at most, those of the run one in all, an IPv4 address six more than two words. *)
Lemma format6_length b n all src count i :
  (2 ≤ n)%nat → (i + count = 8)%nat →
  (length (format6 (Some (b, n)) all src count i) + 4 * (min (b + n) 8 - max b i) ≤ 5 * count + 6)%nat.
Proof.
  intros Hn. revert i; induction count as [|count IH]; intros i Hi; cbn [format6]; [simpl; lia|]. specialize (IH (S i)). 
  destruct (in_run (Some (b, n)) i) eqn:Er; cbn [in_run] in Er.
  - apply andb_true_iff in Er as [E1%Nat.leb_le E2%Nat.ltb_lt]. rewrite length_app.
    assert (length (if starts_run (Some (b, n)) i then [COLON6] else []) ≤ 1)%nat by (destruct (starts_run _ _); simpl; lia). lia.
  - assert (i < b ∨ b + n ≤ i)%nat.
    { apply andb_false_iff in Er as [E1%Nat.leb_gt|E1%Nat.ltb_ge]; lia. }
    rewrite length_app. assert (length (if (i =? 0)%nat then [] else [COLON6]) ≤ 1)%nat by (destruct (i =? 0)%nat; simpl; lia).
    destruct (encapsulated (Some (b, n)) all i) eqn:Ee.
    + cbn [encapsulated] in Ee. destruct b; [|done]. apply andb_true_iff in Ee as [->%Nat.eqb_eq _]. pose proof (dotted_length (drop 12 src)). lia.
    + rewrite length_app. pose proof (print_x_length (nth i all 0)). lia.
Qed.

Lemma format6_length_plain all src count i : (length (format6 None all src count i) ≤ 5 * count)%nat.
Proof.
  revert i; induction count as [|count IH]; intros i; cbn [format6 in_run encapsulated]; [simpl; lia|]. rewrite !length_app. specialize (IH (S i)).
  pose proof (print_x_length (nth i all 0)). assert (length (if (i =? 0)%nat then [] else [COLON6]) ≤ 1)%nat by (destruct (i =? 0)%nat; simpl; lia). lia.
Qed.

(** The buffers of inet.c are large enough. *)
Lemma text6_length src : length src = 16%nat → Forall octet src → (length (text6 src) < UV__INET6_ADDRSTRLEN)%nat.
Proof.
  intros Hl Ho. pose proof (words_of_8 src Hl Ho) as Hw. unfold text6, UV__INET6_ADDRSTRLEN. destruct (best_run (words_of src)) as [[b n]|] eqn:E.
  - destruct (best_run_zeros _ _ _ E) as (Hn & Hb & _). rewrite (proj1 (w8_words _ _ Hw)) in Hb. rewrite length_app.
    pose proof (format6_length b n (words_of src) src 8 0 Hn eq_refl). assert (length (if (b + n =? 8)%nat then [COLON6] else []) ≤ 1)%nat by (destruct (b + n =? 8)%nat; simpl; lia).
    lia.
  - rewrite app_nil_r. pose proof (format6_length_plain (words_of src) src 8 0). lia.
Qed.

Lemma ntop6_ok src size : length src = 16%nat → Forall octet src → (UV__INET6_ADDRSTRLEN ≤ size)%nat → inet_ntop6 src size = (0, Some (text6 src)).
Proof.
  intros Hl Ho Hs. pose proof (text6_length src Hl Ho). unfold inet_ntop6, uv__strscpy. rewrite (proj2 (Nat.eqb_neq size 0)) by (unfold UV__INET6_ADDRSTRLEN in *; lia).
  rewrite (proj2 (Nat.ltb_lt _ _)) by lia. rewrite (proj2 (Z.eqb_neq _ _)) by (unfold UV_E2BIG; lia). done.
Qed.

(** ** Socket addresses *)

Lemma pton4_colon s acc tp saw k : COLON6 ∈ s → pton4_loop s acc tp saw k = None.
Proof.
  revert acc tp saw k; induction s as [|c s IH]; intros acc tp saw k Hc; [by apply not_elem_of_nil in Hc|]. cbn [pton4_loop].
  apply elem_of_cons in Hc as [<-|Hc]; [done|]. destruct (decimal c); repeat case_match; auto.
Qed.

Lemma text6_colon src : length src = 16%nat → Forall octet src → COLON6 ∈ text6 src.
Proof.
  intros Hl Ho. pose proof (words_of_8 src Hl Ho) as Hw. unfold text6. apply elem_of_app. left.
  destruct (best_run (words_of src)) as [[b n]|] eqn:E.
  - destruct (best_run_zeros _ _ _ E) as (Hn & _ & _). cbn [format6]. destruct (in_run (Some (b, n)) 0) eqn:E0.
    + cbn [in_run] in E0. apply andb_true_iff in E0 as [E0%Nat.leb_le _]. assert (b = 0%nat) as -> by lia. by left.
    + cbn [in_run] in E0. cbn [Nat.eqb app]. assert (encapsulated (Some (b, n)) (words_of src) 0 = false) as -> by by destruct b.
      apply elem_of_app. right. destruct (in_run (Some (b, n)) 1) eqn:E1; [|by left].
      cbn [in_run] in E1. apply andb_true_iff in E1 as [E1%Nat.leb_le E2%Nat.ltb_lt]. apply andb_false_iff in E0 as [E0%Nat.leb_gt|E0%Nat.ltb_ge]; [|lia].
      assert (b = 1%nat) as -> by lia. by left.
  - cbn [format6 in_run encapsulated Nat.eqb app]. apply elem_of_app. right. by left.
Qed.

(** Numbers and their octets in network order. *)
Fixpoint be_bytes (n : nat) (a : Z) : list Z :=
  match n with O => [] | S n => be_bytes n (a / 256) ++ [a mod 256] end.
Definition be_Z (l : list Z) : Z := foldl (λ v b, v * 256 + b) 0 l.

Lemma be_bytes_spec n a : 0 ≤ a < 256 ^ Z.of_nat n → be_Z (be_bytes n a) = a ∧ length (be_bytes n a) = n ∧ Forall octet (be_bytes n a).
Proof.
  revert a; induction n as [|n IH]; intros a Ha; cbn [be_bytes].
  - change (256 ^ Z.of_nat 0) with 1 in Ha. split_and!; [unfold be_Z; simpl; lia|done|apply Forall_nil_2].
  - rewrite Nat2Z.inj_succ, Z.pow_succ_r in Ha by lia. destruct (IH (a / 256)) as (H1 & H2 & H3); [by apply div_range; lia|].
    pose proof (Z.mod_pos_bound a 256). pose proof (Z.div_mod a 256). split_and!.
    + unfold be_Z in *. rewrite foldl_app, H1. cbn [foldl]. lia.
    + rewrite length_app, H2. simpl. lia.
    + apply Forall_app. split; [done|]. apply Forall_singleton. unfold octet. lia.
Qed.

(** The size of the buffer in ijAddr2Obj. *)
Definition ADDR_BUF : nat := UV__INET6_ADDRSTRLEN + 1.

(** libuv's conversions are those of inet.c. *)
Record inet_env (e : env) : Prop := {
  ie_pton4 : ∀ s, e_pton4 e s = be_Z <$> uv_inet_pton AF_INET s;
  ie_pton6 : ∀ s, e_pton6 e s = be_Z <$> uv_inet_pton AF_INET6 s;
  ie_ntop4 : ∀ a, e_ntop4 e a = default [] (uv_inet_ntop AF_INET (be_bytes 4 a) ADDR_BUF).2;
  ie_ntop6 : ∀ a, e_ntop6 e a = default [] (uv_inet_ntop AF_INET6 (be_bytes 16 a) ADDR_BUF).2
}.

Definition address_ok (sa : sockaddr) : Prop :=
  match sa with
  | SA_INET a port => 0 ≤ a < 2 ^ 32 ∧ 0 ≤ port < 65536
  | SA_INET6 a port _ _ => 0 ≤ a < 2 ^ 128 ∧ 0 ≤ port < 65536
  | SA_OTHER _ => False
  end.

Lemma ntop4_ok a b c d size : (UV__INET_ADDRSTRLEN ≤ size)%nat → inet_ntop4 [a; b; c; d] size = (0, Some (dotted [a; b; c; d])).
Proof.
  unfold UV__INET_ADDRSTRLEN. intros Hs. pose proof (dotted_length [a; b; c; d]). pose proof (dotted_nonempty a b c d) as Hne. unfold inet_ntop4, uv__strscpy.
  destruct (dotted [a; b; c; d]) as [|x l] eqn:E; [done|]. cbn [length] in *. rewrite (proj2 (Nat.eqb_neq _ _)), (proj2 (Nat.leb_gt _ _)) by lia. cbn [orb].
  rewrite (proj2 (Nat.eqb_neq _ _)), (proj2 (Nat.ltb_lt _ _)) by lia. done.
Qed.

Lemma inet_printable e sa : inet_env e → address_ok sa → printable e sa.
Proof.
  intros [E1 E2 E3 E4]. destruct sa as [a port|a port fl sc|]; cbn [address_ok printable]; [| |done].
  - intros [Ha Hp]. split; [done|]. destruct (be_bytes_spec 4 a) as (B1 & B2 & B3); [exact Ha|]. rewrite E1, E3. unfold uv_inet_ntop, uv_inet_pton.
    cbn [Z.eqb AF_INET Pos.eqb]. destruct (be_bytes 4 a) as [|o1 [|o2 [|o3 [|o4 [|]]]]]; try done.
    rewrite ntop4_ok by (unfold ADDR_BUF, UV__INET_ADDRSTRLEN, UV__INET6_ADDRSTRLEN; lia). cbn [snd from_option id]. apply Forall_cons in B3 as [O1 B3].
    apply Forall_cons in B3 as [O2 B3]. apply Forall_cons in B3 as [O3 B3]. apply Forall_cons in B3 as [O4 _].
    rewrite pton4_dotted by done. cbn [fmap option_fmap option_map]. by rewrite B1.
  - intros [Ha Hp]. destruct (be_bytes_spec 16 a) as (B1 & B2 & B3); [exact Ha|]. rewrite E1, E2, E4. unfold uv_inet_ntop, uv_inet_pton.
    cbn [Z.eqb AF_INET AF_INET6 Pos.eqb]. rewrite ntop6_ok by (done || (unfold ADDR_BUF; lia)). cbn [snd from_option id].
    rewrite (before_percent_address _ (text6_chars _)). cbn [andb]. unfold inet_pton4. rewrite pton4_colon by (by apply text6_colon).
    rewrite pton6_text6 by done. cbn [fmap option_fmap option_map]. by rewrite B1.
Qed.

(** C34: A socket address that becomes an object and an address again, with libuv's text conversions
    in between, is the same address, whatever the IPv4 or IPv6 address and the port: the text
    inet_ntop writes, with its longest run of zeros shortened, is one inet_pton reads back (the flow
    label and scope, which the object does not carry, apart). *)
Theorem inet_roundtrip sa w :
  nonneg w → inet_env (w_env w) → address_ok sa →
  wp (obj ← ijAddr2Obj sa ; ijObj2Addr obj) (λ r _, r = Some (without_scope sa)) w.
Proof. intros Hn He Ha. apply addr_roundtrip; [done|]. by apply inet_printable. Qed.

(** An environment whose text conversions are those of libuv. *)
Definition inet_world : World :=
  mkWorld (mkEnv (λ _, 0) (λ _, None) (λ _, SA_INET 0 0)
    (λ s, be_Z <$> uv_inet_pton AF_INET s) (λ s, be_Z <$> uv_inet_pton AF_INET6 s)
    (λ a, default [] (uv_inet_ntop AF_INET (be_bytes 4 a) ADDR_BUF).2)
    (λ a, default [] (uv_inet_ntop AF_INET6 (be_bytes 16 a) ADDR_BUF).2)) 100 ∅ ∅ ∅ None [].

Lemma inet_roundtrip_witness :
  wp (obj ← ijAddr2Obj (SA_INET6 (2 ^ 125 + 258) 8080 0 0) ; ijObj2Addr obj) (λ r _, r = Some (without_scope (SA_INET6 (2 ^ 125 + 258) 8080 0 0))) inet_world.
Proof. apply (inet_roundtrip (SA_INET6 (2 ^ 125 + 258) 8080 0 0) inet_world); [concrete|by split|by split]. Defined.
