(* ===== verification/Streams.v ===== *)
(** * Streams: ijstreams.c

    TCP, TTY and pipe objects over one structure, [IJJSStream]. A stream method
    takes the pointer its class getter gives, [None] being NULL. A libuv callback
    takes the handle or request libuv passes it, by the address of the structure
    that begins with it. *)

From S2P Require Import Prelude State Runtime Logic Lifecycle Promise Address.

(** ** Access to the structures *)

Definition get_stream (p : addr) : M IJJSStream :=
  c ← load p ; match c with CStream s => mret s | _ => fail TypeConfusion end.

Definition put_stream (p : addr) (s : IJJSStream) : M unit := store p (CStream s).

Definition with_h (h : uv_handle) (s : IJJSStream) : IJJSStream :=
  mkStream (s_closed s) (s_finalized s) h (s_read_size s) (s_read_result s) (s_accept_result s).
Definition with_closed (z : Z) (s : IJJSStream) : IJJSStream :=
  mkStream z (s_finalized s) (s_h s) (s_read_size s) (s_read_result s) (s_accept_result s).
Definition with_finalized (z : Z) (s : IJJSStream) : IJJSStream :=
  mkStream (s_closed s) z (s_h s) (s_read_size s) (s_read_result s) (s_accept_result s).
Definition with_read_size (z : Z) (s : IJJSStream) : IJJSStream :=
  mkStream (s_closed s) (s_finalized s) (s_h s) z (s_read_result s) (s_accept_result s).

(** [handle->data], checked as the callbacks do. *)
Definition handle_stream (h : addr) : M addr :=
  s ← get_stream h ;
  CHECK_NOT_NULL (h_data (s_h s)).

(** [req->handle->data] and [req->data] of a request block. *)
Definition req_of (c : cstruct) : option IJJSReq :=
  match c with
  | CConnectReq r | CShutdownReq r => Some r
  | CWriteReq w => Some (wr_req w)
  | _ => None
  end.

Definition get_req (p : addr) : M IJJSReq :=
  c ← load p ; match req_of c with Some r => mret r | None => fail TypeConfusion end.

Definition req_stream (p : addr) : M addr :=
  r ← get_req p ;
  h ← deref (rq_handle r) ;
  handle_stream h.

Definition req_data (p : addr) : M addr :=
  r ← get_req p ;
  deref (rq_data r).

(** The request as libuv leaves it when it accepted it. *)
Definition submitted (h : addr) (r : IJJSReq) : IJJSReq := mkReq (Some h) (rq_data r) (rq_result r).

(** ** Closing *)

Definition uvStreamCloseCb (handle : addr) : M unit :=
  p ← handle_stream handle ;
  s ← get_stream p ;
  put_stream p (with_closed 1 s) ;;
  if negb (s_finalized s =? 0) then je_free p else mret tt.

Definition uvMaybeClose (p : addr) : M unit :=
  s ← get_stream p ;
  if negb (uv_is_closing (s_h s)) then
    h ← uv_close (s_h s) ;
    put_stream p (with_h h s)
  else mret tt.

Definition ijStreamClose (s : option addr) (argv : list JSValue) : M JSValue :=
  match s with
  | None => mret JS_EXCEPTION
  | Some p => uvMaybeClose p ;; mret JS_UNDEFINED
  end.

(** ** Reading *)

(** The buffer: its block, [None] when the allocation failed, and its length. *)
Definition uvStreamAllocCb (handle : addr) (suggested_size : Z) : M (option addr * Z) :=
  p ← handle_stream handle ;
  s ← get_stream p ;
  base ← js_malloc (CBuf (s_read_size s)) ;
  mret (base, s_read_size s).

Definition uv_read_stop (handle : addr) : M unit :=
  s ← get_stream handle ;
  put_stream handle (with_h (with_active false (s_h s)) s).

Definition uvStreamReadCb (handle : addr) (nread : Z) (base : option addr) : M unit :=
  p ← handle_stream handle ;
  uv_read_stop handle ;;
  '(arg, is_reject) ← (if nread <? 0 then
      x ← (if nread =? UV_EOF then mret (JS_UNDEFINED, false)
           else e ← ijNewError nread ; mret (e, true)) ;
      js_free_opt base ;;
      mret x
    else
      data ← deref base ;
      v ← ijNewUint8Array data nread ;
      mret (v, false)) ;
  ijSettlePromise (Place p FRead) is_reject [arg] ;;
  ijClearPromise (Place p FRead).

Definition IJJS_DEFAULt_READ_SIZE : Z := 65536.

Definition uv_read_start (handle : addr) : M Z :=
  r ← ask "uv_read_start" [AP handle] ;
  s ← get_stream handle ;
  put_stream handle (with_h (started r (s_h s)) s) ;;
  mret r.

Definition ijStreamRead (s : option addr) (argv : list JSValue) : M JSValue :=
  match s with
  | None => mret JS_EXCEPTION
  | Some p =>
      st ← get_stream p ;
      if negb (JS_IsUndefined (p_p (s_read_result st))) then ijThrowErrno UV_EBUSY
      else
        a0 ← arg_at argv 0 ;
        o ← (if JS_IsUndefined a0 then mret (Some IJJS_DEFAULt_READ_SIZE) else JS_ToIndex a0) ;
        match o with
        | None => mret JS_EXCEPTION
        | Some size =>
            st ← get_stream p ;
            put_stream p (with_read_size size st) ;;
            r ← uv_read_start p ;
            if negb (r =? 0) then ijThrowErrno r
            else ijInitPromise (Place p FRead)
        end
  end.

(** ** Writing *)

(** The callbacks of write, shutdown and connect settle the request's promise and free it. *)
Definition settle_req (req : addr) (failed : bool) (status : Z) : M unit :=
  _ ← req_stream req ;
  p ← req_data req ;
  '(arg, is_reject) ← (if failed then e ← ijNewError status ; mret (e, true)
                       else mret (JS_UNDEFINED, false)) ;
  ijSettlePromise (Place p FResult) is_reject [arg] ;;
  js_free p.

Definition uvStreamWriteCb (req : addr) (status : Z) : M unit := settle_req req (status <? 0) status.

(** The bytes to write and, for a string, the block they are in. *)
Definition write_data (v : JSValue) : M (option (bytes * option addr)) :=
  is_string ← JS_IsString v ;
  if (is_string : bool) then
    o ← JS_ToCString v ;
    mret (match o with Some (p, s) => Some (s, Some p) | None => None end)
  else
    o ← JS_GetTypedArrayBuffer v ;
    match o with
    | None => mret None
    | Some (abuf, aoffset, asize) =>
        buf ← JS_GetArrayBuffer abuf ;
        JS_FreeValue abuf ;;
        mret (match buf with
              | Some data => Some (take (Z.to_nat asize) (drop (Z.to_nat aoffset) data), None)
              | None => None
              end)
    end.

(** JS_FreeCString(ctx, buf) where [buf] has been moved by [off] bytes: only the
    pointer JS_ToCString returned may be freed. *)
Definition free_cstring_at (o : option addr) (off : Z) : M unit :=
  match o with
  | None => mret tt
  | Some p => if off =? 0 then JS_FreeCString p else fail BadFree
  end.

Definition ijStreamWrite (s : option addr) (argv : list JSValue) : M JSValue :=
  match s with
  | None => mret JS_EXCEPTION
  | Some p =>
      jsData ← arg_at argv 0 ;
      o ← write_data jsData ;
      match o with
      | None => mret JS_EXCEPTION
      | Some (buf, str) =>
          let size := Z.of_nat (length buf) in
          r ← ask "uv_try_write" [AP p; AB buf] ;
          if r =? size then
            free_cstring_at str 0 ;;
            ijNewResolvedPromise []
          else
            let off := if 0 <=? r then r else 0 in
            let rest := drop (Z.to_nat off) buf in
            wr ← js_malloc (CWriteReq (mkWriteReq (mkReq None None None) [])) ;
            match wr with
            | None => mret JS_EXCEPTION
            | Some wr =>
                store wr (CWriteReq (mkWriteReq (mkReq None (Some wr) None) rest)) ;;
                free_cstring_at str off ;;
                r ← ask "uv_write" [AP wr; AP p; AB rest] ;
                if negb (r =? 0) then
                  js_free wr ;;
                  ijThrowErrno r
                else
                  store wr (CWriteReq (mkWriteReq (mkReq (Some p) (Some wr) None) rest)) ;;
                  ijInitPromise (Place wr FResult)
            end
      end
  end.

(** ** Shutting down *)

Definition uvStreamShutdownCb (req : addr) (status : Z) : M unit :=
  settle_req req (negb (status =? 0)) status.

Definition ijStreamShutdown (s : option addr) (argv : list JSValue) : M JSValue :=
  match s with
  | None => mret JS_EXCEPTION
  | Some p =>
      sr ← js_malloc (CShutdownReq (mkReq None None None)) ;
      match sr with
      | None => mret JS_EXCEPTION
      | Some sr =>
          store sr (CShutdownReq (mkReq None (Some sr) None)) ;;
          r ← ask "uv_shutdown" [AP sr; AP p] ;
          if negb (r =? 0) then ijThrowErrno r
          else
            store sr (CShutdownReq (mkReq (Some p) (Some sr) None)) ;;
            ijInitPromise (Place sr FResult)
      end
  end.

Definition ijStreamFileno (s : option addr) (argv : list JSValue) : M JSValue :=
  match s with
  | None => mret JS_EXCEPTION
  | Some p =>
      r ← ask "uv_fileno" [AP p] ;
      if negb (r =? 0) then ijThrowErrno r
      else
        fd ← ask "uv_fileno.fd" [AP p] ;
        mret (JS_NewInt32 fd)
  end.

Definition uvStreamConnectCb (req : addr) (status : Z) : M unit :=
  settle_req req (negb (status =? 0)) status.

(** ** Construction *)

Definition ijInitStream (obj : JSValue) (p : addr) : M JSValue :=
  s ← get_stream p ;
  put_stream p (mkStream 0 0 (with_data (Some p) (s_h s)) (s_read_size s) (s_read_result s) (s_accept_result s)) ;;
  ijClearPromise (Place p FRead) ;;
  ijClearPromise (Place p FAccept) ;;
  JS_SetOpaque obj p ;;
  mret obj.

(** A zeroed IJJSStream. *)
Definition stream0 (t : uv_type) : IJJSStream := mkStream 0 0 (handle0 t) 0 promise0 promise0.

(** The common body of ijNewTcp, ijTtyConstructor and ijNewPipe: [init] is the libuv call. *)
Definition new_stream (c : class_id) (t : uv_type) (init : M Z) (msg : string) : M JSValue :=
  obj ← JS_NewObjectClass c ;
  if JS_IsException obj then mret obj
  else
    s ← je_calloc (CStream (stream0 t)) ;
    match s with
    | None => JS_FreeValue obj ;; mret JS_EXCEPTION
    | Some p =>
        r ← init ;
        if negb (r =? 0) then
          JS_FreeValue obj ;;
          je_free p ;;
          JS_ThrowInternalError msg
        else
          st ← get_stream p ;
          put_stream p (with_h (handle_init (s_h st)) st) ;;
          ijInitStream obj p
    end.

Definition ijNewTcp (af : Z) : M JSValue :=
  new_stream cls_tcp UV_TCP (ask "uv_tcp_init_ex" [AZ af]) "couldn't initialize TCP handle".

Definition ijTcpConstructor (argv : list JSValue) : M JSValue :=
  a0 ← arg_at argv 0 ;
  o ← (if JS_IsUndefined a0 then mret (Some AF_UNSPEC) else JS_ToInt32 a0) ;
  match o with
  | None => mret JS_EXCEPTION
  | Some af => ijNewTcp af
  end.

Definition ijTcpGet (obj : JSValue) : M (option addr) := JS_GetOpaque2 obj cls_tcp.

Definition ijTtyConstructor (argv : list JSValue) : M JSValue :=
  a0 ← arg_at argv 0 ;
  o ← JS_ToInt32 a0 ;
  match o with
  | None => mret JS_EXCEPTION
  | Some fd =>
      a1 ← arg_at argv 1 ;
      readable ← JS_ToBool a1 ;
      if readable =? -1 then mret JS_EXCEPTION
      else new_stream cls_tty UV_TTY (ask "uv_tty_init" [AZ fd; AZ readable]) "couldn't initialize TTY handle"
  end.

Definition ijTtyGet (obj : JSValue) : M (option addr) := JS_GetOpaque2 obj cls_tty.

Definition ijNewPipe : M JSValue :=
  new_stream cls_pipe UV_NAMED_PIPE (ask "uv_pipe_init" [AZ 0]) "couldn't initialize Pipe handle".

Definition ijPipeConstructor (argv : list JSValue) : M JSValue := ijNewPipe.

Definition ijPipeGet (obj : JSValue) : M (option addr) := JS_GetOpaque2 obj cls_pipe.

Definition ijPipeGetStream (obj : JSValue) : M (option addr) := ijPipeGet obj.

(** ** Listening *)

Definition uvStreamConnectionCb (handle : addr) (status : Z) : M unit :=
  p ← handle_stream handle ;
  s ← get_stream p ;
  if JS_IsUndefined (p_p (s_accept_result s)) then mret tt
  else
    '(arg, is_reject) ← (if status =? 0 then
        hs ← get_stream handle ;
        '(arg, t2) ← (match h_type (s_h hs) with
           | UV_TCP => v ← ijNewTcp AF_UNSPEC ; t ← ijTcpGet v ; mret (v, t)
           | UV_NAMED_PIPE => v ← ijNewPipe ; t ← ijPipeGet v ; mret (v, t)
           | _ => abort
           end) ;
        c ← deref t2 ;
        r ← ask "uv_accept" [AP handle; AP c] ;
        if negb (r =? 0) then
          JS_FreeValue arg ;;
          e ← ijNewError r ;
          mret (e, true)
        else mret (arg, false)
      else
        e ← ijNewError status ;
        mret (e, true)) ;
    ijSettlePromise (Place p FAccept) is_reject [arg] ;;
    ijClearPromise (Place p FAccept).

Definition ijStreamListen (s : option addr) (argv : list JSValue) : M JSValue :=
  match s with
  | None => mret JS_EXCEPTION
  | Some p =>
      a0 ← arg_at argv 0 ;
      o ← (if JS_IsUndefined a0 then mret (Some 511) else JS_ToUint32 a0) ;
      match o with
      | None => mret JS_EXCEPTION
      | Some backlog =>
          r ← ask "uv_listen" [AP p; AZ (signed32 backlog)] ;
          if negb (r =? 0) then ijThrowErrno r else mret JS_UNDEFINED
      end
  end.

Definition ijStreamAccept (s : option addr) (argv : list JSValue) : M JSValue :=
  match s with
  | None => mret JS_EXCEPTION
  | Some p =>
      st ← get_stream p ;
      if negb (JS_IsUndefined (p_p (s_accept_result st))) then ijThrowErrno UV_EBUSY
      else ijInitPromise (Place p FAccept)
  end.

(** ** Finalization *)

Definition ijStreamFinalizer (s : option addr) : M unit :=
  match s with
  | None => mret tt
  | Some p =>
      ijFreePromiseRT (Place p FAccept) ;;
      ijFreePromiseRT (Place p FRead) ;;
      st ← get_stream p ;
      put_stream p (with_finalized 1 st) ;;
      if negb (s_closed st =? 0) then je_free p else uvMaybeClose p
  end.

(** The values the collector is shown. *)
Definition ijStreamMark (s : option addr) : M (list JSValue) :=
  match s with
  | None => mret []
  | Some p =>
      st ← get_stream p ;
      mret (ijMarkPromise (s_read_result st) ++ ijMarkPromise (s_accept_result st))
  end.

Definition ijTcpFinalizer (val : JSValue) : M unit := t ← JS_GetOpaque val cls_tcp ; ijStreamFinalizer t.
Definition ijTcpMark (val : JSValue) : M (list JSValue) := t ← JS_GetOpaque val cls_tcp ; ijStreamMark t.
Definition ijTtyFinalizer (val : JSValue) : M unit := t ← JS_GetOpaque val cls_tty ; ijStreamFinalizer t.
Definition ijTtyMark (val : JSValue) : M (list JSValue) := t ← JS_GetOpaque val cls_tty ; ijStreamMark t.
Definition ijPipeFinalizer (val : JSValue) : M unit := t ← JS_GetOpaque val cls_pipe ; ijStreamFinalizer t.
Definition ijPipeMark (val : JSValue) : M (list JSValue) := t ← JS_GetOpaque val cls_pipe ; ijStreamMark t.

(** ** TCP *)

Definition ijTcpGetSockPeerName (magic : Z) (this : JSValue) (argv : list JSValue) : M JSValue :=
  t ← ijTcpGet this ;
  match t with
  | None => mret JS_EXCEPTION
  | Some p =>
      r ← ask (if magic =? 0 then "uv_tcp_getsockname" else "uv_tcp_getpeername") [AP p] ;
      if negb (r =? 0) then ijThrowErrno r
      else
        addr ← ask_sa "sockaddr" [AP p] ;
        ijAddr2Obj addr
  end.

Definition ijTcpConnect (this : JSValue) (argv : list JSValue) : M JSValue :=
  t ← ijTcpGet this ;
  match t with
  | None => mret JS_EXCEPTION
  | Some p =>
      a0 ← arg_at argv 0 ;
      o ← ijObj2Addr a0 ;
      match o with
      | None => mret JS_EXCEPTION
      | Some ss =>
          cr ← js_malloc (CConnectReq (mkReq None None None)) ;
          match cr with
          | None => mret JS_EXCEPTION
          | Some cr =>
              store cr (CConnectReq (mkReq None (Some cr) None)) ;;
              r ← ask "uv_tcp_connect" [AP cr; AP p] ;
              if negb (r =? 0) then ijThrowErrno r
              else
                store cr (CConnectReq (mkReq (Some p) (Some cr) None)) ;;
                ijInitPromise (Place cr FResult)
          end
      end
  end.

Definition ijTcpBind (this : JSValue) (argv : list JSValue) : M JSValue :=
  t ← ijTcpGet this ;
  match t with
  | None => mret JS_EXCEPTION
  | Some p =>
      a0 ← arg_at argv 0 ;
      o ← ijObj2Addr a0 ;
      match o with
      | None => mret JS_EXCEPTION
      | Some ss =>
          a1 ← arg_at argv 1 ;
          f ← (if JS_IsUndefined a1 then mret (Some 0) else JS_ToInt32 a1) ;
          match f with
          | None => mret JS_EXCEPTION
          | Some flags =>
              r ← ask "uv_tcp_bind" [AP p; AZ flags] ;
              if negb (r =? 0) then ijThrowErrno r else mret JS_UNDEFINED
          end
      end
  end.

Definition ijTcpClose (this : JSValue) (argv : list JSValue) : M JSValue :=
  t ← ijTcpGet this ; ijStreamClose t argv.
Definition ijTcpRead (this : JSValue) (argv : list JSValue) : M JSValue :=
  t ← ijTcpGet this ; ijStreamRead t argv.
Definition ijTcpWrite (this : JSValue) (argv : list JSValue) : M JSValue :=
  t ← ijTcpGet this ; ijStreamWrite t argv.
Definition ijTcpShutdown (this : JSValue) (argv : list JSValue) : M JSValue :=
  t ← ijTcpGet this ; ijStreamShutdown t argv.
Definition ijTcpFileno (this : JSValue) (argv : list JSValue) : M JSValue :=
  t ← ijTcpGet this ; ijStreamFileno t argv.
Definition ijTcpListen (this : JSValue) (argv : list JSValue) : M JSValue :=
  t ← ijTcpGet this ; ijStreamListen t argv.
Definition ijTcpAccept (this : JSValue) (argv : list JSValue) : M JSValue :=
  t ← ijTcpGet this ; ijStreamAccept t argv.

(** ** TTY *)

Definition ijTtySetMode (this : JSValue) (argv : list JSValue) : M JSValue :=
  s ← ijTtyGet this ;
  match s with
  | None => mret JS_EXCEPTION
  | Some p =>
      a0 ← arg_at argv 0 ;
      o ← JS_ToInt32 a0 ;
      match o with
      | None => mret JS_EXCEPTION
      | Some mode =>
          r ← ask "uv_tty_set_mode" [AP p; AZ mode] ;
          if negb (r =? 0) then ijThrowErrno r else mret JS_UNDEFINED
      end
  end.

Definition ijTtyGetWinSize (this : JSValue) (argv : list JSValue) : M JSValue :=
  s ← ijTtyGet this ;
  match s with
  | None => mret JS_EXCEPTION
  | Some p =>
      r ← ask "uv_tty_get_winsize" [AP p] ;
      if negb (r =? 0) then ijThrowErrno r
      else
        width ← ask "width" [AP p] ;
        height ← ask "height" [AP p] ;
        obj ← JS_NewObjectProto ;
        JS_DefinePropertyValueStr obj "width" (JS_NewInt32 width) ;;
        JS_DefinePropertyValueStr obj "height" (JS_NewInt32 height) ;;
        mret obj
  end.

Definition ijTtyClose (this : JSValue) (argv : list JSValue) : M JSValue :=
  t ← ijTtyGet this ; ijStreamClose t argv.
Definition ijTtyRead (this : JSValue) (argv : list JSValue) : M JSValue :=
  t ← ijTtyGet this ; ijStreamRead t argv.
Definition ijTtyWrite (this : JSValue) (argv : list JSValue) : M JSValue :=
  t ← ijTtyGet this ; ijStreamWrite t argv.
Definition ijTtyFileno (this : JSValue) (argv : list JSValue) : M JSValue :=
  t ← ijTtyGet this ; ijStreamFileno t argv.

(** ** Pipes *)

Definition ijPipeGetSockPeerName (magic : Z) (this : JSValue) (argv : list JSValue) : M JSValue :=
  t ← ijPipeGet this ;
  match t with
  | None => mret JS_EXCEPTION
  | Some p =>
      r ← ask (if magic =? 0 then "uv_pipe_getsockname" else "uv_pipe_getpeername") [AP p] ;
      if negb (r =? 0) then ijThrowErrno r
      else
        buf ← ask_str "name" [AP p] ;
        JS_NewString (default [] buf)
  end.

Definition ijPipeConnect (this : JSValue) (argv : list JSValue) : M JSValue :=
  t ← ijPipeGet this ;
  match t with
  | None => mret JS_EXCEPTION
  | Some p =>
      a0 ← arg_at argv 0 ;
      name ← JS_ToCString a0 ;
      match name with
      | None => mret JS_EXCEPTION
      | Some (np, s) =>
          cr ← js_malloc (CConnectReq (mkReq None None None)) ;
          match cr with
          | None => JS_FreeCString np ;; mret JS_EXCEPTION
          | Some cr =>
              store cr (CConnectReq (mkReq None (Some cr) None)) ;;
              log "uv_pipe_connect" [AP cr; AP p; AB s] ;;
              store cr (CConnectReq (mkReq (Some p) (Some cr) None)) ;;
              JS_FreeCString np ;;
              ijInitPromise (Place cr FResult)
          end
      end
  end.

Definition ijPipeBind (this : JSValue) (argv : list JSValue) : M JSValue :=
  t ← ijPipeGet this ;
  match t with
  | None => mret JS_EXCEPTION
  | Some p =>
      a0 ← arg_at argv 0 ;
      name ← JS_ToCString a0 ;
      match name with
      | None => mret JS_EXCEPTION
      | Some (np, s) =>
          r ← ask "uv_pipe_bind" [AP p; AB s] ;
          if negb (r =? 0) then ijThrowErrno r else mret JS_UNDEFINED
      end
  end.

Definition ijPipeClose (this : JSValue) (argv : list JSValue) : M JSValue :=
  t ← ijPipeGet this ; ijStreamClose t argv.
Definition ijPipeRead (this : JSValue) (argv : list JSValue) : M JSValue :=
  t ← ijPipeGet this ; ijStreamRead t argv.
Definition ijPipeWrite (this : JSValue) (argv : list JSValue) : M JSValue :=
  t ← ijPipeGet this ; ijStreamWrite t argv.
Definition ijPipeFileno (this : JSValue) (argv : list JSValue) : M JSValue :=
  t ← ijPipeGet this ; ijStreamFileno t argv.
Definition ijPipeListen (this : JSValue) (argv : list JSValue) : M JSValue :=
  t ← ijPipeGet this ; ijStreamListen t argv.
Definition ijPipeAccept (this : JSValue) (argv : list JSValue) : M JSValue :=
  t ← ijPipeGet this ; ijStreamAccept t argv.

(** ** Registration *)

Definition ijjs_tcp_proto_funcs : list cfunction :=
  [ CFUNC "close" 0 ijTcpClose; CFUNC "read" 1 ijTcpRead; CFUNC "write" 1 ijTcpWrite;
    CFUNC "shutdown" 0 ijTcpShutdown; CFUNC "fileno" 0 ijTcpFileno; CFUNC "listen" 1 ijTcpListen;
    CFUNC "accept" 0 ijTcpAccept; CFUNC "getsockname" 0 (ijTcpGetSockPeerName 0);
    CFUNC "getpeername" 0 (ijTcpGetSockPeerName 1); CFUNC "connect" 1 ijTcpConnect;
    CFUNC "bind" 1 ijTcpBind ]%string.

Definition ijjs_tty_proto_funcs : list cfunction :=
  [ CFUNC "close" 0 ijTtyClose; CFUNC "read" 1 ijTtyRead; CFUNC "write" 1 ijTtyWrite;
    CFUNC "fileno" 0 ijTtyFileno; CFUNC "setMode" 1 ijTtySetMode;
    CFUNC "getWinSize" 0 ijTtyGetWinSize ]%string.

Definition ijjs_pipe_proto_funcs : list cfunction :=
  [ CFUNC "close" 0 ijPipeClose; CFUNC "read" 1 ijPipeRead; CFUNC "write" 1 ijPipeWrite;
    CFUNC "fileno" 0 ijPipeFileno; CFUNC "listen" 1 ijPipeListen; CFUNC "accept" 0 ijPipeAccept;
    CFUNC "getsockname" 0 (ijPipeGetSockPeerName 0); CFUNC "getpeername" 0 (ijPipeGetSockPeerName 1);
    CFUNC "connect" 1 ijPipeConnect; CFUNC "bind" 1 ijPipeBind ]%string.

(** The constructors ijModStreamsInit registers, with their declared lengths. *)
Definition ijModStreamsInit : list cfunction :=
  [ CFUNC "TCP" 1 (λ _, ijTcpConstructor); CFUNC "TTY" 1 (λ _, ijTtyConstructor);
    CFUNC "Pipe" 1 (λ _, ijPipeConstructor) ]%string.

(** libuv finishes closing the handle and runs the callback. *)
Definition close_done (p : addr) : M unit :=
  s ← get_stream p ;
  put_stream p (with_h (handle_closed (s_h s)) s) ;;
  uvStreamCloseCb p.
