(* ===== verification/StreamsProofs.v ===== *)
(** * Proofs about streams

    The stream invariant, the life of a stream as an instance of [Lifecycle], the
    callbacks and the methods. *)

From S2P Require Import Prelude State Runtime Logic Lifecycle Promise Worlds Address Streams.

Lemma wp_get_stream p al s (Q : IJJSStream → World → Prop) w :
  w_mem w !! p = Some (al, CStream s) → Q s w → wp (get_stream p) Q w.
Proof. intros Hp HQ. unfold get_stream. wp_step. eapply wp_load; [done|]. by wp_steps. Qed.

Lemma wp_put_stream p al c s (Q : unit → World → Prop) w :
  w_mem w !! p = Some (al, c) → Q tt (set_mem (<[p := (al, CStream s)]> (w_mem w)) w) →
  wp (put_stream p s) Q w.
Proof. intros Hp HQ. unfold put_stream. by eapply wp_store. Qed.

Lemma wp_handle_stream h al s p (Q : addr → World → Prop) w :
  w_mem w !! h = Some (al, CStream s) → h_data (s_h s) = Some p → Q p w → wp (handle_stream h) Q w.
Proof.
  intros Hh Hd HQ. unfold handle_stream. wp_step. eapply wp_get_stream; [done|]. rewrite Hd. by wp_steps.
Qed.

Ltac get_stream := eapply wp_get_stream; [lookup_tac|].
Ltac put_stream := eapply wp_put_stream; [lookup_tac|].
Ltac stream_simpl :=
  cbn [own s_read_result s_accept_result s_h s_closed s_finalized s_read_size with_h with_closed
       with_finalized with_read_size upd sel handles has_field pl_block pl_field].

(** ** The life of a stream *)

Definition stream_life (s : IJJSStream) : life :=
  mkLife (h_closing (s_h s)) (negb (s_closed s =? 0)) (negb (s_finalized s =? 0)).

(** What every method, callback and finalizer keeps of the structure at [p]. *)
Record stream_inv (w : World) (p : addr) (s : IJJSStream) : Prop := {
  si_safe : safe w;
  si_init : h_init (s_h s) = true;
  si_data : h_data (s_h s) = Some p;
  si_life : life_ok (stream_life s);
  si_closed : h_closed (s_h s) = negb (s_closed s =? 0);
  si_promises : s_finalized s = 0 → droppable (s_read_result s) ∧ droppable (s_accept_result s)
}.

Lemma wp_uvMaybeClose p al s (Q : unit → World → Prop) w :
  w_mem w !! p = Some (al, CStream s) → h_init (s_h s) = true →
  Q tt (if h_closing (s_h s) then w
        else set_mem (<[p := (al, CStream (with_h (mkHandle (h_type (s_h s)) true false true
               (h_closed (s_h s)) (h_data (s_h s))) s))]> (w_mem w)) w) →
  wp (uvMaybeClose p) Q w.
Proof.
  intros Hp Hi HQ. unfold uvMaybeClose. wp_step. get_stream. unfold uv_is_closing, uv_close.
  destruct (h_closing (s_h s)) eqn:Hc; simpl negb; cbv iota; [by wp_steps|].
  rewrite Hi. simpl negb. cbv iota. wp_steps. put_stream. exact HQ.
Qed.

Lemma stream_close_spec w p s :
  w_mem w !! p = Some (ByJe, CStream s) → stream_inv w p s → enabled (stream_life s) EClose = true →
  wp (uvMaybeClose p) (λ _ w', ∃ s', w_mem w' = <[p := (ByJe, CStream s')]> (w_mem w) ∧
    stream_inv w' p s' ∧ Live (stream_life s') = life_after (stream_life s) EClose) w.
Proof.
  intros Hp [Hs Hi Hd [L1 [L2 L3]] Hc Hpr] En. eapply wp_uvMaybeClose; [done|done|].
  destruct (h_closing (s_h s)) eqn:E.
  - exists s. split_and!.
    + by rewrite insert_id.
    + by split.
    + unfold stream_life in *. simpl in *. by rewrite E.
  - eexists. split; [reflexivity|]. split; [split; stream_simpl|]; try done.
    + intros a. world_simpl. erewrite owned_update by done. stream_simpl. specialize (Hs a). lia.
Qed.

Lemma stream_close_cb_spec w p s :
  w_mem w !! p = Some (ByJe, CStream s) → stream_inv w p s → enabled (stream_life s) ECloseCb = true →
  wp (close_done p) (λ _ w',
    match life_after (stream_life s) ECloseCb with
    | Freed => w_mem w' = delete p (w_mem w)
    | Live l => ∃ s', w_mem w' = <[p := (ByJe, CStream s')]> (w_mem w) ∧ stream_inv w' p s' ∧ stream_life s' = l
    end) w.
Proof.
  intros Hp [Hs Hi Hd [L1 [L2 L3]] Hc Hpr] En. simpl in *. apply andb_prop in En as [Ecl Ec].
  unfold close_done, uvStreamCloseCb. wp_step. get_stream. wp_step. put_stream.
  wp_step. eapply wp_handle_stream; [lookup_tac|done|]. wp_step. get_stream. wp_step. put_stream.
  stream_simpl. wp_step.
  - eapply wp_c_free; [lookup_tac|stream_simpl; simpl; by world_simpl|]. world_simpl. by rewrite !delete_insert_eq.
  - wp_step. eexists. split; [world_simpl; by rewrite insert_insert_eq|]. split; [split; stream_simpl|]; try done.
    + intros a. world_simpl. owned_simpl. stream_simpl. specialize (Hs a). lia.
    + unfold stream_life. stream_simpl. simpl. by rewrite E, Ecl.
Qed.

Lemma stream_finalize_spec w p s :
  w_mem w !! p = Some (ByJe, CStream s) → stream_inv w p s → enabled (stream_life s) EFinalize = true →
  wp (ijStreamFinalizer (Some p)) (λ _ w',
    match life_after (stream_life s) EFinalize with
    | Freed => w_mem w' = delete p (w_mem w)
    | Live l => ∃ s', w_mem w' = <[p := (ByJe, CStream s')]> (w_mem w) ∧ stream_inv w' p s' ∧ stream_life s' = l
    end) w.
Proof.
  intros Hp [Hs Hi Hd [L1 [L2 L3]] Hc Hpr] En. simpl in *. unfold ijStreamFinalizer.
  rewrite negb_involutive in En. destruct (Hpr (proj1 (Z.eqb_eq _ _) En)) as [Hpr1 Hpr2].
  assert (Hown : ∀ a, cnt a (own_promise (s_read_result s)) + cnt a (own_promise (s_accept_result s)) ≤ rc w a).
  { intros a. specialize (Hs a). pose proof (owned_lookup _ a _ _ _ Hp). simpl in *. rewrite cnt_app in *. lia. }
  wp_step. eapply wp_ijFreePromiseRT; [done|done| |].
  { intros a. specialize (Hown a). pose proof (droppable_holds a _ Hpr2). pose proof (cnt_nonneg a (own_promise (s_read_result s))). lia. }
  intros w1 E1 M1 R1 C1. wp_step.
  eapply (wp_ijFreePromiseRT (Place p FRead) ByJe _ (s_read_result s)); [lookup_tac|done| |].
  { intros a. specialize (Hown a). pose proof (droppable_holds a _ Hpr2) as Ha.
    pose proof (droppable_holds a _ Hpr1) as Hb. world_simpl. autorewrite with world in Ha, Hb. lia. }
  intros w2 E2 M2 R2 C2. wp_step. get_stream. wp_step. put_stream. stream_simpl. wp_step.
  - eapply wp_c_free; [lookup_tac|stream_simpl; simpl; by rewrite h_open_closed by congruence|].
    world_simpl. cbn [pl_block]. by rewrite !delete_insert_eq.
  - set (s' := with_finalized 1 _).
    set (w3 := set_mem _ w2).
    assert (Hm3 : w_mem w3 = <[p := (ByJe, CStream s')]> (w_mem w)).
    { subst w3. world_simpl. cbn [pl_block]. by rewrite !insert_insert_eq. }
    assert (Hs3 : safe w3).
    { intros a. rewrite Hm3. erewrite owned_update by done. subst w3 s'. specialize (Hs a).
      pose proof (droppable_holds a _ Hpr2) as Ha. pose proof (droppable_holds a _ Hpr1) as Hb.
      autorewrite with world in Ha, Hb. world_simpl. stream_simpl. world_simpl. lia. }
    clearbody w3. eapply (wp_uvMaybeClose _ _ s'); [by rewrite Hm3, lookup_insert_eq|done|].
    change (s_h s') with (s_h s). destruct (h_closing (s_h s)) eqn:Ecl.
    + exists s'. split; [done|]. split; [split; try done; try (unfold s'; stream_simpl; by rewrite E)|].
      * unfold stream_life, life_ok, s'. stream_simpl. simpl. by rewrite E, Ecl.
      * unfold stream_life, s'. stream_simpl. by rewrite E, Ecl.
    + eexists. split; [world_simpl; rewrite insert_insert_eq; reflexivity|].
      split; [split; try done; try (unfold s'; stream_simpl; by rewrite E)|].
      * intros a. specialize (Hs3 a). world_simpl. revert Hs3. rewrite Hm3. owned_simpl. stream_simpl. lia.
      * unfold stream_life, life_ok, s'. stream_simpl. simpl. by rewrite E.
      * unfold stream_life, s'. stream_simpl. by rewrite E.
Qed.

#[export] Instance stream_lifecycle : Lifecycle IJJSStream := {|
  lc_wrap := CStream;
  lc_life := stream_life;
  lc_inv := stream_inv;
  lc_close := uvMaybeClose;
  lc_close_cb := close_done;
  lc_finalize := λ p, ijStreamFinalizer (Some p);
  lc_close_spec := stream_close_spec;
  lc_close_cb_spec := stream_close_cb_spec;
  lc_finalize_spec := stream_finalize_spec
|}.

(** C10: The life of a stream refines the abstract one: from construction on, any sequence of close
    calls, libuv close callbacks and the finalizer that the owners can perform runs without a fault;
    the structure is released exactly when both the close callback and the finalizer have run, and
    no other block changes. *)
Theorem stream_freed_once w p s es st :
  w_mem w !! p = Some (ByJe, CStream s) → stream_inv w p s → stream_life s = life0 →
  lrun (Live life0) es = Some st →
  wp (lexecs (St := IJJSStream) p es) (λ _ w', freed_once (St := IJJSStream) (w_mem w) p es w') w.
Proof. exact (lexecs_freed_once (St := IJJSStream) w p s es st). Qed.

(** A TCP stream at 10 with a read pending and its buffer at 11. *)
Definition stream1 : IJJSStream := mkStream 0 0 (handle_at UV_TCP 10) 1024 promise1 cleared.
Definition stream_world : World :=
  world_with 0 ∅ ∅ {[ 10%positive := (ByJe, CStream stream1); 11%positive := (ByJs, CBuf 1024) ]}.

Lemma stream_freed_once_witness :
  wp (lexecs (St := IJJSStream) 10%positive [EClose; ECloseCb; EFinalize]) (λ _ w', freed_once (St := IJJSStream) (w_mem stream_world) 10%positive [EClose; ECloseCb; EFinalize] w') stream_world.
Proof. apply (stream_freed_once stream_world 10%positive stream1 [EClose; ECloseCb; EFinalize] Freed); concrete. Defined.

(** ** The read callback *)

(** What the promise of a read is settled with. *)
Definition read_result (nread : Z) (v : JSValue) (w : World) : Prop :=
  if nread <? 0 then
    if nread =? UV_EOF then v = JS_UNDEFINED else error_value nread v w
  else uint8_value nread v w.

Definition read_rejects (nread : Z) : bool := (nread <? 0) && negb (nread =? UV_EOF).

(** The buffer libuv passes: allocated by [uvStreamAllocCb], NULL only with an error. *)
Definition read_buffer (w : World) (nread : Z) (base : option addr) : Prop :=
  match base with
  | None => nread < 0
  | Some b => ∃ n, w_mem w !! b = Some (ByJs, CBuf n)
  end.

Lemma wp_js_free_buf base w (Q : unit → World → Prop) :
  match base with None => True | Some b => ∃ n, w_mem w !! b = Some (ByJs, CBuf n) end →
  Q tt (match base with None => w | Some b => set_mem (delete b (w_mem w)) w end) →
  wp (js_free_opt base) Q w.
Proof.
  destruct base as [b|]; [|done]. intros (n & Hb) HQ. by eapply wp_c_free.
Qed.

(** The memory of [w] without the buffer. *)
Definition without (base : option addr) (m : gmap addr (allocator * cstruct)) : gmap addr (allocator * cstruct) :=
  match base with None => m | Some b => delete b m end.

Lemma wp_read_arg nread base (Q : JSValue * bool → World → Prop) w :
  read_buffer w nread base →
  (∀ v w', w_env w' = w_env w →
     (w_mem w' = without base (w_mem w) ∨ v = JS_EXCEPTION ∧ w_mem w' = w_mem w) →
     (∀ a, rc w' a = rc w a + cnt a (ref_of v)) →
     (∀ a b, w_cell w !! a = Some b → w_cell w' !! a = Some b) →
     holds w' (ref_of v) → read_result nread v w' → Q (v, read_rejects nread) w') →
  wp (if nread <? 0 then
      x ← (if nread =? UV_EOF then mret (JS_UNDEFINED, false)
           else e ← ijNewError nread ; mret (e, true)) ;
      js_free_opt base ;;
      mret x
    else
      data ← deref base ;
      v ← ijNewUint8Array data nread ;
      mret (v, false)) Q w.
Proof.
  intros Hb HQ. unfold read_result, read_rejects in HQ. destruct (nread <? 0) eqn:En; cbn [andb] in HQ.
  - assert (Hb' : match base with None => True | Some b => ∃ n, w_mem w !! b = Some (ByJs, CBuf n) end)
      by by destruct base.
    wp_step. destruct (nread =? UV_EOF) eqn:Ee; cbn [negb] in HQ.
    + wp_steps. apply wp_js_free_buf; [done|]. wp_steps.
      destruct base as [b|]; (apply HQ; [done|by left|intros a; world_simpl; lia|done|apply holds_nil|done]).
    + wp_step. eapply wp_giving; [apply giving_ijNewError|]. intros v w1 [E1 M1 R1 C1 H1] Hv. wp_steps.
      apply wp_js_free_buf; [by rewrite M1|]. wp_steps.
      destruct base as [b|];
        (apply HQ; [done|left; simpl; by rewrite M1|intros a; by world_simpl|done|done|done]).
  - destruct base as [b|]; [|simpl in Hb; apply Z.ltb_ge in En; lia].
    destruct Hb as (n & Hb). wp_steps. eapply wp_ijNewUint8Array; [done| |].
    + intros v w' [E1 M1 R1 C1 H1] Hv. wp_steps. apply HQ; try done. by left.
    + intros w' [E1 M1 R1 C1]. wp_steps. apply HQ; try done; [by right| |apply holds_nil|by left].
      intros a. rewrite R1. world_simpl. lia.
Qed.

(** The stream after the callback: not reading, no read pending. *)
Definition read_stopped (s : IJJSStream) : IJJSStream :=
  mkStream (s_closed s) (s_finalized s) (with_active false (s_h s)) (s_read_size s) cleared (s_accept_result s).



(** ** The callbacks of requests *)

Lemma sel_req c r :
  req_of c = Some r → sel FResult c = rq_result r ∧ handles c = [] ∧ own c = own_promise_opt (rq_result r).
Proof. by destruct c; simpl; intros; simplify_eq. Qed.

Lemma wp_get_req q al c r (Q : IJJSReq → World → Prop) w :
  w_mem w !! q = Some (al, c) → req_of c = Some r → Q r w → wp (get_req q) Q w.
Proof. intros Hq Hr HQ. unfold get_req. wp_step. eapply wp_load; [done|]. rewrite Hr. by wp_steps. Qed.

(** What the promise of a request is settled with. *)
Definition status_result (failed : bool) (status : Z) (v : JSValue) (w : World) : Prop :=
  if failed then error_value status v w else v = JS_UNDEFINED.

Lemma wp_status_arg (failed : bool) status (Q : JSValue * bool → World → Prop) w :
  (∀ v w', gives w w' (ref_of v) → status_result failed status v w' → Q (v, failed) w') →
  wp (if failed then e ← ijNewError status ; mret (e, true) else mret (JS_UNDEFINED, false)) Q w.
Proof.
  intros HQ. destruct failed.
  - wp_step. eapply wp_giving; [apply giving_ijNewError|]. intros v w' Hg Hv. wp_steps. by apply HQ.
  - wp_steps. apply HQ; [|done]. by apply gives_quiet.
Qed.

(** A request in flight on the stream at [p], with its promise pending. *)
Record in_flight (w : World) (q : addr) (c : cstruct) (p pa : addr) : Prop := {
  fl_mem : w_mem w !! q = Some (ByJs, c);
  fl_req : ∃ r pr, req_of c = Some r ∧ rq_handle r = Some p ∧ rq_data r = Some q ∧
                   rq_result r = Some pr ∧ pending_at w pr pa;
  fl_stream : ∃ s, w_mem w !! p = Some (ByJe, CStream s) ∧ h_data (s_h s) = Some p
}.

Lemma settle_req_spec w q c p pa failed status :
  safe w → in_flight w q c p pa →
  wp (settle_req q failed status) (λ _ w',
    balanced w w' [] ∧ w_mem w' = delete q (w_mem w) ∧
    ∃ v, w_cell w' !! pa = Some (BPromise (if failed then Rejected v else Fulfilled v)) ∧
         status_result failed status v w') w.
Proof.
  intros Hs [Hq (r & pr & Hr & Hh & Hd & Hres & Hp) (s & Hsm & Hsd)].
  destruct (sel_req c r Hr) as (Hsel & Hhan & Hownc). unfold settle_req, req_stream, req_data.
  do 2 wp_step. eapply wp_get_req; [done|done|]. rewrite Hh. wp_steps. eapply wp_handle_stream; [done|done|].
  do 2 wp_step. eapply wp_get_req; [done|done|]. rewrite Hd. wp_step. wp_step. apply wp_status_arg.
  intros v w1 [E1 M1 R1 C1 H1] Hv. cbv beta iota.
  assert (Hown : ∀ a, cnt a (own_promise pr) ≤ rc w a).
  { intros a. specialize (Hs a). pose proof (owned_lookup _ a _ _ _ Hq) as Ho.
    rewrite Hownc, Hres in Ho. simpl in Ho. lia. }
  wp_step. eapply (wp_ijSettlePromise (Place q FResult) _ [v] ByJs c pr pa);
    [by rewrite M1|by cbn [pl_field]; rewrite Hsel|by eapply pending_kept| |].
  { intros a. specialize (Hown a). rewrite R1. world_simpl. count_facts a. lia. }
  intros w2 St. pose proof St as [E2 M2 R2 C2]. specialize (M2 ByJs c). rewrite M1 in M2. specialize (M2 Hq).
  cbn [pl_block pl_field] in M2.
  eapply wp_c_free; [rewrite M2; apply lookup_insert_eq|by rewrite handles_upd, Hhan|]. split_and!.
  - intros a. unfold excess. world_simpl. rewrite delete_insert_eq. erewrite owned_delete by done.
    rewrite Hownc, Hres. simpl own_promise_opt. lia.
  - world_simpl. by rewrite delete_insert_eq.
  - exists v. split.
    + world_simpl. rewrite lookup_insert_eq. by destruct failed.
    + assert (Hpa : w_cell w1 !! pa = Some (BPromise Pending)) by apply C1, Hp.
      revert Hv. unfold status_result. destruct failed; [|done].
      apply (error_value_settled _ _ _ _ _ _ _ Hpa C2).
Qed.

(** A request in flight at 12 on the stream at 10. *)
Definition request1 : IJJSReq := mkReq (Some 10%positive) (Some 12%positive) (Some promise1).
Definition request_world : World :=
  world_with 0 ∅ ∅ {[ 10%positive := (ByJe, CStream (mkStream 0 0 (handle_at UV_TCP 10) 0 cleared cleared));
                      12%positive := (ByJs, CShutdownReq request1) ]}.

(** ** Methods *)

(** The stream while a read with buffers of [size] bytes is pending on [pr]. *)
Definition reading (size : Z) (pr : IJJSPromise) (s : IJJSStream) : IJJSStream :=
  mkStream (s_closed s) (s_finalized s) (with_active true (s_h s)) size pr (s_accept_result s).

(** A field whose promise has been cleared. *)
Definition no_promise (pr : IJJSPromise) : Prop := JS_IsUndefined (p_p pr) = true ∧ p_valid pr = false.

Lemma no_promise_own pr : no_promise pr → own_promise pr = [].
Proof. intros [_ H]. unfold own_promise. by rewrite H. Qed.

Lemma stream_read_spec w p s argv :
  w_mem w !! p = Some (ByJe, CStream s) → (0 < length argv)%nat →
  no_promise (s_read_result s) →
  wp (ijStreamRead (Some p) argv) (λ v w',
    balanced w w' (ref_of v) ∧
    (v = JS_EXCEPTION ∨
     ∃ pa pr size, v = JS_REF pa ∧ 0 ≤ size < 2 ^ 53 ∧ pending_at w' pr pa ∧
       w_mem w' = <[p := (ByJe, CStream (reading size pr s))]> (w_mem w))) w.
Proof.
  intros Hp Hl Hn. pose proof Hn as [Hu Hv]. unfold ijStreamRead. wp_step. get_stream.
  rewrite Hu. cbn [negb]. destruct argv as [|a0 argv]; [simpl in Hl; lia|].
  wp_step. eapply wp_arg_at; [done|].
  wp_step. eapply (wp_quietly _ (in_range 0 (2 ^ 53))).
  { apply quietly_default; [apply quietly_ToIndex|]. intros z [= <-]. unfold IJJS_DEFAULt_READ_SIZE. lia. }
  intros [size|] w1 Ho Hq; [|wp_steps; split; [by apply quiet_balanced|by left]].
  wp_step. get_stream. wp_step. put_stream. unfold uv_read_start. do 3 wp_step.
  wp_step. get_stream. wp_step. put_stream. wp_step. unfold started.
  set (w2 := set_mem _ _).
  assert (Hm2 : w_mem w2 = <[p := (ByJe, CStream (with_h (if r =? 0 then with_active true (s_h s) else s_h s)
      (with_read_size size s)))]> (w_mem w)).
  { subst w2. world_simpl. by rewrite insert_insert_eq. }
  assert (Hr2 : ∀ a, rc w2 a = rc w a) by (intros a; subst w2; by world_simpl).
  clearbody w2. wp_step.
  - wp_step. split; [|by left]. subst. ledger; stream_simpl; lia.
  - apply negb_false_iff in E. rewrite E in Hm2.
    assert (Hlk : w_mem w2 !! pl_block (Place p FRead) = Some (ByJe, CStream (with_h (with_active true (s_h s))
      (with_read_size size s)))) by lookup_tac.
    eapply wp_ijInitPromise; [done| |]; intros w3.
    + intros pr pa Hi. split.
      * intros a. rewrite (initialised_excess _ _ _ _ _ _ _ a Hlk eq_refl Hi). stream_simpl.
        simpl own_promise_opt. rewrite no_promise_own by done. revert a. ledger; stream_simpl; lia.
      * right. exists pa, pr, size. split_and!; [done|by apply Ho|by apply Ho|apply Hi|].
        rewrite (init_mem _ _ _ _ _ Hi _ _ Hlk), Hm2. cbn [pl_block]. by rewrite insert_insert_eq.
    + intros Hi. split; [|by left]. intros a. rewrite (init_failed_excess _ _ _ _ _ a Hlk); [|by apply no_promise_own|done].
      revert a. ledger; stream_simpl; lia.
Qed.

(** A stream at 10 on which nothing is pending, and a typed array at 21 over the buffer at 20. *)
Definition idle_stream : IJJSStream := mkStream 0 0 (handle_at UV_TCP 10) 0 cleared cleared.
Definition idle_world : World :=
  world_with 0 {[ 20%positive := BArrayBuffer (lit "hello"); 21%positive := BTypedArray 20 0 5 ]} ∅
    {[ 10%positive := (ByJe, CStream idle_stream) ]}.

(** The bytes of a typed array. *)
Definition array_bytes (v : JSValue) (w : World) : option bytes :=
  match body_of v w with
  | Some (BTypedArray b off len) =>
      match w_cell w !! b with
      | Some (BArrayBuffer data) => Some (take (Z.to_nat len) (drop (Z.to_nat off) data))
      | _ => None
      end
  | _ => None
  end.

Definition is_string (v : JSValue) (w : World) : bool :=
  match body_of v w with Some (BString _) => true | _ => false end.

Lemma wp_write_data_array v (Q : option (bytes * option addr) → World → Prop) w :
  nonneg w → is_string v w = false →
  (∀ data w', array_bytes v w = Some data → quiet w w' → Q (Some (data, None)) w') →
  (∀ w', quiet w w' → Q None w') → wp (write_data v) Q w.
Proof.
  intros Hn Hs H1 H2. unfold write_data, JS_IsString. wp_step. wp_step.
  change (match body_of v w with Some (BString _) => true | _ => false end) with (is_string v w).
  rewrite Hs. wp_step. apply wp_GetTypedArrayBuffer; [|intros w' Hq; wp_step; by apply H2].
  intros b off len Hb. wp_step. apply wp_GetArrayBuffer.
  - intros data Hd. simpl in Hd. world_simpl_in Hd. wp_step. apply wp_FreeValue; [nonneg_by Hn|]. wp_step.
    apply H1; [|by apply quiet_temp_ref]. unfold array_bytes. by rewrite Hb, Hd.
  - intros w' Hq. wp_step. apply wp_FreeValue; [nonneg_by Hn|]. wp_step. by apply H2, quiet_temp_ref.
Qed.



(** A request submitted to libuv: in flight if its promise could be made. *)
Lemma submitted_in_flight w w3 q c' p s pr pa :
  w_mem w !! q = None → w_mem w !! p = Some (ByJe, CStream s) → h_data (s_h s) = Some p →
  w_mem w3 = <[q := (ByJs, c')]> (w_mem w) →
  (∃ r, req_of c' = Some r ∧ rq_handle r = Some p ∧ rq_data r = Some q ∧ rq_result r = Some pr) →
  pending_at w3 pr pa → in_flight w3 q c' p pa.
Proof.
  intros Hq Hp Hd Hm (r & H1 & H2 & H3 & H4) Hpend. split.
  - rewrite Hm. apply lookup_insert_eq.
  - by exists r, pr.
  - exists s. rewrite Hm. split; [|done]. by rewrite lookup_insert_ne by congruence.
Qed.

Lemma stream_shutdown_spec w p s argv :
  w_mem w !! p = Some (ByJe, CStream s) → h_data (s_h s) = Some p →
  wp (ijStreamShutdown (Some p) argv) (λ v w',
    balanced w w' (ref_of v) ∧
    (v = JS_EXCEPTION ∨ ∃ pa q req, v = JS_REF pa ∧ in_flight w' q (CShutdownReq req) p pa)) w.
Proof.
  intros Hp Hd. unfold ijStreamShutdown. wp_step. apply wp_js_malloc; last first.
  { intros w2 Hq2. wp_steps. split; [|by left]. ledger. }
  intros q Hq. world_simpl_in Hq. wp_steps; [split; [|by left]; ledger|].
  eapply (wp_init_new q ByJs (CShutdownReq (mkReq (Some p) (Some q) None)) _ w);
    [done|world_simpl; by rewrite !insert_insert_eq|by intros a; world_simpl|done|done|done| |].
  - intros w3 pr pa Hb Hm3 Hpend _. split; [done|]. right. exists pa, q, (mkReq (Some p) (Some q) (Some pr)). split; [done|].
    eapply submitted_in_flight; [done|done|done|exact Hm3| |exact Hpend]. eexists. by split_and!.
  - intros w3 Hb _ _. split; [done|by left].
Qed.

(** ** Construction *)

(** A stream as [ijInitStream] leaves it. *)
Definition new_stream_state (t : uv_type) (p : addr) : IJJSStream :=
  mkStream 0 0 (mkHandle t true false false false (Some p)) 0 cleared cleared.

Lemma new_stream_spec c t init msg w (Q : JSValue → World → Prop) :
  quietly init (λ _, True) →
  (∀ a p w', w_env w' = w_env w → w_mem w !! p = None →
     w_mem w' = <[p := (ByJe, CStream (new_stream_state t p))]> (w_mem w) →
     (∀ x, rc w' x = rc w x + cnt x [a]) → holds w' [a] →
     (∀ x b, w_cell w !! x = Some b → w_cell w' !! x = Some b) →
     w_cell w' !! a = Some (BClass c (Some p)) → Q (JS_REF a) w') →
  (∀ w', quiet w w' → Q JS_EXCEPTION w') →
  wp (new_stream c t init msg) Q w.
Proof.
  intros Hinit H1 H2. unfold new_stream, JS_NewObjectClass. wp_step. apply wp_try_new; last first.
  { intros w' Hq. wp_steps. by apply H2. }
  intros a Ha Ra. cbn [JS_IsException]. wp_step. set (w1 := new_cell _ _ _).
  assert (Hg1 : gives w w1 [a]).
  { eapply quiet_gives; [apply (quiet_log_ev (Ev "JS_NewObjectClass" []))|]. by apply gives_new_cell. }
  assert (Hc1 : w_cell w1 !! a = Some (BClass c None)) by apply lookup_insert_eq.
  assert (Hback : ∀ w2, quiet w1 w2 → quiet w (drop_ref (JS_REF a) w2)).
  { intros w2 Hq. pose proof (gives_then_quiet _ _ _ _ Hg1 Hq) as [E2 M2 R2 C2 H3].
    split; world_simpl; try done. intros x. world_simpl. lia. }
  assert (Hh : ∀ w2, quiet w1 w2 → holds w2 [a]).
  { intros w2 Hq x. rewrite (quiet_rc _ _ Hq). apply (gives_holds _ _ _ Hg1). }
  clearbody w1. apply wp_je_calloc; last first.
  { wp_step. apply wp_FreeValue; [apply Hh, quiet_log_ev|]. wp_steps. apply H2, Hback, quiet_log_ev. }
  intros p Hp. wp_step. eapply wp_quietly; [exact Hinit|]. intros r w2 _ Hq2.
  assert (Hlk : w_mem w2 !! p = Some (ByJe, CStream (stream0 t))) by lookup_tac.
  assert (Hpw : w_mem w !! p = None) by by rewrite <- (gives_mem _ _ _ Hg1).
  wp_step.
  - wp_step. apply wp_FreeValue.
    { eapply holds_rc; [|exact (gives_holds _ _ _ Hg1)]. intros x. by world_simpl. }
    wp_step. eapply wp_c_free; [lookup_tac|done|].
    set (w3 := set_mem _ _). assert (Hq3 : quiet w w3).
    { subst w3. destruct Hg1 as [E1 M1 R1 C1 H3], Hq2 as [E2 M2 R2 C2]. split.
      - world_simpl. by rewrite E2.
      - world_simpl. by rewrite delete_insert_id.
      - intros x. world_simpl. lia.
      - intros x b Hx. world_simpl. eauto. }
    clearbody w3. wp_step. apply H2. by etrans.
  - wp_step. get_stream. wp_step. put_stream. unfold ijInitStream. wp_step. get_stream. wp_step. put_stream.
    wp_step. eapply wp_ijClearPromise; [lookup_tac|]. wp_step. eapply wp_ijClearPromise; [lookup_tac|].
    wp_step. unfold JS_SetOpaque. wp_steps. destruct Hg1 as [E1 M1 R1 C1 H3].
    assert (Hr : ∀ x, rc w2 x = rc w1 x) by (intros x; by world_simpl).
    assert (Hc2 : ∀ x b, w_cell w1 !! x = Some b → w_cell w2 !! x = Some b) by (intros x b; apply (quiet_cell _ _ Hq2)).
    apply (H1 a p); [by world_simpl|done| | | | |].
    + world_simpl. cbn [pl_block]. by rewrite !insert_insert_eq.
    + intros x. by rewrite rc_update_cell, !rc_set_mem, Hr, R1.
    + eapply holds_rc; [|exact H3]. intros x. by rewrite rc_update_cell, !rc_set_mem, Hr.
    + intros x b Hx. world_simpl. rewrite lookup_alter_ne by (intros ->; congruence). by apply Hc2, C1.
    + world_simpl. rewrite lookup_alter_eq, (Hc2 _ _ Hc1). done.
Qed.

(** The objects the constructors make satisfy the stream invariant, with the handle open. *)
Lemma new_stream_inv w w' t a p :
  safe w → w_mem w !! p = None →
  w_mem w' = <[p := (ByJe, CStream (new_stream_state t p))]> (w_mem w) →
  (∀ x, rc w' x = rc w x + cnt x [a]) →
  stream_inv w' p (new_stream_state t p) ∧ stream_life (new_stream_state t p) = life0.
Proof.
  intros Hs Hp Hm Hr. split; [split; try done|done].
  - intros x. specialize (Hs x). rewrite Hm, owned_insert, Hr by done. simpl own. rewrite cnt_nil.
    pose proof (cnt_nonneg x [a]). lia.
  - intros _. split; right; apply idle_cleared.
Qed.

Lemma own_new_stream t p : own (CStream (new_stream_state t p)) = [].
Proof. done. Qed.

Theorem new_tcp_spec w af :
  safe w →
  wp (ijNewTcp af) (λ v w',
    v = JS_EXCEPTION ∧ balanced w w' [] ∧ w_mem w' = w_mem w ∨
    ∃ a p, v = JS_REF a ∧ balanced w w' [a] ∧ w_cell w' !! a = Some (BClass cls_tcp (Some p)) ∧
      w_mem w' = <[p := (ByJe, CStream (new_stream_state UV_TCP p))]> (w_mem w) ∧
      stream_inv w' p (new_stream_state UV_TCP p) ∧ stream_life (new_stream_state UV_TCP p) = life0) w.
Proof.
  intros Hs. apply new_stream_spec; [apply quietly_ask| |].
  - intros a p w' _ Hp Hm Hr _ _ Hc. right. exists a, p.
    split_and!; [done| |done|done|by eapply (new_stream_inv w w')..].
    intros x. unfold excess. rewrite Hm, owned_insert, Hr by done. cbn [snd]. rewrite own_new_stream, (cnt_nil x). lia.
  - intros w' Hq. left. split_and!; [done| |by apply quiet_mem].
    intros x. unfold excess. rewrite (quiet_mem _ _ Hq), (quiet_rc _ _ Hq), cnt_nil. lia.
Qed.

(** ** Faults *)

(** A string written in part: [buf] has moved when it is freed. *)
Lemma write_partial_string_faults w p v s r argv :
  body_of v w = Some (BString s) →
  (∀ l, e_int (w_env w) (Ev "uv_try_write" [AP p; AB s] :: l) = r) → 0 < r < Z.of_nat (length s) →
  (∀ l, e_int (w_env w) (Ev "js_malloc" [] :: l) = 0) →
  ijStreamWrite (Some p) (v :: argv) w = Fault BadFree.
Proof.
  intros Hv Hr Hrange Hm. unfold ijStreamWrite. apply fault_bind. eapply wp_arg_at; [done|].
  apply fault_bind. unfold write_data, JS_IsString. do 2 wp_step. rewrite Hv. wp_step.
  eapply wp_ToCString_str; [done|]. intros q Hq. wp_step.
  apply fault_bind. apply wp_ask_eq. intros r' ->. world_simpl. rewrite Hr.
  rewrite (proj2 (Z.eqb_neq _ _)) by lia. apply fault_bind. unfold js_malloc. wp_step. apply wp_ask_eq.
  intros r' ->. world_simpl. rewrite Hm. change (0 =? 0) with true. cbv iota. wp_step. apply wp_c_alloc.
  intros q2 Hq2. wp_step. apply fault_bind. wp_step. apply fault_first. unfold free_cstring_at.
  rewrite (proj2 (Z.leb_le 0 r)) by lia. by rewrite (proj2 (Z.eqb_neq r 0)) by lia.
Qed.

(** [tcp.bind(addr)] reads argv[1], but "bind" is registered with one argument. *)
Lemma tcp_bind_one_argument_faults w p o obj ps ip s port ss f :
  find_cfunction "bind" ijjs_tcp_proto_funcs = Some f →
  nonneg w → w_cell w !! o = Some (BClass cls_tcp (Some p)) →
  body_of obj w = Some (BObject ps) → assoc "ip" ps = Some (JS_REF ip) →
  w_cell w !! ip = Some (BString s) → assoc "port" ps = Some (JS_INT port) →
  parse_addr (w_env w) s (unsigned32 port) = Some ss →
  call_cfunction f (JS_REF o) [obj] w = Fault OutOfBounds.
Proof.
  intros Hf Hn Ho Hb Hip Hs Hport Hss. injection Hf as <-. unfold call_cfunction. cbn [cf_func CFUNC cf_length].
  change (pad_args 1 [obj]) with [obj]. unfold ijTcpBind, ijTcpGet.
  apply fault_bind. eapply wp_GetOpaque2_class; [done|]. apply fault_bind. eapply wp_arg_at; [done|].
  apply fault_bind. eapply wp_ijObj2Addr_plain; [done|done|done|done|done|]. intros w' Hq.
  rewrite Hss. by apply fault_first.
Qed.

(** A connection arrives, an accept is pending, and the TCP object cannot be made. *)
Lemma connection_without_object_faults w p s :
  w_mem w !! p = Some (ByJe, CStream s) → h_data (s_h s) = Some p → h_type (s_h s) = UV_TCP →
  JS_IsUndefined (p_p (s_accept_result s)) = false →
  (∀ l, e_int (w_env w) (Ev "JS_NewObjectClass" [] :: l) ≠ 0) →
  uvStreamConnectionCb p 0 w = Fault NullDeref.
Proof.
  intros Hp Hd Ht Ha He. unfold uvStreamConnectionCb. apply fault_bind. eapply wp_handle_stream; [done|done|].
  apply fault_bind. get_stream. rewrite Ha. apply fault_first. cbn [Z.eqb].
  apply fault_bind. get_stream. rewrite Ht. apply fault_bind. wp_step.
  unfold ijNewTcp, new_stream, JS_NewObjectClass, js_try_new. wp_step. wp_step. apply wp_ask_eq. intros r ->.
  rewrite (proj2 (Z.eqb_neq _ _)) by apply He. wp_steps. unfold ijTcpGet. apply wp_GetOpaque2; [done|].
  intros w1 Hq1. wp_steps. done.
Qed.
