(* ===== verification/Timers.v ===== *)
(** * Timers: ijtimers.c

    A timer owns its callback, the callback's arguments and a reference to its own
    object, so a running timer keeps itself alive; clearing it drops all of them.
    What the callback does is a parameter: a computation that may call the timer
    functions again. *)

From S2P Require Import Prelude State Runtime Logic Promise.

Definition get_timer (p : addr) : M IJJSTimer :=
  c ← load p ; match c with CTimer t => mret t | _ => fail TypeConfusion end.
Definition put_timer (p : addr) (t : IJJSTimer) : M unit := store p (CTimer t).

Definition with_handle (h : uv_handle) (t : IJJSTimer) : IJJSTimer :=
  mkTimer h (t_interval t) (t_obj t) (t_func t) (t_argc t) (t_argv t).

(** [th->argv[i] = JS_UNDEFINED] *)
Definition set_arg (i : nat) (t : IJJSTimer) : IJJSTimer :=
  mkTimer (t_handle t) (t_interval t) (t_obj t) (t_func t) (t_argc t) (<[i := JS_UNDEFINED]> (t_argv t)).

(** The loop over the arguments, from [i] on, [n] of them left. *)
Fixpoint clear_args (p : addr) (i n : nat) : M unit :=
  match n with
  | O => mret tt
  | S n' =>
      t ← get_timer p ;
      v ← arg_at (t_argv t) i ;
      JS_FreeValue v ;;
      t ← get_timer p ;
      put_timer p (set_arg i t) ;;
      clear_args p (S i) n'
  end.

Definition ijClearTimer (p : addr) : M unit :=
  t ← get_timer p ;
  JS_FreeValue (t_func t) ;;
  t ← get_timer p ;
  put_timer p (mkTimer (t_handle t) (t_interval t) (t_obj t) JS_UNDEFINED (t_argc t) (t_argv t)) ;;
  clear_args p 0 (Z.to_nat (t_argc t)) ;;
  t ← get_timer p ;
  put_timer p (mkTimer (t_handle t) (t_interval t) JS_UNDEFINED (t_func t) 0 (t_argv t)) ;;
  JS_FreeValue (t_obj t).

(** [user] is the JavaScript function: its effects, and its result. *)
Definition ijCallTimer (user : M JSValue) (p : addr) : M unit :=
  t ← get_timer p ;
  func1 ← JS_DupValue (t_func t) ;
  log "JS_Call" (AV func1 :: (AV <$> t_argv t)) ;;
  ret ← user ;
  JS_FreeValue func1 ;;
  (if JS_IsException ret then ijDumpError else mret tt) ;;
  JS_FreeValue ret.

Definition timer_data (handle : addr) : M addr :=
  t ← get_timer handle ;
  CHECK_NOT_NULL (h_data (t_handle t)).

Definition uvTimerClose (handle : addr) : M unit :=
  p ← timer_data handle ;
  je_free p.

(** [jobs] is ijExecuteJobs, which runs pending JavaScript jobs. *)
Definition uvTimerCb (jobs : M unit) (user : M JSValue) (handle : addr) : M unit :=
  p ← timer_data handle ;
  jobs ;;
  ijCallTimer user p ;;
  t ← get_timer p ;
  if t_interval t =? 0 then ijClearTimer p else mret tt.

Definition ijTimerFinalizer (val : JSValue) : M unit :=
  th ← JS_GetOpaque val cls_timer ;
  match th with
  | None => mret tt
  | Some p =>
      ijClearTimer p ;;
      t ← get_timer p ;
      h ← uv_close (t_handle t) ;
      put_timer p (with_handle h t)
  end.

Definition ijTimerMark (val : JSValue) : M (list JSValue) :=
  th ← JS_GetOpaque val cls_timer ;
  match th with
  | None => mret []
  | Some p => t ← get_timer p ; mret (t_func t :: take (Z.to_nat (t_argc t)) (t_argv t))
  end.

Definition timer0 : IJJSTimer := mkTimer (handle0 UV_TIMER) 0 (JS_INT 0) (JS_INT 0) 0 [].

(** [argc] is the number of arguments of the call; with fewer than two the block is
    smaller than the structure, and the assignment to [func] writes past it. *)
Definition ijSetTimeout (magic : Z) (this : JSValue) (argc : nat) (argv : list JSValue) : M JSValue :=
  func ← arg_at argv 0 ;
  isf ← JS_IsFunction func ;
  if negb isf then JS_ThrowTypeError "not a function"
  else
    a1 ← arg_at argv 1 ;
    o ← JS_ToInt64 a1 ;
    match o with
    | None => mret JS_EXCEPTION
    | Some delay =>
        obj ← JS_NewObjectClass cls_timer ;
        if JS_IsException obj then mret obj
        else
          let nargs := Z.of_nat argc - 2 in
          th ← je_calloc (CTimer timer0) ;
          match th with
          | None => JS_FreeValue obj ;; mret JS_EXCEPTION
          | Some p =>
              r ← ask "uv_timer_init" [AP p] ;
              CHECK (r =? 0) ;;
              o1 ← JS_DupValue obj ;
              f1 ← JS_DupValue func ;
              (if nargs <? 0 then fail Overflow else mret tt) ;;
              args ← dup_values (take (Z.to_nat nargs) (drop 2 argv)) ;
              put_timer p (mkTimer (with_data (Some p) (handle_init (handle0 UV_TIMER))) magic o1 f1 nargs args) ;;
              r ← ask "uv_timer_start" [AP p; AZ (unsigned64 delay); AZ (if magic =? 0 then 0 else unsigned64 delay)] ;
              CHECK (r =? 0) ;;
              t ← get_timer p ;
              put_timer p (with_handle (with_active true (t_handle t)) t) ;;
              JS_SetOpaque obj p ;;
              mret obj
          end
    end.

Definition ijClearTimeout (this : JSValue) (argv : list JSValue) : M JSValue :=
  a0 ← arg_at argv 0 ;
  th ← JS_GetOpaque2 a0 cls_timer ;
  match th with
  | None => mret JS_EXCEPTION
  | Some p =>
      t ← get_timer p ;
      put_timer p (with_handle (with_active false (t_handle t)) t) ;;
      ijClearTimer p ;;
      mret JS_UNDEFINED
  end.

Definition ijjs_timer_funcs : list cfunction :=
  [ mkCFunction "setTimeout" 2 (ijSetTimeout 0); CFUNC "clearTimeout" 1 ijClearTimeout;
    mkCFunction "setInterval" 2 (ijSetTimeout 1); CFUNC "clearInterval" 1 ijClearTimeout ]%string.
