(* ===== verification/TimersProofs.v ===== *)
(** * Proofs about timers *)

From S2P Require Import Prelude State Runtime Logic Promise Worlds Timers.

Lemma wp_get_timer p al t (Q : IJJSTimer → World → Prop) w :
  w_mem w !! p = Some (al, CTimer t) → Q t w → wp (get_timer p) Q w.
Proof. intros Hp HQ. unfold get_timer. wp_step. eapply wp_load; [done|]. by wp_steps. Qed.

Lemma wp_put_timer p al c t (Q : unit → World → Prop) w :
  w_mem w !! p = Some (al, c) → Q tt (set_mem (<[p := (al, CTimer t)]> (w_mem w)) w) →
  wp (put_timer p t) Q w.
Proof. intros Hp HQ. unfold put_timer. by eapply wp_store. Qed.

Ltac get_timer := eapply wp_get_timer; [lookup_tac|].
Ltac put_timer := eapply wp_put_timer; [lookup_tac|].

(** ** Clearing *)

(** [argc] counts the arguments still owned; the others have been cleared. *)
Definition timer_args_ok (t : IJJSTimer) : Prop :=
  0 ≤ t_argc t ≤ Z.of_nat (length (t_argv t)) ∧ refs_of (drop (Z.to_nat (t_argc t)) (t_argv t)) = [].

Definition cleared_argv (i n : nat) (argv : list JSValue) : list JSValue :=
  take i argv ++ replicate n JS_UNDEFINED ++ drop (i + n) argv.

Lemma cleared_argv_insert i n argv :
  (i + S n ≤ length argv)%nat → cleared_argv (S i) n (<[i := JS_UNDEFINED]> argv) = cleared_argv i (S n) argv.
Proof.
  intros Hl. unfold cleared_argv. rewrite (drop_insert_lt argv) by lia.
  replace (S i + n)%nat with (i + S n)%nat by lia.
  rewrite (take_S_r _ i JS_UNDEFINED) by (rewrite list_lookup_insert_eq by lia; done).
  rewrite take_insert_ge by lia. by rewrite <- app_assoc.
Qed.

(** The timer with its arguments [i..i+n) cleared. *)
Definition with_argv (l : list JSValue) (t : IJJSTimer) : IJJSTimer :=
  mkTimer (t_handle t) (t_interval t) (t_obj t) (t_func t) (t_argc t) l.

Lemma wp_clear_args p al n i t (Q : unit → World → Prop) w :
  w_mem w !! p = Some (al, CTimer t) → (i + n ≤ length (t_argv t))%nat →
  holds w (refs_of (take n (drop i (t_argv t)))) →
  (∀ w', w_env w' = w_env w → w_cell w' = w_cell w →
     w_mem w' = <[p := (al, CTimer (with_argv (cleared_argv i n (t_argv t)) t))]> (w_mem w) →
     (∀ a, rc w' a = rc w a - cnt a (refs_of (take n (drop i (t_argv t))))) → Q tt w') →
  wp (clear_args p i n) Q w.
Proof.
  revert i t w; induction n as [|n IH]; intros i t w Hp Hl Hh HQ; simpl.
  { wp_step. apply HQ; try done.
    - unfold cleared_argv. simpl. rewrite Nat.add_0_r, take_drop. rewrite insert_id; [done|].
      rewrite Hp. by destruct t.
    - intros a. rewrite take_0. world_simpl. lia. }
  destruct (t_argv t !! i) as [v|] eqn:Hv; [|apply lookup_ge_None in Hv; lia].
  rewrite (drop_S _ v i Hv) in Hh, HQ. cbn [firstn] in Hh, HQ. rewrite refs_of_cons in Hh, HQ.
  wp_step. get_timer. wp_step. eapply wp_arg_at; [done|].
  wp_step. apply wp_FreeValue; [holds_by Hh|].
  wp_step. get_timer. wp_step. put_timer.
  eapply (IH (S i) (set_arg i t)); [lookup_tac|cbn [set_arg t_argv]; rewrite length_insert; lia| |].
  - cbn [set_arg t_argv]. rewrite drop_insert_lt by lia. holds_by Hh.
  - intros w' E1 C1 M1 R1. cbn [set_arg t_argv] in *. apply HQ.
    + by rewrite E1; world_simpl.
    + by rewrite C1; world_simpl.
    + rewrite M1. world_simpl. rewrite insert_insert_eq, cleared_argv_insert by lia. done.
    + intros a. rewrite R1. rewrite drop_insert_lt by lia. world_simpl. lia.
Qed.

(** A timer that owns nothing any more. *)
Definition timer_cleared (t : IJJSTimer) : IJJSTimer :=
  mkTimer (t_handle t) (t_interval t) JS_UNDEFINED JS_UNDEFINED 0
    (cleared_argv 0 (Z.to_nat (t_argc t)) (t_argv t)).

Lemma refs_of_replicate n : refs_of (replicate n JS_UNDEFINED) = [].
Proof. induction n as [|n IH]; [done|]. simpl. apply IH. Qed.

Lemma refs_cleared t : timer_args_ok t → refs_of (t_argv (timer_cleared t)) = [].
Proof.
  intros [_ Hd]. unfold timer_cleared, cleared_argv. cbn [t_argv]. rewrite take_0, Nat.add_0_l.
  rewrite !refs_of_app, refs_of_replicate, Hd. done.
Qed.

Lemma timer_cleared_own t : timer_args_ok t → own (CTimer (timer_cleared t)) = [].
Proof. intros H. cbn [own]. rewrite !refs_of_cons. by rewrite refs_cleared. Qed.

Lemma timer_cleared_ok t : timer_args_ok t → timer_args_ok (timer_cleared t).
Proof.
  intros H. split; simpl; [lia|]. rewrite drop_0. by apply (refs_cleared t).
Qed.

Lemma own_with_handle h t : own (CTimer (with_handle h t)) = own (CTimer t).
Proof. done. Qed.

Lemma timer_own_split t :
  timer_args_ok t →
  own (CTimer t) = ref_of (t_obj t) ++ ref_of (t_func t) ++ refs_of (take (Z.to_nat (t_argc t)) (t_argv t)).
Proof.
  intros [_ Hd]. cbn [own]. rewrite !refs_of_cons.
  rewrite <- (take_drop (Z.to_nat (t_argc t)) (t_argv t)) at 1. by rewrite refs_of_app, Hd, app_nil_r.
Qed.

Lemma wp_ijClearTimer p al t (Q : unit → World → Prop) w :
  w_mem w !! p = Some (al, CTimer t) → timer_args_ok t → holds w (own (CTimer t)) →
  (∀ w', w_env w' = w_env w → w_cell w' = w_cell w →
     w_mem w' = <[p := (al, CTimer (timer_cleared t))]> (w_mem w) →
     (∀ a, rc w' a = rc w a - cnt a (own (CTimer t))) → Q tt w') →
  wp (ijClearTimer p) Q w.
Proof.
  intros Hp Ha Hh HQ. rewrite (timer_own_split t Ha) in Hh, HQ. destruct Ha as [Hlen Hd].
  unfold ijClearTimer. wp_step. get_timer. wp_step. apply wp_FreeValue; [holds_by Hh|].
  wp_step. get_timer. wp_step. put_timer.
  wp_step. eapply wp_clear_args; [lookup_tac|simpl; lia|simpl; rewrite drop_0; holds_by Hh|].
  cbn [t_argv t_argc]. rewrite drop_0. intros w1 E1 C1 M1 R1.
  wp_step. get_timer. wp_step. put_timer.
  apply wp_FreeValue.
  { intros a. pose proof (Hh a) as Hha. world_simpl_in Hha. world_simpl. simpl t_obj. count_facts a. lia. }
  apply HQ.
  - world_simpl. rewrite E1. by world_simpl.
  - by world_simpl.
  - world_simpl. by rewrite !insert_insert_eq.
  - intros a. world_simpl. simpl t_obj. lia.
Qed.

(** ** The callback *)

(** The timer [t] at [p], with object [o] and its handle open. *)
Record timer_at (w : World) (p o : addr) (t : IJJSTimer) : Prop := {
  ta_mem : w_mem w !! p = Some (ByJe, CTimer t);
  ta_init : h_init (t_handle t) = true;
  ta_data : h_data (t_handle t) = Some p;
  ta_closing : h_closing (t_handle t) = false;
  ta_args : timer_args_ok t;
  ta_obj : w_cell w !! o = Some (BClass cls_timer (Some p))
}.

(** JavaScript code run during the callback: it keeps the books, and whatever it does
    to the timer leaves a timer. *)
Definition user_ok {A} (p o : addr) (out : A → list addr) (u : M A) : Prop :=
  ∀ w t, safe w → timer_at w p o t →
  wp u (λ v w', balanced w w' (out v) ∧ ∃ t', timer_at w' p o t' ∧ t_interval t' = t_interval t) w.

Lemma timer_at_quiet w w' p o t : quiet w w' → timer_at w p o t → timer_at w' p o t.
Proof.
  intros Hq [H1 H2 H3 H4 H5 H6]. split; try done; [by rewrite (quiet_mem _ _ Hq)|].
  by apply (quiet_cell _ _ Hq).
Qed.

Lemma wp_clear_timer p o t (Q : unit → World → Prop) w :
  safe w → timer_at w p o t →
  (∀ w', balanced w w' [] → timer_at w' p o (timer_cleared t) → Q tt w') →
  wp (ijClearTimer p) Q w.
Proof.
  intros Hs [H1 H2 H3 H4 H5 H6] HQ.
  eapply wp_ijClearTimer; [done|done|by eapply holds_owned|]. intros w' E1 C1 M1 R1. apply HQ.
  - intros a. unfold excess. rewrite M1, R1. erewrite owned_update by done.
    rewrite timer_cleared_own by done. rewrite !cnt_nil. lia.
  - split; try done; [by rewrite M1, lookup_insert_eq|by apply timer_cleared_ok|by rewrite C1].
Qed.

(** Clearing the timer from its own callback. *)
Lemma clear_user_ok p o this argv : user_ok p o ref_of (ijClearTimeout this (JS_REF o :: argv)).
Proof.
  intros w t Hs Ht. pose proof Ht as [H1 H2 H3 H4 H5 H6]. unfold ijClearTimeout.
  wp_step. eapply wp_arg_at; [done|]. unfold JS_GetOpaque2, JS_GetOpaque. do 3 wp_step.
  cbn [body_of]. rewrite H6. rewrite decide_True by done. do 2 wp_step. get_timer. wp_step. put_timer.
  wp_step. set (t1 := with_handle (with_active false (t_handle t)) t). set (w1 := set_mem _ w).
  assert (Hb1 : balanced w w1 []).
  { intros a. unfold excess. subst w1. world_simpl. erewrite owned_update by done. simpl own. lia. }
  eapply (wp_clear_timer p o t1).
  - by eapply balanced_safe.
  - split; try done. subst w1. world_simpl. apply lookup_insert_eq.
  - intros w2 Hb2 Ht2. wp_step. split; [|by exists (timer_cleared t1)].
    intros a. rewrite Hb2, Hb1. simpl ref_of. rewrite !cnt_nil. lia.
Qed.

Lemma call_timer_spec w1 p o t1 user :
  safe w1 → timer_at w1 p o t1 → user_ok p o ref_of user →
  wp (ijCallTimer user p) (λ _ w', balanced w1 w' [] ∧
    ∃ t', timer_at w' p o t' ∧ t_interval t' = t_interval t1) w1.
Proof.
  intros Hs1 Ht1 Hu. unfold ijCallTimer. wp_step. eapply wp_get_timer; [apply Ht1|]. do 4 wp_step. wp_step.
  set (w2 := log_ev _ _).
  assert (Hb2 : balanced w1 w2 (ref_of (t_func t1))).
  { intros a. unfold excess. subst w2. world_simpl. lia. }
  assert (Ht2 : timer_at w2 p o t1).
  { subst w2. destruct Ht1 as [H1 H2 H3 H4 H5 H6]. split; try done; by world_simpl. }
  assert (Hs2 : safe w2) by exact (balanced_safe _ _ _ Hs1 Hb2). clearbody w2.
  eapply wp_mono; [by eapply Hu|]. intros ret w3 (Hb3 & t3 & Ht3 & Hi3).
  pose proof (balanced_trans _ _ _ _ _ Hb2 Hb3) as Hb23.
  pose proof (balanced_holds _ _ _ Hs1 Hb23) as Hh.
  wp_step. apply wp_FreeValue; [holds_by Hh|].
  set (w4 := drop_ref _ w3). assert (Hb4 : balanced w1 w4 (ref_of ret)).
  { intros a. specialize (Hb23 a). unfold excess in *. subst w4. world_simpl. rewrite cnt_app in Hb23. lia. }
  assert (Ht4 : timer_at w4 p o t3).
  { subst w4. destruct Ht3 as [H1 H2 H3 H4 H5 H6]. split; try done; by world_simpl. }
  clearbody w4. assert (Hs4 : safe w4) by exact (balanced_safe _ _ _ Hs1 Hb4).
  wp_step. eapply (wp_quietly_nn _ (λ _, True)); [|by apply safe_nonneg|].
  { destruct (JS_IsException ret); [apply quietly_ijDumpError|by apply quietly_to_nn, quietly_ret]. }
  intros _ w5 _ Hq5. apply wp_FreeValue.
  { eapply holds_rc; [by intros; apply (quiet_rc _ _ Hq5)|]. exact (balanced_holds _ _ _ Hs1 Hb4). }
  split.
  - intros a. specialize (Hb4 a). unfold excess in *. world_simpl. lia.
  - exists t3. split; [|done]. apply (timer_at_quiet _ _ _ _ _ Hq5) in Ht4.
    destruct Ht4. split; rewrite ?mem_drop_ref, ?cell_drop_ref; done.
Qed.

Lemma timer_cb_spec w p o t jobs user :
  safe w → timer_at w p o t → user_ok p o (λ _, []) jobs → user_ok p o ref_of user →
  wp (uvTimerCb jobs user p) (λ _ w', balanced w w' [] ∧
    ∃ t', timer_at w' p o t' ∧ (t_interval t = 0 → own (CTimer t') = [])) w.
Proof.
  intros Hs Ht Hj Hu. unfold uvTimerCb, timer_data. do 2 wp_step. eapply wp_get_timer; [apply Ht|].
  rewrite (ta_data _ _ _ _ Ht). do 2 wp_step. eapply wp_mono; [by eapply Hj|]. intros _ w1 (Hb1 & t1 & Ht1 & Hi1).
  assert (Hs1 : safe w1) by exact (balanced_safe _ _ _ Hs Hb1).
  wp_step. eapply wp_mono; [by eapply call_timer_spec|]. intros _ w6 (Hb6 & t3 & Ht6 & Hi3).
  pose proof (balanced_trans _ _ _ _ _ Hb1 Hb6) as Hb. pose proof (balanced_safe _ _ _ Hs Hb) as Hs6.
  wp_step. eapply wp_get_timer; [apply Ht6|]. wp_step.
  - eapply wp_clear_timer; [done|done|]. intros w7 Hb7 Ht7. split.
    + exact (balanced_trans _ _ _ _ _ Hb Hb7).
    + eexists. split; [done|]. intros _. apply timer_cleared_own, Ht6.
  - wp_step. split; [done|]. exists t3. split; [done|]. intros Hi. apply Z.eqb_neq in E. congruence.
Qed.

(** A one-shot timer at 10 of the object at 20, which calls the function at 21. *)
Definition timer1 : IJJSTimer := mkTimer (handle_at UV_TIMER 10) 0 (JS_REF 20) (JS_REF 21) 0 [].
Definition timer_world : World :=
  world_with 0 {[ 20%positive := BClass cls_timer (Some 10%positive); 21%positive := BFunction 1 ]}
    {[ 20%positive := 1; 21%positive := 1 ]} {[ 10%positive := (ByJe, CTimer timer1) ]}.

(** A callback that does nothing. *)
Lemma user_ok_ret {A} p o (out : A → list addr) v : out v = [] → user_ok p o out (mret v).
Proof. intros Ho w t Hs Ht. apply wp_ret. rewrite Ho. split; [intros a; rewrite cnt_nil; lia|by exists t]. Qed.

(** ** Construction *)

Lemma wp_dup_values l (Q : list JSValue → World → Prop) w :
  (∀ w', w_env w' = w_env w → w_cell w' = w_cell w → w_mem w' = w_mem w →
     (∀ a, rc w' a = rc w a + cnt a (refs_of l)) → Q l w') →
  wp (dup_values l) Q w.
Proof.
  revert Q w; induction l as [|v l IH]; intros Q w HQ; simpl.
  - wp_step. apply HQ; try done. intros a. world_simpl. lia.
  - wp_step. wp_step. wp_step. apply IH. intros w' E1 C1 M1 R1. wp_steps. apply HQ.
    + by rewrite E1; world_simpl.
    + by world_simpl.
    + by world_simpl.
    + intros a. world_simpl. lia.
Qed.

(** A timer as [ijSetTimeout] starts it. *)
Definition started_timer (magic : Z) (o p : addr) (f : JSValue) (args : list JSValue) : IJJSTimer :=
  mkTimer (mkHandle UV_TIMER true true false false (Some p)) magic (JS_REF o) f (Z.of_nat (length args)) args.

(** [setTimeout(func, delay, ...args)]: the timer owns the function, the arguments and
    its own object, of which the caller gets another reference. libuv aborts the
    process only if it cannot make or start a timer, which it always can. *)
Definition timers_work (e : env) : Prop :=
  ∀ args l, e_int e (Ev "uv_timer_init" args :: l) = 0 ∧ e_int e (Ev "uv_timer_start" args :: l) = 0.

Lemma set_timeout_spec w magic this func a1 args :
  timers_work (w_env w) →
  wp (ijSetTimeout magic this (2 + length args) (func :: a1 :: args)) (λ v w',
    balanced w w' (ref_of v) ∧
    (v = JS_EXCEPTION ∧ w_mem w' = w_mem w ∨
     ∃ o p, v = JS_REF o ∧ timer_at w' p o (started_timer magic o p func args) ∧
       w_mem w' = <[p := (ByJe, CTimer (started_timer magic o p func args))]> (w_mem w))) w.
Proof.
  intros Htw. unfold ijSetTimeout, JS_IsFunction. wp_step. eapply wp_arg_at; [done|]. do 2 wp_step. wp_step.
  { wp_step. split; [by apply quiet_balanced|]. left. by world_simpl. }
  wp_step. eapply wp_arg_at; [done|]. do 2 wp_step. destruct r as [delay|]; last first.
  { wp_steps. split; [by apply quiet_balanced|]. left. by world_simpl. }
  unfold JS_NewObjectClass. wp_step. apply wp_try_new; last first.
  { intros w' Hq'. wp_steps. split; [apply quiet_balanced; by etrans|]. left. by world_simpl. }
  intros o Ho Ro. cbn [JS_IsException]. wp_step. apply wp_je_calloc; last first.
  { wp_step. apply wp_FreeValue.
    { apply holds_one. world_simpl. world_simpl_in Ro. rewrite decide_True by done. lia. }
    wp_steps. split; [ledger|]. left. by world_simpl. }
  intros p Hp. world_simpl_in Hp.
  assert (He : w_env w0 = w_env w) by by world_simpl.
  wp_step. apply wp_ask_eq. intros r ->. world_simpl. rewrite (proj1 (Htw _ _)). do 7 wp_step.
  rewrite (proj2 (Z.ltb_ge _ _)) by lia. do 2 wp_step.
  change (drop 2 (func :: a1 :: args)) with args. rewrite take_ge by lia.
  apply wp_dup_values. intros w1 E1 C1 M1 R1. wp_step. put_timer. wp_step. apply wp_ask_eq. intros r ->.
  world_simpl_in E1. rewrite He in E1. world_simpl. rewrite E1, (proj2 (Htw _ _)). do 3 wp_step.
  get_timer. wp_step. put_timer. unfold JS_SetOpaque. wp_steps.
  assert (Hlen : Z.of_nat (2 + length args) - 2 = Z.of_nat (length args)) by lia.
  rewrite Hlen. set (t' := with_handle _ _). change t' with (started_timer magic o p func args).
  set (w2 := update_cell _ _ _).
  assert (Hm : w_mem w2 = <[p := (ByJe, CTimer (started_timer magic o p func args))]> (w_mem w)).
  { subst w2. world_simpl. by rewrite !insert_insert_eq. }
  split.
  - intros a. unfold excess. rewrite Hm, owned_insert by done. subst w2. cbn [own started_timer t_obj t_func t_argv].
    world_simpl. lia.
  - right. exists o, p. split; [done|]. split; [split|]; try done.
    + rewrite Hm. apply lookup_insert_eq.
    + split; simpl; [lia|]. by rewrite Nat2Z.id, drop_all.
    + subst w2. world_simpl. by rewrite lookup_alter_eq, lookup_insert_eq.
Qed.

(** ** The end of a timer *)

(** The finalizer drops what is left and closes the handle; libuv then frees. *)
Lemma timer_finalizer_spec w p o t :
  safe w → timer_at w p o t →
  wp (ijTimerFinalizer (JS_REF o)) (λ _ w', balanced w w' [] ∧
    ∃ t', w_mem w' = <[p := (ByJe, CTimer t')]> (w_mem w) ∧ own (CTimer t') = [] ∧
      h_closing (t_handle t') = true ∧ h_data (t_handle t') = Some p) w.
Proof.
  intros Hs Ht. unfold ijTimerFinalizer, JS_GetOpaque. do 2 wp_step. cbn [body_of].
  rewrite (ta_obj _ _ _ _ Ht), decide_True by done. wp_step.
  destruct Ht as [H1 H2 H3 H4 H5 H6].
  eapply wp_ijClearTimer; [done|done|by eapply holds_owned|]. intros w1 E1 C1 M1 R1.
  wp_step. get_timer. unfold uv_close. cbn [timer_cleared t_handle]. rewrite H2, H4. cbn [negb]. do 2 wp_step.
  put_timer. split.
  - intros a. unfold excess. world_simpl. rewrite insert_insert_eq. erewrite owned_update by done.
    rewrite own_with_handle, timer_cleared_own by done. world_simpl. lia.
  - eexists. split; [world_simpl; rewrite insert_insert_eq; reflexivity|]. split_and!; try done.
    rewrite own_with_handle. by apply timer_cleared_own.
Qed.

(** ** [setTimeout(func)] *)

Lemma set_timeout_one_argument_faults w magic this func id :
  body_of func w = Some (BFunction id) →
  (∀ name args l, e_int (w_env w) (Ev name args :: l) = 0) →
  ijSetTimeout magic this 1 [func; JS_UNDEFINED] w = Fault Overflow.
Proof.
  intros Hf He. unfold ijSetTimeout, JS_IsFunction. apply fault_bind. eapply wp_arg_at; [done|].
  apply fault_bind. wp_step. rewrite Hf. cbn [negb]. apply fault_bind. eapply wp_arg_at; [done|].
  apply fault_bind. unfold JS_ToInt64. cbn [js_to_number]. do 3 wp_step. cbn [fmap option_fmap option_map].
  apply fault_bind. unfold JS_NewObjectClass, js_try_new. wp_step. apply wp_ask_eq. intros r ->. rewrite He.
  change (0 =? 0) with true. cbv iota. apply wp_js_new. intros o Ho Ro. cbn [JS_IsException].
  apply fault_bind. unfold je_calloc. wp_step. apply wp_ask_eq. intros r ->. world_simpl. rewrite He.
  change (0 =? 0) with true. cbv iota. wp_step. apply wp_c_alloc. intros p Hp. wp_step.
  apply fault_bind. apply wp_ask_eq. intros r ->. world_simpl. rewrite He. apply fault_bind. wp_step.
  apply fault_bind. wp_step. apply fault_bind. wp_step. by apply fault_first.
Qed.
