(* ===== verification/UvHeap.v ===== *)
(** * The heap of timers: externals/uv/src/heap-inl.h

    A binary min heap of nodes linked by three pointers. The functions move
    nodes by rewriting the pointers of their neighbours. A heap is shown to be
    a complete binary tree whose places are numbered from 1, the children of
    place i being 2i and 2i + 1: the binary digits of a place are the path to it. *)

From S2P Require Import Prelude.

Abbreviation node := positive.

Record heap_node := mkNode { left : option node; right : option node; parent : option node }.

(** [nodes] is the memory the nodes live in. *)
Record heap := mkHeap { hmin : option node; nelts : Z; nodes : gmap node heap_node }.

Definition with_left (v : option node) (n : heap_node) : heap_node := mkNode v (right n) (parent n).
Definition with_right (v : option node) (n : heap_node) : heap_node := mkNode (left n) v (parent n).
Definition with_parent (v : option node) (n : heap_node) : heap_node := mkNode (left n) (right n) v.
Definition with_min (v : option node) (h : heap) : heap := mkHeap v (nelts h) (nodes h).
Definition with_nelts (n : Z) (h : heap) : heap := mkHeap (hmin h) n (nodes h).

(** Writing the node at [a]; [upd] writes one of its fields, [None] if nothing is there. *)
Definition write (a : node) (n : heap_node) (h : heap) : heap := mkHeap (hmin h) (nelts h) (<[a := n]> (nodes h)).
Definition upd (a : node) (f : heap_node → heap_node) (h : heap) : option heap :=
  n ← nodes h !! a; Some (write a (f n) h).
(** The same through a pointer that may be NULL. *)
Definition upd_if (o : option node) (f : heap_node → heap_node) (h : heap) : option heap :=
  match o with Some a => upd a f h | None => Some h end.

Definition heap_init (h : heap) : heap := with_nelts 0 (with_min None h).
Definition heap_min (h : heap) : option node := hmin h.

(** The parent's pointer to [old] becomes one to [new]: the root's if there is no parent. *)
Definition relink (up : option node) (old new : node) (h : heap) : option heap :=
  match up with
  | None => Some (with_min (Some new) h)
  | Some g =>
      n ← nodes h !! g;
      if decide (left n = Some old) then upd g (with_left (Some new)) h
      else upd g (with_right (Some new)) h
  end.

Definition heap_node_swap (p c : node) (h : heap) : option heap :=
  t ← nodes h !! p;
  n ← nodes h !! c;
  let h := write c t (write p n h) in
  h ← upd p (with_parent (Some c)) h;
  n ← nodes h !! c;
  h ← (if decide (left n = Some c)
       then h ← upd c (with_left (Some p)) h; upd_if (right n) (with_parent (Some c)) h
       else h ← upd c (with_right (Some p)) h; upd_if (left n) (with_parent (Some c)) h);
  n ← nodes h !! p;
  h ← upd_if (left n) (with_parent (Some p)) h;
  n ← nodes h !! p;
  h ← upd_if (right n) (with_parent (Some p)) h;
  n ← nodes h !! c;
  relink (parent n) p c h.

(** A pointer to a pointer: the one to the root, or one inside a node. *)
Inductive place := Min | Left (a : node) | Right (a : node).

Definition read_place (h : heap) (s : place) : option (option node) :=
  match s with
  | Min => Some (hmin h)
  | Left a => left <$> nodes h !! a
  | Right a => right <$> nodes h !! a
  end.

Definition write_place (s : place) (v : option node) (h : heap) : option heap :=
  match s with
  | Min => Some (with_min v h)
  | Left a => upd a (with_left v) h
  | Right a => upd a (with_right v) h
  end.

(** [for (k = 0, ...; n >= 2; k += 1, n /= 2) path = (path << 1) | (n & 1)], 32-bit *)
Fixpoint path_loop (fuel : nat) (n path : Z) (k : nat) : Z * nat :=
  match fuel with
  | S fuel' =>
      if 2 <=? n
      then path_loop fuel' (n / 2) (Z.lor (unsigned32 (Z.shiftl path 1)) (Z.land n 1)) (S k)
      else (path, k)
  | O => (path, k)
  end.

(** An unsigned number has at most 32 digits. *)
Definition find_path (n : Z) : Z * nat := path_loop 32 n 0 0.

(** The walk along the path: the last two pointers, [parent] and [child]. *)
Fixpoint walk (h : heap) (path : Z) (k : nat) (par child : place) : option (place * place) :=
  match k with
  | O => Some (par, child)
  | S k' =>
      v ← read_place h child;
      a ← v;
      walk h (Z.shiftr path 1) k' child (if Z.eqb (Z.land path 1) 0 then Left a else Right a)
  end.

Section compare.
  Context (less_than : node → node → bool).

(** [while (a->parent != NULL && less_than(a, a->parent)) heap_node_swap(heap, a->parent, a)] *)
Fixpoint sift_up (fuel : nat) (a : node) (h : heap) : option heap :=
  match fuel with
  | O => None
  | S fuel' =>
      n ← nodes h !! a;
      match parent n with
      | None => Some h
      | Some q => if less_than a q then h ← heap_node_swap q a h; sift_up fuel' a h else Some h
      end
  end.

(** The smallest of [a] and the child [o], if there is one. *)
Definition smaller (o : option node) (a : node) : node :=
  match o with Some c => if less_than c a then c else a | None => a end.

Fixpoint sift_down (fuel : nat) (a : node) (h : heap) : option heap :=
  match fuel with
  | O => None
  | S fuel' =>
      n ← nodes h !! a;
      let smallest := smaller (right n) (smaller (left n) a) in
      if decide (smallest = a) then Some h
      else h ← heap_node_swap a smallest h; sift_down fuel' a h
  end.

(** The loops end before they have visited every node. *)
Definition sift_fuel (h : heap) : nat := S (Z.to_nat (nelts h)).

Definition heap_insert (newnode : node) (h : heap) : option heap :=
  let h := write newnode (mkNode None None None) h in
  let '(path, k) := find_path (unsigned32 (1 + nelts h)) in
  '(par, child) ← walk h path k Min Min;
  v ← read_place h par;
  h ← upd newnode (with_parent v) h;
  h ← write_place child (Some newnode) h;
  let h := with_nelts (unsigned32 (nelts h + 1)) h in
  sift_up (sift_fuel h) newnode h.

(** The max node, unlinked, takes the place of [a]. *)
Definition heap_replace (a child : node) (h : heap) : option heap :=
  n ← nodes h !! a;
  h ← upd child (λ _, n) h;
  h ← upd_if (left n) (with_parent (Some child)) h;
  h ← upd_if (right n) (with_parent (Some child)) h;
  n ← nodes h !! a;
  relink (parent n) a child h.

Definition heap_remove (a : node) (h : heap) : option heap :=
  if nelts h =? 0 then Some h
  else
    let '(path, k) := find_path (nelts h) in
    '(_, max) ← walk h path k Min Min;
    let h := with_nelts (unsigned32 (nelts h - 1)) h in
    v ← read_place h max;
    h ← write_place max None h;
    if decide (v = Some a)
    then Some (if decide (v = hmin h) then with_min None h else h)
    else
      child ← v;
      h ← heap_replace a child h;
      h ← sift_down (sift_fuel h) child h;
      sift_up (sift_fuel h) child h.

Definition heap_dequeue (h : heap) : option heap :=
  match hmin h with
  | Some a => heap_remove a h
  | None => if nelts h =? 0 then Some h else None
  end.

End compare.
