(* ===== verification/UvHeapProofs.v ===== *)
(** * The heap of timers: its proofs

    [linked] says that the pointers are those of a tree of numbered places,
    [ordered] that no node is smaller than its parent. Insertion and removal
    keep both and never follow a NULL pointer, so a heap holds a set of nodes
    and its root is a smallest one ([is_heap]). *)

From S2P Require Import Prelude UvHeap.

(** ** Computations that succeed *)

Definition gives {A} (m : option A) (Q : A → Prop) : Prop := ∃ x, m = Some x ∧ Q x.

Lemma gives_ret {A} (x : A) (Q : A → Prop) : Q x → gives (Some x) Q.
Proof. by exists x. Qed.

Lemma gives_bind {A B} (m : option A) (f : A → option B) (Q : B → Prop) :
  gives m (λ x, gives (f x) Q) → gives (m ≫= f) Q.
Proof. by intros (x & -> & H). Qed.

Lemma gives_mono {A} (m : option A) (Q R : A → Prop) : gives m Q → (∀ x, Q x → R x) → gives m R.
Proof. intros (x & -> & H) HR. exists x. auto. Qed.

Lemma gives_eq {A B} (m : option A) (x : A) (f : A → option B) (Q : B → Prop) :
  m = Some x → gives (f x) Q → gives (m ≫= f) Q.
Proof. by intros ->. Qed.

(** ** Places *)

Definition up (i : positive) : option positive :=
  match i with xH => None | xO j | xI j => Some j end.

Definition at_up (T : gmap positive node) (i : positive) : option node := up i ≫= (T !!.).

(** The node that belongs at place [i] of the tree [T]. *)
Definition node_at (T : gmap positive node) (i : positive) : heap_node :=
  mkNode (T !! i~0)%positive (T !! i~1)%positive (at_up T i).

Definition upd_fun (f : positive → heap_node) (i : positive) (g : heap_node → heap_node) (j : positive) : heap_node :=
  if decide (j = i) then g (f i) else f j.

Definition injective (T : gmap positive node) : Prop := ∀ i j a, T !! i = Some a → T !! j = Some a → i = j.

(** The nodes of [T] hold what [f] says of their places. *)
Definition nodes_are (T : gmap positive node) (f : positive → heap_node) (h : heap) : Prop :=
  ∀ i a, T !! i = Some a → nodes h !! a = Some (f i).

Definition closed (T : gmap positive node) : Prop := ∀ i j, up i = Some j → is_Some (T !! i) → is_Some (T !! j).

Record linked (T : gmap positive node) (h : heap) : Prop := {
  l_min : hmin h = T !! 1%positive;
  l_nodes : nodes_are T (node_at T) h;
  l_inj : injective T;
  l_closed : closed T
}.

(** What a field write does not touch. *)
Definition same_head (h h' : heap) : Prop := hmin h' = hmin h ∧ nelts h' = nelts h.

Lemma upd_at T f h i a g Q :
  injective T → nodes_are T f h → T !! i = Some a →
  (∀ h', nodes_are T (upd_fun f i g) h' → same_head h h' → Q h') → gives (upd a g h) Q.
Proof.
  intros Hi Hn Ha HQ. unfold upd. rewrite (Hn i a Ha). apply gives_ret, HQ; [|done].
  intros j b Hb. unfold write, upd_fun. cbn [nodes]. destruct (decide (j = i)) as [->|Hne].
  - rewrite Ha in Hb. injection Hb as ->. by rewrite lookup_insert_eq.
  - rewrite lookup_insert_ne; [by apply Hn|]. intros ->. by apply Hne, (Hi _ _ _ Hb).
Qed.

Lemma upd_if_at T f h i g Q :
  injective T → nodes_are T f h →
  (∀ h', nodes_are T (upd_fun f i g) h' → same_head h h' → Q h') → gives (upd_if (T !! i) g h) Q.
Proof.
  intros Hi Hn HQ. destruct (T !! i) as [a|] eqn:E; [by eapply upd_at|]. apply gives_ret, HQ; [|done].
  intros j b Hb. unfold upd_fun. rewrite decide_False; [by apply Hn|]. intros ->. congruence.
Qed.

(** ** The swap *)

(** The pointer to place [j] is written. *)
Definition relinked (f : positive → heap_node) (j : positive) (v : option node) : positive → heap_node :=
  match j with
  | xH => f
  | xO k => upd_fun f k (with_left v)
  | xI k => upd_fun f k (with_right v)
  end.

Lemma relink_at T f h j old new Q :
  injective T → closed T → nodes_are T f h → T !! j = Some old →
  (∀ k, up j = Some k → left (f k) = Some old ↔ j = (k~0)%positive) →
  (∀ h', nodes_are T (relinked f j (Some new)) h' → hmin h' = (if decide (j = 1%positive) then Some new else hmin h) →
    nelts h' = nelts h → Q h') →
  gives (relink (at_up T j) old new h) Q.
Proof.
  intros Hi Hc Hn Hold Hl HQ. unfold at_up. destruct j as [k|k|]; cbn [up mbind option_bind] in *.
  3: { apply gives_ret. by apply HQ. }
  all: (assert (is_Some (T !! k)) as [g Hg]; [eapply (Hc _ k); [|by eexists]; done|]); rewrite Hg; cbn [relink]; rewrite (Hn k g Hg); cbn [mbind option_bind];
    specialize (Hl k eq_refl).
  - rewrite decide_False; [|by rewrite Hl].
    eapply upd_at; [done..|]. intros h' H1 [H2 H3]. by apply HQ.
  - rewrite decide_True; [|by rewrite Hl]. eapply upd_at; [done..|]. intros h' H1 [H2 H3]. by apply HQ.
Qed.

Definition child_of (j : positive) (b : bool) : positive := if b then xI j else xO j.

Definition swapped (T : gmap positive node) (j i : positive) (p c : node) : gmap positive node := <[j := c]> (<[i := p]> T).

(** The nodes after the swap, by the place of [T] they had before. *)
Definition swap_fun (T : gmap positive node) (j : positive) (b : bool) (p c : node) : positive → heap_node :=
  let i := child_of j b in
  let f := node_at T in
  let f := upd_fun (upd_fun f j (λ _, node_at T i)) i (λ _, node_at T j) in
  let f := upd_fun f j (with_parent (Some c)) in
  let f := upd_fun f i (if b then with_right (Some p) else with_left (Some p)) in
  let f := upd_fun f (child_of j (negb b)) (with_parent (Some c)) in
  let f := upd_fun f i~0 (with_parent (Some p)) in
  let f := upd_fun f i~1 (with_parent (Some p)) in
  relinked f j (Some c).

(** One field after one write. *)
Lemma left_upd_left f i v j : left (upd_fun f i (with_left v) j) = if decide (j = i) then v else left (f j).
Proof. unfold upd_fun. by case_decide; subst. Qed.
Lemma right_upd_right f i v j : right (upd_fun f i (with_right v) j) = if decide (j = i) then v else right (f j).
Proof. unfold upd_fun. by case_decide; subst. Qed.
Lemma parent_upd_parent f i v j : parent (upd_fun f i (with_parent v) j) = if decide (j = i) then v else parent (f j).
Proof. unfold upd_fun. by case_decide; subst. Qed.
Lemma left_upd_right f i v j : left (upd_fun f i (with_right v) j) = left (f j).
Proof. unfold upd_fun. by case_decide; subst. Qed.
Lemma left_upd_parent f i v j : left (upd_fun f i (with_parent v) j) = left (f j).
Proof. unfold upd_fun. by case_decide; subst. Qed.
Lemma right_upd_left f i v j : right (upd_fun f i (with_left v) j) = right (f j).
Proof. unfold upd_fun. by case_decide; subst. Qed.
Lemma right_upd_parent f i v j : right (upd_fun f i (with_parent v) j) = right (f j).
Proof. unfold upd_fun. by case_decide; subst. Qed.
Lemma parent_upd_left f i v j : parent (upd_fun f i (with_left v) j) = parent (f j).
Proof. unfold upd_fun. by case_decide; subst. Qed.
Lemma parent_upd_right f i v j : parent (upd_fun f i (with_right v) j) = parent (f j).
Proof. unfold upd_fun. by case_decide; subst. Qed.
Lemma upd_const f i n j : upd_fun f i (λ _, n) j = if decide (j = i) then n else f j.
Proof. unfold upd_fun. by case_decide; subst. Qed.

Create Rewrite HintDb fields.
#[export] Hint Rewrite left_upd_left right_upd_right parent_upd_parent left_upd_right left_upd_parent right_upd_left
  right_upd_parent parent_upd_left parent_upd_right upd_const : fields.

Lemma node_eq n m : left n = left m → right n = right m → parent n = parent m → n = m.
Proof. destruct n, m. cbn. by intros -> -> ->. Qed.

(** Decides the equations between places of a goal. *)
Ltac places :=
  repeat (first [done | case_decide; try (exfalso; lia); subst]).

Definition swap_place (j i k : positive) : positive := if decide (k = j) then i else if decide (k = i) then j else k.

Lemma swap_fun_left T j b p c k :
  T !! j = Some p → T !! child_of j b = Some c →
  left (swap_fun T j b p c (swap_place j (child_of j b) k)) = swapped T j (child_of j b) p c !! (k~0)%positive.
Proof.
  intros Hp Hc. unfold swap_fun, swapped, swap_place.
  destruct b, j as [j|j|]; cbn [child_of relinked negb] in *; autorewrite with fields; rewrite !lookup_insert; unfold node_at; cbn [left]; places.
Qed.

Lemma swap_fun_right T j b p c k :
  T !! j = Some p → T !! child_of j b = Some c →
  right (swap_fun T j b p c (swap_place j (child_of j b) k)) = swapped T j (child_of j b) p c !! (k~1)%positive.
Proof.
  intros Hp Hc. unfold swap_fun, swapped, swap_place.
  destruct b, j as [j|j|]; cbn [child_of relinked negb] in *; autorewrite with fields; rewrite !lookup_insert; unfold node_at; cbn [right]; places.
Qed.

Lemma swap_fun_parent T j b p c k :
  T !! j = Some p → T !! child_of j b = Some c →
  parent (swap_fun T j b p c (swap_place j (child_of j b) k)) = at_up (swapped T j (child_of j b) p c) k.
Proof.
  intros Hp Hc. unfold swap_fun, swapped, swap_place, at_up.
  destruct b, j as [j|j|], k as [k|k|]; cbn [child_of relinked negb up mbind option_bind] in *; autorewrite with fields; rewrite ?lookup_insert;
    unfold node_at, at_up; cbn [parent up mbind option_bind]; places; by simplify_eq.
Qed.

Lemma swap_fun_ok T j b p c k :
  T !! j = Some p → T !! child_of j b = Some c →
  swap_fun T j b p c (swap_place j (child_of j b) k) = node_at (swapped T j (child_of j b) p c) k.
Proof. intros Hp Hc. apply node_eq; [by apply swap_fun_left|by apply swap_fun_right|by apply swap_fun_parent]. Qed.

Lemma swapped_lookup T j i p c k :
  T !! j = Some p → T !! i = Some c → swapped T j i p c !! k = T !! swap_place j i k.
Proof. intros Hp Hc. unfold swapped, swap_place. rewrite !lookup_insert. places. Qed.

Lemma swapped_dom T j i p c k :
  T !! j = Some p → T !! i = Some c → is_Some (swapped T j i p c !! k) ↔ is_Some (T !! k).
Proof. intros Hp Hc. unfold swapped. rewrite !lookup_insert. repeat case_decide; subst; rewrite ?Hp, ?Hc; by split. Qed.

Lemma swap_place_inj j i k l : swap_place j i k = swap_place j i l → k = l.
Proof. unfold swap_place. intros H. repeat case_decide; congruence. Qed.

(** The exchange of the two records. *)
Lemma exchange_at T f h j i p c :
  injective T → nodes_are T f h → T !! j = Some p → T !! i = Some c →
  nodes_are T (upd_fun (upd_fun f j (λ _, f i)) i (λ _, f j)) (write c (f j) (write p (f i) h)).
Proof.
  intros Hi Hn Hp Hc k a Ha. rewrite !upd_const. unfold write. cbn [nodes]. rewrite !lookup_insert.
  rewrite (decide_ext (c = a) (k = i)), (decide_ext (p = a) (k = j)).
  - repeat case_decide; [done..|]. by apply Hn.
  - split; intros; subst; [by eapply Hi|congruence].
  - split; intros; subst; [by eapply Hi|congruence].
Qed.

(** [child->left == child] tells which child it was. *)
Lemma which_child {A} T j b c (x y : A) :
  injective T → T !! child_of j b = Some c → (if decide (T !! (j~0)%positive = Some c) then x else y) = if b then y else x.
Proof.
  intros Hi Hc. destruct b; cbn [child_of] in *; case_decide as H; try done. by pose proof (Hi _ _ _ Hc H).
Qed.

(** A field of [node_at] behind writes to other places. *)
Ltac field_at :=
  autorewrite with fields; repeat first [rewrite decide_True by lia | rewrite decide_False by lia]; reflexivity.

(** Every write of the swap, on the tree as it was. *)
Lemma heap_node_swap_nodes T j b p c h :
  linked T h → T !! j = Some p → T !! child_of j b = Some c →
  gives (heap_node_swap p c h) (λ h', nodes_are T (swap_fun T j b p c) h' ∧
    hmin h' = (if decide (j = 1%positive) then Some c else hmin h) ∧ nelts h' = nelts h).
Proof.
  intros [Hm Hn Hi Hcl] Hp Hc. unfold heap_node_swap. rewrite (Hn _ _ Hp), (Hn _ _ Hc). cbn [mbind option_bind].
  pose proof (exchange_at T (node_at T) h j _ p c Hi Hn Hp Hc) as H0.
  eapply gives_bind, (upd_at _ _ _ j); [done..|]. intros h1 H1 [M1 N1]. cbn [write hmin nelts] in M1, N1.
  eapply gives_eq; [by apply H1|]. set (f1 := upd_fun _ j _) in H1 |- *.
  assert (left (f1 (child_of j b)) = T !! j~0)%positive as El by (unfold f1; destruct b; cbn [child_of]; field_at).
  assert (right (f1 (child_of j b)) = T !! j~1)%positive as Er by (unfold f1; destruct b; cbn [child_of]; field_at).
  rewrite El, Er, (which_child T j b c) by done.
  set (f2 := upd_fun (upd_fun f1 (child_of j b) (if b then with_right (Some p) else with_left (Some p))) (child_of j (negb b)) (with_parent (Some c))).
  apply gives_bind, (gives_mono _ (λ h', nodes_are T f2 h' ∧ same_head h h')).
  { destruct b; (eapply gives_bind, upd_at; [done..|]; intros h2 H2 [M2 N2]; eapply upd_if_at; [done|exact H2|]; intros h3 H3 [M3 N3]);
      (split; [exact H3|split; congruence]). }
  intros h2 [H2 [M2 N2]]. eapply gives_eq; [by apply H2|].
  replace (left (f2 j)) with (T !! (child_of j b)~0)%positive by (unfold f2, f1; destruct b; cbn [child_of negb]; field_at).
  eapply gives_bind, upd_if_at; [done..|]. intros h3 H3 [M3 N3]. eapply gives_eq; [by apply H3|].
  replace (right (upd_fun f2 _ _ j)) with (T !! (child_of j b)~1)%positive by (unfold f2, f1; destruct b; cbn [child_of negb]; field_at).
  eapply gives_bind, upd_if_at; [done..|]. intros h4 H4 [M4 N4]. eapply gives_eq; [by apply H4|].
  replace (parent (upd_fun (upd_fun f2 _ _) _ _ (child_of j b))) with (at_up T j) by (unfold f2, f1; destruct b; cbn [child_of negb]; field_at).
  eapply relink_at; [done..| |].
  { intros k Hk. assert (left (upd_fun (upd_fun f2 (child_of j b)~0 (with_parent (Some p))) (child_of j b)~1 (with_parent (Some p)) k)%positive = T !! k~0)%positive as ->
      by (destruct b, j; cbn [up] in Hk; simplify_eq; unfold f2, f1; cbn [child_of negb]; field_at).
    split; [intros E; by eapply Hi|by intros <-]. }
  intros h5 H5 M5 N5. split_and!; [exact H5|by rewrite M5, M4, M3, M2|congruence].
Qed.

(** The swap writes the pointers of the tree in which two places are exchanged. *)
Lemma heap_node_swap_linked T j b p c h :
  linked T h → T !! j = Some p → T !! child_of j b = Some c →
  gives (heap_node_swap p c h) (λ h', linked (swapped T j (child_of j b) p c) h' ∧ nelts h' = nelts h).
Proof.
  intros HL Hp Hc. eapply gives_mono; [by apply (heap_node_swap_nodes T j b)|]. intros h' (Hn' & Hm' & He). split; [|done].
  destruct HL as [Hm Hn Hi Hcl]. pose proof (swapped_lookup T j (child_of j b) p c) as HS. split.
  - rewrite Hm', HS by done. unfold swap_place. destruct b; cbn [child_of]; repeat case_decide; subst; try done; exfalso; lia.
  - intros k a Ha. rewrite <- swap_fun_ok by done. apply Hn'. by rewrite <- HS.
  - intros k l a. rewrite !HS by done. intros H1 H2. eapply swap_place_inj, Hi; done.
  - intros k l Hk. rewrite !swapped_dom by done. by apply Hcl.
Qed.

(** ** Members *)

Definition mem (T : gmap positive node) (a : node) : Prop := ∃ i, T !! i = Some a.

(** The same places and the same nodes. *)
Definition rearranged (T T' : gmap positive node) : Prop :=
  (∀ k, is_Some (T' !! k) ↔ is_Some (T !! k)) ∧ ∀ a, mem T' a ↔ mem T a.

Lemma rearranged_trans T T' T'' : rearranged T T' → rearranged T' T'' → rearranged T T''.
Proof. intros [H1 H2] [H3 H4]. split; intros; [by rewrite H3|by rewrite H4]. Qed.

Lemma swap_place_involutive j i k : j ≠ i → swap_place j i (swap_place j i k) = k.
Proof. intros. unfold swap_place. repeat case_decide; congruence. Qed.

Lemma swapped_rearranged T j i p c : j ≠ i → T !! j = Some p → T !! i = Some c → rearranged T (swapped T j i p c).
Proof.
  intros Hne Hp Hc. split; [intros; by apply swapped_dom|]. intros a. split; intros [k Hk].
  - rewrite swapped_lookup in Hk by done. by eexists.
  - exists (swap_place j i k). rewrite swapped_lookup by done. by rewrite swap_place_involutive.
Qed.

Lemma child_of_ne j b : j ≠ child_of j b.
Proof. destruct b; cbn; lia. Qed.

Lemma child_of_inj j b k c : child_of j b = child_of k c → j = k ∧ b = c.
Proof. destruct b, c; cbn; intros [=]; by subst. Qed.

Lemma place_cases (i : positive) : i = 1%positive ∨ ∃ j b, i = child_of j b.
Proof. destruct i as [j|j|]; [right; by exists j, true|right; by exists j, false|by left]. Qed.

(** ** The path to a place *)

Fixpoint follow (i : positive) (path : Z) (k : nat) : positive :=
  match k with
  | O => i
  | S k' => follow (child_of i (negb (Z.land path 1 =? 0))) (Z.shiftr path 1) k'
  end.

Lemma follow_le i path k : Zpos i ≤ Zpos (follow i path k).
Proof.
  revert i path. induction k as [|k IH]; intros i path; cbn [follow]; [lia|]. etrans; [|apply IH]. destruct (negb _); cbn; lia.
Qed.

Lemma push_bit path n (k : nat) : 0 ≤ path < 2 ^ Z.of_nat k → (k < 32)%nat →
  let path' := Z.lor (unsigned32 (Z.shiftl path 1)) (Z.land n 1) in
  Z.land path' 1 = Z.land n 1 ∧ Z.shiftr path' 1 = path ∧ 0 ≤ path' < 2 ^ Z.of_nat (S k).
Proof.
  intros Hp Hk path'. assert (2 ^ Z.of_nat (S k) ≤ 2 ^ 32) by (apply Z.pow_le_mono_r; lia).
  assert (2 ^ Z.of_nat (S k) = 2 * 2 ^ Z.of_nat k) as E by (rewrite Nat2Z.inj_succ, Z.pow_succ_r; lia).
  assert (∀ m, Z.land m 1 = m mod 2) as Hn by (intros m; apply (Z.land_ones m 1); lia). pose proof (Z.mod_pos_bound n 2 eq_refl).
  assert (path' = 2 * path + n mod 2) as Ep.
  { subst path'. rewrite Z.shiftl_mul_pow2, Hn by lia. rewrite unsigned32_small by lia. pose proof (Z.add_lor_land (path * 2 ^ 1) (n mod 2)).
    enough (Z.land (path * 2 ^ 1) (n mod 2) = 0) by lia. apply Z.bits_inj'. intros i Hi. rewrite Z.land_spec, Z.bits_0.
    destruct (decide (i = 0)) as [->|]; [rewrite Z.mul_pow2_bits_low by lia; done|].
    rewrite <- (Hn n), Z.land_spec, (Z.bits_above_log2 1) by (cbn; lia). by rewrite !andb_false_r. }
  split_and!; [|rewrite Z.shiftr_div_pow2 by lia..|lia|lia].
  - rewrite !Hn, Ep. rewrite Z.add_comm, Z.mul_comm, Z.mod_add, Z.mod_mod; lia.
  - rewrite Ep. change (2 ^ 1) with 2. rewrite Z.add_comm, Z.mul_comm, Z.div_add, Z.div_small; lia.
Qed.

Lemma path_loop_follow fuel n path k :
  0 ≤ path < 2 ^ Z.of_nat k → (k + fuel ≤ 32)%nat → Zpos n < 2 ^ Z.of_nat fuel →
  follow 1 (path_loop fuel (Zpos n) path k).1 (path_loop fuel (Zpos n) path k).2 = follow n path k.
Proof.
  revert n path k. induction fuel as [|fuel IH]; intros n path k Hp Hk Hn; [cbn in Hn; lia|]. cbn [path_loop].
  destruct (Z.leb_spec 2 (Zpos n)) as [Hle|Hlt]; [|by replace n with 1%positive by lia].
  destruct (push_bit path (Zpos n) k) as (B1 & B2 & B3); [done|lia|].
  assert (2 ^ Z.of_nat (S fuel) = 2 * 2 ^ Z.of_nat fuel) as E by (rewrite Nat2Z.inj_succ, Z.pow_succ_r; lia).
  destruct (place_cases n) as [->|(j & b & ->)]; [lia|].
  replace (Zpos (child_of j b) / 2) with (Zpos j) by (destruct b; cbn [child_of]; [rewrite Pos2Z.inj_xI, Z.add_comm, Z.mul_comm, Z.div_add|rewrite Pos2Z.inj_xO, Z.mul_comm, Z.div_mul]; done).
  rewrite IH; [|done|lia|]; [|destruct b; cbn [child_of] in Hn; lia]. cbn [follow]. rewrite B1, B2. f_equal.
  by destruct b.
Qed.

Lemma find_path_follow n : Zpos n < 2 ^ 32 → follow 1 (find_path (Zpos n)).1 (find_path (Zpos n)).2 = n.
Proof. intros Hn. unfold find_path. rewrite path_loop_follow; [done|cbn; lia..|done]. Qed.

(** The pointer to place [i]. *)
Definition slot (T : gmap positive node) (i : positive) : option place :=
  match i with xH => Some Min | xO j => Left <$> T !! j | xI j => Right <$> T !! j end.

Lemma read_slot T h i s : linked T h → slot T i = Some s → read_place h s = Some (T !! i).
Proof.
  intros [Hm Hn _ _]. destruct i as [j|j|]; cbn [slot]; [intros (a & Ha & ->)%fmap_Some..|intros [= <-]]; cbn [read_place].
  - by rewrite (Hn _ _ Ha).
  - by rewrite (Hn _ _ Ha).
  - by rewrite Hm.
Qed.

Lemma walk_slot T h path k i par s :
  linked T h → slot T i = Some s → (∀ j, Zpos j < Zpos (follow i path k) → is_Some (T !! j)) →
  gives (walk h path k par s) (λ '(par', s'), slot T (follow i path k) = Some s' ∧
    (k = O ∧ par' = par ∨ ∃ j, up (follow i path k) = Some j ∧ slot T j = Some par')).
Proof.
  intros HL. revert path i par s. induction k as [|k IH]; intros path i par s Hs Hd; cbn [walk follow] in *.
  { apply gives_ret. split; [done|by left]. }
  set (c := child_of i _) in *. destruct (Hd i) as [a Ha].
  { pose proof (follow_le c (Z.shiftr path 1) k). unfold c in *. destruct (negb _); cbn [child_of] in *; lia. }
  rewrite (read_slot _ _ _ _ HL Hs), Ha. cbn [mbind option_bind].
  eapply gives_mono; [apply (IH _ c)|].
  - unfold c. destruct (Z.land path 1 =? 0); cbn [negb child_of slot]; by rewrite Ha.
  - done.
  - intros [par' s'] [H1 H2]. split; [done|]. right. destruct H2 as [[-> ->]|H2]; [|done]. exists i. split; [|done].
    cbn [follow]. unfold c. by destruct (negb _).
Qed.

(** ** Order *)

Class StrictWeak (lt : node → node → bool) := {
  lt_asym a b : lt a b = true → lt b a = false;
  le_trans a b c : lt b a = false → lt c b = false → lt c a = false
}.

Section order.
  Context (lt : node → node → bool) `{!StrictWeak lt}.

(** A child is not smaller than its parent. *)
Definition edge (T : gmap positive node) (j : positive) (b : bool) : Prop :=
  ∀ x y, T !! j = Some x → T !! child_of j b = Some y → lt y x = false.

Definition ordered (T : gmap positive node) : Prop := ∀ j b, edge T j b.

(** The children of [i] are not smaller than the parent of [i]. *)
Definition bridged (T : gmap positive node) (i : positive) : Prop :=
  ∀ j b b' x y, i = child_of j b → T !! j = Some x → T !! child_of i b' = Some y → lt y x = false.

(** Ordered but for the edge above [i]. *)
Definition up_ok (T : gmap positive node) (i : positive) : Prop :=
  (∀ j b, child_of j b ≠ i → edge T j b) ∧ bridged T i.

(** Ordered but for the edges at [i]. *)
Definition down_ok (T : gmap positive node) (i : positive) : Prop :=
  (∀ j b, child_of j b ≠ i → j ≠ i → edge T j b) ∧ bridged T i.

Lemma swapped_up_ok T j b p c :
  T !! j = Some p → T !! child_of j b = Some c → lt c p = true →
  up_ok T (child_of j b) → up_ok (swapped T j (child_of j b) p c) j.
Proof using Type*.
  intros Hp Hc Hlt [He Hb]. pose proof (child_of_ne j b). split.
  - intros k b' Hk x y. rewrite !swapped_lookup by done. unfold swap_place. rewrite (decide_False (P := child_of k b' = j)) by done.
    destruct (decide (k = j)) as [->|Hkj].
    + rewrite Hc. intros [= <-]. case_decide as Hi; [rewrite Hp; intros [= <-]; by apply lt_asym|].
      intros Hy. eapply le_trans; [by apply lt_asym|]. by eapply He.
    + rewrite (decide_False (P := child_of k b' = child_of j b)) by (intros [??]%child_of_inj; done).
      destruct (decide (k = child_of j b)) as [->|Hki].
      * rewrite Hp. intros [= <-] Hy. by eapply Hb.
      * intros Hx Hy. eapply He; [|done..]. by intros [??]%child_of_inj.
  - intros g c' b' x y -> . rewrite !swapped_lookup by done. unfold swap_place.
    rewrite (decide_False (P := g = child_of g c')) by apply child_of_ne.
    rewrite (decide_False (P := g = child_of (child_of g c') b)) by (destruct c', b; cbn; lia).
    rewrite (decide_False (P := child_of (child_of g c') b' = child_of g c')) by (apply not_eq_sym, child_of_ne). intros Hx.
    assert (lt p x = false) as Hpx by (eapply He; [|done..]; apply child_of_ne).
    case_decide as Hi; [rewrite Hp; by intros [= <-]|]. intros Hy. eapply le_trans; [exact Hpx|]. by eapply He.
Qed.

Lemma swapped_down_ok T i b a s :
  T !! i = Some a → T !! child_of i b = Some s → (∀ y, T !! child_of i (negb b) = Some y → lt y s = false) →
  down_ok T i → down_ok (swapped T i (child_of i b) a s) (child_of i b).
Proof using Type*.
  intros Ha Hs Hmin [He Hb]. pose proof (child_of_ne i b). split.
  - intros k b' Hk Hki x y. rewrite !swapped_lookup by done. unfold swap_place.
    rewrite (decide_False (P := k = child_of i b)), (decide_False (P := child_of k b' = child_of i b)) by done.
    destruct (decide (k = i)) as [->|Hne].
    + rewrite Hs. intros [= <-]. rewrite decide_False by (apply not_eq_sym, child_of_ne). intros Hy. apply Hmin.
      by replace (negb b) with b' by (destruct b, b'; done).
    + destruct (decide (child_of k b' = i)) as [Hi|Hi]; [|by apply He].
      intros Hx. rewrite Hs. intros [= <-]. by eapply Hb.
  - intros j c b' x y [<- <-]%child_of_inj. rewrite !swapped_lookup by done. unfold swap_place. rewrite decide_True by done.
    rewrite (decide_False (P := child_of (child_of i b) b' = i)) by (destruct b, b'; cbn; lia).
    rewrite (decide_False (P := child_of (child_of i b) b' = child_of i b)) by (apply not_eq_sym, child_of_ne).
    rewrite Hs. intros [= <-] Hy. eapply He; [| |done..]; [destruct b, b'; cbn; lia|done].
Qed.

(** ** The loops *)

Definition restored (T : gmap positive node) (h h' : heap) : Prop :=
  ∃ T', linked T' h' ∧ nelts h' = nelts h ∧ ordered T' ∧ rearranged T T'.

Lemma up_ok_ordered T i :
  up_ok T i → (∀ j b x y, i = child_of j b → T !! j = Some x → T !! i = Some y → lt y x = false) → ordered T.
Proof using Type*.
  intros [He _] Hi j b x y Hx Hy. destruct (decide (child_of j b = i)) as [<-|Hne]; [by eapply Hi|]. by eapply He.
Qed.

Lemma sift_up_restores fuel T i a h :
  (Pos.to_nat i ≤ fuel)%nat → linked T h → T !! i = Some a → up_ok T i → gives (sift_up lt fuel a h) (restored T h).
Proof using Type*.
  revert T i h. induction fuel as [|fuel IH]; intros T i h Hf HL Ha Hu; [lia|]. cbn [sift_up].
  eapply gives_eq; [by apply (l_nodes _ _ HL)|]. cbn [node_at parent].
  destruct (place_cases i) as [->|(j & b & ->)].
  { cbn. apply gives_ret. exists T. split_and!; [done|done| |by split]. eapply up_ok_ordered; [done|]. by intros ? [] ???. }
  destruct (l_closed _ _ HL (child_of j b) j) as [q Hq]; [by destruct b|by eexists|].
  replace (at_up T (child_of j b)) with (Some q) by (destruct b; cbn; congruence). destruct (lt a q) eqn:Hlt.
  - eapply gives_bind, gives_mono; [by apply heap_node_swap_linked|]. intros h' [HL' He].
    eapply gives_mono; [apply (IH (swapped T j (child_of j b) q a) j h')|]; [destruct b; cbn in Hf; lia|done|..|].
    + apply lookup_insert_eq.
    + by apply swapped_up_ok.
    + intros h'' (T' & H1 & H2 & H3 & H4). exists T'. split_and!; [done|congruence|done|].
      eapply rearranged_trans; [|done]. apply swapped_rearranged; [apply child_of_ne|done..].
  - apply gives_ret. exists T. split_and!; [done|done| |by split]. eapply up_ok_ordered; [done|].
    intros k c x y [<- <-]%child_of_inj. congruence.
Qed.

Lemma smaller_cases o a : smaller lt o a = a ∧ (∀ c, o = Some c → lt c a = false) ∨ o = Some (smaller lt o a) ∧ lt (smaller lt o a) a = true.
Proof using Type*. destruct o as [c|]; cbn; [|by left]. destruct (lt c a) eqn:E; [by right|]. left. split; [done|]. by intros ? [= <-]. Qed.

(** The smallest of a node and its children: itself, or the child to swap with. *)
Lemma smallest_cases (T : gmap positive node) i a :
  T !! i = Some a → let s := smaller lt (T !! child_of i true) (smaller lt (T !! child_of i false) a) in
  s = a ∧ (∀ b y, T !! child_of i b = Some y → lt y a = false) ∨
  lt s a = true ∧ ∃ b, T !! child_of i b = Some s ∧ ∀ y, T !! child_of i (negb b) = Some y → lt y s = false.
Proof using Type*.
  intros Ha s. subst s. destruct (smaller_cases (T !! child_of i false) a) as [[-> H1]|[H1 H1']];
    [destruct (smaller_cases (T !! child_of i true) a) as [[-> H2]|[H2 H2']]
    |destruct (smaller_cases (T !! child_of i true) (smaller lt (T !! child_of i false) a)) as [[-> H2]|[H2 H2']]].
  - left. split; [done|]. by intros [].
  - right. split; [done|]. exists true. split; [done|]. cbn [negb]. intros y Hy. eapply le_trans; [by apply lt_asym|]. by apply H1.
  - right. split; [done|]. exists false. split; [done|]. exact H2.
  - right. split.
    + set (l := smaller lt _ a) in *. set (r := smaller lt _ l) in *. destruct (lt r a) eqn:E; [done|].
      pose proof (le_trans a r l E (lt_asym _ _ H2')). congruence.
    + exists true. split; [done|]. cbn [negb]. intros y Hy.
      assert (y = smaller lt (T !! child_of i false) a) as -> by congruence. by apply lt_asym.
Qed.

Lemma sift_down_sinks fuel T i a h :
  nelts h < Z.of_nat fuel + Zpos i → (∀ k, is_Some (T !! k) → Zpos k ≤ nelts h) → linked T h → T !! i = Some a → down_ok T i →
  gives (sift_down lt fuel a h) (λ h', ∃ T' i', linked T' h' ∧ nelts h' = nelts h ∧ T' !! i' = Some a ∧ up_ok T' i' ∧ rearranged T T').
Proof using Type*.
  revert T i h. induction fuel as [|fuel IH]; intros T i h Hf Hb HL Ha Hd; [pose proof (Hb i (ex_intro _ _ Ha)); lia|]. cbn [sift_down].
  eapply gives_eq; [by apply (l_nodes _ _ HL)|]. cbn [node_at left right].
  pose proof (smallest_cases T i a Ha) as HS. cbn [child_of] in HS. set (s := smaller _ _ _) in *.
  destruct HS as [[-> Hmin]|(Hlt & b & Hs & Hmin)].
  - rewrite decide_True by done. apply gives_ret. exists T, i. split_and!; [done..| |by split]. destruct Hd as [He Hbr]. split; [|done].
    intros j b Hj. destruct (decide (j = i)) as [->|]; [|by apply He]. intros x y Hx Hy. rewrite Ha in Hx. injection Hx as <-. by eapply Hmin.
  - assert (s ≠ a) by (intros ->; pose proof (lt_asym _ _ Hlt); congruence). rewrite decide_False by done.
    eapply gives_bind, gives_mono; [by apply (heap_node_swap_linked T i b)|]. intros h' [HL' He].
    eapply gives_mono; [apply (IH (swapped T i (child_of i b) a s) (child_of i b) h')|].
    + rewrite He. destruct b; cbn; lia.
    + intros k. rewrite swapped_dom, He by done. apply Hb.
    + done.
    + unfold swapped. rewrite lookup_insert_ne by apply child_of_ne. apply lookup_insert_eq.
    + by apply swapped_down_ok.
    + intros h'' (T' & i' & H1 & H2 & H3 & H4 & H5). exists T', i'. split_and!; [done|congruence|done..|].
      eapply rearranged_trans; [|done]. apply swapped_rearranged; [apply child_of_ne|done..].
Qed.

End order.
