(* ===== verification/UvHeapSpec.v ===== *)
(** * The heap of timers: what it promises

    A heap holds a set of nodes ([is_heap]): insertion adds one, removal takes
    any one out, the root is one that no other is smaller than. *)

From S2P Require Import Prelude UvHeap UvHeapProofs.

(** ** Writing through the pointer to a place *)

Lemma left_relinked f i v k : left (relinked f i v k) = if decide (i = k~0)%positive then v else left (f k).
Proof. destruct i as [j|j|]; cbn [relinked]; autorewrite with fields; repeat case_decide; simplify_eq; done. Qed.
Lemma right_relinked f i v k : right (relinked f i v k) = if decide (i = k~1)%positive then v else right (f k).
Proof. destruct i as [j|j|]; cbn [relinked]; autorewrite with fields; repeat case_decide; simplify_eq; done. Qed.
Lemma parent_relinked f i v k : parent (relinked f i v k) = parent (f k).
Proof. destruct i as [j|j|]; cbn [relinked]; autorewrite with fields; done. Qed.
#[export] Hint Rewrite left_relinked right_relinked parent_relinked : fields.

Lemma write_slot T f h i s v Q :
  injective T → nodes_are T f h → slot T i = Some s →
  (∀ h', nodes_are T (relinked f i v) h' → hmin h' = (if decide (i = 1%positive) then v else hmin h) → nelts h' = nelts h → Q h') →
  gives (write_place s v h) Q.
Proof.
  intros Hi Hn Hs HQ. destruct i as [j|j|]; cbn [slot] in Hs; [apply fmap_Some in Hs as (a & Ha & ->)..|injection Hs as <-]; cbn [write_place].
  - eapply upd_at; [done..|]. intros h' H1 [H2 H3]. by apply HQ.
  - eapply upd_at; [done..|]. intros h' H1 [H2 H3]. by apply HQ.
  - apply gives_ret. by apply HQ.
Qed.

(** The places of a heap with [n] nodes. *)
Definition full (T : gmap positive node) (n : Z) : Prop := ∀ i, is_Some (T !! i) ↔ Zpos i ≤ n.

Lemma full_none T n i : full T n → n < Zpos i → T !! i = None.
Proof. intros HF Hi. destruct (T !! i) eqn:E; [|done]. assert (Zpos i ≤ n) by (apply HF; by eexists). lia. Qed.

Lemma full_closed T n : full T n → closed T.
Proof. intros HF i j Hu Hi. apply HF. apply HF in Hi. destruct i; cbn in Hu; simplify_eq; lia. Qed.

(** ** Appending a node *)

Definition append_at (T : gmap positive node) (t : positive) (a : node) : gmap positive node := <[t := a]> T.

Section append.
  Context (T : gmap positive node) (h : heap) (n : Z) (t : positive) (a : node).
  Abbreviation appended := (append_at T t a).
  Hypotheses (HL : linked T h) (HF : full T n) (Ht : Zpos t = n + 1) (Ha : ¬ mem T a).

Lemma appended_injective : injective appended.
Proof using Type*.
  intros i j x. unfold append_at. rewrite !lookup_insert. repeat case_decide; subst; intros; simplify_eq; try done.
  - destruct Ha. by eexists.
  - destruct Ha. by eexists.
  - by eapply (l_inj _ _ HL).
Qed.

Lemma appended_full : full appended (n + 1).
Proof using HF Ht.
  intros i. unfold append_at. rewrite lookup_insert. case_decide as E; [subst; split; [lia|by eexists]|].
  rewrite (HF i). assert (Zpos i ≠ Zpos t) by congruence. lia.
Qed.

Lemma append_linked s (K : heap → option heap) Q :
  slot T t = Some s → (∀ h', linked appended h' → nelts h' = unsigned32 (nelts h + 1) → gives (K h') Q) →
  gives (h ← upd a (with_parent (at_up T t)) (write a (mkNode None None None) h);
         h ← write_place s (Some a) h; K (with_nelts (unsigned32 (nelts h + 1)) h)) Q.
Proof using Type*.
  intros Hs HK. set (f := upd_fun (node_at T) t (λ _, mkNode None None None)).
  assert (nodes_are appended f (write a (mkNode None None None) h)) as H0.
  { intros i x. unfold append_at, f, write. cbn [nodes]. rewrite upd_const, !lookup_insert.
    destruct (decide (t = i)) as [->|Hne]; [intros [= <-]; by rewrite !decide_True by done|].
    intros Hx. rewrite !decide_False; [by apply (l_nodes _ _ HL)|congruence|]. intros ->. destruct Ha. by eexists. }
  eapply gives_bind, (upd_at appended _ _ t); [apply appended_injective|done|apply lookup_insert_eq|].
  intros h1 H1 [M1 N1]. cbn [write hmin nelts] in M1, N1.
  eapply gives_bind, (write_slot appended _ _ t); [apply appended_injective|exact H1| |].
  { rewrite <- Hs. destruct t as [j|j|]; cbn [slot]; [..|done]; unfold append_at; by rewrite lookup_insert_ne by lia. }
  intros h2 H2 M2 N2. apply HK; [|cbn; congruence]. split.
  - cbn. rewrite M2, M1, (l_min _ _ HL). unfold append_at. rewrite lookup_insert. repeat case_decide; congruence.
  - clear M2. intros i x Hx. cbn [with_nelts nodes]. rewrite (H2 i x Hx). f_equal. unfold f, node_at.
    apply node_eq; autorewrite with fields; cbn [left right parent]; unfold append_at, at_up.
    + rewrite lookup_insert. places; cbn [left]. symmetry. apply (full_none _ n); [done|lia].
    + rewrite lookup_insert. places; cbn [right]. symmetry. apply (full_none _ n); [done|lia].
    + assert (Zpos i ≤ n + 1) by (apply appended_full; by eexists).
      destruct i as [j|j|]; cbn [up mbind option_bind]; [rewrite lookup_insert_ne by lia..|]; repeat case_decide; subst; done.
  - apply appended_injective.
  - eapply full_closed, appended_full.
Qed.

Lemma appended_mem x : mem appended x ↔ x = a ∨ mem T x.
Proof using HF Ht.
  unfold mem, append_at. split.
  - intros [i Hi]. rewrite lookup_insert in Hi. case_decide; [left; congruence|right; by eexists].
  - intros [->|[i Hi]]; [exists t; apply lookup_insert_eq|]. exists i. rewrite lookup_insert_ne; [done|]. intros ->.
    assert (Zpos i ≤ n) by (apply HF; by eexists). lia.
Qed.

End append.

(** ** Removing the last place *)

Section unlink.
  Context (T : gmap positive node) (h : heap) (n : Z) (t : positive) (m : node).
  Hypotheses (HL : linked T h) (HF : full T n) (Ht : Zpos t = n) (Hm : T !! t = Some m).

Lemma unlinked_full : full (delete t T) (n - 1).
Proof using HF Ht.
  intros i. rewrite lookup_delete_is_Some, (HF i). split; [intros [??]; assert (Zpos i ≠ Zpos t) by congruence; lia|]. intros. split; [|lia].
  intros <-. lia.
Qed.

(** The nodes after the pointer to the last one is cleared, by their places in [T]. *)
Definition unlink_fun : positive → heap_node := relinked (node_at T) t None.

Lemma unlink_fun_ok i : i ≠ t → Zpos i ≤ n → unlink_fun i = node_at (delete t T) i.
Proof using Ht.
  intros Hi Hn. unfold unlink_fun, node_at. apply node_eq; autorewrite with fields; cbn [left right parent].
  - rewrite lookup_delete. done.
  - rewrite lookup_delete. done.
  - unfold at_up. destruct i as [j|j|]; cbn [up mbind option_bind]; [rewrite lookup_delete_ne by lia; done..|done].
Qed.

Lemma unlink_linked h' :
  nodes_are T unlink_fun h' → hmin h' = (if decide (t = 1%positive) then None else hmin h) → linked (delete t T) h'.
Proof using HL HF Ht.
  intros Hn Hh. split.
  - rewrite Hh, lookup_delete, (l_min _ _ HL). done.
  - intros i a [Hne Ha]%lookup_delete_Some. rewrite (Hn i a Ha), unlink_fun_ok; [done|congruence|]. apply HF. by eexists.
  - intros i j a [_ Hi]%lookup_delete_Some [_ Hj]%lookup_delete_Some. by eapply (l_inj _ _ HL).
  - eapply full_closed, unlinked_full.
Qed.

End unlink.

(** ** The last node in place of another *)

Definition upd_but (t : positive) (f : positive → heap_node) (k : positive) (g : heap_node → heap_node) : positive → heap_node :=
  if decide (k = t) then f else upd_fun f k g.

Lemma left_upd_but t f k v j : left (upd_but t f k (with_parent v) j) = left (f j).
Proof. unfold upd_but. case_decide; [done|]. by autorewrite with fields. Qed.
Lemma right_upd_but t f k v j : right (upd_but t f k (with_parent v) j) = right (f j).
Proof. unfold upd_but. case_decide; [done|]. by autorewrite with fields. Qed.
Lemma parent_upd_but t f k v j :
  parent (upd_but t f k (with_parent v) j) = if decide (k = t) then parent (f j) else if decide (j = k) then v else parent (f j).
Proof. unfold upd_but. case_decide; [done|]. by autorewrite with fields. Qed.
#[export] Hint Rewrite left_upd_but right_upd_but parent_upd_but : fields.

Lemma upd_if_but T t f h k g Q :
  injective T → nodes_are T f h →
  (∀ h', nodes_are T (upd_but t f k g) h' → same_head h h' → Q h') → gives (upd_if (delete t T !! k) g h) Q.
Proof.
  intros Hi Hn HQ. unfold upd_but in HQ. destruct (decide (k = t)) as [->|Hne].
  - rewrite lookup_delete_eq. apply gives_ret. by apply HQ.
  - rewrite lookup_delete_ne by done. by eapply upd_if_at.
Qed.

Definition replace_at (T : gmap positive node) (t i : positive) (m : node) : gmap positive node := <[i := m]> (delete t T).

Section replace.
  Context (T : gmap positive node) (n : Z) (t i : positive) (m a : node).
  Hypotheses (HI : injective T) (HF : full T n) (Ht : Zpos t = n) (Hm : T !! t = Some m) (Ha : T !! i = Some a) (Hit : i ≠ t).
  Abbreviation T' := (replace_at T t i m).

(** The nodes after the replacement, by their places in [T]. *)
Definition replace_fun : positive → heap_node :=
  let f := unlink_fun T t in
  let f := upd_fun f t (λ _, node_at (delete t T) i) in
  let f := upd_but t f i~0 (with_parent (Some m)) in
  let f := upd_but t f i~1 (with_parent (Some m)) in
  relinked f i (Some m).

Lemma place_below k x : T !! k = Some x → Zpos k ≤ n.
Proof using HF. intros. apply HF. by eexists. Qed.

Lemma replace_fun_other k x : k ≠ i → k ≠ t → T !! k = Some x → replace_fun k = node_at T' k.
Proof using Type*.
  intros Hki Hkt Hx. pose proof (place_below _ _ Hx). pose proof (place_below _ _ Ha).
  unfold replace_fun, replace_at. apply node_eq; autorewrite with fields.
  - rewrite (decide_False (P := k = t)) by done. rewrite (unlink_fun_ok T n t Ht) by done. unfold node_at. cbn [left]. by rewrite lookup_insert.
  - rewrite (decide_False (P := k = t)) by done. rewrite (unlink_fun_ok T n t Ht) by done. unfold node_at. cbn [right]. by rewrite lookup_insert.
  - rewrite (decide_False (P := k = t)) by done. rewrite (unlink_fun_ok T n t Ht) by done. unfold node_at. cbn [parent]. unfold at_up.
    destruct k as [j|j|]; cbn [up mbind option_bind]; [rewrite lookup_insert..|]; places.
Qed.

Lemma replace_fun_moved : replace_fun t = node_at T' i.
Proof using Type*.
  pose proof (place_below _ _ Ha). unfold replace_fun, replace_at. apply node_eq; autorewrite with fields; unfold node_at; cbn [left right parent].
  - rewrite lookup_insert_ne by lia. rewrite (decide_False (P := i = (t~0)%positive)) by lia. by rewrite decide_True by done.
  - rewrite lookup_insert_ne by lia. rewrite (decide_False (P := i = (t~1)%positive)) by lia. by rewrite decide_True by done.
  - rewrite (decide_True (P := t = t)) by done. unfold at_up. cbn [parent]. 
    destruct i as [j|j|]; cbn [up mbind option_bind]; [rewrite lookup_insert_ne by lia..|]; repeat case_decide; subst; done.
Qed.

Lemma heap_replace_nodes h :
  nodes_are T (unlink_fun T t) h →
  gives (heap_replace a m h) (λ h', nodes_are T replace_fun h' ∧
    hmin h' = (if decide (i = 1%positive) then Some m else hmin h) ∧ nelts h' = nelts h).
Proof using Type*.
  intros Hn. pose proof (place_below _ _ Ha). unfold heap_replace. rewrite (Hn _ _ Ha), (unlink_fun_ok T n t Ht) by done. cbn [mbind option_bind].
  eapply gives_bind, (upd_at T); [done..|]. intros h1 H1 [M1 N1]. cbn [node_at left right].
  eapply gives_bind, upd_if_but; [done..|]. intros h2 H2 [M2 N2].
  eapply gives_bind, upd_if_but; [done..|]. intros h3 H3 [M3 N3].
  eapply gives_eq; [by apply H3|]. replace (parent _) with (at_up T i).
  - eapply relink_at; [done|by eapply full_closed|done..| |].
    + intros k Hk. autorewrite with fields. rewrite decide_False by (destruct i; cbn in Hk; simplify_eq; lia).
      unfold unlink_fun. autorewrite with fields. cbn [node_at left]. case_decide as E.
      * split; [done|]. by intros ->.
      * split; [intros Hk'; by eapply HI|by intros <-].
    + intros h4 H4 M4 N4. split_and!; [exact H4|by rewrite M4, M3, M2, M1|congruence].
  - autorewrite with fields. rewrite (decide_False (P := i = t)) by done. unfold unlink_fun. rewrite parent_relinked.
    repeat (case_decide; try (exfalso; lia)); done.
Qed.

Lemma replaced_full : full T' (n - 1).
Proof using HF Ht Ha Hit.
  intros k. unfold replace_at. rewrite lookup_insert. case_decide as E; [|by apply unlinked_full]. subst k. pose proof (place_below _ _ Ha).
  assert (Zpos i ≠ Zpos t) by congruence. split; [lia|by eexists].
Qed.

Lemma replaced_injective : injective T'.
Proof using Type*.
  intros j k x. unfold replace_at. rewrite !lookup_insert. repeat case_decide; subst; [done|..].
  - intros [= <-] [? Hk]%lookup_delete_Some. by pose proof (HI _ _ _ Hm Hk).
  - intros [? Hj]%lookup_delete_Some [= <-]. by pose proof (HI _ _ _ Hm Hj).
  - intros [? ?]%lookup_delete_Some [? ?]%lookup_delete_Some. by eapply HI.
Qed.

Lemma heap_replace_linked h :
  nodes_are T (unlink_fun T t) h → hmin h = T !! 1%positive →
  gives (heap_replace a m h) (λ h', linked T' h' ∧ nelts h' = nelts h).
Proof using Type*.
  intros Hn Hh. eapply gives_mono; [by apply heap_replace_nodes|]. intros h' (H1 & H2 & H3). split; [|done]. split.
  - rewrite H2, Hh. unfold replace_at. rewrite lookup_insert. case_decide; [done|]. pose proof (place_below _ _ Ha).
    rewrite lookup_delete_ne; [done|]. intros ->. lia.
  - intros k x Hx. unfold replace_at in Hx. rewrite lookup_insert in Hx. destruct (decide (i = k)) as [<-|E].
    + injection Hx as <-. by rewrite (H1 _ _ Hm), replace_fun_moved.
    + apply lookup_delete_Some in Hx as [Hne Hx]. rewrite (H1 _ _ Hx). f_equal. by eapply replace_fun_other; [congruence..|].
  - apply replaced_injective.
  - eapply full_closed, replaced_full.
Qed.

Lemma replaced_mem x : mem T' x ↔ mem T x ∧ x ≠ a.
Proof using HI Hm Ha Hit.
  unfold mem, replace_at. split.
  - intros [k Hk]. rewrite lookup_insert in Hk. case_decide as E; [injection Hk as <-|].
    + split; [by eexists|]. intros ->. by pose proof (HI _ _ _ Hm Ha).
    + apply lookup_delete_Some in Hk as [Hne Hk]. split; [by eexists|]. intros ->. by apply E, (HI _ _ _ Ha).
  - intros [[k Hk] Hne]. destruct (decide (k = t)) as [->|Hkt].
    + exists i. rewrite lookup_insert_eq. congruence.
    + exists k. rewrite lookup_insert_ne by congruence. by rewrite lookup_delete_ne.
Qed.

Lemma replaced_down_ok lt `{!StrictWeak lt} : ordered lt T → down_ok lt T' i.
Proof using Ha Hit.
  intros Ho. split.
  - intros j b Hc Hj x y. unfold replace_at. rewrite !lookup_insert_ne by done. intros [_ Hx]%lookup_delete_Some [_ Hy]%lookup_delete_Some.
    by eapply Ho.
  - intros j b b' x y Hi. unfold replace_at. rewrite !lookup_insert_ne by (subst i; first [apply child_of_ne|apply not_eq_sym, child_of_ne]).
    intros [_ Hx]%lookup_delete_Some [_ Hy]%lookup_delete_Some. apply (le_trans x a y); [subst i; by apply (Ho j b)|by apply (Ho i b')].
Qed.

End replace.

(** ** The heap as a set *)

Section spec.
  Context (lt : node → node → bool) `{!StrictWeak lt}.

(** [h] is a heap of the nodes [S]: a complete tree, in order. *)
Definition is_heap (S : gset node) (h : heap) : Prop :=
  nelts h = Z.of_nat (size S) ∧ ∃ T, linked T h ∧ full T (nelts h) ∧ ordered lt T ∧ ∀ a, a ∈ S ↔ mem T a.

Lemma heap_init_spec h : is_heap ∅ (heap_init h).
Proof using Type*.
  split; [done|]. exists ∅. split_and!.
  - by split; try done; intros ??; rewrite ?lookup_empty; try done; intros ? [].
  - intros i. rewrite lookup_empty. cbn. split; [by intros []|lia].
  - by intros j b x y; rewrite lookup_empty.
  - intros a. split; [set_solver|]. by intros [i Hi].
Qed.

(** The root is smallest. *)
Lemma root_le T h i x y : linked T h → ordered lt T → T !! 1%positive = Some x → T !! i = Some y → lt y x = false.
Proof using Type*.
  intros HL Ho Hx. revert y. induction i as [i IH|i IH|]; intros y Hy.
  - destruct (l_closed _ _ HL (i~1)%positive i) as [z Hz]; [done|by eexists|]. apply (le_trans x z y); [by apply IH|by apply (Ho i true)].
  - destruct (l_closed _ _ HL (i~0)%positive i) as [z Hz]; [done|by eexists|]. apply (le_trans x z y); [by apply IH|by apply (Ho i false)].
  - assert (y = x) as -> by congruence. destruct (lt x x) eqn:E; [|done]. pose proof (lt_asym _ _ E). congruence.
Qed.

Lemma heap_min_spec S h : is_heap S h →
  match heap_min h with Some a => a ∈ S ∧ ∀ b, b ∈ S → lt b a = false | None => S = ∅ end.
Proof using Type*.
  intros (Hn & T & HL & HF & Ho & HS). unfold heap_min. rewrite (l_min _ _ HL). destruct (T !! 1%positive) as [a|] eqn:E.
  - split; [apply HS; by eexists|]. intros b [i Hi]%HS. by eapply root_le.
  - apply leibniz_equiv, size_empty_inv. assert (¬ 1 ≤ nelts h); [|lia]. intros [? ?]%HF. congruence.
Qed.

(** What is walked to from the root is the pointer to the place asked for. *)
Lemma walk_to T h t :
  linked T h → Zpos t < 2 ^ 32 → (∀ j, Zpos j < Zpos t → is_Some (T !! j)) →
  gives (walk h (find_path (Zpos t)).1 (find_path (Zpos t)).2 Min Min) (λ '(par, s), slot T t = Some s ∧
    (t ≠ 1%positive → read_place h par = Some (at_up T t)) ∧ (t = 1%positive → par = Min)).
Proof using Type*.
  intros HL Ht Hd. pose proof (find_path_follow t Ht) as Hf. destruct (find_path (Zpos t)) as [path k]. cbn [fst snd] in *.
  eapply gives_mono; [apply (walk_slot T h path k 1 Min Min HL eq_refl)|]; [by rewrite Hf|]. rewrite Hf. intros [par s] [Hs Hp]. split; [done|].
  destruct Hp as [[-> ->]|(j & Hj & Hp)].
  - cbn in Hf. by subst t.
  - split; [intros _|by intros ->]. rewrite (read_slot _ _ _ _ HL Hp). unfold at_up. by rewrite Hj.
Qed.

Lemma heap_insert_spec S h a :
  is_heap S h → a ∉ S → Z.of_nat (size S) < 2 ^ 32 - 1 → gives (heap_insert lt a h) (is_heap ({[ a ]} ∪ S)).
Proof using Type*.
  intros (Hn & T & HL & HF & Ho & HS) Ha Hs. unfold heap_insert.
  assert (¬ mem T a) as Hm by (by rewrite <- HS).
  assert (linked T (write a (mkNode None None None) h)) as HL0.
  { destruct HL as [L1 L2 L3 L4]. split; [done| |done..]. intros i x Hx. cbn. rewrite lookup_insert_ne; [by apply L2|]. intros <-. apply Hm. by eexists. }
  cbn [write nelts]. set (t := Z.to_pos (1 + nelts h)). assert (Zpos t = nelts h + 1) as Ht by (unfold t; lia).
  rewrite unsigned32_small by lia. replace (1 + nelts h) with (Zpos t) by lia.
  pose proof (walk_to T _ t HL0 ltac:(lia) ltac:(intros j Hj; apply HF; lia)) as HW.
  destruct (find_path (Zpos t)) as [path k]. cbn [fst snd] in HW. apply gives_bind. eapply gives_mono; [exact HW|].
  intros [par s] (Hslot & Hpar & Hpar1).
  assert (read_place (write a (mkNode None None None) h) par = Some (at_up T t)) as Hr.
  { destruct (decide (t = 1%positive)) as [E|E]; [|by apply Hpar]. rewrite (Hpar1 E), E. cbn. rewrite (l_min _ _ HL). f_equal.
    apply (full_none _ _ _ HF). lia. }
  eapply gives_eq; [exact Hr|].
  eapply (append_linked T h (nelts h) t a HL HF Ht Hm s (λ h', sift_up lt (sift_fuel h') a h')); [done|]. intros h' HL' Hn'. rewrite unsigned32_small in Hn' by lia.
  pose proof (appended_full T (nelts h) t a HF Ht) as HF'.
  eapply gives_mono; [apply (sift_up_restores lt _ (append_at T t a) t); [|done|apply lookup_insert_eq|]|].
  - unfold sift_fuel. lia.
  - split.
    + intros j b Hj x y. unfold append_at. rewrite (lookup_insert_ne _ _ (child_of j b)) by done. rewrite lookup_insert. case_decide as E; [|by apply Ho].
      subst j. rewrite (full_none T (nelts h)); [done|done|]. destruct b; cbn [child_of]; lia.
    + intros j b b' x y Hj Hx Hy. assert (Zpos (child_of t b') ≤ nelts h + 1) by (apply HF'; by eexists). destruct b'; cbn [child_of] in *; lia.
  - intros h'' (T' & H1 & H2 & H3 & H4 & H5). split; [rewrite size_union, size_singleton by set_solver; lia|].
    exists T'. split_and!; [done| |done|].
    + intros i. rewrite H4, (HF' i). lia.
    + intros x. rewrite H5, (appended_mem T (nelts h)), <- HS by done. set_solver.
Qed.

Lemma heap_remove_spec S h a :
  is_heap S h → a ∈ S → Z.of_nat (size S) < 2 ^ 32 → gives (heap_remove lt a h) (is_heap (S ∖ {[ a ]})).
Proof using Type*.
  intros (Hn & T & HL & HF & Ho & HS) Ha Hs. assert (Z.of_nat (size (S ∖ {[ a ]})) = nelts h - 1) as Hsize.
  { rewrite size_difference by set_solver. rewrite size_singleton. assert (size S ≠ 0)%nat; [|lia]. rewrite size_non_empty_iff. set_solver. }
  unfold heap_remove. rewrite (proj2 (Z.eqb_neq _ _)) by lia.
  set (t := Z.to_pos (nelts h)). assert (Zpos t = nelts h) as Ht by (unfold t; lia). rewrite <- Ht.
  pose proof (walk_to T h t HL ltac:(lia) ltac:(intros j Hj; apply HF; lia)) as HW.
  destruct (find_path (Zpos t)) as [path k]. cbn [fst snd] in HW. apply gives_bind. eapply gives_mono; [exact HW|].
  intros [par s] (Hslot & _ & _). rewrite Ht. set (h1 := with_nelts _ h).
  assert (linked T h1) as HL1 by (by destruct HL as [L1 L2 L3 L4]; split).
  destruct (proj2 (HF t)) as [m Hm]; [lia|]. eapply gives_eq; [by apply (read_slot T)|]. rewrite Hm.
  eapply gives_bind, (write_slot T (node_at T)); [apply HL|apply HL1|done|]. intros h2 H2 M2 N2. fold (unlink_fun T t) in H2.
  assert (nelts h2 = nelts h - 1) as Hn2 by (rewrite N2; cbn; apply unsigned32_small; lia).
  destruct (decide (Some m = Some a)) as [[= ->]|Hne].
  - apply gives_ret. pose proof (unlink_linked T h (nelts h) t HL HF Ht h2 H2 M2) as HL2. rewrite decide_False.
    + split; [lia|]. exists (delete t T). split_and!; [done|rewrite Hn2; by apply unlinked_full|..].
      * intros j b x y [_ Hx]%lookup_delete_Some [_ Hy]%lookup_delete_Some. by eapply Ho.
      * intros x. rewrite elem_of_difference, elem_of_singleton, HS. split.
        -- intros [[i Hi] Hx]. exists i. rewrite lookup_delete_ne; [done|]. intros <-. congruence.
        -- intros [i [Hi Hx]%lookup_delete_Some]. split; [by eexists|]. intros ->. by apply Hi, (l_inj _ _ HL _ _ a).
    + rewrite (l_min _ _ HL2). intros E. symmetry in E. apply lookup_delete_Some in E as [E1 E2]. by apply E1, (l_inj _ _ HL _ _ a).
  - apply HS in Ha as [i Hi]. assert (i ≠ t) as Hit by congruence. assert (Zpos i ≤ nelts h) by (apply HF; by eexists).
    cbn [mbind option_bind]. apply gives_bind. eapply gives_mono; [apply (heap_replace_linked T (nelts h) t i m a); [apply HL|done..|]|].
    { rewrite M2, decide_False by (intros ->; lia). by apply HL. }
    intros h3 [HL3 N3]. pose proof (replaced_full T (nelts h) t i m a HF Ht Hi Hit) as HF3.
    apply gives_bind. eapply gives_mono; [apply (sift_down_sinks lt _ (replace_at T t i m) i); [..|done|apply lookup_insert_eq|by apply (replaced_down_ok T t i m a)]|].
    + unfold sift_fuel. lia.
    + intros j Hj. rewrite N3, Hn2. by apply HF3.
    + intros h4 (T4 & i4 & HL4 & N4 & Hi4 & Hu4 & R4 & R4'). eapply gives_mono; [apply (sift_up_restores lt _ T4 i4); [|done..]|].
      * unfold sift_fuel. rewrite N4, N3, Hn2. assert (Zpos i4 ≤ nelts h - 1); [|lia]. apply HF3, R4. by eexists.
      * intros h5 (T5 & HL5 & N5 & Ho5 & R5 & R5'). split; [lia|]. exists T5. split_and!; [done| |done|].
        -- intros j. rewrite R5, R4, N5, N4, N3, Hn2. by apply HF3.
        -- intros x. rewrite R5', R4', (replaced_mem T t i m a), <- HS by (done || apply HL). set_solver.
Qed.

End spec.

(** Only the order of the members matters. *)
Lemma is_heap_ext lt lt' S h :
  (∀ a b, a ∈ S → b ∈ S → lt' a b = lt a b) → is_heap lt S h → is_heap lt' S h.
Proof.
  intros HE (Hn & T & HL & HF & Ho & HS). split; [done|]. exists T. split_and!; [done..| |done].
  intros j b x y Hx Hy. rewrite HE by (apply HS; by eexists). by eapply Ho.
Qed.

(** C8: libuv's heap of linked nodes implements a set with a least element: on a well-linked
    complete tree in order, the root is a least member, and insertion and removal of any member,
    with all their pointer rewriting, end without following a NULL pointer in such a tree for the
    set with the node added or taken out. *)
Theorem heap_implements_set lt S h :
  StrictWeak lt → is_heap lt S h →
  match heap_min h with Some a => a ∈ S ∧ (∀ b, b ∈ S → lt b a = false) | None => S = ∅ end ∧
  (∀ a, a ∉ S → Z.of_nat (size S) < 2 ^ 32 - 1 → gives (heap_insert lt a h) (is_heap lt ({[ a ]} ∪ S))) ∧
  (∀ a, a ∈ S → Z.of_nat (size S) < 2 ^ 32 → gives (heap_remove lt a h) (is_heap lt (S ∖ {[ a ]}))).
Proof. intros Hlt HH. split_and!; [by eapply heap_min_spec|by intros; apply heap_insert_spec|by intros; apply heap_remove_spec]. Qed.

(** Three nodes, inserted from the largest to the smallest. *)
Definition heap3 : heap :=
  default (mkHeap None 0 ∅) (h ← heap_insert Pos.ltb 7 (mkHeap None 0 ∅); h ← heap_insert Pos.ltb 5 h; heap_insert Pos.ltb 3 h).
Definition heap_nodes : gset node := {[ 3; 5; 7 ]}%positive.

#[export] Instance ltb_strict_weak : StrictWeak Pos.ltb.
Proof. split; intros *; rewrite ?Pos.ltb_lt, ?Pos.ltb_ge; lia. Qed.

Lemma heap3_ok : is_heap Pos.ltb heap_nodes heap3.
Proof.
  destruct (heap_insert_spec Pos.ltb ∅ (mkHeap None 0 ∅) 7) as (h1 & E1 & H1); [apply (heap_init_spec _ (mkHeap None 0 ∅))|done|done|].
  destruct (heap_insert_spec Pos.ltb _ h1 5 H1) as (h2 & E2 & H2); [set_solver|done|].
  destruct (heap_insert_spec Pos.ltb _ h2 3 H2) as (h3 & E3 & H3); [set_solver|done|].
  assert (heap3 = h3) as -> by (unfold heap3; rewrite E1; cbn [mbind option_bind]; rewrite E2; cbn [mbind option_bind]; by rewrite E3).
  enough (heap_nodes = {[3%positive]} ∪ ({[5%positive]} ∪ ({[7%positive]} ∪ ∅))) as -> by done. unfold heap_nodes. set_solver.
Qed.

Lemma heap_implements_set_witness :
  match heap_min heap3 with Some a => a ∈ heap_nodes ∧ (∀ b, b ∈ heap_nodes → Pos.ltb b a = false) | None => heap_nodes = ∅ end ∧
  (∀ a, a ∉ heap_nodes → Z.of_nat (size heap_nodes) < 2 ^ 32 - 1 → gives (heap_insert Pos.ltb a heap3) (is_heap Pos.ltb ({[ a ]} ∪ heap_nodes))) ∧
  (∀ a, a ∈ heap_nodes → Z.of_nat (size heap_nodes) < 2 ^ 32 → gives (heap_remove Pos.ltb a heap3) (is_heap Pos.ltb (heap_nodes ∖ {[ a ]}))).
Proof. apply (heap_implements_set Pos.ltb heap_nodes heap3); [exact ltb_strict_weak|exact heap3_ok]. Defined.
