(* ===== verification/UvTimer.v ===== *)
(** * libuv's timers: externals/uv/src/timer.c

    The timers of a loop, the heap they are kept in while active, and the part
    of the handle life cycle (uv-common.h, unix/core.c) timers go through.
    Faults are [None]: a NULL pointer followed, a failed assertion. What a
    timer's callback does is a parameter. *)

From S2P Require Import Prelude UvHeap.

(** A timer handle: the callback (a name for it), its times, and the flags
    UV_HANDLE_ACTIVE, UV_HANDLE_REF, UV_HANDLE_CLOSING and UV_HANDLE_CLOSED. *)
Record uv_timer := mkUvTimer {
  timer_cb : option Z; timeout : Z; repeat : Z; start_id : Z;
  f_active : bool; f_ref : bool; f_closing : bool; f_closed : bool
}.

(** The loop: [active_handles] counts handles of every kind, [timers] is the memory of its timer handles. *)
Record uv_loop := mkLoop {
  time : Z; timer_counter : Z; timer_heap : heap; timers : gmap node uv_timer;
  active_handles : Z; closing_handles : list node
}.

Definition with_heap (h : heap) (l : uv_loop) : uv_loop :=
  mkLoop (time l) (timer_counter l) h (timers l) (active_handles l) (closing_handles l).
Definition with_timer (a : node) (t : uv_timer) (l : uv_loop) : uv_loop :=
  mkLoop (time l) (timer_counter l) (timer_heap l) (<[a := t]> (timers l)) (active_handles l) (closing_handles l).
Definition with_active (n : Z) (l : uv_loop) : uv_loop :=
  mkLoop (time l) (timer_counter l) (timer_heap l) (timers l) (unsigned32 n) (closing_handles l).
Definition with_counter (n : Z) (l : uv_loop) : uv_loop :=
  mkLoop (time l) (unsigned64 n) (timer_heap l) (timers l) (active_handles l) (closing_handles l).
Definition with_closing (c : list node) (l : uv_loop) : uv_loop :=
  mkLoop (time l) (timer_counter l) (timer_heap l) (timers l) (active_handles l) c.

Definition set_flags (act ref closing closed : bool) (t : uv_timer) : uv_timer :=
  mkUvTimer (timer_cb t) (timeout t) (repeat t) (start_id t) act ref closing closed.

(** [handle->...]: the fields of the handle at [a]. *)
Definition handle (a : node) (l : uv_loop) : option uv_timer := timers l !! a.

(** Only handles of the loop are in its heap: what another address holds is never compared. *)
Definition blank : uv_timer := mkUvTimer None 0 0 0 false false false false.
Definition timer_at (ts : gmap node uv_timer) (a : node) : uv_timer := default blank (ts !! a).

Definition timer_less_than (ts : gmap node uv_timer) (ha hb : node) : bool :=
  let a := timer_at ts ha in
  let b := timer_at ts hb in
  if timeout a <? timeout b then true
  else if timeout b <? timeout a then false
  else start_id a <? start_id b.

(** ** Handles *)

Definition uv__is_active (t : uv_timer) : bool := f_active t.
Definition uv__is_closing (t : uv_timer) : bool := f_closing t || f_closed t.

Definition uv__handle_start (a : node) (l : uv_loop) : option uv_loop :=
  t ← handle a l;
  Some (if f_active t then l
        else
          let l := with_timer a (set_flags true (f_ref t) (f_closing t) (f_closed t) t) l in
          if f_ref t then with_active (active_handles l + 1) l else l).

Definition uv__handle_stop (a : node) (l : uv_loop) : option uv_loop :=
  t ← handle a l;
  Some (if negb (f_active t) then l
        else
          let l := with_timer a (set_flags false (f_ref t) (f_closing t) (f_closed t) t) l in
          if f_ref t then with_active (active_handles l - 1) l else l).

Definition uv_ref (a : node) (l : uv_loop) : option uv_loop :=
  t ← handle a l;
  Some (if f_ref t then l
        else
          let l := with_timer a (set_flags (f_active t) true (f_closing t) (f_closed t) t) l in
          if f_closing t then l
          else if f_active t then with_active (active_handles l + 1) l else l).

Definition uv_unref (a : node) (l : uv_loop) : option uv_loop :=
  t ← handle a l;
  Some (if negb (f_ref t) then l
        else
          let l := with_timer a (set_flags (f_active t) false (f_closing t) (f_closed t) t) l in
          if f_closing t then l
          else if f_active t then with_active (active_handles l - 1) l else l).

(** ** Timers *)

(** The fields that are not written keep what the memory holds. *)
Definition uv_timer_init (a : node) (l : uv_loop) : uv_loop :=
  let t := timer_at (timers l) a in
  with_timer a (mkUvTimer None (timeout t) 0 (start_id t) false true false false) l.

Definition uv_timer_stop (a : node) (l : uv_loop) : option uv_loop :=
  t ← handle a l;
  if negb (uv__is_active t) then Some l
  else
    h ← heap_remove (timer_less_than (timers l)) a (timer_heap l);
    uv__handle_stop a (with_heap h l).

Definition UV_EINVAL : Z := -22.

(** [loop->time + timeout], at most the largest number *)
Definition clamped (now timeout : Z) : Z :=
  let clamped_timeout := unsigned64 (now + timeout) in
  if clamped_timeout <? timeout then unsigned64 (-1) else clamped_timeout.

Definition uv_timer_start (a : node) (cb : option Z) (timeout repeat : Z) (l : uv_loop) : option (Z * uv_loop) :=
  t ← handle a l;
  if uv__is_closing t || bool_decide (cb = None) then Some (UV_EINVAL, l)
  else
    l ← (if uv__is_active t then uv_timer_stop a l else Some l);
    t ← handle a l;
    let t := mkUvTimer cb (clamped (time l) timeout) repeat (timer_counter l) (f_active t) (f_ref t) (f_closing t) (f_closed t) in
    let l := with_counter (timer_counter l + 1) (with_timer a t l) in
    h ← heap_insert (timer_less_than (timers l)) a (timer_heap l);
    l ← uv__handle_start a (with_heap h l);
    Some (0, l).

Definition uv_timer_again (a : node) (l : uv_loop) : option (Z * uv_loop) :=
  t ← handle a l;
  if bool_decide (timer_cb t = None) then Some (UV_EINVAL, l)
  else if repeat t =? 0 then Some (0, l)
  else
    l ← uv_timer_stop a l;
    t ← handle a l;
    '(_, l) ← uv_timer_start a (timer_cb t) (repeat t) (repeat t) l;
    Some (0, l).

Definition uv_timer_set_repeat (a : node) (rep : Z) (l : uv_loop) : option uv_loop :=
  t ← handle a l;
  Some (with_timer a (mkUvTimer (timer_cb t) (timeout t) rep (start_id t) (f_active t) (f_ref t) (f_closing t) (f_closed t)) l).

Definition uv_timer_get_repeat (a : node) (l : uv_loop) : option Z := repeat <$> handle a l.

Definition INT_MAX : Z := 2 ^ 31 - 1.

Definition uv__next_timeout (l : uv_loop) : option Z :=
  match heap_min (timer_heap l) with
  | None => Some (-1)
  | Some a =>
      t ← handle a l;
      Some (if timeout t <=? time l then 0
            else
              let diff := timeout t - time l in
              if INT_MAX <? diff then INT_MAX else diff)
  end.

(** The callbacks called, in order, with the handle as it was when it was due. *)
Definition calls : Type := list (node * uv_timer).

(** [call cb a] is what [handle->timer_cb(handle)] does; it can be run at most [fuel] times. *)
Fixpoint uv__run_timers (call : Z → node → uv_loop → option uv_loop) (fuel : nat) (l : uv_loop) : option (uv_loop * calls) :=
  match heap_min (timer_heap l) with
  | None => Some (l, [])
  | Some a =>
      t ← handle a l;
      if time l <? timeout t then Some (l, [])
      else
        match fuel with
        | O => None
        | S fuel' =>
            l ← uv_timer_stop a l;
            '(_, l) ← uv_timer_again a l;
            t' ← handle a l;
            cb ← timer_cb t';
            l ← call cb a l;
            '(l, cs) ← uv__run_timers call fuel' l;
            Some (l, (a, t) :: cs)
        end
  end.

Definition uv__timer_close (a : node) (l : uv_loop) : option uv_loop := uv_timer_stop a l.

(** ** Closing *)

Definition uv__make_close_pending (a : node) (l : uv_loop) : option uv_loop :=
  t ← handle a l;
  if f_closing t && negb (f_closed t) then Some (with_closing (a :: closing_handles l) l) else None.

(** On a timer: the case UV_TIMER of the switch. *)
Definition uv_close (a : node) (l : uv_loop) : option uv_loop :=
  t ← handle a l;
  if uv__is_closing t then None
  else
    let l := with_timer a (set_flags (f_active t) (f_ref t) true (f_closed t) t) l in
    l ← uv__timer_close a l;
    uv__make_close_pending a l.

(** The close callback, which may free the handle, is not run here. *)
Definition uv__finish_close (a : node) (l : uv_loop) : option uv_loop :=
  t ← handle a l;
  if f_closing t && negb (f_closed t)
  then uv_unref a (with_timer a (set_flags (f_active t) (f_ref t) (f_closing t) true t) l)
  else None.

Fixpoint finish_all (p : list node) (l : uv_loop) : option uv_loop :=
  match p with
  | [] => Some l
  | a :: q => l ← uv__finish_close a l; finish_all q l
  end.

Definition uv__run_closing_handles (l : uv_loop) : option uv_loop :=
  finish_all (closing_handles l) (with_closing [] l).

Definition uv__update_time (hrtime : Z) (l : uv_loop) : uv_loop :=
  mkLoop (hrtime / 1000000) (timer_counter l) (timer_heap l) (timers l) (active_handles l) (closing_handles l).
