(* ===== verification/UvTimerProofs.v ===== *)
(** * libuv's timers: their proofs

    [loop_ok] is the invariant of a loop: its heap holds exactly the active
    timers, in the order of their times and, at the same time, of their starts;
    no timer is active without a callback or while it closes; the count of
    active handles is right. Every operation keeps it. *)

From S2P Require Import Prelude UvHeap UvHeapProofs UvHeapSpec UvTimer.

(** ** The order *)

Definition key (t : uv_timer) : Z * Z := (timeout t, start_id t).
Definition key_lt (k k' : Z * Z) : Prop := k.1 < k'.1 ∨ k.1 = k'.1 ∧ k.2 < k'.2.

Lemma less_than_key ts a b : timer_less_than ts a b = true ↔ key_lt (key (timer_at ts a)) (key (timer_at ts b)).
Proof.
  unfold timer_less_than, key_lt, key. cbn [fst snd].
  destruct (Z.ltb_spec (timeout (timer_at ts a)) (timeout (timer_at ts b))); [split; [by left|done]|].
  destruct (Z.ltb_spec (timeout (timer_at ts b)) (timeout (timer_at ts a))); [split; [done|lia]|].
  rewrite Z.ltb_lt. lia.
Qed.

Lemma less_than_not ts a b : timer_less_than ts a b = false ↔ ¬ key_lt (key (timer_at ts a)) (key (timer_at ts b)).
Proof. rewrite <- less_than_key. by destruct (timer_less_than ts a b). Qed.

#[export] Instance timer_strict_weak ts : StrictWeak (timer_less_than ts).
Proof.
  split.
  - intros a b. rewrite less_than_key, less_than_not. unfold key_lt. lia.
  - intros a b c. rewrite !less_than_not. unfold key_lt. lia.
Qed.

(** ** Counting *)

Section count.
  Context {A : Type} (P : A → Prop) `{!∀ x, Decision (P x)}.

Definition count (m : gmap node A) : nat := size (filter (λ p : node * A, P p.2) m).

Lemma count_insert a x m : count (<[a := x]> m) = ((if decide (P x) then 1 else 0) + count (delete a m))%nat.
Proof using Type*.
  unfold count. rewrite <- (insert_delete_eq m a x), map_filter_insert. cbn [snd].
  case_decide; [|by rewrite delete_delete_eq].
  rewrite map_size_insert_None; [done|]. apply map_lookup_filter_None. left. apply lookup_delete_eq.
Qed.

Lemma count_lookup a x m : m !! a = Some x → count m = ((if decide (P x) then 1 else 0) + count (delete a m))%nat.
Proof using Type*. intros Hx. rewrite <- count_insert. by rewrite insert_id. Qed.

Lemma count_update a x y m :
  m !! a = Some x → (count (<[a := y]> m) + (if decide (P x) then 1 else 0) = count m + (if decide (P y) then 1 else 0))%nat.
Proof using Type*. intros Hx. rewrite count_insert, (count_lookup _ _ _ Hx). lia. Qed.

End count.

(** ** The active timers *)

Definition active_set (ts : gmap node uv_timer) : gset node := dom (filter (λ p : node * uv_timer, f_active p.2 = true) ts).
Definition counted (t : uv_timer) : Prop := f_active t = true ∧ f_ref t = true.
#[export] Instance counted_dec t : Decision (counted t).
Proof. unfold counted. apply _. Defined.

Lemma elem_of_active ts a : a ∈ active_set ts ↔ ∃ t, ts !! a = Some t ∧ f_active t = true.
Proof. unfold active_set. rewrite elem_of_dom. unfold is_Some. setoid_rewrite map_lookup_filter_Some. done. Qed.

Lemma active_set_insert ts a t :
  active_set (<[a := t]> ts) = (if f_active t then {[ a ]} else ∅) ∪ active_set ts ∖ {[ a ]}.
Proof.
  apply set_eq. intros b. rewrite elem_of_union, elem_of_difference, !elem_of_active, elem_of_singleton.
  destruct (decide (b = a)) as [->|Hne].
  - rewrite lookup_insert_eq. split.
    + intros (t' & [= <-] & ->). left. set_solver.
    + intros [Hb|[_ []]]; [|done]. exists t. split; [done|]. by destruct (f_active t).
  - rewrite lookup_insert_ne by done. split; [by right|]. intros [Hb|[Hb _]]; [|done]. destruct (f_active t); set_solver.
Qed.

Lemma active_set_size ts : (size (active_set ts) ≤ size ts)%nat.
Proof. unfold active_set. rewrite size_dom. apply map_subseteq_size, map_filter_subseteq. Qed.

(** ** The invariant *)

Definition timer_ranges (t : uv_timer) : Prop := 0 ≤ timeout t < 2 ^ 64 ∧ 0 ≤ repeat t < 2 ^ 64.

(** What heap and count have to do with the handles; [others] handles of other kinds are active. *)
Record core_ok (others : Z) (l : uv_loop) : Prop := {
  co_heap : is_heap (timer_less_than (timers l)) (active_set (timers l)) (timer_heap l);
  co_count : active_handles l = unsigned32 (others + Z.of_nat (count counted (timers l)));
  co_ranges : ∀ a t, timers l !! a = Some t → timer_ranges t;
  co_time : 0 ≤ time l < 2 ^ 64;
  co_size : Z.of_nat (size (timers l)) < 2 ^ 32 - 1
}.

Definition timer_ok (t : uv_timer) : Prop :=
  (f_active t = true → is_Some (timer_cb t) ∧ f_closing t = false) ∧ (f_closed t = true → f_closing t = true).

Definition closing (t : uv_timer) : Prop := f_closing t = true ∧ f_closed t = false.

Record loop_ok (others : Z) (l : uv_loop) : Prop := {
  lo_core : core_ok others l;
  lo_timers : ∀ a t, timers l !! a = Some t → timer_ok t;
  lo_nodup : NoDup (closing_handles l);
  lo_closing : ∀ a, a ∈ closing_handles l ↔ ∃ t, timers l !! a = Some t ∧ closing t
}.

(** ** Operations, on the core of the invariant *)

Definition same_loop (l l' : uv_loop) : Prop := time l' = time l ∧ closing_handles l' = closing_handles l.

(** The timer at [a] becomes [t], nothing else of timers, time and closing handles changes. *)
Definition becomes (a : node) (t : uv_timer) (l l' : uv_loop) : Prop :=
  timers l' = <[a := t]> (timers l) ∧ same_loop l l'.

Definition inactive (t : uv_timer) : uv_timer := set_flags false (f_ref t) (f_closing t) (f_closed t) t.
Definition activated (t : uv_timer) : uv_timer := set_flags true (f_ref t) (f_closing t) (f_closed t) t.

Lemma inactive_id t : f_active t = false → inactive t = t.
Proof. destruct t. cbn. by intros ->. Qed.

Lemma timer_at_insert ts a t b : timer_at (<[a := t]> ts) b = if decide (a = b) then t else timer_at ts b.
Proof. unfold timer_at. rewrite lookup_insert. by case_decide. Qed.

Lemma timer_at_lookup (ts : gmap node uv_timer) a t : ts !! a = Some t → timer_at ts a = t.
Proof. unfold timer_at. by intros ->. Qed.

(** Writing a timer whose key, if it is in the heap, stays. *)
Lemma heap_rekey ts a t S h :
  (a ∈ S → key t = key (timer_at ts a)) → is_heap (timer_less_than ts) S h → is_heap (timer_less_than (<[a := t]> ts)) S h.
Proof.
  intros Hk. apply is_heap_ext. intros b c Hb Hc. apply eq_true_iff_eq. rewrite !less_than_key, !timer_at_insert.
  repeat case_decide; subst; rewrite ?Hk by done; done.
Qed.

Lemma put_ranges (ts : gmap node uv_timer) a t :
  (∀ b u, ts !! b = Some u → timer_ranges u) → timer_ranges t → ∀ b u, <[a := t]> ts !! b = Some u → timer_ranges u.
Proof. intros H Ht b u. rewrite lookup_insert. case_decide; [by intros [= <-]|apply H]. Qed.

(** The part of a timer in the count of active handles. *)
Definition weight (t : uv_timer) : Z := if decide (counted t) then 1 else 0.

Lemma active_set_same ts a t t' : ts !! a = Some t → f_active t' = f_active t → active_set (<[a := t']> ts) = active_set ts.
Proof.
  intros Ht Hf. apply set_eq. intros b. rewrite !elem_of_active. destruct (decide (a = b)) as [<-|Hne].
  - rewrite lookup_insert_eq, Ht. split; intros (u & [= <-] & ?); eexists; (split; [done|congruence]).
  - by rewrite lookup_insert_ne.
Qed.

(** Any write to a timer that leaves it where it is in the heap. *)
Lemma core_update o l l' a t t' :
  core_ok o l → timers l !! a = Some t → timers l' = <[a := t']> (timers l) → time l' = time l → timer_heap l' = timer_heap l →
  active_handles l' = unsigned32 (active_handles l + weight t' - weight t) →
  f_active t' = f_active t → (f_active t = true → key t' = key t) → timer_ranges t' → core_ok o l'.
Proof.
  intros [Hh Hc Hr Htm Hs] Ht T' M' H' A' Hf Hk Hrt. split; rewrite ?T', ?M', ?H'; try done.
  - rewrite (active_set_same _ _ _ _ Ht Hf). apply heap_rekey; [|done]. intros (u & Hu & Ha)%elem_of_active.
    rewrite (timer_at_lookup _ _ _ Ht). apply Hk. congruence.
  - rewrite A', Hc. pose proof (count_update counted a t t' _ Ht) as HC. rewrite <- Z.add_sub_assoc. unfold weight. repeat case_decide; wrap_eq.
  - by apply put_ranges.
  - by rewrite map_size_insert_Some.
Qed.

Lemma weight_inactive t : f_active t = false → weight t = 0.
Proof. intros Hf. apply decide_False. intros []. congruence. Qed.

Lemma core_count_id o l : core_ok o l → unsigned32 (active_handles l) = active_handles l.
Proof. intros HC. rewrite (co_count _ _ HC). apply unsigned32_small, unsigned32_range. Qed.

Lemma stop_spec o l a t :
  core_ok o l → timers l !! a = Some t →
  gives (uv_timer_stop a l) (λ l', core_ok o l' ∧ becomes a (inactive t) l l' ∧ timer_counter l' = timer_counter l).
Proof.
  intros HC Ht. unfold uv_timer_stop, handle. rewrite Ht. cbn [mbind option_bind]. unfold uv__is_active.
  destruct (f_active t) eqn:Ef; cbn [negb].
  2: { apply gives_ret. split; [done|]. split; [|done]. split; [|done]. by rewrite inactive_id, insert_id. }
  pose proof (co_size _ _ HC). pose proof (active_set_size (timers l)). destruct HC as [Hh Hc Hr Htm Hs].
  eapply gives_bind, gives_mono; [apply (heap_remove_spec _ (active_set (timers l))); [done|apply elem_of_active; by exists t|lia]|].
  intros h Hh'. unfold uv__handle_stop, handle. cbn [with_heap timers]. rewrite Ht. cbn [mbind option_bind]. rewrite Ef. cbn [negb].
  fold (inactive t). apply gives_ret.
  split; [|by destruct (f_ref t)]. pose proof (count_update counted a t (inactive t) _ Ht) as HC.
  rewrite (decide_False (P := counted (inactive t))) in HC by (by intros []).
  assert (is_heap (timer_less_than (<[a:=inactive t]> (timers l))) (active_set (<[a:=inactive t]> (timers l))) h) as Hh2.
  { rewrite active_set_insert. cbn [inactive set_flags f_active]. rewrite (left_id_L ∅ (∪)). by apply heap_rekey; [set_solver|]. }
  assert (∀ b u, <[a:=inactive t]> (timers l) !! b = Some u → timer_ranges u) as Hr2 by (apply put_ranges; [done|by apply (Hr a t)]).
  assert (Z.of_nat (size (<[a:=inactive t]> (timers l))) < 2 ^ 32 - 1) as Hs2 by (by rewrite map_size_insert_Some).
  destruct (f_ref t) eqn:Er; split; cbn; try done.
  - rewrite Hc. rewrite decide_True in HC by (by split). replace (count counted (timers l)) with (S (count counted (<[a:=inactive t]> (timers l)))) by lia. wrap_eq.
  - rewrite Hc. rewrite decide_False in HC by (intros [? ?]; congruence). by rewrite <- (Nat.add_0_r (count _ (<[a:=_]> _))), HC, Nat.add_0_r.
Qed.

Lemma not_active ts a t : ts !! a = Some t → f_active t = false → a ∉ active_set ts.
Proof. intros Ht Hf (u & Hu & Ha)%elem_of_active. congruence. Qed.

(** A timer enters the heap and the count. *)
Lemma activate_core o l a t h :
  core_ok o l → timers l !! a = Some t → f_active t = false →
  is_heap (timer_less_than (timers l)) ({[ a ]} ∪ active_set (timers l)) h →
  gives (uv__handle_start a (with_heap h l)) (λ l', core_ok o l' ∧ becomes a (activated t) l l' ∧ timer_counter l' = timer_counter l).
Proof.
  intros [Hh Hc Hr Htm Hs] Ht Ef Hh'. unfold uv__handle_start, handle. cbn [with_heap timers]. rewrite Ht. cbn [mbind option_bind]. rewrite Ef.
  fold (activated t). apply gives_ret. split; [|by destruct (f_ref t)].
  pose proof (count_update counted a t (activated t) _ Ht) as HC. rewrite (decide_False (P := counted t)) in HC by (intros [? ?]; congruence).
  assert (is_heap (timer_less_than (<[a:=activated t]> (timers l))) (active_set (<[a:=activated t]> (timers l))) h) as Hh2.
  { rewrite active_set_insert. cbn [activated set_flags f_active]. pose proof (not_active _ _ _ Ht Ef).
    replace (active_set (timers l) ∖ {[a]}) with (active_set (timers l)) by set_solver.
    apply heap_rekey; [|done]. by rewrite (timer_at_lookup _ _ _ Ht). }
  assert (∀ b u, <[a:=activated t]> (timers l) !! b = Some u → timer_ranges u) as Hr2 by (apply put_ranges; [done|by apply (Hr a t)]).
  assert (Z.of_nat (size (<[a:=activated t]> (timers l))) < 2 ^ 32 - 1) as Hs2 by (by rewrite map_size_insert_Some).
  destruct (f_ref t) eqn:Er; split; cbn; try done.
  - rewrite Hc. rewrite decide_True in HC by (by split).
    replace (count counted (<[a:=activated t]> (timers l))) with (S (count counted (timers l))) by lia. wrap_eq.
  - rewrite Hc. rewrite decide_False in HC by (intros [_ ?]; cbn in *; congruence). do 3 f_equal. lia.
Qed.

Lemma clamped_range now t : 0 ≤ now < 2 ^ 64 → 0 ≤ t < 2 ^ 64 → clamped now t = Z.min (now + t) (2 ^ 64 - 1).
Proof.
  intros Hn Ht. unfold clamped, unsigned64. change (-1 mod 2 ^ 64) with (2 ^ 64 - 1). destruct (decide (now + t < 2 ^ 64)).
  - rewrite Z.mod_small by lia. rewrite (proj2 (Z.ltb_ge _ _)) by lia. lia.
  - replace ((now + t) mod 2 ^ 64) with (now + t - 2 ^ 64) by (apply (Z.mod_unique _ _ 1); lia). rewrite (proj2 (Z.ltb_lt _ _)) by lia. lia.
Qed.

Definition started (l : uv_loop) (t : uv_timer) (cb : option Z) (tm rep : Z) : uv_timer :=
  mkUvTimer cb (clamped (time l) tm) rep (timer_counter l) true (f_ref t) (f_closing t) (f_closed t).

Lemma start_spec o l a t cb tm rep :
  core_ok o l → timers l !! a = Some t → uv__is_closing t = false → is_Some cb → 0 ≤ tm < 2 ^ 64 → 0 ≤ rep < 2 ^ 64 →
  gives (uv_timer_start a cb tm rep l) (λ '(r, l'), r = 0 ∧ core_ok o l' ∧ becomes a (started l t cb tm rep) l l').
Proof.
  intros HC Ht Hcl [c ->] Htm Hrep. unfold uv_timer_start. eapply gives_eq; [exact Ht|]. rewrite Hcl, bool_decide_false by done. cbn [orb].
  replace (if uv__is_active t then uv_timer_stop a l else Some l) with (uv_timer_stop a l)
    by (unfold uv_timer_stop, handle; rewrite Ht; cbn; by destruct (uv__is_active t)).
  apply gives_bind. eapply gives_mono; [by apply (stop_spec o l a t)|]. intros l1 (HC1 & [T1 [M1 C1]] & N1).
  assert (timers l1 !! a = Some (inactive t)) as Ht1 by (rewrite T1; apply lookup_insert_eq).
  eapply gives_eq; [exact Ht1|]. set (t1 := mkUvTimer _ _ _ _ _ _ _ _).
  pose proof (co_time _ _ HC). assert (core_ok o (with_timer a t1 l1)) as HC2.
  { eapply (core_update o l1 _ a (inactive t) t1); [done|done|done|done|done| |done|done|].
    - rewrite !weight_inactive, Z.add_0_r, Z.sub_0_r by done. by rewrite (core_count_id o l1).
    - split; [|done]. cbn [t1 timeout]. rewrite M1, clamped_range by done. lia. }
  assert (core_ok o (with_counter (timer_counter l1 + 1) (with_timer a t1 l1))) as HC3 by (by destruct HC2; split).
  set (l2 := with_counter _ _) in *. assert (timers l2 !! a = Some t1) as Ht2 by apply lookup_insert_eq.
  pose proof (co_size _ _ HC3). pose proof (active_set_size (timers l2)).
  apply gives_bind. eapply gives_mono; [apply (heap_insert_spec _ (active_set (timers l2))); [apply HC3|by eapply not_active|lia]|].
  intros h Hh. apply gives_bind. eapply gives_mono; [by apply (activate_core o l2 a t1)|].
  intros l3 (HC4 & [T3 [M3 C3]] & N3). apply gives_ret. split_and!; [done..|]. split; [|split; cbn in *; congruence].
  rewrite T3. cbn. rewrite T1, !insert_insert_eq. f_equal. unfold started, activated, t1, set_flags. cbn. by rewrite M1, N1.
Qed.

Lemma again_spec o l a t :
  core_ok o l → timers l !! a = Some t → uv__is_closing t = false → is_Some (timer_cb t) →
  gives (uv_timer_again a l) (λ '(r, l'), r = 0 ∧ core_ok o l' ∧
    becomes a (if repeat t =? 0 then t else started l t (timer_cb t) (repeat t) (repeat t)) l l').
Proof.
  intros HC Ht Hcl [c Hcb]. unfold uv_timer_again. eapply gives_eq; [exact Ht|]. rewrite Hcb, bool_decide_false by done.
  destruct (repeat t =? 0) eqn:Er; [apply gives_ret; split_and!; [done..|]; split; [|done]; by rewrite insert_id|].
  apply gives_bind. eapply gives_mono; [by apply (stop_spec o l a t)|]. intros l1 (HC1 & [T1 [M1 C1]] & N1).
  assert (timers l1 !! a = Some (inactive t)) as Ht1 by (rewrite T1; apply lookup_insert_eq). eapply gives_eq; [exact Ht1|].
  destruct (co_ranges _ _ HC a t Ht) as [_ Hr].
  apply gives_bind. eapply gives_mono; [by apply (start_spec o l1 a (inactive t)); try done; cbn; rewrite Hcb|].
  intros [r l2] (-> & HC2 & T2 & M2 & C2). apply gives_ret. split_and!; [done..|]. split; [|split; congruence].
  rewrite T2, T1, insert_insert_eq. f_equal. unfold started. cbn. by rewrite M1, N1, Hcb.
Qed.

(** ** Operations, on the whole invariant *)

Lemma loop_becomes o l l' a t t' :
  loop_ok o l → core_ok o l' → becomes a t' l l' → timers l !! a = Some t → timer_ok t' →
  f_closing t' = f_closing t → f_closed t' = f_closed t → loop_ok o l'.
Proof.
  intros [HC Htm Hnd Hcl] HC' [T' [M' C']] Ht Hok H1 H2. split; [done|..]; rewrite ?C'; [|done|].
  - intros b u. rewrite T', lookup_insert. case_decide; [by intros [= <-]|apply Htm].
  - intros b. rewrite Hcl, T'. destruct (decide (a = b)) as [<-|Hne]; [|by rewrite lookup_insert_ne].
    rewrite lookup_insert_eq, Ht. unfold closing. split; intros (u & [= <-] & ? & ?); eexists; (split; [done|split; congruence]).
Qed.

Lemma stop_loop o l a t :
  loop_ok o l → timers l !! a = Some t → gives (uv_timer_stop a l) (λ l', loop_ok o l' ∧ becomes a (inactive t) l l').
Proof.
  intros HL Ht. eapply gives_mono; [apply (stop_spec o); [apply HL|done]|]. intros l' (HC & HB & _). split; [|done].
  eapply loop_becomes; [done..| |done|done]. split; [done|]. apply (lo_timers _ _ HL a t Ht).
Qed.

(** What starting a timer does: nothing while it closes or without a callback. *)
Definition start_result (l : uv_loop) (t : uv_timer) (cb : option Z) (tm rep : Z) : Z * uv_timer :=
  if uv__is_closing t || bool_decide (cb = None) then (UV_EINVAL, t) else (0, started l t cb tm rep).

Lemma start_loop o l a t cb tm rep :
  loop_ok o l → timers l !! a = Some t → 0 ≤ tm < 2 ^ 64 → 0 ≤ rep < 2 ^ 64 →
  gives (uv_timer_start a cb tm rep l) (λ '(r, l'), loop_ok o l' ∧ r = (start_result l t cb tm rep).1 ∧
    becomes a (start_result l t cb tm rep).2 l l').
Proof.
  intros HL Ht Htm Hrep. unfold start_result. destruct (uv__is_closing t || bool_decide (cb = None)) eqn:E.
  - unfold uv_timer_start. eapply gives_eq; [exact Ht|]. rewrite E. apply gives_ret. split_and!; [done..|]. split; [|done]. by rewrite insert_id.
  - apply orb_false_iff in E as [Ec Eb%bool_decide_eq_false]. apply not_eq_None_Some in Eb.
    eapply gives_mono; [by apply (start_spec o); [apply HL|..]|]. intros [r l'] (-> & HC & HB). split_and!; [|done..].
    eapply loop_becomes; [done..| |done|done]. apply orb_false_iff in Ec as [E1 E2]. by split; cbn; rewrite ?E1, ?E2.
Qed.

Definition again_result (l : uv_loop) (t : uv_timer) : Z * uv_timer :=
  if bool_decide (timer_cb t = None) then (UV_EINVAL, t)
  else if repeat t =? 0 then (0, t)
  else (0, if uv__is_closing t then inactive t else started l t (timer_cb t) (repeat t) (repeat t)).

Lemma again_loop o l a t :
  loop_ok o l → timers l !! a = Some t →
  gives (uv_timer_again a l) (λ '(r, l'), loop_ok o l' ∧ r = (again_result l t).1 ∧ becomes a (again_result l t).2 l l').
Proof.
  intros HL Ht. unfold uv_timer_again, again_result. eapply gives_eq; [exact Ht|].
  destruct (bool_decide (timer_cb t = None)) eqn:Eb; [apply gives_ret; split_and!; [done..|]; split; [|done]; by rewrite insert_id|].
  destruct (repeat t =? 0) eqn:Er; [apply gives_ret; split_and!; [done..|]; split; [|done]; by rewrite insert_id|].
  destruct (co_ranges _ _ (lo_core _ _ HL) a t Ht) as [_ Hr].
  apply gives_bind. eapply gives_mono; [apply (stop_spec o); [apply HL|done]|]. intros l1 (HC1 & [T1 [M1 C1]] & N1).
  assert (timers l1 !! a = Some (inactive t)) as Ht1 by (rewrite T1; apply lookup_insert_eq). eapply gives_eq; [exact Ht1|].
  assert (loop_ok o l1) as HL1.
  { eapply (loop_becomes o l l1 a t (inactive t)); try done. split; [done|]. apply (lo_timers _ _ HL a t Ht). }
  apply gives_bind. eapply gives_mono; [by apply (start_loop o l1 a (inactive t))|].
  intros [r l2] (HL2 & _ & T2 & M2 & C2). apply gives_ret. split_and!; [done..|]. split; [|split; congruence].
  rewrite T2, T1, insert_insert_eq. f_equal. unfold start_result. change (uv__is_closing (inactive t)) with (uv__is_closing t). cbn [inactive timer_cb set_flags].
  rewrite Eb, orb_false_r. destruct (uv__is_closing t); [done|]. unfold started. cbn. by rewrite M1, N1.
Qed.

(** A write of flags or of the repeat value. *)
Lemma flags_loop o l l' a t t' :
  loop_ok o l → timers l !! a = Some t → becomes a t' l l' → timer_heap l' = timer_heap l →
  active_handles l' = unsigned32 (active_handles l + weight t' - weight t) →
  key t' = key t → f_active t' = f_active t → timer_ranges t' → timer_ok t' →
  f_closing t' = f_closing t → f_closed t' = f_closed t → loop_ok o l'.
Proof.
  intros HL Ht HB Hh Ha Hk Hf Hr Hok H1 H2. eapply loop_becomes; [done| |done..]. destruct HB as [T' [M' C']].
  eapply (core_update o l l' a t t'); try done. apply HL.
Qed.

Lemma repeat_loop o l a t rep :
  loop_ok o l → timers l !! a = Some t → 0 ≤ rep < 2 ^ 64 → gives (uv_timer_set_repeat a rep l) (loop_ok o).
Proof.
  intros HL Ht Hr. unfold uv_timer_set_repeat. eapply gives_eq; [exact Ht|]. apply gives_ret.
  set (t' := mkUvTimer _ _ rep _ _ _ _ _). eapply (flags_loop o l _ a t t'); try done.
  - change (weight t') with (weight t). rewrite Z.add_simpl_r, (core_count_id o l); [done|apply HL].
  - split; [|done]. apply (co_ranges _ _ (lo_core _ _ HL) a t Ht).
  - apply (lo_timers _ _ HL a t Ht).
Qed.

Lemma ref_loop o l a t :
  loop_ok o l → timers l !! a = Some t → gives (uv_ref a l) (loop_ok o).
Proof.
  intros HL Ht. unfold uv_ref. eapply gives_eq; [exact Ht|]. apply gives_ret. destruct (f_ref t) eqn:Er; [done|].
  pose proof (lo_timers _ _ HL a t Ht) as Hok. set (t' := set_flags _ _ _ _ t).
  eapply (flags_loop o l _ a t t'); try done.
  - by destruct (f_closing t), (f_active t).
  - by destruct (f_closing t), (f_active t).
  - assert (weight t = 0) as -> by (apply decide_False; intros []; congruence).
    destruct (f_active t) eqn:Ea.
    + destruct Hok as [Hok _]. rewrite (proj2 (Hok Ea)). assert (weight t' = 1) as -> by (by apply decide_True). cbn. f_equal. lia.
    + rewrite (weight_inactive t') by done. rewrite Z.add_0_r, Z.sub_0_r. destruct (f_closing t); by rewrite (core_count_id o l); [|apply HL].
  - apply (co_ranges _ _ (lo_core _ _ HL) a t Ht).
Qed.

Lemma unref_loop o l a t :
  loop_ok o l → timers l !! a = Some t → gives (uv_unref a l) (loop_ok o).
Proof.
  intros HL Ht. unfold uv_unref. eapply gives_eq; [exact Ht|]. apply gives_ret. destruct (f_ref t) eqn:Er; cbn [negb]; [|done].
  pose proof (lo_timers _ _ HL a t Ht) as Hok. set (t' := set_flags _ _ _ _ t).
  eapply (flags_loop o l _ a t t'); try done.
  - by destruct (f_closing t), (f_active t).
  - by destruct (f_closing t), (f_active t).
  - assert (weight t' = 0) as -> by (by apply decide_False; intros []).
    destruct (f_active t) eqn:Ea.
    + destruct Hok as [Hok _]. rewrite (proj2 (Hok Ea)). assert (weight t = 1) as -> by (by apply decide_True). cbn. f_equal. lia.
    + rewrite (weight_inactive t) by done. rewrite Z.add_0_r, Z.sub_0_r. destruct (f_closing t); by rewrite (core_count_id o l); [|apply HL].
  - apply (co_ranges _ _ (lo_core _ _ HL) a t Ht).
Qed.

(** A timer is created in memory that holds none, or one that is closed. *)
Definition creatable (l : uv_loop) (a : node) : Prop :=
  match timers l !! a with
  | None => Z.of_nat (S (size (timers l))) < 2 ^ 32 - 1
  | Some t => f_closed t = true
  end.

Lemma init_loop o l a : loop_ok o l → creatable l a → loop_ok o (uv_timer_init a l).
Proof.
  intros HL Hcr. unfold uv_timer_init. set (t' := mkUvTimer _ _ _ _ _ _ _ _).
  assert (a ∉ active_set (timers l)) as Ha.
  { intros (t & Ht & Hf)%elem_of_active. unfold creatable in Hcr. rewrite Ht in Hcr. destruct (lo_timers _ _ HL a t Ht) as [H1 H2].
    destruct (H1 Hf) as [_ H3]. rewrite (H2 Hcr) in H3. done. }
  assert (timer_ranges t') as Hr'.
  { split; [|cbn; lia]. unfold t', timer_at. cbn. destruct (timers l !! a) as [t|] eqn:E; cbn; [|lia]. apply (co_ranges _ _ (lo_core _ _ HL) a t E). }
  destruct HL as [[Hh Hc Hr Htm Hs] Hok Hnd Hcl]. split; [split; cbn|..].
  - rewrite active_set_insert. cbn. rewrite (left_id_L ∅ (∪)). replace (active_set (timers l) ∖ {[a]}) with (active_set (timers l)) by set_solver. by apply heap_rekey.
  - rewrite Hc, count_insert, decide_False by (by intros []). do 3 f_equal. cbn [Nat.add].
    destruct (timers l !! a) as [t|] eqn:E; [|by rewrite delete_id]. rewrite (count_lookup counted a t _ E), decide_False; [done|].
    intros [Hf _]. apply Ha, elem_of_active. by exists t.
  - by apply put_ranges.
  - done.
  - rewrite map_size_insert. unfold creatable in Hcr. destruct (timers l !! a); [done|]. lia.
  - intros b u. cbn. rewrite lookup_insert. case_decide; [by intros [= <-]|apply Hok].
  - done.
  - intros b. cbn. rewrite Hcl. destruct (decide (a = b)) as [<-|Hne]; [|by rewrite lookup_insert_ne]. rewrite lookup_insert_eq.
    unfold creatable in Hcr. split; intros (t & Ht & H1 & H2); [rewrite Ht in Hcr; congruence|]. injection Ht as <-. done.
Qed.

Lemma core_closing o l c : core_ok o l → core_ok o (with_closing c l).
Proof. by intros []. Qed.

(** A timer that was closed, until its close callback is called. *)
Definition shut (t : uv_timer) : uv_timer := set_flags false (f_ref t) true (f_closed t) t.

Lemma close_loop o l a t :
  loop_ok o l → timers l !! a = Some t → uv__is_closing t = false →
  gives (uv_close a l) (λ l', loop_ok o l' ∧ timers l' = <[a := shut t]> (timers l) ∧ time l' = time l).
Proof.
  intros HL Ht Hcl. unfold uv_close. eapply gives_eq; [exact Ht|]. rewrite Hcl. set (t0 := set_flags _ _ true _ t). set (l0 := with_timer a t0 l).
  apply orb_false_iff in Hcl as [E1 E2]. assert (core_ok o l0) as HC0.
  { eapply (core_update o l l0 a t t0); try done; [apply HL|..|apply (co_ranges _ _ (lo_core _ _ HL) a t Ht)].
    change (weight t0) with (weight t). rewrite Z.add_simpl_r, (core_count_id o l); [done|apply HL]. }
  unfold uv__timer_close. apply gives_bind. eapply gives_mono; [apply (stop_spec o l0 a t0 HC0), lookup_insert_eq|].
  intros l1 (HC1 & [T1 [M1 C1]] & _). cbn in T1, C1. rewrite insert_insert_eq in T1.
  unfold uv__make_close_pending. eapply gives_eq; [unfold handle; rewrite T1; apply lookup_insert_eq|]. cbn. rewrite E2. cbn. apply gives_ret.
  pose proof (lo_closing _ _ HL) as HCl. assert (a ∉ closing_handles l) as Hna by (intros (u & Hu & H1 & H2)%HCl; congruence).
  split; [|done]. split; cbn; rewrite ?T1, ?C1.
  - by apply core_closing.
  - intros b u. rewrite lookup_insert. case_decide; [intros [= <-]; split; [done|]; cbn; by rewrite E2|apply (lo_timers _ _ HL)].
  - apply NoDup_cons. split; [done|apply HL].
  - intros b. rewrite elem_of_cons, HCl. destruct (decide (a = b)) as [<-|Hne].
    + rewrite lookup_insert_eq. split; [intros _|by left]. eexists. split; [done|]. by split.
    + rewrite lookup_insert_ne by done. split; [by intros [->|?]|by right].
Qed.

Definition finished (t : uv_timer) : uv_timer := set_flags (f_active t) false (f_closing t) true t.

Lemma finish_spec o l a t :
  core_ok o l → timers l !! a = Some t → closing t → f_active t = false →
  gives (uv__finish_close a l) (λ l', core_ok o l' ∧ becomes a (finished t) l l').
Proof.
  intros HC Ht [H1 H2] Hf. unfold uv__finish_close. eapply gives_eq; [exact Ht|]. rewrite H1, H2. cbn [negb andb].
  set (t0 := set_flags _ _ _ _ t). set (l0 := with_timer a t0 l). assert (core_ok o l0) as HC0.
  { eapply (core_update o l l0 a t t0); try done; [|apply (co_ranges _ _ HC a t Ht)].
    change (weight t0) with (weight t). by rewrite Z.add_simpl_r, (core_count_id o l). }
  unfold uv_unref. eapply gives_eq; [apply lookup_insert_eq|]. apply gives_ret. cbn [t0 set_flags f_ref f_closing].
  unfold finished. rewrite H1. destruct (f_ref t) eqn:Er; cbn [negb].
  - set (t1 := set_flags _ false _ _ t0). replace (set_flags (f_active t) false true true t) with t1 by done.
    split; [|split; [|done]; cbn; by rewrite insert_insert_eq].
    eapply (core_update o l0 _ a t0 t1); try done; [apply lookup_insert_eq| |apply (co_ranges _ _ HC a t Ht)].
    rewrite !weight_inactive, Z.add_0_r, Z.sub_0_r by done. by rewrite (core_count_id o l0).
  - split; [done|]. split; [|done]. cbn. f_equal.
Qed.

Lemma finish_all_spec o p l :
  core_ok o l → (∀ b u, timers l !! b = Some u → timer_ok u) → NoDup p →
  (∀ b, b ∈ p ↔ ∃ u, timers l !! b = Some u ∧ closing u) →
  gives (finish_all p l) (λ l', core_ok o l' ∧ (∀ b u, timers l' !! b = Some u → timer_ok u ∧ ¬ closing u) ∧ same_loop l l').
Proof.
  revert l. induction p as [|a p IH]; intros l HC Hok Hnd Hcl; cbn [finish_all].
  - apply gives_ret. split_and!; [done| |done]. intros b u Hb. split; [by eapply Hok|]. intros Hc.
    assert (b ∈ (@nil node)) as Hin by (apply Hcl; by exists u). by apply elem_of_nil in Hin.
  - apply NoDup_cons in Hnd as [Hna Hnd]. destruct (proj1 (Hcl a)) as (t & Ht & Hc); [by left|].
    assert (f_active t = false) as Hf.
    { destruct (f_active t) eqn:E; [|done]. destruct (Hok a t Ht) as [H1 _], Hc as [H2 _]. destruct (H1 E). congruence. }
    apply gives_bind. eapply gives_mono; [by apply (finish_spec o l a t)|]. intros l1 (HC1 & T1 & M1 & C1).
    eapply gives_mono; [apply (IH l1 HC1)|].
    + intros b u. rewrite T1, lookup_insert. case_decide; [|by apply Hok]. intros [= <-]. split; cbn; [congruence|]. by intros _; apply Hc.
    + done.
    + intros b. rewrite T1. destruct (decide (a = b)) as [<-|Hne].
      * rewrite lookup_insert_eq. split; [done|]. intros (u & [= <-] & ? & ?). done.
      * rewrite lookup_insert_ne, <- Hcl by done. rewrite elem_of_cons. split; [by right|]. by intros [->|?].
    + intros l2 (HC2 & H2 & M2 & C2). split_and!; [done..|]. split; congruence.
Qed.

Lemma run_closing_loop o l :
  loop_ok o l → gives (uv__run_closing_handles l) (λ l', loop_ok o l' ∧ closing_handles l' = []).
Proof.
  intros HL. unfold uv__run_closing_handles. eapply gives_mono; [apply (finish_all_spec o); [by apply core_closing, HL|apply HL..]|].
  intros l' (HC & H1 & M & C). split; [|done]. split; [done|by intros b u Hb; apply (H1 b u)|by rewrite C; apply NoDup_nil_2|].
  intros b. rewrite C. split; [by intros ?%elem_of_nil|]. intros (u & Hu & Hc). by destruct (H1 b u Hu).
Qed.

Lemma update_time_loop o l hr : loop_ok o l → 0 ≤ hr < 2 ^ 64 → loop_ok o (uv__update_time hr l).
Proof.
  intros [[Hh Hc Hr Htm Hs] Hok Hnd Hcl] Hhr. split; [split; try done; cbn|done..].
  split; [apply Z.div_pos; lia|]. apply Z.div_lt_upper_bound; lia.
Qed.

(** ** Any sequence of operations *)

Inductive timer_op :=
  | TInit (a : node)
  | TStart (a : node) (cb : option Z) (tm rep : Z)
  | TStop (a : node)
  | TAgain (a : node)
  | TRepeat (a : node) (rep : Z)
  | TRef (a : node)
  | TUnref (a : node)
  | TClose (a : node)
  | TClosing
  | TTime (hrtime : Z)
  | TFree (a : node).

Definition do_op (op : timer_op) (l : uv_loop) : option uv_loop :=
  match op with
  | TInit a => Some (uv_timer_init a l)
  | TStart a cb tm rep => snd <$> uv_timer_start a cb tm rep l
  | TStop a => uv_timer_stop a l
  | TAgain a => snd <$> uv_timer_again a l
  | TRepeat a rep => uv_timer_set_repeat a rep l
  | TRef a => uv_ref a l
  | TUnref a => uv_unref a l
  | TClose a => uv_close a l
  | TClosing => uv__run_closing_handles l
  | TTime hr => Some (uv__update_time hr l)
  | TFree a => Some (mkLoop (time l) (timer_counter l) (timer_heap l) (delete a (timers l)) (active_handles l) (closing_handles l))
  end.

(** How the operations may be used: on timers that exist, closing one once, freeing it when it is closed. *)
Definition op_ok (l : uv_loop) (op : timer_op) : Prop :=
  match op with
  | TInit a => creatable l a
  | TStart a _ tm rep => is_Some (timers l !! a) ∧ 0 ≤ tm < 2 ^ 64 ∧ 0 ≤ rep < 2 ^ 64
  | TRepeat a rep => is_Some (timers l !! a) ∧ 0 ≤ rep < 2 ^ 64
  | TStop a | TAgain a | TRef a | TUnref a => is_Some (timers l !! a)
  | TClose a => ∃ t, timers l !! a = Some t ∧ uv__is_closing t = false
  | TClosing => True
  | TTime hr => 0 ≤ hr < 2 ^ 64
  | TFree a => ∃ t, timers l !! a = Some t ∧ f_closed t = true
  end.

Lemma gives_fmap {A B} (f : A → B) (m : option A) (Q : B → Prop) : gives m (λ x, Q (f x)) → gives (f <$> m) Q.
Proof. intros (x & -> & H). by exists (f x). Qed.

Lemma free_loop o l a t :
  loop_ok o l → timers l !! a = Some t → f_closed t = true → gives (do_op (TFree a) l) (loop_ok o).
Proof.
  intros HL Ht Hcl. apply gives_ret. destruct (lo_timers _ _ HL a t Ht) as [H1 H2].
  assert (f_active t = false) as Hf by (destruct (f_active t); [destruct (H1 eq_refl); rewrite H2 in *; done|done]).
  destruct HL as [[Hh Hc Hr Htm Hs] Hok Hnd HCl]. pose proof (not_active _ _ _ Ht Hf) as Hna. split; [split; cbn|cbn..].
  - replace (active_set (delete a (timers l))) with (active_set (timers l)).
    + eapply is_heap_ext; [|exact Hh]. intros b c Hb Hc'. unfold timer_less_than, timer_at. rewrite !lookup_delete_ne; [done|set_solver..].
    + apply set_eq. intros b. rewrite !elem_of_active. destruct (decide (a = b)) as [<-|Hne]; [|by rewrite lookup_delete_ne].
      rewrite lookup_delete_eq. split; [intros (u & Hu & ?); congruence|by intros (u & ? & ?)].
  - rewrite Hc, (count_lookup counted a t _ Ht), decide_False; [done|]. intros []. congruence.
  - intros b u [_ Hu]%lookup_delete_Some. by eapply Hr.
  - done.
  - rewrite map_size_delete_Some by (by eexists). lia.
  - intros b u [_ Hu]%lookup_delete_Some. by eapply Hok.
  - done.
  - intros b. rewrite HCl. destruct (decide (a = b)) as [<-|Hne]; [|by rewrite lookup_delete_ne]. rewrite lookup_delete_eq.
    split; [intros (u & Hu & ? & ?); congruence|by intros (u & ? & ?)].
Qed.

Lemma op_loop o l op : loop_ok o l → op_ok l op → gives (do_op op l) (loop_ok o).
Proof.
  intros HL Hop. destruct op; cbn [do_op op_ok] in *.
  - apply gives_ret. by apply init_loop.
  - destruct Hop as ([t Ht] & ? & ?). apply gives_fmap. eapply gives_mono; [by apply (start_loop o l a t)|]. by intros [r l'] (? & _).
  - destruct Hop as [t Ht]. eapply gives_mono; [by apply (stop_loop o l a t)|]. by intros l' (? & _).
  - destruct Hop as [t Ht]. apply gives_fmap. eapply gives_mono; [by apply (again_loop o l a t)|]. by intros [r l'] (? & _).
  - destruct Hop as ([t Ht] & ?). by apply (repeat_loop o l a t).
  - destruct Hop as [t Ht]. by apply (ref_loop o l a t).
  - destruct Hop as [t Ht]. by apply (unref_loop o l a t).
  - destruct Hop as (t & Ht & ?). eapply gives_mono; [by apply (close_loop o l a t)|]. by intros l' (? & _).
  - eapply gives_mono; [by apply run_closing_loop|]. by intros l' [? _].
  - apply gives_ret. by apply update_time_loop.
  - destruct Hop as (t & Ht & ?). by apply (free_loop o l a t).
Qed.

(** The loops that operations lead to, from a new one with [others] active handles. *)
Inductive reachable (others : Z) : uv_loop → Prop :=
  | reach_new ts : 0 ≤ ts < 2 ^ 64 → reachable others (mkLoop ts 0 (heap_init (mkHeap None 0 ∅)) ∅ (unsigned32 others) [])
  | reach_op l l' op : reachable others l → op_ok l op → do_op op l = Some l' → reachable others l'.

Lemma new_loop_ok o ts : 0 ≤ ts < 2 ^ 64 → loop_ok o (mkLoop ts 0 (heap_init (mkHeap None 0 ∅)) ∅ (unsigned32 o) []).
Proof.
  intros Hts. split; [split; cbn|cbn..].
  - apply heap_init_spec, _.
  - f_equal. unfold count. rewrite map_filter_empty, map_size_empty. lia.
  - by intros a t.
  - done.
  - by rewrite map_size_empty.
  - by intros a t.
  - apply NoDup_nil_2.
  - intros a. split; [by intros ?%elem_of_nil|by intros (t & ? & _)].
Qed.

Lemma reachable_ok o l : reachable o l → loop_ok o l.
Proof.
  induction 1 as [ts Hts|l l' op _ IH Hop Hdo]; [by apply new_loop_ok|].
  destruct (op_loop o l op IH Hop) as (l2 & Hl2 & H2). congruence.
Qed.

(** The next timer: the least of the active ones. *)
Lemma min_spec o l : loop_ok o l →
  match heap_min (timer_heap l) with
  | None => active_set (timers l) = ∅
  | Some a => ∃ t, timers l !! a = Some t ∧ f_active t = true ∧ is_Some (timer_cb t) ∧ uv__is_closing t = false ∧ timer_ranges t ∧
      ∀ b u, timers l !! b = Some u → f_active u = true → ¬ key_lt (key u) (key t)
  end.
Proof.
  intros HL. pose proof (heap_min_spec _ _ _ (co_heap _ _ (lo_core _ _ HL))) as HM. destruct (heap_min (timer_heap l)) as [a|]; [|done].
  destruct HM as [(t & Ht & Hf)%elem_of_active Hmin]. exists t. destruct (lo_timers _ _ HL a t Ht) as [H1 H2]. destruct (H1 Hf) as [Hcb Hcl].
  split_and!; [done..| |by apply (co_ranges _ _ (lo_core _ _ HL) a t)|].
  - unfold uv__is_closing. rewrite Hcl. destruct (f_closed t); [|done]. by rewrite H2 in Hcl.
  - intros b u Hu Ha. pose proof (proj1 (less_than_not _ _ _) (Hmin b ltac:(apply elem_of_active; by exists u))) as HN.
    by rewrite (timer_at_lookup _ _ _ Ht), (timer_at_lookup _ _ _ Hu) in HN.
Qed.

(** The loop is told to sleep until the first active timer is due, no longer than an int can say; -1 without one. *)
Lemma next_timeout_spec o l : loop_ok o l →
  gives (uv__next_timeout l) (λ d,
    d = -1 ∧ active_set (timers l) = ∅ ∨
    0 ≤ d ≤ INT_MAX ∧ (∀ b u, timers l !! b = Some u → f_active u = true → d ≤ Z.max 0 (timeout u - time l)) ∧
    (d = INT_MAX ∨ ∃ b u, timers l !! b = Some u ∧ f_active u = true ∧ d = Z.max 0 (timeout u - time l))).
Proof.
  intros HL. pose proof (min_spec o l HL) as HM. pose proof (co_time _ _ (lo_core _ _ HL)). unfold uv__next_timeout.
  destruct (heap_min (timer_heap l)) as [a|]; [|apply gives_ret; by left].
  destruct HM as (t & Ht & Hf & _ & _ & _ & Hmin). eapply gives_eq; [exact Ht|]. apply gives_ret. right.
  assert (∀ b u, timers l !! b = Some u → f_active u = true → timeout t ≤ timeout u) as Hle.
  { intros b u Hu Ha. pose proof (Hmin b u Hu Ha) as HN. unfold key_lt, key in HN. cbn in HN. lia. }
  unfold INT_MAX. destruct (Z.leb_spec (timeout t) (time l)); [|destruct (Z.ltb_spec (2 ^ 31 - 1) (timeout t - time l))].
  - split_and!; [lia..| |right; exists a, t; split_and!; [done..|lia]]. lia.
  - split_and!; [lia..| |by left]. intros b u Hu Ha. pose proof (Hle b u Hu Ha). lia.
  - split_and!; [lia..| |right; exists a, t; split_and!; [done..|lia]]. intros b u Hu Ha. pose proof (Hle b u Hu Ha). lia.
Qed.
