(* ===== verification/UvTimerRun.v ===== *)
(** * libuv's timers: running those that are due

    [uv__run_timers] against what it relies on of the callbacks ([Callback]):
    it ends, calls every due timer once, in order, and none is due afterwards.
    Callbacks that start timers with a timeout of zero make it run forever. *)

From Stdlib Require Import Sorted.
From S2P Require Import Prelude UvHeap UvHeapProofs UvHeapSpec UvTimer UvTimerProofs.

Definition due (now : Z) (t : uv_timer) : Prop := f_active t = true ∧ timeout t ≤ now.
#[export] Instance due_dec now t : Decision (due now t).
Proof. unfold due. apply _. Defined.

(** No timer has become due. *)
Definition later (now : Z) (m m' : gmap node uv_timer) : Prop :=
  ∀ b u', m' !! b = Some u' → due now u' → ∃ u, m !! b = Some u ∧ due now u ∧ key u' = key u.

Lemma later_refl now m : later now m m.
Proof. intros b u Hb Hu. by exists u. Qed.

Lemma later_trans now m m' m'' : later now m m' → later now m' m'' → later now m m''.
Proof. intros H1 H2 b u'' Hb Hd. destruct (H2 b u'' Hb Hd) as (u' & Hu' & Hd' & E). destruct (H1 b u' Hu' Hd') as (u & ? & ? & ?). exists u. by rewrite E. Qed.

Lemma later_put now m a t :
  (due now t → ∃ u, m !! a = Some u ∧ due now u ∧ key t = key u) → later now m (<[a := t]> m).
Proof. intros H b u'. rewrite lookup_insert. case_decide; [intros [= <-]; by subst|]. intros Hb Hu. by exists u'. Qed.

Lemma later_count now m m' : later now m m' → (count (due now) m' ≤ count (due now) m)%nat.
Proof.
  intros HL. unfold count. rewrite <- !size_dom. apply subseteq_size. intros b. rewrite !elem_of_dom. unfold is_Some.
  setoid_rewrite map_lookup_filter_Some. intros (u' & Hb & Hd). destruct (HL b u' Hb Hd) as (u & ? & ? & _). by exists u.
Qed.

(** Only timers of [X] are written. *)
Definition untouched (X : gset node) (m m' : gmap node uv_timer) : Prop := ∀ b, b ∉ X → m' !! b = m !! b.

(** What the loop relies on of callbacks: they keep the invariant and make no further timer due; [touched] are the timers they write. *)
Class Callback (o : Z) (call : Z → node → uv_loop → option uv_loop) (touched : Z → node → gset node) : Prop := {
  call_ok cb a l :
    loop_ok o l → time l < 2 ^ 64 - 1 → is_Some (timers l !! a) →
    gives (call cb a l) (λ l', loop_ok o l' ∧ time l' = time l ∧ later (time l) (timers l) (timers l') ∧
      untouched (touched cb a) (timers l) (timers l'))
}.

(** A timer after it was called: armed again from now on if it repeats. *)
Record called (now : Z) (t u : uv_timer) : Prop := {
  ca_cb : timer_cb u = timer_cb t;
  ca_repeat : repeat u = repeat t;
  ca_closing : uv__is_closing u = uv__is_closing t;
  ca_active : f_active u = negb (repeat t =? 0);
  ca_timeout : repeat t ≠ 0 → timeout u = Z.min (now + repeat t) (2 ^ 64 - 1)
}.

(** Stopping and arming again. *)
Lemma fire_spec o l a t :
  loop_ok o l → timers l !! a = Some t → is_Some (timer_cb t) → uv__is_closing t = false →
  gives (uv_timer_stop a l ≫= uv_timer_again a) (λ '(_, l'), loop_ok o l' ∧ time l' = time l ∧
    ∃ u, timers l' = <[a := u]> (timers l) ∧ called (time l) t u).
Proof.
  intros HL Ht Hcb Hcl. apply gives_bind. eapply gives_mono; [by apply (stop_loop o l a t)|]. intros l1 (HL1 & T1 & M1 & C1).
  assert (timers l1 !! a = Some (inactive t)) as Ht1 by (rewrite T1; apply lookup_insert_eq).
  eapply gives_mono; [by apply (again_loop o l1 a (inactive t))|]. intros [r l2] (HL2 & _ & T2 & M2 & C2). split; [done|]. split; [congruence|].
  exists (again_result l1 (inactive t)).2. split; [by rewrite T2, T1, insert_insert_eq|].
  destruct (co_ranges _ _ (lo_core _ _ HL) a t Ht) as [_ Hr]. pose proof (co_time _ _ (lo_core _ _ HL)).
  unfold again_result. change (uv__is_closing (inactive t)) with (uv__is_closing t). cbn [inactive set_flags timer_cb repeat].
  rewrite bool_decide_false by (by apply not_eq_None_Some). rewrite Hcl.
  destruct (Z.eqb_spec (repeat t) 0) as [E|E]; cbn [snd]; split; try done.
  - cbn. by rewrite (proj2 (Z.eqb_eq _ _)).
  - cbn. by rewrite (proj2 (Z.eqb_neq _ _)).
  - intros _. cbn. rewrite M1. by apply clamped_range.
Qed.

Lemma called_not_due now t u : 0 ≤ repeat t → now < 2 ^ 64 - 1 → called now t u → ¬ due now u.
Proof.
  intros Hr Hn [_ _ _ Ha Ht] [Hf Hle]. rewrite Hf in Ha. destruct (Z.eqb_spec (repeat t) 0) as [|Hne]; [done|]. rewrite (Ht Hne) in Hle. lia.
Qed.

Definition touches (touched : Z → node → gset node) (cs : calls) (a : node) : Prop :=
  ∃ b t cb, (b, t) ∈ cs ∧ timer_cb t = Some cb ∧ a ∈ touched cb b.

Definition in_order : calls → Prop := StronglySorted (λ x y, ¬ key_lt (key y.2) (key x.2)).

(** What a run of the timers does. *)
Record timers_ran (touched : Z → node → gset node) (l l' : uv_loop) (cs : calls) : Prop := {
  tr_time : time l' = time l;
  tr_none_due : ∀ b u, timers l' !! b = Some u → ¬ due (time l) u;
  tr_were_due : ∀ a t, (a, t) ∈ cs → ∃ u, timers l !! a = Some u ∧ due (time l) u ∧ key t = key u;
  tr_once : NoDup cs.*1;
  tr_order : in_order cs;
  tr_all : ∀ a t, timers l !! a = Some t → ¬ touches touched cs a →
    if decide (due (time l) t) then (a, t) ∈ cs ∧ ∃ u, timers l' !! a = Some u ∧ called (time l) t u
    else timers l' !! a = Some t
}.

Section run.
  Context (o : Z) (call : Z → node → uv_loop → option uv_loop) (touched : Z → node → gset node) `{!Callback o call touched}.

(** Nothing is due. *)
Lemma run_none l :
  loop_ok o l → (∀ b u, timers l !! b = Some u → ¬ due (time l) u) → timers_ran touched l l [].
Proof using Type*.
  intros HL Hn. split; try done.
  - by intros a t ?%elem_of_nil.
  - apply NoDup_nil_2.
  - constructor.
  - intros a t Ht _. rewrite decide_False; [done|by eapply Hn].
Qed.

(** One timer is called, then the others are run. *)
Lemma run_cons l l2 l3 l' a t u cb cs :
  timers l !! a = Some t → due (time l) t → timer_cb t = Some cb →
  (∀ b v, timers l !! b = Some v → f_active v = true → ¬ key_lt (key v) (key t)) →
  timers l2 = <[a := u]> (timers l) → called (time l) t u → ¬ due (time l) u →
  time l2 = time l → time l3 = time l2 → later (time l2) (timers l2) (timers l3) → untouched (touched cb a) (timers l2) (timers l3) →
  timers_ran touched l3 l' cs → timers_ran touched l l' ((a, t) :: cs).
Proof using Type*.
  intros Ht Hd Hcb Hmin T2 Hca Hnd M2 M3 Hla Hun [R1 R2 R3 R4 R5 R6]. rewrite M3, M2 in R2, R3, R6. rewrite M2 in Hla.
  assert (∀ b v, (b, v) ∈ cs → b ≠ a ∧ ∃ w, timers l !! b = Some w ∧ due (time l) w ∧ key v = key w) as Hcs.
  { intros b v Hb. destruct (R3 b v Hb) as (w3 & H3 & D3 & K3). destruct (Hla b w3 H3 D3) as (w & H2 & D2 & K2). rewrite T2 in H2.
    assert (b ≠ a) as Hne by (intros ->; rewrite lookup_insert_eq in H2; congruence).
    split; [done|]. rewrite lookup_insert_ne in H2 by done. exists w. by rewrite K3. }
  split.
  - congruence.
  - done.
  - intros b v [[= -> ->]|Hb]%elem_of_cons; [by exists t|]. by apply Hcs.
  - apply NoDup_cons. split; [|done]. intros ([b v] & Hb & Hin)%list_elem_of_fmap. cbn in Hb. subst b. by destruct (Hcs a v Hin).
  - constructor; [done|]. apply Forall_forall. intros [b v] Hb. cbn. destruct (Hcs b v Hb) as (_ & w & Hw & [Ha _] & ->). by eapply Hmin.
  - intros b v Hb Hto. assert (b ∉ touched cb a) as Hnt.
    { intros Hin. apply Hto. exists a, t, cb. split_and!; [by left|done..]. }
    assert (¬ touches touched cs b) as Hto' by (intros (c & w & cb' & ? & ? & ?); apply Hto; exists c, w, cb'; split_and!; [by right|done..]).
    assert (timers l3 !! b = <[a := u]> (timers l) !! b) as H3 by (by rewrite <- T2, Hun).
    destruct (decide (b = a)) as [->|Hne].
    + assert (v = t) as -> by congruence. rewrite decide_True by done. rewrite lookup_insert_eq in H3. split; [by left|]. exists u. split; [|done].
      specialize (R6 a u H3 Hto'). by rewrite decide_False in R6.
    + rewrite lookup_insert_ne, Hb in H3 by done. specialize (R6 b v H3 Hto'). case_decide; [|done]. destruct R6 as [? ?]. split; [by right|done].
Qed.

(** The head of the loop: it ends with nothing due, or the first timer is due and the least of all. *)
Lemma head_cases l : loop_ok o l →
  (∀ b u, timers l !! b = Some u → ¬ due (time l) u) ∧ (∀ fuel, uv__run_timers call fuel l = Some (l, [])) ∨
  ∃ a t, heap_min (timer_heap l) = Some a ∧ timers l !! a = Some t ∧ due (time l) t ∧ is_Some (timer_cb t) ∧ uv__is_closing t = false ∧
    0 ≤ repeat t ∧ ∀ b v, timers l !! b = Some v → f_active v = true → ¬ key_lt (key v) (key t).
Proof using Type.
  intros HL. pose proof (min_spec o l HL) as HM. destruct (heap_min (timer_heap l)) as [a|] eqn:Eh.
  - destruct HM as (t & Ht & Hf & Hcb & Hcl & [_ Hr] & Hmin). destruct (decide (timeout t ≤ time l)) as [Hle|Hgt].
    + right. exists a, t. split_and!; try done. lia.
    + left. split.
      * intros b u Hu [Ha Hle]. pose proof (Hmin b u Hu Ha) as HN. unfold key_lt, key in HN. cbn in HN. lia.
      * intros fuel. assert ((time l <? timeout t) = true) as Et by (apply Z.ltb_lt; lia).
        destruct fuel; cbn [uv__run_timers]; rewrite Eh; unfold handle; rewrite Ht; cbn [mbind option_bind]; by rewrite Et.
  - left. split; [|intros []; cbn [uv__run_timers]; by rewrite Eh]. intros b u Hu [Ha _].
    assert (b ∈ active_set (timers l)) as Hb by (apply elem_of_active; by exists u). rewrite HM in Hb. by apply elem_of_empty in Hb.
Qed.

(** One turn of the loop. *)
Lemma run_step fuel l a t :
  heap_min (timer_heap l) = Some a → timers l !! a = Some t → due (time l) t →
  uv__run_timers call (S fuel) l =
    ('(_, l2) ← uv_timer_stop a l ≫= uv_timer_again a;
     t' ← handle a l2; cb ← timer_cb t'; l3 ← call cb a l2; '(l', cs) ← uv__run_timers call fuel l3; Some (l', (a, t) :: cs)).
Proof using Type.
  intros Eh Ht [_ Hle]. cbn [uv__run_timers]. rewrite Eh. change (handle a l) with (timers l !! a). rewrite Ht. cbn [mbind option_bind].
  rewrite (proj2 (Z.ltb_ge _ _)) by lia. by destruct (uv_timer_stop a l).
Qed.

Lemma run_timers_ran fuel l :
  loop_ok o l → time l < 2 ^ 64 - 1 → (count (due (time l)) (timers l) ≤ fuel)%nat →
  gives (uv__run_timers call fuel l) (λ '(l', cs), loop_ok o l' ∧ timers_ran touched l l' cs).
Proof using Type*.
  revert l. induction fuel as [|fuel IH]; intros l HL Hti Hf.
  all: destruct (head_cases l HL) as [[Hn ->]|(a & t & Eh & Ht & Hd & Hcb & Hcl & Hr & Hmin)]; [apply gives_ret; split; [done|by apply run_none]|].
  all: pose proof (count_lookup (due (time l)) a t _ Ht) as Hc; rewrite decide_True in Hc by done. 1: lia.
  rewrite (run_step fuel l a t) by done. apply gives_bind. eapply gives_mono; [by apply (fire_spec o l a t)|].
  intros [r l2] (HL2 & M2 & u & T2 & Hca). assert (timers l2 !! a = Some u) as Hu by (rewrite T2; apply lookup_insert_eq).
  eapply gives_eq; [exact Hu|]. destruct Hcb as [cb Hcb]. rewrite (ca_cb _ _ _ Hca), Hcb. cbn [mbind option_bind].
  assert (¬ due (time l) u) as Hnd by (by eapply called_not_due).
  apply gives_bind. eapply gives_mono; [apply (call_ok cb a l2 HL2); [lia|by eexists]|]. intros l3 (HL3 & M3 & Hla & Hun).
  apply gives_bind. eapply gives_mono; [apply (IH l3 HL3); [lia|]|].
  - rewrite M3. pose proof (later_count _ _ _ Hla) as Hlc. rewrite M2 in Hlc |- *. rewrite T2, count_insert, decide_False in Hlc by done. lia.
  - intros [l' cs] (HL' & HR). apply gives_ret. split; [done|]. by eapply (run_cons l l2 l3 l' a t u cb cs).
Qed.

End run.

(** ** Callbacks as sequences of operations *)

(** Operations of callbacks: new timers, and starting with a timeout above zero. *)
Definition quiet (op : timer_op) : Prop :=
  match op with
  | TInit _ | TStop _ | TAgain _ | TClose _ => True
  | TStart _ _ tm _ => 0 < tm
  | _ => False
  end.

Definition op_names (op : timer_op) : gset node :=
  match op with
  | TInit a | TStart a _ _ _ | TStop a | TAgain a | TRepeat a _ | TRef a | TUnref a | TClose a | TFree a => {[ a ]}
  | TClosing | TTime _ => ∅
  end.

Fixpoint run_ops (ops : list timer_op) (l : uv_loop) : option uv_loop :=
  match ops with
  | [] => Some l
  | op :: ops => l ← do_op op l; run_ops ops l
  end.

Fixpoint ops_fine (X : gset node) (ops : list timer_op) (l : uv_loop) : Prop :=
  match ops with
  | [] => True
  | op :: ops => op_ok l op ∧ quiet op ∧ op_names op ⊆ X ∧ ∀ l', do_op op l = Some l' → ops_fine X ops l'
  end.

Lemma started_not_due o l t cb tm rep :
  loop_ok o l → time l < 2 ^ 64 - 1 → 0 < tm < 2 ^ 64 → ¬ due (time l) (started l t cb tm rep).
Proof.
  intros HL Hti Htm [_ Hle]. pose proof (co_time _ _ (lo_core _ _ HL)). cbn in Hle. rewrite clamped_range in Hle by lia. lia.
Qed.

Lemma put_step X l l' a t' o :
  loop_ok o l' → timers l' = <[a := t']> (timers l) → time l' = time l → a ∈ X →
  (due (time l) t' → ∃ u, timers l !! a = Some u ∧ due (time l) u ∧ key t' = key u) →
  loop_ok o l' ∧ time l' = time l ∧ later (time l) (timers l) (timers l') ∧ untouched X (timers l) (timers l').
Proof.
  intros HL T' M' Ha Hd. split_and!; [done..| |]; rewrite T'; [by apply later_put|]. intros b Hb. rewrite lookup_insert_ne; [done|]. by intros ->.
Qed.

Lemma quiet_op o X l op :
  loop_ok o l → time l < 2 ^ 64 - 1 → op_ok l op → quiet op → op_names op ⊆ X →
  gives (do_op op l) (λ l', loop_ok o l' ∧ time l' = time l ∧ later (time l) (timers l) (timers l') ∧ untouched X (timers l) (timers l')).
Proof.
  intros HL Hti Hop Hq HX. destruct op as [a|a cb tm rep|a|a|a rep|a|a|a| |hr|a]; try done; cbn [do_op op_ok quiet op_names] in *.
  - apply gives_ret. eapply put_step; [by apply init_loop|done|done|set_solver|]. by intros [? _].
  - destruct Hop as ([t Ht] & ? & ?). apply gives_fmap. eapply gives_mono; [by apply (start_loop o l a t)|].
    intros [r l'] (HL' & _ & T' & M' & _). eapply put_step; [done..|set_solver|]. unfold start_result. case_match; [intros; by exists t|].
    intros []%(started_not_due o); [done..|lia].
  - destruct Hop as [t Ht]. eapply gives_mono; [by apply (stop_loop o l a t)|]. intros l' (HL' & T' & M' & _).
    eapply put_step; [done..|set_solver|]. by intros [? _].
  - destruct Hop as [t Ht]. apply gives_fmap. eapply gives_mono; [by apply (again_loop o l a t)|].
    intros [r l'] (HL' & _ & T' & M' & _). eapply put_step; [done..|set_solver|]. unfold again_result. case_match; [intros; by exists t|].
    destruct (Z.eqb_spec (repeat t) 0); [intros; by exists t|]. case_match; [by intros [? _]|].
    destruct (co_ranges _ _ (lo_core _ _ HL) a t Ht) as [_ ?]. intros []%(started_not_due o); [done..|lia].
  - destruct Hop as (t & Ht & Hcl). eapply gives_mono; [by apply (close_loop o l a t)|]. intros l' (HL' & T' & M').
    eapply put_step; [done..|set_solver|]. by intros [? _].
Qed.

Lemma run_ops_ok o X ops l :
  loop_ok o l → time l < 2 ^ 64 - 1 → ops_fine X ops l →
  gives (run_ops ops l) (λ l', loop_ok o l' ∧ time l' = time l ∧ later (time l) (timers l) (timers l') ∧ untouched X (timers l) (timers l')).
Proof.
  revert l. induction ops as [|op ops IH]; intros l HL Hti Hfine; cbn [run_ops].
  - apply gives_ret. split_and!; [done..|apply later_refl|by intros b].
  - destruct Hfine as (Hop & Hq & HX & Hnext). destruct (quiet_op o X l op HL Hti Hop Hq HX) as (l1 & E1 & HL1 & M1 & La1 & Un1).
    rewrite E1. cbn [mbind option_bind]. eapply gives_mono; [apply (IH l1 HL1); [lia|by apply Hnext]|].
    intros l2 (HL2 & M2 & La2 & Un2). rewrite M1 in La2. split_and!; [done|congruence|by eapply later_trans|].
    intros b Hb. by rewrite Un2, Un1.
Qed.

(** A callback that performs operations is one the loop can rely on. *)
Lemma script_callback o script touched :
  (∀ cb a l, loop_ok o l → time l < 2 ^ 64 - 1 → is_Some (timers l !! a) → ops_fine (touched cb a) (script cb a l) l) →
  Callback o (λ cb a l, run_ops (script cb a l) l) touched.
Proof. intros H. split. intros cb a l HL Hti Ha. apply run_ops_ok; [done..|]. by apply H. Qed.

(** ** Starvation *)

(** Callbacks after which a timer is due again keep the loop from ever going on. *)
Lemma run_timers_starve o call fuel l :
  (∀ cb a l, loop_ok o l → (∃ t, timers l !! a = Some t ∧ uv__is_closing t = false) →
    gives (call cb a l) (λ l', loop_ok o l' ∧ ∃ b u, timers l' !! b = Some u ∧ due (time l') u)) →
  loop_ok o l → (∃ b u, timers l !! b = Some u ∧ due (time l) u) → uv__run_timers call fuel l = None.
Proof.
  intros Hcall. revert l. induction fuel as [|fuel IH]; intros l HL (b & v & Hv & Hdv).
  all: destruct (head_cases o call l HL) as [[Hn _]|(a & t & Eh & Ht & Hd & Hcb & Hcl & Hr & Hmin)]; [by destruct (Hn b v Hv)|].
  - cbn [uv__run_timers]. rewrite Eh. unfold handle. rewrite Ht. cbn [mbind option_bind]. destruct Hd. by rewrite (proj2 (Z.ltb_ge _ _)) by lia.
  - rewrite (run_step call fuel l a t) by done. destruct (fire_spec o l a t HL Ht Hcb Hcl) as ([r l2] & -> & HL2 & M2 & u & T2 & Hca).
    cbn [mbind option_bind]. unfold handle. rewrite T2, lookup_insert_eq. cbn [mbind option_bind]. destruct Hcb as [cb Hcb].
    rewrite (ca_cb _ _ _ Hca), Hcb. cbn [mbind option_bind].
    destruct (Hcall cb a l2 HL2) as (l3 & -> & HL3 & Hd3); [exists u; rewrite T2, (ca_closing _ _ _ Hca); split; [apply lookup_insert_eq|done]|].
    cbn [mbind option_bind]. by rewrite (IH l3 HL3 Hd3).
Qed.

(** A timer that starts itself again with a timeout of zero. *)
Lemma restart_due o cb a l :
  loop_ok o l → (∃ t, timers l !! a = Some t ∧ uv__is_closing t = false) →
  gives (do_op (TStart a (Some cb) 0 0) l) (λ l', loop_ok o l' ∧ ∃ b u, timers l' !! b = Some u ∧ due (time l') u).
Proof.
  intros HL (t & Ht & Hcl). apply gives_fmap. eapply gives_mono; [by apply (start_loop o l a t)|]. intros [r l'] (HL' & _ & T' & M' & _).
  split; [done|]. unfold start_result in T'. rewrite Hcl in T'. cbn in T'. exists a, (started l t (Some cb) 0 0).
  cbn [snd]. rewrite T'. split; [apply lookup_insert_eq|].
  pose proof (co_time _ _ (lo_core _ _ HL)). split; [done|]. cbn. rewrite M', clamped_range by lia. lia.
Qed.

(** ** Loops that operations lead to *)

(** The state after operations on a new loop with [others] active handles. *)
Definition loop_after (others : Z) (ops : list timer_op) : option uv_loop :=
  run_ops ops (mkLoop 0 0 (heap_init (mkHeap None 0 ∅)) ∅ (unsigned32 others) []).

Fixpoint ops_allowed (ops : list timer_op) (l : uv_loop) : Prop :=
  match ops with
  | [] => True
  | op :: ops => op_ok l op ∧ match do_op op l with Some l' => ops_allowed ops l' | None => False end
  end.

Lemma reachable_ops o ops l l' : reachable o l → ops_allowed ops l → run_ops ops l = Some l' → reachable o l'.
Proof.
  revert l. induction ops as [|op ops IH]; intros l HR Hop Hr; cbn in Hop, Hr; [by injection Hr as <-|].
  destruct Hop as [Hop Hn], (do_op op l) as [l1|] eqn:E; [|done]. by apply (IH l1); [eapply reach_op|..].
Qed.

(** C9: Whatever sequence of operations on a loop's timers went before, creating, starting,
    stopping, repeating, referencing, closing, finishing and freeing them never fails an assertion
    or follows a bad pointer; afterwards the heap holds exactly the active timers, none of them
    closing or without a callback, the count of active handles is right, and the loop sleeps until
    the first timer is due and no longer. *)
Theorem timer_ops_ok o l op :
  reachable o l → op_ok l op →
  gives (do_op op l) (λ l', loop_ok o l' ∧ gives (uv__next_timeout l') (λ d,
    d = -1 ∧ active_set (timers l') = ∅ ∨
    0 ≤ d ≤ INT_MAX ∧ (∀ b u, timers l' !! b = Some u → f_active u = true → d ≤ Z.max 0 (timeout u - time l')) ∧
    (d = INT_MAX ∨ ∃ b u, timers l' !! b = Some u ∧ f_active u = true ∧ d = Z.max 0 (timeout u - time l')))).
Proof.
  intros HR Hop. eapply gives_mono; [by apply (op_loop o l op); [apply reachable_ok|]|]. intros l' HL'. split; [done|]. by eapply next_timeout_spec.
Qed.

(** Timer 2 is due before timer 1, which repeats; ten milliseconds have passed. *)
Definition timers_ops : list timer_op :=
  [TInit 1; TInit 2; TInit 3; TStart 1 (Some 7) 5 4; TStart 2 (Some 8) 3 0; TStart 3 (Some 9) 20 0; TTime 10000000].
Definition timers_loop : uv_loop := default (mkLoop 0 0 (mkHeap None 0 ∅) ∅ 2 []) (loop_after 2 timers_ops).

Lemma timers_loop_reachable : reachable 2 timers_loop.
Proof.
  apply (reachable_ops 2 timers_ops (mkLoop 0 0 (heap_init (mkHeap None 0 ∅)) ∅ (unsigned32 2) [])).
  - by apply reach_new.
  - vm_compute. repeat split; try done; by eexists.
  - by vm_compute.
Qed.

Lemma timer_ops_ok_witness :
  gives (do_op (TStop 1) timers_loop) (λ l', loop_ok 2 l' ∧ gives (uv__next_timeout l') (λ d,
    d = -1 ∧ active_set (timers l') = ∅ ∨
    0 ≤ d ≤ INT_MAX ∧ (∀ b u, timers l' !! b = Some u → f_active u = true → d ≤ Z.max 0 (timeout u - time l')) ∧
    (d = INT_MAX ∨ ∃ b u, timers l' !! b = Some u ∧ f_active u = true ∧ d = Z.max 0 (timeout u - time l')))).
Proof. apply (timer_ops_ok 2 timers_loop (TStop 1)); [exact timers_loop_reachable|vm_compute; by eexists]. Defined.

(** C7: Running the timers ends, within one turn per timer that is due, for callbacks that keep the
    loop in order and start no timer without delay: each due timer that no callback interferes with
    is called exactly once, in the order of due times and, at the same time, of starts; repeating
    ones are armed again from now on, the others stopped, and no timer is due when it is over. *)
Theorem timers_run o call touched l :
  Callback o call touched → reachable o l → time l < 2 ^ 64 - 1 →
  gives (uv__run_timers call (count (due (time l)) (timers l)) l) (λ '(l', cs), loop_ok o l' ∧ timers_ran touched l l' cs).
Proof. intros HC HR Ht. apply (run_timers_ran o call touched); [by apply reachable_ok|done..]. Qed.

(** The callback arms its timer for ten milliseconds. *)
Definition rearm (cb : Z) (a : node) (l : uv_loop) : list timer_op := [TStart a (Some cb) 10 0].

Lemma timers_run_witness :
  gives (uv__run_timers (λ cb a timers_loop, run_ops (rearm cb a timers_loop) timers_loop) (count (due (time timers_loop)) (timers timers_loop)) timers_loop) (λ '(l', cs), loop_ok 2 l' ∧ timers_ran (λ _ a, {[ a ]}) timers_loop l' cs).
Proof. apply (timers_run 2 (λ cb a l, run_ops (rearm cb a l) l) (λ _ a, {[ a ]}) timers_loop);
    [|exact timers_loop_reachable|by vm_compute].
  apply script_callback. intros cb a l HL Hti Ha. by split_and!. Defined.


