(* ===== verification/Udp.v ===== *)
(** * UDP sockets: ijudp.c *)

From S2P Require Import Prelude State Runtime Logic Lifecycle Promise Address Streams.

Definition get_udp (p : addr) : M IJJSUdp :=
  c ← load p ; match c with CUdp u => mret u | _ => fail TypeConfusion end.
Definition put_udp (p : addr) (u : IJJSUdp) : M unit := store p (CUdp u).

Definition u_with_h (h : uv_handle) (u : IJJSUdp) : IJJSUdp :=
  mkUdp (u_closed u) (u_finalized u) h (u_read_size u) (u_read_result u).
Definition u_with_closed (z : Z) (u : IJJSUdp) : IJJSUdp :=
  mkUdp z (u_finalized u) (u_udp u) (u_read_size u) (u_read_result u).
Definition u_with_finalized (z : Z) (u : IJJSUdp) : IJJSUdp :=
  mkUdp (u_closed u) z (u_udp u) (u_read_size u) (u_read_result u).
Definition u_with_read_size (z : Z) (u : IJJSUdp) : IJJSUdp :=
  mkUdp (u_closed u) (u_finalized u) (u_udp u) z (u_read_result u).

Definition handle_udp (h : addr) : M addr :=
  u ← get_udp h ;
  CHECK_NOT_NULL (h_data (u_udp u)).

(** ** Closing *)

Definition uvUdpCloseCb (handle : addr) : M unit :=
  p ← handle_udp handle ;
  u ← get_udp p ;
  put_udp p (u_with_closed 1 u) ;;
  if negb (u_finalized u =? 0) then je_free p else mret tt.

Definition uvMaybeClose (p : addr) : M unit :=
  u ← get_udp p ;
  if negb (uv_is_closing (u_udp u)) then
    h ← uv_close (u_udp u) ;
    put_udp p (u_with_h h u)
  else mret tt.

(** The finalizer, once the opaque pointer of the object is known. *)
Definition finalize_udp (u : option addr) : M unit :=
  match u with
  | None => mret tt
  | Some p =>
      ijFreePromiseRT (Place p FRead) ;;
      st ← get_udp p ;
      put_udp p (u_with_finalized 1 st) ;;
      if negb (u_closed st =? 0) then je_free p else uvMaybeClose p
  end.

Definition ijUdpFinalizer (val : JSValue) : M unit :=
  u ← JS_GetOpaque val cls_udp ;
  finalize_udp u.

Definition ijUdpMark (val : JSValue) : M (list JSValue) :=
  u ← JS_GetOpaque val cls_udp ;
  match u with
  | None => mret []
  | Some p => st ← get_udp p ; mret (ijMarkPromise (u_read_result st))
  end.

Definition ijUdpGet (obj : JSValue) : M (option addr) := JS_GetOpaque2 obj cls_udp.

(** A pending receive is resolved with [{data: undefined}]. *)
Definition ijUdpClose (this : JSValue) (argv : list JSValue) : M JSValue :=
  u ← ijUdpGet this ;
  match u with
  | None => mret JS_EXCEPTION
  | Some p =>
      pending ← ijIsPromisePending (Place p FRead) ;
      (if (pending : bool) then
         arg ← JS_NewObjectProto ;
         JS_DefinePropertyValueStr arg "data" JS_UNDEFINED ;;
         ijSettlePromise (Place p FRead) false [arg] ;;
         ijClearPromise (Place p FRead)
       else mret tt) ;;
      uvMaybeClose p ;;
      mret JS_UNDEFINED
  end.

(** ** Receiving *)

Definition uvUdpAllocCb (handle : addr) (suggested_size : Z) : M (option addr * Z) :=
  p ← handle_udp handle ;
  u ← get_udp p ;
  base ← js_malloc (CBuf (u_read_size u)) ;
  mret (base, u_read_size u).

Definition uv_udp_recv_stop (handle : addr) : M unit :=
  u ← get_udp handle ;
  put_udp handle (u_with_h (with_active false (u_udp u)) u).

(** [sa] is the sender, [None] for NULL. *)
Definition uvUdpRecvCb (handle : addr) (nread : Z) (base : option addr) (sa : option sockaddr) (flags : Z) : M unit :=
  p ← handle_udp handle ;
  if (nread =? 0) && (match sa with None => true | Some _ => false end) then js_free_opt base
  else
    uv_udp_recv_stop handle ;;
    '(arg, is_reject) ← (if nread <? 0 then
        e ← ijNewError nread ;
        js_free_opt base ;;
        mret (e, true)
      else
        arg ← JS_NewObjectProto ;
        data ← deref base ;
        v ← ijNewUint8Array data nread ;
        JS_DefinePropertyValueStr arg "data" v ;;
        JS_DefinePropertyValueStr arg "flags" (JS_NewInt32 flags) ;;
        a ← (match sa with Some a => ijAddr2Obj a | None => fail NullDeref end) ;
        JS_DefinePropertyValueStr arg "addr" a ;;
        mret (arg, false)) ;
    ijSettlePromise (Place p FRead) is_reject [arg] ;;
    ijClearPromise (Place p FRead).

Definition uv_udp_recv_start (handle : addr) : M Z :=
  r ← ask "uv_udp_recv_start" [AP handle] ;
  u ← get_udp handle ;
  put_udp handle (u_with_h (started r (u_udp u)) u) ;;
  mret r.

Definition ijUdpRecv (this : JSValue) (argv : list JSValue) : M JSValue :=
  u ← ijUdpGet this ;
  match u with
  | None => mret JS_EXCEPTION
  | Some p =>
      pending ← ijIsPromisePending (Place p FRead) ;
      if (pending : bool) then ijThrowErrno UV_EBUSY
      else
        a0 ← arg_at argv 0 ;
        o ← (if JS_IsUndefined a0 then mret (Some IJJS_DEFAULt_READ_SIZE) else JS_ToIndex a0) ;
        match o with
        | None => mret JS_EXCEPTION
        | Some size =>
            st ← get_udp p ;
            put_udp p (u_with_read_size size st) ;;
            r ← uv_udp_recv_start p ;
            if negb (r =? 0) then ijThrowErrno r
            else ijInitPromise (Place p FRead)
        end
  end.

(** ** Sending *)

Definition get_send (p : addr) : M IJJSSendReq :=
  c ← load p ; match c with CSendReq r => mret r | _ => fail TypeConfusion end.

Definition uvUdpSendCb (req : addr) (status : Z) : M unit :=
  r ← get_send req ;
  h ← deref (rq_handle (sd_req r)) ;
  _ ← handle_udp h ;
  p ← deref (rq_data (sd_req r)) ;
  '(arg, is_reject) ← (if status <? 0 then e ← ijNewError status ; mret (e, true)
                       else mret (JS_UNDEFINED, false)) ;
  ijSettlePromise (Place p FResult) is_reject [arg] ;;
  js_free p.

(** The bytes to send and where they live: the block of a C string, or the buffer of a
    typed array. *)
Definition send_data (v : JSValue) : M (option (bytes * bufbase)) :=
  is_string ← JS_IsString v ;
  if (is_string : bool) then
    o ← JS_ToCString v ;
    mret (match o with Some (p, s) => Some (s, InBlock p) | None => None end)
  else
    o ← JS_GetTypedArrayBuffer v ;
    match o with
    | None => mret None
    | Some (abuf, aoffset, asize) =>
        buf ← JS_GetArrayBuffer abuf ;
        JS_FreeValue abuf ;;
        mret (match buf with
              | Some data => Some (take (Z.to_nat asize) (drop (Z.to_nat aoffset) data), InArrayBuffer abuf)
              | None => None
              end)
    end.

Definition base_block (b : bufbase) : option addr :=
  match b with InBlock p => Some p | InArrayBuffer _ => None end.

(** libuv keeps a pointer to the bytes of a queued datagram ([sd_buf]) until the callback. *)
Definition ijUdpSend (this : JSValue) (argv : list JSValue) : M JSValue :=
  u ← ijUdpGet this ;
  match u with
  | None => mret JS_EXCEPTION
  | Some p =>
      jsData ← arg_at argv 0 ;
      o ← send_data jsData ;
      match o with
      | None => mret JS_EXCEPTION
      | Some (buf, base) =>
          a1 ← arg_at argv 1 ;
          sa ← (if JS_IsUndefined a1 then mret (Some None)
                else o ← ijObj2Addr a1 ;
                     mret (match o with Some ss => Some (Some ss) | None => None end)) ;
          match sa with
          | None => mret JS_EXCEPTION
          | Some sa =>
              let size := Z.of_nat (length buf) in
              r ← ask "uv_udp_try_send" [AP p; AB buf] ;
              if r =? size then
                free_cstring_at (base_block base) 0 ;;
                ijNewResolvedPromise []
              else
                let off := if 0 <=? r then r else 0 in
                let rest := drop (Z.to_nat off) buf in
                sr ← js_malloc (CSendReq (mkSendReq (mkReq None None None) None)) ;
                match sr with
                | None => mret JS_EXCEPTION
                | Some sr =>
                    store sr (CSendReq (mkSendReq (mkReq None (Some sr) None) None)) ;;
                    free_cstring_at (base_block base) off ;;
                    r ← ask "uv_udp_send" [AP sr; AP p; AB rest] ;
                    if negb (r =? 0) then
                      js_free sr ;;
                      ijThrowErrno r
                    else
                      store sr (CSendReq (mkSendReq (mkReq (Some p) (Some sr) None) (Some (base, rest)))) ;;
                      ijInitPromise (Place sr FResult)
                end
          end
      end
  end.

(** ** Construction and the other methods *)

Definition ijUdpFileno (this : JSValue) (argv : list JSValue) : M JSValue :=
  u ← ijUdpGet this ;
  match u with
  | None => mret JS_EXCEPTION
  | Some p =>
      r ← ask "uv_fileno" [AP p] ;
      if negb (r =? 0) then ijThrowErrno r
      else
        fd ← ask "uv_fileno.fd" [AP p] ;
        mret (JS_NewInt32 fd)
  end.

Definition udp0 : IJJSUdp := mkUdp 0 0 (handle0 UV_UDP) 0 promise0.

Definition ijNewUdp (af : Z) : M JSValue :=
  obj ← JS_NewObjectClass cls_udp ;
  if JS_IsException obj then mret obj
  else
    u ← je_calloc (CUdp udp0) ;
    match u with
    | None => JS_FreeValue obj ;; mret JS_EXCEPTION
    | Some p =>
        r ← ask "uv_udp_init_ex" [AZ af] ;
        if negb (r =? 0) then
          JS_FreeValue obj ;;
          je_free p ;;
          JS_ThrowInternalError "couldn't initialize UDP handle"
        else
          u ← get_udp p ;
          put_udp p (mkUdp 0 0 (with_data (Some p) (handle_init (u_udp u))) (u_read_size u) (u_read_result u)) ;;
          ijClearPromise (Place p FRead) ;;
          JS_SetOpaque obj p ;;
          mret obj
    end.

Definition ijUdpConstructor (argv : list JSValue) : M JSValue :=
  a0 ← arg_at argv 0 ;
  o ← (if JS_IsUndefined a0 then mret (Some AF_UNSPEC) else JS_ToInt32 a0) ;
  match o with
  | None => mret JS_EXCEPTION
  | Some af => ijNewUdp af
  end.

Definition ijUdpGetSockPeerName (magic : Z) (this : JSValue) (argv : list JSValue) : M JSValue :=
  u ← ijUdpGet this ;
  match u with
  | None => mret JS_EXCEPTION
  | Some p =>
      r ← ask (if magic =? 0 then "uv_udp_getsockname" else "uv_udp_getpeername") [AP p] ;
      if negb (r =? 0) then ijThrowErrno r
      else
        addr ← ask_sa "sockaddr" [AP p] ;
        ijAddr2Obj addr
  end.

Definition ijUdpConnect (this : JSValue) (argv : list JSValue) : M JSValue :=
  u ← ijUdpGet this ;
  match u with
  | None => mret JS_EXCEPTION
  | Some p =>
      a0 ← arg_at argv 0 ;
      o ← ijObj2Addr a0 ;
      match o with
      | None => mret JS_EXCEPTION
      | Some ss =>
          r ← ask "uv_udp_connect" [AP p] ;
          if negb (r =? 0) then ijThrowErrno r else mret JS_UNDEFINED
      end
  end.

Definition ijUdpBind (this : JSValue) (argv : list JSValue) : M JSValue :=
  u ← ijUdpGet this ;
  match u with
  | None => mret JS_EXCEPTION
  | Some p =>
      a0 ← arg_at argv 0 ;
      o ← ijObj2Addr a0 ;
      match o with
      | None => mret JS_EXCEPTION
      | Some ss =>
          a1 ← arg_at argv 1 ;
          f ← (if JS_IsUndefined a1 then mret (Some 0) else JS_ToInt32 a1) ;
          match f with
          | None => mret JS_EXCEPTION
          | Some flags =>
              r ← ask "uv_udp_bind" [AP p; AZ flags] ;
              if negb (r =? 0) then ijThrowErrno r else mret JS_UNDEFINED
          end
      end
  end.

Definition ijjs_udp_proto_funcs : list cfunction :=
  [ CFUNC "close" 0 ijUdpClose; CFUNC "recv" 1 ijUdpRecv; CFUNC "send" 2 ijUdpSend;
    CFUNC "fileno" 0 ijUdpFileno; CFUNC "getsockname" 0 (ijUdpGetSockPeerName 0);
    CFUNC "getpeername" 0 (ijUdpGetSockPeerName 1); CFUNC "connect" 1 ijUdpConnect;
    CFUNC "bind" 2 ijUdpBind ]%string.

(** libuv finishes closing the handle and runs the callback. *)
Definition udp_close_done (p : addr) : M unit :=
  u ← get_udp p ;
  put_udp p (u_with_h (handle_closed (u_udp u)) u) ;;
  uvUdpCloseCb p.
