(* ===== verification/UdpProofs.v ===== *)
(** * Proofs about UDP sockets *)

From S2P Require Import Prelude State Runtime Logic Lifecycle Promise Worlds Address Streams Udp.

Lemma wp_get_udp p al u (Q : IJJSUdp → World → Prop) w :
  w_mem w !! p = Some (al, CUdp u) → Q u w → wp (get_udp p) Q w.
Proof. intros Hp HQ. unfold get_udp. wp_step. eapply wp_load; [done|]. by wp_steps. Qed.

Lemma wp_put_udp p al c u (Q : unit → World → Prop) w :
  w_mem w !! p = Some (al, c) → Q tt (set_mem (<[p := (al, CUdp u)]> (w_mem w)) w) →
  wp (put_udp p u) Q w.
Proof. intros Hp HQ. unfold put_udp. by eapply wp_store. Qed.

Lemma wp_handle_udp h al u p (Q : addr → World → Prop) w :
  w_mem w !! h = Some (al, CUdp u) → h_data (u_udp u) = Some p → Q p w → wp (handle_udp h) Q w.
Proof.
  intros Hh Hd HQ. unfold handle_udp. wp_step. eapply wp_get_udp; [done|]. rewrite Hd. by wp_steps.
Qed.

Ltac get_udp := eapply wp_get_udp; [lookup_tac|].
Ltac put_udp := eapply wp_put_udp; [lookup_tac|].
Ltac udp_simpl :=
  cbn [own u_read_result u_udp u_closed u_finalized u_read_size u_with_h u_with_closed
       u_with_finalized u_with_read_size upd sel handles has_field pl_block pl_field].

(** ** The life of a socket *)

Definition udp_life (u : IJJSUdp) : life :=
  mkLife (h_closing (u_udp u)) (negb (u_closed u =? 0)) (negb (u_finalized u =? 0)).

Record udp_inv (w : World) (p : addr) (u : IJJSUdp) : Prop := {
  ui_safe : safe w;
  ui_init : h_init (u_udp u) = true;
  ui_data : h_data (u_udp u) = Some p;
  ui_life : life_ok (udp_life u);
  ui_closed : h_closed (u_udp u) = negb (u_closed u =? 0);
  ui_promise : u_finalized u = 0 → droppable (u_read_result u)
}.

Lemma wp_udp_maybe_close p al u (Q : unit → World → Prop) w :
  w_mem w !! p = Some (al, CUdp u) → h_init (u_udp u) = true →
  Q tt (if h_closing (u_udp u) then w
        else set_mem (<[p := (al, CUdp (u_with_h (mkHandle (h_type (u_udp u)) true false true
               (h_closed (u_udp u)) (h_data (u_udp u))) u))]> (w_mem w)) w) →
  wp (uvMaybeClose p) Q w.
Proof.
  intros Hp Hi HQ. unfold uvMaybeClose. wp_step. get_udp. unfold uv_is_closing, uv_close.
  destruct (h_closing (u_udp u)) eqn:Hc; simpl negb; cbv iota; [by wp_steps|].
  rewrite Hi. simpl negb. cbv iota. wp_steps. put_udp. exact HQ.
Qed.

Lemma udp_close_spec w p u :
  w_mem w !! p = Some (ByJe, CUdp u) → udp_inv w p u → enabled (udp_life u) EClose = true →
  wp (uvMaybeClose p) (λ _ w', ∃ u', w_mem w' = <[p := (ByJe, CUdp u')]> (w_mem w) ∧
    udp_inv w' p u' ∧ Live (udp_life u') = life_after (udp_life u) EClose) w.
Proof.
  intros Hp [Hs Hi Hd [L1 [L2 L3]] Hc Hpr] En. eapply wp_udp_maybe_close; [done|done|].
  destruct (h_closing (u_udp u)) eqn:E.
  - exists u. split_and!.
    + by rewrite insert_id.
    + by split.
    + unfold udp_life in *. simpl in *. by rewrite E.
  - eexists. split; [reflexivity|]. split; [split; udp_simpl|]; try done.
    intros a. world_simpl. erewrite owned_update by done. udp_simpl. specialize (Hs a). lia.
Qed.

Lemma udp_close_cb_spec w p u :
  w_mem w !! p = Some (ByJe, CUdp u) → udp_inv w p u → enabled (udp_life u) ECloseCb = true →
  wp (udp_close_done p) (λ _ w',
    match life_after (udp_life u) ECloseCb with
    | Freed => w_mem w' = delete p (w_mem w)
    | Live l => ∃ u', w_mem w' = <[p := (ByJe, CUdp u')]> (w_mem w) ∧ udp_inv w' p u' ∧ udp_life u' = l
    end) w.
Proof.
  intros Hp [Hs Hi Hd [L1 [L2 L3]] Hc Hpr] En. simpl in *. apply andb_prop in En as [Ecl Ec].
  unfold udp_close_done, uvUdpCloseCb. wp_step. get_udp. wp_step. put_udp.
  wp_step. eapply wp_handle_udp; [lookup_tac|done|]. wp_step. get_udp. wp_step. put_udp.
  udp_simpl. wp_step.
  - eapply wp_c_free; [lookup_tac|udp_simpl; simpl; by world_simpl|]. world_simpl. by rewrite !delete_insert_eq.
  - wp_step. eexists. split; [world_simpl; by rewrite insert_insert_eq|]. split; [split; udp_simpl|]; try done.
    + intros a. world_simpl. owned_simpl. udp_simpl. specialize (Hs a). lia.
    + unfold udp_life. udp_simpl. simpl. by rewrite E, Ecl.
Qed.

Lemma udp_finalize_spec w p u :
  w_mem w !! p = Some (ByJe, CUdp u) → udp_inv w p u → enabled (udp_life u) EFinalize = true →
  wp (finalize_udp (Some p)) (λ _ w',
    match life_after (udp_life u) EFinalize with
    | Freed => w_mem w' = delete p (w_mem w)
    | Live l => ∃ u', w_mem w' = <[p := (ByJe, CUdp u')]> (w_mem w) ∧ udp_inv w' p u' ∧ udp_life u' = l
    end) w.
Proof.
  intros Hp [Hs Hi Hd [L1 [L2 L3]] Hc Hpr] En. simpl in *. unfold finalize_udp.
  rewrite negb_involutive in En. pose proof (Hpr (proj1 (Z.eqb_eq _ _) En)) as Hpr1.
  assert (Hown : ∀ a, cnt a (own_promise (u_read_result u)) ≤ rc w a).
  { intros a. specialize (Hs a). pose proof (owned_lookup _ a _ _ _ Hp). simpl in *. lia. }
  wp_step. eapply wp_ijFreePromiseRT; [done|done| |].
  { intros a. specialize (Hown a). pose proof (droppable_holds a _ Hpr1). lia. }
  intros w1 E1 M1 R1 C1. wp_step. get_udp. wp_step. put_udp. udp_simpl. wp_step.
  - eapply wp_c_free; [lookup_tac|udp_simpl; simpl; by rewrite h_open_closed by congruence|].
    world_simpl. cbn [pl_block]. by rewrite !delete_insert_eq.
  - set (u' := u_with_finalized 1 _). set (w3 := set_mem _ w1).
    assert (Hm3 : w_mem w3 = <[p := (ByJe, CUdp u')]> (w_mem w)).
    { subst w3. world_simpl. cbn [pl_block]. by rewrite !insert_insert_eq. }
    assert (Hs3 : safe w3).
    { intros a. rewrite Hm3. erewrite owned_update by done. subst w3 u'. specialize (Hs a).
      pose proof (droppable_holds a _ Hpr1) as Hb. autorewrite with world in Hb. world_simpl. udp_simpl.
      world_simpl. lia. }
    clearbody w3. eapply (wp_udp_maybe_close _ _ u'); [by rewrite Hm3, lookup_insert_eq|done|].
    change (u_udp u') with (u_udp u). destruct (h_closing (u_udp u)) eqn:Ecl.
    + exists u'. split; [done|]. split; [split; try done; try (unfold u'; udp_simpl; by rewrite E)|].
      * unfold udp_life, life_ok, u'. udp_simpl. simpl. by rewrite E, Ecl.
      * unfold udp_life, u'. udp_simpl. by rewrite E, Ecl.
    + eexists. split; [world_simpl; rewrite insert_insert_eq; reflexivity|].
      split; [split; try done; try (unfold u'; udp_simpl; by rewrite E)|].
      * intros a. specialize (Hs3 a). world_simpl. revert Hs3. rewrite Hm3. owned_simpl. udp_simpl. lia.
      * unfold udp_life, life_ok, u'. udp_simpl. simpl. by rewrite E.
      * unfold udp_life, u'. udp_simpl. by rewrite E.
Qed.

#[export] Instance udp_lifecycle : Lifecycle IJJSUdp := {|
  lc_wrap := CUdp;
  lc_life := udp_life;
  lc_inv := udp_inv;
  lc_close := uvMaybeClose;
  lc_close_cb := udp_close_done;
  lc_finalize := λ p, finalize_udp (Some p);
  lc_close_spec := udp_close_spec;
  lc_close_cb_spec := udp_close_cb_spec;
  lc_finalize_spec := udp_finalize_spec
|}.

Theorem udp_freed_once w p s es st :
  w_mem w !! p = Some (ByJe, CUdp s) → udp_inv w p s → udp_life s = life0 →
  lrun (Live life0) es = Some st →
  wp (lexecs (St := IJJSUdp) p es) (λ _ w', freed_once (St := IJJSUdp) (w_mem w) p es w') w.
Proof. exact (lexecs_freed_once (St := IJJSUdp) w p s es st). Qed.

(** A socket at 10 of the object at 20 with a receive pending and its buffer at 11. *)
Definition udp1 : IJJSUdp := mkUdp 0 0 (handle_at UV_UDP 10) 1024 promise1.
Definition udp_world : World :=
  world_with 0 {[ 20%positive := BClass cls_udp (Some 10%positive) ]} ∅
    {[ 10%positive := (ByJe, CUdp udp1); 11%positive := (ByJs, CBuf 1024) ]}.

(** ** Closing with a receive pending *)

(** A settled promise in [w'] whose value is an object with one property. *)
Definition closed_udp (u : IJJSUdp) : IJJSUdp :=
  mkUdp (u_closed u) (u_finalized u)
    (if h_closing (u_udp u) then u_udp u
     else mkHandle (h_type (u_udp u)) (h_init (u_udp u)) false true (h_closed (u_udp u)) (h_data (u_udp u)))
    (u_read_size u) cleared.

Lemma udp_close_method_spec w p o u pa argv :
  safe w → w_mem w !! p = Some (ByJe, CUdp u) → w_cell w !! o = Some (BClass cls_udp (Some p)) →
  h_init (u_udp u) = true → pending_at w (u_read_result u) pa →
  wp (ijUdpClose (JS_REF o) argv) (λ v w', v = JS_UNDEFINED ∧ balanced w w' [] ∧
    w_mem w' = <[p := (ByJe, CUdp (closed_udp u))]> (w_mem w) ∧
    ∃ a, w_cell w' !! pa = Some (BPromise (Fulfilled (JS_REF a))) ∧
         w_cell w' !! a = Some (BObject [("data"%string, JS_UNDEFINED)])) w.
Proof.
  intros Hs Hp Ho Hi Hpend. unfold ijUdpClose, ijUdpGet. wp_step. eapply wp_GetOpaque2_class; [done|].
  wp_step. unfold ijIsPromisePending. wp_step. eapply wp_get_promise; [done|done|].
  wp_step. pose proof Hpend as (Hv & Hpp & Hpc & _). rewrite Hpp. cbn [JS_IsUndefined negb].
  wp_step. wp_step. apply wp_build_object. intros a w1 B1. wp_step. eapply wp_build_imm; [done|done|].
  intros w2 (Hanone & [E2 M2 R2 C2 H2] & Hc2) _. cbn [app] in Hc2.
  assert (Hp2 : w_mem w2 !! p = Some (ByJe, CUdp u)) by by rewrite M2.
  wp_step. eapply (wp_ijSettlePromise (Place p FRead) false [JS_REF a] ByJe (CUdp u) (u_read_result u) pa);
    [done|done|by eapply pending_kept| |].
  { intros x. specialize (Hs x). pose proof (owned_lookup _ x _ _ _ Hp) as Hx. simpl in Hx.
    rewrite R2. world_simpl. count_facts x. decide_all; lia. }
  intros w3 St. pose proof St as [E3 M3 R3 C3]. specialize (M3 _ _ Hp2). cbn [pl_block pl_field] in M3.
  eapply wp_ijClearPromise; [by rewrite M3; apply lookup_insert_eq|]. wp_step.
  set (w4 := set_mem _ w3). set (u1 := mkUdp (u_closed u) (u_finalized u) (u_udp u) (u_read_size u) cleared).
  assert (Hm4 : w_mem w4 = <[p := (ByJe, CUdp u1)]> (w_mem w)).
  { subst w4. world_simpl. by rewrite !insert_insert_eq. }
  assert (Hx4 : ∀ x, excess w4 x = excess w x).
  { intros x. unfold excess. rewrite Hm4. erewrite owned_update by done. subst w4 u1. cbn [own u_read_result].
    world_simpl. lia. }
  assert (Hc4 : w_cell w4 = w_cell w3) by done. clearbody w4.
  eapply (wp_udp_maybe_close _ _ u1); [by rewrite Hm4, lookup_insert_eq|done|]. wp_step.
  set (w5 := if h_closing (u_udp u1) then w4 else _).
  assert (Hm5 : w_mem w5 = <[p := (ByJe, CUdp (closed_udp u))]> (w_mem w)).
  { subst w5. unfold closed_udp. change (u_udp u1) with (u_udp u). destruct (h_closing (u_udp u)); [done|].
    world_simpl. rewrite insert_insert_eq, Hi. done. }
  assert (Hr5 : ∀ x, rc w5 x = rc w4 x) by (intros x; subst w5; by destruct (h_closing _)).
  assert (Hc5 : w_cell w5 = w_cell w4) by (subst w5; by destruct (h_closing _)).
  split_and!; [done| |done|].
  - intros x. rewrite <- Hx4. unfold excess. rewrite Hr5, Hm5, Hm4. erewrite !owned_update by done.
    subst u1. cbn [own closed_udp u_read_result]. rewrite !cnt_nil. lia.
  - exists a. rewrite Hc5, Hc4, C3. assert (a ≠ pa) by congruence.
    rewrite lookup_insert_eq. split; [done|]. by rewrite lookup_insert_ne by congruence.
Qed.

(** ** Queued datagrams *)

Definition UV_EAGAIN : Z := -11.

(** An environment in which the socket is not writable now and everything else works. *)
Definition not_writable (e : env) : Prop :=
  (∀ args l, e_int e (Ev "uv_udp_try_send" args :: l) = UV_EAGAIN) ∧
  (∀ name args l, name ≠ "uv_udp_try_send"%string → e_int e (Ev name args :: l) = 0).

(** A queued datagram whose bytes are in a block that has been freed. *)
Definition dangling (w : World) (sr : addr) : Prop :=
  ∃ req q bytes, w_mem w !! sr = Some (ByJs, CSendReq req) ∧ sd_buf req = Some (InBlock q, bytes) ∧
    w_mem w !! q = None.

Lemma udp_send_string_spec w p o u v s :
  w_mem w !! p = Some (ByJe, CUdp u) → w_cell w !! o = Some (BClass cls_udp (Some p)) →
  body_of v w = Some (BString s) → not_writable (w_env w) →
  wp (ijUdpSend (JS_REF o) [v; JS_UNDEFINED]) (λ r w', ∃ sr, dangling w' sr) w.
Proof.
  intros Hp Ho Hv Henv. unfold ijUdpSend, ijUdpGet. wp_step. eapply wp_GetOpaque2_class; [done|].
  wp_step. eapply wp_arg_at; [done|]. wp_step. unfold send_data, JS_IsString. do 2 wp_step. rewrite Hv. wp_step.
  eapply wp_ToCString_str; [done|]. intros q Hq. wp_step. wp_step. eapply wp_arg_at; [done|].
  cbn [JS_IsUndefined]. do 2 wp_step. destruct Henv as [He1 He2].
  wp_step. apply wp_ask_eq. intros r ->. world_simpl. rewrite He1.
  wp_step; [exfalso; apply Z.eqb_eq in E; unfold UV_EAGAIN in E; lia|].
  change (if 0 <=? UV_EAGAIN then UV_EAGAIN else 0) with 0.
  unfold js_malloc. do 2 wp_step. apply wp_ask_eq. intros r ->. world_simpl. rewrite He2 by done.
  cbv iota. change (0 =? 0) with true. cbv iota. wp_step. apply wp_c_alloc. intros sr Hsr. world_simpl_in Hsr.
  apply lookup_insert_None in Hsr as [Hsr Hne]. wp_steps.
  unfold free_cstring_at. cbn [base_block]. change (0 =? 0) with true. cbv iota.
  eapply wp_c_free; [lookup_tac|done|]. wp_step. apply wp_ask_eq. intros r ->. world_simpl. rewrite He2 by done.
  change (negb (0 =? 0)) with false. cbv iota. wp_steps.
  set (w1 := set_mem _ _).
  assert (Hm1 : ∃ c, w_mem w1 !! sr = Some (ByJs, CSendReq c) ∧ sd_buf c = Some (InBlock q, drop 0 s) ∧
    rq_result (sd_req c) = None ∧ w_mem w1 !! q = None).
  { subst w1. world_simpl. rewrite lookup_insert_eq. eexists. split_and!; [done|done|done|].
    rewrite lookup_insert_ne by congruence. apply lookup_delete_eq. }
  clearbody w1. destruct Hm1 as (c & Hc & Hb & Hpr & Hqn).
  eapply wp_ijInitPromise; [done| |]; intros w2.
  - intros pr pa Hi. exists sr, (mkSendReq (with_result (sd_req c) (Some pr)) (sd_buf c)), q, (drop 0 s).
    rewrite (init_mem _ _ _ _ _ Hi _ _ Hc). cbn [pl_block]. rewrite lookup_insert_eq. split_and!; [done|done|].
    by rewrite lookup_insert_ne by congruence.
  - intros Hi. exists sr, c, q, (drop 0 s). rewrite (if_mem _ _ _ Hi _ _ Hc). cbn [pl_block].
    rewrite lookup_insert_eq. unfold fail_upd. cbn [pl_field sel]. rewrite Hpr. split_and!; [done|done|].
    by rewrite lookup_insert_ne by congruence.
Qed.

(** ** The receive callback *)

(** A world that differs from [w] at most in the memory, which is [m]. *)
Record same_but_mem (w wb : World) (m : gmap addr (allocator * cstruct)) : Prop := {
  sbm_env : w_env wb = w_env w;
  sbm_mem : w_mem wb = m;
  sbm_rc : ∀ a, rc wb a = rc w a;
  sbm_cell : w_cell wb = w_cell w
}.

Definition datagram_value (nread flags : Z) (v : JSValue) (w : World) : Prop :=
  ∃ o d x, v = JS_REF o ∧
    w_cell w !! o = Some (BObject [("data"%string, d); ("flags"%string, JS_NewInt32 flags); ("addr"%string, x)]) ∧
    uint8_value nread d w.

Lemma uint8_value_keeps size v w w' o ps :
  w_cell w !! o = Some (BObject ps) → keeps o w w' → uint8_value size v w → uint8_value size v w'.
Proof.
  intros Ho Hk [->|(a & b & d & -> & Ha & Hb & Hd)]; [by left|]. right. exists a, b, d.
  split_and!; [done| | |done]; apply Hk; congruence.
Qed.

(** The data property: the buffer becomes the array's. *)
Lemma wp_datagram_data b n nread o (Q : unit → World → Prop) w w1 :
  w_mem w !! b = Some (ByJs, CBuf n) → built w w1 o [] →
  (∀ d wb w2, (same_but_mem w wb (delete b (w_mem w)) ∨ d = JS_EXCEPTION ∧ same_but_mem w wb (w_mem w)) →
     built wb w2 o [("data"%string, d)] → uint8_value nread d w2 → Q tt w2) →
  wp (v ← ijNewUint8Array b nread ; JS_DefinePropertyValueStr (JS_REF o) "data" v) Q w1.
Proof.
  intros Hb (Ho & Hg & Hc) HQ. pose proof Hg as [E1 M1 R1 C1 H1]. wp_step.
  eapply wp_ijNewUint8Array; [by rewrite M1| |].
  - intros d w2 [E2 M2 R2 C2 H2] Hd. set (wb := set_mem (delete b (w_mem w)) w).
    assert (Hg2 : gives wb w2 ([o] ++ ref_of d)).
    { split.
      - by rewrite E2, E1.
      - by rewrite M2, M1.
      - intros a. rewrite R2, R1, cnt_app. unfold wb. world_simpl. lia.
      - intros a x Ha. by apply C2, C1.
      - intros a. specialize (H1 a). specialize (H2 a). rewrite R2 in H2 |- *. rewrite cnt_app.
        pose proof (cnt_nonneg a [o]). pose proof (cnt_nonneg a (ref_of d)). lia. }
    eapply (wp_build_val o "data" d [] _ wb); [exact Ho|exact Hg2|by apply C2|]. intros w3 B3 K3.
    apply (HQ d wb); [by left|done|]. eapply uint8_value_keeps; [by apply C2|done|done].
  - intros w2 Hq. eapply (wp_build_val _ _ JS_EXCEPTION); [exact Ho| |by apply (quiet_cell _ _ Hq)|].
    { rewrite app_nil_r. by eapply gives_then_quiet. }
    intros w3 B3 K3. apply (HQ JS_EXCEPTION w); [right; by split|done|by left].
Qed.

Lemma wp_datagram b n nread flags sa (Q : JSValue * bool → World → Prop) w :
  w_mem w !! b = Some (ByJs, CBuf n) →
  (∀ v wb w', (same_but_mem w wb (delete b (w_mem w)) ∨ same_but_mem w wb (w_mem w)) →
     gives wb w' (ref_of v) → datagram_value nread flags v w' → Q (v, false) w') →
  wp (arg ← JS_NewObjectProto ;
      data ← deref (Some b) ;
      v ← ijNewUint8Array data nread ;
      JS_DefinePropertyValueStr arg "data" v ;;
      JS_DefinePropertyValueStr arg "flags" (JS_NewInt32 flags) ;;
      a ← ijAddr2Obj sa ;
      JS_DefinePropertyValueStr arg "addr" a ;;
      mret (arg, false)) Q w.
Proof.
  intros Hb HQ. wp_step. apply wp_build_object. intros o w1 B1. wp_step. wp_step.
  assert (Hk : ∀ w2 d wb, built wb w2 o [("data"%string, d)] → uint8_value nread d w2 →
    (same_but_mem w wb (delete b (w_mem w)) ∨ same_but_mem w wb (w_mem w)) →
    wp (JS_DefinePropertyValueStr (JS_REF o) "flags" (JS_NewInt32 flags) ;;
        a ← ijAddr2Obj sa ; JS_DefinePropertyValueStr (JS_REF o) "addr" a ;; mret (JS_REF o, false)) Q w2).
  { intros w2 d wb B2 Hd Hwb. wp_step. eapply wp_build_imm; [exact B2|done|]. intros w3 B3 K3.
    pose proof B2 as (_ & _ & Hc2). pose proof (uint8_value_keeps _ _ _ _ _ _ Hc2 K3 Hd) as Hd3.
    pose proof B3 as (Ho3 & Hg3 & Hc3). wp_step.
    assert (Hend : ∀ x w4, gives w3 w4 (ref_of x) →
      wp (JS_DefinePropertyValueStr (JS_REF o) "addr" x ;; mret (JS_REF o, false)) Q w4).
    { intros x w4 Hg4. wp_step. eapply wp_build_val; [exact Ho3|exact (gives_trans _ _ _ _ _ Hg3 Hg4)|
        by apply (gives_cell _ _ _ Hg4)|]. intros w5 (_ & Hg5 & Hc5) K5. wp_step. eapply HQ; [exact Hwb|done|].
      exists o, d, x. split_and!; [done|done|].
      apply (uint8_value_keeps _ _ w4 _ o _ (gives_cell _ _ _ Hg4 _ _ Hc3) K5).
      destruct Hd3 as [->|(a & bf & dt & -> & ? & ? & ?)]; [by left|]. right. exists a, bf, dt.
      split_and!; [done| | |done]; by apply (gives_cell _ _ _ Hg4). }
    apply wp_ijAddr2Obj.
    - intros x ip w4 (_ & Hg4 & _) _. by apply Hend.
    - intros f Hf. apply Hend. by apply gives_quiet. }
  change (wp (v ← ijNewUint8Array b nread ; JS_DefinePropertyValueStr (JS_REF o) "data" v ;;
    JS_DefinePropertyValueStr (JS_REF o) "flags" (JS_NewInt32 flags) ;;
    a ← ijAddr2Obj sa ; JS_DefinePropertyValueStr (JS_REF o) "addr" a ;; mret (JS_REF o, false)) Q w1).
  apply wp_assoc. wp_step. eapply wp_datagram_data; [exact Hb|exact B1|].
  intros d wb w2 Hwb B2 Hd. eapply Hk; [exact B2|exact Hd|]. destruct Hwb as [?|[_ ?]]; auto.
Qed.

(** The socket after the callback: not receiving, no receive pending. *)
Definition recv_stopped (u : IJJSUdp) : IJJSUdp :=
  mkUdp (u_closed u) (u_finalized u) (with_active false (u_udp u)) (u_read_size u) cleared.

Lemma wp_recv_arg b n nread sa flags (Q : JSValue * bool → World → Prop) w :
  w_mem w !! b = Some (ByJs, CBuf n) →
  (∀ v wb w', (same_but_mem w wb (delete b (w_mem w)) ∨ same_but_mem w wb (w_mem w)) → gives wb w' (ref_of v) →
     (if nread <? 0 then error_value nread v w' else datagram_value nread flags v w') → Q (v, nread <? 0) w') →
  wp (if nread <? 0 then
        e ← ijNewError nread ;
        js_free_opt (Some b) ;;
        mret (e, true)
      else
        arg ← JS_NewObjectProto ;
        data ← deref (Some b) ;
        v ← ijNewUint8Array data nread ;
        JS_DefinePropertyValueStr arg "data" v ;;
        JS_DefinePropertyValueStr arg "flags" (JS_NewInt32 flags) ;;
        a ← ijAddr2Obj sa ;
        JS_DefinePropertyValueStr arg "addr" a ;;
        mret (arg, false)) Q w.
Proof.
  intros Hb HQ. destruct (nread <? 0).
  - wp_step. eapply wp_giving; [apply giving_ijNewError|]. intros v w1 [E1 M1 R1 C1 H1] Hv. wp_step.
    eapply wp_c_free; [by rewrite M1|done|]. wp_step.
    apply (HQ v (set_mem (delete b (w_mem w)) w)); [by left| |done].
    split; [done|by world_simpl|done|done|done].
  - eapply wp_datagram; [done|]. intros v wb w' Hwb Hg Hv. by eapply HQ.
Qed.

Lemma udp_recv_cb_spec w p u pa nread b n sa flags :
  safe w → w_mem w !! p = Some (ByJe, CUdp u) → h_data (u_udp u) = Some p →
  pending_at w (u_read_result u) pa → w_mem w !! b = Some (ByJs, CBuf n) →
  wp (uvUdpRecvCb p nread (Some b) (Some sa) flags) (λ _ w', balanced w w' [] ∧
    w_mem w' !! p = Some (ByJe, CUdp (recv_stopped u)) ∧
    ∃ v, w_cell w' !! pa = Some (BPromise (if nread <? 0 then Rejected v else Fulfilled v)) ∧
      if nread <? 0 then error_value nread v w' else datagram_value nread flags v w') w.
Proof.
  intros Hs Hp Hd Hpend Hb. assert (Hpb : b ≠ p) by congruence. unfold uvUdpRecvCb, uv_udp_recv_stop.
  wp_step. eapply wp_handle_udp; [done|done|]. rewrite andb_false_r. do 2 wp_step. get_udp. put_udp.
  set (u1 := u_with_h (with_active false (u_udp u)) u). wp_step. apply (wp_recv_arg b n).
  { world_simpl. by rewrite lookup_insert_ne by congruence. }
  intros v wb w1 Hwb [E1 M1 R1 C1 H1] Hv. cbv beta iota.
  assert (Hwb' : ∃ m, w_mem wb = <[p := (ByJe, CUdp u1)]> m ∧ (∀ a, owned m a = owned (w_mem w) a) ∧
    m !! p = Some (ByJe, CUdp u)).
  { destruct Hwb as [Hw|Hw].
    - exists (delete b (w_mem w)). rewrite (sbm_mem _ _ _ Hw). world_simpl. split_and!.
      + by rewrite delete_insert_ne by done.
      + intros a. erewrite owned_delete by done. simpl. rewrite cnt_nil. lia.
      + by rewrite lookup_delete_ne.
    - exists (w_mem w). by rewrite (sbm_mem _ _ _ Hw). }
  assert (Rwb : ∀ a, rc wb a = rc w a) by (intros a; destruct Hwb as [Hw|Hw]; by rewrite (sbm_rc _ _ _ Hw)).
  assert (Cwb : w_cell wb = w_cell w) by (destruct Hwb as [Hw|Hw]; by rewrite (sbm_cell _ _ _ Hw)).
  destruct Hwb' as (m & Mwb & Om & Hpm). rewrite Mwb in M1.
  assert (Hp1 : w_mem w1 !! p = Some (ByJe, CUdp u1)) by (rewrite M1; apply lookup_insert_eq).
  rewrite Cwb in C1. wp_step.
  eapply (wp_ijSettlePromise (Place p FRead) _ [v] ByJe (CUdp u1) (u_read_result u) pa);
    [done|done|by eapply pending_kept| |].
  { intros a. specialize (Hs a). pose proof (owned_lookup _ a _ _ _ Hp) as Ho. simpl in Ho.
    rewrite R1, Rwb. world_simpl. count_facts a. lia. }
  intros w2 [E2 M2 R2 C2]. specialize (M2 _ _ Hp1). cbn [pl_block pl_field] in M2.
  eapply wp_ijClearPromise; [by rewrite M2; apply lookup_insert_eq|]. cbn [pl_block pl_field].
  change (upd FRead cleared _) with (CUdp (recv_stopped u)).
  assert (Hpa : w_cell w1 !! pa = Some (BPromise Pending)) by apply C1, Hpend. split_and!.
  - intros a. unfold excess. world_simpl. rewrite !insert_insert_eq.
    erewrite owned_update by exact Hpm. rewrite Om. unfold recv_stopped. udp_simpl. world_simpl. lia.
  - world_simpl. apply lookup_insert_eq.
  - exists v. split; [world_simpl; rewrite lookup_insert_eq; by destruct (nread <? 0)|]. destruct (nread <? 0).
    + by apply (error_value_settled _ _ _ _ _ _ _ Hpa C2).
    + destruct Hv as (o & d & x & -> & Ho & Hdv). exists o, d, x. split_and!; [done| |].
      * world_simpl. by rewrite lookup_insert_ne by congruence.
      * by apply (uint8_value_settled _ _ _ _ _ _ _ Hpa C2).
Qed.
