(* ===== verification/Signals.v ===== *)
(** * Signal handlers: ijsignals.c *)

From S2P Require Import Prelude State Runtime Logic Lifecycle Promise Worlds.

Definition get_sh (p : addr) : M IJJSSignalHandler :=
  c ← load p ; match c with CSignal s => mret s | _ => fail TypeConfusion end.
Definition put_sh (p : addr) (s : IJJSSignalHandler) : M unit := store p (CSignal s).

Definition sh_with_handle (h : uv_handle) (s : IJJSSignalHandler) : IJJSSignalHandler :=
  mkSignal (sh_closed s) (sh_finalized s) h (sh_sig_num s) (sh_func s).
Definition sh_with_closed (z : Z) (s : IJJSSignalHandler) : IJJSSignalHandler :=
  mkSignal z (sh_finalized s) (sh_handle s) (sh_sig_num s) (sh_func s).
Definition sh_with_finalized (z : Z) (s : IJJSSignalHandler) : IJJSSignalHandler :=
  mkSignal (sh_closed s) z (sh_handle s) (sh_sig_num s) (sh_func s).

Definition uvSignalCloseCb (handle : addr) : M unit :=
  s ← get_sh handle ;
  match h_data (sh_handle s) with
  | None => mret tt
  | Some p =>
      s ← get_sh p ;
      put_sh p (sh_with_closed 1 s) ;;
      if negb (sh_finalized s =? 0) then je_free p else mret tt
  end.

Definition uvMaybeClose (p : addr) : M unit :=
  s ← get_sh p ;
  if negb (uv_is_closing (sh_handle s)) then
    h ← uv_close (sh_handle s) ;
    put_sh p (sh_with_handle h s)
  else mret tt.

Definition finalize_signal (sh : option addr) : M unit :=
  match sh with
  | None => mret tt
  | Some p =>
      s ← get_sh p ;
      JS_FreeValueRT (sh_func s) ;;
      s ← get_sh p ;
      put_sh p (sh_with_finalized 1 s) ;;
      if negb (sh_closed s =? 0) then je_free p else uvMaybeClose p
  end.

Definition ijSignalHandlerFinalizer (val : JSValue) : M unit :=
  sh ← JS_GetOpaque val cls_signal_handler ;
  finalize_signal sh.

Definition ijSignalHandlerMark (val : JSValue) : M (list JSValue) :=
  sh ← JS_GetOpaque val cls_signal_handler ;
  match sh with
  | None => mret []
  | Some p => s ← get_sh p ; mret [sh_func s]
  end.

Definition uvSignalCb (handle : addr) (sig_num : Z) : M unit :=
  s ← get_sh handle ;
  p ← CHECK_NOT_NULL (h_data (sh_handle s)) ;
  s ← get_sh p ;
  ijCallHandler (sh_func s).

Definition signal0 : IJJSSignalHandler := mkSignal 0 0 (handle0 UV_SIGNAL) 0 (JS_INT 0).

Definition ijSignal (this : JSValue) (argv : list JSValue) : M JSValue :=
  a0 ← arg_at argv 0 ;
  o ← JS_ToInt32 a0 ;
  match o with
  | None => mret JS_EXCEPTION
  | Some sig_num =>
      func ← arg_at argv 1 ;
      isf ← JS_IsFunction func ;
      if negb isf then JS_ThrowTypeError "not a function"
      else
        obj ← JS_NewObjectClass cls_signal_handler ;
        if JS_IsException obj then mret obj
        else
          sh ← je_calloc (CSignal signal0) ;
          match sh with
          | None => JS_FreeValue obj ;; mret JS_EXCEPTION
          | Some p =>
              r ← ask "uv_signal_init" [AP p] ;
              if negb (r =? 0) then
                JS_FreeValue obj ;;
                je_free p ;;
                JS_ThrowInternalError "couldn't initialize Signal handle"
              else
                s ← get_sh p ;
                put_sh p (sh_with_handle (handle_init (sh_handle s)) s) ;;
                r ← ask "uv_signal_start" [AP p; AZ sig_num] ;
                if negb (r =? 0) then
                  JS_FreeValue obj ;;
                  je_free p ;;
                  ijThrowErrno r
                else
                  f1 ← JS_DupValue func ;
                  s ← get_sh p ;
                  put_sh p (mkSignal (sh_closed s) (sh_finalized s)
                    (with_data (Some p) (with_active true (sh_handle s))) sig_num f1) ;;
                  JS_SetOpaque obj p ;;
                  mret obj
          end
  end.

Definition ijSgnalHandlerGet (obj : JSValue) : M (option addr) := JS_GetOpaque2 obj cls_signal_handler.

Definition ijSgnalHandlerClose (this : JSValue) (argv : list JSValue) : M JSValue :=
  sh ← ijSgnalHandlerGet this ;
  match sh with
  | None => mret JS_EXCEPTION
  | Some p => uvMaybeClose p ;; mret JS_UNDEFINED
  end.

Definition ijSgnalHandlerSignumGet (this : JSValue) : M JSValue :=
  sh ← ijSgnalHandlerGet this ;
  match sh with
  | None => mret JS_EXCEPTION
  | Some p => s ← get_sh p ; mret (JS_NewInt32 (sh_sig_num s))
  end.

(** libuv finishes closing the handle and runs the callback. *)
Definition signal_close_done (p : addr) : M unit :=
  s ← get_sh p ;
  put_sh p (sh_with_handle (handle_closed (sh_handle s)) s) ;;
  uvSignalCloseCb p.

(** ** Rules *)

Lemma wp_get_sh p al s (Q : IJJSSignalHandler → World → Prop) w :
  w_mem w !! p = Some (al, CSignal s) → Q s w → wp (get_sh p) Q w.
Proof. intros Hp HQ. unfold get_sh. wp_step. eapply wp_load; [done|]. by wp_steps. Qed.

Lemma wp_put_sh p al c s (Q : unit → World → Prop) w :
  w_mem w !! p = Some (al, c) → Q tt (set_mem (<[p := (al, CSignal s)]> (w_mem w)) w) →
  wp (put_sh p s) Q w.
Proof. intros Hp HQ. unfold put_sh. by eapply wp_store. Qed.

Ltac get_sh := eapply wp_get_sh; [lookup_tac|].
Ltac put_sh := eapply wp_put_sh; [lookup_tac|].
Ltac sh_simpl :=
  cbn [own sh_func sh_handle sh_closed sh_finalized sh_sig_num sh_with_handle sh_with_closed
       sh_with_finalized handles].

(** ** The life of a handler *)

Definition sh_life (s : IJJSSignalHandler) : life :=
  mkLife (h_closing (sh_handle s)) (negb (sh_closed s =? 0)) (negb (sh_finalized s =? 0)).

Record sh_inv (w : World) (p : addr) (s : IJJSSignalHandler) : Prop := {
  shi_safe : safe w;
  shi_init : h_init (sh_handle s) = true;
  shi_data : h_data (sh_handle s) = Some p;
  shi_life : life_ok (sh_life s);
  shi_closed : h_closed (sh_handle s) = negb (sh_closed s =? 0)
}.

Lemma wp_sh_maybe_close p al s (Q : unit → World → Prop) w :
  w_mem w !! p = Some (al, CSignal s) → h_init (sh_handle s) = true →
  Q tt (if h_closing (sh_handle s) then w
        else set_mem (<[p := (al, CSignal (sh_with_handle (mkHandle (h_type (sh_handle s)) true false true
               (h_closed (sh_handle s)) (h_data (sh_handle s))) s))]> (w_mem w)) w) →
  wp (uvMaybeClose p) Q w.
Proof.
  intros Hp Hi HQ. unfold uvMaybeClose. wp_step. get_sh. unfold uv_is_closing, uv_close.
  destruct (h_closing (sh_handle s)) eqn:Hc; simpl negb; cbv iota; [by wp_steps|].
  rewrite Hi. simpl negb. cbv iota. wp_steps. put_sh. exact HQ.
Qed.

Lemma sh_close_spec w p s :
  w_mem w !! p = Some (ByJe, CSignal s) → sh_inv w p s → enabled (sh_life s) EClose = true →
  wp (uvMaybeClose p) (λ _ w', ∃ s', w_mem w' = <[p := (ByJe, CSignal s')]> (w_mem w) ∧
    sh_inv w' p s' ∧ Live (sh_life s') = life_after (sh_life s) EClose) w.
Proof.
  intros Hp [Hs Hi Hd [L1 [L2 L3]] Hc] En. eapply wp_sh_maybe_close; [done|done|].
  destruct (h_closing (sh_handle s)) eqn:E.
  - exists s. split_and!.
    + by rewrite insert_id.
    + by split.
    + unfold sh_life in *. simpl in *. by rewrite E.
  - eexists. split; [reflexivity|]. split; [split; sh_simpl|]; try done.
    intros a. world_simpl. erewrite owned_update by done. sh_simpl. specialize (Hs a). lia.
Qed.

Lemma sh_close_cb_spec w p s :
  w_mem w !! p = Some (ByJe, CSignal s) → sh_inv w p s → enabled (sh_life s) ECloseCb = true →
  wp (signal_close_done p) (λ _ w',
    match life_after (sh_life s) ECloseCb with
    | Freed => w_mem w' = delete p (w_mem w)
    | Live l => ∃ s', w_mem w' = <[p := (ByJe, CSignal s')]> (w_mem w) ∧ sh_inv w' p s' ∧ sh_life s' = l
    end) w.
Proof.
  intros Hp [Hs Hi Hd [L1 [L2 L3]] Hc] En. simpl in *. apply andb_prop in En as [Ecl Ec].
  unfold signal_close_done, uvSignalCloseCb. wp_step. get_sh. wp_step. put_sh.
  wp_step. get_sh. sh_simpl. simpl h_data. rewrite Hd. wp_step. get_sh. wp_step. put_sh.
  sh_simpl. wp_step.
  - eapply wp_c_free; [lookup_tac|sh_simpl; simpl; by world_simpl|]. world_simpl. by rewrite !delete_insert_eq.
  - wp_step. eexists. split; [world_simpl; by rewrite insert_insert_eq|]. split; [split; sh_simpl|]; try done.
    + intros a. world_simpl. owned_simpl. sh_simpl. specialize (Hs a). lia.
    + unfold sh_life. sh_simpl. simpl. by rewrite E, Ecl.
Qed.

Lemma sh_finalize_spec w p s :
  w_mem w !! p = Some (ByJe, CSignal s) → sh_inv w p s → enabled (sh_life s) EFinalize = true →
  wp (finalize_signal (Some p)) (λ _ w',
    match life_after (sh_life s) EFinalize with
    | Freed => w_mem w' = delete p (w_mem w)
    | Live l => ∃ s', w_mem w' = <[p := (ByJe, CSignal s')]> (w_mem w) ∧ sh_inv w' p s' ∧ sh_life s' = l
    end) w.
Proof.
  intros Hp [Hs Hi Hd [L1 [L2 L3]] Hc] En. simpl in *. unfold finalize_signal, JS_FreeValueRT.
  rewrite negb_involutive in En. pose proof (holds_owned _ _ _ _ Hs Hp) as Hh. cbn [own] in Hh. rewrite En in Hh.
  wp_step. get_sh. wp_step. apply wp_FreeValue; [holds_by Hh|]. wp_step. get_sh. wp_step. put_sh. sh_simpl. wp_step.
  - eapply wp_c_free; [lookup_tac|sh_simpl; simpl; by rewrite h_open_closed by congruence|].
    world_simpl. by rewrite !delete_insert_eq.
  - set (s' := sh_with_finalized 1 s). set (w3 := set_mem _ _).
    assert (Hm3 : w_mem w3 = <[p := (ByJe, CSignal s')]> (w_mem w)) by (subst w3; by world_simpl).
    assert (Hs3 : safe w3).
    { intros a. rewrite Hm3. erewrite owned_update by done. subst w3 s'. specialize (Hs a).
      world_simpl. sh_simpl. rewrite En. simpl Z.eqb. cbv iota. world_simpl. lia. }
    clearbody w3. eapply (wp_sh_maybe_close _ _ s'); [by rewrite Hm3, lookup_insert_eq|done|].
    change (sh_handle s') with (sh_handle s). destruct (h_closing (sh_handle s)) eqn:Ecl.
    + exists s'. split; [done|]. split; [split; try done; try (unfold s'; sh_simpl; by rewrite E)|].
      * unfold sh_life, life_ok, s'. sh_simpl. simpl. by rewrite E, Ecl.
      * unfold sh_life, s'. sh_simpl. by rewrite E, Ecl.
    + eexists. split; [world_simpl; rewrite insert_insert_eq; reflexivity|].
      split; [split; try done; try (unfold s'; sh_simpl; by rewrite E)|].
      * intros a. specialize (Hs3 a). world_simpl. revert Hs3. rewrite Hm3. owned_simpl. sh_simpl. lia.
      * unfold sh_life, life_ok, s'. sh_simpl. simpl. by rewrite E.
      * unfold sh_life, s'. sh_simpl. by rewrite E.
Qed.

#[export] Instance signal_lifecycle : Lifecycle IJJSSignalHandler := {|
  lc_wrap := CSignal;
  lc_life := sh_life;
  lc_inv := sh_inv;
  lc_close := uvMaybeClose;
  lc_close_cb := signal_close_done;
  lc_finalize := λ p, finalize_signal (Some p);
  lc_close_spec := sh_close_spec;
  lc_close_cb_spec := sh_close_cb_spec;
  lc_finalize_spec := sh_finalize_spec
|}.

Theorem signal_freed_once w p s es st :
  w_mem w !! p = Some (ByJe, CSignal s) → sh_inv w p s → sh_life s = life0 →
  lrun (Live life0) es = Some st →
  wp (lexecs (St := IJJSSignalHandler) p es) (λ _ w', freed_once (St := IJJSSignalHandler) (w_mem w) p es w') w.
Proof. exact (lexecs_freed_once (St := IJJSSignalHandler) w p s es st). Qed.

(** A handler at 10 for SIGINT that calls the function at 21. *)
Definition signal1 : IJJSSignalHandler := mkSignal 0 0 (handle_at UV_SIGNAL 10) 2 (JS_REF 21).
Definition signal_world : World :=
  world_with 0 {[ 21%positive := BFunction 1 ]} {[ 21%positive := 1 ]} {[ 10%positive := (ByJe, CSignal signal1) ]}.

(** ** A signal that cannot be watched *)

(** An environment in which only uv_signal_start fails, as it does for SIGKILL. *)
Definition cannot_start (e : env) : Prop :=
  (∀ args l, e_int e (Ev "uv_signal_start" args :: l) = UV_EINVAL) ∧
  (∀ name args l, name ≠ "uv_signal_start"%string → e_int e (Ev name args :: l) = 0).

Lemma signal_start_fails w this n func id :
  body_of func w = Some (BFunction id) → cannot_start (w_env w) →
  ijSignal this [JS_INT n; func] w = Fault OpenHandleFreed.
Proof.
  intros Hf [He1 He2]. unfold ijSignal. apply fault_bind. eapply wp_arg_at; [done|].
  apply fault_bind. unfold JS_ToInt32. cbn [js_to_number]. do 3 wp_step. cbn [fmap option_fmap option_map].
  apply fault_bind. eapply wp_arg_at; [done|]. apply fault_bind. unfold JS_IsFunction. wp_step. rewrite Hf. cbn [negb].
  apply fault_bind. unfold JS_NewObjectClass, js_try_new. wp_step. apply wp_ask_eq. intros r ->.
  rewrite He2 by done. change (0 =? 0) with true. cbv iota. apply wp_js_new. intros o Ho Ro. world_simpl_in Ro.
  cbn [JS_IsException]. apply fault_bind. unfold je_calloc. wp_step. apply wp_ask_eq. intros r ->. world_simpl.
  rewrite He2 by done. change (0 =? 0) with true. cbv iota. wp_step. apply wp_c_alloc. intros p Hp. wp_step.
  apply fault_bind. apply wp_ask_eq. intros r ->. world_simpl. rewrite He2 by done. cbn [negb Z.eqb].
  apply fault_bind. get_sh. apply fault_bind. put_sh. apply fault_bind. apply wp_ask_eq. intros r ->. world_simpl.
  rewrite He1. change (negb (UV_EINVAL =? 0)) with true. cbv iota.
  apply fault_bind. apply wp_FreeValue.
  { apply holds_one. world_simpl. rewrite decide_True by done. lia. }
  apply fault_first. eapply free_open_handle; [lookup_tac|done].
Qed.
