(* ===== verification/Dns.v ===== *)
(** * Name resolution: ijdns.c *)

From S2P Require Import Prelude State Runtime Logic Promise Worlds Address.

(** One element of the list getaddrinfo returns. *)
Record addrinfo := mkAddrInfo {
  ai_addrlen : Z;
  ai_addr : sockaddr;
  ai_socktype : Z;
  ai_protocol : Z;
  ai_canonname : option bytes
}.

Definition addrinfo_item (ai : addrinfo) : M JSValue :=
  item ← JS_NewObjectProto ;
  a ← ijAddr2Obj (ai_addr ai) ;
  JS_DefinePropertyValueStr item "addr" a ;;
  JS_DefinePropertyValueStr item "socktype" (JS_NewInt32 (ai_socktype ai)) ;;
  JS_DefinePropertyValueStr item "protocol" (JS_NewInt32 (ai_protocol ai)) ;;
  c ← (match ai_canonname ai with Some s => JS_NewString s | None => mret JS_UNDEFINED end) ;
  JS_DefinePropertyValueStr item "canonname" c ;;
  mret item.

Fixpoint addrinfo_items (obj : JSValue) (l : list addrinfo) : M unit :=
  match l with
  | [] => mret tt
  | ai :: l' =>
      if ai_addrlen ai =? 0 then addrinfo_items obj l'
      else
        item ← addrinfo_item ai ;
        JS_DefinePropertyValueUint32 obj item ;;
        addrinfo_items obj l'
  end.

Definition ijAddrInfo2Obj (ai : list addrinfo) : M JSValue :=
  obj ← JS_NewArray ;
  addrinfo_items obj ai ;;
  mret obj.

(** The hints of a request. *)
Record hints := mkHints { hi_family : Z; hi_socktype : Z; hi_protocol : Z; hi_flags : Z }.

(** [if (!JS_IsUndefined(v)) JS_ToInt32(ctx, &field, v)]: a failed conversion leaves 0 in the field. *)
Definition int_prop (obj : JSValue) (name : string) (old : Z) : M Z :=
  v ← JS_GetPropertyStr obj name ;
  r ← (if JS_IsUndefined v then mret old
       else o ← JS_ToInt32 v ; mret (default 0 o)) ;
  JS_FreeValue v ;;
  mret r.

Definition ijObj2AddrInfo (obj : JSValue) (h : hints) : M hints :=
  family ← int_prop obj "family" (hi_family h) ;
  socktype ← int_prop obj "socktype" (hi_socktype h) ;
  protocol ← int_prop obj "protocol" (hi_protocol h) ;
  flags ← int_prop obj "flags" (hi_flags h) ;
  mret (mkHints family socktype protocol flags).

Definition get_gr (p : addr) : M IJJSReq :=
  c ← load p ; match c with CGetAddrInfoReq r => mret r | _ => fail TypeConfusion end.

Definition uvGetAddrInfoCb (req : addr) (status : Z) (res : list addrinfo) : M unit :=
  r ← get_gr req ;
  p ← CHECK_NOT_NULL (rq_data r) ;
  arg ← (if negb (status =? 0) then ijNewError status else ijAddrInfo2Obj res) ;
  ijSettlePromise (Place p FResult) (negb (status =? 0)) [arg] ;;
  log "uv_freeaddrinfo" [] ;;
  js_free p.

Definition ijDnsGetAddrInfo (this : JSValue) (argv : list JSValue) : M JSValue :=
  a0 ← arg_at argv 0 ;
  node ← JS_ToCString a0 ;
  match node with
  | None => mret JS_EXCEPTION
  | Some (np, node) =>
      gr ← js_malloc (CGetAddrInfoReq (mkReq None None None)) ;
      match gr with
      | None => mret JS_EXCEPTION
      | Some gr =>
          store gr (CGetAddrInfoReq (mkReq None (Some gr) None)) ;;
          opts ← arg_at argv 1 ;
          isobj ← JS_IsObject opts ;
          '(h, service) ← (if (isobj : bool) then
              h ← ijObj2AddrInfo opts (mkHints 0 0 0 0) ;
              js_service ← JS_GetPropertyStr opts "service" ;
              s ← (if JS_IsUndefined js_service then mret None else JS_ToCString js_service) ;
              JS_FreeValue js_service ;;
              mret (h, s)
            else mret (mkHints 0 0 0 0, None)) ;
          r ← ask "uv_getaddrinfo" [AP gr; AB node; AB (match service with Some (_, s) => s | None => [] end);
                AZ (hi_family h); AZ (hi_socktype h); AZ (hi_protocol h); AZ (hi_flags h)] ;
          if negb (r =? 0) then
            js_free gr ;;
            ijThrowErrno r
          else ijInitPromise (Place gr FResult)
      end
  end.

(** ** The result list *)

(** A fresh array [a] with elements [es], all the rest as before. *)
Definition built_array (w w' : World) (a : addr) (es : list JSValue) : Prop :=
  w_cell w !! a = None ∧ gives w w' [a] ∧ w_cell w' !! a = Some (BArray es).

Lemma wp_addrinfo_item ai (Q : JSValue → World → Prop) w :
  (∀ v w', gives w w' (ref_of v) → Q v w') → wp (addrinfo_item ai) Q w.
Proof.
  intros HQ. unfold addrinfo_item. wp_step. apply wp_build_object. intros a w1 (Ha & Hg1 & Hc1). wp_step.
  assert (Hk : ∀ v w2, gives w1 w2 (ref_of v) →
    wp (JS_DefinePropertyValueStr (JS_REF a) "addr" v ;;
        JS_DefinePropertyValueStr (JS_REF a) "socktype" (JS_NewInt32 (ai_socktype ai)) ;;
        JS_DefinePropertyValueStr (JS_REF a) "protocol" (JS_NewInt32 (ai_protocol ai)) ;;
        c ← (match ai_canonname ai with Some s => JS_NewString s | None => mret JS_UNDEFINED end) ;
        JS_DefinePropertyValueStr (JS_REF a) "canonname" c ;; mret (JS_REF a)) Q w2).
  { intros v w2 Hg2. pose proof (gives_trans _ _ _ _ _ Hg1 Hg2) as Hg12.
    wp_step. eapply wp_build_val; [done|exact Hg12|by apply (gives_cell _ _ _ Hg2)|]. intros w3 B3 _.
    wp_step. eapply wp_build_imm; [done|done|]. intros w4 B4 _.
    wp_step. eapply wp_build_imm; [done|done|]. intros w5 B5 _.
    destruct (ai_canonname ai).
    - eapply wp_build_new; [done|]. intros s w6 (_ & Hg & _) _ _ _. wp_step. by apply HQ.
    - wp_step. wp_step. wp_step. eapply wp_build_imm; [done|done|]. intros w6 (_ & Hg & _) _. wp_step. by apply HQ. }
  apply wp_ijAddr2Obj.
  - intros b ip w2 (_ & Hg2 & _) _. by apply Hk.
  - intros f Hf. apply Hk. by apply gives_quiet.
Qed.

(** The elements with an address. *)
Definition usable (l : list addrinfo) : list addrinfo := filter (λ ai, (ai_addrlen ai =? 0) = false) l.

Lemma wp_addrinfo_items a l es (Q : unit → World → Prop) w w' :
  built_array w w' a es →
  (∀ w'' es', built_array w w'' a (es ++ es') → length es' = length (usable l) → Q tt w'') →
  wp (addrinfo_items (JS_REF a) l) Q w'.
Proof.
  revert es w'; induction l as [|ai l IH]; intros es w' HB HQ; simpl.
  { wp_step. apply (HQ _ []); [by rewrite app_nil_r|done]. }
  unfold usable in *. rewrite filter_cons in HQ. destruct (ai_addrlen ai =? 0) eqn:E.
  { eapply IH; [done|]. intros w'' es' HB' Hl. by apply (HQ _ es'). }
  destruct HB as (Ha & Hg & Hc). wp_step. apply wp_addrinfo_item. intros v w1 Hg1.
  pose proof (gives_trans _ _ _ _ _ Hg Hg1) as Hg2. pose proof (gives_holds _ _ _ Hg2) as Hh.
  wp_step. unfold JS_DefinePropertyValueUint32. wp_step. apply wp_FreeValue.
  { intros x. specialize (Hh x). rewrite cnt_app in Hh. pose proof (cnt_nonneg x [a]). lia. }
  wp_step. eapply (IH (es ++ [v])).
  - split_and!; [done| |].
    + apply gives_update_new; [done|]. destruct Hg2 as [E1 M1 R1 C1 H1].
      split; rewrite ?env_drop_ref, ?mem_drop_ref, ?cell_drop_ref; try done.
      * intros x. rewrite rc_drop_ref, R1, cnt_app. lia.
      * intros x. specialize (Hh x). rewrite cnt_app in Hh. rewrite rc_drop_ref.
        pose proof (cnt_nonneg x (ref_of v)). pose proof (cnt_nonneg x [a]). lia.
    + world_simpl. rewrite lookup_alter_eq, (gives_cell _ _ _ Hg1 _ _ Hc). done.
  - intros w'' es' HB' Hl. rewrite <- app_assoc in HB'. apply (HQ _ (v :: es')); [done|].
    rewrite decide_True by done. simpl. by rewrite Hl.
Qed.

(** ** The callback *)

Definition resolved_list (n : nat) (v : JSValue) (w : World) : Prop :=
  ∃ a es, v = JS_REF a ∧ w_cell w !! a = Some (BArray es) ∧ length es = n.

Lemma resolved_list_settled n v w w' pa st x :
  w_cell w !! pa = Some (BPromise st) → w_cell w' = <[pa := x]> (w_cell w) →
  resolved_list n v w → resolved_list n v w'.
Proof.
  intros Hpa Hc (a & es & -> & Ha & Hl). exists a, es. by rewrite Hc, lookup_insert_ne by congruence.
Qed.

Lemma wp_dns_arg status res (Q : JSValue → World → Prop) w :
  (∀ v w', gives w w' (ref_of v) →
     (if status =? 0 then resolved_list (length (usable res)) v w' else error_value status v w') → Q v w') →
  wp (if negb (status =? 0) then ijNewError status else ijAddrInfo2Obj res) Q w.
Proof.
  intros HQ. destruct (status =? 0) eqn:E; cbn [negb].
  - unfold ijAddrInfo2Obj, JS_NewArray. wp_step. apply wp_js_new. intros a Ha Ra. wp_step.
    eapply (wp_addrinfo_items a res [] _ w).
    { split_and!; [done|by apply gives_new_cell|]. world_simpl. apply lookup_insert_eq. }
    intros w2 es (_ & Hg & Hc) Hl. wp_step. apply HQ; [done|]. by exists a, es.
  - eapply wp_giving; [apply giving_ijNewError|]. intros v w' Hg Hv. by apply HQ.
Qed.

Lemma dns_cb_spec w q r pr pa status res :
  safe w → w_mem w !! q = Some (ByJs, CGetAddrInfoReq r) → rq_data r = Some q → rq_result r = Some pr →
  pending_at w pr pa →
  wp (uvGetAddrInfoCb q status res) (λ _ w', balanced w w' [] ∧ w_mem w' = delete q (w_mem w) ∧
    ∃ v, w_cell w' !! pa = Some (BPromise (if status =? 0 then Fulfilled v else Rejected v)) ∧
      if status =? 0 then resolved_list (length (usable res)) v w' else error_value status v w') w.
Proof.
  intros Hs Hq Hd Hres Hp. unfold uvGetAddrInfoCb, get_gr. wp_step. wp_step. eapply wp_load; [done|].
  cbv iota. do 2 wp_step. rewrite Hd. do 2 wp_step. apply wp_dns_arg. intros v w1 [E1 M1 R1 C1 H1] Hv.
  assert (Hown : ∀ a, cnt a (own_promise pr) ≤ rc w a).
  { intros a. specialize (Hs a). pose proof (owned_lookup _ a _ _ _ Hq) as Ho. simpl in Ho. rewrite Hres in Ho.
    simpl in Ho. lia. }
  wp_step. eapply (wp_ijSettlePromise (Place q FResult) _ [v] ByJs (CGetAddrInfoReq r) pr pa);
    [by rewrite M1|done|by eapply pending_kept| |].
  { intros a. specialize (Hown a). rewrite R1. world_simpl. count_facts a. lia. }
  intros w2 [E2 M2 R2 C2]. specialize (M2 ByJs (CGetAddrInfoReq r)). rewrite M1 in M2. specialize (M2 Hq).
  cbn [pl_block pl_field] in M2. wp_steps. eapply wp_c_free; [world_simpl; apply lookup_insert_eq|done|]. split_and!.
  - intros a. unfold excess. world_simpl. rewrite delete_insert_eq. erewrite owned_delete by done.
    cbn [own]. rewrite Hres. simpl own_promise_opt. lia.
  - world_simpl. by rewrite delete_insert_eq.
  - exists v. assert (Hpa : w_cell w1 !! pa = Some (BPromise Pending)) by apply C1, Hp.
    destruct (status =? 0) eqn:E; cbn [negb] in C2.
    + split; [world_simpl; by rewrite lookup_insert_eq|]. by apply (resolved_list_settled _ _ _ _ _ _ _ Hpa C2).
    + split; [world_simpl; by rewrite lookup_insert_eq|]. by apply (error_value_settled _ _ _ _ _ _ _ Hpa C2).
Qed.

(** A query in flight at 12. *)
Definition dns_request : IJJSReq := mkReq None (Some 12%positive) (Some promise1).
Definition dns_world : World := world_with 0 ∅ ∅ {[ 12%positive := (ByJs, CGetAddrInfoReq dns_request) ]}.
