(* ===== verification/LoadFile.v ===== *)
(** * Loading a file: ijLoadFile of ijvm.c

    The synchronous reader that [readFile] and the evaluation of scripts share. The
    file system is what libuv answers: the result of opening a name, and the
    bytes or the error of a read at an offset; [dbuf_put] may run out of memory.
    The state is the contents of the buffer and the set of open descriptors. *)

From S2P Require Import Prelude.

Record file_system := mkFileSystem {
  fs_open : bytes → Z;
  fs_read : Z → Z → Z + bytes;
  dbuf_grow : Z → bool
}.

(** [sizeof(buf)] *)
Definition READ_CHUNK : Z := 64 * 1024.

(** dbuf_put: 0, or -1 when the buffer cannot grow to the new size. *)
Definition dbuf_put (fs : file_system) (dbuf data : bytes) : Z * bytes :=
  if dbuf_grow fs (Z.of_nat (length dbuf + length data)) then (0, dbuf ++ data) else (-1, dbuf).

(** The [do ... while] loop; [None] when the fuel runs out. *)
Fixpoint load_loop (fs : file_system) (fuel : nat) (fd offset : Z) (dbuf : bytes) : option (Z * bytes) :=
  match fuel with
  | O => None
  | S fuel =>
      match fs_read fs fd offset with
      | inl err => Some (err, dbuf)
      | inr [] => Some (0, dbuf)
      | inr data =>
          let '(r, dbuf) := dbuf_put fs dbuf data in
          if negb (r =? 0) then Some (r, dbuf)
          else load_loop fs fuel fd (offset + Z.of_nat (length data)) dbuf
      end
  end.

Definition ijLoadFile (fs : file_system) (fuel : nat) (dbuf filename : bytes) (fds : gset Z) :
    option (Z * bytes * gset Z) :=
  let r := fs_open fs filename in
  if r <? 0 then Some (r, dbuf, fds)
  else
    let fds := fds ∪ {[r]} in
    match load_loop fs fuel r 0 dbuf with
    | Some (r, dbuf) => Some (r, dbuf, fds)
    | None => None
    end.

(** ** Reading a regular file

    Reads of the descriptor give some bytes of the contents from the offset on, at
    least one unless the end is reached, at most a chunk. *)
Record reads (fs : file_system) (fd : Z) (contents : bytes) : Prop := {
  reads_some : ∀ off, 0 ≤ off < Z.of_nat (length contents) →
    ∃ n : nat, (0 < n)%nat ∧ Z.of_nat n ≤ READ_CHUNK ∧ fs_read fs fd off = inr (take n (drop (Z.to_nat off) contents));
  reads_end : fs_read fs fd (Z.of_nat (length contents)) = inr []
}.

Lemma load_loop_correct fs fd contents fuel off dbuf :
  reads fs fd contents → (∀ n, dbuf_grow fs n = true) →
  (off ≤ length contents)%nat → (length contents - off < fuel)%nat →
  load_loop fs fuel fd (Z.of_nat off) dbuf = Some (0, dbuf ++ drop off contents).
Proof.
  intros Hr Hg. revert off dbuf; induction fuel as [|fuel IH]; intros off dbuf Hoff Hf; [lia|]. simpl.
  destruct (decide (off = length contents)) as [->|Hne].
  { rewrite (reads_end _ _ _ Hr). rewrite drop_ge by lia. by rewrite app_nil_r. }
  destruct (reads_some _ _ _ Hr (Z.of_nat off)) as (n & Hn & _ & ->); [lia|]. rewrite Nat2Z.id.
  set (data := take n (drop off contents)).
  assert (Hlen : length data = Nat.min n (length contents - off)) by (subst data; by rewrite length_take, length_drop).
  destruct data as [|b data'] eqn:Ed; [simpl in Hlen; lia|]. rewrite <- Ed in *. clear Ed b data'.
  unfold dbuf_put. rewrite Hg. simpl. rewrite <- Nat2Z.inj_add, IH by lia. f_equal. f_equal.
  rewrite <- app_assoc. f_equal. rewrite Hlen. subst data.
  destruct (decide (n ≤ length contents - off)%nat).
  - rewrite Nat.min_l by done. by rewrite <- drop_drop, take_drop.
  - rewrite Nat.min_r by lia. rewrite take_ge by (rewrite length_drop; lia).
    by rewrite (drop_ge contents (off + _)) by lia; rewrite app_nil_r.
Qed.

(** Every answer of the loop is 0, an error of a read, or the -1 of [dbuf_put]. *)
Lemma load_loop_result fs fuel fd off dbuf r d :
  load_loop fs fuel fd off dbuf = Some (r, d) →
  (∃ x, d = dbuf ++ x) ∧ (r = 0 ∨ r = -1 ∨ ∃ o, fs_read fs fd o = inl r).
Proof.
  revert off dbuf; induction fuel as [|fuel IH]; intros off dbuf; [done|]. simpl.
  destruct (fs_read fs fd off) as [e|data] eqn:E.
  { intros [= <- <-]. split; [exists []; by rewrite app_nil_r|eauto]. }
  destruct data as [|b data].
  { intros [= <- <-]. split; [exists []; by rewrite app_nil_r|auto]. }
  unfold dbuf_put. destruct (dbuf_grow fs _); simpl.
  - intros H. apply IH in H as [(x & ->) ?]. split; [|done]. exists ((b :: data) ++ x). by rewrite <- app_assoc.
  - intros [= <- <-]. split; [exists []; by rewrite app_nil_r|auto].
Qed.

(** The whole file ends up in the buffer, and the descriptor stays open: no path of
    [ijLoadFile] closes it. *)
Lemma load_file_correct fs filename contents fds dbuf fuel :
  0 ≤ fs_open fs filename → reads fs (fs_open fs filename) contents → (∀ n, dbuf_grow fs n = true) →
  (length contents < fuel)%nat →
  ijLoadFile fs fuel dbuf filename fds = Some (0, dbuf ++ contents, fds ∪ {[fs_open fs filename]}).
Proof.
  intros Ho Hr Hg Hf. unfold ijLoadFile. rewrite (proj2 (Z.ltb_ge _ _)) by done.
  change 0 with (Z.of_nat 0) at 1. erewrite load_loop_correct by (eauto; lia). done.
Qed.

Lemma load_file_fd_open fs filename fds dbuf fuel r d fds' :
  0 ≤ fs_open fs filename → ijLoadFile fs fuel dbuf filename fds = Some (r, d, fds') →
  fs_open fs filename ∈ fds'.
Proof.
  intros Ho. unfold ijLoadFile. rewrite (proj2 (Z.ltb_ge _ _)) by done.
  destruct (load_loop _ _ _ _ _) as [[]|]; [|done]. intros [= <- <- <-]. set_solver.
Qed.

(** A file system whose every file reads hello, two bytes at a time. *)
Definition hello_fs : file_system :=
  mkFileSystem (λ _, 3) (λ _ off, inr (take 2 (drop (Z.to_nat off) (lit "hello")))) (λ _, true).

Lemma hello_reads : reads hello_fs 3 (lit "hello").
Proof.
  split; [|done]. intros off Ho. exists 2%nat. split_and!; [lia|unfold READ_CHUNK; lia|done].
Qed.
