(* ===== verification/Fs.v ===== *)
(** * The file system: ijfs.c

    Asynchronous operations are requests ([IJJSFsReq]) libuv fills in and hands to
    [uvFsReqCb]. What libuv puts into a request besides its result (the stat
    buffer, the resolved path, the directory) comes as a [fs_reply]. *)

From S2P Require Import Prelude State Runtime Logic Promise Streams LoadFile.

(** ** Files and directories *)

Definition get_file (p : addr) : M IJJSFile :=
  c ← load p ; match c with CFile f => mret f | _ => fail TypeConfusion end.
Definition get_dir (p : addr) : M IJJSDir :=
  c ← load p ; match c with CDir d => mret d | _ => fail TypeConfusion end.

Definition ijFileFinalizer (val : JSValue) : M unit :=
  f ← JS_GetOpaque val cls_file ;
  match f with
  | None => mret tt
  | Some p =>
      f ← get_file p ;
      (if negb (f_fd f =? -1) then log "uv_fs_close" [AZ (f_fd f)] else mret tt) ;;
      JS_FreeValueRT (f_path f) ;;
      js_free p
  end.

Definition ijDirFinalizer (val : JSValue) : M unit :=
  d ← JS_GetOpaque val cls_dir ;
  match d with
  | None => mret tt
  | Some p =>
      d ← get_dir p ;
      (match d_dir d with Some dir => log "uv_fs_closedir" [AZ dir] | None => mret tt end) ;;
      JS_FreeValueRT (d_path d) ;;
      js_free p
  end.

(** ** Stat results *)

Record timespec := mkTimespec { tv_sec : Z; tv_nsec : Z }.

Record uv_stat := mkStat {
  st_dev : Z; st_mode : Z; st_nlink : Z; st_uid : Z; st_gid : Z; st_rdev : Z; st_ino : Z; st_size : Z;
  st_blksize : Z; st_blocks : Z; st_flags : Z; st_gen : Z;
  st_atim : timespec; st_mtim : timespec; st_ctim : timespec; st_birthtim : timespec
}.

Definition SET_UINT64_FIELD (obj : JSValue) (name : string) (x : Z) : M unit :=
  v ← JS_NewBigUint64 x ;
  JS_DefinePropertyValueStr obj name v.

(** The number [sec + 1e-9 * nsec], kept as its two parts. *)
Definition SET_TIMESPEC_FIELD (obj : JSValue) (name : string) (x : timespec) : M unit :=
  v ← js_new (BFloat64 (tv_sec x) (tv_nsec x)) ;
  JS_DefinePropertyValueStr obj name v.

Definition ijStat2Obj (st : uv_stat) : M JSValue :=
  obj ← JS_NewObjectProto ;
  SET_UINT64_FIELD obj "st_dev" (st_dev st) ;;
  SET_UINT64_FIELD obj "st_mode" (st_mode st) ;;
  SET_UINT64_FIELD obj "st_nlink" (st_nlink st) ;;
  SET_UINT64_FIELD obj "st_uid" (st_uid st) ;;
  SET_UINT64_FIELD obj "st_gid" (st_gid st) ;;
  SET_UINT64_FIELD obj "st_rdev" (st_rdev st) ;;
  SET_UINT64_FIELD obj "st_ino" (st_ino st) ;;
  SET_UINT64_FIELD obj "st_size" (st_size st) ;;
  SET_UINT64_FIELD obj "st_blksize" (st_blksize st) ;;
  SET_UINT64_FIELD obj "st_blocks" (st_blocks st) ;;
  SET_UINT64_FIELD obj "st_flags" (st_flags st) ;;
  SET_UINT64_FIELD obj "st_gen" (st_gen st) ;;
  SET_TIMESPEC_FIELD obj "st_atim" (st_atim st) ;;
  SET_TIMESPEC_FIELD obj "st_mtim" (st_mtim st) ;;
  SET_TIMESPEC_FIELD obj "st_ctim" (st_ctim st) ;;
  SET_TIMESPEC_FIELD obj "st_birthtim" (st_birthtim st) ;;
  mret obj.

(** ** New objects *)

Definition ijNewFile (fd : Z) (path : bytes) : M JSValue :=
  obj ← JS_NewObjectClass cls_file ;
  if JS_IsException obj then mret obj
  else
    f ← js_malloc (CFile (mkFile 0 JS_UNDEFINED)) ;
    match f with
    | None => JS_FreeValue obj ;; mret JS_EXCEPTION
    | Some p =>
        s ← JS_NewString path ;
        store p (CFile (mkFile fd s)) ;;
        JS_SetOpaque obj p ;;
        mret obj
    end.

Definition ijFileGet (obj : JSValue) : M (option addr) := JS_GetOpaque2 obj cls_file.

Definition ijNewDir (dir : Z) (path : bytes) : M JSValue :=
  obj ← JS_NewObjectClass cls_dir ;
  if JS_IsException obj then mret obj
  else
    d ← js_malloc (CDir (mkDir None ([], 0) JS_UNDEFINED false)) ;
    match d with
    | None => JS_FreeValue obj ;; mret JS_EXCEPTION
    | Some p =>
        s ← JS_NewString path ;
        store p (CDir (mkDir (Some dir) ([], 0) s false)) ;;
        JS_SetOpaque obj p ;;
        mret obj
    end.

Definition ijDirGet (obj : JSValue) : M (option addr) := JS_GetOpaque2 obj cls_dir.

(** ** Requests *)

Definition get_fr (p : addr) : M IJJSFsReq :=
  c ← load p ; match c with CFsReq r => mret r | _ => fail TypeConfusion end.

(** A request block from [js_malloc]. *)
Definition fsreq0 : IJJSFsReq := mkFsReq UV_FS_SCANDIR 0 [] None JS_UNDEFINED None None [].

Definition ijFsReqInit (p : addr) (obj : JSValue) : M JSValue :=
  o ← JS_DupValue obj ;
  r ← get_fr p ;
  store p (CFsReq (mkFsReq (fr_type r) (fr_res r) (fr_reqpath r) (Some p) o (fr_result r) (fr_buf r) (fr_wdata r))) ;;
  ijInitPromise (Place p FResult).

Record fs_reply := mkReply { re_statbuf : uv_stat; re_ptr : bytes; re_dir : Z }.

(** The value an operation that succeeded resolves with. *)
Definition fs_value (p : addr) (r : IJJSFsReq) (re : fs_reply) : M JSValue :=
  match fr_type r with
  | UV_FS_OPEN => ijNewFile (fr_res r) (fr_reqpath r)
  | UV_FS_CLOSE =>
      o ← ijFileGet (fr_obj r) ;
      f ← CHECK_NOT_NULL o ;
      st ← get_file f ;
      JS_FreeValue (f_path st) ;;
      store f (CFile (mkFile (-1) JS_UNDEFINED)) ;;
      mret JS_UNDEFINED
  | UV_FS_READ =>
      b ← deref (fr_buf r) ;
      ijNewUint8Array b (fr_res r)
  | UV_FS_WRITE => mret (JS_NewInt32 (fr_res r))
  | UV_FS_STAT | UV_FS_LSTAT | UV_FS_FSTAT => ijStat2Obj (re_statbuf re)
  | UV_FS_REALPATH => JS_NewString (re_ptr re)
  | UV_FS_COPYFILE | UV_FS_RENAME | UV_FS_RMDIR | UV_FS_UNLINK => mret JS_UNDEFINED
  | UV_FS_MKDTEMP => JS_NewString (fr_reqpath r)
  | UV_FS_MKSTEMP => ijNewFile (fr_res r) (fr_reqpath r)
  | UV_FS_OPENDIR => ijNewDir (re_dir re) (fr_reqpath r)
  | UV_FS_CLOSEDIR =>
      o ← ijDirGet (fr_obj r) ;
      d ← CHECK_NOT_NULL o ;
      st ← get_dir d ;
      JS_FreeValue (d_path st) ;;
      store d (CDir (mkDir None (d_dirent st) JS_UNDEFINED (d_done st))) ;;
      mret JS_UNDEFINED
  | UV_FS_READDIR =>
      o ← ijDirGet (fr_obj r) ;
      d ← deref o ;
      st ← get_dir d ;
      let done := fr_res r =? 0 in
      store d (CDir (mkDir (d_dir st) (d_dirent st) (d_path st) done)) ;;
      arg ← JS_NewObjectProto ;
      JS_DefinePropertyValueStr arg "done" (JS_NewBool done) ;;
      (if negb (fr_res r =? 0) then
         item ← JS_NewObjectProto ;
         name ← JS_NewString (d_dirent st).1 ;
         JS_DefinePropertyValueStr item "name" name ;;
         JS_DefinePropertyValueStr item "type" (JS_NewInt32 (d_dirent st).2) ;;
         JS_DefinePropertyValueStr arg "value" item
       else mret tt) ;;
      mret arg
  | UV_FS_SCANDIR => abort
  end.

Definition uvFsReqCb (req : addr) (re : fs_reply) : M unit :=
  r ← get_fr req ;
  match fr_data r with
  | None => mret tt
  | Some p =>
      r ← get_fr p ;
      '(arg, is_reject) ← (if fr_res r <? 0 then
          e ← ijNewError (fr_res r) ;
          (if decide (fr_type r = UV_FS_READ) then js_free_opt (fr_buf r) else mret tt) ;;
          mret (e, true)
        else
          v ← fs_value p r re ;
          mret (v, false)) ;
      ijSettlePromise (Place p FResult) is_reject [arg] ;;
      JS_FreeValue (fr_obj r) ;;
      log "uv_fs_req_cleanup" [AP p] ;;
      js_free p
  end.

(** Submitting: libuv records the type, and the path for the operations that have one. *)
Definition fs_submit (p : addr) (name : string) (args : list arg) (t : uv_fs_type) (path : bytes) : M Z :=
  r ← ask name (AP p :: args) ;
  (if r =? 0 then
     q ← get_fr p ;
     store p (CFsReq (mkFsReq t (fr_res q) path (fr_data q) (fr_obj q) (fr_result q) (fr_buf q) (fr_wdata q)))
   else mret tt) ;;
  mret r.

(** [return fr->result.p], after ijFsReqInit: JS_EXCEPTION when the promise was not made. *)
Definition result_p (p : addr) : M JSValue :=
  r ← get_fr p ;
  mret (match fr_result r with Some pr => p_p pr | None => JS_EXCEPTION end).

(** ** Methods of files *)

Definition ijFileRead (this : JSValue) (argv : list JSValue) : M JSValue :=
  f ← ijFileGet this ;
  match f with
  | None => mret JS_EXCEPTION
  | Some f =>
      a0 ← arg_at argv 0 ;
      o ← (if JS_IsUndefined a0 then mret (Some IJJS_DEFAULt_READ_SIZE) else JS_ToIndex a0) ;
      match o with
      | None => mret JS_EXCEPTION
      | Some len =>
          a1 ← arg_at argv 1 ;
          o ← (if JS_IsUndefined a1 then mret (Some (-1)) else JS_ToInt64 a1) ;
          match o with
          | None => mret JS_EXCEPTION
          | Some pos =>
              rr ← js_malloc (CFsReq fsreq0) ;
              match rr with
              | None => mret JS_EXCEPTION
              | Some p =>
                  b ← js_malloc (CBuf len) ;
                  match b with
                  | None => js_free p ;; mret JS_EXCEPTION
                  | Some b =>
                      store p (CFsReq (mkFsReq UV_FS_SCANDIR 0 [] None JS_UNDEFINED None (Some b) [])) ;;
                      file ← get_file f ;
                      r ← fs_submit p "uv_fs_read" [AZ (f_fd file); AZ len; AZ pos] UV_FS_READ [] ;
                      if negb (r =? 0) then
                        js_free b ;;
                        js_free p ;;
                        ijThrowErrno r
                      else
                        _ ← ijFsReqInit p this ;
                        result_p p
                  end
              end
          end
      end
  end.

Definition ijFileWrite (this : JSValue) (argv : list JSValue) : M JSValue :=
  f ← ijFileGet this ;
  match f with
  | None => mret JS_EXCEPTION
  | Some f =>
      jsData ← arg_at argv 0 ;
      o ← write_data jsData ;
      match o with
      | None => mret JS_EXCEPTION
      | Some (buf, str) =>
          a1 ← arg_at argv 1 ;
          o ← (if JS_IsUndefined a1 then mret (Some (-1)) else JS_ToInt64 a1) ;
          match o with
          | None => free_cstring_at str 0 ;; mret JS_EXCEPTION
          | Some pos =>
              wr ← js_malloc (CFsReq fsreq0) ;
              match wr with
              | None => free_cstring_at str 0 ;; mret JS_EXCEPTION
              | Some p =>
                  store p (CFsReq (mkFsReq UV_FS_SCANDIR 0 [] None JS_UNDEFINED None None buf)) ;;
                  free_cstring_at str 0 ;;
                  file ← get_file f ;
                  r ← fs_submit p "uv_fs_write" [AZ (f_fd file); AB buf; AZ pos] UV_FS_WRITE [] ;
                  if negb (r =? 0) then
                    js_free p ;;
                    ijThrowErrno r
                  else
                    _ ← ijFsReqInit p this ;
                    result_p p
              end
          end
      end
  end.

(** The common end of the operations: a new request, the libuv call, and the promise. [free]
    releases the C strings of the arguments. *)
Definition fs_request (free : M unit) (name : string) (args : list arg) (t : uv_fs_type) (path : bytes)
    (obj : JSValue) : M JSValue :=
  fr ← js_malloc (CFsReq fsreq0) ;
  match fr with
  | None => free ;; mret JS_EXCEPTION
  | Some p =>
      r ← fs_submit p name args t path ;
      free ;;
      if negb (r =? 0) then
        js_free p ;;
        ijThrowErrno r
      else ijFsReqInit p obj
  end.

Definition ijFileClose (this : JSValue) (argv : list JSValue) : M JSValue :=
  f ← ijFileGet this ;
  match f with
  | None => mret JS_EXCEPTION
  | Some f => file ← get_file f ; fs_request (mret tt) "uv_fs_close" [AZ (f_fd file)] UV_FS_CLOSE [] this
  end.

Definition ijFileStat (this : JSValue) (argv : list JSValue) : M JSValue :=
  f ← ijFileGet this ;
  match f with
  | None => mret JS_EXCEPTION
  | Some f => file ← get_file f ; fs_request (mret tt) "uv_fs_fstat" [AZ (f_fd file)] UV_FS_FSTAT [] this
  end.

Definition ijFileFileno (this : JSValue) (argv : list JSValue) : M JSValue :=
  f ← ijFileGet this ;
  match f with
  | None => mret JS_EXCEPTION
  | Some f => file ← get_file f ; mret (JS_NewInt32 (f_fd file))
  end.

Definition ijFilePathGet (this : JSValue) : M JSValue :=
  f ← ijFileGet this ;
  match f with
  | None => mret JS_EXCEPTION
  | Some f => file ← get_file f ; JS_DupValue (f_path file)
  end.

(** ** Methods of directories *)

Definition dir_arg (d : IJJSDir) : Z := default 0 (d_dir d).

Definition ijDirClose (this : JSValue) (argv : list JSValue) : M JSValue :=
  d ← ijDirGet this ;
  match d with
  | None => mret JS_EXCEPTION
  | Some d => dir ← get_dir d ; fs_request (mret tt) "uv_fs_closedir" [AZ (dir_arg dir)] UV_FS_CLOSEDIR [] this
  end.

Definition ijDirPathGet (this : JSValue) : M JSValue :=
  d ← ijDirGet this ;
  match d with
  | None => mret JS_EXCEPTION
  | Some d => dir ← get_dir d ; JS_DupValue (d_path dir)
  end.

Definition ijDirNext (this : JSValue) (argv : list JSValue) : M JSValue :=
  d ← ijDirGet this ;
  match d with
  | None => mret JS_EXCEPTION
  | Some d =>
      dir ← get_dir d ;
      if d_done dir then mret JS_UNDEFINED
      else
        fr ← js_malloc (CFsReq fsreq0) ;
        match fr with
        | None => mret JS_EXCEPTION
        | Some p =>
            dp ← (match d_dir dir with Some x => mret x | None => fail NullDeref end) ;
            r ← fs_submit p "uv_fs_readdir" [AZ dp] UV_FS_READDIR [] ;
            if negb (r =? 0) then
              js_free p ;;
              ijThrowErrno r
            else ijFsReqInit p this
        end
  end.

Definition ijDirIterator (this : JSValue) (argv : list JSValue) : M JSValue := JS_DupValue this.

(** ** Opening *)

Definition O_RDONLY : Z := 0.
Definition O_WRONLY : Z := 1.
Definition O_RDWR : Z := 2.
Definition O_CREAT : Z := 64.
Definition O_EXCL : Z := 128.
Definition O_TRUNC : Z := 512.
Definition O_APPEND : Z := 1024.

(** The loop's state: [flags], [read], [write]. *)
Definition open_flag (c : ascii) (st : Z * bool * bool) : Z * bool * bool :=
  let '(flags, read, write) := st in
  match c with
  | "r"%char => (flags, true, write)
  | "w"%char => (Z.lor flags (Z.lor O_TRUNC O_CREAT), read, true)
  | "a"%char => (Z.lor flags (Z.lor O_APPEND O_CREAT), read, true)
  | "+"%char => (flags, true, true)
  | "x"%char => (Z.lor flags O_EXCL, read, write)
  | _ => st
  end.

Definition ijUvOpenFlags (strflags : bytes) : Z :=
  let '(flags, read, write) := foldl (flip open_flag) (0, false, false) strflags in
  Z.lor flags (if (read : bool) then (if (write : bool) then O_RDWR else O_RDONLY)
               else (if (write : bool) then O_WRONLY else 0)).

Definition ijFsOpen (this : JSValue) (argv : list JSValue) : M JSValue :=
  a0 ← arg_at argv 0 ;
  path ← JS_ToCString a0 ;
  match path with
  | None => mret JS_EXCEPTION
  | Some (pp, path) =>
      a1 ← arg_at argv 1 ;
      strflags ← JS_ToCString a1 ;
      match strflags with
      | None => JS_FreeCString pp ;; mret JS_EXCEPTION
      | Some (sp, strflags) =>
          let flags := ijUvOpenFlags strflags in
          JS_FreeCString sp ;;
          a2 ← arg_at argv 2 ;
          o ← (if JS_IsUndefined a2 then mret (Some 0) else JS_ToInt32 a2) ;
          match o with
          | None => JS_FreeCString pp ;; mret JS_EXCEPTION
          | Some mode =>
              fs_request (JS_FreeCString pp) "uv_fs_open" [AB path; AZ flags; AZ mode] UV_FS_OPEN path JS_UNDEFINED
          end
      end
  end.

(** ** Operations on paths *)

(** The operations whose only argument is a path. *)
Definition fs_path_request (name : string) (t : uv_fs_type) (argv : list JSValue) : M JSValue :=
  a0 ← arg_at argv 0 ;
  path ← JS_ToCString a0 ;
  match path with
  | None => mret JS_EXCEPTION
  | Some (pp, path) => fs_request (JS_FreeCString pp) name [AB path] t path JS_UNDEFINED
  end.

(** [magic] is 1 for lstat. *)
Definition ijFsStat (magic : Z) (this : JSValue) (argv : list JSValue) : M JSValue :=
  if negb (magic =? 0) then fs_path_request "uv_fs_lstat" UV_FS_LSTAT argv
  else fs_path_request "uv_fs_stat" UV_FS_STAT argv.

Definition ijFsRealPath (this : JSValue) (argv : list JSValue) : M JSValue :=
  fs_path_request "uv_fs_realpath" UV_FS_REALPATH argv.
Definition ijFsUnlink (this : JSValue) (argv : list JSValue) : M JSValue :=
  fs_path_request "uv_fs_unlink" UV_FS_UNLINK argv.
Definition ijFsMkdTemp (this : JSValue) (argv : list JSValue) : M JSValue :=
  fs_path_request "uv_fs_mkdtemp" UV_FS_MKDTEMP argv.
Definition ijFsMksTemp (this : JSValue) (argv : list JSValue) : M JSValue :=
  fs_path_request "uv_fs_mkstemp" UV_FS_MKSTEMP argv.
Definition ijFsRmdir (this : JSValue) (argv : list JSValue) : M JSValue :=
  fs_path_request "uv_fs_rmdir" UV_FS_RMDIR argv.
Definition ijFsReadDir (this : JSValue) (argv : list JSValue) : M JSValue :=
  fs_path_request "uv_fs_opendir" UV_FS_OPENDIR argv.

(** Two paths, and an integer for copyfile. *)
Definition ijFsRename (this : JSValue) (argv : list JSValue) : M JSValue :=
  a0 ← arg_at argv 0 ;
  path ← JS_ToCString a0 ;
  match path with
  | None => mret JS_EXCEPTION
  | Some (pp, path) =>
      a1 ← arg_at argv 1 ;
      new_path ← JS_ToCString a1 ;
      match new_path with
      | None => JS_FreeCString pp ;; mret JS_EXCEPTION
      | Some (np, new_path) =>
          fs_request (JS_FreeCString pp ;; JS_FreeCString np) "uv_fs_rename" [AB path; AB new_path]
            UV_FS_RENAME path JS_UNDEFINED
      end
  end.

Definition ijFsCopyFile (this : JSValue) (argv : list JSValue) : M JSValue :=
  a0 ← arg_at argv 0 ;
  path ← JS_ToCString a0 ;
  match path with
  | None => mret JS_EXCEPTION
  | Some (pp, path) =>
      a1 ← arg_at argv 1 ;
      new_path ← JS_ToCString a1 ;
      match new_path with
      | None => JS_FreeCString pp ;; mret JS_EXCEPTION
      | Some (np, new_path) =>
          a2 ← arg_at argv 2 ;
          o ← JS_ToInt32 a2 ;
          match o with
          | None => JS_FreeCString pp ;; JS_FreeCString np ;; mret JS_EXCEPTION
          | Some flags =>
              fs_request (JS_FreeCString pp ;; JS_FreeCString np) "uv_fs_copyfile"
                [AB path; AB new_path; AZ flags] UV_FS_COPYFILE path JS_UNDEFINED
          end
      end
  end.

(** ** readFile: ijLoadFile on the thread pool *)

Definition get_rf (p : addr) : M IJJSReadFileReq :=
  c ← load p ; match c with CReadFileReq r => mret r | _ => fail TypeConfusion end.

Definition ijReadFileFree (p : addr) : M unit :=
  rf ← get_rf p ;
  js_free_opt (rf_filename rf) ;;
  js_free p.

(** The loop of ijLoadFile has not ended when the fuel runs out. *)
Definition ijReadFileWorkCb (fs : file_system) (fuel : nat) (fds : gset Z) (req : addr) : M (gset Z) :=
  rf ← get_rf req ;
  p ← CHECK_NOT_NULL (rf_data rf) ;
  rf ← get_rf p ;
  f ← deref (rf_filename rf) ;
  c ← load f ;
  name ← (match c with CStr s => mret s | _ => fail TypeConfusion end) ;
  match ijLoadFile fs fuel (rf_dbuf rf) name fds with
  | Some (r, dbuf, fds) =>
      store p (CReadFileReq (mkReadFileReq dbuf r (rf_filename rf) (rf_data rf) (rf_result rf))) ;;
      mret fds
  | None => abort
  end.

Definition ijReadFileAfterWorkCb (req : addr) (status : Z) : M unit :=
  rf ← get_rf req ;
  p ← CHECK_NOT_NULL (rf_data rf) ;
  rf ← get_rf p ;
  '(arg, is_reject) ← (if negb (status =? 0) then e ← ijNewError status ; mret (e, true)
    else if rf_r rf <? 0 then e ← ijNewError (rf_r rf) ; mret (e, true)
    else v ← js_try_new "JS_NewArrayBuffer" (BArrayBuffer (rf_dbuf rf)) ; mret (v, false)) ;
  ijSettlePromise (Place p FResult) is_reject [arg] ;;
  if (is_reject : bool) then ijReadFileFree p else mret tt.

Definition js_strdup (s : bytes) : M (option addr) := js_malloc (CStr s).

Definition ijFsReadFile (this : JSValue) (argv : list JSValue) : M JSValue :=
  a0 ← arg_at argv 0 ;
  path ← JS_ToCString a0 ;
  match path with
  | None => mret JS_EXCEPTION
  | Some (pp, path) =>
      fr ← js_malloc (CReadFileReq (mkReadFileReq [] 0 None None None)) ;
      match fr with
      | None => JS_FreeCString pp ;; mret JS_EXCEPTION
      | Some fr =>
          filename ← js_strdup path ;
          store fr (CReadFileReq (mkReadFileReq [] (-1) filename (Some fr) None)) ;;
          JS_FreeCString pp ;;
          r ← ask "uv_queue_work" [AP fr] ;
          if negb (r =? 0) then
            js_free_opt filename ;;
            js_free fr ;;
            ijThrowErrno r
          else ijInitPromise (Place fr FResult)
      end
  end.

(** ** Tables *)

Definition ijjs_file_proto_funcs : list cfunction := [
  CFUNC "read" 2 ijFileRead;
  CFUNC "write" 2 ijFileWrite;
  CFUNC "close" 0 ijFileClose;
  CFUNC "fileno" 0 ijFileFileno;
  CFUNC "stat" 0 ijFileStat
].

Definition ijjs_dir_proto_funcs : list cfunction := [
  CFUNC "close" 0 ijDirClose;
  CFUNC "next" 0 ijDirNext;
  CFUNC "[Symbol.asyncIterator]" 0 ijDirIterator
].

Definition ijjs_fs_funcs : list cfunction := [
  CFUNC "open" 3 ijFsOpen;
  CFUNC "stat" 1 (ijFsStat 0);
  CFUNC "lstat" 1 (ijFsStat 1);
  CFUNC "realpath" 1 ijFsRealPath;
  CFUNC "unlink" 1 ijFsUnlink;
  CFUNC "rename" 2 ijFsRename;
  CFUNC "mkdtemp" 1 ijFsMkdTemp;
  CFUNC "mkstemp" 1 ijFsMksTemp;
  CFUNC "rmdir" 1 ijFsRmdir;
  CFUNC "copyfile" 3 ijFsCopyFile;
  CFUNC "readdir" 1 ijFsReadDir;
  CFUNC "readFile" 1 ijFsReadFile
].
