(* ===== verification/FsProofs.v ===== *)
(** * Proofs about the file system

    The open flags, the life of a request from its submission to [uvFsReqCb],
    and readFile from the thread pool to the promise. *)

From S2P Require Import Prelude State Runtime Logic Promise Worlds Streams LoadFile Fs.

(** ** Open flags *)

Definition has (c : ascii) (s : bytes) : bool := existsb (Ascii.eqb c) s.

(** The flags by the letters that occur, whatever their order. *)
Definition flags_of (s : bytes) : Z :=
  let rd := has "r" s || has "+" s in
  let wr := has "w" s || has "a" s || has "+" s in
  Z.lor (if has "w" s then Z.lor O_TRUNC O_CREAT else 0)
    (Z.lor (if has "a" s then Z.lor O_APPEND O_CREAT else 0)
      (Z.lor (if has "x" s then O_EXCL else 0)
        (if rd then (if wr then O_RDWR else O_RDONLY) else (if wr then O_WRONLY else 0)))).

Lemma has_snoc c s x : has c (s ++ [x]) = has c s || Ascii.eqb c x.
Proof. unfold has. rewrite existsb_app. simpl. by rewrite orb_false_r. Qed.

(** The state of the loop after the letters of [s]. *)
Definition flag_state (s : bytes) : Z * bool * bool :=
  (Z.lor (if has "w" s then Z.lor O_TRUNC O_CREAT else 0)
     (Z.lor (if has "a" s then Z.lor O_APPEND O_CREAT else 0) (if has "x" s then O_EXCL else 0)),
   has "r" s || has "+" s, has "w" s || has "a" s || has "+" s).

Lemma flag_state_snoc s c : open_flag c (flag_state s) = flag_state (s ++ [c]).
Proof.
  unfold flag_state. rewrite !has_snoc.
  destruct c as [b0 b1 b2 b3 b4 b5 b6 b7].
  destruct b0, b1, b2, b3, b4, b5, b6, b7; simpl;
    rewrite ?orb_false_r, ?orb_true_r; simpl; try reflexivity;
    destruct (has "w" s), (has "a" s), (has "x" s), (has "r" s), (has "+" s); reflexivity.
Qed.

Lemma open_flags_loop s : foldl (flip open_flag) (0, false, false) s = flag_state s.
Proof.
  induction s as [|c s IH] using rev_ind; [done|].
  rewrite foldl_app. simpl. rewrite IH. apply flag_state_snoc.
Qed.

Lemma open_flags_of s : ijUvOpenFlags s = flags_of s.
Proof.
  unfold ijUvOpenFlags. rewrite open_flags_loop. unfold flag_state, flags_of. cbv beta iota zeta.
  by rewrite !Z.lor_assoc.
Qed.

(** ** Building objects *)

Lemma wp_build_field a name b ps (Q : unit → World → Prop) w w' :
  built w w' a ps →
  (∀ s w'', built w w'' a (ps ++ [(name, JS_REF s)]) → w_cell w'' !! s = Some b → Q tt w'') →
  wp (v ← js_new b ; JS_DefinePropertyValueStr (JS_REF a) name v) Q w'.
Proof.
  intros (Ha & Hg & Hc) H. wp_step. apply wp_js_new. intros s Hs Rs.
  apply wp_DefinePropertyValueStr. { apply holds_one. world_simpl. rewrite decide_True by done. lia. }
  assert (s ≠ a) by congruence. apply (H s).
  - pose proof (gives_then_quiet _ _ _ _ Hg (quiet_drop_new s b w' Hs)) as Hg'.
    split_and!; [done|by apply gives_update_new|]. world_simpl.
    rewrite lookup_alter_eq, lookup_insert_ne by congruence. by rewrite Hc.
  - world_simpl. rewrite lookup_alter_ne by congruence. apply lookup_insert_eq.
Qed.

(** The names of the fields of a stat object. *)
Definition stat_fields : list string :=
  ["st_dev"; "st_mode"; "st_nlink"; "st_uid"; "st_gid"; "st_rdev"; "st_ino"; "st_size";
   "st_blksize"; "st_blocks"; "st_flags"; "st_gen"; "st_atim"; "st_mtim"; "st_ctim"; "st_birthtim"]%string.

Definition stat_value (v : JSValue) (w : World) : Prop :=
  ∃ a ps, v = JS_REF a ∧ w_cell w !! a = Some (BObject ps) ∧ ps.*1 = stat_fields.

Lemma giving_ijStat2Obj st : giving (ijStat2Obj st) stat_value.
Proof.
  intros w. unfold ijStat2Obj. wp_step. apply wp_build_object. intros a w0 B. wp_step.
  unfold SET_UINT64_FIELD, SET_TIMESPEC_FIELD, JS_NewBigUint64.
  do 15 (eapply wp_build_field; [exact B|]; clear B; let H := fresh in intros ? ? B H; clear H; wp_step).
  eapply wp_build_field; [exact B|]. clear B. intros ? w1 (_ & Hg & Hc) _. wp_step.
  split; [done|]. eexists a, _. split; [done|]. split; [exact Hc|]. done.
Qed.

(** ** The value of an operation *)

(** A computation made the value [v] for its caller and left the request at [q] alone. *)
Record makes (w w' : World) (q : addr) (v : JSValue) : Prop := {
  mk_env : w_env w' = w_env w;
  mk_balanced : balanced w w' (ref_of v);
  mk_mem : w_mem w' !! q = w_mem w !! q;
  mk_cell : ∀ a b, w_cell w !! a = Some b → w_cell w' !! a = Some b
}.

Lemma gives_makes w w' q v : gives w w' (ref_of v) → makes w w' q v.
Proof.
  intros H. split; [apply H|by apply gives_balanced|by rewrite (gives_mem _ _ _ H)|apply H].
Qed.

Lemma quiet_makes w w' q v : ref_of v = [] → quiet w w' → makes w w' q v.
Proof. intros Hv H. apply gives_makes. rewrite Hv. by apply gives_quiet. Qed.

(** A fresh object of class [c] whose block holds the structure [x path]. *)
Definition wrapped (c : class_id) (x : JSValue → cstruct) (path : bytes) (v : JSValue) (w : World) : Prop :=
  v = JS_EXCEPTION ∨
  ∃ a p s, v = JS_REF a ∧ w_cell w !! a = Some (BClass c (Some p)) ∧ w_mem w !! p = Some (ByJs, x (JS_REF s)) ∧
    w_cell w !! s = Some (BString path).

Lemma wp_new_wrapped c x x0 path q (Q : JSValue → World → Prop) w :
  (∀ v, own (x v) = ref_of v) → own x0 = [] → handles x0 = [] → is_Some (w_mem w !! q) →
  (∀ v w', makes w w' q v → wrapped c x path v w' → Q v w') →
  wp (obj ← JS_NewObjectClass c ;
      if JS_IsException obj then mret obj
      else
        f ← js_malloc x0 ;
        match f with
        | None => JS_FreeValue obj ;; mret JS_EXCEPTION
        | Some p => s ← JS_NewString path ; store p (x s) ;; JS_SetOpaque obj p ;; mret obj
        end) Q w.
Proof.
  intros Hx Hx0 Hh0 [cq Hq] HQ. wp_step. apply wp_try_new.
  2:{ intros w' Hw. wp_steps. apply HQ; [by apply quiet_makes|by left]. }
  intros a Ha Ra. cbn [JS_IsException]. wp_step. apply wp_js_malloc.
  - intros p Hp. world_simpl_in Hp. wp_step. apply wp_js_new. intros s Hs Rs. world_simpl_in Hs.
    apply lookup_insert_None in Hs as [Hs Hsa]. unfold JS_SetOpaque. wp_steps.
    assert (Hqp : q ≠ p) by congruence. apply HQ.
    + split; world_simpl; try done.
      * intros b. unfold excess. world_simpl. owned_simpl. rewrite Hx, Hx0. world_simpl.
        decide_all; lia.
      * by rewrite !lookup_insert_ne by done.
      * intros b y Hb. rewrite lookup_alter_ne by congruence. by rewrite !lookup_insert_ne by congruence.
    + right. exists a, p, s. split; [done|]. world_simpl. split_and!.
      * rewrite lookup_alter_eq, lookup_insert_ne, lookup_insert_eq by congruence. done.
      * apply lookup_insert_eq.
      * rewrite lookup_alter_ne by congruence. apply lookup_insert_eq.
  - intros w' Hw. wp_step. apply wp_FreeValue. { apply holds_one. world_simpl. rewrite decide_True by done. world_simpl_in Ra. lia. }
    wp_steps. apply HQ; [|by left]. apply quiet_makes; [done|].
    destruct Hw as [E1 M1 R1 C1]. split; world_simpl; try done.
    + intros b. world_simpl. decide_all; lia.
    + intros b y Hb. apply C1. world_simpl. by rewrite lookup_insert_ne by congruence.
Qed.

(** What an operation needs of the world when it completes: the file or directory object
    it works on, the buffer it reads into. *)
Definition fs_ready (w : World) (q : addr) (r : IJJSFsReq) : Prop :=
  match fr_type r with
  | UV_FS_CLOSE => ∃ f al st, body_of (fr_obj r) w = Some (BClass cls_file (Some f)) ∧
      w_mem w !! f = Some (al, CFile st)
  | UV_FS_CLOSEDIR | UV_FS_READDIR => ∃ d al st, body_of (fr_obj r) w = Some (BClass cls_dir (Some d)) ∧
      w_mem w !! d = Some (al, CDir st)
  | UV_FS_READ => ∃ b n, fr_buf r = Some b ∧ w_mem w !! b = Some (ByJs, CBuf n)
  | UV_FS_SCANDIR => False
  | _ => True
  end.

(** The [dirent] and the iterator result of a readdir. *)
Definition dirent_value (res : Z) (ent : bytes * Z) (v : JSValue) (w : World) : Prop :=
  ∃ a, v = JS_REF a ∧
  if res =? 0 then w_cell w !! a = Some (BObject [("done"%string, JS_BOOL true)])
  else ∃ i s, w_cell w !! a = Some (BObject [("done"%string, JS_BOOL false); ("value"%string, JS_REF i)]) ∧
    w_cell w !! i = Some (BObject [("name"%string, JS_REF s); ("type"%string, JS_NewInt32 ent.2)]) ∧
    w_cell w !! s = Some (BString ent.1).

Definition string_value (s : bytes) (v : JSValue) (w : World) : Prop :=
  ∃ a, v = JS_REF a ∧ w_cell w !! a = Some (BString s).

(** What the promise of an operation that succeeded is fulfilled with, and what became of the
    file or directory. [w] is the world before, [w'] the world after. *)
Definition fs_result (w : World) (r : IJJSFsReq) (re : fs_reply) (v : JSValue) (w' : World) : Prop :=
  match fr_type r with
  | UV_FS_OPEN | UV_FS_MKSTEMP => wrapped cls_file (λ s, CFile (mkFile (fr_res r) s)) (fr_reqpath r) v w'
  | UV_FS_OPENDIR => wrapped cls_dir (λ s, CDir (mkDir (Some (re_dir re)) ([], 0) s false)) (fr_reqpath r) v w'
  | UV_FS_CLOSE => v = JS_UNDEFINED ∧ ∀ f, body_of (fr_obj r) w = Some (BClass cls_file (Some f)) →
      ∃ al, w_mem w' !! f = Some (al, CFile (mkFile (-1) JS_UNDEFINED))
  | UV_FS_CLOSEDIR => v = JS_UNDEFINED ∧ ∀ d, body_of (fr_obj r) w = Some (BClass cls_dir (Some d)) →
      ∃ al st, w_mem w !! d = Some (al, CDir st) ∧
        w_mem w' !! d = Some (al, CDir (mkDir None (d_dirent st) JS_UNDEFINED (d_done st)))
  | UV_FS_READDIR => ∀ d al st, body_of (fr_obj r) w = Some (BClass cls_dir (Some d)) →
      w_mem w !! d = Some (al, CDir st) →
      w_mem w' !! d = Some (al, CDir (mkDir (d_dir st) (d_dirent st) (d_path st) (fr_res r =? 0))) ∧
      dirent_value (fr_res r) (d_dirent st) v w'
  | UV_FS_READ => uint8_value (fr_res r) v w'
  | UV_FS_WRITE => v = JS_NewInt32 (fr_res r)
  | UV_FS_STAT | UV_FS_LSTAT | UV_FS_FSTAT => stat_value v w'
  | UV_FS_REALPATH => string_value (re_ptr re) v w'
  | UV_FS_MKDTEMP => string_value (fr_reqpath r) v w'
  | UV_FS_COPYFILE | UV_FS_RENAME | UV_FS_RMDIR | UV_FS_UNLINK => v = JS_UNDEFINED
  | UV_FS_SCANDIR => False
  end.

Lemma wp_get_file p al f (Q : IJJSFile → World → Prop) w :
  w_mem w !! p = Some (al, CFile f) → Q f w → wp (get_file p) Q w.
Proof. intros Hp HQ. unfold get_file. wp_step. eapply wp_load; [done|]. by wp_steps. Qed.

Lemma wp_get_dir p al d (Q : IJJSDir → World → Prop) w :
  w_mem w !! p = Some (al, CDir d) → Q d w → wp (get_dir p) Q w.
Proof. intros Hp HQ. unfold get_dir. wp_step. eapply wp_load; [done|]. by wp_steps. Qed.

Lemma wp_get_fr p al r (Q : IJJSFsReq → World → Prop) w :
  w_mem w !! p = Some (al, CFsReq r) → Q r w → wp (get_fr p) Q w.
Proof. intros Hp HQ. unfold get_fr. wp_step. eapply wp_load; [done|]. by wp_steps. Qed.

Lemma giving_string s : giving (JS_NewString s) (string_value s).
Proof.
  intros w. apply wp_js_new. intros a Ha Ra. split; [by apply gives_new_cell|].
  exists a. split; [done|]. world_simpl. apply lookup_insert_eq.
Qed.

(** The iterator result of a readdir. *)
Lemma wp_dirent res ent (Q : JSValue → World → Prop) w :
  (∀ v w', gives w w' (ref_of v) → dirent_value res ent v w' → Q v w') →
  wp (arg ← JS_NewObjectProto ;
      JS_DefinePropertyValueStr arg "done" (JS_NewBool (res =? 0)) ;;
      (if negb (res =? 0) then
         item ← JS_NewObjectProto ;
         name ← JS_NewString ent.1 ;
         JS_DefinePropertyValueStr item "name" name ;;
         JS_DefinePropertyValueStr item "type" (JS_NewInt32 ent.2) ;;
         JS_DefinePropertyValueStr arg "value" item
       else mret tt) ;;
      mret arg) Q w.
Proof.
  intros HQ. wp_step. apply wp_build_object. intros a w1 B1. wp_step. eapply wp_build_imm; [done|done|].
  intros w2 (Ha & Hg2 & Hc2) _. destruct (res =? 0) eqn:E; cbn [negb]; wp_step.
  - wp_steps. apply HQ; [done|]. exists a. split; [done|]. by rewrite E.
  - wp_step. apply wp_build_object. intros i w3 B3. pose proof B3 as (Hi & _).
    eapply wp_build_new; [done|]. intros s w4 B4 Hsi _ Hs4. wp_step. eapply wp_build_imm; [done|done|].
    intros w5 (_ & Hg5 & Hc5) K5. eapply (wp_build_val a "value" (JS_REF i)); [done| | |].
    + exact (gives_trans _ _ _ _ _ Hg2 Hg5).
    + by apply (gives_cell _ _ _ Hg5).
    + intros w6 (_ & Hg6 & Hc6) K6. wp_step. apply HQ; [done|]. exists a. split; [done|]. rewrite E.
      assert (i ≠ a) by congruence. assert (Hsa : s ≠ a).
      { intros ->. destruct B4 as (_ & Hg4 & _). pose proof (gives_cell _ _ _ Hg4 _ _ Hc2). congruence. }
      exists i, s. split_and!; [done|by apply K6|]. apply K6; [done|]. by apply K5.
Qed.

Lemma wp_fs_value q al r re (Q : JSValue → World → Prop) w :
  safe w → w_mem w !! q = Some (al, CFsReq r) → fs_ready w q r →
  (∀ v w', makes w w' q v → fs_result w r re v w' → Q v w') →
  wp (fs_value q r re) Q w.
Proof.
  intros Hs Hq Hrd HQ. assert (Hlive : is_Some (w_mem w !! q)) by eauto.
  assert (Hu : fs_result w r re JS_UNDEFINED w → wp (mret JS_UNDEFINED) Q w).
  { intros H. wp_step. apply HQ; [|done]. by apply quiet_makes. }
  assert (Hgv : ∀ m P, giving m P → (∀ v w', P v w' → fs_result w r re v w') → wp m Q w).
  { intros m P Hm HP. eapply wp_giving; [done|]. intros v w' Hg Hv. apply HQ; [by apply gives_makes|auto]. }
  unfold fs_value, fs_ready, fs_result in *. destruct (fr_type r); try (by apply Hu).
  - unfold ijNewFile. apply (wp_new_wrapped cls_file (λ s, CFile (mkFile (fr_res r) s))
      (CFile (mkFile 0 JS_UNDEFINED)) (fr_reqpath r) q); try done; intros; apply app_nil_r.
  - destruct Hrd as (f & al' & st & Hobj & Hf). unfold ijFileGet. wp_step. eapply wp_GetOpaque2_class; [done|].
    wp_steps. eapply wp_get_file; [done|]. wp_step. apply wp_FreeValue.
    { intros a. pose proof (holds_owned _ _ _ _ Hs Hf a) as Ha. simpl in Ha. world_simpl_in Ha. lia. }
    wp_steps. apply HQ.
    + split; world_simpl; try done.
      * ledger.
      * by rewrite lookup_insert_ne by congruence.
    + split; [done|]. intros f' Hf'. assert (f' = f) as -> by congruence. exists al'. world_simpl. apply lookup_insert_eq.
  - destruct Hrd as (b & n & Hb & Hbm). rewrite Hb. wp_steps. eapply wp_ijNewUint8Array; [done| |].
    + intros v w' [E1 M1 R1 C1 H1] Hv. apply HQ; [|done]. split; try done.
      * intros a. unfold excess. rewrite M1, R1. erewrite owned_delete by done. simpl. rewrite cnt_nil. lia.
      * rewrite M1. apply lookup_delete_ne. congruence.
    + intros w' Hq'. apply HQ; [by apply quiet_makes|by left].
  - wp_step. apply HQ; [|done]. by apply quiet_makes.
  - apply (Hgv _ _ (giving_ijStat2Obj _)); auto.
  - apply (Hgv _ _ (giving_ijStat2Obj _)); auto.
  - apply (Hgv _ _ (giving_ijStat2Obj _)); auto.
  - apply (Hgv _ _ (giving_string _)); auto.
  - apply (Hgv _ _ (giving_string _)); auto.
  - unfold ijNewFile. apply (wp_new_wrapped cls_file (λ s, CFile (mkFile (fr_res r) s))
      (CFile (mkFile 0 JS_UNDEFINED)) (fr_reqpath r) q); try done; intros; apply app_nil_r.
  - unfold ijNewDir. apply (wp_new_wrapped cls_dir (λ s, CDir (mkDir (Some (re_dir re)) ([], 0) s false))
      (CDir (mkDir None ([], 0) JS_UNDEFINED false)) (fr_reqpath r) q); try done; intros; apply app_nil_r.
  - destruct Hrd as (d & al' & st & Hobj & Hd). unfold ijDirGet. wp_step. eapply wp_GetOpaque2_class; [done|].
    wp_steps. eapply wp_get_dir; [done|]. wp_step. apply wp_FreeValue.
    { intros a. pose proof (holds_owned _ _ _ _ Hs Hd a) as Ha. simpl in Ha. world_simpl_in Ha. lia. }
    wp_steps. apply HQ.
    + split; world_simpl; try done.
      * ledger.
      * by rewrite lookup_insert_ne by congruence.
    + split; [done|]. intros d' Hd'. assert (d' = d) as -> by congruence. exists al', st. split; [done|].
      world_simpl. apply lookup_insert_eq.
  - destruct Hrd as (d & al' & st & Hobj & Hd). unfold ijDirGet. wp_step. eapply wp_GetOpaque2_class; [done|].
    wp_step. wp_step. wp_step. eapply wp_get_dir; [done|]. wp_step. eapply wp_store; [done|].
    apply wp_dirent. intros v w' Hg Hv. destruct Hg as [E1 M1 R1 C1 H1]. apply HQ.
    + split; world_simpl; try done.
      * ledger. cbn [d_path]. lia.
      * by rewrite lookup_insert_ne by congruence.
    + intros d' al2 st' Hd' Hm'. assert (d' = d) as -> by congruence. assert (al2 = al') as -> by congruence.
      assert (st' = st) as -> by congruence. split; [|done]. world_simpl. apply lookup_insert_eq.
  - done.
Qed.

(** ** The callback *)

(** A request that has completed: its promise is pending. *)
Record fs_in_flight (w : World) (q : addr) (r : IJJSFsReq) (pr : IJJSPromise) (pa : addr) : Prop := {
  ff_mem : w_mem w !! q = Some (ByJs, CFsReq r);
  ff_data : fr_data r = Some q;
  ff_result : fr_result r = Some pr;
  ff_pending : pending_at w pr pa
}.

(** A failed read has its buffer still. *)
Definition fs_failed (w : World) (r : IJJSFsReq) : Prop :=
  fr_type r = UV_FS_READ → ∃ b n, fr_buf r = Some b ∧ w_mem w !! b = Some (ByJs, CBuf n).

Lemma wp_fs_arg q r re (Q : JSValue * bool → World → Prop) w :
  safe w → w_mem w !! q = Some (ByJs, CFsReq r) →
  (if fr_res r <? 0 then fs_failed w r else fs_ready w q r) →
  (∀ v w', makes w w' q v →
     (if fr_res r <? 0 then error_value (fr_res r) v w' else fs_result w r re v w') → Q (v, fr_res r <? 0) w') →
  wp (if fr_res r <? 0 then
          e ← ijNewError (fr_res r) ;
          (if decide (fr_type r = UV_FS_READ) then js_free_opt (fr_buf r) else mret tt) ;;
          mret (e, true)
        else
          v ← fs_value q r re ;
          mret (v, false)) Q w.
Proof.
  intros Hs Hq Hrd HQ. destruct (fr_res r <? 0).
  - wp_step. eapply wp_giving; [apply giving_ijNewError|]. intros v w1 Hg Hv. pose proof Hg as [E1 M1 R1 C1 H1].
    wp_step. case_decide as Ht.
    + destruct (Hrd Ht) as (b & n & Hb & Hbm). rewrite Hb. eapply wp_c_free; [by rewrite M1|done|]. wp_step.
      apply HQ; [|done]. split; world_simpl; try done.
      * ledger.
      * by rewrite lookup_delete_ne by congruence.
    + wp_steps. apply HQ; [|done]. by apply gives_makes.
  - wp_step. eapply wp_fs_value; [done|done|done|]. intros v w1 Hm Hv. wp_step. by apply HQ.
Qed.

(** The result survives the settling of the promise and the release of the request. *)
Lemma fs_result_settled w r re v w1 w2 q pa x :
  w_cell w1 !! pa = Some (BPromise Pending) → w_cell w2 = <[pa := x]> (w_cell w1) →
  (∀ p y, p ≠ q → w_mem w1 !! p = Some y → w_mem w2 !! p = Some y) → 
  (∃ c, w_mem w1 !! q = Some (ByJs, CFsReq c)) → (∃ c, w_mem w !! q = Some (ByJs, CFsReq c)) →
  fs_result w r re v w1 → fs_result w r re v w2.
Proof.
  intros Hpa Hc Hm [cq1 Hq1] [cq Hq]. unfold fs_result.
  assert (Hcell : ∀ a b, (∀ st, b ≠ BPromise st) → w_cell w1 !! a = Some b → w_cell w2 !! a = Some b).
  { intros a b Hb Ha. rewrite Hc, lookup_insert_ne; [done|]. intros ->. by apply (Hb Pending); congruence. }
  assert (Hmem : ∀ p al y, (∀ c, y ≠ CFsReq c) → w_mem w1 !! p = Some (al, y) → w_mem w2 !! p = Some (al, y)).
  { intros p al y Hy Hp. apply Hm; [|done]. intros ->. apply (Hy cq1). congruence. }
  assert (Hw : ∀ c X s, (∀ v c, X v ≠ CFsReq c) → wrapped c X s v w1 → wrapped c X s v w2).
  { intros c X s HX [->|(a & p & s' & -> & H1 & H2 & H3)]; [by left|]. right. exists a, p, s'.
    split_and!; auto. }
  destruct (fr_type r); try done.
  - apply Hw; done.
  - intros [-> H]. split; [done|]. intros f Hf. destruct (H f Hf) as (al & ?). exists al. by apply Hmem.
  - intros H. by eapply uint8_value_settled.
  - intros (a & ps & -> & Ha & Hps). exists a, ps. split_and!; auto.
  - intros (a & ps & -> & Ha & Hps). exists a, ps. split_and!; auto.
  - intros (a & ps & -> & Ha & Hps). exists a, ps. split_and!; auto.
  - intros (a & -> & Ha). exists a. split; auto.
  - intros (a & -> & Ha). exists a. split; auto.
  - apply Hw; done.
  - apply Hw; done.
  - intros [-> H]. split; [done|]. intros f Hf. destruct (H f Hf) as (al & st & ? & ?). exists al, st. split; [done|].
    by apply Hmem.
  - intros H d al st Hd Hdm. destruct (H d al st Hd Hdm) as [H1 (a & -> & Ha)]. split; [by apply Hmem|].
    exists a. split; [done|]. destruct (fr_res r =? 0); [by apply Hcell|].
    destruct Ha as (i & s & ? & ? & ?). exists i, s. split_and!; auto.
Qed.

Lemma wp_uvFsReqCb w q r re pr pa :
  safe w → fs_in_flight w q r pr pa → (if fr_res r <? 0 then fs_failed w r else fs_ready w q r) →
  wp (uvFsReqCb q re) (λ _ w', balanced w w' [] ∧ w_env w' = w_env w ∧ w_mem w' !! q = None ∧
    (∀ a b, a ≠ pa → w_cell w !! a = Some b → w_cell w' !! a = Some b) ∧
    ∃ v, w_cell w' !! pa = Some (BPromise (if fr_res r <? 0 then Rejected v else Fulfilled v)) ∧
      if fr_res r <? 0 then error_value (fr_res r) v w' else fs_result w r re v w') w.
Proof.
  intros Hs [Hq Hd Hres Hp] Hrd. unfold uvFsReqCb. wp_step. eapply wp_get_fr; [done|]. rewrite Hd.
  wp_step. eapply wp_get_fr; [done|]. wp_step. apply wp_fs_arg; [done|done|done|].
  intros v w1 [E1 B1 M1 C1] Hv. cbv beta iota. pose proof (balanced_safe _ _ _ Hs B1) as Hs1.
  assert (Hq1 : w_mem w1 !! q = Some (ByJs, CFsReq r)) by congruence.
  assert (Hown : ∀ a, cnt a (ref_of v) + cnt a (own_promise pr) + cnt a (ref_of (fr_obj r)) ≤ rc w1 a).
  { intros a. specialize (B1 a). specialize (Hs a). unfold excess in B1.
    pose proof (owned_lookup _ a _ _ _ Hq1) as Ho. simpl in Ho. rewrite Hres, Hd in Ho. simpl in Ho.
    world_simpl_in Ho. lia. }
  wp_step. eapply (wp_ijSettlePromise (Place q FResult) _ [v] ByJs (CFsReq r) pr pa);
    [done|done|by eapply pending_kept| |].
  { intros a. specialize (Hown a). world_simpl. count_facts a. lia. }
  intros w2 [E2 M2 R2 C2]. specialize (M2 _ _ Hq1). cbn [pl_block pl_field] in M2.
  wp_step. apply wp_FreeValue. { intros a. specialize (Hown a). world_simpl. lia. }
  wp_steps. eapply wp_c_free; [lookup_tac|done|].
  assert (Hpa : w_cell w1 !! pa = Some (BPromise Pending)) by apply C1, Hp. split_and!.
  - intros a. specialize (B1 a). revert B1. unfold excess. world_simpl. rewrite delete_insert_eq.
    erewrite owned_delete by done. cbn [own]. rewrite Hres, Hd. simpl own_promise_opt. world_simpl. lia.
  - world_simpl. congruence.
  - world_simpl. apply lookup_delete_eq.
  - intros a b Ha Hb. world_simpl. rewrite lookup_insert_ne by done. by apply C1.
  - exists v. split; [world_simpl; rewrite lookup_insert_eq; simpl; by destruct (fr_res r <? 0)|].
    set (w3 := set_mem _ _). assert (C3 : w_cell w3 = w_cell w2) by (unfold w3; by world_simpl).
    rewrite C2 in C3. destruct (fr_res r <? 0).
    + by apply (error_value_settled _ _ _ _ _ _ _ Hpa C3).
    + apply (fs_result_settled _ _ _ _ _ _ q _ _ Hpa C3); [|by eauto|by eauto|done].
      intros p y Hpq Hy. unfold w3. world_simpl. by rewrite delete_insert_eq, lookup_delete_ne by congruence.
Qed.

Theorem fs_cb_spec w q r re pr pa :
  safe w → fs_in_flight w q r pr pa → (if fr_res r <? 0 then fs_failed w r else fs_ready w q r) →
  wp (uvFsReqCb q re) (λ _ w', balanced w w' [] ∧ w_mem w' !! q = None ∧
    ∃ v, w_cell w' !! pa = Some (BPromise (if fr_res r <? 0 then Rejected v else Fulfilled v)) ∧
      if fr_res r <? 0 then error_value (fr_res r) v w' else fs_result w r re v w') w.
Proof.
  intros Hs Hf Hr. eapply wp_mono; [by eapply wp_uvFsReqCb|]. by intros ? w' (Hb & _ & Hq & _ & Hv).
Qed.

(** An unlink in flight at 12. *)
Definition fs_request1 : IJJSFsReq :=
  mkFsReq UV_FS_UNLINK 0 (lit "old.txt") (Some 12%positive) JS_UNDEFINED (Some promise1) None [].
Definition fs_world : World := world_with 0 ∅ ∅ {[ 12%positive := (ByJs, CFsReq fs_request1) ]}.
Definition fs_reply1 : fs_reply := mkReply (let t := mkTimespec 0 0 in mkStat 0 0 0 0 0 0 0 0 0 0 0 0 t t t t) [] 0.

(** ** Submitting *)

(** The request in flight on behalf of [obj]. *)
Definition submitted (t : uv_fs_type) (path : bytes) (q : addr) (obj : JSValue) (pr : option IJJSPromise)
    (buf : option addr) (data : bytes) : IJJSFsReq :=
  mkFsReq t 0 path (Some q) obj pr buf data.

(** [free] releases the C strings [ps] and does nothing else. *)
Definition frees (free : M unit) (ps : list addr) (w0 : World) : Prop :=
  ∀ w (Q : unit → World → Prop), (∀ p, p ∈ ps → w_mem w !! p = w_mem w0 !! p) →
    Q tt (set_mem (foldr delete (w_mem w) ps) w) → wp free Q w.

(** What [fs_request] gives: an exception and no trace but the freed strings, or a promise and
    the request in flight, which keeps [obj] alive. *)
Definition request_made (w : World) (ps : list addr) (t : uv_fs_type) (path : bytes) (obj v : JSValue)
    (w' : World) : Prop :=
  let rest := foldr delete (w_mem w) ps in
  v = JS_EXCEPTION ∧ balanced w w' [] ∧ w_mem w' = rest ∨
  ∃ q, rest !! q = None ∧
    (v = JS_EXCEPTION ∧ balanced w w' [] ∧ w_mem w' = <[q := (ByJs, CFsReq (submitted t path q obj None None []))]> rest ∨
     ∃ pr pa, v = JS_REF pa ∧ balanced w w' [pa] ∧
       w_mem w' = <[q := (ByJs, CFsReq (submitted t path q obj (Some pr) None []))]> rest ∧ pending_at w' pr pa).

(** Strings own nothing. *)
Lemma owned_strings ps m a :
  (∀ p, p ∈ ps → ∃ s, m !! p = Some (ByCString, CStr s)) → owned (foldr delete m ps) a = owned m a.
Proof.
  induction ps as [|p ps IH]; intros H; [done|]. simpl.
  assert (IH' : owned (foldr delete m ps) a = owned m a).
  { apply IH. intros p' Hp'. apply H. by apply elem_of_cons; right. }
  destruct (foldr delete m ps !! p) as [[al c]|] eqn:E; [|by rewrite delete_id].
  erewrite owned_delete by done. assert (E' : m !! p = Some (al, c)).
  { clear -E. revert E. induction ps as [|x ps IH]; [done|]. simpl. rewrite lookup_delete_Some. naive_solver. }
  destruct (H p) as (s & Hs); [by apply elem_of_cons; left|]. rewrite Hs in E'. injection E' as <- <-.
  simpl. rewrite cnt_nil. lia.
Qed.

Lemma foldr_delete_insert (m : gmap addr (allocator * cstruct)) ps q x :
  q ∉ ps → foldr delete (<[q := x]> m) ps = <[q := x]> (foldr delete m ps).
Proof.
  induction ps as [|p ps IH]; [done|]. rewrite not_elem_of_cons. intros [Hp Hps]. simpl.
  by rewrite IH, delete_insert_ne by done.
Qed.

Lemma foldr_delete_None (m : gmap addr (allocator * cstruct)) ps q : m !! q = None → foldr delete m ps !! q = None.
Proof. intros H. induction ps as [|p ps IH]; [done|]. simpl. by apply lookup_delete_None; right. Qed.

(** The promise of a request that libuv has accepted. *)
Lemma wp_ijFsReqInit q t path obj buf data rest (Q : JSValue → World → Prop) w w2 :
  rest !! q = None → (∀ a, owned rest a = owned (w_mem w) a) →
  w_mem w2 = <[q := (ByJs, CFsReq (mkFsReq t 0 path None JS_UNDEFINED None buf data))]> rest →
  (∀ a, rc w2 a = rc w a) →
  (∀ w', balanced w w' [] → w_mem w' = <[q := (ByJs, CFsReq (submitted t path q obj None buf data))]> rest →
     Q JS_EXCEPTION w') →
  (∀ w' pr pa, balanced w w' [pa] → w_mem w' = <[q := (ByJs, CFsReq (submitted t path q obj (Some pr) buf data))]> rest →
     pending_at w' pr pa → Q (JS_REF pa) w') →
  wp (ijFsReqInit q obj) Q w2.
Proof.
  intros Hq Hown M2 R2 H1 H2. unfold ijFsReqInit. wp_step. wp_step. wp_step. eapply wp_get_fr; [lookup_tac|].
  wp_step. eapply wp_store; [lookup_tac|]. cbn [fr_type fr_res fr_reqpath fr_result fr_buf fr_wdata].
  set (w3 := set_mem _ _).
  assert (M3 : w_mem w3 = <[q := (ByJs, CFsReq (submitted t path q obj None buf data))]> rest).
  { unfold w3. world_simpl. by rewrite insert_insert_eq. }
  assert (X3 : ∀ a, excess w3 a = excess w a).
  { intros a. unfold excess. rewrite M3, owned_insert, Hown by done. cbn. rewrite app_nil_r. unfold w3. world_simpl. lia. }
  clearbody w3. assert (Hlk : w_mem w3 !! pl_block (Place q FResult) =
    Some (ByJs, CFsReq (submitted t path q obj None buf data))) by (rewrite M3; apply lookup_insert_eq).
  eapply wp_ijInitPromise; [done| |].
  - intros w4 pr pa Hi. apply (H2 w4 pr pa); [| |apply Hi].
    + intros a. rewrite (initialised_excess _ _ _ _ _ _ _ a Hlk eq_refl Hi), X3. cbn [pl_field sel fr_result submitted own_promise_opt]. rewrite (cnt_nil a). lia.
    + rewrite (init_mem _ _ _ _ _ Hi _ _ Hlk), M3. cbn [pl_block pl_field]. by rewrite insert_insert_eq.
  - intros w4 Hi. apply H1.
    + intros a. rewrite (init_failed_excess _ _ _ _ _ a Hlk eq_refl Hi), X3, cnt_nil. lia.
    + rewrite (if_mem _ _ _ Hi _ _ Hlk), M3. cbn [pl_block]. by rewrite insert_insert_eq.
Qed.

Lemma fs_request_spec free ps name args t path obj w :
  frees free ps w → (∀ p, p ∈ ps → ∃ s, w_mem w !! p = Some (ByCString, CStr s)) →
  wp (fs_request free name args t path obj) (request_made w ps t path obj) w.
Proof.
  intros Hfree Hps. pose proof (λ a, owned_strings ps (w_mem w) a Hps) as Hown.
  unfold fs_request, request_made. wp_step. apply wp_js_malloc.
  2:{ intros w1 Hq. wp_step. apply Hfree; [intros; by world_simpl|]. wp_step. left. split; [done|]. split.
      - intros a. unfold excess. world_simpl. rewrite Hown. lia.
      - by world_simpl. }
  intros q Hq. assert (Hqs : q ∉ ps).
  { intros Hin. destruct (Hps q Hin). congruence. }
  pose proof (foldr_delete_None _ ps q Hq) as Hqr. set (w1 := new_block _ _ _ _).
  assert (M1 : w_mem w1 = <[q := (ByJs, CFsReq fsreq0)]> (w_mem w)) by done.
  assert (R1 : ∀ a, rc w1 a = rc w a) by done. clearbody w1.
  unfold fs_submit. wp_step. wp_step. wp_step.
  assert (Hfr : ∀ x w2 (Q : unit → World → Prop), w_mem w2 = <[q := x]> (w_mem w) →
    Q tt (set_mem (<[q := x]> (foldr delete (w_mem w) ps)) w2) → wp free Q w2).
  { intros x w2 Q M2 HQ. apply Hfree; [intros p Hp; rewrite M2; apply lookup_insert_ne; congruence|].
    by rewrite M2, foldr_delete_insert. }
  destruct (r =? 0) eqn:Er; cbn [negb].
  - do 2 wp_step. eapply wp_get_fr; [lookup_tac|]. eapply wp_store; [lookup_tac|]. wp_step. wp_step.
    cbn [fr_res fr_data fr_obj fr_result fr_buf fr_wdata fsreq0].
    eapply Hfr; [world_simpl; by rewrite insert_insert_eq|]. rewrite Er. cbn [negb].
    eapply wp_ijFsReqInit; [exact Hqr|exact Hown|by world_simpl|intros a; by world_simpl| |].
    + intros w' B M'. right. exists q. split; [done|]. by left.
    + intros w' pr pa B M' Hp. right. exists q. split; [done|]. right. by exists pr, pa.
  - do 4 wp_step. eapply Hfr; [by world_simpl|]. rewrite Er. cbn [negb]. wp_step.
    eapply wp_c_free; [lookup_tac|done|]. wp_step.
    left. split; [done|]. split.
    + intros a. unfold excess. world_simpl. rewrite delete_insert_id, Hown by done. lia.
    + world_simpl. by rewrite delete_insert_id.
Qed.

(** The operations on one path leave no string behind. *)
Lemma fs_path_request_spec name t v argv w :
  wp (fs_path_request name t (v :: argv)) (λ x w',
    x = JS_EXCEPTION ∧ balanced w w' [] ∧ w_mem w' = w_mem w ∨
    ∃ path, request_made w [] t path JS_UNDEFINED x w') w.
Proof.
  unfold fs_path_request. wp_step. eapply wp_arg_at; [done|]. wp_step. apply wp_ToCString.
  2:{ intros w1 Hq. wp_step. left. split; [done|]. split; [by apply quiet_balanced|by world_simpl]. }
  intros w1 p s Hq Hp. pose proof (quiet_mem _ _ Hq) as Mq. rewrite Mq in Hp.
  eapply wp_mono; [apply (fs_request_spec _ [p])|].
  - intros w2 Q H2 HQ. specialize (H2 p). rewrite mem_new_block, lookup_insert_eq in H2.
    eapply wp_c_free; [apply H2; by apply list_elem_of_singleton|done|]. exact HQ.
  - intros p'. rewrite list_elem_of_singleton. intros ->. exists s. apply lookup_insert_eq.
  - intros x w2 H. right. exists s. unfold request_made in *. cbn [foldr] in *.
    rewrite mem_new_block, delete_insert_id, Mq in H by by rewrite Mq.
    assert (HB : ∀ l, balanced (new_block p ByCString (CStr s) w1) w2 l → balanced w w2 l).
    { intros l B a. rewrite B. unfold excess. world_simpl. rewrite owned_insert by done. cbn. rewrite cnt_nil. lia. }
    destruct H as [(-> & B & M2)|(q & Hq' & [(-> & B & M2)|(pr & pa & -> & B & M2 & Hpd)])].
    + left. auto.
    + right. exists q. split; [done|]. left. auto.
    + right. exists q. split; [done|]. right. exists pr, pa. auto.
Qed.

(** ** readFile *)

Lemma wp_get_rf p al r (Q : IJJSReadFileReq → World → Prop) w :
  w_mem w !! p = Some (al, CReadFileReq r) → Q r w → wp (get_rf p) Q w.
Proof. intros Hp HQ. unfold get_rf. wp_step. eapply wp_load; [done|]. by wp_steps. Qed.

Record rf_in_flight (w : World) (q : addr) (rf : IJJSReadFileReq) (f : addr) (name : bytes) (pr : IJJSPromise)
    (pa : addr) : Prop := {
  rff_mem : w_mem w !! q = Some (ByJs, CReadFileReq rf);
  rff_data : rf_data rf = Some q;
  rff_name : rf_filename rf = Some f ∧ w_mem w !! f = Some (ByJs, CStr name);
  rff_result : rf_result rf = Some pr;
  rff_pending : pending_at w pr pa
}.

(** The error a read file request reports, 0 for none. *)
Definition rf_error (rf : IJJSReadFileReq) (status : Z) : Z :=
  if status =? 0 then Z.min (rf_r rf) 0 else status.

Definition file_value (data : bytes) (v : JSValue) (w : World) : Prop :=
  v = JS_EXCEPTION ∨ ∃ a, v = JS_REF a ∧ w_cell w !! a = Some (BArrayBuffer data).

Definition rf_value (rf : IJJSReadFileReq) (status : Z) (v : JSValue) (w : World) : Prop :=
  if rf_error rf status =? 0 then file_value (rf_dbuf rf) v w else error_value (rf_error rf status) v w.

Lemma wp_rf_arg rf status (Q : JSValue * bool → World → Prop) w :
  (∀ v w', gives w w' (ref_of v) → rf_value rf status v w' → Q (v, negb (rf_error rf status =? 0)) w') →
  wp (if negb (status =? 0) then e ← ijNewError status ; mret (e, true)
    else if rf_r rf <? 0 then e ← ijNewError (rf_r rf) ; mret (e, true)
    else v ← js_try_new "JS_NewArrayBuffer" (BArrayBuffer (rf_dbuf rf)) ; mret (v, false)) Q w.
Proof.
  assert (Herr : ∀ e, (e =? 0) = false →
    (∀ v w', gives w w' (ref_of v) → (if e =? 0 then file_value (rf_dbuf rf) v w' else error_value e v w') →
       Q (v, negb (e =? 0)) w') → wp (x ← ijNewError e ; mret (x, true)) Q w).
  { intros e He HQ. rewrite He in HQ. wp_step. eapply wp_giving; [apply giving_ijNewError|]. intros v w' Hg Hv.
    wp_step. by apply HQ. }
  unfold rf_value, rf_error. destruct (status =? 0) eqn:Es; cbn [negb]; [|by apply Herr].
  destruct (rf_r rf <? 0) eqn:Er.
  - apply Z.ltb_lt in Er. rewrite Z.min_l by lia. apply Herr. lia.
  - apply Z.ltb_ge in Er. rewrite Z.min_r by lia. intros HQ. wp_step. eapply wp_giving; [apply giving_try_new|].
    intros v w' Hg Hv. wp_step. by apply HQ.
Qed.

Lemma read_file_after_spec w q rf f name pr pa status :
  safe w → rf_in_flight w q rf f name pr pa →
  wp (ijReadFileAfterWorkCb q status) (λ _ w', balanced w w' [] ∧
    ∃ v, rf_value rf status v w' ∧
      w_cell w' !! pa = Some (BPromise (if rf_error rf status =? 0 then Fulfilled v else Rejected v)) ∧
      (rf_error rf status ≠ 0 → w_mem w' = delete q (delete f (w_mem w)))) w.
Proof.
  intros Hs [Hq Hd [Hn Hf] Hres Hp]. unfold ijReadFileAfterWorkCb. wp_step. eapply wp_get_rf; [done|]. rewrite Hd.
  do 3 wp_step. eapply wp_get_rf; [done|]. wp_step. apply wp_rf_arg. intros v w1 [E1 M1 R1 C1 H1] Hv. cbv beta iota.
  assert (Hown : ∀ a, cnt a (own_promise pr) ≤ rc w a).
  { intros a. specialize (Hs a). pose proof (owned_lookup _ a _ _ _ Hq) as Ho. simpl in Ho. rewrite Hres in Ho.
    simpl in Ho. lia. }
  assert (Hqf : q ≠ f) by congruence.
  wp_step. eapply (wp_ijSettlePromise (Place q FResult) _ [v] ByJs (CReadFileReq rf) pr pa);
    [by rewrite M1|done|by eapply pending_kept| |].
  { intros a. specialize (Hown a). rewrite R1. world_simpl. count_facts a. lia. }
  intros w2 [E2 M2 R2 C2]. specialize (M2 ByJs (CReadFileReq rf)). rewrite M1 in M2. specialize (M2 Hq).
  cbn [pl_block pl_field] in M2.
  assert (B2 : balanced w w2 []).
  { intros a. unfold excess. rewrite M2. erewrite owned_update by done. cbn [own upd rf_result]. rewrite Hres.
    simpl own_promise_opt. world_simpl. lia. }
  assert (Hpa : w_cell w1 !! pa = Some (BPromise Pending)) by apply C1, Hp.
  assert (Hfin : ∀ w3, w_cell w3 = w_cell w2 → rf_value rf status v w3 ∧
     w_cell w3 !! pa = Some (BPromise (if rf_error rf status =? 0 then Fulfilled v else Rejected v))).
  { intros w3 C3. rewrite C2 in C3. unfold rf_value in *.
    destruct (rf_error rf status =? 0); cbn [negb] in *; (split; [|rewrite C3; apply lookup_insert_eq]).
    - destruct Hv as [->|(a & -> & Ha)]; [by left|]. right. exists a. split; [done|].
      by rewrite C3, lookup_insert_ne by congruence.
    - by apply (error_value_settled _ _ _ _ _ _ _ Hpa C3). }
  destruct (rf_error rf status =? 0) eqn:Ee; cbn [negb].
  - wp_step. split; [done|]. exists v. split_and!; [by apply Hfin..|]. intros; lia.
  - unfold ijReadFileFree. wp_step. eapply wp_get_rf; [lookup_tac|]. cbn [rf_filename]. rewrite Hn. wp_step.
    eapply wp_c_free; [rewrite M2, lookup_insert_ne by done; exact Hf|done|].
    eapply wp_c_free; [world_simpl; rewrite lookup_delete_ne by done; apply lookup_insert_eq|done|]. split.
    + intros a. rewrite <- (B2 a). unfold excess. world_simpl.
      rewrite delete_insert_ne, delete_insert_eq by done.
      rewrite (owned_update _ _ _ _ _ _ _ Hq). rewrite (delete_delete _ q f) by done.
      erewrite (owned_delete (delete q (w_mem w))) by (rewrite lookup_delete_ne by done; exact Hf).
      rewrite (owned_delete _ _ _ _ _ Hq). cbn [own upd rf_result]. simpl own_promise_opt. world_simpl. lia.
    + exists v. split_and!; [by apply Hfin..|]. intros _. world_simpl. by rewrite delete_insert_ne, delete_insert_eq by done.
Qed.

(** The work on the thread pool, then the callback on the loop. *)
Definition read_file_run (fs : file_system) (fuel : nat) (fds : gset Z) (q : addr) : M (gset Z) :=
  fds' ← ijReadFileWorkCb fs fuel fds q ;
  ijReadFileAfterWorkCb q 0 ;;
  mret fds'.

Lemma wp_read_file_work fs fuel fds w q rf f name pr pa r data fds' (Q : gset Z → World → Prop) :
  rf_in_flight w q rf f name pr pa → ijLoadFile fs fuel (rf_dbuf rf) name fds = Some (r, data, fds') →
  (∀ w', balanced w w' [] → rf_in_flight w' q (mkReadFileReq data r (Some f) (Some q) (Some pr)) f name pr pa →
     w_cell w' = w_cell w → Q fds' w') →
  wp (ijReadFileWorkCb fs fuel fds q) Q w.
Proof.
  intros [Hq Hd [Hn Hf] Hres Hp] Hl HQ. unfold ijReadFileWorkCb.
  wp_step. eapply wp_get_rf; [done|]. rewrite Hd. do 3 wp_step. eapply wp_get_rf; [done|]. rewrite Hn. wp_steps.
  rewrite Hl. wp_steps. rewrite Hd, Hres. apply HQ.
  - intros a. unfold excess. world_simpl. erewrite owned_update by done. cbn [own rf_result]. rewrite Hres. lia.
  - split; try done.
    + world_simpl. apply lookup_insert_eq.
    + split; [done|]. world_simpl. by rewrite lookup_insert_ne by congruence.
  - done.
Qed.


(** The request at 12 to read hello.txt, whose name is at 13. *)
Definition read_world : World :=
  world_with 0 ∅ ∅
    {[ 12%positive := (ByJs, CReadFileReq (mkReadFileReq [] (-1) (Some 13%positive) (Some 12%positive) (Some promise1)));
       13%positive := (ByJs, CStr (lit "hello.txt")) ]}.


(** ** A directory that has been closed *)

(** When the close succeeds, the next [next()] writes through the directory's NULL pointer. *)
Lemma dir_next_closed w this d al st :
  body_of this w = Some (BClass cls_dir (Some d)) → w_mem w !! d = Some (al, CDir st) →
  d_dir st = None → d_done st = false → (∀ l, e_int (w_env w) l = 0) →
  ijDirNext this [] w = Fault NullDeref.
Proof.
  intros Hb Hd Hn Hdone Henv. unfold ijDirNext, ijDirGet. apply fault_bind. eapply wp_GetOpaque2_class; [done|].
  apply fault_bind. eapply wp_get_dir; [done|]. rewrite Hdone. apply fault_bind. unfold js_malloc. wp_step.
  apply wp_ask_eq. intros r ->. rewrite Henv. simpl (0 =? 0). cbv iota. wp_step. apply wp_c_alloc. intros p Hp. wp_step.
  apply fault_first. by rewrite Hn.
Qed.

Lemma dir_next_after_close w q r re pr pa d al st :
  safe w → fs_in_flight w q r pr pa → fr_type r = UV_FS_CLOSEDIR → fr_res r = 0 →
  body_of (fr_obj r) w = Some (BClass cls_dir (Some d)) → w_mem w !! d = Some (al, CDir st) → d_done st = false →
  (∀ l, e_int (w_env w) l = 0) →
  wp (uvFsReqCb q re) (λ _ w', ijDirNext (fr_obj r) [] w' = Fault NullDeref) w.
Proof.
  intros Hs Hq Ht Hr Ho Hd Hdone Henv. eapply wp_mono; [apply (wp_uvFsReqCb w q r re pr pa Hs Hq)|].
  { rewrite Hr. simpl. unfold fs_ready. rewrite Ht. by exists d, al, st. }
  intros [] w' (_ & E & _ & C & v & _ & Hv). rewrite Hr in Hv. simpl in Hv. unfold fs_result in Hv. rewrite Ht in Hv.
  destruct Hv as [_ Hv]. destruct (Hv d Ho) as (al' & st' & Hd' & Hm'). assert (st' = st) as -> by congruence.
  eapply dir_next_closed; [|exact Hm'|done|done|by rewrite E].
  destruct (fr_obj r) as [| | | | |x]; try done. simpl in *. apply C; [|done].
  intros ->. destruct Hq as [_ _ _ (_ & _ & Hpd & _)]. congruence.
Qed.
