(* ===== verification/Process.v ===== *)
(** * Child processes: ijprocess.c *)

From S2P Require Import Prelude State Runtime Logic Promise Streams Fs.

Definition get_process (p : addr) : M IJJSProcess :=
  c ← load p ; match c with CProcess s => mret s | _ => fail TypeConfusion end.
Definition put_process (p : addr) (s : IJJSProcess) : M unit := store p (CProcess s).

Definition ps_with_closed (b : bool) (s : IJJSProcess) : IJJSProcess :=
  mkProcess b (pr_finalized s) (pr_process s) (pr_stdin s) (pr_stdout s) (pr_stderr s)
    (pr_exited s) (pr_exit_status s) (pr_term_signal s) (pr_result s).
Definition ps_with_finalized (b : bool) (s : IJJSProcess) : IJJSProcess :=
  mkProcess (pr_closed s) b (pr_process s) (pr_stdin s) (pr_stdout s) (pr_stderr s)
    (pr_exited s) (pr_exit_status s) (pr_term_signal s) (pr_result s).
Definition ps_with_handle (h : uv_handle) (s : IJJSProcess) : IJJSProcess :=
  mkProcess (pr_closed s) (pr_finalized s) h (pr_stdin s) (pr_stdout s) (pr_stderr s)
    (pr_exited s) (pr_exit_status s) (pr_term_signal s) (pr_result s).
Definition ps_with_exit (status signal : Z) (s : IJJSProcess) : IJJSProcess :=
  mkProcess (pr_closed s) (pr_finalized s) (pr_process s) (pr_stdin s) (pr_stdout s) (pr_stderr s)
    true status signal (pr_result s).

(** [stdio[i] = v] *)
Definition ps_with_stdio (i : nat) (v : JSValue) (s : IJJSProcess) : IJJSProcess :=
  mkProcess (pr_closed s) (pr_finalized s) (pr_process s)
    (if decide (i = 0%nat) then v else pr_stdin s) (if decide (i = 1%nat) then v else pr_stdout s)
    (if decide (i = 2%nat) then v else pr_stderr s)
    (pr_exited s) (pr_exit_status s) (pr_term_signal s) (pr_result s).

(** ** Closing *)

Definition uvCloseCb (handle : addr) : M unit :=
  s ← get_process handle ;
  p ← CHECK_NOT_NULL (h_data (pr_process s)) ;
  s ← get_process p ;
  put_process p (ps_with_closed true s) ;;
  if pr_finalized s then je_free p else mret tt.

Definition uvMaybeClose (p : addr) : M unit :=
  s ← get_process p ;
  if negb (uv_is_closing (pr_process s)) then
    h ← uv_close (pr_process s) ;
    put_process p (ps_with_handle h s)
  else mret tt.

Definition finalize_process (p : option addr) : M unit :=
  match p with
  | None => mret tt
  | Some p =>
      ijFreePromiseRT (Place p FResult) ;;
      s ← get_process p ;
      JS_FreeValueRT (pr_stdin s) ;;
      JS_FreeValueRT (pr_stdout s) ;;
      JS_FreeValueRT (pr_stderr s) ;;
      put_process p (ps_with_finalized true s) ;;
      if pr_closed s then je_free p else uvMaybeClose p
  end.

Definition ijProcessFinalizer (val : JSValue) : M unit :=
  p ← JS_GetOpaque val cls_process ;
  finalize_process p.

Definition ijProcessMark (val : JSValue) : M (list JSValue) :=
  p ← JS_GetOpaque val cls_process ;
  match p with
  | None => mret []
  | Some p => s ← get_process p ;
      mret (ijMarkPromise (pr_result s) ++ [pr_stdin s; pr_stdout s; pr_stderr s])
  end.

Definition ijProcessGet (obj : JSValue) : M (option addr) := JS_GetOpaque2 obj cls_process.

(** ** Methods *)

Definition SIGTERM : Z := 15.

Definition ijProcessKill (this : JSValue) (argv : list JSValue) : M JSValue :=
  p ← ijProcessGet this ;
  match p with
  | None => mret JS_EXCEPTION
  | Some p =>
      a0 ← arg_at argv 0 ;
      o ← (if JS_IsUndefined a0 then mret (Some SIGTERM) else JS_ToInt32 a0) ;
      match o with
      | None => mret JS_EXCEPTION
      | Some sig_num =>
          r ← ask "uv_process_kill" [AP p; AZ sig_num] ;
          if negb (r =? 0) then ijThrowErrno r else mret JS_UNDEFINED
      end
  end.

(** The object a wait resolves with. *)
Definition exit_object (status signal : Z) : M JSValue :=
  obj ← JS_NewObjectProto ;
  JS_DefinePropertyValueStr obj "exit_status" (JS_NewInt32 status) ;;
  JS_DefinePropertyValueStr obj "term_signal" (JS_NewInt32 signal) ;;
  mret obj.

Definition ijProcessWait (this : JSValue) (argv : list JSValue) : M JSValue :=
  p ← ijProcessGet this ;
  match p with
  | None => mret JS_EXCEPTION
  | Some p =>
      s ← get_process p ;
      if pr_exited s then
        obj ← exit_object (pr_exit_status s) (pr_term_signal s) ;
        ijNewResolvedPromise [obj]
      else if pr_closed s then mret JS_UNDEFINED
      else ijInitPromise (Place p FResult)
  end.

Definition ijProcessPidGet (this : JSValue) : M JSValue :=
  p ← ijProcessGet this ;
  match p with
  | None => mret JS_EXCEPTION
  | Some p => pid ← ask "uv_process_get_pid" [AP p] ; mret (JS_NewInt32 pid)
  end.

Definition ijProcessStdioGet (magic : nat) (this : JSValue) : M JSValue :=
  p ← ijProcessGet this ;
  match p with
  | None => mret JS_EXCEPTION
  | Some p =>
      s ← get_process p ;
      JS_DupValue (match magic with 0%nat => pr_stdin s | 1%nat => pr_stdout s | _ => pr_stderr s end)
  end.

Definition uvExitCb (handle : addr) (exit_status term_signal : Z) : M unit :=
  s ← get_process handle ;
  p ← CHECK_NOT_NULL (h_data (pr_process s)) ;
  s ← get_process p ;
  put_process p (ps_with_exit exit_status term_signal s) ;;
  (if negb (JS_IsUndefined (p_p (pr_result s))) then
     arg ← exit_object exit_status term_signal ;
     ijSettlePromise (Place p FResult) false [arg] ;;
     ijClearPromise (Place p FResult)
   else mret tt) ;;
  uvMaybeClose p.

(** ** ijSpawn *)

Inductive stdio_container :=
| UV_INHERIT_FD (fd : Z)
| UV_CREATE_PIPE (readable : bool) (stream : option addr)
| UV_IGNORE.

(** The [uv_process_options_t]. [args] and [env] are arrays of strings, NULL beyond the
    ones written. *)
Record options := mkOptions {
  o_args : option (addr * list (option addr));
  o_env : option (addr * list (option addr));
  o_cwd : option addr;
  o_uid : option Z;
  o_gid : option Z;
  o_stdio : list stdio_container
}.

Definition options0 : options :=
  mkOptions None None None None None [UV_INHERIT_FD 0; UV_INHERIT_FD 1; UV_INHERIT_FD 2].

(** A step of ijSpawn: [inl] is [goto fail]. *)
Definition step_bind (m : M (options + options)) (k : options → M (options + options)) : M (options + options) :=
  x ← m ;
  match x with inl o => mret (inl o) | inr o => k o end.

(** [js_strdup(ctx, JS_ToCString(ctx, v))]: the C string of [v] is not freed. *)
Definition strdup_value (v : JSValue) : M (option addr) :=
  c ← JS_ToCString v ;
  match c with
  | None => fail NullDeref
  | Some (_, s) => js_strdup s
  end.

Fixpoint spawn_array (arg0 : JSValue) (b : addr) (n i : nat) (done : list (option addr)) : M (bool * list (option addr)) :=
  match n with
  | O => mret (true, done)
  | S n =>
      v ← JS_GetPropertyUint32 arg0 i ;
      if JS_IsException v then mret (false, done)
      else
        s ← strdup_value v ;
        spawn_array arg0 b n (S i) (done ++ [s])
  end.

Definition with_args (a : option (addr * list (option addr))) (o : options) : options :=
  mkOptions a (o_env o) (o_cwd o) (o_uid o) (o_gid o) (o_stdio o).

Definition spawn_args (arg0 : JSValue) (o : options) : M (options + options) :=
  is_string ← JS_IsString arg0 ;
  if (is_string : bool) then
    b ← js_malloc (CBuf 16) ;
    match b with
    | None => mret (inl o)
    | Some b => s ← strdup_value arg0 ; mret (inr (with_args (Some (b, [s])) o))
    end
  else
    is_array ← JS_IsArray arg0 ;
    if (is_array : bool) then
      js_length ← JS_GetPropertyStr arg0 "length" ;
      l ← JS_ToIndex js_length ;
      JS_FreeValue js_length ;;
      match l with
      | None => mret (inl o)
      | Some len =>
          b ← js_malloc (CBuf (8 * (len + 1))) ;
          match b with
          | None => mret (inl o)
          | Some b =>
              '(ok, strs) ← spawn_array arg0 b (Z.to_nat len) 0 [] ;
              mret (if (ok : bool) then inr (with_args (Some (b, strs)) o) else inl (with_args (Some (b, strs)) o))
          end
      end
    else
      _ ← JS_ThrowTypeError "only string and array are allowed" ;
      mret (inl o).

(** JS_GetOwnPropertyNames and ijFreePropEnum: the table is a block. *)
Definition JS_GetOwnPropertyNames (obj : JSValue) : M (option (addr * list string)) :=
  r ← ask "JS_GetOwnPropertyNames" [AV obj] ;
  if negb (r =? 0) then (js_raise ;; mret None)
  else
    names ← gets (λ w, match body_of obj w with Some (BObject ps) | Some (BError ps) => ps.*1 | _ => [] end) ;
    tab ← c_alloc ByJs (CBuf (Z.of_nat (length names))) ;
    mret (Some (tab, names)).

Definition ijFreePropEnum (tab : option addr) : M unit := js_free_opt tab.

Fixpoint spawn_env (js_env : JSValue) (names : list string) (done : list (option addr)) : M (bool * list (option addr)) :=
  match names with
  | [] => mret (true, done)
  | name :: names =>
      prop ← JS_GetPropertyStr js_env name ;
      if JS_IsException prop then mret (false, done)
      else
        _ ← c_alloc ByCString (CStr (lit name)) ;
        value ← JS_ToCString prop ;
        match value with
        | None => fail NullDeref
        | Some (_, value) =>
            e ← js_malloc (CStr (lit name ++ lit "=" ++ value)) ;
            match e with
            | None => fail NullDeref
            | Some e => spawn_env js_env names (done ++ [Some e])
            end
        end
  end.

Definition with_env (e : option (addr * list (option addr))) (o : options) : options :=
  mkOptions (o_args o) e (o_cwd o) (o_uid o) (o_gid o) (o_stdio o).

Definition spawn_opt_env (arg1 : JSValue) (o : options) : M (options + options) :=
  js_env ← JS_GetPropertyStr arg1 "env" ;
  is_object ← JS_IsObject js_env ;
  x ← (if (is_object : bool) then
      t ← JS_GetOwnPropertyNames js_env ;
      match t with
      | None => mret (inl o)
      | Some (tab, names) =>
          b ← js_malloc (CBuf (8 * (Z.of_nat (length names) + 1))) ;
          match b with
          | None => ijFreePropEnum (Some tab) ;; mret (inl o)
          | Some b =>
              '(ok, strs) ← spawn_env js_env names [] ;
              ijFreePropEnum (Some tab) ;;
              mret (if (ok : bool) then inr (with_env (Some (b, strs)) o) else inl (with_env (Some (b, strs)) o))
          end
      end
    else mret (inr o)) ;
  JS_FreeValue js_env ;;
  mret x.

Definition spawn_opt_cwd (arg1 : JSValue) (o : options) : M (options + options) :=
  js_cwd ← JS_GetPropertyStr arg1 "cwd" ;
  if JS_IsException js_cwd then mret (inl o)
  else
    cwd ← (if JS_IsUndefined js_cwd then mret (o_cwd o) else strdup_value js_cwd) ;
    JS_FreeValue js_cwd ;;
    mret (inr (mkOptions (o_args o) (o_env o) cwd (o_uid o) (o_gid o) (o_stdio o))).

(** The options [uid] and [gid]. *)
Definition spawn_opt_id (arg1 : JSValue) (name : string) (set : Z → options → options) (o : options) :
    M (options + options) :=
  js_id ← JS_GetPropertyStr arg1 name ;
  if JS_IsException js_id then mret (inl o)
  else
    x ← (if JS_IsUndefined js_id then mret (inr o)
         else v ← JS_ToUint32 js_id ;
              mret (match v with None => inl o | Some id => inr (set id o) end)) ;
    JS_FreeValue js_id ;;
    mret x.

Definition with_uid (z : Z) (o : options) : options :=
  mkOptions (o_args o) (o_env o) (o_cwd o) (Some z) (o_gid o) (o_stdio o).
Definition with_gid (z : Z) (o : options) : options :=
  mkOptions (o_args o) (o_env o) (o_cwd o) (o_uid o) (Some z) (o_stdio o).
Definition with_stdio (i : nat) (c : stdio_container) (o : options) : options :=
  mkOptions (o_args o) (o_env o) (o_cwd o) (o_uid o) (o_gid o) (<[i := c]> (o_stdio o)).

(** The options [stdin], [stdout] and [stderr]: descriptor [i] of the child. *)
Definition spawn_opt_stdio (p : addr) (arg1 : JSValue) (i : nat) (name : string) (o : options) : M (options + options) :=
  v ← JS_GetPropertyStr arg1 name ;
  x ← (if negb (JS_IsException v) && negb (JS_IsUndefined v) then
      c ← JS_ToCString v ;
      match c with
      | None => fail NullDeref
      | Some (_, s) =>
          if decide (s = lit "inherit") then mret (inr (with_stdio i (UV_INHERIT_FD (Z.of_nat i)) o))
          else if decide (s = lit "pipe") then
            obj ← ijNewPipe ;
            if JS_IsException obj then mret (inl o)
            else
              st ← get_process p ;
              put_process p (ps_with_stdio i obj st) ;;
              stream ← ijPipeGetStream obj ;
              mret (inr (with_stdio i (UV_CREATE_PIPE (Nat.eqb i 0) stream) o))
          else if decide (s = lit "ignore") then mret (inr (with_stdio i UV_IGNORE o))
          else mret (inr o)
      end
    else mret (inr o)) ;
  JS_FreeValue v ;;
  mret x.

Definition spawn_options (p : addr) (arg1 : JSValue) (o : options) : M (options + options) :=
  if JS_IsUndefined arg1 then mret (inr o)
  else
    step_bind (spawn_opt_env arg1 o) (λ o,
    step_bind (spawn_opt_cwd arg1 o) (λ o,
    step_bind (spawn_opt_id arg1 "uid" with_uid o) (λ o,
    step_bind (spawn_opt_id arg1 "gid" with_gid o) (λ o,
    step_bind (spawn_opt_stdio p arg1 0 "stdin" o) (λ o,
    step_bind (spawn_opt_stdio p arg1 1 "stdout" o) (λ o,
    spawn_opt_stdio p arg1 2 "stderr" o)))))).

(** [options.file], the first argument *)
Definition o_file (o : options) : option addr :=
  match o_args o with Some (_, s :: _) => s | _ => None end.

(** uv_spawn initialises the handle first, also when it fails later; it asserts that there
    is a file. *)
Definition uv_spawn (p : addr) (o : options) : M Z :=
  match o_file o with
  | None => abort
  | Some f =>
      r ← ask "uv_spawn" [AP p; AP f] ;
      s ← get_process p ;
      put_process p (ps_with_handle (started r (handle_init (pr_process s))) s) ;;
      mret r
  end.

(** Freeing the strings of an array up to the first NULL, and the array. *)
Fixpoint free_strings (l : list (option addr)) : M unit :=
  match l with
  | Some s :: l => js_free s ;; free_strings l
  | _ => mret tt
  end.
Definition free_string_array (a : option (addr * list (option addr))) : M unit :=
  match a with
  | None => mret tt
  | Some (b, l) => free_strings l ;; js_free b
  end.

Definition spawn_cleanup (o : options) : M unit :=
  free_string_array (o_args o) ;;
  free_string_array (o_env o) ;;
  js_free_opt (o_cwd o).

Definition spawn_fail (p : addr) (obj : JSValue) : M unit :=
  s ← get_process p ;
  JS_FreeValue (pr_stdin s) ;;
  JS_FreeValue (pr_stdout s) ;;
  JS_FreeValue (pr_stderr s) ;;
  je_free p ;;
  JS_FreeValue obj.

Definition process0 : IJJSProcess :=
  mkProcess false false (handle0 UV_PROCESS) (JS_INT 0) (JS_INT 0) (JS_INT 0) false 0 0 promise0.

Definition ijSpawn (this : JSValue) (argv : list JSValue) : M JSValue :=
  obj ← JS_NewObjectClass cls_process ;
  if JS_IsException obj then mret obj
  else
    p ← je_calloc (CProcess process0) ;
    match p with
    | None => JS_FreeValue obj ;; mret JS_EXCEPTION
    | Some p =>
        put_process p (mkProcess false false (with_data (Some p) (handle0 UV_PROCESS))
          JS_UNDEFINED JS_UNDEFINED JS_UNDEFINED false 0 0 cleared) ;;
        arg0 ← arg_at argv 0 ;
        x ← step_bind (spawn_args arg0 options0) (λ o, arg1 ← arg_at argv 1 ; spawn_options p arg1 o) ;
        match x with
        | inl o =>
            spawn_fail p obj ;;
            spawn_cleanup o ;;
            mret JS_EXCEPTION
        | inr o =>
            r ← uv_spawn p o ;
            if negb (r =? 0) then
              _ ← ijThrowErrno r ;
              spawn_fail p obj ;;
              spawn_cleanup o ;;
              mret JS_EXCEPTION
            else
              JS_SetOpaque obj p ;;
              spawn_cleanup o ;;
              mret obj
        end
    end.

(** ** Tables *)

Definition ijjs_process_proto_funcs : list cfunction := [
  CFUNC "kill" 1 ijProcessKill;
  CFUNC "wait" 0 ijProcessWait
].

Definition ijjs_process_funcs : list cfunction := [CFUNC "spawn" 2 ijSpawn].

(** libuv finishes closing the handle and runs the callback. *)
Definition process_close_done (p : addr) : M unit :=
  s ← get_process p ;
  put_process p (ps_with_handle (handle_closed (pr_process s)) s) ;;
  uvCloseCb p.
