(* ===== verification/ProcessProofs.v ===== *)
(** * Proofs about child processes

    The life of a process as an instance of [Lifecycle], the exit callback, wait,
    and what happens when the child cannot be started. *)

From S2P Require Import Prelude State Runtime Logic Lifecycle Promise Worlds Streams Fs Process.

Lemma wp_get_process p al s (Q : IJJSProcess → World → Prop) w :
  w_mem w !! p = Some (al, CProcess s) → Q s w → wp (get_process p) Q w.
Proof. intros Hp HQ. unfold get_process. wp_step. eapply wp_load; [done|]. by wp_steps. Qed.

Lemma wp_put_process p al c s (Q : unit → World → Prop) w :
  w_mem w !! p = Some (al, c) → Q tt (set_mem (<[p := (al, CProcess s)]> (w_mem w)) w) →
  wp (put_process p s) Q w.
Proof. intros Hp HQ. unfold put_process. by eapply wp_store. Qed.

Ltac get_process := eapply wp_get_process; [lookup_tac|].
Ltac put_process := eapply wp_put_process; [lookup_tac|].
Ltac ps_simpl :=
  cbn [own pr_process pr_closed pr_finalized pr_stdin pr_stdout pr_stderr pr_exited pr_exit_status pr_term_signal
       pr_result ps_with_handle ps_with_closed ps_with_finalized ps_with_exit handles upd sel has_field pl_block
       pl_field h_init h_closing h_closed h_data h_type handle_closed].

(** ** The life of a process *)

Definition ps_life (s : IJJSProcess) : life :=
  mkLife (h_closing (pr_process s)) (pr_closed s) (pr_finalized s).

Record process_inv (w : World) (p : addr) (s : IJJSProcess) : Prop := {
  psi_safe : safe w;
  psi_init : h_init (pr_process s) = true;
  psi_data : h_data (pr_process s) = Some p;
  psi_life : life_ok (ps_life s);
  psi_closed : h_closed (pr_process s) = pr_closed s;
  psi_promise : pr_finalized s = false → droppable (pr_result s)
}.

Lemma wp_ps_maybe_close p al s (Q : unit → World → Prop) w :
  w_mem w !! p = Some (al, CProcess s) → h_init (pr_process s) = true →
  Q tt (if h_closing (pr_process s) then w
        else set_mem (<[p := (al, CProcess (ps_with_handle (mkHandle (h_type (pr_process s)) true false true
               (h_closed (pr_process s)) (h_data (pr_process s))) s))]> (w_mem w)) w) →
  wp (uvMaybeClose p) Q w.
Proof.
  intros Hp Hi HQ. unfold uvMaybeClose. wp_step. get_process. unfold uv_is_closing, uv_close.
  destruct (h_closing (pr_process s)) eqn:Hc; simpl negb; cbv iota; [by wp_steps|].
  rewrite Hi. simpl negb. cbv iota. wp_steps. put_process. exact HQ.
Qed.

Lemma ps_close_spec w p s :
  w_mem w !! p = Some (ByJe, CProcess s) → process_inv w p s → enabled (ps_life s) EClose = true →
  wp (uvMaybeClose p) (λ _ w', ∃ s', w_mem w' = <[p := (ByJe, CProcess s')]> (w_mem w) ∧
    process_inv w' p s' ∧ Live (ps_life s') = life_after (ps_life s) EClose) w.
Proof.
  intros Hp [Hs Hi Hd [L1 [L2 L3]] Hc Hpr] En. eapply wp_ps_maybe_close; [done|done|].
  destruct (h_closing (pr_process s)) eqn:E.
  - exists s. split_and!.
    + by rewrite insert_id.
    + by split.
    + unfold ps_life in *. simpl in *. by rewrite E.
  - eexists. split; [reflexivity|]. split; [split; ps_simpl|]; try done.
    intros a. world_simpl. erewrite owned_update by done. ps_simpl. specialize (Hs a). lia.
Qed.

Lemma ps_close_cb_spec w p s :
  w_mem w !! p = Some (ByJe, CProcess s) → process_inv w p s → enabled (ps_life s) ECloseCb = true →
  wp (process_close_done p) (λ _ w',
    match life_after (ps_life s) ECloseCb with
    | Freed => w_mem w' = delete p (w_mem w)
    | Live l => ∃ s', w_mem w' = <[p := (ByJe, CProcess s')]> (w_mem w) ∧ process_inv w' p s' ∧ ps_life s' = l
    end) w.
Proof.
  intros Hp [Hs Hi Hd [L1 [L2 L3]] Hc Hpr] En. simpl in *. apply andb_prop in En as [Ecl Ec].
  unfold process_close_done, uvCloseCb. wp_step. get_process. wp_step. put_process.
  wp_step. get_process. ps_simpl. rewrite Hd. do 3 wp_step. get_process. wp_step. put_process.
  ps_simpl. wp_step.
  - eapply wp_c_free; [lookup_tac|ps_simpl; simpl; by world_simpl|]. world_simpl. by rewrite !delete_insert_eq.
  - wp_step. eexists. split; [world_simpl; by rewrite insert_insert_eq|]. split; [split; ps_simpl|]; try done.
    + intros a. world_simpl. owned_simpl. ps_simpl. specialize (Hs a). lia.
    + intros _. by apply Hpr.
    + unfold ps_life. ps_simpl. by rewrite E, Ecl.
Qed.

(** What the finalizer releases of the structure's references. *)
Lemma process_holds w p s :
  safe w → w_mem w !! p = Some (ByJe, CProcess s) → pr_finalized s = false → droppable (pr_result s) →
  ∀ a, cnt a (refs_of [p_rfunc0 (pr_result s); p_rfunc1 (pr_result s); p_p (pr_result s)]) +
       cnt a (refs_of [pr_stdin s; pr_stdout s; pr_stderr s]) ≤ rc w a.
Proof.
  intros Hs Hp Hf Hd a. specialize (Hs a). pose proof (owned_lookup _ a _ _ _ Hp) as Ho. cbn [own] in Ho.
  rewrite Hf, cnt_app in Ho. pose proof (droppable_holds a _ Hd). lia.
Qed.

Lemma ps_finalize_spec w p s :
  w_mem w !! p = Some (ByJe, CProcess s) → process_inv w p s → enabled (ps_life s) EFinalize = true →
  wp (finalize_process (Some p)) (λ _ w',
    match life_after (ps_life s) EFinalize with
    | Freed => w_mem w' = delete p (w_mem w)
    | Live l => ∃ s', w_mem w' = <[p := (ByJe, CProcess s')]> (w_mem w) ∧ process_inv w' p s' ∧ ps_life s' = l
    end) w.
Proof.
  intros Hp [Hs Hi Hd [L1 [L2 L3]] Hc Hpr] En. simpl in *. apply negb_true_iff in En. specialize (Hpr En).
  pose proof (process_holds _ _ _ Hs Hp En Hpr) as Hh. unfold finalize_process, JS_FreeValueRT.
  wp_step. eapply wp_ijFreePromiseRT; [done|done| |].
  { intros a. specialize (Hh a). pose proof (cnt_nonneg a (refs_of [pr_stdin s; pr_stdout s; pr_stderr s])). lia. }
  intros w1 E1 M1 R1 C1. wp_step. get_process.
  assert (Hh1 : holds w1 (refs_of [pr_stdin s; pr_stdout s; pr_stderr s])).
  { intros a. specialize (Hh a). rewrite R1. lia. }
  wp_step. apply wp_FreeValue; [ps_simpl; holds_by Hh1|].
  wp_step. apply wp_FreeValue; [ps_simpl; holds_by Hh1|].
  wp_step. apply wp_FreeValue; [ps_simpl; holds_by Hh1|]. wp_step. put_process. ps_simpl. wp_step.
  - eapply wp_c_free; [lookup_tac|ps_simpl; simpl; by rewrite h_open_closed by congruence|].
    world_simpl. cbn [pl_block]. by rewrite !delete_insert_eq.
  - set (s' := ps_with_finalized true _). set (w3 := set_mem _ _).
    assert (Hm3 : w_mem w3 = <[p := (ByJe, CProcess s')]> (w_mem w)).
    { subst w3. world_simpl. cbn [pl_block]. by rewrite !insert_insert_eq. }
    assert (Hs3 : safe w3).
    { intros a. rewrite Hm3. erewrite owned_update by done. subst w3 s'. specialize (Hs a).
      pose proof (droppable_holds a _ Hpr) as Ha. autorewrite with world in Ha. world_simpl. ps_simpl. rewrite En.
      world_simpl. lia. }
    clearbody w3. eapply (wp_ps_maybe_close _ _ s'); [by rewrite Hm3, lookup_insert_eq|done|].
    change (pr_process s') with (pr_process s). destruct (h_closing (pr_process s)) eqn:Ecl.
    + exists s'. split; [done|]. split; [split; try done|]; unfold ps_life, s'; ps_simpl; by rewrite Ecl.
    + eexists. split; [world_simpl; rewrite insert_insert_eq; reflexivity|]. split; [split; try done|].
      * intros a. specialize (Hs3 a). world_simpl. revert Hs3. rewrite Hm3. owned_simpl. ps_simpl. lia.
      * unfold ps_life, s'. by ps_simpl.
Qed.

#[export] Instance process_lifecycle : Lifecycle IJJSProcess := {|
  lc_wrap := CProcess;
  lc_life := ps_life;
  lc_inv := process_inv;
  lc_close := uvMaybeClose;
  lc_close_cb := process_close_done;
  lc_finalize := λ p, finalize_process (Some p);
  lc_close_spec := ps_close_spec;
  lc_close_cb_spec := ps_close_cb_spec;
  lc_finalize_spec := ps_finalize_spec
|}.

Theorem process_freed_once w p s es st :
  w_mem w !! p = Some (ByJe, CProcess s) → process_inv w p s → ps_life s = life0 →
  lrun (Live life0) es = Some st →
  wp (lexecs (St := IJJSProcess) p es) (λ _ w', freed_once (St := IJJSProcess) (w_mem w) p es w') w.
Proof. exact (lexecs_freed_once (St := IJJSProcess) w p s es st). Qed.

(** A running process at 10 of the object at 20, with a wait pending. *)
Definition process1 : IJJSProcess :=
  mkProcess false false (handle_at UV_PROCESS 10) JS_UNDEFINED JS_UNDEFINED JS_UNDEFINED false 0 0 promise1.
Definition process_world : World :=
  world_with 0 {[ 20%positive := BClass cls_process (Some 10%positive) ]} ∅ {[ 10%positive := (ByJe, CProcess process1) ]}.

(** ** Waiting *)

Definition exit_value (status signal : Z) (v : JSValue) (w : World) : Prop :=
  ∃ a, v = JS_REF a ∧ w_cell w !! a =
    Some (BObject [("exit_status"%string, JS_NewInt32 status); ("term_signal"%string, JS_NewInt32 signal)]).

Lemma giving_exit_object status signal : giving (exit_object status signal) (exit_value status signal).
Proof.
  intros w. unfold exit_object. wp_step. apply wp_build_object. intros a w1 B1.
  wp_step. eapply wp_build_imm; [done|done|]. intros w2 B2 _.
  wp_step. eapply wp_build_imm; [done|done|]. intros w3 (_ & Hg & Hc) _. wp_step.
  split; [done|]. by exists a.
Qed.

Lemma exit_value_settled status signal v w w' pa st x :
  w_cell w !! pa = Some (BPromise st) → w_cell w' = <[pa := x]> (w_cell w) →
  exit_value status signal v w → exit_value status signal v w'.
Proof.
  intros Hpa Hc (a & -> & Ha). exists a. by rewrite Hc, lookup_insert_ne by congruence.
Qed.

(** The process after its exit: reported, the waiter served, the handle closing. *)
Definition exited (status signal : Z) (s : IJJSProcess) : IJJSProcess :=
  mkProcess (pr_closed s) (pr_finalized s)
    (if h_closing (pr_process s) then pr_process s
     else mkHandle (h_type (pr_process s)) true false true (h_closed (pr_process s)) (h_data (pr_process s)))
    (pr_stdin s) (pr_stdout s) (pr_stderr s) true status signal
    (if JS_IsUndefined (p_p (pr_result s)) then pr_result s else cleared).

Lemma exit_cb_spec w p s pa status signal :
  safe w → w_mem w !! p = Some (ByJe, CProcess s) → h_init (pr_process s) = true → h_data (pr_process s) = Some p →
  pending_at w (pr_result s) pa →
  wp (uvExitCb p status signal) (λ _ w', balanced w w' [] ∧
    w_mem w' = <[p := (ByJe, CProcess (exited status signal s))]> (w_mem w) ∧
    ∃ v, w_cell w' !! pa = Some (BPromise (Fulfilled v)) ∧ exit_value status signal v w') w.
Proof.
  intros Hs Hp Hi Hd Hpend. unfold uvExitCb. wp_step. get_process. rewrite Hd. do 3 wp_step. get_process.
  wp_step. put_process. pose proof Hpend as (_ & Hpp & _). rewrite Hpp. cbn [JS_IsUndefined negb].
  wp_step. wp_step. eapply wp_giving; [apply giving_exit_object|]. intros v w1 [E1 M1 R1 C1 H1] Hv.
  set (s1 := ps_with_exit status signal s) in *.
  assert (Hp1 : w_mem w1 !! p = Some (ByJe, CProcess s1)) by (rewrite M1; world_simpl; apply lookup_insert_eq).
  wp_step. eapply (wp_ijSettlePromise (Place p FResult) _ [v] ByJe (CProcess s1) (pr_result s) pa);
    [done|done|by eapply pending_kept| |].
  { intros a. specialize (Hs a). pose proof (owned_lookup _ a _ _ _ Hp) as Ho. cbn [own] in Ho. rewrite cnt_app in Ho.
    rewrite R1. world_simpl. count_facts a. destruct (pr_finalized s); count_facts a; lia. }
  intros w2 [E2 M2 R2 C2]. specialize (M2 _ _ Hp1). cbn [pl_block pl_field] in M2.
  eapply wp_ijClearPromise; [by rewrite M2; apply lookup_insert_eq|]. cbn [pl_block pl_field].
  eapply wp_ps_maybe_close; [world_simpl; apply lookup_insert_eq|by ps_simpl|].
  set (w3 := if h_closing _ then _ else _). assert (M3 : w_mem w3 = <[p := (ByJe, CProcess (exited status signal s))]> (w_mem w)).
  { unfold w3, exited, s1 in *. rewrite Hpp. cbn [JS_IsUndefined]. ps_simpl.
    destruct (h_closing (pr_process s)); world_simpl; by rewrite !insert_insert_eq. }
  assert (R3 : ∀ a, rc w3 a = rc w2 a) by (unfold w3; destruct (h_closing _); done).
  assert (C3 : w_cell w3 = w_cell w2) by (unfold w3; destruct (h_closing _); done). clearbody w3. split_and!.
  - intros a. unfold excess. rewrite M3, R3, R2, R1. erewrite owned_update by done. unfold exited. rewrite Hpp. ps_simpl.
    cbn [JS_IsUndefined]. world_simpl. lia.
  - done.
  - assert (Hpa : w_cell w1 !! pa = Some (BPromise Pending)) by apply C1, Hpend. exists v. rewrite C3, C2.
    split; [apply lookup_insert_eq|]. rewrite C2 in C3. by apply (exit_value_settled _ _ _ _ _ _ _ _ Hpa C3).
Qed.

(** wait() on a process that has exited. *)
Lemma wait_exited_spec w p s this argv :
  safe w → body_of this w = Some (BClass cls_process (Some p)) → w_mem w !! p = Some (ByJe, CProcess s) →
  pr_exited s = true →
  wp (ijProcessWait this argv) (λ r w', w_mem w' = w_mem w ∧
    (r = JS_EXCEPTION ∨ balanced w w' (ref_of r) ∧
     ∃ pa v, r = JS_REF pa ∧ w_cell w' !! pa = Some (BPromise (Fulfilled v)) ∧
       exit_value (pr_exit_status s) (pr_term_signal s) v w')) w.
Proof.
  intros Hs Hb Hp He. unfold ijProcessWait, ijProcessGet. wp_step. eapply wp_GetOpaque2_class; [done|].
  wp_step. get_process. rewrite He. wp_step. eapply wp_giving; [apply giving_exit_object|].
  intros v w1 Hg (o & -> & Ho). pose proof Hg as [E1 M1 R1 C1 H1]. apply wp_ijSettledPromise.
  { exact H1. }
  - intros pa w' E2 M2 Hf R2 Hpa C2. split; [congruence|]. right. split.
    + intros a. unfold excess. rewrite M2, R2, M1, R1. world_simpl. lia.
    + exists pa, (JS_REF o). split_and!; [done|done|]. exists o. split; [done|]. by apply C2.
  - intros w' Hq. split; [by world_simpl|by left].
Qed.

(** A process that has exited with status 3. *)
Definition exited1 : IJJSProcess :=
  mkProcess true false (mkHandle UV_PROCESS true false true true (Some 10%positive))
    JS_UNDEFINED JS_UNDEFINED JS_UNDEFINED true 3 0 cleared.
Definition exited_world : World :=
  world_with 0 {[ 20%positive := BClass cls_process (Some 10%positive) ]} ∅ {[ 10%positive := (ByJe, CProcess exited1) ]}.

(** wait() on a running process: the promise is kept in the structure. An earlier one that is
    still pending is overwritten, and its references are never released. *)
Lemma wait_running_spec w p s this argv :
  safe w → body_of this w = Some (BClass cls_process (Some p)) → w_mem w !! p = Some (ByJe, CProcess s) →
  pr_exited s = false → pr_closed s = false →
  wp (ijProcessWait this argv) (λ r w', r = JS_EXCEPTION ∨
    ∃ pr pa, r = JS_REF pa ∧ pending_at w' pr pa ∧ balanced w w' (pa :: own_promise (pr_result s)) ∧
      w_mem w' = <[p := (ByJe, upd FResult pr (CProcess s))]> (w_mem w)) w.
Proof.
  intros Hs Hb Hp He Hc. unfold ijProcessWait, ijProcessGet. wp_step. eapply wp_GetOpaque2_class; [done|].
  wp_step. get_process. rewrite He, Hc. eapply wp_ijInitPromise; [exact Hp| |]; [|intros; by left].
  intros w' pr pa Hi. right. exists pr, pa. split_and!; [done|apply Hi| |by apply (init_mem _ _ _ _ _ Hi)].
  intros a. rewrite (initialised_excess _ _ (Place p FResult) _ _ _ _ a Hp eq_refl Hi).
  cbn [pl_field sel own_promise_opt]. rewrite (cnt_cons a pa (own_promise _)), (cnt_cons a pa []), cnt_nil. lia.
Qed.

(** ** A child that cannot be started *)

(** An environment in which only uv_spawn fails, as it does for a missing file. *)
Definition cannot_spawn (e : env) : Prop :=
  (∀ args l, e_int e (Ev "uv_spawn" args :: l) = -2) ∧
  (∀ name args l, name ≠ "uv_spawn"%string → e_int e (Ev name args :: l) = 0).

Lemma wp_je_calloc_ok c Q w :
  e_int (w_env w) (Ev "je_calloc" [] :: w_log w) = 0 →
  (∀ p, w_mem w !! p = None → Q (Some p) (new_block p ByJe c (log_ev (Ev "je_calloc" []) w))) → wp (je_calloc c) Q w.
Proof.
  intros He HQ. apply wp_bind, wp_ask_eq. intros r ->. rewrite He. simpl. apply wp_bind, wp_c_alloc. intros p Hp.
  by apply wp_ret, HQ.
Qed.

Lemma wp_try_new_ok name b Q w :
  e_int (w_env w) (Ev name [] :: w_log w) = 0 →
  (∀ a, w_cell w !! a = None → rc w a = 0 → Q (JS_REF a) (new_cell a b (log_ev (Ev name []) w))) →
  wp (js_try_new name b) Q w.
Proof.
  intros He HQ. apply wp_bind, wp_ask_eq. intros r ->. rewrite He. simpl. apply wp_js_new. intros a Ha Ra. by apply HQ.
Qed.

Lemma spawn_fails w this cmd s :
  body_of cmd w = Some (BString s) → cannot_spawn (w_env w) →
  ijSpawn this [cmd; JS_UNDEFINED] w = Fault OpenHandleFreed.
Proof.
  intros Hc [He1 He2]. unfold ijSpawn. apply fault_bind. apply wp_try_new_ok; [by apply He2|]. intros o Ho Ro.
  cbn [JS_IsException]. apply fault_bind. apply wp_je_calloc_ok; [world_simpl; by apply He2|]. intros p Hp. world_simpl_in Hp.
  apply fault_bind. put_process. apply fault_bind. eapply wp_arg_at; [done|]. set (w1 := set_mem _ _).
  assert (M1 : w_mem w1 = <[p := (ByJe, CProcess (mkProcess false false (with_data (Some p) (handle0 UV_PROCESS))
    JS_UNDEFINED JS_UNDEFINED JS_UNDEFINED false 0 0 cleared))]> (w_mem w)).
  { unfold w1. world_simpl. by rewrite insert_insert_eq. }
  assert (E1 : w_env w1 = w_env w) by (unfold w1; by world_simpl).
  assert (Hc1 : body_of cmd w1 = Some (BString s)).
  { destruct cmd as [| | | | |a]; try done. unfold w1. simpl in *. world_simpl. rewrite lookup_insert_ne by congruence. done. }
  assert (R1 : rc w1 o = rc w o + 1) by (unfold w1; world_simpl; rewrite decide_True by done; lia).
  clearbody w1. apply fault_bind. unfold step_bind. wp_step. unfold spawn_args, JS_IsString. do 2 wp_step. rewrite Hc1.
  cbv iota. wp_step. apply wp_js_malloc_ok; [rewrite E1; by apply He2|]. intros b Hb.
  wp_step. unfold strdup_value. wp_step.
  eapply wp_ToCString_str; [by destruct cmd|]. intros cs Hcs. unfold js_strdup.
  apply wp_js_malloc_ok; [world_simpl; rewrite E1; by apply He2|]. intros f Hf. do 2 wp_step.
  world_simpl_in Hb. world_simpl_in Hcs. world_simpl_in Hf. eapply wp_arg_at; [done|].
  unfold spawn_options. cbn [JS_IsUndefined]. wp_step. cbn [options0 with_args].
  apply fault_bind. unfold uv_spawn. cbn [o_file o_args with_args]. wp_step. apply wp_ask_eq. intros r ->. world_simpl.
  rewrite E1, He1. wp_step. get_process. wp_step. put_process. wp_step. change (negb (-2 =? 0)) with true. cbv iota.
  apply fault_bind. eapply wp_quietly; [apply quietly_ijThrowErrno|]. intros x w2 _ Hq. apply fault_first.
  unfold spawn_fail. apply fault_bind. get_process. cbn [pr_stdin pr_stdout pr_stderr ps_with_handle].
  do 3 (apply fault_bind; apply wp_FreeValue; [apply holds_nil|]). cbn [drop_ref].
  apply fault_first. eapply free_open_handle; [lookup_tac|done].
Qed.
