(* ===== verification/Ikcp.v ===== *)
(** * Ikcp: the KCP protocol engine, externals/kcp/ikcp.c

    The ARQ protocol under the KCP sockets. The control block is split by concern:
    configuration, sending side, receiving side and clocks; queues are lists, the head of
    the queue first, and the length of a segment is that of its data. Numbers are unsigned
    32-bit unless said otherwise. Memory is assumed to suffice, logging is off as in
    ijkcp.c, and what the output callback is given is the list of packets returned.
    The byte order is little endian. *)

From S2P Require Import Prelude.

Definition IKCP_RTO_NDL : Z := 30.
Definition IKCP_RTO_MIN : Z := 100.
Definition IKCP_RTO_DEF : Z := 200.
Definition IKCP_RTO_MAX : Z := 60000.
Definition IKCP_CMD_PUSH : Z := 81.
Definition IKCP_CMD_ACK : Z := 82.
Definition IKCP_CMD_WASK : Z := 83.
Definition IKCP_CMD_WINS : Z := 84.
Definition IKCP_ASK_SEND : Z := 1.
Definition IKCP_ASK_TELL : Z := 2.
Definition IKCP_WND_SND : Z := 32.
Definition IKCP_WND_RCV : Z := 128.
Definition IKCP_MTU_DEF : Z := 1400.
Definition IKCP_INTERVAL : Z := 100.
Definition IKCP_OVERHEAD : Z := 24.
Definition IKCP_DEADLINK : Z := 20.
Definition IKCP_THRESH_INIT : Z := 2.
Definition IKCP_THRESH_MIN : Z := 2.
Definition IKCP_PROBE_INIT : Z := 7000.
Definition IKCP_PROBE_LIMIT : Z := 120000.
Definition IKCP_FASTACK_LIMIT : Z := 5.

(** ** Encoding *)

Definition byte_of (z : Z) : ascii := ascii_of_N (Z.to_N (z mod 256)).
Definition Z_of_byte (c : ascii) : Z := Z.of_N (N_of_ascii c).

Definition ikcp_encode8u (p : bytes) (c : Z) : bytes := p ++ [byte_of c].
Definition ikcp_encode16u (p : bytes) (w : Z) : bytes := p ++ [byte_of w; byte_of (Z.shiftr w 8)].
Definition ikcp_encode32u (p : bytes) (l : Z) : bytes :=
  p ++ [byte_of l; byte_of (Z.shiftr l 8); byte_of (Z.shiftr l 16); byte_of (Z.shiftr l 24)].

(** The value and the rest; reading past the end gives zeros. *)
Definition ikcp_decode8u (p : bytes) : Z * bytes :=
  match p with c :: p => (Z_of_byte c, p) | [] => (0, []) end.
Definition ikcp_decode16u (p : bytes) : Z * bytes :=
  let '(a, p) := ikcp_decode8u p in
  let '(b, p) := ikcp_decode8u p in
  (a + Z.shiftl b 8, p).
Definition ikcp_decode32u (p : bytes) : Z * bytes :=
  let '(a, p) := ikcp_decode8u p in
  let '(b, p) := ikcp_decode8u p in
  let '(c, p) := ikcp_decode8u p in
  let '(d, p) := ikcp_decode8u p in
  (a + Z.shiftl b 8 + Z.shiftl c 16 + Z.shiftl d 24, p).

Definition imin (a b : Z) : Z := if a <=? b then a else b.
Definition imax (a b : Z) : Z := if b <=? a then a else b.
Definition ibound (lower middle upper : Z) : Z := imin (imax lower middle) upper.
Definition itimediff (later earlier : Z) : Z := signed32 (later - earlier).

(** ** Data *)

Record IKCPSEG := mkSeg {
  seg_conv : Z;
  seg_cmd : Z;
  seg_frg : Z;
  seg_wnd : Z;
  seg_ts : Z;
  seg_sn : Z;
  seg_una : Z;
  seg_resendts : Z;
  seg_rto : Z;
  seg_fastack : Z;
  seg_xmit : Z;
  seg_data : bytes
}.

Definition seg_len (s : IKCPSEG) : Z := Z.of_nat (length (seg_data s)).

Record kcp_conf := mkConf {
  conv : Z; mtu : Z; mss : Z;
  snd_wnd : Z; rcv_wnd : Z;
  nodelay : Z; interval : Z; rx_minrto : Z;
  fastresend : Z; fastlimit : Z; nocwnd : Z; stream : Z; dead_link : Z
}.

Record kcp_snd := mkSnd {
  snd_una : Z; snd_nxt : Z;
  snd_queue : list IKCPSEG; snd_buf : list IKCPSEG;
  nsnd_que : Z; nsnd_buf : Z;
  rmt_wnd : Z; cwnd : Z; incr : Z; ssthresh : Z;
  xmit : Z; state : Z
}.

Record kcp_rcv := mkRcv {
  rcv_nxt : Z;
  rcv_queue : list IKCPSEG; rcv_buf : list IKCPSEG;
  nrcv_que : Z; nrcv_buf : Z;
  acklist : list (Z * Z); ackblock : Z
}.

Record kcp_clk := mkClk {
  rx_rttval : Z; rx_srtt : Z; rx_rto : Z;
  current : Z; ts_flush : Z; updated : Z;
  ts_probe : Z; probe_wait : Z; probe : Z
}.

Record ikcpcb := mkCb { k_conf : kcp_conf; k_snd : kcp_snd; k_rcv : kcp_rcv; k_clk : kcp_clk }.

Definition with_conf (c : kcp_conf) (k : ikcpcb) : ikcpcb := mkCb c (k_snd k) (k_rcv k) (k_clk k).
Definition with_snd (s : kcp_snd) (k : ikcpcb) : ikcpcb := mkCb (k_conf k) s (k_rcv k) (k_clk k).
Definition with_rcv (r : kcp_rcv) (k : ikcpcb) : ikcpcb := mkCb (k_conf k) (k_snd k) r (k_clk k).
Definition with_clk (c : kcp_clk) (k : ikcpcb) : ikcpcb := mkCb (k_conf k) (k_snd k) (k_rcv k) c.

Definition with_probe (p : Z) (c : kcp_clk) : kcp_clk :=
  mkClk (rx_rttval c) (rx_srtt c) (rx_rto c) (current c) (ts_flush c) (updated c) (ts_probe c) (probe_wait c) p.

Definition ikcp_create (conv : Z) : ikcpcb :=
  mkCb (mkConf conv IKCP_MTU_DEF (IKCP_MTU_DEF - IKCP_OVERHEAD) IKCP_WND_SND IKCP_WND_RCV
          0 IKCP_INTERVAL IKCP_RTO_MIN 0 IKCP_FASTACK_LIMIT 0 0 IKCP_DEADLINK)
    (mkSnd 0 0 [] [] 0 0 IKCP_WND_RCV 0 0 IKCP_THRESH_INIT 0 0)
    (mkRcv 0 [] [] 0 0 [] 0)
    (mkClk 0 0 IKCP_RTO_DEF 0 IKCP_INTERVAL 0 0 0 0).

(** ** Receiving *)

Definition with_queue (nxt : Z) (queue buf : list IKCPSEG) (nque nbuf : Z) (r : kcp_rcv) : kcp_rcv :=
  mkRcv nxt queue buf nque nbuf (acklist r) (ackblock r).

(** The loop that moves the segments that are next from rcv_buf to rcv_queue. *)
Fixpoint move_available (wnd : Z) (buf : list IKCPSEG) (r : kcp_rcv) : kcp_rcv :=
  match buf with
  | [] => r
  | seg :: buf =>
      if (seg_sn seg =? rcv_nxt r) && (nrcv_que r <? wnd) then
        move_available wnd buf
          (with_queue (unsigned32 (rcv_nxt r + 1)) (rcv_queue r ++ [seg]) buf
             (unsigned32 (nrcv_que r + 1)) (unsigned32 (nrcv_buf r - 1)) r)
      else r
  end.

(** The data of the segments up to the one with frg 0. *)
Fixpoint first_message (q : list IKCPSEG) : list IKCPSEG :=
  match q with
  | [] => []
  | seg :: q => if seg_frg seg =? 0 then [seg] else seg :: first_message q
  end.

Definition msg_data (q : list IKCPSEG) : bytes := q ≫= seg_data.

Definition ikcp_peeksize (k : ikcpcb) : Z :=
  match rcv_queue (k_rcv k) with
  | [] => -1
  | (seg :: _) as q =>
      if seg_frg seg =? 0 then seg_len seg
      else if nrcv_que (k_rcv k) <? unsigned32 (seg_frg seg + 1) then -1
      else Z.of_nat (length (msg_data (first_message q)))
  end.

(** The result, the bytes copied and the control block; [None] when the assertion on the
    length fails. A negative [len] peeks. *)
Definition ikcp_recv (k : ikcpcb) (len : Z) : option (Z * bytes * ikcpcb) :=
  let r := k_rcv k in
  let wnd := rcv_wnd (k_conf k) in
  let ispeek := len <? 0 in
  match rcv_queue r with
  | [] => Some (-1, [], k)
  | _ =>
      let len := Z.abs len in
      let peeksize := ikcp_peeksize k in
      if peeksize <? 0 then Some (-2, [], k)
      else if len <? peeksize then Some (-3, [], k)
      else
        let recover := wnd <=? nrcv_que r in
        let msg := first_message (rcv_queue r) in
        let data := msg_data msg in
        let r :=
          if ispeek then r
          else with_queue (rcv_nxt r) (drop (length msg) (rcv_queue r)) (rcv_buf r)
                 (unsigned32 (nrcv_que r - Z.of_nat (length msg))) (nrcv_buf r) r in
        if negb (Z.of_nat (length data) =? peeksize) then None
        else
          let r := move_available wnd (rcv_buf r) r in
          let c := k_clk k in
          let c := if (nrcv_que r <? wnd) && recover then with_probe (Z.lor (probe c) IKCP_ASK_TELL) c else c in
          Some (Z.of_nat (length data), data, with_clk c (with_rcv r k))
  end.

(** ** Sending *)

Definition with_snd_queue (q : list IKCPSEG) (n : Z) (s : kcp_snd) : kcp_snd :=
  mkSnd (snd_una s) (snd_nxt s) q (snd_buf s) n (nsnd_buf s) (rmt_wnd s) (cwnd s) (incr s) (ssthresh s)
    (xmit s) (state s).

(** A segment that has not been sent: only its fragment number and data are set. *)
Definition new_seg (frg : Z) (data : bytes) : IKCPSEG := mkSeg 0 0 frg 0 0 0 0 0 0 0 0 data.

(** The loop over the fragments of a message, [i] counting up to [count]. *)
Fixpoint fragments (mss stream : Z) (count : nat) (buffer : bytes) : list IKCPSEG :=
  match count with
  | O => []
  | S count =>
      let size := if mss <? Z.of_nat (length buffer) then Z.to_nat mss else length buffer in
      new_seg (if stream =? 0 then Z.of_nat count else 0) (take size buffer)
        :: fragments mss stream count (drop size buffer)
  end.

(** Append to the last segment in streaming mode: the queue and the bytes left. *)
Definition append_stream (mss : Z) (q : list IKCPSEG) (buffer : bytes) : list IKCPSEG * bytes :=
  match last q with
  | None => (q, buffer)
  | Some old =>
      if seg_len old <? mss then
        let capacity := mss - seg_len old in
        let extend := if Z.of_nat (length buffer) <? capacity then length buffer else Z.to_nat capacity in
        (removelast q ++ [new_seg 0 (seg_data old ++ take extend buffer)], drop extend buffer)
      else (q, buffer)
  end.

(** [buffer] holds the [len] bytes. [None]: the assertion on mss. *)
Definition ikcp_send (k : ikcpcb) (buffer : bytes) (len : Z) : option (Z * ikcpcb) :=
  let c := k_conf k in
  let s := k_snd k in
  if negb (0 <? mss c) then None
  else if len <? 0 then Some (-1, k)
  else
    let buffer := take (Z.to_nat len) buffer in
    let '(q, buffer) := if negb (stream c =? 0) then append_stream (mss c) (snd_queue s) buffer
                        else (snd_queue s, buffer) in
    let len := Z.of_nat (length buffer) in
    let s := with_snd_queue q (nsnd_que s) s in
    if negb (stream c =? 0) && (len <=? 0) then Some (0, with_snd s k)
    else
      let count := if len <=? mss c then 1 else unsigned32 (len + mss c - 1) / mss c in
      if IKCP_WND_RCV <=? count then Some (-2, with_snd s k)
      else
        let segs := fragments (mss c) (stream c) (Z.to_nat (if count =? 0 then 1 else count)) buffer in
        Some (0, with_snd (with_snd_queue (q ++ segs) (unsigned32 (nsnd_que s + Z.of_nat (length segs))) s) k).

(** ** Acknowledgements *)

Definition with_rtt (rttval srtt rto : Z) (c : kcp_clk) : kcp_clk :=
  mkClk rttval srtt rto (current c) (ts_flush c) (updated c) (ts_probe c) (probe_wait c) (probe c).

Definition ikcp_update_ack (f : kcp_conf) (c : kcp_clk) (rtt : Z) : kcp_clk :=
  let '(rttval, srtt) :=
    if rx_srtt c =? 0 then (Z.quot rtt 2, rtt)
    else
      let delta := Z.abs (rtt - rx_srtt c) in
      let rttval := signed32 (Z.quot (3 * rx_rttval c + delta) 4) in
      let srtt := Z.quot (7 * rx_srtt c + rtt) 8 in
      (rttval, if srtt <? 1 then 1 else srtt) in
  let rto := signed32 (srtt + imax (interval f) (unsigned32 (4 * rttval))) in
  with_rtt rttval srtt (ibound (rx_minrto f) (unsigned32 rto) IKCP_RTO_MAX) c.

Definition with_buf (una : Z) (buf : list IKCPSEG) (n : Z) (s : kcp_snd) : kcp_snd :=
  mkSnd una (snd_nxt s) (snd_queue s) buf (nsnd_que s) n (rmt_wnd s) (cwnd s) (incr s) (ssthresh s)
    (xmit s) (state s).

Definition ikcp_shrink_buf (s : kcp_snd) : kcp_snd :=
  with_buf (match snd_buf s with seg :: _ => seg_sn seg | [] => snd_nxt s end) (snd_buf s) (nsnd_buf s) s.

(** sn lies in what is in flight. *)
Definition in_flight_sn (s : kcp_snd) (sn : Z) : bool :=
  negb ((itimediff sn (snd_una s) <? 0) || (0 <=? itimediff sn (snd_nxt s))).

(** The buffer without the segment [sn], and whether it was found. *)
Fixpoint remove_sn (sn : Z) (buf : list IKCPSEG) : list IKCPSEG * bool :=
  match buf with
  | [] => ([], false)
  | seg :: buf' =>
      if sn =? seg_sn seg then (buf', true)
      else if itimediff sn (seg_sn seg) <? 0 then (buf, false)
      else let '(b, found) := remove_sn sn buf' in (seg :: b, found)
  end.

Definition ikcp_parse_ack (s : kcp_snd) (sn : Z) : kcp_snd :=
  if negb (in_flight_sn s sn) then s
  else
    let '(buf, found) := remove_sn sn (snd_buf s) in
    with_buf (snd_una s) buf (if found then unsigned32 (nsnd_buf s - 1) else nsnd_buf s) s.

Fixpoint drop_una (una : Z) (buf : list IKCPSEG) : list IKCPSEG :=
  match buf with
  | [] => []
  | seg :: buf' => if 0 <? itimediff una (seg_sn seg) then drop_una una buf' else buf
  end.

Definition ikcp_parse_una (s : kcp_snd) (una : Z) : kcp_snd :=
  let buf := drop_una una (snd_buf s) in
  with_buf (snd_una s) buf (unsigned32 (nsnd_buf s - Z.of_nat (length (snd_buf s) - length buf))) s.

Definition with_fastack (n : Z) (seg : IKCPSEG) : IKCPSEG :=
  mkSeg (seg_conv seg) (seg_cmd seg) (seg_frg seg) (seg_wnd seg) (seg_ts seg) (seg_sn seg) (seg_una seg)
    (seg_resendts seg) (seg_rto seg) n (seg_xmit seg) (seg_data seg).

Fixpoint fastack_loop (sn : Z) (buf : list IKCPSEG) : list IKCPSEG :=
  match buf with
  | [] => []
  | seg :: buf' =>
      if itimediff sn (seg_sn seg) <? 0 then buf
      else (if sn =? seg_sn seg then seg else with_fastack (unsigned32 (seg_fastack seg + 1)) seg)
             :: fastack_loop sn buf'
  end.

Definition ikcp_parse_fastack (s : kcp_snd) (sn : Z) : kcp_snd :=
  if negb (in_flight_sn s sn) then s
  else with_buf (snd_una s) (fastack_loop sn (snd_buf s)) (nsnd_buf s) s.

(** [for (newblock = 8; newblock < newsize; newblock <<= 1);] on 64 bits *)
Fixpoint grow_block (fuel : nat) (newblock newsize : Z) : Z :=
  match fuel with
  | O => newblock
  | S fuel => if newblock <? newsize then grow_block fuel (2 * newblock) newsize else newblock
  end.

Definition ikcp_ack_push (r : kcp_rcv) (sn ts : Z) : kcp_rcv :=
  let newsize := Z.of_nat (length (acklist r)) + 1 in
  let block := if ackblock r <? newsize then grow_block 60 8 newsize else ackblock r in
  mkRcv (rcv_nxt r) (rcv_queue r) (rcv_buf r) (nrcv_que r) (nrcv_buf r) (acklist r ++ [(sn, ts)]) block.

(** ** Data *)

(** The search for the place of a segment from the tail: [rbuf] is rcv_buf with the tail
    first. [None]: the segment is there already. *)
Fixpoint insert_from_tail (seg : IKCPSEG) (rbuf : list IKCPSEG) : option (list IKCPSEG) :=
  match rbuf with
  | [] => Some [seg]
  | s :: rbuf' =>
      if seg_sn s =? seg_sn seg then None
      else if 0 <? itimediff (seg_sn seg) (seg_sn s) then Some (seg :: rbuf)
      else cons s <$> insert_from_tail seg rbuf'
  end.

Definition ikcp_parse_data (wnd : Z) (r : kcp_rcv) (newseg : IKCPSEG) : kcp_rcv :=
  let sn := seg_sn newseg in
  if (0 <=? itimediff sn (unsigned32 (rcv_nxt r + wnd))) || (itimediff sn (rcv_nxt r) <? 0) then r
  else
    let r :=
      match insert_from_tail newseg (rev (rcv_buf r)) with
      | Some rbuf => with_queue (rcv_nxt r) (rcv_queue r) (rev rbuf) (nrcv_que r) (unsigned32 (nrcv_buf r + 1)) r
      | None => r
      end in
    move_available wnd (rcv_buf r) r.

(** ** Input *)

(** A decoded header and the bytes behind it. *)
Record header := mkHeader {
  hd_conv : Z; hd_cmd : Z; hd_frg : Z; hd_wnd : Z; hd_ts : Z; hd_sn : Z; hd_una : Z; hd_len : Z
}.

Definition decode_header (data : bytes) : header * bytes :=
  let '(conv, data) := ikcp_decode32u data in
  let '(cmd, data) := ikcp_decode8u data in
  let '(frg, data) := ikcp_decode8u data in
  let '(wnd, data) := ikcp_decode16u data in
  let '(ts, data) := ikcp_decode32u data in
  let '(sn, data) := ikcp_decode32u data in
  let '(una, data) := ikcp_decode32u data in
  let '(len, data) := ikcp_decode32u data in
  (mkHeader conv cmd frg wnd ts sn una len, data).

Definition known_cmd (cmd : Z) : bool :=
  (cmd =? IKCP_CMD_PUSH) || (cmd =? IKCP_CMD_ACK) || (cmd =? IKCP_CMD_WASK) || (cmd =? IKCP_CMD_WINS).

Definition with_rmt_wnd (wnd : Z) (s : kcp_snd) : kcp_snd :=
  mkSnd (snd_una s) (snd_nxt s) (snd_queue s) (snd_buf s) (nsnd_que s) (nsnd_buf s) wnd (cwnd s) (incr s)
    (ssthresh s) (xmit s) (state s).

(** maxack and latest_ts, once an ACK has been seen. *)
Definition ack_seen : Type := option (Z * Z).

(** The segments of a packet after the checks on their header. *)
Definition input_ack (k : ikcpcb) (flag : ack_seen) (h : header) : ikcpcb * ack_seen :=
  let c := k_clk k in
  let diff := itimediff (current c) (hd_ts h) in
  let c := if 0 <=? diff then ikcp_update_ack (k_conf k) c diff else c in
  let s := ikcp_shrink_buf (ikcp_parse_ack (k_snd k) (hd_sn h)) in
  let flag :=
    match flag with
    | None => Some (hd_sn h, hd_ts h)
    | Some (maxack, ts) => if 0 <? itimediff (hd_sn h) maxack then Some (hd_sn h, hd_ts h) else Some (maxack, ts)
    end in
  (with_clk c (with_snd s k), flag).

Definition input_push (k : ikcpcb) (h : header) (data : bytes) : ikcpcb :=
  let wnd := rcv_wnd (k_conf k) in
  let r := k_rcv k in
  if itimediff (hd_sn h) (unsigned32 (rcv_nxt r + wnd)) <? 0 then
    let r := ikcp_ack_push r (hd_sn h) (hd_ts h) in
    let r :=
      if 0 <=? itimediff (hd_sn h) (rcv_nxt r) then
        ikcp_parse_data wnd r
          (mkSeg (hd_conv h) (hd_cmd h) (hd_frg h) (hd_wnd h) (hd_ts h) (hd_sn h) (hd_una h) 0 0 0 0
             (take (Z.to_nat (hd_len h)) data))
      else r in
    with_rcv r k
  else k.

Definition input_seg (k : ikcpcb) (flag : ack_seen) (h : header) (data : bytes) : ikcpcb * ack_seen :=
  let s := with_rmt_wnd (hd_wnd h) (k_snd k) in
  let k := with_snd (ikcp_shrink_buf (ikcp_parse_una s (hd_una h))) k in
  if hd_cmd h =? IKCP_CMD_ACK then input_ack k flag h
  else if hd_cmd h =? IKCP_CMD_PUSH then (input_push k h data, flag)
  else if hd_cmd h =? IKCP_CMD_WASK then
    (with_clk (with_probe (Z.lor (probe (k_clk k)) IKCP_ASK_TELL) (k_clk k)) k, flag)
  else (k, flag).

(** The loop: the error it returns with, 0 when it ends, and the state; every round takes a header
    at least, so that the length of the packet is fuel enough. *)
Fixpoint input_loop (fuel : nat) (k : ikcpcb) (flag : ack_seen) (data : bytes) : Z * ikcpcb * ack_seen :=
  match fuel with
  | O => (0, k, flag)
  | S fuel =>
      if Z.of_nat (length data) <? IKCP_OVERHEAD then (0, k, flag)
      else
        let '(h, rest) := decode_header data in
        if negb (hd_conv h =? conv (k_conf k)) then (-1, k, flag)
        else if (Z.of_nat (length rest) <? hd_len h) || (signed32 (hd_len h) <? 0) then (-2, k, flag)
        else if negb (known_cmd (hd_cmd h)) then (-3, k, flag)
        else
          let '(k, flag) := input_seg k flag h rest in
          input_loop fuel k flag (drop (Z.to_nat (hd_len h)) rest)
  end.

Definition with_cwnd (cw inc : Z) (s : kcp_snd) : kcp_snd :=
  mkSnd (snd_una s) (snd_nxt s) (snd_queue s) (snd_buf s) (nsnd_que s) (nsnd_buf s) (rmt_wnd s) cw inc
    (ssthresh s) (xmit s) (state s).

(** The congestion window after acknowledgements. *)
Definition grow_cwnd (mss prev_una : Z) (s : kcp_snd) : kcp_snd :=
  if (0 <? itimediff (snd_una s) prev_una) && (cwnd s <? rmt_wnd s) then
    let s :=
      if cwnd s <? ssthresh s then with_cwnd (unsigned32 (cwnd s + 1)) (unsigned32 (incr s + mss)) s
      else
        let inc := if incr s <? mss then mss else incr s in
        let inc := unsigned32 (inc + (unsigned32 (mss * mss) / inc + mss / 16)) in
        with_cwnd (if unsigned32 ((cwnd s + 1) * mss) <=? inc
                   then unsigned32 (inc + mss - 1) / (if 0 <? mss then mss else 1) else cwnd s) inc s in
    if rmt_wnd s <? cwnd s then with_cwnd (rmt_wnd s) (unsigned32 (rmt_wnd s * mss)) s else s
  else s.

Definition ikcp_input (k : ikcpcb) (data : bytes) : Z * ikcpcb :=
  let prev_una := snd_una (k_snd k) in
  if Z.of_nat (length data) <? IKCP_OVERHEAD then (-1, k)
  else
    let '(r, k, flag) := input_loop (length data) k None data in
    if negb (r =? 0) then (r, k)
    else
      let s := match flag with Some (maxack, _) => ikcp_parse_fastack (k_snd k) maxack | None => k_snd k end in
      (0, with_snd (grow_cwnd (mss (k_conf k)) prev_una s) k).

(** ** Output *)

Definition ikcp_encode_seg (ptr : bytes) (seg : IKCPSEG) : bytes :=
  let ptr := ikcp_encode32u ptr (seg_conv seg) in
  let ptr := ikcp_encode8u ptr (seg_cmd seg) in
  let ptr := ikcp_encode8u ptr (seg_frg seg) in
  let ptr := ikcp_encode16u ptr (seg_wnd seg) in
  let ptr := ikcp_encode32u ptr (seg_ts seg) in
  let ptr := ikcp_encode32u ptr (seg_sn seg) in
  let ptr := ikcp_encode32u ptr (seg_una seg) in
  ikcp_encode32u ptr (seg_len seg).

Definition ikcp_wnd_unused (k : ikcpcb) : Z :=
  if nrcv_que (k_rcv k) <? rcv_wnd (k_conf k) then rcv_wnd (k_conf k) - nrcv_que (k_rcv k) else 0.

(** What has been written to the buffer and what has been output. *)
Record outbuf := mkOut { ob_buf : bytes; ob_out : list bytes }.

Definition ikcp_output (o : outbuf) : outbuf :=
  mkOut [] (match ob_buf o with [] => ob_out o | b => ob_out o ++ [b] end).

(** [if (size + need > mtu) { ikcp_output(kcp, buffer, size); ptr = buffer; }] *)
Definition make_room (mtu need : Z) (o : outbuf) : outbuf :=
  if mtu <? Z.of_nat (length (ob_buf o)) + need then ikcp_output o else o.

Definition put_seg (mtu : Z) (o : outbuf) (seg : IKCPSEG) : outbuf :=
  let o := make_room mtu IKCP_OVERHEAD o in
  mkOut (ikcp_encode_seg (ob_buf o) seg) (ob_out o).

(** The control segment of [ikcp_flush], with its command, number and time. *)
Definition control_seg (k : ikcpcb) (cmd sn ts : Z) : IKCPSEG :=
  mkSeg (conv (k_conf k)) cmd 0 (ikcp_wnd_unused k) ts sn (rcv_nxt (k_rcv k)) 0 0 0 0 [].

(** The acknowledgements; the last one leaves its number and time in the control segment. *)
Definition flush_acks (k : ikcpcb) : outbuf * (Z * Z) :=
  (foldl (λ o a, put_seg (mtu (k_conf k)) o (control_seg k IKCP_CMD_ACK a.1 a.2)) (mkOut [] []) (acklist (k_rcv k)),
   default (0, 0) (last (acklist (k_rcv k)))).

(** Probing a remote window of size 0. *)
Definition flush_probe (rmt_wnd : Z) (c : kcp_clk) : kcp_clk :=
  let mk ts wait pr := mkClk (rx_rttval c) (rx_srtt c) (rx_rto c) (current c) (ts_flush c) (updated c) ts wait pr in
  if rmt_wnd =? 0 then
    if probe_wait c =? 0 then mk (unsigned32 (current c + IKCP_PROBE_INIT)) IKCP_PROBE_INIT (probe c)
    else if 0 <=? itimediff (current c) (ts_probe c) then
      let wait := if probe_wait c <? IKCP_PROBE_INIT then IKCP_PROBE_INIT else probe_wait c in
      let wait := unsigned32 (wait + wait / 2) in
      let wait := if IKCP_PROBE_LIMIT <? wait then IKCP_PROBE_LIMIT else wait in
      mk (unsigned32 (current c + wait)) wait (Z.lor (probe c) IKCP_ASK_SEND)
    else c
  else mk 0 0 (probe c).

Definition flush_cmd (k : ikcpcb) (ask cmd : Z) (at_ : Z * Z) (o : outbuf) : outbuf :=
  if negb (Z.land (probe (k_clk k)) ask =? 0) then put_seg (mtu (k_conf k)) o (control_seg k cmd at_.1 at_.2) else o.

(** Moving segments into the window. *)
Fixpoint fill_window (k : ikcpcb) (wnd cwnd : Z) (queue : list IKCPSEG) (s : kcp_snd) : kcp_snd :=
  match queue with
  | [] => s
  | seg :: queue =>
      if itimediff (snd_nxt s) (unsigned32 (snd_una s + cwnd)) <? 0 then
        let c := k_clk k in
        let seg := mkSeg (conv (k_conf k)) IKCP_CMD_PUSH (seg_frg seg) wnd (current c) (snd_nxt s)
                     (rcv_nxt (k_rcv k)) (current c) (rx_rto c) 0 0 (seg_data seg) in
        fill_window k wnd cwnd queue
          (mkSnd (snd_una s) (unsigned32 (snd_nxt s + 1)) queue (snd_buf s ++ [seg])
             (unsigned32 (nsnd_que s - 1)) (unsigned32 (nsnd_buf s + 1)) (rmt_wnd s) (Ikcp.cwnd s) (incr s)
             (ssthresh s) (Ikcp.xmit s) (state s))
      else s
  end.

(** What the loop over snd_buf carries. *)
Record flush_state := mkFlush { fl_out : outbuf; fl_xmit : Z; fl_state : Z; fl_lost : bool; fl_change : Z }.

Definition resend_params (f : kcp_conf) (c : kcp_clk) : Z * Z :=
  (if 0 <? fastresend f then fastresend f else 2 ^ 32 - 1, if nodelay f =? 0 then Z.shiftr (rx_rto c) 3 else 0).

(** Whether and how a segment is sent again: its new times and counters. *)
Definition resend (f : kcp_conf) (c : kcp_clk) (seg : IKCPSEG) (st : flush_state) : option (IKCPSEG * flush_state) :=
  let '(resent, rtomin) := resend_params f c in
  let upd xm rto fast ts := mkSeg (seg_conv seg) (seg_cmd seg) (seg_frg seg) (seg_wnd seg) (seg_ts seg) (seg_sn seg)
                              (seg_una seg) ts rto fast xm (seg_data seg) in
  let xm := unsigned32 (seg_xmit seg + 1) in
  if seg_xmit seg =? 0 then
    Some (upd xm (rx_rto c) (seg_fastack seg) (unsigned32 (current c + rx_rto c + rtomin)), st)
  else if 0 <=? itimediff (current c) (seg_resendts seg) then
    let rto :=
      if nodelay f =? 0 then unsigned32 (seg_rto seg + imax (seg_rto seg) (rx_rto c))
      else unsigned32 (seg_rto seg + Z.quot (if nodelay f <? 2 then signed32 (seg_rto seg) else rx_rto c) 2) in
    Some (upd xm rto (seg_fastack seg) (unsigned32 (current c + rto)),
          mkFlush (fl_out st) (unsigned32 (fl_xmit st + 1)) (fl_state st) true (fl_change st))
  else if resent <=? seg_fastack seg then
    if (signed32 (seg_xmit seg) <=? fastlimit f) || (fastlimit f <=? 0) then
      Some (upd xm (seg_rto seg) 0 (unsigned32 (current c + seg_rto seg)),
            mkFlush (fl_out st) (fl_xmit st) (fl_state st) (fl_lost st) (fl_change st + 1))
    else None
  else None.

(** The segment goes out with the current time, window and una. *)
Definition send_seg (k : ikcpcb) (wnd : Z) (seg : IKCPSEG) (st : flush_state) : IKCPSEG * flush_state :=
  let f := k_conf k in
  let seg := mkSeg (seg_conv seg) (seg_cmd seg) (seg_frg seg) wnd (current (k_clk k)) (seg_sn seg)
               (rcv_nxt (k_rcv k)) (seg_resendts seg) (seg_rto seg) (seg_fastack seg) (seg_xmit seg) (seg_data seg) in
  let o := make_room (mtu f) (IKCP_OVERHEAD + seg_len seg) (fl_out st) in
  let o := mkOut (ikcp_encode_seg (ob_buf o) seg ++ seg_data seg) (ob_out o) in
  let state := if dead_link f <=? seg_xmit seg then 2 ^ 32 - 1 else fl_state st in
  (seg, mkFlush o (fl_xmit st) state (fl_lost st) (fl_change st)).

Fixpoint flush_segs (k : ikcpcb) (wnd : Z) (buf : list IKCPSEG) (st : flush_state) : list IKCPSEG * flush_state :=
  match buf with
  | [] => ([], st)
  | seg :: buf =>
      let '(seg, st) :=
        match resend (k_conf k) (k_clk k) seg st with
        | Some (seg, st) => send_seg k wnd seg st
        | None => (seg, st)
        end in
      let '(buf, st) := flush_segs k wnd buf st in
      (seg :: buf, st)
  end.

(** Slow start threshold and congestion window after losses. *)
Definition flush_cwnd (mss resent cwnd_now : Z) (lost : bool) (change : Z) (s : kcp_snd) : kcp_snd :=
  let mk th cw inc := mkSnd (snd_una s) (snd_nxt s) (snd_queue s) (snd_buf s) (nsnd_que s) (nsnd_buf s) (rmt_wnd s)
                        cw inc th (Ikcp.xmit s) (state s) in
  let '(th, cw, inc) := (ssthresh s, cwnd s, incr s) in
  let '(th, cw, inc) :=
    if negb (change =? 0) then
      let th := imax (unsigned32 (snd_nxt s - snd_una s) / 2) IKCP_THRESH_MIN in
      (th, unsigned32 (th + resent), unsigned32 (unsigned32 (th + resent) * mss))
    else (th, cw, inc) in
  let '(th, cw, inc) := if lost then (imax (cwnd_now / 2) IKCP_THRESH_MIN, 1, mss) else (th, cw, inc) in
  if cw <? 1 then mk th 1 mss else mk th cw inc.

(** [ikcp_flush]: the control block and the packets output. *)
Definition ikcp_flush (k : ikcpcb) : ikcpcb * list bytes :=
  let f := k_conf k in
  if updated (k_clk k) =? 0 then (k, [])
  else
    let wnd := ikcp_wnd_unused k in
    let '(o, at_) := flush_acks k in
    let r := k_rcv k in
    let k := with_rcv (mkRcv (rcv_nxt r) (rcv_queue r) (rcv_buf r) (nrcv_que r) (nrcv_buf r) [] (ackblock r)) k in
    let k := with_clk (flush_probe (rmt_wnd (k_snd k)) (k_clk k)) k in
    let o := flush_cmd k IKCP_ASK_SEND IKCP_CMD_WASK at_ o in
    let o := flush_cmd k IKCP_ASK_TELL IKCP_CMD_WINS at_ o in
    let k := with_clk (with_probe 0 (k_clk k)) k in
    let s := k_snd k in
    let cw := imin (snd_wnd f) (rmt_wnd s) in
    let cw := if nocwnd f =? 0 then imin (cwnd s) cw else cw in
    let s := fill_window k wnd cw (snd_queue s) s in
    let '(buf, st) := flush_segs k wnd (snd_buf s) (mkFlush o (xmit s) (state s) false 0) in
    let s := mkSnd (snd_una s) (snd_nxt s) (snd_queue s) buf (nsnd_que s) (nsnd_buf s) (rmt_wnd s) (cwnd s) (incr s)
               (ssthresh s) (fl_xmit st) (fl_state st) in
    let s := flush_cwnd (mss f) (resend_params f (k_clk k)).1 cw (fl_lost st) (fl_change st) s in
    (with_snd s k, ob_out (ikcp_output (fl_out st))).

(** ** Time *)

Definition with_time (cur flush upd : Z) (c : kcp_clk) : kcp_clk :=
  mkClk (rx_rttval c) (rx_srtt c) (rx_rto c) cur flush upd (ts_probe c) (probe_wait c) (probe c).

Definition ikcp_update (k : ikcpcb) (cur : Z) : ikcpcb * list bytes :=
  let c := k_clk k in
  let flush := if updated c =? 0 then cur else ts_flush c in
  let upd := if updated c =? 0 then 1 else updated c in
  let slap := itimediff cur flush in
  let '(flush, slap) := if (10000 <=? slap) || (slap <? -10000) then (cur, 0) else (flush, slap) in
  if 0 <=? slap then
    let flush := unsigned32 (flush + interval (k_conf k)) in
    let flush := if 0 <=? itimediff cur flush then unsigned32 (cur + interval (k_conf k)) else flush in
    ikcp_flush (with_clk (with_time cur flush upd c) k)
  else (with_clk (with_time cur flush upd c) k, []).

(** The smallest time to a resend; [None] when one is due. *)
Fixpoint next_resend (cur tm_packet : Z) (buf : list IKCPSEG) : option Z :=
  match buf with
  | [] => Some tm_packet
  | seg :: buf =>
      let diff := itimediff (seg_resendts seg) cur in
      if diff <=? 0 then None else next_resend cur (if diff <? tm_packet then diff else tm_packet) buf
  end.

Definition ikcp_check (k : ikcpcb) (cur : Z) : Z :=
  let c := k_clk k in
  if updated c =? 0 then cur
  else
    let flush := if (10000 <=? itimediff cur (ts_flush c)) || (itimediff cur (ts_flush c) <? -10000)
                 then cur else ts_flush c in
    if 0 <=? itimediff cur flush then cur
    else
      let tm_flush := itimediff flush cur in
      match next_resend cur (2 ^ 31 - 1) (snd_buf (k_snd k)) with
      | None => cur
      | Some tm_packet =>
          let minimal := if tm_packet <? tm_flush then tm_packet else tm_flush in
          let minimal := if interval (k_conf k) <=? minimal then interval (k_conf k) else minimal in
          unsigned32 (cur + minimal)
      end.

(** ** Settings *)

Definition ikcp_setmtu (k : ikcpcb) (m : Z) : Z * ikcpcb :=
  if (m <? 50) || (m <? IKCP_OVERHEAD) then (-1, k)
  else
    let f := k_conf k in
    (0, with_conf (mkConf (conv f) m (unsigned32 (m - IKCP_OVERHEAD)) (snd_wnd f) (rcv_wnd f) (nodelay f) (interval f)
                     (rx_minrto f) (fastresend f) (fastlimit f) (nocwnd f) (stream f) (dead_link f)) k).

Definition clamp_interval (i : Z) : Z := if 5000 <? i then 5000 else if i <? 10 then 10 else i.

Definition with_delay (nd iv minrto resend nc : Z) (f : kcp_conf) : kcp_conf :=
  mkConf (conv f) (mtu f) (mss f) (snd_wnd f) (rcv_wnd f) nd iv minrto resend (fastlimit f) nc (stream f) (dead_link f).

Definition ikcp_interval (k : ikcpcb) (i : Z) : Z * ikcpcb :=
  let f := k_conf k in
  (0, with_conf (with_delay (nodelay f) (clamp_interval i) (rx_minrto f) (fastresend f) (nocwnd f) f) k).

Definition ikcp_nodelay (k : ikcpcb) (nd i resend nc : Z) : Z * ikcpcb :=
  let f := k_conf k in
  (0, with_conf (with_delay
        (if 0 <=? nd then nd else nodelay f)
        (if 0 <=? i then clamp_interval i else interval f)
        (if 0 <=? nd then (if negb (nd =? 0) then IKCP_RTO_NDL else IKCP_RTO_MIN) else rx_minrto f)
        (if 0 <=? resend then resend else fastresend f)
        (if 0 <=? nc then nc else nocwnd f) f) k).

Definition ikcp_wndsize (k : ikcpcb) (sndwnd rcvwnd : Z) : Z * ikcpcb :=
  let f := k_conf k in
  (0, with_conf (mkConf (conv f) (mtu f) (mss f) (if 0 <? sndwnd then sndwnd else snd_wnd f)
                   (if 0 <? rcvwnd then imax rcvwnd IKCP_WND_RCV else rcv_wnd f)
                   (nodelay f) (interval f) (rx_minrto f) (fastresend f) (fastlimit f) (nocwnd f) (stream f)
                   (dead_link f)) k).

Definition ikcp_waitsnd (k : ikcpcb) : Z := signed32 (nsnd_buf (k_snd k) + nsnd_que (k_snd k)).

Definition ikcp_getconv (ptr : bytes) : Z := (ikcp_decode32u ptr).1.
