(* ===== verification/IkcpWire.v ===== *)
(** * The wire format of KCP

    A segment header survives encoding and decoding, and the input loop sees exactly
    the segments a packet was made of. *)

From S2P Require Import Prelude Ikcp.

(** ** Bytes *)

Lemma Z_of_byte_of z : Z_of_byte (byte_of z) = z mod 256.
Proof.
  unfold Z_of_byte, byte_of. pose proof (Z.mod_pos_bound z 256 eq_refl) as H.
  rewrite N_ascii_embedding by lia. lia.
Qed.

Lemma decode8u_cons c p : ikcp_decode8u (byte_of c :: p) = (c mod 256, p).
Proof. simpl. by rewrite Z_of_byte_of. Qed.

Lemma decode16u_cons w p :
  ikcp_decode16u (byte_of w :: byte_of (Z.shiftr w 8) :: p) = (w mod 2 ^ 16, p).
Proof.
  unfold ikcp_decode16u. rewrite decode8u_cons. cbv iota. rewrite decode8u_cons. f_equal.
  rewrite Z.shiftr_div_pow2, Z.shiftl_mul_pow2 by lia.
  change (2 ^ 16) with (2 ^ 8 * 2 ^ 8). rewrite (Z.rem_mul_r w (2 ^ 8) (2 ^ 8)) by lia. change (2 ^ 8) with 256. lia.
Qed.

Lemma decode32u_cons l p :
  ikcp_decode32u (byte_of l :: byte_of (Z.shiftr l 8) :: byte_of (Z.shiftr l 16) :: byte_of (Z.shiftr l 24) :: p) =
  (l mod 2 ^ 32, p).
Proof.
  unfold ikcp_decode32u. do 4 (rewrite decode8u_cons; cbv iota). f_equal.
  rewrite !Z.shiftr_div_pow2, !Z.shiftl_mul_pow2 by lia.
  rewrite <- !Z.add_assoc.
  replace (l / 2 ^ 24) with (l / 2 ^ 8 / 2 ^ 8 / 2 ^ 8) by (rewrite !Z.div_div; f_equal; lia).
  replace (l / 2 ^ 16) with (l / 2 ^ 8 / 2 ^ 8) by (rewrite Z.div_div; f_equal; lia).
  change (2 ^ 32) with (2 ^ 8 * (2 ^ 8 * (2 ^ 8 * 2 ^ 8))).
  rewrite (Z.rem_mul_r l) by lia. rewrite (Z.rem_mul_r (l / 2 ^ 8)) by lia.
  rewrite (Z.rem_mul_r (l / 2 ^ 8 / 2 ^ 8)) by lia. change 256 with (2 ^ 8). lia.
Qed.

(** ** Headers *)

Definition word (n : Z) (x : Z) : Prop := 0 ≤ x < 2 ^ n.

(** A segment whose fields fit the wire. *)
Record wire_ok (s : IKCPSEG) : Prop := {
  wo_conv : word 32 (seg_conv s); wo_cmd : word 8 (seg_cmd s); wo_frg : word 8 (seg_frg s);
  wo_wnd : word 16 (seg_wnd s); wo_ts : word 32 (seg_ts s); wo_sn : word 32 (seg_sn s);
  wo_una : word 32 (seg_una s); wo_len : word 31 (seg_len s)
}.

Definition header_of (s : IKCPSEG) : header :=
  mkHeader (seg_conv s) (seg_cmd s) (seg_frg s) (seg_wnd s) (seg_ts s) (seg_sn s) (seg_una s) (seg_len s).

(** The bytes of a header. *)
Definition head_bytes (s : IKCPSEG) : bytes := ikcp_encode_seg [] s.

Lemma encode_seg_app ptr s : ikcp_encode_seg ptr s = ptr ++ head_bytes s.
Proof.
  unfold head_bytes, ikcp_encode_seg, ikcp_encode32u, ikcp_encode16u, ikcp_encode8u.
  rewrite <- !app_assoc. done.
Qed.

Lemma length_head_bytes s : length (head_bytes s) = 24%nat.
Proof. done. Qed.

Lemma decode_encode s p : wire_ok s → decode_header (head_bytes s ++ p) = (header_of s, p).
Proof.
  intros [H1 H2 H3 H4 H5 H6 H7 H8]. unfold word in *.
  unfold decode_header, head_bytes, ikcp_encode_seg, ikcp_encode32u, ikcp_encode16u, ikcp_encode8u.
  rewrite <- !app_assoc. cbn [app]. rewrite decode32u_cons. cbv beta iota. do 2 (rewrite decode8u_cons; cbv beta iota).
  rewrite decode16u_cons. cbv beta iota. do 4 (rewrite decode32u_cons; cbv beta iota).
  unfold header_of. change 256 with (2 ^ 8). by rewrite !Z.mod_small by lia.
Qed.

(** ** Packets *)

(** The bytes of a segment on the wire, and of a packet of segments. *)
Definition seg_bytes (s : IKCPSEG) : bytes := head_bytes s ++ seg_data s.
Definition packet (segs : list IKCPSEG) : bytes := segs ≫= seg_bytes.

(** What the loop does to the state for each segment. *)
Definition feed (x : ikcpcb * ack_seen) (s : IKCPSEG) : ikcpcb * ack_seen :=
  input_seg x.1 x.2 (header_of s) (seg_data s).

Lemma conf_input_seg k fl h d : k_conf (input_seg k fl h d).1 = k_conf k.
Proof. unfold input_seg, input_ack, input_push. repeat case_match; done. Qed.

(** The data of a segment is what its length says, whatever follows. *)
Lemma input_seg_take k fl h d p :
  hd_len h = Z.of_nat (length d) → input_seg k fl h (d ++ p) = input_seg k fl h d.
Proof.
  intros H. unfold input_seg, input_push. rewrite H, Nat2Z.id, take_app_length, take_ge by done. done.
Qed.

(** A segment the loop accepts. *)
Definition acceptable (c : Z) (s : IKCPSEG) : Prop :=
  wire_ok s ∧ seg_conv s = c ∧ known_cmd (seg_cmd s) = true.

(** Every segment of a packet is processed, in order, with its own data, whatever follows. *)
Lemma input_loop_app segs fuel k fl p :
  Forall (acceptable (conv (k_conf k))) segs →
  input_loop (length segs + fuel) k fl (packet segs ++ p) =
  input_loop fuel (foldl feed (k, fl) segs).1 (foldl feed (k, fl) segs).2 p.
Proof.
  revert k fl; induction segs as [|s segs IH]; intros k fl Hs; [done|].
  apply Forall_cons in Hs as [(Hw & Hc & Hk) Hs].
  assert (Hp : packet (s :: segs) ++ p = head_bytes s ++ seg_data s ++ packet segs ++ p).
  { unfold packet. rewrite bind_cons. unfold seg_bytes at 1. by rewrite <- !app_assoc. }
  rewrite Hp. change (length (s :: segs) + fuel)%nat with (S (length segs + fuel)).
  cbn [input_loop]. rewrite decode_encode by done. rewrite !length_app, length_head_bytes.
  rewrite (proj2 (Z.ltb_ge _ _)) by (unfold IKCP_OVERHEAD; lia). cbn [hd_conv hd_len hd_cmd header_of].
  rewrite Hc, Z.eqb_refl. cbn [negb]. pose proof (wo_len _ Hw) as Hl. unfold word, seg_len in *.
  rewrite (proj2 (Z.ltb_ge _ _)) by lia. rewrite (signed32_small (Z.of_nat _)) by lia.
  rewrite (proj2 (Z.ltb_ge _ 0)) by lia. cbn [orb]. rewrite Hk. cbn [negb].
  rewrite input_seg_take by done. rewrite Nat2Z.id, drop_app_length.
  change (foldl feed (k, fl) (s :: segs)) with (foldl feed (feed (k, fl) s) segs). unfold feed at 2 4. cbn [fst snd].
  pose proof (conf_input_seg k fl (header_of s) (seg_data s)) as Hcf.
  destruct (input_seg k fl (header_of s) (seg_data s)) as [k' fl']. cbn [fst] in Hcf. apply IH. by rewrite Hcf.
Qed.

Lemma packet_length segs : (24 * length segs ≤ length (packet segs))%nat.
Proof.
  induction segs as [|s segs IH]; [done|]. unfold packet in *. rewrite bind_cons, length_app. unfold seg_bytes at 1.
  rewrite length_app, length_head_bytes. cbn [length]. lia.
Qed.

Lemma input_loop_packet segs fuel k fl :
  Forall (acceptable (conv (k_conf k))) segs → (length (packet segs) ≤ fuel)%nat →
  input_loop fuel k fl (packet segs) = (0, (foldl feed (k, fl) segs).1, (foldl feed (k, fl) segs).2).
Proof.
  intros Hs Hf. pose proof (packet_length segs). replace fuel with (length segs + (fuel - length segs))%nat by lia.
  rewrite <- (app_nil_r (packet segs)), input_loop_app by done. by destruct (fuel - length segs)%nat.
Qed.

(** A packet determines what its segments carry. *)
Lemma packet_inj g g' :
  Forall wire_ok g → Forall wire_ok g' → packet g = packet g' →
  (λ s, (header_of s, seg_data s)) <$> g = (λ s, (header_of s, seg_data s)) <$> g'.
Proof.
  intros Hg. revert g'; induction Hg as [|s g Hs Hg IH]; intros [|s' g'] Hg' E; try done.
  apply Forall_cons in Hg' as [Hs' Hg']. unfold packet in E. rewrite !bind_cons in E. unfold seg_bytes at 1 3 in E.
  rewrite <- !app_assoc in E. pose proof (f_equal decode_header E) as Ed. rewrite !decode_encode in Ed by done.
  injection Ed as E1 E2 E3 E4 E5 E6 E7 E8 Er. apply app_inj_1 in Er as [Er1 Er2]; [|unfold seg_len in E8; lia].
  rewrite !fmap_cons. f_equal; [|by apply IH]. unfold header_of, seg_len. congruence.
Qed.

(** The error the loop ends with on what is left, [None] when it goes on. *)
Definition verdict (c : Z) (p : bytes) : option Z :=
  if Z.of_nat (length p) <? IKCP_OVERHEAD then Some 0
  else
    let '(h, rest) := decode_header p in
    if negb (hd_conv h =? c) then Some (-1)
    else if (Z.of_nat (length rest) <? hd_len h) || (signed32 (hd_len h) <? 0) then Some (-2)
    else if negb (known_cmd (hd_cmd h)) then Some (-3) else None.

Lemma input_loop_verdict fuel k fl p e :
  (fuel ≠ 0)%nat → verdict (conv (k_conf k)) p = Some e → input_loop fuel k fl p = (e, k, fl).
Proof.
  intros Hf. destruct fuel as [|fuel]; [done|]. unfold verdict. cbn [input_loop]. destruct (_ <? _); [by intros [= <-]|].
  destruct (decode_header p) as [h rest]. destruct (negb _); [by intros [= <-]|].
  destruct (_ || _); [by intros [= <-]|]. by destruct (negb _); [intros [= <-]|].
Qed.

Lemma conf_feeds segs k fl : k_conf (foldl feed (k, fl) segs).1 = k_conf k.
Proof.
  revert k fl; induction segs as [|s segs IH]; intros k fl; [done|]. cbn [foldl]. unfold feed at 2. cbn [fst snd].
  pose proof (conf_input_seg k fl (header_of s) (seg_data s)) as Hc.
  destruct (input_seg k fl (header_of s) (seg_data s)) as [k' fl']. by rewrite IH.
Qed.


(** A data segment with the largest numbers. *)
Definition seg1 : IKCPSEG := mkSeg (2 ^ 32 - 1) IKCP_CMD_PUSH 127 65535 (2 ^ 32 - 1) (2 ^ 32 - 1) 77 0 0 0 0 (lit "hello").

Lemma seg1_ok : acceptable (2 ^ 32 - 1) seg1.
Proof. split_and!; [|done|done]. split; unfold word; vm_compute; split; first [discriminate|reflexivity]. Qed.


(** A datagram of good segments and a rest: the segments are processed in order; an error
    in the rest is the result, and does not undo them. *)
Lemma input_packet_spec k segs p e :
  Forall (acceptable (conv (k_conf k))) segs → verdict (conv (k_conf k)) p = Some e →
  IKCP_OVERHEAD ≤ Z.of_nat (length (packet segs ++ p)) →
  let '(k', flag) := foldl feed (k, None) segs in
  ikcp_input k (packet segs ++ p) =
    if negb (e =? 0) then (e, k')
    else (0, with_snd (grow_cwnd (mss (k_conf k)) (snd_una (k_snd k))
                (match flag with Some (maxack, _) => ikcp_parse_fastack (k_snd k') maxack | None => k_snd k' end)) k').
Proof.
  intros Hs Hv Hl. destruct (foldl feed (k, None) segs) as [k' flag] eqn:E. unfold ikcp_input. rewrite (proj2 (Z.ltb_ge _ _)) by done.
  assert (Hlen : (length segs < length (packet segs ++ p))%nat).
  { rewrite length_app in *. pose proof (packet_length segs). unfold IKCP_OVERHEAD in *. lia. }
  replace (length (packet segs ++ p)) with (length segs + (length (packet segs ++ p) - length segs))%nat by lia.
  assert (Hc : k_conf k' = k_conf k) by (change k' with (k', flag).1; rewrite <- E; apply conf_feeds).
  assert (Happ : ∀ x, foldl feed (k, None) segs = x → input_loop (length segs + (length (packet segs ++ p) - length segs)) k None
    (packet segs ++ p) = input_loop (length (packet segs ++ p) - length segs) x.1 x.2 p).
  { intros x <-. by apply input_loop_app. }
  rewrite (Happ _ E). cbn [fst snd].
  rewrite (input_loop_verdict _ _ _ _ e); [|lia|by rewrite Hc]. destruct (negb (e =? 0)) eqn:Ee; [done|]. by rewrite Hc.
Qed.
