(* ===== verification/IkcpRecv.v ===== *)
(** * The receiving side of KCP

    Segments arrive in any order, some twice, some never. The invariant relates the
    receiver to the sequence of segments the sender numbered: [src i] is the fragment
    number and data of the [i]-th, whose number on the wire is [i] modulo 2^32. *)

From Stdlib Require Import Sorting.Sorted.
From S2P Require Import Prelude Ikcp.

(** ** Serial numbers *)

Lemma itimediff_abs i j : - 2 ^ 31 ≤ i - j < 2 ^ 31 → itimediff (unsigned32 i) (unsigned32 j) = i - j.
Proof.
  intros H. unfold itimediff. transitivity (signed32 (i - j)); [|by apply signed32_small].
  unfold signed32, unsigned32. f_equal.
  by rewrite <- (Zplus_mod_idemp_l (i mod 2 ^ 32 - j mod 2 ^ 32)), <- Zminus_mod, Zplus_mod_idemp_l.
Qed.

Lemma unsigned32_inj i j : - 2 ^ 32 < i - j < 2 ^ 32 → unsigned32 i = unsigned32 j → i = j.
Proof.
  unfold unsigned32. intros H E. pose proof (Z.div_mod i (2 ^ 32)). pose proof (Z.div_mod j (2 ^ 32)).
  assert (i / 2 ^ 32 = j / 2 ^ 32) by nia. lia.
Qed.

Lemma unsigned32_succ i : unsigned32 (unsigned32 i + 1) = unsigned32 (i + 1).
Proof. wrap_eq. Qed.

Lemma sorted_snoc {A} (R : A → A → Prop) l x :
  StronglySorted R l → Forall (λ y, R y x) l → StronglySorted R (l ++ [x]).
Proof.
  induction 1 as [|y l Hs IH Hy]; intros Hf; cbn; [by repeat constructor|].
  apply Forall_cons in Hf as [Hyx Hf]. constructor; [by apply IH|]. apply Forall_app. by repeat constructor.
Qed.

Lemma sorted_rev {A} (R : A → A → Prop) l : StronglySorted R l → StronglySorted (flip R) (rev l).
Proof.
  induction 1 as [|y l Hs IH Hy]; cbn; [constructor|]. apply sorted_snoc; [done|]. rewrite Forall_forall in *.
  intros z Hz. apply Hy. by rewrite <- Permutation_rev in Hz.
Qed.

Lemma Forall2_rev {A B} (P : A → B → Prop) l k : Forall2 P l k → Forall2 P (rev l) (rev k).
Proof. induction 1; cbn; [constructor|]. apply Forall2_app; [done|]. by repeat constructor. Qed.

(** ** The invariant *)

Definition payload (s : IKCPSEG) : Z * bytes := (seg_frg s, seg_data s).

Section Receiver.
Context (src : Z → option (Z * bytes)) (wnd : Z) (Hwnd : 0 < wnd < 2 ^ 31).

(** [s] carries the [i]-th segment of the sender. *)
Definition carries (s : IKCPSEG) (i : Z) : Prop := seg_sn s = unsigned32 i ∧ src i = Some (payload s).

(** The segments [from], ..., [from + count - 1] of the sender. *)
Definition source (from : Z) (count : nat) : list (option (Z * bytes)) := (λ i, src (from + Z.of_nat i)) <$> seq 0 count.

(** [from] segments have been taken out by recv, [nxt] is the next one expected and [l]
    are those in the buffer. *)
Record rcv_inv (from nxt : Z) (l : list Z) (r : kcp_rcv) : Prop := {
  ri_order : from ≤ nxt;
  ri_nxt : rcv_nxt r = unsigned32 nxt;
  ri_queue : Some ∘ payload <$> rcv_queue r = source from (Z.to_nat (nxt - from));
  ri_nque : nrcv_que r = Z.of_nat (length (rcv_queue r)) ∧ nrcv_que r ≤ wnd;
  ri_buf : Forall2 carries (rcv_buf r) l;
  ri_sorted : StronglySorted Z.lt l;
  ri_range : Forall (λ i, nxt ≤ i < nxt + wnd) l;
  ri_nbuf : nrcv_buf r = unsigned32 (Z.of_nat (length (rcv_buf r)))
}.

Lemma source_snoc from n : source from (S n) = source from n ++ [src (from + Z.of_nat n)].
Proof. unfold source. by rewrite seq_S, fmap_app. Qed.

(** Moving the segment that is next from the buffer to the queue. *)
Lemma move_one_inv from nxt l r s buf :
  rcv_inv from nxt l r → rcv_buf r = s :: buf → seg_sn s = rcv_nxt r → nrcv_que r < wnd →
  head l = Some nxt ∧
  rcv_inv from (nxt + 1) (tail l)
    (with_queue (unsigned32 (rcv_nxt r + 1)) (rcv_queue r ++ [s]) buf (unsigned32 (nrcv_que r + 1))
       (unsigned32 (nrcv_buf r - 1)) r).
Proof using Hwnd.
  intros [Ho Hn Hq [Hnq Hle] Hc Hs Hr Hnb] Hb Es Eq.
  rewrite Hb in Hc. apply Forall2_cons_inv_l in Hc as (i & l' & [Hsn Hpl] & Hc & ->).
  apply StronglySorted_inv in Hs as [Hs Hlt]. apply Forall_cons in Hr as [Hri Hr].
  assert (i = nxt) as -> by (apply unsigned32_inj; [lia|congruence]). split; [done|].
  split; cbn [with_queue rcv_nxt rcv_queue rcv_buf nrcv_que nrcv_buf tail]; try done.
  - lia.
  - by rewrite Hn, unsigned32_succ.
  - rewrite fmap_app, Hq. replace (Z.to_nat (nxt + 1 - from)) with (S (Z.to_nat (nxt - from))) by lia.
    rewrite source_snoc. f_equal. cbn. rewrite <- Hpl, Z2Nat.id by lia. do 2 f_equal. lia.
  - rewrite unsigned32_small by lia. rewrite length_app, Nat2Z.inj_add. simpl. lia.
  - rewrite Forall_forall in *. intros j Hj. specialize (Hr j Hj). specialize (Hlt j Hj). lia.
  - rewrite Hnb, Hb. cbn [length]. rewrite Nat2Z.inj_succ. wrap_eq.
Qed.

(** Nothing more can be moved. *)
Definition settled (r : kcp_rcv) : Prop :=
  match rcv_buf r with s :: _ => seg_sn s ≠ rcv_nxt r ∨ wnd ≤ nrcv_que r | [] => True end.

(** What was in the buffer stays there or is in order; the queue only grows. *)
Definition advances (nxt : Z) (l : list Z) (nxt' : Z) (l' : list Z) : Prop :=
  nxt ≤ nxt' ∧ ∀ i, i ∈ l → i < nxt' ∨ i ∈ l'.

Lemma move_available_inv from buf nxt l r :
  rcv_inv from nxt l r → rcv_buf r = buf →
  ∃ nxt' l', advances nxt l nxt' l' ∧ rcv_inv from nxt' l' (move_available wnd buf r) ∧
    settled (move_available wnd buf r).
Proof using Hwnd.
  revert nxt l r; induction buf as [|s buf IH]; intros nxt l r Hi Hb; cbn [move_available].
  { exists nxt, l. split_and!; [split; [lia|auto]|done|]. unfold settled. by rewrite Hb. }
  destruct (_ && _) eqn:E.
  - apply andb_true_iff in E as [Es%Z.eqb_eq Eq%Z.ltb_lt].
    destruct (move_one_inv _ _ _ _ _ _ Hi Hb Es Eq) as [Hh Hi'].
    destruct (IH _ _ _ Hi' eq_refl) as (nxt' & l' & [Hle Hl] & ? & ?). exists nxt', l'. split_and!; [|done..].
    split; [lia|]. intros i Hin. destruct l as [|j l]; simplify_eq/=. apply elem_of_cons in Hin as [->|Hin]; [lia|auto].
  - exists nxt, l. split_and!; [split; [lia|auto]|done|]. unfold settled. rewrite Hb.
    apply andb_false_iff in E as [E%Z.eqb_neq|E%Z.ltb_ge]; auto.
Qed.

(** ** Arrivals *)

(** Inserting into a buffer with the tail first: a segment that is there already is
    refused, any other takes its place in the order. *)
Lemma insert_from_tail_spec nxt s i rbuf l :
  carries s i → nxt ≤ i < nxt + wnd →
  Forall2 carries rbuf l → StronglySorted (flip Z.lt) l → Forall (λ j, nxt ≤ j < nxt + wnd) l →
  match insert_from_tail s rbuf with
  | None => i ∈ l
  | Some rbuf' => ∃ l', Forall2 carries rbuf' l' ∧ StronglySorted (flip Z.lt) l' ∧ l' ≡ₚ i :: l ∧ i ∉ l
  end.
Proof using Hwnd.
  intros Hs Hi. revert l; induction rbuf as [|t rbuf IH]; intros l Hc Hd Hr.
  { apply Forall2_nil_inv_l in Hc as ->. exists [i]. split_and!; [by apply Forall2_cons|by repeat constructor|done|set_solver]. }
  apply Forall2_cons_inv_l in Hc as (j & l' & Ht & Hc & ->). cbn [insert_from_tail].
  apply StronglySorted_inv in Hd as [Hd Hgt]. apply Forall_cons in Hr as [Hrj Hr].
  pose proof Hs as [Hsn _]. pose proof Ht as [Htn _]. rewrite Hsn, Htn.
  destruct (_ =? _) eqn:E.
  { apply Z.eqb_eq, unsigned32_inj in E as ->; [constructor|lia]. }
  assert (i ≠ j) by (intros ->; by rewrite Z.eqb_refl in E).
  rewrite itimediff_abs by lia. destruct (0 <? i - j) eqn:E'.
  - apply Z.ltb_lt in E'. assert (Forall (flip Z.lt i) l').
    { eapply Forall_impl; [exact Hgt|]. unfold flip; cbn; lia. }
    exists (i :: j :: l'). split_and!; [by repeat apply Forall2_cons_2| |done|].
    + repeat constructor; [done..|unfold flip; lia|done].
    + apply not_elem_of_cons. split; [done|]. rewrite Forall_forall in *. intros Hin. specialize (H0 _ Hin). unfold flip in H0. lia.
  - apply Z.ltb_ge in E'. specialize (IH l' Hc Hd Hr). destruct (insert_from_tail s rbuf) as [rbuf'|]; cbn; [|by right].
    destruct IH as (l2 & H1 & H2 & H3 & H4). exists (j :: l2). split_and!.
    + by constructor.
    + constructor; [done|]. rewrite H3. constructor; [unfold flip; lia|done].
    + rewrite H3. constructor.
    + set_solver.
Qed.

(** The buffer after the search. *)
Lemma insert_inv from nxt l r s i :
  rcv_inv from nxt l r → carries s i → nxt ≤ i < nxt + wnd →
  ∃ l', (∀ j, j ∈ l' ↔ j = i ∨ j ∈ l) ∧
  rcv_inv from nxt l'
    (match insert_from_tail s (rev (rcv_buf r)) with
     | Some rbuf => with_queue (rcv_nxt r) (rcv_queue r) (rev rbuf) (nrcv_que r) (unsigned32 (nrcv_buf r + 1)) r
     | None => r
     end).
Proof using Hwnd.
  intros Hinv Hs Hi. pose proof Hinv as [Ho Hn Hq Hnq Hc Hst Hr Hnb].
  pose proof (insert_from_tail_spec nxt s i (rev (rcv_buf r)) (rev l) Hs Hi) as H.
  destruct (insert_from_tail _ _) as [rbuf|]; cycle 1.
  { exists l. split; [|done]. intros j. split; [auto|]. intros [->|]; [|done].
    rewrite (Permutation_rev l). apply H; [by apply Forall2_rev|by apply sorted_rev|by apply Forall_rev]. }
  destruct H as (l' & Hc' & Hs' & Hp & Hni); [by apply Forall2_rev|by apply sorted_rev|by apply Forall_rev|].
  assert (Hp' : rev l' ≡ₚ i :: l) by (by rewrite <- Permutation_rev, Hp, <- Permutation_rev).
  exists (rev l'). split; [intros j; rewrite Hp'; set_solver|].
  split; cbn [with_queue rcv_nxt rcv_queue rcv_buf nrcv_que nrcv_buf]; try done.
  - by apply Forall2_rev.
  - apply (sorted_rev _ _ Hs').
  - rewrite Hp'. by constructor.
  - rewrite Hnb. apply Forall2_length in Hc, Hc'. rewrite length_rev, Hc', Hc, Hp. cbn [length].
    rewrite length_rev, Nat2Z.inj_succ. wrap_eq.
Qed.

(** The arrival of the segment [i], at most 2^31 away from the next one expected. *)
Lemma parse_data_inv from nxt l r s i :
  rcv_inv from nxt l r → settled r → carries s i → - 2 ^ 31 ≤ i - nxt < 2 ^ 31 →
  ∃ nxt' l', advances nxt l nxt' l' ∧ (i < nxt + wnd → i < nxt' ∨ i ∈ l') ∧
    rcv_inv from nxt' l' (ikcp_parse_data wnd r s) ∧ settled (ikcp_parse_data wnd r s).
Proof using Hwnd.
  intros Hinv Hset Hs Hi. unfold ikcp_parse_data.
  assert (Hsn : seg_sn s = unsigned32 i) by apply Hs. rewrite (ri_nxt _ _ _ _ Hinv), Hsn.
  rewrite (itimediff_abs i nxt) by done.
  destruct (_ || _) eqn:E.
  { exists nxt, l. split_and!; [split; [lia|auto]| |done|done]. intros Hlt.
    apply orb_true_iff in E as [E%Z.leb_le|E%Z.ltb_lt]; [|lia].
    replace (unsigned32 (unsigned32 nxt + wnd)) with (unsigned32 (nxt + wnd)) in E by wrap_eq.
    destruct (decide (nxt ≤ i)); [|lia]. rewrite itimediff_abs in E; lia. }
  apply orb_false_iff in E as [E%Z.leb_gt E'%Z.ltb_ge].
  replace (unsigned32 (unsigned32 nxt + wnd)) with (unsigned32 (nxt + wnd)) in E by wrap_eq.
  rewrite itimediff_abs in E by lia.
  destruct (insert_inv _ _ _ _ _ _ Hinv Hs) as (l1 & Hl1 & Hinv1); [lia|]. rewrite (ri_nxt _ _ _ _ Hinv) in Hinv1.
  destruct (move_available_inv _ _ _ _ _ Hinv1 eq_refl) as (nxt' & l' & [Hle Hadv] & Hinv' & Hset').
  exists nxt', l'. split_and!; [|intros _; apply Hadv, Hl1; auto|exact Hinv'|exact Hset'].
  split; [done|]. intros j Hj. apply Hadv, Hl1. auto.
Qed.
End Receiver.

(** ** Messages

    A message is cut into chunks numbered downwards to 0. *)

Inductive chunked : list (Z * bytes) → Prop :=
| chunked_last d : chunked [(0, d)]
| chunked_more d c : chunked c → chunked ((Z.of_nat (length c), d) :: c).

Definition chunk_ok (c : list (Z * bytes)) : Prop := chunked c ∧ Z.of_nat (length c) < IKCP_WND_RCV.

Definition message (c : list (Z * bytes)) : bytes := mjoin c.*2.

(** The segments of the messages [cs] one after the other. *)
Definition numbered (cs : list (list (Z * bytes))) (i : Z) : option (Z * bytes) :=
  if i <? 0 then None else mjoin cs !! Z.to_nat i.

(** The number of the first segment of the [j]-th message. *)
Definition pos (cs : list (list (Z * bytes))) (j : nat) : Z := Z.of_nat (length (mjoin (take j cs))).

Lemma chunked_length c : chunked c → (0 < length c)%nat.
Proof. destruct 1; cbn; lia. Qed.

Lemma chunked_head f d c : chunked ((f, d) :: c) → f = Z.of_nat (length c).
Proof. by inversion 1. Qed.

Lemma msg_data_payload q : msg_data q = message (payload <$> q).
Proof. unfold msg_data, message. induction q as [|s q IH]; [done|]. rewrite bind_cons, IH. done. Qed.

Lemma first_message_chunk q c rest :
  payload <$> q = c ++ rest → chunked c → first_message q = take (length c) q.
Proof.
  intros E H. revert q E; induction H as [d|d c Hc IH]; intros [|s q] E; try done; cbn in E; injection E as E1 E2 E3;
    cbn [first_message length take]; rewrite E1.
  - by rewrite take_0.
  - apply chunked_length in Hc. rewrite (proj2 (Z.eqb_neq _ _)) by lia. f_equal. by apply IH.
Qed.

Lemma take_payload q c rest :
  payload <$> q = c ++ rest → payload <$> take (length c) q = c ∧ payload <$> drop (length c) q = rest.
Proof. intros E. by rewrite fmap_take, fmap_drop, E, take_app_length, drop_app_length. Qed.

Lemma peeksize_complete k c rest :
  payload <$> rcv_queue (k_rcv k) = c ++ rest → chunk_ok c →
  nrcv_que (k_rcv k) = Z.of_nat (length (rcv_queue (k_rcv k))) →
  ikcp_peeksize k = Z.of_nat (length (message c)).
Proof.
  intros E [Hc Hl] Hn. pose proof (first_message_chunk _ _ _ E Hc) as Hf. unfold IKCP_WND_RCV in Hl.
  assert (Hm : msg_data (first_message (rcv_queue (k_rcv k))) = message c).
  { by rewrite msg_data_payload, Hf, (proj1 (take_payload _ _ _ E)). }
  assert (Hlen : length (rcv_queue (k_rcv k)) = (length c + length rest)%nat) by (by rewrite <- length_app, <- E, length_fmap).
  unfold ikcp_peeksize. destruct (rcv_queue (k_rcv k)) as [|s q] eqn:Eq.
  { pose proof (chunked_length _ Hc). cbn in Hlen. lia. }
  destruct (seg_frg s =? 0) eqn:Ef.
  { rewrite <- Hm. cbn [first_message]. rewrite Ef. unfold seg_len, msg_data. cbn. by rewrite app_nil_r. }
  destruct c as [|[f d] c]; [by inversion Hc|]. apply chunked_head in Hc as ->. cbn in E. injection E as Es _ _.
  rewrite Es in *. rewrite Hm. cbn [length] in *. rewrite unsigned32_small by lia.
  rewrite (proj2 (Z.ltb_ge _ _)) by lia. done.
Qed.

Lemma peeksize_partial k n c rest :
  payload <$> rcv_queue (k_rcv k) = take n (c ++ rest) → chunk_ok c → (0 < n < length c)%nat →
  nrcv_que (k_rcv k) = Z.of_nat (length (rcv_queue (k_rcv k))) → ikcp_peeksize k = -1.
Proof.
  intros E [Hc Hl] Hn Hq. unfold IKCP_WND_RCV in Hl.
  assert (Hlen : length (rcv_queue (k_rcv k)) = n).
  { rewrite <- (length_fmap payload), E, length_take, length_app. lia. }
  unfold ikcp_peeksize. destruct (rcv_queue (k_rcv k)) as [|s q] eqn:Eq; [done|].
  destruct c as [|[f d] c]; [by inversion Hc|]. apply chunked_head in Hc as ->. destruct n as [|n]; [lia|].
  cbn in E. injection E as Es _ _. rewrite Es in *. cbn [length] in *.
  rewrite (proj2 (Z.eqb_neq _ _)) by lia. rewrite unsigned32_small by lia. by rewrite (proj2 (Z.ltb_lt _ _)) by lia.
Qed.

Lemma join_split {A} (cs : list (list A)) j : mjoin cs = mjoin (take j cs) ++ mjoin (drop j cs).
Proof. by rewrite <- join_app, take_drop. Qed.

(** The queue holds the segments from [pos cs j] on. *)
Lemma queue_payload cs wnd j nxt l r :
  rcv_inv (numbered cs) wnd (pos cs j) nxt l r →
  payload <$> rcv_queue r = take (Z.to_nat (nxt - pos cs j)) (mjoin (drop j cs)) ∧
  length (rcv_queue r) = Z.to_nat (nxt - pos cs j).
Proof.
  intros [Ho _ Hq _ _ _ _ _].
  assert (Hlen : length (rcv_queue r) = Z.to_nat (nxt - pos cs j)).
  { apply (f_equal length) in Hq. by rewrite length_fmap in Hq; unfold source in Hq; rewrite length_fmap, length_seq in Hq. }
  split; [|done]. apply list_eq. intros i. rewrite list_lookup_fmap.
  apply (f_equal (.!! i)) in Hq. unfold source in Hq. rewrite !list_lookup_fmap in Hq.
  destruct (decide (i < Z.to_nat (nxt - pos cs j))%nat).
  - rewrite lookup_take_lt by done. rewrite lookup_seq_lt in Hq by done. cbn in Hq.
    destruct (rcv_queue r !! i) as [s|] eqn:E; [|done]. cbn in *. injection Hq as Hq. rewrite Hq. unfold numbered.
    rewrite (proj2 (Z.ltb_ge _ _)) by (unfold pos; lia).
    rewrite (join_split cs j), lookup_app_r by (unfold pos; lia). f_equal. unfold pos. lia.
  - rewrite lookup_take_ge by lia. by rewrite lookup_ge_None_2 by lia.
Qed.

Lemma pos_S cs j c : cs !! j = Some c → pos cs (S j) = pos cs j + Z.of_nat (length c).
Proof.
  intros H. unfold pos. rewrite (take_S_r _ _ _ H), join_app, length_app. cbn. rewrite app_nil_r. lia.
Qed.

(** Taking the first [m] segments of the queue. *)
Lemma rcv_inv_take src wnd from nxt l r (m : nat) :
  0 < wnd < 2 ^ 31 → rcv_inv src wnd from nxt l r → (m ≤ length (rcv_queue r))%nat →
  rcv_inv src wnd (from + Z.of_nat m) nxt l
    (with_queue (rcv_nxt r) (drop m (rcv_queue r)) (rcv_buf r) (unsigned32 (nrcv_que r - Z.of_nat m)) (nrcv_buf r) r).
Proof.
  intros Hw [Ho Hn Hq [Hnq Hle] Hc Hs Hr Hnb] Hm.
  assert (Hlen : length (rcv_queue r) = Z.to_nat (nxt - from)).
  { apply (f_equal length) in Hq. by rewrite length_fmap in Hq; unfold source in Hq; rewrite length_fmap, length_seq in Hq. }
  split; cbn [with_queue rcv_nxt rcv_queue rcv_buf nrcv_que nrcv_buf]; try done.
  - lia.
  - rewrite fmap_drop, Hq. unfold source. rewrite <- fmap_drop, drop_seq.
    replace (Z.to_nat (nxt - (from + Z.of_nat m))) with (Z.to_nat (nxt - from) - m)%nat by lia.
    replace (0 + m)%nat with (m + 0)%nat by lia. rewrite <- (fmap_add_seq m 0), <- list_fmap_compose.
    apply list_fmap_ext. intros i x Hx. cbn. f_equal. lia.
  - rewrite length_drop, unsigned32_small by lia. lia.
Qed.

Lemma acklist_move wnd buf r : acklist (move_available wnd buf r) = acklist r.
Proof.
  revert r; induction buf as [|s buf IH]; intros r; cbn [move_available]; [done|]. destruct (_ && _); [|done]. by rewrite IH.
Qed.

(** The receiver after [j] messages of [cs] have been handed over. *)
Record receiver (cs : list (list (Z * bytes))) (j : nat) (nxt : Z) (l : list Z) (k : ikcpcb) : Prop := {
  rc_wnd : 0 < rcv_wnd (k_conf k) < 2 ^ 31;
  rc_inv : rcv_inv (numbered cs) (rcv_wnd (k_conf k)) (pos cs j) nxt l (k_rcv k);
  rc_settled : settled (rcv_wnd (k_conf k)) (k_rcv k)
}.

Lemma recv_incomplete cs j nxt l k len :
  Forall chunk_ok cs → receiver cs j nxt l k → (∀ c, cs !! j = Some c → nxt < pos cs (S j)) →
  ∃ ret, ret < 0 ∧ ikcp_recv k len = Some (ret, [], k).
Proof.
  intros Hcs [Hw Hinv _] Hj. destruct (queue_payload _ _ _ _ _ _ Hinv) as [Hp Hlen].
  pose proof (ri_nque _ _ _ _ _ _ Hinv) as [Hnq _]. pose proof (ri_order _ _ _ _ _ _ Hinv) as Ho.
  unfold ikcp_recv. destruct (rcv_queue (k_rcv k)) as [|s q] eqn:Eq; [exists (-1); split; [lia|done]|].
  destruct (cs !! j) as [c|] eqn:Ec; cycle 1.
  { apply lookup_ge_None_1 in Ec. rewrite (drop_ge cs) in Hp by done. cbn in Hp. by rewrite take_nil in Hp. }
  specialize (Hj c eq_refl). rewrite (pos_S _ _ _ Ec) in Hj. rewrite (drop_S _ _ _ Ec) in Hp. cbn [mjoin list_join] in Hp.
  rewrite Forall_lookup in Hcs. rewrite <- Eq in Hp, Hnq.
  rewrite (peeksize_partial _ _ _ _ Hp); [|eauto|cbn in Hlen; lia|done]. exists (-2). split; [lia|done].
Qed.

Lemma recv_complete cs j nxt l k len c :
  Forall chunk_ok cs → receiver cs j nxt l k → cs !! j = Some c → pos cs (S j) ≤ nxt →
  if Z.abs len <? Z.of_nat (length (message c)) then ikcp_recv k len = Some (-3, [], k)
  else ∃ k' nxt' l', ikcp_recv k len = Some (Z.of_nat (length (message c)), message c, k') ∧
    k_conf k' = k_conf k ∧ k_snd k' = k_snd k ∧ acklist (k_rcv k') = acklist (k_rcv k) ∧
    current (k_clk k') = current (k_clk k) ∧ advances nxt l nxt' l' ∧
    receiver cs (if len <? 0 then j else S j) nxt' l' k'.
Proof.
  intros Hcs [Hw Hinv Hset] Ec Hj. rewrite Forall_lookup in Hcs. pose proof (Hcs _ _ Ec) as Hc.
  destruct (queue_payload _ _ _ _ _ _ Hinv) as [Hp Hlen]. rewrite (pos_S _ _ _ Ec) in Hj.
  rewrite (drop_S _ _ _ Ec) in Hp. cbn [mjoin list_join] in Hp. rewrite take_app_ge in Hp by lia.
  pose proof (ri_nque _ _ _ _ _ _ Hinv) as [Hnq _]. pose proof (chunked_length c (proj1 Hc)).
  unfold ikcp_recv. rewrite (peeksize_complete _ _ _ Hp Hc Hnq), (first_message_chunk _ _ _ Hp (proj1 Hc)).
  rewrite msg_data_payload, (proj1 (take_payload _ _ _ Hp)), length_take_le by lia. rewrite Z.eqb_refl. cbn [negb].
  destruct (rcv_queue (k_rcv k)) as [|s q] eqn:Eq; [cbn in Hlen; lia|]. rewrite <- Eq in *.
  rewrite (proj2 (Z.ltb_ge (Z.of_nat _) 0)) by lia. destruct (_ <? _); [done|].
  assert (∃ from, from = (if len <? 0 then pos cs j else pos cs (S j)) ∧
    rcv_inv (numbered cs) (rcv_wnd (k_conf k)) from nxt l
      (if len <? 0 then k_rcv k
       else with_queue (rcv_nxt (k_rcv k)) (drop (length c) (rcv_queue (k_rcv k))) (rcv_buf (k_rcv k))
              (unsigned32 (nrcv_que (k_rcv k) - Z.of_nat (length c))) (nrcv_buf (k_rcv k)) (k_rcv k)))
    as (from & Hfrom & Hinv').
  { eexists. split; [done|]. destruct (len <? 0); [done|]. rewrite (pos_S _ _ _ Ec). by apply rcv_inv_take; [| |lia]. }
  destruct (move_available_inv _ _ Hw _ _ _ _ _ Hinv' eq_refl) as (nxt' & l' & Hadv & Hi & Hs).
  eexists _, nxt', l'. split_and!; [reflexivity|done|done| |by destruct (_ && _)|done|].
  { cbn. rewrite acklist_move. by destruct (len <? 0). }
  split; cbn [with_clk with_rcv k_conf k_rcv]; [done| |done].
  subst from. by destruct (len <? 0).
Qed.
