(* ===== verification/IkcpSend.v ===== *)
(** * The sending side of KCP

    Cutting a message into fragments, numbering them, keeping them until they are
    acknowledged, and packing segments into datagrams. *)

From S2P Require Import Prelude Ikcp IkcpWire IkcpRecv.

(** ** Configurations in message mode *)

Record conf_ok (f : kcp_conf) : Prop := {
  co_conv : word 32 (conv f);
  co_mtu : IKCP_OVERHEAD < mtu f < 2 ^ 31;
  co_mss : mss f = mtu f - IKCP_OVERHEAD;
  co_stream : stream f = 0;
  co_wnd : IKCP_WND_RCV ≤ rcv_wnd f < 2 ^ 16
}.

Lemma mss_range f : conf_ok f → 0 < mss f < 2 ^ 31.
Proof. intros [_ H1 H2 _ _]. unfold IKCP_OVERHEAD in *. lia. Qed.

(** ** Fragments *)

Lemma message_cons p c : message (p :: c) = p.2 ++ message c.
Proof. done. Qed.

Lemma fragments_length m st count b : length (fragments m st count b) = count.
Proof. revert b; induction count as [|count IH]; intros b; cbn; [done|]. by rewrite IH. Qed.

Lemma fragments_chunked m count b : chunked (payload <$> fragments m 0 (S count) b).
Proof.
  revert b; induction count as [|count IH]; intros b; [constructor|].
  change (fragments m 0 (S (S count)) b) with
    (let size := if m <? Z.of_nat (length b) then Z.to_nat m else length b in
     new_seg (Z.of_nat (S count)) (take size b) :: fragments m 0 (S count) (drop size b)).
  cbv zeta. rewrite fmap_cons.
  replace (Z.of_nat (S count)) with (Z.of_nat (length (payload <$> fragments m 0 (S count)
    (drop (if m <? Z.of_nat (length b) then Z.to_nat m else length b) b))))
    by (by rewrite length_fmap, fragments_length).
  apply chunked_more, IH.
Qed.

(** The fragments hold the whole message, no more than [m] bytes each. *)
Lemma fragments_data m st count b :
  0 < m → Z.of_nat (length b) ≤ Z.of_nat count * m → (0 < count)%nat →
  message (payload <$> fragments m st count b) = b ∧ Forall (λ s, seg_len s ≤ m) (fragments m st count b).
Proof.
  intros Hm. revert b; induction count as [|count IH]; intros b Hb Hc; [lia|]. cbn [fragments].
  set (size := if m <? Z.of_nat (length b) then Z.to_nat m else length b).
  assert (Hs : (size ≤ length b)%nat ∧ Z.of_nat size ≤ m ∧ Z.of_nat (length (drop size b)) ≤ Z.of_nat count * m ∧
               (count = 0%nat → drop size b = [])).
  { rewrite length_drop. subst size. destruct (m <? Z.of_nat (length b)) eqn:E; [apply Z.ltb_lt in E|apply Z.ltb_ge in E].
    - split_and!; [lia|lia|lia|]. intros ->. lia.
    - split_and!; [lia|lia|lia|]. intros _. by rewrite drop_ge. }
  destruct Hs as (H1 & H2 & H3 & H4). clearbody size.
  assert (Hrest : message (payload <$> fragments m st count (drop size b)) = drop size b ∧
                  Forall (λ s, seg_len s ≤ m) (fragments m st count (drop size b))).
  { destruct count as [|count]; [rewrite H4 by done; by split; [|constructor]|]. apply IH; [done|lia]. }
  destruct Hrest as [Hr1 Hr2]. split.
  - rewrite fmap_cons, message_cons, Hr1. apply take_drop.
  - constructor; [|done]. unfold seg_len, new_seg. cbn. rewrite length_take. lia.
Qed.

(** ** Sending a message *)

(** The number of fragments of a message, and its chunks. *)
Definition frag_count (mss len : Z) : Z := if len <=? mss then 1 else (len + mss - 1) / mss.

Definition cut (f : kcp_conf) (m : bytes) : list (Z * bytes) :=
  payload <$> fragments (mss f) 0 (Z.to_nat (frag_count (mss f) (Z.of_nat (length m)))) m.

(** Every message short enough for a window is cut into chunks that hold all of it. *)
Definition sendable (f : kcp_conf) (m : bytes) : Prop := frag_count (mss f) (Z.of_nat (length m)) < IKCP_WND_RCV.

Lemma frag_count_spec m len :
  0 < m → 0 ≤ len → 1 ≤ frag_count m len ∧ len ≤ frag_count m len * m ∧ (len ≤ m ∨ (frag_count m len - 1) * m < len).
Proof.
  intros Hm Hl. unfold frag_count. destruct (len <=? m) eqn:E; [apply Z.leb_le in E; lia|apply Z.leb_gt in E].
  pose proof (Z.div_mod (len + m - 1) m). pose proof (Z.mod_pos_bound (len + m - 1) m). nia.
Qed.

Lemma cut_spec f m : conf_ok f → message (cut f m) = m ∧ Forall (λ p, Z.of_nat (length p.2) ≤ mss f) (cut f m).
Proof.
  intros Hf. pose proof (mss_range _ Hf) as Hm. unfold cut.
  destruct (frag_count_spec (mss f) (Z.of_nat (length m)) ltac:(lia) ltac:(lia)) as (H1 & H2 & _).
  destruct (fragments_data (mss f) 0 (Z.to_nat (frag_count (mss f) (Z.of_nat (length m)))) m) as [H3 H4]; [lia|lia|lia|].
  split; [done|]. by apply Forall_fmap.
Qed.

Lemma cut_ok f m : conf_ok f → sendable f m → chunk_ok (cut f m).
Proof.
  intros Hf Hs. pose proof (mss_range _ Hf) as Hm. unfold sendable, cut in *.
  destruct (frag_count_spec (mss f) (Z.of_nat (length m)) ltac:(lia) ltac:(lia)) as (H1 & H2 & _). split.
  - destruct (Z.to_nat _) eqn:En; [lia|]. apply fragments_chunked.
  - rewrite length_fmap, fragments_length. lia.
Qed.

(** In message mode: a message too long for 127 fragments is refused and nothing changes,
    any other is appended to the queue as its chunks. *)
Lemma send_spec k b :
  conf_ok (k_conf k) → Z.of_nat (length b) < 2 ^ 31 →
  (¬ sendable (k_conf k) b ∧ ikcp_send k b (Z.of_nat (length b)) = Some (-2, k)) ∨
  (sendable (k_conf k) b ∧ ∃ segs n,
    ikcp_send k b (Z.of_nat (length b)) = Some (0, with_snd (with_snd_queue (snd_queue (k_snd k) ++ segs) n (k_snd k)) k) ∧
    payload <$> segs = cut (k_conf k) b).
Proof.
  intros Hf Hb. pose proof (mss_range _ Hf) as Hm. pose proof (co_stream _ Hf) as Hst. unfold ikcp_send, sendable.
  rewrite Hst. rewrite (proj2 (Z.ltb_lt 0 _)) by lia. cbn [negb andb Z.eqb]. rewrite (proj2 (Z.ltb_ge _ 0)) by lia.
  rewrite Nat2Z.id, take_ge by done. cbv zeta iota. rewrite unsigned32_small by lia. fold (frag_count (mss (k_conf k)) (Z.of_nat (length b))).
  destruct (frag_count_spec (mss (k_conf k)) (Z.of_nat (length b)) ltac:(lia) ltac:(lia)) as (H1 & _).
  destruct (IKCP_WND_RCV <=? _) eqn:E; [apply Z.leb_le in E|apply Z.leb_gt in E].
  - left. split; [lia|]. by destruct k as [c s r cl], s.
  - right. rewrite (proj2 (Z.eqb_neq _ 0)) by lia. split; [done|]. do 2 eexists. split; [reflexivity|done].
Qed.

Lemma kcp_send_spec k b :
  conf_ok (k_conf k) → Z.of_nat (length b) < 2 ^ 31 →
  (¬ sendable (k_conf k) b → ikcp_send k b (Z.of_nat (length b)) = Some (-2, k)) ∧
  (sendable (k_conf k) b → ∃ segs n,
    ikcp_send k b (Z.of_nat (length b)) = Some (0, with_snd (with_snd_queue (snd_queue (k_snd k) ++ segs) n (k_snd k)) k) ∧
    chunk_ok (payload <$> segs) ∧ msg_data segs = b ∧ Forall (λ s, seg_len s ≤ mss (k_conf k)) segs).
Proof.
  intros Hf Hb. destruct (send_spec k b Hf Hb) as [[Hn E]|(Hs & segs & n & E & Hp)]; [by split|].
  split; [done|]. intros _. exists segs, n. split; [done|]. destruct (cut_spec (k_conf k) b Hf) as [Hm Hl].
  rewrite msg_data_payload, Hp. split_and!; [by apply cut_ok|done|]. by rewrite <- Hp, Forall_fmap in Hl.
Qed.

(** ** What the sender keeps *)

(** What a segment is, without its times and counters. *)
Definition ident (s : IKCPSEG) : Z * Z * Z * (Z * bytes) := (seg_conv s, seg_cmd s, seg_sn s, payload s).

(** The messages [sent] have been queued, their first [n] segments numbered; [cs] are all
    the messages of the run. *)
Record sender (f : kcp_conf) (cs sent : list (list (Z * bytes))) (n : Z) (s : kcp_snd) : Prop := {
  se_sent : sent `prefix_of` cs;
  se_n : 0 ≤ n ≤ Z.of_nat (length (mjoin sent));
  se_nxt : snd_nxt s = unsigned32 n;
  se_queue : payload <$> snd_queue s = drop (Z.to_nat n) (mjoin sent);
  se_len : Forall (λ s, seg_len s ≤ mss f) (snd_queue s);
  se_buf : ∀ x, x ∈ ident <$> snd_buf s →
    ∃ i pl, 0 ≤ i < n ∧ x = (conv f, IKCP_CMD_PUSH, unsigned32 i, pl) ∧ numbered cs i = Some pl ∧
      Z.of_nat (length pl.2) ≤ mss f
}.

(** Every numbered segment is in the buffer or [got] by the receiver. *)
Definition no_loss (n : Z) (got : Z → Prop) (buf : list IKCPSEG) : Prop :=
  ∀ i, 0 ≤ i < n → got i ∨ unsigned32 i ∈ seg_sn <$> buf.

Lemma ident_sn (b1 b2 : list IKCPSEG) : ident <$> b1 = ident <$> b2 → seg_sn <$> b1 = seg_sn <$> b2.
Proof.
  intros H. apply (f_equal (fmap (λ x, x.1.2))) in H. by rewrite <- !list_fmap_compose in H.
Qed.

Lemma ident_length (b1 b2 : list IKCPSEG) : ident <$> b1 = ident <$> b2 → length b1 = length b2.
Proof. intros H. apply (f_equal length) in H. by rewrite !length_fmap in H. Qed.

(** *** Acknowledgements *)

Lemma drop_una_spec una buf :
  drop_una una buf `suffix_of` buf ∧
  (∀ sn, sn ∈ seg_sn <$> buf → sn ∈ seg_sn <$> drop_una una buf ∨ 0 < itimediff una sn).
Proof.
  induction buf as [|s buf [IH1 IH2]]; cbn [drop_una]; [split; [done|auto]|].
  destruct (0 <? _) eqn:E; [|split; [done|auto]]. apply Z.ltb_lt in E. split; [by apply suffix_cons_r|].
  intros sn. rewrite fmap_cons, elem_of_cons. intros [->|H]; auto.
Qed.

Lemma remove_sn_spec sn buf :
  (remove_sn sn buf).1 `sublist_of` buf ∧
  (∀ x, x ∈ seg_sn <$> buf → x ∈ seg_sn <$> (remove_sn sn buf).1 ∨ x = sn).
Proof.
  induction buf as [|s buf [IH1 IH2]]; cbn [remove_sn]; [split; [done|auto]|].
  destruct (sn =? seg_sn s) eqn:E.
  { apply Z.eqb_eq in E. split; [by apply sublist_cons|]. intros x. cbn. rewrite elem_of_cons. intros [->|H]; auto. }
  destruct (itimediff sn (seg_sn s) <? 0); [split; [done|auto]|].
  destruct (remove_sn sn buf) as [b found]. cbn [fst] in *. split; [by apply sublist_skip|].
  intros x. rewrite !fmap_cons, !elem_of_cons. intros [->|H]; [auto|]. destruct (IH2 x H); auto.
Qed.

Lemma fastack_ident sn buf : ident <$> fastack_loop sn buf = ident <$> buf.
Proof.
  induction buf as [|s buf IH]; cbn [fastack_loop]; [done|]. destruct (_ <? 0); [done|].
  rewrite !fmap_cons, IH. by destruct (sn =? seg_sn s).
Qed.

(** What an input may do to the sender: only segments in [gone] leave the buffer. *)
Record trims (gone : Z → Prop) (s s' : kcp_snd) : Prop := {
  tr_nxt : snd_nxt s' = snd_nxt s;
  tr_queue : snd_queue s' = snd_queue s;
  tr_buf : ident <$> snd_buf s' ⊆ ident <$> snd_buf s;
  tr_gone : ∀ sn, sn ∈ seg_sn <$> snd_buf s → sn ∈ seg_sn <$> snd_buf s' ∨ gone sn
}.

Lemma trims_same gone s s' :
  snd_nxt s' = snd_nxt s → snd_queue s' = snd_queue s → ident <$> snd_buf s' = ident <$> snd_buf s → trims gone s s'.
Proof. intros H1 H2 H3. split; [done|done|by rewrite H3|]. rewrite (ident_sn _ _ H3). auto. Qed.

Lemma trims_trans gone s1 s2 s3 : trims gone s1 s2 → trims gone s2 s3 → trims gone s1 s3.
Proof.
  intros [A1 A2 A3 A4] [B1 B2 B3 B4]. split; [congruence|congruence|set_solver|].
  intros sn H. destruct (A4 sn H) as [H'|]; [|auto]. auto.
Qed.

Lemma trims_shrink gone s : trims gone s (ikcp_shrink_buf s).
Proof. by apply trims_same. Qed.

Lemma trims_rmt_wnd gone w s : trims gone s (with_rmt_wnd w s).
Proof. by apply trims_same. Qed.

Lemma trims_una gone s una :
  (∀ sn, sn ∈ seg_sn <$> snd_buf s → 0 < itimediff una sn → gone sn) → trims gone s (ikcp_parse_una s una).
Proof.
  intros Hg. destruct (drop_una_spec una (snd_buf s)) as [H1 H2]. split; [done|done| |].
  - intros x Hx. cbn in *. destruct H1 as [pre H1]. rewrite H1, fmap_app, elem_of_app. auto.
  - intros sn Hsn. destruct (H2 sn Hsn); [auto|]. right. auto.
Qed.

Lemma trims_ack (gone : Z → Prop) s sn : gone sn → trims gone s (ikcp_parse_ack s sn).
Proof.
  intros Hg. unfold ikcp_parse_ack. destruct (in_flight_sn s sn); [|by apply trims_same]. cbn [negb].
  destruct (remove_sn_spec sn (snd_buf s)) as [H1 H2]. destruct (remove_sn sn (snd_buf s)) as [b found].
  split; [done|done| |]; cbn in *.
  - intros x (y & -> & Hy)%list_elem_of_fmap. apply list_elem_of_fmap. exists y. split; [done|].
    eapply elem_of_submseteq; [done|by apply sublist_submseteq].
  - intros x Hx. destruct (H2 x Hx) as [H| ->]; auto.
Qed.

Lemma trims_fastack gone s sn : trims gone s (ikcp_parse_fastack s sn).
Proof.
  unfold ikcp_parse_fastack. destruct (in_flight_sn s sn); [|by apply trims_same]. apply trims_same; [done|done|].
  apply fastack_ident.
Qed.

Lemma trims_cwnd gone m u s : trims gone s (grow_cwnd m u s).
Proof. unfold grow_cwnd. repeat case_match; by apply trims_same. Qed.

Lemma sender_trims f cs sent n gone s s' : sender f cs sent n s → trims gone s s' → sender f cs sent n s'.
Proof.
  intros [H1 H2 H3 H4 H5 H6] [T1 T2 T3 T4]. split; rewrite ?T1, ?T2; [done..|]. intros x Hx. by apply H6, T3.
Qed.

Lemma no_loss_trims n (got gone : Z → Prop) s s' :
  (∀ i, 0 ≤ i < n → gone (unsigned32 i) → got i) → no_loss n got (snd_buf s) → trims gone s s' →
  no_loss n got (snd_buf s').
Proof.
  intros Hg Hl [_ _ _ T] i Hi. destruct (Hl i Hi) as [|Hin]; [auto|]. destruct (T _ Hin) as [|Hgone]; [auto|].
  left. auto.
Qed.

(** A segment that comes in: what [gone] must cover. *)
Lemma input_seg_trims k fl h d (gone : Z → Prop) :
  (∀ sn, sn ∈ seg_sn <$> snd_buf (k_snd k) → 0 < itimediff (hd_una h) sn → gone sn) →
  (hd_cmd h = IKCP_CMD_ACK → gone (hd_sn h)) →
  trims gone (k_snd k) (k_snd (input_seg k fl h d).1).
Proof.
  intros Hu Ha. set (s1 := ikcp_shrink_buf (ikcp_parse_una (with_rmt_wnd (hd_wnd h) (k_snd k)) (hd_una h))).
  assert (T : trims gone (k_snd k) s1).
  { eapply trims_trans; [apply trims_rmt_wnd|]. eapply trims_trans; [by apply trims_una|apply trims_shrink]. }
  unfold input_seg. fold s1. destruct (hd_cmd h =? IKCP_CMD_ACK) eqn:E1.
  { apply Z.eqb_eq in E1. unfold input_ack. cbn [fst with_clk with_snd k_snd]. eapply trims_trans; [exact T|].
    eapply trims_trans; [by apply trims_ack, Ha|apply trims_shrink]. }
  destruct (hd_cmd h =? IKCP_CMD_PUSH); [|by destruct (hd_cmd h =? IKCP_CMD_WASK)].
  cbn [fst]. unfold input_push. by destruct (itimediff _ _ <? 0).
Qed.

(** ** Packing segments into datagrams *)

(** The segments [gs] have been written in order: the last ones are in the buffer, the
    others in datagrams; nothing is longer than the mtu. *)
Definition out_ok (mtu : Z) (o : outbuf) (gs : list IKCPSEG) : Prop :=
  ∃ outs segs, ob_buf o = packet segs ∧ ob_out o = packet <$> outs ∧ gs = mjoin outs ++ segs ∧
    Forall (λ g, g ≠ [] ∧ Z.of_nat (length (packet g)) ≤ mtu) outs ∧ Z.of_nat (length (packet segs)) ≤ mtu.

Lemma packet_app a b : packet (a ++ b) = packet a ++ packet b.
Proof. apply bind_app. Qed.

Lemma packet_one s : packet [s] = head_bytes s ++ seg_data s.
Proof. apply (app_nil_r (seg_bytes s)). Qed.

Lemma length_packet_one s : Z.of_nat (length (packet [s])) = IKCP_OVERHEAD + seg_len s.
Proof. rewrite packet_one, length_app, length_head_bytes. unfold IKCP_OVERHEAD, seg_len. lia. Qed.

Lemma packet_nil segs : packet segs = [] → segs = [].
Proof. destruct segs as [|s segs]; [done|]. unfold packet. rewrite bind_cons. unfold seg_bytes. done. Qed.

Lemma out_ok_output mtu o gs : 0 ≤ mtu → out_ok mtu o gs → out_ok mtu (ikcp_output o) gs ∧ ob_buf (ikcp_output o) = [].
Proof.
  intros Hm (outs & segs & H1 & H2 & H3 & H4 & H5). split; [|done]. unfold ikcp_output. rewrite H1.
  destruct (packet segs) as [|b p] eqn:E.
  - apply packet_nil in E as ->. exists outs, []. cbn. split_and!; [done|done|done|done|done].
  - exists (outs ++ [segs]), []. cbn. split_and!; [done|by rewrite H2, fmap_app, <- E| | |done].
    + by rewrite join_app, H3, app_nil_r; cbn; rewrite app_nil_r.
    + apply Forall_app. split; [done|]. constructor; [|done]. rewrite E. split; [by intros ->|done].
Qed.

(** Writing one segment behind the check for room. *)
Lemma out_ok_put mtu o gs s :
  out_ok mtu o gs → IKCP_OVERHEAD + seg_len s ≤ mtu →
  let o := make_room mtu (IKCP_OVERHEAD + seg_len s) o in
  out_ok mtu (mkOut (ikcp_encode_seg (ob_buf o) s ++ seg_data s) (ob_out o)) (gs ++ [s]).
Proof.
  intros H Hs. cbv zeta. assert (Hm : 0 ≤ mtu) by (unfold IKCP_OVERHEAD, seg_len in *; lia).
  assert (Hr : ∃ o', o' = make_room mtu (IKCP_OVERHEAD + seg_len s) o ∧ out_ok mtu o' gs ∧
               Z.of_nat (length (ob_buf o')) + (IKCP_OVERHEAD + seg_len s) ≤ mtu).
  { eexists. split; [done|]. unfold make_room. destruct (_ <? _) eqn:E.
    - destruct (out_ok_output _ _ _ Hm H) as [H1 H2]. split; [done|]. rewrite H2. cbn [length]. lia.
    - apply Z.ltb_ge in E. by split. }
  destruct Hr as (o' & <- & (outs & segs & H1 & H2 & H3 & H4 & H5) & Hroom).
  exists outs, (segs ++ [s]). cbn [ob_buf ob_out]. split_and!; [|done| |done|].
  - by rewrite encode_seg_app, <- app_assoc, packet_app, packet_one, H1.
  - by rewrite H3, <- app_assoc.
  - rewrite packet_app, length_app, Nat2Z.inj_add, length_packet_one, <- H1. lia.
Qed.

Lemma out_ok_put_seg mtu o gs s :
  out_ok mtu o gs → seg_data s = [] → IKCP_OVERHEAD ≤ mtu → out_ok mtu (put_seg mtu o s) (gs ++ [s]).
Proof.
  intros H Hd Hm. assert (Hl : IKCP_OVERHEAD = IKCP_OVERHEAD + seg_len s) by (unfold seg_len; rewrite Hd; cbn; lia).
  unfold put_seg. rewrite Hl. pose proof (out_ok_put mtu o gs s H ltac:(lia)) as Hp. cbv zeta in Hp.
  rewrite Hd, app_nil_r in Hp. exact Hp.
Qed.

(** ** Flushing *)

Lemma numbered_prefix (sent cs : list (list (Z * bytes))) i pl :
  sent `prefix_of` cs → mjoin sent !! i = Some pl → numbered cs (Z.of_nat i) = Some pl.
Proof.
  intros [rest ->] H. unfold numbered. rewrite (proj2 (Z.ltb_ge _ 0)), Nat2Z.id, join_app by lia. by apply lookup_app_l_Some.
Qed.

(** Numbering the first segment of the queue. *)
Lemma sender_number f cs sent n s seg queue w t u ts rto q b :
  sender f cs sent n s → snd_queue s = seg :: queue →
  sender f cs sent (n + 1)
    (mkSnd (snd_una s) (unsigned32 (snd_nxt s + 1)) queue
       (snd_buf s ++ [mkSeg (conv f) IKCP_CMD_PUSH (seg_frg seg) w t (snd_nxt s) u ts rto 0 0 (seg_data seg)])
       q b (rmt_wnd s) (cwnd s) (incr s) (ssthresh s) (xmit s) (state s)).
Proof.
  intros [H1 H2 H3 H4 H5 H6] Hq. rewrite Hq in H4, H5. apply Forall_cons in H5 as [Hl H5].
  assert (Hn : mjoin sent !! Z.to_nat n = Some (payload seg)).
  { apply (f_equal (.!! 0%nat)) in H4. rewrite lookup_drop, Nat.add_0_r in H4. by rewrite <- H4. }
  pose proof (lookup_lt_Some _ _ _ Hn).
  split; cbn [snd_nxt snd_queue snd_buf]; [done|lia| | |done|].
  - by rewrite H3, unsigned32_succ.
  - rewrite (drop_S _ _ _ Hn) in H4. cbn in H4. injection H4 as H4. rewrite H4. f_equal. lia.
  - intros x Hx. rewrite fmap_app, elem_of_app in Hx. destruct Hx as [Hx|Hx].
    + destruct (H6 x Hx) as (i & pl & ? & ?). exists i, pl. split; [lia|done].
    + apply list_elem_of_singleton in Hx as ->. exists n, (payload seg). split_and!; [lia|lia| | |done].
      * by rewrite <- H3.
      * apply (numbered_prefix sent cs) in Hn; [|done]. by rewrite Z2Nat.id in Hn by lia.
Qed.

Lemma fill_window_spec f cs sent k wnd cw queue n s :
  k_conf k = f → sender f cs sent n s → snd_queue s = queue →
  ∃ n' new, n ≤ n' ∧ sender f cs sent n' (fill_window k wnd cw queue s) ∧
    snd_buf (fill_window k wnd cw queue s) = snd_buf s ++ new ∧ Forall (λ x, seg_xmit x = 0) new ∧
    ∀ i, n ≤ i < n' → unsigned32 i ∈ seg_sn <$> new.
Proof.
  intros Hf. revert n s; induction queue as [|seg queue IH]; intros n s Hs Hq; cbn [fill_window].
  { exists n, []. rewrite app_nil_r. split_and!; [lia|done|done|done|lia]. }
  destruct (itimediff _ _ <? 0); [|exists n, []; rewrite app_nil_r; split_and!; [lia|done|done|done|lia]].
  pose proof (sender_number _ _ _ _ _ _ _ wnd (current (k_clk k)) (rcv_nxt (k_rcv k)) (current (k_clk k)) (rx_rto (k_clk k))
    (unsigned32 (nsnd_que s - 1)) (unsigned32 (nsnd_buf s + 1)) Hs Hq) as Hs1. rewrite <- Hf in Hs1 at 2.
  destruct (IH _ _ Hs1 eq_refl) as (n' & new & Hle & Hs' & Hb & Hx & Hi).
  eexists n', (_ :: new). split_and!; [lia|exact Hs'| | |].
  - rewrite Hb. cbn [snd_buf]. by rewrite <- app_assoc.
  - by constructor.
  - intros i Hin. rewrite fmap_cons, elem_of_cons. destruct (decide (i = n)) as [->|]; [left; by rewrite <- (se_nxt _ _ _ _ _ Hs)|].
    right. apply Hi. lia.
Qed.

Lemma resend_ident f c s st s' st' :
  resend f c s st = Some (s', st') → ident s' = ident s ∧ fl_out st' = fl_out st.
Proof. unfold resend, resend_params. repeat case_match; intros [= <- <-]; done. Qed.

(** Never sent, or its time to be sent again has come. *)
Definition due (c : kcp_clk) (s : IKCPSEG) : Prop := seg_xmit s = 0 ∨ 0 ≤ itimediff (current c) (seg_resendts s).

Lemma resend_due f c s st : due c s → is_Some (resend f c s st).
Proof.
  intros H. unfold resend. destruct (resend_params f c) as [resent rtomin]. destruct (seg_xmit s =? 0) eqn:E; [by eexists|].
  apply Z.eqb_neq in E. destruct H as [|H]; [done|]. rewrite (proj2 (Z.leb_le _ _) H). by eexists.
Qed.

(** The segments a flush sends carry the current window, time and una. *)
Definition stamped (k : ikcpcb) (wnd : Z) (s : IKCPSEG) : Prop :=
  seg_wnd s = wnd ∧ seg_ts s = current (k_clk k) ∧ seg_una s = rcv_nxt (k_rcv k).

Lemma send_seg_spec k wnd s st gs :
  out_ok (mtu (k_conf k)) (fl_out st) gs → IKCP_OVERHEAD + seg_len s ≤ mtu (k_conf k) →
  out_ok (mtu (k_conf k)) (fl_out (send_seg k wnd s st).2) (gs ++ [(send_seg k wnd s st).1]) ∧
  ident (send_seg k wnd s st).1 = ident s ∧ stamped k wnd (send_seg k wnd s st).1.
Proof. intros Ho Hl. split; [|done]. by apply (out_ok_put _ _ _ (send_seg k wnd s st).1). Qed.

Lemma flush_segs_spec k wnd buf st gs :
  out_ok (mtu (k_conf k)) (fl_out st) gs → Forall (λ s, IKCP_OVERHEAD + seg_len s ≤ mtu (k_conf k)) buf →
  ∃ ds, out_ok (mtu (k_conf k)) (fl_out (flush_segs k wnd buf st).2) (gs ++ ds) ∧
    ident <$> (flush_segs k wnd buf st).1 = ident <$> buf ∧
    (∀ d, d ∈ ds → ident d ∈ ident <$> buf ∧ stamped k wnd d) ∧
    (∀ s, s ∈ buf → due (k_clk k) s → ident s ∈ ident <$> ds).
Proof.
  revert st gs; induction buf as [|s buf IH]; intros st gs Ho Hl; cbn [flush_segs].
  { exists []. rewrite app_nil_r. split_and!; [done|done|set_solver|set_solver]. }
  apply Forall_cons in Hl as [Hl1 Hl]. destruct (resend (k_conf k) (k_clk k) s st) as [[s1 st1]|] eqn:E.
  - destruct (resend_ident _ _ _ _ _ _ E) as [Hid Hout].
    assert (Hlen : seg_len s1 = seg_len s) by (unfold ident, payload in Hid; unfold seg_len; congruence).
    destruct (send_seg_spec k wnd s1 st1 gs) as (Ho2 & Hid2 & Hst); [by rewrite Hout|by rewrite Hlen|].
    destruct (send_seg k wnd s1 st1) as [s2 st2]. cbn [fst snd] in *.
    destruct (IH st2 _ Ho2 Hl) as (ds & H1 & H2 & H3 & H4). destruct (flush_segs k wnd buf st2) as [buf' st'].
    exists (s2 :: ds). cbn [fst snd] in *. rewrite <- app_assoc in H1. split_and!; [exact H1| | |].
    + by rewrite !fmap_cons, H2, Hid2, Hid.
    + intros d [->|Hd]%elem_of_cons; [split; [|done]; rewrite fmap_cons, Hid2, Hid; left|].
      destruct (H3 d Hd) as [Hin ?]. split; [rewrite fmap_cons; by right|done].
    + intros x [->|Hx]%elem_of_cons Hz; rewrite fmap_cons; [rewrite Hid2, Hid; left|right; auto].
  - destruct (IH st _ Ho Hl) as (ds & H1 & H2 & H3 & H4). destruct (flush_segs k wnd buf st) as [buf' st'].
    exists ds. cbn [fst snd] in *. split_and!; [exact H1|by rewrite !fmap_cons, H2| |].
    + intros d Hd. destruct (H3 d Hd) as [Hin ?]. split; [rewrite fmap_cons; by right|done].
    + intros x [->|Hx]%elem_of_cons Hz; [|auto]. destruct (resend_due (k_conf k) (k_clk k) s st Hz). congruence.
Qed.

(** The control segments of a flush. *)
Definition control (k : ikcpcb) (d : IKCPSEG) : Prop :=
  ∃ cmd a, d = control_seg k cmd a.1 a.2 ∧ (cmd = IKCP_CMD_ACK ∨ cmd = IKCP_CMD_WASK ∨ cmd = IKCP_CMD_WINS) ∧
    (a ∈ acklist (k_rcv k) ∨ cmd ≠ IKCP_CMD_ACK ∧ a = (0, 0)).

Lemma flush_acks_spec k :
  IKCP_OVERHEAD ≤ mtu (k_conf k) →
  ∃ gs, out_ok (mtu (k_conf k)) (flush_acks k).1 gs ∧ (∀ d, d ∈ gs → control k d) ∧
    (∀ a, a ∈ acklist (k_rcv k) → control_seg k IKCP_CMD_ACK a.1 a.2 ∈ gs) ∧
    ((flush_acks k).2 ∈ acklist (k_rcv k) ∨ (flush_acks k).2 = (0, 0)).
Proof.
  intros Hm. unfold flush_acks. cbn [fst snd].
  exists ((λ a, control_seg k IKCP_CMD_ACK a.1 a.2) <$> acklist (k_rcv k)). split_and!.
  - assert (H : ∀ o gs l, out_ok (mtu (k_conf k)) o gs → out_ok (mtu (k_conf k))
      (foldl (λ o a, put_seg (mtu (k_conf k)) o (control_seg k IKCP_CMD_ACK a.1 a.2)) o l)
      (gs ++ ((λ a, control_seg k IKCP_CMD_ACK a.1 a.2) <$> l))).
    { intros o gs l; revert o gs; induction l as [|a l IH]; intros o gs Ho; [by rewrite app_nil_r|].
      cbn [foldl fmap list_fmap]. rewrite cons_middle, app_assoc. by apply IH, out_ok_put_seg. }
    apply (H _ []). exists [], []. split_and!; try done. cbn. unfold IKCP_OVERHEAD in Hm. lia.
  - intros d (a & -> & Ha)%list_elem_of_fmap. exists IKCP_CMD_ACK, a. auto.
  - intros a Ha. apply list_elem_of_fmap. eauto.
  - destruct (last (acklist (k_rcv k))) as [a|] eqn:E; [left|by right]. apply last_Some in E as [l ->]. cbn. set_solver.
Qed.

Lemma flush_cmd_spec k ask cmd a o gs (P : IKCPSEG → Prop) :
  IKCP_OVERHEAD ≤ mtu (k_conf k) → out_ok (mtu (k_conf k)) o gs → (∀ d, d ∈ gs → P d) →
  P (control_seg k cmd a.1 a.2) →
  ∃ gs', gs `prefix_of` gs' ∧ out_ok (mtu (k_conf k)) (flush_cmd k ask cmd a o) gs' ∧ (∀ d, d ∈ gs' → P d).
Proof.
  intros Hm Ho Hp Hc. unfold flush_cmd. destruct (negb _).
  - exists (gs ++ [control_seg k cmd a.1 a.2]). split_and!; [by apply prefix_app_r|by apply out_ok_put_seg|].
    intros d [Hd|Hd]%elem_of_app; [auto|]. by apply list_elem_of_singleton in Hd as ->.
  - by exists gs.
Qed.

(** The window, time and state updates at the end of a flush leave the segments alone. *)
Lemma flush_cwnd_trims gone m r cw lost change s : trims gone s (flush_cwnd m r cw lost change s).
Proof. unfold flush_cwnd. repeat case_match; by apply trims_same. Qed.

(** What a flush does: the new state of the sender, and the segments in the datagrams. *)
Record flushed (cs sent : list (list (Z * bytes))) (n n' : Z) (k k' : ikcpcb) (outs : list (list IKCPSEG)) : Prop := {
  fd_le : n ≤ n';
  fd_conf : k_conf k' = k_conf k;
  fd_sender : sender (k_conf k) cs sent n' (k_snd k');
  fd_no_loss : ∀ got, no_loss n got (snd_buf (k_snd k)) → no_loss n' got (snd_buf (k_snd k'));
  fd_rcv : k_rcv k' = mkRcv (rcv_nxt (k_rcv k)) (rcv_queue (k_rcv k)) (rcv_buf (k_rcv k)) (nrcv_que (k_rcv k))
             (nrcv_buf (k_rcv k)) [] (ackblock (k_rcv k));
  fd_mtu : Forall (λ g, g ≠ [] ∧ Z.of_nat (length (packet g)) ≤ mtu (k_conf k)) outs;
  fd_segs : ∀ d, d ∈ mjoin outs →
    control k d ∨ (ident d ∈ ident <$> snd_buf (k_snd k') ∧ stamped k (ikcp_wnd_unused k) d);
  fd_acks : ∀ a, a ∈ acklist (k_rcv k) → control_seg k IKCP_CMD_ACK a.1 a.2 ∈ mjoin outs;
  fd_due : Forall (due (k_clk k)) (snd_buf (k_snd k)) → ∀ i, 0 ≤ i < n' → unsigned32 i ∈ seg_sn <$> snd_buf (k_snd k') →
    ∃ d, d ∈ mjoin outs ∧ seg_cmd d = IKCP_CMD_PUSH ∧ carries (numbered cs) d i;
  fd_clock : current (k_clk k') = current (k_clk k)
}.

(** The buffer's segments fit a datagram. *)
Lemma sender_fits f cs sent n s :
  conf_ok f → sender f cs sent n s → Forall (λ x, IKCP_OVERHEAD + seg_len x ≤ mtu f) (snd_buf s).
Proof.
  intros Hf Hs. apply Forall_forall. intros x Hx.
  destruct (se_buf _ _ _ _ _ Hs (ident x)) as (i & pl & _ & E & _ & Hl); [apply list_elem_of_fmap; eauto|].
  injection E as _ _ _ <-. cbn in Hl. rewrite (co_mss _ Hf) in Hl. unfold seg_len. lia.
Qed.

Lemma sender_unique f cs sent n s x i :
  sender f cs sent n s → n ≤ 2 ^ 32 → x ∈ snd_buf s → 0 ≤ i < n → seg_sn x = unsigned32 i →
  seg_cmd x = IKCP_CMD_PUSH ∧ carries (numbered cs) x i.
Proof.
  intros Hs Hn Hx Hi Hsn. destruct (se_buf _ _ _ _ _ Hs (ident x)) as (j & pl & Hj & E & Hpl & _); [apply list_elem_of_fmap; eauto|].
  injection E as _ Hc Hsn' <-. rewrite Hsn in Hsn'. apply unsigned32_inj in Hsn'; [|lia]. subst j. by split.
Qed.

(** The first part of a flush: acknowledgements and probes. *)
Lemma flush_control_spec k k1 :
  IKCP_OVERHEAD ≤ mtu (k_conf k) → k_conf k1 = k_conf k →
  (∀ cmd sn ts, control_seg k1 cmd sn ts = control_seg k cmd sn ts) →
  ∃ gs, out_ok (mtu (k_conf k))
      (flush_cmd k1 IKCP_ASK_TELL IKCP_CMD_WINS (flush_acks k).2
         (flush_cmd k1 IKCP_ASK_SEND IKCP_CMD_WASK (flush_acks k).2 (flush_acks k).1)) gs ∧
    (∀ d, d ∈ gs → control k d) ∧ (∀ a, a ∈ acklist (k_rcv k) → control_seg k IKCP_CMD_ACK a.1 a.2 ∈ gs).
Proof.
  intros Hm Hk Hc. destruct (flush_acks_spec k Hm) as (gs & Ho & Hg & Hga & Hat).
  destruct (flush_acks k) as [o a]. cbn [fst snd] in *. rewrite <- Hk in Hm, Ho |- *.
  assert (Hctl : ∀ cmd, cmd = IKCP_CMD_WASK ∨ cmd = IKCP_CMD_WINS → control k (control_seg k1 cmd a.1 a.2)).
  { intros cmd Hcmd. rewrite Hc. exists cmd, a. split; [done|]. split; [tauto|]. destruct Hat as [|Ha]; [by left|right].
    split; [destruct Hcmd as [->| ->]; done|done]. }
  destruct (flush_cmd_spec k1 IKCP_ASK_SEND IKCP_CMD_WASK a o gs (control k) Hm Ho Hg) as (gs1 & Hp1 & Ho1 & Hg1); [by apply Hctl; auto|].
  destruct (flush_cmd_spec k1 IKCP_ASK_TELL IKCP_CMD_WINS a _ gs1 (control k) Hm Ho1 Hg1) as (gs2 & Hp2 & Ho2 & Hg2); [by apply Hctl; auto|].
  exists gs2. split_and!; [done|done|]. intros b Hb. destruct Hp1 as [x1 ->], Hp2 as [x2 ->]. rewrite !elem_of_app. auto.
Qed.

(** The second part: numbering, sending what is due, and the rest of the buffer. *)
Lemma flush_data_spec cs sent n k wnd cw st gs :
  conf_ok (k_conf k) → sender (k_conf k) cs sent n (k_snd k) → Z.of_nat (length (mjoin sent)) ≤ 2 ^ 31 →
  out_ok (mtu (k_conf k)) (fl_out st) gs →
  let s1 := fill_window k wnd cw (snd_queue (k_snd k)) (k_snd k) in
  ∃ n' outs ds, n ≤ n' ∧ sender (k_conf k) cs sent n' s1 ∧
    (∀ got, no_loss n got (snd_buf (k_snd k)) → no_loss n' got (snd_buf s1)) ∧
    ident <$> (flush_segs k wnd (snd_buf s1) st).1 = ident <$> snd_buf s1 ∧
    ob_out (ikcp_output (fl_out (flush_segs k wnd (snd_buf s1) st).2)) = packet <$> outs ∧ mjoin outs = gs ++ ds ∧
    Forall (λ g, g ≠ [] ∧ Z.of_nat (length (packet g)) ≤ mtu (k_conf k)) outs ∧
    (∀ d, d ∈ ds → ident d ∈ ident <$> snd_buf s1 ∧ stamped k wnd d) ∧
    (Forall (due (k_clk k)) (snd_buf (k_snd k)) → ∀ i, 0 ≤ i < n' → unsigned32 i ∈ seg_sn <$> snd_buf s1 →
      ∃ d, d ∈ ds ∧ seg_cmd d = IKCP_CMD_PUSH ∧ carries (numbered cs) d i).
Proof.
  intros Hf Hs Hn Ho s1. assert (Hm : 0 ≤ mtu (k_conf k)) by (pose proof (co_mtu _ Hf); unfold IKCP_OVERHEAD in *; lia).
  destruct (fill_window_spec (k_conf k) cs sent k wnd cw (snd_queue (k_snd k)) n (k_snd k) eq_refl Hs eq_refl)
    as (n' & new & Hle & Hs' & Hb & Hx & Hi). fold s1 in Hs', Hb.
  destruct (flush_segs_spec k wnd (snd_buf s1) st gs Ho (sender_fits _ _ _ _ _ Hf Hs')) as (ds & Hod & Hid & Hd & Hd0).
  destruct (out_ok_output _ _ _ Hm Hod) as [(outs & segs & Hbuf & Hout & Hgs & Hall & _) Hnil].
  rewrite Hnil in Hbuf. symmetry in Hbuf. apply packet_nil in Hbuf as ->. rewrite app_nil_r in Hgs.
  exists n', outs, ds. split_and!; try done.
  - intros got Hl i Hin. rewrite Hb, fmap_app, elem_of_app. destruct (decide (i < n)); [|right; right; apply Hi; lia].
    destruct (Hl i ltac:(lia)); auto.
  - intros Hdue i Hin (x & Hsn & Hxs)%list_elem_of_fmap.
    assert (Hxd : due (k_clk k) x).
    { rewrite Hb, elem_of_app in Hxs. rewrite Forall_forall in Hx, Hdue. destruct Hxs as [Hxs|Hxs]; [by apply Hdue|left; by apply Hx]. }
    destruct (proj1 (list_elem_of_fmap _ _ _) (Hd0 x Hxs Hxd)) as (d & Hdx & Hdin).
    pose proof (se_n _ _ _ _ _ Hs') as Hn'. pose proof (se_n _ _ _ _ _ Hs) as Hn0.
    destruct (sender_unique _ _ _ _ _ x i Hs' ltac:(lia) Hxs ltac:(lia) (eq_sym Hsn)) as [Hcmd [Hc1 Hc2]].
    exists d. unfold ident in Hdx. injection Hdx as _ E1 E2 E3 E4. split_and!; [done|congruence|]. split; [congruence|].
    rewrite Hc2. unfold payload. congruence.
Qed.

Lemma flush_probe_current w c : current (with_probe 0 (flush_probe w c)) = current c.
Proof. unfold flush_probe. by repeat case_match. Qed.

Lemma flush_probe_due w c buf : Forall (due c) buf → Forall (due (with_probe 0 (flush_probe w c))) buf.
Proof. intros H. eapply Forall_impl; [exact H|]. intros s. unfold due. by rewrite flush_probe_current. Qed.

Lemma flush_spec cs sent n k :
  conf_ok (k_conf k) → sender (k_conf k) cs sent n (k_snd k) → Z.of_nat (length (mjoin sent)) ≤ 2 ^ 31 →
  updated (k_clk k) ≠ 0 →
  ∃ k' n' outs, ikcp_flush k = (k', packet <$> outs) ∧ flushed cs sent n n' k k' outs.
Proof.
  intros Hf Hs Hn Hu. unfold ikcp_flush. rewrite (proj2 (Z.eqb_neq _ _) Hu). set (k1 := with_clk (flush_probe _ _) _).
  destruct (flush_control_spec k k1) as (gs & Ho & Hg & Hga); [pose proof (co_mtu _ Hf); lia|done|done|].
  destruct (flush_acks k) as [o a]. cbn [fst snd] in *. set (k2 := with_clk (with_probe 0 (k_clk k1)) k1).
  set (cw := if nocwnd (k_conf k) =? 0 then _ else _). set (st0 := mkFlush _ _ _ _ _).
  destruct (flush_data_spec cs sent n k2 (ikcp_wnd_unused k) cw st0 gs Hf Hs Hn Ho)
    as (n' & outs & ds & Hle & Hs' & Hl & Hid & Hout & Hgs & Hall & Hd & Hnew).
  set (s1 := fill_window k2 _ cw _ _) in *. destruct (flush_segs k2 _ (snd_buf s1) st0) as [buf st]. cbn [fst snd] in *.
  set (s2 := mkSnd _ _ _ _ _ _ _ _ _ _ _ _). set (s3 := flush_cwnd _ _ _ _ _ s2).
  assert (Hid3 : ident <$> snd_buf s3 = ident <$> snd_buf s1).
  { subst s3. unfold flush_cwnd. repeat case_match; exact Hid. }
  assert (T : trims (λ _, False) s1 s3) by (eapply trims_trans; [|apply flush_cwnd_trims]; by apply trims_same).
  exists (with_snd s3 k2), n', outs. split; [by rewrite Hout|]. split; try done.
  - by eapply sender_trims.
  - intros got H i Hi. cbn [with_snd k_snd]. rewrite (ident_sn _ _ Hid3). by apply Hl.
  - intros d Hin. rewrite Hgs, elem_of_app in Hin. destruct Hin as [Hin|Hin]; [auto|right]. destruct (Hd d Hin) as [H1 H2].
    cbn [with_snd k_snd]. rewrite Hid3. split; [done|]. destruct H2 as (? & H2 & ?). split_and!; [done| |done].
    rewrite H2. apply flush_probe_current.
  - intros b Hb. rewrite Hgs, elem_of_app. auto.
  - intros Hdue i Hi Hsn. cbn [with_snd k_snd] in Hsn. rewrite (ident_sn _ _ Hid3) in Hsn.
    destruct (Hnew (flush_probe_due _ _ _ Hdue) i Hi Hsn) as (d & H1 & H2). exists d. rewrite Hgs, elem_of_app. auto.
  - apply flush_probe_current.
Qed.
