(* ===== verification/IkcpLink.v ===== *)
(** * Two KCP endpoints over an unreliable network

    Both sides send and receive. The network hands over any datagram that was ever
    output, in any order and any number of times, or never. *)

From Stdlib Require Import Sorting.Sorted.
From S2P Require Import Prelude Ikcp IkcpWire IkcpRecv IkcpSend.

(** ** Segments on the wire *)

(** The segment [i] has arrived. *)
Definition received (nxt : Z) (l : list Z) (i : Z) : Prop := i < nxt ∨ i ∈ l.

Lemma received_advances nxt l nxt' l' i : advances nxt l nxt' l' → received nxt l i → received nxt' l' i.
Proof. intros [H1 H2] [H|H]; [left; lia|]. destruct (H2 i H); [by left|by right]. Qed.

Lemma advances_trans n1 l1 n2 l2 n3 l3 : advances n1 l1 n2 l2 → advances n2 l2 n3 l3 → advances n1 l1 n3 l3.
Proof. intros [H1 H2] [H3 H4]. split; [lia|]. intros i Hi. destruct (H2 i Hi); [left; lia|auto]. Qed.

(** A number acknowledged: it fits 31 bits and has arrived. *)
Definition acked (nxt : Z) (l : list Z) (sn : Z) : Prop :=
  ∃ i, 0 ≤ i < 2 ^ 31 ∧ sn = unsigned32 i ∧ received nxt l i.

(** What an endpoint that sends [cs] and has received up to [nxt] and [l] may output. *)
Record wire_seg (cs : list (list (Z * bytes))) (c nxt : Z) (l : list Z) (s : IKCPSEG) : Prop := {
  ws_acceptable : acceptable c s;
  ws_push : seg_cmd s = IKCP_CMD_PUSH → ∃ i, carries (numbered cs) s i;
  ws_una : ∃ u, 0 ≤ u ≤ nxt ∧ seg_una s = unsigned32 u;
  ws_ack : seg_cmd s = IKCP_CMD_ACK → acked nxt l (seg_sn s)
}.

Lemma acked_advances nxt l nxt' l' sn : advances nxt l nxt' l' → acked nxt l sn → acked nxt' l' sn.
Proof. intros Ha (i & ? & ? & ?). exists i. split_and!; [lia|lia|done|]. by eapply received_advances. Qed.

Lemma wire_seg_advances cs c nxt l nxt' l' s :
  advances nxt l nxt' l' → wire_seg cs c nxt l s → wire_seg cs c nxt' l' s.
Proof.
  intros Ha [H1 H2 (u & Hu & Eu) H4]. split; [done|done| |].
  - exists u. destruct Ha. split; [lia|done].
  - intros E. by eapply acked_advances, H4.
Qed.

(** A datagram of such segments. *)
Definition gram (f : kcp_conf) (cs : list (list (Z * bytes))) (nxt : Z) (l : list Z) (d : bytes) : Prop :=
  ∃ g, d = packet g ∧ g ≠ [] ∧ Z.of_nat (length d) ≤ mtu f ∧ Forall (wire_seg cs (conv f) nxt l) g.

Lemma gram_advances f cs nxt l nxt' l' d : advances nxt l nxt' l' → gram f cs nxt l d → gram f cs nxt' l' d.
Proof.
  intros Ha (g & -> & Hg & Hm & Hs). exists g. split_and!; [done|done|done|]. eapply Forall_impl; [exact Hs|].
  intros s. by apply wire_seg_advances.
Qed.

(** ** An endpoint *)

Definition few (cs : list (list (Z * bytes))) : Prop := Forall chunk_ok cs ∧ Z.of_nat (length (mjoin cs)) < 2 ^ 31.

(** It sends [cs], of which [sent] are queued and [n] segments numbered; [j] messages of
    the peer's [ds] have been handed over. *)
Record endpoint (f : kcp_conf) (cs sent ds : list (list (Z * bytes))) (n : Z) (j : nat) (nxt : Z) (l : list Z)
    (k : ikcpcb) : Prop := {
  ep_conf : k_conf k = f;
  ep_sender : sender f cs sent n (k_snd k);
  ep_receiver : receiver ds j nxt l k;
  ep_acks : Forall (λ a, acked nxt l a.1 ∧ word 32 a.2) (acklist (k_rcv k));
  ep_clock : word 32 (current (k_clk k))
}.

Lemma numbered_bound cs i pl : few cs → numbered cs i = Some pl → 0 ≤ i < 2 ^ 31.
Proof.
  intros [_ Hn]. unfold numbered. destruct (i <? 0) eqn:E; [done|]. apply Z.ltb_ge in E.
  intros H%lookup_lt_Some. lia.
Qed.

Lemma receiver_bound cs j nxt l k : few cs → receiver cs j nxt l k → 0 ≤ nxt < 2 ^ 31.
Proof.
  intros [_ Hn] [_ Hi _]. destruct (queue_payload _ _ _ _ _ _ Hi) as [Hp Hl].
  pose proof (ri_order _ _ _ _ _ _ Hi). apply (f_equal length) in Hp.
  rewrite length_fmap, length_take, Hl in Hp. rewrite (join_split cs j), length_app in Hn. unfold pos in *. lia.
Qed.

Lemma chunked_frg c : chunked c → Forall (λ p, 0 ≤ p.1 < Z.of_nat (length c)) c.
Proof.
  induction 1 as [d|d c Hc IH]; repeat constructor; cbn; try lia. eapply Forall_impl; [exact IH|]. cbn. lia.
Qed.

Lemma numbered_frg cs i pl : Forall chunk_ok cs → numbered cs i = Some pl → 0 ≤ pl.1 < IKCP_WND_RCV.
Proof.
  intros Hcs. unfold numbered. destruct (i <? 0); [done|]. intros H%list_elem_of_lookup_2.
  apply list_elem_of_join in H as (c & Hin & Hc). rewrite Forall_forall in Hcs. destruct (Hcs c Hc) as [H1 H2].
  apply chunked_frg in H1. rewrite Forall_forall in H1. specialize (H1 pl Hin). cbn in H1. lia.
Qed.

(** *** Data coming in *)

Lemma acklist_parse_data wnd r s : acklist (ikcp_parse_data wnd r s) = acklist r.
Proof. unfold ikcp_parse_data. destruct (_ || _); [done|]. rewrite acklist_move. by destruct (insert_from_tail _ _). Qed.

Lemma rcv_inv_ack_push src wnd from nxt l r sn ts :
  rcv_inv src wnd from nxt l r → rcv_inv src wnd from nxt l (ikcp_ack_push r sn ts).
Proof. by intros []. Qed.

(** The segment [i] is acknowledged only once it has arrived. *)
Lemma input_push_spec cs j nxt l k s i :
  few cs → 0 < rcv_wnd (k_conf k) < 2 ^ 16 → receiver cs j nxt l k → carries (numbered cs) s i → word 32 (seg_ts s) →
  Forall (λ a, acked nxt l a.1 ∧ word 32 a.2) (acklist (k_rcv k)) →
  let k' := input_push k (header_of s) (seg_data s) in
  ∃ nxt' l', advances nxt l nxt' l' ∧ receiver cs j nxt' l' k' ∧
    Forall (λ a, acked nxt' l' a.1 ∧ word 32 a.2) (acklist (k_rcv k')) ∧
    (i < nxt + rcv_wnd (k_conf k) → received nxt' l' i).
Proof.
  intros Hfew Hw Hrc Hc Hts Hacks. cbv zeta. pose proof (receiver_bound _ _ _ _ _ Hfew Hrc) as Hnxt.
  pose proof Hc as [Hsn Hpl]. pose proof (numbered_bound _ _ _ Hfew Hpl) as Hi. destruct Hrc as [Hw' Hinv Hset].
  assert (Hid : advances nxt l nxt l) by (split; [lia|auto]).
  unfold input_push. cbn [hd_sn hd_ts hd_len hd_conv hd_cmd hd_frg hd_wnd hd_una header_of].
  destruct (itimediff _ _ <? 0) eqn:E; [apply Z.ltb_lt in E|apply Z.ltb_ge in E]; cycle 1.
  { exists nxt, l. split_and!; [done|by split|done|]. intros Hlt. left. rewrite (ri_nxt _ _ _ _ _ _ Hinv), Hsn in E.
    replace (unsigned32 (unsigned32 nxt + rcv_wnd (k_conf k))) with (unsigned32 (nxt + rcv_wnd (k_conf k))) in E by wrap_eq.
    destruct (decide (i < nxt)); [done|]. rewrite itimediff_abs in E by lia. lia. }
  assert (Hlt : i < nxt + rcv_wnd (k_conf k)).
  { rewrite (ri_nxt _ _ _ _ _ _ Hinv), Hsn in E.
    replace (unsigned32 (unsigned32 nxt + rcv_wnd (k_conf k))) with (unsigned32 (nxt + rcv_wnd (k_conf k))) in E by wrap_eq.
    destruct (decide (i < nxt + rcv_wnd (k_conf k))); [done|]. rewrite itimediff_abs in E by lia. lia. }
  set (r1 := ikcp_ack_push (k_rcv k) (seg_sn s) (seg_ts s)).
  assert (Hinv1 : rcv_inv (numbered cs) (rcv_wnd (k_conf k)) (pos cs j) nxt l r1) by (by apply rcv_inv_ack_push).
  assert (Hset1 : settled (rcv_wnd (k_conf k)) r1) by done.
  assert (Hack : ∀ nxt' l', advances nxt l nxt' l' → (i < nxt' ∨ i ∈ l') →
    Forall (λ a, acked nxt' l' a.1 ∧ word 32 a.2) (acklist r1)).
  { intros nxt' l' Ha Hr. subst r1. cbn [ikcp_ack_push acklist]. apply Forall_app. split.
    - eapply Forall_impl; [exact Hacks|]. intros a [H1 H2]. split; [by eapply acked_advances|done].
    - constructor; [|done]. split; [|done]. exists i. by split_and!; [lia|lia| |]. }
  change (rcv_nxt r1) with (rcv_nxt (k_rcv k)). rewrite (ri_nxt _ _ _ _ _ _ Hinv), Hsn, itimediff_abs by lia.
  unfold seg_len. rewrite Nat2Z.id, take_ge by done. set (s' := mkSeg _ _ _ _ _ _ _ _ _ _ _ _).
  destruct (0 <=? i - nxt) eqn:E2; [apply Z.leb_le in E2|apply Z.leb_gt in E2].
  - destruct (parse_data_inv _ _ Hw' _ _ _ _ s' i Hinv1 Hset1) as (nxt' & l' & Ha & Hr & Hinv' & Hset'); [|lia|].
    { split; [done|]. rewrite Hpl. done. }
    exists nxt', l'. split_and!; [done|by split| |auto]. cbn [with_rcv k_rcv]. rewrite acklist_parse_data. auto.
  - exists nxt, l. split_and!; [done|by split| |by left; lia]. apply Hack; [done|left; lia].
Qed.

(** A data segment of the window has arrived. *)
Definition arrived (ds : list (list (Z * bytes))) (top nxt : Z) (l : list Z) (s : IKCPSEG) : Prop :=
  ∀ i, seg_cmd s = IKCP_CMD_PUSH → carries (numbered ds) s i → i < top → received nxt l i.

Lemma arrived_advances ds top nxt l nxt' l' s : advances nxt l nxt' l' → arrived ds top nxt l s → arrived ds top nxt' l' s.
Proof. intros Ha H i H1 H2 H3. eapply received_advances; [exact Ha|]. by apply H. Qed.

(** *** One segment *)

Section Endpoint.
Context (f : kcp_conf) (cs ds : list (list (Z * bytes))) (Hf : conf_ok f) (Hcs : few cs) (Hds : few ds).

Lemma conf_wnd : 0 < rcv_wnd f < 2 ^ 16.
Proof using Hf. pose proof (co_wnd _ Hf). unfold IKCP_WND_RCV in *. lia. Qed.

Lemma sender_bound sent n s : sender f cs sent n s → 0 ≤ n < 2 ^ 31.
Proof using Hcs.
  intros [[rest ->] Hn _ _ _ _]. destruct Hcs as [_ Hc]. rewrite join_app, length_app in Hc. lia.
Qed.

(** The receiving side of an endpoint, after an input that may have changed the rest. *)
Lemma receiver_same j nxt l k k' : k_conf k' = k_conf k → k_rcv k' = k_rcv k → receiver ds j nxt l k → receiver ds j nxt l k'.
Proof. intros E1 E2 [H1 H2 H3]. split; by rewrite ?E1, ?E2. Qed.

Lemma clock_input_seg k fl h d : current (k_clk (input_seg k fl h d).1) = current (k_clk k).
Proof.
  unfold input_seg, input_ack, input_push, ikcp_update_ack. repeat case_match; simplify_eq; done.
Qed.

(** A segment of the peer, whose receiving side is at [pn] and [pl]. *)
Lemma feed_spec sent n j nxt l k fl s pn pl :
  endpoint f cs sent ds n j nxt l k → wire_seg ds (conv f) pn pl s → 0 ≤ pn < 2 ^ 31 →
  no_loss n (received pn pl) (snd_buf (k_snd k)) →
  ∃ nxt' l', advances nxt l nxt' l' ∧ endpoint f cs sent ds n j nxt' l' (feed (k, fl) s).1 ∧
    no_loss n (received pn pl) (snd_buf (k_snd (feed (k, fl) s).1)) ∧ arrived ds (nxt + rcv_wnd f) nxt' l' s.
Proof using Hf Hcs Hds.
  intros [Hk Hse Hre Hac Hcl] [[Hwo [Hcv Hkn]] Hpush (u & Hu & Eu) Hack] Hpn Hnl.
  pose proof (sender_bound _ _ _ Hse) as Hn. unfold feed. cbn [fst snd].
  assert (T : trims (acked pn pl) (k_snd k) (k_snd (input_seg k fl (header_of s) (seg_data s)).1)).
  { apply input_seg_trims; [|done]. cbn [hd_una header_of]. intros sn Hsn Hlt.
    apply list_elem_of_fmap in Hsn as (x & -> & Hx).
    destruct (se_buf _ _ _ _ _ Hse (ident x)) as (i & p & Hi & Ei & _); [apply list_elem_of_fmap; eauto|].
    injection Ei as _ _ Esn _. rewrite Esn, Eu, itimediff_abs in Hlt by lia.
    exists i. split_and!; [lia|lia|done|left; lia]. }
  assert (Hrest : ∃ nxt' l', advances nxt l nxt' l' ∧ receiver ds j nxt' l' (input_seg k fl (header_of s) (seg_data s)).1 ∧
    Forall (λ a, acked nxt' l' a.1 ∧ word 32 a.2) (acklist (k_rcv (input_seg k fl (header_of s) (seg_data s)).1)) ∧
    arrived ds (nxt + rcv_wnd f) nxt' l' s).
  { unfold input_seg. set (k1 := with_snd _ k). assert (Hre1 : receiver ds j nxt l k1) by (by apply (receiver_same _ _ _ k)).
    cbn [hd_cmd header_of]. destruct (seg_cmd s =? IKCP_CMD_PUSH) eqn:E1.
    - apply Z.eqb_eq in E1. rewrite E1. cbn [Z.eqb IKCP_CMD_PUSH IKCP_CMD_ACK Pos.eqb fst]. destruct (Hpush E1) as [i Hi].
      destruct (input_push_spec ds j nxt l k1 s i) as (nxt' & l' & Ha & Hr & Hac' & Harr);
        [done|subst k1; cbn; rewrite Hk; apply conf_wnd|done|done|apply (wo_ts _ Hwo)|done|].
      exists nxt', l'. split_and!; [done|done|done|]. intros i' _ Hi' Hlt. replace i' with i; [apply Harr|];
        (assert (i = i') as -> by (apply unsigned32_inj; [|rewrite <- (proj1 Hi), <- (proj1 Hi'); done];
           pose proof (numbered_bound _ _ _ Hds (proj2 Hi)); pose proof (numbered_bound _ _ _ Hds (proj2 Hi')); lia));
        [subst k1; cbn; by rewrite Hk|done].
    - exists nxt, l. split; [split; [lia|auto]|]. apply Z.eqb_neq in E1. apply and_assoc. split; [|by intros ? ?]. unfold input_ack. repeat case_match; simplify_eq/=; try done;
        (split; [by apply (receiver_same _ _ _ k)|done]). }
  destruct Hrest as (nxt' & l' & Ha & Hre' & Hac' & Harr). exists nxt', l'. split_and!; [done| | |done].
  - split; [by rewrite conf_input_seg|by eapply sender_trims|done|done|by rewrite clock_input_seg].
  - eapply no_loss_trims; [|done|exact T]. intros i Hi (i' & Hi' & E & Hr). apply unsigned32_inj in E; [by subst|lia].
Qed.

(** *** The operations *)

Lemma feeds_spec segs sent n j nxt l k fl pn pl :
  endpoint f cs sent ds n j nxt l k → Forall (wire_seg ds (conv f) pn pl) segs → 0 ≤ pn < 2 ^ 31 →
  no_loss n (received pn pl) (snd_buf (k_snd k)) →
  ∃ nxt' l', advances nxt l nxt' l' ∧ endpoint f cs sent ds n j nxt' l' (foldl feed (k, fl) segs).1 ∧
    no_loss n (received pn pl) (snd_buf (k_snd (foldl feed (k, fl) segs).1)) ∧
    Forall (arrived ds (nxt + rcv_wnd f) nxt' l') segs.
Proof using Hf Hcs Hds.
  intros He Hs Hpn. revert nxt l k fl He; induction segs as [|s segs IH]; intros nxt l k fl He Hnl.
  { exists nxt, l. split_and!; [split; [lia|auto]|done|done|done]. }
  apply Forall_cons in Hs as [Hs1 Hs]. cbn [foldl].
  destruct (feed_spec _ _ _ _ _ _ fl _ _ _ He Hs1 Hpn Hnl) as (nxt1 & l1 & Ha1 & He1 & Hnl1 & Har1).
  destruct (feed (k, fl) s) as [k1 fl1]. destruct (IH Hs nxt1 l1 k1 fl1 He1 Hnl1) as (nxt2 & l2 & Ha2 & He2 & Hnl2 & Har2).
  exists nxt2, l2. split_and!; [by eapply advances_trans|done|done|]. constructor; [by eapply arrived_advances|].
  eapply Forall_impl; [exact Har2|]. intros x Hx i H1 H2 H3. apply Hx; [done|done|]. destruct Ha1. lia.
Qed.

(** A datagram of the peer. *)
Lemma input_spec segs sent n j nxt l k pn pl :
  endpoint f cs sent ds n j nxt l k → segs ≠ [] → Forall (wire_seg ds (conv f) pn pl) segs → 0 ≤ pn < 2 ^ 31 →
  no_loss n (received pn pl) (snd_buf (k_snd k)) →
  ∃ k' nxt' l', ikcp_input k (packet segs) = (0, k') ∧ advances nxt l nxt' l' ∧
    endpoint f cs sent ds n j nxt' l' k' ∧ no_loss n (received pn pl) (snd_buf (k_snd k')) ∧
    Forall (arrived ds (nxt + rcv_wnd f) nxt' l') segs.
Proof using Hf Hcs Hds.
  intros He Hne Hs Hpn Hnl. unfold ikcp_input.
  assert (Hlen : 24 ≤ Z.of_nat (length (packet segs))).
  { destruct segs as [|s segs]; [done|]. change (packet (s :: segs)) with (packet ([s] ++ segs)).
    rewrite packet_app, length_app, Nat2Z.inj_add, length_packet_one. unfold IKCP_OVERHEAD, seg_len. lia. }
  rewrite (proj2 (Z.ltb_ge _ _)) by (unfold IKCP_OVERHEAD; lia).
  rewrite input_loop_packet; [|rewrite (ep_conf _ _ _ _ _ _ _ _ _ He); eapply Forall_impl; [exact Hs|by intros ? []]|done].
  cbn [Z.eqb negb].
  destruct (feeds_spec _ _ _ _ _ _ _ (None : ack_seen) _ _ He Hs Hpn Hnl) as (nxt' & l' & Ha & He' & Hnl' & Har).
  change (@None (Z * Z)) with (None : ack_seen) in *.
  destruct (foldl feed (k, (None : ack_seen)) segs) as [k1 fl1]. cbn [fst snd] in *. do 3 eexists. split; [reflexivity|].
  set (s1 := match fl1 with Some (maxack, _) => ikcp_parse_fastack (k_snd k1) maxack | None => k_snd k1 end).
  assert (T : trims (λ _, False) (k_snd k1) (grow_cwnd (mss (k_conf k1)) (snd_una (k_snd k)) s1)).
  { eapply trims_trans; [|apply trims_cwnd]. subst s1. destruct fl1 as [[]|]; [apply trims_fastack|by apply trims_same]. }
  destruct He' as [H1 H2 H3 H4 H5]. split_and!; [exact Ha| | |exact Har].
  - split; [done|exact (sender_trims _ _ _ _ _ _ _ H2 T)|by apply (receiver_same _ _ _ k1)|done|done].
  - eapply no_loss_trims; [|exact Hnl'|exact T]. done.
Qed.

Lemma sender_send sent n s m segs c :
  sender f cs sent n s → sent ++ [cut f m] `prefix_of` cs → payload <$> segs = cut f m →
  sender f cs (sent ++ [cut f m]) n (with_snd_queue (snd_queue s ++ segs) c s).
Proof using Hf.
  intros [H1 H2 H3 H4 H5 H6] Hp Hs. assert (Hj : mjoin (sent ++ [cut f m]) = mjoin sent ++ cut f m).
  { rewrite join_app. cbn. by rewrite app_nil_r. }
  split; cbn [with_snd_queue snd_nxt snd_queue snd_buf]; [done| |done| | |done].
  - rewrite Hj, length_app. lia.
  - rewrite fmap_app, H4, Hs, Hj, drop_app_le by lia. done.
  - apply Forall_app. split; [done|]. pose proof (proj2 (cut_spec f m Hf)) as Hl. rewrite <- Hs, Forall_fmap in Hl. exact Hl.
Qed.

(** What a flush puts on the wire. *)
Lemma wnd_unused_word j nxt l k : k_conf k = f → receiver ds j nxt l k → word 16 (ikcp_wnd_unused k).
Proof using Hf.
  intros Hk [_ Hi _]. pose proof (ri_nque _ _ _ _ _ _ Hi) as [Hq _]. unfold ikcp_wnd_unused, word.
  rewrite Hk in *. pose proof (co_wnd _ Hf). unfold IKCP_WND_RCV in *. destruct (_ <? _) eqn:E; [apply Z.ltb_lt in E|]; lia.
Qed.

Lemma control_wire sent n j nxt l k d :
  endpoint f cs sent ds n j nxt l k → control k d → wire_seg cs (conv f) nxt l d.
Proof using Hf Hcs Hds.
  intros [Hk Hse Hre Hac Hcl] (cmd & a & -> & Hcmd & Ha). pose proof (receiver_bound _ _ _ _ _ Hds Hre) as Hnxt.
  assert (Haw : word 32 a.1 ∧ word 32 a.2 ∧ (cmd = IKCP_CMD_ACK → acked nxt l a.1)).
  { rewrite Forall_forall in Hac. destruct Ha as [Ha|[Hne ->]]; [|split_and!; by unfold word; cbn].
    destruct (Hac a Ha) as [Hk1 Hk2]. split_and!; [|done|done]. destruct Hk1 as (i & _ & -> & _). apply unsigned32_range. }
  destruct Haw as (H1 & H2 & H3). pose proof (wnd_unused_word _ _ _ _ Hk Hre) as Hw. destruct Hre as [_ Hi _].
  split; cbn [control_seg seg_cmd seg_una seg_sn].
  - split_and!; [|by cbn; rewrite Hk|by destruct Hcmd as [->|[->| ->]]]. split; cbn; try done.
    + rewrite Hk. apply (co_conv _ Hf).
    + by destruct Hcmd as [->|[->| ->]].
    + rewrite (ri_nxt _ _ _ _ _ _ Hi). apply unsigned32_range.
  - intros ->. by destruct Hcmd as [?|[?|?]].
  - exists nxt. split; [lia|apply (ri_nxt _ _ _ _ _ _ Hi)].
  - exact H3.
Qed.

Lemma data_wire sent n n' j nxt l k s d :
  endpoint f cs sent ds n j nxt l k → sender f cs sent n' s → ident d ∈ ident <$> snd_buf s →
  stamped k (ikcp_wnd_unused k) d → wire_seg cs (conv f) nxt l d.
Proof using Hf Hcs Hds.
  intros [Hk _ Hre Hac Hcl] Hse Hd (Hw & Ht & Hu). pose proof (receiver_bound _ _ _ _ _ Hds Hre) as Hnxt.
  destruct (se_buf _ _ _ _ _ Hse _ Hd) as (i & pl & Hi & E & Hpl & Hlen). unfold ident in E. injection E as E1 E2 E3 <-.
  pose proof (wnd_unused_word _ _ _ _ Hk Hre) as Hww. destruct Hre as [_ Hiv _]. rewrite (ri_nxt _ _ _ _ _ _ Hiv) in Hu.
  pose proof (mss_range _ Hf) as Hm. pose proof (numbered_frg _ _ _ (proj1 Hcs) Hpl) as Hfrg. split.
  - split_and!; [|done|by rewrite E2]. split.
    + rewrite E1. apply (co_conv _ Hf).
    + by rewrite E2.
    + unfold word, IKCP_WND_RCV in *. cbn in Hfrg. lia.
    + by rewrite Hw.
    + by rewrite Ht.
    + rewrite E3. apply unsigned32_range.
    + rewrite Hu. apply unsigned32_range.
    + unfold word, seg_len. cbn in Hlen. lia.
  - intros _. by exists i.
  - exists nxt. split; [lia|done].
  - by rewrite E2.
Qed.

Lemma flush_wire sent n n' j nxt l k k' outs d :
  endpoint f cs sent ds n j nxt l k → flushed cs sent n n' k k' outs → d ∈ mjoin outs → wire_seg cs (conv f) nxt l d.
Proof using Hf Hcs Hds.
  intros He Hfl Hd. pose proof (fd_sender _ _ _ _ _ _ _ Hfl) as Hs. rewrite (ep_conf _ _ _ _ _ _ _ _ _ He) in Hs.
  destruct (fd_segs _ _ _ _ _ _ _ Hfl d Hd) as [Hc|[Hi Hst]]; [by eapply control_wire|by eapply data_wire].
Qed.

Lemma flush_total sent n j nxt l k :
  endpoint f cs sent ds n j nxt l k → updated (k_clk k) ≠ 0 →
  ∃ k' n' outs, ikcp_flush k = (k', packet <$> outs) ∧ flushed cs sent n n' k k' outs.
Proof using Hf Hcs.
  intros [Hk Hse _ _ _] Hu. apply flush_spec; [by rewrite Hk|by rewrite Hk| |done].
  destruct (se_sent _ _ _ _ _ Hse) as [rest Hr]. destruct Hcs as [_ Hc]. rewrite Hr, join_app, length_app in Hc. lia.
Qed.

Lemma flush_endpoint sent n j nxt l k :
  endpoint f cs sent ds n j nxt l k → updated (k_clk k) ≠ 0 →
  ∃ k' n' outs, ikcp_flush k = (k', outs) ∧ endpoint f cs sent ds n' j nxt l k' ∧
    Forall (gram f cs nxt l) outs ∧
    (∀ got, no_loss n got (snd_buf (k_snd k)) → no_loss n' got (snd_buf (k_snd k'))).
Proof using Hf Hcs Hds.
  intros He Hu. destruct (flush_total _ _ _ _ _ _ He Hu) as (k' & n' & outs & E & Hfl).
  pose proof (λ d, flush_wire _ _ _ _ _ _ _ _ _ d He Hfl) as Hw. destruct He as [Hk Hse Hre Hac Hcl].
  destruct Hfl as [H1 H2 H3 H4 H5 H6 H7 H8 H9 H10]. exists k', n', (packet <$> outs). split_and!; [done| | |done].
  - split; [congruence|by rewrite <- Hk| |by rewrite H5|by rewrite H10].
    destruct Hre as [R1 R2 R3]. split; rewrite ?H2, ?H5; [done| |done]. by destruct R2.
  - apply Forall_fmap. rewrite Forall_forall in H6 |- *. intros g Hg. destruct (H6 g Hg) as [Hne Hm]. rewrite Hk in Hm.
    exists g. split_and!; [done|done|done|]. apply Forall_forall. intros d Hd. apply Hw, list_elem_of_join. eauto.
Qed.

(** Every segment in the buffer after a flush in which all were due is in one of the datagrams. *)
Lemma flush_covers sent n j nxt l k k' n' j' nxt' l' out i :
  endpoint f cs sent ds n j nxt l k → updated (k_clk k) ≠ 0 → Forall (due (k_clk k)) (snd_buf (k_snd k)) →
  ikcp_flush k = (k', out) → endpoint f cs sent ds n' j' nxt' l' k' → 0 ≤ i < n' →
  unsigned32 i ∈ seg_sn <$> snd_buf (k_snd k') →
  ∃ g d, packet g ∈ out ∧ Forall (acceptable (conv f)) g ∧ d ∈ g ∧ seg_cmd d = IKCP_CMD_PUSH ∧ carries (numbered cs) d i.
Proof using Hf Hcs Hds.
  intros He Hu Hdue E He' Hi Hin. destruct (flush_total _ _ _ _ _ _ He Hu) as (k2 & n2 & outs & E2 & Hfl).
  rewrite E in E2. injection E2 as <- ->. pose proof (fd_sender _ _ _ _ _ _ _ Hfl) as Hs2.
  rewrite (ep_conf _ _ _ _ _ _ _ _ _ He) in Hs2. pose proof (ep_sender _ _ _ _ _ _ _ _ _ He') as Hs1.
  assert (n2 = n') as ->.
  { pose proof (sender_bound _ _ _ Hs1). pose proof (sender_bound _ _ _ Hs2). apply unsigned32_inj; [lia|].
    by rewrite <- (se_nxt _ _ _ _ _ Hs1), <- (se_nxt _ _ _ _ _ Hs2). }
  destruct (fd_due _ _ _ _ _ _ _ Hfl Hdue i Hi Hin) as (d & Hd & Hcmd & Hcar).
  apply list_elem_of_join in Hd as (g & Hd & Hg). exists g, d. split_and!; [apply list_elem_of_fmap; eauto| |done|done|done].
  apply Forall_forall. intros x Hx. eapply ws_acceptable, flush_wire; [exact He|exact Hfl|]. apply list_elem_of_join. eauto.
Qed.

Lemma endpoint_clk sent n j nxt l k c :
  endpoint f cs sent ds n j nxt l k → word 32 (current c) → endpoint f cs sent ds n j nxt l (with_clk c k).
Proof. intros [H1 H2 [R1 R2 R3] H4 H5] Hc. by split. Qed.

Lemma flush_endpoint' sent n j nxt l k :
  endpoint f cs sent ds n j nxt l k →
  ∃ k' n' outs, ikcp_flush k = (k', outs) ∧ endpoint f cs sent ds n' j nxt l k' ∧
    Forall (gram f cs nxt l) outs ∧
    (∀ got, no_loss n got (snd_buf (k_snd k)) → no_loss n' got (snd_buf (k_snd k'))).
Proof using Hf Hcs Hds.
  intros He. destruct (decide (updated (k_clk k) = 0)) as [E|E]; [|by apply flush_endpoint].
  exists k, n, []. unfold ikcp_flush. rewrite E. by split_and!.
Qed.

Lemma update_endpoint sent n j nxt l k t :
  endpoint f cs sent ds n j nxt l k → word 32 t →
  ∃ k' n' outs, ikcp_update k t = (k', outs) ∧ endpoint f cs sent ds n' j nxt l k' ∧
    Forall (gram f cs nxt l) outs ∧
    (∀ got, no_loss n got (snd_buf (k_snd k)) → no_loss n' got (snd_buf (k_snd k'))).
Proof using Hf Hcs Hds.
  intros He Ht. unfold ikcp_update. destruct (if _ || _ then _ else _) as [flush slap].
  destruct (0 <=? slap).
  - match goal with |- context [ikcp_flush (with_clk ?c k)] => apply (flush_endpoint' sent n j nxt l (with_clk c k)) end.
    by apply endpoint_clk.
  - exists (with_clk (with_time t flush (if updated (k_clk k) =? 0 then 1 else updated (k_clk k)) (k_clk k)) k), n, [].
    split_and!; [done|by apply endpoint_clk|done|done].
Qed.

Lemma recv_endpoint sent n j nxt l k len :
  endpoint f cs sent ds n j nxt l k → 0 ≤ len →
  ∃ ret data k', ikcp_recv k len = Some (ret, data, k') ∧
    (ret < 0 ∧ k' = k ∨
     0 ≤ ret ∧ ∃ c nxt' l', ds !! j = Some c ∧ data = message c ∧ advances nxt l nxt' l' ∧
       endpoint f cs sent ds n (S j) nxt' l' k' ∧ k_snd k' = k_snd k).
Proof using Hf Hds.
  intros [H1 H2 H3 H4 H5] Hlen. pose proof (proj1 Hds) as Hok.
  assert (Hor : (∀ c, ds !! j = Some c → nxt < pos ds (S j)) ∨ ∃ c, ds !! j = Some c ∧ pos ds (S j) ≤ nxt).
  { destruct (ds !! j) as [c|]; [|by left]. destruct (decide (nxt < pos ds (S j))); [by left|right]. exists c. split; [done|lia]. }
  destruct Hor as [Hinc|(c & Hc & Hpos)].
  - destruct (recv_incomplete _ _ _ _ _ len Hok H3 Hinc) as (ret & Hr & E). exists ret, [], k. auto.
  - pose proof (recv_complete _ _ _ _ _ len _ Hok H3 Hc Hpos) as Hr. destruct (_ <? Z.of_nat _).
    { exists (-3), [], k. split; [done|left; split; [lia|done]]. }
    destruct Hr as (k' & nxt' & l' & E & E1 & E2 & E3 & E4 & Ha & Hr). rewrite (proj2 (Z.ltb_ge len 0)) in Hr by lia.
    do 3 eexists. split; [exact E|right]. split; [lia|]. exists c, nxt', l'. split_and!; [done|done|done| |done].
    split; [congruence|by rewrite E2|done| |by rewrite E4]. rewrite E3. eapply Forall_impl; [exact H4|].
    intros a [Hx Hy]. split; [by eapply acked_advances|done].
Qed.
End Endpoint.

(** ** The two sides *)

(** An endpoint, the datagrams it has output so far, the messages it has accepted from its
    user and the messages it has handed to its user. *)
Record side := mkSide { kcb : ikcpcb; wire : list bytes; s_sent : list bytes; s_got : list bytes }.

(** What one side does while the other is in state [peer]. *)
Inductive act (peer a : side) : side → Prop :=
| act_send m ret k :
    Z.of_nat (length m) < 2 ^ 31 → ikcp_send (kcb a) m (Z.of_nat (length m)) = Some (ret, k) →
    act peer a (mkSide k (wire a) (if ret =? 0 then s_sent a ++ [m] else s_sent a) (s_got a))
| act_update t k out :
    word 32 t → ikcp_update (kcb a) t = (k, out) → act peer a (mkSide k (wire a ++ out) (s_sent a) (s_got a))
| act_flush k out :
    ikcp_flush (kcb a) = (k, out) → act peer a (mkSide k (wire a ++ out) (s_sent a) (s_got a))
| act_input d ret k :
    d ∈ wire peer → ikcp_input (kcb a) d = (ret, k) → act peer a (mkSide k (wire a) (s_sent a) (s_got a))
| act_recv len ret data k :
    0 ≤ len → ikcp_recv (kcb a) len = Some (ret, data, k) →
    act peer a (mkSide k (wire a) (s_sent a) (if 0 <=? ret then s_got a ++ [data] else s_got a)).

Inductive link_step : side * side → side * side → Prop :=
| step_left a b a' : act b a a' → link_step (a, b) (a', b)
| step_right a b b' : act a b b' → link_step (a, b) (a, b').

Definition fresh (f : kcp_conf) : side := mkSide (with_conf f (ikcp_create (conv f))) [] [] [].

(** *** Running a schedule *)

Inductive action :=
| DoSend (m : bytes) | DoUpdate (t : Z) | DoInput (d : nat) | DoRecv (len : Z).

(** One action of [a]; [DoInput] names a datagram the peer has output. *)
Definition do_action (peer a : side) (e : action) : option side :=
  match e with
  | DoSend m =>
      if Z.of_nat (length m) <? 2 ^ 31 then
        '(ret, k) ← ikcp_send (kcb a) m (Z.of_nat (length m));
        Some (mkSide k (wire a) (if ret =? 0 then s_sent a ++ [m] else s_sent a) (s_got a))
      else None
  | DoUpdate t =>
      if (0 <=? t) && (t <? 2 ^ 32) then
        let '(k, out) := ikcp_update (kcb a) t in Some (mkSide k (wire a ++ out) (s_sent a) (s_got a))
      else None
  | DoInput i => d ← wire peer !! i; Some (mkSide (ikcp_input (kcb a) d).2 (wire a) (s_sent a) (s_got a))
  | DoRecv len =>
      if 0 <=? len then
        '(ret, data, k) ← ikcp_recv (kcb a) len;
        Some (mkSide k (wire a) (s_sent a) (if 0 <=? ret then s_got a ++ [data] else s_got a))
      else None
  end.

Fixpoint run (es : list (bool * action)) (st : side * side) : option (side * side) :=
  match es with
  | [] => Some st
  | (at_left, e) :: es =>
      if at_left : bool then a ← do_action st.2 st.1 e; run es (a, st.2) else b ← do_action st.1 st.2 e; run es (st.1, b)
  end.

Lemma do_action_act peer a e a' : do_action peer a e = Some a' → act peer a a'.
Proof.
  destruct e as [m|t|i|len]; cbn [do_action].
  - destruct (_ <? _) eqn:E; [|done]. apply Z.ltb_lt in E. destruct (ikcp_send _ _ _) as [[ret k]|] eqn:Es; [|done].
    intros [= <-]. by apply act_send.
  - destruct (_ && _) eqn:E; [|done]. apply andb_true_iff in E as [E1%Z.leb_le E2%Z.ltb_lt].
    destruct (ikcp_update _ _) as [k out] eqn:Eu. intros [= <-]. by eapply act_update.
  - destruct (wire peer !! i) as [d|] eqn:E; [|done]. intros [= <-].
    apply (act_input _ _ d (ikcp_input (kcb a) d).1); [by eapply list_elem_of_lookup_2|apply surjective_pairing].
  - destruct (0 <=? len) eqn:E; [|done]. apply Z.leb_le in E. destruct (ikcp_recv _ _) as [[[ret data] k]|] eqn:Er; [|done].
    intros [= <-]. by apply (act_recv _ _ len).
Qed.

Lemma run_reach es st st' : run es st = Some st' → rtc link_step st st'.
Proof.
  revert st; induction es as [|[at_left e] es IH]; intros [a b]; cbn [run fst snd]; [by intros [= <-]|].
  destruct at_left.
  - destruct (do_action b a e) as [a'|] eqn:E; [|done]. intros H. eapply rtc_l; [|by apply IH]. constructor. by eapply do_action_act.
  - destruct (do_action a b e) as [b'|] eqn:E; [|done]. intros H. eapply rtc_l; [|by apply IH]. constructor. by eapply do_action_act.
Qed.

(** Two messages, the second lost at first and the first duplicated, then acknowledged. *)
Definition conf1 : kcp_conf :=
  mkConf 7 IKCP_MTU_DEF (IKCP_MTU_DEF - IKCP_OVERHEAD) IKCP_WND_SND IKCP_WND_RCV 0 IKCP_INTERVAL IKCP_RTO_MIN 0
    IKCP_FASTACK_LIMIT 1 0 IKCP_DEADLINK.

Definition schedule1 : list (bool * action) :=
  [(true, DoSend (lit "hello")); (true, DoUpdate 0); (false, DoInput 0); (false, DoInput 0); (false, DoRecv 100);
   (true, DoSend (lit "world")); (true, DoUpdate 100); (true, DoUpdate 5000); (false, DoInput 2);
   (false, DoUpdate 5000); (true, DoInput 0)].

Definition link1 : side * side := default (fresh conf1, fresh conf1) (run schedule1 (fresh conf1, fresh conf1)).

Lemma conf1_ok : conf_ok conf1.
Proof. split; by unfold word; vm_compute. Qed.

Lemma link1_reach : rtc link_step (fresh conf1, fresh conf1) (link1.1, link1.2).
Proof. apply (run_reach schedule1). vm_compute. reflexivity. Qed.

(** A message whose only datagram was lost, at the time it is due again. *)
Definition schedule2 : list (bool * action) :=
  [(true, DoSend (lit "hello")); (true, DoUpdate 0); (true, DoUpdate 100); (true, DoUpdate 200); (true, DoUpdate 250)].

Definition link2 : side * side := default (fresh conf1, fresh conf1) (run schedule2 (fresh conf1, fresh conf1)).

Lemma link2_reach : rtc link_step (fresh conf1, fresh conf1) (link2.1, link2.2).
Proof. apply (run_reach schedule2). vm_compute. reflexivity. Qed.

Lemma link2_due : Forall (due (k_clk (kcb link2.1))) (snd_buf (k_snd (kcb link2.1))).
Proof.
  let b := eval vm_compute in (snd_buf (k_snd (kcb link2.1))) in
  assert (E : snd_buf (k_snd (kcb link2.1)) = b) by (vm_compute; reflexivity).
  rewrite E. constructor; [right; vm_compute; discriminate|constructor].
Qed.

(** *** The configuration and what is accepted *)

Lemma conf_input_loop fuel k fl d : k_conf (input_loop fuel k fl d).1.2 = k_conf k.
Proof.
  revert k fl d; induction fuel as [|fuel IH]; intros k fl d; cbn [input_loop]; [done|].
  destruct (_ <? _); [done|]. destruct (decode_header d) as [h rest]. repeat (destruct (negb _); [done|]).
  destruct (_ || _); [done|]. destruct (negb _); [done|].
  pose proof (conf_input_seg k fl h rest) as Hc. destruct (input_seg k fl h rest) as [k' fl']. by rewrite IH.
Qed.

Lemma conf_input k d : k_conf (ikcp_input k d).2 = k_conf k.
Proof.
  unfold ikcp_input. destruct (_ <? _); [done|]. pose proof (conf_input_loop (length d) k None d) as Hc.
  destruct (input_loop _ _ _ _) as [[r k'] fl]. cbn in Hc. by destruct (negb _).
Qed.

Lemma conf_flush k : k_conf (ikcp_flush k).1 = k_conf k.
Proof.
  unfold ikcp_flush. destruct (_ =? 0); [done|]. destruct (flush_acks k) as [o a]. cbv zeta.
  by destruct (flush_segs _ _ _ _).
Qed.

Lemma conf_update k t : k_conf (ikcp_update k t).1 = k_conf k.
Proof.
  unfold ikcp_update. destruct (if _ || _ then _ else _) as [flush slap]. destruct (0 <=? slap); [|done]. by rewrite conf_flush.
Qed.

Lemma conf_recv k len ret d k' : ikcp_recv k len = Some (ret, d, k') → k_conf k' = k_conf k.
Proof. unfold ikcp_recv. repeat case_match; intros; simplify_eq; done. Qed.

(** Every message accepted so far can be cut into fewer than 128 fragments. *)
Lemma act_sendable f peer a a' :
  conf_ok f → k_conf (kcb a) = f ∧ Forall (sendable f) (s_sent a) → act peer a a' →
  (k_conf (kcb a') = f ∧ Forall (sendable f) (s_sent a')) ∧ s_sent a `prefix_of` s_sent a'.
Proof.
  intros Hf [Hk Hs] H. inversion H as [m ret k Hm E|t k out Ht E|k out E|d ret k Hd E|len ret d k Hl E]; subst a'; cbn.
  - destruct (send_spec (kcb a) m) as [[Hn E']|(Hn & segs & c & E' & _)]; [by rewrite Hk|done| |]; rewrite E in E';
      injection E' as -> ->; cbn; [done|]. rewrite Hk in *. split; [split; [done|]|by apply prefix_app_r].
    apply Forall_app. by repeat constructor.
  - pose proof (conf_update (kcb a) t) as Hc. rewrite E in Hc. cbn in Hc. by rewrite Hc.
  - pose proof (conf_flush (kcb a)) as Hc. rewrite E in Hc. cbn in Hc. by rewrite Hc.
  - pose proof (conf_input (kcb a) d) as Hc. rewrite E in Hc. cbn in Hc. by rewrite Hc.
  - by rewrite (conf_recv _ _ _ _ _ E).
Qed.

(** *** The invariant of the link *)

(** [a] sends the messages [ms] in all and is to receive [pms]; [pn] and [pl] are what the
    peer has received. *)
Record side_inv (f pf : kcp_conf) (ms pms : list bytes) (n : Z) (j : nat) (nxt : Z) (l : list Z) (pn : Z) (pl : list Z)
    (a : side) : Prop := {
  si_ep : endpoint f (cut f <$> ms) (cut f <$> s_sent a) (cut pf <$> pms) n j nxt l (kcb a);
  si_loss : no_loss n (received pn pl) (snd_buf (k_snd (kcb a)));
  si_wire : Forall (gram f (cut f <$> ms) nxt l) (wire a);
  si_got : s_got a = take j pms
}.

Lemma wire_advances f cs nxt l nxt' l' ws :
  advances nxt l nxt' l' → Forall (gram f cs nxt l) ws → Forall (gram f cs nxt' l') ws.
Proof. intros Ha H. eapply Forall_impl; [exact H|]. intros d. by apply gram_advances. Qed.

(** The peer going on only helps. *)
Lemma side_inv_peer f pf ms pms n j nxt l pn pl pn' pl' a :
  advances pn pl pn' pl' → side_inv f pf ms pms n j nxt l pn pl a → side_inv f pf ms pms n j nxt l pn' pl' a.
Proof.
  intros Ha [H1 H2 H3 H4]. split; [done| |done|done]. intros i Hi. destruct (H2 i Hi); [left|by right].
  by eapply received_advances.
Qed.

Lemma advances_refl nxt l : advances nxt l nxt l.
Proof. split; [lia|auto]. Qed.

Section Act.
Context (f pf : kcp_conf) (ms pms : list bytes).
Context (Hf : conf_ok f) (Hpf : conf_ok pf) (Hconv : conv pf = conv f).
Context (Hms : few (cut f <$> ms)) (Hpms : few (cut pf <$> pms)).

Lemma act_inv peer a a' n j nxt l pn pl :
  side_inv f pf ms pms n j nxt l pn pl a → 0 ≤ pn < 2 ^ 31 →
  Forall (gram pf (cut pf <$> pms) pn pl) (wire peer) →
  s_sent a' `prefix_of` ms → act peer a a' →
  ∃ n' j' nxt' l', advances nxt l nxt' l' ∧ side_inv f pf ms pms n' j' nxt' l' pn pl a'.
Proof using Hf Hpf Hconv Hms Hpms.
  intros [He Hl Hw Hg] Hpn Hpw Hpre H.
  inversion H as [m ret k Hm E|t k out Ht E|k out E|d ret k Hd E|len ret d k Hlen E]; subst a'; cbn [s_sent] in Hpre.
  - pose proof (ep_conf _ _ _ _ _ _ _ _ _ He) as Hk. exists n, j, nxt, l. split; [apply advances_refl|].
    destruct (send_spec (kcb a) m) as [[_ E']|(_ & segs & c & E' & Hsegs)]; [by rewrite Hk|done| |];
      rewrite E in E'; injection E' as -> ->; cbn [Z.eqb] in *; [by split|].
    rewrite Hk in Hsegs. destruct He as [H1 H2 H3 H4 H5]. split; [|done|done|done]. cbn [s_sent kcb]. rewrite fmap_app.
    split; [done| |by apply (receiver_same _ _ _ _ (kcb a))|done|done].
    apply sender_send; [done|done| |done]. destruct Hpre as [rest ->]. exists (cut f <$> rest). by rewrite !fmap_app.
  - destruct (update_endpoint _ _ _ Hf Hms Hpms _ _ _ _ _ _ t He Ht) as (k' & n' & outs & E' & He' & Ho & Hl').
    rewrite E in E'. injection E' as -> ->. exists n', j, nxt, l. split; [apply advances_refl|].
    split; [done|by apply Hl'|by apply Forall_app|done].
  - destruct (flush_endpoint' _ _ _ Hf Hms Hpms _ _ _ _ _ _ He) as (k' & n' & outs & E' & He' & Ho & Hl').
    rewrite E in E'. injection E' as -> ->. exists n', j, nxt, l. split; [apply advances_refl|].
    split; [done|by apply Hl'|by apply Forall_app|done].
  - rewrite Forall_forall in Hpw. destruct (Hpw d Hd) as (g & -> & Hne & _ & Hs). rewrite Hconv in Hs.
    destruct (input_spec _ _ _ Hf Hms Hpms _ _ _ _ _ _ _ _ _ He Hne Hs Hpn Hl) as (k' & nxt' & l' & E' & Ha & He' & Hl' & _).
    rewrite E in E'. injection E' as -> ->. exists n, j, nxt', l'. split; [done|].
    split; [done|done|by eapply wire_advances|done].
  - destruct (recv_endpoint _ _ _ Hf Hpms _ _ _ _ _ _ len He Hlen) as (ret' & d' & k' & E' & Hor).
    rewrite E in E'. injection E' as <- <- <-. destruct Hor as [[Hr ->]|(Hr & c & nxt' & l' & Hc & -> & Ha & He' & Hsnd)].
    { rewrite (proj2 (Z.leb_gt _ _)) by lia. exists n, j, nxt, l. split; [apply advances_refl|by split]. }
    rewrite (proj2 (Z.leb_le _ _)) by lia. exists n, (S j), nxt', l'. split; [done|].
    rewrite list_lookup_fmap in Hc. destruct (pms !! j) as [m|] eqn:Em; [|done]. injection Hc as <-.
    split; [done|by cbn [kcb]; rewrite Hsnd|by eapply wire_advances|].
    cbn [s_got]. by rewrite Hg, (proj1 (cut_spec pf m Hpf)), (take_S_r _ _ _ Em).
Qed.
End Act.

Lemma fresh_inv f pf ms pms : conf_ok f → side_inv f pf ms pms 0 0 0 [] 0 [] (fresh f).
Proof.
  intros Hf. pose proof (conf_wnd _ Hf) as Hw. split; [|intros i; lia|done|done]. split; [done| | |done|done].
  - split; cbn; try done; [apply prefix_nil|set_solver].
  - split; cbn; [lia| |done]. split; cbn; try done; try lia. constructor.
Qed.

Definition link_inv (f g : kcp_conf) (ms pms : list bytes) (st : side * side) : Prop :=
  ∃ n j nxt l n' j' nxt' l', side_inv f g ms pms n j nxt l nxt' l' st.1 ∧ side_inv g f pms ms n' j' nxt' l' nxt l st.2.

Section Link.
Context (f g : kcp_conf) (Hf : conf_ok f) (Hg : conf_ok g) (Hconv : conv g = conv f).

Lemma link_sendable st :
  rtc link_step (fresh f, fresh g) st →
  (k_conf (kcb st.1) = f ∧ Forall (sendable f) (s_sent st.1)) ∧ (k_conf (kcb st.2) = g ∧ Forall (sendable g) (s_sent st.2)).
Proof using Hf Hg.
  revert st. apply rtc_ind_r; [by repeat split; constructor|]. intros st1 st2 _ Hs [IH1 IH2].
  destruct Hs as [a b a' Ha|a b b' Hb]; cbn in *; split; try done; by eapply act_sendable.
Qed.

Lemma link_reach st ms pms :
  rtc link_step (fresh f, fresh g) st → s_sent st.1 `prefix_of` ms → s_sent st.2 `prefix_of` pms →
  few (cut f <$> ms) → few (cut g <$> pms) → link_inv f g ms pms st.
Proof using Hf Hg Hconv.
  intros H. revert st H. apply (rtc_ind_r (λ st, _ → _ → _ → _ → link_inv f g ms pms st)).
  { intros H1 H2 Hms Hpms. exists 0, 0%nat, 0, [], 0, 0%nat, 0, []. split; by apply fresh_inv. }
  intros st1 st2 Hr Hs IH H1 H2 Hms Hpms. destruct (link_sendable _ Hr) as [Hs1 Hs2]. destruct Hs as [a b a' Ha|a b b' Hb]; cbn [fst snd] in *.
  - destruct IH as (n & j & nxt & l & n' & j' & nxt' & l' & I1 & I2); [|done|done|done|].
    { etrans; [|exact H1]. exact (proj2 (act_sendable _ _ _ _ Hf Hs1 Ha)). }
    pose proof (receiver_bound _ _ _ _ _ Hms (ep_receiver _ _ _ _ _ _ _ _ _ (si_ep _ _ _ _ _ _ _ _ _ _ _ I2))) as Hb.
    destruct (act_inv f g ms pms Hf Hg Hconv Hms Hpms b a a' _ _ _ _ _ _ I1 Hb (si_wire _ _ _ _ _ _ _ _ _ _ _ I2) H1 Ha)
      as (n1 & j1 & nxt1 & l1 & Hadv & I1').
    exists n1, j1, nxt1, l1, n', j', nxt', l'. split; [done|]. by eapply side_inv_peer.
  - destruct IH as (n & j & nxt & l & n' & j' & nxt' & l' & I1 & I2); [done| |done|done|].
    { etrans; [|exact H2]. exact (proj2 (act_sendable _ _ _ _ Hg Hs2 Hb)). }
    pose proof (receiver_bound _ _ _ _ _ Hpms (ep_receiver _ _ _ _ _ _ _ _ _ (si_ep _ _ _ _ _ _ _ _ _ _ _ I1))) as Ha.
    destruct (act_inv g f pms ms Hg Hf (eq_sym Hconv) Hpms Hms a b b' _ _ _ _ _ _ I2 Ha (si_wire _ _ _ _ _ _ _ _ _ _ _ I1) H2 Hb)
      as (n1 & j1 & nxt1 & l1 & Hadv & I2').
    exists n, j, nxt, l, n1, j1, nxt1, l1. split; [|done]. by eapply side_inv_peer.
Qed.
End Link.

(** Up to 2^24 messages, their segments are fewer than 2^31. *)
Lemma few_messages f ms :
  conf_ok f → Forall (sendable f) ms → Z.of_nat (length ms) ≤ 2 ^ 24 → few (cut f <$> ms).
Proof.
  intros Hf Hs Hl. assert (Hc : Forall chunk_ok (cut f <$> ms)).
  { apply Forall_fmap. eapply Forall_impl; [exact Hs|]. intros m. by apply cut_ok. }
  split; [done|]. assert (H : Z.of_nat (length (mjoin (cut f <$> ms))) ≤ 127 * Z.of_nat (length ms)); [|lia].
  clear Hs Hl. induction ms as [|m ms IH]; [done|]. rewrite fmap_cons in *. apply Forall_cons in Hc as [[_ H1] Hc].
  change (mjoin (cut f m :: (cut f <$> ms))) with (cut f m ++ mjoin (cut f <$> ms)).
  rewrite length_app. specialize (IH Hc). unfold IKCP_WND_RCV in H1. cbn [length]. lia.
Qed.

Lemma link_state f g a b :
  conf_ok f → conf_ok g → conv g = conv f → rtc link_step (fresh f, fresh g) (a, b) →
  Z.of_nat (length (s_sent a)) ≤ 2 ^ 24 → Z.of_nat (length (s_sent b)) ≤ 2 ^ 24 →
  few (cut f <$> s_sent a) ∧ few (cut g <$> s_sent b) ∧ link_inv f g (s_sent a) (s_sent b) (a, b).
Proof.
  intros Hf Hg Hc Hr Ha Hb. destruct (link_sendable f g Hf Hg _ Hr) as [[_ H1] [_ H2]].
  assert (few (cut f <$> s_sent a)) by (by apply few_messages). assert (few (cut g <$> s_sent b)) by (by apply few_messages).
  split_and!; [done|done|]. by apply link_reach.
Qed.

(** C1: Two KCP endpoints over a network that loses, duplicates and reorders datagrams: whatever
    they send, flush, receive and hand over, in any interleaving, the messages handed over on one
    side are a prefix of the messages accepted on the other, whole, in order and without repetition,
    as long as each side accepts at most 2^24 messages. *)
Theorem kcp_in_order f g a b :
  conf_ok f → conf_ok g → conv g = conv f → rtc link_step (fresh f, fresh g) (a, b) →
  Z.of_nat (length (s_sent a)) ≤ 2 ^ 24 → Z.of_nat (length (s_sent b)) ≤ 2 ^ 24 →
  s_got b `prefix_of` s_sent a ∧ s_got a `prefix_of` s_sent b.
Proof.
  intros Hf Hg Hc Hr Ha Hb.
  destruct (link_state _ _ _ _ Hf Hg Hc Hr Ha Hb) as (_ & _ & n & j & nxt & l & n' & j' & nxt' & l' & I1 & I2).
  cbn [fst snd] in I1, I2.
  split; [rewrite (si_got _ _ _ _ _ _ _ _ _ _ _ I2)|rewrite (si_got _ _ _ _ _ _ _ _ _ _ _ I1)]; apply prefix_take.
Qed.

Lemma kcp_in_order_witness :
  s_got link1.2 `prefix_of` s_sent link1.1 ∧ s_got link1.1 `prefix_of` s_sent link1.2.
Proof. apply (kcp_in_order conf1 conf1 link1.1 link1.2); [exact conf1_ok|exact conf1_ok|done|exact link1_reach|vm_compute; done|vm_compute; done]. Defined.



(** A segment that is next cannot wait in the buffer while the queue has room. *)
Lemma next_not_waiting cs j nxt l k :
  receiver cs j nxt l k → nxt ∈ l → rcv_wnd (k_conf k) ≤ nrcv_que (k_rcv k).
Proof.
  intros [_ Hi Hs] Hin. destruct Hi as [_ Hn _ _ Hc Hso Hr _]. unfold settled in Hs.
  destruct l as [|i l]; [by apply not_elem_of_nil in Hin|]. apply Forall2_cons_inv_r in Hc as (s & buf & [Hsn _] & _ & E).
  rewrite E in Hs. apply StronglySorted_inv in Hso as [_ Hlt]. apply Forall_cons in Hr as [Hri _].
  apply elem_of_cons in Hin as [->|Hin]; [|rewrite Forall_forall in Hlt; specialize (Hlt _ Hin); lia].
  destruct Hs as [Hs|]; [|done]. rewrite Hsn, Hn in Hs. done.
Qed.

(** Once every segment has arrived, the next message is complete. *)
Lemma next_message_complete cs j nxt l k c :
  Forall chunk_ok cs → IKCP_WND_RCV ≤ rcv_wnd (k_conf k) → receiver cs j nxt l k → cs !! j = Some c →
  (∀ i, 0 ≤ i < Z.of_nat (length (mjoin cs)) → received nxt l i) → pos cs (S j) ≤ nxt.
Proof.
  intros Hok Hw Hre Hc Hall. destruct (decide (pos cs (S j) ≤ nxt)); [done|exfalso].
  pose proof Hre as [_ Hi _]. pose proof (ri_order _ _ _ _ _ _ Hi). pose proof (ri_nque _ _ _ _ _ _ Hi) as [Hq _].
  destruct (queue_payload _ _ _ _ _ _ Hi) as [_ Hl]. rewrite Forall_lookup in Hok. destruct (Hok _ _ Hc) as [_ Hlen].
  assert (pos cs (S j) ≤ Z.of_nat (length (mjoin cs))).
  { unfold pos. rewrite (join_split cs (S j)), length_app. lia. }
  assert (0 ≤ pos cs j) by (unfold pos; lia). destruct (Hall nxt ltac:(lia)) as [|Hin]; [lia|].
  apply next_not_waiting with (1 := Hre) in Hin. rewrite (pos_S _ _ _ Hc) in *. lia.
Qed.

(** C2: No message is lost: when one side has nothing queued and nothing unacknowledged, the other
    side has handed over everything that was accepted, or its next receive with a long enough buffer
    returns the next message. *)
Theorem kcp_complete f g a b :
  conf_ok f → conf_ok g → conv g = conv f → rtc link_step (fresh f, fresh g) (a, b) →
  Z.of_nat (length (s_sent a)) ≤ 2 ^ 24 → Z.of_nat (length (s_sent b)) ≤ 2 ^ 24 →
  snd_queue (k_snd (kcb a)) = [] → snd_buf (k_snd (kcb a)) = [] →
  s_got b = s_sent a ∨
  ∃ m rest, s_sent a = s_got b ++ m :: rest ∧
    ∀ len, Z.of_nat (length m) ≤ len → ∃ k, ikcp_recv (kcb b) len = Some (Z.of_nat (length m), m, k).
Proof.
  intros Hf Hg Hc Hr Ha Hb Hq Hbuf.
  destruct (link_state _ _ _ _ Hf Hg Hc Hr Ha Hb) as (Hfew & _ & n & j & nxt & l & n' & j' & nxt' & l' & I1 & I2).
  cbn [fst snd] in I1, I2. destruct I1 as [E1 L1 _ _], I2 as [E2 _ _ G2]. rewrite G2.
  destruct (s_sent a !! j') as [m|] eqn:Em; [right|left; apply take_ge; by apply lookup_ge_None].
  exists m, (drop (S j') (s_sent a)). split; [by rewrite <- (drop_S _ _ _ Em), take_drop|]. intros len Hlen.
  destruct E1 as [_ [_ Hn _ Hdr _ _] _ _ _]. rewrite Hq in Hdr. symmetry in Hdr. apply (f_equal length) in Hdr.
  rewrite length_drop in Hdr. cbn in Hdr.
  destruct E2 as [Hk2 _ Hre _ _]. pose proof (co_wnd _ Hg) as Hw. rewrite <- Hk2 in Hw.
  assert (Hcut : (cut f <$> s_sent a) !! j' = Some (cut f m)) by (by rewrite list_lookup_fmap, Em).
  pose proof (next_message_complete _ _ _ _ _ _ (proj1 Hfew) (proj1 Hw) Hre Hcut) as Hpos.
  pose proof (recv_complete _ _ _ _ _ len _ (proj1 Hfew) Hre Hcut) as Hrc. rewrite (proj1 (cut_spec f m Hf)) in Hrc.
  rewrite (proj2 (Z.ltb_ge (Z.abs len) _)) in Hrc by lia. destruct Hrc as (k & _ & _ & Hk & _); [|by exists k].
  apply Hpos. intros i Hi. destruct (L1 i ltac:(lia)) as [|Hin]; [done|]. rewrite Hbuf in Hin. by apply not_elem_of_nil in Hin.
Qed.

Lemma kcp_complete_witness :
  s_got link1.2 = s_sent link1.1 ∨
  ∃ m rest, s_sent link1.1 = s_got link1.2 ++ m :: rest ∧
    ∀ len, Z.of_nat (length m) ≤ len → ∃ k, ikcp_recv (kcb link1.2) len = Some (Z.of_nat (length m), m, k).
Proof. apply (kcp_complete conf1 conf1 link1.1 link1.2); [exact conf1_ok|exact conf1_ok|done|exact link1_reach|vm_compute; done..]. Defined.

(** ** A round

    A flush in which every segment is due, and its datagrams arriving in any order, some
    of them more than once, among older ones. *)

Lemma arrived_same ds top nxt l s s' :
  header_of s = header_of s' → seg_data s = seg_data s' → arrived ds top nxt l s → arrived ds top nxt l s'.
Proof.
  intros E1 E2 H i H1 [H2 H3]. unfold header_of in E1. injection E1 as _ Ec Ef _ _ Es _ _. apply H; [congruence|].
  split; [congruence|]. rewrite H3. unfold payload. congruence.
Qed.

Definition inputs (k : ikcpcb) (D : list bytes) : ikcpcb := foldl (λ k d, (ikcp_input k d).2) k D.

Lemma inputs_spec f cs ds pf sent n j nxt l k pn pl D :
  conf_ok f → few cs → few ds → conv pf = conv f → endpoint f cs sent ds n j nxt l k → Forall (gram pf ds pn pl) D →
  0 ≤ pn < 2 ^ 31 → no_loss n (received pn pl) (snd_buf (k_snd k)) →
  ∃ nxt' l', advances nxt l nxt' l' ∧ endpoint f cs sent ds n j nxt' l' (inputs k D) ∧
    ∀ g, packet g ∈ D → Forall (acceptable (conv f)) g → Forall (arrived ds (nxt + rcv_wnd f) nxt' l') g.
Proof.
  intros Hf Hcs Hds Hcv He HD Hpn. revert nxt l k He; induction D as [|d D IH]; intros nxt l k He Hnl.
  { exists nxt, l. split_and!; [apply advances_refl|done|]. intros g Hg. by apply not_elem_of_nil in Hg. }
  apply Forall_cons in HD as [(g0 & -> & Hne & _ & Hs) HD]. rewrite Hcv in Hs.
  destruct (input_spec _ _ _ Hf Hcs Hds _ _ _ _ _ _ _ _ _ He Hne Hs Hpn Hnl) as (k1 & nxt1 & l1 & E & Ha1 & He1 & Hnl1 & Har1).
  unfold inputs. cbn [foldl]. rewrite E. cbn [snd].
  destruct (IH HD _ _ _ He1 Hnl1) as (nxt2 & l2 & Ha2 & He2 & Har2). exists nxt2, l2.
  split_and!; [by eapply advances_trans|exact He2|]. intros g [Eg|Hin]%elem_of_cons Hg.
  - assert (Hw : Forall wire_ok g) by (eapply Forall_impl; [exact Hg|by intros ? []]).
    assert (Hw0 : Forall wire_ok g0) by (eapply Forall_impl; [exact Hs|by intros ? [[]]]).
    apply packet_inj in Eg; [|done|done]. apply Forall_forall. intros s Hin.
    assert (Hm : (header_of s, seg_data s) ∈ (λ s, (header_of s, seg_data s)) <$> g0).
    { rewrite <- Eg. apply list_elem_of_fmap. eauto. }
    apply list_elem_of_fmap in Hm as (s0 & Es & Hin0). injection Es as Eh Ed. rewrite Forall_forall in Har1.
    apply (arrived_same _ _ _ _ s0); [unfold header_of; congruence|congruence|].
    eapply arrived_advances; [exact Ha2|]. by apply Har1.
  - eapply Forall_impl; [by apply Har2|]. intros s Hs0 i H1 H2 H3. apply Hs0; [done|done|]. destruct Ha1. lia.
Qed.

(** What has arrived, in the receiver's own terms. *)
Lemma received_concrete f cs sent ds n j nxt l k i :
  few ds → endpoint f cs sent ds n j nxt l k → 0 ≤ i < 2 ^ 31 → received nxt l i →
  i < rcv_nxt (k_rcv k) ∨ i ∈ seg_sn <$> rcv_buf (k_rcv k).
Proof.
  intros Hds [_ _ Hr _ _] Hi Hrec. pose proof (receiver_bound _ _ _ _ _ Hds Hr) as Hb. destruct Hr as [_ Hv _].
  destruct Hv as [_ Hn _ _ Hc _ _ _]. rewrite Hn, unsigned32_small by lia. destruct Hrec as [|Hin]; [by left|right].
  apply list_elem_of_lookup in Hin as [x Hx]. destruct (Forall2_lookup_r _ _ _ _ _ Hc Hx) as (s & Hs & [Hsn _]).
  rewrite unsigned32_small in Hsn by lia. apply list_elem_of_fmap. exists s. split; [done|]. by eapply list_elem_of_lookup_2.
Qed.

(** C4: Retransmission gets the data across: when every unacknowledged segment is due at a flush,
    and the datagrams of that flush arrive in any order, any number of times and mixed with older
    ones, then every segment numbered so far that lies in the receiver's window has arrived. *)
Theorem kcp_round f g a b k out D i :
  conf_ok f → conf_ok g → conv g = conv f → rtc link_step (fresh f, fresh g) (a, b) →
  Z.of_nat (length (s_sent a)) ≤ 2 ^ 24 → Z.of_nat (length (s_sent b)) ≤ 2 ^ 24 →
  updated (k_clk (kcb a)) ≠ 0 → Forall (due (k_clk (kcb a))) (snd_buf (k_snd (kcb a))) →
  ikcp_flush (kcb a) = (k, out) → (∀ d, d ∈ out → d ∈ D) → (∀ d, d ∈ D → d ∈ wire a ++ out) →
  0 ≤ i < snd_nxt (k_snd k) → i < rcv_nxt (k_rcv (kcb b)) + rcv_wnd g →
  i < rcv_nxt (k_rcv (inputs (kcb b) D)) ∨ i ∈ seg_sn <$> rcv_buf (k_rcv (inputs (kcb b) D)).
Proof.
  intros Hf Hg Hc Hr Hsa Hsb Hu Hdue E HD1 HD2 Hi Hiw.
  destruct (link_state _ _ _ _ Hf Hg Hc Hr Hsa Hsb) as (Hfa & Hfb & n & j & nxt & l & n' & j' & nxt' & l' & I1 & I2).
  assert (Hr' : rtc link_step (fresh f, fresh g) (mkSide k (wire a ++ out) (s_sent a) (s_got a), b)).
  { eapply rtc_r; [exact Hr|]. constructor. by apply act_flush. }
  destruct (link_state _ _ _ _ Hf Hg Hc Hr' Hsa Hsb) as (_ & _ & m & j1 & nxt1 & l1 & m' & j1' & nxt1' & l1' & J1 & J2).
  cbn [fst snd s_sent] in I1, I2, J1, J2. destruct J1 as [E1 L1 W1 _], J2 as [E2 L2 _ _], I1 as [E0 _ _ _]. cbn [kcb wire] in *.
  pose proof (sender_bound f _ Hfa _ _ _ (ep_sender _ _ _ _ _ _ _ _ _ E1)) as Hm.
  pose proof (receiver_bound _ _ _ _ _ Hfa (ep_receiver _ _ _ _ _ _ _ _ _ E2)) as Hn2.
  pose proof (receiver_bound _ _ _ _ _ Hfb (ep_receiver _ _ _ _ _ _ _ _ _ E1)) as Hn1.
  rewrite (se_nxt _ _ _ _ _ (ep_sender _ _ _ _ _ _ _ _ _ E1)), unsigned32_small in Hi by lia.
  rewrite (ri_nxt _ _ _ _ _ _ (rc_inv _ _ _ _ _ (ep_receiver _ _ _ _ _ _ _ _ _ E2))), unsigned32_small in Hiw by lia.
  assert (HD : Forall (gram f (cut f <$> s_sent a) nxt1 l1) D).
  { rewrite Forall_forall in W1 |- *. auto. }
  destruct (inputs_spec g _ _ f _ _ _ _ _ _ _ _ D Hg Hfb Hfa (eq_sym Hc) E2 HD Hn1 L2) as (nxt2 & l2 & Ha & E3 & Harr).
  apply (received_concrete _ _ _ _ _ _ _ _ _ _ Hfa E3); [lia|].
  destruct (L1 i ltac:(lia)) as [Hrec|Hin]; [by eapply received_advances|].
  destruct (flush_covers f _ _ Hf Hfa Hfb _ _ _ _ _ _ _ _ _ _ _ _ _ E0 Hu Hdue E E1 Hi Hin) as (g0 & d & Hp & Hacc & Hd & Hcmd & Hcar).
  rewrite <- Hc in Hacc. specialize (Harr g0 (HD1 _ Hp) Hacc). rewrite Forall_forall in Harr. by apply (Harr d Hd).
Qed.

Lemma kcp_round_witness :
  0 < rcv_nxt (k_rcv (inputs (kcb link2.2) (ikcp_flush (kcb link2.1)).2)) ∨ 0 ∈ seg_sn <$> rcv_buf (k_rcv (inputs (kcb link2.2) (ikcp_flush (kcb link2.1)).2)).
Proof. apply (kcp_round conf1 conf1 link2.1 link2.2 (ikcp_flush (kcb link2.1)).1 (ikcp_flush (kcb link2.1)).2 (ikcp_flush (kcb link2.1)).2 0);
  [exact conf1_ok|exact conf1_ok|done|exact link2_reach|vm_compute; done..| | |auto| |vm_compute; done|vm_compute; done]; [exact link2_due|apply surjective_pairing|].
  intros d Hd. apply elem_of_app. by right. Defined.
