(* ===== verification/IkcpTime.v ===== *)
(** * KCP's clock: round-trip estimates, ikcp_check and the streaming mode *)

From S2P Require Import Prelude Ikcp IkcpWire IkcpRecv IkcpSend IkcpLink.

(** ** The retransmission timeout *)

Lemma ibound_range lo x hi : lo ≤ hi → lo ≤ ibound lo x hi ≤ hi.
Proof.
  intros H. unfold ibound, imin, imax. repeat case_match; rewrite ?Z.leb_le, ?Z.leb_gt in *; lia.
Qed.

(** Whatever round trip is measured, the timeout stays between its bounds and the smoothed
    time stays positive. *)
Lemma update_ack_range f c rtt :
  rx_minrto f ≤ IKCP_RTO_MAX → 0 ≤ rtt → 0 ≤ rx_srtt c →
  rx_minrto f ≤ rx_rto (ikcp_update_ack f c rtt) ≤ IKCP_RTO_MAX ∧ 0 ≤ rx_srtt (ikcp_update_ack f c rtt).
Proof.
  intros Hm Hr Hs. unfold ikcp_update_ack. destruct (rx_srtt c =? 0); cbn [with_rtt rx_rto rx_srtt].
  - split; [by apply ibound_range|done].
  - split; [by apply ibound_range|]. destruct (_ <? 1) eqn:E; [lia|apply Z.ltb_ge in E; lia].
Qed.

(** ** ikcp_check *)

Lemma next_resend_bound cur tm buf t :
  next_resend cur tm buf = Some t →
  t ≤ tm ∧ (0 < tm → 0 < t) ∧ Forall (λ s, t ≤ itimediff (seg_resendts s) cur) buf.
Proof.
  revert tm; induction buf as [|s buf IH]; intros tm; cbn [next_resend]; [intros [= <-]; split_and!; [lia|lia|constructor]|].
  destruct (_ <=? 0) eqn:E; [done|]. apply Z.leb_gt in E. intros H. apply IH in H as (H1 & H2 & H3).
  destruct (_ <? tm) eqn:E'; [apply Z.ltb_lt in E'|apply Z.ltb_ge in E'];
    split_and!; [lia|lia|constructor; [lia|done]|lia|lia|constructor; [lia|done]].
Qed.

Lemma signed32_add a q : signed32 (a + q * 2 ^ 32) = signed32 a.
Proof. unfold signed32. f_equal. rewrite <- (Z.mod_add (a + 2 ^ 31) q) by lia. f_equal. lia. Qed.

Lemma signed32_shape a : ∃ q, signed32 a = a + q * 2 ^ 32.
Proof.
  exists (- ((a + 2 ^ 31) / 2 ^ 32)). unfold signed32. pose proof (Z.div_mod (a + 2 ^ 31) (2 ^ 32)). lia.
Qed.

Lemma unsigned32_shape a : ∃ q, unsigned32 a = a + q * 2 ^ 32.
Proof. exists (- (a / 2 ^ 32)). unfold unsigned32. pose proof (Z.div_mod a (2 ^ 32)). lia. Qed.

(** The distance to [x] after [d] milliseconds. *)
Lemma itimediff_shift cur d x :
  - 2 ^ 31 ≤ d - itimediff x cur < 2 ^ 31 → itimediff (unsigned32 (cur + d)) x = d - itimediff x cur.
Proof.
  intros H. unfold itimediff in *. destruct (signed32_shape (x - cur)) as [q Hq], (unsigned32_shape (cur + d)) as [p ->].
  rewrite <- (signed32_small (d - signed32 (x - cur))) by done. rewrite Hq, <- (signed32_add _ (- q - p)). f_equal. lia.
Qed.

Lemma itimediff_self cur : itimediff cur cur = 0.
Proof. unfold itimediff. by rewrite Z.sub_diag. Qed.

Lemma itimediff_range a b : - 2 ^ 31 ≤ itimediff a b < 2 ^ 31.
Proof. apply signed32_range. Qed.

Lemma itimediff_after cur m : 0 ≤ m < 2 ^ 31 → itimediff (unsigned32 (cur + m)) cur = m.
Proof. intros H. rewrite itimediff_shift; rewrite itimediff_self; lia. Qed.

(** An update between 10 seconds before the next flush and the flush sends nothing. *)
Lemma update_early k t :
  updated (k_clk k) ≠ 0 → -10000 ≤ itimediff t (ts_flush (k_clk k)) < 0 → (ikcp_update k t).2 = [].
Proof.
  intros Hu Hs. unfold ikcp_update. rewrite (proj2 (Z.eqb_neq _ _) Hu).
  rewrite (proj2 (Z.leb_gt 10000 _)), (proj2 (Z.ltb_ge _ (-10000))) by lia. cbn [orb].
  by rewrite (proj2 (Z.leb_gt 0 _)) by lia.
Qed.

(** The time it returns: at most an interval ahead, and no later than the next flush and
    the first resend. *)
Lemma check_later k cur :
  0 ≤ interval (k_conf k) → ikcp_check k cur ≠ cur →
  ∃ m, ikcp_check k cur = unsigned32 (cur + m) ∧ 0 ≤ m ≤ interval (k_conf k) ∧ updated (k_clk k) ≠ 0 ∧
    0 < itimediff (ts_flush (k_clk k)) cur ≤ 10000 ∧ m ≤ itimediff (ts_flush (k_clk k)) cur ∧
    Forall (λ s, m ≤ itimediff (seg_resendts s) cur) (snd_buf (k_snd k)).
Proof.
  intros Hi. unfold ikcp_check. destruct (updated (k_clk k) =? 0) eqn:Eu; [done|]. apply Z.eqb_neq in Eu.
  set (fl := if _ || _ then cur else ts_flush (k_clk k)). destruct (0 <=? itimediff cur fl) eqn:E; [done|]. apply Z.leb_gt in E.
  assert (Hfl : fl = ts_flush (k_clk k) ∧ -10000 ≤ itimediff cur (ts_flush (k_clk k)) < 0).
  { subst fl. destruct (_ || _) eqn:Eo; [rewrite itimediff_self in E; lia|].
    apply orb_false_iff in Eo as [Eo1%Z.leb_gt Eo2%Z.ltb_ge]. split; [done|lia]. }
  clearbody fl. destruct Hfl as [-> Hfl].
  assert (Ht : 0 < itimediff (ts_flush (k_clk k)) cur ≤ 10000).
  { destruct (signed32_shape (ts_flush (k_clk k) - cur)) as [q Hq]. unfold itimediff in *.
    destruct (signed32_shape (cur - ts_flush (k_clk k))) as [p Hp].
    pose proof (signed32_range (ts_flush (k_clk k) - cur)). lia. }
  destruct (next_resend _ _ _) as [tm|] eqn:En; [|done]. intros _.
  apply next_resend_bound in En as (H1 & H2 & H3). specialize (H2 ltac:(lia)).
  exists (let m := if tm <? itimediff (ts_flush (k_clk k)) cur then tm else itimediff (ts_flush (k_clk k)) cur in
          if interval (k_conf k) <=? m then interval (k_conf k) else m). split; [done|]. cbv zeta.
  assert (Hm : ∃ m, m = (if tm <? itimediff (ts_flush (k_clk k)) cur then tm else itimediff (ts_flush (k_clk k)) cur) ∧
    0 < m ≤ tm ∧ m ≤ itimediff (ts_flush (k_clk k)) cur).
  { eexists. split; [done|]. destruct (tm <? _) eqn:El; [apply Z.ltb_lt in El|apply Z.ltb_ge in El]; lia. }
  destruct Hm as (m & <- & Hm1 & Hm2). destruct (_ <=? m) eqn:El; [apply Z.leb_le in El|apply Z.leb_gt in El];
    (split_and!; [lia|lia|done|lia|lia|lia|]); (eapply Forall_impl; [exact H3|]); cbn; lia.
Qed.

(** Before the time [ikcp_check] returns nothing is due: an update sends nothing and no
    segment waits to be sent again. *)
Lemma ikcp_check_idle k cur d :
  0 ≤ interval (k_conf k) < 2 ^ 31 → 0 ≤ d < itimediff (ikcp_check k cur) cur →
  (ikcp_update k (unsigned32 (cur + d))).2 = [] ∧
  Forall (λ s, itimediff (unsigned32 (cur + d)) (seg_resendts s) < 0) (snd_buf (k_snd k)) ∧
  d < interval (k_conf k).
Proof.
  intros Hi Hd. destruct (decide (ikcp_check k cur = cur)) as [E|E]; [rewrite E, itimediff_self in Hd; lia|].
  destruct (check_later k cur ltac:(lia) E) as (m & E1 & H1 & H2 & H3 & H4 & H5).
  rewrite E1, itimediff_after in Hd by lia. split_and!; [| |lia].
  - apply update_early; [done|]. rewrite itimediff_shift; lia.
  - eapply Forall_impl; [exact H5|]. cbn. intros s Hs. pose proof (itimediff_range (seg_resendts s) cur).
    rewrite itimediff_shift; lia.
Qed.

(** ** Streaming mode *)

(** Sending in streaming mode appends the bytes to those queued, in segments no longer than mss. *)
Lemma append_stream_data m q b :
  0 < m → msg_data (append_stream m q b).1 ++ (append_stream m q b).2 = msg_data q ++ b ∧
  (Forall (λ s, seg_len s ≤ m) q → Forall (λ s, seg_len s ≤ m) (append_stream m q b).1).
Proof.
  intros Hm. unfold append_stream. destruct (last q) as [old|] eqn:El; [|done]. destruct (_ <? m) eqn:E; [|done].
  apply Z.ltb_lt in E. apply last_Some in El as [q' ->]. rewrite removelast_last.
  set (x := if _ <? _ then length b else _). cbn [fst snd]. unfold msg_data. rewrite !bind_app. split.
  - cbn. by rewrite !app_nil_r, <- !app_assoc, take_drop.
  - rewrite !Forall_app. intros [H1 _]. split; [done|]. constructor; [|done]. unfold seg_len, new_seg in *. cbn.
    rewrite length_app, length_take. subst x. destruct (_ <? _) eqn:E2; [apply Z.ltb_lt in E2|apply Z.ltb_ge in E2]; lia.
Qed.

Lemma send_stream k b :
  stream (k_conf k) ≠ 0 → 0 < mss (k_conf k) < 2 ^ 31 → Z.of_nat (length b) < 2 ^ 31 →
  Forall (λ s, seg_len s ≤ mss (k_conf k)) (snd_queue (k_snd k)) →
  ∃ ret k', ikcp_send k b (Z.of_nat (length b)) = Some (ret, k') ∧
    Forall (λ s, seg_len s ≤ mss (k_conf k)) (snd_queue (k_snd k')) ∧
    (ret = 0 → msg_data (snd_queue (k_snd k')) = msg_data (snd_queue (k_snd k)) ++ b) ∧ (ret = 0 ∨ ret = -2).
Proof.
  intros Hst Hm Hb Hq. unfold ikcp_send. rewrite (proj2 (Z.ltb_lt 0 _)) by lia. cbn [negb].
  rewrite (proj2 (Z.ltb_ge _ 0)) by lia. rewrite (proj2 (Z.eqb_neq _ _) Hst), Nat2Z.id, take_ge by done. cbn [negb andb].
  destruct (append_stream_data (mss (k_conf k)) (snd_queue (k_snd k)) b) as [Hd Hl]; [lia|]. specialize (Hl Hq).
  assert (Hlen : (length (append_stream (mss (k_conf k)) (snd_queue (k_snd k)) b).2 ≤ length b)%nat).
  { unfold append_stream. destruct (last _); [|done]. destruct (_ <? mss _); [|done]. cbn. rewrite length_drop. lia. }
  destruct (append_stream _ _ b) as [q rest]. cbn [fst snd] in *.
  destruct (Z.of_nat (length rest) <=? 0) eqn:E.
  { do 2 eexists. split; [reflexivity|]. split_and!; [done| |auto]. intros _. rewrite <- Hd.
    apply Z.leb_le in E. destruct rest; [by rewrite app_nil_r|cbn in E; lia]. }
  apply Z.leb_gt in E. rewrite unsigned32_small by lia. fold (frag_count (mss (k_conf k)) (Z.of_nat (length rest))).
  destruct (frag_count_spec (mss (k_conf k)) (Z.of_nat (length rest))) as (H1 & H2 & _); [lia|lia|].
  destruct (_ <=? frag_count _ _); [do 2 eexists; split; [reflexivity|]; split_and!; [done|done|auto]|].
  rewrite (proj2 (Z.eqb_neq _ 0)) by lia. do 2 eexists. split; [reflexivity|]. cbn [with_snd with_snd_queue k_snd snd_queue].
  destruct (fragments_data (mss (k_conf k)) (stream (k_conf k)) (Z.to_nat (frag_count (mss (k_conf k)) (Z.of_nat (length rest)))) rest)
    as [H3 H4]; [lia|lia|lia|]. split_and!; [by apply Forall_app| |auto]. intros _.
  unfold msg_data in *. rewrite bind_app, <- Hd. f_equal. etrans; [apply msg_data_payload|exact H3].
Qed.

(** A streaming control block with one byte queued. *)
Definition stream_kcb : ikcpcb :=
  with_snd (with_snd_queue [new_seg 0 [byte_of 1]] 1 (k_snd (ikcp_create 1)))
    (with_conf (mkConf 1 50 26 IKCP_WND_SND IKCP_WND_RCV 0 IKCP_INTERVAL IKCP_RTO_MIN 0 IKCP_FASTACK_LIMIT 0 1 IKCP_DEADLINK)
       (ikcp_create 1)).

(** A send that is refused in streaming mode may have queued the first bytes already. *)
Lemma send_stream_partial :
  ∃ k b k', stream (k_conf k) = 1 ∧ ikcp_send k b (Z.of_nat (length b)) = Some (-2, k') ∧
    msg_data (snd_queue (k_snd k')) ≠ msg_data (snd_queue (k_snd k)).
Proof.
  set (f := mkConf 1 50 26 IKCP_WND_SND IKCP_WND_RCV 0 IKCP_INTERVAL IKCP_RTO_MIN 0 IKCP_FASTACK_LIMIT 0 1 IKCP_DEADLINK).
  exists (with_snd (with_snd_queue [new_seg 0 [byte_of 1]] 1 (k_snd (ikcp_create 1))) (with_conf f (ikcp_create 1))),
    (repeat (byte_of 2) (25 + 128 * 26)). eexists. split; [done|]. split; [vm_compute; reflexivity|]. vm_compute. done.
Qed.

(** The output buffer ikcp_setmtu allocates. *)
Definition buffer_size (mtu : Z) : Z := (mtu + IKCP_OVERHEAD) * 3.

(** Lowering the mtu while longer segments are queued: the next flush writes a datagram
    that does not fit the new output buffer. *)
Lemma setmtu_overflow :
  ∃ k0 k1 k2 k3 d, ikcp_send (ikcp_create 1) (repeat (byte_of 7) 1000) 1000 = Some (0, k0) ∧ (ikcp_update k0 0).1 = k1 ∧
    ikcp_setmtu k1 50 = (0, k2) ∧ ikcp_update k2 100 = (k3, [d]) ∧ buffer_size 50 < Z.of_nat (length d).
Proof. do 5 eexists. split_and!; [vm_compute; reflexivity..|]. vm_compute. done. Qed.
