(* ===== verification/IkcpSafe.v ===== *)
(** * KCP against any peer

    Every field of the control block keeps to its width, the counters are the lengths of
    the queues, and what is kept of received data is bounded by the window, whatever bytes arrive
    and however the operations are interleaved. *)

From Stdlib Require Import Sorting.Sorted.
From S2P Require Import Prelude Ikcp IkcpWire IkcpRecv IkcpTime.

(** ** Well-formed control blocks *)

Record seg_typed (s : IKCPSEG) : Prop := {
  st_conv : word 32 (seg_conv s); st_cmd : word 8 (seg_cmd s); st_frg : word 8 (seg_frg s); st_wnd : word 32 (seg_wnd s);
  st_ts : word 32 (seg_ts s); st_sn : word 32 (seg_sn s); st_una : word 32 (seg_una s); st_resendts : word 32 (seg_resendts s);
  st_rto : word 32 (seg_rto s); st_fastack : word 32 (seg_fastack s); st_xmit : word 32 (seg_xmit s)
}.

Record conf_typed (f : kcp_conf) : Prop := {
  ct_conv : word 32 (conv f);
  ct_mss : 0 < mss f < 2 ^ 32;
  ct_rcv_wnd : 0 < rcv_wnd f < 2 ^ 31;
  ct_snd_wnd : word 31 (snd_wnd f);
  ct_interval : word 31 (interval f);
  ct_minrto : word 31 (rx_minrto f);
  ct_resend : - 2 ^ 31 ≤ fastresend f < 2 ^ 31
}.

Record snd_typed (s : kcp_snd) : Prop := {
  sy_una : word 32 (snd_una s); sy_nxt : word 32 (snd_nxt s); sy_rmt : word 16 (rmt_wnd s);
  sy_cwnd : word 32 (cwnd s); sy_incr : word 32 (incr s); sy_ssthresh : word 32 (ssthresh s);
  sy_xmit : word 32 (xmit s); sy_state : word 32 (state s);
  sy_nque : nsnd_que s = unsigned32 (Z.of_nat (length (snd_queue s)));
  sy_nbuf : nsnd_buf s = unsigned32 (Z.of_nat (length (snd_buf s)));
  sy_queue : Forall seg_typed (snd_queue s);
  sy_buf : Forall seg_typed (snd_buf s)
}.

(** [limit] bounds the data of a segment. *)
Definition kept (limit : Z) (s : IKCPSEG) : Prop := seg_typed s ∧ seg_len s ≤ limit.

Record rcv_typed (limit wnd : Z) (r : kcp_rcv) : Prop := {
  ry_nxt : word 32 (rcv_nxt r);
  ry_order : ∃ src from nxt l, rcv_inv src wnd from nxt l r;
  ry_queue : Forall (kept limit) (rcv_queue r);
  ry_buf : Forall (kept limit) (rcv_buf r);
  ry_acks : Forall (λ a, word 32 a.1 ∧ word 32 a.2) (acklist r)
}.

Record clk_typed (c : kcp_clk) : Prop := {
  cy_rttval : word 31 (rx_rttval c); cy_srtt : word 31 (rx_srtt c); cy_rto : word 31 (rx_rto c);
  cy_current : word 32 (current c); cy_flush : word 32 (ts_flush c); cy_ts_probe : word 32 (ts_probe c);
  cy_wait : word 32 (probe_wait c); cy_probe : word 2 (probe c)
}.

Record kcb_typed (limit : Z) (k : ikcpcb) : Prop := {
  ky_conf : conf_typed (k_conf k);
  ky_snd : snd_typed (k_snd k);
  ky_rcv : rcv_typed limit (rcv_wnd (k_conf k)) (k_rcv k);
  ky_clk : clk_typed (k_clk k)
}.

(** The window bounds what is kept. *)
Lemma rcv_typed_bounded limit wnd r :
  0 < wnd < 2 ^ 31 → rcv_typed limit wnd r →
  nrcv_que r = Z.of_nat (length (rcv_queue r)) ∧ nrcv_que r ≤ wnd ∧
  nrcv_buf r = Z.of_nat (length (rcv_buf r)) ∧ nrcv_buf r ≤ wnd ∧ NoDup (seg_sn <$> rcv_buf r).
Proof.
  intros Hw [_ (src & from & nxt & l & Hi) _ _ _]. destruct Hi as [_ _ _ [Hq Hle] Hc Hs Hr Hnb].
  assert (Hlen : Z.of_nat (length l) ≤ wnd).
  { assert (Hnd : NoDup l).
    { clear - Hs. induction Hs as [|i l Hs IH Hi]; constructor; [|done]. intros Hin. rewrite Forall_forall in Hi. specialize (Hi _ Hin). lia. }
    assert (Hsub : l ⊆ (λ i, nxt + Z.of_nat i) <$> seq 0 (Z.to_nat wnd)).
    { intros i Hin. rewrite Forall_forall in Hr. specialize (Hr _ Hin). apply list_elem_of_fmap. exists (Z.to_nat (i - nxt)).
      split; [lia|]. apply elem_of_seq. lia. }
    pose proof (submseteq_length _ _ (NoDup_submseteq _ _ Hnd Hsub)) as K.
    rewrite length_fmap, length_seq in K. lia. }
  pose proof (Forall2_length _ _ _ Hc) as E. rewrite Hnb, unsigned32_small by lia. split_and!; [done|done|done|lia|].
  clear Hq Hle Hnb E Hlen. revert Hc Hs Hr. generalize (rcv_buf r) as b. induction l as [|i l IH]; intros b Hc Hs Hr.
  { apply Forall2_nil_inv_r in Hc as ->. constructor. }
  apply Forall2_cons_inv_r in Hc as (s & b' & [Hsn _] & Hc & ->). apply StronglySorted_inv in Hs as [Hs Hlt].
  apply Forall_cons in Hr as [Hri Hr]. rewrite fmap_cons. constructor; [|by apply IH].
  intros (t & Et & Ht)%list_elem_of_fmap. apply list_elem_of_lookup in Ht as [n Hn]. destruct (Forall2_lookup_l _ _ _ _ _ Hc Hn) as (j & Hj & [Hjn _]).
  rewrite Forall_lookup in Hlt, Hr. specialize (Hlt _ _ Hj). specialize (Hr _ _ Hj).
  assert (i = j) by (apply unsigned32_inj; [lia|congruence]). lia.
Qed.

(** ** Receiving *)

(** Only the numbers decide where a segment goes. *)
Lemma insert_none_sn s s' rbuf : seg_sn s = seg_sn s' → insert_from_tail s rbuf = None → insert_from_tail s' rbuf = None.
Proof.
  intros E. induction rbuf as [|t rbuf IH]; cbn [insert_from_tail]; [done|]. rewrite <- E. destruct (_ =? _); [done|].
  destruct (0 <? _); [done|]. destruct (insert_from_tail s rbuf); [done|]. intros _. by rewrite IH.
Qed.

Lemma insert_Forall P s rbuf rbuf' : P s → Forall P rbuf → insert_from_tail s rbuf = Some rbuf' → Forall P rbuf'.
Proof.
  intros Hs. revert rbuf'; induction rbuf as [|t rbuf IH]; intros rbuf' Hb; cbn [insert_from_tail].
  - intros [= <-]. by constructor.
  - apply Forall_cons in Hb as [Ht Hb]. destruct (_ =? _); [done|]. destruct (0 <? _); [intros [= <-]; by repeat constructor|].
    destruct (insert_from_tail s rbuf) as [b|]; [|done]. intros [= <-]. constructor; [done|]. by apply IH.
Qed.

Lemma move_Forall P wnd buf r :
  rcv_buf r = buf → Forall P (rcv_queue r) → Forall P buf →
  Forall P (rcv_queue (move_available wnd buf r)) ∧ Forall P (rcv_buf (move_available wnd buf r)).
Proof.
  revert r; induction buf as [|s buf IH]; intros r Hb Hq Hf; cbn [move_available]; [by rewrite Hb|].
  destruct (_ && _); [|by rewrite Hb]. apply Forall_cons in Hf as [Hs Hf]. apply IH; [done| |done]. apply Forall_app. auto.
Qed.

Lemma move_nxt wnd buf r : word 32 (rcv_nxt r) → word 32 (rcv_nxt (move_available wnd buf r)).
Proof.
  revert r; induction buf as [|s buf IH]; intros r Hn; cbn [move_available]; [done|]. destruct (_ && _); [|done]. apply IH.
  apply unsigned32_range.
Qed.

(** Another payload for a number that is neither in the queue nor in the buffer. *)
Lemma rcv_inv_update src wnd from nxt l r i pl :
  rcv_inv src wnd from nxt l r → nxt ≤ i → i ∉ l →
  rcv_inv (λ j, if decide (j = i) then Some pl else src j) wnd from nxt l r.
Proof.
  intros [Ho Hn Hq Hnq Hc Hs Hr Hnb] Hi Hl. split; try done.
  - rewrite Hq. unfold source. apply list_fmap_ext. intros n x Hx%lookup_seq. rewrite decide_False by lia. done.
  - clear - Hc Hl. induction Hc as [|s j b l [H1 H2] Hc IH]; [constructor|]. apply not_elem_of_cons in Hl as [Hij Hl].
    constructor; [|by apply IH]. split; [done|]. by rewrite decide_False by done.
Qed.

Section Receiving.
Context (limit wnd : Z) (Hwnd : 0 < wnd < 2 ^ 31).

Lemma move_typed r : rcv_typed limit wnd r → rcv_typed limit wnd (move_available wnd (rcv_buf r) r).
Proof using Hwnd.
  intros [Hn (src & from & nxt & l & Hi) Hq Hb Ha]. destruct (move_available_inv src wnd Hwnd _ _ _ _ _ Hi eq_refl) as (nxt' & l' & _ & Hi' & _).
  destruct (move_Forall (kept limit) wnd (rcv_buf r) r eq_refl Hq Hb) as [Hq' Hb'].
  split; [by apply move_nxt|by exists src, from, nxt', l'|done|done|by rewrite acklist_move].
Qed.

Lemma insert_typed r s :
  rcv_typed limit wnd r → kept limit s →
  0 ≤ itimediff (seg_sn s) (rcv_nxt r) → itimediff (seg_sn s) (unsigned32 (rcv_nxt r + wnd)) < 0 →
  rcv_typed limit wnd
    (match insert_from_tail s (rev (rcv_buf r)) with
     | Some rbuf => with_queue (rcv_nxt r) (rcv_queue r) (rev rbuf) (nrcv_que r) (unsigned32 (nrcv_buf r + 1)) r
     | None => r
     end).
Proof using Hwnd.
  intros Hr Hs H0 H1. pose proof Hr as [Hn (src & from & nxt & l & Hi) Hq Hb Ha]. set (i := nxt + itimediff (seg_sn s) (rcv_nxt r)).
  pose proof (ri_nxt _ _ _ _ _ _ Hi) as En.
  assert (Hsn : seg_sn s = unsigned32 i).
  { subst i. destruct Hs as [[_ _ _ _ _ Hw _ _ _ _ _] _]. unfold word in Hw. rewrite En. unfold itimediff.
    destruct (unsigned32_shape nxt) as [p ->], (signed32_shape (seg_sn s - (nxt + p * 2 ^ 32))) as [q ->].
    replace (nxt + _) with (seg_sn s + (q - p) * 2 ^ 32) by lia. unfold unsigned32. rewrite Z.mod_add, Z.mod_small by lia. done. }
  assert (Hiw : nxt ≤ i < nxt + wnd).
  { split; [lia|]. pose proof (itimediff_range (seg_sn s) (rcv_nxt r)) as Hrg. destruct (decide (i < nxt + wnd)); [done|].
    rewrite En, Hsn in H1. replace (unsigned32 (unsigned32 nxt + wnd)) with (unsigned32 (nxt + wnd)) in H1 by wrap_eq.
    rewrite itimediff_abs in H1; lia. }
  destruct (decide (i ∈ l)) as [Hin|Hin].
  - (* the number is there already *)
    apply list_elem_of_lookup in Hin as [n Hn']. destruct (Forall2_lookup_r _ _ _ _ _ (ri_buf _ _ _ _ _ _ Hi) Hn') as (t & Ht & Hc).
    pose proof (insert_from_tail_spec src wnd Hwnd nxt t i (rev (rcv_buf r)) (rev l) Hc Hiw) as K.
    destruct (insert_from_tail t (rev (rcv_buf r))) eqn:E.
    { destruct K as (l' & _ & _ & _ & K); [by apply Forall2_rev, Hi|by apply sorted_rev, Hi|by apply Forall_rev, Hi|].
      exfalso. apply K. rewrite <- Permutation_rev. by apply list_elem_of_lookup_2 in Hn'. }
    rewrite (insert_none_sn t s); [done| |done]. by rewrite Hsn, (proj1 Hc).
  - pose proof (rcv_inv_update _ _ _ _ _ _ i (payload s) Hi (proj1 Hiw) Hin) as Hi2.
    destruct (insert_inv _ wnd Hwnd _ _ _ _ s i Hi2) as (l' & _ & Hi3); [split; [done|by rewrite decide_True]|done|].
    destruct (insert_from_tail s (rev (rcv_buf r))) as [rbuf|] eqn:E; [|done].
    split; [done|by eexists _, _, _, _|done| |done]. cbn [with_queue rcv_buf]. apply Forall_rev. eapply insert_Forall; [exact Hs| |exact E].
    by apply Forall_rev.
Qed.

Lemma parse_data_typed r s : rcv_typed limit wnd r → kept limit s → rcv_typed limit wnd (ikcp_parse_data wnd r s).
Proof using Hwnd.
  intros Hr Hs. unfold ikcp_parse_data. destruct (_ || _) eqn:E; [done|]. apply orb_false_iff in E as [E1%Z.leb_gt E2%Z.ltb_ge].
  apply move_typed, insert_typed; [done|done|lia|lia].
Qed.

Lemma ack_push_typed r sn ts : rcv_typed limit wnd r → word 32 sn → word 32 ts → rcv_typed limit wnd (ikcp_ack_push r sn ts).
Proof using.
  intros [Hn (src & from & nxt & l & Hi) Hq Hb Ha] H1 H2. split; try done.
  - exists src, from, nxt, l. by destruct Hi.
  - apply Forall_app. split; [done|]. constructor; [done|constructor].
Qed.

Lemma take_typed r (m : nat) :
  rcv_typed limit wnd r → (m ≤ length (rcv_queue r))%nat →
  rcv_typed limit wnd (with_queue (rcv_nxt r) (drop m (rcv_queue r)) (rcv_buf r) (unsigned32 (nrcv_que r - Z.of_nat m)) (nrcv_buf r) r).
Proof using Hwnd.
  intros [Hn (src & from & nxt & l & Hi) Hq Hb Ha] Hm. split; [done| |by apply Forall_drop|done|done].
  exists src, (from + Z.of_nat m), nxt, l. by apply rcv_inv_take.
Qed.
End Receiving.

Lemma first_message_length q : (length (first_message q) ≤ length q)%nat.
Proof. induction q as [|s q IH]; cbn; [lia|]. destruct (_ =? _); cbn; lia. Qed.

(** The assertion on the length never fails. *)
Lemma peeksize_exact k s q :
  rcv_queue (k_rcv k) = s :: q → 0 ≤ ikcp_peeksize k → Z.of_nat (length (msg_data (first_message (s :: q)))) = ikcp_peeksize k.
Proof.
  intros Eq. unfold ikcp_peeksize. rewrite Eq. destruct (seg_frg s =? 0) eqn:E.
  - intros _. cbn [first_message]. rewrite E. cbn. rewrite app_nil_r. done.
  - destruct (_ <? _); [lia|done].
Qed.

Lemma probe_lor c b : word 2 c → b ∈ [1; 2] → word 2 (Z.lor c b).
Proof.
  intros Hc Hb. assert (c = 0 ∨ c = 1 ∨ c = 2 ∨ c = 3) as Hc' by (unfold word in Hc; lia).
  apply elem_of_cons in Hb as [->|Hb%list_elem_of_singleton]; [|subst b]; destruct Hc' as [->|[->|[->| ->]]]; by vm_compute.
Qed.

Lemma with_probe_typed p c : clk_typed c → word 2 p → clk_typed (with_probe p c).
Proof. intros [] Hp. by split. Qed.

Lemma recv_typed limit k len : kcb_typed limit k → ∃ ret d k', ikcp_recv k len = Some (ret, d, k') ∧ kcb_typed limit k'.
Proof.
  intros Hk. pose proof Hk as [Hf Hs Hr Hc]. pose proof (ct_rcv_wnd _ Hf) as Hw. unfold ikcp_recv.
  destruct (rcv_queue (k_rcv k)) as [|s q] eqn:Eq; [by eexists _, _, _|]. destruct (ikcp_peeksize k <? 0) eqn:E0; [by eexists _, _, _|].
  destruct (Z.abs len <? _) eqn:E1; [by eexists _, _, _|]. apply Z.ltb_ge in E0. rewrite (peeksize_exact k s q), Z.eqb_refl by done. cbn [negb].
  eexists _, _, _. split; [reflexivity|]. set (r := if len <? 0 then k_rcv k else _).
  assert (Hr' : rcv_typed limit (rcv_wnd (k_conf k)) r).
  { subst r. destruct (len <? 0); [done|]. rewrite <- Eq. apply take_typed; [done|done|]. apply first_message_length. }
  split; cbn [with_clk with_rcv k_conf k_snd k_rcv k_clk]; [done|done|by apply move_typed|].
  destruct (_ && _); [|done]. apply with_probe_typed; [done|]. apply probe_lor; [apply Hc|]. by right; left.
Qed.

(** ** Headers *)

Lemma decode8u_word p : word 8 (ikcp_decode8u p).1.
Proof.
  destruct p as [|c p]; [by vm_compute|]. cbn [ikcp_decode8u fst]. unfold word, Z_of_byte. pose proof (N_ascii_bounded c). lia.
Qed.

Lemma decode16u_word p : word 16 (ikcp_decode16u p).1.
Proof.
  unfold ikcp_decode16u. pose proof (decode8u_word p) as Ha. destruct (ikcp_decode8u p) as [a p1].
  pose proof (decode8u_word p1) as Hb. destruct (ikcp_decode8u p1) as [b p2]. unfold word in *. cbn [fst] in *. rewrite Z.shiftl_mul_pow2 by lia. lia.
Qed.

Lemma decode32u_word p : word 32 (ikcp_decode32u p).1.
Proof.
  unfold ikcp_decode32u. pose proof (decode8u_word p) as Ha. destruct (ikcp_decode8u p) as [a p1].
  pose proof (decode8u_word p1) as Hb. destruct (ikcp_decode8u p1) as [b p2]. pose proof (decode8u_word p2) as Hc. destruct (ikcp_decode8u p2) as [c p3].
  pose proof (decode8u_word p3) as Hd. destruct (ikcp_decode8u p3) as [d p4]. unfold word in *. cbn [fst] in *. rewrite !Z.shiftl_mul_pow2 by lia. lia.
Qed.

Record hd_typed (h : header) : Prop := {
  ht_conv : word 32 (hd_conv h); ht_cmd : word 8 (hd_cmd h); ht_frg : word 8 (hd_frg h); ht_wnd : word 16 (hd_wnd h);
  ht_ts : word 32 (hd_ts h); ht_sn : word 32 (hd_sn h); ht_una : word 32 (hd_una h); ht_len : word 32 (hd_len h)
}.

Lemma decode_typed data : hd_typed (decode_header data).1.
Proof.
  unfold decode_header.
  repeat match goal with
  | |- context [ikcp_decode32u ?p] => pose proof (decode32u_word p); destruct (ikcp_decode32u p)
  | |- context [ikcp_decode8u ?p] => pose proof (decode8u_word p); destruct (ikcp_decode8u p)
  | |- context [ikcp_decode16u ?p] => pose proof (decode16u_word p); destruct (ikcp_decode16u p)
  end. by split.
Qed.

(** What is behind a header is shorter. *)
Lemma decode8u_length p : (length (ikcp_decode8u p).2 ≤ length p)%nat.
Proof. destruct p; cbn; lia. Qed.

Lemma decode_length data : IKCP_OVERHEAD ≤ Z.of_nat (length data) → Z.of_nat (length (decode_header data).2) ≤ Z.of_nat (length data) - IKCP_OVERHEAD.
Proof. unfold IKCP_OVERHEAD. intros H. do 24 (destruct data as [|? data]; [cbn in H; lia|]). cbn. lia. Qed.

(** ** The sending side *)

Lemma count_less (b b' : list IKCPSEG) n m :
  n = unsigned32 (Z.of_nat (length b)) → length b = (length b' + m)%nat →
  unsigned32 (n - Z.of_nat m) = unsigned32 (Z.of_nat (length b')).
Proof. intros -> ->. rewrite Nat2Z.inj_add. wrap_eq. Qed.

Lemma count_more (b b' : list IKCPSEG) n m :
  n = unsigned32 (Z.of_nat (length b)) → length b' = (length b + m)%nat →
  unsigned32 (n + Z.of_nat m) = unsigned32 (Z.of_nat (length b')).
Proof. intros -> ->. rewrite Nat2Z.inj_add. wrap_eq. Qed.

Lemma with_buf_typed una buf n s :
  snd_typed s → word 32 una → n = unsigned32 (Z.of_nat (length buf)) → Forall seg_typed buf → snd_typed (with_buf una buf n s).
Proof. intros [] H1 H2 H3. by split. Qed.

Lemma shrink_typed s : snd_typed s → snd_typed (ikcp_shrink_buf s).
Proof.
  intros H. apply with_buf_typed; [done| |apply H|apply H]. pose proof (sy_buf _ H) as Hb. destruct (snd_buf s) as [|g b]; [apply H|].
  apply Forall_cons in Hb as [Hg _]. apply Hg.
Qed.

Lemma remove_sn_typed sn buf :
  Forall seg_typed buf → Forall seg_typed (remove_sn sn buf).1 ∧
  length buf = (length (remove_sn sn buf).1 + if (remove_sn sn buf).2 then 1 else 0)%nat.
Proof.
  induction buf as [|g buf IH]; intros Hb; cbn [remove_sn]; [done|]. apply Forall_cons in Hb as [Hg Hb].
  destruct (sn =? _); [split; [done|cbn; lia]|]. destruct (_ <? 0); [split; [by constructor|cbn; lia]|].
  destruct (IH Hb) as [H1 H2]. destruct (remove_sn sn buf) as [b [|]]; cbn in *; (split; [by constructor|lia]).
Qed.

Lemma parse_ack_typed s sn : snd_typed s → snd_typed (ikcp_parse_ack s sn).
Proof.
  intros H. unfold ikcp_parse_ack. destruct (negb _); [done|]. destruct (remove_sn_typed sn (snd_buf s) (sy_buf _ H)) as [H1 H2].
  destruct (remove_sn sn (snd_buf s)) as [b [|]]; cbn in *; apply with_buf_typed; try done; try apply H.
  - apply (count_less (snd_buf s) b (nsnd_buf s) 1); [apply H|lia].
  - rewrite (sy_nbuf _ H). do 2 f_equal. lia.
Qed.

Lemma drop_una_typed una buf :
  Forall seg_typed buf → Forall seg_typed (drop_una una buf) ∧ (length (drop_una una buf) ≤ length buf)%nat.
Proof.
  induction buf as [|g buf IH]; intros Hb; cbn [drop_una]; [done|]. pose proof Hb as Hb'. apply Forall_cons in Hb as [Hg Hb].
  destruct (0 <? _); [|split; [done|lia]]. destruct (IH Hb). split; [done|cbn; lia].
Qed.

Lemma parse_una_typed s una : snd_typed s → snd_typed (ikcp_parse_una s una).
Proof.
  intros H. unfold ikcp_parse_una. destruct (drop_una_typed una (snd_buf s) (sy_buf _ H)) as [H1 H2].
  apply with_buf_typed; [done|apply H| |done]. apply (count_less (snd_buf s)); [apply H|lia].
Qed.

Lemma fastack_typed sn buf : Forall seg_typed buf → Forall seg_typed (fastack_loop sn buf) ∧ length (fastack_loop sn buf) = length buf.
Proof.
  induction buf as [|g buf IH]; intros Hb; cbn [fastack_loop]; [done|]. pose proof Hb as Hb'. apply Forall_cons in Hb as [Hg Hb].
  destruct (_ <? 0); [done|]. destruct (IH Hb) as [H1 H2]. split; [|cbn; lia]. constructor; [|done].
  destruct (_ =? _); [done|]. destruct Hg. split; try done. apply unsigned32_range.
Qed.

Lemma parse_fastack_typed s sn : snd_typed s → snd_typed (ikcp_parse_fastack s sn).
Proof.
  intros H. unfold ikcp_parse_fastack. destruct (negb _); [done|]. destruct (fastack_typed sn (snd_buf s) (sy_buf _ H)) as [H1 H2].
  apply with_buf_typed; [done|apply H|rewrite H2; apply H|done].
Qed.

Lemma with_cwnd_typed cw inc s : snd_typed s → word 32 cw → word 32 inc → snd_typed (with_cwnd cw inc s).
Proof. intros [] H1 H2. by split. Qed.

Lemma word_div a b : word 32 a → 0 < b → word 32 (a / b).
Proof.
  unfold word. intros Ha Hb. split; [apply Z.div_pos; lia|]. apply Z.le_lt_trans with a; [|lia]. apply Z.div_le_upper_bound; [lia|]. nia.
Qed.

Lemma word32_0 : word 32 0.
Proof. by vm_compute. Qed.

Lemma word16_32 x : word 16 x → word 32 x.
Proof. unfold word. lia. Qed.

Lemma grow_cwnd_typed m prev s : 0 < m < 2 ^ 32 → snd_typed s → snd_typed (grow_cwnd m prev s).
Proof.
  intros Hm H. unfold grow_cwnd. destruct (_ && _); [|done].
  match goal with |- snd_typed (if _ <? cwnd ?x then _ else _) => set (s1 := x); assert (Hx : snd_typed s1) end.
  { subst s1. destruct (_ <? _); apply with_cwnd_typed; try done; try apply unsigned32_range.
    destruct (_ <=? _); [|apply H]. apply word_div; [apply unsigned32_range|]. by destruct (0 <? m) eqn:E; [apply Z.ltb_lt in E|]. }
  clearbody s1. destruct (_ <? _); [|done]. apply with_cwnd_typed; [done| |apply unsigned32_range]. apply word16_32, Hx.
Qed.

Lemma new_seg_typed frg d : word 8 frg → seg_typed (new_seg frg d).
Proof. intros H. split; first [exact H|by vm_compute]. Qed.

Lemma fragments_typed m st count b : (Z.of_nat count ≤ 128) → Forall seg_typed (fragments m st count b).
Proof.
  revert b; induction count as [|count IH]; intros b Hc; cbn [fragments]; constructor; [|apply IH; lia].
  apply new_seg_typed. unfold word. destruct (st =? 0); lia.
Qed.

Lemma append_stream_typed m q b :
  Forall seg_typed q → Forall seg_typed (append_stream m q b).1 ∧ length (append_stream m q b).1 = length q.
Proof.
  intros Hq. unfold append_stream. destruct (last q) as [g|] eqn:El; [|done]. destruct (_ <? _); [|done].
  apply last_Some in El as [l ->]. cbn [fst]. rewrite removelast_last. apply Forall_app in Hq as [Hl _].
  split; [|by rewrite !length_app]. apply Forall_app. split; [done|]. constructor; [|constructor]. apply new_seg_typed. by vm_compute.
Qed.

Lemma with_snd_queue_typed q n s :
  snd_typed s → n = unsigned32 (Z.of_nat (length q)) → Forall seg_typed q → snd_typed (with_snd_queue q n s).
Proof. intros [] H1 H2. by split. Qed.

Lemma send_typed limit k b len :
  kcb_typed limit k → Z.of_nat (length b) < 2 ^ 31 → ∃ ret k', ikcp_send k b len = Some (ret, k') ∧ kcb_typed limit k'.
Proof.
  intros Hk Hb. pose proof Hk as [Hf Hs Hr Hc]. pose proof (ct_mss _ Hf) as Hm. unfold ikcp_send.
  rewrite (proj2 (Z.ltb_lt 0 _)) by lia. cbn [negb]. destruct (len <? 0); [by eexists _, _|].
  set (qb := if negb _ then _ else _).
  assert (Hq : Forall seg_typed qb.1 ∧ length qb.1 = length (snd_queue (k_snd k))).
  { subst qb. destruct (negb _); [|split; [apply Hs|done]]. apply append_stream_typed, Hs. }
  destruct qb as [q b']. cbn [fst] in Hq. destruct Hq as [Hq Hl].
  assert (Hs1 : snd_typed (with_snd_queue q (nsnd_que (k_snd k)) (k_snd k))).
  { apply with_snd_queue_typed; [done|rewrite Hl; apply Hs|done]. }
  destruct (negb _ && _); [by eexists _, _|]. set (count := if _ <=? _ then 1 else _).
  destruct (IKCP_WND_RCV <=? count) eqn:E; [by eexists _, _|]. apply Z.leb_gt in E. unfold IKCP_WND_RCV in E.
  eexists _, _. split; [reflexivity|]. split; [done| |done|done]. cbn [with_snd k_snd]. set (n := Z.to_nat _).
  apply with_snd_queue_typed; [done| |].
  - apply (count_more q); [cbn; rewrite Hl; apply Hs|]. by rewrite length_app.
  - apply Forall_app. split; [done|]. apply fragments_typed. subst n. destruct (count =? 0); lia.
Qed.

(** ** Input *)

Lemma update_ack_typed f c rtt : conf_typed f → clk_typed c → word 31 rtt → clk_typed (ikcp_update_ack f c rtt).
Proof.
  intros Hf Hc Hr. unfold ikcp_update_ack. destruct Hf as [_ _ _ _ Hi Hmr _], Hc as [H1 H2 H3 H4 H5 H6 H7 H8]. unfold word in *.
  set (vs := if _ =? 0 then _ else _).
  assert (Hv : 0 ≤ vs.1 < 2 ^ 31 ∧ 0 ≤ vs.2 < 2 ^ 31).
  { subst vs. destruct (_ =? 0); cbn [fst snd].
    - rewrite Z.quot_div_nonneg by lia. split; [|done]. split; [apply Z.div_pos; lia|]. apply Z.div_lt_upper_bound; lia.
    - rewrite !Z.quot_div_nonneg by lia. split.
      + assert (0 ≤ (3 * rx_rttval c + Z.abs (rtt - rx_srtt c)) / 4 < 2 ^ 31).
        { split; [apply Z.div_pos; lia|]. apply Z.div_lt_upper_bound; lia. }
        by rewrite signed32_small by lia.
      + assert (0 ≤ (7 * rx_srtt c + rtt) / 8 < 2 ^ 31).
        { split; [apply Z.div_pos; lia|]. apply Z.div_lt_upper_bound; lia. }
        destruct (_ <? 1) eqn:E; [lia|done]. }
  destruct vs as [v s]. cbn [fst snd] in Hv. split; cbn [with_rtt rx_rttval rx_srtt rx_rto current ts_flush ts_probe probe_wait probe]; unfold word; try done; try lia.
  unfold ibound, imin, imax, IKCP_RTO_MAX. pose proof (unsigned32_range (signed32 (s + (if unsigned32 (4 * v) <=? interval f then interval f else unsigned32 (4 * v))))).
  destruct (_ <=? rx_minrto f); destruct (_ <=? 60000) eqn:E; try (apply Z.leb_le in E); lia.
Qed.

Lemma with_rmt_wnd_typed w s : snd_typed s → word 16 w → snd_typed (with_rmt_wnd w s).
Proof. intros [] H. by split. Qed.

Lemma input_seg_typed limit k fl h d :
  kcb_typed limit k → hd_typed h → hd_len h ≤ limit → kcb_typed limit (input_seg k fl h d).1.
Proof.
  intros [Hf Hs Hr Hc] Hh Hl. unfold input_seg. set (s := ikcp_shrink_buf _).
  assert (Hs' : snd_typed s). { subst s. apply shrink_typed, parse_una_typed, with_rmt_wnd_typed; [done|apply Hh]. }
  clearbody s. destruct (hd_cmd h =? IKCP_CMD_ACK); [|destruct (hd_cmd h =? IKCP_CMD_PUSH); [|destruct (hd_cmd h =? IKCP_CMD_WASK)]].
  - unfold input_ack. cbn [fst]. split; cbn [with_clk with_snd k_conf k_snd k_rcv k_clk]; [done|by apply shrink_typed, parse_ack_typed|done|].
    destruct (0 <=? _) eqn:E; [|done]. apply Z.leb_le in E. apply update_ack_typed; [done|done|].
    pose proof (itimediff_range (current (k_clk k)) (hd_ts h)). unfold word. lia.
  - cbn [fst]. unfold input_push. cbn [with_snd k_conf k_rcv]. destruct (_ <? 0); [|by split].
    split; cbn [with_rcv with_snd k_conf k_snd k_rcv k_clk]; [done|done| |done].
    pose proof (ack_push_typed limit _ _ (hd_sn h) (hd_ts h) Hr (ht_sn _ Hh) (ht_ts _ Hh)) as Hr'.
    destruct (0 <=? _); [|done]. apply parse_data_typed; [apply Hf|done|]. split.
    + destruct Hh. split; cbn [seg_conv seg_cmd seg_frg seg_wnd seg_ts seg_sn seg_una seg_resendts seg_rto seg_fastack seg_xmit];
        first [assumption|exact word32_0|by apply word16_32].
    + unfold seg_len. cbn [seg_data]. rewrite length_take. pose proof (ht_len _ Hh) as [? _]. lia.
  - split; [done|done|done|]. apply with_probe_typed; [done|]. apply probe_lor; [apply Hc|]. by right; left.
  - by split.
Qed.

Lemma input_loop_typed limit fuel k fl data :
  kcb_typed limit k → Z.of_nat (length data) - IKCP_OVERHEAD ≤ limit → kcb_typed limit (input_loop fuel k fl data).1.2.
Proof.
  revert k fl data; induction fuel as [|fuel IH]; intros k fl data Hk Hl; cbn [input_loop]; [done|].
  destruct (_ <? IKCP_OVERHEAD) eqn:E; [done|]. apply Z.ltb_ge in E. pose proof (decode_typed data) as Hh. pose proof (decode_length data E) as Hd.
  destruct (decode_header data) as [h rest]. cbn [fst snd] in *. destruct (negb _); [done|]. destruct (_ || _) eqn:El; [done|].
  apply orb_false_iff in El as [El%Z.ltb_ge _]. destruct (negb _); [done|].
  pose proof (input_seg_typed limit k fl h rest Hk Hh) as Hk'. destruct (input_seg k fl h rest) as [k' fl']. cbn [fst] in Hk'.
  apply IH; [apply Hk'; lia|]. rewrite length_drop. unfold IKCP_OVERHEAD in *. lia.
Qed.

Lemma input_typed limit k data :
  kcb_typed limit k → Z.of_nat (length data) - IKCP_OVERHEAD ≤ limit → kcb_typed limit (ikcp_input k data).2.
Proof.
  intros Hk Hl. unfold ikcp_input. destruct (_ <? IKCP_OVERHEAD); [done|].
  pose proof (input_loop_typed limit (length data) k None data Hk Hl) as H. destruct (input_loop _ _ _ _) as [[r k'] fl]. cbn [fst snd] in H.
  destruct (negb _); [done|]. destruct H as [Hf Hs Hr Hc]. split; [done| |done|done]. cbn [with_snd k_snd].
  apply grow_cwnd_typed; [apply Hf|]. destruct fl as [[? ?]|]; [by apply parse_fastack_typed|done].
Qed.

(** ** Flush *)

Lemma wnd_unused_typed limit k : kcb_typed limit k → word 32 (ikcp_wnd_unused k).
Proof.
  intros [Hf _ Hr _]. pose proof (ct_rcv_wnd _ Hf) as Hw. destruct (rcv_typed_bounded _ _ _ Hw Hr) as (Hq & Hle & _).
  unfold ikcp_wnd_unused, word. destruct (_ <? _) eqn:E; lia.
Qed.

Lemma flush_probe_typed w c : clk_typed c → clk_typed (flush_probe w c).
Proof.
  intros H. pose proof H as [H1 H2 H3 H4 H5 H6 H7 H8]. unfold flush_probe. destruct (w =? 0); [|by split].
  destruct (probe_wait c =? 0); [split; try done; apply unsigned32_range|]. destruct (0 <=? _); [|done].
  split; try done; [apply unsigned32_range| |].
  - cbn [probe_wait]. destruct (_ <? unsigned32 _); [by vm_compute|apply unsigned32_range].
  - cbn [probe]. apply probe_lor; [done|]. by left.
Qed.

Lemma fill_window_typed limit k wnd cw queue s :
  kcb_typed limit k → word 32 wnd → snd_queue s = queue → snd_typed s → snd_typed (fill_window k wnd cw queue s).
Proof.
  intros Hk Hw. revert s; induction queue as [|g queue IH]; intros s Eq Hs; cbn [fill_window]; [done|].
  destruct (_ <? 0); [|done]. apply IH; [done|]. destruct Hs as [H1 H2 H3 H4 H5 H6 H7 H8 H9 H10 H11 H12]. rewrite Eq in H9, H11.
  apply Forall_cons in H11 as [Hg H11]. split; try done.
  - apply unsigned32_range.
  - cbn [nsnd_que snd_queue]. apply (count_less (g :: queue) queue _ 1); [done|cbn; lia].
  - cbn [nsnd_buf snd_buf]. apply (count_more (snd_buf s) _ _ 1); [done|by rewrite length_app].
  - cbn [snd_buf]. apply Forall_app. split; [done|]. constructor; [|constructor]. destruct Hk as [Hf _ Hr Hc].
    split; cbn [seg_conv seg_cmd seg_frg seg_wnd seg_ts seg_sn seg_una seg_resendts seg_rto seg_fastack seg_xmit];
      [exact (ct_conv _ Hf)|by vm_compute|exact (st_frg _ Hg)|exact Hw|exact (cy_current _ Hc)|exact H2|exact (ry_nxt _ _ _ Hr)
      |exact (cy_current _ Hc)| |exact word32_0|exact word32_0].
    pose proof (cy_rto _ Hc). unfold word in *. lia.
Qed.

Lemma resend_typed f c g st g' st' :
  clk_typed c → seg_typed g → word 32 (fl_xmit st) → resend f c g st = Some (g', st') →
  seg_typed g' ∧ word 32 (fl_xmit st') ∧ fl_state st' = fl_state st.
Proof.
  intros Hc Hg Hx. unfold resend. destruct (resend_params f c) as [resent rtomin].
  assert (K : ∀ xm rto fast ts, word 32 xm → word 32 rto → word 32 fast → word 32 ts →
    seg_typed (mkSeg (seg_conv g) (seg_cmd g) (seg_frg g) (seg_wnd g) (seg_ts g) (seg_sn g) (seg_una g) ts rto fast xm (seg_data g))).
  { intros. destruct Hg. by split. }
  assert (Hr : word 32 (rx_rto c)) by (pose proof (cy_rto _ Hc); unfold word in *; lia).
  destruct (seg_xmit g =? 0); [intros [= <- <-]|destruct (0 <=? _); [intros [= <- <-]|destruct (resent <=? _); [destruct (_ || _); [intros [= <- <-]|done]|done]]].
  - split; [|done]. apply K; [apply unsigned32_range|done|exact (st_fastack _ Hg)|apply unsigned32_range].
  - split; [|split; [apply unsigned32_range|done]]. apply K; [apply unsigned32_range| |exact (st_fastack _ Hg)|apply unsigned32_range]. destruct (nodelay f =? 0); apply unsigned32_range.
  - split; [|done]. apply K; [apply unsigned32_range|exact (st_rto _ Hg)|exact word32_0|apply unsigned32_range].
Qed.

Lemma send_seg_typed limit k wnd g st :
  kcb_typed limit k → word 32 wnd → seg_typed g → word 32 (fl_state st) →
  seg_typed (send_seg k wnd g st).1 ∧ fl_xmit (send_seg k wnd g st).2 = fl_xmit st ∧ word 32 (fl_state (send_seg k wnd g st).2).
Proof.
  intros Hk Hw Hg Hs. unfold send_seg. cbn [fst snd fl_xmit fl_state]. split_and!; [|done|destruct (_ <=? _); [by vm_compute|done]].
  destruct Hg, Hk as [_ _ Hr Hc]. split; try assumption; [exact (cy_current _ Hc)|exact (ry_nxt _ _ _ Hr)].
Qed.

Lemma flush_segs_typed limit k wnd buf st :
  kcb_typed limit k → word 32 wnd → Forall seg_typed buf → word 32 (fl_xmit st) → word 32 (fl_state st) →
  let '(buf', st') := flush_segs k wnd buf st in
  Forall seg_typed buf' ∧ length buf' = length buf ∧ word 32 (fl_xmit st') ∧ word 32 (fl_state st').
Proof.
  intros Hk Hw. revert st; induction buf as [|g buf IH]; intros st Hb Hx Hs; cbn [flush_segs]; [done|]. apply Forall_cons in Hb as [Hg Hb].
  set (r := match resend _ _ _ _ with Some _ => _ | None => _ end).
  assert (Hr : seg_typed r.1 ∧ word 32 (fl_xmit r.2) ∧ word 32 (fl_state r.2)).
  { subst r. destruct (resend _ _ _ _) as [[g' st']|] eqn:E; [|done].
    destruct (resend_typed _ _ _ _ _ _ (ky_clk _ _ Hk) Hg Hx E) as (T1 & T2 & T3).
    destruct (send_seg_typed limit k wnd g' st') as (S1 & S2 & S3); [done|done|done|by rewrite T3|]. split_and!; [done|by rewrite S2|done]. }
  destruct r as [g1 st1]. destruct Hr as (R1 & R2 & R3). specialize (IH st1 Hb R2 R3). destruct (flush_segs k wnd buf st1) as [buf' st'].
  destruct IH as (I1 & I2 & I3 & I4). split_and!; [by constructor|cbn; lia|done|done].
Qed.

Lemma flush_cwnd_typed m r cw lost change s :
  0 < m < 2 ^ 32 → word 32 cw → snd_typed s → snd_typed (flush_cwnd m r cw lost change s).
Proof.
  intros Hm Hw Hs. unfold flush_cwnd.
  assert (T : ∀ x, word 32 x → word 32 (imax (x / 2) IKCP_THRESH_MIN)).
  { intros x Hx. unfold imax. destruct (_ <=? _); [|by vm_compute]. by apply word_div. }
  assert (K : ∀ th c i, word 32 th → word 32 c → word 32 i →
    snd_typed (mkSnd (snd_una s) (snd_nxt s) (snd_queue s) (snd_buf s) (nsnd_que s) (nsnd_buf s) (rmt_wnd s) c i th (Ikcp.xmit s) (state s))).
  { intros. destruct Hs. by split. }
  set (x := if negb (change =? 0) then _ else _).
  assert (Hx : word 32 x.1.1 ∧ word 32 x.1.2 ∧ word 32 x.2).
  { subst x. destruct (negb _); cbn [fst snd]; [|split_and!; apply Hs]. split_and!; [apply T|..]; apply unsigned32_range. }
  destruct x as [[th c] i]. cbn [fst snd] in Hx. destruct Hx as (X1 & X2 & X3).
  assert (W1 : word 32 1) by by vm_compute. assert (Wm : word 32 m) by (unfold word; lia).
  destruct lost; [|destruct (c <? 1); by apply K]. cbn. apply K; [by apply T|done|done].
Qed.

Lemma flush_typed limit k : kcb_typed limit k → kcb_typed limit (ikcp_flush k).1.
Proof.
  intros Hk. unfold ikcp_flush. destruct (_ =? 0); [done|]. pose proof (wnd_unused_typed _ _ Hk) as Hw.
  set (wnd := ikcp_wnd_unused k) in *. clearbody wnd. destruct (flush_acks k) as [o at_]. pose proof Hk as [Hf Hs Hr Hc].
  set (k1 := with_clk (with_probe 0 _) _).
  assert (Hk1 : kcb_typed limit k1).
  { subst k1. split; cbn [with_clk with_rcv k_conf k_snd k_rcv k_clk]; [done|done| |].
    - destruct Hr as [R1 (src & from & nxt & l & Hi) R3 R4 _]. split; try done. exists src, from, nxt, l. by destruct Hi.
    - apply with_probe_typed; [|by vm_compute]. by apply flush_probe_typed. }
  change (k_snd k1) with (k_snd k). set (cw := if nocwnd _ =? 0 then _ else _).
  assert (Hcw : word 32 cw).
  { subst cw. pose proof (sy_cwnd _ Hs). pose proof (sy_rmt _ Hs). pose proof (ct_snd_wnd _ Hf). unfold imin, word in *.
    destruct (nocwnd _ =? 0); repeat case_match; lia. }
  pose proof (fill_window_typed limit k1 wnd cw (snd_queue (k_snd k)) (k_snd k) Hk1 Hw eq_refl Hs) as Hs2.
  match goal with |- context [flush_segs k1 wnd _ ?st] => set (st0 := st) end.
  pose proof (flush_segs_typed limit k1 wnd (snd_buf (fill_window k1 wnd cw (snd_queue (k_snd k)) (k_snd k))) st0 Hk1 Hw (sy_buf _ Hs2)) as Hfl.
  destruct (flush_segs _ _ _ _) as [buf st]. destruct Hfl as (F1 & F2 & F3 & F4); [apply Hs2|apply Hs2|].
  destruct Hk1 as [Hf1 _ Hr1 Hc1]. split; cbn [fst with_snd k_conf k_snd k_rcv k_clk]; [done| |done|done].
  apply flush_cwnd_typed; [apply Hf|done|]. destruct Hs2 as [H1 H2 H3 H4 H5 H6 H7 H8 H9 H10 H11 H12]. split; try done.
  cbn [nsnd_buf snd_buf]. by rewrite F2.
Qed.

Lemma with_time_typed cur fl up c : clk_typed c → word 32 cur → word 32 fl → clk_typed (with_time cur fl up c).
Proof. intros [] H1 H2. by split. Qed.

Lemma update_typed limit k cur : kcb_typed limit k → word 32 cur → kcb_typed limit (ikcp_update k cur).1.
Proof.
  intros Hk Hcur. pose proof Hk as [Hf Hs Hr Hc]. unfold ikcp_update.
  set (fl := if updated (k_clk k) =? 0 then cur else ts_flush (k_clk k)).
  assert (Hfl : word 32 fl) by (subst fl; destruct (_ =? 0); [done|apply Hc]). clearbody fl.
  set (up := if updated (k_clk k) =? 0 then 1 else _). clearbody up. set (x := if _ || _ then _ else _).
  assert (Hx : word 32 x.1) by (subst x; by destruct (_ || _)). destruct x as [fl' slap]. cbn [fst] in Hx.
  destruct (0 <=? slap); [|split; [done|done|done|by apply with_time_typed]]. apply flush_typed. split; [done|done|done|].
  apply with_time_typed; [done|done|]. destruct (0 <=? _); apply unsigned32_range.
Qed.

(** ** Any interleaving *)

Inductive kcp_op :=
| KInput (data : bytes) | KRecv (len : Z) | KSend (buffer : bytes) (len : Z) | KUpdate (current : Z) | KFlush
| KSetmtu (mtu : Z) | KInterval (interval : Z) | KNodelay (nodelay interval resend nc : Z).

(** [None]: an assertion of the code fails. *)
Definition do_op (o : kcp_op) (k : ikcpcb) : option ikcpcb :=
  match o with
  | KInput data => Some (ikcp_input k data).2
  | KRecv len => snd <$> ikcp_recv k len
  | KSend buffer len => snd <$> ikcp_send k buffer len
  | KUpdate cur => Some (ikcp_update k cur).1
  | KFlush => Some (ikcp_flush k).1
  | KSetmtu m => Some (ikcp_setmtu k m).2
  | KInterval i => Some (ikcp_interval k i).2
  | KNodelay nd i rs nc => Some (ikcp_nodelay k nd i rs nc).2
  end.

Fixpoint run_ops (ops : list kcp_op) (k : ikcpcb) : option ikcpcb :=
  match ops with
  | [] => Some k
  | o :: ops => k ← do_op o k ; run_ops ops k
  end.

Definition int32 (z : Z) : Prop := - 2 ^ 31 ≤ z < 2 ^ 31.

(** The arguments have the types of the code, a datagram has at most [limit] bytes behind its first header. *)
Definition op_typed (limit : Z) (o : kcp_op) : Prop :=
  match o with
  | KInput data => Z.of_nat (length data) - IKCP_OVERHEAD ≤ limit
  | KSend buffer _ => Z.of_nat (length buffer) < 2 ^ 31
  | KUpdate cur => word 32 cur
  | KSetmtu m => int32 m
  | KInterval i => int32 i
  | KNodelay nd i rs nc => int32 nd ∧ int32 i ∧ int32 rs ∧ int32 nc
  | KRecv _ | KFlush => True
  end.

Lemma clamp_typed i : word 31 (clamp_interval i).
Proof. unfold clamp_interval, word. repeat case_match; lia. Qed.

Lemma with_conf_typed limit f k :
  kcb_typed limit k → conf_typed f → rcv_wnd f = rcv_wnd (k_conf k) → kcb_typed limit (with_conf f k).
Proof. intros [] Hf Hw. split; [done|done|cbn; by rewrite Hw|done]. Qed.

Lemma with_delay_typed nd i m rs nc f :
  conf_typed f → word 31 i → word 31 m → int32 rs → conf_typed (with_delay nd i m rs nc f).
Proof. intros [] H1 H2 H3. by split. Qed.

Lemma do_op_typed limit o k : kcb_typed limit k → op_typed limit o → ∃ k', do_op o k = Some k' ∧ kcb_typed limit k'.
Proof.
  intros Hk Ho. pose proof (ky_conf _ _ Hk) as Hf. destruct o as [data|len|b len|cur| |m|i|nd i rs nc]; cbn [do_op op_typed] in *.
  - eexists. split; [done|]. by apply input_typed.
  - destruct (recv_typed limit k len Hk) as (ret & d & k' & -> & Hk'). by exists k'.
  - destruct (send_typed limit k b len Hk Ho) as (ret & k' & -> & Hk'). by exists k'.
  - eexists. split; [done|]. by apply update_typed.
  - eexists. split; [done|]. by apply flush_typed.
  - eexists. split; [done|]. unfold ikcp_setmtu. destruct (_ || _) eqn:E; [done|]. apply orb_false_iff in E as [E%Z.ltb_ge _].
    apply with_conf_typed; [done| |done]. destruct Hf. split; try done. unfold int32 in Ho. cbn [mss].
    rewrite unsigned32_small; unfold IKCP_OVERHEAD; lia.
  - eexists. split; [done|]. apply with_conf_typed; [done| |done]. apply with_delay_typed; [done|apply clamp_typed|apply Hf|apply Hf].
  - destruct Ho as (_ & _ & Hrs & _). eexists. split; [done|]. apply with_conf_typed; [done| |done].
    apply with_delay_typed; [done|destruct (0 <=? i); [apply clamp_typed|apply Hf]| |destruct (0 <=? rs); [done|apply Hf]].
    destruct (0 <=? nd); [|apply Hf]. destruct (negb _); by vm_compute.
Qed.

Lemma create_typed limit c : word 32 c → kcb_typed limit (ikcp_create c).
Proof.
  intros Hc. split.
  - split; [exact Hc|..]; by vm_compute.
  - split; try (by vm_compute); by constructor.
  - split; [by vm_compute| |by constructor..]. exists (λ _, None), 0, 0, []. by split; try constructor; vm_compute.
  - split; by vm_compute.
Qed.

Lemma run_ops_typed limit ops k : kcb_typed limit k → Forall (op_typed limit) ops → ∃ k', run_ops ops k = Some k' ∧ kcb_typed limit k'.
Proof.
  revert k; induction ops as [|o ops IH]; intros k Hk Ho; [by exists k|]. apply Forall_cons in Ho as [Ho Hos].
  destruct (do_op_typed limit o k Hk Ho) as (k1 & E & Hk1). cbn [run_ops]. rewrite E. by apply IH.
Qed.


(** A forged segment beyond the window, one inside it twice, nonsense, and the operations of the owner. *)
Definition hostile_ops : list kcp_op :=
  [KUpdate 5; KInput (seg_bytes (mkSeg 7 IKCP_CMD_PUSH 200 0 0 128 0 0 0 0 0 (lit "far")));
   KInput (seg_bytes (mkSeg 7 IKCP_CMD_PUSH 200 0 0 127 9 0 0 0 0 (lit "in")) ++ seg_bytes (mkSeg 7 IKCP_CMD_PUSH 1 0 0 127 9 0 0 0 0 (lit "again")));
   KInput (lit "nothing of the kind, but long enough"); KSend (lit "hello") 5; KRecv 10; KUpdate 200; KSetmtu 100; KFlush].


(** The smoothed round trip time is a signed 32-bit number, but two acknowledgements with made-up times are enough for
    [7 * rx_srtt] to overflow. *)
Lemma srtt_overflow :
  ∃ d, 2 ^ 31 ≤ 7 * rx_srtt (k_clk (ikcp_input (ikcp_update (ikcp_create 1) (2 ^ 31)).1 d).2).
Proof. exists (head_bytes (mkSeg 1 IKCP_CMD_ACK 0 0 1 0 0 0 0 0 0 [])). vm_compute. discriminate. Qed.
