(* ===== verification/Kcp.v ===== *)
(** * Reliable datagrams: ijkcp.c

    A UDP handle, the control block of the KCP protocol ([ikcpcb], kcp/ikcp.c, a block of
    its own), an idle handle that drives it and the request of the last send. What the
    protocol does with its control block is left to the environment. *)

From S2P Require Import Prelude State Runtime Logic Promise Address Streams Udp.

Definition get_kcp (p : addr) : M IJJSKcp :=
  c ← load p ; match c with CKcp k => mret k | _ => fail TypeConfusion end.
Definition put_kcp (p : addr) (k : IJJSKcp) : M unit := store p (CKcp k).

Definition k_with_udp (h : uv_handle) (k : IJJSKcp) : IJJSKcp :=
  mkKcp (k_closed k) (k_finalized k) h (k_kcp k) (k_sa k) (k_conv k) (k_read_size k) (k_read_result k)
    (k_write k) (k_idle k) (k_nextupdate k).
Definition k_with_idle (h : uv_handle) (k : IJJSKcp) : IJJSKcp :=
  mkKcp (k_closed k) (k_finalized k) (k_udp k) (k_kcp k) (k_sa k) (k_conv k) (k_read_size k) (k_read_result k)
    (k_write k) h (k_nextupdate k).
Definition k_with_closed (z : Z) (k : IJJSKcp) : IJJSKcp :=
  mkKcp z (k_finalized k) (k_udp k) (k_kcp k) (k_sa k) (k_conv k) (k_read_size k) (k_read_result k)
    (k_write k) (k_idle k) (k_nextupdate k).
Definition k_with_finalized (z : Z) (k : IJJSKcp) : IJJSKcp :=
  mkKcp (k_closed k) z (k_udp k) (k_kcp k) (k_sa k) (k_conv k) (k_read_size k) (k_read_result k)
    (k_write k) (k_idle k) (k_nextupdate k).
Definition k_with_read_size (z : Z) (k : IJJSKcp) : IJJSKcp :=
  mkKcp (k_closed k) (k_finalized k) (k_udp k) (k_kcp k) (k_sa k) (k_conv k) z (k_read_result k)
    (k_write k) (k_idle k) (k_nextupdate k).
Definition k_with_write (o : option addr) (k : IJJSKcp) : IJJSKcp :=
  mkKcp (k_closed k) (k_finalized k) (k_udp k) (k_kcp k) (k_sa k) (k_conv k) (k_read_size k) (k_read_result k)
    o (k_idle k) (k_nextupdate k).
Definition k_with_sa (sa : sockaddr) (k : IJJSKcp) : IJJSKcp :=
  mkKcp (k_closed k) (k_finalized k) (k_udp k) (k_kcp k) sa (k_conv k) (k_read_size k) (k_read_result k)
    (k_write k) (k_idle k) (k_nextupdate k).
Definition k_with_nextupdate (z : Z) (k : IJJSKcp) : IJJSKcp :=
  mkKcp (k_closed k) (k_finalized k) (k_udp k) (k_kcp k) (k_sa k) (k_conv k) (k_read_size k) (k_read_result k)
    (k_write k) (k_idle k) z.

Definition handle_kcp (h : addr) : M addr :=
  k ← get_kcp h ;
  CHECK_NOT_NULL (h_data (k_udp k)).

(** ** The control block *)

(** Every call into the protocol reads the control block. *)
Definition ikcp_call (name : string) (kcp : option addr) (args : list arg) : M Z :=
  b ← deref kcp ;
  c ← load b ;
  match c with CIkcp => ask name (AP b :: args) | _ => fail TypeConfusion end.

Definition ikcp_create : M addr := c_alloc ByJe CIkcp.

Definition ikcp_release (kcp : option addr) : M unit :=
  b ← deref kcp ;
  c ← load b ;
  match c with CIkcp => je_free b | _ => fail TypeConfusion end.

(** ** Callbacks *)

Definition uvKcpUpdateCb (handle : addr) : M unit :=
  k ← get_kcp handle ;
  p ← deref (h_data (k_idle k)) ;
  k ← get_kcp p ;
  now64 ← ask "uv_now" [] ;
  if k_nextupdate k <=? now64 then
    _ ← ikcp_call "ikcp_update" (k_kcp k) [AZ (unsigned32 now64)] ;
    next ← ikcp_call "ikcp_check" (k_kcp k) [AZ (unsigned32 now64)] ;
    put_kcp p (k_with_nextupdate (unsigned32 next) k)
  else mret tt.

(** [&k->write->result] *)
Definition write_result (k : IJJSKcp) : M place :=
  sr ← deref (k_write k) ;
  mret (Place sr FResult).

Definition uvKcpSendCb (req : addr) (status : Z) : M unit :=
  r ← get_send req ;
  h ← deref (rq_handle (sd_req r)) ;
  p ← handle_kcp h ;
  k ← get_kcp p ;
  '(arg, is_reject) ← (if status <? 0 then e ← ijNewError status ; mret (e, true)
                       else mret (JS_UNDEFINED, false)) ;
  pl ← write_result k ;
  ijSettlePromise pl is_reject [arg].

(** The protocol hands a packet to be sent. *)
Definition kcpOutput (buf : bytes) (user : addr) : M Z :=
  k ← get_kcp user ;
  let size := Z.of_nat (length buf) in
  r ← ask "uv_udp_try_send" [AP user; AB buf] ;
  if r =? size then
    pl ← write_result k ;
    ijSettlePromise pl false [JS_UNDEFINED] ;;
    mret 0
  else
    let rest := drop (Z.to_nat (if 0 <=? r then r else 0)) buf in
    sr ← deref (k_write k) ;
    r ← ask "uv_udp_send" [AP sr; AP user; AB rest] ;
    (if r =? 0 then
       q ← get_send sr ;
       store sr (CSendReq (mkSendReq (mkReq (Some user) (rq_data (sd_req q)) (rq_result (sd_req q))) None))
     else mret tt) ;;
    mret r.

Definition uv_kcp_recv_stop (handle : addr) : M unit :=
  k ← get_kcp handle ;
  put_kcp handle (k_with_udp (with_active false (k_udp k)) k).

(** ikcp_recv copies a message of [len] bytes to the buffer. *)
Definition ikcp_recv (kcp : option addr) (base : addr) (len : Z) : M unit :=
  _ ← ikcp_call "ikcp_recv" kcp [AP base; AZ len] ;
  c ← load base ;
  match c with
  | CBuf n => if n <? len then fail Overflow else mret tt
  | _ => fail TypeConfusion
  end.

Definition uvKcpRecvCb (handle : addr) (nread : Z) (base : option addr) (sa : option sockaddr) (flags : Z) : M unit :=
  p ← handle_kcp handle ;
  if (nread =? 0) && (match sa with None => true | Some _ => false end) then js_free_opt base
  else if nread <? 0 then
    uv_kcp_recv_stop handle ;;
    e ← ijNewError nread ;
    js_free_opt base ;;
    ijSettlePromise (Place p FRead) true [e] ;;
    ijClearPromise (Place p FRead)
  else
    k ← get_kcp p ;
    data ← deref base ;
    _ ← ikcp_call "ikcp_input" (k_kcp k) [AP data; AZ nread] ;
    len ← ikcp_call "ikcp_peeksize" (k_kcp k) [] ;
    if 0 <? len then
      uv_kcp_recv_stop handle ;;
      arg ← JS_NewObjectProto ;
      ikcp_recv (k_kcp k) data len ;;
      v ← ijNewUint8Array data len ;
      JS_DefinePropertyValueStr arg "data" v ;;
      JS_DefinePropertyValueStr arg "flags" (JS_NewInt32 flags) ;;
      a ← (match sa with Some a => ijAddr2Obj a | None => fail NullDeref end) ;
      JS_DefinePropertyValueStr arg "addr" a ;;
      ijSettlePromise (Place p FRead) false [arg] ;;
      ijClearPromise (Place p FRead)
    else mret tt.

Definition uvKcpAllocCb (handle : addr) (suggested_size : Z) : M (option addr * Z) :=
  p ← handle_kcp handle ;
  k ← get_kcp p ;
  base ← js_malloc (CBuf (k_read_size k)) ;
  mret (base, k_read_size k).

Definition uvKcpCloseCb (handle : addr) : M unit :=
  p ← handle_kcp handle ;
  k ← get_kcp p ;
  ikcp_release (k_kcp k) ;;
  put_kcp p (k_with_closed 1 k) ;;
  if negb (k_finalized k =? 0) then je_free p else mret tt.

Definition uvKcpMaybeClose (p : addr) : M unit :=
  k ← get_kcp p ;
  if negb (uv_is_closing (k_udp k)) then
    h ← uv_close (k_udp k) ;
    put_kcp p (k_with_udp h k)
  else mret tt.

Definition ijKcpGet (obj : JSValue) : M (option addr) := JS_GetOpaque2 obj cls_kcp.

Definition finalize_kcp (k : option addr) : M unit :=
  match k with
  | None => mret tt
  | Some p =>
      k ← get_kcp p ;
      h ← uv_close (with_active false (k_idle k)) ;
      put_kcp p (k_with_idle h k) ;;
      ikcp_release (k_kcp k) ;;
      ijFreePromiseRT (Place p FRead) ;;
      k ← get_kcp p ;
      put_kcp p (k_with_finalized 1 k) ;;
      if negb (k_closed k =? 0) then je_free p else uvKcpMaybeClose p
  end.

Definition ijKcpFinalizer (val : JSValue) : M unit :=
  k ← JS_GetOpaque val cls_kcp ;
  finalize_kcp k.

Definition ijKcpMark (val : JSValue) : M (list JSValue) :=
  k ← JS_GetOpaque val cls_kcp ;
  match k with
  | None => mret []
  | Some p => st ← get_kcp p ; mret (ijMarkPromise (k_read_result st))
  end.

(** ** Construction *)

Definition kcp0 : IJJSKcp :=
  mkKcp 0 0 (handle0 UV_UDP) None (SA_OTHER 0) 0 0 promise0 None (handle0 UV_IDLE) 0.

Definition ijNewKcp (af conv : Z) : M JSValue :=
  obj ← JS_NewObjectClass cls_kcp ;
  if JS_IsException obj then mret obj
  else
    k ← je_calloc (CKcp kcp0) ;
    match k with
    | None => JS_FreeValue obj ;; mret JS_EXCEPTION
    | Some p =>
        k ← get_kcp p ;
        put_kcp p (k_with_idle (with_data (Some p) (with_active true (handle_init (k_idle k)))) k) ;;
        r ← ask "uv_udp_init_ex" [AZ af] ;
        if negb (r =? 0) then
          JS_FreeValue obj ;;
          je_free p ;;
          JS_ThrowInternalError "couldn't initialize KCP handle"
        else
          kcp ← ikcp_create ;
          now ← ask "uv_now" [] ;
          next ← ikcp_call "ikcp_check" (Some kcp) [AZ (unsigned32 now)] ;
          k ← get_kcp p ;
          put_kcp p (mkKcp 0 0 (with_data (Some p) (handle_init (k_udp k))) (Some kcp) (k_sa k) conv
            (k_read_size k) (k_read_result k) None (k_idle k) (unsigned32 next)) ;;
          log "uv_update_time" [] ;;
          ijClearPromise (Place p FRead) ;;
          JS_SetOpaque obj p ;;
          mret obj
    end.

Definition ijKcpConstructor (argv : list JSValue) : M JSValue :=
  a0 ← arg_at argv 0 ;
  o ← (if JS_IsUndefined a0 then mret (Some AF_UNSPEC) else JS_ToInt32 a0) ;
  match o with
  | None => mret JS_EXCEPTION
  | Some af =>
      a1 ← arg_at argv 1 ;
      c ← (if JS_IsUndefined a1 then mret (Some 0) else JS_ToUint32 a1) ;
      match c with
      | None => mret JS_EXCEPTION
      | Some conv => ijNewKcp af conv
      end
  end.

(** ** Methods *)

Definition ijKcpClose (this : JSValue) (argv : list JSValue) : M JSValue :=
  k ← ijKcpGet this ;
  match k with
  | None => mret JS_EXCEPTION
  | Some p =>
      pending ← ijIsPromisePending (Place p FRead) ;
      (if (pending : bool) then
         arg ← JS_NewObjectProto ;
         JS_DefinePropertyValueStr arg "data" JS_UNDEFINED ;;
         ijSettlePromise (Place p FRead) false [arg] ;;
         ijClearPromise (Place p FRead)
       else mret tt) ;;
      uvKcpMaybeClose p ;;
      mret JS_UNDEFINED
  end.

Definition ijKcpFileno (this : JSValue) (argv : list JSValue) : M JSValue :=
  k ← ijKcpGet this ;
  match k with
  | None => mret JS_EXCEPTION
  | Some p =>
      r ← ask "uv_fileno" [AP p] ;
      if negb (r =? 0) then ijThrowErrno r
      else
        fd ← ask "uv_fileno.fd" [AP p] ;
        mret (JS_NewInt32 fd)
  end.

Definition ijKcpGetSockPeerName (magic : Z) (this : JSValue) (argv : list JSValue) : M JSValue :=
  k ← ijKcpGet this ;
  match k with
  | None => mret JS_EXCEPTION
  | Some p =>
      r ← ask (if magic =? 0 then "uv_udp_getsockname" else "uv_udp_getpeername") [AP p] ;
      if negb (r =? 0) then ijThrowErrno r
      else
        addr ← ask_sa "sockaddr" [AP p] ;
        ijAddr2Obj addr
  end.

Definition ijKcpConnect (this : JSValue) (argv : list JSValue) : M JSValue :=
  k ← ijKcpGet this ;
  match k with
  | None => mret JS_EXCEPTION
  | Some p =>
      a0 ← arg_at argv 0 ;
      o ← ijObj2Addr a0 ;
      match o with
      | None => mret JS_EXCEPTION
      | Some ss =>
          r ← ask "uv_udp_connect" [AP p] ;
          if negb (r =? 0) then ijThrowErrno r else mret JS_UNDEFINED
      end
  end.

Definition ijKcpBind (this : JSValue) (argv : list JSValue) : M JSValue :=
  k ← ijKcpGet this ;
  match k with
  | None => mret JS_EXCEPTION
  | Some p =>
      a0 ← arg_at argv 0 ;
      o ← ijObj2Addr a0 ;
      match o with
      | None => mret JS_EXCEPTION
      | Some ss =>
          a1 ← arg_at argv 1 ;
          f ← (if JS_IsUndefined a1 then mret (Some 0) else JS_ToInt32 a1) ;
          match f with
          | None => mret JS_EXCEPTION
          | Some flags =>
              r ← ask "uv_udp_bind" [AP p; AZ flags] ;
              if negb (r =? 0) then ijThrowErrno r else mret JS_UNDEFINED
          end
      end
  end.

(** Integer arguments with their defaults, converted in order. *)
Fixpoint int_args (argv : list JSValue) (i : nat) (defaults : list Z) : M (option (list Z)) :=
  match defaults with
  | [] => mret (Some [])
  | d :: defaults =>
      a ← arg_at argv i ;
      o ← (if JS_IsUndefined a then mret (Some d) else JS_ToInt32 a) ;
      match o with
      | None => mret None
      | Some z => l ← int_args argv (S i) defaults ; mret (cons z <$> l)
      end
  end.

(** The common shape of setmtu, setwndsize and nodelay. *)
Definition kcp_setting (name : string) (defaults : list Z) (this : JSValue) (argv : list JSValue) : M JSValue :=
  k ← ijKcpGet this ;
  match k with
  | None => mret JS_EXCEPTION
  | Some p =>
      l ← int_args argv 0 defaults ;
      match l with
      | None => mret JS_EXCEPTION
      | Some l =>
          k ← get_kcp p ;
          _ ← ikcp_call name (k_kcp k) (AZ <$> l) ;
          mret JS_UNDEFINED
      end
  end.

Definition ijKcpSetMtu : JSValue → list JSValue → M JSValue := kcp_setting "ikcp_setmtu" [1400].
Definition ijKcpSetWndSize : JSValue → list JSValue → M JSValue := kcp_setting "ikcp_wndsize" [32; 32].
Definition ijKcpSetNodelay : JSValue → list JSValue → M JSValue := kcp_setting "ikcp_nodelay" [1; 20; 2; 1].

(** JS_NewUint32: the value as a number; it stays exact, also above 2^31. *)
Definition JS_NewUint32 (z : Z) : JSValue := JS_INT (unsigned32 z).

Definition ijKcpGetConv (this : JSValue) (argv : list JSValue) : M JSValue :=
  k ← ijKcpGet this ;
  match k with
  | None => mret JS_EXCEPTION
  | Some p => k ← get_kcp p ; mret (JS_NewUint32 (k_conv k))
  end.

Definition ijKcpRecv (this : JSValue) (argv : list JSValue) : M JSValue :=
  k ← ijKcpGet this ;
  match k with
  | None => mret JS_EXCEPTION
  | Some p =>
      pending ← ijIsPromisePending (Place p FRead) ;
      if (pending : bool) then ijThrowErrno UV_EBUSY
      else
        a0 ← arg_at argv 0 ;
        o ← (if JS_IsUndefined a0 then mret (Some IJJS_DEFAULt_READ_SIZE) else JS_ToIndex a0) ;
        match o with
        | None => mret JS_EXCEPTION
        | Some size =>
            st ← get_kcp p ;
            put_kcp p (k_with_read_size size st) ;;
            r ← ask "uv_udp_recv_start" [AP p] ;
            st ← get_kcp p ;
            put_kcp p (k_with_udp (started r (k_udp st)) st) ;;
            if negb (r =? 0) then ijThrowErrno r
            else ijInitPromise (Place p FRead)
        end
  end.

(** The bytes at [base]: those of a freed C string may not be read. *)
Definition read_base (base : bufbase) : M unit :=
  match base with
  | InBlock b => _ ← load b ; mret tt
  | InArrayBuffer _ => mret tt
  end.

(** [memcpy(&k->sa, sa, sizeof(k->sa))]: sixteen bytes, so of an IPv6 address only the first
    eight are copied. *)
Definition sockaddr16 (sa : sockaddr) : sockaddr :=
  match sa with
  | SA_INET6 a port flowinfo _ => SA_INET6 (Z.shiftl (Z.shiftr a 64) 64) port flowinfo 0
  | sa => sa
  end.

Definition ijKcpSend (this : JSValue) (argv : list JSValue) : M JSValue :=
  k ← ijKcpGet this ;
  match k with
  | None => mret JS_EXCEPTION
  | Some p =>
      jsData ← arg_at argv 0 ;
      o ← send_data jsData ;
      match o with
      | None => mret JS_EXCEPTION
      | Some (buf, base) =>
          a1 ← arg_at argv 1 ;
          sa ← (if JS_IsUndefined a1 then mret (Some None)
                else o ← ijObj2Addr a1 ;
                     mret (match o with Some ss => Some (Some ss) | None => None end)) ;
          match sa with
          | None => mret JS_EXCEPTION
          | Some sa =>
              st ← get_kcp p ;
              js_free_opt (k_write st) ;;
              sr ← js_malloc (CSendReq (mkSendReq (mkReq None None None) None)) ;
              put_kcp p (k_with_write sr st) ;;
              match sr with
              | None => mret JS_EXCEPTION
              | Some sr =>
                  ss ← (match sa with Some ss => mret ss | None => fail NullDeref end) ;
                  st ← get_kcp p ;
                  put_kcp p (k_with_sa (sockaddr16 ss) st) ;;
                  store sr (CSendReq (mkSendReq (mkReq None (Some p) None) None)) ;;
                  free_cstring_at (base_block base) 0 ;;
                  read_base base ;;
                  _ ← ikcp_call "ikcp_send" (k_kcp st) [AB buf] ;
                  ijInitPromise (Place sr FResult)
              end
          end
      end
  end.

Definition ijjs_kcp_proto_funcs : list cfunction := [
  CFUNC "recv" 1 ijKcpRecv; CFUNC "send" 2 ijKcpSend; CFUNC "getconv" 0 ijKcpGetConv;
  CFUNC "nodelay" 4 ijKcpSetNodelay; CFUNC "setwndsize" 2 ijKcpSetWndSize; CFUNC "setmtu" 1 ijKcpSetMtu;
  CFUNC "close" 0 ijKcpClose; CFUNC "fileno" 0 ijKcpFileno;
  CFUNC "getsockname" 0 (ijKcpGetSockPeerName 0); CFUNC "getpeername" 0 (ijKcpGetSockPeerName 1);
  CFUNC "connect" 1 ijKcpConnect; CFUNC "bind" 2 ijKcpBind ]%string.

(** libuv finishes closing the UDP handle and runs the callback. *)
Definition kcp_close_done (p : addr) : M unit :=
  k ← get_kcp p ;
  put_kcp p (k_with_udp (handle_closed (k_udp k)) k) ;;
  uvKcpCloseCb p.
