(* ===== verification/KcpProofs.v ===== *)
(** * Proofs about KCP sockets

    Closing a socket that is receiving; and why [IJJSKcp] is no instance of [Lifecycle]:
    the close callback and the finalizer both release the control block. *)

From S2P Require Import Prelude State Runtime Logic Promise Worlds Address Streams Udp Kcp.

Lemma wp_get_kcp p al k (Q : IJJSKcp → World → Prop) w :
  w_mem w !! p = Some (al, CKcp k) → Q k w → wp (get_kcp p) Q w.
Proof. intros Hp HQ. unfold get_kcp. wp_step. eapply wp_load; [done|]. by wp_steps. Qed.

Lemma wp_put_kcp p al c k (Q : unit → World → Prop) w :
  w_mem w !! p = Some (al, c) → Q tt (set_mem (<[p := (al, CKcp k)]> (w_mem w)) w) →
  wp (put_kcp p k) Q w.
Proof. intros Hp HQ. unfold put_kcp. by eapply wp_store. Qed.

Lemma wp_handle_kcp h al k p (Q : addr → World → Prop) w :
  w_mem w !! h = Some (al, CKcp k) → h_data (k_udp k) = Some p → Q p w → wp (handle_kcp h) Q w.
Proof.
  intros Hh Hd HQ. unfold handle_kcp. wp_step. eapply wp_get_kcp; [done|]. rewrite Hd. by wp_steps.
Qed.

Ltac get_kcp := eapply wp_get_kcp; [lookup_tac|].
Ltac put_kcp := eapply wp_put_kcp; [lookup_tac|].
Ltac kcp_simpl :=
  cbn [own k_read_result k_udp k_idle k_kcp k_write k_closed k_finalized k_read_size k_nextupdate k_sa k_conv
       k_with_udp k_with_idle k_with_closed k_with_finalized k_with_read_size k_with_write k_with_sa
       k_with_nextupdate upd sel handles has_field pl_block pl_field h_init h_closing h_closed h_data h_type
       handle_closed with_active].

Lemma wp_ikcp_release b al (Q : unit → World → Prop) w :
  al = ByJe → w_mem w !! b = Some (al, CIkcp) → Q tt (set_mem (delete b (w_mem w)) w) → wp (ikcp_release (Some b)) Q w.
Proof.
  intros -> Hb HQ. unfold ikcp_release. do 3 wp_step. eapply wp_load; [done|]. by eapply wp_c_free.
Qed.

(** Releasing a control block that has been released reads freed memory. *)
Lemma ikcp_release_again b w : w_mem w !! b = None → ikcp_release (Some b) w = Fault UseAfterFree.
Proof.
  intros Hb. unfold ikcp_release. apply fault_bind. wp_step. apply fault_first. unfold load. by rewrite Hb.
Qed.

Lemma ikcp_call_released name b args w : w_mem w !! b = None → ikcp_call name (Some b) args w = Fault UseAfterFree.
Proof.
  intros Hb. unfold ikcp_call. apply fault_bind. wp_step. apply fault_first. unfold load. by rewrite Hb.
Qed.

(** A socket as [ijNewKcp] leaves it, with control block [b], no operation closing it. *)
Record kcp_open (w : World) (p : addr) (k : IJJSKcp) (b : addr) : Prop := {
  ko_safe : safe w;
  ko_mem : w_mem w !! p = Some (ByJe, CKcp k);
  ko_kcp : k_kcp k = Some b ∧ w_mem w !! b = Some (ByJe, CIkcp);
  ko_udp : h_init (k_udp k) = true ∧ h_closing (k_udp k) = false ∧ h_data (k_udp k) = Some p;
  ko_idle : h_init (k_idle k) = true ∧ h_closing (k_idle k) = false ∧ h_data (k_idle k) = Some p;
  ko_flags : k_closed k = 0 ∧ k_finalized k = 0;
  ko_read : droppable (k_read_result k)
}.

Lemma wp_kcp_maybe_close p al k (Q : unit → World → Prop) w :
  w_mem w !! p = Some (al, CKcp k) → h_init (k_udp k) = true → h_closing (k_udp k) = false →
  Q tt (set_mem (<[p := (al, CKcp (k_with_udp (mkHandle (h_type (k_udp k)) true false true
               (h_closed (k_udp k)) (h_data (k_udp k))) k))]> (w_mem w)) w) →
  wp (uvKcpMaybeClose p) Q w.
Proof.
  intros Hp Hi Hc HQ. unfold uvKcpMaybeClose. wp_step. get_kcp. unfold uv_is_closing, uv_close.
  rewrite Hc, Hi. cbn [negb]. cbv iota. wp_steps. put_kcp. exact HQ.
Qed.

(** The close callback on an open socket releases the control block and remembers it. *)
Lemma wp_kcp_close_done p k b (Q : unit → World → Prop) w :
  w_mem w !! p = Some (ByJe, CKcp k) → k_kcp k = Some b → w_mem w !! b = Some (ByJe, CIkcp) →
  h_data (k_udp k) = Some p → k_finalized k = 0 →
  (∀ w', w_env w' = w_env w →
     w_mem w' = <[p := (ByJe, CKcp (k_with_closed 1 (k_with_udp (handle_closed (k_udp k)) k)))]> (delete b (w_mem w)) →
     Q tt w') →
  wp (kcp_close_done p) Q w.
Proof.
  intros Hp Hk Hb Hd Hf HQ. assert (Hpb : p ≠ b) by congruence. unfold kcp_close_done, uvKcpCloseCb.
  wp_step. get_kcp. wp_step. put_kcp. wp_step. eapply wp_handle_kcp; [lookup_tac|by kcp_simpl|].
  wp_step. get_kcp. kcp_simpl. rewrite Hk. wp_step.
  eapply wp_ikcp_release; [done|world_simpl; by rewrite lookup_insert_ne|]. wp_step.
  eapply wp_put_kcp; [world_simpl; rewrite lookup_delete_ne by done; apply lookup_insert_eq|].
  kcp_simpl. rewrite Hf. cbn [Z.eqb negb]. wp_step. apply HQ; [done|].
  world_simpl. by rewrite delete_insert_ne, insert_insert_eq by done.
Qed.

(** close(), libuv's callback, then the collector. *)
Lemma kcp_close_then_finalize w p k b :
  kcp_open w p k b →
  (uvKcpMaybeClose p ;; kcp_close_done p ;; finalize_kcp (Some p)) w = Fault UseAfterFree.
Proof.
  intros [Hs Hp [Hk Hb] (Hu1 & Hu2 & Hu3) (Hi1 & Hi2 & Hi3) [Hc Hf] Hr]. assert (Hpb : p ≠ b) by congruence.
  apply fault_bind. eapply wp_kcp_maybe_close; [done|done|done|]. apply fault_bind.
  eapply wp_kcp_close_done; [lookup_tac|by kcp_simpl|world_simpl; rewrite lookup_insert_ne by done; exact Hb|
    by kcp_simpl|by kcp_simpl|].
  intros w2 E2 M2. unfold finalize_kcp. apply fault_bind. get_kcp. kcp_simpl. apply fault_bind.
  unfold uv_close. kcp_simpl. rewrite Hi1, Hi2. cbn [negb]. wp_step. apply fault_bind. put_kcp.
  apply fault_first. rewrite Hk. apply ikcp_release_again. world_simpl.
  rewrite !lookup_insert_ne by done. apply lookup_delete_eq.
Qed.

(** An open socket at 10 of the object at 20, with its control block at 15 and a read pending. *)
Definition kcp1 : IJJSKcp :=
  mkKcp 0 0 (handle_at UV_UDP 10) (Some 15%positive) (SA_INET 0 0) 1 1024 promise1 None (handle_at UV_IDLE 10) 0.
Definition kcp_world : World :=
  world_with 0 {[ 20%positive := BClass cls_kcp (Some 10%positive) ]} ∅
    {[ 10%positive := (ByJe, CKcp kcp1); 15%positive := (ByJe, CIkcp) ]}.

(** The collector, then libuv's callback. *)
Lemma kcp_finalize_then_close w p k b :
  kcp_open w p k b → (finalize_kcp (Some p) ;; kcp_close_done p) w = Fault UseAfterFree.
Proof.
  intros [Hs Hp [Hk Hb] (Hu1 & Hu2 & Hu3) (Hi1 & Hi2 & Hi3) [Hc Hf] Hr]. assert (Hpb : p ≠ b) by congruence.
  apply fault_bind. unfold finalize_kcp. wp_step. get_kcp. wp_step. unfold uv_close. kcp_simpl. rewrite Hi1, Hi2.
  cbn [negb]. do 2 wp_step. put_kcp. wp_step. rewrite Hk.
  eapply wp_ikcp_release; [done|world_simpl; rewrite lookup_insert_ne by done; exact Hb|]. wp_step.
  eapply wp_ijFreePromiseRT; [cbn [pl_block]; world_simpl; rewrite lookup_delete_ne by done; apply lookup_insert_eq|done| |].
  { intros a. world_simpl. pose proof (droppable_holds a _ Hr) as Ha. specialize (Hs a).
    pose proof (owned_lookup _ a _ _ _ Hp) as Ho. cbn [own] in Ho. world_simpl_in Ha. kcp_simpl. lia. }
  intros w1 E1 M1 R1 C1. cbn [pl_block pl_field] in M1. wp_step. get_kcp. wp_step. put_kcp. kcp_simpl. rewrite Hc.
  cbn [Z.eqb negb]. eapply wp_kcp_maybe_close; [lookup_tac|by kcp_simpl|by kcp_simpl|].
  unfold kcp_close_done, uvKcpCloseCb. apply fault_bind. get_kcp. apply fault_bind. put_kcp. apply fault_bind.
  eapply wp_handle_kcp; [lookup_tac|by kcp_simpl|]. apply fault_bind. get_kcp. apply fault_first. kcp_simpl. rewrite Hk.
  apply ikcp_release_again. world_simpl. rewrite !lookup_insert_ne by done. apply lookup_delete_eq.
Qed.

(** The idle callback goes on after close(). *)
Lemma kcp_tick_after_close w p k b :
  kcp_open w p k b → (∀ l, k_nextupdate k ≤ e_int (w_env w) (Ev "uv_now" [] :: l)) →
  (uvKcpMaybeClose p ;; kcp_close_done p ;; uvKcpUpdateCb p) w = Fault UseAfterFree.
Proof.
  intros [Hs Hp [Hk Hb] (Hu1 & Hu2 & Hu3) (Hi1 & Hi2 & Hi3) [Hc Hf] Hr] Hn. assert (Hpb : p ≠ b) by congruence.
  apply fault_bind. eapply wp_kcp_maybe_close; [done|done|done|]. apply fault_bind.
  eapply wp_kcp_close_done; [lookup_tac|by kcp_simpl|world_simpl; rewrite lookup_insert_ne by done; exact Hb|
    by kcp_simpl|by kcp_simpl|].
  intros w2 E2 M2. unfold uvKcpUpdateCb. apply fault_bind. get_kcp. kcp_simpl. rewrite Hi3. apply fault_bind. wp_step.
  apply fault_bind. get_kcp. apply fault_bind. apply wp_ask_eq. intros r ->. kcp_simpl. rewrite E2.
  rewrite (proj2 (Z.leb_le _ _)) by apply Hn. apply fault_first. rewrite Hk. apply ikcp_call_released.
  world_simpl. rewrite lookup_insert_ne by done. apply lookup_delete_eq.
Qed.

(** ** Sending *)

(** The protocol wants to send, an acknowledgement say, before anything was sent from here. *)
Lemma kcp_output_before_send w p k buf :
  w_mem w !! p = Some (ByJe, CKcp k) → k_write k = None → kcpOutput buf p w = Fault NullDeref.
Proof.
  intros Hp Hw. unfold kcpOutput. apply fault_bind. get_kcp. apply fault_bind. wp_step. destruct (r =? _).
  - apply fault_first. unfold write_result. apply fault_first. by rewrite Hw.
  - apply fault_first. by rewrite Hw.
Qed.

(** The bytes of a typed array. *)
Lemma wp_send_data_array v buf off len data (Q : option (bytes * bufbase) → World → Prop) w :
  nonneg w → body_of v w = Some (BTypedArray buf off len) → w_cell w !! buf = Some (BArrayBuffer data) →
  (∀ w', quiet w w' →
     Q (Some (take (Z.to_nat len) (drop (Z.to_nat off) data), InArrayBuffer (JS_REF buf))) w') →
  wp (send_data v) Q w.
Proof.
  intros Hn Hv Hb HQ. unfold send_data, JS_IsString. do 2 wp_step. rewrite Hv. cbv iota. wp_step.
  unfold JS_GetTypedArrayBuffer. do 2 wp_step. rewrite Hv. wp_steps. unfold JS_GetArrayBuffer. do 2 wp_step.
  simpl body_of. world_simpl. rewrite Hb. wp_step. wp_step. apply wp_FreeValue.
  { apply holds_one. world_simpl. specialize (Hn buf). rewrite decide_True by done. lia. }
  wp_step. apply HQ. by apply (quiet_temp_ref w _ (JS_REF buf)).
Qed.

(** send() without an address copies one from NULL. *)
Lemma kcp_send_without_address w p o k v buf off len data :
  nonneg w → w_mem w !! p = Some (ByJe, CKcp k) → w_cell w !! o = Some (BClass cls_kcp (Some p)) →
  k_write k = None → body_of v w = Some (BTypedArray buf off len) → w_cell w !! buf = Some (BArrayBuffer data) →
  (∀ l, e_int (w_env w) l = 0) →
  ijKcpSend (JS_REF o) [v; JS_UNDEFINED] w = Fault NullDeref.
Proof.
  intros Hn Hp Ho Hw Hv Hb He. unfold ijKcpSend, ijKcpGet. apply fault_bind. eapply wp_GetOpaque2_class; [done|].
  apply fault_bind. eapply wp_arg_at; [done|]. apply fault_bind. eapply wp_send_data_array; [done|done|done|].
  intros w1 Hq. apply fault_bind. eapply wp_arg_at; [done|]. cbn [JS_IsUndefined]. apply fault_bind. wp_step.
  apply fault_bind. get_kcp. rewrite Hw. apply fault_bind. apply wp_ret. apply fault_bind. unfold js_malloc. wp_step.
  apply wp_ask_eq. intros r ->. rewrite (quiet_env _ _ Hq), He. cbn [Z.eqb]. wp_step. apply wp_c_alloc. intros sr Hsr.
  world_simpl_in Hsr. wp_step. apply fault_bind. put_kcp. by apply fault_first.
Qed.

(** ** Closing with a receive pending *)

Definition closed_kcp (k : IJJSKcp) : IJJSKcp :=
  mkKcp (k_closed k) (k_finalized k)
    (mkHandle (h_type (k_udp k)) true false true (h_closed (k_udp k)) (h_data (k_udp k)))
    (k_kcp k) (k_sa k) (k_conv k) (k_read_size k) cleared (k_write k) (k_idle k) (k_nextupdate k).

Lemma kcp_close_method_spec w p o k b pa argv :
  kcp_open w p k b → w_cell w !! o = Some (BClass cls_kcp (Some p)) → pending_at w (k_read_result k) pa →
  wp (ijKcpClose (JS_REF o) argv) (λ v w', v = JS_UNDEFINED ∧ balanced w w' [] ∧
    w_mem w' = <[p := (ByJe, CKcp (closed_kcp k))]> (w_mem w) ∧
    ∃ a, w_cell w' !! pa = Some (BPromise (Fulfilled (JS_REF a))) ∧
         w_cell w' !! a = Some (BObject [("data"%string, JS_UNDEFINED)])) w.
Proof.
  intros [Hs Hp _ (Hu1 & Hu2 & _) _ _ _] Ho Hpend. unfold ijKcpClose, ijKcpGet. wp_step. eapply wp_GetOpaque2_class; [done|].
  wp_step. unfold ijIsPromisePending. wp_step. eapply wp_get_promise; [done|done|].
  wp_step. pose proof Hpend as (Hv & Hpp & Hpc & _). rewrite Hpp. cbn [JS_IsUndefined negb].
  wp_step. wp_step. apply wp_build_object. intros a w1 B1. wp_step. eapply wp_build_imm; [done|done|].
  intros w2 (Hanone & [E2 M2 R2 C2 H2] & Hc2) _. cbn [app] in Hc2.
  assert (Hp2 : w_mem w2 !! p = Some (ByJe, CKcp k)) by by rewrite M2.
  wp_step. eapply (wp_ijSettlePromise (Place p FRead) false [JS_REF a] ByJe (CKcp k) (k_read_result k) pa);
    [done|done|by eapply pending_kept| |].
  { intros x. specialize (Hs x). pose proof (owned_lookup _ x _ _ _ Hp) as Hx. simpl in Hx.
    rewrite R2. world_simpl. count_facts x. decide_all; lia. }
  intros w3 [E3 M3 R3 C3]. specialize (M3 _ _ Hp2). cbn [pl_block pl_field] in M3.
  eapply wp_ijClearPromise; [by rewrite M3; apply lookup_insert_eq|]. wp_step.
  eapply wp_kcp_maybe_close; [cbn [pl_block]; world_simpl; apply lookup_insert_eq|by kcp_simpl|by kcp_simpl|]. wp_step.
  set (w4 := set_mem _ _). assert (M4 : w_mem w4 = <[p := (ByJe, CKcp (closed_kcp k))]> (w_mem w)).
  { subst w4. world_simpl. cbn [pl_block]. by rewrite !insert_insert_eq. }
  split_and!; [done| |done|].
  - intros x. unfold excess. rewrite M4. erewrite owned_update by done. unfold w4, closed_kcp. kcp_simpl.
    world_simpl. lia.
  - exists a. unfold w4. world_simpl. assert (a ≠ pa) by congruence.
    rewrite lookup_insert_eq. split; [done|]. by rewrite lookup_insert_ne by congruence.
Qed.
