(* ===== verification/Misc.v ===== *)
(** * ijmisc.c: clocks, system information, environment variables, random bytes

    Each function under its name. The strings libuv writes into a buffer are answers of
    the environment; the buffer on the stack has 1024 bytes, a longer string is read again
    into a block of its own. *)

From S2P Require Import Prelude State Runtime Logic Promise.

Definition UV_ENOBUFS : Z := -105.

(** JS_NewInt64: a number, whatever its size. *)
Definition JS_NewInt64 (z : Z) : JSValue := JS_INT (signed64 z).

Definition ijHrTime (this : JSValue) (argv : list JSValue) : M JSValue :=
  t ← ask "uv_hrtime" [] ; JS_NewBigUint64 t.

Definition ijGetTimeOfDay (this : JSValue) (argv : list JSValue) : M JSValue :=
  r ← ask "uv_gettimeofday" [] ;
  if negb (r =? 0) then ijThrowErrno r
  else
    sec ← ask "tv_sec" [] ; usec ← ask "tv_usec" [] ;
    mret (JS_NewInt64 (sec * 1000 + Z.quot usec 1000)).

(** [JS_DefinePropertyValueStr(ctx, obj, name, JS_NewString(ctx, value), JS_PROP_C_W_E)] *)
Definition define_string (obj : JSValue) (name : string) (value : bytes) : M unit :=
  s ← JS_NewString value ; JS_DefinePropertyValueStr obj name s.

Fixpoint define_strings (obj : JSValue) (l : list (string * bytes)) : M unit :=
  match l with
  | [] => mret tt
  | (n, v) :: l => define_string obj n v ;; define_strings obj l
  end.

Definition ijUname (this : JSValue) (argv : list JSValue) : M JSValue :=
  r ← ask "uv_os_uname" [] ;
  if negb (r =? 0) then ijThrowErrno r
  else
    sysname ← ask_str "sysname" [] ; release ← ask_str "release" [] ;
    version ← ask_str "version" [] ; machine ← ask_str "machine" [] ;
    obj ← JS_NewObjectProto ;
    define_strings obj [("sysname", default [] sysname); ("release", default [] release);
                        ("version", default [] version); ("machine", default [] machine)]%string ;;
    mret obj.

Definition UV_TTY_TYPE : Z := 14.

Definition ijIsAtty (this : JSValue) (argv : list JSValue) : M JSValue :=
  a0 ← arg_at argv 0 ;
  o ← JS_ToInt32 a0 ;
  match o with
  | None => mret JS_EXCEPTION
  | Some fd => type ← ask "uv_guess_handle" [AZ fd] ; mret (JS_NewBool (type =? UV_TTY_TYPE))
  end.

(** [env] and [envcount] of uv_os_environ are a parameter: the process environment. *)
Definition ijEnviron (env : list (string * bytes)) (this : JSValue) (argv : list JSValue) : M JSValue :=
  r ← ask "uv_os_environ" [] ;
  if negb (r =? 0) then ijThrowErrno r
  else
    obj ← JS_NewObjectProto ;
    define_strings obj env ;;
    log "uv_os_free_environ" [] ;;
    mret obj.

(** The string libuv stored: [JS_NewStringLen(ctx, dbuf, size)]. *)
Definition stored_string (name : string) : M JSValue :=
  s ← ask_str name [] ; JS_NewString (default [] s).

Definition ijGetEnv (this : JSValue) (argv : list JSValue) : M JSValue :=
  a0 ← arg_at argv 0 ;
  name ← JS_ToCString a0 ;
  match name with
  | None => mret JS_EXCEPTION
  | Some (_, n) =>
      r ← ask "uv_os_getenv" [AB n] ;
      if negb (r =? 0) then
        if negb (r =? UV_ENOBUFS) then ijThrowErrno r
        else
          size ← ask "size" [] ;
          dbuf ← js_malloc (CBuf size) ;
          match dbuf with
          | None => mret JS_EXCEPTION
          | Some p =>
              r ← ask "uv_os_getenv" [AB n] ;
              if negb (r =? 0) then js_free p ;; ijThrowErrno r
              else ret ← stored_string "uv_os_getenv" ; js_free p ;; mret ret
          end
      else stored_string "uv_os_getenv"
  end.

Definition ijSetEnv (this : JSValue) (argv : list JSValue) : M JSValue :=
  a0 ← arg_at argv 0 ;
  name ← JS_ToCString a0 ;
  match name with
  | None => mret JS_EXCEPTION
  | Some (_, n) =>
      a1 ← arg_at argv 1 ;
      value ← JS_ToCString a1 ;
      match value with
      | None => mret JS_EXCEPTION
      | Some (_, v) =>
          r ← ask "uv_os_setenv" [AB n; AB v] ;
          if negb (r =? 0) then ijThrowErrno r else mret JS_UNDEFINED
      end
  end.

Definition ijUnsetEnv (this : JSValue) (argv : list JSValue) : M JSValue :=
  a0 ← arg_at argv 0 ;
  name ← JS_ToCString a0 ;
  match name with
  | None => mret JS_EXCEPTION
  | Some (_, n) =>
      r ← ask "uv_os_unsetenv" [AB n] ;
      if negb (r =? 0) then ijThrowErrno r else mret JS_UNDEFINED
  end.

(** ijCwd, ijHomeDir, ijTmpDir and ijExePath differ in the call of libuv only. *)
Definition uv_path (call : string) : M JSValue :=
  r ← ask call [] ;
  if negb (r =? 0) then
    if negb (r =? UV_ENOBUFS) then ijThrowErrno r
    else
      size ← ask "size" [] ;
      dbuf ← js_malloc (CBuf size) ;
      match dbuf with
      | None => mret JS_EXCEPTION
      | Some p =>
          r ← ask call [] ;
          if negb (r =? 0) then js_free p ;; ijThrowErrno r
          else ret ← stored_string call ; js_free p ;; mret ret
      end
  else stored_string call.

Definition ijCwd (this : JSValue) (argv : list JSValue) : M JSValue := uv_path "uv_cwd".
Definition ijHomeDir (this : JSValue) (argv : list JSValue) : M JSValue := uv_path "uv_os_homedir".
Definition ijTmpDir (this : JSValue) (argv : list JSValue) : M JSValue := uv_path "uv_os_tmpdir".
Definition ijExePath (this : JSValue) (argv : list JSValue) : M JSValue := uv_path "uv_exepath".

(** fputc and fputs on stdout (1) or stderr (2). *)
Definition put (f : Z) (s : bytes) : M unit := log "put" [AZ f; AB s].

(** The loop over the arguments; false when a conversion throws. *)
Fixpoint print_args (f : Z) (first : bool) (argv : list JSValue) : M bool :=
  match argv with
  | [] => mret true
  | v :: argv =>
      (if first then mret tt else put f (lit " ")) ;;
      str ← JS_ToCString v ;
      match str with
      | None => mret false
      | Some (p, s) => put f s ;; JS_FreeCString p ;; print_args f false argv
      end
  end.

Definition newline : bytes := [ascii_of_nat 10].

(** The loop runs to [argc], not over the padding. *)
Definition ijPrint (magic : Z) (this : JSValue) (argc : nat) (argv : list JSValue) : M JSValue :=
  let f := if magic =? 0 then 1 else 2 in
  ok ← print_args f true (take argc argv) ;
  if negb ok then mret JS_EXCEPTION
  else put f newline ;; log "fflush" [AZ f] ;; mret JS_UNDEFINED.

(** The buffer after [len] bytes from [off] on have been replaced. *)
Definition overwrite (off : Z) (new data : bytes) : bytes :=
  take (Z.to_nat off) data ++ new ++ drop (Z.to_nat off + length new) data.

Definition set_buffer (v : JSValue) (data : bytes) : M unit :=
  modify (update_cell v (λ b, match b with BArrayBuffer _ => BArrayBuffer data | b => b end)).

(** uv_random fills [len] bytes at [buf + off]. *)
Definition uv_random (v : JSValue) (off len : Z) : M Z :=
  r ← ask "uv_random" [AZ off; AZ len] ;
  if negb (r =? 0) then mret r
  else
    bs ← ask_str "random bytes" [] ;
    data ← gets (body_of v) ;
    match data with
    | Some (BArrayBuffer data) =>
        if Z.of_nat (length data) <? off + len then fail OutOfBounds
        else set_buffer v (overwrite off (take (Z.to_nat len) (default [] bs ++ replicate (Z.to_nat len) (ascii_of_nat 0))) data) ;;
             mret r
    | _ => fail UseAfterFree
    end.

Definition ijRandom (this : JSValue) (argv : list JSValue) : M JSValue :=
  a0 ← arg_at argv 0 ;
  buf ← JS_GetArrayBuffer a0 ;
  match buf with
  | None => mret JS_EXCEPTION
  | Some data =>
      let size := Z.of_nat (length data) in
      a1 ← arg_at argv 1 ;
      off ← (if JS_IsUndefined a1 then mret (Some 0) else JS_ToIndex a1) ;
      match off with
      | None => mret JS_EXCEPTION
      | Some off =>
          a2 ← arg_at argv 2 ;
          len ← (if JS_IsUndefined a2 then mret (Some size) else JS_ToIndex a2) ;
          match len with
          | None => mret JS_EXCEPTION
          | Some len =>
              if size <? unsigned64 (off + len) then JS_ThrowRangeError "array buffer overflow"
              else
                r ← uv_random a0 off len ;
                if negb (r =? 0) then ijThrowErrno r else mret JS_UNDEFINED
          end
      end
  end.

Definition ijjs_misc_funcs (env : list (string * bytes)) : list cfunction :=
  [ CFUNC "hrtime" 0 ijHrTime; CFUNC "gettimeofday" 0 ijGetTimeOfDay; CFUNC "uname" 0 ijUname;
    CFUNC "isatty" 1 ijIsAtty; CFUNC "environ" 0 (ijEnviron env); CFUNC "getenv" 0 ijGetEnv;
    CFUNC "setenv" 2 ijSetEnv; CFUNC "unsetenv" 1 ijUnsetEnv; CFUNC "cwd" 0 ijCwd;
    CFUNC "homedir" 0 ijHomeDir; CFUNC "tmpdir" 0 ijTmpDir; CFUNC "exepath" 0 ijExePath;
    mkCFunction "print" 1 (ijPrint 0); mkCFunction "printError" 1 (ijPrint 1);
    mkCFunction "alert" 1 (ijPrint 1); CFUNC "random" 3 ijRandom ]%string.

(** ** Values for JavaScript *)

Lemma giving_NewString s : giving (JS_NewString s) (λ v w', body_of v w' = Some (BString s)).
Proof.
  intros w. apply wp_js_new. intros a Ha Ra. split; [by apply gives_new_cell|].
  simpl. world_simpl. by rewrite lookup_insert_eq.
Qed.

Lemma giving_stored_string name : giving (stored_string name) (λ v w', ∃ s, body_of v w' = Some (BString s)).
Proof.
  intros w. unfold stored_string. wp_step. wp_step. eapply wp_giving; [apply giving_NewString|].
  intros v w' Hg Hb. split; [|eexists; exact Hb]. eapply quiet_gives; [apply quiet_log_ev|exact Hg].
Qed.

(** The result of a function that answers a string or throws. *)
Definition string_or_throw (v : JSValue) (w : World) : Prop := v = JS_EXCEPTION ∨ ∃ s, body_of v w = Some (BString s).

(** The second try: the block is freed whatever libuv answers. *)
Lemma giving_retry call args size :
  giving (dbuf ← js_malloc (CBuf size) ;
          match dbuf with
          | None => mret JS_EXCEPTION
          | Some p =>
              r ← ask call args ;
              if negb (r =? 0) then js_free p ;; ijThrowErrno r
              else ret ← stored_string call ; js_free p ;; mret ret
          end) string_or_throw.
Proof.
  intros w. wp_step. apply wp_js_malloc.
  - intros p Hp. wp_step. wp_step. wp_step.
    + wp_step. eapply wp_c_free; [lookup_tac|done|]. wp_step.
      split; [|by left]. apply gives_quiet. etrans; [|exact Hq].
      eapply (quiet_temp_block w _ _ p ByJs (CBuf size)); [apply (quiet_log_ev (Ev "js_malloc" []))|done|apply quiet_log_ev|done].
    + wp_step. eapply wp_giving; [apply giving_stored_string|]. intros v w' Hg [s Hs].
      wp_step. eapply wp_c_free; [rewrite (gives_mem _ _ _ Hg); lookup_tac|done|].
      wp_steps. split; [|right; exists s; by destruct v].
      destruct Hg as [He Mm R C Hh]. split; world_simpl; try done.
      by rewrite delete_insert_id.
  - intros w' Hq. wp_steps. split; [by apply gives_quiet|by left].
Qed.

(** cwd, homedir, tmpdir and exepath answer a string or throw, and leave no block behind. *)
Lemma uv_path_spec call : giving (uv_path call) string_or_throw.
Proof.
  intros w. unfold uv_path. wp_step. wp_step. wp_step; [wp_step|].
  - wp_steps. split; [|by left]. apply gives_quiet. etrans; [apply quiet_log_ev|exact Hq].
  - wp_step. wp_step. eapply wp_giving; [apply giving_retry|]. intros v w' Hg Hv. split; [|done].
    eapply quiet_gives; [|exact Hg]. etrans; apply quiet_log_ev.
  - eapply wp_giving; [apply giving_stored_string|]. intros v w' Hg Hv. split; [|by right].
    eapply quiet_gives; [apply quiet_log_ev|exact Hg].
Qed.

(** ** Environment variables

    Nothing frees the strings JS_ToCString made: a call leaves a block for each. *)

Lemma getenv_leak this a argv n w :
  body_of a w = Some (BString n) →
  wp (ijGetEnv this (a :: argv))
     (λ v w', string_or_throw v w' ∧
        ∃ p, w_mem w !! p = None ∧ w_mem w' = <[p := (ByCString, CStr n)]> (w_mem w)) w.
Proof.
  intros Ha. unfold ijGetEnv. wp_step. eapply wp_arg_at; [done|]. wp_step.
  eapply wp_ToCString_str; [done|]. intros p Hp. cbv beta. wp_step. wp_step. wp_step; [wp_step|].
  - wp_step. split; [by left|]. exists p. split; [done|]. by world_simpl.
  - wp_step. wp_step. eapply wp_giving; [apply giving_retry|]. intros v w' Hg Hv. split; [done|].
    exists p. split; [done|]. by rewrite (gives_mem _ _ _ Hg); world_simpl.
  - eapply wp_giving; [apply giving_stored_string|]. intros v w' Hg Hv. split; [by right|].
    exists p. split; [done|]. by rewrite (gives_mem _ _ _ Hg); world_simpl.
Qed.

Lemma setenv_leak this a b argv n x w :
  body_of a w = Some (BString n) → body_of b w = Some (BString x) →
  wp (ijSetEnv this (a :: b :: argv))
     (λ v w', (v = JS_EXCEPTION ∨ v = JS_UNDEFINED) ∧
        ∃ p q, w_mem w !! p = None ∧ w_mem w !! q = None ∧ p ≠ q ∧
          w_mem w' = <[q := (ByCString, CStr x)]> (<[p := (ByCString, CStr n)]> (w_mem w))) w.
Proof.
  intros Ha Hb. unfold ijSetEnv. wp_step. eapply wp_arg_at; [done|]. wp_step.
  eapply wp_ToCString_str; [done|]. intros p Hp. cbv beta. wp_step. eapply wp_arg_at; [done|]. wp_step.
  eapply wp_ToCString_str; [by destruct b|]. intros q Hq. world_simpl_in Hq.
  apply lookup_insert_None in Hq as [Hq Hpq]. cbv beta. wp_steps.
  - split; [by left|]. exists p, q. split_and!; try done. by world_simpl.
  - split; [by right|]. exists p, q. split_and!; try done.
Qed.

Lemma unsetenv_leak this a argv n w :
  body_of a w = Some (BString n) →
  wp (ijUnsetEnv this (a :: argv))
     (λ v w', (v = JS_EXCEPTION ∨ v = JS_UNDEFINED) ∧
        ∃ p, w_mem w !! p = None ∧ w_mem w' = <[p := (ByCString, CStr n)]> (w_mem w)) w.
Proof.
  intros Ha. unfold ijUnsetEnv. wp_step. eapply wp_arg_at; [done|]. wp_step.
  eapply wp_ToCString_str; [done|]. intros p Hp. cbv beta. wp_steps.
  - split; [by left|]. exists p. split; [done|]. by world_simpl.
  - split; [by right|]. by exists p.
Qed.

(** getenv is registered without arguments but reads one. *)
Lemma getenv_no_argument env w this :
  option_map (λ f, call_cfunction f this [] w) (find_cfunction "getenv" (ijjs_misc_funcs env)) =
  Some (Fault OutOfBounds).
Proof. done. Qed.

(** ** print *)

(** What the calls in the log wrote to a stream. *)
Fixpoint written (f : Z) (l : list event) : bytes :=
  match l with
  | [] => []
  | Ev n [AZ g; AB s] :: l => written f l ++ (if String.eqb n "put" && (g =? f) then s else [])
  | _ :: l => written f l
  end.

(** The strings with a space between each two. *)
Fixpoint spaced (first : bool) (l : list bytes) : bytes :=
  match l with
  | [] => []
  | s :: l => (if first then [] else lit " ") ++ s ++ spaced false l
  end.

Lemma written_put f s w : written f (w_log (log_ev (Ev "put" [AZ f; AB s]) w)) = written f (w_log w) ++ s.
Proof. simpl. by rewrite Z.eqb_refl. Qed.

Lemma print_args_spec f first argv ss w :
  Forall2 (λ v s, body_of v w = Some (BString s)) argv ss →
  wp (print_args f first argv)
     (λ ok w', ok = true ∧ quiet w w' ∧ written f (w_log w') = written f (w_log w) ++ spaced first ss) w.
Proof.
  intros H. revert argv first w H. induction ss as [|s ss IH]; intros argv first w H; inv H as [|v ? argv' ? Hv Hs].
  { wp_steps. split_and!; [done|done|]. by rewrite app_nil_r. }
  cbn [print_args].
  assert (Hrest : ∀ w1, quiet w w1 → written f (w_log w1) = written f (w_log w) ++ (if first then [] else lit " ") →
    wp (str ← JS_ToCString v ;
        match str with
        | None => mret false
        | Some (p, s) => put f s ;; JS_FreeCString p ;; print_args f false argv'
        end)
     (λ ok w', ok = true ∧ quiet w w' ∧ written f (w_log w') = written f (w_log w) ++ spaced first (s :: ss)) w1).
  { intros w1 Hq Hw1. wp_step. eapply wp_ToCString_str.
    { destruct v; try done. by apply (quiet_cell _ _ Hq). }
    intros p Hp. cbv beta iota. wp_step. apply wp_log. wp_step. eapply wp_c_free; [lookup_tac|done|].
    set (w2 := set_mem _ _).
    assert (Hq2 : quiet w w2).
    { eapply (quiet_temp_block w w1 _ p ByCString (CStr s)); [done|done|apply (quiet_log_ev (Ev "put" [AZ f; AB s]))|done]. }
    eapply wp_mono; [apply IH|].
    - eapply Forall2_impl; [exact Hs|]. intros u t Hu. destruct u; try done. by apply (quiet_cell _ _ Hq2).
    - intros ok w3 (-> & Hq3 & ->). split_and!; [done|by etrans; [exact Hq2|]|].
      change (w_log w2) with (w_log (log_ev (Ev "put" [AZ f; AB s]) w1)).
      rewrite written_put, Hw1. cbn [spaced]. by rewrite <- !app_assoc. }
  wp_step. destruct first; [apply wp_ret|apply wp_log]; apply Hrest.
  - done.
  - by rewrite app_nil_r.
  - apply quiet_log_ev.
  - apply written_put.
Qed.

Lemma print_spec magic this argv ss w :
  Forall2 (λ v s, body_of v w = Some (BString s)) argv ss →
  let f := if magic =? 0 then 1 else 2 in
  wp (ijPrint magic this (length argv) (pad_args 1 argv))
     (λ v w', v = JS_UNDEFINED ∧ quiet w w' ∧
        written f (w_log w') = written f (w_log w) ++ spaced true ss ++ newline) w.
Proof.
  intros H f. unfold ijPrint. fold f. unfold pad_args. rewrite take_app_length. wp_step.
  eapply wp_mono; [by apply print_args_spec|]. intros ok w1 (-> & Hq & Hw). cbv beta iota. wp_step. wp_step. apply wp_log. wp_steps.
  split_and!; [done|by etrans; [exact Hq|etrans; apply quiet_log_ev]|].
  change (written f (w_log (log_ev (Ev "put" [AZ f; AB newline]) w1)) = written f (w_log w) ++ spaced true ss ++ newline).
  by rewrite written_put, Hw, <- app_assoc.
Qed.

(** ** random *)

Lemma overwrite_length off new data :
  0 ≤ off → off + Z.of_nat (length new) ≤ Z.of_nat (length data) → length (overwrite off new data) = length data.
Proof. intros. unfold overwrite. rewrite !length_app, length_take, length_drop. lia. Qed.

Lemma overwrite_outside off new data i :
  0 ≤ off → off + Z.of_nat (length new) ≤ Z.of_nat (length data) →
  Z.of_nat i < off ∨ off + Z.of_nat (length new) ≤ Z.of_nat i → overwrite off new data !! i = data !! i.
Proof.
  intros H0 H1 [H|H]; unfold overwrite.
  - rewrite lookup_app_l by (rewrite length_take; lia). apply lookup_take_lt. lia.
  - rewrite lookup_app_r by (rewrite length_take; lia). rewrite lookup_app_r by (rewrite length_take; lia).
    rewrite lookup_drop, length_take. f_equal. lia.
Qed.

(** [data'] is [data] with new bytes in a range inside it. *)
Definition filled (off len : Z) (data data' : bytes) : Prop :=
  0 ≤ off ∧ 0 ≤ len ∧ off + len ≤ Z.of_nat (length data) ∧ length data' = length data ∧
  ∀ i, Z.of_nat i < off ∨ off + len ≤ Z.of_nat i → data' !! i = data !! i.

Lemma filled_overwrite off len new data :
  0 ≤ off → 0 ≤ len → off + len ≤ Z.of_nat (length data) → Z.of_nat (length new) = len →
  filled off len data (overwrite off new data).
Proof.
  intros H1 H2 H3 H4. split_and!; try done; [apply overwrite_length; lia|].
  intros i Hi. apply overwrite_outside; lia.
Qed.

(** uv_random writes inside the buffer when the range is. *)
Lemma wp_uv_random b off len data Q w :
  w_cell w !! b = Some (BArrayBuffer data) → 0 ≤ off → 0 ≤ len → off + len ≤ Z.of_nat (length data) →
  (∀ r w', r ≠ 0 → quiet w w' → Q r w') →
  (∀ data' w', filled off len data data' → w_mem w' = w_mem w → (∀ a, rc w' a = rc w a) →
     w_cell w' = <[b := BArrayBuffer data']> (w_cell w) → Q 0 w') →
  wp (uv_random (JS_REF b) off len) Q w.
Proof.
  intros Hb Ho Hl Hs H1 H2. unfold uv_random. wp_step. wp_step. wp_step.
  { wp_step. apply H1; [intros ->; done|apply quiet_log_ev]. }
  apply negb_false_iff, Z.eqb_eq in E as ->. wp_step. wp_step. wp_step. wp_step. simpl body_of. rewrite Hb.
  rewrite (proj2 (Z.ltb_ge _ _)) by lia. wp_steps.
  match goal with |- context [overwrite off ?n data] => apply (H2 (overwrite off n data)) end;
    [apply filled_overwrite; try done| | |].
  - rewrite length_take, length_app, length_replicate. lia.
  - by world_simpl.
  - intros a. by world_simpl.
  - world_simpl. apply map_eq. intros i. destruct (decide (i = b)) as [->|]; by simplify_map_eq.
Qed.

(** random fills the range it was given and nothing outside it, or throws and leaves the
    buffer alone; the ledger is as before. *)
Lemma random_spec this b a1 a2 data w :
  w_cell w !! b = Some (BArrayBuffer data) → Z.of_nat (length data) < 2 ^ 63 →
  wp (ijRandom this [JS_REF b; a1; a2])
     (λ v w', w_mem w' = w_mem w ∧ (∀ a, rc w' a = rc w a) ∧
        ((v = JS_EXCEPTION ∧ w_cell w' !! b = Some (BArrayBuffer data)) ∨
         (v = JS_UNDEFINED ∧ ∃ off len data',
            filled off len data data' ∧ w_cell w' !! b = Some (BArrayBuffer data')))) w.
Proof.
  intros Hb Hsize.
  assert (HE : ∀ w', quiet w w' → w_mem w' = w_mem w ∧ (∀ a, rc w' a = rc w a) ∧
        ((JS_EXCEPTION = JS_EXCEPTION ∧ w_cell w' !! b = Some (BArrayBuffer data)) ∨
         (JS_EXCEPTION = JS_UNDEFINED ∧ ∃ off len data',
            filled off len data data' ∧ w_cell w' !! b = Some (BArrayBuffer data')))).
  { intros w' [_ ? ? Hc]. split_and!; try done. left. split; [done|]. by apply Hc. }
  unfold ijRandom. wp_step. eapply wp_arg_at; [done|]. wp_step. apply wp_GetArrayBuffer; [|intros; wp_steps; by apply HE].
  intros d Hd. simpl in Hd. rewrite Hb in Hd. injection Hd as <-. cbv beta iota.
  wp_step. eapply wp_arg_at; [done|]. wp_step.
  eapply wp_quietly; [apply quietly_default; [apply quietly_ToIndex|intros z [= <-]; lia]|]. intros o w1 Ho Hq1.
  destruct o as [off|]; [specialize (Ho _ eq_refl)|wp_steps; by apply HE].
  wp_step. eapply wp_arg_at; [done|]. wp_step. cbv beta.
  eapply wp_quietly; [apply (quietly_default _ _ _ (λ o, ∀ z, o = Some z → 0 ≤ z < 2 ^ 53 ∨ z = Z.of_nat (length data)))|].
  { eapply quietly_weaken; [apply quietly_ToIndex|]. intros o H z Hz. left. by apply H. }
  { intros z [= <-]. by right. }
  intros o w2 Hl Hq2. destruct o as [len|]; [specialize (Hl _ eq_refl)|wp_steps; apply HE; by etrans].
  assert (Hq : quiet w w2) by by etrans.
  wp_step; [wp_steps; apply HE; by etrans|]. apply Z.ltb_ge in E.
  rewrite unsigned64_small in E by lia. rename E into Hin.
  wp_step. apply (wp_uv_random _ _ _ data); [by apply (quiet_cell _ _ Hq)|lia|lia|done| |].
  - intros r w3 Hr Hq3. rewrite (proj2 (Z.eqb_neq r 0)) by done. wp_steps. apply HE. by etrans; [|etrans].
  - intros data' w3 Hf Hm Hrc Hc. wp_steps. destruct Hq as [_ Hqm Hqr _]. split_and!.
    + by rewrite Hm.
    + intros a. by rewrite Hrc.
    + right. split; [done|]. exists off, len, data'. split; [done|]. by rewrite Hc, lookup_insert_eq.
Qed.

(** With an offset and no length the length is that of the whole buffer, so that the range
    is never inside it. *)
Lemma random_offset_only this b data off w :
  w_cell w !! b = Some (BArrayBuffer data) → 0 < off ≤ MAX_SAFE_INTEGER → Z.of_nat (length data) < 2 ^ 63 →
  wp (ijRandom this [JS_REF b; JS_INT off; JS_UNDEFINED]) (λ v w', v = JS_EXCEPTION) w.
Proof.
  intros Hb Ho Hd. unfold ijRandom. wp_step. eapply wp_arg_at; [done|]. wp_step.
  apply wp_GetArrayBuffer; [|intros; by wp_steps].
  intros d Hd'. simpl in Hd'. rewrite Hb in Hd'. injection Hd' as <-. cbv beta iota.
  wp_step. eapply wp_arg_at; [done|]. wp_step. cbn [JS_IsUndefined]. unfold JS_ToIndex, js_to_number.
  wp_step. wp_step. rewrite (proj2 (Z.ltb_ge off 0)), (proj2 (Z.ltb_ge _ off)) by lia. wp_step.
  wp_step. wp_step. eapply wp_arg_at; [done|]. wp_step. wp_step. wp_step. cbv beta iota.
  unfold MAX_SAFE_INTEGER in Ho. rewrite unsigned64_small by lia.
  rewrite (proj2 (Z.ltb_lt _ _)) by lia. by wp_steps.
Qed.
