(* ===== verification/Worker.v ===== *)
(** * ijworker.c: workers

    The functions that run in the runtime that made the worker; the same ones run, on an
    object of its own, at the other end of the channel. The serialised form of a value is
    quickjs' and a parameter: [write_object] gives the bytes of a value, [read_object] the
    value, immediate or a cell, of the bytes.

    The thread is seen from the outside: it makes its runtime before it posts the
    semaphore ([ijWorkerEntry_start]) and frees it when its loop ends ([ijWorkerEntry_end]).
    The loop ends when the runtime is stopped, by ijWorkerTerminate or, after an error, by
    ijWorkerEval in the thread itself. *)

From S2P Require Import Prelude State Runtime Logic Promise Worlds.

Definition WORKER_EVENT_MESSAGE : nat := 0.
Definition WORKER_EVENT_MESSAGE_ERROR : nat := 1.
Definition WORKER_EVENT_ERROR : nat := 2.
Definition WORKER_EVENT_MAX : nat := 3.

Definition get_worker (p : addr) : M IJJSWorker :=
  c ← load p ; match c with CWorker s => mret s | _ => fail TypeConfusion end.
Definition put_worker (p : addr) (s : IJJSWorker) : M unit := store p (CWorker s).

Definition wk_with_h (h : uv_handle) (s : IJJSWorker) : IJJSWorker :=
  mkWorker h (wk_events s) (wk_wrt s) (wk_is_main s).
Definition wk_with_events (l : list JSValue) (s : IJJSWorker) : IJJSWorker :=
  mkWorker (wk_h s) l (wk_wrt s) (wk_is_main s).
Definition wk_with_wrt (r : option addr) (s : IJJSWorker) : IJJSWorker :=
  mkWorker (wk_h s) (wk_events s) r (wk_is_main s).

Definition ijWorkerGet (obj : JSValue) : M (option addr) := JS_GetOpaque2 obj cls_worker.

(** ** The thread *)

Definition runtime0 : IJJSRuntime := mkRuntime false (handle0 UV_TIMER).

(** Up to uv_sem_post: the runtime, which CHECK_NOT_NULL wants to exist. *)
Definition ijWorkerEntry_start : M addr :=
  wrt ← je_calloc (CRuntime runtime0) ; CHECK_NOT_NULL wrt.

(** ijFreeRuntime, after ijRun has returned. *)
Definition ijWorkerEntry_end (wrt : addr) : M unit := je_free wrt.

Definition ijStop (qrt : addr) : M unit :=
  _ ← load qrt ; log "uv_async_send" [AP qrt].

(** uv_thread_join returns when the thread has ended. *)
Definition uv_thread_join (wrt : addr) : M Z :=
  r ← ask "uv_thread_join" [] ;
  (if r =? 0 then ijWorkerEntry_end wrt else mret tt) ;; mret r.

(** ** Closing *)

Definition uvCloseCb (handle : addr) : M unit :=
  s ← get_worker handle ;
  w ← CHECK_NOT_NULL (h_data (wk_h s)) ;
  je_free w.

Definition ijWorkerFinalizer (val : JSValue) : M unit :=
  o ← JS_GetOpaque val cls_worker ;
  match o with
  | None => mret tt
  | Some w =>
      s ← get_worker w ;
      free_values (wk_events s) ;;
      s ← get_worker w ;
      h ← uv_close (wk_h s) ;
      put_worker w (wk_with_h h s)
  end.

Definition ijWorkerMark (val : JSValue) : M (list JSValue) :=
  o ← JS_GetOpaque val cls_worker ;
  match o with
  | None => mret []
  | Some w => s ← get_worker w ; mret (wk_events s)
  end.

(** libuv finishes closing the handle and runs the callback. *)
Definition worker_close_done (p : addr) : M unit :=
  s ← get_worker p ;
  put_worker p (wk_with_h (handle_closed (wk_h s)) s) ;;
  uvCloseCb p.

(** ** Events *)

(** The job that calls the handler. It releases the references ijMaybeEmitEvent took; the queue
    has its own. *)
Definition ijEmitEvent (argv : list JSValue) : M JSValue :=
  CHECK (length argv =? 2)%nat ;;
  func ← arg_at argv 0 ;
  arg ← arg_at argv 1 ;
  ret ← JS_Call func [arg] ;
  (if JS_IsException ret then ijDumpError else mret tt) ;;
  JS_FreeValue ret ;;
  JS_FreeValue func ;;
  JS_FreeValue arg ;;
  mret JS_UNDEFINED.

(** [JS_EnqueueJob(ctx, ijEmitEvent, 2, args)] *)
Definition JS_EnqueueJob (args : list JSValue) : M Z := ask "JS_EnqueueJob" (AV <$> args).

Definition ijMaybeEmitEvent (w : addr) (event : nat) (arg : JSValue) : M unit :=
  s ← get_worker w ;
  event_func ← arg_at (wk_events s) event ;
  isf ← JS_IsFunction event_func ;
  if negb isf then mret tt
  else
    a0 ← JS_DupValue event_func ;
    a1 ← JS_DupValue arg ;
    r ← JS_EnqueueJob [a0; a1] ;
    CHECK (r =? 0).

(** ** The channel *)

Section Channel.
Context (write_object : JSValue → option jsbody → option bytes).
Context (read_object : bytes → option (JSValue + jsbody)).

Definition JS_WriteObject (v : JSValue) : M (option addr) :=
  b ← gets (body_of v) ;
  match write_object v b with
  | Some data => p ← c_alloc ByJs (CStr data) ; mret (Some p)
  | None => js_raise ;; mret None
  end.

Definition JS_ReadObject (buf : bytes) : M JSValue :=
  match read_object buf with
  | Some (inl v) => mret v
  | Some (inr b) => js_new b
  | None => js_raise ;; mret JS_EXCEPTION
  end.

Definition uvAllocCb (handle : addr) (suggested_size : Z) : M (option addr * Z) :=
  s ← get_worker handle ;
  _ ← CHECK_NOT_NULL (h_data (wk_h s)) ;
  base ← js_malloc (CBuf suggested_size) ;
  mret (base, suggested_size).

(** [contents] are the [buf->len] bytes of the buffer: the [nread] bytes that came and
    whatever was in the block behind them. *)
Definition uvReadCb (handle : addr) (nread : Z) (base : option addr) (contents : bytes) : M unit :=
  s ← get_worker handle ;
  w ← CHECK_NOT_NULL (h_data (wk_h s)) ;
  if nread <? 0 then
    s ← get_worker w ;
    put_worker w (wk_with_h (with_active false (wk_h s)) s) ;;
    js_free_opt base ;;
    if negb (nread =? UV_EOF) then
      error ← ijNewError nread ;
      ijMaybeEmitEvent w WORKER_EVENT_ERROR error ;;
      JS_FreeValue error
    else mret tt
  else
    obj ← JS_ReadObject contents ;
    ijMaybeEmitEvent w WORKER_EVENT_MESSAGE obj ;;
    JS_FreeValue obj ;;
    js_free_opt base.

Definition uvWriteCb (req : addr) (status : Z) : M unit :=
  c ← load req ;
  match c with
  | CWorkerWriteReq wr =>
      h ← deref (ww_handle wr) ;
      s ← get_worker h ;
      w ← CHECK_NOT_NULL (h_data (wk_h s)) ;
      (if status <? 0 then
         error ← ijNewError status ;
         ijMaybeEmitEvent w WORKER_EVENT_MESSAGE_ERROR error ;;
         JS_FreeValue error
       else mret tt) ;;
      js_free_opt (ww_data wr) ;;
      js_free req
  | _ => fail TypeConfusion
  end.

Definition ijWorkerPostMessage (this : JSValue) (argv : list JSValue) : M JSValue :=
  o ← ijWorkerGet this ;
  match o with
  | None => mret JS_EXCEPTION
  | Some w =>
      owr ← js_malloc (CWorkerWriteReq (mkWorkerWrite None None)) ;
      match owr with
      | None => mret JS_EXCEPTION
      | Some wr =>
          a0 ← arg_at argv 0 ;
          obuf ← JS_WriteObject a0 ;
          match obuf with
          | None => js_free wr ;; mret JS_EXCEPTION
          | Some buf =>
              store wr (CWorkerWriteReq (mkWorkerWrite None (Some buf))) ;;
              r ← ask "uv_write" [AP wr; AP w; AP buf] ;
              if negb (r =? 0) then
                js_free buf ;; js_free wr ;; mret JS_EXCEPTION
              else
                (* uv_write has stored the handle in the request *)
                store wr (CWorkerWriteReq (mkWorkerWrite (Some w) (Some buf))) ;;
                mret JS_UNDEFINED
          end
      end
  end.
End Channel.

(** ** Workers *)

Definition worker0 : IJJSWorker :=
  mkWorker (handle0 UV_NAMED_PIPE) [JS_INT 0; JS_INT 0; JS_INT 0] None false.

Definition ijNewWorker (channel_fd : Z) (is_main : bool) : M JSValue :=
  obj ← JS_NewObjectClass cls_worker ;
  if JS_IsException obj then mret obj
  else
    o ← je_calloc (CWorker worker0) ;
    match o with
    | None => JS_FreeValue obj ;; mret JS_EXCEPTION
    | Some w =>
        r ← ask "uv_pipe_init" [AP w] ;
        CHECK (r =? 0) ;;
        r ← ask "uv_pipe_open" [AP w; AZ channel_fd] ;
        CHECK (r =? 0) ;;
        r ← ask "uv_read_start" [AP w] ;
        CHECK (r =? 0) ;;
        put_worker w (mkWorker (mkHandle UV_NAMED_PIPE true true false false (Some w))
                        [JS_UNDEFINED; JS_UNDEFINED; JS_UNDEFINED] None is_main) ;;
        JS_SetOpaque obj w ;;
        mret obj
    end.

(** socketpair: 0, or the negated errno. *)
Definition ijWorkerChannel : M (Z + (Z * Z)) :=
  r ← ask "socketpair" [] ;
  if negb (r =? 0) then (e ← ask "errno" [] ; mret (inl (- e)))
  else fd0 ← ask "fds[0]" [] ; fd1 ← ask "fds[1]" [] ; mret (inr (fd0, fd1)).

Definition ijWorkerConstructor (new_target : JSValue) (argv : list JSValue) : M JSValue :=
  a0 ← arg_at argv 0 ;
  opath ← JS_ToCString a0 ;
  match opath with
  | None => mret JS_EXCEPTION
  | Some (path, _) =>
      ch ← ijWorkerChannel ;
      match ch with
      | inl r => JS_FreeCString path ;; ijThrowErrno r
      | inr (fd0, fd1) =>
          obj ← ijNewWorker fd0 true ;
          if JS_IsException obj then
            log "close" [AZ fd0] ;; log "close" [AZ fd1] ;;
            JS_FreeCString path ;;
            mret JS_EXCEPTION
          else
            ow ← ijWorkerGet obj ;
            r ← ask "uv_sem_init" [] ;
            CHECK (r =? 0) ;;
            r ← ask "uv_thread_create" [] ;
            CHECK (r =? 0) ;;
            wrt ← ijWorkerEntry_start ;
            log "uv_sem_destroy" [] ;;
            JS_FreeCString path ;;
            log "uv_update_time" [] ;;
            w ← deref ow ;
            s ← get_worker w ;
            put_worker w (wk_with_wrt (Some wrt) s) ;;
            mret obj
      end
  end.

Definition ijWorkerTerminate (this : JSValue) (argv : list JSValue) : M JSValue :=
  o ← ijWorkerGet this ;
  match o with
  | None => mret JS_EXCEPTION
  | Some w =>
      s ← get_worker w ;
      (match wk_is_main s, wk_wrt s with
       | true, Some wrt =>
           ijStop wrt ;;
           r ← uv_thread_join wrt ;
           CHECK (r =? 0) ;;
           log "uv_update_time" [] ;;
           s ← get_worker w ;
           put_worker w (wk_with_wrt None s)
       | _, _ => mret tt
       end) ;;
      mret JS_UNDEFINED
  end.

Definition ijWorkerEventGet (this : JSValue) (magic : nat) : M JSValue :=
  o ← ijWorkerGet this ;
  match o with
  | None => mret JS_EXCEPTION
  | Some w => s ← get_worker w ; v ← arg_at (wk_events s) magic ; JS_DupValue v
  end.

Definition ijWorkerEventSet (this value : JSValue) (magic : nat) : M JSValue :=
  o ← ijWorkerGet this ;
  match o with
  | None => mret JS_EXCEPTION
  | Some w =>
      isf ← JS_IsFunction value ;
      (if isf || JS_IsUndefined value || JS_IsNull value then
         s ← get_worker w ;
         old ← arg_at (wk_events s) magic ;
         JS_FreeValue old ;;
         v ← JS_DupValue value ;
         s ← get_worker w ;
         put_worker w (wk_with_events (<[magic := v]> (wk_events s)) s)
       else mret tt) ;;
      mret JS_UNDEFINED
  end.

(** ** Rules *)

Lemma wp_get_worker p al s (Q : IJJSWorker → World → Prop) w :
  w_mem w !! p = Some (al, CWorker s) → Q s w → wp (get_worker p) Q w.
Proof. intros Hp HQ. unfold get_worker. wp_step. eapply wp_load; [done|]. by wp_steps. Qed.

Lemma wp_put_worker p al c s (Q : unit → World → Prop) w :
  w_mem w !! p = Some (al, c) → Q tt (set_mem (<[p := (al, CWorker s)]> (w_mem w)) w) →
  wp (put_worker p s) Q w.
Proof. intros Hp HQ. unfold put_worker. by eapply wp_store. Qed.

Ltac get_worker := eapply wp_get_worker; [lookup_tac|].
Ltac put_worker := eapply wp_put_worker; [lookup_tac|].
Ltac worker_simpl :=
  cbn [own wk_h wk_events wk_wrt wk_is_main wk_with_h wk_with_events wk_with_wrt handles with_active
       h_type h_init h_active h_closing h_closed h_data].

(** A worker whose handle is open. *)
Record worker_at (w : World) (p : addr) (s : IJJSWorker) : Prop := {
  wa_mem : w_mem w !! p = Some (ByJe, CWorker s);
  wa_init : h_init (wk_h s) = true;
  wa_closing : h_closing (wk_h s) = false;
  wa_data : h_data (wk_h s) = Some p;
  wa_events : length (wk_events s) = WORKER_EVENT_MAX
}.

(** JS_EnqueueJob does not fail. *)
Definition jobs_work (e : env) : Prop := ∀ args l, e_int e (Ev "JS_EnqueueJob" args :: l) = 0.

(** The event of a job for [f] with [arg]. *)
Definition job (f arg : JSValue) : event := Ev "JS_EnqueueJob" [AV f; AV arg].

Definition is_function (v : JSValue) (w : World) : bool :=
  match body_of v w with Some (BFunction _) | Some (BResolver _ _) => true | _ => false end.

Lemma wp_MaybeEmitEvent p al s event f arg (Q : unit → World → Prop) w :
  w_mem w !! p = Some (al, CWorker s) → wk_events s !! event = Some f → jobs_work (w_env w) →
  Q tt (if is_function f w then log_ev (job f arg) (take_ref arg (take_ref f w)) else w) →
  wp (ijMaybeEmitEvent p event arg) Q w.
Proof.
  intros Hp Hf He HQ. unfold ijMaybeEmitEvent. wp_step. get_worker. wp_step. eapply wp_arg_at; [done|].
  unfold JS_IsFunction. wp_step. wp_step. fold (is_function f w).
  destruct (is_function f w); simpl negb; cbv iota; [|by wp_steps].
  do 4 wp_step. unfold JS_EnqueueJob. wp_step. apply wp_ask_eq. intros r ->. world_simpl. rewrite He.
  by apply wp_CHECK.
Qed.

(** The job calls the handler and releases the two references. *)
Lemma wp_EmitEvent f arg (Q : JSValue → World → Prop) w :
  nonneg w → holds w (refs_of [f; arg]) →
  (∀ w', w_mem w' = w_mem w → (∀ a, rc w' a = rc w a - cnt a (refs_of [f; arg])) → Q JS_UNDEFINED w') →
  wp (ijEmitEvent [f; arg]) Q w.
Proof.
  intros Hn Hh HQ. unfold ijEmitEvent. wp_step. wp_step. wp_step. eapply wp_arg_at; [done|].
  wp_step. eapply wp_arg_at; [done|]. wp_step. apply wp_JS_Call. intros ret w1 [E1 M1 R1 H1].
  assert (Hn1 : nonneg w1) by nonneg_by Hn.
  wp_step. apply (wp_mono _ (λ _ w2, quiet w1 w2)).
  { destruct (JS_IsException ret); [|by wp_steps].
    eapply wp_quietly_nn; [apply quietly_ijDumpError|done|]. by intros. }
  intros _ w2 Hq. cbv beta in Hq. wp_step.
  assert (R2 : ∀ a, rc w2 a = rc w a + cnt a (ref_of ret)) by (intros a; by rewrite (quiet_rc _ _ Hq), R1).
  assert (Hc : ∀ a, 0 ≤ rc w a ∧ cnt a (ref_of f) + cnt a (ref_of arg) ≤ Z.max 0 (rc w a)).
  { intros a. specialize (Hn a). specialize (Hh a). world_simpl_in Hh. split; [done|]. lia. }
  apply wp_FreeValue. { intros a. specialize (Hc a). rewrite R2. count_facts a. lia. }
  wp_step. apply wp_FreeValue. { intros a. specialize (Hc a). rewrite rc_drop_ref, R2. count_facts a. lia. }
  wp_step. apply wp_FreeValue. { intros a. specialize (Hc a). rewrite !rc_drop_ref, R2. count_facts a. lia. }
  wp_steps. apply HQ.
  - by world_simpl.
  - intros a. rewrite !rc_drop_ref, R2, refs_of_cons, refs_of_cons, refs_of_nil, !cnt_app, cnt_nil. lia.
Qed.

(** ** Messages *)


(** A worker at 10 with a handler for messages, and the buffer of a read at 11. *)
Definition worker1 : IJJSWorker := mkWorker (handle_at UV_NAMED_PIPE 10) [JS_REF 5; JS_UNDEFINED; JS_UNDEFINED] None true.
Definition worker_world : World :=
  world_with 0 {[ 4%positive := BClass cls_worker (Some 10%positive); 5%positive := BFunction 0 ]} {[ 5%positive := 1 ]}
    {[ 10%positive := (ByJe, CWorker worker1); 11%positive := (ByJs, CBuf 1024) ]}.


(** Bytes that are no message are announced as one: the handler gets the exception value. *)
Lemma worker_bad_message read_object p s nread base n contents f id w :
  worker_at w p s → jobs_work (w_env w) →
  wk_events s !! WORKER_EVENT_MESSAGE = Some f → body_of f w = Some (BFunction id) →
  w_mem w !! base = Some (ByJs, CBuf n) → 0 ≤ nread → read_object contents = None →
  wp (uvReadCb read_object p nread (Some base) contents) (λ _ w1,
    w_log w1 = job f JS_EXCEPTION :: w_log w ∧ w_mem w1 = delete base (w_mem w)) w.
Proof.
  intros [H1 H2 H3 H4 H5] He Hf Hb Hbase Hn Hr. unfold uvReadCb. wp_step. get_worker. rewrite H4. do 2 wp_step.
  rewrite (proj2 (Z.ltb_ge nread 0)) by done. unfold JS_ReadObject, js_raise. rewrite Hr. do 5 wp_step.
  eapply wp_MaybeEmitEvent; [lookup_tac|done|by world_simpl|].
  assert (is_function f (set_exc (Some JS_NULL) w) = true) as ->.
  { unfold is_function. destruct f as [| | | | |f']; try done. simpl in *. by rewrite Hb. }
  wp_step. apply wp_FreeValue; [apply holds_nil|]. eapply wp_c_free; [lookup_tac|done|].
  split; [by destruct f|]. by world_simpl.
Qed.

(** What a read error leaves: reading stopped, the buffer freed, an error event except at the end. *)
Lemma worker_read_error read_object p s nread base n contents f w :
  safe w → worker_at w p s → jobs_work (w_env w) → wk_events s !! WORKER_EVENT_ERROR = Some f →
  w_mem w !! base = Some (ByJs, CBuf n) → nread < 0 →
  wp (uvReadCb read_object p nread (Some base) contents) (λ _ w1,
    w_mem w1 = delete base (<[p := (ByJe, CWorker (wk_with_h (with_active false (wk_h s)) s))]> (w_mem w)) ∧
    (balanced w w1 [] ∨ nread ≠ UV_EOF ∧ ∃ v, w_log w1 !! 0%nat = Some (job f v) ∧ balanced w w1 (refs_of [f; v]))) w.
Proof.
  intros Hs [H1 H2 H3 H4 H5] He Hf Hbase Hn. unfold uvReadCb. wp_step. get_worker. rewrite H4. do 2 wp_step.
  rewrite (proj2 (Z.ltb_lt nread 0)) by done. wp_step. get_worker. wp_step. put_worker.
  assert (Hpb : p ≠ base) by congruence.
  wp_step. eapply wp_c_free; [lookup_tac|done|]. set (w1 := set_mem _ _).
  assert (M1 : w_mem w1 = delete base (<[p := (ByJe, CWorker (wk_with_h (with_active false (wk_h s)) s))]> (w_mem w))).
  { subst w1. by world_simpl. }
  assert (B1 : balanced w w1 []).
  { intros x. unfold excess. rewrite M1. erewrite owned_delete by lookup_tac. erewrite owned_update by done.
    worker_simpl. subst w1. world_simpl. cbn [own]. world_simpl. lia. }
  assert (He1 : jobs_work (w_env w1)) by done. clearbody w1.
  wp_step; [|wp_step; split; [done|by left]]. apply negb_true_iff, Z.eqb_neq in E.
  wp_step. eapply wp_giving; [apply giving_ijNewError|]. intros v w2 Hg _. wp_step.
  apply (wp_MaybeEmitEvent p ByJe (wk_with_h (with_active false (wk_h s)) s) _ f);
    [|exact Hf|by rewrite (gives_env _ _ _ Hg)|].
  { rewrite (gives_mem _ _ _ Hg), M1. rewrite lookup_delete_ne by done. apply lookup_insert_eq. }
  assert (Hh := gives_holds _ _ _ Hg).
  destruct (is_function f w2).
  - apply wp_FreeValue.
    { intros x. specialize (Hh x). world_simpl. count_facts x. lia. }
    split; [world_simpl; by rewrite (gives_mem _ _ _ Hg)|]. right. split; [done|]. exists v.
    split; [by destruct v, f|]. intros x. unfold excess. rewrite mem_drop_ref, mem_log_ev, !mem_take_ref, (gives_mem _ _ _ Hg).
    specialize (B1 x). unfold excess in B1. rewrite M1 in B1. world_simpl. rewrite (gives_rc _ _ _ Hg). rewrite cnt_nil in B1. lia.
  - apply wp_FreeValue; [done|]. split; [world_simpl; by rewrite (gives_mem _ _ _ Hg)|]. left.
    intros x. unfold excess. rewrite mem_drop_ref, (gives_mem _ _ _ Hg).
    specialize (B1 x). unfold excess in B1. rewrite M1 in B1. world_simpl. rewrite (gives_rc _ _ _ Hg). rewrite cnt_nil in B1. lia.
Qed.

(** ** Posting *)

(** A message that cannot be sent leaves memory as it was; one that is on its way is a
    request and its bytes, which the write callback frees. *)
Definition in_flight (w w' : World) (p wr buf : addr) (data : bytes) : Prop :=
  w_mem w !! wr = None ∧ w_mem w !! buf = None ∧ wr ≠ buf ∧
  w_mem w' = <[wr := (ByJs, CWorkerWriteReq (mkWorkerWrite (Some p) (Some buf)))]>
               (<[buf := (ByJs, CStr data)]> (w_mem w)).

Lemma post_message_spec write_object w this p s v argv :
  body_of this w = Some (BClass cls_worker (Some p)) → worker_at w p s →
  wp (ijWorkerPostMessage write_object this (v :: argv)) (λ r w',
    (r = JS_EXCEPTION ∧ w_mem w' = w_mem w ∨
     r = JS_UNDEFINED ∧ ∃ wr buf data, write_object v (body_of v w) = Some data ∧ in_flight w w' p wr buf data) ∧
    (∀ a, rc w' a = rc w a)) w.
Proof.
  intros Ht [H1 H2 H3 H4 H5]. unfold ijWorkerPostMessage. wp_step. apply wp_GetOpaque2_class with p; [done|].
  wp_step. apply wp_js_malloc; last first.
  { intros w' Hq. wp_steps. split; [left; split; [done|]|]; [by world_simpl|]. intros a. by world_simpl. }
  intros wr Hwr. wp_step. eapply wp_arg_at; [done|]. unfold JS_WriteObject. do 2 wp_step. wp_step.
  replace (body_of v (new_block _ _ _ _)) with (body_of v w) by by destruct v.
  destruct (write_object v (body_of v w)) as [data|] eqn:Ew; last first.
  { do 4 wp_step. eapply wp_c_free; [lookup_tac|done|]. wp_steps. split; [left; split; [done|]|].
    - world_simpl. by rewrite delete_insert_id.
    - intros a. by world_simpl. }
  wp_step. apply wp_c_alloc. intros buf Hbuf. world_simpl_in Hbuf. apply lookup_insert_None in Hbuf as [Hb1 Hb2].
  wp_step. wp_step. eapply wp_store; [lookup_tac|]. wp_step. wp_step. wp_step.
  - wp_step. eapply wp_c_free; [lookup_tac|done|]. wp_step. eapply wp_c_free; [lookup_tac|done|]. wp_steps.
    split; [left; split; [done|]|].
    + world_simpl. rewrite (insert_insert_ne _ wr) by done. rewrite delete_insert_id; [|by simplify_map_eq].
      by rewrite insert_insert_eq, delete_insert_id.
    + intros a. by world_simpl.
  - wp_step. eapply wp_store; [lookup_tac|]. wp_steps. split; [right; split; [done|]|].
    + exists wr, buf, data. split; [done|]. split_and!; try done. world_simpl.
      by rewrite insert_insert_eq, (insert_insert_ne _ buf wr), insert_insert_eq by done.
    + intros a. by world_simpl.
Qed.

(** The callback of a write that succeeded. *)
Lemma write_done_spec w p s wr buf data :
  worker_at w p s → w_mem w !! wr = Some (ByJs, CWorkerWriteReq (mkWorkerWrite (Some p) (Some buf))) →
  w_mem w !! buf = Some (ByJs, CStr data) →
  wp (uvWriteCb wr 0) (λ _ w', w_mem w' = delete wr (delete buf (w_mem w)) ∧ ∀ a, rc w' a = rc w a) w.
Proof.
  intros [H1 H2 H3 H4 H5] Hwr Hbuf. unfold uvWriteCb. wp_step. eapply wp_load; [done|]. cbn [ww_handle ww_data].
  do 3 wp_step. get_worker. rewrite H4. do 3 wp_step. cbn [Z.ltb Z.compare]. do 2 wp_step. eapply wp_c_free; [done|done|].
  assert (wr ≠ buf) by congruence. eapply wp_c_free; [lookup_tac|done|]. split; [by world_simpl|].
  intros a. by world_simpl.
Qed.

(** Posting a message and having it written leaves the books and memory as they were. *)
Lemma post_message_written write_object w this p s v argv :
  body_of this w = Some (BClass cls_worker (Some p)) → worker_at w p s →
  wp (ijWorkerPostMessage write_object this (v :: argv)) (λ r w1,
    r = JS_EXCEPTION ∧ w_mem w1 = w_mem w ∧ balanced w w1 [] ∨
    r = JS_UNDEFINED ∧ ∃ wr buf data, write_object v (body_of v w) = Some data ∧
      w_mem w1 !! buf = Some (ByJs, CStr data) ∧
      wp (uvWriteCb wr 0) (λ _ w2, w_mem w2 = w_mem w ∧ balanced w w2 []) w1) w.
Proof.
  intros Ht Hw. eapply wp_mono; [by eapply post_message_spec|].
  intros r w1 [[[-> Hm]|(-> & wr & buf & data & Hd & Hwr & Hbuf & Hne & Hm)] Hrc]; [left|right].
  - split_and!; [done|done|]. intros a. unfold excess. rewrite Hm, Hrc, cnt_nil. lia.
  - split; [done|]. exists wr, buf, data. split; [done|].
    assert (Hb1 : w_mem w1 !! buf = Some (ByJs, CStr data)).
    { rewrite Hm, lookup_insert_ne by done. apply lookup_insert_eq. }
    split; [done|]. eapply wp_mono; [apply (write_done_spec w1 p s wr buf data)|].
    + destruct Hw as [H1 H2 H3 H4 H5]. split; try done. rewrite Hm.
      by rewrite !lookup_insert_ne by (intros ->; congruence).
    + by rewrite Hm, lookup_insert_eq.
    + done.
    + intros _ w2 [M2 R2]. rewrite Hm in M2.
      assert (M3 : w_mem w2 = w_mem w).
      { rewrite M2, delete_insert_ne, delete_insert_eq, delete_insert_eq by done. rewrite (delete_id _ buf) by done.
        by apply delete_id. }
      split; [done|]. intros a. unfold excess. rewrite M3, R2, Hrc, cnt_nil. lia.
Qed.

(** ** The end of a worker *)

Lemma wp_worker_finalizer p s val (Q : unit → World → Prop) w :
  safe w → worker_at w p s → body_of val w = Some (BClass cls_worker (Some p)) →
  Q tt (set_mem (<[p := (ByJe, CWorker (wk_with_h (mkHandle (h_type (wk_h s)) true false true (h_closed (wk_h s)) (Some p)) s))]>
          (w_mem w)) (drop_refs (wk_events s) w)) →
  wp (ijWorkerFinalizer val) Q w.
Proof.
  intros Hs [H1 H2 H3 H4 H5] Hv HQ. unfold ijWorkerFinalizer, JS_GetOpaque. do 2 wp_step. rewrite Hv, decide_True by done.
  wp_step. get_worker. wp_step. apply wp_free_values.
  { pose proof (holds_owned _ _ _ _ Hs H1) as Hh. cbn [own] in Hh. by rewrite H3 in Hh. }
  wp_step. get_worker. unfold uv_close. rewrite H2, H3, H4. cbn [negb]. do 2 wp_step. put_worker.
  by rewrite mem_drop_refs.
Qed.

(** The finalizer releases the handlers and closes the channel; libuv's close callback frees the
    structure. *)
Lemma worker_freed p s val w :
  safe w → worker_at w p s → body_of val w = Some (BClass cls_worker (Some p)) →
  wp (ijWorkerFinalizer val ;; worker_close_done p) (λ _ w', w_mem w' = delete p (w_mem w) ∧ balanced w w' []) w.
Proof.
  intros Hs Hw Hv. wp_step. eapply wp_worker_finalizer; [done|done|done|]. destruct Hw as [H1 H2 H3 H4 H5].
  unfold worker_close_done, uvCloseCb. wp_step. get_worker. wp_step. put_worker. wp_step. get_worker.
  worker_simpl. unfold handle_closed. worker_simpl. do 2 wp_step.
  eapply wp_c_free; [lookup_tac|worker_simpl; simpl; by world_simpl|].
  split; [world_simpl; by rewrite !delete_insert_eq|].
  intros a. unfold excess. world_simpl. rewrite !delete_insert_eq. erewrite owned_delete by done.
  cbn [own]. rewrite H3. world_simpl. lia.
Qed.

(** A write that is still pending when the object is collected is cancelled, and its callback
    schedules the handler the finalizer has released. *)
Lemma write_cancelled_after_finalizer p s val wr buf data f id w :
  safe w → worker_at w p s → body_of val w = Some (BClass cls_worker (Some p)) → jobs_work (w_env w) →
  wk_events s !! WORKER_EVENT_MESSAGE_ERROR = Some (JS_REF f) → w_cell w !! f = Some (BFunction id) →
  w_mem w !! wr = Some (ByJs, CWorkerWriteReq (mkWorkerWrite (Some p) (Some buf))) →
  w_mem w !! buf = Some (ByJs, CStr data) →
  wp (ijWorkerFinalizer val) (λ _ w1, rc w1 f < rc w f ∧
    wp (uvWriteCb wr UV_ECANCELED) (λ _ w2, ∃ err, w_log w2 !! 0%nat = Some (job (JS_REF f) err)) w1) w.
Proof.
  intros Hs Hw Hv He Hf Hfb Hwr Hbuf. eapply wp_worker_finalizer; [done|done|done|]. destruct Hw as [H1 H2 H3 H4 H5].
  set (w1 := set_mem _ _). split.
  { subst w1. rewrite rc_set_mem, rc_drop_refs. apply list_elem_of_lookup_2, list_elem_of_split in Hf as (l1 & l2 & ->).
    rewrite refs_of_app, refs_of_cons, !cnt_app. cbn [ref_of]. rewrite (cnt_cons f f), cnt_nil, decide_True by done.
    count_facts f. lia. }
  assert (wr ≠ p) by congruence. assert (buf ≠ p) by congruence. assert (wr ≠ buf) by congruence.
  unfold uvWriteCb. wp_step. eapply wp_load; [subst w1; lookup_tac|]. cbn [ww_handle ww_data].
  do 3 wp_step. eapply wp_get_worker; [subst w1; lookup_tac|]. worker_simpl. do 3 wp_step.
  change (UV_ECANCELED <? 0) with true. cbv iota. wp_step. eapply wp_giving; [apply giving_ijNewError|].
  intros err w2 Hg _. wp_step. eapply wp_MaybeEmitEvent; [rewrite (gives_mem _ _ _ Hg); subst w1; lookup_tac|exact Hf| |].
  { rewrite (gives_env _ _ _ Hg). subst w1. by world_simpl. }
  assert (is_function (JS_REF f) w2 = true) as ->.
  { unfold is_function. simpl. rewrite (gives_cell _ _ _ Hg f (BFunction id)); [done|]. subst w1. by world_simpl. }
  assert (Hh := gives_holds _ _ _ Hg).
  apply wp_FreeValue. { intros x. specialize (Hh x). world_simpl. count_facts x. decide_all; lia. }
  wp_step. eapply wp_c_free; [world_simpl; rewrite (gives_mem _ _ _ Hg); subst w1; lookup_tac|done|].
  eapply wp_c_free; [world_simpl; rewrite (gives_mem _ _ _ Hg); subst w1; lookup_tac|done|].
  exists err. by destruct err.
Qed.

(** ** terminate *)

(** The thread runs: its runtime is there. *)
Definition running (w : World) (s : IJJSWorker) (wrt : addr) : Prop :=
  wk_is_main s = true ∧ wk_wrt s = Some wrt ∧ ∃ r, w_mem w !! wrt = Some (ByJe, CRuntime r) ∧ h_open (rt_timer r) = false.

Definition threads_work (e : env) : Prop := ∀ args l, e_int e (Ev "uv_thread_join" args :: l) = 0.

(** Without a thread there is nothing to do. *)
Lemma terminate_idle this p al s argv w :
  body_of this w = Some (BClass cls_worker (Some p)) → w_mem w !! p = Some (al, CWorker s) → wk_wrt s = None →
  ijWorkerTerminate this argv w = Ok JS_UNDEFINED w.
Proof.
  intros Ht Hp Hr. unfold ijWorkerTerminate, ijWorkerGet, JS_GetOpaque2, JS_GetOpaque, mbind, M_bind, gets.
  rewrite Ht, decide_True by done. cbn. unfold get_worker, load, mbind, M_bind. rewrite Hp. cbn. rewrite Hr.
  by destruct (wk_is_main s).
Qed.

(** terminate stops the thread, waits for it and forgets its runtime, which the thread has freed;
    calling it again does nothing. *)
Lemma terminate_spec this p s wrt argv w :
  body_of this w = Some (BClass cls_worker (Some p)) → worker_at w p s → running w s wrt → threads_work (w_env w) →
  wp (ijWorkerTerminate this argv) (λ v w1, v = JS_UNDEFINED ∧ balanced w w1 [] ∧
    w_mem w1 = <[p := (ByJe, CWorker (wk_with_wrt None s))]> (delete wrt (w_mem w)) ∧
    ijWorkerTerminate this argv w1 = Ok JS_UNDEFINED w1) w.
Proof.
  intros Ht [H1 H2 H3 H4 H5] (Hm & Hr & r & Hw & Ho) He. assert (Hpw : p ≠ wrt) by congruence.
  unfold ijWorkerTerminate at 1. wp_step. apply wp_GetOpaque2_class with p; [done|]. wp_step. get_worker.
  rewrite Hm, Hr. do 2 wp_step. unfold ijStop at 1. wp_step. eapply wp_load; [done|]. wp_step.
  unfold uv_thread_join at 1. wp_step. wp_step. apply wp_ask_eq. intros z ->. world_simpl. rewrite He. cbn [Z.eqb]. wp_step.
  eapply wp_c_free; [lookup_tac|cbn; by rewrite Ho|]. do 5 wp_step. wp_step. get_worker. put_worker. wp_step. split_and!.
  - done.
  - intros a. unfold excess. world_simpl. erewrite owned_update by lookup_tac. erewrite owned_delete by done.
    worker_simpl. rewrite H3. world_simpl. lia.
  - by world_simpl.
  - eapply terminate_idle; [by destruct this|lookup_tac|done].
Qed.

(** When the thread has ended by itself, terminate uses the runtime it has freed. *)
Lemma terminate_after_end this p s wrt argv w :
  body_of this w = Some (BClass cls_worker (Some p)) → worker_at w p s → running w s wrt →
  (ijWorkerEntry_end wrt ;; ijWorkerTerminate this argv) w = Fault UseAfterFree.
Proof.
  intros Ht [H1 H2 H3 H4 H5] (Hm & Hr & r & Hw & Ho). assert (Hpw : p ≠ wrt) by congruence.
  apply fault_bind. eapply wp_c_free; [done|cbn; by rewrite Ho|].
  unfold ijWorkerTerminate. apply fault_bind. apply wp_GetOpaque2_class with p; [by destruct this|].
  apply fault_bind. get_worker. rewrite Hm, Hr. apply fault_first, fault_first. unfold ijStop. apply fault_first.
  unfold load. world_simpl. by rewrite lookup_delete_eq.
Qed.

(** ** Handlers *)

Lemma cnt_refs_insert (l : list JSValue) i old v a :
  l !! i = Some old → cnt a (refs_of (<[i := v]> l)) = cnt a (refs_of l) + cnt a (ref_of v) - cnt a (ref_of old).
Proof.
  revert i; induction l as [|x l IH]; intros i H; [done|]. destruct i as [|i]; simpl in H.
  - injection H as ->. change (<[0%nat := v]> (old :: l)) with (v :: l). rewrite !refs_of_cons, !cnt_app. lia.
  - change (<[S i := v]> (x :: l)) with (x :: <[i := v]> l). rewrite !refs_of_cons, !cnt_app, IH by done. lia.
Qed.

(** A handler that is set is the one read back; the structure takes a reference to it and gives
    up the old one. *)
Lemma event_set_get this value p s magic w :
  safe w → body_of this w = Some (BClass cls_worker (Some p)) → worker_at w p s → (magic < WORKER_EVENT_MAX)%nat →
  is_function value w || JS_IsUndefined value || JS_IsNull value = true →
  wp (_ ← ijWorkerEventSet this value magic ; ijWorkerEventGet this magic)
     (λ v w', v = value ∧ balanced w w' (ref_of value) ∧
        w_mem w' = <[p := (ByJe, CWorker (wk_with_events (<[magic := value]> (wk_events s)) s))]> (w_mem w)) w.
Proof.
  intros Hs Ht [H1 H2 H3 H4 H5] Hk Hv.
  destruct (lookup_lt_is_Some_2 (wk_events s) magic) as [old Hold]; [by rewrite H5|].
  pose proof (holds_owned _ _ _ _ Hs H1) as Hh. cbn [own] in Hh. rewrite H3 in Hh.
  wp_step. unfold ijWorkerEventSet. wp_step. apply wp_GetOpaque2_class with p; [done|].
  unfold JS_IsFunction. wp_step. wp_step. fold (is_function value w). rewrite Hv. wp_step. wp_step. get_worker.
  wp_step. eapply wp_arg_at; [done|]. wp_step. apply wp_FreeValue.
  { intros a. specialize (Hh a). pose proof (cnt_refs_insert _ _ _ JS_NULL a Hold) as Hc. cbn [ref_of] in Hc.
    rewrite cnt_nil in Hc. count_facts a. lia. }
  do 3 wp_step. get_worker. put_worker. wp_step. unfold ijWorkerEventGet. wp_step.
  apply wp_GetOpaque2_class with p; [by destruct this, old, value|]. wp_step. get_worker. wp_step.
  eapply wp_arg_at; [worker_simpl; rewrite list_lookup_insert_eq; [done|by rewrite H5]|].
  wp_step. split_and!; [done| |by world_simpl].
  intros a. unfold excess. world_simpl. erewrite owned_update by done. worker_simpl. rewrite H3.
  rewrite (cnt_refs_insert _ _ _ _ _ Hold). lia.
Qed.

(** ** Making a worker *)

(** The calls the code CHECKs succeed, and the thread finds memory for its runtime. *)
Definition workers_work (e : env) : Prop :=
  ∀ name args l, name ∈ ["uv_pipe_init"; "uv_pipe_open"; "uv_read_start"; "uv_sem_init"; "uv_thread_create"; "je_calloc"]%string →
  e_int e (Ev name args :: l) = 0.

(** A worker as ijNewWorker leaves it. *)
Definition new_worker (p : addr) (wrt : option addr) (is_main : bool) : IJJSWorker :=
  mkWorker (mkHandle UV_NAMED_PIPE true true false false (Some p)) [JS_UNDEFINED; JS_UNDEFINED; JS_UNDEFINED] wrt is_main.

Ltac ask_works H := apply wp_ask_eq; intros ? ->; world_simpl; rewrite H by set_solver.

Lemma wp_NewWorker fd is_main (Q : JSValue → World → Prop) w :
  workers_work (w_env w) →
  (∀ w', quiet w w' → Q JS_EXCEPTION w') →
  (∀ o p w', w_cell w !! o = None → w_mem w !! p = None → rc w o = 0 →
     w_env w' = w_env w → w_cell w' = <[o := BClass cls_worker (Some p)]> (w_cell w) →
     w_mem w' = <[p := (ByJe, CWorker (new_worker p None is_main))]> (w_mem w) →
     (∀ a, rc w' a = rc w a + cnt a [o]) → Q (JS_REF o) w') →
  wp (ijNewWorker fd is_main) Q w.
Proof.
  intros He HE HQ. unfold ijNewWorker, JS_NewObjectClass. wp_step. apply wp_try_new; last first.
  { intros w' Hq. wp_steps. by apply HE. }
  intros o Ho Ro. cbn [JS_IsException]. unfold je_calloc. do 2 wp_step. ask_works He. cbn [Z.eqb]. wp_step.
  apply wp_c_alloc. intros p Hp. world_simpl_in Hp. do 2 wp_step. ask_works He. do 3 wp_step. ask_works He.
  do 3 wp_step. ask_works He. do 3 wp_step. put_worker. unfold JS_SetOpaque. wp_steps.
  eapply (HQ o p); try done.
  - world_simpl. by rewrite alter_insert_eq.
  - world_simpl. by rewrite insert_insert_eq.
  - intros a. world_simpl. decide_all; lia.
Qed.

(** The constructor gives a worker without handlers whose thread runs, or throws; the path is
    freed either way. *)
Lemma worker_constructor_spec new_target a argv w :
  workers_work (w_env w) →
  wp (ijWorkerConstructor new_target (a :: argv)) (λ v w', balanced w w' (ref_of v) ∧
    (v = JS_EXCEPTION ∧ w_mem w' = w_mem w ∨
     ∃ o p wrt, v = JS_REF o ∧ w_cell w' !! o = Some (BClass cls_worker (Some p)) ∧ p ≠ wrt ∧
       worker_at w' p (new_worker p (Some wrt) true) ∧ running w' (new_worker p (Some wrt) true) wrt ∧
       delete wrt (delete p (w_mem w')) = w_mem w)) w.
Proof.
  intros He. unfold ijWorkerConstructor. wp_step. eapply wp_arg_at; [done|]. wp_step.
  assert (HE : ∀ w', quiet w w' → balanced w w' [] ∧ w_mem w' = w_mem w).
  { intros w' Hq. split; [by apply quiet_balanced|]. by apply quiet_mem. }
  apply wp_ToCString; last first.
  { intros w' Hq. wp_steps. destruct (HE _ Hq). split; [done|]. by left. }
  intros w1 path s Hq1 Hpath. cbv beta iota. unfold ijWorkerChannel. do 3 wp_step. wp_step.
  { do 3 wp_step. cbv iota. wp_step. eapply wp_c_free; [lookup_tac|done|]. wp_step.
    match goal with |- balanced w ?w' _ ∧ _ => assert (Hq' : quiet w w') end.
    { etrans; [|exact Hq]. eapply (quiet_temp_block w w1); [done|done| |done]. etrans; apply quiet_log_ev. }
    destruct (HE _ Hq'). split; [done|]. by left. }
  do 5 wp_step. cbv iota. wp_step. apply wp_NewWorker.
  { world_simpl. done. }
  { intros w2 Hq2. cbn [JS_IsException]. do 5 wp_step. eapply wp_c_free; [lookup_tac|done|]. wp_steps.
    match goal with |- balanced w ?w' _ ∧ _ => assert (Hq' : quiet w w') end.
    { eapply (quiet_temp_block w w1); [done|done| |done]. do 3 (etrans; [apply quiet_log_ev|]).
      etrans; [exact Hq2|]. etrans; apply quiet_log_ev. }
    destruct (HE _ Hq'). split; [done|]. by left. }
  intros o p w2 Ho Hp Ro E2 C2 M2 R2. world_simpl_in Hp. apply lookup_insert_None in Hp as [Hp Hpp].
  world_simpl_in Ho. world_simpl_in Ro. world_simpl_in E2. rewrite (quiet_env _ _ Hq1) in E2.
  rewrite !mem_log_ev, mem_new_block, (quiet_mem _ _ Hq1) in M2.
  cbn [JS_IsException]. wp_step. apply wp_GetOpaque2_class with p; [simpl; rewrite C2; apply lookup_insert_eq|].
  wp_step. apply wp_ask_eq. intros ? ->. world_simpl. rewrite E2, He by set_solver. do 3 wp_step.
  apply wp_ask_eq. intros ? ->. world_simpl. rewrite E2, He by set_solver. do 3 wp_step.
  unfold ijWorkerEntry_start, je_calloc. wp_step. wp_step. apply wp_ask_eq. intros ? ->. world_simpl.
  rewrite E2, He by set_solver. cbn [Z.eqb]. wp_step. apply wp_c_alloc. intros wrt Hwrt. world_simpl_in Hwrt.
  apply lookup_insert_None in Hwrt as [Hwrt Hpw]. apply lookup_insert_None in Hwrt as [Hwrt Hpath'].
  do 5 wp_step. eapply wp_c_free; [lookup_tac|done|]. do 4 wp_step. wp_step. get_worker. wp_step. put_worker. wp_step.
  set (w3 := set_mem _ _).
  assert (M3 : w_mem w3 = <[p := (ByJe, CWorker (new_worker p (Some wrt) true))]>
                 (<[wrt := (ByJe, CRuntime runtime0)]> (w_mem w))).
  { subst w3. world_simpl.
    rewrite delete_insert_ne, delete_insert_ne by congruence. rewrite delete_insert_id by by rewrite <- (quiet_mem _ _ Hq1).
    rewrite (insert_insert_ne _ wrt) by done. by rewrite insert_insert_eq. }
  split.
  - intros x. unfold excess. rewrite M3, owned_insert, owned_insert; [|done|by rewrite lookup_insert_ne].
    cbn [own runtime0 wk_h new_worker h_closing wk_events]. subst w3. world_simpl. lia.
  - right. exists o, p, wrt. split_and!; try done.
    + subst w3. world_simpl. apply lookup_insert_eq.
    + split; try done. rewrite M3. apply lookup_insert_eq.
    + split_and!; try done. exists runtime0. split; [|done]. rewrite M3, lookup_insert_ne by done. apply lookup_insert_eq.
    + rewrite M3, delete_insert_id, delete_insert_id; [done|done|]. by rewrite lookup_insert_ne.
Qed.
