(* ===== verification/Curl.v ===== *)
(** * The curl context of the runtime: ijutils.c

    The multi handle is made when it is first wanted. curl tells which sockets it waits for
    ([ijCurlHandleSocket]): each has a poll handle in a block of its own, which curl keeps
    as the socket's pointer; and when it wants to be called ([ijCurlStartTimeout]). What
    happens when a socket is ready or the timer is due is in Xhr.v. *)

From S2P Require Import Prelude State Runtime Logic Worlds.

Definition get_rt (qrt : addr) : M IJJSRuntime :=
  c ← load qrt ; match c with CRuntime r => mret r | _ => fail TypeConfusion end.
Definition put_rt (qrt : addr) (r : IJJSRuntime) : M unit := store qrt (CRuntime r).

(** The multi handle, false for NULL. *)
Definition ijGetCurlm (qrt : addr) : M bool :=
  r ← get_rt qrt ;
  (if rt_curlm_h r then mret tt
   else
     m ← ask "curl_multi_init" [] ;
     log "CURLMOPT_SOCKETDATA" [AP qrt] ;;
     log "CURLMOPT_TIMERDATA" [AP qrt] ;;
     put_rt qrt (mkRuntime (m =? 0) (rt_timer r)) ;;
     z ← ask "uv_timer_init" [AP qrt] ;
     CHECK (z =? 0) ;;
     r ← get_rt qrt ;
     put_rt qrt (mkRuntime (rt_curlm_h r) (with_data (Some qrt) (handle_init (rt_timer r))))) ;;
  r ← get_rt qrt ;
  mret (rt_curlm_h r).

Inductive poll_action := CURL_POLL_IN | CURL_POLL_OUT | CURL_POLL_INOUT | CURL_POLL_REMOVE.

#[export] Instance poll_action_eq_dec : EqDecision poll_action.
Proof. solve_decision. Defined.

Definition UV_READABLE : Z := 1.
Definition UV_WRITABLE : Z := 2.

(** [events] of the actions that wait *)
Definition poll_events (a : poll_action) : Z :=
  Z.lor (if decide (a = CURL_POLL_IN) then 0 else UV_WRITABLE)
        (if decide (a = CURL_POLL_OUT) then 0 else UV_READABLE).

Definition get_poll (p : addr) : M IJJSCurlPollCtx :=
  c ← load p ; match c with CPollCtx c => mret c | _ => fail TypeConfusion end.
Definition put_poll (p : addr) (c : IJJSCurlPollCtx) : M unit := store p (CPollCtx c).

(** je_malloc *)
Definition je_malloc (c : cstruct) : M (option addr) :=
  r ← ask "je_malloc" [] ;
  if r =? 0 then (p ← c_alloc ByJe c ; mret (Some p)) else mret None.

(** The pointer curl keeps for the socket is the state: [socketp] before, the result after,
    beside the result of the function. *)
Definition ijCurlHandleSocket (s : Z) (action : poll_action) (qrt : addr) (socketp : option addr) :
    M (Z * option addr) :=
  match action with
  | CURL_POLL_IN | CURL_POLL_OUT | CURL_POLL_INOUT =>
      o ← (match socketp with
           | Some p => mret (Some p)
           | None =>
               o ← je_malloc (CPollCtx (mkPollCtx (handle0 UV_POLL) 0 None)) ;
               match o with
               | None => mret None
               | Some p =>
                   r ← ask "uv_poll_init_socket" [AP p; AZ s] ;
                   CHECK (r =? 0) ;;
                   put_poll p (mkPollCtx (with_data (Some p) (handle_init (handle0 UV_POLL))) s (Some qrt)) ;;
                   mret (Some p)
               end
           end) ;
      match o with
      | None => mret (-1, socketp)
      | Some p =>
          log "curl_multi_assign" [AZ s; AP p] ;;
          r ← ask "uv_poll_start" [AP p; AZ (poll_events action)] ;
          CHECK (r =? 0) ;;
          c ← get_poll p ;
          put_poll p (mkPollCtx (with_active true (pc_poll c)) (pc_sockfd c) (pc_qrt c)) ;;
          mret (0, Some p)
      end
  | CURL_POLL_REMOVE =>
      match socketp with
      | None => mret (0, None)
      | Some p =>
          r ← ask "uv_poll_stop" [AP p] ;
          CHECK (r =? 0) ;;
          c ← get_poll p ;
          put_poll p (mkPollCtx (with_active false (pc_poll c)) (pc_sockfd c) (pc_qrt c)) ;;
          log "curl_multi_assign" [AZ s] ;;
          c ← get_poll p ;
          h ← uv_close (pc_poll c) ;
          put_poll p (mkPollCtx h (pc_sockfd c) (pc_qrt c)) ;;
          mret (0, None)
      end
  end.

Definition uvPollCloseCb (handle : addr) : M unit :=
  c ← get_poll handle ;
  p ← CHECK_NOT_NULL (h_data (pc_poll c)) ;
  je_free p.

(** libuv finishes closing the handle and runs the callback. *)
Definition poll_close_done (p : addr) : M unit :=
  c ← get_poll p ;
  put_poll p (mkPollCtx (handle_closed (pc_poll c)) (pc_sockfd c) (pc_qrt c)) ;;
  uvPollCloseCb p.

Definition ijCurlStartTimeout (timeout_ms : Z) (qrt : addr) : M Z :=
  r ← get_rt qrt ;
  (if timeout_ms <? 0 then
     z ← ask "uv_timer_stop" [AP qrt] ;
     CHECK (z =? 0) ;;
     put_rt qrt (mkRuntime (rt_curlm_h r) (with_active false (rt_timer r)))
   else
     let timeout_ms := if timeout_ms =? 0 then 1 else timeout_ms in
     z ← ask "uv_timer_start" [AP qrt; AZ timeout_ms] ;
     CHECK (z =? 0) ;;
     put_rt qrt (mkRuntime (rt_curlm_h r) (with_active true (rt_timer r)))) ;;
  mret 0.

(** ** A synchronous download: ijCurlLoadHttp

    The chunks curl hands over until it is done or a chunk is not taken, its result, and the result
    and response code curl_easy_getinfo gives. [grow] says whether the buffer can have a size. *)
Record http_answer := mkAnswer { ha_chunks : list bytes; ha_res : Z; ha_info : Z; ha_code : Z }.

(** ijCurlWriteCb: the bytes taken, -1 for an error *)
Definition ijCurlWriteCb (grow : Z → bool) (dbuf data : bytes) : Z * bytes :=
  if grow (Z.of_nat (length dbuf + length data)) then (Z.of_nat (length data), dbuf ++ data) else (-1, dbuf).

Definition CURLE_WRITE_ERROR : Z := 23.

Fixpoint perform (grow : Z → bool) (chunks : list bytes) (res : Z) (dbuf : bytes) : Z * bytes :=
  match chunks with
  | [] => (res, dbuf)
  | c :: chunks =>
      let '(n, dbuf) := ijCurlWriteCb grow dbuf c in
      if n =? Z.of_nat (length c) then perform grow chunks res dbuf else (CURLE_WRITE_ERROR, dbuf)
  end.

Definition ijCurlLoadHttp (grow : Z → bool) (a : http_answer) (dbuf : bytes) : Z * bytes :=
  let '(res, dbuf) := perform grow (ha_chunks a) (ha_res a) dbuf in
  let '(r, res) :=
    if res =? 0 then (if ha_info a =? 0 then signed32 (ha_code a) else -1, ha_info a) else (-1, res) in
  let r := if negb (res =? 0) then - res else r in
  (r, if grow (Z.of_nat (length dbuf + 1)) then dbuf ++ [ascii_of_nat 0] else dbuf).
