(* ===== verification/CurlProofs.v ===== *)
(** * The sockets of curl: theorems

    curl keeps for each socket the pointer [ijCurlHandleSocket] assigned to it. In every run of
    socket callbacks and close callbacks each socket waited for has a poll handle of its own, and
    no context is lost or freed twice. Then a synchronous download. *)

From S2P Require Import Prelude State Runtime Logic Worlds Curl.

(** libuv accepts the sockets of curl. *)
Definition polls_work (e : env) : Prop :=
  ∀ args l, e_int e (Ev "uv_poll_init_socket" args :: l) = 0 ∧ e_int e (Ev "uv_poll_start" args :: l) = 0 ∧
    e_int e (Ev "uv_poll_stop" args :: l) = 0.

(** The context of a socket that is waited for, and of one whose handle is closing. *)
Definition waiting (qrt : addr) (s : Z) (p : addr) : IJJSCurlPollCtx :=
  mkPollCtx (mkHandle UV_POLL true true false false (Some p)) s (Some qrt).
Definition leaving (qrt : addr) (s : Z) (p : addr) : IJJSCurlPollCtx :=
  mkPollCtx (mkHandle UV_POLL true false true false (Some p)) s (Some qrt).

Lemma wp_get_poll p al c (Q : IJJSCurlPollCtx → World → Prop) w :
  w_mem w !! p = Some (al, CPollCtx c) → Q c w → wp (get_poll p) Q w.
Proof. intros Hp HQ. unfold get_poll. wp_step. eapply wp_load; [done|]. by wp_steps. Qed.

Section Sockets.
Context (qrt : addr).

(** Changes of memory alone. *)
Record only_mem (m : gmap addr (allocator * cstruct)) (w w' : World) : Prop := {
  om_env : w_env w' = w_env w;
  om_cell : w_cell w' = w_cell w;
  om_rc : ∀ a, rc w' a = rc w a;
  om_mem : w_mem w' = m
}.

(** The end of the branches that wait. *)
Lemma wp_poll_start s events p c w (Q : Z * option addr → World → Prop) :
  polls_work (w_env w) → w_mem w !! p = Some (ByJe, CPollCtx c) →
  (∀ w', only_mem (<[p := (ByJe, CPollCtx (mkPollCtx (with_active true (pc_poll c)) (pc_sockfd c) (pc_qrt c)))]> (w_mem w)) w w' →
     Q (0, Some p) w') →
  wp (log "curl_multi_assign" [AZ s; AP p] ;; r ← ask "uv_poll_start" [AP p; AZ events] ; CHECK (r =? 0) ;;
      c ← get_poll p ; put_poll p (mkPollCtx (with_active true (pc_poll c)) (pc_sockfd c) (pc_qrt c)) ;; mret (0, Some p)) Q w.
Proof.
  intros He Hp HQ. unfold put_poll. wp_step. wp_step. wp_step. apply wp_ask_eq. intros z ->. world_simpl. rewrite (proj1 (proj2 (He _ _))).
  wp_step. wp_step. wp_step. eapply wp_get_poll; [lookup_tac|]. wp_step. eapply wp_store; [lookup_tac|]. wp_step.
  apply HQ. split; world_simpl; done.
Qed.

Lemma wp_watch s action p w (Q : Z * option addr → World → Prop) :
  polls_work (w_env w) → action ≠ CURL_POLL_REMOVE → w_mem w !! p = Some (ByJe, CPollCtx (waiting qrt s p)) →
  (∀ w', only_mem (w_mem w) w w' → Q (0, Some p) w') →
  wp (ijCurlHandleSocket s action qrt (Some p)) Q w.
Proof.
  intros He Ha Hp HQ. unfold ijCurlHandleSocket.
  destruct action; [| | |done]; (wp_step; wp_step; eapply wp_poll_start; [done|done|]; intros w' Hw; apply HQ;
    cbn in Hw; by rewrite (insert_id (w_mem w)) in Hw).
Qed.

(** A context for a socket that has none. *)
Lemma wp_new_context s w (Q : option addr → World → Prop) :
  polls_work (w_env w) →
  (∀ w', only_mem (w_mem w) w w' → Q None w') →
  (∀ p w', w_mem w !! p = None →
     only_mem (<[p := (ByJe, CPollCtx (mkPollCtx (with_data (Some p) (handle_init (handle0 UV_POLL))) s (Some qrt)))]> (w_mem w)) w w' →
     Q (Some p) w') →
  wp (o ← je_malloc (CPollCtx (mkPollCtx (handle0 UV_POLL) 0 None)) ;
      match o with
      | None => mret None
      | Some p =>
          r ← ask "uv_poll_init_socket" [AP p; AZ s] ;
          CHECK (r =? 0) ;;
          put_poll p (mkPollCtx (with_data (Some p) (handle_init (handle0 UV_POLL))) s (Some qrt)) ;;
          mret (Some p)
      end) Q w.
Proof.
  intros He H1 H2. unfold je_malloc, put_poll. wp_step. wp_step. apply wp_ask_eq. intros z _. destruct (z =? 0).
  - wp_step. apply wp_c_alloc. intros p Hp. world_simpl_in Hp. do 2 wp_step. apply wp_ask_eq. intros z' ->. world_simpl.
    rewrite (proj1 (He _ _)). do 3 wp_step. eapply wp_store; [lookup_tac|]. wp_step. apply H2; [done|].
    split; world_simpl; try done. by rewrite insert_insert_eq.
  - wp_step. by apply H1.
Qed.

Lemma only_mem_trans m1 m2 w1 w2 w3 : only_mem m1 w1 w2 → only_mem m2 w2 w3 → only_mem m2 w1 w3.
Proof. intros [E1 C1 R1 M1] [E2 C2 R2 M2]. split; [congruence|congruence| |done]. intros a. by rewrite R2. Qed.

Lemma wp_watch_new s action w (Q : Z * option addr → World → Prop) :
  polls_work (w_env w) → action ≠ CURL_POLL_REMOVE →
  (∀ w', only_mem (w_mem w) w w' → Q (-1, None) w') →
  (∀ p w', w_mem w !! p = None → only_mem (<[p := (ByJe, CPollCtx (waiting qrt s p))]> (w_mem w)) w w' → Q (0, Some p) w') →
  wp (ijCurlHandleSocket s action qrt None) Q w.
Proof.
  intros He Ha H1 H2. unfold ijCurlHandleSocket.
  destruct action; [| | |done]; wp_step; (apply wp_new_context; [done|intros w' Hw; wp_step; by apply H1|]);
    intros p w1 Hp Hw; (eapply wp_poll_start; [by rewrite (om_env _ _ _ Hw)|rewrite (om_mem _ _ _ Hw); apply lookup_insert_eq|]);
    intros w2 Hw2; (apply H2; [done|]); rewrite (om_mem _ _ _ Hw), insert_insert_eq in Hw2; by eapply only_mem_trans.
Qed.

Lemma wp_unwatch s p w (Q : Z * option addr → World → Prop) :
  polls_work (w_env w) → w_mem w !! p = Some (ByJe, CPollCtx (waiting qrt s p)) →
  (∀ w', only_mem (<[p := (ByJe, CPollCtx (leaving qrt s p))]> (w_mem w)) w w' → Q (0, None) w') →
  wp (ijCurlHandleSocket s CURL_POLL_REMOVE qrt (Some p)) Q w.
Proof.
  intros He Hp HQ. unfold ijCurlHandleSocket, put_poll, uv_close. wp_step. apply wp_ask_eq. intros z ->. rewrite (proj2 (proj2 (He _ _))).
  wp_step. wp_step. wp_step. eapply wp_get_poll; [lookup_tac|]. wp_step. eapply wp_store; [lookup_tac|].
  wp_step. wp_step. wp_step. eapply wp_get_poll; [lookup_tac|]. do 5 wp_step. eapply wp_store; [lookup_tac|]. wp_step.
  apply HQ. split; world_simpl; try done. by rewrite !insert_insert_eq.
Qed.

Lemma wp_poll_closed s p w (Q : unit → World → Prop) :
  w_mem w !! p = Some (ByJe, CPollCtx (leaving qrt s p)) →
  (∀ w', only_mem (delete p (w_mem w)) w w' → Q tt w') → wp (poll_close_done p) Q w.
Proof.
  intros Hp HQ. unfold poll_close_done, uvPollCloseCb, put_poll, je_free. wp_step. eapply wp_get_poll; [done|]. wp_step.
  eapply wp_store; [done|]. wp_step. eapply wp_get_poll; [lookup_tac|]. wp_step. change (h_data _) with (Some p). wp_step. eapply wp_c_free; [lookup_tac|done|].
  apply HQ. split; world_simpl; try done. by rewrite delete_insert_eq.
Qed.

(** ** Runs *)

(** curl calls for a socket; libuv has closed a handle. *)
Inductive curl_call := Socket (s : Z) (action : poll_action) | Closed (p : addr).

(** The pointers curl keeps, and the contexts whose handles are closing. *)
Record sockets := mkSockets { sk_assigned : gmap Z addr; sk_closing : gset addr }.

Definition on_call (c : curl_call) (st : sockets) : M sockets :=
  match c with
  | Socket s action =>
      let old := sk_assigned st !! s in
      r ← ijCurlHandleSocket s action qrt old ;
      mret (mkSockets (partial_alter (λ _, snd r) s (sk_assigned st))
              (match action, old with CURL_POLL_REMOVE, Some p => {[p]} ∪ sk_closing st | _, _ => sk_closing st end))
  | Closed p =>
      if decide (p ∈ sk_closing st) then poll_close_done p ;; mret (mkSockets (sk_assigned st) (sk_closing st ∖ {[p]}))
      else mret st
  end.

Fixpoint on_calls (cs : list curl_call) (st : sockets) : M sockets :=
  match cs with
  | [] => mret st
  | c :: cs => st ← on_call c st ; on_calls cs st
  end.

(** The contexts in memory, beside the blocks [m0] there were before. *)
Record sockets_ok (m0 : gmap addr (allocator * cstruct)) (st : sockets) (w : World) : Prop := {
  sk_env : polls_work (w_env w);
  sk_waiting : ∀ s p, sk_assigned st !! s = Some p →
    w_mem w !! p = Some (ByJe, CPollCtx (waiting qrt s p)) ∧ m0 !! p = None;
  sk_leaving : ∀ p, p ∈ sk_closing st → (∃ s, w_mem w !! p = Some (ByJe, CPollCtx (leaving qrt s p))) ∧ m0 !! p = None;
  sk_rest : ∀ a, a ∉ sk_closing st → (∀ s, sk_assigned st !! s ≠ Some a) → w_mem w !! a = m0 !! a
}.

Lemma sockets_same m0 st w w' : only_mem (w_mem w) w w' → sockets_ok m0 st w → sockets_ok m0 st w'.
Proof. intros [E C R M] [K1 K2 K3 K4]. split; rewrite ?E, ?M; done. Qed.

Lemma sockets_added m0 st w w' s p :
  sockets_ok m0 st w → sk_assigned st !! s = None → w_mem w !! p = None →
  only_mem (<[p := (ByJe, CPollCtx (waiting qrt s p))]> (w_mem w)) w w' →
  sockets_ok m0 (mkSockets (<[s := p]> (sk_assigned st)) (sk_closing st)) w'.
Proof.
  intros [K1 K2 K3 K4] Hs Hp [E C R M].
  assert (Hm0 : m0 !! p = None).
  { rewrite <- K4; [done| |].
    - intros H. destruct (K3 p H) as [(s' & H') _]. congruence.
    - intros s' H. destruct (K2 s' p H) as [H' _]. congruence. }
  split; cbn [sk_assigned sk_closing]; rewrite ?E, ?M; [done| | |].
  - intros s' p'. intros [[<- <-]|[Hne H]]%lookup_insert_Some; [split; [apply lookup_insert_eq|done]|].
    destruct (K2 s' p' H) as [H1 H2]. split; [|done]. rewrite lookup_insert_ne by congruence. done.
  - intros p' H. destruct (K3 p' H) as [(s' & H1) H2]. split; [|done]. exists s'. by rewrite lookup_insert_ne by congruence.
  - intros a Ha Hn. rewrite lookup_insert_ne; [apply K4; [done|]|].
    + intros s' H. apply (Hn s'). rewrite lookup_insert_ne; [done|]. congruence.
    + intros <-. apply (Hn s), lookup_insert_eq.
Qed.

Lemma sockets_removed m0 st w w' s p :
  sockets_ok m0 st w → sk_assigned st !! s = Some p →
  only_mem (<[p := (ByJe, CPollCtx (leaving qrt s p))]> (w_mem w)) w w' →
  sockets_ok m0 (mkSockets (delete s (sk_assigned st)) ({[p]} ∪ sk_closing st)) w'.
Proof.
  intros [K1 K2 K3 K4] Hs [E C R M]. destruct (K2 s p Hs) as [Hp Hm0].
  split; cbn [sk_assigned sk_closing]; rewrite ?E, ?M; [done| | |].
  - intros s' p' [Hne H]%lookup_delete_Some. destruct (K2 s' p' H) as [H1 H2]. split; [|done].
    rewrite lookup_insert_ne; [done|]. intros <-. unfold waiting, leaving in *. congruence.
  - intros p' [->%elem_of_singleton|H]%elem_of_union; [split; [exists s; apply lookup_insert_eq|done]|].
    destruct (K3 p' H) as [(s' & H1) H2]. split; [|done]. exists s'. rewrite lookup_insert_ne; [done|]. intros <-. unfold waiting, leaving in *. congruence.
  - intros a Ha Hn. rewrite lookup_insert_ne by set_solver. apply K4; [set_solver|].
    intros s' H. destruct (decide (s' = s)) as [->|]; [set_solver|]. apply (Hn s'). by rewrite lookup_delete_ne.
Qed.

Lemma sockets_freed m0 st w w' p :
  sockets_ok m0 st w → p ∈ sk_closing st → only_mem (delete p (w_mem w)) w w' →
  sockets_ok m0 (mkSockets (sk_assigned st) (sk_closing st ∖ {[p]})) w'.
Proof.
  intros [K1 K2 K3 K4] Hp [E C R M]. destruct (K3 p Hp) as [(s & Hs) Hm0].
  split; cbn [sk_assigned sk_closing]; rewrite ?E, ?M; [done| | |].
  - intros s' p' H. destruct (K2 s' p' H) as [H1 H2]. split; [|done]. rewrite lookup_delete_ne; [done|]. intros <-. unfold waiting, leaving in *. congruence.
  - intros p' [H Hne]%elem_of_difference. destruct (K3 p' H) as [(s' & H1) H2]. split; [|done]. exists s'.
    rewrite lookup_delete_ne by set_solver. done.
  - intros a Ha Hn. destruct (decide (a = p)) as [->|]; [by rewrite lookup_delete_eq|].
    rewrite lookup_delete_ne by done. apply K4; [set_solver|done].
Qed.

Lemma on_call_ok m0 st c w :
  sockets_ok m0 st w → wp (on_call c st) (λ st' w', sockets_ok m0 st' w' ∧ ∀ a, rc w' a = rc w a) w.
Proof.
  intros Hok. pose proof (sk_env _ _ _ Hok) as He. destruct c as [s action|p]; cbn [on_call].
  - destruct (sk_assigned st !! s) as [p|] eqn:Es; wp_step.
    + destruct (sk_waiting _ _ _ Hok s p Es) as [Hp _]. destruct (decide (action = CURL_POLL_REMOVE)) as [->|Hne].
      * eapply wp_unwatch; [done|done|]. intros w' Hw. wp_step. split; [|exact (om_rc _ _ _ Hw)].
        cbn [snd]. change (partial_alter (λ _, None) s (sk_assigned st)) with (delete s (sk_assigned st)).
        by eapply sockets_removed.
      * eapply wp_watch; [done|done|done|]. intros w' Hw. wp_step. split; [|exact (om_rc _ _ _ Hw)].
        cbn [snd]. change (partial_alter (λ _, Some p) s (sk_assigned st)) with (<[s := p]> (sk_assigned st)).
        rewrite insert_id by done. destruct action; try done; destruct st; by eapply sockets_same.
    + destruct (decide (action = CURL_POLL_REMOVE)) as [->|Hne].
      * cbn [ijCurlHandleSocket]. do 2 wp_step. split; [|done]. cbn [snd].
        change (partial_alter (λ _, None) s (sk_assigned st)) with (delete s (sk_assigned st)).
        rewrite delete_id by done. by destruct st.
      * eapply wp_watch_new; [done|done| |].
        -- intros w' Hw. wp_step. split; [|exact (om_rc _ _ _ Hw)]. cbn [snd].
           change (partial_alter (λ _, None) s (sk_assigned st)) with (delete s (sk_assigned st)).
           rewrite delete_id by done. destruct action; try done; destruct st; by eapply sockets_same.
        -- intros p w' Hp Hw. wp_step. split; [|exact (om_rc _ _ _ Hw)]. cbn [snd].
           change (partial_alter (λ _, Some p) s (sk_assigned st)) with (<[s := p]> (sk_assigned st)).
           destruct action; try done; by eapply sockets_added.
  - case_decide as Hp; [|by wp_step]. destruct (sk_leaving _ _ _ Hok p Hp) as [(s & Hs) _].
    wp_step. eapply wp_poll_closed; [done|]. intros w' Hw. wp_step. split; [|exact (om_rc _ _ _ Hw)]. by eapply sockets_freed.
Qed.

Lemma on_calls_ok m0 cs : ∀ st w,
  sockets_ok m0 st w → wp (on_calls cs st) (λ st' w', sockets_ok m0 st' w' ∧ ∀ a, rc w' a = rc w a) w.
Proof.
  induction cs as [|c cs IH]; intros st w Hok; cbn [on_calls]; [by wp_step|]. wp_step.
  eapply wp_mono; [by apply on_call_ok|]. intros st1 w1 [Hok1 R1]. eapply wp_mono; [by apply IH|].
  intros st2 w2 [Hok2 R2]. split; [done|]. intros a. by rewrite R2, R1.
Qed.

(** Whatever curl asks for and whenever libuv closes: nothing faults, every socket waited for has its
    own context with an active handle, and once all are removed and closed memory is what it was. *)
Lemma sockets_loop cs w :
  polls_work (w_env w) →
  wp (on_calls cs (mkSockets ∅ ∅)) (λ st w',
    sockets_ok (w_mem w) st w' ∧ (∀ a, rc w' a = rc w a) ∧
    (sk_assigned st = ∅ → sk_closing st = ∅ → w_mem w' = w_mem w)) w.
Proof.
  intros He. eapply wp_mono; [apply (on_calls_ok (w_mem w))|].
  - by split.
  - intros st w' [Hok R]. split_and!; [done|done|]. intros H1 H2. apply map_eq. intros a.
    apply (sk_rest _ _ _ Hok); rewrite ?H1, ?H2; [set_solver|done].
Qed.
End Sockets.



(** ** Synchronous downloads *)

(** The buffer grows as long as it is below a limit. *)
Lemma perform_ok grow chunks res dbuf :
  (∀ n, n ≤ Z.of_nat (length dbuf + length (mjoin chunks)) → grow n = true) →
  perform grow chunks res dbuf = (res, dbuf ++ mjoin chunks).
Proof.
  revert dbuf; induction chunks as [|c chunks IH]; intros dbuf Hg; cbn [perform mjoin list_join]; [by rewrite app_nil_r|].
  change (mjoin (c :: chunks)) with (c ++ mjoin chunks) in *. rewrite length_app in Hg.
  unfold ijCurlWriteCb. rewrite Hg by lia. rewrite Z.eqb_refl, IH; [by rewrite <- app_assoc|].
  intros n Hn. apply Hg. rewrite length_app in Hn. lia.
Qed.

(** With memory for the body: the response code and the body with a NUL; or minus curl's error, and
    what was received until then. *)
Lemma load_http_ok grow a dbuf :
  (∀ n, n ≤ Z.of_nat (length dbuf + length (mjoin (ha_chunks a)) + 1) → grow n = true) →
  ijCurlLoadHttp grow a dbuf =
    (if negb (ha_res a =? 0) then - ha_res a else if negb (ha_info a =? 0) then - ha_info a else signed32 (ha_code a),
     dbuf ++ mjoin (ha_chunks a) ++ [ascii_of_nat 0]).
Proof.
  intros Hg. unfold ijCurlLoadHttp. rewrite perform_ok by (intros n Hn; apply Hg; lia).
  rewrite Hg by (rewrite length_app; lia). rewrite <- app_assoc. f_equal.
  destruct (ha_res a =? 0) eqn:E1; cbn [negb]; [|by rewrite E1]. by destruct (ha_info a =? 0) eqn:E2.
Qed.

(** When memory runs out in the middle the download fails as a whole: 200 is never reported for a
    body that was cut. *)
Lemma load_http_cut grow a dbuf :
  perform grow (ha_chunks a) (ha_res a) dbuf ≠ (ha_res a, dbuf ++ mjoin (ha_chunks a)) →
  (ijCurlLoadHttp grow a dbuf).1 = - CURLE_WRITE_ERROR.
Proof.
  unfold ijCurlLoadHttp. assert (K : ∀ chunks d,
    perform grow chunks (ha_res a) d = (ha_res a, d ++ mjoin chunks) ∨
    ∃ d', perform grow chunks (ha_res a) d = (CURLE_WRITE_ERROR, d')).
  { induction chunks as [|ch chunks IH]; intros d; [left; by rewrite app_nil_r|].
    cbn [perform]. unfold ijCurlWriteCb. destruct (grow _).
    - rewrite Z.eqb_refl. destruct (IH (d ++ ch)) as [->|[d' ->]]; [|right; by eexists]. left. by rewrite <- app_assoc.
    - right. eexists. rewrite (proj2 (Z.eqb_neq _ _)) by lia. done. }
  intros Hne. destruct (K (ha_chunks a) dbuf) as [E|[d E]]; [done|]. by rewrite E.
Qed.
