(* ===== verification/XhrHeaders.v ===== *)
(** * Response headers: the scanning loops of ijxhr.c

    curlmHeaderCb gathers the header lines of a response in a buffer, and
    ijXhrGetResponseHeader searches that buffer with strstr, strchr and memchr. A pointer
    into a string is the list of the characters from there on. *)

From S2P Require Import Prelude.

Definition NUL : ascii := ascii_of_nat 0.
Definition LF : ascii := ascii_of_nat 10.
Definition CR : ascii := ascii_of_nat 13.
Definition CRLF : bytes := [CR; LF].
Definition SPACE : ascii := ascii_of_nat 32.
Definition COLON : ascii := ascii_of_nat 58.

(** tolower in the C locale *)
Definition tolower (c : ascii) : ascii :=
  let n := nat_of_ascii c in if ((65 <=? n) && (n <=? 90))%nat then ascii_of_nat (n + 32) else c.

(** [strncmp(p, s, strlen(p)) == 0] *)
Fixpoint has_prefix (p s : bytes) : bool :=
  match p, s with
  | [], _ => true
  | c :: p, d :: s => Ascii.eqb c d && has_prefix p s
  | _ :: _, [] => false
  end.

Fixpoint strchr (c : ascii) (s : bytes) : option bytes :=
  match s with
  | [] => None
  | d :: t => if Ascii.eqb c d then Some s else strchr c t
  end.

Fixpoint strstr (s needle : bytes) : option bytes :=
  if has_prefix needle s then Some s
  else match s with [] => None | _ :: t => strstr t needle end.

Fixpoint skip_spaces (s : bytes) : bytes :=
  match s with
  | c :: t => if Ascii.eqb c SPACE then skip_spaces t else s
  | [] => []
  end.

(** The string at the start of a block: up to the first NUL; [None] when there is none. *)
Fixpoint c_string (s : bytes) : option bytes :=
  match s with
  | [] => None
  | c :: t => if Ascii.eqb c NUL then Some [] else cons c <$> c_string t
  end.

(** ** Storing a line *)

(** [for (tmp = ptr; tmp != p; tmp++) *tmp = tolower( *tmp )], where [p] is the colon. *)
Definition lower_name (line : bytes) : option bytes :=
  match strchr COLON line with
  | None => None
  | Some p => let n := (length line - length p)%nat in Some ((tolower <$> take n line) ++ drop n line)
  end.

(** What follows the first space of a status line, without its end: the two last
    characters are cut off by a NUL. [None] without a space, [Some None] when the
    space is behind the cut. *)
Definition status_raw (line : bytes) : option (option bytes) :=
  match strchr SPACE line with
  | None => None
  | Some p =>
      let cut := take (length line - 2) line in
      let i := S (length line - length p) in
      Some (if (i <=? length line - 2)%nat then Some (default [] (c_string (drop i cut ++ [NUL]))) else None)
  end.

Lemma lower_name_nonempty line l : lower_name line = Some l → l ≠ [].
Proof.
  unfold lower_name. destruct line as [|c line]; [done|]. destruct (strchr _ _) as [q|]; [|done]. intros [= <-] E.
  apply (f_equal length) in E. rewrite length_app, length_fmap, length_take, length_drop in E. simpl in E. lia.
Qed.

(** ** Searching *)

Definition COMMA : bytes := lit ", ".

(** The value found from [tmp] on, a line that ends at [p]. *)
Definition found_value (line : bytes) : bytes :=
  match strchr COLON line with
  | None => []
  | Some p1 => match skip_spaces (tail p1) with [] => [] | v => v ++ COMMA end
  end.

(** The loop of ijXhrGetResponseHeader; [None] when the fuel runs out. *)
Fixpoint header_loop (fuel : nat) (ptr header_name r : bytes) : option bytes :=
  match fuel with
  | O => None
  | S fuel =>
      match strstr ptr header_name with
      | None => Some r
      | Some tmp =>
          match strchr CR tmp with
          | None => Some r
          | Some p => header_loop fuel p header_name (r ++ found_value (take (length tmp - length p) tmp))
          end
      end
  end.

(** The text of the header: [r] without the last two characters, or no value. *)
Definition header_result (r : bytes) : option bytes :=
  match r with [] => None | _ => Some (take (length r - 2) r) end.

(** ** Line by line *)

(** The buffer of a response with these lines. *)
Definition block (lines : list bytes) : bytes := lines ≫= λ l, l ++ CRLF.

(** What the search finds in a line. *)
Definition line_value (name line : bytes) : bytes :=
  match strstr line name with None => [] | Some tmp => found_value tmp end.

Lemma has_prefix_app p s t : has_prefix p s = true → has_prefix p (s ++ t) = true.
Proof.
  revert s; induction p as [|c p IH]; intros [|d s]; simpl; try done.
  intros [-> H]%andb_prop. simpl. by apply IH.
Qed.

(** A text without the character at the border does not reach over it. *)
Lemma has_prefix_border p s c t : c ∉ p → has_prefix p (s ++ c :: t) = true → has_prefix p s = true.
Proof.
  revert s; induction p as [|d p IH]; intros [|e s] Hc; simpl; try done.
  - intros [H%Ascii.eqb_eq _]%andb_prop. subst. set_solver.
  - intros [-> H]%andb_prop. simpl. apply IH; [set_solver|done].
Qed.

Section Border.
Context (needle : bytes) (c : ascii) (Hc : c ∉ needle).

Lemma strstr_some s t tmp : strstr s needle = Some tmp → strstr (s ++ c :: t) needle = Some (tmp ++ c :: t).
Proof using Hc.
  induction s as [|d s IH].
  - simpl. destruct needle; [|done]. by intros [= <-].
  - cbn [strstr app]. destruct (has_prefix needle (d :: s)) eqn:E.
    + intros [= <-]. apply (has_prefix_app _ _ (c :: t)) in E. cbn [app] in E. by rewrite E.
    + destruct (has_prefix needle (d :: s ++ c :: t)) eqn:E'; [|done].
      apply (has_prefix_border needle (d :: s) c t) in E'; [congruence|done].
Qed.

Lemma strstr_none s t : needle ≠ [] → strstr s needle = None → strstr (s ++ c :: t) needle = strstr t needle.
Proof using Hc.
  intros Hn. induction s as [|d s IH].
  - intros _. cbn [strstr app]. destruct (has_prefix needle (c :: t)) eqn:E; [|done].
    apply (has_prefix_border needle [] c t) in E; [|done]. by destruct needle.
  - cbn [strstr app]. destruct (has_prefix needle (d :: s)) eqn:E; [done|].
    destruct (has_prefix needle (d :: s ++ c :: t)) eqn:E'; [|done].
    apply (has_prefix_border needle (d :: s) c t) in E'; [congruence|done].
Qed.
End Border.

Lemma strstr_suffix s needle tmp : strstr s needle = Some tmp → ∃ s', s = s' ++ tmp.
Proof.
  induction s as [|c s IH]; cbn [strstr].
  - destruct (has_prefix needle []); [|done]. intros [= <-]. by exists [].
  - destruct (has_prefix needle (c :: s)); [intros [= <-]; by exists []|].
    intros (s' & ->)%IH. by exists (c :: s').
Qed.

Lemma strchr_app c s t : c ∉ s → strchr c (s ++ c :: t) = Some (c :: t).
Proof.
  induction s as [|d s IH]; intros H; cbn [strchr app]; [by rewrite Ascii.eqb_refl|].
  rewrite (proj2 (Ascii.eqb_neq c d)) by set_solver. apply IH. set_solver.
Qed.

(** The loop depends on where the search starts only through what the search finds. *)
Lemma header_loop_ext fuel p q name r :
  strstr p name = strstr q name → header_loop fuel p name r = header_loop fuel q name r.
Proof. destruct fuel; simpl; [done|]. by intros ->. Qed.

Lemma strstr_CRLF name t : name ≠ [] → CR ∉ name → LF ∉ name → strstr (CRLF ++ t) name = strstr t name.
Proof.
  intros Hn H1 H2. change (CRLF ++ t) with ([] ++ CR :: LF :: t).
  rewrite strstr_none; [|done|done|by destruct name]. change (LF :: t) with ([] ++ LF :: t).
  by rewrite strstr_none by (done || by destruct name).
Qed.

(** The search of the buffer is a search of each line: the loop ends, and gathers what
    each line has for the name. *)
Lemma header_loop_lines name lines fuel r :
  name ≠ [] → CR ∉ name → LF ∉ name → Forall (λ l, CR ∉ l) lines → (length lines < fuel)%nat →
  header_loop fuel (block lines) name r = Some (r ++ (lines ≫= line_value name)).
Proof.
  intros Hn H1 H2 Hl. revert fuel r; induction Hl as [|l lines Hl Hls IH]; intros fuel r Hf.
  { destruct fuel; [simpl in Hf; lia|]. simpl. rewrite app_nil_r. by destruct name. }
  cbn [mbind list_bind]. change (block (l :: lines)) with ((l ++ CRLF) ++ block lines).
  rewrite <- app_assoc. change (l ++ CRLF ++ block lines) with (l ++ CR :: LF :: block lines).
  unfold line_value at 1. destruct (strstr l name) as [tmp|] eqn:E.
  - destruct fuel as [|fuel]; [simpl in Hf; lia|]. cbn [header_loop].
    rewrite (strstr_some name CR H1 _ _ _ E). destruct (strstr_suffix _ _ _ E) as [s' ->].
    rewrite strchr_app by set_solver. rewrite length_app.
    replace (length tmp + length (CR :: LF :: block lines) - length (CR :: LF :: block lines))%nat with (length tmp) by lia.
    rewrite take_app_length. rewrite (header_loop_ext _ _ (block lines)).
    + rewrite IH by (simpl in Hf; lia). by rewrite <- app_assoc.
    + by apply (strstr_CRLF name (block lines)).
  - rewrite (header_loop_ext _ _ (block lines)).
    + simpl in Hf. by rewrite IH by lia.
    + rewrite (strstr_none name CR H1) by done.
      rewrite <- (strstr_none name LF H2 [] (block lines)) by (done || by destruct name). done.
Qed.

(** An empty name is found everywhere: the loop does not get past the end of the first line. *)
Lemma header_loop_empty fuel s r : CR ∈ s → header_loop fuel s [] r = None.
Proof.
  revert s r; induction fuel as [|fuel IH]; intros s r Hs; [done|]. cbn [header_loop].
  replace (strstr s []) with (Some s) by by destruct s.
  apply list_elem_of_split_l in Hs as (s1 & s2 & -> & Hs1). rewrite strchr_app by done. apply IH. set_solver.
Qed.

(** ** Headers *)

(** A line as it is stored, with a blank after the colon. *)
Definition header_line (h : bytes * bytes) : bytes := h.1 ++ COLON :: SPACE :: h.2.

(** A value that is neither empty nor starts with a blank. *)
Definition plain_value (v : bytes) : Prop := skip_spaces v = v ∧ v ≠ [].

Lemma has_prefix_refl p t : has_prefix p (p ++ t) = true.
Proof. induction p as [|c p IH]; simpl; [done|]. by rewrite Ascii.eqb_refl. Qed.

Lemma strstr_here p t : strstr (p ++ t) p = Some (p ++ t).
Proof. pose proof (has_prefix_refl p t) as H. destruct (p ++ t); cbn [strstr]; by rewrite H. Qed.

Lemma line_value_own n v : COLON ∉ n → plain_value v → line_value n (header_line (n, v)) = v ++ COMMA.
Proof.
  intros Hn [Hv Hne]. unfold line_value, header_line. cbn [fst snd]. rewrite strstr_here.
  unfold found_value. rewrite strchr_app by done. cbn [tail]. change (skip_spaces (SPACE :: v)) with (skip_spaces v).
  rewrite Hv. by destruct v.
Qed.

Fixpoint comma_join (vs : list bytes) : bytes :=
  match vs with
  | [] => []
  | [v] => v
  | v :: vs => v ++ COMMA ++ comma_join vs
  end.

Lemma comma_join_spec v vs : ((v :: vs) ≫= λ x, x ++ COMMA) = comma_join (v :: vs) ++ COMMA.
Proof.
  revert v; induction vs as [|u vs IH]; intros v; [simpl; by rewrite app_nil_r|].
  cbn [mbind list_bind]. specialize (IH u). cbn [mbind list_bind] in IH. rewrite IH.
  change (comma_join (v :: u :: vs)) with (v ++ COMMA ++ comma_join (u :: vs)). by rewrite <- !app_assoc.
Qed.

(** The values of the headers with this name. *)
Definition values_of (n : bytes) (hs : list (bytes * bytes)) : list bytes :=
  (filter (λ h, h.1 = n) hs).*2.

(** The name occurs in no line but those of its own headers. *)
Definition only_own (n : bytes) (hs : list (bytes * bytes)) : Prop :=
  Forall (λ h, h.1 = n ∨ strstr (header_line h) n = None) hs.

Lemma lines_values n hs :
  COLON ∉ n → only_own n hs → Forall (λ h, plain_value h.2) hs →
  ((header_line <$> hs) ≫= line_value n) = (values_of n hs ≫= λ v, v ++ COMMA).
Proof.
  intros Hn Ho Hv. induction hs as [|[m v] hs IH]; [done|]. inv Ho as [|? ? Hm Ho']. inv Hv as [|? ? Hpv Hv'].
  specialize (IH Ho' Hv'). cbn [fmap list_fmap mbind list_bind] in *. unfold values_of. rewrite filter_cons.
  cbn [fst snd] in *. case_decide as E.
  - subst. rewrite line_value_own by done. cbn [fmap list_fmap mbind list_bind snd]. by rewrite IH.
  - destruct Hm as [->|Hm]; [done|]. unfold line_value at 1. by rewrite Hm.
Qed.

(** The text a search for a header returns: its values, with a comma between each two. *)
Lemma header_search n hs fuel :
  n ≠ [] → COLON ∉ n → CR ∉ n → LF ∉ n → only_own n hs →
  Forall (λ h, plain_value h.2 ∧ CR ∉ header_line h) hs → (length hs < fuel)%nat →
  header_result <$> header_loop fuel (block (header_line <$> hs)) n [] =
  Some (match values_of n hs with [] => None | vs => Some (comma_join vs) end).
Proof.
  intros Hn Hc Hcr Hlf Ho Hg Hf. rewrite header_loop_lines; try done; last first.
  { by rewrite length_fmap. }
  { apply Forall_fmap. eapply Forall_impl; [exact Hg|]. by intros h [_ ?]. }
  rewrite lines_values; [|done|done|]; last first.
  { eapply Forall_impl; [exact Hg|]. by intros h [? _]. }
  simpl. f_equal. destruct (values_of n hs) as [|v vs]; [done|]. rewrite comma_join_spec.
  unfold header_result. destruct (comma_join (v :: vs) ++ COMMA) eqn:E; [by apply app_eq_nil in E as [_ ?]|].
  rewrite <- E, length_app. f_equal. replace (_ + _ - 2)%nat with (length (comma_join (v :: vs))) by (simpl; lia).
  apply take_app_length.
Qed.

(** A search also finds names that contain the text: "type" finds the value of content-type. *)
Lemma header_substring :
  header_result <$> header_loop 3 (block [lit "content-type: text/html"]) (lit "type") [] = Some (Some (lit "text/html")).
Proof. reflexivity. Qed.

(** ** Names are stored in lower case *)

Lemma lower_name_line n rest :
  COLON ∉ n → lower_name (n ++ COLON :: rest) = Some ((tolower <$> n) ++ COLON :: rest).
Proof.
  intros Hn. unfold lower_name. rewrite strchr_app by done. rewrite length_app.
  replace (length n + length (COLON :: rest) - length (COLON :: rest))%nat with (length n) by lia.
  by rewrite take_app_length, drop_app_length.
Qed.
