(* ===== verification/Xhr.v ===== *)
(** * ijxhr.c: XMLHttpRequest, and the part of ijutils.c that drives curl

    Each function under its name. curl is outside: what a transfer delivers (header lines, data,
    progress) is a list of [curl_event]s, results and information come from the environment.
    The handlers of a request are user code, which may call the methods of the request again:
    [user event] is what the handler of an event does besides. *)

From S2P Require Import Prelude State Runtime Promise Misc XhrHeaders Curl.

Definition XHR_EVENT_ABORT : nat := 0.
Definition XHR_EVENT_ERROR : nat := 1.
Definition XHR_EVENT_LOAD : nat := 2.
Definition XHR_EVENT_LOAD_END : nat := 3.
Definition XHR_EVENT_LOAD_START : nat := 4.
Definition XHR_EVENT_PROGRESS : nat := 5.
Definition XHR_EVENT_READY_STATE_CHANGED : nat := 6.
Definition XHR_EVENT_TIMEOUT : nat := 7.
Definition XHR_EVENT_MAX : nat := 8.

Definition XHR_RSTATE_UNSENT : Z := 0.
Definition XHR_RSTATE_OPENED : Z := 1.
Definition XHR_RSTATE_HEADERS_RECEIVED : Z := 2.
Definition XHR_RSTATE_LOADING : Z := 3.
Definition XHR_RSTATE_DONE : Z := 4.

Definition XHR_RTYPE_DEFAULT : Z := 0.
Definition XHR_RTYPE_TEXT : Z := 1.
Definition XHR_RTYPE_ARRAY_BUFFER : Z := 2.
Definition XHR_RTYPE_JSON : Z := 3.

(** ** The structure *)

Definition get_x (p : addr) : M IJJSXhr :=
  c ← load p ; match c with CXhr x => mret x | _ => fail TypeConfusion end.
Definition put_x (p : addr) (x : IJJSXhr) : M unit := store p (CXhr x).
(** An assignment to a field. *)
Definition upd_x (p : addr) (f : IJJSXhr → IJJSXhr) : M unit := x ← get_x p ; put_x p (f x).

Definition set_x_events (v : list JSValue) (x : IJJSXhr) : IJJSXhr :=
  mkXhr v (x_curl_h x) (x_curlm_h x) (x_slist x) (x_sent x) (x_async x) (x_timeout x) (x_response_type x) (x_ready_state x)
    (x_raw x) (x_status x) (x_status_text x) (x_url x) (x_headers x) (x_response x) (x_response_text x) (x_hbuf x) (x_bbuf x).
Definition set_x_curl_h (v : option addr) (x : IJJSXhr) : IJJSXhr :=
  mkXhr (x_events x) v (x_curlm_h x) (x_slist x) (x_sent x) (x_async x) (x_timeout x) (x_response_type x) (x_ready_state x)
    (x_raw x) (x_status x) (x_status_text x) (x_url x) (x_headers x) (x_response x) (x_response_text x) (x_hbuf x) (x_bbuf x).
Definition set_x_curlm_h (v : bool) (x : IJJSXhr) : IJJSXhr :=
  mkXhr (x_events x) (x_curl_h x) v (x_slist x) (x_sent x) (x_async x) (x_timeout x) (x_response_type x) (x_ready_state x)
    (x_raw x) (x_status x) (x_status_text x) (x_url x) (x_headers x) (x_response x) (x_response_text x) (x_hbuf x) (x_bbuf x).
Definition set_x_slist (v : option addr) (x : IJJSXhr) : IJJSXhr :=
  mkXhr (x_events x) (x_curl_h x) (x_curlm_h x) v (x_sent x) (x_async x) (x_timeout x) (x_response_type x) (x_ready_state x)
    (x_raw x) (x_status x) (x_status_text x) (x_url x) (x_headers x) (x_response x) (x_response_text x) (x_hbuf x) (x_bbuf x).
Definition set_x_sent (v : bool) (x : IJJSXhr) : IJJSXhr :=
  mkXhr (x_events x) (x_curl_h x) (x_curlm_h x) (x_slist x) v (x_async x) (x_timeout x) (x_response_type x) (x_ready_state x)
    (x_raw x) (x_status x) (x_status_text x) (x_url x) (x_headers x) (x_response x) (x_response_text x) (x_hbuf x) (x_bbuf x).
Definition set_x_async (v : bool) (x : IJJSXhr) : IJJSXhr :=
  mkXhr (x_events x) (x_curl_h x) (x_curlm_h x) (x_slist x) (x_sent x) v (x_timeout x) (x_response_type x) (x_ready_state x)
    (x_raw x) (x_status x) (x_status_text x) (x_url x) (x_headers x) (x_response x) (x_response_text x) (x_hbuf x) (x_bbuf x).
Definition set_x_timeout (v : Z) (x : IJJSXhr) : IJJSXhr :=
  mkXhr (x_events x) (x_curl_h x) (x_curlm_h x) (x_slist x) (x_sent x) (x_async x) v (x_response_type x) (x_ready_state x)
    (x_raw x) (x_status x) (x_status_text x) (x_url x) (x_headers x) (x_response x) (x_response_text x) (x_hbuf x) (x_bbuf x).
Definition set_x_response_type (v : Z) (x : IJJSXhr) : IJJSXhr :=
  mkXhr (x_events x) (x_curl_h x) (x_curlm_h x) (x_slist x) (x_sent x) (x_async x) (x_timeout x) v (x_ready_state x)
    (x_raw x) (x_status x) (x_status_text x) (x_url x) (x_headers x) (x_response x) (x_response_text x) (x_hbuf x) (x_bbuf x).
Definition set_x_ready_state (v : Z) (x : IJJSXhr) : IJJSXhr :=
  mkXhr (x_events x) (x_curl_h x) (x_curlm_h x) (x_slist x) (x_sent x) (x_async x) (x_timeout x) (x_response_type x) v
    (x_raw x) (x_status x) (x_status_text x) (x_url x) (x_headers x) (x_response x) (x_response_text x) (x_hbuf x) (x_bbuf x).
Definition set_x_raw (v : option addr) (x : IJJSXhr) : IJJSXhr :=
  mkXhr (x_events x) (x_curl_h x) (x_curlm_h x) (x_slist x) (x_sent x) (x_async x) (x_timeout x) (x_response_type x) (x_ready_state x)
    v (x_status x) (x_status_text x) (x_url x) (x_headers x) (x_response x) (x_response_text x) (x_hbuf x) (x_bbuf x).
Definition set_x_status (v : JSValue) (x : IJJSXhr) : IJJSXhr :=
  mkXhr (x_events x) (x_curl_h x) (x_curlm_h x) (x_slist x) (x_sent x) (x_async x) (x_timeout x) (x_response_type x) (x_ready_state x)
    (x_raw x) v (x_status_text x) (x_url x) (x_headers x) (x_response x) (x_response_text x) (x_hbuf x) (x_bbuf x).
Definition set_x_status_text (v : JSValue) (x : IJJSXhr) : IJJSXhr :=
  mkXhr (x_events x) (x_curl_h x) (x_curlm_h x) (x_slist x) (x_sent x) (x_async x) (x_timeout x) (x_response_type x) (x_ready_state x)
    (x_raw x) (x_status x) v (x_url x) (x_headers x) (x_response x) (x_response_text x) (x_hbuf x) (x_bbuf x).
Definition set_x_url (v : JSValue) (x : IJJSXhr) : IJJSXhr :=
  mkXhr (x_events x) (x_curl_h x) (x_curlm_h x) (x_slist x) (x_sent x) (x_async x) (x_timeout x) (x_response_type x) (x_ready_state x)
    (x_raw x) (x_status x) (x_status_text x) v (x_headers x) (x_response x) (x_response_text x) (x_hbuf x) (x_bbuf x).
Definition set_x_headers (v : JSValue) (x : IJJSXhr) : IJJSXhr :=
  mkXhr (x_events x) (x_curl_h x) (x_curlm_h x) (x_slist x) (x_sent x) (x_async x) (x_timeout x) (x_response_type x) (x_ready_state x)
    (x_raw x) (x_status x) (x_status_text x) (x_url x) v (x_response x) (x_response_text x) (x_hbuf x) (x_bbuf x).
Definition set_x_response (v : JSValue) (x : IJJSXhr) : IJJSXhr :=
  mkXhr (x_events x) (x_curl_h x) (x_curlm_h x) (x_slist x) (x_sent x) (x_async x) (x_timeout x) (x_response_type x) (x_ready_state x)
    (x_raw x) (x_status x) (x_status_text x) (x_url x) (x_headers x) v (x_response_text x) (x_hbuf x) (x_bbuf x).
Definition set_x_response_text (v : JSValue) (x : IJJSXhr) : IJJSXhr :=
  mkXhr (x_events x) (x_curl_h x) (x_curlm_h x) (x_slist x) (x_sent x) (x_async x) (x_timeout x) (x_response_type x) (x_ready_state x)
    (x_raw x) (x_status x) (x_status_text x) (x_url x) (x_headers x) (x_response x) v (x_hbuf x) (x_bbuf x).
Definition set_x_hbuf (v : option addr) (x : IJJSXhr) : IJJSXhr :=
  mkXhr (x_events x) (x_curl_h x) (x_curlm_h x) (x_slist x) (x_sent x) (x_async x) (x_timeout x) (x_response_type x) (x_ready_state x)
    (x_raw x) (x_status x) (x_status_text x) (x_url x) (x_headers x) (x_response x) (x_response_text x) v (x_bbuf x).
Definition set_x_bbuf (v : option addr) (x : IJJSXhr) : IJJSXhr :=
  mkXhr (x_events x) (x_curl_h x) (x_curlm_h x) (x_slist x) (x_sent x) (x_async x) (x_timeout x) (x_response_type x) (x_ready_state x)
    (x_raw x) (x_status x) (x_status_text x) (x_url x) (x_headers x) (x_response x) (x_response_text x) (x_hbuf x) v.

(** ** DynBuf: no block until the first byte *)

Definition dbuf_bytes (b : option addr) : M bytes :=
  match b with
  | None => mret []
  | Some p => c ← load p ; match c with CDyn d => mret d | _ => fail TypeConfusion end
  end.

(** dbuf_put: the buffer, or [None] when it cannot grow. *)
Definition dbuf_put (b : option addr) (data : bytes) : M (option (option addr)) :=
  match data with
  | [] => mret (Some b)
  | _ =>
      r ← ask "dbuf_realloc" [] ;
      if negb (r =? 0) then mret None
      else
        match b with
        | None => p ← c_alloc ByLibc (CDyn data) ; mret (Some (Some p))
        | Some p => d ← dbuf_bytes b ; store p (CDyn (d ++ data)) ;; mret (Some b)
        end
  end.

Definition dbuf_free (b : option addr) : M unit :=
  match b with None => mret tt | Some p => c_free ByLibc p end.

(** ** curl: calls with a NULL handle return an error and do nothing *)

Definition get_easy (h : addr) : M CURL :=
  c ← load h ; match c with CEasy e => mret e | _ => fail TypeConfusion end.

Definition curl_easy_init : M (option addr) :=
  r ← ask "curl_easy_init" [] ;
  if r =? 0 then (h ← c_alloc ByCurl (CEasy (mkEasy false None)) ; mret (Some h)) else mret None.

Definition curl_easy_setopt (h : option addr) (option : string) (args : list arg) : M unit :=
  match h with None => mret tt | Some h => _ ← get_easy h ; log option (AP h :: args) end.

Definition curl_set_private (h : option addr) (x : addr) : M unit :=
  match h with None => mret tt | Some h => e ← get_easy h ; store h (CEasy (mkEasy (ez_added e) (Some x))) end.

Definition curl_multi_add_handle (m : bool) (h : option addr) : M unit :=
  match m, h with
  | true, Some h => e ← get_easy h ; store h (CEasy (mkEasy true (ez_private e)))
  | _, _ => mret tt
  end.

Definition curl_multi_remove_handle (m : bool) (h : option addr) : M unit :=
  match m, h with
  | true, Some h => e ← get_easy h ; store h (CEasy (mkEasy false (ez_private e)))
  | _, _ => mret tt
  end.

Definition curl_easy_cleanup (h : addr) : M unit := c_free ByCurl h.

Definition curl_easy_getinfo_str (h : option addr) (info : string) : M (option bytes) :=
  match h with None => mret None | Some h => _ ← get_easy h ; ask_str info [AP h] end.

(** A number curl stores; [d] stays when it stores none. *)
Definition curl_easy_getinfo_num (h : option addr) (info : string) (d : Z) : M Z :=
  match h with None => mret d | Some h => _ ← get_easy h ; ask info [AP h] end.

Definition curl_slist_append (l : option addr) (line : bytes) : M (option addr) :=
  r ← ask "curl_slist_append" [] ;
  if negb (r =? 0) then mret None
  else
    match l with
    | None => p ← c_alloc ByCurl (CSlist [line]) ; mret (Some p)
    | Some p =>
        c ← load p ;
        match c with CSlist ls => store p (CSlist (ls ++ [line])) ;; mret l | _ => fail TypeConfusion end
    end.

Definition curl_slist_free_all (l : option addr) : M unit :=
  match l with None => mret tt | Some p => c_free ByCurl p end.

Definition ijXhrGet (obj : JSValue) : M (option addr) := JS_GetOpaque2 obj cls_xhr.

(** ** Finalizer and mark *)

(** The values of the structure besides the handlers, in the order they are released. *)
Definition x_values (x : IJJSXhr) : list JSValue :=
  [x_status x; x_status_text x; x_url x; x_headers x; x_response x; x_response_text x].

Definition ijXhrFinalizer (val : JSValue) : M unit :=
  o ← JS_GetOpaque val cls_xhr ;
  match o with
  | None => mret tt
  | Some p =>
      x ← get_x p ;
      (match x_curl_h x with
       | None => mret tt
       | Some h =>
           (if x_async x then curl_multi_remove_handle (x_curlm_h x) (Some h) else mret tt) ;;
           curl_easy_cleanup h
       end) ;;
      curl_slist_free_all (x_slist x) ;;
      js_free_opt (x_raw x) ;;
      free_values (x_events x) ;;
      free_values (x_values x) ;;
      je_free p
  end.

Definition ijXhrMark (val : JSValue) : M (list JSValue) :=
  o ← JS_GetOpaque val cls_xhr ;
  match o with
  | None => mret []
  | Some p => x ← get_x p ; mret (x_events x ++ x_values x)
  end.

(** ** Callbacks *)

Definition CURLE_OK : Z := 0.
Definition CURLE_OPERATION_TIMEDOUT : Z := 28.
Definition CURLE_BAD_FUNCTION_ARGUMENT : Z := 43.

Section Callbacks.
Context (user : nat → M unit).

(** The argument is consumed. *)
Definition ijMaybeEmitEvent (p : addr) (event : nat) (arg : JSValue) : M unit :=
  x ← get_x p ;
  event_func ← arg_at (x_events x) event ;
  isf ← JS_IsFunction event_func ;
  if negb isf then JS_FreeValue arg
  else
    func ← JS_DupValue event_func ;
    user event ;;
    ret ← JS_Call func [arg] ;
    (if JS_IsException ret then ijDumpError else mret tt) ;;
    JS_FreeValue ret ;;
    JS_FreeValue func ;;
    JS_FreeValue arg.

Definition curlDoneCb (result : Z) (p : addr) : M unit :=
  x ← get_x p ;
  done_url ← curl_easy_getinfo_str (x_curl_h x) "CURLINFO_EFFECTIVE_URL" ;
  (match done_url with
   | None => mret tt
   | Some u => s ← JS_NewString u ; upd_x p (set_x_url s)
   end) ;;
  x ← get_x p ;
  (match x_slist x with
   | None => mret tt
   | Some _ => curl_slist_free_all (x_slist x) ;; upd_x p (set_x_slist None)
   end) ;;
  upd_x p (set_x_ready_state XHR_RSTATE_DONE) ;;
  ijMaybeEmitEvent p XHR_EVENT_READY_STATE_CHANGED JS_UNDEFINED ;;
  (if result =? CURLE_OPERATION_TIMEDOUT then ijMaybeEmitEvent p XHR_EVENT_TIMEOUT JS_UNDEFINED else mret tt) ;;
  ijMaybeEmitEvent p XHR_EVENT_LOAD_END JS_UNDEFINED ;;
  if negb (result =? CURLE_OPERATION_TIMEDOUT) then
    if negb (result =? CURLE_OK) then ijMaybeEmitEvent p XHR_EVENT_ERROR JS_UNDEFINED
    else ijMaybeEmitEvent p XHR_EVENT_LOAD JS_UNDEFINED
  else mret tt.

Definition curlmDoneCb (easy_handle : addr) (result : Z) (p : addr) : M unit :=
  x ← get_x p ;
  CHECK (bool_decide (x_curl_h x = Some easy_handle)) ;;
  curlDoneCb result p ;;
  upd_x p (set_x_curl_h None).

(** The number of bytes taken, -1 for an error. *)
Definition curlmDataCb (data : bytes) (p : addr) : M Z :=
  x ← get_x p ;
  (if x_ready_state x =? XHR_RSTATE_HEADERS_RECEIVED then
     upd_x p (set_x_ready_state XHR_RSTATE_LOADING) ;;
     ijMaybeEmitEvent p XHR_EVENT_READY_STATE_CHANGED JS_UNDEFINED
   else mret tt) ;;
  x ← get_x p ;
  r ← dbuf_put (x_bbuf x) data ;
  match r with
  | None => mret (-1)
  | Some b => upd_x p (set_x_bbuf b) ;; mret (Z.of_nat (length data))
  end.

(** A status line starts the headers of another response. *)
Definition header_status (line : bytes) (p : addr) : M unit :=
  x ← get_x p ;
  hbuf ← dbuf_bytes (x_hbuf x) ;
  (match hbuf with
   | [] => ijMaybeEmitEvent p XHR_EVENT_LOAD_START JS_UNDEFINED
   | _ => dbuf_free (x_hbuf x) ;; upd_x p (set_x_hbuf None)
   end) ;;
  x ← get_x p ;
  (match x_raw x with
   | None => mret tt
   | Some r => js_free r ;; upd_x p (set_x_raw None)
   end) ;;
  match status_raw line with
  | None => mret tt
  | Some None => fail OutOfBounds
  | Some (Some raw) => o ← js_malloc (CStr raw) ; upd_x p (set_x_raw o)
  end.

Definition str_at (o : option addr) : M bytes :=
  q ← CHECK_NOT_NULL o ;
  c ← load q ; match c with CStr s => mret s | _ => fail TypeConfusion end.

(** The empty line ends the headers; those of a redirect are not announced. *)
Definition header_end (p : addr) : M unit :=
  x ← get_x p ;
  code ← curl_easy_getinfo_num (x_curl_h x) "CURLINFO_RESPONSE_CODE" (-1) ;
  if (-1 <? code) && negb (Z.quot code 100 =? 3) then
    raw ← str_at (x_raw x) ;
    s ← JS_NewString raw ;
    upd_x p (set_x_status_text s) ;;
    upd_x p (set_x_status (JS_NewInt32 code)) ;;
    upd_x p (set_x_ready_state XHR_RSTATE_HEADERS_RECEIVED) ;;
    ijMaybeEmitEvent p XHR_EVENT_READY_STATE_CHANGED JS_UNDEFINED ;;
    x ← get_x p ;
    r ← dbuf_put (x_hbuf x) [NUL] ;
    match r with None => mret tt | Some b => upd_x p (set_x_hbuf b) end
  else mret tt.

Definition curlmHeaderCb (line : bytes) (p : addr) : M Z :=
  let realsize := Z.of_nat (length line) in
  if has_prefix (lit "HTTP/") line then header_status line p ;; mret realsize
  else if has_prefix CRLF line then header_end p ;; mret realsize
  else
    match lower_name line with
    | None => mret realsize
    | Some line =>
        x ← get_x p ;
        r ← dbuf_put (x_hbuf x) line ;
        match r with
        | None => mret (-1)
        | Some b => upd_x p (set_x_hbuf b) ;; mret realsize
        end
    end.

Definition curlmProcessCb (dltotal dlnow : Z) (p : addr) : M unit :=
  x ← get_x p ;
  if x_ready_state x =? XHR_RSTATE_LOADING then
    cl ← curl_easy_getinfo_num (x_curl_h x) "CURLINFO_CONTENT_LENGTH_DOWNLOAD" (-1) ;
    event ← JS_NewObjectProto ;
    JS_DefinePropertyValueStr event "lengthComputable" (JS_NewBool (0 <? cl)) ;;
    JS_DefinePropertyValueStr event "loaded" (JS_NewInt64 dlnow) ;;
    JS_DefinePropertyValueStr event "total" (JS_NewInt64 dltotal) ;;
    ijMaybeEmitEvent p XHR_EVENT_PROGRESS event
  else mret tt.

(** What curl delivers. *)
Inductive curl_event :=
| OnHeader (line : bytes)
| OnData (data : bytes)
| OnProgress (dltotal dlnow : Z).

(** A callback that does not take all its bytes ends the transfer. *)
Fixpoint transfer (p : addr) (es : list curl_event) : M bool :=
  match es with
  | [] => mret true
  | OnHeader line :: es =>
      n ← curlmHeaderCb line p ; if n =? Z.of_nat (length line) then transfer p es else mret false
  | OnData data :: es =>
      n ← curlmDataCb data p ; if n =? Z.of_nat (length data) then transfer p es else mret false
  | OnProgress t n :: es => curlmProcessCb t n p ;; transfer p es
  end.

(** ** Methods *)

Definition ijXhrAbort (this : JSValue) (argv : list JSValue) : M JSValue :=
  o ← ijXhrGet this ;
  match o with
  | None => mret JS_EXCEPTION
  | Some p =>
      x ← get_x p ;
      match x_curl_h x with
      | None => mret JS_UNDEFINED
      | Some h =>
          curl_multi_remove_handle (x_curlm_h x) (Some h) ;;
          curl_easy_cleanup h ;;
          upd_x p (set_x_curl_h None) ;;
          upd_x p (set_x_curlm_h false) ;;
          upd_x p (set_x_ready_state XHR_RSTATE_UNSENT) ;;
          x ← get_x p ;
          JS_FreeValue (x_status x) ;;
          upd_x p (set_x_status (JS_NewInt32 0)) ;;
          JS_FreeValue (x_status_text x) ;;
          s ← JS_NewString [] ;
          upd_x p (set_x_status_text s) ;;
          ijMaybeEmitEvent p XHR_EVENT_ABORT JS_UNDEFINED ;;
          mret JS_UNDEFINED
      end
  end.

(** strncasecmp with HEAD, four characters of it *)
Definition is_head (method : bytes) : bool := has_prefix (lit "head") (tolower <$> method).

(** [JS_FreeCString] of a pointer that may be NULL *)
Definition JS_FreeCString_opt (o : option (addr * bytes)) : M unit :=
  match o with Some (q, _) => JS_FreeCString q | None => mret tt end.

(** open on a request that is done starts from the beginning. *)
Definition xhr_reset (p : addr) : M unit :=
  x ← get_x p ;
  curl_slist_free_all (x_slist x) ;;
  js_free_opt (x_raw x) ;;
  free_values (x_events x) ;;
  free_values (x_values x) ;;
  dbuf_free (x_hbuf x) ;;
  dbuf_free (x_bbuf x) ;;
  upd_x p (λ x,
    mkXhr (replicate XHR_EVENT_MAX JS_UNDEFINED) (x_curl_h x) (x_curlm_h x) None false true (x_timeout x)
      (x_response_type x) XHR_RSTATE_UNSENT None JS_UNDEFINED JS_UNDEFINED JS_NULL JS_NULL JS_NULL JS_NULL None None).

Definition ijXhrOpen (this : JSValue) (argc : nat) (argv : list JSValue) : M JSValue :=
  o ← ijXhrGet this ;
  match o with
  | None => mret JS_EXCEPTION
  | Some p =>
      x ← get_x p ;
      (if x_ready_state x =? XHR_RSTATE_DONE then xhr_reset p else mret tt) ;;
      x ← get_x p ;
      (if x_ready_state x <? XHR_RSTATE_OPENED then
         method ← arg_at argv 0 ;
         url ← arg_at argv 1 ;
         async ← arg_at argv 2 ;
         method_str ← JS_ToCString method ;
         url_str ← JS_ToCString url ;
         (if (argc =? 3)%nat then b ← JS_ToBool async ; upd_x p (set_x_async (negb (b =? 0))) else mret tt) ;;
         x ← get_x p ;
         (match method_str with
          | None => fail NullDeref
          | Some (_, m) =>
              if is_head m then curl_easy_setopt (x_curl_h x) "CURLOPT_NOBODY" [AZ 1]
              else curl_easy_setopt (x_curl_h x) "CURLOPT_CUSTOMREQUEST" [AB m]
          end) ;;
         curl_easy_setopt (x_curl_h x) "CURLOPT_URL" (match url_str with Some (_, u) => [AB u] | None => [] end) ;;
         JS_FreeCString_opt method_str ;;
         JS_FreeCString_opt url_str ;;
         upd_x p (set_x_ready_state XHR_RSTATE_OPENED) ;;
         ijMaybeEmitEvent p XHR_EVENT_READY_STATE_CHANGED JS_UNDEFINED
       else mret tt) ;;
      mret JS_UNDEFINED
  end.

(** [es] is what curl_easy_perform delivers when the request is synchronous. *)
Definition curl_easy_perform (h : option addr) (p : addr) (es : list curl_event) : M Z :=
  match h with
  | None => mret CURLE_BAD_FUNCTION_ARGUMENT
  | Some h => _ ← get_easy h ; _ ← transfer p es ; ask "curl_easy_perform" [AP h]
  end.

Definition ijXhrSend (es : list curl_event) (this : JSValue) (argv : list JSValue) : M JSValue :=
  o ← ijXhrGet this ;
  match o with
  | None => mret JS_EXCEPTION
  | Some p =>
      x ← get_x p ;
      (if x_sent x then mret tt
       else
         arg ← arg_at argv 0 ;
         iss ← JS_IsString arg ;
         (if (iss : bool) then
            body ← JS_ToCString arg ;
            match body with
            | None => mret tt
            | Some (q, s) =>
                curl_easy_setopt (x_curl_h x) "CURLOPT_POSTFIELDSIZE" [AZ (Z.of_nat (length s))] ;;
                curl_easy_setopt (x_curl_h x) "CURLOPT_COPYPOSTFIELDS" [AB s] ;;
                JS_FreeCString q
            end
          else mret tt) ;;
         (match x_slist x with
          | None => mret tt
          | Some l => curl_easy_setopt (x_curl_h x) "CURLOPT_HTTPHEADER" [AP l]
          end) ;;
         (if x_async x then curl_multi_add_handle (x_curlm_h x) (x_curl_h x)
          else
            result ← curl_easy_perform (x_curl_h x) p es ;
            curlDoneCb result p) ;;
         upd_x p (set_x_sent true)) ;;
      mret JS_UNDEFINED
  end.

(** ** The multi handle: ijutils.c *)

(** The messages curl_multi_info_read gives, all of them CURLMSG_DONE: the easy handle and the
    result of its transfer. The callback and its argument come from CURLOPT_PRIVATE. *)
Fixpoint ijCheckMultiInfo (messages : list (addr * Z)) : M unit :=
  match messages with
  | [] => mret tt
  | (easy_handle, result) :: messages =>
      e ← get_easy easy_handle ;
      arg ← CHECK_NOT_NULL (ez_private e) ;
      curlmDoneCb easy_handle result arg ;;
      curl_multi_remove_handle true (Some easy_handle) ;;
      curl_easy_cleanup easy_handle ;;
      ijCheckMultiInfo messages
  end.

Definition CURL_CSELECT_IN : Z := 1.
Definition CURL_CSELECT_OUT : Z := 2.

(** curl_multi_socket_action runs the callbacks of the transfers it moves on: [moves] are these
    transfers and what they deliver, [messages] what is done then. *)
Fixpoint curl_multi_socket_action (moves : list (addr * list curl_event)) : M unit :=
  match moves with
  | [] => mret tt
  | (p, es) :: moves => _ ← transfer p es ; curl_multi_socket_action moves
  end.

Definition uvPollCb (handle : addr) (events : Z) (moves : list (addr * list curl_event)) (messages : list (addr * Z)) :
    M unit :=
  c ← get_poll handle ;
  poll_ctx ← CHECK_NOT_NULL (h_data (pc_poll c)) ;
  c ← get_poll poll_ctx ;
  qrt ← CHECK_NOT_NULL (pc_qrt c) ;
  _ ← get_rt qrt ;
  log "curl_multi_socket_action" [AZ (pc_sockfd c);
    AZ (Z.lor (if negb (Z.land events UV_READABLE =? 0) then CURL_CSELECT_IN else 0)
              (if negb (Z.land events UV_WRITABLE =? 0) then CURL_CSELECT_OUT else 0))] ;;
  curl_multi_socket_action moves ;;
  ijCheckMultiInfo messages.

Definition uvTimerCb (handle : addr) (moves : list (addr * list curl_event)) (messages : list (addr * Z)) : M unit :=
  r ← get_rt handle ;
  qrt ← CHECK_NOT_NULL (h_data (rt_timer r)) ;
  _ ← get_rt qrt ;
  log "curl_multi_socket_action" [AZ (-1); AZ 0] ;;
  curl_multi_socket_action moves ;;
  ijCheckMultiInfo messages.
End Callbacks.

(** The structure before curl is asked for handles. *)
Definition xhr0 : IJJSXhr :=
  mkXhr (replicate XHR_EVENT_MAX JS_UNDEFINED) None false None false true 0 XHR_RTYPE_DEFAULT
    XHR_RSTATE_UNSENT None JS_UNDEFINED JS_UNDEFINED JS_NULL JS_NULL JS_NULL JS_NULL None None.

Definition ijXhrConstructor (qrt : addr) (new_target : JSValue) (argv : list JSValue) : M JSValue :=
  obj ← JS_NewObjectClass cls_xhr ;
  if JS_IsException obj then mret obj
  else
    o ← je_calloc (CXhr xhr0) ;
    match o with
    | None => JS_FreeValue obj ;; mret JS_EXCEPTION
    | Some p =>
        m ← ijGetCurlm qrt ;
        upd_x p (set_x_curlm_h m) ;;
        h ← curl_easy_init ;
        upd_x p (set_x_curl_h h) ;;
        curl_set_private h p ;;
        curl_easy_setopt h "CURLOPT_USERAGENT" [AB (lit "ijjs/1.0")] ;;
        curl_easy_setopt h "CURLOPT_FOLLOWLOCATION" [AZ 1] ;;
        curl_easy_setopt h "CURLOPT_NOPROGRESS" [AZ 0] ;;
        curl_easy_setopt h "CURLOPT_NOSIGNAL" [AZ 1] ;;
        curl_easy_setopt h "CURLOPT_HTTP_VERSION" [AZ 3] ;;
        curl_easy_setopt h "CURLOPT_XFERINFODATA" [AP p] ;;
        curl_easy_setopt h "CURLOPT_WRITEDATA" [AP p] ;;
        curl_easy_setopt h "CURLOPT_HEADERDATA" [AP p] ;;
        curl_easy_setopt h "CURLOPT_SSL_VERIFYPEER" [AZ 1] ;;
        curl_easy_setopt h "CURLOPT_SSL_VERIFYHOST" [AZ 2] ;;
        JS_SetOpaque obj p ;;
        mret obj
    end.

(** ** Properties of the object *)

Definition ijXhrEventGet (this : JSValue) (magic : nat) : M JSValue :=
  o ← ijXhrGet this ;
  match o with
  | None => mret JS_EXCEPTION
  | Some p => x ← get_x p ; v ← arg_at (x_events x) magic ; JS_DupValue v
  end.

Definition ijXhrEventSet (this value : JSValue) (magic : nat) : M JSValue :=
  o ← ijXhrGet this ;
  match o with
  | None => mret JS_EXCEPTION
  | Some p =>
      isf ← JS_IsFunction value ;
      (if isf || JS_IsUndefined value || JS_IsNull value then
         x ← get_x p ;
         old ← arg_at (x_events x) magic ;
         JS_FreeValue old ;;
         v ← JS_DupValue value ;
         upd_x p (λ x, set_x_events (<[magic := v]> (x_events x)) x)
       else mret tt) ;;
      mret JS_UNDEFINED
  end.

(** The getters that only show a field. *)
Definition xhr_field (f : IJJSXhr → JSValue) (this : JSValue) : M JSValue :=
  o ← ijXhrGet this ;
  match o with
  | None => mret JS_EXCEPTION
  | Some p => x ← get_x p ; JS_DupValue (f x)
  end.

Definition ijXhrReadystateGet : JSValue → M JSValue := xhr_field (λ x, JS_NewInt32 (x_ready_state x)).
Definition ijXhrResponseurlGet : JSValue → M JSValue := xhr_field x_url.
Definition ijXhrStatusGet : JSValue → M JSValue := xhr_field x_status.
Definition ijXhrStatustextGet : JSValue → M JSValue := xhr_field x_status_text.
Definition ijXhrTimeoutGet : JSValue → M JSValue := xhr_field (λ x, JS_NewInt32 (x_timeout x)).

Definition ijXhrTimeoutSet (this value : JSValue) : M JSValue :=
  o ← ijXhrGet this ;
  match o with
  | None => mret JS_EXCEPTION
  | Some p =>
      t ← JS_ToInt32 value ;
      match t with
      | None => mret JS_EXCEPTION
      | Some timeout =>
          upd_x p (set_x_timeout (unsigned64 timeout)) ;;
          x ← get_x p ;
          (if x_sent x then mret tt else curl_easy_setopt (x_curl_h x) "CURLOPT_TIMEOUT_MS" [AZ timeout]) ;;
          mret JS_UNDEFINED
      end
  end.

Section Response.
(** JS_ParseJSON of quickjs *)
Context (parse_json : bytes → option jsbody).

Definition JS_ParseJSON (buf : bytes) : M JSValue :=
  match parse_json buf with
  | Some b => js_new b
  | None => js_raise ;; mret JS_EXCEPTION
  end.

Definition ijXhrResponseGet (this : JSValue) : M JSValue :=
  o ← ijXhrGet this ;
  match o with
  | None => mret JS_EXCEPTION
  | Some p =>
      x ← get_x p ;
      bbuf ← dbuf_bytes (x_bbuf x) ;
      match bbuf with
      | [] => mret JS_NULL
      | _ =>
          (if JS_IsNull (x_response x) then
             if (x_response_type x =? XHR_RTYPE_DEFAULT) || (x_response_type x =? XHR_RTYPE_TEXT) then
               s ← JS_NewString bbuf ; upd_x p (set_x_response s)
             else if x_response_type x =? XHR_RTYPE_ARRAY_BUFFER then
               s ← js_new (BArrayBuffer bbuf) ; upd_x p (set_x_response s)
             else if x_response_type x =? XHR_RTYPE_JSON then
               r ← dbuf_put (x_bbuf x) [NUL] ;
               (match r with None => mret tt | Some b => upd_x p (set_x_bbuf b) end) ;;
               x ← get_x p ;
               bbuf ← dbuf_bytes (x_bbuf x) ;
               s ← JS_ParseJSON bbuf ; upd_x p (set_x_response s)
             else abort
           else mret tt) ;;
          x ← get_x p ;
          JS_DupValue (x_response x)
      end
  end.
End Response.

Definition ijXhrResponsetextGet (this : JSValue) : M JSValue :=
  o ← ijXhrGet this ;
  match o with
  | None => mret JS_EXCEPTION
  | Some p =>
      x ← get_x p ;
      bbuf ← dbuf_bytes (x_bbuf x) ;
      match bbuf with
      | [] => mret JS_NULL
      | _ =>
          (if JS_IsNull (x_response_text x) then s ← JS_NewString bbuf ; upd_x p (set_x_response_text s) else mret tt) ;;
          x ← get_x p ;
          JS_DupValue (x_response_text x)
      end
  end.

Definition rtype_name (t : Z) : option string :=
  if t =? XHR_RTYPE_DEFAULT then Some ""%string
  else if t =? XHR_RTYPE_TEXT then Some "text"%string
  else if t =? XHR_RTYPE_ARRAY_BUFFER then Some "arraybuffer"%string
  else if t =? XHR_RTYPE_JSON then Some "json"%string
  else None.

Definition ijXhrResponsetypeGet (this : JSValue) : M JSValue :=
  o ← ijXhrGet this ;
  match o with
  | None => mret JS_EXCEPTION
  | Some p =>
      x ← get_x p ;
      match rtype_name (x_response_type x) with Some n => JS_NewString (lit n) | None => abort end
  end.

(** The type a text stands for: strncmp compares the length of the known name only. *)
Definition rtype_of (v : bytes) : option Z :=
  if has_prefix (lit "arraybuffer") v then Some XHR_RTYPE_ARRAY_BUFFER
  else if has_prefix (lit "json") v then Some XHR_RTYPE_JSON
  else if has_prefix (lit "text") v then Some XHR_RTYPE_TEXT
  else match v with [] => Some XHR_RTYPE_DEFAULT | _ => None end.

Definition ijXhrResponsetypeSet (this value : JSValue) : M JSValue :=
  o ← ijXhrGet this ;
  match o with
  | None => mret JS_EXCEPTION
  | Some p =>
      x ← get_x p ;
      (if XHR_RSTATE_LOADING <=? x_ready_state x then
         s ← JS_NewString (lit "InvalidStateError") ; _ ← JS_Throw s ; mret tt
       else mret tt) ;;
      v ← JS_ToCString value ;
      (match v with
       | None => mret tt
       | Some (q, v) =>
           (match rtype_of v with Some t => upd_x p (set_x_response_type t) | None => mret tt end) ;;
           JS_FreeCString q
       end) ;;
      mret JS_UNDEFINED
  end.

Definition ijXhrUploadGet (this : JSValue) : M JSValue := mret JS_UNDEFINED.
Definition ijXhrWithcredentialsGet (this : JSValue) : M JSValue := mret JS_UNDEFINED.
Definition ijXhrWithcredentialsSet (this value : JSValue) : M JSValue := mret JS_UNDEFINED.

Definition ijXhrOverridemimetype (this : JSValue) (argv : list JSValue) : M JSValue :=
  JS_ThrowTypeError "unsupported".

Definition ijXhrGetAllResponseHeaders (this : JSValue) (argv : list JSValue) : M JSValue :=
  o ← ijXhrGet this ;
  match o with
  | None => mret JS_EXCEPTION
  | Some p =>
      x ← get_x p ;
      hbuf ← dbuf_bytes (x_hbuf x) ;
      match hbuf with
      | [] => mret JS_NULL
      | _ =>
          (if JS_IsNull (x_headers x) then
             s ← JS_NewString (take (length hbuf - 1) hbuf) ; upd_x p (set_x_headers s)
           else mret tt) ;;
          x ← get_x p ;
          JS_DupValue (x_headers x)
      end
  end.

(** strstr reads to the end of the string: a buffer without a NUL is read beyond. A step of the
    loop either gets further or comes back to where it was, so that a loop with more steps than
    characters never ends. *)
Definition ijXhrGetResponseHeader (this : JSValue) (argv : list JSValue) : M JSValue :=
  o ← ijXhrGet this ;
  match o with
  | None => mret JS_EXCEPTION
  | Some p =>
      x ← get_x p ;
      hbuf ← dbuf_bytes (x_hbuf x) ;
      match hbuf with
      | [] => mret JS_NULL
      | _ =>
          a0 ← arg_at argv 0 ;
          header_name ← JS_ToCString a0 ;
          match header_name with
          | None => mret JS_EXCEPTION
          | Some (q, n) =>
              match c_string hbuf with
              | None => fail OutOfBounds
              | Some text =>
                  match header_loop (S (length text)) text (tolower <$> n) [] with
                  | None => fail Diverges
                  | Some r =>
                      JS_FreeCString q ;;
                      match header_result r with None => mret JS_NULL | Some t => JS_NewString t end
                  end
              end
          end
      end
  end.

Definition CURL_MAX_HTTP_HEADER : nat := Z.to_nat 102400.

(** [snprintf(buf, sizeof(buf), ...)] keeps one character less than the size. *)
Definition request_header (name : bytes) (value : option bytes) : bytes :=
  take (CURL_MAX_HTTP_HEADER - 1)
    (match value with Some v => name ++ lit ": " ++ v | None => name ++ lit ";" end).

Definition ijXhrSetRequestHeader (this : JSValue) (argv : list JSValue) : M JSValue :=
  o ← ijXhrGet this ;
  match o with
  | None => mret JS_EXCEPTION
  | Some p =>
      a0 ← arg_at argv 0 ;
      iss ← JS_IsString a0 ;
      if negb iss then mret JS_UNDEFINED
      else
        h_name ← JS_ToCString a0 ;
        a1 ← arg_at argv 1 ;
        h_value ← (if JS_IsUndefined a1 then mret None else JS_ToCString a1) ;
        match h_name with
        | None => fail NullDeref
        | Some (_, n) =>
            let buf := request_header n (snd <$> h_value) in
            JS_FreeCString_opt h_name ;;
            JS_FreeCString_opt h_value ;;
            x ← get_x p ;
            l ← curl_slist_append (x_slist x) buf ;
            (match l with None => mret tt | Some _ => upd_x p (set_x_slist l) end) ;;
            mret JS_UNDEFINED
        end
  end.
