(* ===== verification/XhrProofs.v ===== *)
(** * XMLHttpRequest: theorems

    The callbacks of a transfer implement a pure machine on responses ([resp_step]): status,
    headers and body. The methods that read the response return what the machine holds. *)

From S2P Require Import Prelude State Runtime Logic Promise Worlds Misc Curl XhrHeaders Xhr.

(** ** Calls of handlers

    Memory, counts and every cell but a promise are as before. *)
Definition is_promise (b : jsbody) : bool := match b with BPromise _ => true | _ => false end.

Record calm (w w' : World) : Prop := {
  calm_env : w_env w' = w_env w;
  calm_mem : w_mem w' = w_mem w;
  calm_rc : ∀ a, rc w' a = rc w a;
  calm_cell : ∀ a b, w_cell w !! a = Some b → is_promise b = false → w_cell w' !! a = Some b
}.

#[export] Instance calm_preorder : PreOrder calm.
Proof.
  split; [by split|]. intros w1 w2 w3 [E1 M1 R1 C1] [E2 M2 R2 C2]. split; [congruence|congruence| |eauto].
  intros a. by rewrite R2.
Qed.

Lemma quiet_calm w w' : quiet w w' → calm w w'.
Proof. intros [E1 M1 R1 C1]. split; eauto. Qed.

(** A function is called: the caller holds the result. *)
Lemma wp_JS_Call_calm f argv (Q : JSValue → World → Prop) w :
  (∀ v w', w_env w' = w_env w → w_mem w' = w_mem w → (∀ a, rc w' a = rc w a + cnt a (ref_of v)) → holds w' (ref_of v) →
     (∀ a b, w_cell w !! a = Some b → is_promise b = false → w_cell w' !! a = Some b) → Q v w') →
  wp (JS_Call f argv) Q w.
Proof.
  intros HQ. unfold JS_Call. wp_step. wp_step. wp_step. wp_step.
  assert (HZ : ∀ v w', ref_of v = [] → quiet w w' → Q v w').
  { intros v w' Hv [E1 M1 R1 C1]. apply HQ; try done; rewrite ?Hv; [|apply holds_nil|eauto].
    intros a. rewrite R1, cnt_nil. lia. }
  assert (HE : wp (js_raise ;; mret JS_EXCEPTION) Q (log_ev (Ev "JS_Call" (AV f :: (AV <$> argv))) w)).
  { wp_steps. apply HZ; [done|]. etrans; [apply quiet_log_ev|exact Hq]. }
  destruct (body_of f _) as [[]|]; try done.
  - wp_steps. apply HQ; world_simpl; try done; [|apply holds_nil|].
    + intros a. world_simpl. lia.
    + intros a b Hb Hp. world_simpl. destruct (decide (a = promise)) as [->|]; [|by rewrite lookup_alter_ne].
      rewrite lookup_alter_eq, Hb. by destruct b.
  - wp_steps.
    + apply HZ; [done|]. etrans; apply quiet_log_ev.
    + unfold JS_NewObjectProto. apply wp_js_new. intros a Ha Ra. apply HQ; world_simpl; try done.
      * intros x. world_simpl. lia.
      * apply holds_one. world_simpl. world_simpl_in Ra. rewrite decide_True by done. lia.
      * intros x b Hb _. world_simpl. rewrite lookup_insert_ne; [done|]. world_simpl_in Ha. congruence.
    + apply HZ; [done|]. etrans; [apply quiet_log_ev|]. etrans; [apply quiet_log_ev|exact Hq].
Qed.

(** ** Rules *)

Lemma wp_get_x p al x (Q : IJJSXhr → World → Prop) w :
  w_mem w !! p = Some (al, CXhr x) → Q x w → wp (get_x p) Q w.
Proof. intros Hp HQ. unfold get_x. wp_step. eapply wp_load; [done|]. by wp_steps. Qed.

Lemma wp_upd_x p al x f (Q : unit → World → Prop) w :
  w_mem w !! p = Some (al, CXhr x) → Q tt (set_mem (<[p := (al, CXhr (f x))]> (w_mem w)) w) → wp (upd_x p f) Q w.
Proof. intros Hp HQ. unfold upd_x, put_x. wp_step. eapply wp_get_x; [done|]. by eapply wp_store. Qed.

Ltac get_x := eapply wp_get_x; [lookup_tac|].
Ltac upd_x := eapply wp_upd_x; [lookup_tac|].

(** No handler calls the request back. *)
Definition no_user : nat → M unit := λ _, mret tt.

Lemma wp_xhr_emit p al x event f arg (Q : unit → World → Prop) w :
  nonneg w → w_mem w !! p = Some (al, CXhr x) → x_events x !! event = Some f → holds w (ref_of arg) →
  (∀ w', calm (drop_ref arg w) w' → nonneg w' → Q tt w') →
  wp (ijMaybeEmitEvent no_user p event arg) Q w.
Proof.
  intros Hn Hp Hf Harg HQ. unfold ijMaybeEmitEvent, JS_IsFunction, no_user. wp_step. get_x. wp_step. eapply wp_arg_at; [done|].
  assert (Hdrop : nonneg (drop_ref arg w)).
  { intros a. specialize (Harg a). specialize (Hn a). world_simpl. lia. }
  wp_step. wp_step. wp_step; [apply wp_FreeValue; [done|]; by apply HQ|].
  do 4 wp_step. wp_step. apply wp_JS_Call_calm. intros v w1 E1 M1 R1 H1 C1.
  assert (Hn1 : nonneg w1) by nonneg_by Hn.
  wp_step. apply (wp_mono _ (λ _ w2, quiet w1 w2)).
  { destruct (JS_IsException v); [|by wp_steps].
    eapply wp_quietly_nn; [apply quietly_ijDumpError|done|]. by intros. }
  intros _ w2 Hq. cbv beta in Hq.
  assert (R2 : ∀ a, rc w2 a = rc w a + cnt a (ref_of f) + cnt a (ref_of v)).
  { intros a. rewrite (quiet_rc _ _ Hq), R1. by world_simpl. }
  wp_step. apply wp_FreeValue. { intros a. specialize (Hn a). rewrite R2. count_facts a. lia. }
  wp_step. apply wp_FreeValue. { intros a. specialize (Hn a). rewrite rc_drop_ref, R2. count_facts a. lia. }
  apply wp_FreeValue. { intros a. specialize (Hn a). specialize (Harg a). rewrite !rc_drop_ref, R2. count_facts a. lia. }
  apply HQ.
  - split; world_simpl; try done.
    + rewrite E1. by world_simpl.
    + intros a. rewrite !rc_drop_ref, R2. lia.
    + intros a b Hb Hpr. apply (quiet_cell _ _ Hq). by apply C1; world_simpl.
  - intros a. specialize (Hdrop a). world_simpl_in Hdrop. rewrite !rc_drop_ref, R2. lia.
Qed.

(** The events of the callbacks have no argument. *)
Lemma wp_xhr_event p al x event f (Q : unit → World → Prop) w :
  nonneg w → w_mem w !! p = Some (al, CXhr x) → x_events x !! event = Some f →
  (∀ w', calm w w' → nonneg w' → Q tt w') →
  wp (ijMaybeEmitEvent no_user p event JS_UNDEFINED) Q w.
Proof. intros Hn Hp Hf HQ. eapply wp_xhr_emit; [done|done|done|apply holds_nil|done]. Qed.

(** ** Responses *)

(** What a request knows of its response: the ready state, the text of the last status line, the status
    and its text once they are announced, the header buffer and the body. *)
Record response := mkResponse {
  r_ready : Z;
  r_raw : option bytes;
  r_status : option (Z * bytes);
  r_hdr : bytes;
  r_body : bytes
}.

Definition announced (code : Z) : bool := (-1 <? code) && negb (Z.quot code 100 =? 3).

(** What an event does to it, for a response with this status code. *)
Definition resp_step (code : Z) (r : response) (e : curl_event) : response :=
  match e with
  | OnHeader line =>
      if has_prefix (lit "HTTP/") line then
        mkResponse (r_ready r) (default None (status_raw line)) (r_status r) [] (r_body r)
      else if has_prefix CRLF line then
        if announced code then
          mkResponse XHR_RSTATE_HEADERS_RECEIVED (r_raw r) ((λ t, (code, t)) <$> r_raw r) (r_hdr r ++ [NUL]) (r_body r)
        else r
      else
        match lower_name line with
        | None => r
        | Some l => mkResponse (r_ready r) (r_raw r) (r_status r) (r_hdr r ++ l) (r_body r)
        end
  | OnData d =>
      mkResponse (if r_ready r =? XHR_RSTATE_HEADERS_RECEIVED then XHR_RSTATE_LOADING else r_ready r)
        (r_raw r) (r_status r) (r_hdr r) (r_body r ++ d)
  | OnProgress _ _ => r
  end.

(** Status lines have their text before the end of the line, and come before the empty line. *)
Definition event_ok (code : Z) (r : response) (e : curl_event) : Prop :=
  match e with
  | OnHeader line =>
      if has_prefix (lit "HTTP/") line then status_raw line ≠ Some None
      else if has_prefix CRLF line then announced code = true → is_Some (r_raw r)
      else True
  | _ => True
  end.

Fixpoint events_ok (code : Z) (r : response) (es : list curl_event) : Prop :=
  match es with
  | [] => True
  | e :: es => event_ok code r e ∧ events_ok code (resp_step code r e) es
  end.

(** ** The response in memory *)

Definition str_is (w : World) (o : option addr) (s : option bytes) : Prop :=
  match o, s with
  | None, None => True
  | Some q, Some t => w_mem w !! q = Some (ByJs, CStr t)
  | _, _ => False
  end.

Definition dyn_is (w : World) (o : option addr) (d : bytes) : Prop :=
  match o with
  | None => d = []
  | Some q => w_mem w !! q = Some (ByLibc, CDyn d) ∧ d ≠ []
  end.

Definition easy_is (w : World) (p : addr) (h : option addr) : Prop :=
  match h with
  | None => True
  | Some a => ∃ e, w_mem w !! a = Some (ByCurl, CEasy e) ∧ ez_private e = Some p
  end.

Definition slist_is (w : World) (l : option addr) : Prop :=
  match l with
  | None => True
  | Some a => ∃ ls, w_mem w !! a = Some (ByCurl, CSlist ls)
  end.

Definition status_is (w : World) (x : IJJSXhr) (s : option (Z * bytes)) : Prop :=
  match s with
  | None => x_status x = JS_UNDEFINED ∧ x_status_text x = JS_UNDEFINED
  | Some (c, t) => x_status x = JS_NewInt32 c ∧ body_of (x_status_text x) w = Some (BString t)
  end.

(** Memory does not fail, and curl knows the status code. *)
Definition transfer_works (code : Z) (e : env) : Prop :=
  ∀ args l, e_int e (Ev "dbuf_realloc" args :: l) = 0 ∧ e_int e (Ev "js_malloc" args :: l) = 0 ∧
    e_int e (Ev "CURLINFO_RESPONSE_CODE" args :: l) = code.

Record has_response (w : World) (o p : addr) (h : option addr) (code : Z) (x : IJJSXhr) (r : response) : Prop := {
  hr_env : transfer_works code (w_env w);
  hr_nonneg : nonneg w;
  hr_mem : w_mem w !! p = Some (ByJe, CXhr x);
  hr_curl : x_curl_h x = h;
  hr_easy : easy_is w p h;
  hr_slist : slist_is w (x_slist x);
  hr_events : length (x_events x) = XHR_EVENT_MAX;
  hr_ready : x_ready_state x = r_ready r;
  hr_raw : str_is w (x_raw x) (r_raw r);
  hr_status : status_is w x (r_status r);
  hr_hdr : dyn_is w (x_hbuf x) (r_hdr r);
  hr_body : dyn_is w (x_bbuf x) (r_body r);
  hr_apart : ∀ a, x_hbuf x = Some a → x_bbuf x ≠ Some a;
  hr_cached : x_headers x = JS_NULL ∧ x_response x = JS_NULL ∧ x_response_text x = JS_NULL;
  hr_obj : w_cell w !! o = Some (BClass cls_xhr (Some p))
}.

(** Blocks of curl stay when no block of curl changes. *)
Lemma curl_kept w w' p h l :
  (∀ k c, w_mem w !! k = Some (ByCurl, c) → w_mem w' !! k = Some (ByCurl, c)) →
  easy_is w p h → slist_is w l → easy_is w' p h ∧ slist_is w' l.
Proof.
  intros Hk He Hs. split.
  - destruct h; [|done]. destruct He as (e & ? & ?). exists e. eauto.
  - destruct l; [|done]. destruct Hs as (ls & ?). exists ls. eauto.
Qed.

Lemma body_of_calm w w' v s : calm w w' → body_of v w = Some (BString s) → body_of v w' = Some (BString s).
Proof. intros Hc. destruct v; try done. simpl. intros H. by apply (calm_cell _ _ Hc). Qed.

Lemma response_calm w w' o p h code x r :
  calm w w' → nonneg w' → has_response w o p h code x r → has_response w' o p h code x r.
Proof.
  intros Hc Hn [H0 H1 H2 H3 H4 HS H5 H6 H7 H8 H9 H10 H11 H12 H13]. pose proof (calm_mem _ _ Hc) as Hm.
  destruct (curl_kept w w' p h (x_slist x)) as [? ?]; [intros k c; by rewrite Hm|done|done|].
  split; try done; rewrite ?Hm; try done.
  - by rewrite (calm_env _ _ Hc).
  - unfold str_is in *. by rewrite Hm.
  - unfold status_is in *. destruct (r_status r) as [[c t]|]; [|done]. destruct H8 as [? Hb]. split; [done|].
    by eapply body_of_calm.
  - unfold dyn_is in *. by rewrite Hm.
  - unfold dyn_is in *. by rewrite Hm.
  - by apply (calm_cell _ _ Hc).
Qed.

(** Other blocks than those of the request: nothing in them is looked at. *)
Lemma str_is_insert w w' o s q al c :
  w_mem w' = <[q := (al, c)]> (w_mem w) → str_is w o s → o ≠ Some q → str_is w' o s.
Proof. intros Hm. unfold str_is. destruct o, s; try done. rewrite Hm. intros H ?. by rewrite lookup_insert_ne by congruence. Qed.

Lemma dyn_is_insert w w' o d q al c :
  w_mem w' = <[q := (al, c)]> (w_mem w) → dyn_is w o d → o ≠ Some q → dyn_is w' o d.
Proof. intros Hm. unfold dyn_is. destruct o; [|done]. rewrite Hm. intros [H ?] ?. by rewrite lookup_insert_ne by congruence. Qed.

Lemma wp_dbuf_bytes b d (Q : bytes → World → Prop) w : dyn_is w b d → Q d w → wp (dbuf_bytes b) Q w.
Proof.
  intros Hb HQ. unfold dbuf_bytes. destruct b as [q|]; [destruct Hb as [Hb _]|simpl in Hb; subst; by wp_steps].
  wp_step. eapply wp_load; [done|]. by wp_steps.
Qed.

(** The block the bytes are in: the old one, or a new one. *)
Definition dbuf_at (w : World) (b : option addr) (q : addr) : Prop := b = Some q ∨ b = None ∧ w_mem w !! q = None.

Lemma wp_dbuf_put b d data (Q : option (option addr) → World → Prop) w :
  (∀ args l, e_int (w_env w) (Ev "dbuf_realloc" args :: l) = 0) → dyn_is w b d →
  (data = [] → Q (Some b) w) →
  (∀ q w', data ≠ [] → dbuf_at w b q → w_env w' = w_env w → (∀ a, rc w' a = rc w a) → w_cell w' = w_cell w →
     w_mem w' = <[q := (ByLibc, CDyn (d ++ data))]> (w_mem w) → Q (Some (Some q)) w') →
  wp (dbuf_put b data) Q w.
Proof.
  intros He Hb H1 H2. unfold dbuf_put. destruct data as [|c data]; [by wp_steps; apply H1|].
  wp_step. apply wp_ask_eq. intros z ->. rewrite He. cbn [negb Z.eqb]. destruct b as [q|].
  - destruct Hb as [Hb Hd]. wp_step. eapply (wp_dbuf_bytes _ d); [by split|]. wp_step. eapply wp_store; [lookup_tac|].
    wp_steps. apply H2; try done. by left.
  - simpl in Hb. subst d. wp_step. apply wp_c_alloc. intros q Hq. wp_steps. apply H2; try done. by right.
Qed.

(** Goals about blocks that an update of another block leaves alone. *)
Ltac framed :=
  match goal with
  | |- str_is _ ?o ?s =>
      match goal with H : str_is _ o s |- _ =>
        revert H; unfold str_is; destruct o, s; try done; intros H; lookup_tac end
  | |- dyn_is _ ?o ?d =>
      match goal with H : dyn_is _ o d |- _ =>
        revert H; unfold dyn_is; destruct o; try done; intros [H ?]; split; [lookup_tac|done] end
  | |- status_is _ _ _ => unfold status_is in *; by case_match
  | |- easy_is ?w' ?p ?h =>
      match goal with H1 : easy_is ?w p h, H2 : slist_is ?w ?l |- _ =>
        apply (curl_kept w w' p h l); [intros ? ? ?; lookup_tac|done|done] end
  | |- slist_is ?w' ?l =>
      match goal with H1 : easy_is ?w ?p ?h, H2 : slist_is ?w l |- _ =>
        apply (curl_kept w w' p h l); [intros ? ? ?; lookup_tac|done|done] end
  | |- _ !! _ = Some _ => lookup_tac
  | |- nonneg _ => by intros ?; world_simpl
  end.

Section Steps.
Context (o p h : addr) (code : Z).

(** A field that is not looked at in memory. *)
Lemma response_ready w x r z :
  has_response w o p (Some h) code x r →
  has_response (set_mem (<[p := (ByJe, CXhr (set_x_ready_state z x))]> (w_mem w)) w) o p (Some h) code (set_x_ready_state z x)
    (mkResponse z (r_raw r) (r_status r) (r_hdr r) (r_body r)).
Proof.
  intros [H0 H1 H2 H3 H4 HS H5 H6 H7 H8 H9 H10 H11 H12 H13]. split; cbn -[easy_is slist_is str_is dyn_is]; try done; framed.
Qed.

Lemma wp_response_event w x r event (Q : unit → World → Prop) :
  has_response w o p (Some h) code x r → (event < XHR_EVENT_MAX)%nat →
  (∀ w', has_response w' o p (Some h) code x r → calm w w' → Q tt w') →
  wp (ijMaybeEmitEvent no_user p event JS_UNDEFINED) Q w.
Proof.
  intros HR He HQ. destruct (lookup_lt_is_Some_2 (x_events x) event) as [f Hf]; [by rewrite (hr_events _ _ _ _ _ _ _ HR)|].
  eapply wp_xhr_event; [exact (hr_nonneg _ _ _ _ _ _ _ HR)|exact (hr_mem _ _ _ _ _ _ _ HR)|done|].
  intros w' Hc Hn. apply HQ; [|done]. by eapply response_calm.
Qed.

(** Putting bytes into a buffer changes no block but the buffer's. *)
Lemma dbuf_frame w w' b d q data :
  dyn_is w b d → dbuf_at w b q → w_mem w' = <[q := (ByLibc, CDyn data)]> (w_mem w) →
  (∀ k al c, w_mem w !! k = Some (al, c) → al ≠ ByLibc → k ≠ q ∧ w_mem w' !! k = Some (al, c)) ∧
  (∀ k c, w_mem w !! k = Some (ByLibc, c) → b ≠ Some k → k ≠ q ∧ w_mem w' !! k = Some (ByLibc, c)).
Proof.
  intros Hd Hat HM.
  assert (Hq : ∀ k al c, w_mem w !! k = Some (al, c) → al ≠ ByLibc ∨ b ≠ Some k → k ≠ q).
  { intros k al c Ho Hor ->. destruct Hat as [->|[_ ?]]; [|congruence]. destruct Hd as [Hd _]. destruct Hor; congruence. }
  split; intros k; [intros al c Ho ?|intros c Ho ?]; (assert (k ≠ q) by (eapply Hq; eauto));
    (split; [done|]); by rewrite HM, lookup_insert_ne by congruence.
Qed.

(** Bytes added to the header buffer. *)
Lemma response_hdr w w' x r q data :
  has_response w o p (Some h) code x r → data ≠ [] → dbuf_at w (x_hbuf x) q →
  w_env w' = w_env w → (∀ a, rc w' a = rc w a) → w_cell w' = w_cell w →
  w_mem w' = <[q := (ByLibc, CDyn (r_hdr r ++ data))]> (w_mem w) →
  has_response (set_mem (<[p := (ByJe, CXhr (set_x_hbuf (Some q) x))]> (w_mem w')) w') o p (Some h) code (set_x_hbuf (Some q) x)
    (mkResponse (r_ready r) (r_raw r) (r_status r) (r_hdr r ++ data) (r_body r)).
Proof.
  intros [H0 H1 H2 H3 H4 HS H5 H6 H7 H8 H9 H10 H11 H12 H13] Hd Hat HE HR HC HM.
  destruct (dbuf_frame _ _ _ _ _ _ H9 Hat HM) as [Hk Hl]. destruct (Hk _ _ _ H2) as [Hpq _]; [done|].
  split; cbn -[easy_is slist_is]; try done.
  - by rewrite HE.
  - intros a. rewrite rc_set_mem, HR. apply H1.
  - apply lookup_insert_eq.
  - refine (proj1 (curl_kept w _ p (Some h) (x_slist x) _ H4 HS)). intros k c Hc. destruct (Hk _ _ _ Hc) as [? ?]; [done|]. cbn. by rewrite lookup_insert_ne by congruence.
  - refine (proj2 (curl_kept w _ p (Some h) (x_slist x) _ H4 HS)). intros k c Hc. destruct (Hk _ _ _ Hc) as [? ?]; [done|]. cbn. by rewrite lookup_insert_ne by congruence.
  - revert H7. unfold str_is. destruct (x_raw x), (r_raw r); try done. intros H7. destruct (Hk _ _ _ H7) as [? ?]; [done|].
    cbn. by rewrite lookup_insert_ne by congruence.
  - revert H8. unfold status_is. destruct (r_status r) as [[]|]; [|done]. intros [? H8]. split; [done|]. revert H8.
    cbn. destruct (x_status_text x); try done. cbn. by rewrite HC.
  - split; [by rewrite HM, lookup_insert_ne, lookup_insert_eq|]. by destruct (r_hdr r).
  - revert H10. unfold dyn_is. destruct (x_bbuf x) as [b|] eqn:Eb; [|done]. intros [H10 ?]. split; [|done].
    destruct (Hl _ _ H10) as [? ?]; [intros E; by apply (H11 b)|]. cbn. by rewrite lookup_insert_ne by congruence.
  - intros a [= <-] Eb. rewrite Eb in H10. destruct H10 as [H10 _]. destruct (Hl _ _ H10); [|done]. intros E. by apply (H11 q).
  - by rewrite HC.
Qed.

(** Bytes added to the body. *)
Lemma response_body w w' x r q data :
  has_response w o p (Some h) code x r → data ≠ [] → dbuf_at w (x_bbuf x) q →
  w_env w' = w_env w → (∀ a, rc w' a = rc w a) → w_cell w' = w_cell w →
  w_mem w' = <[q := (ByLibc, CDyn (r_body r ++ data))]> (w_mem w) →
  has_response (set_mem (<[p := (ByJe, CXhr (set_x_bbuf (Some q) x))]> (w_mem w')) w') o p (Some h) code (set_x_bbuf (Some q) x)
    (mkResponse (r_ready r) (r_raw r) (r_status r) (r_hdr r) (r_body r ++ data)).
Proof.
  intros [H0 H1 H2 H3 H4 HS H5 H6 H7 H8 H9 H10 H11 H12 H13] Hd Hat HE HR HC HM.
  destruct (dbuf_frame _ _ _ _ _ _ H10 Hat HM) as [Hk Hl]. destruct (Hk _ _ _ H2) as [Hpq _]; [done|].
  split; cbn -[easy_is slist_is]; try done.
  - by rewrite HE.
  - intros a. rewrite rc_set_mem, HR. apply H1.
  - apply lookup_insert_eq.
  - refine (proj1 (curl_kept w _ p (Some h) (x_slist x) _ H4 HS)). intros k c Hc. destruct (Hk _ _ _ Hc) as [? ?]; [done|]. cbn. by rewrite lookup_insert_ne by congruence.
  - refine (proj2 (curl_kept w _ p (Some h) (x_slist x) _ H4 HS)). intros k c Hc. destruct (Hk _ _ _ Hc) as [? ?]; [done|]. cbn. by rewrite lookup_insert_ne by congruence.
  - revert H7. unfold str_is. destruct (x_raw x), (r_raw r); try done. intros H7. destruct (Hk _ _ _ H7) as [? ?]; [done|].
    cbn. by rewrite lookup_insert_ne by congruence.
  - revert H8. unfold status_is. destruct (r_status r) as [[]|]; [|done]. intros [? H8]. split; [done|]. revert H8.
    cbn. destruct (x_status_text x); try done. cbn. by rewrite HC.
  - revert H9. unfold dyn_is. destruct (x_hbuf x) as [b|] eqn:Eb; [|done]. intros [H9 ?]. split; [|done].
    destruct (Hl _ _ H9) as [? ?]; [by apply H11|]. cbn. by rewrite lookup_insert_ne by congruence.
  - split; [by rewrite HM, lookup_insert_ne, lookup_insert_eq|]. by destruct (r_body r).
  - intros a Ea [= <-]. rewrite Ea in H9. destruct H9 as [H9 _]. destruct (Hl _ _ H9); [|done]. by apply H11.
  - by rewrite HC.
Qed.

(** ** The callbacks implement the machine *)

Definition steps_to (m : M Z) (len : nat) (r' : response) (w : World) : Prop :=
  wp m (λ n w', n = Z.of_nat len ∧ ∃ x', has_response w' o p (Some h) code x' r') w.

Lemma data_cb_step w x r data :
  has_response w o p (Some h) code x r → steps_to (curlmDataCb no_user data p) (length data) (resp_step code r (OnData data)) w.
Proof.
  intros HR. unfold steps_to, curlmDataCb. wp_step. eapply wp_get_x; [exact (hr_mem _ _ _ _ _ _ _ HR)|]. wp_step.
  rewrite (hr_ready _ _ _ _ _ _ _ HR).
  apply (wp_mono _ (λ _ w1, ∃ x1, has_response w1 o p (Some h) code x1
    (mkResponse (if r_ready r =? XHR_RSTATE_HEADERS_RECEIVED then XHR_RSTATE_LOADING else r_ready r)
        (r_raw r) (r_status r) (r_hdr r) (r_body r)))).
  { wp_step; [|wp_step; exists x; by destruct r]. wp_step.
    eapply wp_upd_x; [exact (hr_mem _ _ _ _ _ _ _ HR)|].
    eapply wp_response_event; [by apply response_ready|cbv; lia|]. intros w' HR' _. by eexists. }
  intros _ w1 (x1 & HR1). wp_step. eapply wp_get_x; [exact (hr_mem _ _ _ _ _ _ _ HR1)|]. wp_step.
  eapply wp_dbuf_put; [intros; apply (hr_env _ _ _ _ _ _ _ HR1)|exact (hr_body _ _ _ _ _ _ _ HR1)| |].
  - intros ->. wp_step. eapply wp_upd_x; [exact (hr_mem _ _ _ _ _ _ _ HR1)|]. wp_step. split; [done|].
    exists x1. cbn [resp_step]. rewrite app_nil_r.
    replace (set_x_bbuf (x_bbuf x1) x1) with x1 by by destruct x1.
    rewrite insert_id by exact (hr_mem _ _ _ _ _ _ _ HR1). by destruct w1.
  - intros q w2 Hd Hat HE Hrc HC HM. wp_step.
    pose proof (response_body _ _ _ _ _ _ HR1 Hd Hat HE Hrc HC HM) as HR2.
    eapply wp_upd_x. { rewrite HM, lookup_insert_ne; [exact (hr_mem _ _ _ _ _ _ _ HR1)|].
      pose proof (hr_mem _ _ _ _ _ _ _ HR2) as Hp2. destruct (dbuf_frame _ _ _ _ _ _ (hr_body _ _ _ _ _ _ _ HR1) Hat HM) as [Hk _].
      destruct (Hk _ _ _ (hr_mem _ _ _ _ _ _ _ HR1)); congruence. }
    wp_step. split; [done|]. by eexists.
Qed.

Lemma wp_hdr_put w x r data (Q : option (option addr) → World → Prop) :
  has_response w o p (Some h) code x r → data ≠ [] →
  (∀ q w1, wp (upd_x p (set_x_hbuf (Some q))) (λ _ w2, ∃ x2, has_response w2 o p (Some h) code x2
      (mkResponse (r_ready r) (r_raw r) (r_status r) (r_hdr r ++ data) (r_body r))) w1 → Q (Some (Some q)) w1) →
  wp (dbuf_put (x_hbuf x) data) Q w.
Proof.
  intros HR Hne HQ. eapply wp_dbuf_put; [intros; apply (hr_env _ _ _ _ _ _ _ HR)|exact (hr_hdr _ _ _ _ _ _ _ HR)|done|].
  intros q w1 _ Hat HE Hrc HC HM. apply HQ. pose proof (hr_mem _ _ _ _ _ _ _ HR) as Hp.
  destruct (dbuf_frame _ _ _ _ _ _ (hr_hdr _ _ _ _ _ _ _ HR) Hat HM) as [Hk _]. destruct (Hk _ _ _ Hp) as [_ Hp1]; [done|].
  eapply wp_upd_x; [exact Hp1|]. eexists. by eapply response_hdr.
Qed.

(** The buffers and the text a status line drops. *)
Lemma response_drop_hdr w x r q :
  has_response w o p (Some h) code x r → x_hbuf x = Some q →
  has_response (set_mem (<[p := (ByJe, CXhr (set_x_hbuf None x))]> (delete q (w_mem w))) w) o p (Some h) code (set_x_hbuf None x)
    (mkResponse (r_ready r) (r_raw r) (r_status r) [] (r_body r)).
Proof.
  intros [H0 H1 H2 H3 H4 HS H5 H6 H7 H8 H9 H10 H11 H12 H13] Hq. rewrite Hq in H9. destruct H9 as [H9 _].
  split; cbn -[easy_is slist_is]; try done.
  - apply lookup_insert_eq.
  - refine (proj1 (curl_kept w _ p (Some h) (x_slist x) _ H4 HS)). intros k c Hc. cbn. by rewrite lookup_insert_ne, lookup_delete_ne by congruence.
  - refine (proj2 (curl_kept w _ p (Some h) (x_slist x) _ H4 HS)). intros k c Hc. cbn. by rewrite lookup_insert_ne, lookup_delete_ne by congruence.
  - revert H7. unfold str_is. destruct (x_raw x), (r_raw r); try done. intros H7. cbn.
    by rewrite lookup_insert_ne, lookup_delete_ne by congruence.
  - revert H10. unfold dyn_is. destruct (x_bbuf x) as [b|] eqn:Eb; [|done]. intros [H10 ?]. split; [|done]. cbn.
    assert (b ≠ q) by (intros ->; by apply (H11 q)). by rewrite lookup_insert_ne, lookup_delete_ne by congruence.
Qed.

Lemma response_drop_raw w x r q :
  has_response w o p (Some h) code x r → x_raw x = Some q →
  has_response (set_mem (<[p := (ByJe, CXhr (set_x_raw None x))]> (delete q (w_mem w))) w) o p (Some h) code (set_x_raw None x)
    (mkResponse (r_ready r) None (r_status r) (r_hdr r) (r_body r)).
Proof.
  intros [H0 H1 H2 H3 H4 HS H5 H6 H7 H8 H9 H10 H11 H12 H13] Hq. unfold str_is in H7. rewrite Hq in H7.
  destruct (r_raw r) as [t|]; [|done]. split; cbn -[easy_is slist_is]; try done.
  - apply lookup_insert_eq.
  - refine (proj1 (curl_kept w _ p (Some h) (x_slist x) _ H4 HS)). intros k c Hc. cbn. by rewrite lookup_insert_ne, lookup_delete_ne by congruence.
  - refine (proj2 (curl_kept w _ p (Some h) (x_slist x) _ H4 HS)). intros k c Hc. cbn. by rewrite lookup_insert_ne, lookup_delete_ne by congruence.
  - revert H9. unfold dyn_is. destruct (x_hbuf x) as [b|] eqn:Eb; [|done]. intros [H9 ?]. split; [|done]. cbn.
    by rewrite lookup_insert_ne, lookup_delete_ne by congruence.
  - revert H10. unfold dyn_is. destruct (x_bbuf x) as [b|] eqn:Eb; [|done]. intros [H10 ?]. split; [|done]. cbn.
    by rewrite lookup_insert_ne, lookup_delete_ne by congruence.
Qed.

Lemma response_set_raw w w1 x r q t :
  has_response w o p (Some h) code x r → w_mem w !! q = None → w1 = new_block q ByJs (CStr t) (log_ev (Ev "js_malloc" []) w) →
  has_response (set_mem (<[p := (ByJe, CXhr (set_x_raw (Some q) x))]> (w_mem w1)) w1) o p (Some h) code (set_x_raw (Some q) x)
    (mkResponse (r_ready r) (Some t) (r_status r) (r_hdr r) (r_body r)).
Proof.
  intros [H0 H1 H2 H3 H4 HS H5 H6 H7 H8 H9 H10 H11 H12 H13] Hq ->. split; cbn -[easy_is slist_is]; try done.
  - apply lookup_insert_eq.
  - refine (proj1 (curl_kept w _ p (Some h) (x_slist x) _ H4 HS)). intros k c Hc. cbn. by rewrite !lookup_insert_ne by congruence.
  - refine (proj2 (curl_kept w _ p (Some h) (x_slist x) _ H4 HS)). intros k c Hc. cbn. by rewrite !lookup_insert_ne by congruence.
  - rewrite lookup_insert_ne by congruence. apply lookup_insert_eq.
  - revert H9. unfold dyn_is. destruct (x_hbuf x) as [b|] eqn:Eb; [|done]. intros [H9 ?]. split; [|done]. cbn.
    by rewrite !lookup_insert_ne by congruence.
  - revert H10. unfold dyn_is. destruct (x_bbuf x) as [b|] eqn:Eb; [|done]. intros [H10 ?]. split; [|done]. cbn.
    by rewrite !lookup_insert_ne by congruence.
Qed.

Lemma wp_header_status w x r line (Q : unit → World → Prop) :
  has_response w o p (Some h) code x r → status_raw line ≠ Some None →
  (∀ w' x', has_response w' o p (Some h) code x' (mkResponse (r_ready r) (default None (status_raw line)) (r_status r) [] (r_body r)) →
     Q tt w') →
  wp (header_status no_user line p) Q w.
Proof.
  intros HR Hs HQ. unfold header_status. wp_step. eapply wp_get_x; [exact (hr_mem _ _ _ _ _ _ _ HR)|]. wp_step.
  eapply wp_dbuf_bytes; [exact (hr_hdr _ _ _ _ _ _ _ HR)|]. wp_step.
  apply (wp_mono _ (λ _ w1, ∃ x1, has_response w1 o p (Some h) code x1 (mkResponse (r_ready r) (r_raw r) (r_status r) [] (r_body r)))).
  { destruct (r_hdr r) as [|c hd] eqn:Eh.
    - eapply wp_response_event; [exact HR|cbv; lia|]. intros w' HR' _. exists x. destruct r; simpl in *. by subst.
    - pose proof (hr_hdr _ _ _ _ _ _ _ HR) as Hh. pose proof (hr_mem _ _ _ _ _ _ _ HR) as Hp. unfold dyn_is in Hh. rewrite Eh in Hh.
      destruct (x_hbuf x) as [q|] eqn:Eq; [|done]. destruct Hh as [Hq _]. wp_step. unfold dbuf_free.
      eapply wp_c_free; [done|done|]. eapply wp_upd_x; [lookup_tac|]. eexists. exact (response_drop_hdr _ _ _ _ HR Eq). }
  intros _ w1 (x1 & HR1). wp_step. eapply wp_get_x; [exact (hr_mem _ _ _ _ _ _ _ HR1)|]. wp_step.
  apply (wp_mono _ (λ _ w2, ∃ x2, has_response w2 o p (Some h) code x2 (mkResponse (r_ready r) None (r_status r) [] (r_body r)))).
  { pose proof (hr_raw _ _ _ _ _ _ _ HR1) as Hraw. pose proof (hr_mem _ _ _ _ _ _ _ HR1) as Hp. unfold str_is in Hraw.
    cbn [r_raw] in Hraw. destruct (x_raw x1) as [q|] eqn:Eq.
    - destruct (r_raw r) as [t|]; [|done]. wp_step. eapply wp_c_free; [done|done|]. eapply wp_upd_x; [lookup_tac|].
      eexists. exact (response_drop_raw _ _ _ _ HR1 Eq).
    - destruct (r_raw r) as [t|]; [done|]. wp_steps. by exists x1. }
  intros _ w2 (x2 & HR2). pose proof (hr_mem _ _ _ _ _ _ _ HR2) as Hp2.
  destruct (status_raw line) as [[t|]|]; [|done|wp_steps; by eapply HQ].
  wp_step. unfold js_malloc. wp_step. apply wp_ask_eq. intros z ->.
  rewrite (proj1 (proj2 (hr_env _ _ _ _ _ _ _ HR2 _ _))). cbn [Z.eqb]. wp_step. apply wp_c_alloc. intros q Hq.
  world_simpl_in Hq. wp_step. eapply wp_upd_x; [lookup_tac|]. eapply HQ. exact (response_set_raw _ _ _ _ _ t HR2 Hq eq_refl).
Qed.

(** Status and text, in a new string. *)
Lemma response_status w x r a t :
  has_response w o p (Some h) code x r → w_cell w !! a = None →
  let x' := set_x_ready_state XHR_RSTATE_HEADERS_RECEIVED (set_x_status (JS_NewInt32 code) (set_x_status_text (JS_REF a) x)) in
  let w1 := new_cell a (BString t) w in
  has_response (set_mem (<[p := (ByJe, CXhr x')]> (w_mem w1)) w1) o p (Some h) code x'
    (mkResponse XHR_RSTATE_HEADERS_RECEIVED (r_raw r) (Some (code, t)) (r_hdr r) (r_body r)).
Proof.
  intros [H0 H1 H2 H3 H4 HS H5 H6 H7 H8 H9 H10 H11 H12 H13] Ha x' w1. split; cbn -[easy_is slist_is]; try done.
  - intros x0. specialize (H1 x0). rewrite rc_set_mem. unfold w1. rewrite rc_new_cell. case_decide; lia.
  - apply lookup_insert_eq.
  - refine (proj1 (curl_kept w _ p (Some h) (x_slist x) _ H4 HS)). intros k c Hc. cbn. by rewrite lookup_insert_ne by congruence.
  - refine (proj2 (curl_kept w _ p (Some h) (x_slist x) _ H4 HS)). intros k c Hc. cbn. by rewrite lookup_insert_ne by congruence.
  - revert H7. unfold str_is. destruct (x_raw x), (r_raw r); try done. intros H7. cbn. by rewrite lookup_insert_ne by congruence.
  - split; [done|]. unfold w1. world_simpl. apply lookup_insert_eq.
  - revert H9. unfold dyn_is. destruct (x_hbuf x); [|done]. intros [H9 ?]. split; [|done]. cbn. by rewrite lookup_insert_ne by congruence.
  - revert H10. unfold dyn_is. destruct (x_bbuf x); [|done]. intros [H10 ?]. split; [|done]. cbn. by rewrite lookup_insert_ne by congruence.
  - unfold w1. world_simpl. by rewrite lookup_insert_ne by congruence.
Qed.

Lemma wp_getinfo_num w x r info d (Q : Z → World → Prop) :
  has_response w o p (Some h) code x r →
  (∀ z, z = e_int (w_env w) (Ev info [AP h] :: w_log w) → Q z (log_ev (Ev info [AP h]) w)) →
  wp (curl_easy_getinfo_num (x_curl_h x) info d) Q w.
Proof.
  intros HR HQ. rewrite (hr_curl _ _ _ _ _ _ _ HR). destruct (hr_easy _ _ _ _ _ _ _ HR) as [e [He _]].
  unfold curl_easy_getinfo_num, get_easy. wp_step. wp_step. eapply wp_load; [done|]. wp_steps. by apply wp_ask_eq.
Qed.

Lemma response_log w x r e : has_response w o p (Some h) code x r → has_response (log_ev e w) o p (Some h) code x r.
Proof.
  intros HR. eapply response_calm; [apply quiet_calm, quiet_log_ev| |exact HR].
  intros a. rewrite rc_log_ev. apply (hr_nonneg _ _ _ _ _ _ _ HR).
Qed.

Lemma wp_header_end w x r (Q : unit → World → Prop) :
  has_response w o p (Some h) code x r → (announced code = true → is_Some (r_raw r)) →
  (∀ w' x', has_response w' o p (Some h) code x' (if announced code then
        mkResponse XHR_RSTATE_HEADERS_RECEIVED (r_raw r) ((λ t, (code, t)) <$> r_raw r) (r_hdr r ++ [NUL]) (r_body r)
      else r) → Q tt w') →
  wp (header_end no_user p) Q w.
Proof.
  intros HR Hraw HQ. unfold header_end. wp_step. eapply wp_get_x; [exact (hr_mem _ _ _ _ _ _ _ HR)|]. wp_step.
  eapply wp_getinfo_num; [exact HR|]. intros z ->. rewrite (proj2 (proj2 (hr_env _ _ _ _ _ _ _ HR _ _))).
  apply (response_log _ _ _ (Ev "CURLINFO_RESPONSE_CODE" [AP h])) in HR. set (w1 := log_ev _ w) in *. clearbody w1.
  fold (announced code). destruct (announced code); [|wp_step; by eapply HQ]. destruct (Hraw eq_refl) as [t Ht].
  pose proof (hr_raw _ _ _ _ _ _ _ HR) as Hr. pose proof (hr_mem _ _ _ _ _ _ _ HR) as Hp. unfold str_is in Hr. rewrite Ht in Hr.
  destruct (x_raw x) as [q|]; [|done]. wp_step. unfold str_at. wp_step. wp_step. wp_step. eapply wp_load; [done|]. cbv iota. wp_step.
  wp_step. apply wp_js_new. intros a Ha Ra. wp_step. upd_x. wp_step. upd_x. wp_step. upd_x. wp_step.
  pose proof (response_status _ _ _ _ t HR Ha) as HR2.
  eapply wp_response_event; [| |intros w3 HR3 _].
  { revert HR2. cbn zeta. world_simpl. rewrite !insert_insert_eq. exact id. }
  { cbv; lia. }
  wp_step. eapply wp_get_x; [exact (hr_mem _ _ _ _ _ _ _ HR3)|]. wp_step.
  eapply wp_hdr_put; [exact HR3|done|]. intros q' w4 H4. eapply wp_mono; [exact H4|]. intros [] w5 [x5 HR5]. eapply HQ.
  cbn [r_ready r_raw r_status r_hdr r_body] in HR5. rewrite Ht in HR5 |- *. exact HR5.
Qed.

Lemma header_cb_step w x r line :
  has_response w o p (Some h) code x r → event_ok code r (OnHeader line) →
  steps_to (curlmHeaderCb no_user line p) (length line) (resp_step code r (OnHeader line)) w.
Proof.
  intros HR Hok. unfold steps_to, curlmHeaderCb. cbn [resp_step]. cbn [event_ok] in Hok.
  destruct (has_prefix (lit "HTTP/") line).
  { wp_step. eapply wp_header_status; [exact HR|done|]. intros w' x' HR'. wp_step. split; [done|]. by exists x'. }
  destruct (has_prefix CRLF line).
  { wp_step. eapply wp_header_end; [exact HR|done|]. intros w' x' HR'. wp_step. split; [done|]. by exists x'. }
  destruct (lower_name line) as [l|] eqn:El; [|wp_step; split; [done|]; by exists x].
  wp_step. eapply wp_get_x; [exact (hr_mem _ _ _ _ _ _ _ HR)|]. wp_step.
  eapply wp_hdr_put; [exact HR| |].
  - by eapply lower_name_nonempty.
  - intros q w1 H1. wp_step. eapply wp_mono; [exact H1|]. intros _ w2 [x2 HR2]. wp_step. split; [done|]. by exists x2.
Qed.

Lemma progress_cb_step w x r t n :
  has_response w o p (Some h) code x r → wp (curlmProcessCb no_user t n p) (λ _ w', has_response w' o p (Some h) code x r) w.
Proof.
  intros HR. unfold curlmProcessCb. wp_step. eapply wp_get_x; [exact (hr_mem _ _ _ _ _ _ _ HR)|]. wp_step; [|by wp_step].
  wp_step. eapply wp_getinfo_num; [exact HR|]. intros z _. apply (response_log _ _ _ (Ev "CURLINFO_CONTENT_LENGTH_DOWNLOAD" [AP h])) in HR.
  set (w1 := log_ev _ w) in *. clearbody w1. wp_step. apply wp_js_new. intros a Ha Ra.
  do 3 (wp_step; apply wp_DefinePropertyValueStr; [apply holds_nil|]).
  pose proof (hr_nonneg _ _ _ _ _ _ _ HR) as Hn. pose proof (hr_mem _ _ _ _ _ _ _ HR) as Hp.
  destruct (lookup_lt_is_Some_2 (x_events x) XHR_EVENT_PROGRESS) as [f Hf]; [rewrite (hr_events _ _ _ _ _ _ _ HR); cbv; lia|].
  eapply wp_xhr_emit; [|world_simpl; exact Hp|exact Hf| |].
  - intros b. world_simpl. specialize (Hn b). case_decide; lia.
  - apply holds_one. world_simpl. rewrite decide_True by done. specialize (Hn a). lia.
  - intros w2 Hc Hn2. eapply response_calm; [|exact Hn2|exact HR]. etrans; [|exact Hc]. split; world_simpl; try done.
    + intros b. world_simpl. case_decide; lia.
    + intros b c Hb _. world_simpl. by rewrite !lookup_alter_ne, lookup_insert_ne by congruence.
Qed.

(** Every callback takes all its bytes and steps the response. *)
Lemma transfer_steps es w x r :
  has_response w o p (Some h) code x r → events_ok code r es →
  wp (transfer no_user p es) (λ ok w', ok = true ∧ ∃ x', has_response w' o p (Some h) code x' (foldl (resp_step code) r es)) w.
Proof.
  revert w x r; induction es as [|e es IH]; intros w x r HR Hok; cbn [transfer foldl].
  { wp_step. split; [done|]. by exists x. }
  destruct Hok as [He Hok]. destruct e as [line|data|t n].
  - wp_step. eapply wp_mono; [by eapply header_cb_step|]. intros n w1 [-> [x1 HR1]]. rewrite Z.eqb_refl. by eapply IH.
  - wp_step. eapply wp_mono; [by eapply data_cb_step|]. intros n w1 [-> [x1 HR1]]. rewrite Z.eqb_refl. by eapply IH.
  - wp_step. eapply wp_mono; [by eapply progress_cb_step|]. intros ? w1 HR1. cbv beta in HR1. by eapply IH.
Qed.

(** ** The end of a transfer *)

Lemma response_url w x r a u :
  has_response w o p (Some h) code x r → w_cell w !! a = None →
  let w1 := new_cell a (BString u) w in
  has_response (set_mem (<[p := (ByJe, CXhr (set_x_url (JS_REF a) x))]> (w_mem w1)) w1) o p (Some h) code
    (set_x_url (JS_REF a) x) r.
Proof.
  intros [H0 H1 H2 H3 H4 HS H5 H6 H7 H8 H9 H10 H11 H12 H13] Ha w1.
  split; cbn -[easy_is slist_is str_is dyn_is status_is]; try done; try solve [framed].
  - intros b. specialize (H1 b). rewrite rc_set_mem. unfold w1. rewrite rc_new_cell. case_decide; lia.
  - unfold status_is in *. destruct (r_status r) as [[c t]|]; [|done]. destruct H8 as [? H8]. split; [done|].
    revert H8. cbn. destruct (x_status_text x) as [| | | | |b]; try done. unfold w1. cbn. world_simpl. intros Hb.
    by rewrite lookup_insert_ne by congruence.
Qed.

Lemma response_no_slist w x r l :
  has_response w o p (Some h) code x r → x_slist x = Some l →
  has_response (set_mem (<[p := (ByJe, CXhr (set_x_slist None x))]> (delete l (w_mem w))) w) o p (Some h) code
    (set_x_slist None x) r.
Proof.
  intros [H0 H1 H2 H3 H4 HS H5 H6 H7 H8 H9 H10 H11 H12 H13] Hl. rewrite Hl in HS. destruct HS as [ls HS].
  split; cbn -[easy_is slist_is str_is dyn_is status_is]; try done; try solve [framed].
  destruct H4 as (e & H4 & ?). exists e. split; [lookup_tac|done].
Qed.

Lemma wp_curlDoneCb w x r result (Q : unit → World → Prop) :
  has_response w o p (Some h) code x r →
  (∀ w' x', has_response w' o p (Some h) code x'
     (mkResponse XHR_RSTATE_DONE (r_raw r) (r_status r) (r_hdr r) (r_body r)) → Q tt w') →
  wp (curlDoneCb no_user result p) Q w.
Proof.
  intros HR HQ. unfold curlDoneCb. wp_step. eapply wp_get_x; [exact (hr_mem _ _ _ _ _ _ _ HR)|]. wp_step.
  rewrite (hr_curl _ _ _ _ _ _ _ HR). destruct (hr_easy _ _ _ _ _ _ _ HR) as (e & He & _).
  unfold curl_easy_getinfo_str, get_easy. wp_step. wp_step. eapply wp_load; [done|]. cbv iota. wp_step. wp_step. wp_step.
  apply (response_log _ _ _ (Ev "CURLINFO_EFFECTIVE_URL" [AP h])) in HR. set (w1 := log_ev _ w) in *. clearbody w1.
  apply (wp_mono _ (λ _ w2, ∃ x2, has_response w2 o p (Some h) code x2 r)).
  { match goal with |- wp (match ?v with _ => _ end) _ _ => destruct v as [u|] end; [|wp_step; by exists x].
    pose proof (hr_mem _ _ _ _ _ _ _ HR) as Hp. wp_step. apply wp_js_new. intros a Ha Ra. upd_x. eexists.
    exact (response_url _ _ _ _ u HR Ha). }
  intros _ w2 (x2 & HR2). wp_step. eapply wp_get_x; [exact (hr_mem _ _ _ _ _ _ _ HR2)|]. wp_step.
  apply (wp_mono _ (λ _ w3, ∃ x3, has_response w3 o p (Some h) code x3 r)).
  { destruct (x_slist x2) as [l|] eqn:El; [|wp_step; by exists x2]. pose proof (hr_slist _ _ _ _ _ _ _ HR2) as Hs.
    pose proof (hr_mem _ _ _ _ _ _ _ HR2) as Hp. rewrite El in Hs. destruct Hs as [ls Hs]. wp_step.
    eapply wp_c_free; [done|done|]. upd_x. eexists. exact (response_no_slist _ _ _ _ HR2 El). }
  intros _ w3 (x3 & HR3). wp_step. eapply wp_upd_x; [exact (hr_mem _ _ _ _ _ _ _ HR3)|].
  apply (response_ready _ _ _ XHR_RSTATE_DONE) in HR3. set (w4 := set_mem _ _) in *. clearbody w4.
  wp_step. eapply wp_response_event; [exact HR3|cbv; lia|]. intros w5 HR5 _. wp_step.
  apply (wp_mono _ (λ _ w6, has_response w6 o p (Some h) code (set_x_ready_state XHR_RSTATE_DONE x3)
     (mkResponse XHR_RSTATE_DONE (r_raw r) (r_status r) (r_hdr r) (r_body r)))).
  { wp_step; [|by wp_step]. eapply wp_response_event; [exact HR5|cbv; lia|]. by intros. }
  intros ? w6 HR6. cbv beta in HR6. wp_step. eapply wp_response_event; [exact HR6|cbv; lia|]. intros w7 HR7 _.
  repeat wp_step; try (by eapply HQ); (eapply wp_response_event; [exact HR7|cbv; lia|]); intros; by eapply HQ.
Qed.

Lemma response_closed w x r :
  has_response w o p (Some h) code x r →
  has_response (set_mem (delete h (<[p := (ByJe, CXhr (set_x_curl_h None x))]> (w_mem w))) w) o p None code
    (set_x_curl_h None x) r.
Proof.
  intros [H0 H1 H2 H3 H4 HS H5 H6 H7 H8 H9 H10 H11 H12 H13]. destruct H4 as (e & H4 & _).
  split; cbn -[easy_is slist_is str_is dyn_is status_is]; try done; try solve [framed].
  destruct (x_slist x) as [l|]; [|done]. destruct HS as [ls HS]. exists ls. lookup_tac.
Qed.

(** When curl reports the end, the request is done and its handle is gone; the response stays. *)
Lemma wp_check_multi_info w x r result (Q : unit → World → Prop) :
  has_response w o p (Some h) code x r →
  (∀ w' x', has_response w' o p None code x' (mkResponse XHR_RSTATE_DONE (r_raw r) (r_status r) (r_hdr r) (r_body r)) →
     w_mem w' !! h = None → Q tt w') →
  wp (ijCheckMultiInfo no_user [(h, result)]) Q w.
Proof.
  intros HR HQ. cbn [ijCheckMultiInfo]. destruct (hr_easy _ _ _ _ _ _ _ HR) as (e & He & Hpriv).
  wp_step. unfold get_easy. wp_step. eapply wp_load; [done|]. cbv iota. wp_step. rewrite Hpriv. do 3 wp_step.
  unfold curlmDoneCb. wp_step. eapply wp_get_x; [exact (hr_mem _ _ _ _ _ _ _ HR)|]. wp_step.
  rewrite (hr_curl _ _ _ _ _ _ _ HR). rewrite bool_decide_eq_true_2 by done. wp_step. wp_step.
  eapply wp_curlDoneCb; [exact HR|]. intros w1 x1 HR1. eapply wp_upd_x; [exact (hr_mem _ _ _ _ _ _ _ HR1)|].
  destruct (hr_easy _ _ _ _ _ _ _ HR1) as (e1 & He1 & _). pose proof (hr_mem _ _ _ _ _ _ _ HR1) as Hp1.
  unfold curl_multi_remove_handle, get_easy. wp_step. wp_step. wp_step. eapply wp_load; [lookup_tac|]. cbv iota. wp_step.
  eapply wp_store; [lookup_tac|]. wp_step. eapply wp_c_free; [lookup_tac|done|]. wp_step.
  pose proof (response_closed _ _ _ HR1) as HR2. eapply HQ.
  - revert HR2. world_simpl. by rewrite delete_insert_eq.
  - world_simpl. apply lookup_delete_eq.
Qed.
End Steps.

(** ** A whole response *)

(** The events of a response: the status line, the headers, the empty line and the data. *)
Definition status_line (version : string) (reason : bytes) : bytes :=
  lit "HTTP/" ++ lit version ++ (SPACE :: reason ++ CRLF).

Definition response_events (version : string) (reason : bytes) (hs : list (bytes * bytes)) (chunks : list bytes) :
    list curl_event :=
  OnHeader (status_line version reason) ::
    ((λ hd, OnHeader (header_line hd ++ CRLF)) <$> hs) ++ (OnHeader CRLF :: (OnData <$> chunks)).

Definition lower_header (hd : bytes * bytes) : bytes * bytes := (tolower <$> hd.1, hd.2).

(** A header name is a token: not empty, without colon and end of line, and no status line. *)
Definition good_name (n : bytes) : Prop :=
  n ≠ [] ∧ (COLON ∉ n) ∧ (CR ∉ n) ∧ has_prefix (lit "HTTP/") n = false.

Lemma c_string_app s t : NUL ∉ s → c_string (s ++ NUL :: t) = Some s.
Proof.
  induction s as [|c s IH]; intros H; simpl; [done|].
  rewrite (proj2 (Ascii.eqb_neq c NUL)) by set_solver. by rewrite IH by set_solver.
Qed.

Lemma strchr_none_app c s t : c ∉ s → strchr c (s ++ t) = strchr c t.
Proof.
  induction s as [|d s IH]; intros H; cbn [strchr app]; [done|].
  rewrite (proj2 (Ascii.eqb_neq c d)) by set_solver. apply IH. set_solver.
Qed.

Lemma status_raw_line version reason :
  SPACE ∉ lit version → NUL ∉ reason → status_raw (status_line version reason) = Some (Some reason).
Proof.
  intros Hv Hr. unfold status_raw, status_line. rewrite app_assoc.
  set (v := lit "HTTP/" ++ lit version). assert (Hv' : SPACE ∉ v).
  { subst v. rewrite not_elem_of_app. split; [|done]. cbv. intros H. repeat (apply elem_of_cons in H as [H|H]; [done|]). by apply not_elem_of_nil in H. }
  rewrite strchr_app by done. rewrite length_app. cbn [length]. rewrite length_app. cbn [length CRLF].
  rewrite (proj2 (Nat.leb_le _ _)) by lia. do 2 f_equal.
  replace (v ++ SPACE :: reason ++ CRLF) with ((v ++ SPACE :: reason) ++ CRLF) by by rewrite <- app_assoc.
  replace (length v + S (length reason + 2) - 2)%nat with (length (v ++ SPACE :: reason)) by (rewrite length_app; simpl; lia).
  rewrite take_app_length.
  replace (S (length v + S (length reason + 2) - S (length reason + 2)))%nat with (length (v ++ [SPACE]))
    by (rewrite length_app; simpl; lia).
  replace (v ++ SPACE :: reason) with ((v ++ [SPACE]) ++ reason) by by rewrite <- app_assoc.
  rewrite drop_app_length. by rewrite c_string_app.
Qed.

Lemma header_step code r hd :
  good_name hd.1 →
  resp_step code r (OnHeader (header_line hd ++ CRLF)) =
    mkResponse (r_ready r) (r_raw r) (r_status r) (r_hdr r ++ header_line (lower_header hd) ++ CRLF) (r_body r) ∧
  event_ok code r (OnHeader (header_line hd ++ CRLF)).
Proof.
  destruct hd as [n v]. intros (Hn & Hc & Hcr & Hh). cbn [fst snd] in *.
  assert (El : header_line (n, v) ++ CRLF = n ++ COLON :: SPACE :: v ++ CRLF).
  { unfold header_line. cbn [fst snd]. by rewrite <- app_assoc. }
  assert (E1 : has_prefix (lit "HTTP/") (header_line (n, v) ++ CRLF) = false).
  { rewrite El. apply not_true_iff_false. intros E. apply has_prefix_border in E; [congruence|].
    intros H. repeat (apply elem_of_cons in H as [H|H]; [done|]). by apply not_elem_of_nil in H. }
  assert (E2 : has_prefix CRLF (header_line (n, v) ++ CRLF) = false).
  { rewrite El. destruct n as [|c n]; [done|]. cbn [has_prefix CRLF app].
    rewrite (proj2 (Ascii.eqb_neq CR c)) by set_solver. done. }
  unfold resp_step, event_ok. rewrite E1, E2. split; [|done].
  rewrite El, lower_name_line by done. unfold lower_header, header_line. cbn [fst snd].
  by rewrite <- !app_assoc.
Qed.

Lemma headers_fold code hs r :
  Forall (λ hd, good_name hd.1) hs →
  let es := (λ hd, OnHeader (header_line hd ++ CRLF)) <$> hs in
  foldl (resp_step code) r es =
    mkResponse (r_ready r) (r_raw r) (r_status r) (r_hdr r ++ block (header_line <$> (lower_header <$> hs))) (r_body r) ∧
  events_ok code r es.
Proof.
  revert r; induction hs as [|hd hs IH]; intros r Hg; cbn zeta.
  { simpl. rewrite app_nil_r. split; [by destruct r|done]. }
  inv Hg as [|? ? H1 H2]. destruct (header_step code r hd H1) as [Hs Ho]. specialize (IH (resp_step code r (OnHeader (header_line hd ++ CRLF))) H2).
  cbn zeta in IH. destruct IH as [IH1 IH2]. cbn [fmap list_fmap foldl events_ok]. split; [|done].
  rewrite IH1, Hs. cbn [r_ready r_raw r_status r_hdr r_body]. f_equal. unfold block at 2. cbn [mbind list_bind fmap list_fmap].
  by rewrite <- !app_assoc.
Qed.

Lemma data_fold code chunks r :
  let es := OnData <$> chunks in
  foldl (resp_step code) r es =
    mkResponse (if r_ready r =? XHR_RSTATE_HEADERS_RECEIVED then match chunks with [] => r_ready r | _ => XHR_RSTATE_LOADING end
                else r_ready r) (r_raw r) (r_status r) (r_hdr r) (r_body r ++ mjoin chunks) ∧
  events_ok code r es.
Proof.
  revert r; induction chunks as [|c chunks IH]; intros r; cbn zeta.
  { simpl. rewrite app_nil_r. split; [destruct r; simpl; by case_match|done]. }
  specialize (IH (resp_step code r (OnData c))). cbn zeta in IH. destruct IH as [IH1 IH2].
  cbn [fmap list_fmap foldl events_ok]. split; [|split; [done|exact IH2]]. rewrite IH1. cbn [resp_step r_ready r_raw r_status r_hdr r_body].
  rewrite <- app_assoc. change (mjoin (c :: chunks)) with (c ++ mjoin chunks). f_equal.
  destruct (r_ready r =? XHR_RSTATE_HEADERS_RECEIVED) eqn:E; [done|]. by rewrite E.
Qed.

Lemma foldl_events_app code es1 es2 r :
  events_ok code r es1 → events_ok code (foldl (resp_step code) r es1) es2 → events_ok code r (es1 ++ es2).
Proof. revert r; induction es1 as [|e es1 IH]; intros r; cbn; [done|]. intros [? ?] ?. split; [done|]. by apply IH. Qed.

(** What a response leaves: status and reason, the headers with names in lower case, the body. *)
Lemma response_fold code version reason hs chunks r :
  announced code = true → SPACE ∉ lit version → NUL ∉ reason → Forall (λ hd, good_name hd.1) hs →
  let es := response_events version reason hs chunks in
  foldl (resp_step code) r es =
    mkResponse (match chunks with [] => XHR_RSTATE_HEADERS_RECEIVED | _ => XHR_RSTATE_LOADING end)
      (Some reason) (Some (code, reason)) (block (header_line <$> (lower_header <$> hs)) ++ [NUL]) (r_body r ++ mjoin chunks) ∧
  events_ok code r es.
Proof.
  intros Hc Hv Hr Hg es. subst es. unfold response_events.
  set (r1 := resp_step code r (OnHeader (status_line version reason))).
  assert (E1 : r1 = mkResponse (r_ready r) (Some reason) (r_status r) [] (r_body r)).
  { subst r1. cbn [resp_step]. change (has_prefix (lit "HTTP/") (status_line version reason)) with true. cbv iota.
    by rewrite status_raw_line by done. }
  assert (O1 : event_ok code r (OnHeader (status_line version reason))).
  { cbn [event_ok]. change (has_prefix (lit "HTTP/") (status_line version reason)) with true. cbv iota.
    by rewrite status_raw_line by done. }
  destruct (headers_fold code hs r1 Hg) as [F2 O2]. cbn zeta in F2, O2.
  set (r2 := foldl (resp_step code) r1 _) in *. rewrite E1 in F2. cbn [r_ready r_raw r_status r_hdr r_body app] in F2.
  set (r3 := resp_step code r2 (OnHeader CRLF)).
  assert (E3 : r3 = mkResponse XHR_RSTATE_HEADERS_RECEIVED (Some reason) (Some (code, reason))
      (block (header_line <$> (lower_header <$> hs)) ++ [NUL]) (r_body r)).
  { subst r3. rewrite F2. cbn. by rewrite Hc. }
  destruct (data_fold code chunks r3) as [F4 O4]. cbn zeta in F4, O4. split.
  - cbn [foldl]. fold r1. rewrite foldl_app. fold r2. cbn [foldl]. fold r3. rewrite F4, E3. done.
  - cbn [events_ok]. split; [done|]. fold r1. apply foldl_events_app; [done|]. fold r2. cbn [events_ok]. fold r3.
    split; [|done]. rewrite F2. cbn. intros _. by eexists.
Qed.

(** ** Reading the response *)

Section Getters.
Context (o p : addr) (h : option addr) (code : Z) (w : World) (x : IJJSXhr) (r : response).
Context (HR : has_response w o p h code x r).

Lemma wp_response_field f (Q : JSValue → World → Prop) :
  Q (f x) (take_ref (f x) w) → wp (xhr_field f (JS_REF o)) Q w.
Proof using HR.
  intros HQ. unfold xhr_field. wp_step. apply wp_GetOpaque2_class with p; [exact (hr_obj _ _ _ _ _ _ _ HR)|].
  wp_step. eapply wp_get_x; [exact (hr_mem _ _ _ _ _ _ _ HR)|]. by wp_step.
Qed.

Lemma status_get :
  wp (ijXhrStatusGet (JS_REF o))
     (λ v _, v = match r_status r with Some (c, _) => JS_NewInt32 c | None => JS_UNDEFINED end) w.
Proof using HR.
  apply wp_response_field. pose proof (hr_status _ _ _ _ _ _ _ HR) as Hs. unfold status_is in Hs.
  destruct (r_status r) as [[c t]|]; by destruct Hs.
Qed.

Lemma status_text_get :
  wp (ijXhrStatustextGet (JS_REF o))
     (λ v w', match r_status r with Some (_, t) => body_of v w' = Some (BString t) | None => v = JS_UNDEFINED end) w.
Proof using HR.
  apply wp_response_field. pose proof (hr_status _ _ _ _ _ _ _ HR) as Hs. unfold status_is in Hs.
  destruct (r_status r) as [[c t]|]; [|by destruct Hs]. destruct Hs as [_ Hs]. by destruct (x_status_text x).
Qed.

Lemma response_text_get :
  wp (ijXhrResponsetextGet (JS_REF o))
     (λ v w', match r_body r with [] => v = JS_NULL | b => body_of v w' = Some (BString b) end) w.
Proof using HR.
  pose proof (hr_mem _ _ _ _ _ _ _ HR) as Hp.
  unfold ijXhrResponsetextGet. wp_step. apply wp_GetOpaque2_class with p; [exact (hr_obj _ _ _ _ _ _ _ HR)|].
  wp_step. eapply wp_get_x; [done|]. wp_step. eapply wp_dbuf_bytes; [exact (hr_body _ _ _ _ _ _ _ HR)|].
  destruct (r_body r) as [|c b]; [by wp_step|]. wp_step. rewrite (proj2 (proj2 (hr_cached _ _ _ _ _ _ _ HR))). cbn [JS_IsNull].
  wp_step. apply wp_js_new. intros a Ha Ra. upd_x. wp_step. get_x. wp_step.
  cbn [x_response_text set_x_response_text x_headers set_x_headers body_of]. world_simpl. apply lookup_insert_eq.
Qed.

Lemma all_headers_get :
  wp (ijXhrGetAllResponseHeaders (JS_REF o) [])
     (λ v w', match r_hdr r with [] => v = JS_NULL | b => body_of v w' = Some (BString (take (length b - 1) b)) end) w.
Proof using HR.
  pose proof (hr_mem _ _ _ _ _ _ _ HR) as Hp.
  unfold ijXhrGetAllResponseHeaders. wp_step. apply wp_GetOpaque2_class with p; [exact (hr_obj _ _ _ _ _ _ _ HR)|].
  wp_step. eapply wp_get_x; [done|]. wp_step. eapply wp_dbuf_bytes; [exact (hr_hdr _ _ _ _ _ _ _ HR)|].
  destruct (r_hdr r) as [|c b]; [by wp_step|]. wp_step. rewrite (proj1 (hr_cached _ _ _ _ _ _ _ HR)). cbn [JS_IsNull].
  wp_step. apply wp_js_new. intros a Ha Ra. upd_x. wp_step. get_x. wp_step.
  cbn [x_response_text set_x_response_text x_headers set_x_headers body_of]. world_simpl. apply lookup_insert_eq.
Qed.

(** A header is looked up in the text of the buffer. *)
Lemma header_get a n text t :
  body_of a w = Some (BString n) → r_hdr r ≠ [] → c_string (r_hdr r) = Some text →
  header_loop (S (length text)) text (tolower <$> n) [] = Some t →
  wp (ijXhrGetResponseHeader (JS_REF o) [a])
     (λ v w', match header_result t with None => v = JS_NULL | Some s => body_of v w' = Some (BString s) end) w.
Proof using HR.
  intros Ha Hne Htext Hloop. pose proof (hr_mem _ _ _ _ _ _ _ HR) as Hp.
  unfold ijXhrGetResponseHeader. wp_step. apply wp_GetOpaque2_class with p; [exact (hr_obj _ _ _ _ _ _ _ HR)|].
  wp_step. eapply wp_get_x; [done|]. wp_step. eapply wp_dbuf_bytes; [exact (hr_hdr _ _ _ _ _ _ _ HR)|].
  destruct (r_hdr r) as [|c b]; [done|]. wp_step. eapply wp_arg_at; [done|]. wp_step. eapply wp_ToCString_str; [done|].
  intros q Hq. cbv beta iota. rewrite Htext, Hloop. wp_step. eapply wp_c_free; [lookup_tac|done|].
  destruct (header_result t); [|by wp_step]. eapply wp_giving; [apply giving_NewString|]. by intros v w' _ ?.
Qed.

(** Without a final NUL the search reads beyond the buffer. *)
Lemma header_get_unterminated a n :
  body_of a w = Some (BString n) → r_hdr r ≠ [] → c_string (r_hdr r) = None →
  ijXhrGetResponseHeader (JS_REF o) [a] w = Fault OutOfBounds.
Proof using HR.
  intros Ha Hne Htext. pose proof (hr_mem _ _ _ _ _ _ _ HR) as Hp.
  unfold ijXhrGetResponseHeader. apply fault_bind. apply wp_GetOpaque2_class with p; [exact (hr_obj _ _ _ _ _ _ _ HR)|].
  apply fault_bind. eapply wp_get_x; [done|]. apply fault_bind. eapply wp_dbuf_bytes; [exact (hr_hdr _ _ _ _ _ _ _ HR)|].
  destruct (r_hdr r) as [|c b]; [done|]. apply fault_bind. eapply wp_arg_at; [done|]. apply fault_bind. eapply wp_ToCString_str; [done|].
  intros q Hq. cbv beta iota. by rewrite Htext.
Qed.

(** An empty name never ends the search. *)
Lemma header_get_empty a text :
  body_of a w = Some (BString []) → r_hdr r ≠ [] → c_string (r_hdr r) = Some text → CR ∈ text →
  ijXhrGetResponseHeader (JS_REF o) [a] w = Fault Diverges.
Proof using HR.
  intros Ha Hne Htext Hcr. pose proof (hr_mem _ _ _ _ _ _ _ HR) as Hp.
  unfold ijXhrGetResponseHeader. apply fault_bind. apply wp_GetOpaque2_class with p; [exact (hr_obj _ _ _ _ _ _ _ HR)|].
  apply fault_bind. eapply wp_get_x; [done|]. apply fault_bind. eapply wp_dbuf_bytes; [exact (hr_hdr _ _ _ _ _ _ _ HR)|].
  destruct (r_hdr r) as [|c b]; [done|]. apply fault_bind. eapply wp_arg_at; [done|]. apply fault_bind. eapply wp_ToCString_str; [done|].
  intros q Hq. cbv beta iota. rewrite Htext. by rewrite header_loop_empty.
Qed.
End Getters.

(** ** From the first byte to the last *)

Lemma tolower_low c d : tolower c = d → (nat_of_ascii d < 65)%nat → c = d.
Proof.
  unfold tolower. destruct (_ && _) eqn:E; [|done]. apply andb_prop in E as [E1%Nat.leb_le E2%Nat.leb_le].
  intros <-. rewrite nat_ascii_embedding by lia. lia.
Qed.

Lemma lower_elem d (n : bytes) : (nat_of_ascii d < 65)%nat → d ∉ n → d ∉ (tolower <$> n).
Proof. intros Hd Hn (c & Hc & Hin)%list_elem_of_fmap. symmetry in Hc. apply tolower_low in Hc as ->; done. Qed.

Lemma lower_line d hd : (nat_of_ascii d < 65)%nat → d ∉ header_line hd → d ∉ header_line (lower_header hd).
Proof.
  intros Hd H. unfold header_line, lower_header in *. cbn [fst snd]. rewrite not_elem_of_app in *.
  destruct H as [H1 H2]. split; [by apply lower_elem|done].
Qed.

Lemma block_elem d (lines : list bytes) : d ∉ CRLF → Forall (λ l, d ∉ l) lines → d ∉ block lines.
Proof.
  intros Hd Hl. unfold block. induction Hl as [|l lines H ? IH]; [apply not_elem_of_nil|].
  cbn [mbind list_bind]. rewrite !not_elem_of_app. done.
Qed.

Lemma block_length lines : (length lines ≤ length (block lines))%nat.
Proof. unfold block. induction lines as [|l lines IH]; [done|]. cbn [mbind list_bind]. rewrite !length_app. simpl. lia. Qed.

(** Headers as HTTP has them. *)
Definition good_header (hd : bytes * bytes) : Prop :=
  good_name hd.1 ∧ (CR ∉ header_line hd) ∧ (NUL ∉ header_line hd) ∧ plain_value hd.2.

(** A name that can be looked up: it occurs in no other line. *)
Definition searchable (n : bytes) (hs : list (bytes * bytes)) : Prop :=
  n ≠ [] ∧ (COLON ∉ n) ∧ (CR ∉ n) ∧ (LF ∉ n) ∧ only_own n hs.

Lemma header_text_found hs n :
  Forall good_header hs → searchable n (lower_header <$> hs) →
  let text := block (header_line <$> (lower_header <$> hs)) in
  c_string (text ++ [NUL]) = Some text ∧
  ∃ t, header_loop (S (length text)) text n [] = Some t ∧
    header_result t = match values_of n (lower_header <$> hs) with [] => None | vs => Some (comma_join vs) end.
Proof.
  intros Hg (S1 & S2 & S3 & S4 & S5) text.
  assert (Hlow : ∀ d, (nat_of_ascii d < 65)%nat → Forall (λ hd, d ∉ header_line hd) hs →
                      Forall (λ l, d ∉ l) (header_line <$> (lower_header <$> hs))).
  { intros d Hd Hf. rewrite !Forall_fmap. eapply Forall_impl; [exact Hf|]. intros hd H. by apply lower_line. }
  split.
  - apply c_string_app, block_elem.
    + intros H. repeat (apply elem_of_cons in H as [H|H]; [done|]). by apply not_elem_of_nil in H.
    + apply Hlow; [cbv; lia|]. eapply Forall_impl; [exact Hg|]. by intros ? (_ & _ & ? & _).
  - assert (Hok : Forall (λ h, plain_value h.2 ∧ CR ∉ header_line h) (lower_header <$> hs)).
    { rewrite Forall_fmap. eapply Forall_impl; [exact Hg|]. intros hd (_ & Hcr & _ & Hp). cbn. split; [done|].
      apply lower_line; [cbv; lia|done]. }
    assert (Hlen : (length (lower_header <$> hs) < S (length text))%nat).
    { pose proof (block_length (header_line <$> (lower_header <$> hs))) as Hb. fold text in Hb. rewrite length_fmap in Hb. lia. }
    pose proof (header_search n (lower_header <$> hs) (S (length text)) S1 S2 S3 S4 S5 Hok Hlen) as Hs. fold text in Hs.
    destruct (header_loop (S (length text)) text n []) as [t|]; [|done]. exists t. split; [done|]. by injection Hs.
Qed.

(** What the methods of a request answer once the response has come in. *)
Record answers (o : addr) (code : Z) (reason : bytes) (hs : list (bytes * bytes)) (body : bytes) (w : World) : Prop := {
  an_ready : wp (ijXhrReadystateGet (JS_REF o)) (λ v _, v = JS_INT XHR_RSTATE_DONE) w;
  an_status : wp (ijXhrStatusGet (JS_REF o)) (λ v _, v = JS_NewInt32 code) w;
  an_text : wp (ijXhrStatustextGet (JS_REF o)) (λ v w', body_of v w' = Some (BString reason)) w;
  an_body : wp (ijXhrResponsetextGet (JS_REF o))
    (λ v w', match body with [] => v = JS_NULL | b => body_of v w' = Some (BString b) end) w;
  an_header : ∀ a n, body_of a w = Some (BString n) → searchable (tolower <$> n) (lower_header <$> hs) →
    wp (ijXhrGetResponseHeader (JS_REF o) [a]) (λ v w',
      match values_of (tolower <$> n) (lower_header <$> hs) with
      | [] => v = JS_NULL
      | vs => body_of v w' = Some (BString (comma_join vs))
      end) w
}.

Lemma response_answers w o p h code x reason hs body :
  has_response w o p h code x (mkResponse XHR_RSTATE_DONE (Some reason) (Some (code, reason))
    (block (header_line <$> (lower_header <$> hs)) ++ [NUL]) body) →
  Forall good_header hs → answers o code reason hs body w.
Proof.
  intros HR Hg. split.
  - eapply wp_response_field; [exact HR|]. rewrite (hr_ready _ _ _ _ _ _ _ HR). done.
  - exact (status_get _ _ _ _ _ _ _ HR).
  - exact (status_text_get _ _ _ _ _ _ _ HR).
  - pose proof (response_text_get _ _ _ _ _ _ _ HR) as H. cbn [r_body] in H. by destruct body.
  - intros a n Ha Hs. destruct (header_text_found hs (tolower <$> n) Hg Hs) as [Hc (t & Hl & Ht)].
    eapply wp_mono; [eapply (header_get _ _ _ _ _ _ _ HR a n); [done| |exact Hc|exact Hl]|].
    + cbn. by destruct (block _).
    + intros v w'. cbv beta. rewrite Ht. by destruct (values_of _ _).
Qed.

(** From the status line to the end of the transfer. *)
Lemma xhr_response w o p h code x version reason hs chunks result :
  has_response w o p (Some h) code x (mkResponse XHR_RSTATE_OPENED None None [] []) →
  announced code = true → SPACE ∉ lit version → NUL ∉ reason → Forall good_header hs →
  wp (_ ← transfer no_user p (response_events version reason hs chunks) ; ijCheckMultiInfo no_user [(h, result)])
     (λ _ w', w_mem w' !! h = None ∧ answers o code reason hs (mjoin chunks) w') w.
Proof.
  intros HR Hc Hv Hr Hg.
  destruct (response_fold code version reason hs chunks (mkResponse XHR_RSTATE_OPENED None None [] []) Hc Hv Hr) as [Hf Ho].
  { eapply Forall_impl; [exact Hg|]. by intros ? (? & _). }
  wp_step. eapply wp_mono; [by eapply transfer_steps|]. intros ok w1 (_ & x1 & HR1). rewrite Hf in HR1.
  eapply wp_check_multi_info; [exact HR1|]. intros w2 x2 HR2 Hgone. split; [done|]. by eapply response_answers.
Qed.

(** ** open and send *)

Section Methods.
Context (o p h : addr) (code : Z).

Lemma wp_response_setopt w x (option : string) args (Q : unit → World → Prop) :
  easy_is w p (Some h) → x_curl_h x = Some h → Q tt (log_ev (Ev option (AP h :: args)) w) →
  wp (curl_easy_setopt (x_curl_h x) option args) Q w.
Proof.
  intros (e & He & _) Hx HQ. rewrite Hx. unfold curl_easy_setopt, get_easy. wp_step. wp_step. eapply wp_load; [done|].
  cbv iota. by wp_steps.
Qed.

(** open on a new request sends nothing yet; it is OPENED. *)
Lemma wp_open w x r m u a1 a2 argv (Q : JSValue → World → Prop) :
  has_response w o p (Some h) code x r → r_ready r = XHR_RSTATE_UNSENT →
  body_of a1 w = Some (BString m) → body_of a2 w = Some (BString u) →
  (∀ w', has_response w' o p (Some h) code (set_x_ready_state XHR_RSTATE_OPENED x)
     (mkResponse XHR_RSTATE_OPENED (r_raw r) (r_status r) (r_hdr r) (r_body r)) → Q JS_UNDEFINED w') →
  wp (ijXhrOpen no_user (JS_REF o) 2 (a1 :: a2 :: JS_UNDEFINED :: argv)) Q w.
Proof.
  intros HR Hready Hm Hu HQ. pose proof (hr_mem _ _ _ _ _ _ _ HR) as Hp. pose proof (hr_ready _ _ _ _ _ _ _ HR) as Hx.
  rewrite Hready in Hx. unfold ijXhrOpen. wp_step. apply wp_GetOpaque2_class with p; [exact (hr_obj _ _ _ _ _ _ _ HR)|].
  wp_step. eapply wp_get_x; [done|]. rewrite Hx. cbn [Z.eqb XHR_RSTATE_UNSENT XHR_RSTATE_DONE]. do 3 wp_step.
  eapply wp_get_x; [done|]. rewrite Hx. cbn [Z.ltb Z.compare XHR_RSTATE_UNSENT XHR_RSTATE_OPENED]. wp_step.
  do 3 (wp_step; eapply wp_arg_at; [done|]). wp_step. eapply wp_ToCString_str; [done|]. intros q1 Hq1. wp_step.
  eapply wp_ToCString_str; [by destruct a2|]. intros q2 Hq2. world_simpl_in Hq2. apply lookup_insert_None in Hq2 as [Hq2 Hq12].
  cbn [Nat.eqb]. do 3 wp_step. eapply wp_get_x; [lookup_tac|]. cbv iota. wp_step.
  destruct (hr_easy _ _ _ _ _ _ _ HR) as (e & He & Hpriv).
  set (w1 := new_block q2 ByCString (CStr u) _).
  assert (He1 : ∀ ev, easy_is (log_ev ev w1) p (Some h)).
  { intros ev. exists e. split; [|done]. subst w1. lookup_tac. }
  assert (Hx1 := hr_curl _ _ _ _ _ _ _ HR).
  assert (Hrest : ∀ ev, wp (curl_easy_setopt (x_curl_h x) "CURLOPT_URL" [AB u] ;; JS_FreeCString_opt (Some (q1, m)) ;;
      JS_FreeCString_opt (Some (q2, u)) ;; upd_x p (set_x_ready_state XHR_RSTATE_OPENED) ;;
      ijMaybeEmitEvent no_user p XHR_EVENT_READY_STATE_CHANGED JS_UNDEFINED) (λ _, wp (mret JS_UNDEFINED) Q) (log_ev ev w1)).
  { intros ev. wp_step. eapply wp_response_setopt; [apply He1|done|]. wp_step. unfold JS_FreeCString_opt.
    eapply wp_c_free; [subst w1; lookup_tac|done|]. wp_step. eapply wp_c_free; [subst w1; lookup_tac|done|].
    set (w2 := set_mem _ _).
    assert (Hc : calm w w2).
    { subst w2 w1. split; world_simpl; try done.
      rewrite (delete_insert_ne _ q1) by done. rewrite !delete_insert_id; [done|done|by rewrite delete_insert_id]. }
    assert (HR2 : has_response w2 o p (Some h) code x r).
    { eapply response_calm; [exact Hc| |exact HR]. intros a. rewrite (calm_rc _ _ Hc). apply (hr_nonneg _ _ _ _ _ _ _ HR). }
    clearbody w2. wp_step. eapply wp_upd_x; [exact (hr_mem _ _ _ _ _ _ _ HR2)|].
    eapply wp_response_event; [by apply response_ready|cbv; lia|]. intros w3 HR3 _. wp_step. by apply HQ. }
  wp_step; (eapply wp_response_setopt; [|done|apply Hrest]); exists e; (split; [|done]); subst w1; lookup_tac.
Qed.

(** The easy handle of a request in the multi handle. *)
Lemma response_added w x r e :
  has_response w o p (Some h) code x r → w_mem w !! h = Some (ByCurl, CEasy e) → ez_private e = Some p →
  has_response (set_mem (<[h := (ByCurl, CEasy (mkEasy true (ez_private e)))]> (w_mem w)) w) o p (Some h) code x r.
Proof.
  intros [H0 H1 H2 H3 H4 HS H5 H6 H7 H8 H9 H10 H11 H12 H13] He Hpriv.
  split; cbn -[easy_is slist_is str_is dyn_is status_is]; try done; try solve [framed].
  - eexists. split; [lookup_tac|done].
  - destruct (x_slist x) as [l|]; [|done]. destruct HS as [ls HS]. exists ls. lookup_tac.
Qed.

Lemma response_sent w x r :
  has_response w o p (Some h) code x r →
  has_response (set_mem (<[p := (ByJe, CXhr (set_x_sent true x))]> (w_mem w)) w) o p (Some h) code (set_x_sent true x) r.
Proof.
  intros [H0 H1 H2 H3 H4 HS H5 H6 H7 H8 H9 H10 H11 H12 H13].
  split; cbn -[easy_is slist_is str_is dyn_is status_is]; try done; framed.
Qed.

(** send without a body hands the request to curl. *)
Lemma wp_send w x r es argv (Q : JSValue → World → Prop) :
  has_response w o p (Some h) code x r → x_sent x = false → x_async x = true → x_curlm_h x = true →
  (∀ w' x', has_response w' o p (Some h) code x' r → x_sent x' = true →
     (∃ e, w_mem w' !! h = Some (ByCurl, CEasy e) ∧ ez_added e = true) → Q JS_UNDEFINED w') →
  wp (ijXhrSend no_user es (JS_REF o) (JS_UNDEFINED :: argv)) Q w.
Proof.
  intros HR Hs Ha Hm HQ. pose proof (hr_mem _ _ _ _ _ _ _ HR) as Hp. pose proof (hr_curl _ _ _ _ _ _ _ HR) as Hx.
  destruct (hr_easy _ _ _ _ _ _ _ HR) as (e & He & Hpriv).
  unfold ijXhrSend. wp_step. apply wp_GetOpaque2_class with p; [exact (hr_obj _ _ _ _ _ _ _ HR)|].
  wp_step. eapply wp_get_x; [done|]. rewrite Hs, Ha. wp_step. wp_step. eapply wp_arg_at; [done|]. unfold JS_IsString.
  do 2 wp_step. cbn [body_of]. do 3 wp_step.
  apply (wp_mono _ (λ _ w1, has_response w1 o p (Some h) code x r ∧ w_mem w1 !! h = Some (ByCurl, CEasy e))).
  { destruct (x_slist x); [|by wp_step]. eapply wp_response_setopt; [by exists e|done|]. split; [by apply response_log|done]. }
  intros ? w1 [HR1 He1]. wp_step. unfold curl_multi_add_handle, get_easy. rewrite Hm, Hx. wp_step. wp_step.
  eapply wp_load; [done|]. cbv iota. wp_step. eapply wp_store; [done|].
  pose proof (response_added _ _ _ _ HR1 He1 Hpriv) as HR2. eapply wp_upd_x; [exact (hr_mem _ _ _ _ _ _ _ HR2)|].
  wp_step. pose proof (hr_mem _ _ _ _ _ _ _ HR1) as Hp1. eapply HQ; [by apply response_sent|done|].
  eexists. split; [lookup_tac|done].
Qed.
End Methods.

(** ** Making a request *)

(** The runtime the request belongs to. *)
Definition runtime_at (w : World) (qrt : addr) : Prop := ∃ r, w_mem w !! qrt = Some (ByJe, CRuntime r).

(** curl has memory for its handles, and timers can be initialised. *)
Definition curl_works (e : env) : Prop :=
  ∀ args l, e_int e (Ev "curl_easy_init" args :: l) = 0 ∧ e_int e (Ev "curl_multi_init" args :: l) = 0 ∧
    e_int e (Ev "uv_timer_init" args :: l) = 0.

Lemma wp_GetCurlm qrt rt (Q : bool → World → Prop) w :
  curl_works (w_env w) → w_mem w !! qrt = Some (ByJe, CRuntime rt) →
  (∀ rt' w', w_env w' = w_env w → (∀ a, rc w' a = rc w a) → w_cell w' = w_cell w → rt_curlm_h rt' = true →
     w_mem w' = <[qrt := (ByJe, CRuntime rt')]> (w_mem w) → Q true w') →
  wp (ijGetCurlm qrt) Q w.
Proof.
  intros He Hq HQ. unfold ijGetCurlm, get_rt, put_rt. wp_step. wp_step. eapply wp_load; [done|]. cbv iota. wp_step. wp_step.
  destruct (rt_curlm_h rt) eqn:Em.
  - wp_step. wp_step. wp_step. eapply wp_load; [done|]. cbv iota. do 2 wp_step. rewrite Em. apply (HQ rt); try done.
    by rewrite insert_id.
  - wp_step. apply wp_ask_eq. intros z ->. rewrite (proj1 (proj2 (He _ _))). do 5 wp_step. eapply wp_store; [lookup_tac|].
    wp_step. apply wp_ask_eq. intros z ->. world_simpl. rewrite (proj2 (proj2 (He _ _))). do 3 wp_step. wp_step.
    eapply wp_load; [lookup_tac|]. cbv iota. wp_step. eapply wp_store; [lookup_tac|]. do 2 wp_step.
    eapply wp_load; [lookup_tac|]. cbv iota. do 2 wp_step.
    apply (HQ (mkRuntime true (with_data (Some qrt) (handle_init (rt_timer rt))))); try done.
    world_simpl. by rewrite !insert_insert_eq.
Qed.

Lemma wp_setopt h al e option args (Q : unit → World → Prop) w :
  w_mem w !! h = Some (al, CEasy e) → Q tt (log_ev (Ev option (AP h :: args)) w) →
  wp (curl_easy_setopt (Some h) option args) Q w.
Proof. intros He HQ. unfold curl_easy_setopt, get_easy. wp_step. wp_step. eapply wp_load; [done|]. cbv iota. by wp_steps. Qed.

Lemma wp_XhrConstructor qrt code new_target argv (Q : JSValue → World → Prop) w :
  nonneg w → runtime_at w qrt → curl_works (w_env w) → transfer_works code (w_env w) →
  (∀ w', quiet w w' → Q JS_EXCEPTION w') →
  (∀ o p h x w', has_response w' o p (Some h) code x (mkResponse XHR_RSTATE_UNSENT None None [] []) →
     x_sent x = false → x_async x = true → x_curlm_h x = true →
     (∀ a b, w_cell w !! a = Some b → w_cell w' !! a = Some b) → Q (JS_REF o) w') →
  wp (ijXhrConstructor qrt new_target argv) Q w.
Proof.
  intros Hn [rt Hrt] He Ht HE HQ. unfold ijXhrConstructor, JS_NewObjectClass. wp_step. apply wp_try_new; last first.
  { intros w' Hq. wp_steps. by apply HE. }
  intros o Ho Ro. cbn [JS_IsException]. wp_step. apply wp_je_calloc; last first.
  { wp_step. apply wp_FreeValue.
    { apply holds_one. world_simpl. rewrite decide_True by done. world_simpl_in Ro. lia. }
    wp_steps. apply HE. split; world_simpl; try done.
    - intros a. world_simpl. case_decide; lia.
    - intros a b Hb. world_simpl. by rewrite lookup_insert_ne by congruence. }
  intros p Hp. world_simpl_in Hp. wp_step. eapply wp_GetCurlm; [by world_simpl|lookup_tac|].
  intros rt' w1 E1 R1 C1 Hm M1. rewrite mem_new_block, !mem_log_ev, mem_new_cell, mem_log_ev in M1.
  assert (Hpq : p ≠ qrt) by congruence. world_simpl_in E1.
  rewrite cell_new_block, !cell_log_ev, cell_new_cell, cell_log_ev in C1. wp_step. upd_x. unfold curl_easy_init. do 2 wp_step. apply wp_ask_eq. intros z ->. world_simpl.
  rewrite E1, (proj1 (He _ _)). cbn [Z.eqb]. wp_step. apply wp_c_alloc. intros h Hh. world_simpl_in Hh.
  apply lookup_insert_None in Hh as [Hh Hhp]. apply lookup_insert_None in Hh as [Hh Hhq]. apply lookup_insert_None in Hh as [Hh _].
  do 2 wp_step. upd_x. wp_step. unfold curl_set_private, get_easy. wp_step. wp_step. eapply wp_load; [lookup_tac|]. cbv iota.
  wp_step. eapply wp_store; [lookup_tac|]. do 10 (wp_step; eapply wp_setopt; [lookup_tac|]). unfold JS_SetOpaque. wp_steps.
  apply (HQ o p h (set_x_curl_h (Some h) (set_x_curlm_h true xhr0))); [|done|done|done|].
  - split; cbn -[easy_is slist_is]; try done.
    + by rewrite E1.
    + intros a. world_simpl. specialize (Hn a). case_decide; lia.
    + lookup_tac.
    + eexists. split; [lookup_tac|done].
    + world_simpl. by rewrite lookup_alter_eq, lookup_insert_eq.
  - intros a b Hb. world_simpl. by rewrite lookup_alter_ne, lookup_insert_ne by congruence.
Qed.


(** A runtime at 10, a method and an address; curl answers 200. *)
Definition xhr_env : env :=
  mkEnv (λ l, match l with Ev name _ :: _ => if bool_decide (name = "CURLINFO_RESPONSE_CODE"%string) then 200 else 0 | [] => 0 end)
    (λ _, None) (λ _, SA_INET 0 0) (λ _, None) (λ _, None) (λ _, []) (λ _, []).
Definition xhr_world : World :=
  mkWorld xhr_env 100 {[ 1%positive := BString (lit "GET"); 2%positive := BString (lit "http://a/") ]} ∅
    {[ 10%positive := (ByJe, CRuntime (mkRuntime false (handle0 UV_TIMER))) ]} None [].

