(* ===== verification/XhrEnd.v ===== *)
(** * XMLHttpRequest: the end of a request, using it again, and what goes wrong

    The finalizer, open on a request that is done, abort; the cases in which a request does
    not do what its interface says. *)

From S2P Require Import Prelude State Runtime Logic Promise Worlds Misc Curl XhrHeaders Xhr XhrProofs.

(** ** What a request has in memory *)

Definition del (o : option addr) (m : gmap addr (allocator * cstruct)) : gmap addr (allocator * cstruct) :=
  match o with Some a => delete a m | None => m end.

Definition raw_is (w : World) (o : option addr) : Prop :=
  match o with None => True | Some a => ∃ s, w_mem w !! a = Some (ByJs, CStr s) end.

Definition buf_is (w : World) (o : option addr) : Prop :=
  match o with None => True | Some a => ∃ d, w_mem w !! a = Some (ByLibc, CDyn d) end.

Record xhr_at (w : World) (p : addr) (x : IJJSXhr) : Prop := {
  xa_mem : w_mem w !! p = Some (ByJe, CXhr x);
  xa_easy : easy_is w p (x_curl_h x);
  xa_slist : slist_is w (x_slist x);
  xa_raw : raw_is w (x_raw x);
  xa_hbuf : buf_is w (x_hbuf x);
  xa_bbuf : buf_is w (x_bbuf x);
  xa_apart : ∀ a, x_hbuf x = Some a → x_bbuf x ≠ Some a;
  xa_events : length (x_events x) = XHR_EVENT_MAX
}.

Lemma response_xhr_at w o p h code x r : has_response w o p h code x r → xhr_at w p x.
Proof.
  intros [H0 H1 H2 H3 H4 HS H5 H6 H7 H8 H9 H10 H11 H12 H13]. split; try done.
  - by rewrite H3.
  - revert H7. unfold str_is, raw_is. destruct (x_raw x), (r_raw r); try done. eauto.
  - revert H9. unfold dyn_is, buf_is. destruct (x_hbuf x); [|done]. intros [? _]. eauto.
  - revert H10. unfold dyn_is, buf_is. destruct (x_bbuf x); [|done]. intros [? _]. eauto.
Qed.

(** Freeing a block that may not be there, with none of its handles open and nothing owned. *)
Lemma wp_free_opt (m : option addr → M unit) al o (Q : unit → World → Prop) w :
  (m None = mret tt) → (∀ a, m (Some a) = c_free al a) →
  (∀ a, o = Some a → ∃ c, w_mem w !! a = Some (al, c) ∧ handles c = []) →
  Q tt (set_mem (del o (w_mem w)) w) → wp (m o) Q w.
Proof.
  intros H0 H1 Ho HQ. destruct o as [a|]; simpl in HQ.
  - rewrite H1. destruct (Ho a eq_refl) as (c & Hc & Hh). eapply wp_c_free; [done|by rewrite Hh|done].
  - rewrite H0. wp_step. by destruct w.
Qed.

(** ** The finalizer *)

(** The blocks the finalizer frees besides the structure: not the two buffers. *)
Definition freed_blocks (x : IJJSXhr) (m : gmap addr (allocator * cstruct)) : gmap addr (allocator * cstruct) :=
  del (x_raw x) (del (x_slist x) (del (x_curl_h x) m)).

Lemma owned_del_none o (m : gmap addr (allocator * cstruct)) a :
  (∀ k, o = Some k → ∃ al c, m !! k = Some (al, c) ∧ own c = []) → owned (del o m) a = owned m a.
Proof.
  destruct o as [k|]; [|done]. intros H. destruct (H k eq_refl) as (al & c & Hk & Hc). simpl.
  erewrite owned_delete by done. rewrite Hc, cnt_nil. lia.
Qed.

(** The releases of the finalizer and of a reset. *)
Lemma wp_free_fields x (Q : unit → World → Prop) w :
  holds w (own (CXhr x)) →
  (∀ w', w_env w' = w_env w → w_mem w' = w_mem w → w_cell w' = w_cell w →
     (∀ a, rc w' a = rc w a - cnt a (own (CXhr x))) → Q tt w') →
  wp (free_values (x_events x) ;; free_values (x_values x)) Q w.
Proof.
  intros Hh HQ. change (own (CXhr x)) with (refs_of (x_events x ++ x_values x)) in *. rewrite refs_of_app in *.
  wp_step. apply wp_free_values.
  { intros a. specialize (Hh a). rewrite cnt_app in Hh. count_facts a. pose proof (cnt_nonneg a (refs_of (x_values x))). lia. }
  apply wp_free_values.
  { intros a. specialize (Hh a). rewrite cnt_app in Hh. rewrite rc_drop_refs.
    pose proof (cnt_nonneg a (refs_of (x_events x))). lia. }
  apply HQ; world_simpl; try done. intros a. rewrite !rc_drop_refs, cnt_app. lia.
Qed.

(** Blocks other than the ones deleted stay. *)
Lemma del_other o (m : gmap addr (allocator * cstruct)) a : o ≠ Some a → del o m !! a = m !! a.
Proof. destruct o; [|done]. intros. simpl. by rewrite lookup_delete_ne by congruence. Qed.

Lemma wp_GetOpaque_class obj c p Q w :
  body_of obj w = Some (BClass c (Some p)) → Q (Some p) w → wp (JS_GetOpaque obj c) Q w.
Proof. intros Hb HQ. unfold JS_GetOpaque. apply wp_gets. by rewrite Hb, decide_True by done. Qed.

(** The finalizer frees the structure, the easy handle, the request headers and the text of the
    status line, and releases every value of the structure. *)
Lemma finalizer_spec w o p x (Q : unit → World → Prop) :
  w_cell w !! o = Some (BClass cls_xhr (Some p)) → xhr_at w p x → holds w (own (CXhr x)) →
  (∀ w', w_mem w' = delete p (freed_blocks x (w_mem w)) → (∀ a, rc w' a = rc w a - cnt a (own (CXhr x))) → Q tt w') →
  wp (ijXhrFinalizer (JS_REF o)) Q w.
Proof.
  intros Ho [Hp He Hs Hr _ _ _ _] Hh HQ. unfold ijXhrFinalizer. wp_step. eapply wp_GetOpaque_class; [done|]. wp_step. get_x.
  wp_step. apply (wp_mono _ (λ _ w1, w_mem w1 = del (x_curl_h x) (w_mem w) ∧ ∀ a, rc w1 a = rc w a)).
  { destruct (x_curl_h x) as [h|]; [|by wp_step]. destruct He as (e & He & _).
    wp_step. apply (wp_mono _ (λ _ w1, ∃ e', w_mem w1 = <[h := (ByCurl, CEasy e')]> (w_mem w) ∧ ∀ a, rc w1 a = rc w a)).
    { assert (Hz : wp (mret tt) (λ _ w1, ∃ e', w_mem w1 = <[h := (ByCurl, CEasy e')]> (w_mem w) ∧ ∀ a, rc w1 a = rc w a) w).
      { wp_step. exists e. by rewrite insert_id. }
      destruct (x_async x); [|done]. unfold curl_multi_remove_handle, get_easy. destruct (x_curlm_h x); [|done].
      wp_step. wp_step. eapply wp_load; [done|]. cbv iota. wp_step. eapply wp_store; [done|]. by eexists. }
    intros [] w1 (e' & M1 & R1). unfold curl_easy_cleanup. eapply wp_c_free; [rewrite M1; apply lookup_insert_eq|done|].
    split; [world_simpl; rewrite ?M1; apply delete_insert_eq|intros a; by world_simpl]. }
  intros [] w1 [M1 R1]. cbv beta in M1, R1.
  assert (Hs1 : ∀ a, x_slist x = Some a → ∃ c, w_mem w1 !! a = Some (ByCurl, c) ∧ handles c = []).
  { intros a Ha. rewrite Ha in Hs. destruct Hs as [ls Hs]. exists (CSlist ls). split; [|done]. rewrite M1, del_other; [done|].
    intros E. rewrite E in He. destruct He as (e & He & _). congruence. }
  wp_step. apply (wp_free_opt curl_slist_free_all ByCurl); [done|done|done|].
  assert (Hr1 : ∀ a, x_raw x = Some a → ∃ c, del (x_slist x) (del (x_curl_h x) (w_mem w)) !! a = Some (ByJs, c) ∧ handles c = []).
  { intros a Ha. rewrite Ha in Hr. destruct Hr as [s Hr]. exists (CStr s). split; [|done]. rewrite !del_other; [done| |].
    - intros E. rewrite E in He. destruct He as (e & He & _). congruence.
    - intros E. rewrite E in Hs. destruct Hs as (e & Hs). congruence. }
  wp_step. apply (wp_free_opt js_free_opt ByJs); [done|done|by world_simpl|]. world_simpl. apply wp_assoc.
  wp_step. apply wp_free_fields.
  { intros a. world_simpl. apply Hh. }
  intros w2 _ M2 _ R2. rewrite mem_set_mem in M2. unfold je_free. eapply wp_c_free.
  - rewrite M2, !del_other; [done| | |]; intros E.
    + rewrite E in He. destruct He as (e & He & _). congruence.
    + rewrite E in Hs. destruct Hs as (e & Hs). congruence.
    + rewrite E in Hr. destruct Hr as (e & Hr). congruence.
  - done.
  - apply HQ; [world_simpl; by rewrite ?M2|]. intros a. world_simpl. rewrite ?R2. by world_simpl.
Qed.

(** The blocks freed hold no references. *)
Lemma freed_blocks_owned w p x a : xhr_at w p x → owned (freed_blocks x (w_mem w)) a = owned (w_mem w) a.
Proof.
  intros [Hp He Hs Hr _ _ _ _]. unfold freed_blocks. rewrite !owned_del_none; [done| | |]; intros k Hk; rewrite Hk in *.
  - destruct He as (e & He & _). by eexists _, _.
  - destruct Hs as (ls & Hs). exists ByCurl, (CSlist ls). split; [|done]. rewrite del_other; [done|].
    intros E. rewrite E in He. destruct He as (e & He & _). congruence.
  - destruct Hr as (s & Hr). exists ByJs, (CStr s). split; [|done]. rewrite !del_other; [done| |]; intros E; rewrite E in *.
    + destruct He as (e & He & _). congruence.
    + destruct Hs as (e & Hs). congruence.
Qed.

Lemma freed_blocks_other w p x a : xhr_at w p x → a = p ∨ x_hbuf x = Some a ∨ x_bbuf x = Some a →
  freed_blocks x (w_mem w) !! a = w_mem w !! a.
Proof.
  intros [Hp He Hs Hr Hb1 Hb2 _ _] Ha. unfold freed_blocks.
  assert (Hd : ∃ c, w_mem w !! a = Some c ∧ (∀ ls, c ≠ (ByCurl, ls)) ∧ ∀ s, c ≠ (ByJs, CStr s)).
  { destruct Ha as [->|[Ha|Ha]]; [|rewrite Ha in Hb1; destruct Hb1|rewrite Ha in Hb2; destruct Hb2]; by eexists. }
  destruct Hd as (c & Hc & D1 & D2). rewrite !del_other; [done| | |]; intros E; rewrite E in *.
  - destruct He as (e & He & _). rewrite Hc in He. injection He as ->. by eapply D1.
  - destruct Hs as (e & Hs). rewrite Hc in Hs. injection Hs as ->. by eapply D1.
  - destruct Hr as (e & Hr). rewrite Hc in Hr. injection Hr as ->. by eapply D2.
Qed.

(** The ledger is as before; the buffers of header and body are left behind. *)
Lemma xhr_finalized w o p x :
  w_cell w !! o = Some (BClass cls_xhr (Some p)) → xhr_at w p x → holds w (own (CXhr x)) →
  wp (ijXhrFinalizer (JS_REF o)) (λ _ w',
    (∀ a, excess w' a = excess w a) ∧ w_mem w' !! p = None ∧
    (∀ a, x_hbuf x = Some a ∨ x_bbuf x = Some a → w_mem w' !! a = w_mem w !! a)) w.
Proof.
  intros Ho Hx Hh. eapply finalizer_spec; [done|done|done|]. intros w' M R. split_and!.
  - intros a. unfold excess. rewrite M, R. erewrite owned_delete; [|erewrite freed_blocks_other; [exact (xa_mem _ _ _ Hx)|done|by left]].
    erewrite freed_blocks_owned by done. lia.
  - rewrite M. apply lookup_delete_eq.
  - intros a Ha. rewrite M, lookup_delete_ne; [eapply freed_blocks_other; [done|by right]|]. intros <-.
    destruct Hx as [Hp _ _ _ Hb1 Hb2 _ _]. destruct Ha as [Ha|Ha]; rewrite Ha in *.
    + destruct Hb1. congruence.
    + destruct Hb2. congruence.
Qed.

(** ** open on a request that is done *)

Definition reopened (x : IJJSXhr) : IJJSXhr :=
  mkXhr (replicate XHR_EVENT_MAX JS_UNDEFINED) (x_curl_h x) (x_curlm_h x) None false true (x_timeout x)
    (x_response_type x) XHR_RSTATE_UNSENT None JS_UNDEFINED JS_UNDEFINED JS_NULL JS_NULL JS_NULL JS_NULL None None.

(** Everything a reset frees. *)
Definition reset_blocks (x : IJJSXhr) (m : gmap addr (allocator * cstruct)) : gmap addr (allocator * cstruct) :=
  del (x_bbuf x) (del (x_hbuf x) (del (x_raw x) (del (x_slist x) m))).

Lemma reset_spec w p x (Q : unit → World → Prop) :
  xhr_at w p x → holds w (own (CXhr x)) →
  (∀ w', w_env w' = w_env w → w_cell w' = w_cell w →
     w_mem w' = <[p := (ByJe, CXhr (reopened x))]> (reset_blocks x (w_mem w)) →
     (∀ a, rc w' a = rc w a - cnt a (own (CXhr x))) → Q tt w') →
  wp (xhr_reset p) Q w.
Proof.
  intros [Hp He Hs Hr Hb1 Hb2 Hba _] Hh HQ. unfold xhr_reset. wp_step. get_x.
  assert (Hs1 : ∀ a, x_slist x = Some a → ∃ c, w_mem w !! a = Some (ByCurl, c) ∧ handles c = []).
  { intros a Ha. rewrite Ha in Hs. destruct Hs as [ls Hs]. by eexists. }
  wp_step. apply (wp_free_opt curl_slist_free_all ByCurl); [done|done|done|].
  assert (Hr1 : ∀ a, x_raw x = Some a → ∃ c, del (x_slist x) (w_mem w) !! a = Some (ByJs, c) ∧ handles c = []).
  { intros a Ha. rewrite Ha in Hr. destruct Hr as [s Hr]. exists (CStr s). split; [|done]. rewrite del_other; [done|].
    intros E. rewrite E in Hs. destruct Hs as (e & Hs). congruence. }
  wp_step. apply (wp_free_opt js_free_opt ByJs); [done|done|by world_simpl|]. world_simpl. apply wp_assoc.
  wp_step. apply wp_free_fields.
  { intros a. world_simpl. apply Hh. }
  intros w2 E2 M2 C2 R2. rewrite mem_set_mem in M2.
  assert (K : ∀ a c, w_mem w !! a = Some c → (∀ ls, c ≠ (ByCurl, ls)) → (∀ s, c ≠ (ByJs, CStr s)) →
              del (x_raw x) (del (x_slist x) (w_mem w)) !! a = Some c).
  { intros a c Hc D1 D2. rewrite !del_other; [done| |]; intros E; rewrite E in *.
    - destruct Hs as (e & Hs). rewrite Hc in Hs. injection Hs as ->. by eapply D1.
    - destruct Hr as (e & Hr). rewrite Hc in Hr. injection Hr as ->. by eapply D2. }
  wp_step. apply (wp_free_opt dbuf_free ByLibc); [done|done| |].
  { intros a Ha. rewrite Ha in Hb1. destruct Hb1 as [d Hd]. exists (CDyn d). rewrite M2. split; [|done]. by apply K. }
  wp_step. apply (wp_free_opt dbuf_free ByLibc); [done|done| |].
  { intros a Ha. rewrite Ha in Hb2. destruct Hb2 as [d Hd]. exists (CDyn d). world_simpl. rewrite ?M2, del_other; [|naive_solver].
    split; [|done]. by apply K. }
  eapply wp_upd_x.
  - world_simpl. rewrite ?M2, del_other; [rewrite del_other; [by eapply K|]|]; intros E; rewrite E in *.
    + destruct Hb1. congruence.
    + destruct Hb2. congruence.
  - apply HQ; world_simpl; done.
Qed.

Lemma reset_blocks_owned w p x a : xhr_at w p x → owned (reset_blocks x (w_mem w)) a = owned (w_mem w) a.
Proof.
  intros [Hp He Hs Hr Hb1 Hb2 Hba _]. unfold reset_blocks. rewrite !owned_del_none; [done| | | |]; intros k Hk; rewrite Hk in *.
  - destruct Hs as (e & Hs). by eexists _, _.
  - destruct Hr as (s & Hr). exists ByJs, (CStr s). split; [|done]. rewrite del_other; [done|].
    intros E. rewrite E in Hs. destruct Hs as (e & Hs). congruence.
  - destruct Hb1 as (d & Hb). exists ByLibc, (CDyn d). split; [|done]. rewrite !del_other; [done| |]; intros E; rewrite E in *.
    + destruct Hs. congruence.
    + destruct Hr. congruence.
  - destruct Hb2 as (d & Hb). exists ByLibc, (CDyn d). split; [|done]. rewrite !del_other; [done| | |]; intros E; rewrite E in *.
    + destruct Hs. congruence.
    + destruct Hr. congruence.
    + by apply (Hba k).
Qed.

Lemma reset_blocks_sub x m a c : reset_blocks x m !! a = Some c → m !! a = Some c.
Proof.
  assert (K : ∀ o (m : gmap addr (allocator * cstruct)) , del o m !! a = Some c → m !! a = Some c).
  { intros [k|] m'; [|done]. simpl. by intros [_ ?]%lookup_delete_Some. }
  unfold reset_blocks. intros H. by repeat apply K in H.
Qed.

Lemma reset_blocks_xhr w p x : xhr_at w p x → reset_blocks x (w_mem w) !! p = Some (ByJe, CXhr x).
Proof.
  intros [Hp He Hs Hr Hb1 Hb2 Hba _]. unfold reset_blocks. rewrite !del_other; [done| | | |]; intros E; rewrite E in *.
  - destruct Hs. congruence.
  - destruct Hr. congruence.
  - destruct Hb1. congruence.
  - destruct Hb2. congruence.
Qed.

(** Without a handler the event is only dropped. *)
Lemma wp_no_handler user p al x event (Q : unit → World → Prop) w :
  w_mem w !! p = Some (al, CXhr x) → x_events x !! event = Some JS_UNDEFINED → Q tt w →
  wp (ijMaybeEmitEvent user p event JS_UNDEFINED) Q w.
Proof.
  intros Hp Hf HQ. unfold ijMaybeEmitEvent, JS_IsFunction. wp_step. get_x. wp_step. eapply wp_arg_at; [done|].
  do 2 wp_step. cbn [body_of]. cbv iota. cbn [negb]. apply wp_FreeValue; [apply holds_nil|done].
Qed.

(** open on a request that is done, curl_h being NULL since ijCheckMultiInfo: the request is as new,
    what it held is released, and curl is told nothing. *)
Lemma open_done user w o p x m u a1 a2 argv (Q : JSValue → World → Prop) :
  w_cell w !! o = Some (BClass cls_xhr (Some p)) → xhr_at w p x → holds w (own (CXhr x)) →
  x_ready_state x = XHR_RSTATE_DONE → x_curl_h x = None →
  body_of a1 w = Some (BString m) → body_of a2 w = Some (BString u) →
  (∀ w', w_cell w' = w_cell w →
     w_mem w' = <[p := (ByJe, CXhr (set_x_ready_state XHR_RSTATE_OPENED (reopened x)))]> (reset_blocks x (w_mem w)) →
     (∀ a, rc w' a = rc w a - cnt a (own (CXhr x))) → Q JS_UNDEFINED w') →
  wp (ijXhrOpen user (JS_REF o) 2 (a1 :: a2 :: JS_UNDEFINED :: argv)) Q w.
Proof.
  intros Ho Hx Hh Hd Hc Ha1 Ha2 HQ. unfold ijXhrOpen. wp_step. apply wp_GetOpaque2_class with p; [done|].
  wp_step. eapply wp_get_x; [exact (xa_mem _ _ _ Hx)|]. rewrite Hd. cbn [Z.eqb Pos.eqb XHR_RSTATE_DONE]. wp_step.
  eapply reset_spec; [done|done|]. intros w1 E1 C1 M1 R1.
  assert (Hp1 : w_mem w1 !! p = Some (ByJe, CXhr (reopened x))) by (rewrite M1; apply lookup_insert_eq).
  wp_step. eapply wp_get_x; [done|]. cbn [x_ready_state reopened Z.ltb Z.compare XHR_RSTATE_UNSENT XHR_RSTATE_OPENED]. wp_step.
  do 3 (wp_step; eapply wp_arg_at; [done|]).
  assert (Hb1 : body_of a1 w1 = Some (BString m)) by (destruct a1; try done; simpl; by rewrite C1).
  assert (Hb2 : body_of a2 w1 = Some (BString u)) by (destruct a2; try done; simpl; by rewrite C1).
  assert (HQ1 : ∀ w', w_cell w' = w_cell w1 → (∀ a, rc w' a = rc w1 a) →
     w_mem w' = <[p := (ByJe, CXhr (set_x_ready_state XHR_RSTATE_OPENED (reopened x)))]> (w_mem w1) → Q JS_UNDEFINED w').
  { intros w' C' R' M'. apply HQ; [by rewrite C'| |intros a; by rewrite R']. by rewrite M', M1, insert_insert_eq. }
  clear HQ C1 M1 R1 Ha1 Ha2.
  wp_step. eapply wp_ToCString_str; [done|]. intros q1 Hq1. wp_step.
  eapply wp_ToCString_str; [by destruct a2|]. intros q2 Hq2. world_simpl_in Hq2.
  cbn [Nat.eqb]. wp_step. wp_step. wp_step. eapply wp_get_x; [lookup_tac|]. cbn [x_curl_h reopened]. rewrite Hc. cbv iota.
  cbn [curl_easy_setopt]. wp_step. assert (Hq12 : q1 ≠ q2).
  { intros ->. by rewrite lookup_insert_eq in Hq2. }
  apply (wp_mono _ (λ _ w2, w2 = new_block q2 ByCString (CStr u) (new_block q1 ByCString (CStr m) w1))); [by case_match; wp_step|].
  intros [] w2 ->. do 2 wp_step. wp_step. unfold JS_FreeCString_opt, JS_FreeCString. eapply wp_c_free; [lookup_tac|done|].
  wp_step. eapply wp_c_free; [lookup_tac|done|]. wp_step. upd_x. eapply wp_no_handler; [lookup_tac|done|]. wp_step.
  apply HQ1; world_simpl; try done. apply lookup_insert_None in Hq2 as [Hq2 _].
  f_equal. rewrite (delete_insert_ne _ q1) by done. rewrite delete_insert_id, delete_insert_id; [done|done|].
  by rewrite delete_insert_id.
Qed.

(** A second request on the same object: open and send succeed, the first request is released, and no
    transfer is started. No block of curl is made or changed, so nothing will ever come back. *)
Lemma reuse_never_sends user w o p x m u a1 a2 :
  w_cell w !! o = Some (BClass cls_xhr (Some p)) → xhr_at w p x → holds w (own (CXhr x)) →
  x_ready_state x = XHR_RSTATE_DONE → x_curl_h x = None →
  body_of a1 w = Some (BString m) → body_of a2 w = Some (BString u) →
  wp (_ ← ijXhrOpen user (JS_REF o) 2 (pad_args 5 [a1; a2]) ; ijXhrSend user [] (JS_REF o) (pad_args 1 [])) (λ v w',
    v = JS_UNDEFINED ∧ (∀ a, excess w' a = excess w a) ∧
    w_mem w' !! p = Some (ByJe, CXhr (set_x_sent true (set_x_ready_state XHR_RSTATE_OPENED (reopened x)))) ∧
    ∀ a c, w_mem w' !! a = Some (ByCurl, c) → w_mem w !! a = Some (ByCurl, c)) w.
Proof.
  intros Ho Hx Hh Hd Hc Ha1 Ha2. wp_step. eapply open_done; [done..|]. intros w1 C1 M1 R1.
  assert (Hp1 : w_mem w1 !! p = Some (ByJe, CXhr (set_x_ready_state XHR_RSTATE_OPENED (reopened x)))).
  { rewrite M1. apply lookup_insert_eq. }
  unfold ijXhrSend. wp_step. apply wp_GetOpaque2_class with p; [simpl; by rewrite C1|]. wp_step. eapply wp_get_x; [done|].
  cbn [x_sent set_x_ready_state reopened x_slist x_async x_curlm_h x_curl_h]. rewrite Hc. wp_step. wp_step.
  eapply wp_arg_at; [done|]. unfold JS_IsString. do 2 wp_step. cbn [body_of]. do 4 wp_step. wp_step.
  apply (wp_mono _ (λ _ w2, w2 = w1)); [unfold curl_multi_add_handle; by destruct (x_curlm_h x); wp_step|]. intros [] w2 ->.
  eapply wp_upd_x; [done|]. wp_step. split_and!; [done| | |].
  - intros a. unfold excess. rewrite mem_set_mem, rc_set_mem, M1, R1, insert_insert_eq.
    erewrite owned_update by by apply reset_blocks_xhr. erewrite reset_blocks_owned by done.
    change (own (CXhr (set_x_sent true _))) with ([] : list addr). rewrite cnt_nil. lia.
  - rewrite mem_set_mem. apply lookup_insert_eq.
  - intros a c. rewrite mem_set_mem, M1, insert_insert_eq. intros [[_ H]|[_ H]]%lookup_insert_Some; [done|].
    by apply reset_blocks_sub in H.
Qed.

(** ** responseType json

    The body is handed to the parser with a NUL after it, which is no JSON text. *)
Lemma json_throws parse_json w o p h code x r :
  (∀ b, parse_json (b ++ [NUL]) = None) →
  has_response w o p h code x r → x_response_type x = XHR_RTYPE_JSON → r_body r ≠ [] →
  wp (ijXhrResponseGet parse_json (JS_REF o)) (λ v _, v = JS_EXCEPTION) w.
Proof.
  intros Hparse HR Ht Hb. pose proof (hr_mem _ _ _ _ _ _ _ HR) as Hp. pose proof (hr_body _ _ _ _ _ _ _ HR) as Hd.
  unfold ijXhrResponseGet. wp_step. apply wp_GetOpaque2_class with p; [exact (hr_obj _ _ _ _ _ _ _ HR)|].
  wp_step. eapply wp_get_x; [done|]. wp_step. eapply wp_dbuf_bytes; [done|]. destruct (r_body r) as [|c b] eqn:Eb; [done|].
  rewrite (proj1 (proj2 (hr_cached _ _ _ _ _ _ _ HR))), Ht.
  change (JS_IsNull JS_NULL) with true. cbv iota. wp_step. cbn [XHR_RTYPE_JSON XHR_RTYPE_DEFAULT XHR_RTYPE_TEXT XHR_RTYPE_ARRAY_BUFFER Z.eqb Pos.eqb orb].
  wp_step. eapply wp_dbuf_put; [intros; apply (hr_env _ _ _ _ _ _ _ HR)|done|done|]. intros q w1 _ Hq _ _ _ M1. cbv iota.
  assert (Hpq : p ≠ q).
  { intros ->. destruct Hq as [Hq|[_ Hq]]; [|congruence]. rewrite Hq in Hd. destruct Hd as [Hd _]. congruence. }
  wp_step. eapply wp_upd_x; [rewrite M1, lookup_insert_ne by done; exact Hp|]. wp_step.
  eapply wp_get_x; [world_simpl; apply lookup_insert_eq|]. wp_step.
  eapply (wp_dbuf_bytes _ ((c :: b) ++ [NUL])); [split; [|done]; world_simpl; rewrite ?M1; by rewrite lookup_insert_ne, lookup_insert_eq|].
  unfold JS_ParseJSON. rewrite Hparse. wp_step. wp_step. wp_step. wp_step.
  eapply wp_upd_x; [rewrite (quiet_mem _ _ Hq0); world_simpl; apply lookup_insert_eq|]. wp_step.
  eapply wp_get_x; [world_simpl; apply lookup_insert_eq|]. by wp_step.
Qed.

(** ** Responses with a status 3xx that are not followed

    The empty line does not announce them: there is no status, and the header buffer gets no NUL. *)
Lemma silent_fold code version reason hs chunks r :
  announced code = false → SPACE ∉ lit version → NUL ∉ reason → Forall (λ hd, good_name hd.1) hs →
  r_ready r ≠ XHR_RSTATE_HEADERS_RECEIVED →
  let es := response_events version reason hs chunks in
  foldl (resp_step code) r es =
    mkResponse (r_ready r) (Some reason) (r_status r) (block (header_line <$> (lower_header <$> hs))) (r_body r ++ mjoin chunks) ∧
  events_ok code r es.
Proof.
  intros Hc Hv Hr Hg Hready es. subst es. unfold response_events.
  set (r1 := resp_step code r (OnHeader (status_line version reason))).
  assert (E1 : r1 = mkResponse (r_ready r) (Some reason) (r_status r) [] (r_body r)).
  { subst r1. cbn [resp_step]. change (has_prefix (lit "HTTP/") (status_line version reason)) with true. cbv iota.
    by rewrite status_raw_line by done. }
  assert (O1 : event_ok code r (OnHeader (status_line version reason))).
  { cbn [event_ok]. change (has_prefix (lit "HTTP/") (status_line version reason)) with true. cbv iota.
    by rewrite status_raw_line by done. }
  destruct (headers_fold code hs r1 Hg) as [F2 O2]. cbn zeta in F2, O2.
  set (r2 := foldl (resp_step code) r1 _) in *. rewrite E1 in F2. cbn [r_ready r_raw r_status r_hdr r_body app] in F2.
  assert (E3 : resp_step code r2 (OnHeader CRLF) = r2) by (cbn; by rewrite Hc).
  destruct (data_fold code chunks r2) as [F4 O4]. cbn zeta in F4, O4. split.
  - cbn [foldl]. fold r1. rewrite foldl_app. fold r2. cbn [foldl]. rewrite E3, F4, F2. cbn [r_ready r_raw r_status r_hdr r_body].
    by rewrite (proj2 (Z.eqb_neq _ _)) by done.
  - cbn [events_ok]. split; [done|]. fold r1. apply foldl_events_app; [done|]. fold r2. cbn [events_ok]. rewrite E3.
    split; [|done]. cbn. by rewrite Hc.
Qed.

Lemma c_string_none s : NUL ∉ s → c_string s = None.
Proof.
  induction s as [|c s IH]; intros H; simpl; [done|].
  rewrite (proj2 (Ascii.eqb_neq c NUL)) by set_solver. by rewrite IH by set_solver.
Qed.

Lemma silent_response w o p h code x version reason hs chunks result :
  has_response w o p (Some h) code x (mkResponse XHR_RSTATE_OPENED None None [] []) →
  announced code = false → SPACE ∉ lit version → NUL ∉ reason → Forall good_header hs → hs ≠ [] →
  wp (_ ← transfer no_user p (response_events version reason hs chunks) ; ijCheckMultiInfo no_user [(h, result)]) (λ _ w',
    wp (ijXhrReadystateGet (JS_REF o)) (λ v _, v = JS_INT XHR_RSTATE_DONE) w' ∧
    wp (ijXhrStatusGet (JS_REF o)) (λ v _, v = JS_UNDEFINED) w' ∧
    ∀ a n, body_of a w' = Some (BString n) → ijXhrGetResponseHeader (JS_REF o) [a] w' = Fault OutOfBounds) w.
Proof.
  intros HR Hc Hv Hr Hg Hne.
  destruct (silent_fold code version reason hs chunks (mkResponse XHR_RSTATE_OPENED None None [] []) Hc Hv Hr) as [Hf Ho].
  { eapply Forall_impl; [exact Hg|]. by intros ? (? & _). }
  { done. }
  wp_step. eapply wp_mono; [by eapply transfer_steps|]. intros ok w1 (_ & x1 & HR1). rewrite Hf in HR1.
  eapply wp_check_multi_info; [exact HR1|]. intros w2 x2 HR2 _. split_and!.
  - eapply wp_response_field; [exact HR2|]. rewrite (hr_ready _ _ _ _ _ _ _ HR2). done.
  - exact (status_get _ _ _ _ _ _ _ HR2).
  - intros a n Ha. eapply (header_get_unterminated _ _ _ _ _ _ _ HR2 a n Ha); cbn [r_hdr].
    + destruct hs as [|hd hs]; [done|]. cbn. unfold header_line. by destruct (tolower <$> hd.1).
    + apply c_string_none, block_elem.
      { intros H. repeat (apply elem_of_cons in H as [H|H]; [done|]). by apply not_elem_of_nil in H. }
      rewrite !Forall_fmap. eapply Forall_impl; [exact Hg|]. intros hd (_ & _ & H & _). cbn. apply lower_line; [cbv; lia|done].
Qed.

(** ** abort in a handler of the end of the transfer *)

(** A request that is being transferred: object 1 with handlers 2, structure 10, easy handle 11. *)
Definition busy_xhr : IJJSXhr :=
  set_x_events (replicate XHR_EVENT_MAX (JS_REF 2)) (set_x_curl_h (Some 11%positive) (set_x_curlm_h true xhr0)).

Definition busy_world : World :=
  mkWorld (env_of 0) 100
    {[ 1%positive := BClass cls_xhr (Some 10%positive); 2%positive := BFunction 0 ]}
    {[ 2%positive := 8 ]}
    {[ 10%positive := (ByJe, CXhr busy_xhr); 11%positive := (ByCurl, CEasy (mkEasy true (Some 10%positive))) ]}
    None [].

(** The handler of [load] calls abort. *)
Definition abort_on_load (event : nat) : M unit :=
  if (event =? XHR_EVENT_LOAD)%nat then _ ← ijXhrAbort no_user (JS_REF 1) [] ; mret tt else mret tt.

(** abort frees the easy handle the multi interface is about to remove and free. *)
Lemma abort_in_handler : ijCheckMultiInfo abort_on_load [(11%positive, CURLE_OK)] busy_world = Fault UseAfterFree.
Proof. vm_compute. reflexivity. Qed.

(** Without that call the same transfer ends, and its handle is freed. *)
Lemma no_abort_in_handler :
  wp (ijCheckMultiInfo no_user [(11%positive, CURLE_OK)]) (λ _ w', w_mem w' !! 11%positive = None) busy_world.
Proof. vm_compute. reflexivity. Qed.
