(* ===== verification/Wasm.v ===== *)
(** * ijwasm.c: WebAssembly

    Modules and instances are classes over objects of wasm3. Of wasm3 (m3_env.c, m3_parse.c) the
    life of modules and runtimes, the lookup of functions and the reading of arguments are here; the parser of
    binaries, the compiler and the execution of a function are parameters. *)

From S2P Require Import Prelude State Runtime Promise XhrHeaders.

(** ** Numbers *)

Definition is_space (c : ascii) : bool :=
  let n := nat_of_ascii c in (n =? 32)%nat || ((9 <=? n)%nat && (n <=? 13)%nat).

Definition digit_of (c : ascii) : option Z :=
  let n := Z.of_nat (nat_of_ascii c) in
  if (48 <=? n) && (n <=? 57) then Some (n - 48) else None.

(** The number the digits at the start of a string stand for. *)
Fixpoint digits (acc : Z) (s : bytes) : Z :=
  match s with
  | [] => acc
  | c :: s => match digit_of c with Some d => digits (acc * 10 + d) s | None => acc end
  end.

Fixpoint drop_spaces (s : bytes) : bytes :=
  match s with
  | [] => []
  | c :: s' => if is_space c then drop_spaces s' else s
  end.

(** strtoull with base 10, which strtoul is too on the platforms of the program: a number that does not fit is
    the largest one, a minus sign negates modulo 2^64. *)
Definition strtoull (s : bytes) : Z :=
  let s := drop_spaces s in
  let '(neg, s) := match s with
                   | c :: s' => if (c =? "-")%char then (true, s') else if (c =? "+")%char then (false, s') else (false, s)
                   | [] => (false, s) end in
  let n := digits 0 s in
  if 2 ^ 64 <=? n then 2 ^ 64 - 1 else if neg then (- n) mod 2 ^ 64 else n.

(** (double) of a float, on the bits. *)
Definition f32_to_f64 (b : Z) : Z :=
  let sign := Z.shiftr b 31 mod 2 in
  let e := Z.shiftr b 23 mod 2 ^ 8 in
  let m := b mod 2 ^ 23 in
  sign * 2 ^ 63 +
  (if e =? 255 then 0x7ff * 2 ^ 52 + (if m =? 0 then 0 else 2 ^ 51 + m mod 2 ^ 22 * 2 ^ 29)
   else if e =? 0 then
     if m =? 0 then 0
     else let k := Z.log2 m in (k - 149 + 1023) * 2 ^ 52 + (m - 2 ^ k) * 2 ^ (52 - k)
   else (e - 127 + 1023) * 2 ^ 52 + m * 2 ^ 29).

Definition JS_NewBigInt64 (n : Z) : M JSValue := js_new (BBigInt64 n).

(** JS_NewFloat64, by the bits: a double that is an integer of 32 bits becomes one. *)
Definition int_of_double (bits : Z) : option Z :=
  let sign := Z.shiftr bits 63 mod 2 in
  let e := Z.shiftr bits 52 mod 2 ^ 11 - 1023 in
  let m := 2 ^ 52 + bits mod 2 ^ 52 in
  if bits =? 0 then Some 0
  else if (0 <=? e) && (e <=? 31) && (m mod 2 ^ (52 - e) =? 0) then
    let n := (if sign =? 0 then 1 else -1) * (m / 2 ^ (52 - e)) in
    if (- 2 ^ 31 <=? n) && (n <? 2 ^ 31) then Some n else None
  else None.

Definition JS_NewFloat64 (bits : Z) : M JSValue :=
  match int_of_double bits with Some n => mret (JS_INT n) | None => js_new (BDouble bits) end.

(** ** wasm3 *)

Section Wasm3.
(** The parser (the number of an error, or the functions), the execution of a function on its
    arguments (an error or the first slot of the stack), and the texts of errors. *)
Context (wasm_parse : bytes → Z + list M3Function) (wasm_exec : M3Function → list Z → Z + Z) (m3Err : Z → bytes).

Definition m3Err_mallocFailed : Z := 1.
Definition m3Err_argumentCountMismatch : Z := 2.
Definition m3Err_functionLookupFailed : Z := 3.
Definition m3Err_noModules : Z := 4.
Definition m3Err_unknownArgument : Z := 5.
Definition m3Err_missingCompiledCode : Z := 6.

Definition get_m3module (p : addr) : M M3Module :=
  c ← load p ; match c with CM3Module m => mret m | _ => fail TypeConfusion end.
Definition get_m3runtime (p : addr) : M (list addr) :=
  c ← load p ; match c with CM3Runtime ms => mret ms | _ => fail TypeConfusion end.
Definition get_code (p : addr) : M bytes :=
  c ← load p ; match c with CStr b => mret b | _ => fail TypeConfusion end.

(** An error, or the module; the functions point into the binary. *)
Definition m3_ParseModule (code : addr) : M (Z + addr) :=
  b ← get_code code ;
  r ← ask "m3_ParseModule" [] ;
  if negb (r =? 0) then mret (inl m3Err_mallocFailed)
  else
    match wasm_parse b with
    | inl e => mret (inl e)
    | inr fs => p ← c_alloc ByM3 (CM3Module (mkM3Module code fs)) ; mret (inr p)
    end.

Definition m3_NewRuntime : M (option addr) :=
  r ← ask "m3_NewRuntime" [] ;
  if r =? 0 then (p ← c_alloc ByM3 (CM3Runtime []) ; mret (Some p)) else mret None.

(** Memory, globals, data segments and elements first, then the module is linked, then its start function runs.
    0, or the error. *)
Definition m3_LoadModule (rt m : addr) : M Z :=
  _ ← get_m3module m ;
  ms ← get_m3runtime rt ;
  r ← ask "InitModule" [AP m] ;
  if negb (r =? 0) then mret r
  else
    store rt (CM3Runtime (m :: ms)) ;;
    ask "InitStartFunc" [AP m].

Definition m3_FreeModule (p : addr) : M unit := _ ← get_m3module p ; c_free ByM3 p.

Fixpoint free_modules (ms : list addr) : M unit :=
  match ms with
  | [] => mret tt
  | m :: ms => m3_FreeModule m ;; free_modules ms
  end.

Definition m3_FreeRuntime (rt : addr) : M unit :=
  ms ← get_m3runtime rt ; free_modules ms ;; c_free ByM3 rt.

(** strcmp of a name with a string that ends at its first NUL *)
Definition named (name : bytes) (f : M3Function) : bool :=
  match fn_name f with Some n => bool_decide (n = default name (c_string name)) | None => false end.

Fixpoint find_named (name : bytes) (fs : list M3Function) : option nat :=
  match fs with
  | [] => None
  | f :: fs => if named name f then Some 0%nat else S <$> find_named name fs
  end.

Definition compiled (f : M3Function) : M3Function := mkM3Function (fn_name f) (fn_args f) (fn_ret f) true.

(** The first module with a function of that name, compiled now if it was not. *)
Fixpoint find_function (name : bytes) (ms : list addr) : M (Z + (addr * nat)) :=
  match ms with
  | [] => mret (inl m3Err_functionLookupFailed)
  | p :: ms =>
      m ← get_m3module p ;
      match find_named name (m3_functions m) with
      | None => find_function name ms
      | Some i =>
          match m3_functions m !! i with
          | None => fail OutOfBounds
          | Some f =>
              if fn_compiled f then mret (inr (p, i))
              else
                _ ← get_code (m3_code m) ;
                r ← ask "Compile_Function" [AP p; AZ (Z.of_nat i)] ;
                if negb (r =? 0) then mret (inl r)
                else
                  store p (CM3Module (mkM3Module (m3_code m) (<[i := compiled f]> (m3_functions m)))) ;;
                  mret (inr (p, i))
          end
      end
  end.

Definition m3_FindFunction (rt : addr) (name : bytes) : M (Z + (addr * nat)) :=
  ms ← get_m3runtime rt ;
  match ms with
  | [] => mret (inl m3Err_noModules)
  | _ => find_function name ms
  end.

Definition get_function (fn : addr * nat) : M M3Function :=
  m ← get_m3module fn.1 ;
  match m3_functions m !! fn.2 with Some f => mret f | None => fail OutOfBounds end.

(** The arguments as the types of the function have them; a NULL string is read. *)
Fixpoint read_args (tys : list m3_type) (argv : list (option bytes)) : M (option (list Z)) :=
  match tys with
  | [] => mret (Some [])
  | ty :: tys =>
      match argv with
      | [] => fail OutOfBounds
      | a :: argv =>
          match ty with
          | c_m3Type_none => mret None
          | c_m3Type_i32 | c_m3Type_f32 =>
              match a with
              | None => fail NullDeref
              | Some s => r ← read_args tys argv ; mret ((λ l, strtoull s mod 2 ^ 32 :: l) <$> r)
              end
          | c_m3Type_i64 | c_m3Type_f64 =>
              match a with
              | None => fail NullDeref
              | Some s => r ← read_args tys argv ; mret ((λ l, strtoull s :: l) <$> r)
              end
          end
      end
  end.

(** An error, or the first slot of the stack. *)
Definition m3_CallWithArgs (fn : addr * nat) (argv : list (option bytes)) : M (Z + Z) :=
  f ← get_function fn ;
  if fn_compiled f then
    let argc := if bool_decide (fn_name f = Some (lit "_start")) then 0%nat else length argv in
    if negb (argc =? length (fn_args f))%nat then mret (inl m3Err_argumentCountMismatch)
    else
      args ← read_args (fn_args f) argv ;
      match args with
      | None => mret (inl m3Err_unknownArgument)
      | Some l => log "m3_Call" (AZ <$> l) ;; mret (wasm_exec f l)
      end
  else mret (inl m3Err_missingCompiledCode).

Definition m3_Call (fn : addr * nat) : M (Z + Z) := m3_CallWithArgs fn [].

(** ** Classes *)

Definition get_wm (p : addr) : M IJJSWasmModule :=
  c ← load p ; match c with CWasmModule m => mret m | _ => fail TypeConfusion end.
Definition get_wi (p : addr) : M IJJSWasmInstance :=
  c ← load p ; match c with CWasmInstance i => mret i | _ => fail TypeConfusion end.

Definition ijWasmModuleFinalizer (val : JSValue) : M unit :=
  o ← JS_GetOpaque val cls_wasm_module ;
  match o with
  | None => mret tt
  | Some p =>
      m ← get_wm p ;
      (match wm_module m with Some md => m3_FreeModule md | None => mret tt end) ;;
      js_free_opt (wm_bytes m) ;;
      js_free p
  end.

Definition ijWasmInstanceFinalizer (val : JSValue) : M unit :=
  o ← JS_GetOpaque val cls_wasm_instance ;
  match o with
  | None => mret tt
  | Some p =>
      i ← get_wi p ;
      (match wi_module i with
       | Some md => if wi_loaded i then mret tt else m3_FreeModule md
       | None => mret tt
       end) ;;
      (match wi_runtime i with Some rt => m3_FreeRuntime rt | None => mret tt end) ;;
      js_free p
  end.

(** An object of a class over a zeroed structure. *)
Definition new_object (c : class_id) (z : cstruct) : M JSValue :=
  obj ← JS_NewObjectClass c ;
  if JS_IsException obj then mret obj
  else
    o ← js_malloc z ;
    match o with
    | None => JS_FreeValue obj ;; mret JS_EXCEPTION
    | Some p => JS_SetOpaque obj p ;; mret obj
    end.

Definition ijNewWasmModule : M JSValue := new_object cls_wasm_module (CWasmModule (mkWasmModule None None 0)).
Definition ijNewWasmInstance : M JSValue := new_object cls_wasm_instance (CWasmInstance (mkWasmInstance None None false)).

Definition ijWasmModuleGet (obj : JSValue) : M (option addr) := JS_GetOpaque2 obj cls_wasm_module.
Definition ijWasmInstanceGet (obj : JSValue) : M (option addr) := JS_GetOpaque2 obj cls_wasm_instance.

Definition ijThrowWasmError (name : string) (r : Z) : M JSValue :=
  obj ← js_try_new "JS_NewError" (BError []) ;
  s ← JS_NewString (m3Err r) ;
  JS_DefinePropertyValueStr obj "message" s ;;
  s ← JS_NewString (lit name) ;
  JS_DefinePropertyValueStr obj "wasmError" s ;;
  JS_Throw (if JS_IsException obj then JS_NULL else obj).

(** ** Functions *)

(** The strings of the arguments, NULL for one that cannot be converted. *)
Fixpoint call_args (argv : list JSValue) : M (list (option (addr * bytes))) :=
  match argv with
  | [] => mret []
  | v :: argv => s ← JS_ToCString v ; l ← call_args argv ; mret (s :: l)
  end.

Definition arg_string (o : option (addr * bytes)) : option bytes := snd <$> o.

(** JS_FreeCString, which does nothing for NULL *)
Fixpoint free_args (l : list (option (addr * bytes))) : M unit :=
  match l with
  | [] => mret tt
  | o :: l => (match o with Some (q, _) => JS_FreeCString q | None => mret tt end) ;; free_args l
  end.

(** The value in the first slot. *)
Definition return_value (ty : m3_type) (slot : Z) : M JSValue :=
  match ty with
  | c_m3Type_i32 => mret (JS_NewInt32 (signed32 slot))
  | c_m3Type_i64 =>
      let val := signed64 slot in
      if val =? signed32 val then mret (JS_NewInt32 (signed32 val)) else JS_NewBigInt64 val
  | c_m3Type_f32 => JS_NewFloat64 (f32_to_f64 (slot mod 2 ^ 32))
  | c_m3Type_f64 => JS_NewFloat64 slot
  | c_m3Type_none => mret JS_UNDEFINED
  end.

(** [argv] is padded, [argc] the number of arguments given. *)
Definition ijWasmCallFunction (this : JSValue) (argc : nat) (argv : list JSValue) : M JSValue :=
  o ← ijWasmInstanceGet this ;
  match o with
  | None => mret JS_EXCEPTION
  | Some p =>
      a0 ← arg_at argv 0 ;
      fname ← JS_ToCString a0 ;
      match fname with
      | None => mret JS_EXCEPTION
      | Some (q, name) =>
          i ← get_wi p ;
          rt ← deref (wi_runtime i) ;
          func ← m3_FindFunction rt name ;
          match func with
          | inl r => JS_FreeCString q ;; ijThrowWasmError "RuntimeError" r
          | inr fn =>
              JS_FreeCString q ;;
              r ← (match argc with
                   | O => fail OutOfBounds
                   | 1%nat => m3_Call fn
                   | S nargs =>
                       m3_argv ← call_args (take nargs (drop 1 argv)) ;
                       r ← m3_CallWithArgs fn (arg_string <$> m3_argv) ;
                       free_args m3_argv ;;
                       mret r
                   end) ;
              match r with
              | inl e => ijThrowWasmError "RuntimeError" e
              | inr slot => f ← get_function fn ; return_value (fn_ret f) slot
              end
          end
      end
  end.

Definition ijWasmLinkWasi (this : JSValue) (argv : list JSValue) : M JSValue :=
  o ← ijWasmInstanceGet this ;
  match o with
  | None => mret JS_EXCEPTION
  | Some p =>
      i ← get_wi p ;
      md ← deref (wi_module i) ;
      _ ← get_m3module md ;
      r ← ask "m3_LinkWASI" [AP md] ;
      if negb (r =? 0) then ijThrowWasmError "LinkError" r else mret JS_UNDEFINED
  end.

Definition put_wi (p : addr) (i : IJJSWasmInstance) : M unit := store p (CWasmInstance i).
Definition put_wm (p : addr) (m : IJJSWasmModule) : M unit := store p (CWasmModule m).

Definition ijWasmBuildInstance (this : JSValue) (argv : list JSValue) : M JSValue :=
  a0 ← arg_at argv 0 ;
  o ← ijWasmModuleGet a0 ;
  match o with
  | None => mret JS_EXCEPTION
  | Some m =>
      obj ← ijNewWasmInstance ;
      if JS_IsException obj then mret obj
      else
        o ← ijWasmInstanceGet obj ;
        m ← get_wm m ;
        i ← deref o ;
        code ← deref (wm_bytes m) ;
        r ← m3_ParseModule code ;
        match r with
        | inl _ => abort
        | inr md =>
            put_wi i (mkWasmInstance None (Some md) false) ;;
            rt ← m3_NewRuntime ;
            put_wi i (mkWasmInstance rt (Some md) false) ;;
            match rt with
            | None => JS_FreeValue obj ;; js_raise ;; mret JS_EXCEPTION
            | Some rt =>
                r ← m3_LoadModule rt md ;
                if negb (r =? 0) then JS_FreeValue obj ;; ijThrowWasmError "LinkError" r
                else put_wi i (mkWasmInstance (Some rt) (Some md) true) ;; mret obj
            end
        end
  end.

Fixpoint export_items (exports : JSValue) (fs : list M3Function) : M unit :=
  match fs with
  | [] => mret tt
  | f :: fs =>
      (match fn_name f with
       | None => mret tt
       | Some n =>
           item ← JS_NewObjectProto ;
           s ← JS_NewString n ;
           JS_DefinePropertyValueStr item "name" s ;;
           s ← JS_NewString (lit "function") ;
           JS_DefinePropertyValueStr item "kind" s ;;
           JS_DefinePropertyValueUint32 exports item
       end) ;;
      export_items exports fs
  end.

Definition ijWasmModuleExports (this : JSValue) (argv : list JSValue) : M JSValue :=
  a0 ← arg_at argv 0 ;
  o ← ijWasmModuleGet a0 ;
  match o with
  | None => mret JS_EXCEPTION
  | Some p =>
      exports ← js_try_new "JS_NewArray" (BArray []) ;
      if JS_IsException exports then mret exports
      else
        m ← get_wm p ;
        md ← deref (wm_module m) ;
        md ← get_m3module md ;
        export_items exports (m3_functions md) ;;
        mret exports
  end.

(** The bytes of an array buffer or of a typed array. *)
Definition source_bytes (v : JSValue) : M (option bytes) :=
  buf ← JS_GetArrayBuffer v ;
  match buf with
  | Some b => mret (Some b)
  | None =>
      ta ← JS_GetTypedArrayBuffer v ;
      match ta with
      | None => mret None
      | Some (abuf, aoffset, asize) =>
          buf ← JS_GetArrayBuffer abuf ;
          JS_FreeValue abuf ;;
          mret ((λ b, take (Z.to_nat asize) (drop (Z.to_nat aoffset) b)) <$> buf)
      end
  end.

Definition ijWasmParseModule (this : JSValue) (argv : list JSValue) : M JSValue :=
  a0 ← arg_at argv 0 ;
  src ← source_bytes a0 ;
  match src with
  | None => mret JS_EXCEPTION
  | Some buf =>
      obj ← ijNewWasmModule ;
      o ← ijWasmModuleGet obj ;
      m ← deref o ;
      b ← js_malloc (CStr buf) ;
      x ← get_wm m ;
      put_wm m (mkWasmModule (wm_module x) b (wm_size x)) ;;
      match b with
      | None => JS_FreeValue obj ;; mret JS_EXCEPTION
      | Some code =>
          put_wm m (mkWasmModule None (Some code) (Z.of_nat (length buf))) ;;
          r ← m3_ParseModule code ;
          match r with
          | inl e => JS_FreeValue obj ;; ijThrowWasmError "CompileError" e
          | inr md =>
              put_wm m (mkWasmModule (Some md) (Some code) (Z.of_nat (length buf))) ;;
              mret obj
          end
      end
  end.

Definition ijjs_wasm_funcs : list cfunction :=
  [CFUNC "buildInstance" 1 ijWasmBuildInstance;
   CFUNC "moduleExports" 1 ijWasmModuleExports;
   CFUNC "parseModule" 1 ijWasmParseModule].
End Wasm3.
