(* ===== verification/WasmProofs.v ===== *)
(** * WebAssembly: theorems

    The life of modules and instances, and calls of functions. *)

From S2P Require Import Prelude State Runtime Logic Promise Worlds CurlProofs XhrHeaders XhrEnd Wasm.

(** ** Objects in memory *)

(** Object [o], its structure [p], the module of wasm3 and the block with the binary. *)
Record module_at (w : World) (o p md code : addr) (b : bytes) (fs : list M3Function) : Prop := {
  ma_obj : w_cell w !! o = Some (BClass cls_wasm_module (Some p));
  ma_mem : w_mem w !! p = Some (ByJs, CWasmModule (mkWasmModule (Some md) (Some code) (Z.of_nat (length b))));
  ma_md : w_mem w !! md = Some (ByM3, CM3Module (mkM3Module code fs));
  ma_code : w_mem w !! code = Some (ByJs, CStr b)
}.

Record instance_at (w : World) (o p rt md code : addr) (fs : list M3Function) : Prop := {
  ia_obj : w_cell w !! o = Some (BClass cls_wasm_instance (Some p));
  ia_mem : w_mem w !! p = Some (ByJs, CWasmInstance (mkWasmInstance (Some rt) (Some md) true));
  ia_rt : w_mem w !! rt = Some (ByM3, CM3Runtime [md]);
  ia_md : w_mem w !! md = Some (ByM3, CM3Module (mkM3Module code fs))
}.

Lemma wp_get_m3module p al m (Q : M3Module → World → Prop) w :
  w_mem w !! p = Some (al, CM3Module m) → Q m w → wp (get_m3module p) Q w.
Proof. intros Hp HQ. unfold get_m3module. wp_step. eapply wp_load; [done|]. by wp_steps. Qed.
Lemma wp_get_m3runtime p al ms (Q : list addr → World → Prop) w :
  w_mem w !! p = Some (al, CM3Runtime ms) → Q ms w → wp (get_m3runtime p) Q w.
Proof. intros Hp HQ. unfold get_m3runtime. wp_step. eapply wp_load; [done|]. by wp_steps. Qed.
Lemma wp_get_code p al b (Q : bytes → World → Prop) w :
  w_mem w !! p = Some (al, CStr b) → Q b w → wp (get_code p) Q w.
Proof. intros Hp HQ. unfold get_code. wp_step. eapply wp_load; [done|]. by wp_steps. Qed.
Lemma wp_get_wm p al m (Q : IJJSWasmModule → World → Prop) w :
  w_mem w !! p = Some (al, CWasmModule m) → Q m w → wp (get_wm p) Q w.
Proof. intros Hp HQ. unfold get_wm. wp_step. eapply wp_load; [done|]. by wp_steps. Qed.
Lemma wp_get_wi p al i (Q : IJJSWasmInstance → World → Prop) w :
  w_mem w !! p = Some (al, CWasmInstance i) → Q i w → wp (get_wi p) Q w.
Proof. intros Hp HQ. unfold get_wi. wp_step. eapply wp_load; [done|]. by wp_steps. Qed.

Lemma wp_m3_FreeModule p m (Q : unit → World → Prop) w :
  w_mem w !! p = Some (ByM3, CM3Module m) → Q tt (set_mem (delete p (w_mem w)) w) → wp (m3_FreeModule p) Q w.
Proof. intros Hp HQ. unfold m3_FreeModule. wp_step. eapply wp_get_m3module; [done|]. by eapply wp_c_free. Qed.

(** ** Finalizers *)

Lemma module_finalized w o p md code b fs (Q : unit → World → Prop) :
  module_at w o p md code b fs →
  (∀ w', w_env w' = w_env w → w_cell w' = w_cell w → (∀ a, rc w' a = rc w a) →
     w_mem w' = delete p (delete code (delete md (w_mem w))) → Q tt w') →
  wp (ijWasmModuleFinalizer (JS_REF o)) Q w.
Proof.
  intros [Ho Hp Hm Hc] HQ. unfold ijWasmModuleFinalizer. wp_step. eapply wp_GetOpaque_class; [done|].
  wp_step. eapply wp_get_wm; [done|]. cbn [wm_module wm_bytes]. wp_step. eapply wp_m3_FreeModule; [done|]. wp_step.
  unfold js_free_opt, js_free. eapply wp_c_free; [lookup_tac|done|]. eapply wp_c_free; [lookup_tac|done|].
  apply HQ; by world_simpl.
Qed.

Lemma instance_finalized w o p rt md code fs (Q : unit → World → Prop) :
  instance_at w o p rt md code fs →
  (∀ w', w_env w' = w_env w → w_cell w' = w_cell w → (∀ a, rc w' a = rc w a) →
     w_mem w' = delete p (delete rt (delete md (w_mem w))) → Q tt w') →
  wp (ijWasmInstanceFinalizer (JS_REF o)) Q w.
Proof.
  intros [Ho Hp Hr Hm] HQ. unfold ijWasmInstanceFinalizer. wp_step. eapply wp_GetOpaque_class; [done|].
  wp_step. eapply wp_get_wi; [done|]. cbn [wi_module wi_loaded wi_runtime]. do 3 wp_step. unfold m3_FreeRuntime.
  wp_step. eapply wp_get_m3runtime; [done|]. cbn [free_modules]. wp_step. wp_step. eapply wp_m3_FreeModule; [done|]. wp_step.
  eapply wp_c_free; [lookup_tac|done|]. unfold js_free. eapply wp_c_free; [lookup_tac|done|].
  apply HQ; by world_simpl.
Qed.

(** ** Objects are made *)

Record made (w w' : World) (o p : addr) (c : class_id) (z : cstruct) : Prop := {
  md_env : w_env w' = w_env w;
  md_mem : w_mem w' = <[p := (ByJs, z)]> (w_mem w);
  md_fresh : w_mem w !! p = None;
  md_cell : w_cell w' = <[o := BClass c (Some p)]> (w_cell w);
  md_new : w_cell w !! o = None;
  md_rc : ∀ a, rc w' a = rc w a + cnt a [o];
  md_live : 0 ≤ rc w o
}.

Lemma wp_new_object c z (Q : JSValue → World → Prop) w :
  nonneg w →
  (∀ w', quiet w w' → Q JS_EXCEPTION w') →
  (∀ o p w', made w w' o p c z → Q (JS_REF o) w') →
  wp (new_object c z) Q w.
Proof.
  intros Hn HE HQ. unfold new_object, JS_NewObjectClass. wp_step. apply wp_try_new; last first.
  { intros w' Hq. wp_steps. by apply HE. }
  intros o Ho Ro. cbn [JS_IsException]. wp_step. apply wp_js_malloc.
  - intros p Hp. world_simpl_in Hp. unfold JS_SetOpaque. wp_step. wp_step. wp_step. apply (HQ o p). split; try done.
    + world_simpl. by rewrite alter_insert_eq.
    + intros a. world_simpl. lia.
  - intros w' [E1 M1 R1 C1]. wp_step. apply wp_FreeValue.
    { apply holds_one. rewrite R1. world_simpl. case_decide; [lia|done]. }
    wp_step. apply HE. split; world_simpl.
    + by rewrite ?E1.
    + by rewrite ?M1.
    + intros a. rewrite ?R1. world_simpl. case_decide; lia.
    + intros a b Hb. apply C1. world_simpl. rewrite lookup_insert_ne; [done|]. congruence.
Qed.

(** There is memory for objects. *)
Definition objects_work (e : env) : Prop :=
  ∀ args l, e_int e (Ev "JS_NewObjectClass" args :: l) = 0 ∧ e_int e (Ev "js_malloc" args :: l) = 0.

Lemma wp_new_object_ok c z (Q : JSValue → World → Prop) w :
  nonneg w → objects_work (w_env w) → (∀ o p w', made w w' o p c z → Q (JS_REF o) w') → wp (new_object c z) Q w.
Proof.
  intros Hn He HQ. unfold new_object, JS_NewObjectClass, js_try_new. wp_step. wp_step. apply wp_ask_eq. intros z' ->.
  rewrite (proj1 (He _ _)). cbn [Z.eqb]. apply wp_js_new. intros o Ho Ro. cbn [JS_IsException]. wp_step. apply wp_js_malloc_ok; [apply (He [])|].
  intros p Hp. world_simpl_in Hp. unfold JS_SetOpaque. wp_step. wp_step. wp_step. apply (HQ o p). split; try done.
  - world_simpl. by rewrite alter_insert_eq.
  - intros a. world_simpl. lia.
Qed.

(** ** Errors *)

(** A string handed over to a property of an object [w] does not have. *)
Lemma wp_string_prop w obj name s l (Q : unit → World → Prop) w1 :
  gives w w1 l → (ref_of obj = [] ∨ ∃ a, obj = JS_REF a ∧ w_cell w !! a = None) →
  (∀ w2, gives w w2 l → Q tt w2) →
  wp (v ← JS_NewString s ; JS_DefinePropertyValueStr obj name v) Q w1.
Proof.
  intros Hg Ho HQ. wp_step. apply wp_js_new. intros m Hm Rm. apply wp_DefinePropertyValueStr.
  { apply holds_one. world_simpl. rewrite decide_True by done. lia. }
  apply HQ. assert (Hw2 := gives_then_quiet _ _ _ _ Hg (quiet_drop_new m (BString s) w1 Hm)).
  destruct Ho as [Ho|(a & -> & Ha)]; [by apply gives_update_imm|by apply gives_update_new].
Qed.

Lemma quietly_ijThrowWasmError m3Err name r : quietly (ijThrowWasmError m3Err name r) (λ v, v = JS_EXCEPTION).
Proof.
  intros w. unfold ijThrowWasmError. wp_step.
  assert (H : ∀ v w1, gives w w1 (ref_of v) → (v = JS_EXCEPTION ∨ ∃ a, v = JS_REF a ∧ w_cell w !! a = None) →
    wp (s ← JS_NewString (m3Err r) ; JS_DefinePropertyValueStr v "message" s ;; s ← JS_NewString (lit name) ;
        JS_DefinePropertyValueStr v "wasmError" s ;; JS_Throw (if JS_IsException v then JS_NULL else v))
       (λ v w', quiet w w' ∧ v = JS_EXCEPTION) w1).
  { intros v w1 Hg Hv.
    assert (Hv' : ref_of v = [] ∨ ∃ a, v = JS_REF a ∧ w_cell w !! a = None) by naive_solver.
    apply wp_assoc. wp_step. eapply wp_string_prop; [done|done|]. intros w2 Hg2.
    apply wp_assoc. wp_step. eapply wp_string_prop; [done|done|]. intros w3 Hg3.
    assert (Hd : ∀ e, quiet w (set_exc e (drop_ref v w3))).
    { intros e. destruct Hg3 as [E Mm R C Hh]. split; world_simpl; try done. intros a. world_simpl. lia. }
    apply gives_holds in Hg3.
    destruct Hv as [->|(a & -> & Ha)]; cbn [JS_IsException]; unfold JS_Throw; wp_step; (apply wp_FreeValue; [done|]); wp_steps;
      (split; [apply Hd|done]). }
  apply wp_try_new.
  - intros a Ha Ra. apply H; [|right; by exists a].
    eapply quiet_gives; [apply (quiet_log_ev (Ev "JS_NewError" []))|]. by apply gives_new_cell.
  - intros w' Hw. apply H; [by apply gives_quiet|by left].
Qed.

(** ** Instances *)

(** The binary of a module parses again. *)
Definition m3_parses (e : env) : Prop := ∀ args l, e_int e (Ev "m3_ParseModule" args :: l) = 0.

(** The answers of loading a module into a runtime. *)
Definition m3_init (e : env) (r : Z) : Prop := ∀ args l, e_int e (Ev "InitModule" args :: l) = r.
Definition m3_start (e : env) (r : Z) : Prop := ∀ args l, e_int e (Ev "InitStartFunc" args :: l) = r.

(** The structures of an instance: [rt] is [None] when there was no memory for a runtime. *)
Record built (w w' : World) (o p : addr) (rt : option addr) (md code : addr) (fs : list M3Function) (ms : list addr)
    (loaded : bool) (held : list addr) : Prop := {
  bt_env : w_env w' = w_env w;
  bt_obj : w_cell w' !! o = Some (BClass cls_wasm_instance (Some p));
  bt_cells : ∀ a c, w_cell w !! a = Some c → w_cell w' !! a = Some c;
  bt_mem : w_mem w' = match rt with Some rt => <[rt := (ByM3, CM3Runtime ms)]> | None => id end
             (<[md := (ByM3, CM3Module (mkM3Module code fs))]>
             (<[p := (ByJs, CWasmInstance (mkWasmInstance rt (Some md) loaded))]> (w_mem w)));
  bt_rc : ∀ a, rc w' a = rc w a + cnt a held;
  bt_p : w_mem w !! p = None;
  bt_md : w_mem w !! md = None ∧ md ≠ p;
  bt_rt : ∀ a, rt = Some a → w_mem w !! a = None ∧ a ≠ p ∧ a ≠ md
}.

Section Wasm3.
Context (wasm_parse : bytes → Z + list M3Function) (m3Err : Z → bytes).

Lemma wp_m3_ParseModule code al b fs (Q : Z + addr → World → Prop) w :
  w_mem w !! code = Some (al, CStr b) → wasm_parse b = inr fs → m3_parses (w_env w) →
  (∀ md w', w_mem w !! md = None → w_env w' = w_env w → w_cell w' = w_cell w → (∀ a, rc w' a = rc w a) →
     w_mem w' = <[md := (ByM3, CM3Module (mkM3Module code fs))]> (w_mem w) → Q (inr md) w') →
  wp (m3_ParseModule wasm_parse code) Q w.
Proof.
  intros Hc Hp He HQ. unfold m3_ParseModule. wp_step. eapply wp_get_code; [done|]. wp_step. apply wp_ask_eq. intros z ->.
  rewrite He. cbn [negb Z.eqb]. rewrite Hp. wp_step. apply wp_c_alloc. intros md Hmd. wp_step. apply HQ; by world_simpl.
Qed.

(** Loading: an error before the module is linked, or the result of its start function after. *)
Lemma wp_m3_LoadModule rt md m (Q : Z → World → Prop) w :
  w_mem w !! md = Some (ByM3, CM3Module m) → w_mem w !! rt = Some (ByM3, CM3Runtime []) →
  (∀ r w', r ≠ 0 → ¬ m3_init (w_env w) 0 → only_mem (w_mem w) w w' → Q r w') →
  (∀ r w', (∀ r', m3_start (w_env w) r' → r = r') → only_mem (<[rt := (ByM3, CM3Runtime [md])]> (w_mem w)) w w' → Q r w') →
  wp (m3_LoadModule rt md) Q w.
Proof.
  intros Hm Hr H1 H2. unfold m3_LoadModule. wp_step. eapply wp_get_m3module; [done|]. wp_step. eapply wp_get_m3runtime; [done|].
  wp_step. apply wp_ask_eq. intros z Hz. destruct (z =? 0) eqn:E; cbn [negb].
  - wp_step. eapply wp_store; [lookup_tac|]. apply wp_ask_eq. intros z' Hz'. apply H2.
    + intros r' Hs. world_simpl_in Hz'. by rewrite Hs in Hz'.
    + by split.
  - wp_step. apply H1; [by apply Z.eqb_neq| |by split]. intros Hi. rewrite Hi in Hz. subst z. done.
Qed.

(** An instance that is given up: its object is released, an error is thrown. *)
Lemma wp_give_up w w1 o p rt md code fs ms (m : M JSValue) (Q : JSValue → World → Prop) :
  nonneg w → quietly m (λ v, v = JS_EXCEPTION) → built w w1 o p rt md code fs ms false [o] →
  (∀ w', built w w' o p rt md code fs ms false [] → Q JS_EXCEPTION w') →
  wp (JS_FreeValue (JS_REF o) ;; m) Q w1.
Proof.
  intros Hn Hm [E1 O1 C1 M1 R1 P1 D1 T1] HQ. wp_step. apply wp_FreeValue.
  { apply holds_one. rewrite R1, cnt_cons, cnt_nil. specialize (Hn o). case_decide; [lia|done]. }
  eapply wp_quietly; [exact Hm|]. intros v w2 -> [E2 M2 R2 C2]. apply HQ. split; try done.
  - rewrite E2. by world_simpl.
  - apply C2. by world_simpl.
  - intros a c Ha. apply C2. world_simpl. by apply C1.
  - rewrite M2. by world_simpl.
  - intros a. rewrite R2. world_simpl. rewrite ?R1. simpl. world_simpl. lia.
Qed.

(** buildInstance: the ways it can end. *)
Lemma build_instance w o p0 md0 code b fs this (Q : JSValue → World → Prop) :
  nonneg w → module_at w o p0 md0 code b fs → wasm_parse b = inr fs → m3_parses (w_env w) →
  (∀ w', quiet w w' → Q JS_EXCEPTION w') →
  (∀ o' p md w', built w w' o' p None md code fs [] false [] → Q JS_EXCEPTION w') →
  (∀ o' p rt md w', ¬ m3_init (w_env w) 0 → built w w' o' p (Some rt) md code fs [] false [] → Q JS_EXCEPTION w') →
  (∀ o' p rt md w', ¬ m3_start (w_env w) 0 → built w w' o' p (Some rt) md code fs [md] false [] → Q JS_EXCEPTION w') →
  (∀ o' p rt md w', (∀ r, m3_start (w_env w) r → r = 0) → built w w' o' p (Some rt) md code fs [md] true [o'] → Q (JS_REF o') w') →
  wp (ijWasmBuildInstance wasm_parse m3Err this [JS_REF o]) Q w.
Proof.
  intros Hn [Ho Hp0 Hmd0 Hcode] Hparse He H0 H1 H2 H3 H4. unfold ijWasmBuildInstance, put_wi. wp_step. eapply wp_arg_at; [done|]. wp_step.
  eapply wp_GetOpaque2_class; [done|]. wp_step. apply wp_new_object; [done| |].
  { intros w' Hq. cbn [JS_IsException]. wp_step. by apply H0. }
  intros o' p w1 [E1 M1 Hp C1 Ho' R1 L1]. cbn [JS_IsException]. wp_step.
  eapply wp_GetOpaque2_class; [simpl; rewrite C1; apply lookup_insert_eq|]. wp_step.
  assert (Hpc : p ≠ code ∧ p ≠ p0) by (split; congruence). destruct Hpc as [Hpc Hpp].
  eapply wp_get_wm; [rewrite M1, lookup_insert_ne by done; exact Hp0|]. cbn [deref wm_bytes]. do 2 wp_step. do 2 wp_step. wp_step.
  eapply wp_m3_ParseModule; [rewrite M1, lookup_insert_ne by done; exact Hcode|done|by rewrite E1|].
  intros md w2 Hmd E2 C2 R2 M2. rewrite M1 in Hmd, M2. apply lookup_insert_None in Hmd as [Hmd Hmdp]. wp_step.
  eapply wp_store; [rewrite M2, lookup_insert_ne, lookup_insert_eq by done; done|]. unfold m3_NewRuntime. wp_step. wp_step. apply wp_ask. intros z.
  set (i := λ rt, mkWasmInstance rt (Some md) false).
  assert (B : ∀ w3 rt ms, w_env w3 = w_env w2 → w_cell w3 = w_cell w2 → (∀ a, rc w3 a = rc w2 a) →
    w_mem w3 = match rt with Some rt => <[rt := (ByM3, CM3Runtime ms)]> | None => id end
      (<[md := (ByM3, CM3Module (mkM3Module code fs))]> (<[p := (ByJs, CWasmInstance (i rt))]> (w_mem w))) →
    (∀ a, rt = Some a → w_mem w !! a = None ∧ a ≠ p ∧ a ≠ md) → built w w3 o' p rt md code fs ms false [o']).
  { intros w3 rt ms E3 C3 R3 M3 T3. split; try done.
    - by rewrite E3, E2.
    - rewrite C3, C2, C1. apply lookup_insert_eq.
    - intros a c Ha. rewrite C3, C2, C1. rewrite lookup_insert_ne; [done|]. congruence.
    - intros a. rewrite R3, R2, R1. done. }
  destruct (z =? 0).
  - wp_step. apply wp_c_alloc. intros rt Hrt. rewrite mem_log_ev, mem_set_mem, M2 in Hrt.
    apply lookup_insert_None in Hrt as [Hrt Hrp]. apply lookup_insert_None in Hrt as [Hrt Hrm]. apply lookup_insert_None in Hrt as [Hrt _].
    wp_step. wp_step. eapply wp_store; [world_simpl; rewrite lookup_insert_ne, lookup_insert_eq by done; done|].
    set (w3 := set_mem _ _).
    assert (M3 : w_mem w3 = <[rt := (ByM3, CM3Runtime [])]> (<[md := (ByM3, CM3Module (mkM3Module code fs))]>
      (<[p := (ByJs, CWasmInstance (i (Some rt)))]> (w_mem w)))).
    { subst w3. rewrite mem_set_mem, mem_new_block, mem_log_ev, mem_set_mem, M2.
      rewrite (insert_insert_ne _ p rt), insert_insert_eq, (insert_insert_ne _ p md), insert_insert_eq by done. done. }
    assert (K3 : w_env w3 = w_env w2 ∧ w_cell w3 = w_cell w2 ∧ ∀ a, rc w3 a = rc w2 a) by (subst w3; by world_simpl).
    clearbody w3. destruct K3 as (E3 & C3 & R3).
    wp_step. eapply wp_m3_LoadModule.
    { rewrite M3, lookup_insert_ne, lookup_insert_eq by done. done. }
    { rewrite M3, lookup_insert_eq. done. }
    + intros r w4 Hr Hi [E4 C4 R4 M4]. apply Z.eqb_neq in Hr. rewrite Hr. cbn [negb].
      eapply (wp_give_up w w4 o' p (Some rt) md code fs []); [done|apply quietly_ijThrowWasmError| |].
      * apply B; [congruence|congruence|intros a; by rewrite R4|by rewrite M4|]. intros a [= <-]. done.
      * intros w5 Hb. eapply H2; [|exact Hb]. intros Hi0. apply Hi. intros ? ?. rewrite E3, E2, E1. apply Hi0.
    + intros r w4 Hs [E4 C4 R4 M4]. rewrite M3, insert_insert_eq in M4. destruct (r =? 0) eqn:Er; cbn [negb].
      * wp_step. eapply wp_store; [rewrite M4, lookup_insert_ne, lookup_insert_ne, lookup_insert_eq by done; done|]. wp_step.
        eapply (H4 o' p rt md).
        { intros r' Hr'. apply Z.eqb_eq in Er. rewrite <- Er. symmetry. apply Hs. intros ? ?. rewrite E3, E2, E1. apply Hr'. }
        specialize (B w4 (Some rt) [md]). destruct B as [B1 B2 B3 B4 B5 B6 B7 B8];
          [congruence|congruence|intros a; by rewrite R4|done|by intros a [= <-]|].
        split; try done. rewrite mem_set_mem, M4.
        rewrite (insert_insert_ne _ p rt), (insert_insert_ne _ p md), insert_insert_eq by done. done.
      * eapply (wp_give_up w w4 o' p (Some rt) md code fs [md]); [done|apply quietly_ijThrowWasmError| |].
        -- apply B; [congruence|congruence|intros a; by rewrite R4|done|]. intros a [= <-]. done.
        -- intros w5 Hb. eapply H3; [|exact Hb]. intros Hs0. rewrite (Hs 0) in Er; [done|]. intros ? ?. rewrite E3, E2, E1. apply Hs0.
  - do 2 wp_step. eapply wp_store; [world_simpl; apply lookup_insert_eq|].
    eapply (wp_give_up w _ o' p None md code fs []); [done| | |].
    + eapply quietly_bind; [apply quietly_js_raise|]. intros. by apply quietly_ret.
    + apply B; try done. rewrite mem_set_mem, mem_log_ev, mem_set_mem, insert_insert_eq, M2, (insert_insert_ne _ p md), insert_insert_eq by done. done.
    + intros w5 Hb. by eapply H1.
Qed.

(** ** The life of an instance *)

Lemma built_instance w w' o p rt md code fs held : built w w' o p (Some rt) md code fs [md] true held → instance_at w' o p rt md code fs.
Proof.
  intros [E O C M R P D T]. destruct (T rt eq_refl) as (? & ? & ?). destruct D as [? ?]. split; [done|rewrite M..].
  - by rewrite lookup_insert_ne, lookup_insert_ne, lookup_insert_eq by done.
  - apply lookup_insert_eq.
  - by rewrite lookup_insert_ne, lookup_insert_eq by done.
Qed.

(** The three blocks are fresh: deleting them gives the memory before. *)
Lemma built_deleted w w' o p rt md code fs ms loaded held :
  built w w' o p (Some rt) md code fs ms loaded held → delete p (delete rt (delete md (w_mem w'))) = w_mem w.
Proof.
  intros [E O C M R P D T]. destruct (T rt eq_refl) as (? & ? & ?). destruct D as [? ?]. rewrite M.
  rewrite (delete_insert_ne _ md rt), (delete_insert_eq _ md), (delete_insert_ne _ md p) by done.
  rewrite (delete_insert_eq _ rt), (delete_insert_ne _ rt p) by done. rewrite delete_insert_eq.
  rewrite (delete_id (w_mem w) md), (delete_id (w_mem w) rt), (delete_id (w_mem w) p) by done. done.
Qed.

(** The module object stays usable. *)
Lemma module_kept w w' o p md code b fs :
  module_at w o p md code b fs → (∀ a c, w_cell w !! a = Some c → w_cell w' !! a = Some c) →
  (∀ a c, w_mem w !! a = Some c → w_mem w' !! a = Some c) → module_at w' o p md code b fs.
Proof. intros [H1 H2 H3 H4] C M. split; eauto. Qed.

Lemma built_kept w w' o p rt md code fs ms loaded held a c :
  built w w' o p (Some rt) md code fs ms loaded held → w_mem w !! a = Some c → w_mem w' !! a = Some c.
Proof.
  intros [E O C M R P D T] Ha. destruct (T rt eq_refl) as (? & ? & ?). destruct D as [? ?].
  rewrite M, !lookup_insert_ne by congruence. done.
Qed.

(** A module is loaded into an instance and both are released, in either order: no block is freed
    twice, and what is left is the memory without the module. *)
Lemma instance_lifetime w o p md code b fs this :
  nonneg w → module_at w o p md code b fs → wasm_parse b = inr fs → m3_parses (w_env w) →
  m3_init (w_env w) 0 → m3_start (w_env w) 0 →
  wp (ijWasmBuildInstance wasm_parse m3Err this [JS_REF o]) (λ v w1,
    v = JS_EXCEPTION ∨
    ∃ o', v = JS_REF o' ∧ (∀ a, rc w1 a = rc w a + cnt a [o']) ∧
      wp (ijWasmInstanceFinalizer v ;; ijWasmModuleFinalizer (JS_REF o))
         (λ _ w2, w_mem w2 = delete p (delete code (delete md (w_mem w)))) w1 ∧
      wp (ijWasmModuleFinalizer (JS_REF o) ;; ijWasmInstanceFinalizer v)
         (λ _ w2, w_mem w2 = delete p (delete code (delete md (w_mem w)))) w1) w.
Proof.
  intros Hn Hm Hparse He Hi Hs. eapply build_instance; [done|done|done|done| | | | |]; try (intros; by left).
  intros o' p' rt md' w1 _ Hb. right. exists o'. pose proof (built_instance _ _ _ _ _ _ _ _ _ Hb) as Hin.
  assert (Hm1 : module_at w1 o p md code b fs).
  { eapply module_kept; [exact Hm|exact (bt_cells _ _ _ _ _ _ _ _ _ _ _ Hb)|]. intros a c. by eapply built_kept. }
  pose proof (built_deleted _ _ _ _ _ _ _ _ _ _ _ Hb) as Hd. split_and!; [done|exact (bt_rc _ _ _ _ _ _ _ _ _ _ _ Hb)| |].
  - wp_step. eapply instance_finalized; [done|]. intros w2 _ C2 _ M2. rewrite Hd in M2.
    eapply module_finalized.
    + eapply module_kept; [exact Hm| |]; [intros a c Ha; rewrite C2; by apply (bt_cells _ _ _ _ _ _ _ _ _ _ _ Hb)|by rewrite M2].
    + intros w3 _ _ _ ->. by rewrite M2.
  - wp_step. eapply module_finalized; [done|]. intros w2 _ C2 _ M2.
    assert (Hne : p' ≠ p ∧ p' ≠ code ∧ p' ≠ md ∧ rt ≠ p ∧ rt ≠ code ∧ rt ≠ md ∧ md' ≠ p ∧ md' ≠ code ∧ md' ≠ md).
    { destruct Hm as [_ K1 K2 K3]. destruct Hb as [_ _ _ _ _ L1 [L2 _] L3]. destruct (L3 rt eq_refl) as (L4 & _).
      split_and!; congruence. }
    destruct Hne as (? & ? & ? & ? & ? & ? & ? & ? & ?). destruct Hin as [I1 I2 I3 I4].
    eapply (instance_finalized w2 o' p' rt md' code fs); [split; rewrite ?C2, ?M2; [done|..]; by rewrite !lookup_delete_ne by congruence|].
    intros w3 _ _ _ ->. rewrite M2, <- Hd.
    apply map_eq. intros a. rewrite !lookup_delete. repeat case_decide; done.
Qed.

(** The start function of a module fails: buildInstance throws, and releasing the object uses the module again
    that was freed with it. *)
Lemma start_failure w o p md code b fs this r :
  nonneg w → module_at w o p md code b fs → wasm_parse b = inr fs → m3_parses (w_env w) →
  m3_init (w_env w) 0 → m3_start (w_env w) r → r ≠ 0 →
  wp (ijWasmBuildInstance wasm_parse m3Err this [JS_REF o]) (λ v w1,
    v = JS_EXCEPTION ∧
    (quiet w w1 ∨ (∃ o' p' md', built w w1 o' p' None md' code fs [] false []) ∨
     ∃ o', ijWasmInstanceFinalizer (JS_REF o') w1 = Fault UseAfterFree)) w.
Proof.
  intros Hn Hm Hparse He Hi Hs Hr. eapply build_instance; [done|done|done|done| | | | |].
  - intros w' Hq. auto.
  - intros o' p' md' w' Hb. split; [done|]. right. left. by exists o', p', md'.
  - done.
  - intros o' p' rt md' w' _ [E O C M R P [D ?] T]. destruct (T rt eq_refl) as (? & ? & ?). split; [done|]. right. right. exists o'.
    unfold ijWasmInstanceFinalizer. apply fault_bind. eapply wp_GetOpaque_class; [done|]. apply fault_bind.
    eapply wp_get_wi; [rewrite M, lookup_insert_ne, lookup_insert_ne, lookup_insert_eq by done; done|].
    cbn [wi_module wi_loaded wi_runtime]. apply fault_bind.
    eapply wp_m3_FreeModule; [rewrite M, lookup_insert_ne, lookup_insert_eq by done; done|].
    apply fault_first. unfold m3_FreeRuntime. apply fault_bind.
    eapply wp_get_m3runtime; [rewrite mem_set_mem, M, lookup_delete_ne, lookup_insert_eq by done; done|].
    cbn [free_modules]. do 4 apply fault_first. unfold load. by rewrite mem_set_mem, lookup_delete_eq.
  - intros o' p' rt md' w' H0. specialize (H0 r Hs). done.
Qed.

(** ** Parsing *)

(** The bytes of an array buffer, or those a typed array shows. *)
Definition source_of (v : JSValue) (w : World) : option bytes :=
  match body_of v w with
  | Some (BArrayBuffer d) => Some d
  | Some (BTypedArray b off len) =>
      match w_cell w !! b with
      | Some (BArrayBuffer d) => Some (take (Z.to_nat len) (drop (Z.to_nat off) d))
      | _ => None
      end
  | _ => None
  end.

Lemma wp_source_bytes v buf (Q : option bytes → World → Prop) w :
  nonneg w → source_of v w = Some buf → (∀ w', quiet w w' → nonneg w' → Q (Some buf) w') → wp (source_bytes v) Q w.
Proof.
  intros Hn Hs HQ. unfold source_bytes, source_of, JS_GetArrayBuffer, JS_GetTypedArrayBuffer in *.
  destruct v as [| | | | |r]; try done. simpl in Hs. do 3 wp_step. simpl body_of. destruct (w_cell w !! r) as [body|] eqn:Er; [|done].
  destruct body; try done; simplify_eq.
  { do 2 wp_step. by apply HQ. }
  destruct (w_cell w !! buf0) as [body|] eqn:Eb; [|done]. destruct body; try done. simplify_eq.
  wp_step. wp_step. assert (Er' := quiet_cell _ _ Hq _ _ Er). assert (Eb' := quiet_cell _ _ Hq _ _ Eb).
  wp_step. wp_step. wp_step. wp_step. simpl body_of. rewrite Er'. wp_step. wp_step. wp_step. cbv iota beta.
  wp_step. wp_step. wp_step. simpl body_of. rewrite Eb'. wp_step. wp_step.
  pose proof (quiet_nonneg _ _ Hq Hn) as Hn'.
  apply wp_FreeValue. { apply holds_one. simpl. world_simpl. specialize (Hn' buf0). rewrite (quiet_rc _ _ Hq) in Hn'. rewrite ?cnt_cons, ?cnt_nil, decide_True by done. lia. }
  wp_step. assert (Hq' : quiet w0 (drop_ref (JS_REF buf0) (take_ref (JS_REF buf0) w0))).
  { split; try done. intros a. simpl. world_simpl. rewrite ?(quiet_rc _ _ Hq). repeat case_decide; lia. }
  apply HQ; [by etrans|by eapply quiet_nonneg].
Qed.

(** parseModule keeps a copy of the bytes, and the module wasm3 made of it. *)
Lemma parse_module w this v buf fs (Q : JSValue → World → Prop) :
  nonneg w → source_of v w = Some buf → wasm_parse buf = inr fs → objects_work (w_env w) → m3_parses (w_env w) →
  (∀ o p md code w', module_at w' o p md code buf fs → (∀ a, rc w' a = rc w a + cnt a [o]) →
     w_mem w !! p = None → w_mem w !! md = None → w_mem w !! code = None →
     delete p (delete code (delete md (w_mem w'))) = w_mem w → w_env w' = w_env w → Q (JS_REF o) w') →
  wp (ijWasmParseModule wasm_parse m3Err this [v]) Q w.
Proof.
  intros Hn Hs Hparse Ho He HQ. unfold ijWasmParseModule, put_wm. wp_step. eapply wp_arg_at; [done|]. wp_step.
  eapply wp_source_bytes; [done|done|]. intros w0 [E0 M0 R0 C0] Hn0. wp_step. apply wp_new_object_ok; [done|by rewrite E0|].
  intros o p w1 [E1 M1 Hp C1 Hno R1 L1]. wp_step.
  eapply wp_GetOpaque2_class; [simpl; rewrite C1; apply lookup_insert_eq|]. cbn [deref]. do 2 wp_step. wp_step.
  apply wp_js_malloc_ok; [rewrite E1, E0; apply (Ho [])|]. intros code Hcode. rewrite M1, M0 in Hcode. apply lookup_insert_None in Hcode as [Hcode Hcp].
  wp_step. eapply wp_get_wm; [world_simpl; rewrite ?M1, lookup_insert_ne, lookup_insert_eq by done; done|].
  wp_step. eapply wp_store; [world_simpl; rewrite ?M1, lookup_insert_ne, lookup_insert_eq by done; done|].
  wp_step. eapply wp_store; [rewrite mem_set_mem; apply lookup_insert_eq|]. set (w2 := set_mem _ _).
  assert (M2 : w_mem w2 = <[p := (ByJs, CWasmModule (mkWasmModule None (Some code) (Z.of_nat (length buf))))]>
    (<[code := (ByJs, CStr buf)]> (w_mem w))).
  { subst w2. rewrite mem_set_mem, mem_set_mem, insert_insert_eq, mem_new_block, mem_log_ev, M1, M0.
    rewrite (insert_insert_ne _ code p), insert_insert_eq by done. done. }
  assert (K2 : w_env w2 = w_env w1 ∧ w_cell w2 = w_cell w1 ∧ ∀ a, rc w2 a = rc w1 a) by (subst w2; by world_simpl).
  clearbody w2. destruct K2 as (E2 & C2 & R2). wp_step.
  eapply wp_m3_ParseModule; [rewrite M2, lookup_insert_ne, lookup_insert_eq by done; done|done|by rewrite E2, E1, E0|].
  intros md w3 Hmd E3 C3 R3 M3. rewrite M2 in Hmd, M3. apply lookup_insert_None in Hmd as [Hmd Hmp].
  apply lookup_insert_None in Hmd as [Hmd Hmc]. wp_step. eapply wp_store; [rewrite M3, lookup_insert_ne, lookup_insert_eq by done; done|].
  wp_step. rewrite M0 in Hp. eapply (HQ o p md code); [split; world_simpl| | | | | |]; try done.
  - rewrite ?C3, ?C2, ?C1. apply lookup_insert_eq.
  - rewrite ?M3. apply lookup_insert_eq.
  - rewrite ?M3, lookup_insert_ne, lookup_insert_eq by done. done.
  - rewrite ?M3, !lookup_insert_ne, lookup_insert_eq by done. done.
  - intros a. rewrite rc_set_mem, R3, R2, R1, R0. done.
  - rewrite mem_set_mem, M3. rewrite (delete_insert_ne _ md p), (delete_insert_eq _ md), (delete_insert_ne _ md p), (delete_insert_ne _ md code) by done.
    rewrite (delete_insert_ne _ code p), (delete_insert_ne _ code p), (delete_insert_eq _ code), !(delete_insert_eq _ p) by done.
    rewrite (delete_id (w_mem w) md), (delete_id (w_mem w) code), (delete_id (w_mem w) p) by done. done.
  - rewrite env_set_mem. congruence.
Qed.

(** Without memory for the object its pointer is used all the same. *)
Lemma parse_no_object w this v buf :
  nonneg w → source_of v w = Some buf → (∀ args l, e_int (w_env w) (Ev "JS_NewObjectClass" args :: l) ≠ 0) →
  ijWasmParseModule wasm_parse m3Err this [v] w = Fault NullDeref.
Proof.
  intros Hn Hs He. unfold ijWasmParseModule, ijNewWasmModule, new_object, JS_NewObjectClass, js_try_new.
  apply fault_bind. eapply wp_arg_at; [done|]. apply fault_bind.
  eapply wp_source_bytes; [done|done|]. intros w0 [E0 M0 R0 C0] Hn0. apply fault_bind. wp_step. wp_step. apply wp_ask_eq. intros z ->.
  rewrite E0, (proj2 (Z.eqb_neq _ _)) by done. do 2 wp_step. wp_step. cbn [JS_IsException]. wp_step.
  apply fault_bind. unfold ijWasmModuleGet, JS_GetOpaque2, JS_GetOpaque. do 2 wp_step. cbn [body_of]. wp_step. wp_step. wp_step.
  by apply fault_first.
Qed.
End Wasm3.

(** C27: A WebAssembly module is loaded into an instance, which shares the binary with it: whichever
    of the two objects the collector finalizes first, no block is freed twice or used after it was
    freed, and in the end everything the two owned is released. *)
Theorem instance_life (wasm_parse : bytes → Z + list M3Function) (m3Err : Z → bytes) w o p md code b fs this :
  nonneg w → module_at w o p md code b fs → wasm_parse b = inr fs → m3_parses (w_env w) →
  m3_init (w_env w) 0 → m3_start (w_env w) 0 →
  wp (ijWasmBuildInstance wasm_parse m3Err this [JS_REF o]) (λ v w1,
    v = JS_EXCEPTION ∨
    ∃ o', v = JS_REF o' ∧ (∀ a, rc w1 a = rc w a + cnt a [o']) ∧
      wp (ijWasmInstanceFinalizer v ;; ijWasmModuleFinalizer (JS_REF o))
         (λ _ w2, w_mem w2 = delete p (delete code (delete md (w_mem w)))) w1 ∧
      wp (ijWasmModuleFinalizer (JS_REF o) ;; ijWasmInstanceFinalizer v)
         (λ _ w2, w_mem w2 = delete p (delete code (delete md (w_mem w)))) w1) w.
Proof. apply instance_lifetime. Qed.

(** A module without functions. *)
Definition wasm_world : World :=
  mkWorld (env_of 0) 100 {[ 1%positive := BClass cls_wasm_module (Some 10%positive) ]} ∅
    {[ 10%positive := (ByJs, CWasmModule (mkWasmModule (Some 11%positive) (Some 12%positive) 3));
       11%positive := (ByM3, CM3Module (mkM3Module 12%positive [])); 12%positive := (ByJs, CStr (lit "asm")) ]} None [].

Lemma instance_life_witness :
  wp (ijWasmBuildInstance (λ _, inr []) (λ _, []) JS_UNDEFINED [JS_REF 1%positive]) (λ v w1,
    v = JS_EXCEPTION ∨
    ∃ o', v = JS_REF o' ∧ (∀ a, rc w1 a = rc wasm_world a + cnt a [o']) ∧
      wp (ijWasmInstanceFinalizer v ;; ijWasmModuleFinalizer (JS_REF 1%positive))
         (λ _ w2, w_mem w2 = delete 10%positive (delete 12%positive (delete 11%positive (w_mem wasm_world)))) w1 ∧
      wp (ijWasmModuleFinalizer (JS_REF 1%positive) ;; ijWasmInstanceFinalizer v)
         (λ _ w2, w_mem w2 = delete 10%positive (delete 12%positive (delete 11%positive (w_mem wasm_world)))) w1) wasm_world.
Proof. apply (instance_life (λ _, inr []) (λ _, []) wasm_world 1%positive 10%positive 11%positive 12%positive (lit "asm") [] JS_UNDEFINED);
    [concrete|by split|done|by intros args l..]. Defined.

(** ** Numbers *)

(** The decimal digits of a number. *)
Definition digit (d : Z) : ascii := ascii_of_nat (Z.to_nat (48 + d)).

Fixpoint dec (fuel : nat) (n : Z) (acc : bytes) : bytes :=
  match fuel with
  | O => acc
  | S fuel => if n <? 10 then digit n :: acc else dec fuel (n / 10) (digit (n mod 10) :: acc)
  end.

Definition dec_Z (n : Z) : bytes :=
  if n <? 0 then "-"%char :: dec 20 (- n) [] else dec 20 n [].

Lemma digit_of_digit d : 0 ≤ d < 10 → digit_of (digit d) = Some d.
Proof.
  intros Hd. unfold digit_of, digit. rewrite nat_ascii_embedding by lia. rewrite Z2Nat.id by lia.
  rewrite (proj2 (Z.leb_le _ _)), (proj2 (Z.leb_le _ _)) by lia. simpl. f_equal. lia.
Qed.

Lemma digits_dec fuel n acc : 0 ≤ n < 10 ^ Z.of_nat fuel → (fuel ≠ 0%nat) → digits 0 (dec fuel n acc) = digits n acc.
Proof.
  revert n acc; induction fuel as [|fuel IH]; intros n acc Hn Hf; [done|]. cbn [dec].
  destruct (Z.ltb_spec n 10) as [Hlt|Hge]; [cbn [digits]; by rewrite digit_of_digit by lia|].
  rewrite Nat2Z.inj_succ, Z.pow_succ_r in Hn by lia. pose proof (Z.mod_pos_bound n 10).
  rewrite IH; [| |].
  - cbn [digits]. rewrite digit_of_digit by lia. f_equal. pose proof (Z.div_mod n 10). lia.
  - split; [apply Z.div_pos; lia|]. apply Z.div_lt_upper_bound; lia.
  - intros ->. simpl in Hn. lia.
Qed.

Lemma dec_head fuel n acc : 0 ≤ n → fuel ≠ 0%nat → ∃ d s, dec fuel n acc = digit d :: s ∧ 0 ≤ d < 10.
Proof.
  revert n acc; induction fuel as [|fuel IH]; intros n acc Hn Hf; [done|]. cbn [dec].
  destruct (Z.ltb_spec n 10) as [Hlt|Hge]; [by exists n, acc|].
  destruct fuel as [|fuel]; [|apply IH; [apply Z.div_pos; lia|done]].
  cbn [dec]. exists (n mod 10), acc. split; [done|]. apply Z.mod_pos_bound. lia.
Qed.

Lemma digit_plain d : 0 ≤ d < 10 → is_space (digit d) = false ∧ (digit d =? "-")%char = false ∧ (digit d =? "+")%char = false.
Proof.
  intros Hd. assert (H : d = 0 ∨ d = 1 ∨ d = 2 ∨ d = 3 ∨ d = 4 ∨ d = 5 ∨ d = 6 ∨ d = 7 ∨ d = 8 ∨ d = 9) by lia.
  naive_solver.
Qed.

(** A number printed by JavaScript is the number wasm3 reads, modulo 2^64. *)
Lemma strtoull_dec n : - 2 ^ 64 < n < 2 ^ 64 → strtoull (dec_Z n) = n mod 2 ^ 64.
Proof.
  intros Hn. unfold dec_Z, strtoull.
  assert (K : ∀ m, 0 ≤ m < 2 ^ 64 → digits 0 (dec 20 m []) = m).
  { intros m Hm. rewrite digits_dec; [done|lia|done]. }
  destruct (Z.ltb_spec n 0).
  - cbn [drop_spaces]. change (is_space "-") with false. cbv iota. cbn [Ascii.eqb Bool.eqb]. rewrite K by lia.
    rewrite (proj2 (Z.leb_gt _ _)) by lia. by rewrite Z.opp_involutive.
  - destruct (dec_head 20 n []) as (d & s & E & Hd); [lia|done|]. destruct (digit_plain d Hd) as (D1 & D2 & D3).
    rewrite E. cbn [drop_spaces]. rewrite D1, D2, D3, <- E, K by lia.
    rewrite (proj2 (Z.leb_gt _ _)) by lia. by rewrite Z.mod_small by lia.
Qed.

(** A fraction is not read: the digits before the point are stored as the bits of the number. *)
Lemma float_argument : strtoull (lit "1.5") = 1 ∧ strtoull (lit "1e21") = 1.
Proof. split; reflexivity. Qed.
