(* ===== verification/WasmCall.v ===== *)
(** * WebAssembly: calls of exported functions

    The numbers given to callFunction reach the function as the type of its parameter has them, and
    its result comes back. *)

From S2P Require Import Prelude State Runtime Logic Promise Worlds CurlProofs XhrHeaders XhrEnd Wasm WasmProofs.

(** ** The strings of the arguments *)

(** quickjs converts an integer to its decimal digits. *)
Definition ints_print (e : env) : Prop :=
  ∀ n l, e_str e (Ev "JS_ToCString" [AV (JS_INT n)] :: l) = Some (dec_Z n).

Lemma wp_ask_str_eq name args (Q : option bytes → World → Prop) w :
  (∀ r, r = e_str (w_env w) (Ev name args :: w_log w) → Q r (log_ev (Ev name args) w)) → wp (ask_str name args) Q w.
Proof. intros H. unfold wp, ask_str. by apply H. Qed.

Fixpoint add_args (l : list (option (addr * bytes))) (m : gmap addr (allocator * cstruct)) : gmap addr (allocator * cstruct) :=
  match l with
  | [] => m
  | Some (q, s) :: l => add_args l (<[q := (ByCString, CStr s)]> m)
  | None :: l => add_args l m
  end.

Fixpoint args_fresh (l : list (option (addr * bytes))) (m : gmap addr (allocator * cstruct)) : Prop :=
  match l with
  | [] => True
  | Some (q, s) :: l => m !! q = None ∧ args_fresh l (<[q := (ByCString, CStr s)]> m)
  | None :: l => args_fresh l m
  end.

Lemma add_args_old l m a c : args_fresh l m → m !! a = Some c → add_args l m !! a = Some c.
Proof.
  revert m; induction l as [|[[q s]|] l IH]; intros m Hf Ha; simpl in *; [done| |by apply IH].
  destruct Hf as [Hq Hf]. apply IH; [done|]. rewrite lookup_insert_ne; [done|]. congruence.
Qed.

Lemma add_args_delete l m q c :
  m !! q = None → args_fresh l (<[q := c]> m) → args_fresh l m ∧ delete q (add_args l (<[q := c]> m)) = add_args l m.
Proof.
  revert m; induction l as [|[[q' s]|] l IH]; intros m Hq Hf; simpl in *; [|destruct Hf as [Hq' Hf]|by apply IH].
  - split; [done|]. by rewrite delete_insert_eq, delete_id.
  - apply lookup_insert_None in Hq' as [Hq' Hne].
    rewrite (insert_insert_ne m q' q) in Hf by done. rewrite (insert_insert_ne m q' q) by done.
    destruct (IH (<[q' := (ByCString, CStr s)]> m)) as [H1 H2]; [by rewrite lookup_insert_ne|done|]. done.
Qed.

Lemma wp_free_args l m (Q : unit → World → Prop) w :
  args_fresh l m → w_mem w = add_args l m →
  (∀ w', only_mem m w w' → Q tt w') → wp (free_args l) Q w.
Proof.
  revert m w; induction l as [|[[q s]|] l IH]; intros m w Hf Hm HQ; cbn [free_args]; simpl in Hf, Hm.
  - wp_step. apply HQ. by split.
  - destruct Hf as [Hq Hf]. wp_step. unfold JS_FreeCString.
    eapply wp_c_free; [rewrite Hm; eapply add_args_old; [exact Hf|apply lookup_insert_eq]|done|].
    destruct (add_args_delete l m q _ Hq Hf) as [H1 H2]. eapply (IH m); [done|by rewrite mem_set_mem, Hm|].
    intros w' [E C R M]. apply HQ. by split.
  - do 2 wp_step. by eapply IH.
Qed.

Lemma wp_call_args ns (Q : list (option (addr * bytes)) → World → Prop) w :
  ints_print (w_env w) →
  (∀ l w', arg_string <$> l = (λ n, Some (dec_Z n)) <$> ns → args_fresh l (w_mem w) → only_mem (add_args l (w_mem w)) w w' → Q l w') →
  wp (call_args (JS_INT <$> ns)) Q w.
Proof.
  revert Q w; induction ns as [|n ns IH]; intros Q w He HQ; cbn [call_args fmap list_fmap].
  - wp_step. by apply HQ.
  - unfold JS_ToCString. wp_step. do 2 wp_step. cbn [body_of JS_IsException]. wp_step.
    apply wp_ask_str_eq. intros r ->. rewrite He. wp_step. apply wp_c_alloc. intros q Hq. do 2 wp_step. world_simpl_in Hq.
    apply IH; [done|]. intros l w' Hl Hf [E C R M]. wp_step. apply HQ.
    + cbn [fmap list_fmap]. by f_equal.
    + by split.
    + by split.
Qed.

(** ** The call *)

(** A number as a parameter has it. *)
Definition arg_val (ty : m3_type) (n : Z) : Z :=
  match ty with
  | c_m3Type_i32 | c_m3Type_f32 => n mod 2 ^ 32
  | _ => n mod 2 ^ 64
  end.

Definition is_int (ty : m3_type) : Prop := ty = c_m3Type_i32 ∨ ty = c_m3Type_i64.
Definition int32 (n : Z) : Prop := - 2 ^ 31 ≤ n < 2 ^ 31.

Lemma wp_read_args tys ns (Q : option (list Z) → World → Prop) w :
  Forall is_int tys → Forall int32 ns → length ns = length tys →
  Q (Some (zip_with arg_val tys ns)) w → wp (read_args tys ((λ n, Some (dec_Z n)) <$> ns)) Q w.
Proof.
  intros Ht. revert ns Q; induction Ht as [|ty tys Hty Ht IH]; intros ns Q Hn Hl HQ; cbn [read_args]; [by destruct ns; wp_step|].
  destruct ns as [|n ns]; [done|]. inv Hn as [|? ? Hn1 Hn2]. unfold int32 in Hn1. cbn [fmap list_fmap].
  assert (E : strtoull (dec_Z n) = n mod 2 ^ 64) by (apply strtoull_dec; lia).
  destruct Hty as [-> | ->]; wp_step; (eapply IH; [done|by simplify_eq/=|]); wp_step; rewrite E; [|exact HQ].
  cbn [fmap option_fmap option_map]. replace ((n mod 2 ^ 64) mod 2 ^ 32) with (n mod 2 ^ 32); [exact HQ|].
  change (2 ^ 64) with (2 ^ 32 * 2 ^ 32). rewrite Z.rem_mul_r by lia. rewrite Z.mul_comm, Z_mod_plus_full, Z.mod_mod by lia. done.
Qed.

(** Functions are compiled when they are first looked up. *)
Definition compiles (e : env) : Prop := ∀ args l, e_int e (Ev "Compile_Function" args :: l) = 0.

(** The module once function [i] is compiled. *)
Definition compile_in (m : M3Module) (i : nat) : M3Module := mkM3Module (m3_code m) (alter compiled i (m3_functions m)).

Lemma compiled_id f : fn_compiled f = true → compiled f = f.
Proof. destruct f. simpl. by intros ->. Qed.

Lemma wp_FindFunction w o p rt md code b fs name i f (Q : Z + (addr * nat) → World → Prop) :
  instance_at w o p rt md code fs → w_mem w !! code = Some (ByJs, CStr b) → compiles (w_env w) →
  find_named name fs = Some i → fs !! i = Some f →
  (∀ w', only_mem (<[md := (ByM3, CM3Module (compile_in (mkM3Module code fs) i))]> (w_mem w)) w w' → Q (inr (md, i)) w') →
  wp (m3_FindFunction rt name) Q w.
Proof.
  intros [_ Hp Hr Hm] Hc He Hfind Hf HQ. unfold m3_FindFunction. wp_step. eapply wp_get_m3runtime; [done|]. cbn [find_function].
  wp_step. eapply wp_get_m3module; [done|]. cbn [m3_functions]. rewrite Hfind, Hf.
  assert (Halt : alter compiled i fs = <[i := compiled f]> fs).
  { apply list_eq. intros j. destruct (decide (j = i)) as [->|].
    - rewrite list_lookup_alter_eq, Hf, list_lookup_insert_eq; [done|by eapply lookup_lt_Some].
    - by rewrite list_lookup_alter_ne, list_lookup_insert_ne by done. }
  destruct (fn_compiled f) eqn:Ec.
  - wp_step. apply HQ. split; try done. unfold compile_in. cbn [m3_code m3_functions].
    by rewrite Halt, compiled_id, list_insert_id, insert_id by done.
  - wp_step. eapply wp_get_code; [done|]. wp_step. apply wp_ask_eq. intros z ->. rewrite He. cbn [negb Z.eqb].
    wp_step. eapply wp_store; [lookup_tac|]. wp_step. apply HQ. split; try done. unfold compile_in. cbn [m3_code m3_functions].
    by rewrite Halt.
Qed.

Section Call.
Context (wasm_exec : M3Function → list Z → Z + Z).

Lemma wp_CallWithArgs md i m f ns r (Q : Z + Z → World → Prop) w al :
  w_mem w !! md = Some (al, CM3Module m) → m3_functions m !! i = Some f → fn_compiled f = true →
  fn_name f ≠ Some (lit "_start") → Forall is_int (fn_args f) → Forall int32 ns → length ns = length (fn_args f) →
  wasm_exec f (zip_with arg_val (fn_args f) ns) = r →
  (∀ w', only_mem (w_mem w) w w' → Q r w') →
  wp (m3_CallWithArgs wasm_exec (md, i) ((λ n, Some (dec_Z n)) <$> ns)) Q w.
Proof.
  intros Hm Hf Hc Hn Ht Hi Hl Hr HQ. unfold m3_CallWithArgs, get_function. wp_step. wp_step. eapply wp_get_m3module; [done|].
  cbn [fst snd]. rewrite Hf. wp_step. rewrite Hc, bool_decide_eq_false_2 by done. rewrite length_fmap, Hl, Nat.eqb_refl. cbn [negb].
  wp_step. eapply wp_read_args; [done|done|done|]. wp_step. wp_step. wp_step. rewrite Hr. apply HQ. by split.
Qed.

(** A double as a value: an integer when it is one. *)
Definition number (bits : Z) (v : JSValue) (w : World) : Prop :=
  match int_of_double bits with Some n => v = JS_INT n | None => body_of v w = Some (BDouble bits) end.

(** What the first slot becomes. *)
Definition returned (ty : m3_type) (slot : Z) (v : JSValue) (w : World) : Prop :=
  match ty with
  | c_m3Type_i32 => v = JS_INT (signed32 slot)
  | c_m3Type_i64 => if bool_decide (int32 (signed64 slot)) then v = JS_INT (signed64 slot) else body_of v w = Some (BBigInt64 (signed64 slot))
  | c_m3Type_f32 => number (f32_to_f64 (slot mod 2 ^ 32)) v w
  | c_m3Type_f64 => number slot v w
  | c_m3Type_none => v = JS_UNDEFINED
  end.

Lemma signed32_idem z : signed32 (signed32 z) = signed32 z.
Proof. apply signed32_small, signed32_range. Qed.

Lemma giving_number bits : giving (JS_NewFloat64 bits) (number bits).
Proof.
  intros w. unfold JS_NewFloat64, number. destruct (int_of_double bits).
  - wp_step. split; [by apply gives_quiet|done].
  - apply wp_js_new. intros a Ha Ra. split; [by apply gives_new_cell|]. simpl. world_simpl. apply lookup_insert_eq.
Qed.

Lemma giving_return_value ty slot : giving (return_value ty slot) (returned ty slot).
Proof.
  intros w. unfold return_value, returned, JS_NewInt32, JS_NewBigInt64. destruct ty.
  - wp_step. split; [by apply gives_quiet|done].
  - wp_step. rewrite signed32_idem. split; [by apply gives_quiet|done].
  - pose proof (signed32_range (signed64 slot)). destruct (Z.eqb_spec (signed64 slot) (signed32 (signed64 slot))) as [E|E].
    + rewrite bool_decide_eq_true_2 by (unfold int32; lia). wp_step. rewrite signed32_idem, <- E. split; [by apply gives_quiet|done].
    + rewrite bool_decide_eq_false_2; [|intros Hi; apply E; symmetry; by apply signed32_small].
      apply wp_js_new. intros a Ha Ra. split; [by apply gives_new_cell|]. simpl. world_simpl. apply lookup_insert_eq.
  - apply giving_number.
  - apply giving_number.
Qed.

(** The arguments are printed, read again and given to the function; the result is its first slot. *)
Lemma wp_call_numbers md i m f ns r (Q : Z + Z → World → Prop) w al :
  w_mem w !! md = Some (al, CM3Module m) → m3_functions m !! i = Some f → fn_compiled f = true →
  fn_name f ≠ Some (lit "_start") → Forall is_int (fn_args f) → Forall int32 ns → length ns = length (fn_args f) →
  wasm_exec f (zip_with arg_val (fn_args f) ns) = r → ints_print (w_env w) →
  (∀ w', only_mem (w_mem w) w w' → Q r w') →
  wp (match S (length ns) with
      | O => fail OutOfBounds
      | 1%nat => m3_Call wasm_exec (md, i)
      | S nargs =>
          m3_argv ← call_args (take nargs (JS_INT <$> ns)) ;
          r ← m3_CallWithArgs wasm_exec (md, i) (arg_string <$> m3_argv) ;
          free_args m3_argv ;;
          mret r
      end) Q w.
Proof.
  intros Hm Hf Hc Hn Ht Hi Hl Hr He HQ. destruct ns as [|n ns].
  - cbn [length]. unfold m3_Call. eapply (wp_CallWithArgs md i m f []); done.
  - cbn [length]. wp_step. rewrite take_ge by (rewrite length_fmap; simpl; lia). apply wp_call_args; [done|].
    intros l w1 El Hfr [E1 C1 R1 M1]. rewrite El. wp_step.
    eapply (wp_CallWithArgs md i m f (n :: ns)); try done.
    { rewrite M1. by apply add_args_old. }
    intros w2 [E2 C2 R2 M2]. wp_step. eapply wp_free_args; [exact Hfr|by rewrite M2, M1|].
    intros w3 [E3 C3 R3 M3]. wp_step. apply HQ. split; [congruence|congruence| |done]. intros a. by rewrite R3, R2, R1.
Qed.
End Call.

(** C28: callFunction with integers: the function of that name is compiled once and run on exactly
    those integers at the widths of its parameters, the result of an i32, i64, f32 or f64 function
    is the number JavaScript expects (a BigInt when it does not fit 32 bits), the argument strings
    are released, and no reference but the result's is left. *)
Theorem wasm_call wasm_exec m3Err w o p rt md code b fs a0 name i f ns slot :
  instance_at w o p rt md code fs → w_mem w !! code = Some (ByJs, CStr b) →
  body_of a0 w = Some (BString name) → find_named name fs = Some i → fs !! i = Some f →
  compiles (w_env w) → ints_print (w_env w) → fn_name f ≠ Some (lit "_start") →
  Forall is_int (fn_args f) → Forall int32 ns → length ns = length (fn_args f) →
  wasm_exec (compiled f) (zip_with arg_val (fn_args f) ns) = inr slot →
  wp (ijWasmCallFunction wasm_exec m3Err (JS_REF o) (S (length ns)) (a0 :: (JS_INT <$> ns))) (λ v w',
    returned (fn_ret f) slot v w' ∧
    w_mem w' = <[md := (ByM3, CM3Module (compile_in (mkM3Module code fs) i))]> (w_mem w) ∧
    ∀ a, rc w' a = rc w a + cnt a (ref_of v)) w.
Proof.
  intros Hin Hc Ha0 Hfind Hf Hcomp Hp Hn Ht Hi Hl Hr. pose proof Hin as [Ho Hpm Hrt Hmd].
  unfold ijWasmCallFunction. wp_step. eapply wp_GetOpaque2_class; [done|]. wp_step. eapply wp_arg_at; [done|].
  wp_step. eapply wp_ToCString_str; [done|]. intros q Hq. wp_step. eapply wp_get_wi; [lookup_tac|]. cbn [deref wi_runtime].
  do 2 wp_step. set (w1 := new_block q ByCString (CStr name) w).
  assert (Hin1 : instance_at w1 o p rt md code fs) by (subst w1; split; [done|lookup_tac..]).
  assert (Hc1 : w_mem w1 !! code = Some (ByJs, CStr b)) by (subst w1; lookup_tac).
  wp_step. eapply wp_FindFunction; [exact Hin1|exact Hc1|done|done|done|]. intros w2 [E2 C2 R2 M2]. subst w1.
  rewrite mem_new_block in M2. wp_step. unfold JS_FreeCString.
  eapply wp_c_free; [rewrite M2, lookup_insert_ne, lookup_insert_eq by congruence; done|done|].
  rewrite M2, delete_insert_ne, delete_insert_id by congruence. set (w3 := set_mem _ w2).
  assert (M3 : w_mem w3 = <[md := (ByM3, CM3Module (compile_in (mkM3Module code fs) i))]> (w_mem w)) by done.
  assert (R3 : ∀ a, rc w3 a = rc w a) by (intros a; subst w3; rewrite rc_set_mem, R2; by world_simpl).
  assert (E3 : w_env w3 = w_env w) by (subst w3; rewrite env_set_mem, E2; by world_simpl).
  assert (Hmd3 : w_mem w3 !! md = Some (ByM3, CM3Module (compile_in (mkM3Module code fs) i))) by (rewrite M3; apply lookup_insert_eq).
  assert (Hf3 : m3_functions (compile_in (mkM3Module code fs) i) !! i = Some (compiled f)).
  { cbn [compile_in m3_functions]. by rewrite list_lookup_alter_eq, Hf. }
  clearbody w3. wp_step. change (drop 1 (a0 :: (JS_INT <$> ns))) with (JS_INT <$> ns).
  eapply wp_call_numbers; [exact Hmd3|exact Hf3|done|done|done|done|done|exact Hr|by rewrite E3|].
  intros w4 [E4 C4 R4 M4]. wp_step. unfold get_function. wp_step. eapply wp_get_m3module; [rewrite M4; exact Hmd3|].
  cbn [snd]. rewrite Hf3. wp_step. eapply wp_giving; [apply giving_return_value|]. intros v w5 [E5 M5 R5 C5 H5] Hv.
  split_and!; [done|by rewrite M5, M4|]. intros a. by rewrite R5, R4, R3.
Qed.

(** An instance of a module with one function, which adds. *)
Definition add_fn : M3Function := mkM3Function (Some (lit "add")) [c_m3Type_i32; c_m3Type_i32] c_m3Type_i32 false.
Definition call_env : env :=
  mkEnv (λ _, 0) (λ l, match l with Ev _ [AV (JS_INT n)] :: _ => Some (dec_Z n) | _ => None end)
    (λ _, SA_INET 0 0) (λ _, None) (λ _, None) (λ _, []) (λ _, []).
Definition call_world : World :=
  mkWorld call_env 100 {[ 1%positive := BClass cls_wasm_instance (Some 10%positive); 2%positive := BString (lit "add") ]} ∅
    {[ 10%positive := (ByJs, CWasmInstance (mkWasmInstance (Some 13%positive) (Some 11%positive) true));
       13%positive := (ByM3, CM3Runtime [11%positive]);
       11%positive := (ByM3, CM3Module (mkM3Module 12%positive [add_fn])); 12%positive := (ByJs, CStr (lit "asm")) ]} None [].

Lemma wasm_call_witness :
  wp (ijWasmCallFunction (λ _ l, inr (foldr Z.add 0 l)) (λ _, []) (JS_REF 1%positive) (S (length [2; -3])) ((JS_REF 2) :: (JS_INT <$> [2; -3]))) (λ v w',
    returned (fn_ret add_fn) (2 ^ 32 - 1) v w' ∧
    w_mem w' = <[11%positive := (ByM3, CM3Module (compile_in (mkM3Module 12%positive [add_fn]) 0%nat))]> (w_mem call_world) ∧
    ∀ a, rc w' a = rc call_world a + cnt a (ref_of v)) call_world.
Proof. apply (wasm_call (λ _ l, inr (foldr Z.add 0 l)) (λ _, []) call_world 1%positive 10%positive 13%positive 11%positive 12%positive
    (lit "asm") [add_fn] (JS_REF 2) (lit "add") 0%nat add_fn [2; -3] (2 ^ 32 - 1));
    [by split|done|done|by vm_compute|done|by intros args l|by intros n l|by vm_compute
    |repeat (apply Forall_cons; split; [by left|]); apply Forall_nil_2|repeat (apply Forall_cons; split; [by vm_compute|]); apply Forall_nil_2
    |done|by vm_compute]. Defined.
