(* ===== verification/Udivmod.v ===== *)
(** * 128-bit division: m.c

    The division routine linked for 64-bit Windows, where the compiler's is missing. A
    [utwords] is a 128-bit number with its two halves; each half is computed on 64 bits,
    as in the source. [None] stands for a division by zero. *)

From S2P Require Import Prelude.

(** ** Words *)

Definition hi (x : Z) : Z := x / 2 ^ 64.
Definition lo (x : Z) : Z := x mod 2 ^ 64.
Definition words (h l : Z) : Z := h * 2 ^ 64 + l.
Definition shl64 (x k : Z) : Z := (Z.shiftl x k) mod 2 ^ 64.
Definition shr64 (x k : Z) : Z := Z.shiftr x k.
Definition shl128 (x k : Z) : Z := (Z.shiftl x k) mod 2 ^ 128.
Definition signed128 (x : Z) : Z := (x + 2 ^ 127) mod 2 ^ 128 - 2 ^ 127.

(** __builtin_clzll and __builtin_ctzll on a number that is not 0. *)
Definition clz64 (x : Z) : Z := 63 - Z.log2 x.
Definition ctz64 (x : Z) : Z := Z.log2 (Z.land x (- x)).

Definition is_pow2 (x : Z) : bool := Z.land x (x - 1) =? 0.

(** ** The loop *)

Fixpoint div_loop (sr : nat) (d r q carry : Z) : Z * Z * Z :=
  match sr with
  | O => (r, q, carry)
  | S sr =>
      let rh := Z.lor (shl64 (hi r) 1) (shr64 (lo r) 63) in
      let rl := Z.lor (shl64 (lo r) 1) (shr64 (hi q) 63) in
      let qh := Z.lor (shl64 (hi q) 1) (shr64 (lo q) 63) in
      let ql := Z.lor (shl64 (lo q) 1) carry in
      let r := words rh rl in
      let q := words qh ql in
      let s := Z.shiftr (signed128 (d - r - 1)) 127 in
      let carry := Z.land s 1 in
      let r := (r - Z.land d s) mod 2 ^ 128 in
      div_loop sr d r q carry
  end.

Definition div_finish (sr d r q : Z) : option (Z * Z) :=
  let '(r, q, carry) := div_loop (Z.to_nat sr) d r q 0 in
  Some (Z.lor (shl128 q 1) carry, r).

(** 64-bit division and remainder. *)
Definition div64 (x y : Z) : option (Z * Z) := if y =? 0 then None else Some (x / y, x mod y).

(** ** The function: quotient and remainder *)

Definition udivmodti4 (a b : Z) : option (Z * Z) :=
  let nh := hi a in let nl := lo a in let dh := hi b in let dl := lo b in
  if nh =? 0 then
    if dh =? 0 then div64 nl dl
    else Some (0, nl)
  else if dl =? 0 then
    if dh =? 0 then div64 nh dl
    else if nl =? 0 then Some (nh / dh, words (nh mod dh) 0)
    else if is_pow2 dh then Some (shr64 nh (ctz64 dh), words (Z.land nh (dh - 1)) nl)
    else
      let sr := unsigned32 (clz64 dh - clz64 nh) in
      if 64 - 2 <? sr then Some (0, a)
      else
        let sr := sr + 1 in
        let q := words (shl64 nl (64 - sr)) 0 in
        let r := words (shr64 nh sr) (Z.lor (shl64 nh (64 - sr)) (shr64 nl sr)) in
        div_finish sr b r q
  else if dh =? 0 then
    if is_pow2 dl then
      let rem := Z.land nl (dl - 1) in
      if dl =? 1 then Some (a, rem)
      else
        let sr := ctz64 dl in
        Some (words (shr64 nh sr) (Z.lor (shl64 nh (64 - sr)) (shr64 nl sr)), rem)
    else
      let sr := unsigned32 (1 + 64 + clz64 dl - clz64 nh) in
      if sr =? 64 then div_finish sr b (words 0 nh) (words nl 0)
      else if sr <? 64 then
        div_finish sr b (words (shr64 nh sr) (Z.lor (shl64 nh (64 - sr)) (shr64 nl sr)))
          (words (shl64 nl (64 - sr)) 0)
      else
        div_finish sr b (words 0 (shr64 nh (sr - 64)))
          (words (Z.lor (shl64 nh (128 - sr)) (shr64 nl (sr - 64))) (shl64 nl (128 - sr)))
  else
    let sr := unsigned32 (clz64 dh - clz64 nh) in
    if 64 - 1 <? sr then Some (0, a)
    else
      let sr := sr + 1 in
      if sr =? 64 then div_finish sr b (words 0 nh) (words nl 0)
      else
        div_finish sr b (words (shr64 nh sr) (Z.lor (shl64 nh (64 - sr)) (shr64 nl sr)))
          (words (shl64 nl (64 - sr)) 0).

Definition umodti3 (a b : Z) : option Z := snd <$> udivmodti4 a b.
Definition udivti3 (a b : Z) : option Z := fst <$> udivmodti4 a b.

(** ** Bits *)

Lemma lor_add a b k : 0 ≤ k → 0 ≤ b < 2 ^ k → Z.lor (a * 2 ^ k) b = a * 2 ^ k + b.
Proof.
  intros Hk Hb. assert (Hl : Z.land (a * 2 ^ k) b = 0).
  { apply Z.bits_inj'. intros i Hi. rewrite Z.land_spec, Z.bits_0.
    destruct (Z.lt_ge_cases i k) as [Hik|Hik].
    - by rewrite Z.mul_pow2_bits_low.
    - rewrite <- (Z.mod_small b (2 ^ k)) by done. rewrite Z.mod_pow2_bits_high by lia. apply andb_false_r. }
  rewrite Z.add_nocarry_lxor by done. symmetry. by apply Z.lxor_lor.
Qed.

Lemma shl_mod x k n : 0 ≤ k ≤ n → (x * 2 ^ k) mod 2 ^ n = (x mod 2 ^ (n - k)) * 2 ^ k.
Proof.
  intros H. replace (2 ^ n) with (2 ^ (n - k) * 2 ^ k) by (rewrite <- Z.pow_add_r by lia; f_equal; lia).
  apply Z.mul_mod_distr_r; apply Z.pow_nonzero; lia.
Qed.

Lemma shl64_eq x k : 0 ≤ k ≤ 64 → shl64 x k = (x mod 2 ^ (64 - k)) * 2 ^ k.
Proof. intros H. unfold shl64. rewrite Z.shiftl_mul_pow2 by lia. apply shl_mod; lia. Qed.

Lemma shr64_eq x k : 0 ≤ k → shr64 x k = x / 2 ^ k.
Proof. intros H. unfold shr64. by rewrite Z.shiftr_div_pow2. Qed.

Lemma hi_lo x : words (hi x) (lo x) = x.
Proof. unfold words, hi, lo. pose proof (Z.div_mod x (2 ^ 64)). lia. Qed.

Lemma hi_range x : 0 ≤ x < 2 ^ 128 → 0 ≤ hi x < 2 ^ 64.
Proof.
  intros H. unfold hi. split; [apply Z.div_pos; lia|]. apply Z.div_lt_upper_bound; [done|].
  change (2 ^ 64 * 2 ^ 64) with (2 ^ 128). lia.
Qed.

Lemma lo_range x : 0 ≤ lo x < 2 ^ 64.
Proof. apply (Z.mod_pos_bound x (2 ^ 64) eq_refl). Qed.

(** A shift to the left by one, of a pair of words with a bit coming in. *)
Lemma shift_in h l c :
  0 ≤ h < 2 ^ 64 → 0 ≤ l < 2 ^ 64 → 0 ≤ c ≤ 1 →
  words (Z.lor (shl64 h 1) (shr64 l 63)) (Z.lor (shl64 l 1) c) = (2 * words h l + c) mod 2 ^ 128.
Proof.
  intros Hh Hl Hc. rewrite !shl64_eq, shr64_eq by lia.
  assert (Hb : 0 ≤ l / 2 ^ 63 < 2 ^ 1).
  { split; [apply Z.div_pos; lia|]. apply Z.div_lt_upper_bound; lia. }
  rewrite !lor_add by lia. change (64 - 1) with 63. unfold words. change (2 ^ 1) with 2.
  pose proof (Z.div_mod h (2 ^ 63)). pose proof (Z.div_mod l (2 ^ 63)).
  pose proof (Z.mod_pos_bound h (2 ^ 63)). pose proof (Z.mod_pos_bound l (2 ^ 63)).
  apply (Z.mod_unique _ _ (h / 2 ^ 63)); lia.
Qed.

(** The pieces of [n >> sr] and [n << (128 - sr)]. *)
Lemma shr_low n sr : 0 ≤ n < 2 ^ 128 → 0 < sr < 64 →
  words (shr64 (hi n) sr) (Z.lor (shl64 (hi n) (64 - sr)) (shr64 (lo n) sr)) = n / 2 ^ sr.
Proof.
  intros Hn Hs. pose proof (hi_range n Hn). pose proof (lo_range n).
  rewrite shl64_eq, !shr64_eq by lia. replace (64 - (64 - sr)) with sr by lia.
  assert (Hp : 2 ^ 64 = 2 ^ (64 - sr) * 2 ^ sr) by (rewrite <- Z.pow_add_r by lia; f_equal; lia).
  assert (0 < 2 ^ sr) by (apply Z.pow_pos_nonneg; lia). assert (0 < 2 ^ (64 - sr)) by (apply Z.pow_pos_nonneg; lia).
  rewrite lor_add; [|lia|]. 2:{ split; [apply Z.div_pos; lia|]. apply Z.div_lt_upper_bound; lia. }
  unfold words. rewrite <- (hi_lo n) at 4. unfold words.
  pose proof (Z.div_mod (hi n) (2 ^ sr)). rewrite Hp.
  replace (hi n * (2 ^ (64 - sr) * 2 ^ sr) + lo n) with (lo n + (hi n * 2 ^ (64 - sr)) * 2 ^ sr) by lia.
  rewrite Z.div_add by lia. nia.
Qed.

(** The pieces of [n << (128 - sr)]. *)
Lemma shl_low n sr : 0 < sr < 64 → words (shl64 (lo n) (64 - sr)) 0 = (n mod 2 ^ sr) * 2 ^ (128 - sr).
Proof.
  intros Hs. rewrite shl64_eq by lia. replace (64 - (64 - sr)) with sr by lia. unfold words, lo.
  assert (Hm : (n mod 2 ^ 64) mod 2 ^ sr = n mod 2 ^ sr).
  { replace (2 ^ 64) with (2 ^ sr * 2 ^ (64 - sr)) by (rewrite <- Z.pow_add_r by lia; f_equal; lia).
    rewrite Z.rem_mul_r by (try apply Z.pow_nonzero; try apply Z.pow_pos_nonneg; lia).
    rewrite Z.mul_comm, Z.mod_add by (apply Z.pow_nonzero; lia). apply Z.mod_mod, Z.pow_nonzero; lia. }
  rewrite Hm. replace (128 - sr) with (64 - sr + 64) by lia. rewrite Z.pow_add_r by lia. lia.
Qed.

Lemma shl_high n sr : 0 ≤ n < 2 ^ 128 → 64 < sr < 128 →
  words (Z.lor (shl64 (hi n) (128 - sr)) (shr64 (lo n) (sr - 64))) (shl64 (lo n) (128 - sr)) =
  (n mod 2 ^ sr) * 2 ^ (128 - sr).
Proof.
  intros Hn Hs. pose proof (hi_range n Hn). pose proof (lo_range n).
  rewrite !shl64_eq, shr64_eq by lia. replace (64 - (128 - sr)) with (sr - 64) by lia.
  assert (Hp : 2 ^ 64 = 2 ^ (sr - 64) * 2 ^ (128 - sr)) by (rewrite <- Z.pow_add_r by lia; f_equal; lia).
  assert (0 < 2 ^ (sr - 64)) by (apply Z.pow_pos_nonneg; lia). assert (0 < 2 ^ (128 - sr)) by (apply Z.pow_pos_nonneg; lia).
  rewrite lor_add; [|lia|]. 2:{ split; [apply Z.div_pos; lia|]. apply Z.div_lt_upper_bound; lia. }
  assert (Hm : n mod 2 ^ sr = (hi n mod 2 ^ (sr - 64)) * 2 ^ 64 + lo n).
  { symmetry. apply (Z.mod_unique _ _ (hi n / 2 ^ (sr - 64))).
    - left. pose proof (Z.mod_pos_bound (hi n) (2 ^ (sr - 64))).
      assert (2 ^ sr = 2 ^ (sr - 64) * 2 ^ 64) by (rewrite <- Z.pow_add_r by lia; f_equal; lia). nia.
    - assert (2 ^ sr = 2 ^ (sr - 64) * 2 ^ 64) as -> by (rewrite <- Z.pow_add_r by lia; f_equal; lia).
      rewrite <- (hi_lo n) at 1. unfold words. pose proof (Z.div_mod (hi n) (2 ^ (sr - 64))). nia. }
  rewrite Hm. unfold words. pose proof (Z.div_mod (lo n) (2 ^ (sr - 64))). rewrite Hp. nia.
Qed.

Lemma signed128_small x : - 2 ^ 127 ≤ x < 2 ^ 127 → signed128 x = x.
Proof. intros H. unfold signed128. rewrite Z.mod_small by lia. lia. Qed.

Lemma sign_mask x : - 2 ^ 127 ≤ x < 2 ^ 127 → Z.shiftr (signed128 x) 127 = if x <? 0 then -1 else 0.
Proof.
  intros H. rewrite signed128_small, Z.shiftr_div_pow2 by lia. destruct (x <? 0) eqn:E.
  - symmetry. apply (Z.div_unique _ _ _ (x + 2 ^ 127)); lia.
  - apply Z.div_small. lia.
Qed.

(** ** The loop *)

(** With [k] bits of [n] still to come: [Q] is the quotient of the bits taken so far; its last
    bit is in [c], the others are at the bottom of [q], below the bits to come. *)
Definition div_inv (n d k r q c : Z) : Prop :=
  ∃ Q, 0 ≤ Q ∧ n / 2 ^ k = Q * d + r ∧ 0 ≤ r < d ∧
    q = (n mod 2 ^ k) * 2 ^ (128 - k) + Q / 2 ∧ c = Q mod 2 ∧ Q / 2 < 2 ^ (128 - k).

(** The numbers for which the comparison by sign is right. *)
Definition comparable (n d k : Z) : Prop := d ≤ 2 ^ 127 ∨ k ≤ 1 ∧ 2 ^ 127 ≤ n.

Lemma div_step n d k r q c :
  0 ≤ n < 2 ^ 128 → 0 < d < 2 ^ 128 → 0 ≤ k < 128 → comparable n d (k + 1) → div_inv n d (k + 1) r q c →
  let r1 := (2 * r + q / 2 ^ 127) mod 2 ^ 128 in
  let s := Z.shiftr (signed128 (d - r1 - 1)) 127 in
  div_inv n d k ((r1 - Z.land d s) mod 2 ^ 128) ((2 * q + c) mod 2 ^ 128) (Z.land s 1).
Proof.
  intros Hn Hd Hk Hcmp (Q & HQ & Hdiv & Hr & -> & -> & HQ2) r1 s.
  assert (P1 : 0 < 2 ^ k) by (apply Z.pow_pos_nonneg; lia).
  assert (P2 : 2 ^ (k + 1) = 2 * 2 ^ k) by (rewrite Z.pow_add_r by lia; lia).
  assert (P3 : 2 ^ (128 - k) = 2 * 2 ^ (128 - (k + 1))).
  { replace (128 - k) with (128 - (k + 1) + 1) by lia. rewrite Z.pow_add_r by lia. lia. }
  assert (P4 : 2 ^ k * 2 ^ (128 - (k + 1)) = 2 ^ 127) by (rewrite <- Z.pow_add_r by lia; f_equal; lia).
  assert (P5 : 0 < 2 ^ (128 - (k + 1))) by (apply Z.pow_pos_nonneg; lia).
  set (m := n mod 2 ^ (k + 1)) in *. set (t := n / 2 ^ (k + 1)) in *.
  assert (Hm : 0 ≤ m < 2 ^ (k + 1)) by (apply Z.mod_pos_bound; lia).
  assert (Hnm : n = 2 ^ (k + 1) * t + m) by (apply Z.div_mod; lia).
  set (b := m / 2 ^ k). assert (Hb : 0 ≤ b ≤ 1).
  { split; [apply Z.div_pos; lia|]. assert (b < 2); [|lia]. apply Z.div_lt_upper_bound; lia. }
  assert (Hmb : m = 2 ^ k * b + m mod 2 ^ k) by (apply Z.div_mod; lia).
  pose proof (Z.mod_pos_bound m (2 ^ k) P1) as Hmk.
  assert (Hnk : n / 2 ^ k = 2 * t + b).
  { symmetry. apply (Z.div_unique _ _ _ (m mod 2 ^ k)); [lia|]. nia. }
  assert (Hnk2 : n mod 2 ^ k = m mod 2 ^ k).
  { symmetry. apply (Z.mod_unique _ _ (2 * t + b)); [lia|]. nia. }
  pose proof (Z.div_pos Q 2 HQ eq_refl) as HQ0. pose proof (Z.div_mod Q 2) as HQd. pose proof (Z.mod_pos_bound Q 2 eq_refl) as HQm.
  assert (Htop : (m * 2 ^ (128 - (k + 1)) + Q / 2) / 2 ^ 127 = b).
  { symmetry. apply (Z.div_unique _ _ _ ((m mod 2 ^ k) * 2 ^ (128 - (k + 1)) + Q / 2)); [left; nia|]. nia. }
  assert (Hq : (2 * (m * 2 ^ (128 - (k + 1)) + Q / 2) + Q mod 2) mod 2 ^ 128 = (n mod 2 ^ k) * 2 ^ (128 - k) + Q).
  { symmetry. rewrite Hnk2. apply (Z.mod_unique _ _ b); [left; change (2 ^ 128) with (2 * 2 ^ 127); nia|].
    change (2 ^ 128) with (2 * 2 ^ 127). nia. }
  assert (Hr1 : r1 = 2 * r + b ∧ - 2 ^ 127 ≤ d - (2 * r + b) - 1 < 2 ^ 127 ∧ 2 * r + b < 2 ^ 128).
  { subst r1. rewrite Htop. destruct Hcmp as [Hd'|[Hk1 Hn1]]; [rewrite Z.mod_small by lia; lia|].
    assert (k = 0) as -> by lia. change (2 ^ (0 + 1)) with 2 in *. change (2 ^ 0) with 1 in *.
    assert (Hb1 : b = m) by (subst b; apply Z.div_1_r). destruct (Z.le_gt_cases d (2 ^ 127)); [rewrite Z.mod_small by lia; lia|].
    assert (Q = 0) by nia. subst Q. rewrite Z.mod_small by nia. nia. }
  destruct Hr1 as (-> & Hrng & Hlt). subst s. rewrite sign_mask by lia.
  destruct (d - (2 * r + b) - 1 <? 0) eqn:E.
  - apply Z.ltb_lt in E. rewrite Z.land_m1_r. change (Z.land (-1) 1) with 1. rewrite Z.mod_small by lia.
    exists (2 * Q + 1). rewrite Hq, Hnk. split_and!; try lia.
    + replace ((2 * Q + 1) / 2) with Q; [done|]. apply (Z.div_unique _ _ _ 1); lia.
    + apply (Z.mod_unique _ _ Q); lia.
    + replace ((2 * Q + 1) / 2) with Q; [lia|]. apply (Z.div_unique _ _ _ 1); lia.
  - apply Z.ltb_ge in E. rewrite Z.land_0_r. change (Z.land 0 1) with 0. rewrite Z.mod_small by lia.
    exists (2 * Q). rewrite Hq, Hnk. split_and!; try lia.
    + replace (2 * Q / 2) with Q; [done|]. apply (Z.div_unique _ _ _ 0); lia.
    + apply (Z.mod_unique _ _ Q); lia.
    + replace (2 * Q / 2) with Q; [lia|]. apply (Z.div_unique _ _ _ 0); lia.
Qed.

Lemma div_inv_range n d k r q c :
  0 ≤ n < 2 ^ 128 → d < 2 ^ 128 → 0 ≤ k ≤ 128 → div_inv n d k r q c →
  0 ≤ r < 2 ^ 128 ∧ 0 ≤ q < 2 ^ 128 ∧ 0 ≤ c ≤ 1.
Proof.
  intros Hn Hd Hk (Q & HQ & Hdiv & Hr & -> & -> & HQ2).
  assert (P1 : 0 < 2 ^ k) by (apply Z.pow_pos_nonneg; lia).
  assert (P4 : 2 ^ k * 2 ^ (128 - k) = 2 ^ 128) by (rewrite <- Z.pow_add_r by lia; f_equal; lia).
  pose proof (Z.mod_pos_bound n (2 ^ k) P1). pose proof (Z.mod_pos_bound Q 2 eq_refl).
  pose proof (Z.div_pos Q 2 HQ eq_refl). split_and!; try lia; nia.
Qed.

Lemma comparable_le n d k k' : comparable n d k → k' ≤ k → comparable n d k'.
Proof. intros [H|[Hk H]] Hk'; [by left|]. right. lia. Qed.

Lemma div_loop_correct n d k r q c :
  0 ≤ n < 2 ^ 128 → 0 < d < 2 ^ 128 → (k ≤ 128)%nat → comparable n d (Z.of_nat k) →
  div_inv n d (Z.of_nat k) r q c →
  ∃ r' q' c', div_loop k d r q c = (r', q', c') ∧ div_inv n d 0 r' q' c'.
Proof.
  intros Hn Hd. revert r q c; induction k as [|k IH]; intros r q c Hk Hcmp Hinv; [by eauto|].
  rewrite Nat2Z.inj_succ, <- Z.add_1_r in Hcmp, Hinv.
  destruct (div_inv_range n d (Z.of_nat k + 1) r q c Hn) as (Hr & Hq & Hc); [lia|lia|done|].
  pose proof (hi_range r Hr). pose proof (hi_range q Hq). pose proof (lo_range r). pose proof (lo_range q).
  pose proof (div_step n d (Z.of_nat k) r q c Hn Hd) as Hstep. cbv zeta in Hstep.
  assert (Htop : shr64 (hi q) 63 = q / 2 ^ 127).
  { unfold shr64, hi. rewrite Z.shiftr_div_pow2 by lia. by rewrite Z.div_div. }
  assert (0 ≤ q / 2 ^ 127 ≤ 1).
  { split; [apply Z.div_pos; lia|]. assert (q / 2 ^ 127 < 2); [|lia]. apply Z.div_lt_upper_bound; lia. }
  cbn [div_loop]. cbv zeta. rewrite Htop, !shift_in, !hi_lo by done.
  apply IH; [lia|eapply comparable_le; [done|lia]|apply Hstep; [lia|done|done]].
Qed.

(** From [n >> sr] and [n << (128 - sr)] the loop computes quotient and remainder. *)
Lemma div_finish_correct n d sr :
  0 ≤ n < 2 ^ 128 → 0 < d < 2 ^ 128 → 0 < sr ≤ 128 → comparable n d sr → n / 2 ^ sr < d →
  div_finish sr d (n / 2 ^ sr) ((n mod 2 ^ sr) * 2 ^ (128 - sr)) = Some (n / d, n mod d).
Proof.
  intros Hn Hd Hs Hcmp Hlt. unfold div_finish.
  destruct (div_loop_correct n d (Z.to_nat sr) (n / 2 ^ sr) ((n mod 2 ^ sr) * 2 ^ (128 - sr)) 0) as (r & q & c & -> & Hi);
    [done|done|lia|by rewrite Z2Nat.id by lia| |].
  { rewrite Z2Nat.id by lia. exists 0. assert (0 < 2 ^ (128 - sr)) by (apply Z.pow_pos_nonneg; lia).
    split_and!; try done; try lia; [|by rewrite Z.add_0_r]. apply Z.div_pos; [lia|]. apply Z.pow_pos_nonneg; lia. }
  destruct Hi as (Q & HQ & Hdiv & Hr & -> & -> & HQ2). change (2 ^ 0) with 1 in *. rewrite Z.div_1_r in Hdiv.
  rewrite Z.mod_1_r. pose proof (Z.div_mod Q 2). pose proof (Z.mod_pos_bound Q 2 eq_refl).
  assert (Q < 2 ^ 128) by nia. f_equal. f_equal.
  - unfold shl128. rewrite Z.shiftl_mul_pow2 by lia. change (2 ^ 1) with 2. rewrite Z.mod_small by lia.
    rewrite (lor_add _ _ 1) by lia. transitivity Q; [lia|]. apply (Z.div_unique _ _ _ r); lia.
  - apply (Z.mod_unique _ _ Q); lia.
Qed.

(** ** Powers of two and logarithms *)

Lemma is_pow2_spec x : 0 < x → is_pow2 x = true → x = 2 ^ Z.log2 x.
Proof.
  unfold is_pow2. intros Hx H%Z.eqb_eq. destruct (Z.log2_spec x Hx) as [H1 H2].
  destruct (Z.eq_dec x (2 ^ Z.log2 x)) as [|Hne]; [done|]. exfalso.
  assert (Hl : Z.log2 (x - 1) = Z.log2 x).
  { apply Z.log2_unique; [apply Z.log2_nonneg|]. lia. }
  assert (Hpos : 0 < x - 1). { assert (0 < 2 ^ Z.log2 x) by (apply Z.pow_pos_nonneg; [lia|apply Z.log2_nonneg]). lia. }
  assert (Hb : Z.testbit (Z.land x (x - 1)) (Z.log2 x) = true).
  { rewrite Z.land_spec, Z.bit_log2 by done. rewrite <- Hl at 1. by rewrite Z.bit_log2. }
  by rewrite H, Z.bits_0 in Hb.
Qed.

Lemma pow2_ctz k : 0 ≤ k → ctz64 (2 ^ k) = k.
Proof.
  intros Hk. unfold ctz64. replace (Z.land (2 ^ k) (- 2 ^ k)) with (2 ^ k); [by apply Z.log2_pow2|].
  apply Z.bits_inj'. intros i Hi. rewrite Z.land_spec. destruct (Z.eq_dec k i) as [<-|Hne].
  - rewrite Z.pow2_bits_true by done. replace (- 2 ^ k) with (-1 * 2 ^ k) by lia.
    rewrite Z.mul_pow2_bits by done. rewrite Z.bits_m1 by lia. done.
  - by rewrite Z.pow2_bits_false.
Qed.

Lemma land_mask x k : 0 ≤ k → Z.land x (2 ^ k - 1) = x mod 2 ^ k.
Proof. intros H. rewrite <- Z.land_ones by done. f_equal. rewrite Z.ones_equiv. lia. Qed.

Lemma log2_hi n : 0 < hi n → Z.log2 n = 64 + Z.log2 (hi n).
Proof.
  intros H. pose proof (lo_range n). rewrite <- (hi_lo n) at 1. unfold words.
  pose proof (Z.log2_nonneg (hi n)). destruct (Z.log2_spec (hi n) H).
  assert (2 ^ (64 + Z.log2 (hi n)) = 2 ^ 64 * 2 ^ Z.log2 (hi n)) by (rewrite Z.pow_add_r by lia; lia).
  assert (2 ^ (64 + Z.succ (Z.log2 (hi n))) = 2 ^ 64 * 2 ^ Z.succ (Z.log2 (hi n))) by (rewrite Z.pow_add_r by lia; lia).
  apply Z.log2_unique; [lia|]. rewrite <- Z.add_succ_r. lia.
Qed.

Lemma log2_range64 x : 0 < x < 2 ^ 64 → 0 ≤ Z.log2 x ≤ 63.
Proof. intros H. pose proof (Z.log2_nonneg x). assert (Z.log2 x < 64); [|lia]. apply Z.log2_lt_pow2; lia. Qed.

(** The shift the function chooses leaves less than the divisor. *)
Lemma shifted_lt n d : 0 < n → 0 < d → Z.log2 d ≤ Z.log2 n → n / 2 ^ (1 + Z.log2 n - Z.log2 d) < d.
Proof.
  intros Hn Hd Hl. pose proof (Z.log2_nonneg d). destruct (Z.log2_spec n Hn). destruct (Z.log2_spec d Hd).
  assert (n / 2 ^ (1 + Z.log2 n - Z.log2 d) < 2 ^ Z.log2 d); [|lia].
  apply Z.div_lt_upper_bound; [apply Z.pow_pos_nonneg; lia|]. rewrite <- Z.pow_add_r by lia.
  replace (1 + Z.log2 n - Z.log2 d + Z.log2 d) with (Z.succ (Z.log2 n)) by lia. done.
Qed.

Lemma shift_comparable n d :
  0 < n < 2 ^ 128 → 0 < d < 2 ^ 128 → Z.log2 d ≤ Z.log2 n → comparable n d (1 + Z.log2 n - Z.log2 d).
Proof.
  intros Hn Hd Hl. destruct (Z.le_gt_cases d (2 ^ 127)) as [|Hgt]; [by left|]. right.
  assert (127 ≤ Z.log2 d) by (apply Z.log2_le_pow2; lia).
  assert (Z.log2 n < 128) by (apply Z.log2_lt_pow2; lia). split; [lia|].
  apply Z.log2_le_pow2; lia.
Qed.

Lemma small_quotient n d : 0 ≤ n → 0 < d → Z.log2 n < Z.log2 d → n / d = 0 ∧ n mod d = n.
Proof. intros Hn Hd Hl. assert (n < d) by (by apply Z.log2_lt_cancel). split; [by apply Z.div_small|by apply Z.mod_small]. Qed.

(** ** The cases *)

Section Cases.
Variables n d : Z.
Hypothesis Hn : 0 ≤ n < 2 ^ 128.
Hypothesis Hd : 0 < d < 2 ^ 128.

(** The shift for operands whose high words are not 0. *)
Lemma sr_high : 0 < hi n → 0 < hi d →
  unsigned32 (clz64 (hi d) - clz64 (hi n)) =
  if Z.log2 n <? Z.log2 d then 2 ^ 32 + (Z.log2 n - Z.log2 d) else Z.log2 n - Z.log2 d.
Proof using Hn Hd.
  intros H1 H2. pose proof (hi_range n Hn). pose proof (hi_range d). pose proof (log2_range64 (hi n)).
  pose proof (log2_range64 (hi d)). rewrite (log2_hi n), (log2_hi d) by done. unfold unsigned32, clz64.
  destruct (_ <? _) eqn:E.
  - apply Z.ltb_lt in E. symmetry. apply (Z.mod_unique _ _ (-1)); lia.
  - apply Z.ltb_ge in E. rewrite Z.mod_small by lia. lia.
Qed.

Lemma div_word : 0 < hi n → 0 < Z.log2 n - Z.log2 d + 1 < 64 →
  div_finish (Z.log2 n - Z.log2 d + 1) d
    (words (shr64 (hi n) (Z.log2 n - Z.log2 d + 1))
       (Z.lor (shl64 (hi n) (64 - (Z.log2 n - Z.log2 d + 1))) (shr64 (lo n) (Z.log2 n - Z.log2 d + 1))))
    (words (shl64 (lo n) (64 - (Z.log2 n - Z.log2 d + 1))) 0) = Some (n / d, n mod d).
Proof using Hn Hd.
  intros H1 Hs. assert (0 < n) by (rewrite <- (hi_lo n); pose proof (lo_range n); unfold words; lia).
  rewrite shr_low, shl_low by done. replace (Z.log2 n - Z.log2 d + 1) with (1 + Z.log2 n - Z.log2 d) in * by lia.
  apply div_finish_correct; [done|done|lia|apply shift_comparable; lia|apply shifted_lt; lia].
Qed.

Lemma div_64 : 0 < hi n → Z.log2 n - Z.log2 d + 1 = 64 →
  div_finish 64 d (words 0 (hi n)) (words (lo n) 0) = Some (n / d, n mod d).
Proof using Hn Hd.
  intros H1 Hs. assert (0 < n) by (rewrite <- (hi_lo n); pose proof (lo_range n); unfold words; lia).
  change (words 0 (hi n)) with (n / 2 ^ 64). replace (words (lo n) 0) with ((n mod 2 ^ 64) * 2 ^ (128 - 64))
    by (unfold words, lo; change (128 - 64) with 64; lia).
  assert (Heq : 1 + Z.log2 n - Z.log2 d = 64) by lia.
  apply div_finish_correct; [done|done|lia|rewrite <- Heq; apply shift_comparable; lia|].
  rewrite <- Heq. apply shifted_lt; lia.
Qed.

Lemma div_beyond : 0 < hi n → 64 < Z.log2 n - Z.log2 d + 1 < 128 →
  div_finish (Z.log2 n - Z.log2 d + 1) d (words 0 (shr64 (hi n) (Z.log2 n - Z.log2 d + 1 - 64)))
    (words (Z.lor (shl64 (hi n) (128 - (Z.log2 n - Z.log2 d + 1))) (shr64 (lo n) (Z.log2 n - Z.log2 d + 1 - 64)))
       (shl64 (lo n) (128 - (Z.log2 n - Z.log2 d + 1)))) = Some (n / d, n mod d).
Proof using Hn Hd.
  intros H1 Hs. assert (0 < n) by (rewrite <- (hi_lo n); pose proof (lo_range n); unfold words; lia).
  rewrite shl_high by done. set (sr := Z.log2 n - Z.log2 d + 1) in *.
  replace (words 0 (shr64 (hi n) (sr - 64))) with (n / 2 ^ sr).
  - unfold sr. replace (Z.log2 n - Z.log2 d + 1) with (1 + Z.log2 n - Z.log2 d) in * by lia.
    apply div_finish_correct; [done|done|lia|apply shift_comparable; lia|apply shifted_lt; lia].
  - unfold words, shr64, hi. rewrite Z.shiftr_div_pow2, Z.div_div by (try apply Z.pow_pos_nonneg; lia).
    rewrite <- Z.pow_add_r by lia. replace (64 + (sr - 64)) with sr by lia. done.
Qed.

(** Division by a power of two. *)
Lemma pow2_high k : 0 ≤ k → d = 2 ^ k * 2 ^ 64 →
  shr64 (hi n) k = n / d ∧ words (Z.land (hi n) (2 ^ k - 1)) (lo n) = n mod d.
Proof using Hn Hd.
  intros Hk Hdk. assert (0 < 2 ^ k) by (apply Z.pow_pos_nonneg; lia). pose proof (lo_range n).
  pose proof (Z.div_mod (hi n) (2 ^ k)). pose proof (Z.mod_pos_bound (hi n) (2 ^ k)). pose proof (hi_lo n) as Hnn.
  unfold words in *. rewrite shr64_eq, land_mask by done. split.
  - apply (Z.div_unique _ _ _ ((hi n mod 2 ^ k) * 2 ^ 64 + lo n)); nia.
  - apply (Z.mod_unique _ _ (hi n / 2 ^ k)); nia.
Qed.

(** One word over anything. *)
Lemma udivmod_low : hi n = 0 → udivmodti4 n d = Some (n / d, n mod d).
Proof using Hn Hd.
  intros E1. pose proof (lo_range n). pose proof (lo_range d). pose proof (hi_lo n) as En. pose proof (hi_lo d) as Ed.
  unfold words in En, Ed. rewrite E1 in En. assert (Hln : lo n = n) by lia. unfold udivmodti4. cbv zeta.
  rewrite E1, Hln. cbn [Z.eqb]. destruct (hi d =? 0) eqn:E2.
  - apply Z.eqb_eq in E2. rewrite E2 in Ed. assert (Hld : lo d = d) by lia. unfold div64. rewrite Hld.
    by rewrite (proj2 (Z.eqb_neq _ _)) by lia.
  - apply Z.eqb_neq in E2. assert (0 ≤ hi d) by (apply Z.div_pos; lia). by rewrite Z.div_small, Z.mod_small by lia.
Qed.

(** The divisor has a high word only. *)
Lemma udivmod_high : 0 < hi n → 0 < hi d → lo d = 0 → udivmodti4 n d = Some (n / d, n mod d).
Proof using Hn Hd.
  intros P1 P2 E2. pose proof (hi_range n Hn). pose proof (hi_range d). pose proof (hi_lo n) as En. pose proof (hi_lo d) as Ed.
  unfold words in En, Ed. rewrite E2 in Ed. unfold udivmodti4. cbv zeta.
  rewrite (proj2 (Z.eqb_neq (hi n) 0)), E2, (proj2 (Z.eqb_neq (hi d) 0)) by lia. cbn [Z.eqb].
  destruct (lo n =? 0) eqn:E4.
  { apply Z.eqb_eq in E4. rewrite E4 in En. assert (En' : n = hi n * 2 ^ 64) by lia. assert (Ed' : d = hi d * 2 ^ 64) by lia.
    f_equal. f_equal.
    - rewrite En', Ed' at 2. by rewrite Z.div_mul_cancel_r by lia.
    - unfold words. rewrite En', Ed' at 2. rewrite Z.mul_mod_distr_r by lia. by rewrite Z.add_0_r. }
  pose proof (log2_hi d P2) as Ld. pose proof (log2_hi n P1) as Ln.
  pose proof (log2_range64 (hi n)). pose proof (log2_range64 (hi d)). destruct (is_pow2 (hi d)) eqn:E5.
  { pose proof (is_pow2_spec _ P2 E5) as Hp. destruct (pow2_high (Z.log2 (hi d))) as [Hq Hr]; [lia|lia|].
    rewrite <- Hp in Hr. rewrite Hr, <- Hq, Hp at 1. by rewrite pow2_ctz by lia. }
  rewrite sr_high by done. destruct (Z.log2 n <? Z.log2 d) eqn:E6.
  - rewrite (proj2 (Z.ltb_lt _ _)) by lia. destruct (small_quotient n d) as [-> ->]; [lia|lia|lia|done].
  - assert (Z.log2 n - Z.log2 d ≠ 63).
    { intros ?. assert (Hz : Z.log2 (hi d) = 0) by lia. unfold is_pow2 in E5.
      assert (hi d = 1) as Hone by (destruct (Z.log2_spec _ P2) as [_ Hs2]; rewrite Hz in Hs2; simpl in Hs2; lia).
      by rewrite Hone in E5. }
    rewrite (proj2 (Z.ltb_ge _ _)) by lia. apply div_word; lia.
Qed.

(** The divisor is one word. *)
Lemma udivmod_word : 0 < hi n → hi d = 0 → lo d ≠ 0 → udivmodti4 n d = Some (n / d, n mod d).
Proof using Hn Hd.
  intros P1 E3 E2. pose proof (hi_range n Hn). pose proof (lo_range d) as Rd. pose proof (hi_lo d) as Ed.
  pose proof (lo_range n). unfold words in Ed. rewrite E3 in Ed. assert (Hld : lo d = d) by lia. rewrite Hld in *. clear Ed.
  unfold udivmodti4. cbv zeta. rewrite (proj2 (Z.eqb_neq (hi n) 0)), Hld, E3, (proj2 (Z.eqb_neq d 0)) by lia. cbn [Z.eqb].
  pose proof (log2_hi n P1) as Ln. pose proof (log2_range64 (hi n)). pose proof (log2_range64 d).
  destruct (is_pow2 d) eqn:E4.
  - pose proof (is_pow2_spec d (proj1 Hd) E4) as Hp. set (k := Z.log2 d) in *.
    assert (Hrem : Z.land (lo n) (d - 1) = n mod d).
    { rewrite Hp, land_mask by lia. unfold lo.
      replace (2 ^ 64) with (2 ^ k * 2 ^ (64 - k)) by (rewrite <- Z.pow_add_r by lia; f_equal; lia).
      rewrite Z.rem_mul_r by (try apply Z.pow_nonzero; try apply Z.pow_pos_nonneg; lia).
      rewrite Z.mul_comm, Z.mod_add by (apply Z.pow_nonzero; lia). apply Z.mod_mod, Z.pow_nonzero; lia. }
    rewrite Hrem. destruct (d =? 1) eqn:E5.
    + apply Z.eqb_eq in E5. rewrite E5. by rewrite Z.div_1_r.
    + apply Z.eqb_neq in E5. assert (0 < k). { destruct (Z.eq_dec k 0) as [Hk|]; [|lia]. rewrite Hk in Hp. simpl in Hp. lia. }
      rewrite Hp at 1 2 3. rewrite pow2_ctz by lia. rewrite shr_low by lia. by rewrite <- Hp.
  - assert (0 < Z.log2 d).
    { destruct (Z.eq_dec (Z.log2 d) 0) as [Hz|]; [|lia]. unfold is_pow2 in E4.
      assert (d = 1) as Hone by (destruct (Z.log2_spec d (proj1 Hd)) as [_ Hs2]; rewrite Hz in Hs2; simpl in Hs2; lia).
      by rewrite Hone in E4. }
    assert (Hsr : unsigned32 (1 + 64 + clz64 d - clz64 (hi n)) = Z.log2 n - Z.log2 d + 1).
    { unfold unsigned32, clz64. rewrite Z.mod_small by lia. lia. }
    rewrite Hsr. destruct (_ =? 64) eqn:E5; [apply Z.eqb_eq in E5; rewrite E5; apply div_64; lia|].
    destruct (_ <? 64) eqn:E6; [apply div_word; lia|apply div_beyond; lia].
Qed.

(** Both words of the divisor are used. *)
Lemma udivmod_both : 0 < hi n → 0 < hi d → lo d ≠ 0 → udivmodti4 n d = Some (n / d, n mod d).
Proof using Hn Hd.
  intros P1 P2 E2. pose proof (hi_range n Hn). pose proof (hi_range d). unfold udivmodti4. cbv zeta.
  rewrite (proj2 (Z.eqb_neq (hi n) 0)), (proj2 (Z.eqb_neq (lo d) 0)), (proj2 (Z.eqb_neq (hi d) 0)), sr_high by lia.
  pose proof (log2_hi d P2) as Ld. pose proof (log2_hi n P1) as Ln.
  pose proof (log2_range64 (hi n)). pose proof (log2_range64 (hi d)). destruct (Z.log2 n <? Z.log2 d) eqn:E6.
  - rewrite (proj2 (Z.ltb_lt _ _)) by lia. destruct (small_quotient n d) as [-> ->]; [lia|lia|lia|done].
  - rewrite (proj2 (Z.ltb_ge _ _)) by lia. destruct (Z.log2 n - Z.log2 d + 1 =? 64) eqn:E7.
    + apply Z.eqb_eq in E7. rewrite E7. apply div_64; lia.
    + apply div_word; lia.
Qed.

Lemma udivmodti4_correct : udivmodti4 n d = Some (n / d, n mod d).
Proof using Hn Hd.
  pose proof (hi_range n Hn). pose proof (hi_range d). pose proof (lo_range d). pose proof (hi_lo d) as Ed. unfold words in Ed.
  destruct (Z.eq_dec (hi n) 0); [by apply udivmod_low|].
  destruct (Z.eq_dec (hi d) 0); [apply udivmod_word; lia|].
  destruct (Z.eq_dec (lo d) 0); [apply udivmod_high; lia|apply udivmod_both; lia].
Qed.
End Cases.

(** Dividing by zero traps in every case. *)
Lemma udivmodti4_zero n : udivmodti4 n 0 = None.
Proof. unfold udivmodti4. cbv zeta. by destruct (hi n =? 0). Qed.

(** C13: The 128-bit division routines return the quotient and the remainder for every dividend and
    every divisor other than 0, through every special case on the words of the operands. *)
Theorem udivmodti4_spec n d :
  0 ≤ n < 2 ^ 128 → 0 < d < 2 ^ 128 →
  udivmodti4 n d = Some (n / d, n mod d) ∧ udivti3 n d = Some (n / d) ∧ umodti3 n d = Some (n mod d).
Proof. intros Hn Hd. unfold udivti3, umodti3. by rewrite udivmodti4_correct. Qed.

Lemma udivmodti4_spec_witness :
  udivmodti4 (2 ^ 127 + 12345) (2 ^ 64 + 7) = Some ((2 ^ 127 + 12345) / (2 ^ 64 + 7), (2 ^ 127 + 12345) mod (2 ^ 64 + 7)) ∧ udivti3 (2 ^ 127 + 12345) (2 ^ 64 + 7) = Some ((2 ^ 127 + 12345) / (2 ^ 64 + 7)) ∧ umodti3 (2 ^ 127 + 12345) (2 ^ 64 + 7) = Some ((2 ^ 127 + 12345) mod (2 ^ 64 + 7)).
Proof. apply (udivmodti4_spec (2 ^ 127 + 12345) (2 ^ 64 + 7)); lia. Defined.
