(* ===== verification/Cli.v ===== *)
(** * The command line: main.c

    Strings are lists of characters without the final NUL; a pointer into an argument is
    the suffix it points to. [main] gives the exit code and the trace of what it did; its
    only failure is the crash on a missing file name. What an evaluation gives is a
    parameter: true for an exception. *)

From S2P Require Import Prelude.

Definition EXIT_SUCCESS : Z := 0.
Definition EXIT_FAILURE : Z := 1.
Definition EXIT_INVALID_ARG : Z := 2.
Definition OPT_PREFIX : ascii := "-".
Definition OPT_ASSIGN : ascii := "=".
Definition JS_EVAL_TYPE_GLOBAL : Z := 0.
Definition JS_EVAL_TYPE_MODULE : Z := 1.
Definition IJJS_DEFAULT_STACK_SIZE : Z := 1048576.

(** ** Options *)

(** [name] is NULL for a short option, [key] 0 for a long one. *)
Record CLIOption := mkCLIOption { key : option ascii; name : option bytes; opt_length : Z }.

(** strncmp(s, t, n) == 0, the final NUL included. *)
Fixpoint strncmp_eq (s t : bytes) (n : nat) {struct n} : bool :=
  match n, s, t with
  | O, _, _ => true
  | S n, c :: s, d :: t => Ascii.eqb c d && strncmp_eq s t n
  | S _, [], [] => true
  | S _, _, _ => false
  end.

Definition is_longopt (opt : CLIOption) (str : bytes) : bool :=
  match name opt with
  | Some n => strncmp_eq n str (Z.to_nat (opt_length opt))
  | None => false
  end.

(** The number of characters before the first [c], the length when there is none. *)
Fixpoint index_of (c : ascii) (s : bytes) : nat :=
  match s with
  | [] => 0
  | d :: s => if Ascii.eqb c d then 0 else S (index_of c s)
  end.

(** A [size_t]: one less than 0 wraps around. *)
Definition get_option_length (arg : bytes) : Z := unsigned64 (Z.of_nat (index_of OPT_ASSIGN arg) - 1).

(** The option and where [*arg] points after it; [None] for false. *)
Definition get_option (arg : bytes) : option (CLIOption * bytes) :=
  match arg with
  | [] => None
  | c :: rest =>
      let len := get_option_length arg in
      let skip (a : bytes) := match a with d :: a' => if Ascii.eqb d OPT_ASSIGN then a' else a | [] => [] end in
      if Ascii.eqb c OPT_PREFIX then
        match rest with
        | [] => None
        | _ => Some (mkCLIOption None (Some rest) len, skip (drop (Z.to_nat (len + 1)) arg))
        end
      else Some (mkCLIOption (Some c) None len, skip rest)
  end.

(** The value and the new [optind]. *)
Definition get_option_value (arg : bytes) (argv : list bytes) (optind : nat) : option (bytes * nat) :=
  match arg with
  | _ :: _ => Some (arg, optind)
  | [] =>
      match argv !! optind with
      | None => None
      | Some value =>
          match value with
          | c :: _ => if Ascii.eqb c OPT_PREFIX then None else Some (value, S optind)
          | [] => Some (value, S optind)
          end
      end
  end.

(** ** strtol(s, NULL, 10) on 64 bits *)

Definition is_space (c : ascii) : bool :=
  let n := nat_of_ascii c in (n =? 32)%nat || ((9 <=? n)%nat && (n <=? 13)%nat).
Definition digit_of (c : ascii) : option Z :=
  let n := Z.of_nat (nat_of_ascii c) in if (48 <=? n) && (n <=? 57) then Some (n - 48) else None.

Fixpoint strtol_digits (s : bytes) (acc : Z) : Z :=
  match s with
  | c :: s => match digit_of c with Some d => strtol_digits s (10 * acc + d) | None => acc end
  | [] => acc
  end.
Fixpoint skip_spaces (s : bytes) : bytes :=
  match s with c :: s' => if is_space c then skip_spaces s' else s | [] => [] end.

Definition LONG_MAX : Z := 2 ^ 63 - 1.
Definition LONG_MIN : Z := - 2 ^ 63.

Definition strtol (s : bytes) : Z :=
  let v := match skip_spaces s with
           | "-"%char :: s => - strtol_digits s 0
           | "+"%char :: s => strtol_digits s 0
           | s => strtol_digits s 0
           end in
  Z.max LONG_MIN (Z.min LONG_MAX v).

(** ** The options of a run *)

Record Flags := mkFlags {
  empty_run : bool;
  strict_module_detection : bool;
  preload_modules : list bytes;
  eval_expr : option bytes;
  override_filename : option bytes
}.
Record IJJSRunOptions := mkRunOptions { abort_on_unhandled_rejection : bool; stack_size : Z }.

Definition flags0 : Flags := mkFlags false false [] None None.

Definition ijDefaultOptions : IJJSRunOptions := mkRunOptions false IJJS_DEFAULT_STACK_SIZE.

(** The commands that end the run. *)
Inductive command := CmdVersion | CmdInit | CmdMin | CmdHelp.

Record cli_state := mkCli { c_optind : nat; c_flags : Flags; c_opts : IJJSRunOptions }.

(** What handling an option leads to. [ReportBad], [ReportMissing] and [ReportUnknown] are the
    messages of the errors. *)
Inductive report := ReportBad | ReportMissing (opt : CLIOption) | ReportUnknown (opt : CLIOption).
Inductive cli_step := Done (c : command) | Invalid (r : report) | Next (st : cli_state).

Definition is_key (opt : CLIOption) (c : ascii) : bool :=
  match key opt with Some k => Ascii.eqb k c | None => false end.

Definition with_eval (e : bytes) (f : Flags) : Flags :=
  mkFlags (empty_run f) (strict_module_detection f) (preload_modules f) (Some e) (override_filename f).
Definition with_preload (p : bytes) (f : Flags) : Flags :=
  mkFlags (empty_run f) (strict_module_detection f) (preload_modules f ++ [p]) (eval_expr f) (override_filename f).
Definition with_override (o : bytes) (f : Flags) : Flags :=
  mkFlags (empty_run f) (strict_module_detection f) (preload_modules f) (eval_expr f) (Some o).
Definition with_empty_run (f : Flags) : Flags :=
  mkFlags true (strict_module_detection f) (preload_modules f) (eval_expr f) (override_filename f).
Definition with_strict (f : Flags) : Flags :=
  mkFlags (empty_run f) true (preload_modules f) (eval_expr f) (override_filename f).

(** The options in the order main() tests them. *)
Inductive option_kind :=
| OVersion | OInit | OMin | OHelp | OEval | OLoad | OOverride | OStackSize | OQuit | OStrict | OAbort.

#[export] Instance option_kind_eq_dec : EqDecision option_kind.
Proof. solve_decision. Defined.

(** short key, long name *)
Definition option_table : list (option_kind * option ascii * bytes) :=
  [ (OVersion, Some "v"%char, lit "version"); (OInit, None, lit "init"); (OMin, None, lit "min");
    (OHelp, Some "h"%char, lit "help"); (OEval, Some "e"%char, lit "eval"); (OLoad, Some "l"%char, lit "load");
    (OOverride, None, lit "override-filename"); (OStackSize, None, lit "stack-size");
    (OQuit, Some "q"%char, lit "quit"); (OStrict, None, lit "strict-module-detection");
    (OAbort, None, lit "abort-on-unhandled-rejection") ]%string.

Definition option_matches (opt : CLIOption) (e : option_kind * option ascii * bytes) : bool :=
  match e.1.2 with Some k => is_key opt k | None => false end || is_longopt opt e.2.

Fixpoint find_option (opt : CLIOption) (l : list (option_kind * option ascii * bytes)) : option option_kind :=
  match l with
  | [] => None
  | e :: l => if option_matches opt e then Some e.1.1 else find_option opt l
  end.

(** The body of the inner loop: it always breaks or leaves. *)
Definition handle_option (opt : CLIOption) (arg : bytes) (argv : list bytes) (st : cli_state) : cli_step :=
  let value := get_option_value arg argv (c_optind st) in
  match find_option opt option_table with
  | Some OVersion => Done CmdVersion
  | Some OInit => Done CmdInit
  | Some OMin => Done CmdMin
  | Some OHelp => Done CmdHelp
  | Some OEval =>
      match value with
      | Some (e, i) => Next (mkCli i (with_eval e (c_flags st)) (c_opts st))
      | None => Invalid (ReportMissing opt)
      end
  | Some OLoad =>
      match value with
      | Some (p, i) => Next (mkCli i (with_preload p (c_flags st)) (c_opts st))
      | None => Invalid (ReportMissing opt)
      end
  | Some OOverride =>
      match value with
      | Some (o, i) => Next (mkCli i (with_override o (c_flags st)) (c_opts st))
      | None => Invalid (ReportMissing opt)
      end
  | Some OStackSize =>
      match value with
      | Some (s, i) =>
          let n := strtol s in
          if 0 <? n then Next (mkCli i (c_flags st) (mkRunOptions (abort_on_unhandled_rejection (c_opts st)) n))
          else Invalid (ReportMissing opt)
      | None => Invalid (ReportMissing opt)
      end
  | Some OQuit => Next (mkCli (c_optind st) (with_empty_run (c_flags st)) (c_opts st))
  | Some OStrict => Next (mkCli (c_optind st) (with_strict (c_flags st)) (c_opts st))
  | Some OAbort => Next (mkCli (c_optind st) (c_flags st) (mkRunOptions true (stack_size (c_opts st))))
  | None => Invalid (ReportUnknown opt)
  end.

(** The outer loop. *)
Inductive parsed := PDone (c : command) | PInvalid (r : report) | PRun (st : cli_state).

Fixpoint parse_options (fuel : nat) (argv : list bytes) (st : cli_state) : option parsed :=
  match fuel with
  | O => None
  | S fuel =>
      match argv !! c_optind st with
      | Some (c :: arg) =>
          if Ascii.eqb c OPT_PREFIX then
            match get_option arg with
            | None => Some (PRun st)
            | Some (opt, rest) =>
                let st := mkCli (S (c_optind st)) (c_flags st) (c_opts st) in
                if (match key opt with Some _ => true | None => false end) && (0 <? opt_length opt)
                then Some (PInvalid ReportBad)
                else
                  match handle_option opt rest argv st with
                  | Done c => Some (PDone c)
                  | Invalid r => Some (PInvalid r)
                  | Next st => parse_options fuel argv st
                  end
            end
          else Some (PRun st)
      | _ => Some (PRun st)
      end
  end.

(** ** Running *)

Definition has_suffix2 (str suffix : bytes) : bool :=
  let len := length str in
  let slen := length suffix in
  (slen <=? len)%nat && bool_decide (drop (len - slen) str = suffix).

Definition get_eval_flags (filepath : bytes) (strict : bool) : Z :=
  let is_mjs := has_suffix2 filepath (lit ".mjs") in
  if strict then (if is_mjs then JS_EVAL_TYPE_MODULE else JS_EVAL_TYPE_GLOBAL)
  else if is_mjs then JS_EVAL_TYPE_MODULE else -1.

Inductive action :=
| APrint (c : command)
| AReport (r : report)
| ANewRuntime (o : IJJSRunOptions)
| AEvalFile (path : bytes) (override : option bytes) (flags : Z)
| AEvalBuf (expr : bytes) (flags : Z)
| ADumpError
| ARun
| AFreeRuntime.

(** A trace, and whether the last evaluation raised. *)
Definition eval_action (raises : action → bool) (a : action) : list action * bool :=
  if raises a then ([a; ADumpError], true) else ([a], false).

Fixpoint eval_preloads (raises : action → bool) (l : list bytes) (strict : bool) : list action * bool :=
  match l with
  | [] => ([], false)
  | p :: l =>
      let '(t, failed) := eval_action raises (AEvalFile p None (get_eval_flags p strict)) in
      if failed then (t, true)
      else let '(t', failed') := eval_preloads raises l strict in (t ++ t', failed')
  end.

(** From [ijNewRuntimeOptions] on. [None]: the file name is NULL and strlen crashes. *)
Definition run_program (raises : action → bool) (argv : list bytes) (st : cli_state) : option (Z * list action) :=
  let f := c_flags st in
  let start := [ANewRuntime (c_opts st)] in
  if empty_run f then Some (EXIT_SUCCESS, start ++ [AFreeRuntime])
  else
    let '(t, failed) := eval_preloads raises (preload_modules f) (strict_module_detection f) in
    if failed then Some (EXIT_FAILURE, start ++ t ++ [AFreeRuntime])
    else
      match eval_expr f with
      | Some e =>
          let '(t', failed) := eval_action raises (AEvalBuf e JS_EVAL_TYPE_GLOBAL) in
          if failed then Some (EXIT_FAILURE, start ++ t ++ t' ++ [AFreeRuntime])
          else Some (EXIT_SUCCESS, start ++ t ++ t' ++ [ARun; AFreeRuntime])
      | None =>
          match argv !! c_optind st with
          | None => None
          | Some path =>
              let '(t', failed) :=
                eval_action raises (AEvalFile path (override_filename f) (get_eval_flags path (strict_module_detection f))) in
              if failed then Some (EXIT_FAILURE, start ++ t ++ t' ++ [AFreeRuntime])
              else Some (EXIT_SUCCESS, start ++ t ++ t' ++ [ARun; AFreeRuntime])
          end
      end.

(** [None] is the crash; the fuel is the number of arguments. *)
Definition main (raises : action → bool) (argv : list bytes) : option (Z * list action) :=
  match parse_options (S (length argv)) argv (mkCli 1 flags0 ijDefaultOptions) with
  | Some (PDone c) => Some (EXIT_SUCCESS, [APrint c])
  | Some (PInvalid r) => Some (EXIT_INVALID_ARG, [AReport r])
  | Some (PRun st) => run_program raises argv st
  | None => None
  end.

(** ** Option names *)

Lemma strncmp_take s t n : strncmp_eq s t n = bool_decide (take n s = take n t).
Proof.
  revert s t; induction n as [|n IH]; intros s t; [by rewrite bool_decide_true|].
  destruct s as [|c s], t as [|d t]; simpl;
    try done. rewrite IH.
  destruct (Ascii.eqb_spec c d) as [->|Hne]; simpl.
  - apply bool_decide_ext. split; [by intros ->|]. by intros [= ->].
  - symmetry. apply bool_decide_eq_false. congruence.
Qed.

(** The names are compared up to the length of the given one. *)
Lemma find_option_take n n' l tab :
  take (Z.to_nat l) n = take (Z.to_nat l) n' →
  find_option (mkCLIOption None (Some n) l) tab = find_option (mkCLIOption None (Some n') l) tab.
Proof.
  intros H. induction tab as [|[[k s] str] tab IH]; [done|]. simpl.
  assert (E : option_matches (mkCLIOption None (Some n) l) (k, s, str) = option_matches (mkCLIOption None (Some n') l) (k, s, str)).
  { unfold option_matches, is_key, is_longopt. simpl. by rewrite !strncmp_take, H. }
  rewrite E, IH. done.
Qed.

Lemma index_of_app c s t : c ∉ s → index_of c (s ++ c :: t) = length s.
Proof.
  induction s as [|d s IH]; simpl; [by rewrite Ascii.eqb_refl|]. rewrite not_elem_of_cons. intros [Hd Hs].
  destruct (Ascii.eqb_spec c d); [done|]. by rewrite IH.
Qed.

Lemma index_of_none c s : c ∉ s → index_of c s = length s.
Proof.
  induction s as [|d s IH]; simpl; [done|]. rewrite not_elem_of_cons. intros [Hd Hs].
  destruct (Ascii.eqb_spec c d); [done|]. by rewrite IH.
Qed.

(** What follows a name: nothing, or a value behind an equals sign. *)
Definition value_part (v : option bytes) : bytes := match v with None => [] | Some v => OPT_ASSIGN :: v end.

Lemma get_option_long n v :
  n ≠ [] → OPT_ASSIGN ∉ n → Z.of_nat (length n) < 2 ^ 64 →
  get_option (OPT_PREFIX :: n ++ value_part v) =
  Some (mkCLIOption None (Some (n ++ value_part v)) (Z.of_nat (length n)), default [] v).
Proof.
  intros Hn Ha Hl. assert (Hlen : get_option_length (OPT_PREFIX :: n ++ value_part v) = Z.of_nat (length n)).
  { unfold get_option_length. assert (Hi : index_of OPT_ASSIGN (OPT_PREFIX :: n ++ value_part v) = S (length n)).
    { simpl. f_equal. destruct v as [v|]; simpl; [by apply index_of_app|]. rewrite app_nil_r. by apply index_of_none. }
    rewrite Hi. unfold unsigned64. rewrite Z.mod_small by lia. lia. }
  unfold get_option. rewrite Hlen, Ascii.eqb_refl. destruct (n ++ value_part v) as [|c s] eqn:E.
  { by apply app_eq_nil in E as [? _]. }
  f_equal. f_equal. rewrite <- E. replace (Z.to_nat (Z.of_nat (length n) + 1)) with (S (length n)) by lia.
  simpl drop. rewrite drop_app_length. by destruct v.
Qed.

(** The table has no name that hides another. *)
Lemma table_exact k s l :
  (k, s, l) ∈ option_table → find_option (mkCLIOption None (Some l) (Z.of_nat (length l))) option_table = Some k ∧
    l ≠ [] ∧ (OPT_ASSIGN ∉ l) ∧ Z.of_nat (length l) < 2 ^ 64.
Proof.
  intros H. assert (Hall : forallb (λ e, bool_decide (
    find_option (mkCLIOption None (Some e.2) (Z.of_nat (length e.2))) option_table = Some e.1.1 ∧
    e.2 ≠ [] ∧ (OPT_ASSIGN ∉ e.2) ∧ Z.of_nat (length e.2) < 2 ^ 64)) option_table = true) by by vm_compute.
  rewrite forallb_forall in Hall. apply list_elem_of_In in H. specialize (Hall _ H).
  by apply bool_decide_eq_true in Hall.
Qed.

Lemma long_option_found k s l v :
  (k, s, l) ∈ option_table →
  ∃ opt, get_option (OPT_PREFIX :: l ++ value_part v) = Some (opt, default [] v) ∧
    key opt = None ∧ find_option opt option_table = Some k.
Proof.
  intros H. destruct (table_exact _ _ _ H) as (Hf & Hl & Ha & Hz). eexists. split; [by apply get_option_long|].
  split; [done|]. rewrite <- Hf. apply find_option_take. rewrite Nat2Z.id.
  rewrite take_app_length. by rewrite take_ge.
Qed.

(** ** Parsing ends *)

Lemma handle_option_advances opt arg argv st st' :
  handle_option opt arg argv st = Next st' → (c_optind st ≤ c_optind st')%nat.
Proof.
  assert (Hv : ∀ v i, get_option_value arg argv (c_optind st) = Some (v, i) → (c_optind st ≤ i)%nat).
  { intros v i. unfold get_option_value. destruct arg; [|by intros [= _ <-]].
    destruct (argv !! c_optind st) as [[|c value]|]; [intros [= _ <-]; lia| |done].
    destruct (Ascii.eqb c OPT_PREFIX); [done|]. intros [= _ <-]. lia. }
  unfold handle_option. destruct (find_option opt option_table) as [[]|]; try done;
    destruct (get_option_value arg argv (c_optind st)) as [[v i]|] eqn:E; try done; try (intros [= <-]; simpl; eauto; lia).
  case_match; [|done]. intros [= <-]. simpl. eauto.
Qed.

Lemma parse_terminates argv fuel st :
  (length argv - c_optind st < fuel)%nat → is_Some (parse_options fuel argv st).
Proof.
  revert st; induction fuel as [|fuel IH]; intros st Hf; [lia|]. simpl.
  destruct (argv !! c_optind st) as [[|c arg]|] eqn:E; [by eexists| |by eexists].
  apply lookup_lt_Some in E. destruct (Ascii.eqb c OPT_PREFIX); [|by eexists].
  destruct (get_option arg) as [[opt rest]|]; [|by eexists]. case_match; [by eexists|].
  destruct (handle_option _ _ _ _) as [| |st'] eqn:Eh; [by eexists|by eexists|].
  apply handle_option_advances in Eh. simpl in Eh. apply IH. lia.
Qed.

(** The stack size of a run is positive and fits a [long]. *)
Definition opts_ok (o : IJJSRunOptions) : Prop := 0 < stack_size o ≤ LONG_MAX.

Lemma strtol_range s : LONG_MIN ≤ strtol s ≤ LONG_MAX.
Proof. unfold strtol, LONG_MIN, LONG_MAX. lia. Qed.

Lemma handle_option_ok opt arg argv st st' :
  handle_option opt arg argv st = Next st' → opts_ok (c_opts st) → opts_ok (c_opts st').
Proof.
  unfold handle_option. intros H Ho. destruct (find_option opt option_table) as [[]|]; try done;
    destruct (get_option_value arg argv (c_optind st)) as [[v i]|]; try done; try (by injection H as <-).
  destruct (0 <? strtol v) eqn:E; [|done]. injection H as <-. apply Z.ltb_lt in E.
  pose proof (strtol_range v). unfold opts_ok. simpl. lia.
Qed.

Lemma parse_keeps_ok fuel argv st st' :
  parse_options fuel argv st = Some (PRun st') → opts_ok (c_opts st) → opts_ok (c_opts st').
Proof.
  revert st; induction fuel as [|fuel IH]; intros st; [done|]. simpl. intros H Ho.
  destruct (argv !! c_optind st) as [[|c arg]|]; [by injection H as <-| |by injection H as <-].
  destruct (Ascii.eqb c OPT_PREFIX); [|by injection H as <-].
  destruct (get_option arg) as [[opt rest]|]; [|by injection H as <-]. case_match; [done|].
  destruct (handle_option _ _ _ _) as [| |st2] eqn:Eh; [done|done|].
  apply IH in H; [done|]. by apply (handle_option_ok _ _ _ _ _ Eh).
Qed.

Theorem parse_options_ok argv fuel st :
  (length argv - c_optind st < fuel)%nat → opts_ok (c_opts st) →
  ∃ r, parse_options fuel argv st = Some r ∧ match r with PRun st' => opts_ok (c_opts st') | _ => True end.
Proof.
  intros Hf Ho. destruct (parse_terminates argv fuel st Hf) as [r Hr]. exists r. split; [done|].
  destruct r; try done. by eapply parse_keeps_ok.
Qed.

(** ** Runs *)

(** What happens between the start and the end of the runtime. *)
Definition inner_action (a : action) : bool :=
  match a with ANewRuntime _ | AFreeRuntime | APrint _ | AReport _ => false | _ => true end.

Definition evaluation (a : action) : bool := match a with AEvalFile _ _ _ | AEvalBuf _ _ => true | _ => false end.

(** A trace of evaluations: all before the last succeeded, and the last one failed exactly when
    the error was reported. *)
Fixpoint eval_trace (raises : action → bool) (t : list action) (failed : bool) : Prop :=
  match t with
  | [] => failed = false
  | a :: t =>
      evaluation a = true ∧
      if raises a then t = [ADumpError] ∧ failed = true else eval_trace raises t failed
  end.

Lemma eval_trace_inner raises t failed : eval_trace raises t failed → Forall (λ a, inner_action a = true) t.
Proof.
  revert failed; induction t as [|a t IH]; intros failed; simpl; [done|]. intros [Ha H].
  constructor; [by destruct a|]. destruct (raises a); [|by eapply IH].
  destruct H as [-> _]. by constructor.
Qed.

Lemma eval_trace_app raises t1 t2 failed :
  eval_trace raises t1 false → eval_trace raises t2 failed → eval_trace raises (t1 ++ t2) failed.
Proof.
  induction t1 as [|a t1 IH]; simpl; [done|]. intros [Ha H] H2. split; [done|].
  destruct (raises a); [by destruct H|by apply IH].
Qed.

Lemma eval_action_trace raises a t failed :
  evaluation a = true → eval_action raises a = (t, failed) → eval_trace raises t failed.
Proof. unfold eval_action. intros Ha. destruct (raises a) eqn:E; intros [= <- <-]; simpl; by rewrite E. Qed.

Lemma eval_preloads_trace raises l strict t failed :
  eval_preloads raises l strict = (t, failed) → eval_trace raises t failed.
Proof.
  revert t failed; induction l as [|p l IH]; intros t failed; simpl; [by intros [= <- <-]|].
  destruct (eval_action raises _) as [t1 f1] eqn:E1. apply eval_action_trace in E1; [|done].
  destruct f1; [by intros [= <- <-]|]. destruct (eval_preloads raises l strict) as [t2 f2] eqn:E2.
  intros [= <- <-]. by apply eval_trace_app; [|apply IH].
Qed.

(** The program loads the preload modules in order and stops at the first that raises. *)
Lemma eval_preloads_all raises l strict t :
  eval_preloads raises l strict = (t, false) →
  t = (λ p, AEvalFile p None (get_eval_flags p strict)) <$> l.
Proof.
  revert t; induction l as [|p l IH]; intros t; simpl; [by intros [= <-]|]. unfold eval_action.
  destruct (raises _); [done|]. destruct (eval_preloads raises l strict) as [t2 f2] eqn:E2.
  intros [= <- ->]. by rewrite (IH _ eq_refl).
Qed.

(** The shape of a run: the runtime is made first and freed last, evaluations come in
    between, and the event loop runs exactly when none of them raised. *)
Lemma run_program_shape raises argv st code t :
  run_program raises argv st = Some (code, t) →
  ∃ evals failed, eval_trace raises evals failed ∧
    code = (if failed : bool then EXIT_FAILURE else EXIT_SUCCESS) ∧
    t = [ANewRuntime (c_opts st)] ++ evals ++
        (if failed || empty_run (c_flags st) then [] else [ARun]) ++ [AFreeRuntime].
Proof.
  unfold run_program. destruct (empty_run (c_flags st)).
  { intros [= <- <-]. exists [], false. done. }
  destruct (eval_preloads _ _ _) as [t1 f1] eqn:E1. apply eval_preloads_trace in E1. destruct f1.
  { intros [= <- <-]. exists t1, true. by rewrite orb_true_l. }
  assert (Hend : ∀ a, evaluation a = true →
    (let '(t', failed) := eval_action raises a in
     if failed then Some (EXIT_FAILURE, [ANewRuntime (c_opts st)] ++ t1 ++ t' ++ [AFreeRuntime])
     else Some (EXIT_SUCCESS, [ANewRuntime (c_opts st)] ++ t1 ++ t' ++ [ARun; AFreeRuntime])) = Some (code, t) →
    ∃ evals failed, eval_trace raises evals failed ∧
      code = (if failed : bool then EXIT_FAILURE else EXIT_SUCCESS) ∧
      t = [ANewRuntime (c_opts st)] ++ evals ++ (if failed || false then [] else [ARun]) ++ [AFreeRuntime]).
  { intros a Ha. destruct (eval_action raises a) as [t2 f2] eqn:E2. apply eval_action_trace in E2; [|done].
    destruct f2; intros [= <- <-]; exists (t1 ++ t2); eexists;
      (split; [by apply eval_trace_app|]; split; [done|]); by rewrite <- (assoc_L (++)). }
  destruct (eval_expr (c_flags st)); [by apply Hend|].
  destruct (argv !! c_optind st); [by apply Hend|done].
Qed.

(** A run of main.js in which nothing raises. *)
Definition sample_argv : list bytes := lit <$> ["ijjs"; "main.js"]%string.
Definition sample_cli : cli_state := mkCli 1 flags0 ijDefaultOptions.
Definition sample_run : Z * list action := default (0, []) (run_program (λ _, false) sample_argv sample_cli).

(** The program crashes exactly when it is left without a file to run. *)
Lemma main_crash raises argv :
  main raises argv = None ↔
  ∃ st, parse_options (S (length argv)) argv (mkCli 1 flags0 ijDefaultOptions) = Some (PRun st) ∧
    empty_run (c_flags st) = false ∧
    (eval_preloads raises (preload_modules (c_flags st)) (strict_module_detection (c_flags st))).2 = false ∧
    eval_expr (c_flags st) = None ∧ argv !! c_optind st = None.
Proof.
  unfold main. destruct (parse_terminates argv (S (length argv)) (mkCli 1 flags0 ijDefaultOptions)) as [p Hp]; [simpl; lia|].
  rewrite Hp. destruct p as [c|r|st]; [split; [done|]; by intros (st & [= ] & _)|split; [done|]; by intros (st & [= ] & _)|].
  unfold run_program, eval_action. split.
  - intros H. exists st. split; [done|]. destruct (empty_run (c_flags st)); [done|].
    destruct (eval_preloads _ _ _) as [t1 f1]. destruct f1; [done|].
    destruct (eval_expr (c_flags st)) as [e|]; [by destruct (raises (AEvalBuf e JS_EVAL_TYPE_GLOBAL))|].
    destruct (argv !! c_optind st) as [path|]; [by destruct (raises (AEvalFile _ _ _))|]. done.
  - intros (st' & [= <-] & -> & Hp2 & -> & ->). destruct (eval_preloads _ _ _) as [t1 f1]. simpl in Hp2. by rewrite Hp2.
Qed.
