(* ===== verification/Modules.v ===== *)
(** * Modules: ijmodules.c

    The normalizer of module names, the choice of a loader, the source text of a script
    or JSON module, shared libraries and import.meta. File access, the loading of
    libraries and the compiler are parameters. The separator is that of Linux. *)

From S2P Require Import Prelude LoadFile.

Definition PATHSEP : ascii := "/".
Definition backslash : ascii := ascii_of_nat 92.

(** ** C strings *)

Definition starts_with (prefix s : bytes) : bool := bool_decide (take (length prefix) s = prefix).

Definition has_suffix (str suffix : bytes) : bool :=
  let len := length str in
  let slen := length suffix in
  (slen <=? len)%nat && bool_decide (drop (len - slen) str = suffix).

(** strrchr, as an index *)
Fixpoint strrchr (s : bytes) (c : ascii) : option nat :=
  match s with
  | [] => None
  | d :: s =>
      match strrchr s c with
      | Some i => Some (S i)
      | None => if Ascii.eqb d c then Some 0%nat else None
      end
  end.

(** [for (p = s; *p; p++) if (p[0] == '\\') p[0] = '/'] *)
Definition to_slashes (s : bytes) : bytes := (λ c, if Ascii.eqb c backslash then PATHSEP else c) <$> s.

Definition http : bytes := lit "http://".
Definition https : bytes := lit "https://".

(** ** ijModuleNormalizer *)

Definition internal_modules : list bytes :=
  lit <$> [ "@ijjs/abort-controller"; "@ijjs/bootstrap"; "@ijjs/bootstrap2"; "@ijjs/console"; "@ijjs/core";
            "@ijjs/crypto"; "@ijjs/event-target"; "@ijjs/performance" ]%string.

Definition is_internal (name : bytes) : bool := existsb (λ m, starts_with m name) internal_modules.

(** The index of the last separator, 0 without one. *)
Definition dir_len (s : bytes) : nat := default 0%nat (strrchr s PATHSEP).

(** The last component of [filename], and [filename] cut before it. *)
Definition last_component (filename : bytes) : bytes :=
  match strrchr filename PATHSEP with Some i => drop (S i) filename | None => filename end.
Definition cut_last (filename : bytes) : bytes :=
  match strrchr filename PATHSEP with Some i => take i filename | None => [] end.

Definition dot : ascii := ".".

(** The loop over the leading ./ and ../ of a relative name. *)
Fixpoint resolve (filename r : bytes) {struct r} : bytes * bytes :=
  match r with
  | c0 :: r1 =>
      if Ascii.eqb c0 dot then
        match r1 with
        | c1 :: r2 =>
            if Ascii.eqb c1 PATHSEP then resolve filename r2
            else if Ascii.eqb c1 dot then
              match r2 with
              | c2 :: r3 =>
                  if Ascii.eqb c2 PATHSEP then
                    match filename with
                    | [] => (filename, r)
                    | _ =>
                        let p := last_component filename in
                        if bool_decide (p = [dot]) || bool_decide (p = [dot; dot]) then (filename, r)
                        else resolve (cut_last filename) r3
                    end
                  else (filename, r)
              | [] => (filename, r)
              end
            else (filename, r)
        | [] => (filename, r)
        end
      else (filename, r)
  | [] => (filename, r)
  end.

(** [if (filename[0] != '\0') strcat(filename, "/")] *)
Definition with_sep (filename : bytes) : bytes := match filename with [] => [] | _ => filename ++ [PATHSEP] end.

(** [NFile size f]: the name, in a block of [size] bytes. *)
Inductive normalized :=
| NInternal
| NNoMemory
| NTmpOverflow
| NFile (size : Z) (f : bytes).

Definition TMP_SIZE : nat := 260.

(** [access f]: ACCESS(f, 0) == 0. [alloc]: js_malloc succeeds. *)
Definition ijModuleNormalizer (in_bootstrap alloc : bool) (access : bytes → bool) (base_name name : bytes) : normalized :=
  let strdup (s : bytes) := if alloc then NFile (Z.of_nat (length s) + 1) s else NNoMemory in
  let c := default (ascii_of_nat 0) (name !! 0%nat) in
  if negb in_bootstrap && Ascii.eqb c "@" && is_internal name then NInternal
  else if Ascii.eqb c "@" then strdup name
  else if starts_with http name || starts_with https name then strdup name
  else if negb (Ascii.eqb c dot) then
    let base_name := to_slashes base_name in
    if (TMP_SIZE <=? length base_name)%nat then NTmpOverflow
    else
      let tmp := match base_name with [] => ["#"%char] | _ => <[dir_len base_name := "#"%char]> base_name end in
      let len := dir_len tmp in
      if alloc then
        NFile (Z.of_nat (len + length name + 18))
          (to_slashes (with_sep (take len base_name) ++ lit "ij_modules/" ++ name))
      else NNoMemory
  else
    let base_name := to_slashes base_name in
    let len := dir_len base_name in
    if alloc then
      let '(filename, r) := resolve (take len base_name) name in
      let f := to_slashes (with_sep filename ++ r) in
      NFile (Z.of_nat (len + length name + 18 + 5)) (if access f then f else f ++ lit ".js")
    else NNoMemory.

(** ** ijModuleLoader *)

Definition DL_SUFFIX : bytes := lit ".so".
Definition DLFILE_SIZE : nat := 260.

Inductive module_kind :=
| HTTP_MODULE
| DL_MODULE (dlfile : bytes)
| SCRIPT_MODULE (dlfile : bytes)
| DlfileOverflow.

(** strcpy and strcat to [dlfile] *)
Definition dl_copy (s : bytes) (k : bytes → module_kind) : module_kind :=
  if (length s <? DLFILE_SIZE)%nat then k s else DlfileOverflow.

Definition module_type (access : bytes → bool) (module_name : bytes) : module_kind :=
  if starts_with http module_name || starts_with https module_name then HTTP_MODULE
  else if has_suffix module_name (lit "js") || has_suffix module_name (lit "ts") || has_suffix module_name (lit "json")
  then dl_copy module_name SCRIPT_MODULE
  else dl_copy (module_name ++ DL_SUFFIX) (λ dlfile,
    if access dlfile then DL_MODULE dlfile else dl_copy (module_name ++ lit ".js") SCRIPT_MODULE).

(** json_tpl_start ends with the backquote of a template literal, json_tpl_end begins with it. *)
Definition json_tpl_start : bytes := lit "export default JSON.parse(`".
Definition json_tpl_end : bytes := lit "`);".

(** The text handed to the compiler: [None] when the loop of ijLoadFile does not end, [Some None]
    when the file cannot be loaded. *)
Definition script_source (fs : file_system) (fuel : nat) (dlfile : bytes) (fds : gset Z) :
    option (option bytes * gset Z) :=
  let is_json := has_suffix dlfile (lit ".json") in
  let dbuf := if is_json then (dbuf_put fs [] json_tpl_start).2 else [] in
  match ijLoadFile fs fuel dbuf dlfile fds with
  | None => None
  | Some (r, dbuf, fds) =>
      if negb (r =? 0) then Some (None, fds)
      else
        let dbuf := if is_json then (dbuf_put fs dbuf json_tpl_end).2 else dbuf in
        Some (Some (dbuf_put fs dbuf [ascii_of_nat 0]).2, fds)
  end.

(** ** ijLoadDynamicLibrary *)

Inductive dl_event := DlOpen | DlSym | DlInit | DlThrow (msg : string) | DlClose.

#[export] Instance dl_event_eq_dec : EqDecision dl_event.
Proof. solve_decision. Defined.

(** [hd], [init] and [m]: whether dlopen, dlsym and the library's initialiser succeed. *)
Definition ijLoadDynamicLibrary (hd init m : bool) : bool * list dl_event :=
  if negb hd then (false, [DlOpen; DlThrow "could not load module filename '%s' as shared library"])
  else if negb init then
    (false, [DlOpen; DlSym; DlThrow "could not load module filename '%s': js_init_module not found"; DlClose])
  else if negb m then
    (false, [DlOpen; DlSym; DlInit; DlThrow "could not load module filename '%s': initialization error"; DlClose])
  else (true, [DlOpen; DlSym; DlInit]).

(** ** ijModuleSetImportMeta *)

Definition PATH_MAX : nat := 4096.
Definition META_SIZE : nat := PATH_MAX + 16.

(** pstrcpy and pstrcat: the result is cut to the size of the buffer. *)
Definition pstrcpy (size : nat) (s : bytes) : bytes := take (size - 1) s.
Definition pstrcat (size : nat) (buf s : bytes) : bytes := take (size - 1) (buf ++ s).

(** The [url] of import.meta; [None] when realpath fails. *)
Definition meta_url (realpath : bytes → option bytes) (use_realpath : bool) (module_name : bytes) : option bytes :=
  if bool_decide (":"%char ∈ module_name) then Some (pstrcpy META_SIZE module_name)
  else
    let buf := pstrcpy META_SIZE (lit "file://") in
    if use_realpath then pstrcat META_SIZE buf <$> realpath module_name
    else Some (pstrcat META_SIZE buf module_name).

(** ** The loader as a whole *)

Record module_env := mkModuleEnv {
  me_access : bytes → bool;
  me_fs : file_system;
  me_http : bytes → Z * bytes;          (** ijCurlLoadHttp: status and body *)
  me_dl : bytes → bool * bool * bool;   (** dlopen, dlsym, initialiser *)
  me_compile : bytes → bytes → bool;    (** JS_Eval of a source under a name *)
  me_realpath : bytes → option bytes
}.

(** [LModule name source url]: a module compiled from [source]; [url] is [None] when
    import.meta could not be set, which the loader does not look at. *)
Inductive load_result :=
| LModule (name source : bytes) (url : option bytes)
| LNative (dlfile : bytes)
| LCannotLoad (name : bytes)
| LCompileError
| LOverflow
| LNoFuel.

Definition ijLoadHttp (e : module_env) (url : bytes) : load_result :=
  let '(r, dbuf) := me_http e url in
  if negb (r =? 200) then LCannotLoad url
  else if negb (me_compile e dbuf url) then LCompileError
  else LModule url dbuf (meta_url (me_realpath e) false url).

Definition ijModuleLoader (e : module_env) (fuel : nat) (module_name : bytes) (fds : gset Z) : load_result * gset Z :=
  match module_type (me_access e) module_name with
  | DlfileOverflow => (LOverflow, fds)
  | HTTP_MODULE => (ijLoadHttp e module_name, fds)
  | DL_MODULE dlfile =>
      let '(hd, init, m) := me_dl e dlfile in
      (if (ijLoadDynamicLibrary hd init m).1 then LNative dlfile else LCannotLoad dlfile, fds)
  | SCRIPT_MODULE dlfile =>
      match script_source (me_fs e) fuel dlfile fds with
      | None => (LNoFuel, fds)
      | Some (None, fds) => (LCannotLoad dlfile, fds)
      | Some (Some source, fds) =>
          if negb (me_compile e source dlfile) then (LCompileError, fds)
          else (LModule dlfile source (meta_url (me_realpath e) true dlfile), fds)
      end
  end.

(** ** Names fit the blocks allocated for them *)

Lemma length_to_slashes s : length (to_slashes s) = length s.
Proof. apply length_fmap. Qed.

Lemma strrchr_bound s c i : strrchr s c = Some i → (i < length s)%nat.
Proof.
  revert i; induction s as [|d s IH]; intros i; [done|]. simpl.
  destruct (strrchr s c) as [j|]; [intros [= <-]; specialize (IH j eq_refl); lia|].
  destruct (Ascii.eqb d c); [intros [= <-]; lia|done].
Qed.

Lemma length_with_sep f : (length (with_sep f) ≤ S (length f))%nat.
Proof. destruct f; simpl; [lia|rewrite length_app; simpl; lia]. Qed.

Lemma length_cut_last f : (length (cut_last f) ≤ length f)%nat.
Proof. unfold cut_last. destruct (strrchr f PATHSEP); simpl; [rewrite length_take|]; lia. Qed.

Lemma resolve_length n r f f' r' :
  (length r ≤ n)%nat → resolve f r = (f', r') → (length f' ≤ length f ∧ length r' ≤ length r)%nat.
Proof.
  revert r f; induction n as [|n IH]; intros r f Hn.
  { destruct r; [|simpl in Hn; lia]. simpl. intros [= <- <-]. lia. }
  destruct r as [|c0 [|c1 r2]]; simpl in *; try (intros [= <- <-]; simpl; lia).
  { destruct (Ascii.eqb c0 dot); intros [= <- <-]; simpl; lia. }
  destruct (Ascii.eqb c0 dot); [|intros [= <- <-]; simpl; lia].
  destruct (Ascii.eqb c1 PATHSEP).
  { intros H%IH; simpl; lia. }
  destruct (Ascii.eqb c1 dot); [|intros [= <- <-]; simpl; lia].
  destruct r2 as [|c2 r3]; [intros [= <- <-]; simpl; lia|].
  destruct (Ascii.eqb c2 PATHSEP); [|intros [= <- <-]; simpl; lia].
  destruct f as [|d f]; [intros [= <- <-]; simpl; lia|].
  destruct (_ || _); [intros [= <- <-]; simpl; lia|].
  intros H%IH; [|simpl in *; lia]. pose proof (length_cut_last (d :: f)). simpl in *. lia.
Qed.

(** C31: The name the normalizer computes, with its terminating NUL, fits the block it allocated for
    it, for every base name, module name and answer of the file system. *)
Theorem normalizer_fits b a access base name size f :
  ijModuleNormalizer b a access base name = NFile size f → Z.of_nat (length f) + 1 ≤ size.
Proof.
  unfold ijModuleNormalizer. set (c := default _ _). destruct (_ && _ && _); [done|].
  destruct (Ascii.eqb c "@"); [destruct a; [intros [= <- <-]; lia|done]|].
  destruct (_ || _); [destruct a; [intros [= <- <-]; lia|done]|].
  destruct (negb _).
  - destruct (_ <=? _)%nat; [done|]. destruct a; [|done]. cbv zeta. intros [= <- <-].
    set (l := dir_len _). rewrite length_to_slashes, !length_app.
    pose proof (length_with_sep (take l (to_slashes base))) as H. rewrite length_take in H.
    cbn [length]. lia.
  - destruct a; [|done]. destruct (resolve _ _) as [f' r'] eqn:E. intros [= <- <-].
    set (l := dir_len _) in *. apply (resolve_length (length name)) in E as [H1 H2]; [|lia].
    rewrite length_take in H1. pose proof (length_with_sep f').
    assert (length (to_slashes (with_sep f' ++ r')) ≤ l + length name + 1)%nat
      by (rewrite length_to_slashes, length_app; lia).
    destruct (access _); rewrite ?length_app; cbn [length]; lia.
Qed.

Lemma normalizer_fits_witness :
  Z.of_nat (length (lit "src/b.js")) + 1 ≤ 37.
Proof. apply (normalizer_fits false true (λ _, true) (lit "src/lib/a.js") (lit "../b.js") 37 (lit "src/b.js")); vm_compute; reflexivity. Defined.

(** ** Relative and bare names in terms of path components *)

(** A component other than . and .. *)
Definition component (d : bytes) : Prop :=
  d ≠ [] ∧ (PATHSEP ∉ d) ∧ d ≠ [dot] ∧ d ≠ [dot; dot].

(** Components [ds], the last one first, as a path. *)
Fixpoint path_of (ds : list bytes) : bytes :=
  match ds with [] => [] | d :: ds => with_sep (path_of ds) ++ d end.

(** The name of [file] in the directory [ds]. *)
Definition file_in (ds : list bytes) (file : bytes) : bytes := with_sep (path_of ds) ++ file.

Definition up : bytes := [dot; dot; PATHSEP].
Definition here : bytes := [dot; PATHSEP].
Fixpoint ups (k : nat) : bytes := match k with O => [] | S k => up ++ ups k end.

Lemma strrchr_none s c : c ∉ s → strrchr s c = None.
Proof.
  induction s as [|d s IH]; [done|]. intros H. simpl. rewrite IH by set_solver.
  destruct (Ascii.eqb_spec d c); [set_solver|done].
Qed.

Lemma strrchr_app x s c : c ∉ s → strrchr (x ++ s) c = strrchr x c.
Proof. intros H. induction x as [|d x IH]; simpl; [by apply strrchr_none|]. by rewrite IH. Qed.

Lemma strrchr_last x s c : c ∉ s → strrchr (x ++ c :: s) c = Some (length x).
Proof.
  intros H. induction x as [|d x IH]; simpl; [|by rewrite IH].
  rewrite strrchr_none by done. by rewrite Ascii.eqb_refl.
Qed.

Lemma with_sep_nonempty f : f ≠ [] → with_sep f = f ++ [PATHSEP].
Proof. by destruct f. Qed.

Lemma path_of_nonempty d ds : component d → path_of (d :: ds) ≠ [].
Proof. intros (H & _) E. apply app_eq_nil in E as [_ E]. done. Qed.

(** The last separator of a path splits off its last component. *)
Lemma strrchr_path ds d :
  Forall component ds → PATHSEP ∉ d →
  strrchr (file_in ds d) PATHSEP = match ds with [] => None | _ => Some (length (path_of ds)) end.
Proof.
  intros Hds Hd. unfold file_in. destruct ds as [|e ds]; [by apply strrchr_none|].
  apply Forall_cons in Hds as [He _]. rewrite with_sep_nonempty by by apply path_of_nonempty.
  rewrite <- app_assoc. by apply strrchr_last.
Qed.

Lemma last_component_path ds d :
  Forall component ds → component d → last_component (path_of (d :: ds)) = d.
Proof.
  intros Hds (H0 & H1 & _). unfold last_component. change (path_of (d :: ds)) with (file_in ds d).
  rewrite strrchr_path by done. unfold file_in. destruct ds as [|e ds]; [done|].
  apply Forall_cons in Hds as [He _]. rewrite with_sep_nonempty by by apply path_of_nonempty.
  rewrite <- app_assoc, drop_app_ge by lia. by replace (S _ - _)%nat with 1%nat by lia.
Qed.

Lemma cut_last_path ds d :
  Forall component ds → component d → cut_last (path_of (d :: ds)) = path_of ds.
Proof.
  intros Hds (H0 & H1 & _). unfold cut_last. change (path_of (d :: ds)) with (file_in ds d).
  rewrite strrchr_path by done. unfold file_in. destruct ds as [|e ds]; [done|].
  apply Forall_cons in Hds as [He _]. rewrite with_sep_nonempty by by apply path_of_nonempty.
  rewrite <- app_assoc. by rewrite take_app_length.
Qed.

(** A name that starts with neither ./ nor ../ *)
Definition plain (r : bytes) : Prop := starts_with here r = false ∧ starts_with up r = false.

Lemma resolve_plain f r : plain r → resolve f r = (f, r).
Proof.
  intros [H1 H2]. unfold starts_with in *. apply bool_decide_eq_false in H1, H2.
  destruct r as [|c0 [|c1 r2]]; simpl in *; [done|by destruct (Ascii.eqb _ _)|].
  destruct (Ascii.eqb_spec c0 dot) as [->|]; [|done].
  destruct (Ascii.eqb_spec c1 PATHSEP) as [->|]; [done|].
  destruct (Ascii.eqb_spec c1 dot) as [->|]; [|done].
  destruct r2 as [|c2 r3]; [done|]. destruct (Ascii.eqb_spec c2 PATHSEP) as [->|]; [|done].
  by destruct H2.
Qed.

Lemma resolve_up ds d r :
  Forall component ds → component d → resolve (path_of (d :: ds)) (up ++ r) = resolve (path_of ds) r.
Proof.
  intros Hds Hd. pose proof (path_of_nonempty d ds Hd) as Hne.
  pose proof (last_component_path ds d Hds Hd) as Hl. pose proof (cut_last_path ds d Hds Hd) as Hc.
  destruct Hd as (_ & _ & N1 & N2). revert Hne Hl Hc. generalize (path_of (d :: ds)). intros p Hne Hl Hc.
  simpl. destruct p; [done|]. rewrite Hl, !bool_decide_eq_false_2 by done. simpl. by rewrite Hc.
Qed.

(** Each ../ drops a directory. *)
Lemma resolve_ups k ds r :
  Forall component ds → (k ≤ length ds)%nat → plain r →
  resolve (path_of ds) (ups k ++ r) = (path_of (drop k ds), r).
Proof.
  revert ds; induction k as [|k IH]; intros ds Hds Hk Hr; [by apply resolve_plain|].
  destruct ds as [|d ds]; [simpl in Hk; lia|]. apply Forall_cons in Hds as [Hd Hds].
  cbn [ups]. rewrite <- app_assoc, resolve_up by done. apply IH; [done|simpl in Hk; lia|done].
Qed.

Lemma to_slashes_id s : backslash ∉ s → to_slashes s = s.
Proof.
  induction s as [|c s IH]; [done|]. intros H. unfold to_slashes in *. rewrite fmap_cons, IH by set_solver.
  destruct (Ascii.eqb_spec c backslash); [set_solver|done].
Qed.

Lemma elem_of_with_sep c f : c ∈ with_sep f → c ∈ f ∨ c = PATHSEP.
Proof. destruct f; [set_solver|]. unfold with_sep. set_solver. Qed.

Lemma with_sep_no_backslash f : backslash ∉ f → backslash ∉ with_sep f.
Proof. intros H [|E]%elem_of_with_sep; done. Qed.

Lemma path_of_no_backslash ds : Forall (λ d, backslash ∉ d) ds → backslash ∉ path_of ds.
Proof.
  induction 1 as [|d ds Hd _ IH]; [set_solver|]. simpl. intros [H|H]%elem_of_app; [|done].
  by apply with_sep_no_backslash in H.
Qed.

Lemma file_in_no_backslash ds file :
  Forall (λ d, backslash ∉ d) ds → backslash ∉ file → backslash ∉ file_in ds file.
Proof.
  intros Hds Hf [H|H]%elem_of_app; [|done]. by apply with_sep_no_backslash in H; [|apply path_of_no_backslash].
Qed.

Lemma take_dir ds file :
  Forall component ds → PATHSEP ∉ file → take (dir_len (file_in ds file)) (file_in ds file) = path_of ds.
Proof.
  intros Hds Hf. unfold dir_len. rewrite strrchr_path by done. unfold file_in. destruct ds as [|e ds]; [done|].
  apply Forall_cons in Hds as [He _]. change (default 0%nat (Some ?n)) with n. rewrite with_sep_nonempty by by apply path_of_nonempty.
  rewrite <- app_assoc. by rewrite take_app_length.
Qed.

Lemma first_dot_branches b name :
  name !! 0%nat = Some dot →
  (negb b && Ascii.eqb (default (ascii_of_nat 0) (name !! 0%nat)) "@" && is_internal name) = false ∧
  (starts_with http name || starts_with https name) = false.
Proof.
  intros H. rewrite H. simpl. rewrite andb_false_r. split; [done|].
  destruct name as [|c name]; [done|]. injection H as ->. apply orb_false_iff; split; by apply bool_decide_eq_false_2.
Qed.


(** Decides the side conditions on concrete names. *)
Ltac concrete_path :=
  lazymatch goal with
  | |- Forall component _ => repeat constructor; concrete_path
  | |- Forall _ _ => repeat constructor; concrete_path
  | |- component _ => unfold component; split_and!; concrete_path
  | |- _ ∉ _ => apply (bool_decide_unpack _); vm_compute; exact I
  | |- _ ≠ _ => vm_compute; discriminate
  | |- plain _ => split; vm_compute; reflexivity
  | |- _ ∨ _ => first [left; vm_compute; reflexivity | right; split; [reflexivity|lia]]
  | |- (_ ≤ _)%nat => vm_compute; lia
  | |- (_ < _)%nat => vm_compute; lia
  | |- _ => vm_compute; reflexivity
  end.


Lemma tmp_dir ds file :
  Forall component ds → PATHSEP ∉ file → file_in ds file ≠ [] →
  let base := file_in ds file in
  take (dir_len (<[dir_len base := "#"%char]> base)) base = path_of (drop 1 ds).
Proof.
  intros Hds Hf Hne base. unfold dir_len at 2. unfold base. rewrite strrchr_path by done.
  destruct ds as [|d ds].
  { unfold file_in in *. simpl in *. destruct file as [|c file]; [done|]. simpl. unfold dir_len.
    rewrite strrchr_none; [done|]. set_solver. }
  apply Forall_cons in Hds as [Hd Hds]. unfold file_in. rewrite with_sep_nonempty by by apply path_of_nonempty.
  rewrite <- app_assoc. change (default 0%nat (Some ?n)) with n. cbn [app]. rewrite insert_app_r_alt by lia. rewrite Nat.sub_diag. cbn [list_insert].
  unfold dir_len. change (path_of (d :: ds)) with (file_in ds d). 
  assert (PATHSEP ∉ "#"%char :: file) as Hx by set_solver.
  cbn. rewrite strrchr_app by done. destruct Hd as (_ & Hd & _). rewrite strrchr_path by done.
  rewrite drop_0. destruct ds as [|e ds]; [done|]. unfold file_in.
  apply Forall_cons in Hds as [He _]. rewrite with_sep_nonempty by by apply path_of_nonempty.
  rewrite <- !app_assoc. change (default 0%nat (Some ?n)) with n. by rewrite take_app_length.
Qed.

(** Names that are looked up under ij_modules *)
Definition bare (name : bytes) : Prop :=
  name !! 0%nat ≠ Some "@"%char ∧ name !! 0%nat ≠ Some dot ∧ starts_with http name = false ∧
  starts_with https name = false.

Lemma bare_branches b name :
  bare name →
  let c := default (ascii_of_nat 0) (name !! 0%nat) in
  (negb b && Ascii.eqb c "@" && is_internal name) = false ∧ Ascii.eqb c "@" = false ∧
  (starts_with http name || starts_with https name) = false ∧ negb (Ascii.eqb c dot) = true.
Proof.
  intros (H1 & H2 & -> & ->) c. assert (Ascii.eqb c "@" = false) as Hc.
  { subst c. destruct (name !! 0%nat) as [a|]; [|done]. apply Ascii.eqb_neq. simpl. congruence. }
  rewrite Hc, andb_false_r. repeat split. apply negb_true_iff, Ascii.eqb_neq.
  subst c. destruct (name !! 0%nat) as [a|]; simpl; [congruence|done].
Qed.

(** A bare name is looked up in ij_modules beside the directory of the importing module. *)
Lemma normalizer_bare b access ds file name :
  Forall component ds → Forall (λ d, backslash ∉ d) ds → PATHSEP ∉ file → (backslash ∉ file) → file ≠ [] →
  (length (file_in ds file) < TMP_SIZE)%nat → bare name → (backslash ∉ name) →
  ∃ size, ijModuleNormalizer b true access (file_in ds file) name =
          NFile size (file_in (drop 1 ds) (lit "ij_modules/" ++ name)).
Proof.
  intros Hds Hb Hs Hsb Hne Hl Hn Hnb. unfold ijModuleNormalizer.
  destruct (bare_branches b name Hn) as (-> & -> & -> & ->). cbv iota zeta.
  rewrite to_slashes_id by by apply file_in_no_backslash.
  rewrite (proj2 (Nat.leb_gt _ _)) by done.
  assert (Hbase : file_in ds file ≠ []) by (intros [_ E]%app_eq_nil; done).
  pose proof (tmp_dir ds file Hds Hs Hbase) as Ht. cbv zeta in Ht.
  destruct (file_in ds file) as [|c0 base] eqn:E; [done|]. rewrite <- E in *. rewrite Ht.
  eexists. f_equal. fold (file_in (drop 1 ds) (lit "ij_modules/" ++ name)). apply to_slashes_id.
  apply file_in_no_backslash; [by apply Forall_drop|]. intros [H|H]%elem_of_app; [|done].
  revert H. apply (bool_decide_unpack (backslash ∉ lit "ij_modules/")). vm_compute. done.
Qed.

Lemma normalizer_tmp_overflow b a access base name :
  bare name → ijModuleNormalizer b a access base name = NTmpOverflow ↔ (TMP_SIZE ≤ length base)%nat.
Proof.
  intros Hn. unfold ijModuleNormalizer. destruct (bare_branches b name Hn) as (-> & -> & -> & ->). cbv iota zeta.
  rewrite length_to_slashes. destruct (Nat.leb_spec TMP_SIZE (length base)); [done|].
  split; [by destruct a|lia].
Qed.

(** Outside of the bootstrap no name that begins with an internal module's is let through;
    a name with @ that begins with none is kept. *)
Lemma normalizer_at access base name :
  name !! 0%nat = Some "@"%char →
  ijModuleNormalizer false true access base name =
  if is_internal name then NInternal else NFile (Z.of_nat (length name) + 1) name.
Proof. intros H. unfold ijModuleNormalizer. rewrite H. simpl. by destruct (is_internal name). Qed.

(** ** The loader *)

Lemma starts_with_spec p s : starts_with p s = true ↔ ∃ t, s = p ++ t.
Proof.
  unfold starts_with. rewrite bool_decide_eq_true. split.
  - intros H. exists (drop (length p) s). by rewrite <- H at 1; rewrite take_drop.
  - intros [t ->]. by rewrite take_app_length.
Qed.

Lemma module_type_overflow access name :
  starts_with http name = false → starts_with https name = false →
  module_type access name = DlfileOverflow ↔
  (DLFILE_SIZE ≤ length name + (if has_suffix name (lit "js") || has_suffix name (lit "ts") || has_suffix name (lit "json")
                                then 0 else 3))%nat.
Proof.
  intros H1 H2. unfold module_type. rewrite H1, H2. change (false || false) with false. cbv iota.
  destruct (_ || _); unfold dl_copy.
  - destruct (Nat.ltb_spec (length name) DLFILE_SIZE); split; intros; try done; lia.
  - rewrite !length_app. change (length DL_SUFFIX) with 3%nat. change (length (lit ".js")) with 3%nat.
    destruct (Nat.ltb_spec (length name + 3) DLFILE_SIZE).
    + split; [|lia]. by destruct (access _).
    + done.
Qed.

(** The compiler is given the whole file and a NUL, a JSON file inside a call of JSON.parse. *)
Lemma script_source_loaded fs fuel dlfile fds contents :
  0 ≤ fs_open fs dlfile → reads fs (fs_open fs dlfile) contents → (∀ n, dbuf_grow fs n = true) →
  (length contents < fuel)%nat →
  script_source fs fuel dlfile fds =
  Some (Some ((if has_suffix dlfile (lit ".json") then json_tpl_start ++ contents ++ json_tpl_end else contents)
              ++ [ascii_of_nat 0]), fds ∪ {[fs_open fs dlfile]}).
Proof.
  intros Ho Hr Hg Hf. unfold script_source. erewrite load_file_correct by done. simpl. unfold dbuf_put. rewrite !Hg. simpl.
  destruct (has_suffix _ _); simpl; [|done]. by rewrite <- app_assoc.
Qed.

(** A script module whose file can be read is compiled from it, under the name of the file. *)
Lemma loader_script e fuel name dlfile contents fds :
  module_type (me_access e) name = SCRIPT_MODULE dlfile → has_suffix dlfile (lit ".json") = false →
  0 ≤ fs_open (me_fs e) dlfile → reads (me_fs e) (fs_open (me_fs e) dlfile) contents →
  (∀ n, dbuf_grow (me_fs e) n = true) → (length contents < fuel)%nat →
  let source := contents ++ [ascii_of_nat 0] in
  (ijModuleLoader e fuel name fds).1 =
  if me_compile e source dlfile then LModule dlfile source (meta_url (me_realpath e) true dlfile) else LCompileError.
Proof.
  intros Ht Hj Ho Hr Hg Hf source. unfold ijModuleLoader. rewrite Ht.
  erewrite script_source_loaded by done. rewrite Hj. fold source. by destruct (me_compile _ _ _).
Qed.

(** A compiler that accepts everything, on the file system of [hello_fs]. *)
Definition hello_env : module_env :=
  mkModuleEnv (λ _, true) hello_fs (λ _, (404, [])) (λ _, (false, false, false)) (λ _ _, true) Some.

(** A library is left open exactly when its module is returned, and closed at most once. *)
Lemma dynamic_library_closed hd init m r tr :
  ijLoadDynamicLibrary hd init m = (r, tr) →
  r = hd && init && m ∧
  length (filter (λ x, x = DlClose) tr) = (if hd && negb r then 1 else 0)%nat.
Proof. destruct hd, init, m; intros [= <- <-]; done. Qed.
