(* ===== verification/Vm.v ===== *)
(** * Vm: ijvm.c

    The allocator with its accounting that the runtime hands to quickjs, the job queue
    and the idle handle that keeps the loop turning while jobs are pending, and the
    evaluation of a file. jemalloc and the compiler are parameters. *)

From S2P Require Import Prelude LoadFile.

(** ** The allocator *)

Definition JE_MALLOC_OVERHEAD : Z := 8.

Record JSMallocState := mkMallocState {
  malloc_count : Z;
  malloc_size : Z;
  malloc_limit : Z
}.

(** The blocks of jemalloc, with their usable sizes. *)
Abbreviation heap := (gmap Z Z).

Record jemalloc := mkJemalloc {
  je_malloc : heap → Z → option (Z * Z);
  je_realloc : heap → Z → Z → option (Z * Z)
}.

Definition je_def_malloc_usable_size (h : heap) (ptr : Z) : option Z := h !! ptr.

(** The outcome of an operation: the result, the state and the heap, an assertion that
    fails, or a pointer that is not a block. *)
Inductive alloc_outcome :=
| Allocated (r : option Z) (s : JSMallocState) (h : heap)
| AssertFailed
| NotABlock.

Definition je_def_malloc (je : jemalloc) (s : JSMallocState) (h : heap) (size : Z) : alloc_outcome :=
  if size =? 0 then AssertFailed
  else if malloc_limit s <? unsigned64 (malloc_size s + size) then Allocated None s h
  else
    match je_malloc je h size with
    | None => Allocated None s h
    | Some (ptr, usable) =>
        Allocated (Some ptr)
          (mkMallocState (unsigned64 (malloc_count s + 1)) (unsigned64 (malloc_size s + (usable + JE_MALLOC_OVERHEAD)))
             (malloc_limit s))
          (<[ptr := usable]> h)
    end.

Definition je_def_free (s : JSMallocState) (h : heap) (ptr : option Z) : alloc_outcome :=
  match ptr with
  | None => Allocated None s h
  | Some ptr =>
      match je_def_malloc_usable_size h ptr with
      | None => NotABlock
      | Some usable =>
          Allocated None
            (mkMallocState (unsigned64 (malloc_count s - 1)) (unsigned64 (malloc_size s - (usable + JE_MALLOC_OVERHEAD)))
               (malloc_limit s))
            (delete ptr h)
      end
  end.

Definition je_def_realloc (je : jemalloc) (s : JSMallocState) (h : heap) (ptr : option Z) (size : Z) : alloc_outcome :=
  match ptr with
  | None => if size =? 0 then Allocated None s h else je_def_malloc je s h size
  | Some p =>
      match je_def_malloc_usable_size h p with
      | None => NotABlock
      | Some old_size =>
          if size =? 0 then
            Allocated None
              (mkMallocState (unsigned64 (malloc_count s - 1))
                 (unsigned64 (malloc_size s - (old_size + JE_MALLOC_OVERHEAD))) (malloc_limit s))
              (delete p h)
          else if malloc_limit s <? unsigned64 (malloc_size s + size - old_size) then Allocated None s h
          else
            match je_realloc je h p size with
            | None => Allocated None s h
            | Some (q, usable) =>
                Allocated (Some q)
                  (mkMallocState (malloc_count s) (unsigned64 (malloc_size s + (usable - old_size))) (malloc_limit s))
                  (<[q := usable]> (delete p h))
            end
      end
  end.

(** ** Accounting *)

(** What jemalloc promises: a new block is not one in use. *)
Class JemallocLaws (je : jemalloc) : Prop := {
  je_malloc_fresh : ∀ h size p u, je_malloc je h size = Some (p, u) → h !! p = None;
  je_realloc_fresh : ∀ h p size q u, je_realloc je h p size = Some (q, u) → q = p ∨ h !! q = None
}.

(** The bytes the blocks of a heap count for. *)
Definition charged (h : heap) : Z := map_fold (λ _ u acc, u + JE_MALLOC_OVERHEAD + acc) 0 h.

Definition accounted (s : JSMallocState) (h : heap) : Prop :=
  malloc_count s = unsigned64 (Z.of_nat (size h)) ∧ malloc_size s = unsigned64 (charged h).

Lemma charged_insert h p u : h !! p = None → charged (<[p := u]> h) = u + JE_MALLOC_OVERHEAD + charged h.
Proof. intros H. unfold charged. apply (map_fold_insert_L (λ _ u acc, u + JE_MALLOC_OVERHEAD + acc) 0 p u h); [intros; lia|done]. Qed.

Lemma charged_delete h p u : h !! p = Some u → charged h = u + JE_MALLOC_OVERHEAD + charged (delete p h).
Proof. intros H. rewrite <- (charged_insert (delete p h) p) by apply lookup_delete_eq. by rewrite insert_delete_id. Qed.

Lemma size_delete_some (h : heap) p u : h !! p = Some u → Z.of_nat (size (delete p h)) = Z.of_nat (size h) - 1.
Proof.
  intros H. rewrite <- (insert_delete_id h p u H) at 2. rewrite map_size_insert_None by apply lookup_delete_eq. lia.
Qed.

Lemma malloc_accounted je s h size r s' h' :
  JemallocLaws je → accounted s h → je_def_malloc je s h size = Allocated r s' h' → accounted s' h'.
Proof.
  intros L [A1 A2]. unfold je_def_malloc. destruct (size =? 0); [done|].
  destruct (_ <? _); [by intros [= <- <- <-]|].
  destruct (je_malloc je h size) as [[p u]|] eqn:E; [|by intros [= <- <- <-]].
  apply je_malloc_fresh in E. intros [= <- <- <-]. split; simpl.
  - rewrite A1, map_size_insert_None by done. wrap_eq.
  - rewrite A2, charged_insert by done. wrap_eq.
Qed.

Lemma delete_accounted s h p u lim :
  accounted s h → h !! p = Some u →
  accounted (mkMallocState (unsigned64 (malloc_count s - 1)) (unsigned64 (malloc_size s - (u + JE_MALLOC_OVERHEAD))) lim)
    (delete p h).
Proof.
  intros [A1 A2] E. split; simpl.
  - rewrite A1, (size_delete_some h p u E). wrap_eq.
  - rewrite A2, (charged_delete h p u E). wrap_eq.
Qed.

Lemma free_accounted s h ptr r s' h' :
  accounted s h → je_def_free s h ptr = Allocated r s' h' → accounted s' h'.
Proof.
  intros A. unfold je_def_free. destruct ptr as [p|]; [|by intros [= <- <- <-]].
  unfold je_def_malloc_usable_size. destruct (h !! p) as [u|] eqn:E; [|done].
  intros [= <- <- <-]. by apply delete_accounted.
Qed.

Lemma realloc_accounted je s h ptr size r s' h' :
  JemallocLaws je → accounted s h → je_def_realloc je s h ptr size = Allocated r s' h' → accounted s' h'.
Proof.
  intros L A. unfold je_def_realloc. destruct ptr as [p|].
  2: { destruct (size =? 0); [by intros [= <- <- <-]|]. by apply malloc_accounted. }
  unfold je_def_malloc_usable_size. destruct (h !! p) as [u|] eqn:E; [|done].
  destruct (size =? 0); [intros [= <- <- <-]; by apply delete_accounted|].
  destruct (_ <? _); [by intros [= <- <- <-]|].
  destruct (je_realloc je h p size) as [[q v]|] eqn:R; [|by intros [= <- <- <-]].
  apply je_realloc_fresh in R. intros [= <- <- <-]. destruct A as [A1 A2].
  assert (Hq : delete p h !! q = None).
  { destruct R as [->|R]; [apply lookup_delete_eq|]. by apply lookup_delete_None; right. }
  split; simpl.
  - rewrite A1, map_size_insert_None, Nat2Z.inj_succ, (size_delete_some h p u E) by done. f_equal. lia.
  - rewrite A2, charged_insert, (charged_delete h p u E) by done. wrap_eq.
Qed.

(** A run of the allocator: every operation that returns, from a fresh runtime. *)
Inductive alloc_op := OpMalloc (size : Z) | OpFree (ptr : option Z) | OpRealloc (ptr : option Z) (size : Z).

Definition alloc_step (je : jemalloc) (s : JSMallocState) (h : heap) (op : alloc_op) : alloc_outcome :=
  match op with
  | OpMalloc size => je_def_malloc je s h size
  | OpFree ptr => je_def_free s h ptr
  | OpRealloc ptr size => je_def_realloc je s h ptr size
  end.

Fixpoint alloc_run (je : jemalloc) (s : JSMallocState) (h : heap) (ops : list alloc_op) : option (JSMallocState * heap) :=
  match ops with
  | [] => Some (s, h)
  | op :: ops =>
      match alloc_step je s h op with
      | Allocated _ s h => alloc_run je s h ops
      | _ => None
      end
  end.

(** JS_NewRuntime2: nothing allocated, no limit. *)
Definition fresh_malloc_state : JSMallocState := mkMallocState 0 0 (2 ^ 64 - 1).

Lemma alloc_step_accounted je s h op r s' h' :
  JemallocLaws je → accounted s h → alloc_step je s h op = Allocated r s' h' → accounted s' h'.
Proof. destruct op; simpl; eauto using malloc_accounted, free_accounted, realloc_accounted. Qed.

(** C24: Over any sequence of malloc, free and realloc calls of the runtime's allocator, refused
    requests included, malloc_count stays the number of live blocks and malloc_size the sum of their
    usable sizes and overheads, both modulo 2^64. *)
Theorem alloc_run_accounted je s h ops s' h' :
  JemallocLaws je → accounted s h → alloc_run je s h ops = Some (s', h') → accounted s' h'.
Proof.
  intros L. revert s h; induction ops as [|op ops IH]; intros s h A; simpl; [by intros [= <- <-]|].
  destruct (alloc_step je s h op) as [r s1 h1| |] eqn:E; [|done|done].
  intros H. eapply IH; [|done]. by eapply alloc_step_accounted.
Qed.

(** A heap of two blocks. *)
Definition two_blocks : jemalloc :=
  mkJemalloc (λ h size, if bool_decide (h !! 64 = None) then Some (64, size)
                        else if bool_decide (h !! 128 = None) then Some (128, size) else None)
    (λ h p size, Some (p, size)).

Lemma two_blocks_laws : JemallocLaws two_blocks.
Proof.
  split; simpl; [|intros h p size q u [= <- <-]; by left]. intros h size p u.
  destruct (bool_decide (h !! 64 = None)) eqn:E1; [intros [= <- <-]; by apply bool_decide_eq_true in E1|].
  destruct (bool_decide (h !! 128 = None)) eqn:E2; [|done]. intros [= <- <-]. by apply bool_decide_eq_true in E2.
Qed.

Lemma alloc_run_accounted_witness :
  accounted (mkMallocState 1 40 (2 ^ 64 - 1)) {[ 128 := 32 ]}.
Proof. apply (alloc_run_accounted two_blocks fresh_malloc_state ∅ [OpMalloc 16; OpMalloc 8; OpRealloc (Some 128) 32; OpFree (Some 64)] (mkMallocState 1 40 (2 ^ 64 - 1)) {[ 128 := 32 ]}); [apply two_blocks_laws|done|vm_compute; reflexivity]. Defined.

(** A request over the limit is refused and changes nothing. *)
Lemma malloc_over_limit je s h size :
  0 < size → malloc_limit s < malloc_size s + size < 2 ^ 64 → 0 ≤ malloc_size s →
  je_def_malloc je s h size = Allocated None s h.
Proof.
  intros H0 [H1 H2] H3. unfold je_def_malloc. rewrite (proj2 (Z.eqb_neq _ _)) by lia.
  unfold unsigned64. rewrite Z.mod_small by lia. by rewrite (proj2 (Z.ltb_lt _ _)).
Qed.

(** ** The job queue *)

(** A job: whether it returns without an exception, and the jobs it enqueues. *)
#[warnings="-register-all"]
Inductive job := Job (id : Z) (ok : bool) (enqueues : list job).

Definition job_ok '(Job _ ok _) : bool := ok.

(** JS_ExecutePendingJob: 0 without a job, 1, or -1 after an exception. *)
Definition JS_ExecutePendingJob (queue : list job) : Z * list Z * list job :=
  match queue with
  | [] => (0, [], [])
  | Job id ok new :: queue => (if ok then 1 else -1, [id], queue ++ new)
  end.

(** The jobs run, the ones left and whether an error was dumped; [None] without fuel. *)
Fixpoint ijExecuteJobs (fuel : nat) (queue : list job) : option (list Z * list job * bool) :=
  match fuel with
  | O => None
  | S fuel =>
      let '(err, ran, queue) := JS_ExecutePendingJob queue in
      if err <=? 0 then Some (ran, queue, err <? 0)
      else
        match ijExecuteJobs fuel queue with
        | Some (ran', queue, dumped) => Some (ran ++ ran', queue, dumped)
        | None => None
        end
  end.

(** The part of IJJSRuntime the loop callbacks use. *)
Record IJJSRuntime := mkRuntime {
  rt_jobs : list job;
  rt_idle : bool;        (** jobs.idle is active *)
  rt_ran : list Z
}.

Definition uvMaybeIdle (qrt : IJJSRuntime) : IJJSRuntime :=
  mkRuntime (rt_jobs qrt) (match rt_jobs qrt with [] => false | _ => true end) (rt_ran qrt).

Definition uvPrepareCb (qrt : IJJSRuntime) : IJJSRuntime := uvMaybeIdle qrt.

Definition uvCheckCb (fuel : nat) (qrt : IJJSRuntime) : option IJJSRuntime :=
  match ijExecuteJobs fuel (rt_jobs qrt) with
  | Some (ran, queue, _) => Some (uvMaybeIdle (mkRuntime queue (rt_idle qrt) (rt_ran qrt ++ ran)))
  | None => None
  end.

(** [n] turns of the loop, in which nothing else enqueues a job. *)
Fixpoint turns (fuel n : nat) (qrt : IJJSRuntime) : option IJJSRuntime :=
  match n with
  | O => Some qrt
  | S n =>
      match uvCheckCb fuel (uvPrepareCb qrt) with
      | Some qrt => turns fuel n qrt
      | None => None
      end
  end.

(** Measures of a queue, the jobs still to be enqueued included: how many, how many fail, which. *)
Fixpoint jsize (j : job) : nat := match j with Job _ _ new => S (list_sum (map jsize new)) end.
Fixpoint jfail (j : job) : nat := match j with Job _ ok new => (if ok then 0 else 1) + list_sum (map jfail new) end.
Fixpoint jids (j : job) : list Z := match j with Job id _ new => id :: concat (map jids new) end.
Definition qsize (q : list job) : nat := list_sum (map jsize q).
Definition qfail (q : list job) : nat := list_sum (map jfail q).
Definition qids (q : list job) : list Z := concat (map jids q).

Lemma qsize_next id ok new q : qsize (Job id ok new :: q) = S (qsize (q ++ new)).
Proof. unfold qsize. rewrite map_app, list_sum_app. simpl. lia. Qed.

Lemma qfail_next id ok new q : qfail (Job id ok new :: q) = ((if ok then 0 else 1) + qfail (q ++ new))%nat.
Proof. unfold qfail. rewrite map_app, list_sum_app. simpl. lia. Qed.

Lemma qids_next id ok new q : Permutation (id :: qids (q ++ new)) (qids (Job id ok new :: q)).
Proof. unfold qids. rewrite map_app, concat_app. simpl. constructor. apply Permutation_app_comm. Qed.

(** With fuel for the jobs there are, the loop ends: each is run once, and it ends with an
    empty queue or behind the first job that failed. *)
Lemma execute_jobs_spec fuel q :
  (qsize q < fuel)%nat →
  ∃ ran q' (dumped : bool), ijExecuteJobs fuel q = Some (ran, q', dumped) ∧
    Permutation (ran ++ qids q') (qids q) ∧ (qsize q' ≤ qsize q)%nat ∧
    if dumped then qfail q = S (qfail q') else q' = [] ∧ qfail q = 0%nat.
Proof.
  revert q; induction fuel as [|fuel IH]; intros q Hf; [lia|].
  destruct q as [|[id ok new] q]; [by exists [], [], false|].
  rewrite qsize_next in Hf. simpl. destruct ok; simpl.
  - destruct (IH (q ++ new)) as (ran & q' & d & -> & HP & Hs & Hd); [lia|].
    exists (id :: ran), q', d. split; [done|]. split; [|split].
    + rewrite <- (qids_next id true new q). by constructor.
    + rewrite qsize_next. lia.
    + rewrite qfail_next. by destruct d.
  - exists [id], (q ++ new), true. split; [done|]. split; [|split].
    + apply qids_next.
    + rewrite qsize_next. lia.
    + by rewrite qfail_next.
Qed.

(** The idle handle is active exactly while jobs are pending. *)
Lemma check_idle fuel qrt qrt' :
  uvCheckCb fuel qrt = Some qrt' → rt_idle qrt' = true ↔ rt_jobs qrt' ≠ [].
Proof.
  unfold uvCheckCb. destruct (ijExecuteJobs _ _) as [[[ran q] d]|]; [|done]. intros [= <-]. simpl.
  by destruct q.
Qed.

Lemma turns_empty fuel n r : (0 < fuel)%nat → turns fuel n (mkRuntime [] false r) = Some (mkRuntime [] false r).
Proof.
  intros Hf. induction n as [|n IH]; [done|]. destruct fuel; [lia|]. simpl.
  unfold uvCheckCb, uvMaybeIdle. simpl. by rewrite app_nil_r.
Qed.


(** A job that enqueues one that fails, and another. *)
Definition sample_jobs : list job := [Job 1 true [Job 3 false [Job 4 true []]]; Job 2 true []].


(** ** ijEvalFile *)

Definition JS_EVAL_TYPE_GLOBAL : Z := 0.
Definition JS_EVAL_TYPE_MODULE : Z := 1.
Definition JS_EVAL_TYPE_MASK : Z := 3.
Definition JS_EVAL_FLAG_COMPILE_ONLY : Z := 2 ^ 5.

Inductive eval_call :=
| JS_Eval (source name : bytes) (flags : Z)
| ijModuleSetImportMeta (use_realpath is_main : bool)
| JS_EvalFunction
| ijDumpError.

(** [ev_detect]: JS_DetectModule. [ev_eval], [ev_function]: no exception. *)
Record evaluator := mkEvaluator {
  ev_fs : file_system;
  ev_detect : bytes → bool;
  ev_eval : bytes → bytes → Z → bool;
  ev_function : bytes → bool
}.

Definition emit_window_load : bytes := lit "window.dispatchEvent(new Event('load'));".

(** The result ([false] for an exception), the calls of the engine in order and the open
    descriptors; [None] when the loop of ijLoadFile does not end. *)
Definition ijEvalFile (e : evaluator) (fuel : nat) (filename : bytes) (flags : Z) (is_main : bool)
    (override_filename : option bytes) (fds : gset Z) : option (bool * list eval_call * gset Z) :=
  match ijLoadFile (ev_fs e) fuel [] filename fds with
  | None => None
  | Some (r, dbuf, fds) =>
      if negb (r =? 0) then Some (false, [], fds)
      else
        let dbuf := (dbuf_put (ev_fs e) dbuf [ascii_of_nat 0]).2 in
        let eval_flags :=
          if flags =? -1 then (if ev_detect e dbuf then JS_EVAL_TYPE_MODULE else JS_EVAL_TYPE_GLOBAL) else flags in
        let name := default filename override_filename in
        let '(ret, calls) :=
          if Z.land eval_flags JS_EVAL_TYPE_MASK =? JS_EVAL_TYPE_MODULE then
            let flags := Z.lor eval_flags JS_EVAL_FLAG_COMPILE_ONLY in
            if ev_eval e dbuf name flags
            then (ev_function e name, [JS_Eval dbuf name flags; ijModuleSetImportMeta true is_main; JS_EvalFunction])
            else (false, [JS_Eval dbuf name flags])
          else (ev_eval e dbuf name eval_flags, [JS_Eval dbuf name eval_flags]) in
        let calls :=
          if ret && is_main then
            calls ++ [JS_Eval emit_window_load (lit "<global>") JS_EVAL_TYPE_GLOBAL] ++
            (if ev_eval e emit_window_load (lit "<global>") JS_EVAL_TYPE_GLOBAL then [] else [ijDumpError])
          else calls in
        Some (ret, calls, fds)
  end.

(** A readable file is evaluated whole, as a module when asked to or when it looks like
    one; the load event is dispatched behind a successful main script only. *)
Lemma eval_file_spec e fuel filename flags is_main override fds contents :
  0 ≤ fs_open (ev_fs e) filename → reads (ev_fs e) (fs_open (ev_fs e) filename) contents →
  (∀ n, dbuf_grow (ev_fs e) n = true) → (length contents < fuel)%nat →
  let src := contents ++ [ascii_of_nat 0] in
  let f := if flags =? -1 then Z.b2z (ev_detect e src) else flags in
  ∃ ret rest fds',
    ijEvalFile e fuel filename flags is_main override fds =
    Some (ret, JS_Eval src (default filename override)
                 (if Z.land f JS_EVAL_TYPE_MASK =? JS_EVAL_TYPE_MODULE then Z.lor f JS_EVAL_FLAG_COMPILE_ONLY else f)
               :: rest, fds') ∧
    (JS_Eval emit_window_load (lit "<global>") JS_EVAL_TYPE_GLOBAL ∈ rest ↔ ret = true ∧ is_main = true).
Proof.
  intros Ho Hr Hg Hf src f. unfold ijEvalFile. erewrite load_file_correct by done. simpl negb. cbv iota.
  unfold dbuf_put. rewrite Hg. cbn [snd app]. fold src.
  replace (if flags =? -1 then _ else _) with f by (subst f; by destruct (ev_detect e src)).
  destruct (_ =? JS_EVAL_TYPE_MODULE) eqn:Em.
  - destruct (ev_eval e src _ _); [destruct (ev_function e _), is_main|]; simpl;
      do 3 eexists; (split; [reflexivity|]); set_solver.
  - destruct (ev_eval e src _ f), is_main; simpl; do 3 eexists; (split; [reflexivity|]); set_solver.
Qed.

(** An engine that accepts every script and takes none for a module. *)
Definition hello_evaluator : evaluator := mkEvaluator hello_fs (λ _, false) (λ _ _ _, true) (λ _, true).
