(* ===== verification/Std.v ===== *)
(** * ijlog.c, ijstd.c and ijbootstrap.c

    The log functions hand the text of the script to zlog as a format; the log directory is made
    beside the script. Scripts evaluated from JavaScript, and the scripts of the runtime. *)

From S2P Require Import Prelude State Runtime Logic Promise Worlds XhrHeaders.

(** ** ijlog.c *)

(** A string of quickjs as C reads it. *)
Definition cut_nul (s : bytes) : bytes := default s (c_string s).

Definition PERCENT : ascii := "%".

(** What vsnprintf makes of a format without further arguments; [None] when a conversion wants one. *)
Fixpoint zformat (s : bytes) : option bytes :=
  match s with
  | [] => Some []
  | c :: t =>
      if (c =? PERCENT)%char then
        match t with
        | d :: t => if (d =? PERCENT)%char then cons PERCENT <$> zformat t else None
        | [] => None
        end
      else cons c <$> zformat t
  end.

Definition zlog (level : string) (format : bytes) : M unit :=
  match zformat format with
  | None => fail OutOfBounds
  | Some t => log level [AB t]
  end.

(** The body the four functions share. *)
Definition ijLogAt (level : string) (argv : list JSValue) : M JSValue :=
  jsData ← arg_at argv 0 ;
  iss ← JS_IsString jsData ;
  if (iss : bool) then
    o ← JS_ToCString jsData ;
    match o with
    | None => mret JS_EXCEPTION
    | Some (_, buf) => zlog level (cut_nul buf) ;; mret JS_NULL
    end
  else mret JS_EXCEPTION.

Definition ijLogFatal (this : JSValue) (argv : list JSValue) : M JSValue := ijLogAt "zlog_fatal" argv.
Definition ijLogWarn (this : JSValue) (argv : list JSValue) : M JSValue := ijLogAt "zlog_warn" argv.
Definition ijLogInfo (this : JSValue) (argv : list JSValue) : M JSValue := ijLogAt "zlog_info" argv.
Definition ijLogDebug (this : JSValue) (argv : list JSValue) : M JSValue := ijLogAt "zlog_debug" argv.

Definition ijLogFinalize (this : JSValue) (argv : list JSValue) : M JSValue :=
  log "zlog_fini" [] ;; mret JS_NULL.

Definition ijjs_log_proto_funcs : list cfunction :=
  [CFUNC "fatal" 1 ijLogFatal; CFUNC "warn" 1 ijLogWarn; CFUNC "info" 1 ijLogInfo; CFUNC "debug" 1 ijLogDebug;
   CFUNC "finalize" 0 ijLogFinalize].

(** *** The directory of the log: ijModLogInit *)

Definition LOG_BUF : nat := 256.
Definition is_sep (c : ascii) : bool := (c =? "/")%char || (c =? "\")%char.

(** The loop from the end of the buffer, on the reversed buffer. *)
Fixpoint clear_back (rbuf : bytes) : bytes :=
  match rbuf with
  | [] => []
  | c :: r => if is_sep c then c :: r else NUL :: clear_back r
  end.

(** The buffer with the name in it, [None] when a string does not fit. *)
Definition log_dir (script : bytes) : option bytes :=
  if (length script <? LOG_BUF)%nat then
    let buf := script ++ replicate (LOG_BUF - length script) NUL in
    let buf := reverse (clear_back (reverse buf)) in
    match c_string buf with
    | None => None
    | Some dir => if (length dir + 3 <? LOG_BUF)%nat then Some (dir ++ lit "log") else None
    end
  else None.

(** ** ijstd.c *)

Section Std.
(** The engine: JS_Eval of a string, and ijEvalFile of a file with JS_EVAL_TYPE_GLOBAL. *)
Context (js_eval eval_file : bytes → M JSValue).

Definition with_string (v : JSValue) (k : bytes → M JSValue) : M JSValue :=
  str ← JS_ToCString v ;
  match str with
  | None => mret JS_EXCEPTION
  | Some (q, s) => ret ← k s ; JS_FreeCString q ;; mret ret
  end.

Definition ijLoadScript (this : JSValue) (argv : list JSValue) : M JSValue :=
  filename ← arg_at argv 0 ; with_string filename (λ s, eval_file (cut_nul s)).

Definition ijEvalScript (this : JSValue) (argv : list JSValue) : M JSValue :=
  str ← arg_at argv 0 ; with_string str js_eval.
End Std.

(** The status given to exit, which does not return. *)
Definition ijStdExit (argv : list JSValue) : M Z :=
  v ← arg_at argv 0 ; status ← JS_ToInt32 v ; mret (default (-1) status).

Definition ijStdGc (this : JSValue) (argv : list JSValue) : M JSValue := log "JS_RunGC" [] ;; mret JS_UNDEFINED.

(** ** ijbootstrap.c *)

(** A script of the runtime by its name: JS_ReadObject gives a function or a module, JS_EvalFunction takes over the
    reference to it. *)
Definition ijEvalBinary (name : string) : M Z :=
  let error := (ijDumpError ;; mret (-1)) in
  obj ← js_try_new "JS_ReadObject" (BFunction 0) ;
  if JS_IsException obj then error
  else
    m ← ask "is_module" [AB (lit name)] ;
    ok ← (if negb (m =? 0) then
            r ← ask "JS_ResolveModule" [AB (lit name)] ;
            if r <? 0 then JS_FreeValue obj ;; mret false
            else log "ijModuleSetImportMeta" [AB (lit name)] ;; mret true
          else mret true) ;
    if (ok : bool) then
      log "JS_EvalFunction" [AB (lit name)] ;;
      JS_FreeValue obj ;;
      val ← js_try_new "JS_EvalFunction" (BObject []) ;
      if JS_IsException val then error
      else JS_FreeValue val ;; mret 0
    else error.

Fixpoint eval_binaries (names : list string) : M unit :=
  match names with
  | [] => mret tt
  | n :: names => r ← ijEvalBinary n ; CHECK (r =? 0) ;; eval_binaries names
  end.

Definition bootstrap_scripts : list string :=
  ["bootstrap"; "encoding"; "console"; "crypto"; "event_target"; "performance"; "url"; "fetch"; "abort_controller"; "wasm"; "bootstrap2"]%string.
Definition builtin_scripts : list string := ["getopts"; "hashlib"; "path"; "uuid"]%string.

Definition ijBootstrapGlobals : M unit := eval_binaries bootstrap_scripts.
Definition ijAddBuiltins : M unit := eval_binaries builtin_scripts.

(** ** Theorems *)

(** A text without conversions is logged as it is, and the string quickjs made of it is never released. *)
Lemma log_plain level v s w :
  body_of v w = Some (BString s) → PERCENT ∉ cut_nul s →
  wp (ijLogAt level [v]) (λ r w', r = JS_NULL ∧ head (w_log w') = Some (Ev level [AB (cut_nul s)]) ∧
    ∃ q, w_mem w !! q = None ∧ w_mem w' = <[q := (ByCString, CStr s)]> (w_mem w)) w.
Proof.
  intros Hv Hp. unfold ijLogAt, JS_IsString. wp_step. eapply wp_arg_at; [done|]. do 2 wp_step. rewrite Hv. cbv iota. wp_step.
  eapply wp_ToCString_str; [done|]. intros q Hq. cbv iota beta. unfold zlog.
  assert (zformat (cut_nul s) = Some (cut_nul s)) as ->.
  { revert Hp. generalize (cut_nul s). clear. intros b. induction b as [|c b IH]; intros Hp; [done|]. cbn [zformat].
    rewrite (proj2 (Ascii.eqb_neq c PERCENT)) by set_solver. by rewrite IH by set_solver. }
  do 2 wp_step. wp_step. split_and!; [done|done|]. by exists q.
Qed.

(** A text with a conversion makes zlog read arguments that were not passed. *)
Lemma log_format level v s t c w :
  body_of v w = Some (BString (s ++ PERCENT :: c :: t)) → PERCENT ∉ s → c ≠ PERCENT → NUL ∉ s ++ PERCENT :: [c] →
  ijLogAt level [v] w = Fault OutOfBounds.
Proof.
  intros Hv Hs Hc Hn. unfold ijLogAt, JS_IsString. apply fault_bind. eapply wp_arg_at; [done|]. apply fault_bind. wp_step. rewrite Hv.
  cbv iota. apply fault_bind. eapply wp_ToCString_str; [done|]. intros q Hq. cbv iota beta. apply fault_first. unfold zlog.
  assert (∃ r, cut_nul (s ++ PERCENT :: c :: t) = s ++ PERCENT :: c :: r) as [r ->].
  { unfold cut_nul. clear Hv Hs Hc Hq. induction s as [|d s IH]; cbn [app c_string].
    - rewrite (proj2 (Ascii.eqb_neq PERCENT NUL)) by done. rewrite (proj2 (Ascii.eqb_neq c NUL)) by set_solver.
      destruct (c_string t) as [r|]; [by exists r|by exists t].
    - rewrite (proj2 (Ascii.eqb_neq d NUL)) by set_solver. destruct IH as [r IH]; [set_solver|].
      destruct (c_string _) as [u|]; simpl in IH |- *; [exists r; by rewrite IH|exists t; done]. }
  assert (zformat (s ++ PERCENT :: c :: r) = None) as ->; [|done].
  clear Hv Hn. induction s as [|d s IH]; cbn [app zformat].
  - change (PERCENT =? PERCENT)%char with true. cbv iota. by rewrite (proj2 (Ascii.eqb_neq c PERCENT)).
  - rewrite (proj2 (Ascii.eqb_neq d PERCENT)) by set_solver. by rewrite IH by set_solver.
Qed.

Lemma clear_back_app l r : Forall (λ c, is_sep c = false) l → clear_back (l ++ r) = replicate (length l) NUL ++ clear_back r.
Proof. induction 1 as [|c l Hc Hl IH]; [done|]. cbn [clear_back app length replicate]. by rewrite Hc, IH. Qed.

Lemma c_string_cut s t : NUL ∉ s → c_string (s ++ NUL :: t) = Some s.
Proof.
  induction s as [|c s IH]; intros H; [done|]. cbn [app c_string].
  rewrite (proj2 (Ascii.eqb_neq c NUL)) by set_solver. by rewrite IH by set_solver.
Qed.

(** The log directory is beside the script. *)
Lemma log_dir_beside dir base :
  Forall (λ c, is_sep c = false) base → NUL ∉ dir ++ ["/"%char] ++ base →
  (length (dir ++ ["/"%char] ++ base) < LOG_BUF)%nat → (length dir + 4 < LOG_BUF)%nat →
  log_dir (dir ++ ["/"%char] ++ base) = Some (dir ++ ["/"%char] ++ lit "log").
Proof.
  intros Hb Hn Hl Hd. unfold log_dir. rewrite (proj2 (Nat.ltb_lt _ _)) by done.
  set (k := (LOG_BUF - _)%nat). assert (Hk : (k ≠ 0)%nat) by (subst k; lia).
  rewrite !reverse_app, reverse_replicate, <- app_assoc, clear_back_app by by apply Forall_replicate.
  rewrite clear_back_app by by apply Forall_reverse. cbn [reverse rev_append app clear_back].
  change (is_sep "/") with true. cbv iota. rewrite length_reverse, length_replicate, app_assoc, <- replicate_add.
  rewrite reverse_app, reverse_cons, reverse_involutive, reverse_replicate.
  destruct k as [|k]; [done|]. cbn [Nat.add replicate]. rewrite c_string_cut by set_solver.
  rewrite length_app. cbn [length]. rewrite (proj2 (Nat.ltb_lt _ _)) by lia. by rewrite <- app_assoc.
Qed.

(** A path of 256 characters or more is written beyond the buffer. *)
Lemma log_dir_overflow script : (LOG_BUF ≤ length script)%nat → log_dir script = None.
Proof. intros H. unfold log_dir. by rewrite (proj2 (Nat.ltb_ge _ _)). Qed.

(** *** Scripts of the runtime *)

Lemma quietly_ijEvalBinary name : quietly_nn (ijEvalBinary name) (λ r, r = 0 ∨ r = -1).
Proof.
  intros w Hn. unfold ijEvalBinary.
  assert (HE : ∀ w', quiet w w' → wp (ijDumpError ;; mret (-1)) (λ r w', quiet w w' ∧ (r = 0 ∨ r = -1)) w').
  { intros w' Hq. wp_step. eapply wp_quietly_nn; [apply quietly_ijDumpError|by eapply quiet_nonneg|].
    intros _ w2 _ Hq2. wp_step. split; [by etrans|by right]. }
  wp_step. apply wp_try_new; [|intros w' Hq; cbn [JS_IsException]; by apply HE].
  intros a Ha Ra. cbn [JS_IsException]. set (w1 := new_cell a _ _).
  assert (G1 : gives w w1 [a]).
  { subst w1. eapply quiet_gives; [apply (quiet_log_ev (Ev "JS_ReadObject" []))|]. by apply gives_new_cell. }
  assert (D : ∀ w2, gives w w2 [a] → quiet w (drop_ref (JS_REF a) w2)).
  { intros w2 [E2 M2 R2 C2 H2]. split; world_simpl; try done. intros a'. world_simpl. rewrite ?R2. world_simpl. repeat case_decide; lia. }
  clearbody w1. wp_step. wp_step. wp_step.
  set (w2 := log_ev _ w1). assert (G2 : gives w w2 [a]) by (eapply gives_then_quiet; [exact G1|apply quiet_log_ev]). clearbody w2.
  apply (wp_mono _ (λ (ok : bool) w3, if ok then gives w w3 [a] else quiet w w3)).
  { destruct (negb _); [|by wp_step]. do 2 wp_step. destruct (_ <? 0).
    - wp_step. apply wp_FreeValue; [exact (gives_holds _ _ _ G2)|]. wp_step. apply D. eapply gives_then_quiet; [exact G2|apply quiet_log_ev].
    - do 3 wp_step. eapply gives_then_quiet; [exact G2|]. etrans; apply quiet_log_ev. }
  intros [] w3 H3; cbv iota in H3; [|by apply HE]. do 3 wp_step. apply wp_FreeValue; [exact (gives_holds _ _ _ H3)|].
  set (w4 := drop_ref _ _). assert (Q4 : quiet w w4) by (apply D; eapply gives_then_quiet; [exact H3|apply quiet_log_ev]). clearbody w4.
  wp_step. apply wp_try_new; [|intros w' Hq; cbn [JS_IsException]; apply HE; by etrans].
  intros b Hb Rb. cbn [JS_IsException]. wp_step. apply wp_FreeValue.
  { apply holds_one. world_simpl. rewrite decide_True by done. world_simpl_in Rb. lia. }
  wp_step. split; [|by left]. etrans; [exact Q4|]. etrans; [apply (quiet_log_ev (Ev "JS_EvalFunction" []))|]. by apply quiet_drop_new.
Qed.

(** The scripts run in order; one that fails stops the process. Nothing of them stays with C code. *)
Lemma eval_binaries_spec names w w' :
  nonneg w → eval_binaries names w = Ok tt w' → quiet w w' ∧ nonneg w'.
Proof.
  revert w; induction names as [|n names IH]; intros w Hn; cbn [eval_binaries].
  { intros [= ->]. done. }
  intros H. unfold mbind, M_bind in H. pose proof (quietly_ijEvalBinary n w Hn) as Hq. unfold wp in Hq.
  destruct (ijEvalBinary n w) as [r w1| |]; try done. destruct Hq as [Hq _]. unfold CHECK in H. destruct (r =? 0); [|done].
  simpl in H. destruct (IH w1) as [H1 H2]; [by eapply quiet_nonneg|done|]. split; [by etrans|done].
Qed.
