(* ===== verification/Life.v ===== *)
(** * ijvm.c: the life of a runtime, and unhandled rejections

    The handles of the loop by number: the four of the runtime, the timer of curl, and those of
    JavaScript objects. libuv's part: a handle stays in the loop until a turn after it was closed, a loop
    with handles or requests cannot be closed. *)

From S2P Require Import Prelude State Runtime Logic Promise Worlds XhrProofs.

(** ** The loop *)

Definition H_PREPARE : Z := 0.
Definition H_IDLE : Z := 1.
Definition H_CHECK : Z := 2.
Definition H_STOP : Z := 3.
Definition H_TIMER : Z := 4.

Record loop := mkLoop { lp_open : gset Z; lp_closing : gset Z; lp_reqs : nat }.

(** uv_close of a handle that is open; anything else is an assertion of libuv. *)
Definition loop_uv_close (h : Z) (l : loop) : option loop :=
  if decide (h ∈ lp_open l) then Some (mkLoop (lp_open l ∖ {[h]}) ({[h]} ∪ lp_closing l) (lp_reqs l)) else None.

(** uv_loop_close, true for 0 *)
Definition uv_loop_close (l : loop) : bool :=
  bool_decide (lp_open l = ∅) && bool_decide (lp_closing l = ∅) && (lp_reqs l =? 0)%nat.

(** uv_run with UV_RUN_NOWAIT: handles that are closing leave, [finished] requests complete. *)
Definition uv_run_nowait (finished : nat) (l : loop) : loop := mkLoop (lp_open l) ∅ (lp_reqs l - finished).

(** The finalizers JS_FreeContext and JS_FreeRuntime run close the handles of the objects. *)
Fixpoint close_all (hs : list Z) (l : loop) : option loop :=
  match hs with
  | [] => Some l
  | h :: hs => l ← loop_uv_close h l ; close_all hs l
  end.

(** [n] attempts; [None] when none of them closes the loop, which CHECK_EQ(closed, 1) turns into an abort.
    [finish i] requests complete in turn [i]. *)
Fixpoint close_loop (n : nat) (finish : nat → nat) (i : nat) (l : loop) : option loop :=
  match n with
  | O => None
  | S n => if uv_loop_close l then Some l else close_loop n finish (S i) (uv_run_nowait (finish i) l)
  end.

Definition CLOSE_TRIES : nat := 5.

(** [js] are the handles of objects, [curlm] whether there is a multi handle. *)
Definition ijFreeRuntime (js : list Z) (curlm : bool) (finish : nat → nat) (l : loop) : option loop :=
  l ← loop_uv_close H_PREPARE l ;
  l ← loop_uv_close H_IDLE l ;
  l ← loop_uv_close H_CHECK l ;
  l ← loop_uv_close H_STOP l ;
  l ← close_all js l ;
  l ← (if curlm then loop_uv_close H_TIMER l else Some l) ;
  close_loop CLOSE_TRIES finish 0 l.

(** uv_loop_init and the four init calls *)
Definition new_loop : loop := mkLoop {[ H_PREPARE; H_IDLE; H_CHECK; H_STOP ]} ∅ 0.

(** What is in the loop while the runtime is used. *)
Definition in_use (js : list Z) (curlm : bool) (reqs : nat) : loop :=
  mkLoop ({[ H_PREPARE; H_IDLE; H_CHECK; H_STOP ]} ∪ list_to_set js ∪ (if curlm then {[ H_TIMER ]} else ∅)) ∅ reqs.

Lemma close_all_spec js l :
  NoDup js → list_to_set js ⊆ lp_open l →
  close_all js l = Some (mkLoop (lp_open l ∖ list_to_set js) (list_to_set js ∪ lp_closing l) (lp_reqs l)).
Proof.
  revert l; induction js as [|h js IH]; intros l Hn Hs; cbn [close_all].
  - f_equal. destruct l as [op cl rq]. simpl. f_equal; set_solver.
  - apply NoDup_cons in Hn as [Hh Hn]. unfold loop_uv_close. rewrite decide_True by set_solver. cbn.
    rewrite IH; [|done|simpl; set_solver]. simpl. do 2 f_equal; set_solver.
Qed.

(** Turns until the loop is closed: the requests that complete before the last attempt count. *)
Fixpoint finished (finish : nat → nat) (i n : nat) : nat :=
  match n with O => 0 | S n => finish i + finished finish (S i) n end.

Lemma close_loop_spec n finish i reqs :
  is_Some (close_loop (S n) finish i (mkLoop ∅ ∅ reqs)) ↔ (reqs ≤ finished finish i n)%nat.
Proof.
  revert i reqs; induction n as [|n IH]; intros i reqs; cbn [close_loop finished].
  - unfold uv_loop_close. cbn. destruct (Nat.eqb_spec reqs 0) as [->|]; split; intros H; [lia|by eexists|by destruct H|lia].
  - unfold uv_loop_close at 1. cbn [lp_open lp_closing lp_reqs]. rewrite !bool_decide_eq_true_2 by done. cbn [andb].
    destruct (Nat.eqb_spec reqs 0) as [->|Hr].
    + split; intros _; [lia|by eexists].
    + unfold uv_run_nowait. cbn [lp_open lp_reqs]. rewrite (IH (S i) (reqs - finish i)%nat). lia.
Qed.

Lemma close_all_app hs1 hs2 l : close_all (hs1 ++ hs2) l = (l ← close_all hs1 l ; close_all hs2 l).
Proof. revert l; induction hs1 as [|h hs1 IH]; intros l; [done|]. cbn. destruct (loop_uv_close h l); [|done]. cbn. apply IH. Qed.

(** The handles that are closed, in order. *)
Definition all_handles (js : list Z) (curlm : bool) : list Z :=
  [H_PREPARE; H_IDLE; H_CHECK; H_STOP] ++ js ++ (if curlm then [H_TIMER] else []).

Lemma free_runtime_closes js curlm finish l :
  ijFreeRuntime js curlm finish l = (l ← close_all (all_handles js curlm) l ; close_loop CLOSE_TRIES finish 0 l).
Proof.
  unfold ijFreeRuntime, all_handles. cbn [app close_all]. 
  destruct (loop_uv_close H_PREPARE l) as [l0|]; [|done]. cbn. destruct (loop_uv_close H_IDLE l0) as [l1|]; [|done]. cbn.
  destruct (loop_uv_close H_CHECK l1) as [l2|]; [|done]. cbn. destruct (loop_uv_close H_STOP l2) as [l3|]; [|done]. cbn.
  rewrite close_all_app. destruct (close_all js l3) as [l4|]; [|done]. cbn. destruct curlm; cbn; [|done].
  by destruct (loop_uv_close H_TIMER l4).
Qed.

Lemma all_handles_nodup js curlm : NoDup js → Forall (λ h, H_TIMER < h) js → NoDup (all_handles js curlm).
Proof.
  intros Hn Hj. rewrite Forall_forall in Hj. unfold all_handles.
  assert (N : ∀ h, h ≤ H_TIMER → h ∉ js) by (intros h Hh Hin; specialize (Hj _ Hin); lia).
  apply NoDup_app. split_and!.
  - apply (bool_decide_unpack _). by vm_compute.
  - intros h Hh Hin. apply elem_of_app in Hin as [Hin|Hin].
    + revert Hin. apply N. repeat (apply elem_of_cons in Hh as [->|Hh]; [done|]). by apply not_elem_of_nil in Hh.
    + destruct curlm; [|by apply not_elem_of_nil in Hin]. apply list_elem_of_singleton in Hin as ->.
      by repeat (apply elem_of_cons in Hh as [?|Hh]; [done|]); apply not_elem_of_nil in Hh.
  - apply NoDup_app. split_and!; [done| |].
    + intros h Hh Hin. destruct curlm; [|by apply not_elem_of_nil in Hin]. apply list_elem_of_singleton in Hin as ->. by apply (N H_TIMER).
    + destruct curlm; [apply NoDup_singleton|apply NoDup_nil_2].
Qed.



(** ** Unhandled rejections *)

(** JS_CallConstructor: a new object, or an exception. *)
Definition JS_CallConstructor (f : JSValue) (argv : list JSValue) : M JSValue :=
  js_try_new "JS_CallConstructor" (BObject []).

(** [global] is the global object, [abort_on] the option of the runtime. *)
Definition ijPromiseRejectionTracker (global : JSValue) (abort_on : bool) (reason : JSValue) (is_handled : bool) : M unit :=
  if is_handled then mret tt
  else
    global_obj ← JS_DupValue global ;
    event_ctor ← JS_GetPropertyStr global_obj "PromiseRejectionEvent" ;
    CHECK (negb (JS_IsUndefined event_ctor)) ;;
    event_name ← JS_NewString (lit "unhandledrejection") ;
    event ← JS_CallConstructor event_ctor [event_name; reason] ;
    CHECK (negb (JS_IsException event)) ;;
    dispatch_func ← JS_GetPropertyStr global_obj "dispatchEvent" ;
    CHECK (negb (JS_IsUndefined dispatch_func)) ;;
    ret ← JS_Call dispatch_func [event] ;
    JS_FreeValue global_obj ;;
    JS_FreeValue event ;;
    JS_FreeValue event_ctor ;;
    JS_FreeValue event_name ;;
    JS_FreeValue dispatch_func ;;
    (if JS_IsException ret then ijDumpError
     else
       b ← JS_ToBool ret ;
       if negb (b =? 0) then
         log "Unhandled promise rejection" [AV reason] ;;
         ijDumpError1 reason ;;
         if (abort_on : bool) then abort else mret tt
       else mret tt) ;;
    JS_FreeValue ret.

(** The global object has both properties and there is memory for the event. *)
Definition globals_at (g : addr) (w : World) : Prop :=
  ∃ ps f1 f2, w_cell w !! g = Some (BObject ps) ∧
    assoc "PromiseRejectionEvent" ps = Some f1 ∧ assoc "dispatchEvent" ps = Some f2 ∧ f1 ≠ JS_UNDEFINED ∧ f2 ≠ JS_UNDEFINED.
Definition events_work (e : env) : Prop := ∀ args l, e_int e (Ev "JS_CallConstructor" args :: l) = 0.

Lemma wp_release v l w (Q : unit → World → Prop) w0 :
  nonneg w0 → (∀ a, rc w a = rc w0 a + cnt a (ref_of v ++ l)) →
  (∀ w', w_env w' = w_env w → w_mem w' = w_mem w → w_cell w' = w_cell w → (∀ a, rc w' a = rc w0 a + cnt a l) → Q tt w') →
  wp (JS_FreeValue v) Q w.
Proof.
  intros Hn R HQ. apply wp_FreeValue.
  - intros a. rewrite R, cnt_app. specialize (Hn a). pose proof (cnt_nonneg a (ref_of v)). pose proof (cnt_nonneg a l). lia.
  - apply HQ; world_simpl; try done. intros a. rewrite rc_drop_ref, R, cnt_app. lia.
Qed.

(** Reporting a rejection keeps nothing: memory and references are as before. *)
Lemma rejection_balanced g reason is_handled w :
  nonneg w → globals_at g w → events_work (w_env w) →
  wp (ijPromiseRejectionTracker (JS_REF g) false reason is_handled) (λ _ w', calm w w' ∧ nonneg w') w.
Proof.
  intros Hn (ps & f1 & f2 & Hg & H1 & H2 & N1 & N2) He. unfold ijPromiseRejectionTracker. destruct is_handled; [by wp_step|].
  wp_step. wp_step. wp_step. apply (wp_GetPropertyStr_obj _ ps _ f1); [simpl; world_simpl; exact Hg|by rewrite H1|]. wp_step.
  apply wp_CHECK; [by destruct f1|]. wp_step. apply wp_js_new. intros s Hs Rs. wp_step. unfold JS_CallConstructor, js_try_new.
  wp_step. apply wp_ask_eq. intros z ->. world_simpl. rewrite He. cbn [Z.eqb]. apply wp_js_new. intros e Ee Re.
  wp_step. apply wp_CHECK; [done|]. wp_step.
  assert (Hgs : g ≠ s ∧ g ≠ e).
  { split; intros ->; [world_simpl_in Hs; congruence|]. world_simpl_in Ee. apply lookup_insert_None in Ee as [Ee _]. congruence. }
  destruct Hgs as [Hgs Hge].
  apply (wp_GetPropertyStr_obj _ ps _ f2); [simpl; world_simpl; rewrite !lookup_insert_ne by done; exact Hg|by rewrite H2|]. wp_step.
  apply wp_CHECK; [by destruct f2|]. wp_step. set (w1 := take_ref f2 _).
  assert (R1 : ∀ a, rc w1 a = rc w a + cnt a ([g] ++ [e] ++ ref_of f1 ++ [s] ++ ref_of f2)).
  { intros a. subst w1. world_simpl. rewrite ?cnt_app. world_simpl. lia. }
  assert (M1 : w_mem w1 = w_mem w) by (subst w1; by world_simpl).
  assert (E1 : w_env w1 = w_env w) by (subst w1; by world_simpl).
  assert (C1 : ∀ a b, w_cell w !! a = Some b → w_cell w1 !! a = Some b).
  { intros a b Hb. subst w1. world_simpl. world_simpl_in Hs. world_simpl_in Ee. apply lookup_insert_None in Ee as [Ee _].
    rewrite !lookup_insert_ne by congruence. done. }
  clearbody w1. apply wp_JS_Call_calm. intros v w2 E2 M2 R2 _ C2.
  assert (R2' : ∀ a, rc w2 a = rc w a + cnt a (ref_of (JS_REF g) ++ ref_of (JS_REF e) ++ ref_of f1 ++ ref_of (JS_REF s) ++ ref_of f2 ++ ref_of v)).
  { intros a. rewrite R2, R1. simpl ref_of. rewrite !cnt_app. lia. }
  wp_step. eapply wp_release; [exact Hn|exact R2'|]. intros w3 E3 M3 C3 R3.
  wp_step. eapply wp_release; [exact Hn|exact R3|]. intros w4 E4 M4 C4 R4.
  wp_step. eapply wp_release; [exact Hn|exact R4|]. intros w5 E5 M5 C5 R5.
  wp_step. eapply wp_release; [exact Hn|exact R5|]. intros w6 E6 M6 C6 R6.
  wp_step. eapply wp_release; [exact Hn|exact R6|]. intros w7 E7 M7 C7 R7.
  assert (Hn7 : nonneg w7) by (intros a; rewrite R7; specialize (Hn a); pose proof (cnt_nonneg a (ref_of v)); lia).
  assert (Hc : ∀ a b, w_cell w !! a = Some b → is_promise b = false → w_cell w7 !! a = Some b).
  { intros a b Hb Hp. rewrite C7, C6, C5, C4, C3. apply C2; [by apply C1|done]. }
  wp_step. apply (wp_mono _ (λ _ w8, quiet w7 w8)).
  { destruct (JS_IsException v).
    - eapply wp_quietly_nn; [apply quietly_ijDumpError|done|]. by intros.
    - wp_step. apply (wp_mono _ (λ _ w8, w8 = w7)); [unfold JS_ToBool; by destruct v as [| | | | |r]; wp_step|]. intros b ? ->.
      destruct (negb (b =? 0)); [|by wp_step]. do 3 wp_step. eapply wp_quietly_nn; [apply quietly_ijDumpError1|done|].
      intros _ w8 _ Hq. wp_step. etrans; [apply quiet_log_ev|exact Hq]. }
  intros [] w8 [E8 M8 R8 C8]. eapply (wp_release v []); [exact Hn|intros a; by rewrite R8, R7, app_nil_r|].
  intros w9 E9 M9 C9 R9. split.
  - split; [congruence|congruence| |].
    + intros a. rewrite R9, cnt_nil. lia.
    + intros a b Hb Hp. rewrite C9. by apply C8, Hc.
  - intros a. rewrite R9, cnt_nil. specialize (Hn a). lia.
Qed.

(** A global object with both properties. *)
Definition global_world : World :=
  world_with 0 {[ 4%positive := BObject [("PromiseRejectionEvent", JS_REF 5); ("dispatchEvent", JS_REF 6)]%string;
                  5%positive := BFunction 0; 6%positive := BFunction 1 ]} ∅ ∅.
