(* ===== verification/Jsmin.v ===== *)
(** * jsmin.c: the minifier behind [ijjs --min]

    The C globals are the fields of a record, the loops have fuel; [error] leaves the process. That
    the fuel is never used up is proved at the end: on every input the minifier ends. *)

From S2P Require Import Prelude.

Definition EOF : Z := -1.

(** Character codes. *)
Definition ch (c : ascii) : Z := Z.of_nat (nat_of_ascii c).
Definition NEWLINE : Z := 10.
Definition RETURN : Z := 13.
Definition BLANK : Z := 32.
Definition SLASH : Z := ch "/".
Definition STAR : Z := ch "*".
Definition BACKSLASH : Z := ch "\".

(** [j_in]: what is left of the input file. [j_out]: what was written. *)
Record jm := mkJm {
  j_in : list Z;
  j_look : Z;
  j_a : Z;
  j_b : Z;
  j_x : Z;
  j_y : Z;
  j_out : list Z
}.

Definition set_a (v : Z) (s : jm) : jm := mkJm (j_in s) (j_look s) v (j_b s) (j_x s) (j_y s) (j_out s).
Definition set_b (v : Z) (s : jm) : jm := mkJm (j_in s) (j_look s) (j_a s) v (j_x s) (j_y s) (j_out s).
Definition set_look (v : Z) (s : jm) : jm := mkJm (j_in s) v (j_a s) (j_b s) (j_x s) (j_y s) (j_out s).
Definition putc (v : Z) (s : jm) : jm := mkJm (j_in s) (j_look s) (j_a s) (j_b s) (j_x s) (j_y s) (j_out s ++ [v]).
Definition shift_xy (v : Z) (s : jm) : jm := mkJm (j_in s) (j_look s) (j_a s) (j_b s) v (j_x s) (j_out s).

(** A result, the exit of [error], or no fuel. *)
Inductive jres (A : Type) := JDone (a : A) | JError | JStuck.
Arguments JDone {A} a.
Arguments JError {A}.
Arguments JStuck {A}.

#[export] Instance jres_ret : MRet jres := λ A a, JDone a.
#[export] Instance jres_bind : MBind jres := λ A B f m,
  match m with JDone a => f a | JError => JError | JStuck => JStuck end.

Definition is_alphanum (codeunit : Z) : bool :=
  ((ch "a" <=? codeunit) && (codeunit <=? ch "z"))
  || ((ch "0" <=? codeunit) && (codeunit <=? ch "9"))
  || ((ch "A" <=? codeunit) && (codeunit <=? ch "Z"))
  || (codeunit =? ch "_") || (codeunit =? ch "$") || (codeunit =? BACKSLASH) || (126 <? codeunit).

(** The control characters become spaces and linefeeds. *)
Definition translate (codeunit : Z) : Z :=
  if (BLANK <=? codeunit) || (codeunit =? NEWLINE) || (codeunit =? EOF) then codeunit
  else if codeunit =? RETURN then NEWLINE else BLANK.

Definition getc (s : jm) : Z * jm :=
  match j_in s with
  | [] => (EOF, s)
  | c :: r => (c, mkJm r (j_look s) (j_a s) (j_b s) (j_x s) (j_y s) (j_out s))
  end.

Definition get (s : jm) : Z * jm :=
  let codeunit := j_look s in
  let s := set_look EOF s in
  let '(codeunit, s) := if codeunit =? EOF then getc s else (codeunit, s) in
  (translate codeunit, s).

Definition peek (s : jm) : Z * jm := let '(c, s) := get s in (c, set_look c s).

(** *** Comments *)

(** To the end of the line. *)
Fixpoint skip_line (fuel : nat) (s : jm) : jres (Z * jm) :=
  match fuel with
  | O => JStuck
  | S fuel => let '(c, s) := get s in if c <=? NEWLINE then JDone (c, s) else skip_line fuel s
  end.

(** To the end of the comment. *)
Fixpoint skip_block (fuel : nat) (s : jm) : jres jm :=
  match fuel with
  | O => JStuck
  | S fuel =>
      let '(c, s) := get s in
      if c =? STAR then
        let '(d, s) := peek s in
        if d =? SLASH then JDone (snd (get s)) else skip_block fuel s
      else if c =? EOF then JError
      else skip_block fuel s
  end.

Definition next (fuel : nat) (s : jm) : jres (Z * jm) :=
  let '(codeunit, s) := get s in
  '(codeunit, s) ←
    (if codeunit =? SLASH then
       let '(d, s) := peek s in
       if d =? SLASH then skip_line fuel s
       else if d =? STAR then
         s ← skip_block fuel (snd (get s)) ; mret (BLANK, s)
       else mret (codeunit, s)
     else mret (codeunit, s)) ;
  mret (codeunit, shift_xy codeunit s).

(** *** action *)

Definition is_op (c : Z) : bool := (c =? ch "+") || (c =? ch "-") || (c =? STAR) || (c =? SLASH).
Definition is_quote (c : Z) : bool := (c =? ch "'") || (c =? 34) || (c =? ch "`").
Definition before_regexp (c : Z) : bool :=
  existsb (Z.eqb c)
    (ch <$> ["("; ","; "="; ":"; "["; "!"; "&"; "|"; "?"; "+"; "-"; "~"; "*"; "/"; "{"; "}"; ";"]%char).

(** A string literal, whose quote is the_b, up to its second quote. *)
Fixpoint copy_string (fuel : nat) (s : jm) : jres jm :=
  match fuel with
  | O => JStuck
  | S fuel =>
      let s := putc (j_a s) s in
      let '(c, s) := get s in
      let s := set_a c s in
      if c =? j_b s then JDone s
      else
        let s := if c =? BACKSLASH then (let '(d, s) := get (putc c s) in set_a d s) else s in
        if j_a s =? EOF then JError else copy_string fuel s
  end.

(** A set of a regular expression, up to its bracket. *)
Fixpoint copy_set (fuel : nat) (s : jm) : jres jm :=
  match fuel with
  | O => JStuck
  | S fuel =>
      let s := putc (j_a s) s in
      let '(c, s) := get s in
      let s := set_a c s in
      if c =? ch "]" then JDone s
      else
        let s := if c =? BACKSLASH then (let '(d, s) := get (putc c s) in set_a d s) else s in
        if j_a s =? EOF then JError else copy_set fuel s
  end.

(** A regular expression, up to its second slash. *)
Fixpoint copy_regexp (fuel : nat) (s : jm) : jres jm :=
  match fuel with
  | O => JStuck
  | S fuel =>
      let '(c, s) := get s in
      let s := set_a c s in
      if c =? SLASH then
        let '(d, s) := peek s in
        if (d =? SLASH) || (d =? STAR) then JError else JDone s
      else
        s ← (if c =? ch "[" then copy_set fuel s
             else if c =? BACKSLASH then (let '(d, s) := get (putc c s) in mret (set_a d s))
             else mret s) ;
        if j_a s =? EOF then JError else copy_regexp fuel (putc (j_a s) s)
  end.

Inductive determined := Output | Delete_a | Delete_b.

Definition action3 (fuel : nat) (s : jm) : jres jm :=
  '(b, s) ← next fuel s ;
  let s := set_b b s in
  if (b =? SLASH) && before_regexp (j_a s) then
    let s := putc (j_a s) s in
    let s := if (j_a s =? SLASH) || (j_a s =? STAR) then putc BLANK s else s in
    let s := putc (j_b s) s in
    s ← copy_regexp fuel s ;
    '(b, s) ← next fuel s ;
    mret (set_b b s)
  else mret s.

Definition action2 (fuel : nat) (s : jm) : jres jm :=
  let s := set_a (j_b s) s in
  s ← (if is_quote (j_a s) then copy_string fuel s else mret s) ;
  action3 fuel s.

Definition action1 (fuel : nat) (s : jm) : jres jm :=
  let s := putc (j_a s) s in
  let s :=
    if ((j_y s =? NEWLINE) || (j_y s =? BLANK)) && is_op (j_a s) && is_op (j_b s) then putc (j_y s) s else s in
  action2 fuel s.

Definition action (fuel : nat) (d : determined) (s : jm) : jres jm :=
  match d with
  | Output => action1 fuel s
  | Delete_a => action2 fuel s
  | Delete_b => action3 fuel s
  end.

(** *** jsmin *)

Definition opens (c : Z) : bool :=
  existsb (Z.eqb c) (ch <$> ["{"; "["; "("; "+"; "-"; "!"; "~"]%char).
Definition closes (c : Z) : bool :=
  existsb (Z.eqb c) ((ch <$> ["}"; "]"; ")"; "+"; "-"]%char) ++ [34; ch "'"; ch "`"]).

(** Which action, by the_a and the_b. *)
Definition decide_action (a b : Z) : determined :=
  if a =? BLANK then (if is_alphanum b then Output else Delete_a)
  else if a =? NEWLINE then
    if opens b then Output
    else if b =? BLANK then Delete_b
    else if is_alphanum b then Output else Delete_a
  else if b =? BLANK then (if is_alphanum a then Output else Delete_b)
  else if b =? NEWLINE then
    if closes a then Output else if is_alphanum a then Output else Delete_b
  else Output.

Fixpoint jsmin_loop (n fuel : nat) (s : jm) : jres jm :=
  match n with
  | O => JStuck
  | S n =>
      if j_a s =? EOF then JDone s
      else s ← action fuel (decide_action (j_a s) (j_b s)) s ; jsmin_loop n fuel s
  end.

(** A byte order mark is dropped: its first byte, and the two that follow. *)
Definition jsmin (n fuel : nat) (s : jm) : jres jm :=
  let '(c, s) := peek s in
  let s := if c =? 0xEF then snd (get (snd (get (snd (get s))))) else s in
  s ← action3 fuel (set_a NEWLINE s) ;
  jsmin_loop n fuel s.

(** The globals before the first file. *)
Definition jm_init (input : list Z) : jm := mkJm input EOF 0 0 EOF EOF [].

(** The file compressjs writes back. *)
Definition compressjs (input : list Z) : jres (list Z) :=
  let fuel := (length input + 3)%nat in
  s ← jsmin fuel fuel (jm_init input) ; mret (j_out s).

(** Names that end in .js; the last three characters are read without a look at the length. *)
Definition isJS (file : bytes) : option bool :=
  if (length file <? 3)%nat then None
  else Some (bool_decide (drop (length file - 3) file = lit ".js")).

(** ** Every input is read to its end *)

Definition ends {A} (r : jres A) (P : A → Prop) : Prop :=
  match r with JDone a => P a | JError => True | JStuck => False end.

Lemma ends_bind {A B} (m : jres A) (k : A → jres B) P Q :
  ends m P → (∀ a, P a → ends (k a) Q) → ends (m ≫= k) Q.
Proof. destruct m; simpl; auto. Qed.

Lemma ends_mono {A} (m : jres A) (P Q : A → Prop) : ends m P → (∀ a, P a → Q a) → ends m Q.
Proof. destruct m; simpl; auto. Qed.

(** Characters that are still to come. *)
Definition left_of (s : jm) : nat := length (j_in s) + (if j_look s =? EOF then 0 else 1).

(** Bytes in the file, a character or nothing in the lookahead. *)
Definition wf (s : jm) : Prop := Forall (λ c, 0 ≤ c) (j_in s) ∧ (j_look s = EOF ∨ 0 ≤ j_look s).

(** [s'] is [s] with characters taken: the rest of it as before. *)
Record taken (s s' : jm) : Prop := {
  tk_wf : wf s';
  tk_a : j_a s' = j_a s;
  tk_b : j_b s' = j_b s;
  tk_out : j_out s' = j_out s
}.

Lemma translate_range c : 0 ≤ c → NEWLINE ≤ translate c.
Proof.
  intros Hc. unfold translate, NEWLINE, BLANK, RETURN, EOF.
  destruct (Z.leb_spec 32 c); simpl; [lia|]. destruct (Z.eqb_spec c 10); simpl; [lia|].
  destruct (Z.eqb_spec c (-1)); simpl; [lia|]. destruct (c =? 13); lia.
Qed.

Lemma get_spec s : wf s →
  let '(c, s') := get s in
  taken s s' ∧ j_look s' = EOF ∧ j_x s' = j_x s ∧ j_y s' = j_y s ∧
  (c = EOF ∧ left_of s = 0%nat ∧ left_of s' = 0%nat ∨ NEWLINE ≤ c ∧ left_of s = S (left_of s')).
Proof.
  intros [Hin Hlook]. unfold get. destruct (Z.eqb_spec (j_look s) EOF) as [E|E].
  - unfold getc, left_of. cbn [set_look j_in j_look]. rewrite E. destruct (j_in s) as [|c r] eqn:Er.
    + cbn. rewrite Er. split; [|split_and!; auto]. split; try done. split; cbn; [by rewrite Er|by left].
    + cbn. inv Hin. split; [|split_and!; try done].
      * split; try done. split; cbn; [done|by left].
      * right. split; [by apply translate_range|lia].
  - destruct Hlook as [|Hl]; [done|]. cbn [set_look j_in j_look]. split; [|split_and!; try done].
    + split; try done. split; cbn; [done|by left].
    + right. split; [by apply translate_range|]. unfold left_of. cbn. rewrite (proj2 (Z.eqb_neq _ _)) by done. lia.
Qed.

Lemma peek_spec s : wf s →
  let '(c, s') := peek s in
  taken s s' ∧ j_look s' = c ∧ j_x s' = j_x s ∧ j_y s' = j_y s ∧ left_of s' = left_of s ∧
  (c = EOF ∧ left_of s = 0%nat ∨ NEWLINE ≤ c).
Proof.
  intros Hw. unfold peek. pose proof (get_spec s Hw) as H. destruct (get s) as [c s']. destruct H as ([W A B O] & L & X & Y & H).
  unfold left_of in *. cbn. rewrite L in H. cbn in H.
  split; [split; [|done..]|split_and!; try done].
  - split; cbn; [exact (proj1 W)|]. destruct H as [[-> _]|[H _]]; [by left|right; unfold NEWLINE in H; lia].
  - destruct H as [(-> & H1 & H2)|[H1 H2]]; [cbn; lia|]. rewrite (proj2 (Z.eqb_neq c EOF)) by (unfold NEWLINE, EOF in *; lia). lia.
  - destruct H as [(-> & H1 & H2)|[H1 H2]]; auto.
Qed.

Lemma taken_trans s1 s2 s3 : taken s1 s2 → taken s2 s3 → taken s1 s3.
Proof. intros [W1 A1 B1 O1] [W2 A2 B2 O2]. split; [done|congruence..]. Qed.

Lemma skip_line_ends fuel : ∀ s, wf s → (left_of s < fuel)%nat →
  ends (skip_line fuel s) (λ '(c, s'), taken s s' ∧ (c = EOF ∧ left_of s' = 0%nat ∨ c = NEWLINE ∧ (left_of s' < left_of s)%nat)).
Proof.
  induction fuel as [|fuel IH]; intros s Hw Hf; [lia|]. cbn [skip_line]. pose proof (get_spec s Hw) as G. destruct (get s) as [c s'].
  destruct G as (T & _ & _ & _ & G). destruct (Z.leb_spec c NEWLINE) as [Hc|Hc].
  - cbn [ends]. split; [done|]. destruct G as [(-> & _ & ?)|[? ?]]; [by left|]. right. split; lia.
  - destruct G as [(-> & _)|[_ G]]; [unfold EOF, NEWLINE in Hc; lia|]. eapply ends_mono; [apply IH; [exact (tk_wf _ _ T)|lia]|].
    intros [d s2] [T2 H]. split; [by eapply taken_trans|]. destruct H as [H|[H ?]]; [by left|right; split; [done|lia]].
Qed.

Lemma skip_block_ends fuel : ∀ s, wf s → (left_of s < fuel)%nat →
  ends (skip_block fuel s) (λ s', taken s s' ∧ (left_of s' ≤ left_of s)%nat).
Proof.
  induction fuel as [|fuel IH]; intros s Hw Hf; [lia|]. cbn [skip_block]. pose proof (get_spec s Hw) as G. destruct (get s) as [c s1].
  destruct G as (T & _ & _ & _ & G). destruct (Z.eqb_spec c STAR) as [->|Hc].
  - destruct G as [(? & _)|[_ G]]; [done|]. pose proof (peek_spec s1 (tk_wf _ _ T)) as K. destruct (peek s1) as [d s2].
    destruct K as (T2 & _ & _ & _ & K & _). assert (T12 := taken_trans _ _ _ T T2). destruct (d =? SLASH).
    + pose proof (get_spec s2 (tk_wf _ _ T2)) as G2. destruct (get s2) as [e s3]. destruct G2 as (T3 & _ & _ & _ & G2). cbn [snd ends].
      split; [by eapply taken_trans|]. lia.
    + eapply ends_mono; [apply IH; [exact (tk_wf _ _ T2)|lia]|]. intros s3 [T3 ?]. split; [by eapply taken_trans|lia].
  - destruct (Z.eqb_spec c EOF) as [->|He]; [done|]. destruct G as [(-> & _)|[_ G]]; [done|].
    eapply ends_mono; [apply IH; [exact (tk_wf _ _ T)|lia]|]. intros s3 [T3 ?]. split; [by eapply taken_trans|lia].
Qed.

Lemma shift_xy_taken s v : wf s → taken s (shift_xy v s).
Proof. intros W. by split. Qed.

Lemma next_ends fuel s : wf s → (left_of s < fuel)%nat →
  ends (next fuel s) (λ '(c, s'), taken s s' ∧ (c = EOF ∧ left_of s' = 0%nat ∨ c ≠ EOF ∧ (left_of s' < left_of s)%nat)).
Proof.
  intros Hw Hf. unfold next. pose proof (get_spec s Hw) as G. destruct (get s) as [c s1]. destruct G as (T & _ & _ & _ & G).
  assert (W1 := tk_wf _ _ T).
  eapply (ends_bind _ _ (λ '(c, s'), taken s s' ∧ (c = EOF ∧ left_of s' = 0%nat ∨ c ≠ EOF ∧ (left_of s' < left_of s)%nat))).
  - assert (P1 : c ≠ EOF ∧ (left_of s1 < left_of s)%nat ∨ c = EOF ∧ left_of s1 = 0%nat).
    { destruct G as [(-> & _ & ?)|[? ?]]; [by right|left]. unfold NEWLINE, EOF in *. split; lia. }
    destruct (Z.eqb_spec c SLASH) as [->|]; [|cbn; tauto].
    destruct G as [(? & _)|[_ G]]; [done|]. pose proof (peek_spec s1 W1) as K. destruct (peek s1) as [d s2].
    destruct K as (T2 & _ & _ & _ & K & _). assert (T12 := taken_trans _ _ _ T T2). destruct (d =? SLASH); [|destruct (d =? STAR)].
    + eapply ends_mono; [apply skip_line_ends; [exact (tk_wf _ _ T2)|lia]|]. intros [e s3] [T3 H]. split; [by eapply taken_trans|].
      destruct H as [H|[-> H]]; [by left|right; split; [done|lia]].
    + pose proof (get_spec s2 (tk_wf _ _ T2)) as G2. destruct (get s2) as [e s3]. destruct G2 as (T3 & _ & _ & _ & G2). cbn [snd].
      eapply ends_bind; [apply skip_block_ends; [exact (tk_wf _ _ T3)|lia]|]. intros s4 [T4 ?]. cbn.
      split; [eapply taken_trans; [exact T12|by eapply taken_trans]|]. right. split; [done|lia].
    + cbn. split; [done|]. right. split; [done|lia].
  - intros [d s2] [T2 H]. cbn. split; [eapply taken_trans; [exact T2|apply shift_xy_taken, (tk_wf _ _ T2)]|exact H].
Qed.

(** Copying changes the_a and the output. *)
Record copied (s s' : jm) : Prop := {
  cp_wf : wf s';
  cp_b : j_b s' = j_b s;
  cp_left : (left_of s' ≤ left_of s)%nat
}.

Lemma copied_trans s1 s2 s3 : copied s1 s2 → copied s2 s3 → copied s1 s3.
Proof. intros [W1 B1 L1] [W2 B2 L2]. split; [done|congruence|lia]. Qed.

Lemma get_copied s : wf s →
  let '(c, s') := get s in copied s s' ∧ (c = EOF ∨ (left_of s' < left_of s)%nat).
Proof.
  intros Hw. pose proof (get_spec s Hw) as G. destruct (get s) as [c s']. destruct G as ([W A B O] & _ & _ & _ & G).
  split; [split; [done|done|]|]; destruct G as [(-> & ? & ?)|[? ?]]; try lia; auto.
Qed.

(** After a character: the character after a backslash is taken too. *)
Lemma escape_copied c s : wf s →
  let s' := if c =? BACKSLASH then (let '(d, s) := get (putc c s) in set_a d s) else s in copied s s'.
Proof.
  intros Hw. destruct (c =? BACKSLASH); [|by split].
  pose proof (get_copied (putc c s)) as G. destruct (get (putc c s)) as [d s']. destruct G as [[W B L] _]; [done|]. by split.
Qed.

Lemma copy_string_ends fuel : ∀ s, wf s → (left_of s < fuel)%nat → ends (copy_string fuel s) (copied s).
Proof.
  induction fuel as [|fuel IH]; intros s Hw Hf; [lia|]. cbn [copy_string].
  pose proof (get_copied (putc (j_a s) s) Hw) as G. destruct (get (putc (j_a s) s)) as [c s1]. destruct G as [[W B L] Hc].
  change (left_of (putc (j_a s) s)) with (left_of s) in L, Hc. change (j_b (putc (j_a s) s)) with (j_b s) in B.
  cbn [set_a j_b]. destruct (c =? j_b s1); [by split|].
  pose proof (escape_copied c (set_a c s1) W) as E. cbn zeta in E. set (s2 := if c =? BACKSLASH then _ else _) in *.
  assert (He : c = EOF → j_a s2 = EOF) by (intros ->; done). destruct E as [W2 B2 L2].
  change (left_of (set_a c s1)) with (left_of s1) in L2. change (j_b (set_a c s1)) with (j_b s1) in B2.
  destruct (Z.eqb_spec (j_a s2) EOF); [done|]. destruct Hc as [Hc|Hc]; [tauto|].
  eapply ends_mono; [apply IH; [done|lia]|]. intros s3 [W3 B3 L3]. split; [done|congruence|lia].
Qed.

Lemma copy_set_ends fuel : ∀ s, wf s → (left_of s < fuel)%nat → ends (copy_set fuel s) (copied s).
Proof.
  induction fuel as [|fuel IH]; intros s Hw Hf; [lia|]. cbn [copy_set].
  pose proof (get_copied (putc (j_a s) s) Hw) as G. destruct (get (putc (j_a s) s)) as [c s1]. destruct G as [[W B L] Hc].
  change (left_of (putc (j_a s) s)) with (left_of s) in L, Hc. change (j_b (putc (j_a s) s)) with (j_b s) in B.
  destruct (c =? ch "]"); [by split|].
  pose proof (escape_copied c (set_a c s1) W) as E. cbn zeta in E. set (s2 := if c =? BACKSLASH then _ else _) in *.
  assert (He : c = EOF → j_a s2 = EOF) by (intros ->; done). destruct E as [W2 B2 L2].
  change (left_of (set_a c s1)) with (left_of s1) in L2. change (j_b (set_a c s1)) with (j_b s1) in B2.
  destruct (Z.eqb_spec (j_a s2) EOF); [done|]. destruct Hc as [Hc|Hc]; [tauto|].
  eapply ends_mono; [apply IH; [done|lia]|]. intros s3 [W3 B3 L3]. split; [done|congruence|lia].
Qed.

Lemma copy_regexp_ends fuel : ∀ s, wf s → (left_of s < fuel)%nat → ends (copy_regexp fuel s) (copied s).
Proof.
  induction fuel as [|fuel IH]; intros s Hw Hf; [lia|]. cbn [copy_regexp].
  pose proof (get_copied s Hw) as G. destruct (get s) as [c s1]. destruct G as [[W B L] Hc].
  destruct (c =? SLASH).
  { pose proof (peek_spec (set_a c s1) W) as K. destruct (peek (set_a c s1)) as [d s2]. destruct K as ([W2 _ B2 _] & _ & _ & _ & L2 & _).
    change (left_of (set_a c s1)) with (left_of s1) in L2. change (j_b (set_a c s1)) with (j_b s1) in B2.
    destruct (_ || _); [done|]. split; [done|congruence|lia]. }
  eapply (ends_bind _ _ (λ s2, copied (set_a c s1) s2 ∧ (c = EOF → j_a s2 = EOF))).
  - destruct (Z.eqb_spec c (ch "[")) as [->|].
    + destruct Hc as [Hc|Hc]; [done|]. eapply ends_mono; [apply copy_set_ends; [exact W|change (left_of (set_a (ch "[") s1)) with (left_of s1); lia]|].
      intros s2 C. by split.
    + pose proof (escape_copied c (set_a c s1) W) as E. cbn zeta in E. destruct (Z.eqb_spec c BACKSLASH) as [->|].
      * destruct (get (putc BACKSLASH (set_a BACKSLASH s1))) as [d s2]. by split.
      * by split.
  - intros s2 [[W2 B2 L2] He]. change (left_of (set_a c s1)) with (left_of s1) in L2. change (j_b (set_a c s1)) with (j_b s1) in B2.
    destruct (Z.eqb_spec (j_a s2) EOF); [done|]. destruct Hc as [Hc|Hc]; [tauto|].
    eapply ends_mono; [apply IH; [exact W2|change (left_of (putc (j_a s2) s2)) with (left_of s2); lia]|].
    intros s3 [W3 B3 L3]. change (left_of (putc (j_a s2) s2)) with (left_of s2) in L3. split; [done|cbn in B3; congruence|lia].
Qed.

(** *** Actions *)

(** The end of the input has been seen when the_b is EOF. *)
Definition at_end (s : jm) : Prop := j_b s = EOF → left_of s = 0%nat.

(** What is still to do. *)
Definition todo (s : jm) : nat := left_of s + (if j_b s =? EOF then 0 else 1).

(** the_b is read anew. *)
Record advanced (n : nat) (s s' : jm) : Prop := {
  ad_wf : wf s';
  ad_end : at_end s';
  ad_b : j_b s' = EOF ∨ (left_of s' < n)%nat
}.

Lemma action3_ends fuel s : wf s → (left_of s < fuel)%nat →
  ends (action3 fuel s) (λ s', advanced (left_of s) s s' ∧ (left_of s = 0%nat → j_a s' = j_a s)).
Proof.
  intros Hw Hf. unfold action3. eapply ends_bind; [by apply next_ends|]. intros [b s1] [[W A B O] H]. cbn beta iota.
  cbn [set_b j_a j_b]. destruct ((b =? SLASH) && before_regexp (j_a s1)) eqn:E.
  - apply andb_prop in E as [->%Z.eqb_eq _]. destruct H as [[? _]|[_ H]]; [done|].
    match goal with |- ends (copy_regexp _ ?x ≫= _) _ => set (s2 := x) end. assert (K : wf s2 ∧ left_of s2 = left_of s1) by (subst s2; by destruct (_ || _)). destruct K as [W2 L2].
    clearbody s2. eapply ends_bind; [apply copy_regexp_ends; [done|lia]|]. intros s3 [W3 B3 L3].
    eapply ends_bind; [apply next_ends; [done|lia]|]. intros [b' s4] [[W4 A4 B4 O4] H4]. cbn. split; [|lia].
    split; [done|intros Hb; cbn in Hb; destruct H4 as [[_ ?]|[? _]]; [done|congruence]|].
    cbn. destruct H4 as [[-> _]|[_ H4]]; [by left|right]. unfold left_of in *. cbn. lia.
  - cbn. split; [|by rewrite A]. split; [done|intros Hb; cbn in Hb; destruct H as [[_ ?]|[? _]]; [done|congruence]|].
    cbn. destruct H as [[-> _]|[_ H]]; [by left|by right].
Qed.

Lemma action2_ends fuel s : wf s → at_end s → (left_of s < fuel)%nat →
  ends (action2 fuel s) (λ s', advanced (left_of s) s s' ∧ (j_b s = EOF → j_a s' = EOF)).
Proof.
  intros Hw He Hf. unfold action2. eapply (ends_bind _ _ (λ s1, copied s s1 ∧ (j_b s = EOF → s1 = set_a EOF s))).
  - cbn [set_a j_a]. destruct (is_quote (j_b s)) eqn:Eq.
    + eapply ends_mono; [apply copy_string_ends; done|]. intros s1 [W B L]. split; [by split|]. intros E. by rewrite E in Eq.
    + cbn. split; [by split|]. by intros ->.
  - intros s1 [[W B L] Heq]. eapply ends_mono; [apply action3_ends; [done|lia]|]. intros s2 [[W2 E2 H2] Ha]. split.
    + split; [done|done|]. destruct H2 as [?|?]; [by left|right; lia].
    + intros Hb. rewrite Ha; [by rewrite (Heq Hb)|]. specialize (He Hb). lia.
Qed.

Lemma action1_ends fuel s : wf s → at_end s → (left_of s < fuel)%nat →
  ends (action1 fuel s) (λ s', advanced (left_of s) s s' ∧ (j_b s = EOF → j_a s' = EOF)).
Proof.
  intros Hw He Hf. unfold action1. match goal with |- ends (action2 _ ?x) _ => set (s2 := x) end.
  assert (K : wf s2 ∧ left_of s2 = left_of s ∧ j_b s2 = j_b s) by (subst s2; by destruct (_ && _)). destruct K as (W2 & L2 & B2).
  clearbody s2. eapply ends_mono; [apply action2_ends; [done|unfold at_end; by rewrite B2, L2|lia]|].
  intros s3 [[W3 E3 H3] Ha]. rewrite L2 in H3. rewrite B2 in Ha. split; [by split|done].
Qed.

Lemma decide_end a : decide_action a EOF ≠ Delete_b.
Proof. unfold decide_action. destruct (a =? BLANK); [done|]. by destruct (a =? NEWLINE). Qed.

Lemma action_ends fuel s : wf s → at_end s → (left_of s < fuel)%nat →
  ends (action fuel (decide_action (j_a s) (j_b s)) s)
       (λ s', wf s' ∧ at_end s' ∧ (left_of s' < fuel)%nat ∧ (j_a s' = EOF ∨ (todo s' < todo s)%nat)).
Proof.
  intros Hw He Hf.
  assert (K : ∀ s', advanced (left_of s) s s' → (j_b s = EOF → j_a s' = EOF) →
              wf s' ∧ at_end s' ∧ (left_of s' < fuel)%nat ∧ (j_a s' = EOF ∨ (todo s' < todo s)%nat)).
  { intros s' [W E H] Ha. split_and!; [done|done|destruct H as [Hb|?]; [specialize (E Hb); lia|lia]|].
    unfold todo. destruct (Z.eqb_spec (j_b s) EOF) as [Hb|Hb]; [left; auto|right].
    destruct H as [Hb'|H]; [rewrite (proj2 (Z.eqb_eq _ _) Hb'), (E Hb'); lia|]. destruct (j_b s' =? EOF); lia. }
  destruct (decide_action (j_a s) (j_b s)) eqn:Ed; cbn [action].
  - eapply ends_mono; [by apply action1_ends|]. intros s' [H1 H2]. by apply K.
  - eapply ends_mono; [by apply action2_ends|]. intros s' [H1 H2]. by apply K.
  - eapply ends_mono; [by apply action3_ends|]. intros s' [H1 _]. apply K; [done|]. intros Hb. rewrite Hb in Ed.
    by apply decide_end in Ed.
Qed.

Lemma jsmin_loop_ends n fuel s : wf s → at_end s → (left_of s < fuel)%nat → (j_a s = EOF ∨ (todo s + 1 < n)%nat) → (0 < n)%nat →
  ends (jsmin_loop n fuel s) (λ s', j_a s' = EOF).
Proof.
  revert s; induction n as [|n IH]; intros s Hw He Hf Hn H0; [lia|]. cbn [jsmin_loop].
  destruct (Z.eqb_spec (j_a s) EOF) as [Ea|Ea]; [done|]. destruct Hn as [|Hn]; [done|].
  eapply ends_bind; [by apply action_ends|]. intros s' (W & E & F & H). apply IH; [done|done|done| |lia].
  destruct H as [?|?]; [by left|right; lia].
Qed.

Lemma skip_bom s : wf s → let '(c, s1) := peek s in
  let s2 := if c =? 0xEF then snd (get (snd (get (snd (get s1))))) else s1 in wf s2 ∧ (left_of s2 ≤ left_of s)%nat.
Proof.
  intros Hw. pose proof (peek_spec s Hw) as K. destruct (peek s) as [c s1]. destruct K as ([W _ _ _] & _ & _ & _ & L & _). cbn zeta.
  destruct (c =? 0xEF); [|split; [done|lia]].
  assert (G : ∀ s, wf s → wf (snd (get s)) ∧ (left_of (snd (get s)) ≤ left_of s)%nat).
  { intros s' W'. pose proof (get_copied s' W') as H. destruct (get s') as [d s'']. destruct H as [[? _ ?] _]. done. }
  destruct (G s1 W) as [W2 L2]. destruct (G _ W2) as [W3 L3]. destruct (G _ W3) as [W4 L4]. split; [done|lia].
Qed.

(** On every file the minifier ends: it writes a result or reports an error. *)
Lemma compressjs_ends input : Forall (λ c, 0 ≤ c) input → ends (compressjs input) (λ _, True).
Proof.
  intros Hin. unfold compressjs, jsmin. set (fuel := (length input + 3)%nat).
  assert (W : wf (jm_init input)) by (split; [done|by left]).
  assert (L : left_of (jm_init input) = length input) by (unfold left_of; cbn; lia).
  eapply (ends_bind _ _ (λ _, True)); [|done].
  pose proof (skip_bom _ W) as B. destruct (peek (jm_init input)) as [c s1]. cbn zeta in B. rewrite L in B.
  set (s2 := if c =? 0xEF then _ else _) in *. destruct B as [W2 L2]. clearbody s2.
  eapply ends_bind; [apply (action3_ends fuel (set_a NEWLINE s2)); [done|change (left_of (set_a NEWLINE s2)) with (left_of s2); lia]|].
  intros s3 [[W3 E3 H3] _]. change (left_of (set_a NEWLINE s2)) with (left_of s2) in H3.
  assert (L3 : (left_of s3 ≤ length input)%nat ∧ (todo s3 ≤ length input)%nat).
  { unfold todo. destruct H3 as [Hb|H3]; [rewrite (E3 Hb), Hb; cbn; lia|]. destruct (j_b s3 =? EOF); lia. }
  eapply ends_mono; [apply jsmin_loop_ends; [done|done|lia|right; lia|lia]|done].
Qed.
