(* ===== verification/JsminProofs.v ===== *)
(** * jsmin: what is written

    A reference minifier on a list of items (characters, white space, comments, string literals),
    and that [jsmin] writes the same for every program made of such items: everything
    but regular expressions and division. *)

From S2P Require Import Prelude Jsmin.

(** ** Programs *)

Inductive item :=
| Char (c : Z)
| White (c : Z)
| Eol (c : Z)
| LineComment (body : list Z) (e : Z)
| BlockComment (body : list Z)
| Str (q : Z) (body : list (Z + Z)).

(** The bytes of a piece of a string: a character, or one after a backslash. *)
Definition piece_bytes (p : Z + Z) : list Z := match p with inl c => [c] | inr c => [BACKSLASH; c] end.

Definition item_bytes (it : item) : list Z :=
  match it with
  | Char c | White c | Eol c => [c]
  | LineComment body e => SLASH :: SLASH :: body ++ [e]
  | BlockComment body => SLASH :: STAR :: body ++ [STAR; SLASH]
  | Str q body => q :: (body ≫= piece_bytes) ++ [q]
  end.

Definition is_eol (c : Z) : Prop := c = NEWLINE ∨ c = RETURN.

(** No end of the comment before its end. *)
Fixpoint block_ok (body : list Z) : Prop :=
  match body with
  | [] => True
  | c :: r => 0 ≤ c ∧ (c = STAR → head (r ++ [STAR; SLASH]) ≠ Some SLASH) ∧ block_ok r
  end.

Definition piece_ok (q : Z) (p : Z + Z) : Prop :=
  match p with inl c => 0 ≤ c ∧ translate c ≠ q ∧ c ≠ BACKSLASH | inr c => 0 ≤ c end.

Definition item_ok (it : item) : Prop :=
  match it with
  | Char c => BLANK < c ∧ c ≠ SLASH ∧ is_quote c = false
  | White c => 0 ≤ c ∧ translate c = BLANK
  | Eol c => is_eol c
  | LineComment body e => Forall (λ c, 0 ≤ c ∧ ¬ is_eol c) body ∧ is_eol e
  | BlockComment body => block_ok body
  | Str q body => is_quote q = true ∧ Forall (piece_ok q) body
  end.

(** ** The reference *)

(** What an item is for the code around it: comments are white space. *)
Definition lead (it : item) : Z :=
  match it with
  | Char c => c
  | White _ | BlockComment _ => BLANK
  | Eol _ | LineComment _ _ => NEWLINE
  | Str q _ => q
  end.

(** What is written of it besides [lead]: a string up to its second quote. *)
Definition print_piece (p : Z + Z) : list Z := match p with inl c => [translate c] | inr c => [BACKSLASH; translate c] end.
Definition body_of_item (it : item) : list Z :=
  match it with Str q body => q :: (body ≫= print_piece) | _ => [] end.

(** White space: whether it has an end of line, and its last character. *)
Definition add_white (ws : option (bool * Z)) (c : Z) : option (bool * Z) :=
  Some ((c =? NEWLINE) || match ws with Some (nl, _) => nl | None => false end, c).

(** An end of line after this character can matter; at the beginning it does. *)
Definition keeps (l : option Z) : bool :=
  match l with None => true | Some c => closes c || is_alphanum c end.

(** What is written for white space between two characters. *)
Definition separator (l : option Z) (ws : option (bool * Z)) (r : Z) : list Z :=
  match ws with
  | None => []
  | Some (nl, last) =>
      if (if nl then keeps l else match l with Some c => is_alphanum c | None => true end) then
        if nl then (if opens r || is_alphanum r then [NEWLINE] else [])
        else (if is_alphanum r then [BLANK] else [])
      else if match l with Some c => is_op c && is_op r | None => false end then [last] else []
  end.

Definition is_white (it : item) : bool := (lead it =? BLANK) || (lead it =? NEWLINE).

Fixpoint minify (l : option Z) (ws : option (bool * Z)) (its : list item) : list Z :=
  match its with
  | [] => []
  | it :: its =>
      if is_white it then minify l (add_white ws (lead it)) its
      else separator l ws (lead it) ++ body_of_item it ++ [lead it] ++ minify (Some (lead it)) None its
  end.

(** A program starts as if after an end of line. *)
Definition minified (its : list item) : list Z := minify None (Some (true, NEWLINE)) its.

(** ** Reading *)

(** The characters to come, the first of them perhaps in the lookahead. *)
Definition upcoming (s : jm) (l : list Z) : Prop :=
  j_look s = EOF ∧ j_in s = l ∨ ∃ c r, l = c :: r ∧ 0 ≤ c ∧ j_look s = translate c ∧ j_in s = r.

(** The state with this input and nothing in the lookahead. *)
Definition at_input (l : list Z) (s : jm) : jm := mkJm l EOF (j_a s) (j_b s) (j_x s) (j_y s) (j_out s).

Lemma translate_idem c : 0 ≤ c → translate (translate c) = translate c.
Proof.
  intros Hc. unfold translate at 2 3. destruct (_ || _ || _) eqn:E; [unfold translate; by rewrite E|].
  by destruct (c =? RETURN).
Qed.

Lemma get_upcoming s c r : 0 ≤ c → upcoming s (c :: r) → get s = (translate c, at_input r s).
Proof.
  intros Hc [[Hl Hi]|(c' & r' & [= <- <-] & _ & Hl & Hi)]; unfold get.
  - rewrite Hl, Z.eqb_refl. unfold getc. cbn [set_look j_in]. rewrite Hi. done.
  - pose proof (translate_range c Hc) as Ht. unfold NEWLINE in Ht. rewrite Hl, (proj2 (Z.eqb_neq _ _)) by (unfold EOF; lia).
    rewrite translate_idem by done. unfold at_input, set_look. by rewrite Hi.
Qed.

Lemma get_end s : upcoming s [] → get s = (EOF, at_input [] s).
Proof.
  intros [[Hl Hi]|(c' & r' & [=] & _)]. unfold get. rewrite Hl, Z.eqb_refl. unfold getc. cbn [set_look j_in]. rewrite Hi.
  unfold at_input, set_look. by rewrite Hi.
Qed.

Lemma upcoming_at l s : upcoming (at_input l s) l.
Proof. by left. Qed.

Lemma peek_upcoming s c r : 0 ≤ c → upcoming s (c :: r) → peek s = (translate c, set_look (translate c) (at_input r s)).
Proof. intros Hc Hu. unfold peek. by rewrite (get_upcoming _ _ _ Hc Hu). Qed.

Lemma upcoming_peeked c r s : 0 ≤ c → upcoming (set_look (translate c) (at_input r s)) (c :: r).
Proof. intros Hc. right. by exists c, r. Qed.

Lemma at_input_at l l' s : at_input l (at_input l' s) = at_input l s.
Proof. done. Qed.
Lemma at_input_look l v s : at_input l (set_look v s) = at_input l s.
Proof. done. Qed.

(** *** Comments *)

Lemma skip_line_item body e r : ∀ fuel s,
  Forall (λ c, 0 ≤ c ∧ ¬ is_eol c) body → is_eol e → (length body < fuel)%nat → upcoming s (body ++ e :: r) →
  skip_line fuel s = JDone (NEWLINE, at_input r s).
Proof.
  induction body as [|c body IH]; intros fuel s Hb He Hf Hu; (destruct fuel as [|fuel]; [simpl in Hf; lia|]); cbn [skip_line].
  - cbn [app] in Hu. assert (0 ≤ e ∧ translate e = NEWLINE) as [H0 Ht] by (by destruct He as [-> | ->]).
    rewrite (get_upcoming _ _ _ H0 Hu), Ht. done.
  - inv Hb as [|? ? [H0 Hn] Hb']. cbn [app] in Hu. rewrite (get_upcoming _ _ _ H0 Hu).
    assert (NEWLINE < translate c) as Ht.
    { unfold is_eol in Hn. unfold translate, BLANK, NEWLINE, RETURN, EOF in *.
      destruct (Z.leb_spec 32 c); simpl; [lia|]. destruct (Z.eqb_spec c 10); simpl; [lia|].
      destruct (Z.eqb_spec c (-1)); simpl; [lia|]. destruct (Z.eqb_spec c 13); lia. }
    rewrite (proj2 (Z.leb_gt _ _)) by done. rewrite (IH fuel (at_input (body ++ e :: r) s)); [done|done|done|simpl in Hf; lia|apply upcoming_at].
Qed.

Lemma translate_star c : 0 ≤ c → translate c = STAR ↔ c = STAR.
Proof.
  intros Hc. split; [|by intros ->]. unfold translate. destruct (_ || _ || _); [done|]. by destruct (c =? RETURN).
Qed.
Lemma translate_slash c : 0 ≤ c → translate c = SLASH ↔ c = SLASH.
Proof.
  intros Hc. split; [|by intros ->]. unfold translate. destruct (_ || _ || _); [done|]. by destruct (c =? RETURN).
Qed.

Lemma skip_block_item body r : ∀ fuel s,
  block_ok body → (length body < fuel)%nat → upcoming s (body ++ STAR :: SLASH :: r) →
  skip_block fuel s = JDone (at_input r s).
Proof.
  induction body as [|c body IH]; intros fuel s Hb Hf Hu; (destruct fuel as [|fuel]; [simpl in Hf; lia|]); cbn [skip_block].
  - cbn [app] in Hu. rewrite (get_upcoming s STAR (SLASH :: r)) by done. change (translate STAR =? STAR) with true. cbv iota.
    rewrite (peek_upcoming (at_input (SLASH :: r) s) SLASH r) by (done || apply upcoming_at). change (translate SLASH =? SLASH) with true. cbv iota.
    rewrite (get_upcoming _ SLASH r); [done|done|by apply upcoming_peeked].
  - destruct Hb as (H0 & Hs & Hb). cbn [app] in Hu. rewrite (get_upcoming _ _ _ H0 Hu).
    set (rest := body ++ STAR :: SLASH :: r) in *. assert (Hf' : (length body < fuel)%nat) by (simpl in Hf; lia).
    destruct (Z.eqb_spec (translate c) STAR) as [Ec|Ec].
    + apply (proj1 (translate_star c H0)) in Ec as ->.
      assert (∃ d r', rest = d :: r' ∧ 0 ≤ d ∧ d ≠ SLASH) as (d & r' & Er & Hd & Hds).
      { subst rest. specialize (Hs eq_refl). destruct body as [|d body]; [by eexists _, _|]. simpl in Hs, Hb. exists d. eexists. split_and!; [done|tauto|congruence]. }
      rewrite Er. rewrite (peek_upcoming _ d r') by (done || apply upcoming_at).
      destruct (Z.eqb_spec (translate d) SLASH) as [Ed|_]; [apply (proj1 (translate_slash d Hd)) in Ed; congruence|].
      rewrite (IH fuel); [done|done|done|]. fold rest. rewrite Er. by apply upcoming_peeked.
    + pose proof (translate_range c H0) as Ht. rewrite (proj2 (Z.eqb_neq (translate c) EOF)) by (unfold NEWLINE, EOF in *; lia).
      rewrite (IH fuel); [done|done|done|]. fold rest. apply upcoming_at.
Qed.

(** *** Items *)

(** What of the item is left once its first character has been read. *)
Definition tail_bytes (it : item) : list Z :=
  match it with Str q body => (body ≫= piece_bytes) ++ [q] | _ => [] end.

(** The state after [next] has returned [c]. *)
Definition read_unit (c : Z) (l : list Z) (s : jm) : jm := shift_xy c (at_input l s).

Lemma quote_cases q : is_quote q = true → q = 39 ∨ q = 34 ∨ q = 96.
Proof.
  unfold is_quote. intros H. apply orb_true_iff in H as [H|H]; [apply orb_true_iff in H as [H|H]|]; apply Z.eqb_eq in H; subst; auto.
Qed.

Lemma char_plain c : BLANK < c → translate c = c.
Proof. intros H. unfold translate. by rewrite (proj2 (Z.leb_le BLANK c)) by lia. Qed.

Lemma next_plain fuel s c r : 0 ≤ c → translate c ≠ SLASH → upcoming s (c :: r) →
  next fuel s = JDone (translate c, read_unit (translate c) r s).
Proof. intros Hc Hs Hu. unfold next. rewrite (get_upcoming _ _ _ Hc Hu), (proj2 (Z.eqb_neq _ _)) by done. done. Qed.

Lemma next_item fuel s it r :
  item_ok it → (length (item_bytes it) < fuel)%nat → upcoming s (item_bytes it ++ r) →
  next fuel s = JDone (lead it, read_unit (lead it) (tail_bytes it ++ r) s).
Proof.
  intros Hok Hf Hu. destruct it as [c|c|c|body e|body|q body]; cbn [item_bytes item_ok lead tail_bytes app] in *.
  - destruct Hok as (H1 & H2 & H3). unfold BLANK in H1. rewrite (next_plain fuel s c r); [by rewrite char_plain|lia|by rewrite char_plain|done].
  - destruct Hok as [H1 H2]. rewrite (next_plain fuel s c r); [by rewrite H2|done|by rewrite H2|done].
  - assert (translate c = NEWLINE ∧ 0 ≤ c) as [Ht H0] by (by destruct Hok as [-> | ->]).
    rewrite (next_plain fuel s c r); [by rewrite Ht|done|by rewrite Ht|done].
  - destruct Hok as [Hb He]. unfold next. rewrite (get_upcoming _ SLASH (SLASH :: (body ++ [e]) ++ r)) by done.
    change (translate SLASH =? SLASH) with true. cbv iota. rewrite (peek_upcoming _ SLASH ((body ++ [e]) ++ r)) by (done || apply upcoming_at).
    change (translate SLASH =? SLASH) with true. cbv iota.
    rewrite (skip_line_item (SLASH :: body) e r); [done| | | |].
    + constructor; [|done]. split; [done|]. by intros [|].
    + done.
    + cbn [length] in *. rewrite length_app in Hf. lia.
    + rewrite <- app_assoc. by apply upcoming_peeked.
  - unfold next. rewrite (get_upcoming _ SLASH (STAR :: (body ++ [STAR; SLASH]) ++ r)) by done.
    change (translate SLASH =? SLASH) with true. cbv iota. rewrite (peek_upcoming _ STAR ((body ++ [STAR; SLASH]) ++ r)) by (done || apply upcoming_at).
    change (translate STAR =? SLASH) with false. change (translate STAR =? STAR) with true. cbv iota.
    rewrite (get_upcoming _ STAR ((body ++ [STAR; SLASH]) ++ r)); [|done|by apply upcoming_peeked]. cbn [snd].
    rewrite (skip_block_item body r fuel); [done|done| |].
    + cbn [length] in Hf. rewrite length_app in Hf. lia.
    + rewrite <- app_assoc. apply upcoming_at.
  - destruct Hok as [Hq Hb]. assert (translate q = q ∧ 0 ≤ q ∧ q ≠ SLASH) as (Ht & H0 & Hs) by (by destruct (quote_cases q Hq) as [-> |[-> | ->]]).
    rewrite (next_plain fuel s q (((body ≫= piece_bytes) ++ [q]) ++ r)); [by rewrite Ht|done|by rewrite Ht|done].
Qed.

(** A string is copied up to its second quote, which is the_a then. *)
Lemma copy_string_item q body r : ∀ fuel s,
  is_quote q = true → Forall (piece_ok q) body → (length (body ≫= piece_bytes) < fuel)%nat →
  j_b s = q → j_look s = EOF → j_in s = (body ≫= piece_bytes) ++ q :: r →
  copy_string fuel s =
    JDone (mkJm r EOF q q (j_x s) (j_y s) (j_out s ++ [j_a s] ++ (body ≫= print_piece))).
Proof.
  induction body as [|p body IH]; intros fuel s Hq Hb Hf Eb El Ei; (destruct fuel as [|fuel]; [simpl in Hf; lia|]); cbn [copy_string].
  - assert (translate q = q ∧ 0 ≤ q) as (Ht & H0) by (by destruct (quote_cases q Hq) as [-> |[-> | ->]]).
    rewrite (get_upcoming (putc (j_a s) s) q r); [|done|by left]. rewrite Ht. unfold at_input, set_a, putc. cbn [j_b j_in j_look j_a j_x j_y j_out]. by rewrite Eb, Z.eqb_refl.
  - apply Forall_cons in Hb as [Hp Hb'].
    assert (Qe : translate q = q ∧ 0 ≤ q ∧ q ≠ BACKSLASH ∧ q ≠ EOF) by (by destruct (quote_cases q Hq) as [-> |[-> | ->]]).
    destruct Qe as (_ & _ & Hqb & _). destruct p as [c|c]; cbn [piece_ok] in Hp; cbn [mbind list_bind piece_bytes app] in Ei, Hf.
    + destruct Hp as (H0 & Hne & Hnb). rewrite (get_upcoming (putc (j_a s) s) c ((body ≫= piece_bytes) ++ q :: r)); [|done|by left].
      cbn [set_a at_input putc j_b j_a]. rewrite Eb, (proj2 (Z.eqb_neq _ _)) by done.
      assert (translate c ≠ BACKSLASH) as Hb2.
      { unfold translate. destruct (_ || _ || _); [done|]. by destruct (c =? RETURN). }
      rewrite (proj2 (Z.eqb_neq _ BACKSLASH)) by done. cbn [set_a j_a]. pose proof (translate_range c H0).
      rewrite (proj2 (Z.eqb_neq (translate c) EOF)) by (unfold NEWLINE, EOF in *; lia).
      rewrite IH; cbn; [|done|done|simpl in Hf; lia|done|done|done]. rewrite <- !app_assoc. done.
    + rewrite (get_upcoming (putc (j_a s) s) BACKSLASH (c :: (body ≫= piece_bytes) ++ q :: r)); [|done|by left].
      cbn [set_a at_input putc j_b j_a]. change (translate BACKSLASH) with BACKSLASH. rewrite Eb, (proj2 (Z.eqb_neq _ _)) by done.
      rewrite Z.eqb_refl. rewrite (get_upcoming _ c ((body ≫= piece_bytes) ++ q :: r)); [|done|by left]. cbn [set_a at_input j_a].
      pose proof (translate_range c Hp). rewrite (proj2 (Z.eqb_neq (translate c) EOF)) by (unfold NEWLINE, EOF in *; lia).
      rewrite IH; cbn; [|done|done|simpl in Hf; lia|done|done|done]. rewrite <- !app_assoc. done.
Qed.

(** ** Steps *)

(** The state before a turn of the loop: the_b is the first of the items that are left. *)
Record at_items (s : jm) (a y : Z) (its : list item) (out : list Z) : Prop := {
  ai_a : j_a s = a;
  ai_y : j_y s = y;
  ai_look : j_look s = EOF;
  ai_out : j_out s = out;
  ai_b : match its with
         | [] => j_b s = EOF ∧ j_in s = []
         | it :: its => j_b s = lead it ∧ j_x s = lead it ∧ j_in s = tail_bytes it ++ (its ≫= item_bytes)
         end
}.

Lemma lead_not_slash it : item_ok it → lead it ≠ SLASH ∧ lead it ≠ EOF.
Proof.
  destruct it as [c|c|c|body e|body|q body]; cbn; try done.
  - intros (H & ? & _). split; [done|]. unfold BLANK, EOF in *. lia.
  - intros [Hq _]. by destruct (quote_cases q Hq) as [-> |[-> | ->]].
Qed.

Lemma action3_items fuel s its :
  Forall item_ok its → (length (its ≫= item_bytes) < fuel)%nat → upcoming s (its ≫= item_bytes) →
  ∃ s', action3 fuel s = JDone s' ∧ at_items s' (j_a s) (j_x s) its (j_out s).
Proof.
  intros Hok Hf Hu. unfold action3. destruct its as [|it its].
  - unfold next. rewrite get_end by done. cbn. eexists. split; [reflexivity|]. by split.
  - apply Forall_cons in Hok as [H1 H2]. cbn [mbind list_bind] in Hu, Hf. rewrite length_app in Hf.
    rewrite (next_item fuel s it (its ≫= item_bytes)) by (done || lia). cbn.
    destruct (lead_not_slash it H1) as [Hs _]. rewrite (proj2 (Z.eqb_neq (lead it) SLASH)) by done. cbn.
    eexists. split; [reflexivity|]. by split.
Qed.

Section Turns.
Context (fuel : nat).

Definition fits (its : list item) : Prop := Forall item_ok its ∧ (length (its ≫= item_bytes) < fuel)%nat.

Lemma fits_cons it its : fits (it :: its) → item_ok it ∧ fits its ∧ (length (item_bytes it) < fuel)%nat.
Proof.
  intros [H1 H2]. apply Forall_cons in H1 as [H1 H3]. cbn [mbind list_bind] in H2. rewrite length_app in H2.
  split_and!; [done|split; [done|lia]|lia].
Qed.

(** the_b is deleted: white space. *)
Lemma delete_b s a y it its out :
  fits (it :: its) → is_white it = true → at_items s a y (it :: its) out →
  ∃ s', action3 fuel s = JDone s' ∧ at_items s' a (lead it) its out.
Proof.
  intros Hf Hw [Ea Ey El Eo (Eb & Ex & Ei)]. destruct (fits_cons _ _ Hf) as (H1 & [H2 H3] & H4).
  assert (tail_bytes it = []) as Et.
  { unfold is_white in Hw. destruct it as [| | | | |q body]; try done. destruct H1 as [Hq _].
    by destruct (quote_cases q Hq) as [-> |[-> | ->]]. }
  rewrite Et in Ei. destruct (action3_items fuel s its H2 H3) as (s' & Hs & Hat); [by left|]. exists s'. split; [done|].
  by rewrite Ea, Ex, Eo in Hat.
Qed.

(** the_b becomes the_a; a string is written up to its second quote. *)
Lemma delete_a s a y it its out :
  fits (it :: its) → at_items s a y (it :: its) out →
  ∃ s', action2 fuel s = JDone s' ∧ at_items s' (lead it) (lead it) its (out ++ body_of_item it).
Proof.
  intros Hf [Ea Ey El Eo (Eb & Ex & Ei)]. destruct (fits_cons _ _ Hf) as (H1 & [H2 H3] & H4).
  unfold action2. cbn [set_a j_a]. rewrite Eb. destruct (is_quote (lead it)) eqn:Eq.
  - assert (∃ q body, it = Str q body) as (q & body & ->).
    { destruct it as [c|c|c|body e|body|q body]; try done; [|by eexists _, _]. cbn in Eq. destruct H1 as (_ & _ & H1). congruence. }
    destruct H1 as [Hq Hb]. cbn [lead tail_bytes] in *. rewrite <- app_assoc in Ei. cbn [app] in Ei.
    rewrite (copy_string_item q body (its ≫= item_bytes)); [|done|done| |done|done|done]; last first.
    { cbn [item_bytes length] in H4. rewrite length_app in H4. lia. }
    cbn [set_a j_x j_y j_out j_a mbind option_bind jres_bind].
    edestruct (action3_items fuel) as (s' & Hs & Hat); [exact H2|exact H3| |exists s'; split; [exact Hs|]].
    { by left. }
    cbn in Hat. rewrite Ex, Eo in Hat. done.
  - cbn [mbind jres_bind mret jres_ret].
    assert (tail_bytes it = [] ∧ body_of_item it = []) as [Et Ebody].
    { destruct it as [| | | | |q body]; try done. cbn in Eq, H1. destruct H1 as [H1 _]. congruence. }
    edestruct (action3_items fuel) as (s' & Hs & Hat); [exact H2|exact H3| |exists s'; split; [exact Hs|]].
    { left. cbn. by rewrite El, Ei, Et. }
    cbn in Hat. rewrite Ex, Eo in Hat. by rewrite Ebody, app_nil_r.
Qed.

(** the_a is written, and what keeps operators apart. *)
Definition between (a y b : Z) : list Z :=
  if ((y =? NEWLINE) || (y =? BLANK)) && is_op a && is_op b then [y] else [].

Lemma output_a s a y it its out :
  fits (it :: its) → at_items s a y (it :: its) out →
  ∃ s', action1 fuel s = JDone s' ∧ at_items s' (lead it) (lead it) its (out ++ [a] ++ between a y (lead it) ++ body_of_item it).
Proof.
  intros Hf [Ea Ey El Eo (Eb & Ex & Ei)]. unfold action1. cbn [putc j_a j_b j_y]. rewrite Ea, Ey, Eb.
  match goal with |- context [action2 fuel ?x] => set (s2 := x) end.
  destruct (delete_a s2 a y it its (out ++ [a] ++ between a y (lead it)) Hf) as (s' & Hs & Hat).
  { subst s2. unfold between. destruct (_ && _ && _); split; cbn; try done; by rewrite Eo, <- ?app_assoc. }
  exists s'. split; [done|]. by rewrite <- !app_assoc in Hat.
Qed.

(** At the end of the program. *)
Lemma last_turn n s a y out :
  (1 < n)%nat → a ≠ EOF → (0 < fuel)%nat → at_items s a y [] out →
  ∃ s', jsmin_loop n fuel s = JDone s' ∧
    j_out s' = out ++ (if (a =? BLANK) || (a =? NEWLINE) then [] else [a]).
Proof.
  intros Hn Ha Hf [Ea Ey El Eo [Eb Ei]]. destruct n as [|[|n]]; [lia|lia|]. cbn [jsmin_loop]. rewrite Ea, Eb, (proj2 (Z.eqb_neq a EOF)) by done.
  assert (E : ∀ s1, j_b s1 = EOF → j_look s1 = EOF → j_in s1 = [] →
    ∃ s', (action2 fuel s1 ≫= λ s2, if j_a s2 =? EOF then JDone s2 else s3 ← action fuel (decide_action (j_a s2) (j_b s2)) s2 ; jsmin_loop n fuel s3)
          = JDone s' ∧ j_out s' = j_out s1).
  { intros s1 B1 L1 I1. unfold action2. cbn [set_a j_a]. rewrite B1. change (is_quote EOF) with false. cbn [mbind jres_bind mret jres_ret].
    edestruct (action3_items fuel (set_a EOF s1) []) as (s' & Hs & Hat); [done|done|by left|]. rewrite Hs. cbn [mbind jres_bind].
    destruct Hat as [A _ _ O _]. cbn in A, O. rewrite A. cbn. by exists s'. }
  unfold decide_action. change (is_alphanum EOF) with false. change (opens EOF) with false.
  change (EOF =? BLANK) with false. change (EOF =? NEWLINE) with false.
  destruct (Z.eqb_spec a BLANK) as [->|]; [|destruct (Z.eqb_spec a NEWLINE) as [->|]]; cbn [orb action].
  - destruct (E s Eb El Ei) as (s' & Hs & Ho). exists s'. rewrite app_nil_r. split; [exact Hs|congruence].
  - destruct (E s Eb El Ei) as (s' & Hs & Ho). exists s'. rewrite app_nil_r. split; [exact Hs|congruence].
  - unfold action1. cbn [putc j_a j_b j_y]. rewrite Eb. change (is_op EOF) with false. rewrite andb_false_r.
    destruct (E (putc (j_a s) s) Eb El Ei) as (s' & Hs & Ho). exists s'. split; [exact Hs|]. rewrite Ho. cbn. by rewrite Eo, Ea.
Qed.
End Turns.

(** ** The loop *)

(** the_a is a character [l] that is still to be written, [ws] the white space deleted behind it. *)
Definition held (l y : Z) (ws : option (bool * Z)) : Prop :=
  l ≠ BLANK ∧ l ≠ NEWLINE ∧ l ≠ EOF ∧
  match ws with
  | None => y ≠ BLANK ∧ y ≠ NEWLINE
  | Some (nl, last) => last = y ∧ (y = BLANK ∨ y = NEWLINE) ∧ (if nl then keeps (Some l) else is_alphanum l) = false
  end.

(** the_a is white space behind [l], which is written. *)
Definition white (a : Z) (l : option Z) (ws : option (bool * Z)) : Prop :=
  (a = BLANK ∧ ∃ c last, l = Some c ∧ is_alphanum c = true ∧ ws = Some (false, last)) ∨
  (a = NEWLINE ∧ keeps l = true ∧ ∃ last, ws = Some (true, last)).

Lemma white_cases it : is_white it = true → lead it = BLANK ∨ lead it = NEWLINE.
Proof. unfold is_white. intros [H%Z.eqb_eq|H%Z.eqb_eq]%orb_true_iff; auto. Qed.

Lemma visible_lead it : item_ok it → is_white it = false → lead it ≠ BLANK ∧ lead it ≠ NEWLINE ∧ lead it ≠ EOF.
Proof.
  intros H1 Hw. unfold is_white in Hw. apply orb_false_iff in Hw as [?%Z.eqb_neq ?%Z.eqb_neq].
  destruct (lead_not_slash it H1). done.
Qed.

Lemma keeps_alphanum c : is_alphanum c = true → keeps (Some c) = true.
Proof. intros H. cbn. rewrite H. apply orb_true_r. Qed.

(** The white space behind a character that is held, once more is deleted. *)
Lemma held_add l y ws c :
  held l y ws → (c = BLANK ∧ is_alphanum l = false ∨ c = NEWLINE ∧ keeps (Some l) = false) → held l c (add_white ws c).
Proof.
  intros (H1 & H2 & H3 & H4) Hc. split_and!; try done. cbn [add_white]. split_and!; [done|tauto|].
  destruct Hc as [[-> Hl]|[-> Hl]]; cbn [Z.eqb NEWLINE BLANK Pos.eqb orb]; [|done].
  destruct ws as [[nl last]|]; [|done]. destruct H4 as (_ & _ & H4). by destruct nl.
Qed.

Lemma between_separator l y ws r :
  held l y ws → separator (Some l) ws r = between l y r.
Proof.
  intros (H1 & H2 & H3 & H4). unfold separator, between. destruct ws as [[nl last]|].
  - destruct H4 as (-> & Hy & Hk). assert (((y =? NEWLINE) || (y =? BLANK)) = true) as ->.
    { destruct Hy as [-> | ->]; done. }
    cbn [andb]. destruct nl; by rewrite Hk.
  - destruct H4 as [? ?]. by rewrite !(proj2 (Z.eqb_neq _ _)) by done.
Qed.

Section Loop.
Context (fuel : nat).

(** What the turns left write: behind a character held, and behind white space. *)
Definition runs_held (its : list item) : Prop := ∀ n s l y ws out,
  (length its + 1 < n)%nat → at_items s l y its out → held l y ws →
  ∃ s', jsmin_loop n fuel s = JDone s' ∧ j_out s' = out ++ [l] ++ minify (Some l) ws its.

Definition runs_white (its : list item) : Prop := ∀ n s a y l ws out,
  (length its + 1 < n)%nat → at_items s a y its out → white a l ws →
  ∃ s', jsmin_loop n fuel s = JDone s' ∧ j_out s' = out ++ minify l ws its.

(** One turn. *)
Lemma loop_turn n s a y it its out s' :
  a ≠ EOF → at_items s a y (it :: its) out → action fuel (decide_action a (lead it)) s = JDone s' →
  jsmin_loop (S n) fuel s = jsmin_loop n fuel s'.
Proof.
  intros Ha [Ea Ey El Eo (Eb & Ex & Ei)] Hs. cbn [jsmin_loop]. rewrite Ea, Eb, (proj2 (Z.eqb_neq _ _)) by done. by rewrite Hs.
Qed.

(** The held character is written, white space follows. *)
Lemma turn_held_white it its :
  fits fuel (it :: its) → is_white it = true → runs_held its → runs_white its → runs_held (it :: its).
Proof.
  intros Hf Hw IHh IHw n s l y ws out Hn Hat Hh. destruct n as [|n]; [simpl in Hn; lia|].
  pose proof Hh as (L1 & L2 & L3 & _). cbn [minify]. rewrite Hw.
  assert (B : between l y (lead it) = [] ∧ body_of_item it = []).
  { split.
    - unfold between. destruct (white_cases it Hw) as [-> | ->]; by rewrite andb_false_r.
    - unfold is_white in Hw. destruct it as [| | | | |q body]; try done. destruct (fits_cons _ _ _ Hf) as ([Hq _] & _).
      by destruct (quote_cases q Hq) as [-> |[-> | ->]]. }
  destruct B as [B1 B2].
  assert (D : decide_action l (lead it) = if (if lead it =? NEWLINE then keeps (Some l) else is_alphanum l) then Output else Delete_b).
  { unfold decide_action, keeps. rewrite (proj2 (Z.eqb_neq l BLANK)), (proj2 (Z.eqb_neq l NEWLINE)) by done.
    destruct (white_cases it Hw) as [-> | ->]; cbn [Z.eqb BLANK NEWLINE Pos.eqb]; [done|]. by destruct (closes l). }
  destruct (if lead it =? NEWLINE then keeps (Some l) else is_alphanum l) eqn:K.
  - destruct (output_a fuel s l y it its out Hf Hat) as (s1 & Hs1 & Hat1). rewrite B1, B2, app_nil_r in Hat1. cbn [app] in Hat1.
    rewrite (loop_turn n s l y it its out s1); [|done|done|by rewrite D].
    destruct (IHw n s1 (lead it) (lead it) (Some l) (add_white ws (lead it)) (out ++ [l])) as (s' & E & O); [simpl in Hn; lia|done| |].
    + unfold white, add_white. destruct (white_cases it Hw) as [El|El]; rewrite El in *; cbn [Z.eqb BLANK NEWLINE Pos.eqb orb] in *; [left|right].
      * split; [done|]. exists l. eexists. split_and!; [done|done|]. destruct ws as [[nl last]|]; [|done].
        destruct Hh as (_ & _ & _ & _ & _ & Hh). destruct nl; [|done]. by rewrite (keeps_alphanum l K) in Hh.
      * split_and!; [done|done|by eexists].
    + exists s'. split; [done|]. by rewrite O, <- app_assoc.
  - destruct (delete_b fuel s l y it its out Hf Hw Hat) as (s1 & Hs1 & Hat1).
    rewrite (loop_turn n s l y it its out s1); [|done|done|by rewrite D].
    apply (IHh n s1 l (lead it) (add_white ws (lead it)) out); [simpl in Hn; lia|done|]. apply (held_add l y); [done|].
    destruct (white_cases it Hw) as [El|El]; rewrite El in *; auto.
Qed.

(** The held character is written, another character follows. *)
Lemma turn_held_visible it its :
  fits fuel (it :: its) → is_white it = false → runs_held its → runs_held (it :: its).
Proof.
  intros Hf Hw IHh n s l y ws out Hn Hat Hh. destruct n as [|n]; [simpl in Hn; lia|].
  pose proof Hh as (L1 & L2 & L3 & _). cbn [minify]. rewrite Hw, (between_separator l y ws) by done.
  destruct (fits_cons _ _ _ Hf) as (H1 & _). destruct (visible_lead it H1 Hw) as (V1 & V2 & V3).
  destruct (output_a fuel s l y it its out Hf Hat) as (s1 & Hs1 & Hat1).
  rewrite (loop_turn n s l y it its out s1); [|done|done|]; last first.
  { unfold decide_action. by rewrite !(proj2 (Z.eqb_neq _ _)) by done. }
  destruct (IHh n s1 (lead it) (lead it) None (out ++ [l] ++ between l y (lead it) ++ body_of_item it)) as (s' & E & O); [simpl in Hn; lia|done|done|].
  exists s'. split; [done|]. by rewrite O, <- !app_assoc.
Qed.

(** White space follows white space. *)
Lemma turn_white_white it its :
  fits fuel (it :: its) → is_white it = true → runs_white its → runs_white (it :: its).
Proof.
  intros Hf Hw IHw n s a y l ws out Hn Hat Ha. destruct n as [|n]; [simpl in Hn; lia|]. cbn [minify]. rewrite Hw.
  assert (B2 : body_of_item it = []).
  { unfold is_white in Hw. destruct it as [| | | | |q body]; try done. destruct (fits_cons _ _ _ Hf) as ([Hq _] & _).
    by destruct (quote_cases q Hq) as [-> |[-> | ->]]. }
  destruct (delete_a fuel s a y it its out Hf Hat) as (s1 & Hs1 & Hat1). rewrite B2, app_nil_r in Hat1.
  destruct (delete_b fuel s a y it its out Hf Hw Hat) as (s2 & Hs2 & Hat2).
  assert (Hn' : (length its + 1 < n)%nat) by (simpl in Hn; lia).
  destruct Ha as [(-> & c & last & -> & Hc & ->)|(-> & Hk & last & ->)].
  - assert (white (lead it) (Some c) (add_white (Some (false, last)) (lead it))) as Hwh.
    { unfold white, add_white. destruct (white_cases it Hw) as [-> | ->]; cbn [Z.eqb BLANK NEWLINE Pos.eqb orb]; [left|right].
      - split; [done|]. by eexists _, _.
      - split_and!; [done|by apply keeps_alphanum|by eexists]. }
    rewrite (loop_turn n s BLANK y it its out s1); [|done|done|].
    + by apply (IHw n s1 (lead it) (lead it)).
    + by destruct (white_cases it Hw) as [-> | ->].
  - assert (white NEWLINE l (add_white (Some (true, last)) (lead it))) as Hwh.
    { right. split_and!; [done|done|]. unfold add_white. rewrite orb_true_r. by eexists. }
    destruct (white_cases it Hw) as [El|El]; rewrite El in *.
    + rewrite (loop_turn n s NEWLINE y it its out s2); [|done|done|by rewrite El]. by apply (IHw n s2 NEWLINE BLANK).
    + rewrite (loop_turn n s NEWLINE y it its out s1); [|done|done|by rewrite El]. by apply (IHw n s1 NEWLINE NEWLINE).
Qed.

(** A character follows white space. *)
Lemma turn_white_visible it its :
  fits fuel (it :: its) → is_white it = false → runs_held its → runs_white (it :: its).
Proof.
  intros Hf Hw IHh n s a y l ws out Hn Hat Ha. destruct n as [|n]; [simpl in Hn; lia|]. cbn [minify]. rewrite Hw.
  destruct (fits_cons _ _ _ Hf) as (H1 & _). destruct (visible_lead it H1 Hw) as (V1 & V2 & V3).
  assert (Hn' : (length its + 1 < n)%nat) by (simpl in Hn; lia).
  assert (Ha' : a = BLANK ∨ a = NEWLINE) by (destruct Ha as [[-> _]|[-> _]]; auto).
  assert (Hs : separator l ws (lead it) = if (if a =? NEWLINE then opens (lead it) || is_alphanum (lead it) else is_alphanum (lead it)) then [a] else []).
  { destruct Ha as [(-> & c & last & -> & Hc & ->)|(-> & Hk & last & ->)]; cbn [separator].
    - rewrite Hc. done.
    - rewrite Hk. done. }
  assert (D : decide_action a (lead it) =
    if (if a =? NEWLINE then opens (lead it) || is_alphanum (lead it) else is_alphanum (lead it)) then Output else Delete_a).
  { unfold decide_action. destruct Ha' as [-> | ->]; cbn [Z.eqb BLANK NEWLINE Pos.eqb]; [done|].
    rewrite (proj2 (Z.eqb_neq (lead it) BLANK)) by done. by destruct (opens (lead it)), (is_alphanum (lead it)). }
  rewrite Hs. destruct (if a =? NEWLINE then _ else _).
  - destruct (output_a fuel s a y it its out Hf Hat) as (s1 & Hs1 & Hat1).
    assert (between a y (lead it) = []) as B by (unfold between; destruct Ha' as [-> | ->]; by rewrite andb_false_r).
    rewrite B in Hat1. rewrite (loop_turn n s a y it its out s1); [|by destruct Ha' as [-> | ->]|done|by rewrite D].
    destruct (IHh n s1 (lead it) (lead it) None (out ++ [a] ++ [] ++ body_of_item it)) as (s' & E & O); [done|done|done|].
    exists s'. split; [done|]. by rewrite O, <- !app_assoc.
  - destruct (delete_a fuel s a y it its out Hf Hat) as (s1 & Hs1 & Hat1).
    rewrite (loop_turn n s a y it its out s1); [|by destruct Ha' as [-> | ->]|done|by rewrite D].
    destruct (IHh n s1 (lead it) (lead it) None (out ++ body_of_item it)) as (s' & E & O); [done|done|done|].
    exists s'. split; [done|]. by rewrite O, <- !app_assoc.
Qed.

Lemma loop_items its : (0 < fuel)%nat → fits fuel its → runs_held its ∧ runs_white its.
Proof.
  intros H0. induction its as [|it its IH]; intros Hf.
  - split.
    + intros n s l y ws out Hn Hat (L1 & L2 & L3 & _). destruct (last_turn fuel n s l y out) as (s' & E & O); [simpl in Hn; lia|done|done|done|].
      exists s'. split; [done|]. rewrite O, !(proj2 (Z.eqb_neq _ _)) by done. done.
    + intros n s a y l ws out Hn Hat Ha. assert (Ha' : a = BLANK ∨ a = NEWLINE) by (destruct Ha as [[-> _]|[-> _]]; auto).
      destruct (last_turn fuel n s a y out) as (s' & E & O); [simpl in Hn; lia|by destruct Ha' as [-> | ->]|done|done|].
      exists s'. split; [done|]. rewrite O. by destruct Ha' as [-> | ->].
  - destruct (fits_cons _ _ _ Hf) as (_ & Hf' & _). destruct (IH Hf') as [IHh IHw]. destruct (is_white it) eqn:Hw.
    + split; [by apply turn_held_white|by apply turn_white_white].
    + split; [by apply turn_held_visible|by apply turn_white_visible].
Qed.
End Loop.

(** ** Files *)

Lemma item_bytes_nonempty it : (0 < length (item_bytes it))%nat.
Proof. destruct it; cbn; lia. Qed.

Lemma items_length its : (length its ≤ length (its ≫= item_bytes))%nat.
Proof.
  induction its as [|it its IH]; [done|]. cbn [mbind list_bind length]. rewrite length_app. pose proof (item_bytes_nonempty it). lia.
Qed.

Lemma block_ok_nonneg body : block_ok body → Forall (λ c, 0 ≤ c) body.
Proof. induction body as [|c body IH]; [done|]. intros (? & _ & ?). constructor; auto. Qed.

Lemma item_bytes_nonneg it : item_ok it → Forall (λ c, 0 ≤ c) (item_bytes it).
Proof.
  destruct it as [c|c|c|body e|body|q body]; cbn; intros H.
  - constructor; [|done]. destruct H as (H & _). unfold BLANK in H. lia.
  - constructor; [tauto|done].
  - constructor; [|done]. by destruct H as [-> | ->].
  - destruct H as [Hb He]. do 2 (constructor; [done|]). apply Forall_app. split; [|constructor; [by destruct He as [-> | ->]|done]].
    eapply Forall_impl; [exact Hb|]. by intros ? [? _].
  - do 2 (constructor; [done|]). apply Forall_app. split; [by apply block_ok_nonneg|]. repeat constructor; done.
  - destruct H as [Hq Hb]. assert (0 ≤ q) by (by destruct (quote_cases q Hq) as [-> |[-> | ->]]). constructor; [done|].
    apply Forall_app. split; [|by constructor]. induction Hb as [|p body Hp Hb IH]; [done|]. cbn [mbind list_bind]. apply Forall_app.
    split; [|done]. destruct p as [c|c]; cbn in *; [constructor; [tauto|done]|]. repeat constructor; done.
Qed.

(** What is written back for a program is what the reference gives. *)
Lemma compressjs_minified its :
  Forall item_ok its → head (its ≫= item_bytes) ≠ Some 0xEF →
  compressjs (its ≫= item_bytes) = JDone (minified its).
Proof.
  intros Hok Hbom. unfold compressjs, jsmin, minified. set (input := its ≫= item_bytes) in *. set (fuel := (length input + 3)%nat).
  assert (Hu : upcoming (jm_init input) input) by by left.
  assert (P : ∃ s1, (let '(c, s) := peek (jm_init input) in
      if c =? 0xEF then snd (get (snd (get (snd (get s))))) else s) = s1 ∧ upcoming s1 input ∧ j_out s1 = []).
  { destruct input as [|c r] eqn:Ei.
    - unfold peek. rewrite get_end by done. cbn. eexists. split; [reflexivity|]. split; [by left|done].
    - assert (Hc : 0 ≤ c).
      { assert (Hall : Forall (λ c, 0 ≤ c) (c :: r)).
        { rewrite <- Ei. subst input. clear - Hok. induction Hok as [|it its H ? IH]; [done|]. cbn [mbind list_bind].
          apply Forall_app. split; [by apply item_bytes_nonneg|done]. }
        by apply Forall_cons in Hall as [? _]. }
      rewrite (peek_upcoming _ c r) by done.
      assert (translate c ≠ 0xEF) as Ht.
      { unfold translate. destruct (_ || _ || _); [|by destruct (c =? RETURN)]. intros ->. by apply Hbom. }
      rewrite (proj2 (Z.eqb_neq _ _)) by done. eexists. split; [reflexivity|]. split; [by apply upcoming_peeked|done]. }
  destruct P as (s1 & E1 & Hu1 & Ho1). destruct (peek (jm_init input)) as [c s0]. cbn zeta. rewrite E1.
  assert (Hf : fits fuel its) by (split; [done|subst fuel input; lia]).
  destruct (action3_items fuel (set_a NEWLINE s1) its) as (s2 & Hs2 & Hat2); [done|apply Hf|done|].
  rewrite Hs2. cbn [mbind jres_bind]. cbn [set_a j_a j_x j_out] in Hat2. rewrite Ho1 in Hat2.
  destruct (loop_items fuel its) as [_ Hw]; [subst fuel; lia|done|].
  destruct (Hw fuel s2 NEWLINE (j_x s1) None (Some (true, NEWLINE)) []) as (s' & E & O); [|done| |].
  { pose proof (items_length its). subst fuel input. lia. }
  { right. split_and!; [done|done|by eexists]. }
  rewrite E. cbn [mbind jres_bind mret jres_ret]. by rewrite O.
Qed.

(** *** What the reference keeps *)

(** Words that were apart stay apart, and so do + and -. *)
Lemma separator_words l ws r : is_alphanum l = true → is_alphanum r = true → separator (Some l) (Some ws) r ≠ [].
Proof. intros Hl Hr. destruct ws as [nl last]. cbn. rewrite Hl, orb_true_r, Hr, orb_true_r. by destruct nl. Qed.

Lemma separator_signs l ws r : l ∈ [ch "+"; ch "-"] → r ∈ [ch "+"; ch "-"] → separator (Some l) (Some ws) r ≠ [].
Proof.
  intros Hl Hr. destruct ws as [nl last].
  apply elem_of_cons in Hl as [-> |Hl]; [|apply list_elem_of_singleton in Hl as ->];
    (apply elem_of_cons in Hr as [-> |Hr]; [|apply list_elem_of_singleton in Hr as ->]); by destruct nl.
Qed.

(** Strings and characters with white space put between them. *)
Inductive spaced : list Z → list item → Prop :=
| spaced_nil : spaced [] []
| spaced_white it its out : is_white it = true → spaced out its → spaced out (it :: its)
| spaced_item sep it its out : is_white it = false → Forall (λ c, c = BLANK ∨ c = NEWLINE) sep → spaced out its →
    spaced (sep ++ body_of_item it ++ [lead it] ++ out) (it :: its).

Definition ws_ok (ws : option (bool * Z)) : Prop := match ws with Some (_, c) => c = BLANK ∨ c = NEWLINE | None => True end.

Lemma separator_white l ws r : ws_ok ws → Forall (λ c, c = BLANK ∨ c = NEWLINE) (separator l ws r).
Proof.
  intros Hws. unfold separator. destruct ws as [[nl last]|]; [|done]. cbn in Hws.
  assert (∀ c, c = BLANK ∨ c = NEWLINE → Forall (λ c, c = BLANK ∨ c = NEWLINE) [c]) as K by (intros; by constructor).
  repeat case_match; auto.
Qed.

Lemma minify_spaced its : ∀ l ws, ws_ok ws → spaced (minify l ws its) its.
Proof.
  induction its as [|it its IH]; intros l ws Hws; cbn [minify]; [constructor|]. destruct (is_white it) eqn:Hw.
  - apply spaced_white; [done|]. apply IH. unfold add_white, ws_ok. by apply white_cases in Hw.
  - apply spaced_item; [done| |by apply IH]. by apply separator_white.
Qed.

(** A tab in a string becomes a space. *)
Lemma string_changed : compressjs (ch "'" :: [9] ++ [ch "'"]) = JDone [ch "'"; BLANK; ch "'"].
Proof. reflexivity. Qed.

(** C5: On every program of characters, white space, comments and string literals (everything but
    regular expressions and division) the minifier writes exactly what the reference minifier gives:
    every character and string literal in its order, and between them only the white space that is
    needed. *)
Theorem jsmin_minifies its :
  Forall item_ok its → head (its ≫= item_bytes) ≠ Some 0xEF →
  compressjs (its ≫= item_bytes) = JDone (minified its) ∧ spaced (minified its) its.
Proof. intros H1 H2. split; [by apply compressjs_minified|]. apply minify_spaced. by right. Qed.

(** if (a  +\n ++b) // c, a comment and a string *)
Definition program1 : list item :=
  [Char (ch "a"); White 32; White 9; Char (ch "+"); Eol 13; White 32; Char (ch "+"); Char (ch "+"); Char (ch "b");
   LineComment [ch "x"] 10; BlockComment [STAR; ch "y"]; Char (ch ";"); Str 39 [inl (ch "q"); inl 32; inr 39]].

Lemma char_ok c : ((BLANK <? c) && negb (c =? SLASH) && negb (is_quote c))%bool = true → item_ok (Char c).
Proof.
  intros [[H1%Z.ltb_lt H2%negb_true_iff]%andb_true_iff H3%negb_true_iff]%andb_true_iff. apply Z.eqb_neq in H2. by split_and!.
Qed.

Lemma program1_ok : Forall item_ok program1.
Proof.
  repeat (apply Forall_cons; split; [first [by apply char_ok|done|idtac]|]); try apply Forall_nil_2.
  - by right.
  - split; [|by left]. apply Forall_cons. split; [|apply Forall_nil_2]. split; [done|]. by intros [|].
  - split; [done|]. repeat (apply Forall_cons; split; [first [done|by split_and!]|]). apply Forall_nil_2.
Qed.

Lemma jsmin_minifies_witness :
  compressjs (program1 ≫= item_bytes) = JDone (minified program1) ∧ spaced (minified program1) program1.
Proof. apply (jsmin_minifies program1); [exact program1_ok|by vm_compute]. Defined.
