(* ===== verification/JsminTree.v ===== *)
(** * jsmin.c: the files of a directory

    [ijjs --min] minifies the JavaScript files under dist, each in place. The walk
    goes by the current directory: it changes into a directory, asks for the
    names in it relative to where it is, and changes back after each; a file
    is minified through a file called temp in the current directory. The
    file system is a tree of directories and regular files. *)

From S2P Require Import Prelude Jsmin.

(** ** Files *)

Inductive node := Reg (data : list Z) | Dir (entries : list (string * node)).

Fixpoint assoc (s : string) (es : list (string * node)) : option node :=
  match es with [] => None | (t, n) :: es => if decide (s = t) then Some n else assoc s es end.
Fixpoint set_assoc (s : string) (n : node) (es : list (string * node)) : list (string * node) :=
  match es with [] => [(s, n)] | (t, m) :: es => if decide (s = t) then (t, n) :: es else (t, m) :: set_assoc s n es end.
Fixpoint del_assoc (s : string) (es : list (string * node)) : list (string * node) :=
  match es with [] => [] | (t, m) :: es => if decide (s = t) then es else (t, m) :: del_assoc s es end.

(** Absolute paths, by their names. *)
Abbreviation path := (list string).

Fixpoint get (n : node) (p : path) : option node :=
  match p with
  | [] => Some n
  | s :: p => match n with Dir es => m ← assoc s es; get m p | Reg _ => None end
  end.

(** What is at [p], changed. *)
Fixpoint alter_at (p : path) (f : node → node) (n : node) : node :=
  match p with
  | [] => f n
  | s :: p => match n with Dir es => match assoc s es with Some m => Dir (set_assoc s (alter_at p f m) es) | None => n end | Reg _ => n end
  end.

Record files := mkFiles { root : node; cwd : path }.

(** Results: done, left by exit, undefined behaviour (a NULL file, an overrun buffer), no more turns. *)
Inductive wres := WDone (s : files) | WExit | WFault | WFuel.

Definition wbind (r : wres) (f : files → wres) : wres := match r with WDone s => f s | r => r end.

(** [chdir]: nothing happens where there is no directory. *)
Definition chdir (p : path) (s : files) : files := match get (root s) p with Some (Dir _) => mkFiles (root s) p | _ => s end.
(** [opendir] and [readdir]: the names there are. *)
Definition opendir (p : path) (s : files) : option (list string) :=
  match get (root s) p with Some (Dir es) => Some ("." :: ".." :: es.*1) | _ => None end.
(** [stat] of a name in the current directory. *)
Definition stat (name : string) (s : files) : option node :=
  if decide (name = ".") then get (root s) (cwd s)
  else if decide (name = "..") then get (root s) (take (length (cwd s) - 1) (cwd s))
  else get (root s) (cwd s ++ [name]).

(** Opening a file for writing, with what is written to it; deleting a file. *)
Definition write_file (dir : path) (name : string) (data : list Z) (s : files) : files :=
  mkFiles (alter_at dir (λ d, match d with Dir es => Dir (set_assoc name (Reg data) es) | d => d end) (root s)) (cwd s).
Definition unlink_file (dir : path) (name : string) (s : files) : files :=
  mkFiles (alter_at dir (λ d, match d with Dir es => Dir (del_assoc name es) | d => d end) (root s)) (cwd s).

(** ** compressjs *)

(** The text of a path: a slash before each name. *)
Definition text_length (p : path) : nat := sum_list (S ∘ String.length <$> p).
Definition text (p : path) : list ascii := p ≫= λ s, "/"%char :: list_ascii_of_string s.

(** [compressjs(file)] for the file [name] of [dir] *)
Definition compress_file (dir : path) (name : string) (s : files) : wres :=
  match get (root s) (dir ++ [name]) with
  | Some (Reg data) =>
      match get (root s) (cwd s ++ ["temp"]) with
      | Some (Dir _) => WFault
      | _ =>
          match compressjs data with
          | JDone out => WDone (unlink_file (cwd s) "temp" (write_file dir name out (write_file (cwd s) "temp" out s)))
          | JError => WExit
          | JStuck => WFuel
          end
      end
  | _ => WFault
  end.

(** [isJS]: the last three characters *)
Definition isJS (file : list ascii) : bool := bool_decide (drop (length file - 3) file = [".";"j";"s"]%char).

(** ** findAllFile *)

(** The buffers for paths hold 260 bytes. *)
Definition MAX_FILE : nat := 260.
Definition fits (p : path) : bool := (text_length p <? MAX_FILE)%nat.

Definition is_dir (n : node) : bool := match n with Dir _ => true | Reg _ => false end.
Definition is_reg (n : node) : bool := match n with Reg _ => true | Dir _ => false end.

(** What is done for one name; [rec] is the call for a directory. *)
Definition visit (rec : path → files → wres) (p : path) (name : string) (s : files) : wres :=
  match stat name s with
  | None => WDone s
  | Some n =>
      wbind
        (if is_dir n && bool_decide (name ≠ ".") && bool_decide (name ≠ "..")
         then if fits (p ++ [name]) then rec (p ++ [name]) s else WFault
         else WDone s)
        (λ s,
          wbind
            (if is_reg n
             then if fits (p ++ [name]) then if isJS (text (p ++ [name])) then compress_file p name s else WDone s else WFault
             else WDone s)
            (λ s, WDone (chdir p s)))
  end.

Fixpoint visit_all (rec : path → files → wres) (p : path) (names : list string) (s : files) : wres :=
  match names with
  | [] => WDone s
  | name :: names => wbind (visit rec p name s) (visit_all rec p names)
  end.

Fixpoint findAllFile (n : nat) (p : path) (s : files) : wres :=
  match n with
  | O => WFuel
  | S n' =>
      let s := chdir p s in
      match opendir p s with
      | None => WDone s
      | Some names => visit_all (findAllFile n') p names s
      end
  end.

(** [ijjs --min]: dist in the directory the program was started in. The buffer for its path is filled up by [uv_cwd],
    which leaves it undefined when the text does not fit, and [strcat]. (The text of the root directory is a slash, one
    longer than here.) *)
Definition min_jsfiles (n : nat) (s : files) : wres :=
  if fits (cwd s ++ ["dist"]) then findAllFile n (cwd s ++ ["dist"]) s else WFault.

(** ** The file system *)

Lemma assoc_set s n es : assoc s (set_assoc s n es) = Some n.
Proof. induction es as [|[t m] es IH]; cbn; [by rewrite decide_True|]. destruct (decide (s = t)) as [->|]; cbn; [by rewrite decide_True|]. by rewrite decide_False. Qed.

Lemma assoc_set_ne s t n es : s ≠ t → assoc s (set_assoc t n es) = assoc s es.
Proof.
  intros Hne. induction es as [|[u m] es IH]; cbn; [by rewrite decide_False|]. destruct (decide (t = u)) as [->|]; cbn; [by rewrite !decide_False|]. by destruct (decide (s = u)).
Qed.

Lemma get_app n p q : get n (p ++ q) = m ← get n p; get m q.
Proof. revert n. induction p as [|s p IH]; intros n; [done|]. cbn. destruct n as [|es]; [done|]. destruct (assoc s es) as [m|]; [|done]. apply IH. Qed.

Lemma alter_app p q f n : alter_at (p ++ q) f n = alter_at p (alter_at q f) n.
Proof. revert n. induction p as [|s p IH]; intros n; [done|]. cbn. destruct n as [|es]; [done|]. destruct (assoc s es) as [m|]; [|done]. by rewrite IH. Qed.

Lemma get_alter p f n m : get n p = Some m → get (alter_at p f n) p = Some (f m).
Proof.
  revert n. induction p as [|s p IH]; intros n; cbn; [by intros [= ->]|]. destruct n as [|es]; [done|]. intros (k & Hk & Hm)%bind_Some. rewrite Hk. cbn. rewrite assoc_set. by apply IH.
Qed.

Lemma set_set s n m es : set_assoc s n (set_assoc s m es) = set_assoc s n es.
Proof. induction es as [|[t k] es IH]; cbn; [by rewrite decide_True|]. destruct (decide (s = t)) as [->|]; cbn; [by rewrite decide_True|]. by rewrite decide_False, IH. Qed.

Lemma alter_alter p f g n : alter_at p f (alter_at p g n) = alter_at p (λ m, f (g m)) n.
Proof.
  revert n. induction p as [|s p IH]; intros n; [done|]. cbn. destruct n as [|es]; [done|]. destruct (assoc s es) as [m|] eqn:E; cbn; [|by rewrite E].
  rewrite assoc_set. by rewrite set_set, IH.
Qed.

Lemma set_same s n es : assoc s es = Some n → set_assoc s n es = es.
Proof. induction es as [|[t m] es IH]; cbn; [done|]. destruct (decide (s = t)) as [->|]; [by intros [= ->]|]. intros H. by rewrite IH. Qed.

Lemma alter_same p n m : get n p = Some m → alter_at p (λ _, m) n = n.
Proof.
  revert n. induction p as [|s p IH]; intros n; cbn; [by intros [= ->]|]. destruct n as [|es]; [done|]. intros (k & Hk & Hm)%bind_Some. rewrite Hk, IH by done. by rewrite set_same.
Qed.

Lemma assoc_none s es : s ∉ es.*1 → assoc s es = None.
Proof. induction es as [|[t m] es IH]; cbn; [done|]. intros [? ?]%not_elem_of_cons. rewrite decide_False by done. by apply IH. Qed.

Lemma assoc_middle s n l1 l2 : s ∉ l1.*1 → assoc s (l1 ++ (s, n) :: l2) = Some n.
Proof. induction l1 as [|[t m] l1 IH]; cbn; [by rewrite decide_True|]. intros [? ?]%not_elem_of_cons. rewrite decide_False by done. by apply IH. Qed.

Lemma set_middle s n m l1 l2 : s ∉ l1.*1 → set_assoc s m (l1 ++ (s, n) :: l2) = l1 ++ (s, m) :: l2.
Proof. induction l1 as [|[t k] l1 IH]; cbn; [by rewrite decide_True|]. intros [? ?]%not_elem_of_cons. rewrite decide_False by done. by rewrite IH. Qed.

(** A file that is made and deleted again. *)
Lemma temp_gone s n m t es : t ∉ es.*1 → s ∈ es.*1 → del_assoc t (set_assoc s n (set_assoc t m es)) = set_assoc s n es.
Proof.
  intros Ht Hs. assert (s ≠ t) as Hne by (by intros ->). induction es as [|[u k] es IH]; cbn in *; [by apply not_elem_of_nil in Hs|]. apply not_elem_of_cons in Ht as [Htu Ht].
  rewrite (decide_False (P := t = u)) by done. cbn. destruct (decide (s = u)) as [->|Hsu]; cbn; rewrite decide_False by done; f_equal.
  - clear -Ht. induction es as [|[v j] es IH]; cbn in *; [by rewrite decide_True|]. apply not_elem_of_cons in Ht as [Hv Ht]. rewrite decide_False by done. cbn. rewrite decide_False by done. by rewrite IH.
  - apply IH; [done|]. by apply elem_of_cons in Hs as [?|?].
Qed.

(** ** What the walk does *)

(** The ending of a path is that of its last name. *)
Lemma isJS_name X N : isJS (X ++ "/"%char :: N) = isJS N.
Proof.
  unfold isJS. apply bool_decide_ext. rewrite length_app. cbn [length]. destruct (decide (3 ≤ length N)%nat) as [Hl|Hl].
  - replace (length X + S (length N) - 3)%nat with (length (X ++ ["/"%char]) + (length N - 3))%nat by (rewrite length_app; cbn; lia).
    rewrite (app_assoc X ["/"%char] N : X ++ "/"%char :: N = _). by rewrite drop_app_add.
  - split; intros E.
    + exfalso. assert ("/"%char ∈ drop (length X + S (length N) - 3) (X ++ "/"%char :: N)) as Hin by (rewrite drop_app_le by lia; apply elem_of_app; right; by left).
      rewrite E in Hin. by repeat (apply elem_of_cons in Hin as [Hin|Hin]; [done|]); apply not_elem_of_nil in Hin.
    + exfalso. apply (f_equal length) in E. rewrite length_drop in E. cbn in E. lia.
Qed.

Definition js_name (s : string) : bool := isJS (list_ascii_of_string s).

Lemma isJS_path p s : isJS (text (p ++ [s])) = js_name s.
Proof. unfold text. rewrite bind_app. cbn. rewrite app_nil_r. apply isJS_name. Qed.

(** The tree with its JavaScript files minified. *)
Fixpoint minified_tree (n : node) : node :=
  match n with
  | Reg _ => n
  | Dir es =>
      Dir ((fix go (es : list (string * node)) : list (string * node) :=
        match es with
        | [] => []
        | (s, m) :: es =>
            (s, match m with
                | Reg data => if js_name s then match compressjs data with JDone out => Reg out | _ => m end else m
                | Dir _ => minified_tree m
                end) :: go es
        end) es)
  end.

Definition minified_entry (s : string) (m : node) : node :=
  match m with
  | Reg data => if js_name s then match compressjs data with JDone out => Reg out | _ => m end else m
  | Dir _ => minified_tree m
  end.

Lemma minified_dir es : minified_tree (Dir es) = Dir ((λ e, (e.1, minified_entry e.1 e.2)) <$> es).
Proof. cbn. f_equal. induction es as [|[s m] es IH]; [done|]. rewrite fmap_cons. f_equal. exact IH. Qed.

(** Names are different, none is temp, paths fit their buffers, and the JavaScript files can be minified. *)
Fixpoint ready (n : node) (p : path) : Prop :=
  match n with
  | Reg _ => True
  | Dir es =>
      NoDup es.*1 ∧ ("temp" ∉ es.*1) ∧ ("." ∉ es.*1) ∧ (".." ∉ es.*1) ∧
      (fix go (es : list (string * node)) : Prop :=
        match es with
        | [] => True
        | (s, m) :: es =>
            fits (p ++ [s]) = true ∧ ready m (p ++ [s]) ∧
            match m with Reg data => js_name s = true → ∃ out, compressjs data = JDone out | Dir _ => True end ∧ go es
        end) es
  end.

Definition ready_entry (p : path) (s : string) (m : node) : Prop :=
  fits (p ++ [s]) = true ∧ ready m (p ++ [s]) ∧ match m with Reg data => js_name s = true → ∃ out, compressjs data = JDone out | Dir _ => True end.

Lemma ready_dir es p : ready (Dir es) p → NoDup es.*1 ∧ ("temp" ∉ es.*1) ∧ ("." ∉ es.*1) ∧ (".." ∉ es.*1) ∧ Forall (λ e, ready_entry p e.1 e.2) es.
Proof.
  intros (H1 & H2 & H3 & H4 & H5). split_and!; [done..|]. clear -H5. induction es as [|[s m] es IH]; [constructor|]. destruct H5 as (? & ? & ? & ?). constructor; [done|]. by apply IH.
Qed.

(** Directories in directories. *)
Fixpoint height (n : node) : nat :=
  match n with
  | Reg _ => 0%nat
  | Dir es => S ((fix go (es : list (string * node)) : nat := match es with [] => 0%nat | (_, m) :: es => Nat.max (height m) (go es) end) es)
  end.

Lemma height_dir es k : (height (Dir es) ≤ S k)%nat → Forall (λ e, (height e.2 ≤ k)%nat) es.
Proof. cbn. intros H. apply le_S_n in H. induction es as [|[s m] es IH]; [constructor|]. constructor; [cbn; lia|]. apply IH. lia. Qed.

Section walk.
  Context (r : node) (p : path) (es0 : list (string * node)) (Hr : get r p = Some (Dir es0)).

(** In the directory [p], with the entries [es]. *)
Definition at_dir (es : list (string * node)) : files := mkFiles (alter_at p (λ _, Dir es) r) p.

Lemma at_dir_get es : get (root (at_dir es)) p = Some (Dir es).
Proof using Hr. exact (get_alter p (λ _, Dir es) r _ Hr). Qed.

Lemma at_dir_entry es s : get (root (at_dir es)) (p ++ [s]) = assoc s es.
Proof using Hr. rewrite get_app, at_dir_get. cbn. by destruct (assoc s es). Qed.

Lemma at_dir_chdir es c : chdir p (mkFiles (root (at_dir es)) c) = at_dir es.
Proof using Hr. unfold chdir. cbn [root]. by rewrite at_dir_get. Qed.

Lemma at_dir_parent es : ∃ fs, get (root (at_dir es)) (take (length p - 1) p) = Some (Dir fs).
Proof using Hr.
  pose proof (at_dir_get es) as H. destruct p as [|s q _] using rev_ind; [by exists es|]. rewrite length_app, Nat.add_sub, take_app_length.
  rewrite get_app in H. apply bind_Some in H as (m & -> & Hm). destruct m as [|fs]; [done|by exists fs].
Qed.

Lemma visit_dot rec es s : s = "." ∨ s = ".." → visit rec p s (at_dir es) = WDone (at_dir es).
Proof using Hr.
  intros Hs. assert (∃ fs, stat s (at_dir es) = Some (Dir fs)) as [fs E].
  { destruct Hs as [->| ->]; unfold stat; cbn [decide]; [exists es; by rewrite at_dir_get|apply at_dir_parent]. }
  unfold visit. rewrite E. assert (is_dir (Dir fs) && bool_decide (s ≠ ".") && bool_decide (s ≠ "..") = false) as -> by (by destruct Hs as [->| ->]).
  cbn [wbind is_reg]. f_equal. apply at_dir_chdir.
Qed.

Lemma at_dir_alter es f : alter_at p f (root (at_dir es)) = alter_at p (λ _, f (Dir es)) r.
Proof. apply alter_alter. Qed.

(** One entry. *)
Lemma visit_entry rec es l1 s m l2 : es = l1 ++ (s, m) :: l2 → NoDup es.*1 → ("temp" ∉ es.*1) → s ≠ "." → s ≠ ".." → ready_entry p s m →
  (is_dir m = true → rec (p ++ [s]) (at_dir es) = WDone (mkFiles (alter_at (p ++ [s]) (λ _, minified_tree m) (root (at_dir es))) (p ++ [s]))) →
  visit rec p s (at_dir es) = WDone (at_dir (l1 ++ (s, minified_entry s m) :: l2)).
Proof using Hr.
  intros He Hnd Htmp Hd1 Hd2 (Hfit & _ & Hjs) Hrec. assert (s ∉ l1.*1) as Hs.
  { subst es. rewrite fmap_app in Hnd. apply NoDup_app in Hnd as (_ & Hd & _). intros Hin. apply (Hd s Hin). by left. }
  assert (assoc s es = Some m) as Ha by (subst es; by apply assoc_middle).
  assert (stat s (at_dir es) = Some m) as E by (unfold stat; rewrite !decide_False by done; cbn [cwd at_dir]; by rewrite at_dir_entry).
  unfold visit. rewrite E, Hfit. destruct m as [data|fs]; cbn [is_dir is_reg andb wbind].
  - rewrite isJS_path. unfold minified_entry. destruct (js_name s) eqn:Ej.
    + destruct (Hjs eq_refl) as [out Ho]. rewrite Ho. unfold compress_file. rewrite at_dir_entry, Ha. cbn [cwd at_dir]. rewrite at_dir_entry, (assoc_none "temp") by done. rewrite Ho. cbn [wbind]. f_equal.
      unfold unlink_file, write_file. cbn [root cwd]. rewrite !alter_alter. cbn [at_dir root]. rewrite alter_alter. rewrite temp_gone, He, set_middle; [|done|done|].
      * exact (at_dir_chdir _ p).
      * subst es. rewrite fmap_app. apply elem_of_app. right. by left.
    + cbn [wbind]. rewrite (at_dir_chdir es p : chdir p (at_dir es) = _). by subst es.
  - rewrite !bool_decide_true by done. cbn [andb]. rewrite Hrec by done. cbn [wbind]. f_equal. rewrite alter_app, at_dir_alter. cbn [alter_at]. rewrite Ha.
    rewrite He, set_middle by done. exact (at_dir_chdir _ _).
Qed.

End walk.

Lemma visit_all_spec n r p es0 todo : get r p = Some (Dir es0) →
  (∀ q t d, get (root t) q = Some (Dir d) → ready (Dir d) q → (height (Dir d) ≤ n)%nat → findAllFile n q t = WDone (mkFiles (alter_at q (λ _, minified_tree (Dir d)) (root t)) q)) →
  ∀ past, NoDup (past ++ todo).*1 → ("temp" ∉ (past ++ todo).*1) → ("." ∉ todo.*1) → (".." ∉ todo.*1) → Forall (λ e, ready_entry p e.1 e.2) todo → Forall (λ e, (height e.2 ≤ n)%nat) todo →
  visit_all (findAllFile n) p todo.*1 (at_dir r p (past ++ todo)) = WDone (at_dir r p (past ++ ((λ e, (e.1, minified_entry e.1 e.2)) <$> todo))).
Proof.
  intros Hr IH. induction todo as [|[s m] todo IHt]; intros past Hnd Ht Hd1 Hd2 Hre Hhe; [done|]. apply Forall_cons in Hre as [Hm Hre]. apply Forall_cons in Hhe as [Hh Hhe].
  cbn [fmap list_fmap fst snd] in *. apply not_elem_of_cons in Hd1 as [Hs1 Hd1]. apply not_elem_of_cons in Hd2 as [Hs2 Hd2]. cbn [visit_all].
  rewrite (visit_entry r p es0 Hr (findAllFile n) _ past s m todo eq_refl); [|done|done|by intros ->|by intros ->|done|].
  - cbn [wbind]. assert ((past ++ (s, minified_entry s m) :: todo).*1 = (past ++ (s, m) :: todo).*1) as En by (by rewrite !fmap_app).
    rewrite (app_assoc past [(s, minified_entry s m)] todo : past ++ (s, minified_entry s m) :: todo = _) in En |- *. rewrite IHt; [by rewrite <- app_assoc|by rewrite En|by rewrite En|done..].
  - destruct m as [|fs]; [done|]. intros _. apply IH; [|by destruct Hm as (_ & ? & _)|done].
    rewrite (at_dir_entry r p es0 Hr). apply assoc_middle. rewrite fmap_app in Hnd. apply NoDup_app in Hnd as (_ & Hd & _). intros Hin. apply (Hd s Hin). by left.
Qed.

(** The walk minifies the JavaScript files of a directory and of those in it, and changes nothing else. *)
Lemma findAllFile_spec n : ∀ p s d, get (root s) p = Some (Dir d) → ready (Dir d) p → (height (Dir d) ≤ n)%nat →
  findAllFile n p s = WDone (mkFiles (alter_at p (λ _, minified_tree (Dir d)) (root s)) p).
Proof.
  induction n as [|n IH]; intros p s d Hg Hr Hh; [cbn in Hh; lia|]. apply ready_dir in Hr as (Hnd & Ht & Hd1 & Hd2 & Hall). cbn [findAllFile].
  assert (chdir p s = at_dir (root s) p d) as -> by (unfold chdir, at_dir; rewrite Hg; by rewrite alter_same). unfold opendir. rewrite (at_dir_get (root s) p d Hg). cbn [visit_all].
  rewrite !(visit_dot (root s) p d Hg) by tauto. cbn [wbind]. rewrite !(visit_dot (root s) p d Hg) by tauto. cbn [wbind].
  etrans; [by apply (visit_all_spec n (root s) p d d Hg IH []), height_dir|]. by rewrite minified_dir.
Qed.

(** C37: The option --min minifies exactly the JavaScript files under dist, in all directories
    however deep, each replaced by what the minifier makes of it, and changes nothing else, although
    the walk goes by the current directory and every file through one called temp: provided that no
    file has that name, paths fit the buffers of 260 bytes and the minifier reports no error. *)
Theorem min_dist s d : get (root s) (cwd s ++ ["dist"]) = Some (Dir d) → ready (Dir d) (cwd s ++ ["dist"]) → fits (cwd s ++ ["dist"]) = true →
  min_jsfiles (height (Dir d)) s = WDone (mkFiles (alter_at (cwd s ++ ["dist"]) (λ _, minified_tree (Dir d)) (root s)) (cwd s ++ ["dist"])).
Proof. intros Hg Hr Hf. unfold min_jsfiles. rewrite Hf. by apply findAllFile_spec. Qed.

(** A directory with a directory: "a; // c", a new line and "b". *)
Definition dist_entries : list (string * node) := [("js", Reg [32]); ("d", Dir [("a.js", Reg [97; 59; 32; 47; 47; 32; 99; 10; 98])])].
Definition dist_files : files := mkFiles (Dir [("w", Dir [("dist", Dir dist_entries)])]) ["w"].

Lemma min_dist_witness :
  min_jsfiles 2 dist_files = WDone (mkFiles (Dir [("w", Dir [("dist", Dir [("js", Reg [32]); ("d", Dir [("a.js", Reg [10; 97; 59; 98])])])])]) ["w"; "dist"]).
Proof. transitivity (WDone (mkFiles (alter_at ["w"; "dist"] (λ _, minified_tree (Dir dist_entries)) (root dist_files)) ["w"; "dist"])); [|vm_compute; reflexivity].
  apply (min_dist dist_files dist_entries); [reflexivity| |vm_compute; reflexivity].
  repeat split; try (apply (bool_decide_unpack _); vm_compute; exact I); try (intros _; eexists; vm_compute; reflexivity); vm_compute; discriminate. Defined.

(** A file called temp is lost. *)
Example temp_lost :
  findAllFile 1 ["d"] (mkFiles (Dir [("d", Dir [("temp", Reg [1]); ("a.js", Reg [10])])]) []) = WDone (mkFiles (Dir [("d", Dir [("a.js", Reg [])])]) ["d"]).
Proof. vm_compute. reflexivity. Qed.
