(* ===== verification/InitProject.v ===== *)
(** * Creating a project: init_project of main.c

    The function is one sequence of directories to make, files to write and files to copy
    from the installation; the paths of the latter are put together in buffers of 256
    characters. Which files can be opened is a parameter. This is the Linux variant. *)

From S2P Require Import Prelude.

(** The three texts the program carries. *)
Inductive template := tscfg | launch | mainfile.

Inductive init_step :=
| MKDIR (p : bytes)
| WriteFile (p : bytes) (t : template)
| CopyFile (src dst : bytes)
| Printf (msg : string)
| Chmod (p : bytes).

Inductive init_fault := PathOverflow | NullFile.

Inductive init_result :=
| InitDone (steps : list init_step)
| InitNoEnv (steps : list init_step)
| InitFault (steps : list init_step) (f : init_fault).

Definition PATH_SIZE : nat := 256.

(** [char buf[256]; strcpy(buf, path); strcat(buf, suffix)] *)
Definition build_path (path : bytes) (suffix : string) : option bytes :=
  let s := path ++ lit suffix in
  if (length s <? PATH_SIZE)%nat then Some s else None.

Section Init.
(** fopen(p, "rb") and fopen(p, "wb") succeed. *)
Context (can_read can_write : bytes → bool).

(** The steps done, or what went wrong after them. *)
Fixpoint run_steps (steps done : list init_step) : list init_step + list init_step :=
  match steps with
  | [] => inr done
  | s :: steps =>
      let ok := match s with
                | MKDIR _ | Printf _ | Chmod _ => true
                | WriteFile p _ => can_write p
                | CopyFile src dst => can_read src && can_write dst
                end in
      if ok then run_steps steps (done ++ [s]) else inl done
  end.

(** Steps 1 to 6. *)
Definition project_skeleton : list init_step :=
  [ MKDIR (lit ".vscode"); MKDIR (lit "ij_modules"); MKDIR (lit "ij_modules/@types"); MKDIR (lit "ij_modules/sigar");
    MKDIR (lit "ij_modules/redis"); MKDIR (lit "ij_modules/postgresql"); MKDIR (lit "ij_modules/cron");
    MKDIR (lit "src"); MKDIR (lit "dist");
    WriteFile (lit "tsconfig.json") tscfg; WriteFile (lit ".vscode/launch.json") launch ].

(** Step 7: the declaration files. *)
Definition dts_files : list (string * string) :=
  [ ("/lib.ijdom.d.ts", "ij_modules/@types/lib.ijdom.d.ts"); ("/lib.ijjs.d.ts", "ij_modules/@types/lib.ijjs.d.ts");
    ("/libsigar.d.ts", "ij_modules/sigar/libsigar.d.ts"); ("/libpostgre.d.ts", "ij_modules/postgresql/libpostgre.d.ts");
    ("/libredis.d.ts", "ij_modules/redis/libredis.d.ts") ]%string.

(** Steps 9 to 11: the modules. The path of each is built right before it is copied. *)
Definition module_files : list (string * string) :=
  [ ("/libsigar.so", "ij_modules/sigar/libsigar.so"); ("/cron.js", "ij_modules/cron/cron.js");
    ("/cron.d.ts", "ij_modules/cron/cron.d.ts"); ("/libpostgre.so", "ij_modules/postgresql/libpostgre.so");
    ("/libredis.so", "ij_modules/redis/libredis.so"); ("/redis", "ij_modules/redis/redis") ]%string.

(** All paths of a group, or an overflow. *)
Fixpoint build_copies (path : bytes) (l : list (string * string)) : option (list init_step) :=
  match l with
  | [] => Some []
  | (suffix, dst) :: l =>
      match build_path path suffix with
      | None => None
      | Some src => cons (CopyFile src (lit dst)) <$> build_copies path l
      end
  end.

(** The last copy also makes the file executable, before it is written. *)
Definition module_steps (src dst : bytes) : list init_step :=
  if decide (dst = lit "ij_modules/redis/redis") then [CopyFile src dst; Chmod dst] else [CopyFile src dst].

Fixpoint copy_modules (path : bytes) (l : list (string * string)) (done : list init_step) : init_result :=
  match l with
  | [] => InitDone done
  | (suffix, dst) :: l =>
      match build_path path suffix with
      | None => InitFault done PathOverflow
      | Some src =>
          match run_steps (module_steps src (lit dst)) done with
          | inl done => InitFault done NullFile
          | inr done => copy_modules path l done
          end
      end
  end.

(** [ijjs] is getenv("IJJS"). *)
Definition init_project (ijjs : option bytes) : init_result :=
  match run_steps project_skeleton [] with
  | inl done => InitFault done NullFile
  | inr done =>
      match ijjs with
      | None => InitNoEnv (done ++ [Printf "ijjs project init error(ijjs env error)"])
      | Some path =>
          match build_copies path dts_files with
          | None => InitFault done PathOverflow
          | Some copies =>
              match run_steps (copies ++ [WriteFile (lit "src/main.ts") mainfile;
                                         Printf "ijjs project init successfully"]) done with
              | inl done => InitFault done NullFile
              | inr done => copy_modules path module_files done
              end
          end
      end
  end.

(** ** Properties *)

Lemma run_steps_app s1 s2 done :
  run_steps (s1 ++ s2) done = match run_steps s1 done with inr done => run_steps s2 done | inl d => inl d end.
Proof using Type.
  revert done; induction s1 as [|s s1 IH]; intros done; [done|]. simpl. case_match; [apply IH|done].
Qed.

Lemma build_path_short path suffix :
  (length path + String.length suffix < PATH_SIZE)%nat → build_path path suffix = Some (path ++ lit suffix).
Proof using Type.
  intros H. unfold build_path. rewrite length_app, length_lit. by rewrite (proj2 (Nat.ltb_lt _ _)).
Qed.

Lemma build_path_long path suffix :
  (PATH_SIZE ≤ length path + String.length suffix)%nat → build_path path suffix = None.
Proof using Type.
  intros H. unfold build_path. rewrite length_app, length_lit. by rewrite (proj2 (Nat.ltb_ge _ _)).
Qed.

Context (Hread : ∀ p, can_read p = true) (Hwrite : ∀ p, can_write p = true).

Lemma run_steps_all steps done : run_steps steps done = inr (done ++ steps).
Proof using Hread Hwrite.
  revert done; induction steps as [|s steps IH]; intros done; simpl; [by rewrite app_nil_r|].
  destruct s; rewrite ?Hread, ?Hwrite; simpl; rewrite IH; by rewrite <- (assoc_L (++)).
Qed.

Definition copy_of (path : bytes) (e : string * string) : init_step := CopyFile (path ++ lit e.1) (lit e.2).
Definition module_of (path : bytes) (e : string * string) : list init_step := module_steps (path ++ lit e.1) (lit e.2).

Lemma build_copies_all path l :
  (∀ e, e ∈ l → (length path + String.length e.1 < PATH_SIZE)%nat) → build_copies path l = Some (copy_of path <$> l).
Proof using Type.
  induction l as [|[suffix dst] l IH]; intros H; [done|]. simpl.
  rewrite build_path_short by (apply (H (suffix, dst)), elem_of_cons; by left).
  rewrite IH; [done|]. intros e He. apply H, elem_of_cons. by right.
Qed.

Lemma copy_modules_all path l done :
  (∀ e, e ∈ l → (length path + String.length e.1 < PATH_SIZE)%nat) →
  copy_modules path l done = InitDone (done ++ (l ≫= module_of path)).
Proof using Hread Hwrite.
  revert done; induction l as [|[suffix dst] l IH]; intros done H; simpl; [by rewrite app_nil_r|].
  rewrite build_path_short by (apply (H (suffix, dst)), elem_of_cons; by left).
  rewrite run_steps_all, IH; [by rewrite <- (assoc_L (++))|]. intros e He. apply H, elem_of_cons. by right.
Qed.

Lemma longest_suffix e : e ∈ dts_files ∨ e ∈ module_files → (String.length e.1 ≤ 16)%nat.
Proof using Type.
  assert (H1 : Forall (λ e, (String.length e.1 ≤ 16)%nat) dts_files) by (repeat constructor; simpl; lia).
  assert (H2 : Forall (λ e, (String.length e.1 ≤ 16)%nat) module_files) by (repeat constructor; simpl; lia).
  rewrite Forall_forall in H1, H2. naive_solver.
Qed.

(** Up to 239 characters of path the project is complete. *)
Lemma init_project_short path :
  (length path < 240)%nat →
  init_project (Some path) = InitDone (project_skeleton ++ (copy_of path <$> dts_files) ++
    [WriteFile (lit "src/main.ts") mainfile; Printf "ijjs project init successfully"] ++ (module_files ≫= module_of path)).
Proof using Hread Hwrite.
  intros Hp. assert (Hs : ∀ e, e ∈ dts_files ∨ e ∈ module_files → (length path + String.length e.1 < PATH_SIZE)%nat).
  { intros e He. pose proof (longest_suffix e He). unfold PATH_SIZE. lia. }
  unfold init_project. rewrite run_steps_all, build_copies_all by (intros; apply Hs; by left).
  rewrite run_steps_all, copy_modules_all by (intros; apply Hs; by right). by rewrite <- !(assoc_L (++)).
Qed.

(** From 240 characters on the program writes past a buffer. *)
Lemma init_project_overflow path :
  (240 ≤ length path)%nat → init_project (Some path) = InitFault project_skeleton PathOverflow.
Proof using Hread Hwrite.
  intros Hp. unfold init_project. rewrite run_steps_all. simpl (_ ++ project_skeleton).
  assert (Hn : build_copies path dts_files = None).
  { simpl. destruct (build_path path "/lib.ijdom.d.ts"); [|done]. destruct (build_path path "/lib.ijjs.d.ts"); [|done].
    destruct (build_path path "/libsigar.d.ts"); [|done]. rewrite build_path_long; [done|]. unfold PATH_SIZE. simpl. lia. }
  by rewrite Hn.
Qed.
End Init.

Theorem init_project_complete can_read can_write path :
  (∀ p, can_read p = true) → (∀ p, can_write p = true) →
  init_project can_read can_write (Some path) =
  if (length path <? 240)%nat then
    InitDone (project_skeleton ++ (copy_of path <$> dts_files) ++
      [WriteFile (lit "src/main.ts") mainfile; Printf "ijjs project init successfully"] ++ (module_files ≫= module_of path))
  else InitFault project_skeleton PathOverflow.
Proof.
  intros Hr Hw. destruct (Nat.ltb_spec (length path) 240).
  - by apply init_project_short.
  - by apply init_project_overflow.
Qed.
