(* ===== verification/JsPath.v ===== *)
(** * Paths: js/path.js, the functions for POSIX systems

    Strings are lists of UTF-16 code units. The functions scan a path by index,
    from either end, with a few counters; the definitions keep their loops. *)

From S2P Require Import Prelude.

Abbreviation str := (list Z).

Definition js (s : string) : str := (λ c, Z.of_N (N_of_ascii c)) <$> list_ascii_of_string s.

Definition SLASH : Z := 47.
Definition DOT : Z := 46.

(** [s.length]; [s.charCodeAt(i)], with -1 for NaN, which equals no code *)
Definition len (s : str) : Z := Z.of_nat (length s).
Definition charCodeAt (s : str) (i : Z) : Z := if i <? 0 then -1 else nth (Z.to_nat i) s (-1).

(** [s.slice(a, b)] and [s.slice(a)]: negative numbers count from the end *)
Definition slice_index (s : str) (i : Z) : Z := if i <? 0 then Z.max (len s + i) 0 else Z.min i (len s).
Definition slice (s : str) (a b : Z) : str :=
  let a := slice_index s a in
  let b := slice_index s b in
  take (Z.to_nat (b - a)) (drop (Z.to_nat a) s).
Definition slice_from (s : str) (a : Z) : str := slice s a (len s).

(** [s.lastIndexOf('/')] *)
Fixpoint lastIndexOf_from (s : str) (i last : Z) : Z :=
  match s with
  | [] => last
  | c :: s => lastIndexOf_from s (i + 1) (if c =? SLASH then i else last)
  end.
Definition lastIndexOf (s : str) : Z := lastIndexOf_from s 0 (-1).

(** ** normalizeStringPosix *)

Record norm_state := mkNorm { res : str; lastSegmentLength : Z; lastSlash : Z; dots : Z }.

(** The attempt to drop the last segment for [..]; [None] where the code falls through. *)
Definition drop_segment (r : str) (lsl : Z) : option (str * Z) :=
  if (len r <? 2) || negb (lsl =? 2) || negb (charCodeAt r (len r - 1) =? DOT) || negb (charCodeAt r (len r - 2) =? DOT)
  then
    if 2 <? len r
    then
      let lastSlashIndex := lastIndexOf r in
      if negb (lastSlashIndex =? len r - 1)
      then
        if lastSlashIndex =? -1 then Some ([], 0)
        else
          let r := slice r 0 lastSlashIndex in
          Some (r, len r - 1 - lastIndexOf r)
      else None
    else if (len r =? 2) || (len r =? 1) then Some ([], 0)
    else None
  else None.

(** What is done at a slash, or at the end of the path. *)
Definition norm_slash (path : str) (allowAboveRoot : bool) (i : Z) (s : norm_state) : norm_state :=
  if (lastSlash s =? i - 1) || (dots s =? 1) then mkNorm (res s) (lastSegmentLength s) i 0
  else if negb (lastSlash s =? i - 1) && (dots s =? 2)
  then
    match drop_segment (res s) (lastSegmentLength s) with
    | Some (r, lsl) => mkNorm r lsl i 0
    | None =>
        if allowAboveRoot
        then mkNorm (if 0 <? len (res s) then res s ++ js "/.." else js "..") 2 i 0
        else mkNorm (res s) (lastSegmentLength s) i 0
    end
  else
    let seg := slice path (lastSlash s + 1) i in
    mkNorm (if 0 <? len (res s) then res s ++ SLASH :: seg else seg) (i - lastSlash s - 1) i 0.

(** [n] turns of the loop are left, the last with [i = path.length]; [code] is the code of the turn before. *)
Fixpoint norm_loop (n : nat) (path : str) (allowAboveRoot : bool) (i code : Z) (s : norm_state) : str :=
  match n with
  | O => res s
  | S n' =>
      if negb (i <? len path) && (code =? SLASH) then res s
      else
        let code := if i <? len path then charCodeAt path i else SLASH in
        let s' :=
          if code =? SLASH then norm_slash path allowAboveRoot i s
          else if (code =? DOT) && negb (dots s =? -1) then mkNorm (res s) (lastSegmentLength s) (lastSlash s) (dots s + 1)
          else mkNorm (res s) (lastSegmentLength s) (lastSlash s) (-1) in
        norm_loop n' path allowAboveRoot (i + 1) code s'
  end.

Definition normalizeStringPosix (path : str) (allowAboveRoot : bool) : str :=
  norm_loop (S (length path)) path allowAboveRoot 0 (-1) (mkNorm [] 0 (-1) 0).

(** ** The functions of the posix object *)

Definition isAbsolute (path : str) : bool := (0 <? len path) && (charCodeAt path 0 =? SLASH).

(** The arguments from the last to the first, then the working directory. *)
Fixpoint resolve_loop (rev_args : list str) (cwd resolvedPath : str) : str * bool :=
  match rev_args with
  | [] =>
      if len cwd =? 0 then (resolvedPath, false)
      else (cwd ++ SLASH :: resolvedPath, charCodeAt cwd 0 =? SLASH)
  | path :: args =>
      if len path =? 0 then resolve_loop args cwd resolvedPath
      else
        let resolvedPath := path ++ SLASH :: resolvedPath in
        if charCodeAt path 0 =? SLASH then (resolvedPath, true) else resolve_loop args cwd resolvedPath
  end.

Definition resolve (cwd : str) (args : list str) : str :=
  let '(resolvedPath, resolvedAbsolute) := resolve_loop (reverse args) cwd [] in
  let resolvedPath := normalizeStringPosix resolvedPath (negb resolvedAbsolute) in
  if resolvedAbsolute then if 0 <? len resolvedPath then SLASH :: resolvedPath else [SLASH]
  else if 0 <? len resolvedPath then resolvedPath
  else js ".".

Definition normalize (path : str) : str :=
  if len path =? 0 then js "."
  else
    let isAbs := charCodeAt path 0 =? SLASH in
    let trailingSeparator := charCodeAt path (len path - 1) =? SLASH in
    let path := normalizeStringPosix path (negb isAbs) in
    let path := if (len path =? 0) && negb isAbs then js "." else path in
    let path := if (0 <? len path) && trailingSeparator then path ++ [SLASH] else path in
    if isAbs then SLASH :: path else path.

(** [joined] is undefined until an argument that is not empty. *)
Fixpoint join_loop (args : list str) (joined : option str) : option str :=
  match args with
  | [] => joined
  | arg :: args =>
      join_loop args (if 0 <? len arg then match joined with None => Some arg | Some j => Some (j ++ SLASH :: arg) end else joined)
  end.

Definition join (args : list str) : str :=
  match args with
  | [] => js "."
  | _ => match join_loop args None with None => js "." | Some joined => normalize joined end
  end.

(** [for (; start < s.length; ++start) if (s.charCodeAt(start) !== 47) break;] *)
Fixpoint trim_loop (n : nat) (s : str) (start : Z) : Z :=
  match n with
  | O => start
  | S n' => if (start <? len s) && (charCodeAt s start =? SLASH) then trim_loop n' s (start + 1) else start
  end.

(** The comparison: the path to return at once, or [lastCommonSep]. *)
Fixpoint common_loop (n : nat) (from to : str) (fromStart toStart length fromLen toLen i lastCommonSep : Z) : str + Z :=
  match n with
  | O => inr lastCommonSep
  | S n' =>
      if i =? length then
        if length <? toLen then
          if charCodeAt to (toStart + i) =? SLASH then inl (slice_from to (toStart + i + 1))
          else if i =? 0 then inl (slice_from to (toStart + i))
          else inr lastCommonSep
        else if length <? fromLen then
          if charCodeAt from (fromStart + i) =? SLASH then inr i
          else if i =? 0 then inr 0
          else inr lastCommonSep
        else inr lastCommonSep
      else
        let fromCode := charCodeAt from (fromStart + i) in
        let toCode := charCodeAt to (toStart + i) in
        if negb (fromCode =? toCode) then inr lastCommonSep
        else common_loop n' from to fromStart toStart length fromLen toLen (i + 1) (if fromCode =? SLASH then i else lastCommonSep)
  end.

(** One [..] for each segment of [from] behind the common part; [n] turns are left, the last with [i = fromEnd]. *)
Fixpoint ups_loop (n : nat) (from : str) (i : Z) (out : str) : str :=
  match n with
  | O => out
  | S n' =>
      ups_loop n' from (i + 1)
        (if (i =? len from) || (charCodeAt from i =? SLASH) then if len out =? 0 then out ++ js ".." else out ++ js "/.." else out)
  end.

Definition relative (cwd from to : str) : str :=
  if bool_decide (from = to) then []
  else
    let from := resolve cwd [from] in
    let to := resolve cwd [to] in
    if bool_decide (from = to) then []
    else
      let fromStart := trim_loop (length from) from 1 in
      let fromLen := len from - fromStart in
      let toStart := trim_loop (length to) to 1 in
      let toLen := len to - toStart in
      let length := if fromLen <? toLen then fromLen else toLen in
      match common_loop (S (Z.to_nat length)) from to fromStart toStart length fromLen toLen 0 (-1) with
      | inl r => r
      | inr lastCommonSep =>
          let first := fromStart + lastCommonSep + 1 in
          let out := ups_loop (Z.to_nat (len from + 1 - first)) from first [] in
          if 0 <? len out then out ++ slice_from to (toStart + lastCommonSep)
          else
            let toStart := toStart + lastCommonSep in
            slice_from to (if charCodeAt to toStart =? SLASH then toStart + 1 else toStart)
      end.

(** From the end to place 1: the slash that ends the directory. *)
Fixpoint dirname_loop (n : nat) (path : str) (matchedSlash : bool) : Z :=
  match n with
  | O | S O => -1
  | S n' =>
      let i := Z.of_nat n' in
      if charCodeAt path i =? SLASH
      then if negb matchedSlash then i else dirname_loop n' path matchedSlash
      else dirname_loop n' path false
  end.

Definition dirname (path : str) : str :=
  if len path =? 0 then js "."
  else
    let hasRoot := charCodeAt path 0 =? SLASH in
    let e := dirname_loop (length path) path true in
    if e =? -1 then if hasRoot then js "/" else js "."
    else if hasRoot && (e =? 1) then js "//"
    else slice path 0 e.

(** The loop of basename without an extension: start and end, from place [n - 1] down. *)
Fixpoint base_loop (n : nat) (path : str) (e : Z) (matchedSlash : bool) : Z * Z :=
  match n with
  | O => (0, e)
  | S n' =>
      let i := Z.of_nat n' in
      if charCodeAt path i =? SLASH
      then if negb matchedSlash then (i + 1, e) else base_loop n' path e matchedSlash
      else if e =? -1 then base_loop n' path (i + 1) false
      else base_loop n' path e matchedSlash
  end.

(** The loop with an extension: start, end and firstNonSlashEnd. *)
Fixpoint base_ext_loop (n : nat) (path ext : str) (e extIdx firstNonSlashEnd : Z) (matchedSlash : bool) : Z * Z * Z :=
  match n with
  | O => (0, e, firstNonSlashEnd)
  | S n' =>
      let i := Z.of_nat n' in
      let code := charCodeAt path i in
      if code =? SLASH
      then if negb matchedSlash then (i + 1, e, firstNonSlashEnd) else base_ext_loop n' path ext e extIdx firstNonSlashEnd matchedSlash
      else
        let matchedSlash := if firstNonSlashEnd =? -1 then false else matchedSlash in
        let firstNonSlashEnd := if firstNonSlashEnd =? -1 then i + 1 else firstNonSlashEnd in
        if 0 <=? extIdx
        then
          if code =? charCodeAt ext extIdx
          then base_ext_loop n' path ext (if extIdx - 1 =? -1 then i else e) (extIdx - 1) firstNonSlashEnd matchedSlash
          else base_ext_loop n' path ext firstNonSlashEnd (-1) firstNonSlashEnd matchedSlash
        else base_ext_loop n' path ext e extIdx firstNonSlashEnd matchedSlash
  end.

Definition basename (path : str) (ext : option str) : str :=
  match ext with
  | Some ext =>
      if (0 <? len ext) && (len ext <=? len path)
      then
        if (len ext =? len path) && bool_decide (ext = path) then []
        else
          let '(start, e, firstNonSlashEnd) := base_ext_loop (length path) path ext (-1) (len ext - 1) (-1) true in
          let e := if start =? e then firstNonSlashEnd else if e =? -1 then len path else e in
          slice path start e
      else
        let '(start, e) := base_loop (length path) path (-1) true in
        if e =? -1 then [] else slice path start e
  | None =>
      let '(start, e) := base_loop (length path) path (-1) true in
      if e =? -1 then [] else slice path start e
  end.

(** The scan of extname and parse, from place [n - 1] down to [low]. *)
Record scan := mkScan { startDot : Z; startPart : Z; s_end : Z; preDotState : Z }.

Fixpoint scan_loop (n low : nat) (path : str) (matchedSlash : bool) (s : scan) : scan :=
  match n with
  | O => s
  | S n' =>
      if (n' <? low)%nat then s
      else
        let i := Z.of_nat n' in
        let code := charCodeAt path i in
        if code =? SLASH
        then if negb matchedSlash then mkScan (startDot s) (i + 1) (s_end s) (preDotState s) else scan_loop n' low path matchedSlash s
        else
          let matchedSlash := if s_end s =? -1 then false else matchedSlash in
          let e := if s_end s =? -1 then i + 1 else s_end s in
          let s' :=
            if code =? DOT
            then
              if startDot s =? -1 then mkScan i (startPart s) e (preDotState s)
              else mkScan (startDot s) (startPart s) e (if negb (preDotState s =? 1) then 1 else preDotState s)
            else mkScan (startDot s) (startPart s) e (if negb (startDot s =? -1) then -1 else preDotState s) in
          scan_loop n' low path matchedSlash s'
  end.

Definition no_extension (s : scan) : bool :=
  (startDot s =? -1) || (s_end s =? -1) || (preDotState s =? 0) ||
  ((preDotState s =? 1) && (startDot s =? s_end s - 1) && (startDot s =? startPart s + 1)).

Definition extname (path : str) : str :=
  let s := scan_loop (length path) 0 path true (mkScan (-1) 0 (-1) 0) in
  if no_extension s then [] else slice path (startDot s) (s_end s).

Record pathObject := mkPath { p_root : str; p_dir : str; p_base : str; p_ext : str; p_name : str }.

Definition parse (path : str) : pathObject :=
  if len path =? 0 then mkPath [] [] [] [] []
  else
    let isAbs := charCodeAt path 0 =? SLASH in
    let root := if isAbs then js "/" else [] in
    let s := scan_loop (length path) (if isAbs then 1 else 0) path true (mkScan (-1) 0 (-1) 0) in
    let first := if (startPart s =? 0) && isAbs then 1 else startPart s in
    let '(base, name, ext) :=
      if no_extension s
      then if negb (s_end s =? -1) then (slice path first (s_end s), slice path first (s_end s), []) else ([], [], [])
      else (slice path first (s_end s), slice path first (startDot s), slice path (startDot s) (s_end s)) in
    let dir := if 0 <? startPart s then slice path 0 (startPart s - 1) else if isAbs then js "/" else [] in
    mkPath root dir base ext name.

(** [x || y] on strings *)
Definition or_else (x y : str) : str := match x with [] => y | _ => x end.

Definition _format (sep : str) (o : pathObject) : str :=
  let dir := or_else (p_dir o) (p_root o) in
  let base := or_else (p_base o) (p_name o ++ p_ext o) in
  match dir with
  | [] => base
  | _ => if bool_decide (dir = p_root o) then dir ++ base else dir ++ sep ++ base
  end.

Definition format (o : pathObject) : str := _format (js "/") o.
