(* ===== verification/JsPathProofs.v ===== *)
(** * Paths: proofs

    A path is the list of its segments. The scanning loops compute on it what
    the reference definitions say: empty segments and dots vanish, two dots
    take a segment back. *)

From S2P Require Import Prelude JsPath.

(** ** Strings *)

Lemma len_nonneg s : 0 ≤ len s.
Proof. unfold len. lia. Qed.
Lemma len_app s t : len (s ++ t) = len s + len t.
Proof. unfold len. rewrite length_app. lia. Qed.
Lemma len_cons c s : len (c :: s) = 1 + len s.
Proof. unfold len. cbn. lia. Qed.
Lemma len_nil : len [] = 0.
Proof. done. Qed.
Lemma len_zero s : len s = 0 ↔ s = [].
Proof. unfold len. destruct s; cbn; split; intros; (lia || done). Qed.
Lemma len_pos s : 0 < len s ↔ s ≠ [].
Proof. rewrite <- len_zero. pose proof (len_nonneg s). lia. Qed.

Create Rewrite HintDb len.
#[export] Hint Rewrite len_app len_cons len_nil : len.

Lemma code_nat s (n : nat) : charCodeAt s (Z.of_nat n) = default (-1) (s !! n).
Proof. unfold charCodeAt. rewrite (proj2 (Z.ltb_ge _ _)) by lia. rewrite Nat2Z.id. apply nth_lookup. Qed.

Lemma code_at s t c : charCodeAt (s ++ c :: t) (len s) = c.
Proof. unfold len. rewrite code_nat, lookup_app_r by lia. by rewrite Nat.sub_diag. Qed.

Lemma code_shift s t i : 0 ≤ i → charCodeAt (s ++ t) (len s + i) = charCodeAt t i.
Proof.
  intros Hi. unfold len. replace (Z.of_nat (length s) + i) with (Z.of_nat (length s + Z.to_nat i)) by lia.
  rewrite code_nat, lookup_app_r by lia. replace (length s + Z.to_nat i - length s)%nat with (Z.to_nat i) by lia.
  rewrite <- code_nat. f_equal. lia.
Qed.

Lemma code_app_l s t i : i < len s → charCodeAt (s ++ t) i = charCodeAt s i.
Proof.
  intros Hi. unfold charCodeAt. destruct (Z.ltb_spec i 0); [done|]. unfold len in Hi. rewrite !nth_lookup, lookup_app_l by lia. done.
Qed.

Lemma code_beyond s i : len s ≤ i → charCodeAt s i = -1.
Proof. intros Hi. unfold charCodeAt. case_match; [done|]. unfold len in Hi. apply nth_overflow. lia. Qed.

Lemma slice_middle a b c : slice (a ++ b ++ c) (len a) (len a + len b) = b.
Proof.
  pose proof (len_nonneg a). pose proof (len_nonneg b). pose proof (len_nonneg c). unfold slice, slice_index. rewrite !len_app.
  rewrite !(proj2 (Z.ltb_ge _ _)) by lia. rewrite !Z.min_l by lia. unfold len.
  rewrite Nat2Z.id, drop_app_length. replace (Z.to_nat _) with (length b) by lia. apply take_app_length.
Qed.

Lemma slice_end a b : slice (a ++ b) (len a) (len (a ++ b)) = b.
Proof. rewrite <- (app_nil_r b) at 1. rewrite len_app. rewrite slice_middle. done. Qed.

Lemma slice_start a b : slice (a ++ b) 0 (len a) = a.
Proof. exact (slice_middle [] a b). Qed.

Lemma slice_from_app a b : slice_from (a ++ b) (len a) = b.
Proof. apply slice_end. Qed.

(** ** Segments *)

Definition no_slash (s : str) : Prop := SLASH ∉ s.
Definition seg_ok (s : str) : Prop := s ≠ [] ∧ no_slash s.

Lemma no_slash_cons c s : no_slash (c :: s) ↔ c ≠ SLASH ∧ no_slash s.
Proof. unfold no_slash. rewrite not_elem_of_cons. intuition congruence. Qed.

Fixpoint split (s : str) : list str :=
  match s with
  | [] => [[]]
  | c :: s => if c =? SLASH then [] :: split s else match split s with h :: t => (c :: h) :: t | [] => [[c]] end
  end.

Fixpoint joins (l : list str) : str :=
  match l with
  | [] => []
  | [a] => a
  | a :: l => a ++ SLASH :: joins l
  end.

Lemma split_nonempty s : split s ≠ [].
Proof. induction s as [|c s IH]; cbn; [done|]. destruct (c =? SLASH), (split s); done. Qed.

Lemma split_app a b : split (a ++ SLASH :: b) = split a ++ split b.
Proof.
  induction a as [|c a IH]; [done|]. cbn [app split]. rewrite IH. destruct (c =? SLASH); [done|].
  pose proof (split_nonempty a). by destruct (split a).
Qed.

Lemma split_segment a : no_slash a → split a = [a].
Proof.
  induction a as [|c a IH]; [done|]. intros [Hc Ha]%no_slash_cons. cbn [split]. rewrite IH by done. by rewrite (proj2 (Z.eqb_neq _ _)).
Qed.

Lemma joins_cons a l : l ≠ [] → joins (a :: l) = a ++ SLASH :: joins l.
Proof. by destruct l. Qed.

Lemma joins_snoc l a : l ≠ [] → joins (l ++ [a]) = joins l ++ SLASH :: a.
Proof.
  induction l as [|b l IH]; [done|]. intros _. destruct l as [|c l]; [done|]. change ((b :: c :: l) ++ [a]) with (b :: (c :: l) ++ [a]).
  rewrite !joins_cons by (by destruct l). rewrite IH by done. by rewrite <- app_assoc.
Qed.

Lemma split_joins l : l ≠ [] → Forall no_slash l → split (joins l) = l.
Proof.
  induction l as [|a l IH]; [done|]. intros _ [Ha Hl]%Forall_cons. destruct l as [|b l]; [by apply split_segment|].
  rewrite joins_cons, split_app, IH, split_segment; done.
Qed.

Lemma split_no_slash s : Forall no_slash (split s).
Proof.
  induction s as [|c s IH]; cbn [split]; [by repeat constructor; apply not_elem_of_nil|]. destruct (Z.eqb_spec c SLASH).
  - constructor; [apply not_elem_of_nil|done].
  - destruct (split s) as [|h t]; [by constructor; [apply no_slash_cons; split; [done|apply not_elem_of_nil]|]|].
    apply Forall_cons in IH as [Hh Ht]. constructor; [by apply no_slash_cons|done].
Qed.

Lemma last_index_from s t i last : no_slash t → lastIndexOf_from (s ++ SLASH :: t) i last = i + len s.
Proof.
  intros Ht. revert i last. induction s as [|c s IH]; intros i last; cbn [app lastIndexOf_from].
  - rewrite Z.eqb_refl, len_nil, Z.add_0_r. generalize (i + 1). clear last. induction t as [|c t IH]; intros j; [done|].
    apply no_slash_cons in Ht as [Hc Ht]. cbn [lastIndexOf_from]. rewrite (proj2 (Z.eqb_neq _ _)) by done. by apply IH.
  - rewrite IH, len_cons. lia.
Qed.

Lemma last_index_none s : no_slash s → lastIndexOf s = -1.
Proof.
  unfold lastIndexOf. generalize 0. induction s as [|c s IH]; intros i; [done|]. intros [Hc Hs]%no_slash_cons. cbn [lastIndexOf_from].
  rewrite (proj2 (Z.eqb_neq _ _)) by done. by apply IH.
Qed.

Lemma last_index_some s t : no_slash t → lastIndexOf (s ++ SLASH :: t) = len s.
Proof. intros Ht. unfold lastIndexOf. by rewrite last_index_from. Qed.

(** ** The reference: a stack of segments, the last on top *)

Definition DOT1 : str := [DOT].
Definition DOT2 : str := [DOT; DOT].

Definition step (allow : bool) (st : list str) (seg : str) : list str :=
  if decide (seg = [] ∨ seg = DOT1) then st
  else if decide (seg = DOT2)
  then
    match st with
    | top :: st' => if decide (top = DOT2) then if allow then DOT2 :: st else st else st'
    | [] => if allow then [DOT2] else []
    end
  else seg :: st.

Definition stack (allow : bool) (segs st : list str) : list str := foldl (step allow) st segs.
Definition normal_segs (allow : bool) (segs : list str) : list str := reverse (stack allow segs []).

Definition text_of (st : list str) : str := joins (reverse st).
Definition top_len (st : list str) : Z := match st with t :: _ => len t | [] => 0 end.

Lemma text_of_cons t st : text_of (t :: st) = match st with [] => t | _ => text_of st ++ SLASH :: t end.
Proof.
  unfold text_of. rewrite reverse_cons. destruct st as [|u st]; [done|]. apply joins_snoc.
  rewrite reverse_cons. by destruct (reverse st).
Qed.

Lemma text_of_empty st : Forall seg_ok st → text_of st = [] → st = [].
Proof.
  destruct st as [|t st]; [done|]. intros [[Ht _] _]%Forall_cons. rewrite text_of_cons. destruct st; [done|].
  intros H. by destruct (text_of _).
Qed.

Lemma step_ok allow st seg : Forall seg_ok st → no_slash seg → Forall seg_ok (step allow st seg).
Proof.
  intros Hst Hs. assert (seg_ok DOT2) as H2.
  { split; [done|]. unfold no_slash, DOT2. rewrite !not_elem_of_cons. split_and!; [done..|apply not_elem_of_nil]. }
  unfold step. case_decide as E1; [done|]. case_decide; [|constructor; [|done]; split; [tauto|done]].
  destruct st as [|t st]; [destruct allow; [apply Forall_cons; by split|done]|].
  case_decide; [destruct allow; [apply Forall_cons; by split|done]|]. by apply Forall_cons in Hst as [_ ?].
Qed.

Lemma stack_ok allow segs st : Forall seg_ok st → Forall no_slash segs → Forall seg_ok (stack allow segs st).
Proof.
  revert st. induction segs as [|s segs IH]; intros st Hst; [done|]. intros [Hs Hsegs]%Forall_cons. cbn. apply IH; [by apply step_ok|done].
Qed.

(** The text ends with two dots of the last segment. *)
Lemma ends_with_dots t s : len t = 2 →
  (charCodeAt (s ++ t) (len (s ++ t) - 1) =? DOT) && (charCodeAt (s ++ t) (len (s ++ t) - 2) =? DOT) = bool_decide (t = DOT2).
Proof.
  intros Hl. destruct t as [|a [|b [|]]]; cbn in Hl; try (unfold len in Hl; cbn in Hl; lia).
  rewrite len_app. replace (len [a; b]) with 2 by done. replace (len s + 2 - 1) with (len s + 1) by lia. replace (len s + 2 - 2) with (len s + 0) by lia.
  rewrite !code_shift by lia. change (charCodeAt [a; b] 1) with b. change (charCodeAt [a; b] 0) with a. destruct (Z.eqb_spec b DOT), (Z.eqb_spec a DOT); cbn; symmetry; first [by apply bool_decide_eq_true_2; subst|apply bool_decide_eq_false_2; unfold DOT2; congruence].
Qed.

Lemma drop_segment_spec st : Forall seg_ok st →
  drop_segment (text_of st) (top_len st) =
    match st with t :: st' => if decide (t = DOT2) then None else Some (text_of st', top_len st') | [] => None end.
Proof.
  intros Hst. destruct st as [|t st]; [done|]. apply Forall_cons in Hst as [[Ht Hts] Hst]. cbn [top_len]. unfold drop_segment.
  assert (∃ p, text_of (t :: st) = p ++ t ∧ (st = [] ∧ p = [] ∨ st ≠ [] ∧ p = text_of st ++ [SLASH])) as (p & Ep & Hp).
  { rewrite text_of_cons. destruct st; [exists []; split; [done|by left]|]. eexists (_ ++ [SLASH]). rewrite <- app_assoc. split; [done|by right]. }
  assert (0 < len t) by (by apply len_pos). pose proof (len_nonneg p).
  assert ((len (text_of (t :: st)) <? 2) || negb (len t =? 2) || negb (charCodeAt (text_of (t :: st)) (len (text_of (t :: st)) - 1) =? DOT) ||
    negb (charCodeAt (text_of (t :: st)) (len (text_of (t :: st)) - 2) =? DOT) = negb (bool_decide (t = DOT2))) as ->.
  { rewrite Ep. destruct (Z.eqb_spec (len t) 2) as [E2|E2].
    - rewrite <- (ends_with_dots t p E2), len_app. rewrite (proj2 (Z.ltb_ge _ _)) by lia. cbn. by rewrite negb_andb.
    - rewrite orb_true_r. cbn. symmetry. apply negb_true_iff, bool_decide_eq_false_2. by intros ->. }
  case_decide as Hd; [by rewrite bool_decide_eq_true_2|]. rewrite bool_decide_eq_false_2 by done. cbn [negb].
  destruct Hp as [[-> ->]|[Hne ->]].
  - change (text_of [t]) with t. rewrite last_index_none by done. destruct (Z.ltb_spec 2 (len t)).
    + by rewrite (proj2 (Z.eqb_neq _ _)) by lia.
    + assert (len t = 2 ∨ len t = 1) as [->| ->] by lia; done.
  - rewrite Ep, <- app_assoc in *. cbn [app]. rewrite last_index_some by done. assert (text_of st ≠ []) as Hne' by (intros E; by apply Hne, text_of_empty).
    apply len_pos in Hne'. autorewrite with len. rewrite (proj2 (Z.ltb_lt _ _)) by lia. rewrite (proj2 (Z.eqb_neq (len (text_of st)) _)) by lia. cbn [negb].
    rewrite (proj2 (Z.eqb_neq _ _)) by lia. rewrite slice_start. do 2 f_equal.
    destruct st as [|u st]; [done|]. apply Forall_cons in Hst as [[_ Hu] _]. cbn [top_len]. rewrite text_of_cons.
    destruct st as [|v st]; [rewrite last_index_none by done; lia|]. rewrite last_index_some by done. autorewrite with len. lia.
Qed.

(** ** normalizeStringPosix *)

Definition dots_of (cur : str) : Z := if forallb (λ c, c =? DOT) cur then len cur else -1.

Lemma dots_of_snoc cur c :
  dots_of (cur ++ [c]) = if (c =? DOT) && negb (dots_of cur =? -1) then dots_of cur + 1 else -1.
Proof.
  unfold dots_of. rewrite forallb_app. cbn. rewrite andb_true_r, len_app. pose proof (len_nonneg cur).
  destruct (forallb _ cur), (c =? DOT); cbn; try done. by rewrite (proj2 (Z.eqb_neq _ _)) by lia.
Qed.

Lemma dots_of_spec cur : cur ≠ [] →
  (dots_of cur =? 1) = bool_decide (cur = DOT1) ∧ (dots_of cur =? 2) = bool_decide (cur = DOT2).
Proof.
  intros Hne. unfold dots_of. destruct (forallb (λ c, c =? DOT) cur) eqn:E.
  - destruct cur as [|a [|b [|c cur]]]; [done|..]; cbn in E.
    + apply andb_true_iff in E as [->%Z.eqb_eq _]. done.
    + apply andb_true_iff in E as [->%Z.eqb_eq [->%Z.eqb_eq _]%andb_true_iff]. done.
    + pose proof (len_nonneg cur). rewrite !len_cons. rewrite !(proj2 (Z.eqb_neq _ _)) by lia.
      split; symmetry; by apply bool_decide_eq_false_2.
  - split; symmetry; apply bool_decide_eq_false_2; by intros ->.
Qed.

Record norm_inv (path pre cur : str) (st : list str) (s : norm_state) : Prop := {
  ni_res : res s = text_of st;
  ni_lsl : lastSegmentLength s = top_len st;
  ni_slash : lastSlash s = len pre - 1;
  ni_dots : dots s = dots_of cur
}.

Lemma norm_slash_spec path pre cur rest st s allow :
  path = pre ++ cur ++ rest → Forall seg_ok st → no_slash cur → norm_inv path pre cur st s →
  let i := len (pre ++ cur) in
  let s' := norm_slash path allow i s in
  res s' = text_of (step allow st cur) ∧ lastSegmentLength s' = top_len (step allow st cur) ∧ lastSlash s' = i ∧ dots s' = 0.
Proof.
  intros -> Hst Hcur [E1 E2 E3 E4] i s'. subst i s'. unfold norm_slash. rewrite E1, E2, E3, E4, len_app.
  pose proof (len_nonneg cur). destruct (decide (cur = [])) as [->|Hne].
  { rewrite len_nil, Z.add_0_r, Z.eqb_refl. cbn [orb]. unfold step. rewrite decide_True by (by left). done. }
  assert (0 < len cur) by (by apply len_pos). rewrite (proj2 (Z.eqb_neq (len pre - 1) _)) by lia. cbn [orb negb andb].
  destruct (dots_of_spec cur Hne) as [-> ->]. unfold step. destruct (decide (cur = DOT1)) as [->|H1].
  { rewrite bool_decide_eq_true_2 by done. rewrite decide_True by (by right). done. }
  rewrite (bool_decide_eq_false_2 (cur = DOT1)) by done. rewrite (decide_False (P := cur = [] ∨ cur = DOT1)) by tauto.
  destruct (decide (cur = DOT2)) as [->|H2].
  - rewrite bool_decide_eq_true_2 by done. rewrite drop_segment_spec by done. destruct st as [|t st].
    + by destruct allow.
    + case_decide; [|done]. subst t. assert ((0 <? len (text_of (DOT2 :: st))) = true) as ->.
      { apply Z.ltb_lt, len_pos. intros E. by apply text_of_empty in E. }
      destruct allow; [|done]. cbn [res lastSegmentLength lastSlash dots]. split_and!; [|done..]. by rewrite (text_of_cons DOT2 (DOT2 :: st)).
  - rewrite bool_decide_eq_false_2 by done. replace (len pre - 1 + 1) with (len pre) by lia. rewrite slice_middle. cbn [res lastSegmentLength lastSlash dots top_len].
    split_and!; [|lia|done..]. rewrite text_of_cons. destruct st as [|t st]; [done|].
    assert ((0 <? len (text_of (t :: st))) = true) as ->; [|done]. apply Z.ltb_lt, len_pos. intros E. by apply text_of_empty in E.
Qed.

Definition last_code (s : str) : Z := default (-1) (last s).

Lemma last_code_snoc s c : last_code (s ++ [c]) = c.
Proof. unfold last_code. by rewrite last_snoc. Qed.

Lemma norm_loop_spec rest path pre cur st s allow :
  path = pre ++ cur ++ rest → (pre = [] ∨ last_code pre = SLASH) → Forall seg_ok st → no_slash cur → norm_inv path pre cur st s →
  norm_loop (S (length rest)) path allow (len (pre ++ cur)) (last_code (pre ++ cur)) s = text_of (stack allow (split (cur ++ rest)) st).
Proof.
  revert pre cur st s. induction rest as [|c rest IH]; intros pre cur st s Hpath Hpre Hst Hcur HI; cbn [length].
  - cbn [norm_loop]. assert (len (pre ++ cur) = len path) as El by (by rewrite Hpath, app_nil_r).
    rewrite El, Z.ltb_irrefl, app_nil_r, split_segment by done. cbn [negb andb]. rewrite <- El.
    destruct (Z.eqb_spec (last_code (pre ++ cur)) SLASH) as [Ec|Ec].
    + destruct cur as [|c cur _] using rev_ind.
      * rewrite (ni_res _ _ _ _ _ HI). unfold stack, step. cbn. by rewrite decide_True by (by left).
      * rewrite app_assoc, last_code_snoc in Ec. subst c. exfalso. apply Hcur, elem_of_app. right. by left.
    + rewrite Z.eqb_refl. by apply (norm_slash_spec path pre cur [] st s allow).
  - remember (S (length rest)) as k eqn:Hk. cbn [norm_loop]. subst k. assert (len (pre ++ cur) < len path) by (rewrite Hpath; autorewrite with len; pose proof (len_nonneg rest); lia).
    rewrite (proj2 (Z.ltb_lt _ _)) by done. cbn [negb andb].
    assert (charCodeAt path (len (pre ++ cur)) = c) as -> by (by rewrite Hpath, app_assoc, code_at).
    assert (len (pre ++ cur) + 1 = len ((pre ++ cur) ++ [c])) as Ei by (rewrite (len_app (pre ++ cur)); done).
    destruct (Z.eqb_spec c SLASH) as [Ec|Hc].
    + subst c. destruct (norm_slash_spec path pre cur (SLASH :: rest) st s allow Hpath Hst Hcur HI) as (R1 & R2 & R3 & R4).
      set (s' := norm_slash _ _ _ _) in *. pose proof (IH ((pre ++ cur) ++ [SLASH]) [] (step allow st cur) s') as IH'.
      rewrite app_nil_r, last_code_snoc, <- Ei in IH'. rewrite IH'.
      * cbn [app]. by rewrite split_app, (split_segment cur).
      * rewrite Hpath. by rewrite <- !app_assoc.
      * by right.
      * by apply step_ok.
      * apply not_elem_of_nil.
      * split; [done..| |done]. rewrite R3, <- Ei. lia.
    + pose proof (IH pre (cur ++ [c]) st) as IH'. rewrite (app_assoc pre cur [c]), last_code_snoc, <- Ei in IH'.
      replace (cur ++ c :: rest) with ((cur ++ [c]) ++ rest) by (by rewrite <- app_assoc). apply IH'.
      * rewrite Hpath. by rewrite <- !app_assoc.
      * done.
      * done.
      * unfold no_slash. rewrite elem_of_app, list_elem_of_singleton. intros [?|E]; [by apply Hcur|congruence].
      * destruct HI as [E1 E2 E3 E4]. destruct ((c =? DOT) && negb (dots s =? -1)) eqn:Ed; split; try done; cbn [dots]; rewrite dots_of_snoc, <- E4, Ed; done.
Qed.

(** C35: The character loop of path.js that resolves '.' and '..', with its dot counter and its
    slicing of the result at the last slash, computes the normal form of the path by segments: empty
    segments and single dots vanish, two dots take the segment before them away, and stay only where
    going above the start is allowed. *)
Theorem normalize_string_spec path allow : normalizeStringPosix path allow = joins (normal_segs allow (split path)).
Proof. apply (norm_loop_spec path path [] [] [] (mkNorm [] 0 (-1) 0) allow); [done|by left|constructor|apply not_elem_of_nil|by split]. Qed.

(** ** Normal forms *)

(** A segment that names something. *)
Definition plain (s : str) : Prop := seg_ok s ∧ s ≠ DOT1 ∧ s ≠ DOT2.

(** Names on top of the two dots that lead above the start. *)
Definition is_normal (allow : bool) (st : list str) : Prop :=
  ∃ ps k, st = ps ++ replicate k DOT2 ∧ Forall plain ps ∧ (allow = false → k = O).

Lemma stack_app allow a b st : stack allow (a ++ b) st = stack allow b (stack allow a st).
Proof. apply foldl_app. Qed.

Lemma stack_cons allow s segs st : stack allow (s :: segs) st = stack allow segs (step allow st s).
Proof. done. Qed.

Lemma step_empty allow st : step allow st [] = st.
Proof. unfold step. by rewrite decide_True by (by left). Qed.

Lemma step_plain allow st s : plain s → step allow st s = s :: st.
Proof. intros [[H1 _] [H2 H3]]. unfold step. by rewrite !decide_False by tauto. Qed.

Lemma stack_plain allow ps st : Forall plain ps → stack allow ps st = reverse ps ++ st.
Proof.
  revert st. induction ps as [|p ps IH]; intros st; [done|]. intros [Hp Hps]%Forall_cons. rewrite stack_cons, step_plain, IH by done.
  by rewrite reverse_cons, <- app_assoc.
Qed.

Lemma step_dots allow st : step allow st DOT2 =
  match st with
  | top :: st' => if decide (top = DOT2) then if allow then DOT2 :: st else st else st'
  | [] => if allow then [DOT2] else []
  end.
Proof. unfold step. rewrite decide_False by (by intros [?|?]). by rewrite decide_True. Qed.

Lemma stack_dots k j : stack true (replicate k DOT2) (replicate j DOT2) = replicate (k + j) DOT2.
Proof.
  revert j. induction k as [|k IH]; intros j; [done|]. cbn [replicate]. rewrite stack_cons, step_dots. destruct j as [|j]; cbn [replicate].
  - change [DOT2] with (replicate 1 DOT2). rewrite IH. by replace (k + 1)%nat with (S k + 0)%nat by lia.
  - rewrite decide_True by done. change (DOT2 :: DOT2 :: replicate j DOT2) with (replicate (S (S j)) DOT2). rewrite IH. by replace (k + S (S j))%nat with (S k + S j)%nat by lia.
Qed.

Lemma step_normal allow st seg : is_normal allow st → no_slash seg → is_normal allow (step allow st seg).
Proof.
  intros (ps & k & -> & Hps & Hk) Hs. unfold step. case_decide as H1; [by exists ps, k|]. case_decide as H2.
  - destruct ps as [|p ps]; cbn [app].
    + destruct k as [|k]; cbn [replicate].
      * destruct allow; [by exists [], 1%nat|by exists [], O].
      * destruct allow; [|by specialize (Hk eq_refl)]. rewrite decide_True by done. by exists [], (S (S k)).
    + apply Forall_cons in Hps as [(_ & _ & Hp) Hps]. rewrite decide_False by done. by exists ps, k.
  - exists (seg :: ps), k. split_and!; [done| |done]. constructor; [|done]. split; [split; [tauto|done]|tauto].
Qed.

Lemma stack_normal allow segs st : is_normal allow st → Forall no_slash segs → is_normal allow (stack allow segs st).
Proof.
  revert st. induction segs as [|s segs IH]; intros st Hst; [done|]. intros [Hs Hsegs]%Forall_cons. apply IH; [by apply step_normal|done].
Qed.

Lemma normal_nil allow : is_normal allow [].
Proof. by exists [], O. Qed.

Lemma split_normal allow s : is_normal allow (stack allow (split s) []).
Proof. apply stack_normal; [apply normal_nil|apply split_no_slash]. Qed.

Lemma normal_seg_ok allow st : is_normal allow st → Forall seg_ok st.
Proof.
  intros (ps & k & -> & Hps & _). apply Forall_app. split; [by eapply Forall_impl; [done|intros ? []]|]. apply Forall_replicate. split; [done|].
  unfold no_slash, DOT2. rewrite !not_elem_of_cons. split_and!; [done..|apply not_elem_of_nil].
Qed.

(** Reading a normal form gives it again. *)
Lemma stack_reverse allow st : is_normal allow st → stack allow (reverse st) [] = st.
Proof.
  intros (ps & k & -> & Hps & Hk). rewrite reverse_app, reverse_replicate, stack_app.
  replace (stack allow (replicate k DOT2) []) with (replicate k DOT2).
  - rewrite stack_plain by (by apply Forall_reverse). by rewrite reverse_involutive.
  - destruct allow; [|by rewrite (Hk eq_refl)]. change (@nil str) with (replicate 0 DOT2). by rewrite stack_dots, Nat.add_0_r.
Qed.

Lemma split_text allow st : is_normal allow st → stack allow (split (text_of st)) [] = st.
Proof.
  intros Hn. pose proof (normal_seg_ok _ _ Hn) as Hok. destruct st as [|t st]; [apply step_empty|]. unfold text_of.
  rewrite split_joins; [by apply stack_reverse|by rewrite reverse_cons; destruct (reverse st)|].
  apply Forall_reverse. eapply Forall_impl; [done|]. by intros ? [].
Qed.

(** ** normalize *)

Definition render (abs trailing : bool) (st : list str) : str :=
  let b := text_of st in
  let b := if (len b =? 0) && negb abs then js "." else b in
  let b := if (0 <? len b) && trailing then b ++ [SLASH] else b in
  if abs then SLASH :: b else b.

Definition starts_slash (p : str) : bool := charCodeAt p 0 =? SLASH.
Definition ends_slash (p : str) : bool := charCodeAt p (len p - 1) =? SLASH.

Lemma normalize_render p : p ≠ [] → normalize p = render (starts_slash p) (ends_slash p) (stack (negb (starts_slash p)) (split p) []).
Proof.
  intros Hp. unfold normalize. rewrite (proj2 (Z.eqb_neq _ _)) by (by rewrite len_zero). rewrite normalize_string_spec. done.
Qed.

Lemma ends_slash_app p s : s ≠ [] → ends_slash (p ++ s) = ends_slash s.
Proof.
  intros Hs%len_pos. unfold ends_slash. rewrite len_app. replace (len p + len s - 1) with (len p + (len s - 1)) by lia. by rewrite code_shift by lia.
Qed.

Lemma ends_slash_seg s : no_slash s → ends_slash s = false.
Proof.
  intros Hs. destruct s as [|c s _] using rev_ind; [done|]. rewrite ends_slash_app by done.
  change (ends_slash [c]) with (c =? SLASH). apply Z.eqb_neq. intros ->. apply Hs, elem_of_app. right. by left.
Qed.

Lemma ends_slash_text st : Forall seg_ok st → ends_slash (text_of st) = false.
Proof.
  intros Hst. destruct st as [|t st]; [done|]. apply Forall_cons in Hst as [[Ht Hs] _]. rewrite text_of_cons.
  destruct st; [by apply ends_slash_seg|]. rewrite (app_assoc _ [SLASH] t : _ ++ SLASH :: t = _). rewrite ends_slash_app by done. by apply ends_slash_seg.
Qed.

Lemma starts_slash_text st : Forall seg_ok st → starts_slash (text_of st) = false.
Proof.
  intros Hst%Forall_reverse. unfold text_of. destruct (reverse st) as [|t l]; [done|]. apply Forall_cons in Hst as [[Ht Hs] _].
  destruct t as [|c t]; [done|]. apply no_slash_cons in Hs as [Hc _]. destruct l; cbn; by apply Z.eqb_neq.
Qed.

Lemma split_trailing b : split (b ++ [SLASH]) = split b ++ [[]].
Proof. exact (split_app b []). Qed.

Lemma render_some abs tr st :
  Forall seg_ok st → st ≠ [] → render abs tr st = (if abs then [SLASH] else []) ++ text_of st ++ (if tr then [SLASH] else []).
Proof.
  intros Hst Hne. unfold render. assert (0 < len (text_of st)) by (apply len_pos; intros E; by apply Hne, text_of_empty).
  rewrite (proj2 (Z.eqb_neq _ _)) by lia. cbn [andb]. rewrite (proj2 (Z.ltb_lt _ _)) by lia. destruct tr, abs; cbn; by rewrite ?app_nil_r.
Qed.

Lemma render_read abs tr st : is_normal (negb abs) st →
  render abs tr st ≠ [] ∧ starts_slash (render abs tr st) = abs ∧ stack (negb abs) (split (render abs tr st)) [] = st ∧
  render abs (ends_slash (render abs tr st)) st = render abs tr st.
Proof.
  intros Hn. destruct (decide (st = [])) as [->|Hne]; [by destruct abs, tr|]. pose proof (normal_seg_ok _ _ Hn) as Hok.
  assert (text_of st ≠ []) as Ht by (intros E; by apply Hne, text_of_empty). pose proof (starts_slash_text _ Hok) as Hss.
  assert (∀ x, ends_slash (x ++ text_of st ++ (if tr then [SLASH] else [])) = tr) as He.
  { intros x. destruct tr; [by rewrite app_assoc, ends_slash_app|]. rewrite app_nil_r, ends_slash_app by done. by apply ends_slash_text. }
  assert (stack (negb abs) (split (text_of st ++ (if tr then [SLASH] else []))) [] = st) as Hs.
  { destruct tr; [|by rewrite app_nil_r; apply split_text]. rewrite split_trailing, stack_app, split_text by done. apply step_empty. }
  rewrite (render_some abs tr st Hok Hne), He. split_and!.
  - destruct abs; [done|]. by destruct (text_of st).
  - destruct abs; [done|]. by destruct (text_of st).
  - destruct abs; [|done]. cbn [app]. change (SLASH :: ?x) with ([] ++ SLASH :: x). rewrite split_app. cbn [split app]. by rewrite stack_cons, step_empty.
  - by apply render_some.
Qed.

(** Normalizing twice is normalizing once. *)
Lemma normalize_idem p : normalize (normalize p) = normalize p.
Proof.
  destruct (decide (p = [])) as [->|Hp]; [done|]. rewrite (normalize_render p Hp). set (a := starts_slash p). set (st := stack _ _ _).
  destruct (render_read a (ends_slash p) st (split_normal _ _)) as (H1 & H2 & H3 & H4).
  rewrite normalize_render by done. by rewrite H2, H3.
Qed.

(** ** join *)

Lemma join_loop_spec args j :
  join_loop args j = match filter (λ a, a ≠ []) args, j with
                     | [], _ => j
                     | l, None => Some (joins l)
                     | l, Some j => Some (j ++ SLASH :: joins l)
                     end.
Proof.
  revert j. induction args as [|a args IH]; intros j; [by destruct j|]. cbn [join_loop]. rewrite IH, filter_cons. destruct a as [|c a]; [done|].
  rewrite decide_True by done. assert ((0 <? len (c :: a)) = true) as -> by (apply Z.ltb_lt; by apply len_pos).
  destruct (filter _ args) as [|b l], j as [j|]; try done. cbv zeta. by rewrite <- app_assoc.
Qed.

(** The arguments that are not empty, with a slash between them, normalized. *)
Lemma join_spec args : join args = normalize (joins (filter (λ a, a ≠ []) args)).
Proof.
  unfold join. destruct args as [|a args]; [done|]. rewrite join_loop_spec. by destruct (filter _ (a :: args)).
Qed.

(** ** resolve *)

(** Changing directory through the paths, from the working directory. *)
Definition cd (st : list str) (p : str) : list str :=
  if decide (p = []) then st else stack false (split p) (if starts_slash p then [] else st).
Definition cds (cwd : str) (args : list str) : list str := foldl cd (stack false (split cwd) []) args.

Lemma resolve_loop_spec rargs cwd acc : cwd ≠ [] → starts_slash cwd = true →
  (resolve_loop rargs cwd acc).2 = true ∧
  stack false (split (resolve_loop rargs cwd acc).1) [] = stack false (split acc) (cds cwd (reverse rargs)).
Proof.
  intros Hc Ha. revert acc. induction rargs as [|p rargs IH]; intros acc; cbn [resolve_loop].
  - rewrite (proj2 (Z.eqb_neq _ _)) by (by rewrite len_zero). cbn [fst snd]. split; [done|]. by rewrite split_app, stack_app.
  - rewrite reverse_cons. unfold cds. rewrite foldl_app. cbn [foldl]. fold (cds cwd (reverse rargs)). unfold cd at 1. case_decide as Hp.
    + subst p. cbn. apply IH.
    + rewrite (proj2 (Z.eqb_neq _ _)) by (by rewrite len_zero). fold (starts_slash p). destruct (starts_slash p) eqn:E; cbn [fst snd].
      * split; [done|]. by rewrite split_app, stack_app.
      * destruct (IH (p ++ SLASH :: acc)) as [H1 H2]. split; [done|]. by rewrite H2, split_app, stack_app.
Qed.

Lemma resolve_spec cwd args : cwd ≠ [] → starts_slash cwd = true → resolve cwd args = SLASH :: text_of (cds cwd args).
Proof.
  intros Hc Ha. unfold resolve. destruct (resolve_loop_spec (reverse args) cwd [] Hc Ha) as [H1 H2].
  destruct (resolve_loop (reverse args) cwd []) as [rp ab]. cbn [fst snd] in *. subst ab. rewrite normalize_string_spec. cbn [negb].
  rewrite reverse_involutive in H2. cbn [split] in H2. rewrite stack_cons, step_empty in H2. unfold normal_segs. rewrite H2. cbn [stack foldl]. fold (text_of (cds cwd args)).
  destruct (Z.ltb_spec 0 (len (text_of (cds cwd args)))) as [|Hl]; [done|]. by replace (text_of (cds cwd args)) with (@nil Z) by (symmetry; apply len_zero; pose proof (len_nonneg (text_of (cds cwd args))); lia).
Qed.

Lemma cd_normal st p : is_normal false st → is_normal false (cd st p).
Proof. intros Hst. unfold cd. case_decide; [done|]. apply stack_normal; [destruct (starts_slash p); [apply normal_nil|done]|apply split_no_slash]. Qed.

Lemma cds_normal cwd args : is_normal false (cds cwd args).
Proof.
  unfold cds. generalize (split_normal false cwd). generalize (stack false (split cwd) []). induction args as [|a args IH]; intros st Hst; [done|].
  cbn. by apply IH, cd_normal.
Qed.
