(* ===== verification/JsPathRel.v ===== *)
(** * Paths: relative

    The path from one place to another leads there: what [relative] computes by
    comparing characters is the way up from what the two paths do not share
    and down again. *)

From S2P Require Import Prelude JsPath JsPathProofs.

(** The part two lists share at the start. *)
Lemma common_start {A} `{EqDecision A} (l m : list A) :
  ∃ c l' m', l = c ++ l' ∧ m = c ++ m' ∧ ∀ x y l2 m2, l' = x :: l2 → m' = y :: m2 → x ≠ y.
Proof.
  revert m. induction l as [|x l IH]; intros m; [by exists [], [], m|]. destruct m as [|y m]; [by exists [], (x :: l), []|].
  destruct (decide (x = y)) as [<-|Hne].
  - destruct (IH m) as (c & l' & m' & -> & -> & H). by exists (x :: c), l', m'.
  - exists [], (x :: l), (y :: m). split_and!; [done..|]. by intros ? ? ? ? [= <- <-] [= <- <-].
Qed.

Section compare.
  Context (F T : str).
  Abbreviation from := (SLASH :: F).
  Abbreviation to := (SLASH :: T).
  Abbreviation length_ := (if len F <? len T then len F else len T).

Lemma from_code i : 0 ≤ i → charCodeAt from (1 + i) = charCodeAt F i.
Proof. intros. exact (code_shift [SLASH] F i H). Qed.

(** Equal characters are passed, the last slash among them is remembered. *)
Lemma common_run P X F2 T2 n lcs :
  F = P ++ X ++ F2 → T = P ++ X ++ T2 →
  common_loop (length X + n) from to 1 1 length_ (len F) (len T) (len P) lcs =
  common_loop n from to 1 1 length_ (len F) (len T) (len (P ++ X)) (lastIndexOf_from X (len P) lcs).
Proof.
  revert P lcs. induction X as [|c X IH]; intros P lcs HF HT; [by rewrite app_nil_r|].
  cbn [length Nat.add]. assert (0 ≤ len P) by apply len_nonneg. remember (length X + n)%nat as k eqn:Hk. cbn [common_loop]. subst k.
  pose proof (len_nonneg X). pose proof (len_nonneg F2). pose proof (len_nonneg T2).
  assert (len F = len P + (1 + len X + len F2)) by (rewrite HF; by autorewrite with len).
  assert (len T = len P + (1 + len X + len T2)) by (rewrite HT; by autorewrite with len).
  assert (len P < length_) by (destruct (Z.ltb_spec (len F) (len T)); lia).
  rewrite (proj2 (Z.eqb_neq _ _)) by lia. rewrite from_code by done.
  assert (charCodeAt to (1 + len P) = charCodeAt T (len P)) as -> by (exact (code_shift [SLASH] T (len P) ltac:(done))).
  assert (charCodeAt F (len P) = c) as -> by (rewrite HF; apply code_at). assert (charCodeAt T (len P) = c) as -> by (rewrite HT; apply code_at).
  rewrite Z.eqb_refl. cbn [negb lastIndexOf_from]. pose proof (IH (P ++ [c])) as IH'.
  rewrite !(len_app P [c]) in IH'. change (len [c]) with 1 in IH'. rewrite <- !(app_assoc P [c]) in IH'. by apply IH'.
Qed.

Lemma to_code i : 0 ≤ i → charCodeAt to (1 + i) = charCodeAt T i.
Proof. intros. exact (code_shift [SLASH] T i H). Qed.

Abbreviation start_loop := (common_loop (S (Z.to_nat length_)) from to 1 1 length_ (len F) (len T) 0 (-1)).

Lemma common_at X F2 T2 :
  F = X ++ F2 → T = X ++ T2 →
  ∃ k, start_loop = common_loop (S k) from to 1 1 length_ (len F) (len T) (len X) (lastIndexOf X).
Proof.
  intros HF HT. pose proof (len_nonneg F2). pose proof (len_nonneg T2). pose proof (len_nonneg X).
  assert (len F = len X + len F2) by (rewrite HF; by autorewrite with len). assert (len T = len X + len T2) by (rewrite HT; by autorewrite with len).
  exists (Z.to_nat length_ - length X)%nat. replace (S (Z.to_nat length_)) with (length X + S (Z.to_nat length_ - length X))%nat.
  - exact (common_run [] X F2 T2 _ (-1) HF HT).
  - unfold len in *. destruct (Z.ltb_spec (Z.of_nat (length F)) (Z.of_nat (length T))); lia.
Qed.

(** What follows the part that is shared. *)
Definition fork (X F2 T2 : str) : Prop :=
  match F2, T2 with
  | a :: _, b :: _ => a ≠ b
  | [], b :: _ => b ≠ SLASH ∧ X ≠ []
  | a :: _, [] => a ≠ SLASH ∧ X ≠ []
  | [], [] => False
  end.

Lemma common_fork X F2 T2 : F = X ++ F2 → T = X ++ T2 → fork X F2 T2 → start_loop = inr (lastIndexOf X).
Proof.
  intros HF HT Hk. destruct (common_at X F2 T2 HF HT) as [k ->]. cbn [common_loop]. pose proof (len_nonneg X).
  assert (len F = len X + len F2) as LF by (rewrite HF; by autorewrite with len). assert (len T = len X + len T2) as LT by (rewrite HT; by autorewrite with len).
  rewrite from_code, to_code by done.
  assert (∀ c s, F2 = c :: s → charCodeAt F (len X) = c) as CF by (intros c s ->; rewrite HF; apply code_at).
  assert (∀ c s, T2 = c :: s → charCodeAt T (len X) = c) as CT by (intros c s ->; rewrite HT; apply code_at).
  destruct F2 as [|a F2], T2 as [|b T2]; cbn [fork] in Hk; autorewrite with len in LF, LT; try done.
  - destruct Hk as [Hb HX%len_pos]. pose proof (len_nonneg T2). rewrite (CT b T2 eq_refl). rewrite (proj2 (Z.ltb_lt (len F) _)) by lia.
    rewrite (proj2 (Z.eqb_eq _ _)) by lia. rewrite (proj2 (Z.ltb_lt _ _)) by lia. rewrite (proj2 (Z.eqb_neq b _)) by done. by rewrite (proj2 (Z.eqb_neq _ _)) by lia.
  - destruct Hk as [Ha HX%len_pos]. pose proof (len_nonneg F2). rewrite (CF a F2 eq_refl). rewrite (proj2 (Z.ltb_ge (len F) _)) by lia.
    rewrite (proj2 (Z.eqb_eq _ _)) by lia. rewrite (proj2 (Z.ltb_ge _ _)) by lia. rewrite (proj2 (Z.ltb_lt _ _)) by lia.
    rewrite (proj2 (Z.eqb_neq a _)) by done. by rewrite (proj2 (Z.eqb_neq _ _)) by lia.
  - pose proof (len_nonneg F2). pose proof (len_nonneg T2). rewrite (CF a F2 eq_refl), (CT b T2 eq_refl).
    rewrite (proj2 (Z.eqb_neq (len X) _)) by (destruct (Z.ltb_spec (len F) (len T)); lia). by rewrite (proj2 (Z.eqb_neq a b)).
Qed.

(** The place to go to lies below: the rest of its path. *)
Lemma common_below T2 : T = F ++ SLASH :: T2 → start_loop = inl T2.
Proof.
  intros HT. destruct (common_at F [] (SLASH :: T2)) as [k ->]; [by rewrite app_nil_r|done|]. cbn [common_loop]. pose proof (len_nonneg F). pose proof (len_nonneg T2).
  assert (len T = len F + (1 + len T2)) as LT by (rewrite HT; by autorewrite with len). rewrite to_code by done.
  rewrite (proj2 (Z.ltb_lt (len F) _)) by lia. rewrite Z.eqb_refl. assert (charCodeAt T (len F) = SLASH) as -> by (rewrite HT; apply code_at).
  rewrite Z.eqb_refl, (proj2 (Z.ltb_lt (len F) (len T))), HT by lia. f_equal. replace (1 + len F + 1) with (len (SLASH :: F ++ [SLASH])) by (autorewrite with len; lia).
  rewrite (app_assoc F [SLASH] T2 : F ++ SLASH :: T2 = _). exact (slice_from_app (SLASH :: F ++ [SLASH]) T2).
Qed.

Lemma common_from_root : F = [] → T ≠ [] → starts_slash T = false → start_loop = inl T.
Proof.
  intros HF HT%len_pos Hs. destruct (common_at [] F T) as [k ->]; [done..|]. cbn [common_loop]. rewrite HF, len_nil, to_code by done.
  rewrite (proj2 (Z.ltb_lt 0 _)) by done. rewrite Z.eqb_refl. unfold starts_slash in Hs. rewrite Hs, (proj2 (Z.ltb_lt 0 _)) by done. f_equal. exact (slice_from_app [SLASH] T).
Qed.

(** The place to go to lies above. *)
Lemma common_above F2 : F = T ++ SLASH :: F2 → start_loop = inr (len T).
Proof.
  intros HF. destruct (common_at T (SLASH :: F2) []) as [k ->]; [done|by rewrite app_nil_r|]. cbn [common_loop]. pose proof (len_nonneg T). pose proof (len_nonneg F2).
  assert (len F = len T + (1 + len F2)) as LF by (rewrite HF; by autorewrite with len). rewrite from_code by done.
  rewrite (proj2 (Z.ltb_ge (len F) _)) by lia. rewrite Z.eqb_refl, Z.ltb_irrefl. rewrite (proj2 (Z.ltb_lt _ _)) by lia.
  assert (charCodeAt F (len T) = SLASH) as -> by (rewrite HF; apply code_at). done.
Qed.

Lemma common_to_root : T = [] → F ≠ [] → starts_slash F = false → start_loop = inr 0.
Proof.
  intros HT HF%len_pos Hs. destruct (common_at [] F T) as [k ->]; [done..|]. cbn [common_loop]. rewrite HT, len_nil, from_code by done.
  rewrite (proj2 (Z.ltb_ge (len F) _)) by lia. rewrite Z.eqb_refl, Z.ltb_irrefl. rewrite (proj2 (Z.ltb_lt _ _)) by lia. unfold starts_slash in Hs. by rewrite Hs.
Qed.

End compare.

(** ** The way up *)

Fixpoint slashes (s : str) : nat :=
  match s with [] => O | c :: s => (if c =? SLASH then S (slashes s) else slashes s) end.

Fixpoint add_ups (n : nat) (out : str) : str :=
  match n with O => out | S n => add_ups n (if len out =? 0 then out ++ js ".." else out ++ js "/..") end.

Lemma ups_loop_spec H G out : ups_loop (S (length G)) (H ++ G) (len H) out = add_ups (S (slashes G)) out.
Proof.
  revert H out. induction G as [|c G IH]; intros H out.
  - cbn [length ups_loop slashes add_ups]. rewrite app_nil_r. by rewrite Z.eqb_refl.
  - cbn [length]. remember (S (length G)) as k eqn:Hk. cbn [ups_loop]. subst k. pose proof (len_nonneg G). pose proof (len_nonneg H).
    rewrite (proj2 (Z.eqb_neq (len H) _)) by (autorewrite with len; lia). rewrite code_at. cbn [orb slashes].
    pose proof (IH (H ++ [c])) as IH'. rewrite <- app_assoc, len_app in IH'. cbn [app] in IH'. change (len [c]) with 1 in IH'. rewrite IH'.
    by destruct (c =? SLASH).
Qed.

Lemma slashes_joins l : l ≠ [] → Forall no_slash l → S (slashes (joins l)) = length l.
Proof.
  assert (∀ a b, no_slash a → slashes (a ++ b) = slashes b) as Ha.
  { intros a b. induction a as [|c a IH]; [done|]. intros [Hc Hs]%no_slash_cons. cbn. rewrite (proj2 (Z.eqb_neq _ _)) by done. by apply IH. }
  induction l as [|a l IH]; [done|]. intros _ [Hs Hl]%Forall_cons. destruct l as [|b l].
  - cbn. rewrite <- (app_nil_r a). by rewrite Ha.
  - rewrite joins_cons, Ha by done. cbn [slashes length]. rewrite Z.eqb_refl. f_equal. by apply IH.
Qed.

Lemma add_ups_joins n k : add_ups n (joins (replicate (S k) DOT2)) = joins (replicate (S k + n) DOT2).
Proof.
  revert k. induction n as [|n IH]; intros k; [by rewrite Nat.add_0_r|]. cbn [add_ups].
  assert (0 < len (joins (replicate (S k) DOT2))) by (apply len_pos; by destruct k). rewrite (proj2 (Z.eqb_neq _ _)) by lia.
  change (js "/..") with (SLASH :: DOT2). rewrite <- joins_snoc by done. rewrite <- replicate_S_end, IH. by replace (S k + S n)%nat with (S (S k) + n)%nat by lia.
Qed.

(** One step up for each segment. *)
Lemma ups_segments H l : l ≠ [] → Forall seg_ok l →
  ups_loop (Z.to_nat (len (H ++ joins l) + 1 - len H)) (H ++ joins l) (len H) [] = joins (replicate (length l) DOT2).
Proof.
  intros Hl Hok. rewrite len_app. replace (Z.to_nat _) with (S (length (joins l))) by (unfold len; lia). rewrite ups_loop_spec.
  rewrite slashes_joins by (done || (eapply Forall_impl; [done|]; by intros ? [])). destruct l as [|a l]; [done|]. exact (add_ups_joins (length l) 0).
Qed.

(** ** relative *)

Lemma joins_app a b : a ≠ [] → b ≠ [] → joins (a ++ b) = joins a ++ SLASH :: joins b.
Proof.
  intros Ha Hb. induction a as [|x a IH]; [done|]. destruct (decide (a = [])) as [->|Hne]; [by apply joins_cons|].
  cbn [app]. rewrite !joins_cons by (done || by destruct a). by rewrite IH, <- app_assoc by done.
Qed.

Lemma joins_nonempty l : l ≠ [] → Forall seg_ok l → joins l ≠ [].
Proof.
  intros Hl Hok E. apply Hl. rewrite <- (reverse_involutive l). rewrite (text_of_empty (reverse l)); [done|by apply Forall_reverse|].
  unfold text_of. by rewrite reverse_involutive.
Qed.

Lemma joins_inj l m : Forall seg_ok l → Forall seg_ok m → joins l = joins m → l = m.
Proof.
  intros Hl Hm E. destruct (decide (l = [])) as [->|Nl], (decide (m = [])) as [->|Nm]; [done|by destruct (joins_nonempty m Nm Hm)|by destruct (joins_nonempty l Nl Hl)|].
  rewrite <- (split_joins l), <- (split_joins m), E; [done|done| |done|]; (eapply Forall_impl; [done|by intros ? []]).
Qed.

(** The shared directory as it stands in both paths. *)
Definition shared (c : list str) : str := match c with [] => [] | _ => SLASH :: joins c end.

Lemma shared_app c l : l ≠ [] → SLASH :: joins (c ++ l) = shared c ++ SLASH :: joins l.
Proof. intros Hl. destruct c as [|x c]; [done|]. unfold shared. by rewrite joins_app. Qed.

(** The end of [relative] once [lastCommonSep] is known. *)
Definition go (from to : str) (sep : Z) : str :=
  let out := ups_loop (Z.to_nat (len from + 1 - (1 + sep + 1))) from (1 + sep + 1) [] in
  if 0 <? len out then out ++ slice_from to (1 + sep)
  else slice_from to (if charCodeAt to (1 + sep) =? SLASH then 1 + sep + 1 else 1 + sep).

Lemma ups_nonempty n : n ≠ O → (0 <? len (joins (replicate n DOT2))) = true.
Proof. intros Hn. apply Z.ltb_lt, len_pos. destruct n as [|[|n]]; done. Qed.

Lemma go_up c f' to : f' ≠ [] → Forall seg_ok f' →
  go (shared c ++ SLASH :: joins f') to (len (shared c) - 1) = joins (replicate (length f') DOT2) ++ slice_from to (len (shared c)).
Proof.
  intros Hf Hok. unfold go. replace (1 + (len (shared c) - 1) + 1) with (len (shared c ++ [SLASH])) by (autorewrite with len; change (len [SLASH]) with 1; lia).
  rewrite (app_assoc (shared c) [SLASH] (joins f') : shared c ++ SLASH :: joins f' = _). rewrite ups_segments by done.
  rewrite ups_nonempty by (by destruct f'). by replace (1 + (len (shared c) - 1)) with (len (shared c)) by lia.
Qed.

(** Up to the root: the count starts at the second character, which is enough. *)
Lemma go_root f' : f' ≠ [] → Forall seg_ok f' → go (SLASH :: joins f') [SLASH] 0 = joins (replicate (length f') DOT2).
Proof.
  intros Hf Hok. pose proof (joins_nonempty f' Hf Hok) as Hne. pose proof (ups_segments [SLASH] f' Hf Hok) as H.
  assert (starts_slash (joins f') = false) as Hs.
  { rewrite <- (reverse_involutive f'). apply starts_slash_text. by apply Forall_reverse. }
  destruct (joins f') as [|x g] eqn:E; [done|]. unfold go. change (1 + 0 + 1) with 2.
  assert (ups_loop (Z.to_nat (len (SLASH :: x :: g) + 1 - 2)) (SLASH :: x :: g) 2 [] = joins (replicate (length f') DOT2)) as ->.
  { rewrite <- H. cbn [app]. replace (Z.to_nat (len (SLASH :: x :: g) + 1 - len [SLASH])) with (S (Z.to_nat (len (SLASH :: x :: g) + 1 - 2))) by (unfold len; cbn [length]; lia).
    cbn [ups_loop]. change (charCodeAt (SLASH :: x :: g) (len [SLASH])) with x. change (x =? SLASH) with (starts_slash (x :: g)). rewrite Hs.
    rewrite (proj2 (Z.eqb_neq (len [SLASH]) _)) by (unfold len; cbn [length]; lia). done. }
  rewrite ups_nonempty by (by destruct f'). change (slice_from [SLASH] (1 + 0)) with (@nil Z). by rewrite app_nil_r.
Qed.

(** What the comparison finds, on the segments. *)
Definition compared (F T : str) : str + Z :=
  let length := if len F <? len T then len F else len T in
  common_loop (S (Z.to_nat length)) (SLASH :: F) (SLASH :: T) 1 1 length (len F) (len T) 0 (-1).

Definition finish (F T : str) : str :=
  match compared F T with inl r => r | inr sep => go (SLASH :: F) (SLASH :: T) sep end.

Lemma starts_slash_joins l : Forall seg_ok l → starts_slash (joins l) = false.
Proof. intros H%Forall_reverse%starts_slash_text. unfold text_of in H. by rewrite reverse_involutive in H. Qed.

(** Down from the first place. *)
Lemma finish_down c t' : Forall seg_ok (c ++ t') → t' ≠ [] → finish (joins c) (joins (c ++ t')) = joins t'.
Proof.
  intros [Hc Ht]%Forall_app Hne. unfold finish, compared. destruct (decide (c = [])) as [->|Hcn].
  - rewrite common_from_root; [done..|by apply joins_nonempty|by apply starts_slash_joins].
  - by rewrite (common_below (joins c) (joins (c ++ t')) (joins t')) by (by apply joins_app).
Qed.

(** Up from the first place. *)
Lemma finish_up c f' : Forall seg_ok (c ++ f') → f' ≠ [] → finish (joins (c ++ f')) (joins c) = joins (replicate (length f') DOT2).
Proof.
  intros [Hc Hf]%Forall_app Hne. unfold finish, compared. destruct (decide (c = [])) as [->|Hcn].
  - rewrite common_to_root; [by apply go_root|done|by apply joins_nonempty|by apply starts_slash_joins].
  - rewrite (common_above (joins (c ++ f')) (joins c) (joins f')) by (by apply joins_app). rewrite shared_app by done.
    assert (shared c = SLASH :: joins c) as Es by (by destruct c). replace (len (joins c)) with (len (shared c) - 1) by (rewrite Es; autorewrite with len; lia).
    rewrite go_up, Es by done. replace (slice_from _ _) with (@nil Z); [by rewrite app_nil_r|].
    symmetry. rewrite <- (app_nil_r (SLASH :: joins c)) at 1. apply slice_from_app.
Qed.

(** Two names that differ part where their characters do. *)
Lemma names_fork a b fs ts : seg_ok a → seg_ok b → a ≠ b →
  ∃ p F2 T2, joins (a :: fs) = p ++ F2 ∧ joins (b :: ts) = p ++ T2 ∧ no_slash p ∧ ∀ X, fork (X ++ p) F2 T2.
Proof.
  intros [Ha Sa] [Hb Sb] Hne. destruct (common_start a b) as (p & a' & b' & -> & -> & Hd). unfold no_slash in *. rewrite elem_of_app in Sa, Sb.
  assert (∀ q q' l, joins ((q ++ q') :: l) = q ++ (q' ++ match l with [] => [] | _ => SLASH :: joins l end)) as Hj.
  { intros q q' l. destruct l; [by rewrite app_nil_r|]. by rewrite joins_cons, <- app_assoc by done. }
  exists p, (a' ++ match fs with [] => [] | _ => SLASH :: joins fs end), (b' ++ match ts with [] => [] | _ => SLASH :: joins ts end).
  split_and!; [apply Hj..|tauto|]. intros X.
  assert (∀ q : str, q ++ p ≠ [] ∨ p = []) as Hp by (intros q; destruct p; [by right|left; by destruct q]).
  destruct a' as [|x a'], b' as [|y b']; cbn [app]; [done| | |by apply (Hd x y a' b')].
  - assert (y ≠ SLASH) by (intros ->; apply Sb; right; by left). destruct (Hp X) as [?| ->]; [|done]. by destruct fs; cbn; [|congruence].
  - assert (x ≠ SLASH) by (intros ->; apply Sa; right; by left). destruct (Hp X) as [?| ->]; [|done]. by destruct ts; cbn; [|congruence].
Qed.

(** Up and down again. *)
Lemma finish_fork c a f' b t' : Forall seg_ok (c ++ a :: f') → Forall seg_ok (c ++ b :: t') → a ≠ b →
  finish (joins (c ++ a :: f')) (joins (c ++ b :: t')) = joins (replicate (length (a :: f')) DOT2 ++ b :: t').
Proof.
  intros [Hc Hf]%Forall_app [_ Ht]%Forall_app Hne. pose proof (Forall_inv Hf) as Ha. pose proof (Forall_inv Ht) as Hb.
  destruct (names_fork a b f' t' Ha Hb Hne) as (p & F2 & T2 & EF & ET & Hp & Hk). unfold finish, compared.
  assert (∃ X, joins (c ++ a :: f') = (X ++ p) ++ F2 ∧ joins (c ++ b :: t') = (X ++ p) ++ T2 ∧ lastIndexOf (X ++ p) = len (shared c) - 1) as (X & XF & XT & XL).
  { destruct (decide (c = [])) as [->|Hcn]; [exists []; split_and!; [done..|by apply last_index_none]|].
    exists (joins c ++ [SLASH]). rewrite !joins_app, EF, ET by done. rewrite <- !app_assoc. split_and!; [done..|]. etrans; [exact (last_index_some (joins c) p Hp)|].
    destruct c; [done|]. unfold shared. autorewrite with len. lia. }
  rewrite (common_fork _ _ (X ++ p) F2 T2 XF XT (Hk X)), XL. rewrite !shared_app by done. rewrite go_up by done.
  rewrite slice_from_app. by rewrite joins_app by done.
Qed.

(** [from] and [to] are compared by their segments: up from what they do not share, and down. *)
Lemma compare_spec c f' t' : Forall seg_ok (c ++ f') → Forall seg_ok (c ++ t') → c ++ f' ≠ c ++ t' →
  (∀ x y l2 m2, f' = x :: l2 → t' = y :: m2 → x ≠ y) →
  finish (joins (c ++ f')) (joins (c ++ t')) = joins (replicate (length f') DOT2 ++ t').
Proof.
  intros Hf Ht Hne Hd. destruct f' as [|a f'], t' as [|b t'].
  - done.
  - rewrite app_nil_r. by apply finish_down.
  - rewrite !app_nil_r. by apply finish_up.
  - apply finish_fork; [done..|]. by apply (Hd a b f' t').
Qed.

Lemma trim_start F : starts_slash F = false → trim_loop (length (SLASH :: F)) (SLASH :: F) 1 = 1.
Proof. intros Hs. cbn [length trim_loop]. rewrite (from_code F 0 ltac:(done) : charCodeAt (SLASH :: F) 1 = _). unfold starts_slash in Hs. by rewrite Hs, andb_false_r. Qed.

Lemma relative_finish cwd from to : cwd ≠ [] → starts_slash cwd = true →
  relative cwd from to =
    let F := text_of (cds cwd [from]) in let T := text_of (cds cwd [to]) in
    if bool_decide (from = to) then [] else if bool_decide (SLASH :: F = SLASH :: T) then [] else finish F T.
Proof.
  intros Hc Ha. unfold relative. rewrite !resolve_spec by done. cbv zeta. set (F := text_of (cds cwd [from])). set (T := text_of (cds cwd [to])).
  destruct (bool_decide (from = to)); [done|]. destruct (bool_decide (SLASH :: F = SLASH :: T)); [done|].
  assert (starts_slash F = false) as HF by (by eapply starts_slash_text, normal_seg_ok, cds_normal).
  assert (starts_slash T = false) as HT by (by eapply starts_slash_text, normal_seg_ok, cds_normal).
  rewrite !trim_start by done. unfold finish, compared. replace (len (SLASH :: F) - 1) with (len F) by (autorewrite with len; lia).
  by replace (len (SLASH :: T) - 1) with (len T) by (autorewrite with len; lia).
Qed.

(** Up from what the two places do not share, and down again. *)
Lemma relative_spec cwd from to : cwd ≠ [] → starts_slash cwd = true →
  ∃ c f' t', reverse (cds cwd [from]) = c ++ f' ∧ reverse (cds cwd [to]) = c ++ t' ∧
    (∀ x y l2 m2, f' = x :: l2 → t' = y :: m2 → x ≠ y) ∧ relative cwd from to = joins (replicate (length f') DOT2 ++ t').
Proof.
  intros Hc Ha. destruct (common_start (reverse (cds cwd [from])) (reverse (cds cwd [to]))) as (c & f' & t' & Ef & Et & Hd).
  exists c, f', t'. split_and!; [done..|]. rewrite relative_finish by done. cbv zeta. unfold text_of. rewrite Ef, Et.
  assert (c ++ f' = c ++ t' → [] = joins (replicate (length f') DOT2 ++ t')) as Hsame.
  { intros ?%app_inv_head. subst t'. destruct f' as [|x f']; [done|]. by destruct (Hd x x f' f'). }
  assert (∀ p, Forall seg_ok (reverse (cds cwd [p]))) as Hok by (intros p; eapply Forall_reverse, normal_seg_ok, cds_normal).
  pose proof (Hok from) as Hf. pose proof (Hok to) as Ht. rewrite Ef in Hf. rewrite Et in Ht.
  case_bool_decide as E1; [apply Hsame; rewrite <- Ef, <- Et; by rewrite E1|]. case_bool_decide as E2.
  - injection E2 as E2. by apply Hsame, joins_inj.
  - apply compare_spec; [done..| |done]. intros E. apply E2. by rewrite E.
Qed.

Lemma stack_pop ps st : Forall plain ps → stack false (replicate (length ps) DOT2) (ps ++ st) = st.
Proof.
  induction ps as [|p ps IH]; [done|]. intros [(_ & _ & Hp) Hps]%Forall_cons. cbn [length replicate app]. rewrite stack_cons, step_dots, decide_False by done. by apply IH.
Qed.

Lemma dots_ok n : Forall seg_ok (replicate n DOT2).
Proof. apply Forall_replicate. split; [done|]. unfold no_slash, DOT2. rewrite !not_elem_of_cons. split_and!; [done..|apply not_elem_of_nil]. Qed.

(** Changing directory along segments. *)
Lemma cd_joins st l : Forall seg_ok l → cd st (joins l) = stack false l st.
Proof.
  intros Hl. destruct (decide (l = [])) as [->|Hne]; [done|]. unfold cd. rewrite decide_False by (by apply joins_nonempty).
  rewrite starts_slash_joins by done. rewrite split_joins; [done|done|]. eapply Forall_impl; [done|]. by intros ? [].
Qed.

Lemma plain_segments cwd args : Forall plain (reverse (cds cwd args)).
Proof. destruct (cds_normal cwd args) as (ps & k & -> & Hps & Hk). rewrite (Hk eq_refl), app_nil_r. by apply Forall_reverse. Qed.

(** C21: From an absolute working directory, the path that relative computes by comparing characters
    leads from the one place to the other: resolving it there gives what resolving the other path
    gives, for all paths, with dots, doubled slashes and places above or below each other. *)
Theorem relative_leads cwd from to : cwd ≠ [] → isAbsolute cwd = true → resolve cwd [from; relative cwd from to] = resolve cwd [to].
Proof.
  intros Hc Ha0. assert (starts_slash cwd = true) as Ha by (unfold isAbsolute in Ha0; by apply andb_prop in Ha0 as [_ ?]).
  rewrite !resolve_spec by done. do 2 f_equal. destruct (relative_spec cwd from to Hc Ha) as (c & f' & t' & Ef & Et & _ & ->).
  pose proof (plain_segments cwd [from]) as Pf. pose proof (plain_segments cwd [to]) as Pt. rewrite Ef in Pf. rewrite Et in Pt.
  apply Forall_app in Pf as [_ Pf]. apply Forall_app in Pt as [_ Pt].
  change (cds cwd [from; ?r]) with (cd (cds cwd [from]) r). rewrite cd_joins.
  - rewrite <- (reverse_involutive (cds cwd [from])), Ef, <- (reverse_involutive (cds cwd [to])), Et. rewrite !reverse_app, stack_app.
    rewrite <- (length_reverse f'), stack_pop by (by apply Forall_reverse). by apply stack_plain.
  - apply Forall_app. split; [apply dots_ok|]. eapply Forall_impl; [done|]. by intros ? [].
Qed.

Lemma relative_leads_witness :
  relative (js "/home/u") (js "a/b/../c") (js "/home/w") = js "../../../w" ∧
  resolve (js "/home/u") [js "a/b/../c"; relative (js "/home/u") (js "a/b/../c") (js "/home/w")] = resolve (js "/home/u") [js "/home/w"].
Proof. split; [vm_compute; reflexivity|]. apply (relative_leads (js "/home/u")); [done|vm_compute; reflexivity]. Defined.
