(* ===== verification/JsPathParse.v ===== *)
(** * Paths: the parts of a path

    [basename], [dirname], [extname] and [parse] scan a path from its end. Here
    each is the part of a path that its definition by segments says: a path is
    what stands before its last name, that name, and slashes; the extension is
    what follows the last dot of the name. [format] puts the parts together
    again. *)

From S2P Require Import Prelude JsPath JsPathProofs.

Definition slashes_of (n : nat) : str := replicate n SLASH.

(** Nothing, or a directory with its slash. *)
Definition dir_part (pre : str) : Prop := pre = [] ∨ ∃ d, pre = d ++ [SLASH].

(** Every path has its last name, or is slashes only. *)
Lemma path_cases (p : str) :
  (∃ n, p = slashes_of n) ∨ ∃ pre name n, p = pre ++ name ++ slashes_of n ∧ dir_part pre ∧ seg_ok name.
Proof.
  assert (∀ q : str, ∃ pre name, q = pre ++ name ∧ dir_part pre ∧ no_slash name) as Hq.
  { induction q as [|c q IH] using rev_ind; [exists [], []; split_and!; [done|by left|apply not_elem_of_nil]|].
    destruct IH as (pre & name & -> & Hpre & Hn). destruct (decide (c = SLASH)) as [->|Hc].
    - exists ((pre ++ name) ++ [SLASH]), []. rewrite app_nil_r. split_and!; [done|right; by eexists|apply not_elem_of_nil].
    - exists pre, (name ++ [c]). rewrite app_assoc. split_and!; [done..|]. unfold no_slash. rewrite elem_of_app, list_elem_of_singleton. intros [?|<-]; done. }
  induction p as [|c p IH] using rev_ind; [left; by exists O|]. destruct (decide (c = SLASH)) as [->|Hc].
  - destruct IH as [[n ->]|(pre & name & n & -> & Hpre & Hn)]; [left; exists (S n)|right; exists pre, name, (S n)]; unfold slashes_of; rewrite replicate_S_end; [done|].
    by rewrite !app_assoc.
  - right. destruct (Hq p) as (pre & name & -> & Hpre & Hn). exists pre, (name ++ [c]), O. rewrite app_nil_r, app_assoc. split_and!; [done..|].
    split; [by destruct name|]. unfold no_slash. rewrite elem_of_app, list_elem_of_singleton. intros [?|<-]; done.
Qed.

(** ** Taking a path from its end *)

(** One character before the rest: [P ++ c :: rest] is read at [length P]. *)
Lemma code_place P c rest : charCodeAt (P ++ c :: rest) (Z.of_nat (length P)) = c.
Proof. exact (code_at P rest c). Qed.

(** A loop [f] that passes every character of [X], seen with the characters before it. *)
Lemma pass_back {A} (f : nat → str → A) (ok : Z → Prop) :
  (∀ P c rest, ok c → f (S (length P)) (P ++ c :: rest) = f (length P) (P ++ c :: rest)) →
  ∀ X P rest, Forall ok X → f (length (P ++ X)) (P ++ X ++ rest) = f (length P) (P ++ X ++ rest).
Proof.
  intros Hf X. induction X as [|c X IH]; intros P rest; [by rewrite app_nil_r|]. intros [Hc HX]%Forall_cons.
  specialize (IH (P ++ [c]) rest HX). rewrite <- !app_assoc in IH. cbn [app] in *. rewrite IH. rewrite <- Hf by done.
  f_equal. rewrite length_app. cbn [length]. lia.
Qed.

Lemma slashes_all n : Forall (λ c, c = SLASH) (slashes_of n).
Proof. by apply Forall_replicate. Qed.

Lemma name_all name : no_slash name → Forall (λ c, c ≠ SLASH) name.
Proof. intros H. apply Forall_forall. by intros c Hc ->. Qed.

(** ** basename *)

Lemma base_slashes P n rest :
  base_loop (length (P ++ slashes_of n)) (P ++ slashes_of n ++ rest) (-1) true = base_loop (length P) (P ++ slashes_of n ++ rest) (-1) true.
Proof.
  apply (pass_back (λ n p, base_loop n p (-1) true) (λ c, c = SLASH)); [|apply slashes_all]. intros Q c r ->. cbn [base_loop]. by rewrite code_place.
Qed.

Lemma base_name P X rest e : no_slash X → e ≠ -1 → base_loop (length (P ++ X)) (P ++ X ++ rest) e false = base_loop (length P) (P ++ X ++ rest) e false.
Proof.
  intros HX He. apply (pass_back (λ n p, base_loop n p e false) (λ c, c ≠ SLASH)); [|by apply name_all]. intros Q c r Hc. cbn [base_loop].
  rewrite code_place, !(proj2 (Z.eqb_neq _ _)) by done. done.
Qed.

Lemma base_start pre rest e : dir_part pre → base_loop (length pre) (pre ++ rest) e false = (len pre, e).
Proof.
  intros [->|[d ->]]; [done|]. rewrite length_app, Nat.add_comm. cbn [length Nat.add base_loop]. rewrite <- app_assoc. cbn [app].
  rewrite code_place, Z.eqb_refl. cbn. by rewrite len_app.
Qed.

Lemma base_loop_name pre name n : dir_part pre → seg_ok name →
  let path := pre ++ name ++ slashes_of n in base_loop (length path) path (-1) true = (len pre, len pre + len name).
Proof.
  intros Hpre [Hne Hs] path. subst path. pose proof (base_slashes (pre ++ name) n []) as H. rewrite app_nil_r, <- !app_assoc in H. rewrite H. clear H.
  destruct name as [|c name _] using rev_ind; [done|]. unfold no_slash in Hs. rewrite elem_of_app, list_elem_of_singleton in Hs.
  assert (c ≠ SLASH) as Hc by (intros ->; tauto). rewrite (app_assoc pre name [c]), length_app, Nat.add_comm. cbn [length Nat.add base_loop].
  assert (charCodeAt (pre ++ (name ++ [c]) ++ slashes_of n) (Z.of_nat (length (pre ++ name))) = c) as ->.
  { rewrite <- (app_assoc name), app_assoc. apply code_place. }
  rewrite (proj2 (Z.eqb_neq c _)) by done. cbn [Z.eqb]. set (e := Z.of_nat _ + 1).
  assert (e = len pre + len (name ++ [c])) as He by (subst e; unfold len; rewrite !length_app; cbn [length]; lia).
  rewrite <- (app_assoc name [c]). rewrite base_name by (unfold no_slash; (tauto || (pose proof (len_nonneg pre); pose proof (len_nonneg (name ++ [c])); lia))).
  rewrite base_start by done. by rewrite He.
Qed.

(** The last name. *)
Lemma basename_spec pre name n : dir_part pre → seg_ok name → basename (pre ++ name ++ slashes_of n) None = name.
Proof.
  intros Hpre Hn. unfold basename. rewrite base_loop_name by done. pose proof (len_nonneg pre). pose proof (len_nonneg name).
  rewrite (proj2 (Z.eqb_neq _ _)) by lia. apply slice_middle.
Qed.

Lemma basename_slashes n : basename (slashes_of n) None = [].
Proof. unfold basename. pose proof (base_slashes [] n []) as H. rewrite app_nil_r in H. cbn [app] in H. by rewrite H. Qed.

(** With an extension: the end of the name is compared with it. *)
Lemma ext_slashes P n ext i rest :
  base_ext_loop (length (P ++ slashes_of n)) (P ++ slashes_of n ++ rest) ext (-1) i (-1) true =
  base_ext_loop (length P) (P ++ slashes_of n ++ rest) ext (-1) i (-1) true.
Proof.
  apply (pass_back (λ n p, base_ext_loop n p ext (-1) i (-1) true) (λ c, c = SLASH)); [|apply slashes_all]. intros Q c r ->. cbn [base_ext_loop]. by rewrite code_place.
Qed.

Lemma ext_name P X ext rest e f : no_slash X → f ≠ -1 →
  base_ext_loop (length (P ++ X)) (P ++ X ++ rest) ext e (-1) f false = base_ext_loop (length P) (P ++ X ++ rest) ext e (-1) f false.
Proof.
  intros HX Hf. apply (pass_back (λ n p, base_ext_loop n p ext e (-1) f false) (λ c, c ≠ SLASH)); [|by apply name_all]. intros Q c r Hc. cbn [base_ext_loop].
  rewrite code_place, (proj2 (Z.eqb_neq c SLASH)), (proj2 (Z.eqb_neq f (-1))) by done. done.
Qed.

Lemma ext_start pre rest ext e f : dir_part pre → base_ext_loop (length pre) (pre ++ rest) ext e (-1) f false = (len pre, e, f).
Proof.
  intros [->|[d ->]]; [done|]. rewrite length_app, Nat.add_comm. cbn [length Nat.add base_ext_loop]. rewrite <- app_assoc. cbn [app].
  rewrite code_place, Z.eqb_refl. cbn. by rewrite len_app.
Qed.

(** Its characters match one after the other; at the last of them the end is found. *)
Lemma ext_matches P a c b rest e f : no_slash (a ++ [c]) → f ≠ -1 →
  base_ext_loop (length (P ++ a ++ [c])) (P ++ a ++ c :: rest) (a ++ c :: b) e (len a) f false =
  base_ext_loop (length P) (P ++ a ++ c :: rest) (a ++ c :: b) (len P) (-1) f false.
Proof.
  revert c b rest e. induction a as [|d a IH] using rev_ind; intros c b rest e Hs Hf.
  - assert (c ≠ SLASH) as Hc by (apply no_slash_cons in Hs; tauto). cbn [app]. rewrite length_app, Nat.add_comm. cbn [length Nat.add base_ext_loop].
    rewrite code_place. rewrite (proj2 (Z.eqb_neq c SLASH)), (proj2 (Z.eqb_neq f (-1))) by done. cbn. by rewrite Z.eqb_refl.
  - assert (no_slash (a ++ [d]) ∧ c ≠ SLASH) as [Ha Hc].
    { unfold no_slash in *. rewrite elem_of_app, list_elem_of_singleton in Hs. split; [tauto|]. intros ->. tauto. }
    rewrite (app_assoc P (a ++ [d]) [c]), length_app, Nat.add_comm. cbn [length Nat.add base_ext_loop]. rewrite (app_assoc P (a ++ [d]) (c :: rest)), code_place.
    pose proof (len_nonneg (a ++ [d])). rewrite (proj2 (Z.eqb_neq c SLASH)), (proj2 (Z.eqb_neq f (-1))) by done. rewrite (proj2 (Z.leb_le _ _)) by done. rewrite code_at, Z.eqb_refl.
    assert (len (a ++ [d]) - 1 = len a) as El by (rewrite len_app; unfold len; cbn [length]; lia). pose proof (len_nonneg a).
    rewrite El, (proj2 (Z.eqb_neq (len a) (-1))) by lia. rewrite <- app_assoc, <- (app_assoc a [d] (c :: b)), <- (app_assoc a [d] (c :: rest)). by apply IH.
Qed.

(** The first character that is no slash fixes the end of the name. *)
Lemma ext_first P c rest ext e i : c ≠ SLASH →
  base_ext_loop (S (length P)) (P ++ c :: rest) ext e i (-1) true = base_ext_loop (S (length P)) (P ++ c :: rest) ext e i (Z.of_nat (length P) + 1) false.
Proof.
  intros Hc. cbn [base_ext_loop]. rewrite code_place, (proj2 (Z.eqb_neq c SLASH)) by done. change (-1 =? -1) with true.
  by rewrite (proj2 (Z.eqb_neq (Z.of_nat (length P) + 1) (-1))) by lia.
Qed.

(** The extension is taken off the name that ends with it. *)
Lemma basename_ext pre stem ext n : dir_part pre → stem ≠ [] → ext ≠ [] → no_slash (stem ++ ext) →
  basename (pre ++ (stem ++ ext) ++ slashes_of n) (Some ext) = stem.
Proof.
  intros Hpre Hst%len_pos Hne Hs. unfold basename. pose proof (len_nonneg pre). pose proof (len_nonneg (slashes_of n)). apply len_pos in Hne as Hl. set (path := pre ++ _).
  assert (len path = len pre + (len stem + len ext + len (slashes_of n))) as Hp by (subst path; by autorewrite with len).
  rewrite (proj2 (Z.ltb_lt 0 _)) by done. rewrite (proj2 (Z.leb_le _ _)) by lia. rewrite (proj2 (Z.eqb_neq (len ext) _)) by lia. cbn [andb].
  destruct ext as [|c a _] using rev_ind; [done|]. unfold no_slash in Hs. rewrite !elem_of_app, list_elem_of_singleton in Hs.
  assert (path = (pre ++ stem ++ a ++ [c]) ++ slashes_of n) as Ep by (subst path; by rewrite !app_assoc).
  pose proof (ext_slashes (pre ++ stem ++ a ++ [c]) n (a ++ [c]) (len (a ++ [c]) - 1) []) as E. rewrite app_nil_r, <- Ep in E. rewrite E. clear E.
  assert (path = (pre ++ stem ++ a) ++ c :: slashes_of n) as Ep' by (rewrite Ep; by rewrite <- !app_assoc).
  assert (length (pre ++ stem ++ a ++ [c]) = S (length (pre ++ stem ++ a))) as El by (rewrite !length_app; cbn [length]; lia).
  rewrite El, Ep', ext_first, <- El by (intros ->; tauto). set (f := Z.of_nat _ + 1).
  assert (len (a ++ [c]) - 1 = len a) as -> by (rewrite len_app; unfold len; cbn [length]; lia).
  pose proof (ext_matches (pre ++ stem) a c [] (slashes_of n) (-1) f) as E. rewrite <- !app_assoc in E |- *. rewrite E; clear E.
  - rewrite ext_name by (unfold no_slash; (tauto || lia)). rewrite ext_start by done. rewrite !len_app.
    rewrite (proj2 (Z.eqb_neq (len pre) _)) by lia. rewrite (proj2 (Z.eqb_neq _ (-1))) by lia. apply slice_middle.
  - unfold no_slash. rewrite elem_of_app, list_elem_of_singleton. tauto.
  - lia.
Qed.

(** ** dirname *)

Definition dir_of (pre : str) : str :=
  if decide (pre = []) then js "." else if decide (pre = js "/") then js "/" else if decide (pre = js "//") then js "//" else take (length pre - 1) pre.

Lemma dirname_step P c rest b : dirname_loop (S (length P)) (P ++ c :: rest) b =
  match P with [] => -1 | _ => if c =? SLASH then if negb b then len P else dirname_loop (length P) (P ++ c :: rest) b else dirname_loop (length P) (P ++ c :: rest) false end.
Proof.
  destruct P as [|x P]; [done|]. remember (x :: P) as Q eqn:HQ. assert (length Q = S (length P)) as E by (by subst Q).
  transitivity (if charCodeAt (Q ++ c :: rest) (Z.of_nat (length Q)) =? SLASH
    then if negb b then Z.of_nat (length Q) else dirname_loop (length Q) (Q ++ c :: rest) b else dirname_loop (length Q) (Q ++ c :: rest) false); [by rewrite E|].
  rewrite code_place. by subst Q.
Qed.

Lemma dirname_pass P X rest (b : bool) : Forall (λ c : Z, if b then c = SLASH else c ≠ SLASH) X →
  dirname_loop (length (P ++ X)) (P ++ X ++ rest) b = dirname_loop (length P) (P ++ X ++ rest) b.
Proof.
  apply (pass_back (λ n p, dirname_loop n p b)). intros Q c r Hc. rewrite dirname_step. destruct Q; [done|].
  destruct b; [by rewrite Hc|]. by rewrite (proj2 (Z.eqb_neq _ _)).
Qed.

Lemma dirname_name pre name n : seg_ok name → let path := pre ++ name ++ slashes_of n in
  dirname_loop (length path) path true = dirname_loop (length pre) path false.
Proof.
  intros [Hne Hs] path. subst path. pose proof (dirname_pass (pre ++ name) (slashes_of n) [] true (slashes_all n)) as H.
  rewrite app_nil_r, <- !app_assoc in H. rewrite H. clear H. destruct name as [|c name _] using rev_ind; [done|].
  unfold no_slash in Hs. rewrite elem_of_app, list_elem_of_singleton in Hs.
  rewrite (app_assoc pre name [c]), length_app, Nat.add_comm. cbn [length Nat.add]. rewrite <- (app_assoc name [c]), (app_assoc pre name). cbn [app].
  rewrite dirname_step, (proj2 (Z.eqb_neq c _)) by (intros ->; tauto). rewrite <- app_assoc.
  rewrite <- (dirname_pass pre name (c :: slashes_of n) false) by (apply name_all; unfold no_slash; tauto). destruct (pre ++ name) eqn:E; [|done].
  by apply app_nil in E as [-> ->].
Qed.

Lemma dirname_start pre rest : dir_part pre → dirname_loop (length pre) (pre ++ rest) false = if decide (pre = [] ∨ pre = js "/") then -1 else len pre - 1.
Proof.
  intros [->|[d ->]]; [done|]. rewrite length_app, Nat.add_comm. cbn [length Nat.add]. rewrite <- app_assoc. cbn [app]. rewrite dirname_step. destruct d as [|x d]; [done|].
  rewrite decide_False by (intros [?|H]; [done|]; apply (f_equal length) in H; rewrite length_app in H; cbn in H; lia).
  rewrite Z.eqb_refl. cbn [negb]. rewrite len_app. unfold len. cbn [length]. lia.
Qed.

(** What stands before the last name. *)
Lemma dirname_spec pre name n : dir_part pre → seg_ok name → dirname (pre ++ name ++ slashes_of n) = dir_of pre.
Proof.
  intros Hpre Hn. pose proof Hn as [Hne%len_pos Hs]. unfold dirname. pose proof (len_nonneg pre). pose proof (len_nonneg (slashes_of n)).
  rewrite (proj2 (Z.eqb_neq _ 0)) by (autorewrite with len; lia). cbv zeta. rewrite dirname_name, dirname_start by done. unfold dir_of.
  destruct (decide (pre = [])) as [->|Hp].
  - rewrite decide_True by (by left). cbn [app]. assert ((charCodeAt (name ++ slashes_of n) 0 =? SLASH) = false) as ->; [|done].
    destruct name as [|c name]; [done|]. apply no_slash_cons in Hs as [Hc _]. by apply Z.eqb_neq.
  - destruct Hpre as [?|[d ->]]; [done|]. destruct (decide (d ++ [SLASH] = js "/")) as [E|Hd].
    + rewrite decide_True by (by right). rewrite E. done.
    + rewrite decide_False by tauto. assert (len (d ++ [SLASH]) - 1 = len d) as -> by (rewrite len_app; change (len [SLASH]) with 1; lia).
      assert (0 < len d) as Hl by (apply len_pos; by intros ->). rewrite (proj2 (Z.eqb_neq (len d) (-1))) by lia.
      assert (slice ((d ++ [SLASH]) ++ name ++ slashes_of n) 0 (len d) = d) as -> by (rewrite <- app_assoc; apply slice_start).
      assert (take (length (d ++ [SLASH]) - 1) (d ++ [SLASH]) = d) as -> by (rewrite length_app; cbn [length]; rewrite Nat.add_sub; apply take_app_length).
      destruct d as [|x d]; [done|]. change (charCodeAt _ 0) with x. destruct (Z.eqb_spec x SLASH) as [->|Hx]; cbn [andb].
      * destruct d as [|y d]; [done|]. rewrite decide_False by (intros E; apply (f_equal length) in E; cbn in E; rewrite length_app in E; cbn in E; lia).
        by rewrite (proj2 (Z.eqb_neq _ 1)) by (unfold len; cbn [length]; lia).
      * rewrite decide_False; [done|]. intros [= E _]. done.
Qed.

(** ** extname and parse *)

(** Before and after the last dot. *)
Fixpoint last_dot (s : str) : option (str * str) :=
  match s with
  | [] => None
  | c :: s => match last_dot s with Some (x, y) => Some (c :: x, y) | None => if c =? DOT then Some ([], s) else None end
  end.

(** The stem and the extension of a name: a name that starts with its only dot has none, nor have two dots. *)
Definition stem_ext (name : str) : str * str :=
  match last_dot name with
  | Some (x, y) => if decide (x = [] ∨ name = DOT2) then (name, []) else (x, DOT :: y)
  | None => (name, [])
  end.

Lemma last_dot_spec s : match last_dot s with Some (x, y) => s = x ++ DOT :: y | None => True end.
Proof.
  induction s as [|c s IH]; [done|]. cbn [last_dot]. destruct (last_dot s) as [[x y]|]; [by subst s|]. destruct (Z.eqb_spec c DOT) as [->|]; done.
Qed.

Lemma stem_ext_app name : (stem_ext name).1 ++ (stem_ext name).2 = name.
Proof.
  unfold stem_ext. pose proof (last_dot_spec name) as H. destruct (last_dot name) as [[x y]|]; [|by rewrite app_nil_r]. case_decide; [by rewrite app_nil_r|done].
Qed.

(** The state of the scan after the characters [b], that start at place [i]. *)
Fixpoint scanned (i : Z) (b : str) (e : Z) : scan :=
  match b with
  | [] => mkScan (-1) 0 e 0
  | c :: b =>
      let s := scanned (i + 1) b e in
      if c =? DOT
      then if startDot s =? -1 then mkScan i 0 e (preDotState s) else mkScan (startDot s) 0 e (if negb (preDotState s =? 1) then 1 else preDotState s)
      else mkScan (startDot s) 0 e (if negb (startDot s =? -1) then -1 else preDotState s)
  end.

Definition pre_state (x : str) : Z := match x with [] => 0 | c :: _ => if c =? DOT then 1 else -1 end.

Lemma scanned_spec b i e : 0 ≤ i →
  scanned i b e = match last_dot b with Some (x, y) => mkScan (i + len x) 0 e (pre_state x) | None => mkScan (-1) 0 e 0 end.
Proof.
  revert i. induction b as [|c b IH]; intros i Hi; [done|]. cbn [scanned last_dot]. rewrite IH by lia. destruct (last_dot b) as [[x y]|]; cbn [startDot preDotState].
  - pose proof (len_nonneg x). rewrite !(proj2 (Z.eqb_neq (i + 1 + len x) (-1))) by lia. rewrite len_cons. replace (i + (1 + len x)) with (i + 1 + len x) by lia.
    cbn [negb pre_state]. destruct (c =? DOT); [|done]. f_equal. by destruct (pre_state x =? 1) eqn:E; [apply Z.eqb_eq in E|].
  - destruct (c =? DOT); [|done]. cbn. by rewrite len_nil, Z.add_0_r.
Qed.

Lemma scan_slashes low P n rest s : (low ≤ length P)%nat →
  scan_loop (length (P ++ slashes_of n)) low (P ++ slashes_of n ++ rest) true s = scan_loop (length P) low (P ++ slashes_of n ++ rest) true s.
Proof.
  revert P. induction n as [|n IH]; intros P HP; [by rewrite app_nil_r|]. unfold slashes_of in *. cbn [replicate].
  specialize (IH (P ++ [SLASH])). rewrite <- !app_assoc in IH. cbn [app] in *. rewrite IH by (rewrite length_app; cbn; lia).
  rewrite length_app, Nat.add_comm. cbn [length Nat.add scan_loop]. rewrite (proj2 (Nat.ltb_ge _ _)) by done. by rewrite code_place.
Qed.

Lemma scan_name low P X Y rest e : (low ≤ length P)%nat → no_slash X → e ≠ -1 →
  scan_loop (length (P ++ X)) low (P ++ X ++ rest) false (scanned (len P + len X) Y e) = scan_loop (length P) low (P ++ X ++ rest) false (scanned (len P) (X ++ Y) e).
Proof.
  intros HP HX He. revert P HP. induction X as [|c X IH]; intros P HP; [by rewrite app_nil_r, len_nil, Z.add_0_r|].
  apply no_slash_cons in HX as [Hc HX]. specialize (IH HX (P ++ [c])). rewrite <- !app_assoc in IH. cbn [app] in *. rewrite len_app in IH. change (len [c]) with 1 in IH.
  rewrite len_cons. replace (len P + (1 + len X)) with (len P + 1 + len X) by lia. rewrite IH by (rewrite length_app; cbn; lia).
  rewrite length_app, Nat.add_comm. cbn [length Nat.add scan_loop]. rewrite (proj2 (Nat.ltb_ge _ _)) by done. rewrite code_place, (proj2 (Z.eqb_neq c SLASH)) by done.
  assert (∀ i b, s_end (scanned i b e) = e ∧ startPart (scanned i b e) = 0) as Hse.
  { intros i b. destruct b as [|x b]; [done|]. cbn [scanned]. by destruct (x =? DOT), (startDot _ =? -1). }
  destruct (Hse (len P + 1) (X ++ Y)) as [-> ->]. rewrite (proj2 (Z.eqb_neq e (-1))) by done. done.
Qed.

Lemma scan_first low P c rest : (low ≤ length P)%nat → c ≠ SLASH →
  scan_loop (S (length P)) low (P ++ c :: rest) true (mkScan (-1) 0 (-1) 0) =
  scan_loop (S (length P)) low (P ++ c :: rest) false (mkScan (-1) 0 (Z.of_nat (length P) + 1) 0).
Proof.
  intros HP Hc. cbn [scan_loop]. rewrite (proj2 (Nat.ltb_ge _ _)) by done. rewrite code_place, (proj2 (Z.eqb_neq c SLASH)) by done. cbn [s_end startDot startPart preDotState].
  change (-1 =? -1) with true. by rewrite (proj2 (Z.eqb_neq (Z.of_nat (length P) + 1) (-1))) by lia.
Qed.

Lemma scan_path low pre name n : (low ≤ length pre)%nat → seg_ok name → let path := pre ++ name ++ slashes_of n in
  scan_loop (length path) low path true (mkScan (-1) 0 (-1) 0) = scan_loop (length pre) low path false (scanned (len pre) name (len pre + len name)).
Proof.
  intros Hl [Hne Hs] path. subst path. pose proof (scan_slashes low (pre ++ name) n [] (mkScan (-1) 0 (-1) 0)) as H.
  rewrite app_nil_r, <- !app_assoc in H. rewrite H by (rewrite length_app; lia). clear H.
  pose proof (scan_name low pre name [] (slashes_of n) (len pre + len name) Hl Hs) as H. rewrite app_nil_r in H. pose proof (len_nonneg pre). pose proof (len_nonneg name).
  rewrite <- H by lia. clear H. cbn [scanned]. destruct name as [|c name _] using rev_ind; [done|]. unfold no_slash in Hs. rewrite elem_of_app, list_elem_of_singleton in Hs.
  rewrite <- (app_assoc name [c]), !app_assoc. cbn [app]. replace (length ((pre ++ name) ++ [c])) with (S (length (pre ++ name))) by (rewrite (length_app _ [c]); cbn [length]; lia).
  rewrite <- (app_assoc (pre ++ name) [c]). cbn [app]. rewrite scan_first; [|rewrite length_app; lia|intros ->; tauto]. do 2 f_equal. unfold len. rewrite !length_app. cbn [length]. lia.
Qed.

(** The slash before the name ends the scan, unless it is the root's. *)
Lemma scan_start low pre rest s : dir_part pre → (low ≤ 1)%nat → (low ≤ length pre)%nat → startPart s = 0 →
  scan_loop (length pre) low (pre ++ rest) false s = mkScan (startDot s) (if decide (low = 1%nat ∧ pre = js "/") then 0 else len pre) (s_end s) (preDotState s).
Proof.
  intros [->|[d ->]] Hl Hp Hs.
  - cbn [length scan_loop]. rewrite decide_False by (by intros [_ ?]). destruct s. cbn in *. by subst.
  - rewrite length_app, Nat.add_comm in *. cbn [length Nat.add scan_loop] in *. destruct (Nat.ltb_spec (length d) low) as [Hd|Hd].
    + assert (low = 1%nat ∧ d = []) as [-> ->] by (destruct d; cbn in *; [split; [lia|done]|lia]). rewrite decide_True by done. destruct s. cbn in *. by subst.
    + rewrite <- app_assoc. cbn [app]. rewrite code_place, Z.eqb_refl. cbn [negb]. rewrite decide_False.
      * by rewrite len_app.
      * intros [-> E]. apply (f_equal length) in E. rewrite length_app in E. cbn in E. lia.
Qed.

Lemma scanned_part i b e : startPart (scanned i b e) = 0.
Proof. destruct b as [|x b]; [done|]. cbn [scanned]. by destruct (x =? DOT), (startDot _ =? -1). Qed.

Lemma scan_all low pre name n : dir_part pre → (low ≤ 1)%nat → (low ≤ length pre)%nat → seg_ok name →
  let path := pre ++ name ++ slashes_of n in
  let part := if decide (low = 1%nat ∧ pre = js "/") then 0 else len pre in
  scan_loop (length path) low path true (mkScan (-1) 0 (-1) 0) =
    match last_dot name with
    | Some (x, y) => mkScan (len pre + len x) part (len pre + len name) (pre_state x)
    | None => mkScan (-1) part (len pre + len name) 0
    end.
Proof.
  intros Hpre Hl Hp Hn path part. subst path. rewrite scan_path by done. rewrite scan_start by (done || apply scanned_part). fold part.
  rewrite scanned_spec by apply len_nonneg. by destruct (last_dot name) as [[x y]|].
Qed.

(** When the scan finds no extension. *)
Lemma no_extension_spec a x y part e : 0 ≤ a → part ≤ a → e = a + len (x ++ DOT :: y) →
  no_extension (mkScan (a + len x) part e (pre_state x)) = bool_decide (x = [] ∨ x = [DOT] ∧ y = [] ∧ part = a).
Proof.
  intros Ha Hpa ->. unfold no_extension. cbn [startDot startPart s_end preDotState]. autorewrite with len. pose proof (len_nonneg x). pose proof (len_nonneg y).
  rewrite !(proj2 (Z.eqb_neq _ (-1))) by lia. cbn [orb]. destruct x as [|c x]; [by rewrite bool_decide_true by (by left)|]. cbn [pre_state].
  autorewrite with len. pose proof (len_nonneg x).
  destruct (Z.eqb_spec c DOT) as [->|Hc]; cbn [Z.eqb Pos.eqb orb andb].
  - apply Bool.eq_iff_eq_true. rewrite andb_true_iff, !Z.eqb_eq, bool_decide_eq_true. split.
    + intros [E1 E2]. right. assert (len x = 0) as ->%len_zero by lia. assert (len y = 0) as ->%len_zero by lia. split_and!; [done..|]. rewrite len_nil in E2. lia.
    + intros [?|([= ->] & -> & ->)]; [done|]. rewrite !len_nil. lia.
  - symmetry. apply bool_decide_eq_false. intros [?|([= E _] & _)]; done.
Qed.

Lemma dots_split x y : x ++ DOT :: y = DOT2 ↔ (x = [DOT] ∧ y = []) ∨ (x = [] ∧ y = [DOT]).
Proof. split; [|by intros [[-> ->]|[-> ->]]]. destruct x as [|c [|d x]]; [intros [= ->]; tauto|intros [= -> ->]; tauto|]. intros [= _ _ H]. by destruct x. Qed.

(** The extension of the last name. *)
Lemma extname_spec pre name n : dir_part pre → seg_ok name → extname (pre ++ name ++ slashes_of n) = (stem_ext name).2.
Proof.
  intros Hpre Hn. unfold extname. rewrite scan_all by (done || lia). cbv zeta. rewrite decide_False by (by intros [? _]). unfold stem_ext.
  pose proof (last_dot_spec name) as Hd. destruct (last_dot name) as [[x y]|]; [|done]. pose proof (len_nonneg pre).
  rewrite (no_extension_spec (len pre) x y) by (by rewrite <- ?Hd). rewrite Hd. cbn [startDot s_end]. case_bool_decide as E.
  - by rewrite decide_True by (rewrite dots_split; tauto).
  - rewrite decide_False by (rewrite dots_split; tauto). cbn [snd]. rewrite <- app_assoc, app_assoc. rewrite <- len_app. 
    replace (len pre + len (x ++ DOT :: y)) with (len (pre ++ x) + len (DOT :: y)) by (autorewrite with len; lia). apply slice_middle.
Qed.

(** The directory that parse gives. *)
Definition parse_dir (pre : str) : str := if decide (pre = js "/") then js "/" else take (length pre - 1) pre.

(** The stem and the extension that parse gives: not those of [extname] for two dots at the root. *)
Definition parse_ext (pre name : str) : str * str := if decide (pre = js "/" ∧ name = DOT2) then ([DOT], [DOT]) else stem_ext name.

Lemma starts_parts pre name rest : dir_part pre → seg_ok name → starts_slash (pre ++ name ++ rest) = starts_slash pre.
Proof.
  intros Hpre [Hne Hs]. destruct pre as [|c pre]; [|done]. destruct name as [|c name]; [done|]. apply no_slash_cons in Hs as [Hc _]. by apply Z.eqb_neq.
Qed.

(** Where the name starts, as the scan of parse leaves it: at 0 for a name in the root. *)
Definition parse_part (pre : str) : Z := if decide (pre = js "/") then 0 else len pre.

Lemma parse_first pre : dir_part pre → (if (parse_part pre =? 0) && starts_slash pre then 1 else parse_part pre) = len pre.
Proof.
  intros Hpre. unfold parse_part. case_decide as E; [by subst pre|]. destruct pre as [|c pre]; [done|].
  pose proof (len_nonneg pre). by rewrite (proj2 (Z.eqb_neq _ 0)) by (rewrite len_cons; lia).
Qed.

Lemma parse_dir_eq pre rest : dir_part pre →
  (if 0 <? parse_part pre then slice (pre ++ rest) 0 (parse_part pre - 1) else if starts_slash pre then js "/" else []) = parse_dir pre.
Proof.
  intros [->|[d ->]]; [done|]. unfold parse_part, parse_dir. case_decide as E; [by rewrite E|]. pose proof (len_nonneg d).
  rewrite len_app. change (len [SLASH]) with 1. rewrite (proj2 (Z.ltb_lt 0 _)) by lia. replace (len d + 1 - 1) with (len d) by lia.
  rewrite <- app_assoc, slice_start, length_app. cbn [length]. by rewrite Nat.add_sub, take_app_length.
Qed.

Lemma scan_parse pre name n : dir_part pre → seg_ok name → let path := pre ++ name ++ slashes_of n in
  scan_loop (length path) (if starts_slash pre then 1 else 0) path true (mkScan (-1) 0 (-1) 0) =
    match last_dot name with
    | Some (x, y) => mkScan (len pre + len x) (parse_part pre) (len pre + len name) (pre_state x)
    | None => mkScan (-1) (parse_part pre) (len pre + len name) 0
    end.
Proof.
  intros Hpre Hn path. subst path. assert (starts_slash pre = true → (1 ≤ length pre)%nat) as Hl by (destruct pre; [done|cbn; lia]).
  rewrite scan_all; [|done|destruct (starts_slash pre); lia|destruct (starts_slash pre); [by apply Hl|lia]|done]. cbv zeta.
  replace (if decide (_ ∧ pre = js "/") then 0 else len pre) with (parse_part pre); [done|]. unfold parse_part.
  destruct (decide (pre = js "/")) as [->|E]; [done|]. by rewrite decide_False by tauto.
Qed.

(** The five parts of a path. *)
Lemma parse_spec pre name n : dir_part pre → seg_ok name →
  parse (pre ++ name ++ slashes_of n) =
    mkPath (if starts_slash pre then js "/" else []) (parse_dir pre) name (parse_ext pre name).2 (parse_ext pre name).1.
Proof.
  intros Hpre Hn. pose proof Hn as [Hne%len_pos _]. unfold parse. pose proof (len_nonneg pre). pose proof (len_nonneg (slashes_of n)).
  rewrite (proj2 (Z.eqb_neq _ 0)) by (autorewrite with len; lia). cbv zeta. fold (starts_slash (pre ++ name ++ slashes_of n)). rewrite starts_parts by done.
  rewrite scan_parse by done. set (s := match last_dot name with Some _ => _ | None => _ end).
  assert (startPart s = parse_part pre ∧ s_end s = len pre + len name) as [-> Ee] by (subst s; by destruct (last_dot name) as [[x y]|]).
  rewrite parse_dir_eq, parse_first, Ee by done. rewrite (proj2 (Z.eqb_neq _ (-1))) by lia. cbn [negb]. rewrite slice_middle.
  enough ((if no_extension s then (name, name, []) else (name, slice (pre ++ name ++ slashes_of n) (len pre) (startDot s), slice (pre ++ name ++ slashes_of n) (startDot s) (len pre + len name))) =
    (name, (parse_ext pre name).1, (parse_ext pre name).2)) as -> by done.
  pose proof (last_dot_spec name) as Hd. subst s. unfold parse_ext, stem_ext. destruct (last_dot name) as [[x y]|] eqn:El.
  2:{ rewrite decide_False; [done|]. by intros [_ ->]. }
  assert (parse_part pre ≤ len pre) by (unfold parse_part; case_decide; lia). rewrite (no_extension_spec (len pre) x y) by (by rewrite <- ?Hd). cbn [startDot].
  assert (slice (pre ++ name ++ slashes_of n) (len pre) (len pre + len x) = x) as -> by (rewrite Hd, <- app_assoc; apply slice_middle).
  assert (slice (pre ++ name ++ slashes_of n) (len pre + len x) (len pre + len name) = DOT :: y) as ->.
  { rewrite Hd, <- app_assoc, app_assoc, <- len_app. replace (len pre + len (x ++ DOT :: y)) with (len (pre ++ x) + len (DOT :: y)) by (autorewrite with len; lia). apply slice_middle. }
  assert (name = DOT2 ↔ x = [DOT] ∧ y = []) as Hdots.
  { split; [intros E; rewrite E in El; by injection El as <- <-|]. intros [-> ->]. done. }
  assert (parse_part pre = len pre ↔ pre ≠ js "/") as Hp by (unfold parse_part; case_decide as E; [subst pre; done|tauto]).
  destruct (decide (pre = js "/" ∧ name = DOT2)) as [[E1 E2]|E1].
  - apply Hdots in E2 as [-> ->]. by rewrite bool_decide_false by (intros [?|(_ & _ & ?)]; [done|tauto]).
  - case_bool_decide as E2; [rewrite decide_True by tauto|rewrite decide_False by tauto]; done.
Qed.

Lemma parse_slashes n : parse (slashes_of (S n)) = mkPath (js "/") (js "/") [] [] [].
Proof.
  unfold parse. rewrite (proj2 (Z.eqb_neq _ 0)) by (unfold len; cbn [slashes_of replicate length]; lia). cbv zeta. change (charCodeAt (slashes_of (S n)) 0 =? SLASH) with true. cbv iota.
  pose proof (scan_slashes 1 [SLASH] n [] (mkScan (-1) 0 (-1) 0) (le_n _)) as H. rewrite app_nil_r in H. change ([SLASH] ++ slashes_of n) with (slashes_of (S n)) in H. by rewrite H.
Qed.

(** ** format *)

(** What format makes of the parts: the path without the slashes at its end, one slash where two stand before the name at the start. *)
Lemma format_parse_spec pre name n : dir_part pre → seg_ok name →
  format (parse (pre ++ name ++ slashes_of n)) = (if decide (pre = js "//") then js "/" else pre) ++ name.
Proof.
  intros Hpre Hn. rewrite parse_spec by done. pose proof Hn as [Hne _]. unfold format, _format. cbn [p_root p_dir p_base p_name p_ext].
  assert (∀ z, or_else name z = name) as -> by (intros z; by destruct name). destruct Hpre as [->|[d ->]]; [done|]. unfold parse_dir.
  destruct (decide (d ++ [SLASH] = js "/")) as [->|Hd]; [done|].
  assert (take (length (d ++ [SLASH]) - 1) (d ++ [SLASH]) = d) as -> by (rewrite length_app; cbn [length]; rewrite Nat.add_sub; apply take_app_length).
  destruct (decide (d = [SLASH])) as [->|Hd']; [done|]. rewrite decide_False by (intros E; by apply (app_inj_tail d [SLASH]) in E as [-> _]).
  destruct d as [|x d]; [done|]. cbn [or_else]. rewrite bool_decide_false.
  - by rewrite <- app_assoc.
  - destruct (starts_slash _); [intros E; by apply Hd'|done].
Qed.



(** Taking a path apart and putting it together gives the path. *)
Theorem path_format_parse p : ends_slash p = false → dirname p ≠ js "//" → format (parse p) = p.
Proof.
  intros He Hd. destruct (path_cases p) as [[[|n] ->]|(pre & name & n & -> & Hpre & Hn)]; [done| |].
  - unfold slashes_of in He. rewrite replicate_S_end, ends_slash_app in He by done. done.
  - rewrite dirname_spec in Hd by done. rewrite format_parse_spec by done. destruct n as [|n].
    + rewrite app_nil_r, decide_False; [done|]. intros ->. by apply Hd.
    + unfold slashes_of in He. rewrite replicate_S_end, !app_assoc, ends_slash_app in He by done. done.
Qed.

(** Two dots at the root: parse sees the extension that extname does not. *)
Example parse_root_dots : p_ext (parse (js "/..")) = js "." ∧ extname (js "/..") = [] ∧ p_ext (parse (js "a/..")) = [].
Proof. by vm_compute. Qed.

(** An extension longer than the name leaves the slash at the end. *)
Example basename_long_ext : basename (js "a/bc/") (Some (js "xbc")) = js "bc/" ∧ basename (js "a/bc/") (Some (js "x")) = js "bc".
Proof. by vm_compute. Qed.
