(* ===== verification/JsEncoding.v ===== *)
(** * Text encodings: js/encoding.js

    [TextEncoder] and [TextDecoder] with the encodings that need no tables:
    UTF-8, UTF-16 in both byte orders and x-user-defined. An encoding is a
    handler with a state, called for one token after the other; the two
    interfaces [Decoder] and [Encoder] of the source are the classes here, and
    what the objects do is defined for any instance. *)

From S2P Require Import Prelude JsPath.

(** [a << n] and [a >> n] on numbers: 32 bits with a sign *)
Definition shl (a n : Z) : Z := signed32 (Z.shiftl a n).
Definition shr (a n : Z) : Z := Z.shiftr (signed32 a) n.
(** [a & b] and [a | b] *)
Definition band (a b : Z) : Z := Z.land (signed32 a) (signed32 b).
Definition bor (a b : Z) : Z := Z.lor (signed32 a) (signed32 b).

Definition inRange (a min max : Z) : bool := (min <=? a) && (a <=? max).

(** ** Code units and code points *)

Fixpoint stringToCodePoints (s : str) : list Z :=
  match s with
  | [] => []
  | c :: s' =>
      if (c <? 0xD800) || (0xDFFF <? c) then c :: stringToCodePoints s'
      else if (0xDC00 <=? c) && (c <=? 0xDFFF) then 0xFFFD :: stringToCodePoints s'
      else
        match s' with
        | [] => [0xFFFD]
        | d :: s'' =>
            if (0xDC00 <=? d) && (d <=? 0xDFFF)
            then (0x10000 + shl (band c 0x3FF) 10 + band d 0x3FF) :: stringToCodePoints s''
            else 0xFFFD :: stringToCodePoints s'
        end
  end.

(** [String.fromCharCode] *)
Definition fromCharCode (c : Z) : Z := c mod 2 ^ 16.

Definition units_of (cp : Z) : str :=
  if cp <=? 0xFFFF then [fromCharCode cp]
  else
    let cp := cp - 0x10000 in
    [fromCharCode (shr cp 10 + 0xD800); fromCharCode (band cp 0x3FF + 0xDC00)].

Definition codePointsToString (code_points : list Z) : str := flat_map units_of code_points.

Definition isASCIIByte (a : Z) : bool := (0 <=? a) && (a <=? 0x7F).
Definition isASCIICodePoint : Z → bool := isASCIIByte.

(** ** Streams *)

(** The array of tokens is kept from its end, where tokens are read: the list is the stream in order. *)
Definition end_of_stream : Z := -1.
Definition endOfStream (tokens : list Z) : bool := match tokens with [] => true | _ => false end.
Definition read (tokens : list Z) : Z * list Z := match tokens with [] => (end_of_stream, []) | t :: ts => (t, ts) end.
Definition prepend (token tokens : list Z) : list Z := token ++ tokens.

(** ** Handlers *)

(** What a handler returns: [null], a number, an array, or it throws. *)
Inductive result := RNull | RNum (n : Z) | RArr (l : list Z) | RThrow.

Definition finished : Z := -1.

Definition decoderError (fatal : bool) : result := if fatal then RThrow else RNum 0xFFFD.
Definition encoderError : result := RThrow.

(** A decoder: its variables, and the handler, that may prepend tokens to the stream. *)
Class Decoder (S : Type) := {
  d_new : S;
  d_handler : bool → S → Z → S * list Z * result;
}.

(** An encoder: the encodings here keep no state in it. *)
Definition Encoder : Type := Z → result.

(** ** UTF-8 *)

Record UTF8Decoder := mkUTF8 {
  utf8_code_point : Z; utf8_bytes_seen : Z; utf8_bytes_needed : Z; utf8_lower_boundary : Z; utf8_upper_boundary : Z;
}.

Definition utf8_new : UTF8Decoder := mkUTF8 0 0 0 0x80 0xBF.

(** The first byte of a sequence. *)
Definition utf8_first (fatal : bool) (s : UTF8Decoder) (bite : Z) : UTF8Decoder * list Z * result :=
  let '(mkUTF8 cp seen needed lower upper) := s in
  if inRange bite 0 0x7F then (s, [], RNum bite)
  else if inRange bite 0xC2 0xDF then (mkUTF8 (band bite 0x1F) seen 1 lower upper, [], RNull)
  else if inRange bite 0xE0 0xEF
  then (mkUTF8 (band bite 0xF) seen 2 (if bite =? 0xE0 then 0xA0 else lower) (if bite =? 0xED then 0x9F else upper), [], RNull)
  else if inRange bite 0xF0 0xF4
  then (mkUTF8 (band bite 0x7) seen 3 (if bite =? 0xF0 then 0x90 else lower) (if bite =? 0xF4 then 0x8F else upper), [], RNull)
  else (s, [], decoderError fatal).

Definition utf8_handler (fatal : bool) (s : UTF8Decoder) (bite : Z) : UTF8Decoder * list Z * result :=
  let '(mkUTF8 cp seen needed lower upper) := s in
  if (bite =? end_of_stream) && negb (needed =? 0) then (mkUTF8 cp seen 0 lower upper, [], decoderError fatal)
  else if bite =? end_of_stream then (s, [], RNum finished)
  else if needed =? 0 then utf8_first fatal s bite
  else if negb (inRange bite lower upper) then (mkUTF8 0 0 0 0x80 0xBF, [bite], decoderError fatal)
  else
    let cp := bor (shl cp 6) (band bite 0x3F) in
    let seen := seen + 1 in
    if negb (seen =? needed) then (mkUTF8 cp seen needed 0x80 0xBF, [], RNull)
    else (mkUTF8 0 0 0 0x80 0xBF, [], RNum cp).

#[export] Instance utf8_decoder : Decoder UTF8Decoder := { d_new := utf8_new; d_handler := utf8_handler }.

(** The bytes after the first, [count] of them. *)
Fixpoint utf8_rest (count : nat) (code_point : Z) : list Z :=
  match count with
  | O => []
  | S n => bor 0x80 (band (shr code_point (6 * Z.of_nat n)) 0x3F) :: utf8_rest n code_point
  end.

(** A number that is no code point gives one byte that is not a number, which is stored as 0. *)
Definition utf8_encoder : Encoder := λ code_point,
  if code_point =? end_of_stream then RNum finished
  else if isASCIICodePoint code_point then RNum code_point
  else
    match (if inRange code_point 0x80 0x7FF then Some (1%nat, 0xC0)
           else if inRange code_point 0x800 0xFFFF then Some (2%nat, 0xE0)
           else if inRange code_point 0x10000 0x10FFFF then Some (3%nat, 0xF0) else None) with
    | Some (count, offset) => RArr ((shr code_point (6 * Z.of_nat count) + offset) :: utf8_rest count code_point)
    | None => RArr [0]
    end.

(** ** UTF-16 *)

Definition convertCodeUnitToBytes (code_unit : Z) (utf16be : bool) : list Z :=
  let byte1 := shr code_unit 8 in
  let byte2 := band code_unit 0x00FF in
  if utf16be then [byte1; byte2] else [byte2; byte1].

Record UTF16Decoder := mkUTF16 { utf16_lead_byte : option Z; utf16_lead_surrogate : option Z }.

Definition utf16_handler (utf16_be fatal : bool) (s : UTF16Decoder) (bite : Z) : UTF16Decoder * list Z * result :=
  if bite =? end_of_stream
  then
    match s with
    | mkUTF16 None None => (s, [], RNum finished)
    | _ => (s, [], decoderError fatal)
    end
  else
    match utf16_lead_byte s with
    | None => (mkUTF16 (Some bite) (utf16_lead_surrogate s), [], RNull)
    | Some lead =>
        let code_unit := if utf16_be then shl lead 8 + bite else shl bite 8 + lead in
        match utf16_lead_surrogate s with
        | Some lead_surrogate =>
            if inRange code_unit 0xDC00 0xDFFF
            then (mkUTF16 None None, [], RNum (0x10000 + (lead_surrogate - 0xD800) * 0x400 + (code_unit - 0xDC00)))
            else (mkUTF16 None None, convertCodeUnitToBytes code_unit utf16_be, decoderError fatal)
        | None =>
            if inRange code_unit 0xD800 0xDBFF then (mkUTF16 None (Some code_unit), [], RNull)
            else if inRange code_unit 0xDC00 0xDFFF then (mkUTF16 None None, [], decoderError fatal)
            else (mkUTF16 None None, [], RNum code_unit)
        end
    end.

Definition utf16_decoder (utf16_be : bool) : Decoder UTF16Decoder := {| d_new := mkUTF16 None None; d_handler := utf16_handler utf16_be |}.

Definition utf16_encoder (utf16_be : bool) : Encoder := λ code_point,
  if code_point =? end_of_stream then RNum finished
  else if inRange code_point 0 0xFFFF then RArr (convertCodeUnitToBytes code_point utf16_be)
  else
    let lead := convertCodeUnitToBytes (shr (code_point - 0x10000) 10 + 0xD800) utf16_be in
    let trail := convertCodeUnitToBytes (band (code_point - 0x10000) 0x3FF + 0xDC00) utf16_be in
    RArr (lead ++ trail).

(** ** x-user-defined *)

Definition xuser_handler (fatal : bool) (s : unit) (bite : Z) : unit * list Z * result :=
  if bite =? end_of_stream then (tt, [], RNum finished)
  else if isASCIIByte bite then (tt, [], RNum bite)
  else (tt, [], RNum (0xF780 + bite - 0x80)).

#[export] Instance xuser_decoder : Decoder unit := { d_new := tt; d_handler := xuser_handler }.

Definition xuser_encoder : Encoder := λ code_point,
  if code_point =? end_of_stream then RNum finished
  else if isASCIICodePoint code_point then RNum code_point
  else if inRange code_point 0xF780 0xF7FF then RNum (code_point - 0xF780 + 0x80)
  else encoderError.

(** ** TextEncoder *)

(** The two loops: [None] when they do not end within the turns given, [inr tt] when a handler throws. *)
Fixpoint encode_loop (n : nat) (handler : Encoder) (input output : list Z) : option (list Z * list Z + unit) :=
  match n with
  | O => None
  | S n' =>
      let '(token, input) := read input in
      if token =? end_of_stream then Some (inl (input, output))
      else
        match handler token with
        | RThrow => Some (inr tt)
        | RNull => encode_loop n' handler input (output ++ [0])
        | RNum r => if r =? finished then Some (inl (input, output)) else encode_loop n' handler input (output ++ [r])
        | RArr l => encode_loop n' handler input (output ++ l)
        end
  end.

Fixpoint encode_flush (n : nat) (handler : Encoder) (input output : list Z) : option (list Z + unit) :=
  match n with
  | O => None
  | S n' =>
      let '(token, input) := read input in
      match handler token with
      | RThrow => Some (inr tt)
      | RNull => encode_flush n' handler input (output ++ [0])
      | RNum r => if r =? finished then Some (inl output) else encode_flush n' handler input (output ++ [r])
      | RArr l => encode_flush n' handler input (output ++ l)
      end
  end.

(** [new Uint8Array(output)] *)
Definition Uint8Array (output : list Z) : list Z := (λ b, b mod 256) <$> output.

Definition encode (handler : Encoder) (stream : bool) (opt_string : str) : option (list Z + unit) :=
  let input := stringToCodePoints opt_string in
  match encode_loop (S (length input)) handler input [] with
  | Some (inl (input, output)) =>
      if stream then Some (inl (Uint8Array output))
      else
        match encode_flush (S (length input)) handler input output with
        | Some (inl output) => Some (inl (Uint8Array output))
        | r => r
        end
  | Some (inr tt) => Some (inr tt)
  | None => None
  end.

(** ** TextDecoder *)

Record TextDecoder (S : Type) := mkTextDecoder {
  _decoder : option S; _bom_encoding : bool; _ignoreBOM : bool; _BOMseen : bool; _fatal : bool; _do_not_flush : bool;
}.
Arguments mkTextDecoder {S}.
Arguments _decoder {S}.
Arguments _bom_encoding {S}.
Arguments _ignoreBOM {S}.
Arguments _BOMseen {S}.
Arguments _fatal {S}.
Arguments _do_not_flush {S}.

Section decoding.
  Context {S : Type} `{Decoder S}.

Definition new_text_decoder (bom_encoding fatal ignoreBOM : bool) : TextDecoder S :=
  mkTextDecoder None bom_encoding ignoreBOM false fatal false.

(** The loop over the input: the decoder, the rest of the input and the output, and whether the handler threw. *)
Fixpoint decode_loop (n : nat) (fatal : bool) (dec : S) (input output : list Z) : option (S * list Z * list Z * bool) :=
  match n with
  | O => None
  | Datatypes.S n' =>
      let '(token, input) := read input in
      if token =? end_of_stream then Some (dec, input, output, false)
      else
        let '(dec, pre, result) := d_handler fatal dec token in
        let input := prepend pre input in
        match result with
        | RThrow => Some (dec, input, output, true)
        | RNull => decode_loop n' fatal dec input output
        | RNum r => if r =? finished then Some (dec, input, output, false) else decode_loop n' fatal dec input (output ++ [r])
        | RArr l => decode_loop n' fatal dec input (output ++ l)
        end
  end.

(** The loop that flushes the decoder. *)
Fixpoint decode_flush (n : nat) (fatal : bool) (dec : S) (input output : list Z) : option (S * list Z * bool) :=
  match n with
  | O => None
  | Datatypes.S n' =>
      let '(token, input) := read input in
      let '(dec, pre, result) := d_handler fatal dec token in
      let input := prepend pre input in
      let next output := if endOfStream input then Some (dec, output, false) else decode_flush n' fatal dec input output in
      match result with
      | RThrow => Some (dec, output, true)
      | RNull => next output
      | RNum r => if r =? finished then Some (dec, output, false) else next (output ++ [r])
      | RArr l => next (output ++ l)
      end
  end.

(** [serializeStream]: the string, and whether the byte order mark has been looked for. *)
Definition serializeStream (td : TextDecoder S) (stream : list Z) : str * bool :=
  if _bom_encoding td && negb (_ignoreBOM td) && negb (_BOMseen td)
  then
    match stream with
    | c :: rest => (codePointsToString (if c =? 0xFEFF then rest else stream), true)
    | [] => (codePointsToString stream, _BOMseen td)
    end
  else (codePointsToString stream, _BOMseen td).

(** [decode(bytes, {stream})]: the object afterwards, and the string or an exception. *)
Definition decode (td : TextDecoder S) (bytes : list Z) (stream : bool) : option (TextDecoder S * (str + unit)) :=
  let '(mkTextDecoder dec0 bom ign seen fatal dnf) := td in
  let dec := if dnf then default d_new dec0 else d_new in
  let seen := if dnf then seen else false in
  match decode_loop (5 + 3 * length bytes) fatal dec bytes [] with
  | None => None
  | Some (dec, _, _, true) => Some (mkTextDecoder (Some dec) bom ign seen fatal stream, inr tt)
  | Some (dec, input, output, false) =>
      match (if stream then Some (Some dec, output, false)
             else '(dec, output, threw) ← decode_flush (1 + length input) fatal dec input output; Some (if (threw : bool) then Some dec else None, output, threw)) with
      | None => None
      | Some (dec, _, true) => Some (mkTextDecoder dec bom ign seen fatal stream, inr tt)
      | Some (dec, output, false) =>
          let td := mkTextDecoder dec bom ign seen fatal stream in
          let '(s, seen) := serializeStream td output in
          Some (mkTextDecoder dec bom ign seen fatal stream, inl s)
      end
  end.

End decoding.
