(* ===== verification/JsEncodingProofs.v ===== *)
(** * Text encodings: the codecs

    The bytes of a code point in UTF-8 and UTF-16, digit by digit; the states
    a decoder is in after part of a sequence; and the laws of the interface
    between the handlers and the objects that run them. *)

From S2P Require Import Prelude JsPath JsEncoding.

(** ** Bits *)

Lemma band_ones a k : 0 ≤ a < 2 ^ 31 → 0 ≤ k < 31 → band a (2 ^ k - 1) = a mod 2 ^ k.
Proof.
  intros Ha Hk. assert (2 ^ k ≤ 2 ^ 30) by (apply Z.pow_le_mono_r; lia). assert (0 < 2 ^ k) by (apply Z.pow_pos_nonneg; lia).
  unfold band. rewrite !signed32_small by lia. replace (2 ^ k - 1) with (Z.ones k) by (rewrite Z.ones_equiv; lia). apply Z.land_ones. lia.
Qed.

Lemma shr_div a k : 0 ≤ a < 2 ^ 31 → 0 ≤ k → shr a k = a / 2 ^ k.
Proof. intros Ha Hk. unfold shr. rewrite signed32_small by lia. by apply Z.shiftr_div_pow2. Qed.

Lemma shl_mul a k : 0 ≤ k → 0 ≤ a * 2 ^ k < 2 ^ 31 → shl a k = a * 2 ^ k.
Proof. intros Hk Ha. unfold shl. rewrite Z.shiftl_mul_pow2 by done. apply signed32_small. lia. Qed.

(** Bits that do not overlap. *)
Lemma testbit_above b k i : 0 ≤ b < 2 ^ k → k ≤ i → Z.testbit b i = false.
Proof.
  intros Hb Hi. destruct (decide (b = 0)) as [->|Hne]; [apply Z.bits_0|]. apply Z.bits_above_log2; [lia|]. assert (Z.log2 b < k) by (apply Z.log2_lt_pow2; lia). lia.
Qed.

Lemma bor_add a b k : 0 ≤ k → 0 ≤ a → 0 ≤ b < 2 ^ k → a * 2 ^ k + b < 2 ^ 31 → bor (a * 2 ^ k) b = a * 2 ^ k + b.
Proof.
  intros Hk Ha Hb Hs. assert (0 ≤ a * 2 ^ k) by lia. unfold bor. rewrite !signed32_small by lia.
  assert (Z.land (a * 2 ^ k) b = 0) as H0; [|rewrite <- Z.lxor_lor by done; symmetry; by apply Z.add_nocarry_lxor].
  rewrite <- Z.shiftl_mul_pow2 by done. apply Z.bits_inj'. intros i Hi. rewrite Z.land_spec, Z.bits_0. destruct (Z.ltb_spec i k).
  - by rewrite Z.shiftl_spec_low.
  - by rewrite (testbit_above b k), andb_false_r.
Qed.

Lemma inRange_true a lo hi : lo ≤ a ≤ hi → inRange a lo hi = true.
Proof. intros []. unfold inRange. apply andb_true_iff. split; by apply Z.leb_le. Qed.
Lemma inRange_false a lo hi : a < lo ∨ hi < a → inRange a lo hi = false.
Proof. intros H. unfold inRange. apply andb_false_iff. rewrite !Z.leb_gt. tauto. Qed.
Lemma inRange_spec a lo hi : reflect (lo ≤ a ≤ hi) (inRange a lo hi).
Proof. apply iff_reflect. unfold inRange. rewrite andb_true_iff, !Z.leb_le. lia. Qed.

(** Decides the ranges and the comparisons of the code by arithmetic. *)
Ltac ranges := repeat first
  [ rewrite inRange_true by lia | rewrite inRange_false by lia
  | rewrite (proj2 (Z.eqb_neq _ _)) by lia | rewrite (proj2 (Z.eqb_eq _ _)) by lia | progress cbn [andb orb negb] ].

Definition byte (b : Z) : Prop := 0 ≤ b < 256.
Definition scalar (cp : Z) : Prop := 0 ≤ cp < 0xD800 ∨ 0xE000 ≤ cp ≤ 0x10FFFF.

(** ** UTF-8, digit by digit *)

Lemma shr_digits a b k : 0 ≤ k → 0 ≤ a → 0 ≤ b < 2 ^ k → a * 2 ^ k + b < 2 ^ 31 → shr (a * 2 ^ k + b) k = a.
Proof. intros. rewrite shr_div by lia. symmetry. apply (Z.div_unique _ _ _ b); lia. Qed.

Lemma band_digits a b k : 0 ≤ k < 31 → 0 ≤ a → 0 ≤ b < 2 ^ k → a * 2 ^ k + b < 2 ^ 31 → band (a * 2 ^ k + b) (2 ^ k - 1) = b.
Proof. intros. rewrite band_ones by lia. symmetry. apply (Z.mod_unique _ _ a b); lia. Qed.

(** A byte that continues a sequence carries six bits. *)
Lemma continuation x b : 0 ≤ x → 0 ≤ b < 64 → x * 64 + b < 2 ^ 31 → bor 0x80 (band (x * 64 + b) 0x3F) = 0x80 + b.
Proof. intros. assert (band (x * 64 + b) 0x3F = b) as -> by (apply (band_digits x b 6); lia). exact (bor_add 2 b 6 ltac:(lia) ltac:(lia) ltac:(lia) ltac:(lia)). Qed.

Lemma utf8_one a : 0 ≤ a < 0x80 → utf8_encoder a = RNum a.
Proof. intros. unfold utf8_encoder, end_of_stream. ranges. unfold isASCIICodePoint, isASCIIByte. by rewrite !(proj2 (Z.leb_le _ _)) by lia. Qed.

Lemma not_ascii a : 0x80 ≤ a → isASCIICodePoint a = false.
Proof. intros. unfold isASCIICodePoint, isASCIIByte. by rewrite (proj2 (Z.leb_gt a _)), andb_false_r by lia. Qed.

Lemma utf8_two a b : 2 ≤ a < 32 → 0 ≤ b < 64 → utf8_encoder (a * 64 + b) = RArr [0xC0 + a; 0x80 + b].
Proof.
  intros Ha Hb. unfold utf8_encoder, end_of_stream. ranges. rewrite not_ascii by lia. cbn [utf8_rest]. change (6 * Z.of_nat 1) with 6. change (6 * Z.of_nat 0) with 0.
  assert (shr (a * 64 + b) 6 = a) as -> by (apply (shr_digits a b 6); lia). rewrite shr_div, Z.div_1_r by lia. rewrite continuation by lia. do 2 f_equal. lia.
Qed.

Lemma utf8_three a b c : 0 ≤ a < 16 → 0 ≤ b < 64 → 0 ≤ c < 64 → 0x800 ≤ (a * 64 + b) * 64 + c →
  utf8_encoder ((a * 64 + b) * 64 + c) = RArr [0xE0 + a; 0x80 + b; 0x80 + c].
Proof.
  intros Ha Hb Hc Hl. unfold utf8_encoder, end_of_stream. ranges. rewrite not_ascii by lia. cbn [utf8_rest].
  change (6 * Z.of_nat 2) with 12. change (6 * Z.of_nat 1) with 6. change (6 * Z.of_nat 0) with 0.
  assert (shr ((a * 64 + b) * 64 + c) 12 = a) as ->.
  { replace ((a * 64 + b) * 64 + c) with (a * 2 ^ 12 + (b * 64 + c)) by lia. apply shr_digits; lia. }
  assert (shr ((a * 64 + b) * 64 + c) 6 = a * 64 + b) as -> by (apply (shr_digits (a * 64 + b) c 6); lia). rewrite shr_div, Z.div_1_r by lia. rewrite !continuation by lia. do 2 f_equal. lia.
Qed.

Lemma utf8_four a b c d : 0 ≤ a < 5 → 0 ≤ b < 64 → 0 ≤ c < 64 → 0 ≤ d < 64 → 0x10000 ≤ ((a * 64 + b) * 64 + c) * 64 + d ≤ 0x10FFFF →
  utf8_encoder (((a * 64 + b) * 64 + c) * 64 + d) = RArr [0xF0 + a; 0x80 + b; 0x80 + c; 0x80 + d].
Proof.
  intros Ha Hb Hc Hd Hl. unfold utf8_encoder, end_of_stream. ranges. rewrite not_ascii by lia. cbn [utf8_rest].
  change (6 * Z.of_nat 3) with 18. change (6 * Z.of_nat 2) with 12. change (6 * Z.of_nat 1) with 6. change (6 * Z.of_nat 0) with 0.
  assert (shr (((a * 64 + b) * 64 + c) * 64 + d) 18 = a) as ->.
  { replace (((a * 64 + b) * 64 + c) * 64 + d) with (a * 2 ^ 18 + (b * 4096 + c * 64 + d)) by lia. apply shr_digits; lia. }
  assert (shr (((a * 64 + b) * 64 + c) * 64 + d) 12 = a * 64 + b) as ->.
  { replace (((a * 64 + b) * 64 + c) * 64 + d) with ((a * 64 + b) * 2 ^ 12 + (c * 64 + d)) by lia. apply shr_digits; lia. }
  assert (shr (((a * 64 + b) * 64 + c) * 64 + d) 6 = (a * 64 + b) * 64 + c) as -> by (apply (shr_digits _ d 6); lia). rewrite shr_div, Z.div_1_r by lia. rewrite !continuation by lia. do 2 f_equal. lia.
Qed.

(** ** The states of the UTF-8 decoder *)

(** The state after the bytes [p] of a sequence that can still be completed. *)
Inductive reading : list Z → UTF8Decoder → Prop :=
  | reading_new : reading [] utf8_new
  | reading_1_2 a : 2 ≤ a < 32 → reading [0xC0 + a] (mkUTF8 a 0 1 0x80 0xBF)
  | reading_1_3 a : 0 ≤ a < 16 → reading [0xE0 + a] (mkUTF8 a 0 2 (if a =? 0 then 0xA0 else 0x80) (if a =? 13 then 0x9F else 0xBF))
  | reading_2_3 a b : 0 ≤ a < 16 → 0 ≤ b < 64 → (a = 0 → 32 ≤ b) → (a = 13 → b < 32) → reading [0xE0 + a; 0x80 + b] (mkUTF8 (a * 64 + b) 1 2 0x80 0xBF)
  | reading_1_4 a : 0 ≤ a < 5 → reading [0xF0 + a] (mkUTF8 a 0 3 (if a =? 0 then 0x90 else 0x80) (if a =? 4 then 0x8F else 0xBF))
  | reading_2_4 a b : 0 ≤ a < 5 → 0 ≤ b < 64 → (a = 0 → 16 ≤ b) → (a = 4 → b < 16) → reading [0xF0 + a; 0x80 + b] (mkUTF8 (a * 64 + b) 1 3 0x80 0xBF)
  | reading_3_4 a b c : 0 ≤ a < 5 → 0 ≤ b < 64 → 0 ≤ c < 64 → (a = 0 → 16 ≤ b) → (a = 4 → b < 16) →
      reading [0xF0 + a; 0x80 + b; 0x80 + c] (mkUTF8 ((a * 64 + b) * 64 + c) 2 3 0x80 0xBF).

(** What an encoder gives for a token, as bytes. *)
Definition bytes_of (r : result) : list Z := match r with RNum n => [n] | RArr l => l | _ => [] end.

(** The three things a byte does: it continues the sequence, ends it with a code point, or is an error. *)
Inductive stepped (fatal : bool) (p : list Z) (b : Z) : UTF8Decoder * list Z * result → Prop :=
  | step_more s : reading (p ++ [b]) s → stepped fatal p b (s, [], RNull)
  | step_done cp : scalar cp → bytes_of (utf8_encoder cp) = p ++ [b] → stepped fatal p b (utf8_new, [], RNum cp)
  | step_error : stepped fatal p b (utf8_new, match p with [] => [] | _ => [b] end, decoderError fatal).

(** Six more bits. *)
Lemma append_bits x b : 0 ≤ x → 0 ≤ b < 64 → x * 64 + b < 2 ^ 31 → bor (shl x 6) (band (0x80 + b) 0x3F) = x * 64 + b.
Proof.
  intros. rewrite shl_mul by lia. assert (band (0x80 + b) 0x3F = b) as -> by exact (band_digits 2 b 6 ltac:(lia) ltac:(lia) ltac:(lia) ltac:(lia)).
  apply bor_add; lia.
Qed.

(** A byte that is no continuation ends the sequence with an error and is seen again. *)
Lemma utf8_not_in fatal p cp seen needed lower upper b : p ≠ [] → needed ≠ 0 → 0 ≤ b → ¬ lower ≤ b ≤ upper →
  stepped fatal p b (utf8_handler fatal (mkUTF8 cp seen needed lower upper) b).
Proof.
  intros Hp Hn Hb Hr. unfold utf8_handler, end_of_stream. ranges. pose proof (step_error fatal p b) as H. by destruct p.
Qed.

(** A continuation: [b] is its six bits. *)
Lemma utf8_in fatal cp seen needed lower upper b : 0 ≤ cp → needed ≠ 0 → 0 ≤ b < 64 → cp * 64 + b < 2 ^ 31 → lower ≤ 0x80 + b ≤ upper →
  utf8_handler fatal (mkUTF8 cp seen needed lower upper) (0x80 + b) =
    if seen + 1 =? needed then (utf8_new, [], RNum (cp * 64 + b)) else (mkUTF8 (cp * 64 + b) (seen + 1) needed 0x80 0xBF, [], RNull).
Proof.
  intros Hc Hn Hb Hs Hr. unfold utf8_handler, end_of_stream. ranges. rewrite append_bits by done. by destruct (seen + 1 =? needed).
Qed.

Lemma low_bits b q k : 0 ≤ k < 31 → 0 ≤ q → 0 ≤ b - q * 2 ^ k < 2 ^ k → b < 2 ^ 31 → band b (2 ^ k - 1) = b - q * 2 ^ k.
Proof. intros. rewrite band_ones by lia. symmetry. apply (Z.mod_unique _ _ q); lia. Qed.

(** The first byte. *)
Lemma utf8_step_first fatal b : byte b → stepped fatal [] b (utf8_handler fatal utf8_new b).
Proof.
  intros Hb. unfold byte in Hb. unfold utf8_handler, utf8_first, utf8_new, end_of_stream. ranges.
  destruct (inRange_spec b 0 0x7F); [apply step_done; [left; lia|by rewrite utf8_one by lia]|].
  destruct (inRange_spec b 0xC2 0xDF).
  { apply step_more. assert (band b 31 = b - 0xC0) as -> by (apply (low_bits b 6 5); lia).
    replace b with (0xC0 + (b - 0xC0)) at 1 by lia. constructor. lia. }
  destruct (inRange_spec b 0xE0 0xEF).
  { apply step_more. assert (band b 15 = b - 0xE0) as -> by (apply (low_bits b 14 4); lia).
    replace (b =? 0xE0) with (b - 0xE0 =? 0) by (apply Bool.eq_iff_eq_true; rewrite !Z.eqb_eq; lia).
    replace (b =? 0xED) with (b - 0xE0 =? 13) by (apply Bool.eq_iff_eq_true; rewrite !Z.eqb_eq; lia).
    replace b with (0xE0 + (b - 0xE0)) at 1 by lia. apply reading_1_3. lia. }
  destruct (inRange_spec b 0xF0 0xF4); [|apply (step_error fatal [] b)].
  apply step_more. assert (band b 7 = b - 0xF0) as -> by (apply (low_bits b 30 3); lia).
  replace (b =? 0xF0) with (b - 0xF0 =? 0) by (apply Bool.eq_iff_eq_true; rewrite !Z.eqb_eq; lia).
  replace (b =? 0xF4) with (b - 0xF0 =? 4) by (apply Bool.eq_iff_eq_true; rewrite !Z.eqb_eq; lia).
  replace b with (0xF0 + (b - 0xF0)) at 1 by lia. apply reading_1_4. lia.
Qed.

(** Splits on whether [b] continues the sequence; then [b] is [0x80 + d]. *)
Ltac continues b d :=
  match goal with |- context [mkUTF8 _ _ _ ?lower ?upper] =>
    destruct (decide (lower ≤ b ≤ upper)); [|apply utf8_not_in; [done|lia|lia|done]]
  end;
  set (d := b - 0x80); replace b with (0x80 + d) by lia; assert (0 ≤ d < 64) by lia; rewrite utf8_in by lia; cbn [Z.add Pos.add Z.eqb Pos.eqb Pos.succ].

Lemma utf8_step fatal p s b : reading p s → byte b → stepped fatal p b (utf8_handler fatal s b).
Proof.
  intros Hr Hb. destruct Hr as [|a Ha|a Ha|a b1 Ha Hb1 H0 H13|a Ha|a b1 Ha Hb1 H0 H4|a b1 c Ha Hb1 Hc H0 H4]; [by apply utf8_step_first|..]; unfold byte in Hb.
  - continues b d. apply step_done; [left; lia|]. by rewrite utf8_two by lia.
  - destruct (Z.eqb_spec a 0), (Z.eqb_spec a 13); try lia; continues b d; apply step_more, reading_2_3; lia.
  - continues b d. apply step_done; [unfold scalar; lia|]. by rewrite utf8_three by lia.
  - destruct (Z.eqb_spec a 0), (Z.eqb_spec a 4); try lia; continues b d; apply step_more, reading_2_4; lia.
  - continues b d. apply step_more, reading_3_4; lia.
  - continues b d. apply step_done; [right; lia|]. by rewrite utf8_four by lia.
Qed.

(** ** Runs of a handler *)

Definition codes (r : result) : list Z := match r with RNum n => [n] | RArr l => l | _ => [] end.

Section runs.
  Context {S : Type} {D : Decoder S}.

(** The handler over a stream: the state it ends in, what it gives, and whether it threw. *)
Inductive runs (fatal : bool) : S → list Z → S → list Z → bool → Prop :=
  | runs_end s : runs fatal s [] s [] false
  | runs_step s b rest s' pre r s'' out threw :
      d_handler fatal s b = (s', pre, r) → r ≠ RThrow → r ≠ RNum finished →
      runs fatal s' (pre ++ rest) s'' out threw → runs fatal s (b :: rest) s'' (codes r ++ out) threw
  | runs_throw s b rest s' pre : d_handler fatal s b = (s', pre, RThrow) → runs fatal s (b :: rest) s' [] true.

(** Two streams after each other. *)
Lemma runs_app fatal s a s' out b s'' out' threw :
  runs fatal s a s' out false → runs fatal s' b s'' out' threw → runs fatal s (a ++ b) s'' (out ++ out') threw.
Proof.
  intros Ha. remember false as f eqn:Hf. induction Ha as [|s1 x rest s2 pre r s3 o t Hh Hr Hn Ha IH|]; intros Hb; [done| |done].
  cbn [app]. rewrite <- app_assoc. eapply runs_step; [done..|]. rewrite app_assoc. by apply IH.
Qed.

Lemma runs_throws fatal s a s' out b : runs fatal s a s' out true → runs fatal s (a ++ b) s' out true.
Proof.
  remember true as f eqn:Hf. induction 1 as [|s1 x rest s2 pre r s3 o t Hh Hr Hn Ha IH|]; [done| |by eapply runs_throw].
  cbn [app]. eapply runs_step; [done..|]. rewrite app_assoc. by apply IH.
Qed.

Lemma runs_det fatal s a s1 o1 t1 s2 o2 t2 : runs fatal s a s1 o1 t1 → runs fatal s a s2 o2 t2 → s1 = s2 ∧ o1 = o2 ∧ t1 = t2.
Proof.
  intros H1. revert s2 o2 t2. induction H1 as [|s x rest s' pre r s'' out t Hh Hr Hn H IH|s x rest s' pre Hh]; intros s2 o2 t2 H2; inversion H2; subst; [done| | | |].
  - match goal with E : d_handler _ _ _ = (_, _, _), E' : d_handler _ _ _ = (_, _, _) |- _ => rewrite E in E'; injection E' as <- <- <- end.
    match goal with R : runs _ _ _ s2 _ t2 |- _ => destruct (IH _ _ _ R) as (-> & -> & ->) end. done.
  - congruence.
  - congruence.
  - match goal with E : d_handler _ _ _ = (_, _, _), E' : d_handler _ _ _ = (_, _, _) |- _ => rewrite E in E'; by injection E' as <- <- end.
Qed.

End runs.

(** ** What the objects ask of a handler *)

(** Bytes lead from state to state, and every byte is used up: prepended tokens are paid for by the state. *)
Class DecoderLaws (S : Type) {D : Decoder S} := {
  d_ok : S → Prop;
  d_weight : S → nat;
  d_new_ok : d_ok d_new;
  d_weight_bound s : d_ok s → (d_weight s ≤ 4)%nat;
  d_byte fatal s b : d_ok s → byte b →
    let '(s', pre, r) := d_handler fatal s b in
    d_ok s' ∧ Forall byte pre ∧ r ≠ RNum finished ∧ (d_weight s' + 3 * length pre < d_weight s + 3)%nat;
  d_end fatal s : d_ok s → let '(s', pre, r) := d_handler fatal s end_of_stream in pre = [];
}.

(** An encoder and a decoder that fit, for the code points [can]: decoding gives back what was encoded. *)
Class Codec (S : Type) {D : Decoder S} (enc : Encoder) (can : Z → Prop) := {
  c_end : enc end_of_stream = RNum finished;
  c_new_end fatal : d_handler fatal d_new end_of_stream = (d_new, [], RNum finished);
  c_bytes cp : can cp → 0 ≤ cp ∧ Forall byte (bytes_of (enc cp)) ∧ enc cp ≠ RThrow ∧ enc cp ≠ RNull;
  c_decodes cp fatal : can cp → runs fatal d_new (bytes_of (enc cp)) d_new [cp] false;
}.

(** ** UTF-8 *)

Definition utf8_weight (s : UTF8Decoder) : nat := if utf8_bytes_needed s =? 0 then 0 else 1.

#[export] Instance utf8_laws : DecoderLaws UTF8Decoder.
Proof.
  refine {| d_ok := λ s, ∃ p, reading p s; d_weight := utf8_weight |}.
  - exists []. constructor.
  - intros s _. unfold utf8_weight. destruct (_ =? 0); lia.
  - intros fatal s b [p Hp] Hb. pose proof (utf8_step fatal p s b Hp Hb) as H. change (d_handler fatal s b) with (utf8_handler fatal s b).
    assert (utf8_weight s ≤ 1)%nat by (unfold utf8_weight; destruct (_ =? 0); lia).
    destruct (utf8_handler fatal s b) as [[s' pre] r] eqn:E. inversion H as [s1 Hs1|cp Hcp Hc|]; subst; cbn [length].
    + split_and!; [by eexists|done..|]. unfold utf8_weight at 1. destruct (_ =? 0); lia.
    + split_and!; [eexists; constructor|done| |]; [|unfold utf8_weight at 1; cbn; lia]. intros [= ->]. unfold scalar, finished in *. lia.
    + split_and!; [eexists; constructor|by destruct p; repeat constructor; apply Hb|by destruct fatal|].
      change (utf8_weight utf8_new) with 0%nat. destruct p; cbn [length]; [lia|]. assert (utf8_weight s = 1%nat) by (by inversion Hp). lia.
  - intros fatal s _. change (d_handler fatal s end_of_stream) with (utf8_handler fatal s end_of_stream). unfold utf8_handler. destruct s. cbn. by destruct (_ =? 0).
Qed.

(** One byte of a sequence, and the rest of it. *)
Lemma runs_more {S} {D : Decoder S} fatal s b rest s' s'' out threw :
  d_handler fatal s b = (s', [], RNull) → runs fatal s' rest s'' out threw → runs fatal s (b :: rest) s'' out threw.
Proof. intros Hh Hr. exact (runs_step fatal s b rest s' [] RNull s'' out threw Hh ltac:(done) ltac:(done) Hr). Qed.

Lemma runs_last {S} {D : Decoder S} fatal s b s' cp : 0 ≤ cp → d_handler fatal s b = (s', [], RNum cp) → runs fatal s [b] s' [cp] false.
Proof.
  intros Hc Hh. apply (runs_step fatal s b [] s' [] (RNum cp) s' [] false Hh); [done| |constructor]. intros [= ->]. unfold finished in Hc. lia.
Qed.

Lemma utf8_lead_2 fatal a : 2 ≤ a < 32 → utf8_handler fatal utf8_new (0xC0 + a) = (mkUTF8 a 0 1 0x80 0xBF, [], RNull).
Proof.
  intros. unfold utf8_handler, utf8_first, utf8_new, end_of_stream. ranges. by assert (band (0xC0 + a) 0x1F = a) as -> by (apply (band_digits 6 a 5); lia).
Qed.

Lemma utf8_lead_3 fatal a : 0 ≤ a < 16 →
  utf8_handler fatal utf8_new (0xE0 + a) = (mkUTF8 a 0 2 (if a =? 0 then 0xA0 else 0x80) (if a =? 13 then 0x9F else 0xBF), [], RNull).
Proof.
  intros. unfold utf8_handler, utf8_first, utf8_new, end_of_stream. rewrite (proj2 (Z.eqb_neq _ (-1))) by lia. cbn [andb]. change (0 =? 0) with true. cbv iota.
  rewrite (inRange_false _ 0 _), (inRange_false _ 0xC2 _), (inRange_true _ 0xE0 _) by lia. assert (band (0xE0 + a) 0xF = a) as -> by (apply (band_digits 14 a 4); lia).
  by replace (0xE0 + a =? 0xE0) with (a =? 0) by (apply Bool.eq_iff_eq_true; rewrite !Z.eqb_eq; lia);
    replace (0xE0 + a =? 0xED) with (a =? 13) by (apply Bool.eq_iff_eq_true; rewrite !Z.eqb_eq; lia).
Qed.

Lemma utf8_lead_4 fatal a : 0 ≤ a < 5 →
  utf8_handler fatal utf8_new (0xF0 + a) = (mkUTF8 a 0 3 (if a =? 0 then 0x90 else 0x80) (if a =? 4 then 0x8F else 0xBF), [], RNull).
Proof.
  intros. unfold utf8_handler, utf8_first, utf8_new, end_of_stream. rewrite (proj2 (Z.eqb_neq _ (-1))) by lia. cbn [andb]. change (0 =? 0) with true. cbv iota.
  rewrite (inRange_false _ 0 _), (inRange_false _ 0xC2 _), (inRange_false _ 0xE0 _), (inRange_true _ 0xF0 _) by lia.
  assert (band (0xF0 + a) 0x7 = a) as -> by (apply (band_digits 30 a 3); lia).
  by replace (0xF0 + a =? 0xF0) with (a =? 0) by (apply Bool.eq_iff_eq_true; rewrite !Z.eqb_eq; lia);
    replace (0xF0 + a =? 0xF4) with (a =? 4) by (apply Bool.eq_iff_eq_true; rewrite !Z.eqb_eq; lia).
Qed.

(** A code point in digits: the four lengths of its sequence. *)
Lemma utf8_lengths (P : Z → Prop) :
  (∀ a, 0 ≤ a < 0x80 → P a) → (∀ a b, 2 ≤ a < 32 → 0 ≤ b < 64 → P (a * 64 + b)) →
  (∀ a b c, 0 ≤ a < 16 → 0 ≤ b < 64 → 0 ≤ c < 64 → (a = 0 → 32 ≤ b) → (a = 13 → b < 32) → P ((a * 64 + b) * 64 + c)) →
  (∀ a b c d, 0 ≤ a < 5 → 0 ≤ b < 64 → 0 ≤ c < 64 → 0 ≤ d < 64 → (a = 0 → 16 ≤ b) → (a = 4 → b < 16) → P (((a * 64 + b) * 64 + c) * 64 + d)) →
  ∀ cp, scalar cp → P cp.
Proof.
  intros H1 H2 H3 H4 cp Hc. assert (0 ≤ cp ≤ 0x10FFFF) as Hr by (unfold scalar in Hc; lia).
  assert (∀ x, 0 ≤ x → ∃ q r, x = q * 64 + r ∧ 0 ≤ r < 64 ∧ 0 ≤ q) as Hd.
  { intros x Hx. exists (x / 64), (x mod 64). pose proof (Z.div_mod x 64). pose proof (Z.mod_pos_bound x 64). pose proof (Z.div_pos x 64). lia. }
  destruct (decide (cp < 0x80)); [apply H1; lia|]. destruct (Hd cp) as (q & d & -> & Hd0 & Hq); [lia|]. destruct (decide (q < 32)); [apply H2; lia|].
  destruct (Hd q) as (q2 & c & -> & Hc0 & Hq2); [lia|]. unfold scalar in Hc. destruct (decide (q2 < 16)); [apply H3; lia|].
  destruct (Hd q2) as (q3 & b & -> & Hb0 & Hq3); [lia|]. apply H4; lia.
Qed.

Lemma utf8_sequence fatal cp : scalar cp → Forall byte (bytes_of (utf8_encoder cp)) ∧ runs fatal utf8_new (bytes_of (utf8_encoder cp)) utf8_new [cp] false.
Proof.
  intros Hs. revert cp Hs. apply utf8_lengths.
  - intros a Ha. rewrite utf8_one by done. split; [repeat constructor; unfold byte; lia|]. apply runs_last; [lia|].
    change (d_handler ?f ?s ?b) with (utf8_handler f s b). unfold utf8_handler, utf8_first, utf8_new, end_of_stream. by ranges.
  - intros a b Ha Hb. rewrite utf8_two by done. split; [repeat constructor; unfold byte; lia|].
    eapply runs_more; [by apply utf8_lead_2|]. apply runs_last; [lia|]. exact (utf8_in fatal a 0 1 0x80 0xBF b ltac:(lia) ltac:(done) Hb ltac:(lia) ltac:(lia)).
  - intros a b c Ha Hb Hc H0 H13. rewrite utf8_three by lia. split; [repeat constructor; unfold byte; lia|].
    eapply runs_more; [by apply utf8_lead_3|]. eapply runs_more.
    { apply (utf8_in fatal a 0 2 _ _ b); try lia. destruct (Z.eqb_spec a 0), (Z.eqb_spec a 13); lia. }
    apply runs_last; [lia|]. exact (utf8_in fatal (a * 64 + b) 1 2 0x80 0xBF c ltac:(lia) ltac:(done) Hc ltac:(lia) ltac:(lia)).
  - intros a b c d Ha Hb Hc Hd H0 H4. rewrite utf8_four by lia. split; [repeat constructor; unfold byte; lia|].
    eapply runs_more; [by apply utf8_lead_4|]. eapply runs_more.
    { apply (utf8_in fatal a 0 3 _ _ b); try lia. destruct (Z.eqb_spec a 0), (Z.eqb_spec a 4); lia. }
    eapply runs_more; [exact (utf8_in fatal (a * 64 + b) 1 3 0x80 0xBF c ltac:(lia) ltac:(done) Hc ltac:(lia) ltac:(lia))|].
    apply runs_last; [lia|]. exact (utf8_in fatal ((a * 64 + b) * 64 + c) 2 3 0x80 0xBF d ltac:(lia) ltac:(done) Hd ltac:(lia) ltac:(lia)).
Qed.

#[export] Instance utf8_codec : Codec UTF8Decoder utf8_encoder scalar.
Proof.
  constructor; [done|done| |].
  - intros cp Hs. destruct (utf8_sequence false cp Hs) as [Hb _]. split_and!; [unfold scalar in Hs; lia|done| |].
    all: unfold utf8_encoder; repeat case_match; done.
  - intros cp fatal Hs. by apply utf8_sequence.
Qed.

(** ** UTF-16 *)

Definition utf16_unit (be : bool) (b1 b2 : Z) : Z := if be then shl b1 8 + b2 else shl b2 8 + b1.

Lemma utf16_unit_range be b1 b2 : byte b1 → byte b2 → 0 ≤ utf16_unit be b1 b2 < 0x10000.
Proof. unfold byte, utf16_unit. intros. destruct be; rewrite shl_mul by lia; lia. Qed.

Lemma convert_bytes u be : 0 ≤ u < 0x10000 → ∃ b1 b2, convertCodeUnitToBytes u be = [b1; b2] ∧ byte b1 ∧ byte b2 ∧ utf16_unit be b1 b2 = u.
Proof.
  intros Hu. pose proof (Z.div_mod u 256). pose proof (Z.mod_pos_bound u 256). assert (0 ≤ u / 256 < 256) by (split; [apply Z.div_pos|apply Z.div_lt_upper_bound]; lia).
  unfold convertCodeUnitToBytes. rewrite shr_div by lia. assert (band u 0xFF = u mod 256) as -> by (apply (band_ones u 8); lia). change (2 ^ 8) with 256.
  destruct be; do 2 eexists; (split; [done|]); unfold byte, utf16_unit; rewrite shl_mul by lia; lia.
Qed.

Lemma two_bytes b1 b2 : byte b1 → byte b2 → Forall byte [b1; b2].
Proof. intros. by apply Forall_cons_2, Forall_singleton. Qed.

Lemma convert_all u be : 0 ≤ u < 0x10000 → Forall byte (convertCodeUnitToBytes u be).
Proof. intros Hu. destruct (convert_bytes u be Hu) as (x & y & -> & Hx & Hy & _). by apply two_bytes. Qed.

Definition utf16_ok (s : UTF16Decoder) : Prop :=
  match s with mkUTF16 l u => (∀ b, l = Some b → byte b) ∧ (∀ c, u = Some c → 0xD800 ≤ c ≤ 0xDBFF) end.

Definition utf16_weight (s : UTF16Decoder) : nat :=
  match s with
  | mkUTF16 None None => 0
  | mkUTF16 (Some _) None => 1
  | mkUTF16 None (Some _) => 2
  | mkUTF16 (Some _) (Some _) => 4
  end.

(** The second byte of a unit. *)
Definition utf16_second (be fatal : bool) (u : option Z) (code_unit : Z) : UTF16Decoder * list Z * result :=
  match u with
  | Some lead =>
      if inRange code_unit 0xDC00 0xDFFF then (mkUTF16 None None, [], RNum (0x10000 + (lead - 0xD800) * 0x400 + (code_unit - 0xDC00)))
      else (mkUTF16 None None, convertCodeUnitToBytes code_unit be, decoderError fatal)
  | None =>
      if inRange code_unit 0xD800 0xDBFF then (mkUTF16 None (Some code_unit), [], RNull)
      else if inRange code_unit 0xDC00 0xDFFF then (mkUTF16 None None, [], decoderError fatal)
      else (mkUTF16 None None, [], RNum code_unit)
  end.

Lemma utf16_first_byte be fatal u b : byte b → utf16_handler be fatal (mkUTF16 None u) b = (mkUTF16 (Some b) u, [], RNull).
Proof. intros Hb. unfold byte in Hb. unfold utf16_handler, end_of_stream. by ranges. Qed.

Lemma utf16_second_byte be fatal u b1 b2 : byte b2 → utf16_handler be fatal (mkUTF16 (Some b1) u) b2 = utf16_second be fatal u (utf16_unit be b1 b2).
Proof. intros Hb. unfold byte in Hb. unfold utf16_handler, end_of_stream. ranges. by destruct u, be. Qed.

Lemma utf16_byte be fatal s b : utf16_ok s → byte b →
  let '(s', pre, r) := utf16_handler be fatal s b in
  utf16_ok s' ∧ Forall byte pre ∧ r ≠ RNum finished ∧ (utf16_weight s' + 3 * length pre < utf16_weight s + 3)%nat.
Proof.
  intros Hs Hb. destruct s as [[b1|] u].
  - destruct Hs as [Hb1 Hu]. rewrite utf16_second_byte by done. pose proof (utf16_unit_range be b1 b (Hb1 b1 eq_refl) Hb) as Hr. set (c := utf16_unit be b1 b) in *.
    unfold utf16_second, finished. destruct u as [lead|].
    + specialize (Hu lead eq_refl). destruct (inRange_spec c 0xDC00 0xDFFF); [refine (conj _ (conj _ (conj _ _))); [done..| |cbn; lia]; intros [=]; lia|].
      refine (conj _ (conj _ (conj _ _))); [done|by apply convert_all|by destruct fatal|]. destruct (convert_bytes c be Hr) as (x & y & -> & _). cbn. lia.
    + destruct (inRange_spec c 0xD800 0xDBFF); [refine (conj _ (conj _ (conj _ _))); [by split; [|intros ? [= <-]]|done..|cbn; lia]|].
      destruct (inRange_spec c 0xDC00 0xDFFF); refine (conj _ (conj _ (conj _ _))); try done; try (cbn; lia); [by destruct fatal|intros [=]; lia].
  - destruct Hs as [_ Hu]. rewrite utf16_first_byte by done. refine (conj _ (conj _ (conj _ _))); [split; [by intros ? [= <-]|done]|done..|]. destruct u; cbn; lia.
Qed.

#[export] Instance utf16_laws be : @DecoderLaws UTF16Decoder (utf16_decoder be).
Proof.
  refine (@Build_DecoderLaws _ (utf16_decoder be) utf16_ok utf16_weight _ _ (utf16_byte be) _).
  - done.
  - intros [[b|] [u|]] _; cbn; lia.
  - intros fatal s _. cbn. unfold utf16_handler. cbn. by destruct s as [[b|] [u|]].
Qed.

(** The two bytes of a unit. *)
Lemma utf16_runs_unit be fatal u c s' r out rest s'' threw : 0 ≤ c < 0x10000 → utf16_second be fatal u c = (s', [], r) → r ≠ RThrow → r ≠ RNum finished →
  @runs _ (utf16_decoder be) fatal s' rest s'' out threw →
  @runs _ (utf16_decoder be) fatal (mkUTF16 None u) (convertCodeUnitToBytes c be ++ rest) s'' (codes r ++ out) threw.
Proof.
  intros Hc Hs H1 H2 Hr. destruct (convert_bytes c be Hc) as (x & y & -> & Hx & Hy & Hu). cbn [app].
  eapply runs_more; [by apply utf16_first_byte|]. apply (runs_step fatal _ y rest s' [] r s'' out threw); [|done..]. etrans; [by apply utf16_second_byte|]. by rewrite Hu.
Qed.

Lemma utf16_sequence be fatal cp : scalar cp →
  Forall byte (bytes_of (utf16_encoder be cp)) ∧ @runs _ (utf16_decoder be) fatal (mkUTF16 None None) (bytes_of (utf16_encoder be cp)) (mkUTF16 None None) [cp] false.
Proof.
  intros Hs. assert (0 ≤ cp ≤ 0x10FFFF) as Hr by (unfold scalar in Hs; lia). unfold utf16_encoder, end_of_stream. rewrite (proj2 (Z.eqb_neq _ _)) by lia. unfold scalar in Hs.
  destruct (inRange_spec cp 0 0xFFFF) as [Hi|Hi]; cbn [bytes_of].
  - split; [apply convert_all; lia|].
    rewrite <- (app_nil_r (convertCodeUnitToBytes _ _)). apply (utf16_runs_unit be fatal None cp (mkUTF16 None None) (RNum cp) []); [lia| |done| |constructor].
    + unfold utf16_second. by rewrite !inRange_false by lia.
    + intros [= ->]. unfold finished in *. lia.
  - set (x := cp - 0x10000). assert (0 ≤ x < 2 ^ 20) by lia. pose proof (Z.div_mod x 1024). pose proof (Z.mod_pos_bound x 1024).
    assert (0 ≤ x / 1024 < 1024) by (split; [apply Z.div_pos|apply Z.div_lt_upper_bound]; lia).
    assert (shr x 10 = x / 1024) as -> by (apply (shr_div x 10); lia). assert (band x 0x3FF = x mod 1024) as -> by (apply (band_ones x 10); lia). split.
    + apply Forall_app. split; apply convert_all; lia.
    + apply (utf16_runs_unit be fatal None (x / 1024 + 0xD800) (mkUTF16 None (Some (x / 1024 + 0xD800))) RNull [cp]); [lia| |done..|].
      { unfold utf16_second. by rewrite inRange_true by lia. }
      rewrite <- (app_nil_r (convertCodeUnitToBytes _ _)).
      apply (utf16_runs_unit be fatal (Some (x / 1024 + 0xD800)) (x mod 1024 + 0xDC00) (mkUTF16 None None) (RNum cp) []); [lia| |done| |constructor].
      * unfold utf16_second. rewrite inRange_true by lia. do 2 f_equal. lia.
      * intros [= ->]. unfold finished in *. lia.
Qed.

#[export] Instance utf16_codec be : @Codec UTF16Decoder (utf16_decoder be) (utf16_encoder be) scalar.
Proof.
  refine (@Build_Codec _ (utf16_decoder be) _ _ _ _ _ _); [done|done| |].
  - intros cp Hs. destruct (utf16_sequence be false cp Hs) as [Hb _]. split_and!; [unfold scalar in Hs; lia|done| |].
    all: unfold utf16_encoder; repeat case_match; done.
  - intros cp fatal Hs. by apply utf16_sequence.
Qed.

(** ** x-user-defined *)

Definition xuser_can (cp : Z) : Prop := 0 ≤ cp < 0x80 ∨ 0xF780 ≤ cp ≤ 0xF7FF.

#[export] Instance xuser_laws : DecoderLaws unit.
Proof.
  refine {| d_ok := λ _, True; d_weight := λ _, 0%nat |}; [done|intros; lia| |by intros].
  intros fatal s b _ Hb. unfold byte in Hb. cbn. unfold xuser_handler, end_of_stream, isASCIIByte. ranges. destruct ((0 <=? b) && (b <=? 127)); split_and!; try done; try (cbn; lia).
  all: unfold finished; intros [=]; lia.
Qed.

#[export] Instance xuser_codec : Codec unit xuser_encoder xuser_can.
Proof.
  constructor; [done|done| |].
  - intros cp [Hc|Hc]; unfold xuser_encoder, end_of_stream; ranges; unfold isASCIICodePoint, isASCIIByte.
    + rewrite !(proj2 (Z.leb_le _ _)) by lia. cbn. split_and!; [lia|repeat constructor; unfold byte; lia|done..].
    + rewrite (proj2 (Z.leb_gt cp _)), andb_false_r by lia. cbn. split_and!; [lia|repeat constructor; unfold byte; lia|done..].
  - intros cp fatal Hc. assert (0 ≤ cp) by (unfold xuser_can in Hc; lia). destruct Hc as [Hc|Hc]; unfold xuser_encoder, end_of_stream; ranges; unfold isASCIICodePoint, isASCIIByte.
    + rewrite !(proj2 (Z.leb_le _ _)) by lia. cbn [andb bytes_of]. apply runs_last; [done|]. cbn. unfold xuser_handler, end_of_stream, isASCIIByte. ranges. by rewrite !(proj2 (Z.leb_le _ _)) by lia.
    + rewrite (proj2 (Z.leb_gt cp _)), andb_false_r by lia. ranges. cbn [bytes_of]. apply runs_last; [done|]. cbn. unfold xuser_handler, end_of_stream, isASCIIByte. ranges.
      rewrite (proj2 (Z.leb_gt (cp - _ + _) _)), andb_false_r by lia. do 2 f_equal. lia.
Qed.
