(* ===== verification/JsEncodingObj.v ===== *)
(** * Text encodings: TextEncoder and TextDecoder

    The objects, proved against the laws of the handlers: decoding always ends
    and gives what the handler's run over the bytes gives; decoding in pieces
    is decoding at once; what was encoded decodes to itself. *)

From S2P Require Import Prelude JsPath JsEncoding JsEncodingProofs.

Section objects.
  Context {S : Type} {D : Decoder S} {L : DecoderLaws S}.

(** ** The loops *)

Lemma prepend_bytes (a b : list Z) : Forall byte a → Forall byte b → Forall byte (prepend a b).
Proof. intros. by apply Forall_app. Qed.

(** The loop ends within its turns, with what the handler's run gives. *)
Lemma decode_loop_runs n fatal s input output : d_ok s → Forall byte input → (d_weight s + 3 * length input < n)%nat →
  ∃ s' rest out threw, decode_loop n fatal s input output = Some (s', rest, output ++ out, threw) ∧ d_ok s' ∧
    (threw = false → rest = []) ∧ runs fatal s input s' out threw.
Proof.
  revert s input output. induction n as [|n IH]; intros s input output Hs Hi Hn; [lia|]. cbn [decode_loop]. destruct input as [|b input]; cbn [read].
  { exists s, [], [], false. rewrite app_nil_r. split_and!; [done..|constructor]. }
  apply Forall_cons in Hi as [Hb Hi]. assert ((b =? end_of_stream) = false) as -> by (apply Z.eqb_neq; unfold byte, end_of_stream in *; lia).
  pose proof (d_byte fatal s b Hs Hb) as Hd. destruct (d_handler fatal s b) as [[s' pre] r] eqn:Eh. destruct Hd as (Hs' & Hp & Hf & Hw). cbn [length] in Hn.
  assert (∀ output', r ≠ RThrow → output' = output ++ codes r → ∃ s2 rest out threw, decode_loop n fatal s' (prepend pre input) output' = Some (s2, rest, output ++ out, threw) ∧
    d_ok s2 ∧ (threw = false → rest = []) ∧ runs fatal s (b :: input) s2 out threw) as Hgo.
  { intros output' Hr ->. destruct (IH s' (prepend pre input) (output ++ codes r) Hs') as (s2 & rest & out & threw & -> & Hok & Hrest & Hruns);
      [by apply prepend_bytes|unfold prepend; rewrite length_app; lia|].
    exists s2, rest, (codes r ++ out), threw. rewrite app_assoc. split_and!; [done..|]. by eapply runs_step. }
  destruct r as [|r|l|].
  - apply Hgo; [done|]. by rewrite app_nil_r.
  - assert ((r =? finished) = false) as -> by (apply Z.eqb_neq; by intros ->). by apply Hgo.
  - by apply Hgo.
  - exists s', (prepend pre input), [], true. rewrite app_nil_r. split_and!; [done..|]. by eapply runs_throw.
Qed.

(** What the end of the stream gives. *)
Definition at_end (fatal : bool) (s : S) : list Z + unit :=
  match (d_handler fatal s end_of_stream).2 with
  | RThrow => inr tt
  | RNum r => inl (if r =? finished then [] else [r])
  | r => inl (codes r)
  end.

Lemma decode_flush_end n fatal s output : d_ok s →
  ∃ s', decode_flush (Datatypes.S n) fatal s [] output = Some (s', output ++ match at_end fatal s with inl l => l | inr _ => [] end, bool_decide (at_end fatal s = inr tt)).
Proof.
  intros Hs. pose proof (d_end fatal s Hs) as He. cbn [decode_flush read]. unfold at_end. destruct (d_handler fatal s end_of_stream) as [[s' pre] r]. subst pre. exists s'. cbn.
  destruct r as [|r|l|]; cbn; rewrite ?app_nil_r; try done. destruct (r =? finished); cbn; by rewrite ?app_nil_r.
Qed.

(** ** decode *)

(** An object in the middle of a stream. *)
Definition mid (bom ign seen fatal : bool) (s : S) : TextDecoder S := mkTextDecoder (Some s) bom ign seen fatal true.

(** The text of code points, and whether the mark has been looked for afterwards. *)
Definition text (bom ign seen : bool) (out : list Z) : str * bool := serializeStream (S := S) (mkTextDecoder None bom ign seen false false) out.

Lemma text_app bom ign seen a b :
  text bom ign seen (a ++ b) = ((text bom ign seen a).1 ++ (text bom ign (text bom ign seen a).2 b).1, (text bom ign (text bom ign seen a).2 b).2).
Proof.
  unfold text, serializeStream. cbn [_bom_encoding _ignoreBOM _BOMseen]. unfold codePointsToString.
  destruct bom, ign, seen; cbn [andb negb fst snd]; rewrite ?flat_map_app; try done. destruct a as [|c a]; [by destruct b|]. cbn [app fst snd negb].
  destruct (c =? 0xFEFF); [by rewrite flat_map_app|]. change (c :: a ++ b) with ((c :: a) ++ b). by rewrite flat_map_app.
Qed.

Lemma decode_stream bom ign seen fatal s bytes : d_ok s → Forall byte bytes →
  ∃ s' out threw, runs fatal s bytes s' out threw ∧ d_ok s' ∧
    decode (mid bom ign seen fatal s) bytes true =
      Some (if threw : bool then (mid bom ign seen fatal s', inr tt) else (mid bom ign (text bom ign seen out).2 fatal s', inl (text bom ign seen out).1)).
Proof.
  intros Hs Hb. pose proof (d_weight_bound s Hs). unfold decode, mid. cbn [from_option]. cbv zeta. unfold id.
  destruct (decode_loop_runs (5 + 3 * length bytes) fatal s bytes [] Hs Hb) as (s' & rest & out & threw & -> & Hok & _ & Hr); [lia|].
  exists s', out, threw. split_and!; [done..|]. destruct threw; [done|]. cbn [app]. unfold text, serializeStream. cbn [_bom_encoding _ignoreBOM _BOMseen].
  by destruct (bom && negb ign && negb seen), out.
Qed.

Lemma decode_last bom ign seen fatal s bytes : d_ok s → Forall byte bytes →
  ∃ s' out threw, runs fatal s bytes s' out threw ∧ d_ok s' ∧
    snd <$> decode (mid bom ign seen fatal s) bytes false =
      Some (if threw : bool then inr tt else match at_end fatal s' with inl l => inl (text bom ign seen (out ++ l)).1 | inr _ => inr tt end).
Proof.
  intros Hs Hb. pose proof (d_weight_bound s Hs). unfold decode, mid. cbn [from_option]. cbv zeta. unfold id.
  destruct (decode_loop_runs (5 + 3 * length bytes) fatal s bytes [] Hs Hb) as (s' & rest & out & threw & -> & Hok & Hrest & Hr); [lia|].
  exists s', out, threw. split_and!; [done..|]. destruct threw; [done|]. rewrite (Hrest eq_refl). cbn [app length Nat.add].
  destruct (decode_flush_end 0 fatal s' out Hok) as [s2 ->]. cbn [mbind option_bind]. destruct (at_end fatal s') as [l|[]]; [|done].
  rewrite bool_decide_false by done. unfold text, serializeStream. cbn [_bom_encoding _ignoreBOM _BOMseen].
  by destruct (bom && negb ign && negb seen), (out ++ l).
Qed.

(** ** Decoding in pieces *)

(** Some chunks with [stream: true], the last one without. *)
Fixpoint decode_chunks (td : TextDecoder S) (chunks : list (list Z)) (last : list Z) : option (str + unit) :=
  match chunks with
  | [] => snd <$> decode td last false
  | c :: chunks =>
      match decode td c true with
      | Some (td, inl s) =>
          match decode_chunks td chunks last with
          | Some (inl s') => Some (inl (s ++ s'))
          | r => r
          end
      | Some (_, inr tt) => Some (inr tt)
      | None => None
      end
  end.

Lemma chunks_mid bom ign fatal chunks last : Forall byte last → Forall (Forall byte) chunks → ∀ seen s, d_ok s →
  decode_chunks (mid bom ign seen fatal s) chunks last = snd <$> decode (mid bom ign seen fatal s) (concat chunks ++ last) false.
Proof.
  intros Hl. induction chunks as [|c chunks IH]; [done|]. intros [Hc Hcs]%Forall_cons seen s Hs. cbn [decode_chunks concat]. rewrite <- app_assoc.
  assert (Forall byte (concat chunks ++ last)) as Hrest by (apply Forall_app; split; [by apply Forall_concat|done]).
  destruct (decode_stream bom ign seen fatal s c Hs Hc) as (s1 & o1 & t1 & R1 & Hs1 & ->).
  destruct (decode_last bom ign seen fatal s (c ++ concat chunks ++ last) Hs) as (s2 & o2 & t2 & R2 & _ & ->); [by apply Forall_app|]. destruct t1.
  - by destruct (runs_det _ _ _ _ _ _ _ _ _ R2 (runs_throws _ _ _ _ _ (concat chunks ++ last) R1)) as (_ & _ & ->).
  - rewrite IH by done. destruct (decode_last bom ign (text bom ign seen o1).2 fatal s1 (concat chunks ++ last) Hs1 Hrest) as (s3 & o3 & t3 & R3 & _ & ->).
    destruct (runs_det _ _ _ _ _ _ _ _ _ R2 (runs_app _ _ _ _ _ _ _ _ _ R1 R3)) as (-> & -> & ->). destruct t3; [done|].
    destruct (at_end fatal s3); [|done]. rewrite <- app_assoc. by rewrite (text_app bom ign seen o1).
Qed.

End objects.

(** C15: Decoding a stream of bytes piece by piece, with the stream option set for all pieces but
    the last, gives the same text or the same exception as decoding all the bytes at once, wherever
    the pieces are cut, for every decoder that keeps the laws of the interface, and decoding always
    ends: the decoder's state, the tokens it puts back and the byte order mark carry over. *)
Theorem decode_in_pieces {S : Type} {D : Decoder S} {L : DecoderLaws S} (td : TextDecoder S) chunks last : _do_not_flush td = false → Forall byte last → Forall (Forall byte) chunks →
  decode_chunks td chunks last = snd <$> decode td (concat chunks ++ last) false ∧ is_Some (decode_chunks td chunks last).
Proof.
  intros Hd Hl Hc. destruct td as [dec bom ign seen fatal dnf]. cbn in Hd. subst dnf.
  assert (∀ b st, decode (mkTextDecoder dec bom ign seen fatal false) b st = decode (mid bom ign false fatal d_new) b st) as Hm by done.
  assert (decode_chunks (mkTextDecoder dec bom ign seen fatal false) chunks last = decode_chunks (mid bom ign false fatal d_new) chunks last) as E by (destruct chunks; [done|]; cbn [decode_chunks]; by rewrite Hm).
  rewrite E, Hm, chunks_mid by (done || apply d_new_ok). split; [done|].
  destruct (decode_last bom ign false fatal d_new (concat chunks ++ last) d_new_ok) as (? & ? & ? & _ & _ & ->); [apply Forall_app; split; [by apply Forall_concat|done]|]. by eexists.
Qed.

Lemma decode_in_pieces_witness :
  decode_chunks (S := UTF8Decoder) (new_text_decoder true false false) [[0xEF; 0xBB]; [0xBF; 0xE2]; [0x82]; [0xAC; 0xF0; 0x9F]] [0x41] = Some (inl [0x20AC; 0xFFFD; 0x41]) ∧
  decode_chunks (S := UTF8Decoder) (new_text_decoder true false false) [[0xEF; 0xBB]; [0xBF; 0xE2]; [0x82]; [0xAC; 0xF0; 0x9F]] [0x41] =
  snd <$> decode (S := UTF8Decoder) (new_text_decoder true false false) [0xEF; 0xBB; 0xBF; 0xE2; 0x82; 0xAC; 0xF0; 0x9F; 0x41] false.
Proof. split; [vm_compute; reflexivity|].
  apply (decode_in_pieces (S := UTF8Decoder) (new_text_decoder true false false) [[0xEF; 0xBB]; [0xBF; 0xE2]; [0x82]; [0xAC; 0xF0; 0x9F]] [0x41]); [done|..].
  all: repeat first [apply Forall_cons_2|apply Forall_nil_2|split]; done. Defined.


(** ** Strings *)

Definition unit16 (c : Z) : Prop := 0 ≤ c < 0x10000.
Definition is_lead (c : Z) : bool := inRange c 0xD800 0xDBFF.
Definition is_trail (c : Z) : bool := inRange c 0xDC00 0xDFFF.

(** A string with every surrogate that has no partner replaced. *)
Fixpoint toWellFormed (s : str) : str :=
  match s with
  | [] => []
  | c :: s' =>
      if is_lead c
      then
        match s' with
        | d :: s'' => if is_trail d then c :: d :: toWellFormed s'' else 0xFFFD :: toWellFormed s'
        | [] => [0xFFFD]
        end
      else (if is_trail c then 0xFFFD else c) :: toWellFormed s'
  end.

Lemma pair_units c d : is_lead c = true → is_trail d = true →
  let cp := 0x10000 + shl (band c 0x3FF) 10 + band d 0x3FF in 0x10000 ≤ cp ≤ 0x10FFFF ∧ units_of cp = [c; d].
Proof.
  unfold is_lead, is_trail. destruct (inRange_spec c 0xD800 0xDBFF) as [Hc|], (inRange_spec d 0xDC00 0xDFFF) as [Hd|]; try done. intros _ _.
  assert (band c 0x3FF = c - 0xD800) as -> by (apply (low_bits c 54 10); lia). assert (band d 0x3FF = d - 0xDC00) as -> by (apply (low_bits d 55 10); lia).
  rewrite shl_mul by lia. cbv zeta. split; [lia|]. unfold units_of. rewrite (proj2 (Z.leb_gt _ _)) by lia. unfold fromCharCode.
  set (a := c - 0xD800). set (b := d - 0xDC00). replace (0x10000 + a * 2 ^ 10 + b - 0x10000) with (a * 2 ^ 10 + b) by lia.
  rewrite shr_digits by lia. assert (band (a * 2 ^ 10 + b) 0x3FF = b) as -> by (apply (band_digits a b 10); lia).
  rewrite !Z.mod_small by lia. do 2 f_equal; [lia|]. f_equal. lia.
Qed.

(** Strings by their first one or two units. *)
Lemma str_ind2 (P : str → Prop) : P [] → (∀ c, P [c]) → (∀ c d s, P s → P (d :: s) → P (c :: d :: s)) → ∀ s, P s.
Proof.
  intros H0 H1 H2 s. enough (P s ∧ ∀ c, P (c :: s)) by tauto. induction s as [|d s [IH IH']]; [by split|]. split; [apply IH'|]. intros c. by apply H2.
Qed.

Lemma lead_not_trail c : is_lead c = true → is_trail c = false.
Proof. unfold is_lead, is_trail. destruct (inRange_spec c 0xD800 0xDBFF); [|done]. intros _. apply inRange_false. lia. Qed.

(** The code points of a string, by the kinds of its units. *)
Lemma code_points_cons c s : unit16 c → stringToCodePoints (c :: s) =
  if is_lead c
  then
    match s with
    | [] => [0xFFFD]
    | d :: s' => if is_trail d then (0x10000 + shl (band c 0x3FF) 10 + band d 0x3FF) :: stringToCodePoints s' else 0xFFFD :: stringToCodePoints s
    end
  else (if is_trail c then 0xFFFD else c) :: stringToCodePoints s.
Proof.
  intros Hc. unfold unit16 in Hc. cbn [stringToCodePoints]. unfold is_lead, is_trail.
  destruct (inRange_spec c 0xD800 0xDBFF) as [H1|H1], (inRange_spec c 0xDC00 0xDFFF) as [H2|H2].
  - lia.
  - rewrite (proj2 (Z.ltb_ge c _)), (proj2 (Z.ltb_ge _ c)), (proj2 (Z.leb_gt _ c)) by lia. by destruct s.
  - by rewrite (proj2 (Z.ltb_ge c _)), (proj2 (Z.ltb_ge _ c)), !(proj2 (Z.leb_le _ _)) by lia.
  - destruct (Z.ltb_spec c 0xD800); [done|]. by rewrite (proj2 (Z.ltb_lt _ c)) by lia.
Qed.

Lemma units_of_small c : unit16 c → units_of c = [c].
Proof. unfold unit16. intros Hc. unfold units_of, fromCharCode. rewrite (proj2 (Z.leb_le _ _)) by lia. by rewrite Z.mod_small by lia. Qed.

Lemma to_string_spec s : Forall unit16 s → Forall scalar (stringToCodePoints s) ∧ codePointsToString (stringToCodePoints s) = toWellFormed s.
Proof.
  induction s as [|c|c d s IH1 IH2] using str_ind2; [intros _; split; [constructor|done]| |].
  - intros Hc%Forall_inv. rewrite code_points_cons by done. cbn [toWellFormed]. unfold scalar, is_lead, is_trail, unit16 in *. destruct (inRange_spec c 0xD800 0xDBFF), (inRange_spec c 0xDC00 0xDFFF); cbn [codePointsToString flat_map app stringToCodePoints];
      rewrite ?units_of_small by (unfold unit16; lia); (split; [apply Forall_singleton; lia|done]).
  - intros [Hc Hs]%Forall_cons. pose proof Hs as [Hd Hs']%Forall_cons. destruct (IH1 Hs') as [S1 E1]. destruct (IH2 Hs) as [S2 E2]. rewrite code_points_cons by done.
    remember (d :: s) as s2 eqn:Es2. cbn [toWellFormed]. subst s2. destruct (is_lead c) eqn:El.
    + destruct (is_trail d) eqn:Et.
      * destruct (pair_units c d El Et) as [Hr Hu]. cbv zeta in Hr, Hu. split; [apply Forall_cons; split; [unfold scalar; lia|done]|]. unfold codePointsToString in *. cbn [flat_map]. by rewrite Hu, E1.
      * split; [apply Forall_cons; split; [unfold scalar; lia|done]|]. unfold codePointsToString in *. cbn [flat_map]. by rewrite E2, units_of_small by done.
    + unfold codePointsToString in *. cbn [flat_map]. rewrite E2. unfold is_lead, is_trail, unit16 in *. destruct (inRange_spec c 0xD800 0xDBFF) as [|H1]; [done|].
      destruct (inRange_spec c 0xDC00 0xDFFF); rewrite units_of_small by (unfold unit16; lia); (split; [apply Forall_cons; split; [unfold scalar; lia|done]|done]).
Qed.

(** ** encode *)

Section round_trip.
  Context {S : Type} {D : Decoder S} {enc : Encoder} {can : Z → Prop} {C : Codec S enc can}.

Definition bytes_for (cps : list Z) : list Z := flat_map (λ cp, bytes_of (enc cp)) cps.

Lemma bytes_for_bytes cps : Forall can cps → Forall byte (bytes_for cps).
Proof using C. induction 1 as [|cp cps Hc _ IH]; [constructor|]. cbn. apply Forall_app. split; [by apply (c_bytes cp Hc)|done]. Qed.

Lemma encode_loop_spec cps output : Forall can cps → encode_loop (Datatypes.S (length cps)) enc cps output = Some (inl ([], output ++ bytes_for cps)).
Proof using C.
  revert output. induction cps as [|cp cps IH]; intros output Hall; [cbn; by rewrite app_nil_r|]. apply Forall_cons in Hall as [Hc Hall].
  cbn [length]. remember (Datatypes.S (length cps)) as k eqn:Hk. cbn [encode_loop read]. subst k. destruct (c_bytes cp Hc) as (H0 & Hb & Ht & Hn).
  rewrite (proj2 (Z.eqb_neq cp _)) by (unfold end_of_stream; lia). cbn [bytes_for flat_map]. fold (bytes_for cps).
  destruct (enc cp) as [|r|l|] eqn:E; [done| | |done]; cbn [bytes_of] in *.
  - apply Forall_inv in Hb. unfold byte in Hb. rewrite (proj2 (Z.eqb_neq r _)) by (unfold finished; lia). by rewrite IH, <- app_assoc.
  - by rewrite IH, <- app_assoc.
Qed.

Lemma bytes_stored l : Forall byte l → Uint8Array l = l.
Proof.
  induction 1 as [|b l Hb _ IH]; [done|]. unfold Uint8Array in *. rewrite fmap_cons, IH. f_equal. apply Z.mod_small. exact Hb.
Qed.

(** The bytes of the code points, one after the other. *)
Lemma encode_spec stream s : Forall can (stringToCodePoints s) → encode enc stream s = Some (inl (bytes_for (stringToCodePoints s))).
Proof using C.
  intros Hc. unfold encode. rewrite encode_loop_spec by done. cbn [app length encode_flush read]. rewrite (c_end (S := S)).
  change (finished =? finished) with true. destruct stream; by rewrite bytes_stored by (by apply bytes_for_bytes).
Qed.

(** The handler gives back every code point. *)
Lemma runs_encoded fatal cps : Forall can cps → runs fatal d_new (bytes_for cps) d_new cps false.
Proof using C.
  induction 1 as [|cp cps Hc _ IH]; [constructor|]. cbn [bytes_for flat_map]. change (cp :: cps) with ([cp] ++ cps). eapply runs_app; [by apply c_decodes|done].
Qed.

End round_trip.
Arguments bytes_for : clear implicits.

(** The text without its byte order mark, where it is looked for. *)
Definition without_mark (bom ign : bool) (s : str) : str :=
  match s with c :: s' => if bom && negb ign && (c =? 0xFEFF) then s' else s | [] => s end.

Lemma units_head c : scalar c → ∃ x u, units_of c = x :: u ∧ (x =? 0xFEFF) = (c =? 0xFEFF) ∧ (c = 0xFEFF → u = []).
Proof.
  intros Hc. unfold units_of, scalar in *. destruct (Z.leb_spec c 0xFFFF); unfold fromCharCode.
  - exists c, []. by rewrite Z.mod_small by lia.
  - do 2 eexists. split; [done|]. set (x := c - 0x10000). assert (0 ≤ x / 2 ^ 10 < 1024) by (split; [apply Z.div_pos|apply Z.div_lt_upper_bound]; lia).
    rewrite shr_div by lia. rewrite Z.mod_small by lia. rewrite !(proj2 (Z.eqb_neq _ 0xFEFF)) by lia. split; [done|]. lia.
Qed.

Lemma text_mark {S : Type} bom ign cps : Forall scalar cps → (text (S := S) bom ign false cps).1 = without_mark bom ign (codePointsToString cps).
Proof.
  intros Hc. unfold text, serializeStream, without_mark. cbn [_bom_encoding _ignoreBOM _BOMseen negb]. rewrite andb_true_r.
  destruct (bom && negb ign); [|by destruct (codePointsToString cps)]. destruct cps as [|c cps]; [done|]. apply Forall_inv in Hc.
  destruct (units_head c Hc) as (x & u & E1 & E2 & E3). cbn [fst andb]. unfold codePointsToString. cbn [flat_map]. rewrite E1. cbn [app]. rewrite E2.
  destruct (Z.eqb_spec c 0xFEFF) as [->|]; [by rewrite E3|]. cbn [flat_map]. by rewrite E1.
Qed.



(** A string without surrogates is what it is. *)
Lemma well_formed_plain s : Forall (λ c, is_lead c = false ∧ is_trail c = false) s → toWellFormed s = s.
Proof. induction 1 as [|c s [H1 H2] _ IH]; [done|]. cbn [toWellFormed]. by rewrite H1, H2, IH. Qed.

(** ** What the UTF-8 decoder accepts *)

(** In fatal mode a run that does not throw has read whole sequences. *)
Lemma utf8_runs_fatal s bytes s' out : runs true s bytes s' out false → ∀ p, reading p s → Forall byte bytes →
  Forall scalar out ∧ ∃ p', reading p' s' ∧ p ++ bytes = bytes_for utf8_encoder out ++ p'.
Proof.
  remember false as t eqn:Ht. induction 1 as [s|s b rest s1 pre r s2 out t Hh Hr Hf Hruns IH|]; intros p Hp Hb; [|apply Forall_cons in Hb as [Hb Hrest]|done].
  - split; [constructor|]. exists p. by rewrite app_nil_r.
  - pose proof (utf8_step true p s b Hp Hb) as Hs. change (d_handler true s b) with (utf8_handler true s b) in Hh. rewrite Hh in Hs. inversion Hs as [s3 Hmore|cp Hcp Henc|]; subst; [..|done]; cbn [app codes] in *.
    + destruct (IH eq_refl _ Hmore Hrest) as (Ho & p' & Hp' & E). split; [done|]. exists p'. split; [done|]. by rewrite <- E, <- app_assoc.
    + destruct (IH eq_refl [] reading_new Hrest) as (Ho & p' & Hp' & E). split; [by constructor|]. exists p'. split; [done|]. cbn [bytes_for flat_map].
      fold (bytes_for utf8_encoder out). rewrite Henc, <- !app_assoc. cbn [app]. cbn [app] in E. by rewrite E.
Qed.

(** C16: In fatal mode the UTF-8 decoder accepts exactly the byte sequences that are the encodings
    of Unicode scalar values, and gives their text: overlong forms, surrogates, numbers beyond
    0x10FFFF, stray and missing continuation bytes are all refused. *)
Theorem utf8_fatal_exact bom ign bytes text0 : Forall byte bytes →
  snd <$> decode (S := UTF8Decoder) (new_text_decoder bom true ign) bytes false = Some (inl text0) ↔
  ∃ cps, Forall scalar cps ∧ bytes = bytes_for utf8_encoder cps ∧ text0 = without_mark bom ign (codePointsToString cps).
Proof.
  intros Hb. assert (decode (S := UTF8Decoder) (new_text_decoder bom true ign) bytes false = decode (mid bom ign false true d_new) bytes false) as -> by done.
  destruct (decode_last (S := UTF8Decoder) bom ign false true d_new bytes d_new_ok Hb) as (s' & out & threw & Hr & _ & ->). split.
  - destruct threw; [done|]. destruct (utf8_runs_fatal _ _ _ _ Hr [] reading_new Hb) as (Ho & p' & Hp' & E). cbn [app] in E.
    destruct Hp'; unfold at_end; cbn; try done. rewrite !app_nil_r in *. intros [= <-]. exists out. split_and!; [done..|]. by rewrite text_mark.
  - intros (cps & Hc & -> & ->). destruct (runs_det _ _ _ _ _ _ _ _ _ Hr (runs_encoded (C := utf8_codec) true cps Hc)) as (-> & -> & ->).
    unfold at_end. cbn. by rewrite app_nil_r, text_mark.
Qed.

Lemma utf8_fatal_exact_witness :
  snd <$> decode (S := UTF8Decoder) (new_text_decoder true true false) [0xE2; 0x82; 0xAC] false = Some (inl [0x20AC]) ↔
  ∃ cps, Forall scalar cps ∧ [0xE2; 0x82; 0xAC] = bytes_for utf8_encoder cps ∧ [0x20AC] = without_mark true false (codePointsToString cps).
Proof. apply (utf8_fatal_exact true false [0xE2; 0x82; 0xAC] [0x20AC]). repeat apply Forall_cons_2; [..|apply Forall_nil_2]; by split. Defined.
