(* ===== verification/JsEvents.v ===== *)
(** * Event targets: js/event-target.js

    The listeners of a target are linked nodes, one list for each event name;
    callbacks run in the middle of a walk over a list and may change it. The
    nodes are objects that stay alive as long as anything refers to them, so a
    node taken out of a list keeps the [next] it had. *)

From S2P Require Import Prelude.

(** What is passed as a listener: [null] or [undefined], a function, an object
    with or without a method [handleEvent], anything else. *)
Inductive jsval := VNull | VFun (id : Z) | VObj (id : Z) (handleEvent : bool) | VOther.

#[export] Instance jsval_eq_dec : EqDecision jsval.
Proof. solve_decision. Defined.

Definition CAPTURE : Z := 1.
Definition BUBBLE : Z := 2.
Definition ATTRIBUTE : Z := 3.

Record ListenerNode := mkNode { listener : jsval; listenerType : Z; passive : bool; once : bool; next : option positive }.

(** The nodes there are, the lists ([listenersMap]), and the identity of the next node. *)
Record EventTarget := mkTarget { nodes : gmap positive ListenerNode; listeners : gmap string positive; count : positive }.

Definition __init : EventTarget := mkTarget ∅ ∅ 1.

(** ** Events *)

Record Event := mkEvent {
  eventType : string; cancelable : bool; eventPhase : Z; canceled : bool; stopped : bool; immediateStopped : bool; passiveListener : option jsval;
  currentTarget : bool; (* set to the target, or null *)
}.

Definition new_event (type : string) (cancelable : bool) : Event := mkEvent type cancelable 2 false false false None false.

Definition setCancelFlag (ev : Event) : Event :=
  match passiveListener ev with
  | Some _ => ev
  | None =>
      if negb (cancelable ev) then ev
      else mkEvent (eventType ev) (cancelable ev) (eventPhase ev) true (stopped ev) (immediateStopped ev) (passiveListener ev) (currentTarget ev)
  end.

Definition preventDefault : Event → Event := setCancelFlag.
Definition stopPropagation (ev : Event) : Event :=
  mkEvent (eventType ev) (cancelable ev) (eventPhase ev) (canceled ev) true (immediateStopped ev) (passiveListener ev) (currentTarget ev).
Definition stopImmediatePropagation (ev : Event) : Event :=
  mkEvent (eventType ev) (cancelable ev) (eventPhase ev) (canceled ev) true true (passiveListener ev) (currentTarget ev).
Definition isStopped (ev : Event) : bool := immediateStopped ev.
Definition setEventPhase (ev : Event) (phase : Z) : Event :=
  mkEvent (eventType ev) (cancelable ev) phase (canceled ev) (stopped ev) (immediateStopped ev) (passiveListener ev) (currentTarget ev).
Definition setPassiveListener (ev : Event) (l : option jsval) : Event :=
  mkEvent (eventType ev) (cancelable ev) (eventPhase ev) (canceled ev) (stopped ev) (immediateStopped ev) l (currentTarget ev).
Definition setCurrentTarget (ev : Event) (c : bool) : Event :=
  mkEvent (eventType ev) (cancelable ev) (eventPhase ev) (canceled ev) (stopped ev) (immediateStopped ev) (passiveListener ev) c.

(** ** The lists *)

Definition set_next (a : positive) (o : option positive) (t : EventTarget) : EventTarget :=
  mkTarget (alter (λ n, mkNode (listener n) (listenerType n) (passive n) (once n) o) a (nodes t)) (listeners t) (count t).
Definition set_head (e : string) (a : positive) (t : EventTarget) : EventTarget := mkTarget (nodes t) (<[e := a]> (listeners t)) (count t).
Definition delete_head (e : string) (t : EventTarget) : EventTarget := mkTarget (nodes t) (delete e (listeners t)) (count t).
Definition alloc (n : ListenerNode) (t : EventTarget) : positive * EventTarget :=
  (count t, mkTarget (<[count t := n]> (nodes t)) (listeners t) (Pos.succ (count t))).

(** Taking [node] out, with [prev] before it or [null]. *)
Definition unlink (e : string) (prev : option positive) (node : ListenerNode) (t : EventTarget) : EventTarget :=
  match prev with
  | Some p => set_next p (next node) t
  | None =>
      match next node with
      | Some b => set_head e b t
      | None => delete_head e t
      end
  end.

(** The third argument: a value taken as a boolean, or an object. *)
Inductive options := OBool (capture : bool) | OObj (capture passive once : bool).
Definition capture_of (o : options) : bool := match o with OBool c => c | OObj c _ _ => c end.
Definition type_of (o : options) : Z := if capture_of o then CAPTURE else BUBBLE.

Definition is_listener (v : jsval) : bool := match v with VFun _ | VObj _ _ => true | _ => false end.

(** To the tail, or [None] when the listener is there. *)
Fixpoint add_loop (n : nat) (t : EventTarget) (v : jsval) (ty : Z) (prev node : option positive) : option (option (option positive)) :=
  match n with
  | O => None
  | S n' =>
      match node with
      | None => Some (Some prev)
      | Some a =>
          x ← nodes t !! a;
          if bool_decide (listener x = v) && (listenerType x =? ty) then Some None
          else add_loop n' t v ty (Some a) (next x)
      end
  end.

(** The walks visit every node at most once. *)
Definition turns (t : EventTarget) : nat := Pos.to_nat (count t).

Definition addEventListener (e : string) (v : jsval) (o : options) (t : EventTarget) : option (EventTarget + unit) :=
  match v with
  | VNull => Some (inl t)
  | VOther => Some (inr tt)
  | _ =>
      let newNode :=
        mkNode v (type_of o) (match o with OObj _ p _ => p | OBool _ => false end) (match o with OObj _ _ c => c | OBool _ => false end) None in
      match listeners t !! e with
      | None => let '(a, t) := alloc newNode t in Some (inl (set_head e a t))
      | Some node =>
          r ← add_loop (turns t) t v (type_of o) None (Some node);
          match r with
          | None => Some (inl t)
          | Some None => None
          | Some (Some prev) => let '(a, t) := alloc newNode t in Some (inl (set_next prev (Some a) t))
          end
      end
  end.

Fixpoint remove_loop (n : nat) (e : string) (t : EventTarget) (v : jsval) (ty : Z) (prev node : option positive) : option EventTarget :=
  match n with
  | O => None
  | S n' =>
      match node with
      | None => Some t
      | Some a =>
          x ← nodes t !! a;
          if bool_decide (listener x = v) && (listenerType x =? ty) then Some (unlink e prev x t)
          else remove_loop n' e t v ty (Some a) (next x)
      end
  end.

Definition removeEventListener (e : string) (v : jsval) (o : options) (t : EventTarget) : option EventTarget :=
  match v with
  | VNull => Some t
  | _ => remove_loop (turns t) e t v (type_of o) None (listeners t !! e)
  end.

(** ** Event attributes *)

Fixpoint get_loop (n : nat) (t : EventTarget) (node : option positive) : option jsval :=
  match n with
  | O => None
  | S n' =>
      match node with
      | None => Some VNull
      | Some a => x ← nodes t !! a; if listenerType x =? ATTRIBUTE then Some (listener x) else get_loop n' t (next x)
      end
  end.

Definition attribute_get (e : string) (t : EventTarget) : option jsval := get_loop (turns t) t (listeners t !! e).

(** To the tail, taking the old value out. *)
Fixpoint set_loop (n : nat) (e : string) (t : EventTarget) (prev node : option positive) : option (EventTarget * option positive) :=
  match n with
  | O => None
  | S n' =>
      match node with
      | None => Some (t, prev)
      | Some a =>
          x ← nodes t !! a;
          let t' := if listenerType x =? ATTRIBUTE then unlink e prev x t else t in
          let prev := if listenerType x =? ATTRIBUTE then prev else Some a in
          y ← nodes t' !! a;
          set_loop n' e t' prev (next y)
      end
  end.

Definition attribute_set (e : string) (v : jsval) (t : EventTarget) : option EventTarget :=
  let v := if is_listener v then v else VNull in
  '(t, prev) ← set_loop (turns t) e t None (listeners t !! e);
  match v with
  | VNull => Some t
  | _ =>
      let '(a, t) := alloc (mkNode v ATTRIBUTE false false None) t in
      match prev with
      | None => Some (set_head e a t)
      | Some p => Some (set_next p (Some a) t)
      end
  end.

(** ** dispatchEvent *)

Section dispatch.
  (** A call of a listener with the target and the event: both afterwards, and whether it threw. *)
  Context (call : jsval → EventTarget → Event → EventTarget * Event * bool).

(** An exception of a function is reported and caught, one of [handleEvent] is not. *)
Definition call_listener (x : ListenerNode) (t : EventTarget) (ev : Event) : EventTarget * Event * bool :=
  match listener x with
  | VFun _ => let '(t, ev, _) := call (listener x) t ev in (t, ev, false)
  | VObj _ true => if negb (listenerType x =? ATTRIBUTE) then call (listener x) t ev else (t, ev, false)
  | _ => (t, ev, false)
  end.

(** The walk; besides what it leaves, the nodes whose turn came, in order. *)
Fixpoint dispatch_loop (n : nat) (e : string) (t : EventTarget) (ev : Event) (prev node : option positive) : option (EventTarget * Event * bool * list positive) :=
  match n with
  | O => None
  | S n' =>
      match node with
      | None => Some (t, ev, false, [])
      | Some a =>
          x ← nodes t !! a;
          let t' := if once x then unlink e prev x t else t in
          let prev := if once x then prev else Some a in
          x ← nodes t' !! a;
          let ev := setPassiveListener ev (if passive x then Some (listener x) else None) in
          let '(t', ev, threw) := call_listener x t' ev in
          if (threw : bool) then Some (t', ev, true, [a])
          else if isStopped ev then Some (t', ev, false, [a])
          else
            x ← nodes t' !! a;
            '(t', ev, threw, seen) ← dispatch_loop n' e t' ev prev (next x);
            Some (t', ev, threw, a :: seen)
      end
  end.

(** The target and the event afterwards, and what is returned: [None] for an exception. *)
Definition dispatchEvent (n : nat) (t : EventTarget) (ev : Event) : option (EventTarget * Event * option bool) :=
  let ev := setCurrentTarget ev true in
  match listeners t !! eventType ev with
  | None => Some (t, ev, Some true)
  | node =>
      '(t, ev, threw, _) ← dispatch_loop n (eventType ev) t ev None node;
      if (threw : bool) then Some (t, ev, None)
      else
        let ev := setEventPhase (setPassiveListener ev None) 0 in
        Some (t, ev, Some (negb (canceled ev)))
  end.

End dispatch.
