(* ===== verification/JsEventsProofs.v ===== *)
(** * Event targets: the lists

    The linked nodes of a target implement, for each event name, a list of
    listeners: adding, removing and setting an attribute are what they are on
    lists. *)

From S2P Require Import Prelude JsEvents.

(** ** Linked segments *)

Abbreviation entry := (jsval * Z * bool * bool)%type.
Definition ent (n : ListenerNode) : entry := (listener n, listenerType n, passive n, once n).

(** From [o] along the nodes [l] to [o']. *)
Fixpoint seg (ns : gmap positive ListenerNode) (o : option positive) (l : list (positive * entry)) (o' : option positive) : Prop :=
  match l with
  | [] => o = o'
  | (a, x) :: l => o = Some a ∧ ∃ n, ns !! a = Some n ∧ ent n = x ∧ seg ns (next n) l o'
  end.

Lemma seg_app ns o l1 l2 o' : seg ns o (l1 ++ l2) o' ↔ ∃ m, seg ns o l1 m ∧ seg ns m l2 o'.
Proof.
  revert o. induction l1 as [|[a x] l1 IH]; intros o; cbn [app seg].
  - split; [intros H; by exists o|]. by intros (m & -> & H).
  - split.
    + intros (-> & n & Hn & Hx & (m & H1 & H2)%IH). exists m. split; [split; [done|]; by exists n|done].
    + intros (m & (-> & n & Hn & Hx & H1) & H2). split; [done|]. exists n. split_and!; [done..|]. apply IH. by exists m.
Qed.

Lemma seg_frame ns ns' o l o' : (∀ a, a ∈ l.*1 → ns' !! a = ns !! a) → seg ns o l o' → seg ns' o l o'.
Proof.
  revert o. induction l as [|[a x] l IH]; intros o Hf; cbn [seg]; [done|]. intros (-> & n & Hn & Hx & H). split; [done|]. exists n.
  split_and!; [|done|]; [rewrite Hf; [done|by left]|]. apply IH; [|done]. intros b Hb. apply Hf. by right.
Qed.

Lemma seg_det ns o l l' : seg ns o l None → seg ns o l' None → l = l'.
Proof.
  revert o l'. induction l as [|[a x] l IH]; intros o l'; cbn [seg].
  - intros ->. destruct l' as [|[b y] l']; [done|]. by intros [? _].
  - intros (-> & n & Hn & <- & H). destruct l' as [|[b y] l']; [done|]. cbn [seg]. intros ([= <-] & n' & Hn' & <- & H'). simplify_eq. f_equal. by eapply IH.
Qed.

(** ** Targets in order *)

(** Every node points to a later one of the same event; [own] is the event of a node. *)
Definition wf (own : positive → string) (t : EventTarget) : Prop :=
  (∀ a n, nodes t !! a = Some n → (a < count t)%positive ∧ ∀ b, next n = Some b → (a < b)%positive ∧ is_Some (nodes t !! b) ∧ own b = own a) ∧
  (∀ e a, listeners t !! e = Some a → is_Some (nodes t !! a) ∧ own a = e).

(** A chain: its nodes belong to the event, come in the order of their age, and are fewer than the turns of a walk. *)
Lemma chain_facts own t a l : wf own t → seg (nodes t) (Some a) l None →
  (∀ b, b ∈ l.*1 → own b = own a ∧ (a ≤ b)%positive ∧ is_Some (nodes t !! b)) ∧ NoDup l.*1 ∧ (length l + Pos.to_nat a ≤ turns t)%nat.
Proof.
  intros Hwf. revert a. induction l as [|[a' x] l IH]; intros a; cbn [seg]; [done|]. intros ([= <-] & n & Hn & Hx & H).
  destruct (proj1 Hwf a n Hn) as [Hlt Hnext]. destruct (next n) as [b|] eqn:En.
  - destruct (Hnext b eq_refl) as (Hab & _ & Hown). destruct (IH b H) as (H1 & H2 & H3). split_and!.
    + cbn. intros c [->|Hc]%elem_of_cons; [split_and!; [done|lia|by eexists]|]. destruct (H1 c Hc) as (? & ? & ?). split_and!; [congruence|lia|done].
    + cbn. apply NoDup_cons. split; [|done]. intros Hc. destruct (H1 a Hc) as (_ & ? & _). lia.
    + cbn. lia.
  - destruct l as [|[c y] l]; [|by destruct H]. unfold turns. split_and!; [|by apply NoDup_singleton|cbn; lia].
    cbn. intros c [->|Hc]%elem_of_cons; [split_and!; [done|lia|by eexists]|]. by apply not_elem_of_nil in Hc.
Qed.

Lemma chain_exists own t a : wf own t → is_Some (nodes t !! a) → ∃ l, seg (nodes t) (Some a) l None.
Proof.
  intros Hwf. remember (turns t - Pos.to_nat a)%nat as k eqn:Hk. revert a Hk. induction k as [k IH] using lt_wf_ind. intros a -> [n Hn].
  destruct (proj1 Hwf a n Hn) as [Hlt Hnext]. destruct (next n) as [b|] eqn:En.
  - destruct (Hnext b eq_refl) as (Hab & Hb & _). destruct (IH (turns t - Pos.to_nat b)%nat) with (a := b) as [l Hl]; [unfold turns; lia|done|done|].
    exists ((a, ent n) :: l). split; [done|]. exists n. by rewrite En.
  - exists [(a, ent n)]. split; [done|]. exists n. by rewrite En.
Qed.

(** The list of an event. *)
Definition shows (t : EventTarget) (e : string) (l : list (positive * entry)) : Prop := seg (nodes t) (listeners t !! e) l None.

Lemma shows_exists own t e : wf own t → ∃ l, shows t e l.
Proof.
  intros Hwf. unfold shows. destruct (listeners t !! e) as [a|] eqn:E; [|by exists []]. destruct (proj2 Hwf e a E) as [Ha _]. by apply (chain_exists own).
Qed.

Lemma shows_facts own t e l : wf own t → shows t e l → (∀ b, b ∈ l.*1 → own b = e ∧ is_Some (nodes t !! b)) ∧ NoDup l.*1 ∧ (length l < turns t)%nat.
Proof.
  intros Hwf. unfold shows. destruct (listeners t !! e) as [a|] eqn:E.
  - intros Hl. destruct (proj2 Hwf e a E) as [Ha Hown]. destruct (chain_facts own t a l Hwf Hl) as (H1 & H2 & H3).
    split_and!; [|done|lia]. intros b Hb. destruct (H1 b Hb) as (? & _ & ?). split; [congruence|done].
  - intros Hl. destruct l as [|[a x] l]; [|by destruct Hl]. split_and!; [by intros b Hb%not_elem_of_nil|constructor|cbn; unfold turns; lia].
Qed.

(** What every operation on the list of [e] leaves alone. *)
Definition others (e : string) (t t' : EventTarget) : Prop := ∀ e' l, e' ≠ e → shows t e' l → shows t' e' l.

Lemma others_nodes own e t t' : wf own t → (∀ e', e' ≠ e → listeners t' !! e' = listeners t !! e') → (∀ a, is_Some (nodes t !! a) → own a ≠ e → nodes t' !! a = nodes t !! a) → others e t t'.
Proof.
  intros Hwf Hl Hn e' l He Hs. destruct (shows_facts own t e' l Hwf Hs) as (H1 & _). unfold shows. rewrite Hl by done.
  eapply seg_frame; [|exact Hs]. intros a Ha. destruct (H1 a Ha) as [Ho Hi]. apply Hn; [done|congruence].
Qed.

(** The node before the rest of a list. *)
Definition before (l : list (positive * entry)) : option positive := fst <$> last l.

Lemma before_snoc l a x : before (l ++ [(a, x)]) = Some a.
Proof. unfold before. by rewrite last_snoc. Qed.

(** ** Taking out and adding *)

Lemma lookup_set_next a o t b : nodes (set_next a o t) !! b =
  if decide (b = a) then (λ n, mkNode (listener n) (listenerType n) (passive n) (once n) o) <$> nodes t !! b else nodes t !! b.
Proof. cbn. destruct (decide (b = a)) as [->|Hne]; [apply lookup_alter_eq|by apply lookup_alter_ne]. Qed.

(** A segment whose last node is made to point elsewhere. *)
Lemma seg_set_last t o l a x o1 o2 : a ∉ l.*1 → seg (nodes t) o (l ++ [(a, x)]) o1 → seg (nodes (set_next a o2 t)) o (l ++ [(a, x)]) o2.
Proof.
  intros Ha (m & H1 & (-> & n & Hn & Hx & _))%seg_app. apply seg_app. exists (Some a). split.
  - eapply seg_frame; [|exact H1]. intros b Hb. rewrite lookup_set_next, decide_False; [done|]. by intros ->.
  - split; [done|]. eexists. split; [rewrite lookup_set_next, decide_True by done; by rewrite Hn|]. by destruct n.
Qed.

Lemma wf_set_next own a o t : wf own t → is_Some (nodes t !! a) →
  (∀ b, o = Some b → (a < b)%positive ∧ is_Some (nodes t !! b) ∧ own b = own a) → wf own (set_next a o t).
Proof.
  intros [Hn Hl] Ha Ho. assert (∀ b, is_Some (nodes t !! b) → is_Some (nodes (set_next a o t) !! b)) as Hs.
  { intros b [y Hy]. rewrite lookup_set_next. destruct (decide (b = a)); rewrite Hy; by eexists. }
  split.
  - intros b y. rewrite lookup_set_next. destruct (decide (b = a)) as [->|Hne].
    + intros (z & Hz & ->)%fmap_Some. destruct (Hn a z Hz) as [Hlt _]. split; [done|]. cbn. intros c Hc. destruct (Ho c Hc) as (? & ? & ?). split_and!; [done|by apply Hs|done].
    + intros Hy. destruct (Hn b y Hy) as [Hlt Hx]. split; [done|]. intros c Hc. destruct (Hx c Hc) as (? & ? & ?). split_and!; [done|by apply Hs|done].
  - intros e b Hb. destruct (Hl e b Hb) as [? ?]. split; [by apply Hs|done].
Qed.

(** Taking a node out of the list it is in. *)
Lemma unlink_spec own e t l1 a x l2 n : wf own t → shows t e (l1 ++ (a, x) :: l2) → nodes t !! a = Some n →
  let t' := unlink e (before l1) n t in
  wf own t' ∧ shows t' e (l1 ++ l2) ∧ others e t t' ∧ count t' = count t ∧ nodes t' !! a = Some n.
Proof.
  intros Hwf Hs Hn t'. pose proof (shows_facts own t e _ Hwf Hs) as (Hown & Hnd & _). unfold shows in *.
  pose proof Hs as (m & H1 & (-> & n' & Hn' & Hx & H2))%seg_app. rewrite Hn in Hn'. injection Hn' as <-. subst t'.
  assert (own a = e) as Hoa by (apply Hown; rewrite fmap_app; apply elem_of_app; right; by left).
  destruct l1 as [|[p y] l1' _] using rev_ind.
  - cbn [before fmap last option_fmap option_map unlink app] in *. cbn in H1. destruct (next n) as [b|] eqn:En.
    + destruct (proj1 Hwf a n Hn) as [_ Hb]. destruct (Hb b En) as (_ & Hbs & Hbo). split_and!; [| | |done|done].
      * split; [exact (proj1 Hwf)|]. intros e' c. cbn. intros [[<- <-]|[? Hc]]%lookup_insert_Some; [split; [done|congruence]|by apply (proj2 Hwf)].
      * cbn. by rewrite lookup_insert_eq.
      * apply (others_nodes own); [done| |done]. intros e' He. cbn. by apply lookup_insert_ne.
    + split_and!; [| | |done|done].
      * split; [exact (proj1 Hwf)|]. intros e' c. cbn. intros [? Hc]%lookup_delete_Some. by apply (proj2 Hwf).
      * cbn. by rewrite lookup_delete_eq.
      * apply (others_nodes own); [done| |done]. intros e' He. cbn. by apply lookup_delete_ne.
  - rewrite before_snoc. cbn [unlink]. apply seg_app in H1 as (m & H1 & (-> & np & Hp & Hy & Hnp)).
    assert (own p = e) as Hop by (apply Hown; rewrite !fmap_app; apply elem_of_app; left; apply elem_of_app; right; by left).
    rewrite !fmap_app in Hnd. apply NoDup_app in Hnd as (Hnd1 & Hdis & Hnd2). apply NoDup_app in Hnd1 as (_ & Hd1 & _).
    assert (p ∉ l1'.*1) as Hp1 by (intros Hc; apply (Hd1 p Hc); by left).
    assert (p ∉ ((a, x) :: l2).*1) as Hp2 by (apply Hdis; apply elem_of_app; right; by left).
    split_and!; [| | |done|].
    + apply wf_set_next; [done|by eexists|]. intros b Hb. destruct (proj1 Hwf a n Hn) as [_ Ha]. destruct (Ha b Hb) as (? & ? & ?).
      destruct (proj1 Hwf p np Hp) as [_ Hpn]. destruct (Hpn a Hnp) as (? & _ & ?). split_and!; [lia|done|congruence].
    + apply seg_app. exists (next n). split.
      * eapply (seg_set_last t _ l1' p y (Some a)); [done|]. apply seg_app. exists (Some p). split; [done|]. split; [done|]. exists np. by rewrite Hnp.
      * eapply seg_frame; [|exact H2]. intros b Hb. rewrite lookup_set_next, decide_False; [done|]. intros ->. apply Hp2. by right.
    + apply (others_nodes own); [done|done|]. intros b _ Hb. rewrite lookup_set_next, decide_False; [done|]. by intros ->.
    + rewrite lookup_set_next, decide_False; [done|]. intros ->. apply Hp2. by left.
Qed.

(** A new node, that belongs to [e]. *)
Definition own_new (own : positive → string) (t : EventTarget) (e : string) (b : positive) : string := if decide (b = count t) then e else own b.

Lemma fresh_node own t a : wf own t → is_Some (nodes t !! a) → a ≠ count t.
Proof. intros Hwf [n Hn] ->. destruct (proj1 Hwf _ n Hn) as [? _]. lia. Qed.

Lemma alloc_spec own e t n : wf own t → next n = None →
  let t' := (alloc n t).2 in
  wf (own_new own t e) t' ∧ nodes t' !! count t = Some n ∧ listeners t' = listeners t ∧
  (∀ b, is_Some (nodes t !! b) → own_new own t e b = own b ∧ nodes t' !! b = nodes t !! b) ∧ (∀ e' l, shows t e' l → shows t' e' l).
Proof.
  intros Hwf Hn t'. assert (∀ b, is_Some (nodes t !! b) → own_new own t e b = own b ∧ nodes t' !! b = nodes t !! b) as Hold.
  { intros b Hb. pose proof (fresh_node own t b Hwf Hb). unfold own_new. rewrite decide_False by done. split; [done|]. cbn. by apply lookup_insert_ne. }
  split_and!; [|cbn; apply lookup_insert_eq|done|done|].
  - split.
    + intros a y. cbn. intros [[<- <-]|[Hne Hy]]%lookup_insert_Some; [split; [lia|]; intros b Hb; congruence|].
      destruct (proj1 Hwf a y Hy) as [Hlt Hx]. split; [lia|]. intros b Hb. destruct (Hx b Hb) as (? & Hbs & ?). destruct (Hold b Hbs) as [-> Eb].
      destruct (Hold a) as [-> _]; [by eexists|]. cbn in Eb. rewrite Eb. done.
    + intros e' a Ha. destruct (proj2 Hwf e' a Ha) as [Has ?]. destruct (Hold a Has) as [-> ->]. done.
  - intros e' l Hl. destruct (shows_facts own t e' l Hwf Hl) as (H1 & _). eapply seg_frame; [|exact Hl]. intros a Ha. apply Hold. by apply H1.
Qed.

(** Linking a new node after the others. *)
Definition link (e : string) (prev : option positive) (n : ListenerNode) (t : EventTarget) : EventTarget :=
  let '(a, t) := alloc n t in match prev with None => set_head e a t | Some p => set_next p (Some a) t end.

Lemma append_spec own e t l n : wf own t → shows t e l → next n = None →
  let t' := link e (before l) n t in wf (own_new own t e) t' ∧ shows t' e (l ++ [(count t, ent n)]) ∧ others e t t'.
Proof.
  intros Hwf Hl Hn t'. destruct (alloc_spec own e t n Hwf Hn) as (Hwf1 & Hnew & Hls & Hold & Hsh). subst t'. unfold link. destruct (alloc n t) as [a t1] eqn:Ea.
  assert (a = count t) as -> by (by injection Ea as <- _). cbn [snd] in *. assert (own_new own t e (count t) = e) as Hoc by (unfold own_new; by rewrite decide_True).
  assert (∀ t', others e t1 t' → others e t t') as Hoth by (intros t' Ho e' k He Hk; by apply Ho, Hsh).
  destruct l as [|[p y] l _] using rev_ind.
  - cbn [before last fmap option_fmap option_map app]. split_and!.
    + split; [exact (proj1 Hwf1)|]. intros e' c. cbn. intros [[<- <-]|[? Hc]]%lookup_insert_Some; [split; [by eexists|done]|by apply (proj2 Hwf1)].
    + unfold shows. cbn. rewrite lookup_insert_eq. split; [done|]. by exists n.
    + apply Hoth, (others_nodes (own_new own t e)); [done| |done]. intros e' He. cbn. by apply lookup_insert_ne.
  - rewrite before_snoc. destruct (shows_facts own t e _ Hwf Hl) as (H1 & Hnd & _). rewrite fmap_app in H1, Hnd. apply NoDup_app in Hnd as (_ & Hd & _).
    destruct (H1 p) as [Hop Hps]; [apply elem_of_app; right; by left|]. destruct (Hold p Hps) as [Hop' Ep]. split_and!.
    + apply wf_set_next; [done|by rewrite Ep|]. intros b [= <-]. destruct Hps as [np Hnp]. split_and!; [exact (proj1 (proj1 Hwf p np Hnp))|by eexists|congruence].
    + unfold shows. apply seg_app. exists (Some (count t)). split.
      * apply (seg_set_last t1 _ l p y None); [intros Hc; apply (Hd p Hc); by left|]. apply Hsh in Hl. exact Hl.
      * split; [done|]. exists n. rewrite lookup_set_next, decide_False by (intros E; by apply (fresh_node own t p Hwf Hps)). by rewrite Hn.
    + apply Hoth, (others_nodes (own_new own t e)); [done|done|]. intros b _ Hb. rewrite lookup_set_next, decide_False; [done|]. intros ->. congruence.
Qed.

(** ** The walks *)

Definition ematch (v : jsval) (ty : Z) (x : entry) : bool := let '(l, t, _, _) := x in bool_decide (l = v) && (t =? ty).
Definition matches (v : jsval) (ty : Z) (p : positive * entry) : bool := ematch v ty p.2.

Lemma before_cons l a x : before ((a, x) :: l) = match before l with None => Some a | b => b end.
Proof. unfold before. destruct l as [|p l]; [done|]. cbn [last]. change (last (p :: l)) with (last (p :: l)). destruct (last (p :: l)) eqn:E; [done|]. by apply last_None in E. Qed.

Lemma add_loop_spec t v ty l : ∀ n prev o, seg (nodes t) o l None → (length l < n)%nat →
  add_loop n t v ty prev o = Some (if existsb (matches v ty) l then None else Some (match before l with None => prev | b => b end)).
Proof.
  induction l as [|[a x] l IH]; intros [|n] prev o; cbn [length]; try lia; cbn [seg]; [by intros -> _|]. intros (-> & y & Hy & <- & Hl) Hn. cbn [add_loop]. rewrite Hy. cbn [mbind option_bind existsb].
  unfold matches at 1, ematch at 1. cbn [snd ent]. destruct (bool_decide (listener y = v) && (listenerType y =? ty)); [done|]. cbn [orb]. rewrite IH by (done || lia).
  destruct (existsb _ l); [done|]. rewrite before_cons. by destruct (before l).
Qed.

Lemma remove_loop_spec e t v ty l : ∀ n l1 o, seg (nodes t) o l None → (length l < n)%nat →
  (existsb (matches v ty) l = false ∧ remove_loop n e t v ty (before l1) o = Some t) ∨
  ∃ k1 a x k2 y, l = k1 ++ (a, x) :: k2 ∧ existsb (matches v ty) k1 = false ∧ matches v ty (a, x) = true ∧ nodes t !! a = Some y ∧
    remove_loop n e t v ty (before l1) o = Some (unlink e (before (l1 ++ k1)) y t).
Proof.
  induction l as [|[a x] l IH]; intros [|n] l1 o; cbn [length]; try lia; cbn [seg]; [intros -> _; by left|]. intros (-> & y & Hy & <- & Hl) Hn. cbn [remove_loop]. rewrite Hy. cbn [mbind option_bind existsb].
  destruct (bool_decide (listener y = v) && (listenerType y =? ty)) eqn:E.
  - right. exists [], a, (ent y), l, y. rewrite app_nil_r. split_and!; done.
  - destruct (IH n (l1 ++ [(a, ent y)]) (next y) Hl) as [[H1 H2]|(k1 & b & z & k2 & w & -> & H1 & H2 & H3 & H4)]; [lia|left|right].
    + rewrite before_snoc in H2. rewrite H2. split; [|done]. unfold matches at 1, ematch at 1. cbn [snd ent]. by rewrite E.
    + exists ((a, ent y) :: k1), b, z, k2, w. rewrite before_snoc in H4. rewrite H4, <- app_assoc. split_and!; try done. cbn [existsb]. unfold matches at 1, ematch at 1. cbn [snd ent]. by rewrite E.
Qed.

Lemma get_loop_spec t l : ∀ n o, seg (nodes t) o l None → (length l < n)%nat →
  get_loop n t o = Some (match list_find (λ p : positive * entry, p.2.1.1.2 = ATTRIBUTE) l with Some (_, p) => p.2.1.1.1 | None => VNull end).
Proof.
  induction l as [|[a x] l IH]; intros [|n] o; cbn [length]; try lia; cbn [seg]; [by intros -> _|]. intros (-> & y & Hy & <- & Hl) Hn. cbn [get_loop list_find]. rewrite Hy. cbn [mbind option_bind].
  destruct (Z.eqb_spec (listenerType y) ATTRIBUTE) as [E|E]; [by rewrite decide_True|]. rewrite decide_False by done. rewrite IH by (done || lia). by destruct (list_find _ l) as [[? ?]|].
Qed.

Lemma seg_head ns o l : seg ns o l None → o = fst <$> head l.
Proof. destruct l as [|[a x] l]; [done|]. by intros [-> _]. Qed.

Definition is_attribute (x : entry) : bool := x.1.1.2 =? ATTRIBUTE.
Definition kept (l : list (positive * entry)) : list (positive * entry) := filter (λ p, is_attribute p.2 = false) l.

Lemma set_loop_spec own e l : ∀ n t l1 o, wf own t → shows t e (l1 ++ l) → seg (nodes t) o l None → (length l < n)%nat →
  ∃ t', set_loop n e t (before l1) o = Some (t', before (l1 ++ kept l)) ∧ wf own t' ∧ shows t' e (l1 ++ kept l) ∧ others e t t' ∧ count t' = count t.
Proof.
  induction l as [|[a x] l IH]; intros [|n] t l1 o Hwf Hs; cbn [length]; try lia; cbn [seg].
  - intros -> _. exists t. cbn. rewrite !app_nil_r in *. by split_and!; [..|intros ? ? ?|].
  - intros (-> & y & Hy & Hx & Hl) Hn. cbn [set_loop]. rewrite Hy. cbn [mbind option_bind]. unfold kept. rewrite filter_cons. fold (kept l).
    assert (is_attribute x = (listenerType y =? ATTRIBUTE)) as Hat by (by subst x). cbn [snd]. rewrite Hat. destruct (listenerType y =? ATTRIBUTE).
    + destruct (unlink_spec own e t l1 a x l y Hwf Hs Hy) as (Hwf' & Hs' & Ho & Hc & Hy'). rewrite Hy'. cbn [mbind option_bind].
      pose proof Hs' as (m & _ & Hm)%seg_app. rewrite (seg_head _ _ _ Hl), <- (seg_head _ _ _ Hm).
      destruct (IH n (unlink e (before l1) y t) l1 m Hwf' Hs' Hm) as (t2 & E & Hwf2 & Hs2 & Ho2 & Hc2); [lia|]. exists t2. rewrite E. split_and!; [done..| |congruence].
      intros e' k He Hk. by apply Ho2, Ho.
    + rewrite Hy. cbn [mbind option_bind]. destruct (IH n t (l1 ++ [(a, x)]) (next y) Hwf) as (t2 & E & Hwf2 & Hs2 & Ho2 & Hc2); [by rewrite <- app_assoc|done|lia|].
      rewrite before_snoc, <- app_assoc in E. rewrite <- app_assoc in Hs2. exists t2. by rewrite E.
Qed.

(** ** The lists as the program sees them *)

Definition abs (t : EventTarget) (m : string → list entry) : Prop := ∀ e, ∃ l, shows t e l ∧ l.*2 = m e.
Definition ok (t : EventTarget) : Prop := ∃ own, wf own t.
Definition upd (m : string → list entry) (e : string) (es : list entry) : string → list entry := λ e', if decide (e' = e) then es else m e'.

Lemma init_ok : ok __init ∧ abs __init (λ _, []).
Proof. split; [exists (λ _, EmptyString); by split|]. intros e. by exists []. Qed.

Inductive target_op := OpAdd (e : string) (v : jsval) (o : options) | OpRemove (e : string) (v : jsval) (o : options) | OpSet (e : string) (v : jsval).

Definition do_op (op : target_op) (t : EventTarget) : option (EventTarget + unit) :=
  match op with
  | OpAdd e v o => addEventListener e v o t
  | OpRemove e v o => inl <$> removeEventListener e v o t
  | OpSet e v => inl <$> attribute_set e v t
  end.

Definition entry_of (v : jsval) (o : options) : entry :=
  (v, type_of o, match o with OObj _ p _ => p | OBool _ => false end, match o with OObj _ _ c => c | OBool _ => false end).

Fixpoint remove_first (f : entry → bool) (es : list entry) : list entry :=
  match es with [] => [] | x :: es => if f x then es else x :: remove_first f es end.

(** The operations on lists; [None] for a listener that is refused. *)
Definition spec_op (op : target_op) (m : string → list entry) : option (string → list entry) :=
  match op with
  | OpAdd e v o =>
      match v with
      | VNull => Some m
      | VOther => None
      | _ => Some (upd m e (if existsb (ematch v (type_of o)) (m e) then m e else m e ++ [entry_of v o]))
      end
  | OpRemove e v o => match v with VNull => Some m | _ => Some (upd m e (remove_first (ematch v (type_of o)) (m e))) end
  | OpSet e v => Some (upd m e (filter (λ x, is_attribute x = false) (m e) ++ if is_listener v then [(v, ATTRIBUTE, false, false)] else []))
  end.

Lemma abs_upd t t' m e l es : abs t m → others e t t' → shows t' e l → l.*2 = es → abs t' (upd m e es).
Proof.
  intros Ha Ho Hs <- e'. unfold upd. destruct (decide (e' = e)) as [->|Hne]; [by exists l|]. destruct (Ha e') as (k & Hk & Hm). exists k. split; [by apply Ho|done].
Qed.

Lemma abs_same t m e : abs t m → abs t (upd m e (m e)).
Proof. intros Ha e'. unfold upd. destruct (decide (e' = e)) as [->|]; apply Ha. Qed.

Lemma exists_entries v ty (l : list (positive * entry)) : existsb (matches v ty) l = existsb (ematch v ty) l.*2.
Proof. induction l as [|p l IH]; [done|]. cbn. by rewrite IH. Qed.

Lemma add_spec e v o t m : ok t → abs t m → is_listener v = true →
  ∃ t', addEventListener e v o t = Some (inl t') ∧ ok t' ∧ abs t' (upd m e (if existsb (ematch v (type_of o)) (m e) then m e else m e ++ [entry_of v o])).
Proof.
  intros [own Hwf] Ha Hv. destruct (Ha e) as (l & Hl & Hm). set (n := mkNode v (type_of o) (match o with OObj _ p _ => p | OBool _ => false end) (match o with OObj _ _ c => c | OBool _ => false end) None).
  destruct (append_spec own e t l n Hwf Hl eq_refl) as (Hwf' & Hs' & Ho').
  assert (addEventListener e v o t = Some (inl (if existsb (ematch v (type_of o)) (m e) then t else link e (before l) n t))) as ->.
  { unfold addEventListener. fold n. assert (∀ (x y z : option (EventTarget + unit)), match v with VNull => x | VOther => y | _ => z end = z) as -> by (by destruct v).
    unfold shows in Hl. destruct (listeners t !! e) as [a|] eqn:Eh.
    - rewrite (add_loop_spec t v (type_of o) l) by (done || by apply (shows_facts own t e l Hwf); unfold shows; rewrite Eh). cbn [mbind option_bind]. rewrite exists_entries, Hm.
      destruct (existsb _ (m e)); [done|]. destruct l as [|[b y] l _] using rev_ind; [done|]. by rewrite before_snoc.
    - destruct l as [|[b y] l]; [|by destruct Hl]. by rewrite <- Hm. }
  destruct (existsb _ (m e)).
  - exists t. split_and!; [done|by exists own|by apply abs_same].
  - eexists. split_and!; [done|by eexists|]. apply (abs_upd t _ m e (l ++ [(count t, ent n)])); [done..|]. by rewrite fmap_app, Hm.
Qed.

Lemma remove_first_app f k1 x k2 : existsb f k1 = false → f x = true → remove_first f (k1 ++ x :: k2) = k1 ++ k2.
Proof. induction k1 as [|y k1 IH]; cbn; [by intros _ ->|]. intros [-> H]%orb_false_elim Hx. by rewrite IH. Qed.

Lemma remove_first_none f l : existsb f l = false → remove_first f l = l.
Proof. induction l as [|y l IH]; cbn; [done|]. intros [-> H]%orb_false_elim. by rewrite IH. Qed.

Lemma remove_spec e v o t m : ok t → abs t m → v ≠ VNull →
  ∃ t', removeEventListener e v o t = Some t' ∧ ok t' ∧ abs t' (upd m e (remove_first (ematch v (type_of o)) (m e))).
Proof.
  intros [own Hwf] Ha Hv. destruct (Ha e) as (l & Hl & Hm). destruct (shows_facts own t e l Hwf Hl) as (_ & _ & Hlen).
  assert (removeEventListener e v o t = remove_loop (turns t) e t v (type_of o) (before []) (listeners t !! e)) as -> by (by destruct v).
  destruct (remove_loop_spec e t v (type_of o) l (turns t) [] _ Hl Hlen) as [[Hno ->]|(k1 & a & x & k2 & y & -> & Hno & Hyes & Hy & ->)].
  - exists t. split_and!; [done|by exists own|]. rewrite remove_first_none by (by rewrite <- Hm, <- exists_entries). by apply abs_same.
  - destruct (unlink_spec own e t k1 a x k2 y Hwf Hl Hy) as (Hwf' & Hs' & Ho' & _). eexists. split_and!; [done|by exists own|].
    apply (abs_upd t _ m e (k1 ++ k2)); [done..|]. rewrite <- Hm, !fmap_app. cbn. rewrite remove_first_app; [done|by rewrite <- exists_entries|done].
Qed.

Lemma kept_entries l : (kept l).*2 = filter (λ x, is_attribute x = false) l.*2.
Proof. induction l as [|p l IH]; [done|]. unfold kept in *. rewrite fmap_cons, !filter_cons. destruct (decide _); [by rewrite fmap_cons, IH|done]. Qed.

Lemma set_spec e v t m : ok t → abs t m →
  ∃ t', attribute_set e v t = Some t' ∧ ok t' ∧ abs t' (upd m e (filter (λ x, is_attribute x = false) (m e) ++ if is_listener v then [(v, ATTRIBUTE, false, false)] else [])).
Proof.
  intros [own Hwf] Ha. destruct (Ha e) as (l & Hl & Hm). destruct (shows_facts own t e l Hwf Hl) as (_ & _ & Hlen). unfold attribute_set.
  destruct (set_loop_spec own e l (turns t) t [] _ Hwf Hl Hl Hlen) as (t1 & E & Hwf1 & Hs1 & Ho1 & _). change (before []) with (@None positive) in E. cbn [app] in E, Hs1. rewrite E. cbn [mbind option_bind].
  destruct (is_listener v) eqn:Hv.
  - set (n := mkNode v ATTRIBUTE false false None). destruct (append_spec own e t1 (kept l) n Hwf1 Hs1 eq_refl) as (Hwf2 & Hs2 & Ho2).
    exists (link e (before (kept l)) n t1). split_and!; [by destruct v; try done; unfold link; destruct (before (kept l))|by eexists|].
    eapply (abs_upd t); [done| |exact Hs2|by rewrite fmap_app, kept_entries, Hm]. intros e' k He Hk. by apply Ho2, Ho1.
  - exists t1. split_and!; [done|by exists own|]. rewrite app_nil_r. eapply (abs_upd t); [done|done|exact Hs1|by rewrite kept_entries, Hm].
Qed.

(** The value of an event attribute. *)
Definition attribute_of (es : list entry) : jsval := match filter (λ x, is_attribute x = true) es with x :: _ => x.1.1.1 | [] => VNull end.

Lemma find_attribute (l : list (positive * entry)) :
  match list_find (λ p : positive * entry, p.2.1.1.2 = ATTRIBUTE) l with Some (_, p) => p.2.1.1.1 | None => VNull end = attribute_of l.*2.
Proof.
  unfold attribute_of. induction l as [|p l IH]; [done|]. cbn [list_find]. rewrite fmap_cons, filter_cons. unfold is_attribute at 1.
  destruct (decide (p.2.1.1.2 = ATTRIBUTE)) as [E|E]; [by rewrite decide_True by (by apply Z.eqb_eq)|]. rewrite decide_False by (by intros ?%Z.eqb_eq).
  rewrite <- IH. by destruct (list_find _ l) as [[? ?]|].
Qed.

Lemma attribute_get_spec e t m : ok t → abs t m → attribute_get e t = Some (attribute_of (m e)).
Proof.
  intros [own Hwf] Ha. destruct (Ha e) as (l & Hl & <-). destruct (shows_facts own t e l Hwf Hl) as (_ & _ & Hlen).
  unfold attribute_get. rewrite (get_loop_spec t l) by done. by rewrite find_attribute.
Qed.

(** No listener twice for the same phase, and one attribute at most. *)
Definition key (x : entry) : jsval * Z := if is_attribute x then (VNull, ATTRIBUTE) else (x.1.1.1, x.1.1.2).
Definition tidy (es : list entry) : Prop := NoDup (key <$> es).

Lemma key_match v ty x : ty ≠ ATTRIBUTE → key x = (v, ty) → ematch v ty x = true.
Proof.
  intros Hty. destruct x as [[[w u] p] o]. unfold key, is_attribute, ematch. cbn. destruct (u =? ATTRIBUTE); [intros [= _ E]; congruence|].
  intros [= -> ->]. by rewrite bool_decide_true, Z.eqb_refl by done.
Qed.

Lemma tidy_add v o es : tidy es → existsb (ematch v (type_of o)) es = false → tidy (es ++ [entry_of v o]).
Proof.
  intros Ht Hno. unfold tidy. rewrite fmap_app. apply NoDup_app. split_and!; [done| |apply NoDup_singleton]. assert (type_of o ≠ ATTRIBUTE) as Hty by (unfold type_of; by destruct (capture_of o)).
  intros k Hk Hin%list_elem_of_singleton. assert (key (entry_of v o) = (v, type_of o)) as Ek by (unfold key, is_attribute, entry_of; cbn; by rewrite (proj2 (Z.eqb_neq _ _))).
  rewrite Ek in Hin. subst k. apply list_elem_of_fmap in Hk as (x & Hx & Hin). assert (existsb (ematch v (type_of o)) es = true) as E; [|congruence].
  apply existsb_exists. exists x. split; [by apply list_elem_of_In|]. by apply key_match.
Qed.

Lemma sublist_keys es es' : sublist es es' → sublist (key <$> es) (key <$> es').
Proof. induction 1; [constructor|by apply sublist_skip|by apply sublist_cons]. Qed.

Lemma tidy_sublist es es' : sublist es es' → tidy es' → tidy es.
Proof. intros Hs Ht. unfold tidy in *. exact (sublist_NoDup _ _ Ht (sublist_keys _ _ Hs)). Qed.

Lemma remove_first_sublist f es : sublist (remove_first f es) es.
Proof. induction es as [|x es IH]; cbn; [done|]. destruct (f x); [by apply sublist_cons|by apply sublist_skip]. Qed.

Lemma tidy_set v es : tidy es → tidy (filter (λ x, is_attribute x = false) es ++ if is_listener v then [(v, ATTRIBUTE, false, false)] else []).
Proof.
  intros Ht. assert (tidy (filter (λ x, is_attribute x = false) es)) as Hf by (eapply tidy_sublist; [apply sublist_filter|done]).
  destruct (is_listener v); [|by rewrite app_nil_r]. unfold tidy. rewrite fmap_app. apply NoDup_app. split_and!; [done| |apply NoDup_singleton].
  intros k (x & -> & [Hx _]%list_elem_of_filter)%list_elem_of_fmap Hin%list_elem_of_singleton. unfold key in Hin. rewrite Hx in Hin. cbn in Hin.
  injection Hin as _ Hin. unfold is_attribute in Hx. by apply Z.eqb_neq in Hx.
Qed.

(** C18: The linked listener nodes of an event target implement one list per event name: adding
    appends a listener unless it is there for the same phase, removing takes out the first that
    matches, setting an event attribute replaces the old one, the lists of other events stay as they
    are, no listener is listed twice, and what is no listener is refused with a TypeError. *)
Theorem listeners_refine op t m : ok t → abs t m → (∀ e, tidy (m e)) →
  match spec_op op m with
  | Some m' => ∃ t', do_op op t = Some (inl t') ∧ ok t' ∧ abs t' m' ∧ (∀ e, tidy (m' e)) ∧ ∀ e, attribute_get e t' = Some (attribute_of (m' e))
  | None => do_op op t = Some (inr tt)
  end.
Proof.
  intros Hok Ha Ht. enough (match spec_op op m with Some m' => ∃ t', do_op op t = Some (inl t') ∧ ok t' ∧ abs t' m' ∧ (∀ e, tidy (m' e)) | None => do_op op t = Some (inr tt) end) as H.
  { destruct (spec_op op m) as [m'|]; [|done]. destruct H as (t' & H1 & H2 & H3 & H4). exists t'. split_and!; try done. intros e. by apply attribute_get_spec. }
  assert (∀ e es, tidy es → ∀ e', tidy (upd m e es e')) as Hu by (intros e es He e'; unfold upd; by destruct (decide (e' = e))).
  destruct op as [e v o|e v o|e v]; cbn [spec_op do_op].
  - assert (is_listener v = true → ∃ t', addEventListener e v o t = Some (inl t') ∧ ok t' ∧ abs t' (upd m e (if existsb (ematch v (type_of o)) (m e) then m e else m e ++ [entry_of v o])) ∧
      ∀ e', tidy (upd m e (if existsb (ematch v (type_of o)) (m e) then m e else m e ++ [entry_of v o]) e')) as Hadd.
    { intros Hv. destruct (add_spec e v o t m Hok Ha Hv) as (t' & ? & ? & ?). exists t'. split_and!; [done..|]. apply Hu. destruct (existsb _ (m e)) eqn:E; [apply Ht|by apply tidy_add]. }
    destruct v; [by exists t|by apply Hadd..|done].
  - destruct (decide (v = VNull)) as [->|Hv]; [by exists t|]. destruct (remove_spec e v o t m Hok Ha Hv) as (t' & E & ? & ?). rewrite E.
    destruct v; [done|..]; (exists t'; split_and!; [done..|]; apply Hu; eapply tidy_sublist; [apply remove_first_sublist|done]).
  - destruct (set_spec e v t m Hok Ha) as (t' & E & ? & ?). rewrite E. exists t'. split_and!; [done..|]. by apply Hu, tidy_set.
Qed.

Lemma listeners_refine_witness :
  ∃ t', do_op (OpAdd "x" (VFun 1) (OBool false)) __init = Some (inl t') ∧ ok t' ∧ abs t' (upd (λ _, []) "x" [entry_of (VFun 1) (OBool false)]) ∧
    (∀ e, tidy (upd (λ _, []) "x" [entry_of (VFun 1) (OBool false)] e)) ∧ ∀ e, attribute_get e t' = Some (attribute_of (upd (λ _, []) "x" [entry_of (VFun 1) (OBool false)] e)).
Proof. apply (listeners_refine (OpAdd "x" (VFun 1) (OBool false)) __init (λ _, [])); [apply init_ok|apply init_ok|intros e; constructor]. Defined.
