(* ===== verification/JsEventsRun.v ===== *)
(** * Event targets: dispatch

    What [dispatchEvent] does to the list it walks over: with callbacks that
    leave the list alone, and with callbacks that change it. *)

From Stdlib Require Import Sorting.Sorted.
From S2P Require Import Prelude JsEvents JsEventsProofs.

(** ** Callbacks that leave the list alone *)

(** They may do anything to the lists of other events; what they do to the event does not depend on the target. *)
Definition quiet (e : string) (call : jsval → EventTarget → Event → EventTarget * Event * bool) (react : jsval → Event → Event * bool) : Prop :=
  ∀ v t ev own, wf own t → ∃ t' own', call v t ev = (t', (react v ev).1, (react v ev).2) ∧ wf own' t' ∧ listeners t' !! e = listeners t !! e ∧
    ∀ a, is_Some (nodes t !! a) → own' a = own a ∧ (own a = e → nodes t' !! a = nodes t !! a).

(** A listener called with an event: the event, and the exception that is not caught. *)
Definition hear (react : jsval → Event → Event * bool) (x : entry) (ev : Event) : Event * bool :=
  match x.1.1.1 with
  | VFun _ => ((react x.1.1.1 ev).1, false)
  | VObj _ true => if negb (is_attribute x) then react x.1.1.1 ev else (ev, false)
  | _ => (ev, false)
  end.

(** The listeners in order, until one throws or stops the event: those that stay, the event, the exception. *)
Fixpoint run_spec (react : jsval → Event → Event * bool) (es : list entry) (ev : Event) : list entry * Event * bool :=
  match es with
  | [] => ([], ev, false)
  | x :: es =>
      let '(ev, threw) := hear react x (setPassiveListener ev (if x.1.2 then Some x.1.1.1 else None)) in
      let stay := if x.2 then [] else [x] in
      if (threw : bool) || isStopped ev then (stay ++ es, ev, threw)
      else let '(rest, ev, threw) := run_spec react es ev in (stay ++ rest, ev, threw)
  end.

Section quiet.
  Context (e : string) (call : jsval → EventTarget → Event → EventTarget * Event * bool) (react : jsval → Event → Event * bool) (Hq : quiet e call react).

Lemma call_quiet x t ev own l a y : wf own t → shows t e l → own a = e → nodes t !! a = Some y →
  ∃ t' own', call_listener call x t ev = (t', (hear react (ent x) ev).1, (hear react (ent x) ev).2) ∧ wf own' t' ∧ shows t' e l ∧ nodes t' !! a = Some y ∧ own' a = e.
Proof using Hq.
  intros Hwf Hs Ho Hy. assert (∀ ev' : Event, ∃ t' own', (t, ev', false) = (t', ev', false) ∧ wf own' t' ∧ shows t' e l ∧ nodes t' !! a = Some y ∧ own' a = e) as Hsame by (intros ev'; by exists t, own).
  assert (∃ t' own', call (listener x) t ev = (t', (react (listener x) ev).1, (react (listener x) ev).2) ∧ wf own' t' ∧ shows t' e l ∧ nodes t' !! a = Some y ∧ own' a = e) as (t' & own' & E & Hcall).
  { destruct (Hq (listener x) t ev own Hwf) as (t' & own' & E & Hwf' & Hl & Hn). exists t', own'. destruct (Hn a) as [H1 H2]; [by eexists|].
    destruct (shows_facts own t e l Hwf Hs) as (Hf & _). split_and!; [done|done| |by rewrite H2|congruence]. unfold shows. rewrite Hl.
    eapply seg_frame; [|exact Hs]. intros b Hb. destruct (Hf b Hb) as [Hbo Hbs]. by apply Hn. }
  unfold call_listener, hear, is_attribute. cbn [ent fst snd]. destruct (listener x) as [|id|id [|]|]; cbn [fst snd]; [exact (Hsame ev)| | |exact (Hsame ev)|exact (Hsame ev)].
  - rewrite E. by exists t', own'.
  - destruct (negb _); [|exact (Hsame ev)]. rewrite E. by exists t', own'.
Qed.

Lemma dispatch_loop_quiet l : ∀ n t own l1 o ev, wf own t → shows t e (l1 ++ l) → seg (nodes t) o l None → (length l < n)%nat →
  ∃ t' seen l', dispatch_loop call n e t ev (before l1) o = Some (t', (run_spec react l.*2 ev).1.2, (run_spec react l.*2 ev).2, seen) ∧
    ok t' ∧ shows t' e (l1 ++ l') ∧ l'.*2 = (run_spec react l.*2 ev).1.1.
Proof using Hq.
  induction l as [|[a x] l IH]; intros [|n] t own l1 o ev Hwf Hs; cbn [length]; try lia; cbn [seg].
  - intros -> _. exists t, [], []. split_and!; [done|by exists own|done..].
  - intros (-> & y & Hy & <- & Hl) Hn. cbn [dispatch_loop]. rewrite Hy. cbn [mbind option_bind].
    destruct (shows_facts own t e _ Hwf Hs) as (Hf & _). destruct (Hf a) as [Hoa _]; [rewrite fmap_app; apply elem_of_app; right; by left|].
    set (t1 := if once y then unlink e (before l1) y t else t). set (k := if once y then [] else [(a, ent y)]).
    assert (wf own t1 ∧ shows t1 e ((l1 ++ k) ++ l) ∧ nodes t1 !! a = Some y) as (Hwf1 & Hs1 & Hy1).
    { subst t1 k. destruct (once y); [destruct (unlink_spec own e t l1 a (ent y) l y Hwf Hs Hy) as (? & ? & _ & _ & ?); by rewrite app_nil_r|by rewrite <- app_assoc]. }
    assert ((if once y then before l1 else Some a) = before (l1 ++ k)) as -> by (subst k; destruct (once y); [by rewrite app_nil_r|by rewrite before_snoc]).
    rewrite Hy1. cbn [mbind option_bind]. rewrite fmap_cons. cbn [run_spec snd fst ent]. change (listener y, listenerType y, passive y, once y) with (ent y).
    destruct (call_quiet y t1 (setPassiveListener ev (if passive y then Some (listener y) else None)) own _ a y Hwf1 Hs1 Hoa Hy1) as (t2 & own2 & -> & Hwf2 & Hs2 & Hy2 & _).
    set (ev2 := hear react (ent y) _). destruct ev2 as [ev2 threw]. cbn [fst snd].
    assert (k.*2 = if once y then [] else [ent y]) as Ek by (subst k; by destruct (once y)).
    assert (∃ l', shows t2 e (l1 ++ l') ∧ l'.*2 = (if once y then [] else [ent y]) ++ l.*2) as Hstop by (exists (k ++ l); rewrite app_assoc, fmap_app, Ek; done).
    destruct threw; cbn [orb]; [destruct Hstop as (l' & ? & ?); exists t2, [a], l'; by split_and!; [|exists own2|..]|].
    destruct (isStopped ev2); [destruct Hstop as (l' & ? & ?); exists t2, [a], l'; by split_and!; [|exists own2|..]|].
    rewrite Hy2. cbn [mbind option_bind]. pose proof Hs2 as (m & _ & Hm)%seg_app. rewrite (seg_head _ _ _ Hl), <- (seg_head _ _ _ Hm).
    destruct (IH n t2 own2 (l1 ++ k) m ev2 Hwf2 Hs2 Hm) as (t3 & seen & l' & -> & Hok & Hs3 & Hl'); [lia|]. cbn [mbind option_bind].
    destruct (run_spec react l.*2 ev2) as [[rest ev3] th]. cbn [fst snd] in *. exists t3, (a :: seen), (k ++ l'). rewrite fmap_app, Hl', Ek, app_assoc. by split_and!.
Qed.

End quiet.

(** ** Callbacks that change the lists *)

(** They keep the target in order and add no listeners. *)
Definition tame (call : jsval → EventTarget → Event → EventTarget * Event * bool) : Prop :=
  ∀ v t ev own, wf own t → ∃ own', wf own' (call v t ev).1.1 ∧ count (call v t ev).1.1 = count t ∧
    ∀ a, is_Some (nodes t !! a) → is_Some (nodes (call v t ev).1.1 !! a) ∧ own' a = own a.

(** A node that was taken out of its list may be taken out again: with a [prev] that comes before it. *)
Definition prev_ok (own : positive → string) (t : EventTarget) (e : string) (prev : option positive) (a : positive) : Prop :=
  ∀ p, prev = Some p → is_Some (nodes t !! p) ∧ own p = e ∧ (p < a)%positive.

Lemma unlink_wf own e t prev a n : wf own t → nodes t !! a = Some n → own a = e → prev_ok own t e prev a →
  wf own (unlink e prev n t) ∧ count (unlink e prev n t) = count t ∧ (∀ b, is_Some (nodes t !! b) → is_Some (nodes (unlink e prev n t) !! b)).
Proof.
  intros Hwf Hn Ho Hp. destruct (proj1 Hwf a n Hn) as [_ Hnext]. destruct prev as [p|]; cbn [unlink].
  - destruct (Hp p eq_refl) as (Hps & Hpo & Hlt). split_and!; [|done|].
    + apply wf_set_next; [done..|]. intros b Hb. destruct (Hnext b Hb) as (? & ? & ?). split_and!; [lia|done|congruence].
    + intros b [y Hy]. rewrite lookup_set_next. destruct (decide (b = p)); rewrite Hy; by eexists.
  - destruct (next n) as [b|]; (split_and!; [|done|done]); (split; [exact (proj1 Hwf)|]); intros e' c; cbn.
    + destruct (Hnext b eq_refl) as (_ & ? & ?). intros [[<- <-]|[? Hc]]%lookup_insert_Some; [split; [done|congruence]|by apply (proj2 Hwf)].
    + intros [? Hc]%lookup_delete_Some. by apply (proj2 Hwf).
Qed.

Section tame.
  Context (call : jsval → EventTarget → Event → EventTarget * Event * bool) (Ht : tame call).

Lemma call_tame x t ev own : wf own t →
  ∃ own', wf own' (call_listener call x t ev).1.1 ∧ count (call_listener call x t ev).1.1 = count t ∧
    ∀ a, is_Some (nodes t !! a) → is_Some (nodes (call_listener call x t ev).1.1 !! a) ∧ own' a = own a.
Proof using Ht.
  intros Hwf. destruct (Ht (listener x) t ev own Hwf) as (own' & H). unfold call_listener.
  destruct (listener x) as [|id|id [|]|]; [by exists own| |destruct (negb _); [by exists own'|by exists own]|by exists own..].
  destruct (call (VFun id) t ev) as [[t' ev'] th]. by exists own'.
Qed.

(** The walk ends within the number of nodes, in order, and comes to every node once at most, from the older to the younger. *)
Lemma dispatch_loop_tame n : ∀ e t ev own prev a, wf own t → is_Some (nodes t !! a) → own a = e → prev_ok own t e prev a → (turns t - Pos.to_nat a < n)%nat →
  ∃ t' ev' threw seen, dispatch_loop call n e t ev prev (Some a) = Some (t', ev', threw, a :: seen) ∧ ok t' ∧ count t' = count t ∧
    StronglySorted Pos.lt (a :: seen).
Proof using Ht.
  induction n as [|n IH]; intros e t ev own prev a Hwf [y Hy] Ho Hp Hn; [lia|]. cbn [dispatch_loop]. rewrite Hy. cbn [mbind option_bind].
  set (t1 := if once y then unlink e prev y t else t). set (prev1 := if once y then prev else Some a).
  assert (wf own t1 ∧ count t1 = count t ∧ ∀ b, is_Some (nodes t !! b) → is_Some (nodes t1 !! b)) as (Hwf1 & Hc1 & Hk1).
  { subst t1. destruct (once y); [by eapply unlink_wf|done]. }
  destruct (Hk1 a) as [y1 Hy1]; [by eexists|]. rewrite Hy1. cbn [mbind option_bind].
  set (ev1 := setPassiveListener ev _). destruct (call_tame y1 t1 ev1 own Hwf1) as (own2 & Hwf2 & Hc2 & Hk2). destruct (call_listener call y1 t1 ev1) as [[t2 ev2] threw]. cbn [fst snd] in *.
  assert (StronglySorted Pos.lt [a]) by (repeat constructor). assert (ok t2) by (by exists own2).
  destruct threw; [exists t2, ev2, true, []; split_and!; [done..|congruence|done]|]. destruct (isStopped ev2); [exists t2, ev2, false, []; split_and!; [done..|congruence|done]|].
  destruct (Hk2 a) as [[y2 Hy2] Hoa]; [by apply Hk1; eexists|]. rewrite Hy2. cbn [mbind option_bind]. destruct (next y2) as [b|] eqn:En.
  - destruct (proj1 Hwf2 a y2 Hy2) as [Hlt Hb]. destruct (Hb b En) as (Hab & Hbs & Hbo).
    destruct (IH e t2 ev2 own2 prev1 b Hwf2 Hbs) as (t3 & ev3 & th3 & seen & -> & Hok & Hc3 & Hss); [congruence| |unfold turns in *; rewrite Hc2, Hc1; lia|].
    + intros p Hpp. assert (is_Some (nodes t !! p) ∧ own p = e ∧ (p ≤ a)%positive) as (Hps & Hpo & Hpa).
      { subst prev1. destruct (once y); [destruct (Hp p Hpp) as (? & ? & ?); split_and!; [done..|lia]|injection Hpp as <-; split_and!; [by eexists|done|lia]]. }
      destruct (Hk2 p) as [? ?]; [by apply Hk1|]. split_and!; [done|congruence|lia].
    + cbn [mbind option_bind]. exists t3, ev3, th3, (b :: seen). split_and!; [done..|congruence|]. constructor; [done|]. constructor; [done|].
      apply StronglySorted_inv in Hss as [_ Hss]. eapply Forall_impl; [exact Hss|]. intros c ?. cbn in *. lia.
  - assert (∃ k, n = Datatypes.S k) as [k ->] by (destruct n; [exfalso; destruct (proj1 Hwf a y Hy); unfold turns in *; lia|by eexists]).
    cbn [dispatch_loop mbind option_bind]. exists t2, ev2, false, []. split_and!; [done..|congruence|done].
Qed.

End tame.

Lemma sorted_nodup (l : list positive) : StronglySorted Pos.lt l → NoDup l.
Proof. induction 1 as [|a l _ IH Ha]; constructor; [|done]. intros Hin. rewrite Forall_forall in Ha. specialize (Ha a Hin). lia. Qed.

(** ** Callbacks that remove listeners *)

Definition removing (e : string) (vs : jsval → list jsval) (v : jsval) (t : EventTarget) (ev : Event) : EventTarget * Event * bool :=
  (foldl (λ t w, default t (removeEventListener e w (OBool false) t)) t (vs v), ev, false).

Lemma remove_keeps own e v o t : wf own t →
  let t' := default t (removeEventListener e v o t) in wf own t' ∧ count t' = count t ∧ ∀ b, is_Some (nodes t !! b) → is_Some (nodes t' !! b).
Proof.
  intros Hwf. destruct (shows_exists own t e Hwf) as [l Hl]. destruct (shows_facts own t e l Hwf Hl) as (_ & _ & Hlen).
  unfold removeEventListener. destruct (decide (v = VNull)) as [->|Hv]; [done|].
  assert (∀ x y : option EventTarget, match v with VNull => x | _ => y end = y) as -> by (by destruct v). change (@None positive) with (before []).
  destruct (remove_loop_spec e t v (type_of o) l (turns t) [] _ Hl Hlen) as [[_ ->]|(k1 & a & x & k2 & y & -> & _ & _ & Hy & ->)]; [done|]. cbn [from_option id app].
  destruct (unlink_spec own e t k1 a x k2 y Hwf Hl Hy) as (? & _ & _ & ? & _). split_and!; [done..|]. intros b [z Hz]. destruct (before k1) as [p|]; cbn [unlink].
  - rewrite lookup_set_next. destruct (decide (b = p)); rewrite Hz; by eexists.
  - destruct (next y); by eexists.
Qed.

Lemma removing_tame e vs : tame (removing e vs).
Proof.
  intros v t ev own Hwf. exists own. cbn. generalize (vs v) as l. intros l. revert t Hwf. induction l as [|w l IH]; intros t Hwf; [done|]. cbn [foldl].
  destruct (remove_keeps own e w (OBool false) t Hwf) as (Hwf1 & Hc1 & Hk1). destruct (IH _ Hwf1) as (H1 & H2 & H3). split_and!; [done|congruence|].
  intros a Ha. apply H3. by apply Hk1.
Qed.

(** Four listeners, the second and third to be called once. *)
Definition added (v : jsval) (o : options) (t : EventTarget) : option EventTarget :=
  match addEventListener "x" v o t with Some (inl t) => Some t | _ => None end.
Definition four : EventTarget :=
  default __init (t ← added (VFun 0) (OBool false) __init; t ← added (VFun 1) (OObj false false true) t;
                  t ← added (VFun 2) (OObj false false true) t; added (VFun 3) (OBool false) t).
Definition four_lists : string → list entry :=
  upd (upd (upd (upd (λ _, []) "x" [entry_of (VFun 0) (OBool false)]) "x" [entry_of (VFun 0) (OBool false); entry_of (VFun 1) (OObj false false true)])
    "x" [entry_of (VFun 0) (OBool false); entry_of (VFun 1) (OObj false false true); entry_of (VFun 2) (OObj false false true)])
    "x" [entry_of (VFun 0) (OBool false); entry_of (VFun 1) (OObj false false true); entry_of (VFun 2) (OObj false false true); entry_of (VFun 3) (OBool false)].

Lemma four_ok : ok four ∧ abs four four_lists.
Proof.
  destruct init_ok as [H0 A0].
  destruct (add_spec "x" (VFun 0) (OBool false) __init _ H0 A0 eq_refl) as (t1 & E1 & H1 & A1).
  destruct (add_spec "x" (VFun 1) (OObj false false true) t1 _ H1 A1 eq_refl) as (t2 & E2 & H2 & A2).
  destruct (add_spec "x" (VFun 2) (OObj false false true) t2 _ H2 A2 eq_refl) as (t3 & E3 & H3 & A3).
  destruct (add_spec "x" (VFun 3) (OBool false) t3 _ H3 A3 eq_refl) as (t4 & E4 & H4 & A4).
  assert (four = t4) as -> by (unfold four, added; rewrite E1; cbn [mbind option_bind]; rewrite E2; cbn [mbind option_bind]; rewrite E3; cbn [mbind option_bind]; by rewrite E4).
  split; [done|]. exact A4.
Qed.

(** The listeners of an event as a walk finds them. *)
Fixpoint listed (n : nat) (t : EventTarget) (o : option positive) : list jsval :=
  match n, o with
  | S n', Some a => match nodes t !! a with Some x => listener x :: listed n' t (next x) | None => [] end
  | _, _ => []
  end.

(** The second listener removes the third and the fourth. Both are called nevertheless, and the fourth is back in the list afterwards. *)
Example dispatch_revives :
  match dispatch_loop (removing "x" (λ v, if decide (v = VFun 1) then [VFun 2; VFun 3] else [])) (turns four) "x" four (new_event "x" true) None (listeners four !! "x") with
  | Some (t, _, _, seen) => listed 10 four (listeners four !! "x") = [VFun 0; VFun 1; VFun 2; VFun 3] ∧ seen = [1; 2; 3; 4]%positive ∧ listed 10 t (listeners t !! "x") = [VFun 0; VFun 3]
  | None => False
  end.
Proof. vm_compute. done. Qed.

(** ** dispatchEvent *)

(** C19: Dispatching an event, with callbacks that leave the event's list alone, calls its listeners
    in the order of the list until one of them stops the event or an object's handler throws,
    catches what functions throw, takes out exactly those of the called listeners that were to be
    called once, and returns whether the event was not canceled. *)
Theorem dispatch_in_order call react t ev m n : ok t → abs t m → quiet (eventType ev) call react → (length (m (eventType ev)) < n)%nat →
  ∃ t', ok t' ∧ (∃ l, shows t' (eventType ev) l ∧ l.*2 = (run_spec react (m (eventType ev)) (setCurrentTarget ev true)).1.1) ∧
    dispatchEvent call n t ev =
      let '(_, ev', threw) := run_spec react (m (eventType ev)) (setCurrentTarget ev true) in
      if decide (m (eventType ev) = []) then Some (t', setCurrentTarget ev true, Some true)
      else if threw then Some (t', ev', None)
      else Some (t', setEventPhase (setPassiveListener ev' None) 0, Some (negb (canceled ev'))).
Proof.
  intros [own Hwf] Ha Hq Hn. destruct (Ha (eventType ev)) as (l & Hl & Hm). unfold dispatchEvent. cbv zeta. change (eventType (setCurrentTarget ev true)) with (eventType ev). pose proof Hl as Hl'. unfold shows in Hl'.
  destruct (listeners t !! eventType ev) as [a|] eqn:Eh.
  - destruct l as [|[b x] l]; [done|]. rewrite <- Hm in *.
    destruct (dispatch_loop_quiet (eventType ev) call react Hq ((b, x) :: l) n t own [] (Some a) (setCurrentTarget ev true) Hwf Hl Hl') as (t' & seen & l' & E & Hok & Hs & Hl2); [by rewrite length_fmap in Hn|].
    change (before []) with (@None positive) in E. rewrite E. cbn [mbind option_bind]. exists t'. split_and!; [done|by exists l'|].
    destruct (run_spec react ((b, x) :: l).*2 (setCurrentTarget ev true)) as [[rest ev'] threw]. cbn [fst snd]. rewrite decide_False by done. by destruct threw.
  - destruct l as [|[b x] l]; [|by destruct Hl']. rewrite <- Hm. exists t. split_and!; [by exists own|by exists []|]. cbn. by rewrite decide_True.
Qed.

Lemma dispatch_in_order_witness :
  ∃ t', ok t' ∧ (∃ l, shows t' "x" l ∧ l.*2 = [entry_of (VFun 0) (OBool false); entry_of (VFun 3) (OBool false)]) ∧
    dispatchEvent (λ v t ev, (t, if decide (v = VFun 2) then preventDefault ev else ev, true)) 5 four (new_event "x" true) =
      Some (t', mkEvent "x" true 0 true false false None true, Some false).
Proof. destruct (dispatch_in_order (λ v t ev, (t, if decide (v = VFun 2) then preventDefault ev else ev, true))
    (λ v ev, (if decide (v = VFun 2) then preventDefault ev else ev, true)) four (new_event "x" true) four_lists 5) as (t' & H1 & (l & H2 & H3) & H4).
  - apply four_ok.
  - apply four_ok.
  - intros v t ev own Hwf. exists t, own. by split_and!.
  - vm_compute. lia.
  - exists t'. split; [exact H1|]. split; [exists l; split; [exact H2|rewrite H3; vm_compute; reflexivity]|rewrite H4; vm_compute; reflexivity].
 Defined.

(** C20: Whatever listeners the callbacks take out while an event is dispatched, also of the list
    that is being walked over, dispatching ends within one turn per listener node ever made, never
    follows a missing node, leaves all lists well linked, and gives no listener its turn twice. *)
Theorem dispatch_safe call t ev : ok t → tame call →
  ∃ t' ev' r, dispatchEvent call (turns t) t ev = Some (t', ev', r) ∧ ok t' ∧ count t' = count t ∧
    ∀ a, listeners t !! eventType ev = Some a → ∃ t1 ev1 threw seen,
      dispatch_loop call (turns t) (eventType ev) t (setCurrentTarget ev true) None (Some a) = Some (t1, ev1, threw, seen) ∧ NoDup seen.
Proof.
  intros [own Hwf] Ht. unfold dispatchEvent. cbv zeta. change (eventType (setCurrentTarget ev true)) with (eventType ev). destruct (listeners t !! eventType ev) as [a|] eqn:Eh; [|exists t, (setCurrentTarget ev true), (Some true); split_and!; [done|by exists own|done..]].
  destruct (proj2 Hwf _ a Eh) as [Ha Ho]. assert (prev_ok own t (eventType ev) None a) as Hp by (by intros ?).
  destruct (dispatch_loop_tame call Ht (turns t) (eventType ev) t (setCurrentTarget ev true) own None a Hwf Ha Ho Hp) as (t' & ev' & threw & seen & E & Hok & Hc & Hs); [unfold turns; lia|].
  assert (∀ b, Some a = Some b → ∃ t1 ev1 th s, dispatch_loop call (turns t) (eventType ev) t (setCurrentTarget ev true) None (Some b) = Some (t1, ev1, th, s) ∧ NoDup s) as Hseen.
  { intros b [= <-]. exists t', ev', threw, (a :: seen). split; [done|]. by apply sorted_nodup. }
  rewrite E. cbn [mbind option_bind]. destruct threw; do 3 eexists; split_and!; done.
Qed.

Lemma dispatch_safe_witness :
  ∃ t' ev' r, dispatchEvent (removing "x" (λ v, if decide (v = VFun 1) then [VFun 2; VFun 3] else [])) (turns four) four (new_event "x" true) = Some (t', ev', r) ∧ ok t' ∧
    count t' = count four ∧ ∀ a, listeners four !! "x" = Some a → ∃ t1 ev1 threw seen,
      dispatch_loop (removing "x" (λ v, if decide (v = VFun 1) then [VFun 2; VFun 3] else [])) (turns four) "x" four (setCurrentTarget (new_event "x" true) true) None (Some a) = Some (t1, ev1, threw, seen) ∧ NoDup seen.
Proof. apply (dispatch_safe (removing "x" (λ v, if decide (v = VFun 1) then [VFun 2; VFun 3] else [])) four (new_event "x" true)); [apply four_ok|apply removing_tame]. Defined.
