(* ===== verification/JsUrl.v ===== *)
(** * URLs: js/url.js

    [URL]: the parser, a machine with a state, a cursor and a buffer that goes
    over the input character by character, back and forth, and fills in the
    object's fields; the getters that put a URL together and the setters,
    that run the same machine from a state of their own. *)

From S2P Require Import Prelude JsPath JsEncoding.

(** [input[cursor]] is a code unit, or [undefined]: [charCodeAt] gives -1 there. *)
Definition EOF : Z := -1.

Definition COLON : Z := 58.
Definition BACKSLASH : Z := 92.
Definition QUERY : Z := 63.
Definition HASH : Z := 35.
Definition AT : Z := 64.
Definition PIPE : Z := 124.
Definition OPEN : Z := 91.
Definition CLOSE : Z := 93.

(** ** Characters *)

Definition is_upper (c : Z) : bool := inRange c 65 90.
Definition ALPHA (c : Z) : bool := is_upper c || inRange c 97 122.
Definition is_digit (c : Z) : bool := inRange c 48 57.
Definition ALPHANUMERIC (c : Z) : bool := ALPHA c || is_digit c || (c =? 43) || (c =? 45) || (c =? 46).
Definition lower (c : Z) : Z := if is_upper c then c + 32 else c.
(** a tab, a new line, a return *)
Definition is_tab (c : Z) : bool := (c =? 9) || (c =? 10) || (c =? 13).
Definition slash (c : Z) : bool := (c =? SLASH) || (c =? BACKSLASH).
(** what ends an authority, a host or a port *)
Definition ends (c : Z) : bool := (c =? EOF) || slash c || (c =? QUERY) || (c =? HASH).

Definition hex_upper (d : Z) : Z := if d <? 10 then 48 + d else 55 + d.

(** [encodeURIComponent] of one code unit: half a pair makes it throw. *)
Definition unreserved (c : Z) : bool :=
  ALPHA c || is_digit c || existsb (Z.eqb c) [45; 95; 46; 33; 126; 42; 39; 40; 41].
Definition encodeURIComponent (c : Z) : option str :=
  if unreserved c then Some [c]
  else if inRange c 0xD800 0xDFFF then None
  else
    match utf8_encoder c with
    | RNum b => Some [37; hex_upper (b / 16); hex_upper (b mod 16)]
    | RArr l => Some (flat_map (λ b, [37; hex_upper (b / 16); hex_upper (b mod 16)]) l)
    | _ => None
    end.

Definition escape_with (keep : list Z) (c : Z) : option str :=
  if (0x20 <? c) && (c <? 0x7F) && negb (existsb (Z.eqb c) keep) then Some [c] else encodeURIComponent c.
Definition percentEscape : Z → option str := escape_with [0x22; 0x23; 0x3C; 0x3E; 0x3F; 0x60].
Definition percentEscapeQuery : Z → option str := escape_with [0x22; 0x23; 0x3C; 0x3E; 0x60].

(** ** Schemes *)

Definition relative_ports : list (str * Z) :=
  [(js "ftp", 21); (js "file", 0); (js "gopher", 70); (js "http", 80); (js "https", 443); (js "ws", 80); (js "wss", 443)].
Definition default_port (scheme : str) : option Z := snd <$> (snd <$> list_find (λ p, p.1 = scheme) relative_ports).
Definition isRelativeScheme (scheme : str) : bool := match default_port scheme with Some _ => true | None => false end.
Definition FILE : str := js "file".

Definition relativePathDotMapping (s : str) : option str :=
  if bool_decide (s = js "%2e") then Some (js ".")
  else if bool_decide (s = js ".%2e") || bool_decide (s = js "%2e.") || bool_decide (s = js "%2e%2e") then Some (js "..")
  else None.

(** ** The object *)

Record url := mkUrl {
  _url : str; _scheme : str; _schemeData : str; _username : str; _password : option str; _host : str; _port : str;
  _path : list str; _query : str; _fragment : str; _isInvalid : bool; _isRelative : bool;
}.

Definition clear (u : url) : url := mkUrl (_url u) [] [] [] None [] [] [] [] [] false false.
Definition invalid (u : url) : url := mkUrl (_url u) [] [] [] None [] [] [] [] [] true false.

Definition set_scheme (v : str) (u : url) : url :=
  mkUrl (_url u) v (_schemeData u) (_username u) (_password u) (_host u) (_port u) (_path u) (_query u) (_fragment u) (_isInvalid u) (_isRelative u).
Definition set_schemeData (v : str) (u : url) : url :=
  mkUrl (_url u) (_scheme u) v (_username u) (_password u) (_host u) (_port u) (_path u) (_query u) (_fragment u) (_isInvalid u) (_isRelative u).
Definition set_user (n : str) (p : option str) (u : url) : url :=
  mkUrl (_url u) (_scheme u) (_schemeData u) n p (_host u) (_port u) (_path u) (_query u) (_fragment u) (_isInvalid u) (_isRelative u).
Definition set_host (v : str) (u : url) : url :=
  mkUrl (_url u) (_scheme u) (_schemeData u) (_username u) (_password u) v (_port u) (_path u) (_query u) (_fragment u) (_isInvalid u) (_isRelative u).
Definition set_port (v : str) (u : url) : url :=
  mkUrl (_url u) (_scheme u) (_schemeData u) (_username u) (_password u) (_host u) v (_path u) (_query u) (_fragment u) (_isInvalid u) (_isRelative u).
Definition set_path (v : list str) (u : url) : url :=
  mkUrl (_url u) (_scheme u) (_schemeData u) (_username u) (_password u) (_host u) (_port u) v (_query u) (_fragment u) (_isInvalid u) (_isRelative u).
Definition set_query (v : str) (u : url) : url :=
  mkUrl (_url u) (_scheme u) (_schemeData u) (_username u) (_password u) (_host u) (_port u) (_path u) v (_fragment u) (_isInvalid u) (_isRelative u).
Definition set_fragment (v : str) (u : url) : url :=
  mkUrl (_url u) (_scheme u) (_schemeData u) (_username u) (_password u) (_host u) (_port u) (_path u) (_query u) v (_isInvalid u) (_isRelative u).
Definition set_relative (v : bool) (u : url) : url :=
  mkUrl (_url u) (_scheme u) (_schemeData u) (_username u) (_password u) (_host u) (_port u) (_path u) (_query u) (_fragment u) (_isInvalid u) v.

(** The host, port and user of [b]. *)
Definition copy_authority (b u : url) : url := set_user (_username b) (_password b) (set_port (_port b) (set_host (_host b) u)).

(** ** The machine *)

Inductive state :=
  | SchemeStart | Scheme | SchemeData | NoScheme | RelativeOrAuthority | Relative | RelativeSlash
  | AuthorityFirstSlash | AuthoritySecondSlash | AuthorityIgnoreSlashes | Authority | FileHost
  | Host | Hostname | Port | RelativePathStart | RelativePath | Query | Fragment.

#[export] Instance state_eq_dec : EqDecision state.
Proof. solve_decision. Defined.

Record machine := mkM { st : state; cursor : Z; buffer : str; seenAt : bool; seenBracket : bool; this : url }.

(** The end of a turn: [break] and [cursor++], [continue], [break loop], an exception. *)
Inductive turn := Advance (m : machine) | Again (m : machine) | Break (u : url) | Throws (u : url).

Definition goto (s : state) (m : machine) : machine := mkM s (cursor m) (buffer m) (seenAt m) (seenBracket m) (this m).
Definition with_this (u : url) (m : machine) : machine := mkM (st m) (cursor m) (buffer m) (seenAt m) (seenBracket m) u.
Definition with_buffer (b : str) (m : machine) : machine := mkM (st m) (cursor m) b (seenAt m) (seenBracket m) (this m).
Definition with_cursor (i : Z) (m : machine) : machine := mkM (st m) i (buffer m) (seenAt m) (seenBracket m) (this m).

Section parser.
  (** [toLowerCase] of a string, and the text of a number that is not exact any more. *)
  Context (toLowerCase : str → str) (bigText : Z → str).

Definition IDNAToASCII (h : str) (u : url) : str * url := (toLowerCase h, if bool_decide (h = []) then invalid u else u).

(** [this._host = IDNAToASCII.call(this, buffer)] *)
Definition take_host (m : machine) : machine := let '(h, u) := IDNAToASCII (buffer m) (this m) in with_buffer [] (with_this (set_host h u) m).

(** [parseInt] of digits, and the text of its result *)
Definition digits_value (s : str) : Z := foldl (λ v c, 10 * v + (c - 48)) 0 s.
Fixpoint decimal_text (n : nat) (v : Z) : str :=
  match n with O => [] | S n' => if v <? 10 then [48 + v] else decimal_text n' (v / 10) ++ [48 + v mod 10] end.
Definition number_text (v : Z) : str := if v <? 2 ^ 53 then decimal_text 16 v else bigText v.

Definition take_port (m : machine) : machine :=
  if bool_decide (buffer m = []) then m
  else
    let temp := digits_value (buffer m) in
    let u := if bool_decide (default_port (_scheme (this m)) = Some temp) then this m else set_port (number_text temp) (this m) in
    with_buffer [] (with_this u m).

(** The characters before an @: the name, and the password after the first colon. *)
Fixpoint take_user (buf : str) (u : url) : url + url :=
  match buf with
  | [] => inl u
  | cp :: buf =>
      if is_tab cp then take_user buf u
      else if (cp =? COLON) && bool_decide (_password u = None) then take_user buf (set_user (_username u) (Some []) u)
      else
        match percentEscape cp with
        | None => inr u
        | Some tempC =>
            take_user buf
              (match _password u with
               | Some p => set_user (_username u) (Some (p ++ tempC)) u
               | None => set_user (_username u ++ tempC) None u
               end)
        end
  end.

(** A segment of the path ends with [c]. *)
Definition take_segment (c : Z) (m : machine) : machine :=
  let buf := default (buffer m) (relativePathDotMapping (toLowerCase (buffer m))) in
  let p := _path (this m) in
  let p :=
    if bool_decide (buf = js "..") then
      let p := removelast p in if negb (slash c) then p ++ [[]] else p
    else if bool_decide (buf = js ".") && negb (slash c) then p ++ [[]]
    else if negb (bool_decide (buf = js ".")) then
      let buf :=
        if bool_decide (_scheme (this m) = FILE) && bool_decide (p = []) && (len buf =? 2) && ALPHA (charCodeAt buf 0) && (charCodeAt buf 1 =? PIPE)
        then [charCodeAt buf 0; COLON] else buf in
      p ++ [buf]
    else p in
  with_buffer [] (with_this (set_path p (this m)) m).

(** ? and # start the query and the fragment *)
Definition to_query (m : machine) : machine := goto Query (with_this (set_query (js "?") (this m)) m).
Definition to_fragment (m : machine) : machine := goto Fragment (with_this (set_fragment (js "#") (this m)) m).

(** *** The states *)

Definition step_scheme_start (so : option state) (c : Z) (m : machine) : turn :=
  if ALPHA c then Advance (goto Scheme (with_buffer (buffer m ++ [lower c]) m))
  else
    match so with
    | None => Again (goto NoScheme (with_buffer [] m))
    | Some _ => Break (this m)
    end.

Definition step_scheme (so : option state) (base : option url) (c : Z) (m : machine) : turn :=
  if ALPHANUMERIC c then Advance (with_buffer (buffer m ++ [lower c]) m)
  else if c =? COLON then
    let u := set_scheme (buffer m) (this m) in
    match so with
    | Some _ => Break u
    | None =>
        let u := if isRelativeScheme (_scheme u) then set_relative true u else u in
        let m := with_buffer [] (with_this u m) in
        Advance (goto
          (if bool_decide (_scheme u = FILE) then Relative
           else if _isRelative u && match base with Some b => bool_decide (_scheme b = _scheme u) | None => false end then RelativeOrAuthority
           else if _isRelative u then AuthorityFirstSlash
           else SchemeData) m)
    end
  else
    match so with
    | None => Again (goto NoScheme (with_cursor 0 (with_buffer [] m)))
    | Some _ => Break (this m)
    end.

Definition step_scheme_data (c : Z) (m : machine) : turn :=
  if c =? QUERY then Advance (to_query m)
  else if c =? HASH then Advance (to_fragment m)
  else if negb (c =? EOF) && negb (is_tab c) then
    match percentEscape c with
    | Some e => Advance (with_this (set_schemeData (_schemeData (this m) ++ e) (this m)) m)
    | None => Throws (this m)
    end
  else Advance m.

Definition step_no_scheme (base : option url) (m : machine) : turn :=
  match base with
  | Some b => if isRelativeScheme (_scheme b) then Again (goto Relative m) else Advance (with_this (invalid (this m)) m)
  | None => Advance (with_this (invalid (this m)) m)
  end.

Definition step_relative_or_authority (input : str) (c : Z) (m : machine) : turn :=
  if (c =? SLASH) && (charCodeAt input (cursor m + 1) =? SLASH) then Advance (goto AuthorityIgnoreSlashes m) else Again (goto Relative m).

(** A drive letter: the path of the base is not taken. *)
Definition is_drive (input : str) (c : Z) (m : machine) : bool :=
  let nextC := charCodeAt input (cursor m + 1) in
  let nextNextC := charCodeAt input (cursor m + 2) in
  bool_decide (_scheme (this m) = FILE) && ALPHA c && ((nextC =? COLON) || (nextC =? PIPE)) && ends nextNextC.

(** A property of [base] that is undefined makes it throw. *)
Definition step_relative (base : option url) (input : str) (c : Z) (m : machine) : turn :=
  let m := with_this (set_relative true (this m)) m in
  match (if bool_decide (_scheme (this m) = FILE) then Some m
         else match base with Some b => Some (with_this (set_scheme (_scheme b) (this m)) m) | None => None end) with
  | None => Throws (this m)
  | Some m =>
      if slash c then Advance (goto RelativeSlash m)
      else if negb (c =? EOF) && negb (c =? QUERY) && negb (c =? HASH) && is_drive input c m then Again (goto RelativePath m)
      else
        match base with
        | None => Throws (this m)
        | Some b =>
            let u := set_path (_path b) (copy_authority b (this m)) in
            if c =? EOF then Break (set_query (_query b) u)
            else if c =? QUERY then Advance (to_query (with_this u m))
            else if c =? HASH then Advance (to_fragment (with_this (set_query (_query b) u) m))
            else Again (goto RelativePath (with_this (set_path (removelast (_path b)) u) m))
        end
  end.

Definition step_relative_slash (base : option url) (c : Z) (m : machine) : turn :=
  if slash c then Advance (goto (if bool_decide (_scheme (this m) = FILE) then FileHost else AuthorityIgnoreSlashes) m)
  else if bool_decide (_scheme (this m) = FILE) then Again (goto RelativePath m)
  else
    match base with
    | Some b => Again (goto RelativePath (with_this (copy_authority b (this m)) m))
    | None => Throws (this m)
    end.

Definition step_authority (c : Z) (m : machine) : turn :=
  if c =? AT then
    let buf := if seenAt m then buffer m ++ js "%40" else buffer m in
    match take_user buf (this m) with
    | inl u => Advance (mkM Authority (cursor m) [] true (seenBracket m) u)
    | inr u => Throws u
    end
  else if ends c then Again (goto Host (with_buffer [] (with_cursor (cursor m - len (buffer m)) m)))
  else Advance (with_buffer (buffer m ++ [c]) m).

Definition step_file_host (c : Z) (m : machine) : turn :=
  if ends c then
    let b := buffer m in
    if (len b =? 2) && ALPHA (charCodeAt b 0) && ((charCodeAt b 1 =? COLON) || (charCodeAt b 1 =? PIPE)) then Again (goto RelativePath m)
    else if len b =? 0 then Again (goto RelativePathStart m)
    else Again (goto RelativePathStart (take_host m))
  else if is_tab c then Advance m
  else Advance (with_buffer (buffer m ++ [c]) m).

Definition step_host (so : option state) (c : Z) (m : machine) : turn :=
  if (c =? COLON) && negb (seenBracket m) then
    let m := goto Port (take_host m) in
    if bool_decide (so = Some Hostname) then Break (this m) else Advance m
  else if ends c then
    let m := goto RelativePathStart (take_host m) in
    match so with Some _ => Break (this m) | None => Again m end
  else if negb (is_tab c) then
    let br := if c =? OPEN then true else if c =? CLOSE then false else seenBracket m in
    Advance (mkM (st m) (cursor m) (buffer m ++ [c]) (seenAt m) br (this m))
  else Advance m.

Definition step_port (so : option state) (c : Z) (m : machine) : turn :=
  if is_digit c then Advance (with_buffer (buffer m ++ [c]) m)
  else if ends c || bool_decide (so ≠ None) then
    let m := take_port m in
    match so with Some _ => Break (this m) | None => Again (goto RelativePathStart m) end
  else if is_tab c then Advance m
  else Advance (with_this (invalid (this m)) m).

Definition step_path (so : option state) (c : Z) (m : machine) : turn :=
  if (c =? EOF) || slash c || (bool_decide (so = None) && ((c =? QUERY) || (c =? HASH))) then
    let m := take_segment c m in
    Advance (if c =? QUERY then to_query m else if c =? HASH then to_fragment m else m)
  else if negb (is_tab c) then
    match percentEscape c with
    | Some e => Advance (with_buffer (buffer m ++ e) m)
    | None => Throws (this m)
    end
  else Advance m.

Definition step_query (so : option state) (c : Z) (m : machine) : turn :=
  if bool_decide (so = None) && (c =? HASH) then Advance (to_fragment m)
  else if negb (c =? EOF) && negb (is_tab c) then
    match percentEscapeQuery c with
    | Some e => Advance (with_this (set_query (_query (this m) ++ e) (this m)) m)
    | None => Throws (this m)
    end
  else Advance m.

Definition step_fragment (c : Z) (m : machine) : turn :=
  if negb (c =? EOF) && negb (is_tab c) then Advance (with_this (set_fragment (_fragment (this m) ++ [c]) (this m)) m) else Advance m.

(** *** A turn of the loop *)

Definition step (so : option state) (base : option url) (input : str) (m : machine) : turn :=
  let c := charCodeAt input (cursor m) in
  match st m with
  | SchemeStart => step_scheme_start so c m
  | Scheme => step_scheme so base c m
  | SchemeData => step_scheme_data c m
  | NoScheme => step_no_scheme base m
  | RelativeOrAuthority => step_relative_or_authority input c m
  | Relative => step_relative base input c m
  | RelativeSlash => step_relative_slash base c m
  | AuthorityFirstSlash => if c =? SLASH then Advance (goto AuthoritySecondSlash m) else Again (goto AuthorityIgnoreSlashes m)
  | AuthoritySecondSlash => if c =? SLASH then Advance (goto AuthorityIgnoreSlashes m) else Again (goto AuthorityIgnoreSlashes m)
  | AuthorityIgnoreSlashes => if slash c then Advance m else Again (goto Authority m)
  | Authority => step_authority c m
  | FileHost => step_file_host c m
  | Host | Hostname => step_host so c m
  | Port => step_port so c m
  | RelativePathStart => if slash c then Advance (goto RelativePath m) else Again (goto RelativePath m)
  | RelativePath => step_path so c m
  | Query => step_query so c m
  | Fragment => step_fragment c m
  end.

(** The test of the loop *)
Definition go_on (input : str) (m : machine) : bool := (negb (charCodeAt input (cursor m - 1) =? EOF) || (cursor m =? 0)) && negb (_isInvalid (this m)).

(** The object at the end, or the one there is when an exception leaves the loop; [None] without turns. *)
Fixpoint parse_loop (n : nat) (so : option state) (base : option url) (input : str) (m : machine) : option (url + url) :=
  match n with
  | O => None
  | S n' =>
      if go_on input m then
        match step so base input m with
        | Advance m => parse_loop n' so base input (with_cursor (cursor m + 1) m)
        | Again m => parse_loop n' so base input m
        | Break u => Some (inl u)
        | Throws u => Some (inr u)
        end
      else Some (inl (this m))
  end.

Definition turns_for (input : str) : nat := 24 * (length input + 3).

Definition parse (input : str) (so : option state) (base : option url) (u : url) : option (url + url) :=
  parse_loop (turns_for input) so base input (mkM (default SchemeStart so) 0 [] false false u).

(** ** The constructor *)

Definition is_blank (c : Z) : bool := existsb (Z.eqb c) [32; 9; 13; 10; 12].
Fixpoint strip_start (s : str) : str := match s with c :: s' => if is_blank c then strip_start s' else s | [] => [] end.
Definition strip (s : str) : str := reverse (strip_start (reverse (strip_start s))).

(** [new URL(url, base)] with a base that is a URL *)
Definition jURL (s : str) (base : option url) : option (url + url) :=
  parse (strip s) None base (mkUrl s [] [] [] None [] [] [] [] [] false false).

(** ** The getters *)

Fixpoint join_path (p : list str) : str := match p with [] => [] | [s] => s | s :: p => s ++ SLASH :: join_path p end.

Definition get_protocol (u : url) : str := _scheme u ++ [COLON].
Definition get_host (u : url) : str :=
  if _isInvalid u then [] else if bool_decide (_port u = []) then _host u else _host u ++ COLON :: _port u.
Definition get_pathname (u : url) : str := if _isInvalid u then [] else if _isRelative u then SLASH :: join_path (_path u) else _schemeData u.
Definition get_search (u : url) : str := if _isInvalid u || bool_decide (_query u = []) || bool_decide (_query u = js "?") then [] else _query u.
Definition get_hash (u : url) : str := if _isInvalid u || bool_decide (_fragment u = []) || bool_decide (_fragment u = js "#") then [] else _fragment u.
Definition get_authority (u : url) : str :=
  if bool_decide (_username u = []) && bool_decide (_password u = None) then []
  else _username u ++ match _password u with Some p => COLON :: p | None => [] end ++ [AT].
Definition get_href (u : url) : str :=
  if _isInvalid u then _url u
  else get_protocol u ++ (if _isRelative u then js "//" ++ get_authority u ++ get_host u else []) ++ get_pathname u ++ _query u ++ _fragment u.
Definition get_origin (u : url) : str :=
  if _isInvalid u || bool_decide (_scheme u = []) then []
  else if existsb (λ s, bool_decide (s = _scheme u)) [js "data"; js "file"; js "javascript"; js "mailto"] then js "null"
  else if bool_decide (get_host u = []) then []
  else _scheme u ++ js "://" ++ get_host u.

(** ** The setters *)

Definition assign_href (v : str) (u : url) : option (url + url) := parse v None None (clear u).
Definition assign_protocol (v : str) (u : url) : option (url + url) :=
  if _isInvalid u then Some (inl u) else parse (v ++ [COLON]) (Some SchemeStart) None u.
Definition assign_with (s : state) (v : str) (u : url) : option (url + url) :=
  if _isInvalid u || negb (_isRelative u) then Some (inl u) else parse v (Some s) None u.
Definition assign_host : str → url → option (url + url) := assign_with Host.
Definition assign_hostname : str → url → option (url + url) := assign_with Hostname.
Definition assign_port : str → url → option (url + url) := assign_with Port.
Definition assign_pathname (v : str) (u : url) : option (url + url) :=
  if _isInvalid u || negb (_isRelative u) then Some (inl u) else parse v (Some RelativePathStart) None (set_path [] u).
Definition assign_search (v : str) (u : url) : option (url + url) :=
  if _isInvalid u || negb (_isRelative u) then Some (inl u)
  else parse (if charCodeAt v 0 =? QUERY then tail v else v) (Some Query) None (set_query (js "?") u).
Definition assign_hash (v : str) (u : url) : option (url + url) :=
  if _isInvalid u then Some (inl u)
  else if bool_decide (v = []) then Some (inl (set_fragment [] u))
  else parse (if charCodeAt v 0 =? HASH then tail v else v) (Some Fragment) None (set_fragment (js "#") u).

End parser.
