(* ===== verification/JsUrlProofs.v ===== *)
(** * URLs: the machine ends

    The cursor goes back twice at most: to the start when there is no scheme,
    and to the start of the host when the user has been looked for. Parsing
    ends, and throws only for half a surrogate pair or for a file without a
    base. *)

From S2P Require Import Prelude JsPath JsPathProofs JsEncoding JsEncodingProofs JsUrl.

Section machine.
  Context (toLowerCase : str → str) (bigText : Z → str).

(** ** Turns *)

(** How often the cursor can still go back; the order of the states between two characters. *)
Definition phase (s : state) : Z :=
  match s with
  | SchemeStart | Scheme => 2
  | NoScheme | RelativeOrAuthority | Relative | RelativeSlash | AuthorityFirstSlash | AuthoritySecondSlash | AuthorityIgnoreSlashes | Authority => 1
  | _ => 0
  end.

Definition rank (s : state) : Z :=
  match s with
  | NoScheme | RelativeOrAuthority | AuthorityFirstSlash | AuthoritySecondSlash => 4
  | Relative | AuthorityIgnoreSlashes => 3
  | RelativeSlash | Authority => 2
  | FileHost | Host | Hostname => 3
  | Port => 2
  | RelativePathStart => 1
  | _ => 0
  end.

Definition measure (input : str) (m : machine) : Z := phase (st m) * (8 * (len input + 3)) + 8 * (len input + 1 - cursor m) + rank (st m).

(** The cursor is in the input or just behind it; what the buffer holds before the host has been read. *)
Definition placed (input : str) (m : machine) : Prop :=
  0 ≤ cursor m ≤ len input + 1 ∧ (phase (st m) ≠ 0 → len (buffer m) ≤ cursor m).

Lemma go_on_cursor input m : placed input m → go_on input m = true → cursor m ≤ len input.
Proof.
  intros [Hc _] Hg. unfold go_on in Hg. apply andb_prop in Hg as [Hg _]. apply orb_prop in Hg as [Hg|Hg%Z.eqb_eq]; [|pose proof (len_nonneg input); lia].
  apply negb_true_iff, Z.eqb_neq in Hg. destruct (Z_le_gt_dec (cursor m) (len input)); [done|]. rewrite code_beyond in Hg by lia. done.
Qed.

(** One turn makes the measure smaller. *)
Definition turn_ok (input : str) (m : machine) (t : turn) : Prop :=
  match t with
  | Advance m' => placed input (with_cursor (cursor m' + 1) m') ∧ measure input (with_cursor (cursor m' + 1) m') < measure input m
  | Again m' => placed input m' ∧ measure input m' < measure input m
  | _ => True
  end.

Lemma take_host_same m : st (take_host toLowerCase m) = st m ∧ cursor (take_host toLowerCase m) = cursor m ∧ buffer (take_host toLowerCase m) = [].
Proof. done. Qed.

Lemma take_port_same m : st (take_port bigText m) = st m ∧ cursor (take_port bigText m) = cursor m.
Proof. unfold take_port. by case_bool_decide. Qed.

Lemma step_measure so base input m : placed input m → go_on input m = true → turn_ok input m (step toLowerCase bigText so base input m).
Proof.
  intros Hp Hg. pose proof (go_on_cursor _ _ Hp Hg) as Hc. destruct Hp as [H0 Hb]. pose proof (len_nonneg input) as Hl. destruct m as [s i buf sa sb u]. pose proof (len_nonneg buf).
  unfold step. cbn [st cursor]. set (c := charCodeAt input i).
  destruct s; cbn [st phase rank] in *; cbn in H0, Hc; try specialize (Hb ltac:(done)); cbn in Hb.
  all: unfold step_scheme_start, step_scheme, step_scheme_data, step_no_scheme, step_relative_or_authority, step_relative, step_relative_slash, step_authority,
    step_file_host, step_host, step_port, step_path, step_query, step_fragment.
  all: try (destruct (take_port_same (mkM Port i buf sa sb u)) as [Hts Htc]; destruct (take_port bigText (mkM Port i buf sa sb u)) as [s' i' b' x y z]; cbn in Hts, Htc; subst s' i').
  all: repeat case_match; try exact I; unfold turn_ok, placed, measure; cbn; autorewrite with len; try (change (len [?x]) with 1); try lia.
  all: simplify_eq; cbn in *; autorewrite with len in *; try lia.
Qed.

Lemma measure_nonneg input m : placed input m → 0 ≤ measure input m.
Proof. intros [Hc _]. unfold measure. pose proof (len_nonneg input). destruct (st m); cbn; lia. Qed.

(** Enough turns give a result, and a property that every turn keeps holds of it. *)
Lemma loop_ends so base input n : ∀ m, placed input m → measure input m < Z.of_nat n → ∃ r, parse_loop toLowerCase bigText n so base input m = Some r.
Proof.
  induction n as [|n IH]; intros m Hp Hm; [pose proof (measure_nonneg _ _ Hp); lia|]. cbn [parse_loop]. destruct (go_on input m) eqn:Hg; [|by eexists].
  pose proof (step_measure so base input m Hp Hg) as Hs. destruct (step toLowerCase bigText so base input m) as [m'|m'|u|u]; [..|by eexists|by eexists]; destruct Hs as [H1 H2]; (apply IH; [done|lia]).
Qed.

Lemma loop_more so base input n : ∀ m r k, parse_loop toLowerCase bigText n so base input m = Some r → (n ≤ k)%nat → parse_loop toLowerCase bigText k so base input m = Some r.
Proof.
  induction n as [|n IH]; intros m r [|k] Hr Hk; [done|done|lia|]. cbn [parse_loop] in *. destruct (go_on input m); [|done].
  destruct (step toLowerCase bigText so base input m); [..|done|done]; (apply IH; [done|lia]).
Qed.

Lemma start_placed so input u : placed input (mkM (default SchemeStart so) 0 [] false false u).
Proof. pose proof (len_nonneg input). split; cbn; [lia|done]. Qed.

Lemma parse_ends input so base u : ∃ r, parse toLowerCase bigText input so base u = Some r.
Proof.
  unfold parse. apply loop_ends; [apply start_placed|]. unfold measure, turns_for, len. cbn [st cursor]. destruct so as [[]|]; cbn [default from_option id phase rank]; lia.
Qed.

Lemma loop_invariant (I : machine → Prop) (P Q : url → Prop) so base input :
  (∀ m, I m → go_on input m = false → P (this m)) →
  (∀ m, I m → go_on input m = true →
    match step toLowerCase bigText so base input m with
    | Advance m' => I (with_cursor (cursor m' + 1) m') | Again m' => I m' | Break u => P u | Throws u => Q u
    end) →
  ∀ n m r, I m → parse_loop toLowerCase bigText n so base input m = Some r → match r with inl u => P u | inr u => Q u end.
Proof.
  intros Hend Hstep. induction n as [|n IH]; intros m r Hm; [done|]. cbn [parse_loop]. destruct (go_on input m) eqn:Hg; [|intros [= <-]; by apply Hend].
  specialize (Hstep m Hm Hg). destruct (step toLowerCase bigText so base input m); [by apply IH|by apply IH|by intros [= <-]|by intros [= <-]].
Qed.

(** ** Exceptions *)

(** A code unit that is no half of a pair. *)
Definition whole (c : Z) : Prop := 0 ≤ c < 0xD800 ∨ 0xE000 ≤ c < 0x10000.

Lemma escape_whole keep c : whole c → is_Some (escape_with keep c).
Proof.
  intros Hc. unfold escape_with. destruct (_ && _ && _); [by eexists|]. unfold encodeURIComponent. destruct (unreserved c); [by eexists|].
  rewrite inRange_false by (unfold whole in Hc; lia). unfold utf8_encoder, end_of_stream. rewrite (proj2 (Z.eqb_neq _ _)) by (unfold whole in Hc; lia).
  destruct (isASCIICodePoint c); [eauto|]. destruct (inRange c 0x80 0x7FF); [eauto|]. destruct (inRange c 0x800 0xFFFF); [eauto|]. destruct (inRange c 0x10000 0x10FFFF); eauto.
Qed.

Lemma take_user_whole buf : ∀ u, Forall whole buf → ∃ u', take_user buf u = inl u' ∧ _scheme u' = _scheme u.
Proof.
  induction buf as [|c buf IH]; intros u; [by exists u|]. intros [Hc Hb]%Forall_cons. cbn [take_user]. destruct (is_tab c); [by apply IH|].
  destruct (_ && _); [exact (IH (set_user (_username u) (Some []) u) Hb)|]. destruct (escape_whole [0x22; 0x23; 0x3C; 0x3E; 0x3F; 0x60] c Hc) as [e He]. unfold percentEscape. rewrite He.
  destruct (_password u) as [p|]; [exact (IH (set_user (_username u) (Some (p ++ e)) u) Hb)|exact (IH (set_user (_username u ++ e) None u) Hb)].
Qed.

Lemma code_whole input i : Forall whole input → charCodeAt input i = EOF ∨ whole (charCodeAt input i).
Proof.
  intros Hi. unfold charCodeAt. destruct (i <? 0); [by left|]. destruct (nth_in_or_default (Z.to_nat i) input (-1)) as [H| ->]; [|by left].
  right. rewrite Forall_forall in Hi. apply Hi. by apply list_elem_of_In.
Qed.

(** Without a base, only a [file] can be in the states that read the base; a setter is never in them. *)
Definition base_free (base : option url) (m : machine) : Prop :=
  match base with
  | Some _ => True
  | None => match st m with Relative | RelativeSlash => _scheme (this m) = FILE | RelativeOrAuthority => False | _ => True end
  end.
Definition guarded (so : option state) (base : option url) (m : machine) : Prop :=
  (phase (st m) ≠ 0 → Forall whole (buffer m)) ∧ (phase (st m) = 1 → so = None) ∧ base_free base m.

Lemma lower_whole c : whole c → whole (lower c).
Proof. unfold whole, lower, is_upper. destruct (inRange_spec c 65 90); lia. Qed.

Lemma snoc_whole s c : Forall whole s → whole c → Forall whole (s ++ [c]).
Proof. intros. apply Forall_app. split; [done|]. by apply Forall_singleton. Qed.

Definition turn_guarded (so : option state) (base : option url) (t : turn) : Prop :=
  match t with
  | Advance m' => guarded so base (with_cursor (cursor m' + 1) m')
  | Again m' => guarded so base m'
  | Break _ => True
  | Throws u => so = None ∧ base = None ∧ _scheme u = FILE
  end.

Lemma letter_whole c : ALPHANUMERIC c = true → whole c.
Proof.
  unfold ALPHANUMERIC, ALPHA, is_upper, is_digit, whole. destruct (inRange_spec c 65 90), (inRange_spec c 97 122), (inRange_spec c 48 57); cbn; rewrite ?orb_true_iff, ?Z.eqb_eq; lia.
Qed.

Lemma alpha_whole c : ALPHA c = true → whole c.
Proof. intros H. apply letter_whole. unfold ALPHANUMERIC. by rewrite H. Qed.

(** A state after the host has been found reads no base any more. *)
Lemma late_guarded so base m : phase (st m) = 0 → guarded so base m.
Proof. intros H. split_and!; [by rewrite H|by rewrite H|]. unfold base_free. destruct base; [done|]. by destruct (st m). Qed.

Lemma early_guarded so base m : Forall whole (buffer m) → (phase (st m) = 1 → so = None) → base_free base m → guarded so base m.
Proof. by intros. Qed.

Lemma step_guarded so base input m : Forall whole input → guarded so base m → turn_guarded so base (step toLowerCase bigText so base input m).
Proof.
  intros Hi (Hb & Hso & Hf). unfold step. pose proof (code_whole input (cursor m) Hi) as Hc. set (c := charCodeAt input (cursor m)) in *. clearbody c.
  assert (∀ keep, c ≠ EOF → is_Some (escape_with keep c)) as Hesc by (intros keep Hne; apply escape_whole; by destruct Hc).
  assert (∀ keep, negb (c =? EOF) && negb (is_tab c) = true → escape_with keep c = None → False) as Hno.
  { intros keep [H _]%andb_prop He. apply negb_true_iff, Z.eqb_neq in H. destruct (Hesc keep H). congruence. }
  destruct m as [s i buf sa sb u]. unfold base_free in Hf. cbn [st cursor buffer this seenAt seenBracket] in *.
  destruct s; cbn [phase] in *; try specialize (Hb ltac:(done)); try specialize (Hso eq_refl).
  - unfold step_scheme_start. destruct (ALPHA c) eqn:E; [|destruct so; [done|]; by apply early_guarded; [constructor|..]; destruct base].
    apply early_guarded; [by apply snoc_whole, lower_whole, alpha_whole|done|by destruct base].
  - unfold step_scheme. destruct (ALPHANUMERIC c) eqn:E; [apply early_guarded; [by apply snoc_whole, lower_whole, letter_whole|done|by destruct base]|].
    destruct so; [by destruct (c =? COLON)|]. destruct (c =? COLON); [|apply early_guarded; [constructor|done|by destruct base]].
    apply early_guarded; [constructor|done|]. destruct base; [done|]. unfold base_free. cbn. case_bool_decide as Ef; [by destruct (isRelativeScheme buf)|]. rewrite andb_false_r. by destruct (_isRelative _).
  - unfold step_scheme_data. destruct (c =? QUERY); [by apply late_guarded|]. destruct (c =? HASH); [by apply late_guarded|]. destruct (negb _ && _) eqn:E; [|by apply late_guarded].
    destruct (percentEscape c) eqn:Ee; [by apply late_guarded|]. by destruct (Hno _ eq_refl Ee).
  - unfold step_no_scheme. destruct base as [b|]; [destruct (isRelativeScheme (_scheme b))|]; by apply early_guarded.
  - unfold step_relative_or_authority. destruct base; [|done]. case_match; by apply early_guarded.
  - unfold step_relative. cbn [this with_this]. destruct base as [b|].
    + set (m1 := if bool_decide _ then _ else _). assert (∃ v, m1 = Some (mkM Relative i buf sa sb v)) as [v ->] by (subst m1; case_bool_decide; by eexists).
      repeat case_match; try done; first [by apply late_guarded|by apply early_guarded].
    + rewrite bool_decide_true by done. repeat case_match; try done; first [by apply late_guarded|by apply early_guarded].
  - unfold step_relative_slash. cbn [this]. destruct base as [b|]; repeat case_match; try done; try case_bool_decide; first [by apply late_guarded|by apply early_guarded].
  - destruct (c =? SLASH); apply early_guarded; by destruct base.
  - destruct (c =? SLASH); apply early_guarded; by destruct base.
  - destruct (slash c); apply early_guarded; by destruct base.
  - unfold step_authority. cbv zeta. cbn [buffer seenAt this]. destruct (c =? AT).
    + destruct (take_user_whole (if sa then buf ++ js "%40" else buf) u) as (u' & -> & _); [|apply early_guarded; [constructor|done|by destruct base]].
      destruct sa; [|done]. apply Forall_app. split; [done|]. repeat constructor; unfold whole; cbn; lia.
    + destruct (ends c) eqn:Ee; [by apply late_guarded|]. apply early_guarded; [|done|by destruct base]. apply snoc_whole; [done|].
      destruct Hc as [->|]; [done|done].
  - unfold step_file_host. repeat case_match; by apply late_guarded.
  - unfold step_host. repeat case_match; try done; by apply late_guarded.
  - unfold step_host. repeat case_match; try done; by apply late_guarded.
  - unfold step_port. destruct (take_port_same (mkM Port i buf sa sb u)) as [Hts _]. repeat case_match; try done; apply late_guarded; try done; cbn in *; by rewrite ?Hts.
  - repeat case_match; by apply late_guarded.
  - unfold step_path. match goal with |- turn_guarded _ _ (if ?b then _ else _) => destruct b eqn:E1 end; [destruct (c =? QUERY); [|destruct (c =? HASH)]; by apply late_guarded|]. destruct (negb (is_tab c)); [|by apply late_guarded].
    destruct (Hesc [0x22; 0x23; 0x3C; 0x3E; 0x3F; 0x60]) as [e He]; [intros ->; by rewrite Z.eqb_refl in E1|]. unfold percentEscape. rewrite He. by apply late_guarded.
  - unfold step_query. destruct (bool_decide (so = None) && (c =? HASH)); [by apply late_guarded|]. destruct (negb (c =? EOF) && negb (is_tab c)) eqn:E; [|by apply late_guarded].
    destruct (percentEscapeQuery c) eqn:Ee; [by apply late_guarded|]. by destruct (Hno _ eq_refl Ee).
  - unfold step_fragment. destruct (negb (c =? EOF) && negb (is_tab c)); by apply late_guarded.
Qed.

Lemma parse_guarded input so base u r : phase (default SchemeStart so) ≠ 1 ∨ so = None → Forall whole input → parse toLowerCase bigText input so base u = Some r →
  match r with inl _ => True | inr u' => so = None ∧ base = None ∧ _scheme u' = FILE end.
Proof.
  intros Hso Hi Hr. refine (loop_invariant (guarded so base) (λ _, True) (λ u', so = None ∧ base = None ∧ _scheme u' = FILE) so base input _ _ _ _ r _ Hr).
  - done.
  - intros m Hm _. exact (step_guarded so base input m Hi Hm).
  - split_and!; [constructor|cbn; by destruct Hso|]. unfold base_free. cbn. destruct base; [done|]. destruct so as [[]|]; cbn in *; try done; by destruct Hso.
Qed.

End machine.

(** C29: Reading a URL ends, from the constructor and from every state a setter starts in, although
    the cursor goes back, within 24 turns per character and 72 more; and if the text has no half of
    a surrogate pair, an exception leaves it only where a file is read without a base. *)
Theorem url_parse_ends toLowerCase bigText input so base u : phase (default SchemeStart so) ≠ 1 ∨ so = None →
  ∃ r, parse toLowerCase bigText input so base u = Some r ∧
    (Forall whole input → match r with inl _ => True | inr u' => so = None ∧ base = None ∧ _scheme u' = FILE end).
Proof.
  intros Hso. destruct (parse_ends toLowerCase bigText input so base u) as [r Hr]. exists r. split; [done|]. intros Hi. by eapply parse_guarded.
Qed.

Lemma url_parse_ends_witness :
  ∃ r, parse (map lower) (λ _, []) (js "a@:b/c") (Some Hostname) None (mkUrl [] (js "http") [] [] None (js "h") [] [[]] [] [] false true) = Some r ∧
    (Forall whole (js "a@:b/c") → match r with inl _ => True | inr u' => Some Hostname = None ∧ None = @None url ∧ _scheme u' = FILE end).
Proof. apply (url_parse_ends (map lower) (λ _, []) (js "a@:b/c") (Some Hostname) None). left. discriminate. Defined.

(** ** Where the code differs from what it means to do *)

Definition read_url (s : str) (base : option url) : option (url + url) := jURL (map lower) (λ _, []) s base.

(** A second @ is written behind what follows the first instead of before it. *)
Lemma second_at : (λ r, match r with inl u => _username u | inr _ => [] end) <$> read_url (js "http://a@b@h/") None = Some (js "ab%40").
Proof. vm_compute. reflexivity. Qed.

(** A file relative to no base throws. *)
Lemma file_without_base : (λ r, match r with inl _ => false | inr _ => true end) <$> read_url (js "file:x") None = Some true.
Proof. vm_compute. reflexivity. Qed.

(** A character beyond the basic plane throws in a path. *)
Lemma pair_throws : (λ r, match r with inl _ => false | inr _ => true end) <$> read_url (js "http://h/" ++ [0xD83D; 0xDE00]) None = Some true.
Proof. vm_compute. reflexivity. Qed.

(** Setting href to what cannot be read leaves the text the object was made from. *)
Lemma href_keeps_text u : (λ r, match r with inl u' => get_href u' | inr _ => [] end) <$> assign_href (map lower) (λ _, []) (js "x") u = Some (_url u).
Proof. destruct u. vm_compute. reflexivity. Qed.
