(* ===== verification/JsUrlTrip.v ===== *)
(** * URLs: reading a URL again

    The text of a URL ([href]), parsed again, gives the same URL, whatever the
    base: every part is read back in the state of the machine that wrote it. *)

From S2P Require Import Prelude JsPath JsPathProofs JsEncoding JsEncodingProofs JsUrl JsUrlProofs.

(** ** The parts of a clean URL *)

(** Characters that are not escaped. *)
Definition kept_by (keep : list Z) (c : Z) : bool := (0x20 <? c) && (c <? 0x7F) && negb (existsb (Z.eqb c) keep).
Definition path_char : Z → bool := kept_by [0x22; 0x23; 0x3C; 0x3E; 0x3F; 0x60].
Definition query_char : Z → bool := kept_by [0x22; 0x23; 0x3C; 0x3E; 0x60].

Lemma kept_escape keep c : kept_by keep c = true → escape_with keep c = Some [c].
Proof. unfold kept_by, escape_with. by intros ->. Qed.

Lemma kept_range keep c : kept_by keep c = true → 0x20 < c < 0x7F.
Proof. unfold kept_by. rewrite !andb_true_iff, !Z.ltb_lt. tauto. Qed.

Lemma kept_not keep c x : kept_by keep c = true → existsb (Z.eqb x) keep = true → c ≠ x.
Proof. unfold kept_by. rewrite !andb_true_iff, negb_true_iff. intros [_ H] E ->. congruence. Qed.

Lemma range_tab c : 0x20 < c → is_tab c = false.
Proof. intros H. unfold is_tab. rewrite !(proj2 (Z.eqb_neq c _)) by lia. done. Qed.

Definition scheme_text (s : str) : Prop := ∃ c t, s = c :: t ∧ ALPHA c = true ∧ lower c = c ∧ Forall (λ c, ALPHANUMERIC c = true ∧ lower c = c) t.
Definition user_text (s : str) : Prop := Forall (λ c, path_char c = true ∧ c ≠ AT ∧ slash c = false ∧ c ≠ COLON) s.
Definition pass_text (s : str) : Prop := Forall (λ c, path_char c = true ∧ c ≠ AT ∧ slash c = false) s.

(** Colons stand between brackets; whether a bracket is open at the end. *)
Fixpoint brackets (b : bool) (s : str) : option bool :=
  match s with
  | [] => Some b
  | c :: s => if (c =? COLON) && negb b then None else brackets (if c =? OPEN then true else if c =? CLOSE then false else b) s
  end.

Definition host_char (c : Z) : Prop := 0 ≤ c ∧ ends c = false ∧ is_tab c = false.
Definition drive_text (b : str) : bool := (len b =? 2) && ALPHA (charCodeAt b 0) && ((charCodeAt b 1 =? COLON) || (charCodeAt b 1 =? PIPE)).

Definition query_text (q : str) : Prop := q = [] ∨ ∃ t, q = QUERY :: t ∧ Forall (λ c, query_char c = true) t.
Definition sealed (s : str) : Prop := ∀ c, last s = Some c → is_blank c = false.
Definition fragment_text (f : str) : Prop := f = [] ∨ ∃ t, f = HASH :: t ∧ Forall (λ c, 0 ≤ c ∧ is_tab c = false) t ∧ sealed f.
Definition port_text (scheme p : str) : Prop := p = [] ∨ ∃ v, 0 ≤ v < 2 ^ 53 ∧ p = decimal_text 16 v ∧ default_port scheme ≠ Some v.

Section clean.
  Context (toLowerCase : str → str) (port_ok : str → str → Prop).

Definition segment_text (s : str) : Prop :=
  Forall (λ c, path_char c = true ∧ slash c = false) s ∧ relativePathDotMapping (toLowerCase s) = None ∧ s ≠ js "." ∧ s ≠ js "..".

(** The first segment of a file's path is no letter with a bar. *)
Definition no_bar (p : list str) : Prop := ∀ c p', p = [c; PIPE] :: p' → ALPHA c = false.

Definition host_text (h : str) : Prop := h ≠ [] ∧ toLowerCase h = h ∧ Forall (λ c, host_char c ∧ c ≠ AT) h ∧ is_Some (brackets false h).
Definition file_host_text (h : str) : Prop := h = [] ∨ (toLowerCase h = h ∧ Forall host_char h ∧ drive_text h = false).

Definition relative_clean (u : url) : Prop :=
  isRelativeScheme (_scheme u) = true ∧ _schemeData u = [] ∧ _path u ≠ [] ∧ Forall segment_text (_path u) ∧
  if bool_decide (_scheme u = FILE) then _username u = [] ∧ _password u = None ∧ _port u = [] ∧ file_host_text (_host u) ∧ no_bar (_path u)
  else user_text (_username u) ∧ pass_text (default [] (_password u)) ∧ host_text (_host u) ∧ port_ok (_scheme u) (_port u) ∧ (_port u ≠ [] → brackets false (_host u) = Some false).

Definition other_clean (u : url) : Prop :=
  scheme_text (_scheme u) ∧ isRelativeScheme (_scheme u) = false ∧ Forall (λ c, path_char c = true) (_schemeData u) ∧
  _username u = [] ∧ _password u = None ∧ _host u = [] ∧ _port u = [] ∧ _path u = [].

Definition clean_with (u : url) : Prop :=
  _isInvalid u = false ∧ query_text (_query u) ∧ fragment_text (_fragment u) ∧ if _isRelative u then relative_clean u else other_clean u.

End clean.

Definition clean (toLowerCase : str → str) : url → Prop := clean_with toLowerCase port_text.

Lemma relative_scheme_text s : isRelativeScheme s = true → scheme_text s.
Proof.
  unfold isRelativeScheme, default_port. destruct (list_find _ relative_ports) as [[i p]|] eqn:E; [|done]. intros _. apply list_find_Some in E as (Hl & <- & _).
  apply list_elem_of_lookup_2 in Hl. unfold relative_ports in Hl.
  repeat (apply elem_of_cons in Hl as [->|Hl]; [do 2 eexists; split; [reflexivity|]; split_and!; [done|done|]; repeat (apply Forall_cons; split; [by vm_compute|]); apply Forall_nil_2|]).
  by apply not_elem_of_nil in Hl.
Qed.

(** ** Brackets and numbers *)

Definition open_after (b : bool) (s : str) : bool := foldl (λ b c, if c =? OPEN then true else if c =? CLOSE then false else b) b s.

Lemma open_snoc b s c : open_after b (s ++ [c]) = (if c =? OPEN then true else if c =? CLOSE then false else open_after b s).
Proof. unfold open_after. by rewrite foldl_app. Qed.

Lemma brackets_after b s b' : brackets b s = Some b' → open_after b s = b'.
Proof. revert b. induction s as [|c s IH]; intros b; cbn; [by intros [= ->]|]. by case_match; [|apply IH]. Qed.

Lemma brackets_colon b d c t : is_Some (brackets b (d ++ c :: t)) → (c =? COLON) && negb (open_after b d) = false.
Proof. revert b. induction d as [|x d IH]; intros b; cbn; case_match; try by intros [? ?]. by apply IH. Qed.

Lemma digits_snoc s c : digits_value (s ++ [c]) = 10 * digits_value s + (c - 48).
Proof. unfold digits_value. by rewrite foldl_app. Qed.

Lemma decimal_digits n v : 0 ≤ v → v < 10 ^ Z.of_nat n → Forall (λ c, is_digit c = true) (decimal_text n v) ∧ digits_value (decimal_text n v) = v ∧ (decimal_text n v ≠ [] ∨ n = 0%nat).
Proof.
  revert v. induction n as [|n IH]; intros v H0 Hv; [cbn in *; split_and!; [done|lia|by right]|]. cbn [decimal_text]. destruct (Z.ltb_spec v 10).
  - split_and!; [apply Forall_singleton, inRange_true; lia|unfold digits_value; cbn; lia|by left].
  - rewrite Nat2Z.inj_succ, Z.pow_succ_r in Hv by lia. destruct (IH (v / 10)) as (H1 & H2 & _); [apply Z.div_pos; lia|apply Z.div_lt_upper_bound; lia|].
    pose proof (Z.mod_pos_bound v 10). split_and!; [apply Forall_app; split; [done|apply Forall_singleton, inRange_true; lia]|rewrite digits_snoc, H2; pose proof (Z.div_mod v 10); lia|left; by destruct (decimal_text n (v / 10))].
Qed.

(** ** Reading *)

Section reading.
  Context (toLowerCase : str → str) (bigText : Z → str) (base : option url) (W : str) (HW : Forall (λ c, 0 ≤ c) W).

Definition yields (m : machine) (u : url) : Prop := ∃ n, parse_loop toLowerCase bigText n None base W m = Some (inl u).

(** At [i], the rest of the text is [R]. *)
Definition view (i : Z) (R : str) : Prop := ∃ P, W = P ++ R ∧ i = len P.

Lemma view_code i c R : view i (c :: R) → charCodeAt W i = c.
Proof. intros (P & HP & ->). rewrite HP. apply code_at. Qed.
Lemma view_end i : view i [] → charCodeAt W i = EOF.
Proof. intros (P & HP & ->). rewrite HP, app_nil_r. by apply code_beyond. Qed.
Lemma view_app i X R : view i (X ++ R) → view (i + len X) R.
Proof. intros (P & HP & ->). exists (P ++ X). by rewrite HP, app_assoc, len_app. Qed.
Lemma view_next i c R : view i (c :: R) → view (i + 1) R.
Proof. exact (view_app i [c] R). Qed.

Lemma view_go i R m : view i R → cursor m = i → _isInvalid (this m) = false → go_on W m = true.
Proof using HW.
  intros (P & HP & ->) Hc Hv. unfold go_on. rewrite Hc, Hv, andb_true_r. destruct P as [|x P _] using rev_ind; [done|]. apply orb_true_iff. left.
  apply negb_true_iff, Z.eqb_neq. rewrite len_app. change (len [x]) with 1. replace (len P + 1 - 1) with (len P) by lia.
  assert (charCodeAt W (len P) = x) as -> by (rewrite HP, <- app_assoc; apply code_at). pose proof HW as HW'. rewrite HP in HW'. apply Forall_app in HW' as [HW' _]. apply Forall_app in HW' as [_ Hx]. apply Forall_inv in Hx. unfold EOF. lia.
Qed.

Lemma yields_advance i R m m' u : view i R → cursor m = i → _isInvalid (this m) = false → step toLowerCase bigText None base W m = Advance m' →
  yields (with_cursor (cursor m' + 1) m') u → yields m u.
Proof using HW. intros Hv Hc Hi Hs [n Hn]. exists (S n). cbn [parse_loop]. by rewrite (view_go i R m Hv Hc Hi), Hs. Qed.

Lemma yields_again i R m m' u : view i R → cursor m = i → _isInvalid (this m) = false → step toLowerCase bigText None base W m = Again m' → yields m' u → yields m u.
Proof using HW. intros Hv Hc Hi Hs [n Hn]. exists (S n). cbn [parse_loop]. by rewrite (view_go i R m Hv Hc Hi), Hs. Qed.

(** Behind the end. *)
Lemma yields_end i m : view i [] → cursor m = i + 1 → yields m (this m).
Proof.
  intros (P & HP & ->) Hc. rewrite app_nil_r in HP. rewrite <- HP in Hc. exists 1%nat. cbn [parse_loop]. unfold go_on. rewrite Hc. replace (len W + 1 - 1) with (len W) by lia.
  rewrite code_beyond by lia. pose proof (len_nonneg W). by rewrite (proj2 (Z.eqb_neq (len W + 1) 0)) by lia.
Qed.

(** The turn at the end. *)
Lemma yields_finish i m m' u : view i [] → cursor m = i → _isInvalid (this m) = false → step toLowerCase bigText None base W m = Advance m' →
  cursor m' = i → this m' = u → yields m u.
Proof using HW. intros Hv Hc Hi Hs Hc' <-. eapply yields_advance; [done..|]. rewrite Hc'. by apply (yields_end i (with_cursor (i + 1) m')). Qed.

(** A run of characters in one state. *)
Lemma yields_run (mk : Z → str → machine) (X R : str) i u : view i (X ++ R) →
  (∀ j d, cursor (mk j d) = j ∧ _isInvalid (this (mk j d)) = false ∧ with_cursor (j + 1) (mk j d) = mk (j + 1) d) →
  (∀ j d c t, X = d ++ c :: t → charCodeAt W j = c → step toLowerCase bigText None base W (mk j d) = Advance (mk j (d ++ [c]))) →
  yields (mk (i + len X) X) u → yields (mk i []) u.
Proof using HW.
  intros Hv Hmk Hstep Hy. enough (∀ Y d j, X = d ++ Y → view j (Y ++ R) → j + len Y = i + len X → yields (mk j d) u) as H by exact (H X [] i eq_refl Hv eq_refl).
  induction Y as [|c Y IH]; intros d j HX Hj El.
  - rewrite app_nil_r in HX. subst d. rewrite len_nil, Z.add_0_r in El. by rewrite El.
  - destruct (Hmk j d) as (H1 & H2 & _). eapply yields_advance; [exact Hj|done|done|apply (Hstep j d c Y HX); by eapply view_code|].
    destruct (Hmk j (d ++ [c])) as (H3 & _ & H4). rewrite H3, H4. apply IH; [by rewrite <- app_assoc|by eapply view_next|]. rewrite len_cons in El. lia.
Qed.

(** *** The scheme *)

Lemma read_scheme s R u r : scheme_text s → view 0 (s ++ COLON :: R) → _isInvalid u = false →
  yields (mkM Scheme (len s) s false false u) r → yields (mkM SchemeStart 0 [] false false u) r.
Proof using HW.
  intros (c & t & -> & Ha & Hl & Ht) Hv Hi Hy. eapply yields_advance; [exact Hv|done|done| |].
  { unfold step. cbn [st cursor]. rewrite (view_code 0 c _ Hv). unfold step_scheme_start. rewrite Ha. reflexivity. }
  cbn [buffer app]. rewrite Hl.
  apply (yields_run (λ j d, mkM Scheme j (c :: d) false false u) t (COLON :: R)); [by eapply view_next|done| |].
  - intros j d x t' -> Hx. unfold step. cbn [st cursor]. rewrite Hx. apply Forall_app in Ht as [_ [[Hal Hlo] _]%Forall_cons]. unfold step_scheme. by rewrite Hal, Hlo.
  - rewrite len_cons in Hy. by rewrite Z.add_comm in Hy |- *.
Qed.

(** The state after the scheme. *)
Lemma step_colon s i u : charCodeAt W i = COLON → 
  step toLowerCase bigText None base W (mkM Scheme i s false false u) =
  let v := set_scheme s u in
  let v := if isRelativeScheme s then set_relative true v else v in
  Advance (mkM (if bool_decide (s = FILE) then Relative
     else if _isRelative v && match base with Some b => bool_decide (_scheme b = s) | None => false end then RelativeOrAuthority
     else if _isRelative v then AuthorityFirstSlash else SchemeData) i [] false false v).
Proof. intros Hc. unfold step. cbn [st cursor]. rewrite Hc. unfold step_scheme. cbn. by destruct (isRelativeScheme s). Qed.

(** *** The end: query and fragment *)

Lemma read_fragment i t u : view i t → Forall (λ c, 0 ≤ c ∧ is_tab c = false) t → _isInvalid u = false →
  ∀ buf sa sb, yields (mkM Fragment i buf sa sb (set_fragment (js "#") u)) (set_fragment (HASH :: t) u).
Proof using HW.
  intros Hv Ht Hi buf sa sb. assert (view i (t ++ [])) as Hv' by (by rewrite app_nil_r).
  apply (yields_run (λ j d, mkM Fragment j buf sa sb (set_fragment (HASH :: d) u)) t [] i); [done|done| |].
  - intros j d c t' -> Hc. unfold step. cbn [st cursor]. rewrite Hc. apply Forall_app in Ht as [_ [[H0 Htab] _]%Forall_cons]. unfold step_fragment.
    rewrite (proj2 (Z.eqb_neq c EOF)) by (unfold EOF; lia). by rewrite Htab.
  - apply view_app in Hv'. eapply yields_finish; [exact Hv'|done|done|unfold step; cbn [st cursor]; by rewrite (view_end _ Hv')|done|done].
Qed.

(** What comes after the path, or after the data of a scheme: nothing, a query, a fragment. *)
Definition ending (u : url) (q f : str) : url := set_fragment f (set_query q u).

Lemma read_query i t f u : view i (t ++ f) → Forall (λ c, query_char c = true) t → fragment_text f → _isInvalid u = false → _fragment u = [] →
  ∀ buf sa sb, yields (mkM Query i buf sa sb (set_query (js "?") u)) (ending u (QUERY :: t) f).
Proof using HW.
  intros Hv Ht Hf Hi Hfu buf sa sb. apply (yields_run (λ j d, mkM Query j buf sa sb (set_query (QUERY :: d) u)) t f i); [done|done| |].
  - intros j d c t' -> Hc. unfold step. cbn [st cursor]. rewrite Hc. apply Forall_app in Ht as [_ [Hq _]%Forall_cons]. unfold step_query. pose proof (kept_range _ _ Hq).
    assert (c ≠ HASH) by (by apply (kept_not _ c HASH Hq)). unfold HASH, EOF, is_tab in *. ranges. unfold percentEscapeQuery. by rewrite (kept_escape _ _ Hq).
  - apply view_app in Hv. destruct Hf as [->|(s & -> & Hs & _)].
    + eapply yields_finish; [exact Hv|done|done|unfold step; cbn [st cursor]; by rewrite (view_end _ Hv)|done|].
      unfold ending; destruct u; cbn in *; by subst.
    + eapply yields_advance; [exact Hv|done|done| |].
      { unfold step. cbn [st cursor]. rewrite (view_code _ _ _ Hv). reflexivity. }
      exact (read_fragment _ s (set_query (QUERY :: t) u) (view_next _ _ _ Hv) Hs Hi _ _ _).
Qed.

(** In a state that goes on with ? to the query and with # to the fragment, and stays at the end. *)
Lemma read_ending i q f u buf sa sb s m0 : view i (q ++ f) → query_text q → fragment_text f → _isInvalid u = false → _query u = [] → _fragment u = [] →
  cursor m0 = i → _isInvalid (this m0) = false →
  (charCodeAt W i = EOF → step toLowerCase bigText None base W m0 = Advance (mkM s i buf sa sb u)) →
  (charCodeAt W i = QUERY → step toLowerCase bigText None base W m0 = Advance (mkM Query i buf sa sb (set_query (js "?") u))) →
  (charCodeAt W i = HASH → step toLowerCase bigText None base W m0 = Advance (mkM Fragment i buf sa sb (set_fragment (js "#") u))) →
  yields m0 (ending u q f).
Proof using HW.
  intros Hv Hq Hf Hi Hqu Hfu Hc H0 H1 H2 H3. destruct Hq as [->|(t & -> & Ht)].
  - destruct Hf as [->|(x & -> & Hx & _)].
    + eapply yields_finish; [exact Hv|done|done|by apply H1, view_end|done|]. unfold ending; destruct u; cbn in *; by subst.
    + cbn [app] in Hv. eapply yields_advance; [exact Hv|done|done|by apply H3; eapply view_code|].
      replace (ending u [] (HASH :: x)) with (set_fragment (HASH :: x) u) by (unfold ending; destruct u; cbn in *; by subst).
      exact (read_fragment _ x u (view_next _ _ _ Hv) Hx Hi _ _ _).
  - cbn [app] in Hv. eapply yields_advance; [exact Hv|done|done|by apply H2; eapply view_code|].
    exact (read_query _ t f u (view_next _ _ _ Hv) Ht Hf Hi Hfu _ _ _).
Qed.

(** *** The path *)

Lemma path_step j d c p u sa sb : charCodeAt W j = c → path_char c = true → slash c = false →
  step toLowerCase bigText None base W (mkM RelativePath j d sa sb (set_path p u)) = Advance (mkM RelativePath j (d ++ [c]) sa sb (set_path p u)).
Proof.
  intros Hc Hp Hs. unfold step. cbn [st cursor]. rewrite Hc. pose proof (kept_range _ _ Hp). assert (c ≠ HASH) by (by apply (kept_not _ c HASH Hp)). assert (c ≠ QUERY) by (by apply (kept_not _ c QUERY Hp)).
  unfold step_path. rewrite Hs. unfold HASH, QUERY, EOF, is_tab in *. ranges. unfold percentEscape. by rewrite (kept_escape _ _ Hp).
Qed.

Lemma take_segment_text c j s p u sa sb : segment_text toLowerCase s → (_scheme u = FILE → no_bar [s] ∨ p ≠ []) →
  take_segment toLowerCase c (mkM RelativePath j s sa sb (set_path p u)) = mkM RelativePath j [] sa sb (set_path (p ++ [s]) u).
Proof.
  intros (_ & Hd & H1 & H2) Hb. unfold take_segment. cbn [buffer this]. rewrite Hd. cbn [default from_option]. unfold id. rewrite !(bool_decide_false (s = _)) by done. cbn [andb negb].
  cbn [_scheme _path set_path]. match goal with |- context [if ?b then [_; COLON] else s] => replace b with false; [done|] end. symmetry.
  destruct (bool_decide (_scheme u = FILE)) eqn:E1; [|done]. apply bool_decide_eq_true in E1. destruct (bool_decide (p = [])) eqn:E2; [|done]. apply bool_decide_eq_true in E2.
  destruct (Hb E1) as [Hn|]; [|done]. destruct (Z.eqb_spec (len s) 2) as [El|]; [|done].
  destruct s as [|x [|y [|z s]]]; [done|done| |rewrite !len_cons in El; pose proof (len_nonneg s); lia].
  change (charCodeAt [x; y] 0) with x. change (charCodeAt [x; y] 1) with y. destruct (Z.eqb_spec y PIPE) as [->|]; [|by rewrite andb_false_r]. by rewrite (Hn x []).
Qed.

Lemma read_path path q f u : query_text q → fragment_text f → _isInvalid u = false → _query u = [] → _fragment u = [] → path ≠ [] → Forall (segment_text toLowerCase) path →
  ∀ i p sa sb, (_scheme u = FILE → no_bar (p ++ path)) → view i (join_path path ++ q ++ f) →
  yields (mkM RelativePath i [] sa sb (set_path p u)) (ending (set_path (p ++ path) u) q f).
Proof using HW.
  intros Hq Hf Hi Hqu Hfu. induction path as [|s path IH]; intros Hne Hall i p sa sb Hbar Hv; [done|]. apply Forall_cons in Hall as [Hs Hall].
  assert (_scheme u = FILE → no_bar [s] ∨ p ≠ []) as Hb.
  { intros E. specialize (Hbar E). destruct p as [|x p]; [left|by right]. intros c p' [= E' _]. apply (Hbar c path). by rewrite E'. }
  assert (∀ R, view i (s ++ R) → yields (mkM RelativePath (i + len s) s sa sb (set_path p u)) (ending (set_path (p ++ s :: path) u) q f) →
    yields (mkM RelativePath i [] sa sb (set_path p u)) (ending (set_path (p ++ s :: path) u) q f)) as Hrun.
  { intros R HR Hy. apply (yields_run (λ j d, mkM RelativePath j d sa sb (set_path p u)) s R i); [done|done| |done].
    intros j d c t E Hc. destruct Hs as [Hs _]. rewrite E in Hs. apply Forall_app in Hs as [_ [[Hp Hsl] _]%Forall_cons]. by apply path_step. }
  destruct path as [|s' path].
  - cbn [join_path] in Hv. apply (Hrun (q ++ f) Hv). apply view_app in Hv.
    apply (read_ending (i + len s) q f (set_path (p ++ [s]) u) [] sa sb RelativePath); try done; intros Hc; unfold step; cbn [st cursor]; rewrite Hc; unfold step_path; cbn [bool_decide andb orb slash];
      rewrite take_segment_text by done; reflexivity.
  - assert (join_path (s :: s' :: path) = s ++ SLASH :: join_path (s' :: path)) as Ej by done. rewrite Ej, <- app_assoc in Hv. cbn [app] in Hv. apply (Hrun _ Hv). apply view_app in Hv.
    eapply yields_advance; [exact Hv|done|done| |].
    { unfold step. cbn [st cursor]. rewrite (view_code _ _ _ Hv). unfold step_path. cbn [orb slash]. change (SLASH =? EOF) with false. change (SLASH =? SLASH) with true. cbn [orb].
      rewrite take_segment_text by done. reflexivity. }
    cbn [with_cursor cursor]. replace (p ++ s :: s' :: path) with ((p ++ [s]) ++ s' :: path) by (by rewrite <- app_assoc). apply IH; [done..| |by eapply view_next].
    intros E. rewrite <- app_assoc. by apply Hbar.
Qed.

Lemma read_tail path q f u i sa sb : query_text q → fragment_text f → _isInvalid u = false → _query u = [] → _fragment u = [] → _path u = [] → path ≠ [] →
  Forall (segment_text toLowerCase) path → (_scheme u = FILE → no_bar path) → view i (SLASH :: join_path path ++ q ++ f) →
  yields (mkM RelativePathStart i [] sa sb u) (ending (set_path path u) q f).
Proof using HW.
  intros Hq Hf Hi Hqu Hfu Hp Hne Hall Hbar Hv. eapply yields_advance; [exact Hv|done|done|unfold step; cbn [st cursor]; rewrite (view_code _ _ _ Hv); reflexivity|].
  assert (set_path [] u = u) as Eu by (destruct u; cbn in *; by subst). cbn [with_cursor goto cursor st buffer seenAt seenBracket this]. rewrite <- Eu at 1.
  apply (read_path path q f u) with (p := []); try done. by eapply view_next.
Qed.

(** *** The port *)

Lemma read_port v u i R sa sb r : 0 ≤ v < 2 ^ 53 → default_port (_scheme u) ≠ Some v → _isInvalid u = false → view i (decimal_text 16 v ++ SLASH :: R) →
  yields (mkM RelativePathStart (i + len (decimal_text 16 v)) [] sa sb (set_port (decimal_text 16 v) u)) r → yields (mkM Port i [] sa sb u) r.
Proof using HW.
  intros Hr Hd Hi Hv Hy. destruct (decimal_digits 16 v) as (Hdig & Hval & Hne); [lia|cbn; lia|]. destruct Hne as [Hne|]; [|done]. set (p := decimal_text 16 v) in *.
  apply (yields_run (λ j d, mkM Port j d sa sb u) p (SLASH :: R) i); [done|done| |].
  - intros j d c t E Hc. unfold step. cbn [st cursor]. rewrite Hc. rewrite E in Hdig. apply Forall_app in Hdig as [_ [H _]%Forall_cons]. unfold step_port. by rewrite H.
  - apply view_app in Hv. eapply yields_again; [exact Hv|done|done| |exact Hy]. unfold step. cbn [st cursor]. rewrite (view_code _ _ _ Hv). unfold step_port. change (is_digit SLASH) with false. change (ends SLASH) with true. cbn [orb].
    unfold take_port. cbn [buffer this]. rewrite (bool_decide_false (p = [])), Hval by done. rewrite bool_decide_false by done.
    unfold number_text. rewrite (proj2 (Z.ltb_lt v (2 ^ 53))) by lia. reflexivity.
Qed.

(** *** The host *)

Lemma read_host h u i c R sa r : toLowerCase h = h → h ≠ [] → Forall host_char h → is_Some (brackets false h) → (c = SLASH ∨ c = COLON ∧ brackets false h = Some false) →
  _isInvalid u = false → view i (h ++ c :: R) →
  (∀ sb, yields (if c =? SLASH then mkM RelativePathStart (i + len h) [] sa sb (set_host h u) else mkM Port (i + len h + 1) [] sa sb (set_host h u)) r) →
  yields (mkM Host i [] sa false u) r.
Proof using HW.
  intros Hl Hne Hh Hb Hc Hi Hv Hy. apply (yields_run (λ j d, mkM Host j d sa (open_after false d) u) h (c :: R) i); [done|done| |].
  - intros j d x t E Hx. unfold step. cbn [st cursor]. rewrite Hx. rewrite E in Hh, Hb. apply Forall_app in Hh as [_ [(H0 & He & Ht) _]%Forall_cons].
    unfold step_host. cbn [seenBracket]. rewrite (brackets_colon _ _ _ _ Hb), He, Ht. cbn [negb buffer]. by rewrite open_snoc.
  - apply view_app in Hv. pose proof (view_code _ _ _ Hv) as Hx. assert (take_host toLowerCase (mkM Host (i + len h) h sa (open_after false h) u) = mkM Host (i + len h) [] sa (open_after false h) (set_host h u)) as Et.
    { unfold take_host, IDNAToASCII. cbn [buffer this]. by rewrite Hl, bool_decide_false. }
    destruct Hc as [->|[-> Hf]].
    + eapply yields_again; [exact Hv|done|done| |apply (Hy (open_after false h))]. unfold step. cbn [st cursor]. rewrite Hx. unfold step_host. change (SLASH =? COLON) with false. change (ends SLASH) with true. cbn [andb].
      by rewrite Et.
    + eapply yields_advance; [exact Hv|done|done| |].
      { unfold step. cbn [st cursor]. rewrite Hx. unfold step_host. cbn [seenBracket]. rewrite (brackets_after _ _ _ Hf) at 1. cbn [Z.eqb COLON Pos.eqb negb andb]. rewrite Et. reflexivity. }
      apply (Hy (open_after false h)).
Qed.

(** *** The user *)

Lemma take_user_name s u R : user_text s → _password u = None → take_user (s ++ R) u = take_user R (set_user (_username u ++ s) None u).
Proof.
  intros Hs. revert u. induction s as [|c s IH]; intros u Hu; [f_equal; cbn; rewrite app_nil_r; destruct u; cbn in *; by subst|].
  apply Forall_cons in Hs as [(Hp & Ha & Hsl & Hco) Hs]. pose proof (kept_range _ _ Hp). cbn [take_user app]. rewrite range_tab by lia.
  rewrite (proj2 (Z.eqb_neq c COLON) Hco). unfold percentEscape. rewrite (kept_escape _ _ Hp), Hu. cbn [andb]. rewrite IH by done. cbn. by rewrite <- app_assoc.
Qed.

Lemma take_user_pass s u p : pass_text s → _password u = Some p → take_user s u = inl (set_user (_username u) (Some (p ++ s)) u).
Proof.
  intros Hs. revert u p. induction s as [|c s IH]; intros u p Hu; [cbn; rewrite app_nil_r; destruct u; cbn in *; by subst|].
  apply Forall_cons in Hs as [(Hp & Ha & Hsl) Hs]. pose proof (kept_range _ _ Hp). cbn [take_user]. rewrite range_tab by lia.
  unfold percentEscape. rewrite (kept_escape _ _ Hp), Hu. rewrite (bool_decide_false (Some p = None)), andb_false_r by done. rewrite (IH Hs _ (p ++ [c])) by done. cbn. by rewrite <- app_assoc.
Qed.

(** The text before the @. *)
Definition user_part (n : str) (p : option str) : str := n ++ match p with Some p => COLON :: p | None => [] end.

Lemma take_user_part n p u : user_text n → pass_text (default [] p) → _username u = [] → _password u = None → take_user (user_part n p) u = inl (set_user n p u).
Proof.
  intros Hn Hp Hu Hpu. unfold user_part. rewrite take_user_name, Hu by done. destruct p as [p|]; [|done]. cbn [take_user]. change (is_tab COLON) with false. change (COLON =? COLON) with true. cbn [andb _password set_user].
  by rewrite (take_user_pass p _ []).
Qed.

Lemma user_part_chars n p : user_text n → pass_text (default [] p) → Forall (λ c, 0 < c ∧ c ≠ AT ∧ ends c = false) (user_part n p).
Proof.
  assert (∀ c, path_char c = true ∧ c ≠ AT ∧ slash c = false → 0 < c ∧ c ≠ AT ∧ ends c = false) as Hc.
  { intros c (Hp & Ha & Hs). pose proof (kept_range _ _ Hp). assert (c ≠ HASH) by (by apply (kept_not _ c HASH Hp)). assert (c ≠ QUERY) by (by apply (kept_not _ c QUERY Hp)).
    split_and!; [lia|done|]. unfold ends. rewrite Hs. unfold EOF. ranges. done. }
  intros Hn Hp. apply Forall_app; split; [eapply Forall_impl; [exact Hn|]; cbn; intros c (? & ? & ? & ?); by apply Hc|].
  destruct p as [p|]; [|done]. apply Forall_cons; split; [done|]. eapply Forall_impl; [exact Hp|]. exact Hc.
Qed.

(** *** The authority *)

(** What the state before the host reads goes back to the host. *)
Lemma read_to_host i T c R u sa r : Forall (λ c, c ≠ AT ∧ ends c = false) T → ends c = true → c ≠ AT → _isInvalid u = false → view i (T ++ c :: R) →
  yields (mkM Host i [] sa false u) r → yields (mkM Authority i [] sa false u) r.
Proof using HW.
  intros HT Hc Ha Hi Hv Hy. apply (yields_run (λ j d, mkM Authority j d sa false u) T (c :: R) i); [done|done| |].
  - intros j d x t -> Hx. unfold step. cbn [st cursor]. rewrite Hx. apply Forall_app in HT as [_ [[H1 H2] _]%Forall_cons]. unfold step_authority. by rewrite (proj2 (Z.eqb_neq x AT) H1), H2.
  - apply view_app in Hv. eapply yields_again; [exact Hv|done|done| |exact Hy]. unfold step. cbn [st cursor]. rewrite (view_code _ _ _ Hv). unfold step_authority.
    rewrite (proj2 (Z.eqb_neq c AT) Ha), Hc. cbn. by replace (i + len T - len T) with i by lia.
Qed.

Lemma read_user i n p R u r : user_text n → pass_text (default [] p) → _username u = [] → _password u = None → _isInvalid u = false → view i (user_part n p ++ AT :: R) →
  yields (mkM Authority (i + len (user_part n p) + 1) [] true false (set_user n p u)) r → yields (mkM Authority i [] false false u) r.
Proof using HW.
  intros Hn Hp Hu Hpu Hi Hv Hy. pose proof (user_part_chars _ _ Hn Hp) as HT. apply (yields_run (λ j d, mkM Authority j d false false u) (user_part n p) (AT :: R) i); [done|done| |].
  - intros j d x t E Hx. unfold step. cbn [st cursor]. rewrite Hx. rewrite E in HT. apply Forall_app in HT as [_ [(_ & H1 & H2) _]%Forall_cons]. unfold step_authority. by rewrite (proj2 (Z.eqb_neq x AT) H1), H2.
  - apply view_app in Hv. eapply yields_advance; [exact Hv|done|done| |].
    { unfold step. cbn [st cursor]. rewrite (view_code _ _ _ Hv). unfold step_authority. cbn [Z.eqb AT Pos.eqb seenAt buffer this]. rewrite take_user_part by done. reflexivity. }
    exact Hy.
Qed.

(** From the first slash. *)
Lemma read_slashes i c R u r : view i (SLASH :: SLASH :: c :: R) → slash c = false → _isInvalid u = false →
  yields (mkM Authority (i + 2) [] false false u) r → ∀ s, s = RelativeOrAuthority ∨ s = AuthorityFirstSlash → yields (mkM s i [] false false u) r.
Proof using HW.
  intros Hv Hc Hi Hy s Hs. pose proof (view_next _ _ _ Hv) as Hv1. pose proof (view_next _ _ _ Hv1) as Hv2.
  assert (yields (mkM AuthorityIgnoreSlashes (i + 1 + 1) [] false false u) r) as Hig.
  { eapply yields_again; [exact Hv2|done|done|unfold step; cbn [st cursor]; rewrite (view_code _ _ _ Hv2), Hc; reflexivity|]. replace (i + 1 + 1) with (i + 2) by lia. exact Hy. }
  destruct Hs as [->| ->].
  - eapply yields_advance; [exact Hv|done|done|unfold step; cbn [st cursor]; unfold step_relative_or_authority; cbn [cursor]; rewrite (view_code _ _ _ Hv), (view_code _ _ _ Hv1); reflexivity|].
    eapply yields_advance; [exact Hv1|done|done|unfold step; cbn [st cursor with_cursor goto]; rewrite (view_code _ _ _ Hv1); reflexivity|exact Hig].
  - eapply yields_advance; [exact Hv|done|done|unfold step; cbn [st cursor]; rewrite (view_code _ _ _ Hv); reflexivity|].
    eapply yields_advance; [exact Hv1|done|done|unfold step; cbn [st cursor with_cursor goto]; rewrite (view_code _ _ _ Hv1); reflexivity|exact Hig].
Qed.

(** *** The host, the port and what follows *)

Definition host_part (h p : str) : str := if bool_decide (p = []) then h else h ++ COLON :: p.

Lemma host_part_chars h p s : Forall (λ c, host_char c ∧ c ≠ AT) h → port_text s p → Forall (λ c, c ≠ AT ∧ ends c = false) (host_part h p).
Proof.
  intros Hh Hp. assert (Forall (λ c, c ≠ AT ∧ ends c = false) h) as Hh' by (eapply Forall_impl; [exact Hh|]; cbn; intros c ((_ & ? & _) & ?); done).
  unfold host_part. case_bool_decide; [done|]. destruct Hp as [->|(v & Hv & -> & _)]; [done|]. apply Forall_app; split; [done|]. apply Forall_cons; split; [done|].
  destruct (decimal_digits 16 v) as (Hd & _ & _); [lia|cbn; lia|]. eapply Forall_impl; [exact Hd|]. cbn. intros c Hc. unfold is_digit in Hc. destruct (inRange_spec c 48 57); [|done].
  unfold ends, slash, EOF, SLASH, BACKSLASH, QUERY, HASH, AT. ranges. split; [lia|done].
Qed.

Lemma read_host_on i sa v u : host_text toLowerCase (_host u) → port_text (_scheme v) (_port u) → (_port u ≠ [] → brackets false (_host u) = Some false) →
  _path u ≠ [] → Forall (segment_text toLowerCase) (_path u) → query_text (_query u) → fragment_text (_fragment u) →
  _isInvalid v = false → _scheme v ≠ FILE → _port v = [] → _path v = [] → _query v = [] → _fragment v = [] →
  view i (host_part (_host u) (_port u) ++ SLASH :: join_path (_path u) ++ _query u ++ _fragment u) →
  yields (mkM Authority i [] sa false v) (ending (set_path (_path u) (set_port (_port u) (set_host (_host u) v))) (_query u) (_fragment u)).
Proof using HW.
  intros (Hne & Hl & Hh & Hb) Hp Hbr Hpe Hseg Hq Hf Hi Hs Hvp Hvpa Hvq Hvf Hv.
  assert (Forall host_char (_host u)) as Hh' by (eapply Forall_impl; [exact Hh|]; cbn; tauto).
  eapply (read_to_host i (host_part (_host u) (_port u)) SLASH); [by eapply host_part_chars|done|done|done|exact Hv|]. unfold host_part in Hv. destruct (bool_decide_reflect (_port u = [])) as [E|E].
  - eapply (read_host _ v i SLASH); [done..|by left|done|exact Hv|]. intros sb. change (SLASH =? SLASH) with true. cbv iota. apply view_app in Hv. rewrite E.
    replace (set_port [] (set_host (_host u) v)) with (set_host (_host u) v) by (destruct v; cbn in *; by subst). by apply read_tail.
  - destruct Hp as [|(x & Hx & Ex & Hd)]; [done|]. rewrite <- app_assoc in Hv. cbn [app] in Hv. eapply (read_host _ v i COLON); [done..|right; split; [done|by apply Hbr]|done|exact Hv|].
    intros sb. change (COLON =? SLASH) with false. cbv iota. apply view_app in Hv. apply view_next in Hv. rewrite Ex in Hv |- *. eapply read_port; [exact Hx|exact Hd|exact Hi|exact Hv|].
    apply view_app in Hv. by apply read_tail.
Qed.

(** ** The whole text *)

Definition with_url (s : str) (u : url) : url :=
  mkUrl s (_scheme u) (_schemeData u) (_username u) (_password u) (_host u) (_port u) (_path u) (_query u) (_fragment u) (_isInvalid u) (_isRelative u).
Definition new_url (s : str) : url := mkUrl s [] [] [] None [] [] [] [] [] false false.

Lemma get_host_part u : _isInvalid u = false → get_host u = host_part (_host u) (_port u).
Proof. intros H. unfold get_host. by rewrite H. Qed.

Lemma authority_part u : get_authority u = (if bool_decide (_username u = []) && bool_decide (_password u = None) then [] else user_part (_username u) (_password u) ++ [AT]).
Proof. unfold get_authority, user_part. case_match; [done|]. by rewrite <- app_assoc. Qed.

Lemma read_authority i v u : user_text (_username u) → pass_text (default [] (_password u)) → host_text toLowerCase (_host u) → port_text (_scheme v) (_port u) →
  (_port u ≠ [] → brackets false (_host u) = Some false) →
  _path u ≠ [] → Forall (segment_text toLowerCase) (_path u) → query_text (_query u) → fragment_text (_fragment u) → _isInvalid u = false →
  _isInvalid v = false → _scheme v ≠ FILE → _username v = [] → _password v = None → _port v = [] → _path v = [] → _query v = [] → _fragment v = [] →
  view i (get_authority u ++ get_host u ++ SLASH :: join_path (_path u) ++ _query u ++ _fragment u) →
  yields (mkM Authority i [] false false v) (ending (set_path (_path u) (set_port (_port u) (set_host (_host u) (set_user (_username u) (_password u) v)))) (_query u) (_fragment u)).
Proof using HW.
  intros Hn Hpw Hh Hp Hbr Hpe Hseg Hq Hf Hiu Hi Hs Hvn Hvpw Hvp Hvpa Hvq Hvf Hv. rewrite authority_part, get_host_part in Hv by done.
  destruct (bool_decide (_username u = []) && bool_decide (_password u = None)) eqn:E.
  - apply andb_true_iff in E as [E1%bool_decide_eq_true E2%bool_decide_eq_true]. replace (set_user (_username u) (_password u) v) with v by (rewrite E1, E2; destruct v; cbn in *; by subst). by apply read_host_on.
  - rewrite <- app_assoc in Hv. cbn [app] in Hv. eapply read_user; [done..|exact Hv|]. apply view_app in Hv. apply view_next in Hv. by apply read_host_on.
Qed.

(** *** Files and other schemes *)

Lemma read_file i v u : file_host_text toLowerCase (_host u) → no_bar (_path u) → _path u ≠ [] → Forall (segment_text toLowerCase) (_path u) → query_text (_query u) → fragment_text (_fragment u) →
  _isInvalid v = false → _scheme v = FILE → _isRelative v = true → _host v = [] → _path v = [] → _query v = [] → _fragment v = [] →
  view i (SLASH :: SLASH :: _host u ++ SLASH :: join_path (_path u) ++ _query u ++ _fragment u) →
  yields (mkM Relative i [] false false v) (ending (set_path (_path u) (set_host (_host u) v)) (_query u) (_fragment u)).
Proof using HW.
  intros Hh Hbar Hpe Hseg Hq Hf Hi Hs Hr Hvh Hvpa Hvq Hvf Hv. pose proof (view_next _ _ _ Hv) as Hv1. pose proof (view_next _ _ _ Hv1) as Hv2.
  assert (set_relative true v = v) as Ev by (destruct v; cbn in *; by subst).
  eapply yields_advance; [exact Hv|done|done| |].
  { unfold step. cbn [st cursor]. rewrite (view_code _ _ _ Hv). unfold step_relative. cbn [this with_this]. rewrite Ev, (bool_decide_true _ Hs). reflexivity. }
  eapply yields_advance; [exact Hv1|done|done| |].
  { unfold step. cbn [st cursor with_cursor goto with_this buffer seenAt seenBracket this]. rewrite (view_code _ _ _ Hv1). unfold step_relative_slash. cbn [this]. rewrite (bool_decide_true _ Hs). reflexivity. }
  apply (yields_run (λ j d, mkM FileHost j d false false v) (_host u) (SLASH :: join_path (_path u) ++ _query u ++ _fragment u) (i + 1 + 1)); [done|done| |].
  - intros j d c t E Hc. destruct Hh as [Hh|(_ & Hh & _)]; [rewrite Hh in E; by destruct d|]. rewrite E in Hh. apply Forall_app in Hh as [_ [(_ & H1 & H2) _]%Forall_cons].
    unfold step. cbn [st cursor]. rewrite Hc. unfold step_file_host. by rewrite H1, H2.
  - apply view_app in Hv2. destruct (bool_decide_reflect (_host u = [])) as [E|E].
    + rewrite E in Hv2 |- *. replace (set_host [] v) with v by (destruct v; cbn in *; by subst).
      eapply yields_again; [exact Hv2|done|done|unfold step; cbn [st cursor]; rewrite (view_code _ _ _ Hv2); reflexivity|]. by apply read_tail.
    + destruct Hh as [|(Hl & Hh & Hd)]; [done|]. eapply yields_again; [exact Hv2|done|done| |].
      { unfold step. cbn [st cursor]. rewrite (view_code _ _ _ Hv2). unfold step_file_host. change (ends SLASH) with true. cbn [buffer]. fold (drive_text (_host u)). rewrite Hd.
        rewrite (proj2 (Z.eqb_neq (len (_host u)) 0)) by (intros ?%len_zero; done). unfold take_host, IDNAToASCII. cbn [buffer this]. rewrite Hl, bool_decide_false by done. reflexivity. }
      by apply read_tail.
Qed.

Lemma read_data i v u : Forall (λ c, path_char c = true) (_schemeData u) → query_text (_query u) → fragment_text (_fragment u) →
  _isInvalid v = false → _schemeData v = [] → _query v = [] → _fragment v = [] → view i (_schemeData u ++ _query u ++ _fragment u) →
  yields (mkM SchemeData i [] false false v) (ending (set_schemeData (_schemeData u) v) (_query u) (_fragment u)).
Proof using HW.
  intros Hd Hq Hf Hi Hvd Hvq Hvf Hv. replace v with (set_schemeData [] v) at 1 by (destruct v; cbn in *; by subst).
  apply (yields_run (λ j d, mkM SchemeData j [] false false (set_schemeData d v)) (_schemeData u) (_query u ++ _fragment u) i); [done|done| |].
  - intros j d c t E Hc. rewrite E in Hd. apply Forall_app in Hd as [_ [Hp _]%Forall_cons]. unfold step. cbn [st cursor]. rewrite Hc. unfold step_scheme_data. pose proof (kept_range _ _ Hp).
    rewrite (proj2 (Z.eqb_neq c QUERY)), (proj2 (Z.eqb_neq c HASH)), (proj2 (Z.eqb_neq c EOF)), range_tab by (unfold EOF; lia || by apply (kept_not _ c _ Hp)).
    unfold percentEscape. by rewrite (kept_escape _ _ Hp).
  - apply view_app in Hv. apply (read_ending (i + len (_schemeData u)) _ _ (set_schemeData (_schemeData u) v) [] false false SchemeData); try done; intros Hc; unfold step; cbn [st cursor]; by rewrite Hc.
Qed.
End reading.

(** ** The text of a clean URL *)

Lemma sealed_app X Y : sealed Y → (Y = [] → sealed X) → sealed (X ++ Y).
Proof. intros HY HX c. destruct Y as [|y Y _] using rev_ind; [rewrite app_nil_r; by apply HX|]. rewrite app_assoc, last_snoc. intros [= <-]. apply HY. by rewrite last_snoc. Qed.

Lemma sealed_all s : Forall (λ c, 0x20 < c) s → sealed s.
Proof.
  intros H c Hc. apply last_Some in Hc as [s' ->]. apply Forall_app in H as [_ [H _]%Forall_cons]. unfold is_blank. cbn [existsb]. ranges. done.
Qed.

Lemma strip_sealed c s : is_blank c = false → sealed (c :: s) → strip (c :: s) = c :: s.
Proof.
  intros Hc Hs. unfold strip. cbn [strip_start]. rewrite Hc. destruct (reverse (c :: s)) as [|x r] eqn:E; [by apply (f_equal reverse) in E; rewrite reverse_involutive in E|].
  cbn [strip_start]. rewrite (Hs x); [by rewrite <- E, reverse_involutive|]. apply (f_equal reverse) in E. rewrite reverse_involutive, reverse_cons in E. by rewrite E, last_snoc.
Qed.

Lemma kept_all keep s : Forall (λ c, kept_by keep c = true) s → Forall (λ c, 0x20 < c) s.
Proof. intros H. eapply Forall_impl; [exact H|]. cbn. intros c Hc. pose proof (kept_range _ _ Hc). lia. Qed.

Lemma query_above q : query_text q → Forall (λ c, 0x20 < c) q.
Proof. intros [->|(t & -> & Ht)]; [done|]. apply Forall_cons; split; [done|by eapply kept_all]. Qed.

Lemma above_whole s : Forall (λ c, 0x20 < c) s → Forall (λ c, 0 ≤ c) s.
Proof. intros H. eapply Forall_impl; [exact H|]. cbn. lia. Qed.

Lemma fragment_whole f : fragment_text f → Forall (λ c, 0 ≤ c) f.
Proof. intros [->|(t & -> & Ht & _)]; [done|]. apply Forall_cons; split; [done|]. eapply Forall_impl; [exact Ht|]. by intros c [Hc _]. Qed.

Section trip.
  Context (toLowerCase : str → str) (bigText : Z → str) (u : url) (Hu : clean toLowerCase u).

(** The text after the scheme. *)
Definition href_rest : str := (if _isRelative u then js "//" ++ get_authority u ++ get_host u else []) ++ get_pathname u ++ _query u ++ _fragment u.

Lemma href_split : get_href u = _scheme u ++ COLON :: href_rest.
Proof using Hu. destruct Hu as (Hi & _). unfold get_href, href_rest, get_protocol. by rewrite Hi, <- app_assoc. Qed.

Lemma clean_scheme : scheme_text (_scheme u).
Proof using Hu. destruct Hu as (_ & _ & _ & H). destruct (_isRelative u); [|by destruct H]. by apply relative_scheme_text; destruct H. Qed.

Lemma path_above p : Forall (segment_text toLowerCase) p → Forall (λ c, 0x20 < c) (join_path p).
Proof.
  induction p as [|s p IH]; [done|]. intros [(Hs & _) Hp]%Forall_cons. assert (Forall (λ c, 0x20 < c) s) as Ha.
  { eapply Forall_impl; [exact Hs|]. cbn. intros c [Hc _]. pose proof (kept_range _ _ Hc). lia. }
  cbn [join_path]. destruct p; [done|]. apply Forall_app; split; [done|]. apply Forall_cons; split; [done|]. by apply IH.
Qed.

Lemma pathname_above : Forall (λ c, 0x20 < c) (get_pathname u).
Proof using Hu.
  destruct Hu as (Hi & _ & _ & H). unfold get_pathname. rewrite Hi. destruct (_isRelative u).
  - destruct H as (_ & _ & _ & Hp & _). apply Forall_cons; split; [done|by apply path_above].
  - destruct H as (_ & _ & Hd & _). by eapply kept_all.
Qed.

Lemma href_sealed : sealed (get_href u).
Proof using Hu.
  destruct Hu as (Hi & Hq & Hf & _). rewrite href_split. unfold href_rest. rewrite app_comm_cons, app_assoc, !(app_assoc _ _ (_fragment u)), app_assoc. apply sealed_app.
  { destruct Hf as [->|(t & -> & _ & Hs)]; [done|done]. }
  intros _. rewrite app_assoc. apply sealed_app; [by apply sealed_all, query_above|]. intros _. apply sealed_app; [apply sealed_all, pathname_above|].
  destruct (get_pathname u) eqn:E; [|done]. intros _. unfold get_pathname in E. rewrite Hi in E. destruct (_isRelative u); [done|].
  apply sealed_app; [by apply sealed_all; repeat constructor|done].
Qed.

Lemma authority_whole : _isRelative u = true → Forall (λ c, 0 ≤ c) (get_authority u ++ get_host u).
Proof using Hu.
  intros Hr. destruct Hu as (Hi & _ & _ & H). rewrite Hr in H. destruct H as (_ & _ & _ & _ & H). rewrite authority_part, get_host_part by done. destruct (bool_decide_reflect (_scheme u = FILE)) as [E|E].
  - destruct H as (-> & -> & -> & Hh & _). cbn. destruct Hh as [->|(_ & Hh & _)]; [done|]. eapply Forall_impl; [exact Hh|]. intros c [Hc _]. exact Hc.
  - destruct H as (Hn & Hp & (_ & _ & Hh & _) & Hpo & _). apply Forall_app; split.
    + destruct (_ && _); [done|]. apply Forall_app; split; [|by repeat constructor]. eapply Forall_impl; [exact (user_part_chars _ _ Hn Hp)|]. cbn. intros c [Hc _]. lia.
    + assert (Forall (λ c, 0 ≤ c) (_host u)) as Hh' by (eapply Forall_impl; [exact Hh|]; intros c [[Hc _] _]; exact Hc).
      unfold host_part. case_bool_decide; [done|]. destruct Hpo as [|(v & Hv & -> & _)]; [done|]. apply Forall_app; split; [done|]. apply Forall_cons; split; [done|].
      destruct (decimal_digits 16 v) as (Hd & _ & _); [lia|cbn; lia|]. eapply Forall_impl; [exact Hd|]. cbn. intros c Hc. unfold is_digit in Hc. destruct (inRange_spec c 48 57); [lia|done].
Qed.

Lemma href_whole : Forall (λ c, 0 ≤ c) (get_href u).
Proof using Hu.
  rewrite href_split. pose proof Hu as (_ & Hq & Hf & _). unfold href_rest. repeat (apply Forall_app; split).
  - destruct clean_scheme as (c & t & -> & Ha & _ & Ht). assert (∀ c, ALPHANUMERIC c = true → 0 ≤ c) as Hal.
    { intros x. unfold ALPHANUMERIC, ALPHA, is_upper, is_digit. destruct (inRange_spec x 65 90), (inRange_spec x 97 122), (inRange_spec x 48 57); cbn [orb]; lia. }
    apply Forall_cons; split; [apply Hal; unfold ALPHANUMERIC; by rewrite Ha|]. eapply Forall_impl; [exact Ht|]. intros x [Hx _]. by apply Hal.
  - apply Forall_cons; split; [done|]. repeat (apply Forall_app; split).
    + destruct (_isRelative u) eqn:E; [|done]. apply Forall_app; split; [by repeat constructor|by apply authority_whole].
    + apply above_whole, pathname_above.
    + by apply above_whole, query_above.
    + by apply fragment_whole.
Qed.

(** The authority does not start with a slash. *)
Lemma authority_head R : _isRelative u = true → _scheme u ≠ FILE → ∃ c R', get_authority u ++ get_host u ++ R = c :: R' ∧ slash c = false.
Proof using Hu.
  intros Hr Hs. destruct Hu as (Hi & _ & _ & H). rewrite Hr in H. destruct H as (_ & _ & _ & _ & H). rewrite bool_decide_false in H by done. destruct H as (Hn & Hp & (Hne & _ & Hh & _) & Hpo & _).
  assert (∀ c, ends c = false → slash c = false) as Hends by (intros c He; unfold ends in He; destruct (slash c); [by rewrite orb_true_r in He|done]).
  rewrite authority_part, get_host_part by done. destruct (_ && _).
  - pose proof (host_part_chars _ _ _ Hh Hpo) as Hc. assert (host_part (_host u) (_port u) ≠ []) as Hne' by (unfold host_part; case_bool_decide; destruct (_host u); done).
    destruct (host_part _ _) as [|c h]; [done|]. apply Forall_cons in Hc as [[_ He] _]. exists c. eexists. split; [done|by apply Hends].
  - pose proof (user_part_chars _ _ Hn Hp) as Hc. destruct (user_part _ _) as [|c h]; [by exists AT; eexists|]. apply Forall_cons in Hc as [(_ & _ & He) _]. exists c. eexists. split; [done|by apply Hends].
Qed.

(** The machine on the text. *)
Lemma href_yields base : yields toLowerCase bigText base (get_href u) (mkM SchemeStart 0 [] false false (new_url (get_href u))) (with_url (get_href u) u).
Proof using Hu.
  pose proof href_whole as HW. pose proof href_split as Es. pose proof clean_scheme as Hs. pose proof Hu as (Hi & Hq & Hf & H).
  assert (view (get_href u) 0 (_scheme u ++ COLON :: href_rest)) as Hv by (exists []; by rewrite Es).
  eapply read_scheme; [exact HW|exact Hs|exact Hv|done|]. apply view_app in Hv. change (0 + len (_scheme u)) with (len (_scheme u)) in Hv.
  eapply yields_advance; [exact HW|exact Hv|done|done|apply step_colon; by eapply view_code|]. apply view_next in Hv. cbn [with_cursor cursor st buffer seenAt seenBracket this].
  set (v := if isRelativeScheme (_scheme u) then _ else _). revert Hv. unfold href_rest, get_pathname. rewrite Hi.
  destruct (_isRelative u) eqn:Er.
  - destruct H as (Hsr & Hd & Hpe & Hseg & H). subst v. rewrite Hsr. cbn [js app]. rewrite <- !app_assoc. intros Hv. destruct (bool_decide_reflect (_scheme u = FILE)) as [E|E].
    + destruct H as (Hn & Hp & Hpo & Hh & Hb). rewrite authority_part, get_host_part, Hn, Hp, Hpo in Hv by done. cbn in Hv.
      replace (with_url (get_href u) u) with (ending (set_path (_path u) (set_host (_host u) (set_relative true (set_scheme (_scheme u) (new_url (get_href u)))))) (_query u) (_fragment u))
        by (unfold ending, with_url; cbn; by rewrite Hd, Hn, Hp, Hpo, Hi, Er).
      by eapply read_file.
    + destruct H as (Hn & Hp & Hh & Hpo & Hbr).
      replace (with_url (get_href u) u) with (ending (set_path (_path u) (set_port (_port u) (set_host (_host u) (set_user (_username u) (_password u) (set_relative true (set_scheme (_scheme u) (new_url (get_href u)))))))) (_query u) (_fragment u))
        by (unfold ending, with_url; cbn; by rewrite Hd, Hi, Er).
      destruct (authority_head (SLASH :: join_path (_path u) ++ _query u ++ _fragment u)) as (c & R & EcR & Hc); [done..|]. rewrite EcR in Hv.
      eapply read_slashes; [exact HW|exact Hv|done|done| |].
      * do 2 apply view_next in Hv. rewrite <- EcR in Hv. replace (len (_scheme u) + 1 + 1 + 1) with (len (_scheme u) + 1 + 2) in Hv by lia. by apply read_authority.
      * cbn [_isRelative set_relative andb]. destruct base as [b|]; [destruct (bool_decide _)|]; auto.
  - destruct H as (_ & Hsr & Hd & Hn & Hp & Hh & Hpo & Hpa). subst v. rewrite Hsr. cbn [app]. intros Hv. rewrite bool_decide_false by (intros E; by rewrite E in Hsr).
    replace (with_url (get_href u) u) with (ending (set_schemeData (_schemeData u) (set_scheme (_scheme u) (new_url (get_href u)))) (_query u) (_fragment u))
      by (unfold ending, with_url; cbn; by rewrite Hn, Hp, Hh, Hpo, Hpa, Hi, Er).
    by eapply read_data.
Qed.

(** A clean URL's text, with any base, gives the URL again. *)
Lemma href_reads_back base : jURL toLowerCase bigText (get_href u) base = Some (inl (with_url (get_href u) u)).
Proof using Hu.
  unfold jURL. destruct clean_scheme as (c & t & Es & Ha & _). assert (strip (get_href u) = get_href u) as ->.
  { pose proof href_sealed as Hs. rewrite href_split, Es in Hs |- *. apply strip_sealed; [|exact Hs]. unfold ALPHA, is_upper in Ha. unfold is_blank. cbn [existsb].
    destruct (inRange_spec c 65 90), (inRange_spec c 97 122); cbn [orb] in Ha; try done; ranges; done. }
  destruct (href_yields base) as [n Hn]. destruct (parse_ends toLowerCase bigText (get_href u) None base (new_url (get_href u))) as [r Hr]. unfold parse in *. fold (new_url (get_href u)). cbn [default from_option] in *.
  rewrite Hr. eapply loop_more in Hn; [|apply (Nat.le_max_r (turns_for (get_href u)) n)]. eapply loop_more in Hr; [|apply (Nat.le_max_l (turns_for (get_href u)) n)]. congruence.
Qed.
End trip.
